(* ===== verification/_CoqProject ===== *)
-Q . S2P
Prelude.v
Endian.v
Intset.v
Util.v
Dict.v
Dictiter.v
Db.v
Adlist.v
Sds.v
Ziplist.v
Lzf.v
Crc64.v
Rio.v
Rdb.v
Settype.v
Bitops.v
Strings.v
Networking.v
Reply.v
Replication.v
Skiplist.v
Multi.v
