(* ===== verification/Prelude.v ===== *)
(** * The core of the Redis 2.8 port for Windows

    The repository is a web site (Node.js, Polymer, Python) that brings along the
    sources of the Windows port of Redis 2.8.  This development verifies the core
    of that program, the C code of src/redis-2.8/src: its data structures, its
    compressed and dumped representations, its protocol in both directions, its
    transactions, its keyspace with lazy expiration and its replication stream.  All
    file names below are relative to that directory.

    ** What the machine is

    The model is the LLP64 build for Windows: [int] and [long] have 32 bits,
    [long long], [size_t] and pointers 64.  An integer is a [Z] and the wrap
    around of its width is written out ([u8] ... [i64]); where the code relies on
    an operation not wrapping, the theorem has the bound as a hypothesis or
    derives it from an invariant.  A block of memory is a list of bytes ([list Z])
    and a pointer into it is an offset; [mload], [mstore], [mget], [mset] and
    [mmove] of this file fail outside of the block, so a theorem that a function
    returns a result also says that it stays within its memory.  What new memory
    holds is an argument ([junk]).  Nodes and objects that are shared are in a
    store, a [gmap] from locations.  Undefined behaviour and a failing assertion
    are [None]; where the error return of a function matters, the type [outcome]
    of Rio.v separates [Done], [Error] and [Undef].  zmalloc does not fail: its
    handler ends the process.

    ** The parts

    - Prelude.v: machine integers, blocks, little endian encodings, [lia] set-ups.
    - Endian.v: endianconv.c, for a host of either byte order ([Host]).
    - Intset.v: intset.c, sets of integers in one block; [repr] relates the block
      to the sorted list of its elements.
    - Util.v: util.c, glob matching, decimal conversions, memtoll.
    - Dict.v: dict.c, chained hash tables with incremental rehashing; [wf] is the
      invariant, [dmap] the finite map a table stands for.
    - Dictiter.v: the iterators of dict.c (safe and unsafe, with the fingerprint), loops
      over a table whose body changes the table, and dictGetRandomKey.
    - Db.v: db.c, the databases: lazy expiration, ownership of the counted values, and
      the generic commands on keys; uses Dict.v, Dictiter.v and the glob matching.
    - Adlist.v: adlist.c, linked lists in a heap of nodes.
    - Sds.v: sds.c, strings with a header; [rep] relates header and buffer to the
      contents.
    - Ziplist.v: ziplist.c, lists of strings and integers in one block, with the
      cascading updates of the back lengths.
    - Lzf.v: lzf_c.c and lzf_d.c, the compressor and the decompressor.
    - Crc64.v: crc64.c, the checksum of the dump files.
    - Rio.v: rio.c, streams: the class [RioStream] with its laws [RioLaws], the
      memory buffer that implements it, and the text of requests.
    - Rdb.v: rdb.c, the lengths, integers and strings of the dump format, proved
      against the interface of streams; uses Lzf.v and Util.v.
    - Settype.v: the set type of t_set.c (blocks of integers that are converted to tables)
      and the algorithms of SUNION, SDIFF and SINTER; uses Intset.v, Dict.v, Dictiter.v.
    - Bitops.v: bitops.c, counting, searching, combining and setting the bits of strings.
    - Strings.v: t_string.c, the string objects of object.c and the commands of bitops.c,
      on the server of Db.v: encoding as numbers, shared objects, writing in place after
      dbUnshareStringValue; uses Db.v, Util.v and Bitops.v.
    - Networking.v: the input side of networking.c (readQueryFromClient,
      processInputBuffer and the two parsers), against the class [Commands], and
      the writer of requests of aof.c.
    - Reply.v: the output side of networking.c (addReply and its relatives,
      deferred lengths, output limits, sendReplyToClient and its completions) and
      the reference counts of object.c.
    - Replication.v: the master's side of replication.c: backlog, feeding of the
      slaves, PSYNC; built on Reply.v.
    - Skiplist.v: the skip lists of t_zset.c; uses the interface of Dict.v.
    - Multi.v: multi.c and processCommand, call and propagate of redis.c: WATCH,
      MULTI, EXEC and DISCARD, what refuses a command and what is propagated.  The
      other commands, freeMemoryIfNeeded and handleClientsBlockedOnLists are an
      interface without laws: they may write, signal, feed and count as they like.  The
      server has a ghost field, the history of writes and signals, for the theorems.

    The parts are composed the way the code composes them.  A request enters
    through Networking.v, is executed or queued by Multi.v (the command itself is
    an interface there), answers through Reply.v, and is sent on to the slaves by
    Replication.v, which uses Reply.v for each of them.  Db.v holds the keys in tables
    of Dict.v; what it tells the other parts (touched keys, propagated deletions,
    answers) is the log of its calls.  The commands of Strings.v run on the databases of
    Db.v, with the computations of Bitops.v and the conversions of Util.v.  The values are held by Dict.v, Intset.v,
    Ziplist.v, Skiplist.v and Sds.v and saved by Rdb.v to a stream of Rio.v.

    ** What the theorems show

    - Data structures (Intset, Dict, Adlist, Sds, Ziplist, Skiplist): every
      operation on a well formed value ends, stays inside its memory, gives a well
      formed value, and implements the operation on the abstract value (a set, a
      finite map, a list, a string, a list of entries, a sorted list of scored
      elements); lookups, traversals, ranks and ranges return what the abstract
      value has.
    - Dict: a rehashing ends and moves every entry; a SCAN with any resizing of
      the tables between its calls (but a shrinking, which has a counterexample
      there) returns every entry present throughout.
    - Representations: the printers and parsers of integers, the quoting and
      splitting of strings, LZF compression and the strings of the dump format are
      inverse to each other, whatever the memory holds; the LZF decompressor is
      safe on every input; the table driven checksum is the division of
      polynomials.
    - Protocol: any sequence of commands written as requests is parsed and executed
      as exactly these commands, in whatever pieces it arrives and however large
      they are; any other bytes are handled without misuse of memory, and end in
      progress, in waiting or in one of the protocol errors.
    - Keyspace: any sequence of commands on the two tables of a database, with keys that
      expire between the commands and are deleted when they are looked at, answers,
      signals and counts as on a map of the keys that exist at the time; the counts of
      the values stay exact.  KEYS lists every such key once although it deletes from
      the table it iterates.
    - Set type: adding, removing, searching and iterating a set is the same in both of its
      representations, whose change happens exactly at the limits; the answers of the three
      operations on sets are the set algebra, whichever algorithm is chosen.
    - Bits: BITCOUNT, BITPOS and BITOP, which work on words with masks and multiplications,
      give what looking at each bit gives; SETBIT and GETBIT are inverse to each other.
    - String commands: any sequence of the commands on strings and bits, with values that are
      encoded, shared or written in place, does what it does on a map from the keys to
      their texts and expire times; one of them never changes another key or database.
      (Excluded: DECRBY by the smallest number and expire times that overflow, which are
      findings.)
    - Output: the bytes a client receives, in flight and queued are the protocol of
      its replies, in order, under any interleaving of replies, sends and
      completions, with objects shared between clients; enough turns of the event
      loop deliver everything.
    - Replication: the stream in the backlog and at the slaves replays as the
      commands fed, each in its database; a PSYNC is accepted exactly when the
      backlog has every byte asked for, and then no byte is lost or repeated.
    - Transactions: in every reachable state the queues, the watched keys in both
      directions and the flags of the clients agree, whatever the other commands do; an
      EXEC runs its queue exactly when no watched key was signalled since its WATCH and
      no error was remembered, then completely and in order, and otherwise leaves the data
      alone; a block of commands that keep the count of changes is propagated between one
      MULTI and one EXEC (SAVE does not keep it: Multi.save_loses_exec).

    ** Bounds and fuel

    Functions whose recursion is not structural take a fuel, whose exhaustion is
    undefined behaviour; each is called with a measure of its argument (the bytes
    left, the number of buckets, the length of the data), and the theorem that the
    call returns a result shows that it is enough.  For glob matching the theorem
    states the fuel: the sum of the lengths plus one.  Strings are below 2^31 - 1
    bytes and most grow by at most 2^30 at a time, because sdsnewlen and
    sdsMakeRoomFor compute in [int]; a query buffer is at most its limit of
    2^30 bytes; the replication offset is below 2^62; a skip list has fewer than
    2^31 nodes.

    ** What is not modelled

    - Operating system and processes: sockets, files, the event loop, the
      Win32_Interop layer, background saves, signals, time.  Where the code
      depends on an answer of these (a send accepted, a write complete, the
      cached time, the socket's pieces), it is an argument of the model.
    - Formatting and parsing of floating point numbers (printf, strtod) and
      sdscatprintf, which are functions of the C library.
    - The command implementations (t_list.c, t_hash.c, the ZADD family, INCRBYFLOAT; of
      t_set.c the lookups and the store around what Settype.v models; of db.c SCAN,
      SHUTDOWN and FLUSHALL), the configuration, scripting, Sentinel,
      the tools and the bundled libraries under deps; PROJECT.json lists each with the
      reason.

    ** Plan

    Next are the commands of the set type on top of Db.v, the data types that
    combine two representations (hashes and sorted sets in ziplists), the tables of the
    subscriptions, the sparse registers of HyperLogLog, and the other types of values in
    rdb.c. *)

From Stdlib Require Export ZArith Lia.
From stdpp Require Export base gmap strings numbers sorting.
From stdpp Require Export list.

#[global] Open Scope Z_scope.

(** ** Machine integers *)

(** [wrapu w z] is the conversion of [z] to an unsigned [w]-bit integer. *)
Definition wrapu (w z : Z) : Z := z mod 2 ^ w.

(** [wraps w z] is the conversion of [z] to a signed two's complement
    [w]-bit integer. *)
Definition wraps (w z : Z) : Z := (z + 2 ^ (w - 1)) mod 2 ^ w - 2 ^ (w - 1).

Abbreviation u8 := (wrapu 8).
Abbreviation u16 := (wrapu 16).
Abbreviation u32 := (wrapu 32).
Abbreviation u64 := (wrapu 64).
Abbreviation i8 := (wraps 8).
Abbreviation i16 := (wraps 16).
Abbreviation i32 := (wraps 32).
Abbreviation i64 := (wraps 64).
(** The limits of <limits.h>/<stdint.h> on the Windows (LLP64) build, where
    [long] has 32 bits. *)
Definition INT16_MIN : Z := - 2 ^ 15.
Definition INT16_MAX : Z := 2 ^ 15 - 1.
Definition INT32_MIN : Z := - 2 ^ 31.
Definition INT32_MAX : Z := 2 ^ 31 - 1.
Definition LONG_MIN : Z := - 2 ^ 31.
Definition LONG_MAX : Z := 2 ^ 31 - 1.
Definition ULONG_MAX : Z := 2 ^ 32 - 1.
Definition LLONG_MIN : Z := - 2 ^ 63.
Definition LLONG_MAX : Z := 2 ^ 63 - 1.
Definition ULLONG_MAX : Z := 2 ^ 64 - 1.

Definition in_i64 (z : Z) : Prop := LLONG_MIN ≤ z ≤ LLONG_MAX.
Definition in_u32 (z : Z) : Prop := 0 ≤ z < 2 ^ 32.

(** ** Tactics *)

(** Rewrites every closed power of two and the limit constants. *)
Ltac unlimit :=
  unfold in_i64, in_u32, INT16_MIN, INT16_MAX, INT32_MIN, INT32_MAX, LONG_MIN,
    LONG_MAX, LLONG_MIN, LLONG_MAX, ULLONG_MAX in *;
  repeat match goal with
  | |- context [ 2 ^ ?k ] => let v := eval vm_compute in (2 ^ k) in
      match v with Zpos _ => change (2 ^ k) with v end
  | H : context [ 2 ^ ?k ] |- _ => let v := eval vm_compute in (2 ^ k) in
      match v with Zpos _ => change (2 ^ k) with v in H end
  end.

(** Case analysis on the boolean comparisons of a goal, as the code's ifs. *)
Ltac zcase :=
  match goal with
  | |- context [ Z.ltb ?x ?y ] => destruct (Z.ltb_spec x y)
  | |- context [ Z.leb ?x ?y ] => destruct (Z.leb_spec x y)
  | |- context [ Z.eqb ?x ?y ] => destruct (Z.eqb_spec x y)
  end.
Ltac zcase_in H :=
  match type of H with
  | context [ Z.ltb ?x ?y ] => destruct (Z.ltb_spec x y)
  | context [ Z.leb ?x ?y ] => destruct (Z.leb_spec x y)
  | context [ Z.eqb ?x ?y ] => destruct (Z.eqb_spec x y)
  end.

(** Decides by [lia] the boolean comparisons of the goal that the context
    determines. *)
Ltac zdec :=
  repeat match goal with
  | |- context [ Z.ltb ?x ?y ] =>
      first [rewrite (proj2 (Z.ltb_lt x y)) by lia | rewrite (proj2 (Z.ltb_ge x y)) by lia]
  | |- context [ Z.leb ?x ?y ] =>
      first [rewrite (proj2 (Z.leb_le x y)) by lia | rewrite (proj2 (Z.leb_gt x y)) by lia]
  | |- context [ Z.eqb ?x ?y ] =>
      first [rewrite (proj2 (Z.eqb_eq x y)) by lia | rewrite (proj2 (Z.eqb_neq x y)) by lia]
  end.

(** Splits an equation [m ≫= k = Some x]. *)
Ltac inv_bind :=
  repeat match goal with
  | H : _ ≫= _ = Some _ |- _ =>
      let x := fresh "v" in let E := fresh "E" in
      apply bind_Some in H as (x & E & H)
  | H : Some _ = Some _ |- _ => injection H as H
  end.

Lemma wrapu_small w z : 0 ≤ z < 2 ^ w → wrapu w z = z.
Proof. apply Z.mod_small. Qed.

Lemma wrapu_range w z : 0 ≤ w → 0 ≤ wrapu w z < 2 ^ w.
Proof. intros. apply Z.mod_pos_bound. lia. Qed.

Lemma wraps_small w z : 0 < w → - 2 ^ (w - 1) ≤ z < 2 ^ (w - 1) → wraps w z = z.
Proof.
  intros Hw Hz. unfold wraps. rewrite Z.mod_small; [lia|].
  replace (2 ^ w) with (2 * 2 ^ (w - 1)); [lia|].
  rewrite <-Z.pow_succ_r by lia. f_equal. lia.
Qed.

Lemma wraps_wrapu w z : 0 < w → wraps w (wrapu w z) = wraps w z.
Proof. intros Hw. unfold wraps, wrapu. by rewrite Zplus_mod_idemp_l. Qed.

Lemma wraps_range w z : 0 < w → - 2 ^ (w - 1) ≤ wraps w z < 2 ^ (w - 1).
Proof.
  intros Hw. unfold wraps.
  assert (2 ^ w = 2 * 2 ^ (w - 1)) as E
    by (rewrite <-Z.pow_succ_r by lia; f_equal; lia).
  pose proof (Z.mod_pos_bound (z + 2 ^ (w - 1)) (2 ^ w) ltac:(lia)). lia.
Qed.

(** ** Masks *)

Lemma ones_mask k : 2 ^ k - 1 = Z.ones k.
Proof. rewrite Z.ones_equiv. lia. Qed.

Lemma land_mask_mod x k : 0 ≤ k → Z.land x (2 ^ k - 1) = x mod 2 ^ k.
Proof. intros. rewrite ones_mask. by apply Z.land_ones. Qed.

Lemma lor_disjoint a c k : 0 ≤ k → 0 ≤ c < 2 ^ k → Z.lor (a * 2 ^ k) c = a * 2 ^ k + c.
Proof.
  intros Hk Hc. assert (Z.land (a * 2 ^ k) c = 0) as E.
  { apply Z.bits_inj'. intros i Hi. rewrite Z.land_spec, Z.bits_0.
    destruct (decide (i < k)).
    - rewrite Z.mul_pow2_bits_low by done. done.
    - rewrite <-(Z.mod_small c (2 ^ k)) by done. rewrite Z.mod_pow2_bits_high by lia.
      apply andb_false_r. }
  rewrite <-Z.lxor_lor by done. symmetry. by apply Z.add_nocarry_lxor.
Qed.

Lemma lor_ones v k : 0 ≤ k → Z.lor v (2 ^ k - 1) = v / 2 ^ k * 2 ^ k + (2 ^ k - 1).
Proof.
  intros Hk. assert (0 < 2 ^ k) by (apply Z.pow_pos_nonneg; lia).
  rewrite <-lor_disjoint by lia. rewrite ones_mask. apply Z.bits_inj'. intros i Hi.
  rewrite !Z.lor_spec. destruct (decide (i < k)).
  - rewrite Z.ones_spec_low by lia. by rewrite !orb_true_r.
  - rewrite Z.ones_spec_high by lia. rewrite !orb_false_r.
    rewrite Z.mul_pow2_bits by lia. rewrite Z.div_pow2_bits by lia. f_equal. lia.
Qed.

Lemma ldiff_ones v k : 0 ≤ k → Z.ldiff v (2 ^ k - 1) = v / 2 ^ k * 2 ^ k.
Proof.
  intros. rewrite ones_mask, Z.ldiff_ones_r, Z.shiftl_mul_pow2, Z.shiftr_div_pow2 by done. done.
Qed.

(** ** Byte blocks *)

(** A block of memory is the list of its bytes; an offset outside of the
    block makes an access undefined behaviour, which is [None]. *)
Definition blen (m : list Z) : Z := Z.of_nat (length m).

Definition byte_ok (b : Z) : Prop := 0 ≤ b < 256.
#[global] Instance byte_ok_dec b : Decision (byte_ok b).
Proof. unfold byte_ok. apply _. Defined.

(** [memcpy] out of a block. *)
Definition mload (m : list Z) (off n : Z) : option (list Z) :=
  if (0 <=? off) && (0 <=? n) && (off + n <=? blen m)
  then Some (take (Z.to_nat n) (drop (Z.to_nat off) m)) else None.

(** [memcpy] into a block. *)
Definition mstore (m : list Z) (off : Z) (bs : list Z) : option (list Z) :=
  if (0 <=? off) && (off + blen bs <=? blen m)
  then Some (take (Z.to_nat off) m ++ bs ++ drop (Z.to_nat (off + blen bs)) m)
  else None.

(** [memmove] within a block. *)
Definition mmove (m : list Z) (dst src n : Z) : option (list Z) :=
  bs ← mload m src n; mstore m dst bs.

(** [x[i]] and [x[i] = b] on a block of bytes. *)
Definition mget (m : list Z) (i : Z) : option Z :=
  if 0 <=? i then m !! Z.to_nat i else None.
Definition mset (m : list Z) (i b : Z) : option (list Z) := mstore m i [b].

(** [zrealloc] to [n] bytes: the bytes it adds are not specified, so they
    are those of an arbitrary [junk]. *)
Definition mresize (junk : nat → Z) (m : list Z) (n : Z) : list Z :=
  let k := Z.to_nat n in
  take k m ++ (junk <$> seq (length m) (k - length m)).

(** Of the offsets from [a] to [b]. *)
Definition slice (buf : list Z) (a b : Z) : list Z := take (Z.to_nat (b - a)) (drop (Z.to_nat a) buf).

Lemma blen_app a b : blen (a ++ b) = blen a + blen b.
Proof. unfold blen. rewrite length_app. lia. Qed.
Lemma blen_cons x a : blen (x :: a) = 1 + blen a.
Proof. unfold blen. simpl. lia. Qed.
Lemma blen_nil : blen [] = 0.
Proof. done. Qed.
Lemma blen_nonneg m : 0 ≤ blen m.
Proof. unfold blen. lia. Qed.
Lemma to_nat_blen m : Z.to_nat (blen m) = length m.
Proof. unfold blen. lia. Qed.

Create Rewrite HintDb blen.
#[export] Hint Rewrite blen_app blen_cons blen_nil to_nat_blen @length_app @length_cons
  @length_take @length_drop @length_fmap length_seq @length_replicate : blen.

(** Normalises block lengths everywhere, then calls [lia]. *)
Ltac blia :=
  unfold blen in *; autorewrite with blen in *; simpl length in *; lia.

Lemma mload_app a b c off n :
  off = blen a → n = blen b → mload (a ++ b ++ c) off n = Some b.
Proof.
  intros -> ->. unfold mload.
  rewrite !blen_app, !to_nat_blen.
  rewrite (proj2 (Z.leb_le 0 (blen a))), (proj2 (Z.leb_le 0 (blen b))),
    (proj2 (Z.leb_le _ _)); [|pose proof (blen_nonneg c); lia|apply blen_nonneg..].
  simpl. by rewrite drop_app_length, take_app_length.
Qed.

Lemma mstore_app a b c off b' :
  off = blen a → length b' = length b →
  mstore (a ++ b ++ c) off b' = Some (a ++ b' ++ c).
Proof.
  intros -> Hl. unfold mstore.
  assert (blen b' = blen b) as -> by (unfold blen; lia).
  rewrite !blen_app. pose proof (blen_nonneg c). pose proof (blen_nonneg a).
  rewrite (proj2 (Z.leb_le 0 (blen a))), (proj2 (Z.leb_le _ _)) by lia.
  simpl. rewrite to_nat_blen, take_app_length.
  replace (Z.to_nat (blen a + blen b)) with (length (a ++ b))
    by (rewrite length_app; unfold blen; lia).
  by rewrite (assoc_L (++) a b c), drop_app_length.
Qed.

Lemma mget_app a x c i : i = blen a → mget (a ++ x :: c) i = Some x.
Proof.
  intros ->. unfold mget. rewrite (proj2 (Z.leb_le _ _)) by apply blen_nonneg.
  by rewrite to_nat_blen, list_lookup_middle.
Qed.

Lemma mset_app a x c i y : i = blen a → mset (a ++ x :: c) i y = Some (a ++ y :: c).
Proof. intros ->. apply (mstore_app a [x] c (blen a) [y]); done. Qed.

Lemma mload_Some m off n bs :
  mload m off n = Some bs ↔
  0 ≤ off ∧ 0 ≤ n ∧ off + n ≤ blen m ∧
  bs = take (Z.to_nat n) (drop (Z.to_nat off) m).
Proof.
  unfold mload.
  destruct (Z.leb_spec 0 off), (Z.leb_spec 0 n), (Z.leb_spec (off + n) (blen m));
    simpl; split; try (intros [= <-]; auto; fail); try (intros (?&?&?&->); done);
    try (intros; lia).
  all: intros; done.
Qed.

Lemma mstore_length m off bs m' :
  mstore m off bs = Some m' → length m' = length m.
Proof.
  unfold mstore. intros H.
  destruct (Z.leb_spec 0 off), (Z.leb_spec (off + blen bs) (blen m)); simpl in *;
    try done.
  injection H as <-. blia.
Qed.

Lemma mresize_length junk m n : 0 ≤ n → length (mresize junk m n) = Z.to_nat n.
Proof. intros. unfold mresize. blia. Qed.

Lemma mresize_grow junk m n :
  blen m ≤ n → ∃ tl, mresize junk m n = m ++ tl ∧ blen tl = n - blen m.
Proof.
  intros. unfold mresize.
  rewrite take_ge by blia. eexists; split; [done|]. blia.
Qed.

Lemma mresize_shrink junk a b n :
  n = blen a → mresize junk (a ++ b) n = a.
Proof.
  intros ->. unfold mresize. rewrite to_nat_blen, take_app_length, length_app.
  replace (length a - (length a + length b))%nat with 0%nat by lia.
  simpl. apply app_nil_r.
Qed.

(** Any block splits at an offset within it. *)
Lemma split_at (l : list Z) n : 0 ≤ n ≤ blen l → ∃ a b, l = a ++ b ∧ blen a = n.
Proof.
  intros. exists (take (Z.to_nat n) l), (drop (Z.to_nat n) l).
  rewrite take_drop. split; [done|]. blia.
Qed.

Lemma mload_all s : mload s 0 (blen s) = Some s.
Proof. pose proof (mload_app [] s [] 0 (blen s) eq_refl eq_refl) as E. by rewrite app_nil_r in E. Qed.
Lemma mload_prefix a c : mload (a ++ c) 0 (blen a) = Some a.
Proof. by apply (mload_app []). Qed.

(** A move within a block, by the parts of the block. *)
Lemma mmove_app m A X B W S D d s n :
  m = A ++ X ++ B → m = S ++ W ++ D → d = blen A → s = blen S → n = blen W → blen X = blen W →
  mmove m d s n = Some (A ++ W ++ B).
Proof.
  intros EA ES -> -> -> Hl. unfold mmove. rewrite ES at 1. rewrite mload_app by done.
  cbn [mbind option_bind]. rewrite EA. apply mstore_app; [done|]. unfold blen in Hl. lia.
Qed.

Lemma elem_of_concat {A} (x : A) ls : x ∈ concat ls ↔ ∃ l, x ∈ l ∧ l ∈ ls.
Proof.
  induction ls as [|l ls IH]; simpl.
  - split; [by intros ?%not_elem_of_nil|by intros (? & _ & ?%not_elem_of_nil)].
  - rewrite elem_of_app, IH. setoid_rewrite elem_of_cons. naive_solver.
Qed.

Lemma slice_nil b x y : y ≤ x → slice b x y = [].
Proof. intros. unfold slice. replace (Z.to_nat (y - x)) with 0%nat by lia. done. Qed.

Lemma mload_slice b x n : 0 ≤ x → 0 ≤ n → x + n ≤ blen b → mload b x n = Some (slice b x (x + n)).
Proof. intros ???. unfold mload, slice. rewrite !(proj2 (Z.leb_le _ _)) by lia. cbn [andb]. by replace (x + n - x) with n by lia. Qed.
Lemma blen_slice b x y : 0 ≤ x ≤ y → y ≤ blen b → blen (slice b x y) = y - x.
Proof. intros. unfold slice, blen in *. rewrite length_take, length_drop. lia. Qed.

Lemma filter_none {X} (R : X → Prop) `{!∀ x, Decision (R x)} l : (∀ x, x ∈ l → ¬ R x) → filter R l = [].
Proof.
  intros Hn. destruct (filter R l) as [|x k] eqn:E; [done|]. assert (x ∈ filter R l) as Hx by (rewrite E; by left).
  apply list_elem_of_filter in Hx as [? ?]. by destruct (Hn x).
Qed.

Lemma filter_all {X} (R : X → Prop) `{!∀ x, Decision (R x)} (l : list X) : (∀ x, x ∈ l → R x) → filter R l = l.
Proof.
  induction l as [|x l IH]; intros Hl; [done|]. rewrite filter_cons_True by (apply Hl; by left).
  f_equal. apply IH. intros y Hy. apply Hl. by right.
Qed.

(** ** Little endian encodings *)

Fixpoint le_enc (n : nat) (z : Z) : list Z :=
  match n with
  | O => []
  | S n => z mod 256 :: le_enc n (z / 256)
  end.

Fixpoint le_dec (bs : list Z) : Z :=
  match bs with
  | [] => 0
  | b :: bs => b + 256 * le_dec bs
  end.

Lemma le_enc_length n z : length (le_enc n z) = n.
Proof. revert z. induction n; intros; simpl; auto. Qed.

Lemma le_enc_ok n z : Forall byte_ok (le_enc n z).
Proof.
  revert z. induction n; intros; simpl; constructor; [|done].
  apply Z.mod_pos_bound. lia.
Qed.

Lemma le_dec_enc n z : le_dec (le_enc n z) = z mod 256 ^ Z.of_nat n.
Proof.
  revert z. induction n as [|n IH]; intros z; [by rewrite Z.mod_1_r|].
  simpl le_enc. simpl le_dec. rewrite IH, Nat2Z.inj_succ, Z.pow_succ_r by lia.
  rewrite Z.rem_mul_r by lia. done.
Qed.

Lemma le_dec_range bs : Forall byte_ok bs → 0 ≤ le_dec bs < 256 ^ blen bs.
Proof.
  induction 1 as [|b bs Hb _ IH]; [done|].
  rewrite blen_cons, Z.pow_add_r by (pose proof (blen_nonneg bs); lia).
  unfold byte_ok in Hb. simpl. lia.
Qed.

Lemma le_enc_dec bs : Forall byte_ok bs → le_enc (length bs) (le_dec bs) = bs.
Proof.
  unfold byte_ok. induction 1 as [|b bs Hb _ IH]; [done|].
  cbn [length le_enc le_dec].
  rewrite (Z.mul_comm 256), Z_mod_plus_full, Z.mod_small by lia.
  rewrite Z.div_add, Z.div_small, Z.add_0_l by lia. by rewrite IH.
Qed.

(** The signed value of a little endian block of [n] bytes. *)
Definition le_sdec (bs : list Z) : Z := wraps (8 * blen bs) (le_dec bs).

Lemma le_sdec_enc n z :
  (0 < n)%nat → - 2 ^ (8 * Z.of_nat n - 1) ≤ z < 2 ^ (8 * Z.of_nat n - 1) →
  le_sdec (le_enc n z) = z.
Proof.
  intros Hn Hz. unfold le_sdec, blen. rewrite le_enc_length, le_dec_enc.
  change 256 with (2 ^ 8). rewrite <-Z.pow_mul_r by lia.
  change (z mod _) with (wrapu (8 * Z.of_nat n) z).
  rewrite wraps_wrapu by lia. apply wraps_small; lia.
Qed.
#[export] Hint Rewrite le_enc_length : blen.

Lemma le_enc_0 z : le_enc 0 z = [].
Proof. done. Qed.
Lemma le_enc_S n z : le_enc (S n) z = z mod 256 :: le_enc n (z / 256).
Proof. done. Qed.
Lemma le_dec_nil : le_dec [] = 0.
Proof. done. Qed.
Lemma le_dec_cons b bs : le_dec (b :: bs) = b + 256 * le_dec bs.
Proof. done. Qed.

(** The encoding depends on the residue only. *)
Lemma le_enc_congr n a b : a mod 256 ^ Z.of_nat n = b mod 256 ^ Z.of_nat n → le_enc n a = le_enc n b.
Proof.
  intros E. rewrite <-!le_dec_enc in E.
  pose proof (le_enc_dec _ (le_enc_ok n a)) as Ea. pose proof (le_enc_dec _ (le_enc_ok n b)) as Eb.
  rewrite le_enc_length in Ea, Eb. by rewrite <-Ea, <-Eb, E.
Qed.

Lemma le_enc_shift n z : le_enc (S n) (z * 256) = 0 :: le_enc n z.
Proof. rewrite le_enc_S. by rewrite Z_mod_mult, Z_div_mult by lia. Qed.

#[global] Opaque le_enc le_dec.
