(* ===== verification/Endian.v ===== *)
(** * Endianness conversion ([endianconv.c], [endianconv.h])

    The byte reversals the data structures use to keep one on-disk format, and
    the native representation of integers of a host of either byte order. *)
From S2P Require Import Prelude.

(** The byte order of the host ([BYTE_ORDER] of config.h). *)
Class Host := { big_endian : bool }.

(** The exchange of two bytes through a temporary. *)
Definition mswap (x : list Z) (i j : Z) : option (list Z) :=
  t ← mget x i;
  b ← mget x j;
  x ← mset x i b;
  mset x j t.

Definition memrev16 (x : list Z) (p : Z) : option (list Z) :=
  mswap x p (p + 1).

Definition memrev32 (x : list Z) (p : Z) : option (list Z) :=
  x ← mswap x p (p + 3);
  mswap x (p + 1) (p + 2).

Definition memrev64 (x : list Z) (p : Z) : option (list Z) :=
  x ← mswap x p (p + 7);
  x ← mswap x (p + 1) (p + 6);
  x ← mswap x (p + 2) (p + 5);
  mswap x (p + 3) (p + 4).

Section with_host.
Context `{Host}.

(** The bytes of an integer object of [n] bytes, and its value. *)
Definition native_enc (n : nat) (v : Z) : list Z :=
  if big_endian then reverse (le_enc n v) else le_enc n v.
Definition native_dec (bs : list Z) : Z :=
  le_dec (if big_endian then reverse bs else bs).
Definition native_sdec (bs : list Z) : Z :=
  le_sdec (if big_endian then reverse bs else bs).

Definition intrev16 (v : Z) : Z :=
  from_option native_dec 0 (memrev16 (native_enc 2 v) 0).
Definition intrev32 (v : Z) : Z :=
  from_option native_dec 0 (memrev32 (native_enc 4 v) 0).
Definition intrev64 (v : Z) : Z :=
  from_option native_dec 0 (memrev64 (native_enc 8 v) 0).

Definition memrev16ifbe (x : list Z) (p : Z) : option (list Z) :=
  if big_endian then memrev16 x p else Some x.
Definition memrev32ifbe (x : list Z) (p : Z) : option (list Z) :=
  if big_endian then memrev32 x p else Some x.
Definition memrev64ifbe (x : list Z) (p : Z) : option (list Z) :=
  if big_endian then memrev64 x p else Some x.
Definition intrev16ifbe (v : Z) : Z := if big_endian then intrev16 v else v.
Definition intrev32ifbe (v : Z) : Z := if big_endian then intrev32 v else v.
Definition intrev64ifbe (v : Z) : Z := if big_endian then intrev64 v else v.

(** ** The reversals on the bytes of a block *)

Lemma mswap_app a x b y c i j :
  i = blen a → j = blen a + 1 + blen b →
  mswap (a ++ x :: b ++ y :: c) i j = Some (a ++ y :: b ++ x :: c).
Proof.
  intros -> ->. unfold mswap. rewrite (mget_app a x _ (blen a)) by done. simpl.
  assert (∀ z, a ++ z :: b ++ y :: c = (a ++ z :: b) ++ y :: c) as E
    by (intros; by rewrite <-(assoc_L (++))).
  rewrite E, mget_app by blia. simpl.
  rewrite <-E, mset_app by done. simpl.
  rewrite E, mset_app by blia. by rewrite <-(assoc_L (++)).
Qed.

Lemma memrev16_app a bs c p :
  p = blen a → length bs = 2%nat → memrev16 (a ++ bs ++ c) p = Some (a ++ reverse bs ++ c).
Proof.
  intros -> Hl. destruct bs as [|x0 [|x1 [|? ?]]]; try done.
  unfold memrev16. apply (mswap_app a x0 [] x1 c); blia.
Qed.

Lemma memrev32_app a bs c p :
  p = blen a → length bs = 4%nat → memrev32 (a ++ bs ++ c) p = Some (a ++ reverse bs ++ c).
Proof.
  intros -> Hl. destruct bs as [|x0 [|x1 [|x2 [|x3 [|? ?]]]]]; try done.
  unfold memrev32. simpl.
  rewrite (mswap_app a x0 [x1; x2] x3 c) by blia. simpl.
  change (a ++ x3 :: x1 :: x2 :: x0 :: c) with (a ++ [x3] ++ x1 :: [] ++ x2 :: (x0 :: c)).
  rewrite (assoc_L (++) a). rewrite mswap_app by blia.
  by rewrite <-(assoc_L (++) a).
Qed.

Lemma memrev64_app a bs c p :
  p = blen a → length bs = 8%nat → memrev64 (a ++ bs ++ c) p = Some (a ++ reverse bs ++ c).
Proof.
  intros -> Hl.
  destruct bs as [|x0 [|x1 [|x2 [|x3 [|x4 [|x5 [|x6 [|x7 [|? ?]]]]]]]]]; try done.
  unfold memrev64. simpl.
  rewrite (mswap_app a x0 [x1; x2; x3; x4; x5; x6] x7 c) by blia. simpl.
  change (a ++ x7 :: x1 :: ?r) with (a ++ [x7] ++ x1 :: r).
  change (x1 :: x2 :: ?r) with (x1 :: [x2; x3; x4; x5] ++ x6 :: x0 :: c).
  rewrite (assoc_L (++) a). rewrite mswap_app by blia. simpl.
  rewrite <-(assoc_L (++) a).
  change (a ++ [x7] ++ x6 :: x2 :: ?r)
    with (a ++ [x7; x6] ++ x2 :: [x3; x4] ++ x5 :: x1 :: x0 :: c).
  rewrite (assoc_L (++) a). rewrite mswap_app by blia. simpl.
  rewrite <-(assoc_L (++) a).
  change (a ++ [x7; x6] ++ x5 :: x3 :: ?r)
    with (a ++ [x7; x6; x5] ++ x3 :: [] ++ x4 :: x2 :: x1 :: x0 :: c).
  rewrite (assoc_L (++) a). rewrite mswap_app by blia.
  by rewrite <-(assoc_L (++) a).
Qed.

(** A native object reversed on a big endian host only is little endian. *)
Lemma native_enc_length n v : length (native_enc n v) = n.
Proof. unfold native_enc. destruct big_endian; rewrite ?length_reverse; apply le_enc_length. Qed.

Lemma native_dec_enc n v : native_dec (native_enc n v) = v mod 256 ^ Z.of_nat n.
Proof.
  unfold native_dec, native_enc.
  destruct big_endian; rewrite ?reverse_involutive; apply le_dec_enc.
Qed.

Lemma memrev16ifbe_native a v c p :
  p = blen a →
  memrev16ifbe (a ++ native_enc 2 v ++ c) p = Some (a ++ le_enc 2 v ++ c).
Proof.
  intros ->. unfold memrev16ifbe, native_enc. destruct big_endian; [|done].
  rewrite memrev16_app; rewrite ?reverse_involutive, ?length_reverse; done.
Qed.
Lemma memrev32ifbe_native a v c p :
  p = blen a →
  memrev32ifbe (a ++ native_enc 4 v ++ c) p = Some (a ++ le_enc 4 v ++ c).
Proof.
  intros ->. unfold memrev32ifbe, native_enc. destruct big_endian; [|done].
  rewrite memrev32_app; rewrite ?reverse_involutive, ?length_reverse; done.
Qed.
Lemma memrev64ifbe_native a v c p :
  p = blen a →
  memrev64ifbe (a ++ native_enc 8 v ++ c) p = Some (a ++ le_enc 8 v ++ c).
Proof.
  intros ->. unfold memrev64ifbe, native_enc. destruct big_endian; [|done].
  rewrite memrev64_app; rewrite ?reverse_involutive, ?length_reverse; done.
Qed.

(** Reading a little endian block through a native object. *)
Lemma memrev16ifbe_le bs :
  length bs = 2%nat →
  ∃ bs', memrev16ifbe bs 0 = Some bs' ∧ native_dec bs' = le_dec bs ∧ native_sdec bs' = le_sdec bs.
Proof.
  intros Hl. unfold memrev16ifbe, native_dec, native_sdec. destruct big_endian; [|by eauto].
  pose proof (memrev16_app [] bs [] 0 eq_refl Hl) as E. rewrite !app_nil_r in E.
  simpl in E. rewrite E. eexists; split; [done|]. by rewrite reverse_involutive.
Qed.
Lemma memrev32ifbe_le bs :
  length bs = 4%nat →
  ∃ bs', memrev32ifbe bs 0 = Some bs' ∧ native_dec bs' = le_dec bs ∧ native_sdec bs' = le_sdec bs.
Proof.
  intros Hl. unfold memrev32ifbe, native_dec, native_sdec. destruct big_endian; [|by eauto].
  pose proof (memrev32_app [] bs [] 0 eq_refl Hl) as E. rewrite !app_nil_r in E.
  simpl in E. rewrite E. eexists; split; [done|]. by rewrite reverse_involutive.
Qed.
Lemma memrev64ifbe_le bs :
  length bs = 8%nat →
  ∃ bs', memrev64ifbe bs 0 = Some bs' ∧ native_dec bs' = le_dec bs ∧ native_sdec bs' = le_sdec bs.
Proof.
  intros Hl. unfold memrev64ifbe, native_dec, native_sdec. destruct big_endian; [|by eauto].
  pose proof (memrev64_app [] bs [] 0 eq_refl Hl) as E. rewrite !app_nil_r in E.
  simpl in E. rewrite E. eexists; split; [done|]. by rewrite reverse_involutive.
Qed.

Lemma intrev32_eq v : intrev32 v = le_dec (reverse (le_enc 4 v)).
Proof.
  unfold intrev32.
  pose proof (memrev32_app [] (native_enc 4 v) [] 0 eq_refl (native_enc_length 4 v)) as E.
  rewrite !app_nil_r in E. simpl in E. rewrite E. simpl. unfold native_dec, native_enc.
  destruct big_endian; [|done]. by rewrite reverse_involutive.
Qed.

Lemma intrev16_eq v : intrev16 v = le_dec (reverse (le_enc 2 v)).
Proof.
  unfold intrev16.
  pose proof (memrev16_app [] (native_enc 2 v) [] 0 eq_refl (native_enc_length 2 v)) as E.
  rewrite !app_nil_r in E. simpl in E. rewrite E. simpl. unfold native_dec, native_enc.
  destruct big_endian; [|done]. by rewrite reverse_involutive.
Qed.

Lemma reverse_ok bs : Forall byte_ok bs → Forall byte_ok (reverse bs).
Proof. by rewrite Forall_reverse. Qed.

Lemma intrev32_range v : in_u32 (intrev32 v).
Proof.
  rewrite intrev32_eq.
  pose proof (le_dec_range (reverse (le_enc 4 v)) (reverse_ok _ (le_enc_ok _ _))) as Hr.
  unfold blen in Hr. by rewrite length_reverse, le_enc_length in Hr.
Qed.

Lemma intrev32_invol v : in_u32 v → intrev32 (intrev32 v) = v.
Proof.
  intros Hv. rewrite !intrev32_eq.
  pose proof (le_enc_dec (reverse (le_enc 4 v)) (reverse_ok _ (le_enc_ok _ _))) as E.
  rewrite length_reverse, le_enc_length in E.
  rewrite E, reverse_involutive, le_dec_enc. by apply Z.mod_small.
Qed.

Lemma intrev32ifbe_invol v : in_u32 v → intrev32ifbe (intrev32ifbe v) = v.
Proof. unfold intrev32ifbe. destruct big_endian; [apply intrev32_invol|done]. Qed.

(** A converted field of a header, read and written. *)
Lemma native_dec_le32 bs :
  length bs = 4%nat → Forall byte_ok bs → intrev32ifbe (native_dec bs) = le_dec bs.
Proof.
  intros Hl Hb. unfold intrev32ifbe, native_dec. destruct big_endian; [|done].
  rewrite intrev32_eq. pose proof (le_enc_dec (reverse bs) (reverse_ok _ Hb)) as E.
  rewrite length_reverse, Hl in E. by rewrite E, reverse_involutive.
Qed.
Lemma native_enc_le32 v : native_enc 4 (intrev32ifbe v) = le_enc 4 v.
Proof.
  unfold intrev32ifbe, native_enc. destruct big_endian; [|done]. rewrite intrev32_eq.
  pose proof (le_enc_dec (reverse (le_enc 4 v)) (reverse_ok _ (le_enc_ok _ _))) as E.
  rewrite length_reverse, le_enc_length in E. by rewrite E, reverse_involutive.
Qed.
Lemma native_dec_le16 bs :
  length bs = 2%nat → Forall byte_ok bs → intrev16ifbe (native_dec bs) = le_dec bs.
Proof.
  intros Hl Hb. unfold intrev16ifbe, native_dec. destruct big_endian; [|done].
  rewrite intrev16_eq. pose proof (le_enc_dec (reverse bs) (reverse_ok _ Hb)) as E.
  rewrite length_reverse, Hl in E. by rewrite E, reverse_involutive.
Qed.
Lemma native_enc_le16 v : native_enc 2 (intrev16ifbe v) = le_enc 2 v.
Proof.
  unfold intrev16ifbe, native_enc. destruct big_endian; [|done]. rewrite intrev16_eq.
  pose proof (le_enc_dec (reverse (le_enc 2 v)) (reverse_ok _ (le_enc_ok _ _))) as E.
  rewrite length_reverse, le_enc_length in E. by rewrite E, reverse_involutive.
Qed.

End with_host.

#[export] Hint Rewrite @native_enc_length : blen.

(** The two kinds of host. *)
Definition little_host : Host := {| big_endian := false |}.
Definition big_host : Host := {| big_endian := true |}.
