(* ===== verification/Intset.v ===== *)
(** * Integer sets ([intset.c], [intset.h])

    The compact encoding of a set of integers: a header and the sorted
    integers, each on 2, 4 or 8 little endian bytes.  The model is at the level
    of the bytes of the block; every access outside of the block is [None]. *)
From S2P Require Import Prelude Endian.
Open Scope Z_scope.

Definition INTSET_ENC_INT16 : Z := 2.
Definition INTSET_ENC_INT32 : Z := 4.
Definition INTSET_ENC_INT64 : Z := 8.

(** The header is kept as it is stored: both fields are little endian. *)
Record intset := Intset {
  is_encoding : Z;
  is_length : Z;
  is_contents : list Z;
}.

Definition _intsetValueEncoding (v : Z) : Z :=
  if (v <? INT32_MIN) || (INT32_MAX <? v) then INTSET_ENC_INT64
  else if (v <? INT16_MIN) || (INT16_MAX <? v) then INTSET_ENC_INT32
  else INTSET_ENC_INT16.

Section with_host.
Context `{Host}.
(** What [zrealloc] leaves in the bytes it adds. *)
Context (junk : nat → Z).

(** ** Operations *)

Definition _intsetGetEncoded (s : intset) (pos enc : Z) : option Z :=
  if enc =? INTSET_ENC_INT64 then
    v64 ← mload (is_contents s) (pos * 8) 8;
    v64 ← memrev64ifbe v64 0;
    Some (native_sdec v64)
  else if enc =? INTSET_ENC_INT32 then
    v32 ← mload (is_contents s) (pos * 4) 4;
    v32 ← memrev32ifbe v32 0;
    Some (native_sdec v32)
  else
    v16 ← mload (is_contents s) (pos * 2) 2;
    v16 ← memrev16ifbe v16 0;
    Some (native_sdec v16).

Definition _intsetGet (s : intset) (pos : Z) : option Z :=
  _intsetGetEncoded s pos (u8 (intrev32ifbe (is_encoding s))).

Definition set_contents (s : intset) (c : list Z) : intset :=
  Intset (is_encoding s) (is_length s) c.
Definition set_length (s : intset) (n : Z) : intset :=
  Intset (is_encoding s) n (is_contents s).
Definition set_encoding (s : intset) (e : Z) : intset :=
  Intset e (is_length s) (is_contents s).

Definition _intsetSet (s : intset) (pos value : Z) : option intset :=
  let encoding := intrev32ifbe (is_encoding s) in
  if encoding =? INTSET_ENC_INT64 then
    c ← mstore (is_contents s) (pos * 8) (native_enc 8 value);
    c ← memrev64ifbe c (pos * 8);
    Some (set_contents s c)
  else if encoding =? INTSET_ENC_INT32 then
    c ← mstore (is_contents s) (pos * 4) (native_enc 4 value);
    c ← memrev32ifbe c (pos * 4);
    Some (set_contents s c)
  else
    c ← mstore (is_contents s) (pos * 2) (native_enc 2 value);
    c ← memrev16ifbe c (pos * 2);
    Some (set_contents s c).

Definition intsetNew : intset := Intset (intrev32ifbe INTSET_ENC_INT16) 0 [].

Definition intsetResize (s : intset) (len : Z) : intset :=
  let size := u32 (len * intrev32ifbe (is_encoding s)) in
  set_contents s (mresize junk (is_contents s) size).

(** The loop [while(max >= min)], with [min], [max], [mid] and [cur]; the
    fuel is the number of elements, each turn halves the range. *)
Fixpoint intsetSearch_loop (fuel : nat) (s : intset) (value min max mid cur : Z)
    : option (Z * Z * Z) :=
  if min <=? max then
    match fuel with
    | O => None
    | S fuel =>
        let mid := i32 (min + max) `quot` 2 in
        cur ← _intsetGet s mid;
        if cur <? value then intsetSearch_loop fuel s value (mid + 1) max mid cur
        else if value <? cur then intsetSearch_loop fuel s value min (mid - 1) mid cur
        else Some (min, mid, cur)
    end
  else Some (min, mid, cur).

(** The result and the position left in [*pos]. *)
Definition intsetSearch (s : intset) (value : Z) : option (Z * Z) :=
  let len := intrev32ifbe (is_length s) in
  if len =? 0 then Some (0, 0)
  else
    last ← _intsetGet s (i32 (len - 1));
    if last <? value then Some (0, len)
    else
      first ← _intsetGet s 0;
      if value <? first then Some (0, 0)
      else
        '(min, mid, cur) ← intsetSearch_loop (Z.to_nat len) s value 0 (i32 (len - 1)) (-1) (-1);
        if value =? cur then Some (1, u32 mid) else Some (0, u32 min).

(** The loop [while(length--)] of intsetUpgradeAndAdd. *)
Fixpoint intsetUpgrade_loop (length : nat) (s : intset) (prepend curenc : Z) : option intset :=
  match length with
  | O => Some s
  | S length =>
      v ← _intsetGetEncoded s (Z.of_nat length) curenc;
      s ← _intsetSet s (Z.of_nat length + prepend) v;
      intsetUpgrade_loop length s prepend curenc
  end.

Definition intsetUpgradeAndAdd (s : intset) (value : Z) : option intset :=
  let curenc := u8 (intrev32ifbe (is_encoding s)) in
  let newenc := _intsetValueEncoding value in
  let length := i32 (intrev32ifbe (is_length s)) in
  let prepend := if value <? 0 then 1 else 0 in
  let s := set_encoding s (intrev32ifbe newenc) in
  let s := intsetResize s (u32 (intrev32ifbe (is_length s) + 1)) in
  s ← intsetUpgrade_loop (Z.to_nat length) s prepend curenc;
  s ← (if prepend =? 1 then _intsetSet s 0 value
        else _intsetSet s (i32 (intrev32ifbe (is_length s))) value);
  Some (set_length s (intrev32ifbe (u32 (intrev32ifbe (is_length s) + 1)))).

Definition intsetMoveTail (s : intset) (from to : Z) : option intset :=
  let bytes := u32 (intrev32ifbe (is_length s) - from) in
  let encoding := intrev32ifbe (is_encoding s) in
  c ← (if encoding =? INTSET_ENC_INT64 then
         mmove (is_contents s) (to * 8) (from * 8) (u32 (bytes * 8))
       else if encoding =? INTSET_ENC_INT32 then
         mmove (is_contents s) (to * 4) (from * 4) (u32 (bytes * 4))
       else mmove (is_contents s) (to * 2) (from * 2) (u32 (bytes * 2)));
  Some (set_contents s c).

(** The set and the value left in [*success]. *)
Definition intsetAdd (s : intset) (value : Z) : option (intset * Z) :=
  let valenc := _intsetValueEncoding value in
  if intrev32ifbe (is_encoding s) <? valenc then
    s ← intsetUpgradeAndAdd s value;
    Some (s, 1)
  else
    '(found, pos) ← intsetSearch s value;
    if found =? 1 then Some (s, 0)
    else
      let s := intsetResize s (u32 (intrev32ifbe (is_length s) + 1)) in
      s ← (if pos <? intrev32ifbe (is_length s) then intsetMoveTail s pos (u32 (pos + 1))
            else Some s);
      s ← _intsetSet s (i32 pos) value;
      Some (set_length s (intrev32ifbe (u32 (intrev32ifbe (is_length s) + 1))), 1).

Definition intsetRemove (s : intset) (value : Z) : option (intset * Z) :=
  let valenc := _intsetValueEncoding value in
  if valenc <=? intrev32ifbe (is_encoding s) then
    '(found, pos) ← intsetSearch s value;
    if found =? 1 then
      let len := intrev32ifbe (is_length s) in
      s ← (if pos <? u32 (len - 1) then intsetMoveTail s (u32 (pos + 1)) pos else Some s);
      let s := intsetResize s (u32 (len - 1)) in
      Some (set_length s (intrev32ifbe (u32 (len - 1))), 1)
    else Some (s, 0)
  else Some (s, 0).

Definition intsetFind (s : intset) (value : Z) : option Z :=
  let valenc := _intsetValueEncoding value in
  if valenc <=? intrev32ifbe (is_encoding s) then
    '(found, _) ← intsetSearch s value; Some found
  else Some 0.

(** [r] is the result of [rand()]. *)
Definition intsetRandom (r : Z) (s : intset) : option Z :=
  let len := intrev32ifbe (is_length s) in
  if len =? 0 then None else _intsetGet s (i32 (u32 r mod len)).

(** [None]: an access out of the block; [Some (0, _)]: [pos] is out of range
    and [*value] is not written. *)
Definition intsetGet (s : intset) (pos : Z) : option (Z * option Z) :=
  if pos <? intrev32ifbe (is_length s) then
    v ← _intsetGet s (i32 pos); Some (1, Some v)
  else Some (0, None).

Definition intsetLen (s : intset) : Z := intrev32ifbe (is_length s).

(** [sizeof(intset)] is 8. *)
Definition intsetBlobLen (s : intset) : Z :=
  u64 (8 + u32 (intrev32ifbe (is_length s) * intrev32ifbe (is_encoding s))).

(** ** Representation *)

(** The bytes of the integers [vs] on [e] bytes each. *)
Definition slots (e : Z) (vs : list Z) : list Z := vs ≫= le_enc (Z.to_nat e).

Definition enc_ok (e : Z) : Prop :=
  e = INTSET_ENC_INT16 ∨ e = INTSET_ENC_INT32 ∨ e = INTSET_ENC_INT64.

Definition fits (e v : Z) : Prop := in_i64 v ∧ _intsetValueEncoding v ≤ e.

(** The block represents the sorted sequence [vs] with encoding [e]; its size
    is such that positions are not truncated by the [int]s of the code. *)
Record repr (s : intset) (e : Z) (vs : list Z) : Prop := Repr {
  repr_enc : enc_ok e;
  repr_encoding : is_encoding s = intrev32ifbe e;
  repr_length : is_length s = intrev32ifbe (blen vs);
  repr_contents : is_contents s = slots e vs;
  repr_fits : Forall (fits e) vs;
  repr_sorted : StronglySorted Z.lt vs;
  repr_size : 8 * blen vs < 2 ^ 31;
}.

Lemma enc_ok_range e : enc_ok e → 2 ≤ e ≤ 8.
Proof. unfold enc_ok, INTSET_ENC_INT16, INTSET_ENC_INT32, INTSET_ENC_INT64. lia. Qed.
Lemma enc_ok_u32 e : enc_ok e → in_u32 e.
Proof. intros H1%enc_ok_range. unlimit. lia. Qed.

Lemma valueEncoding_ok v : enc_ok (_intsetValueEncoding v).
Proof. unfold _intsetValueEncoding, enc_ok. repeat (destruct (_ || _); auto). Qed.

(** The encoding is the smallest one whose range has the value. *)
Lemma valueEncoding_le v e :
  enc_ok e → in_i64 v →
  _intsetValueEncoding v ≤ e ↔ - 2 ^ (8 * e - 1) ≤ v < 2 ^ (8 * e - 1).
Proof.
  unfold _intsetValueEncoding, enc_ok, INTSET_ENC_INT16, INTSET_ENC_INT32, INTSET_ENC_INT64.
  intros [-> | [-> | ->]] Hv; change (8 * 2 - 1) with 15; change (8 * 4 - 1) with 31; change (8 * 8 - 1) with 63; unlimit;
    repeat zcase; simpl; repeat zcase; simpl; lia.
Qed.

Lemma fits_mono e e' v : fits e v → e ≤ e' → fits e' v.
Proof. unfold fits. naive_solver lia. Qed.

Lemma slots_nil e : slots e [] = [].
Proof. done. Qed.
Lemma slots_cons e v vs : slots e (v :: vs) = le_enc (Z.to_nat e) v ++ slots e vs.
Proof. done. Qed.
Lemma slots_app e vs ws : slots e (vs ++ ws) = slots e vs ++ slots e ws.
Proof. apply bind_app. Qed.
Lemma slots_length e vs : 0 ≤ e → blen (slots e vs) = blen vs * e.
Proof.
  intros He. induction vs as [|v vs IH]; [done|].
  rewrite slots_cons, blen_app, blen_cons, IH. blia.
Qed.

(** Reading and writing a slot. *)
Lemma getEncoded_slot s A v C e pos :
  enc_ok e → fits e v → is_contents s = A ++ le_enc (Z.to_nat e) v ++ C →
  blen A = pos * e → _intsetGetEncoded s pos e = Some v.
Proof.
  intros He [Hv Hf%valueEncoding_le] HC HA; [|done..].
  unfold _intsetGetEncoded, enc_ok, INTSET_ENC_INT64, INTSET_ENC_INT32, INTSET_ENC_INT16 in *.
  rewrite HC.
  destruct He as [-> | [-> | ->]]; simpl; rewrite mload_app by blia; simpl;
    [destruct (memrev16ifbe_le (le_enc (Z.to_nat 2) v)) as (b & -> & _ & E)
    |destruct (memrev32ifbe_le (le_enc (Z.to_nat 4) v)) as (b & -> & _ & E)
    |destruct (memrev64ifbe_le (le_enc (Z.to_nat 8) v)) as (b & -> & _ & E)];
    try apply le_enc_length; simpl; rewrite E; f_equal;
    (apply le_sdec_enc; [lia|exact Hf]).
Qed.

Lemma set_slot s A B C e pos v :
  enc_ok e → is_encoding s = intrev32ifbe e → is_contents s = A ++ B ++ C →
  blen A = pos * e → blen B = e →
  _intsetSet s pos v = Some (set_contents s (A ++ le_enc (Z.to_nat e) v ++ C)).
Proof.
  intros He HE HC HA HB. unfold _intsetSet.
  rewrite HE, intrev32ifbe_invol by (by apply enc_ok_u32).
  rewrite HC. unfold enc_ok, INTSET_ENC_INT64, INTSET_ENC_INT32, INTSET_ENC_INT16 in *.
  destruct He as [-> | [-> | ->]]; simpl;
    rewrite (mstore_app A B C) by (rewrite ?native_enc_length; blia); cbn - [native_enc le_enc];
    [rewrite memrev16ifbe_native by lia|rewrite memrev32ifbe_native by lia
    |rewrite memrev64ifbe_native by lia]; done.
Qed.

Section repr_get.
Context (s : intset) (e : Z) (vs : list Z) (R : repr s e vs).

Lemma repr_intrev_enc : intrev32ifbe (is_encoding s) = e.
Proof.
  rewrite (repr_encoding _ _ _ R). apply intrev32ifbe_invol, enc_ok_u32, (repr_enc _ _ _ R).
Qed.
Lemma repr_intrev_len : intrev32ifbe (is_length s) = blen vs.
Proof.
  rewrite (repr_length _ _ _ R). apply intrev32ifbe_invol.
  pose proof (repr_size _ _ _ R). pose proof (blen_nonneg vs). unlimit. lia.
Qed.

Lemma repr_get i v :
  0 ≤ i → vs !! Z.to_nat i = Some v → _intsetGet s i = Some v.
Proof.
  intros Hi Hv. unfold _intsetGet. rewrite repr_intrev_enc.
  pose proof (enc_ok_range e (repr_enc _ _ _ R)).
  rewrite wrapu_small by (unlimit; lia).
  eapply (getEncoded_slot s (slots e (take (Z.to_nat i) vs)) v
    (slots e (drop (S (Z.to_nat i)) vs))).
  - apply R.
  - eapply Forall_lookup_1; [apply R|done].
  - rewrite (repr_contents _ _ _ R), <-slots_cons, <-slots_app. f_equal.
    by rewrite take_drop_middle.
  - apply lookup_lt_Some in Hv. rewrite slots_length by lia. f_equal. blia.
Qed.
End repr_get.

(** Order in a sorted sequence, by position. *)
Lemma sorted_lookup_lt vs i j x y :
  StronglySorted Z.lt vs → vs !! i = Some x → vs !! j = Some y → (i < j)%nat → x < y.
Proof.
  intros Hs. revert i j. induction Hs as [|a l Hs IH Hf]; intros i j Hi Hj Hij; [done|].
  destruct j as [|j]; [lia|]. destruct i as [|i]; simpl in *.
  - injection Hi as <-. eapply (Forall_lookup_1 (Z.lt a)); eauto.
  - eapply IH; eauto. lia.
Qed.

(** ** Search *)

(** [l] is the part of [vs] before [value]'s place and [r] the part from it. *)
Definition search_result (vs : list Z) (value found pos : Z) : Prop :=
  ∃ l r, vs = l ++ r ∧ pos = blen l ∧ Forall (λ x, x < value) l ∧
    ((found = 1 ∧ ∃ r', r = value :: r' ∧ Forall (Z.lt value) r') ∨
     (found = 0 ∧ Forall (Z.lt value) r)).

Lemma search_loop_spec s e vs value (R : repr s e vs) fuel min max mid cur :
  (Z.to_nat (max - min + 1) ≤ fuel)%nat →
  0 ≤ min ≤ max + 1 → max < blen vs →
  (∀ i x, vs !! i = Some x → (Z.of_nat i < min) → x < value) →
  (∀ i x, vs !! i = Some x → (max < Z.of_nat i) → value < x) →
  (max < min → cur ≠ value) →
  ∃ min' mid' cur', intsetSearch_loop fuel s value min max mid cur = Some (min', mid', cur') ∧
    ((cur' = value ∧ 0 ≤ mid' < blen vs ∧ vs !! Z.to_nat mid' = Some value) ∨
     (cur' ≠ value ∧ 0 ≤ min' ≤ blen vs ∧
      (∀ i x, vs !! i = Some x → (Z.of_nat i < min') → x < value) ∧
      (∀ i x, vs !! i = Some x → (min' ≤ Z.of_nat i) → value < x))).
Proof.
  revert min max mid cur.
  induction fuel as [|fuel IH]; intros min max mid cur Hfuel Hmin Hmax Hlo Hhi Hcur;
    simpl; (destruct (Z.leb_spec min max); [try lia|]).
  1,3: do 3 eexists; split; [done|]; right; split; [by apply Hcur|];
    split; [lia|]; split; [done|]; intros i x Hi ?; apply (Hhi i x Hi); lia.
  pose proof (repr_size _ _ _ R) as Hsize.
  rewrite (wraps_small 32) by (unlimit; lia).
  rewrite Z.quot_div_nonneg by lia.
  assert (min ≤ (min + max) / 2 ≤ max) as Hm.
  { split; [apply Z.div_le_lower_bound|apply Z.div_le_upper_bound]; lia. }
  set (m := (min + max) / 2) in *.
  destruct (lookup_lt_is_Some_2 vs (Z.to_nat m)) as [c Hc]; [unfold blen in *; lia|].
  rewrite (repr_get s e vs R m c) by (done || lia). simpl.
  pose proof (sorted_lookup_lt vs) as Hs. pose proof (repr_sorted _ _ _ R) as Hsort.
  destruct (Z.ltb_spec c value).
  - apply IH; try lia; [|done].
    intros i x Hi ?. destruct (decide (i = Z.to_nat m)) as [->|]; [congruence|].
    assert (x < c); [|lia]. eapply (Hs i (Z.to_nat m)); eauto. lia.
  - destruct (Z.ltb_spec value c).
    + apply IH; try lia; [done|].
      intros i x Hi ?. destruct (decide (i = Z.to_nat m)) as [->|]; [congruence|].
      assert (c < x); [|lia]. eapply (Hs (Z.to_nat m) i); eauto. lia.
    + do 3 eexists; split; [done|]. left. split; [lia|]. split; [lia|].
      rewrite Hc. f_equal. lia.
Qed.

Lemma search_result_not_found vs value pos :
  0 ≤ pos ≤ blen vs →
  (∀ i x, vs !! i = Some x → Z.of_nat i < pos → x < value) →
  (∀ i x, vs !! i = Some x → pos ≤ Z.of_nat i → value < x) →
  search_result vs value 0 pos.
Proof.
  intros Hpos Hlo Hhi. exists (take (Z.to_nat pos) vs), (drop (Z.to_nat pos) vs).
  rewrite take_drop. split; [done|]. split; [blia|]. split; [|right; split; [done|]].
  - apply Forall_lookup_2. intros i x Hi. apply lookup_take_Some in Hi as [Hi ?].
    apply (Hlo i x Hi). lia.
  - apply Forall_lookup_2. intros i x Hi. rewrite lookup_drop in Hi.
    apply (Hhi _ x Hi). lia.
Qed.

Lemma search_result_found vs value pos :
  StronglySorted Z.lt vs → 0 ≤ pos < blen vs → vs !! Z.to_nat pos = Some value →
  search_result vs value 1 pos.
Proof.
  intros Hs Hpos Hv. exists (take (Z.to_nat pos) vs), (drop (Z.to_nat pos) vs).
  rewrite take_drop. split; [done|]. split; [blia|]. split; [|left; split; [done|]].
  - apply Forall_lookup_2. intros i x Hi. apply lookup_take_Some in Hi as [Hi ?].
    eapply sorted_lookup_lt; eauto.
  - exists (drop (S (Z.to_nat pos)) vs). split; [by apply drop_S|].
    apply Forall_lookup_2. intros i x Hi. rewrite lookup_drop in Hi.
    eapply sorted_lookup_lt; eauto. lia.
Qed.

Lemma intsetSearch_result s e vs value :
  repr s e vs →
  ∃ found pos, intsetSearch s value = Some (found, pos) ∧ search_result vs value found pos.
Proof.
  intros R. unfold intsetSearch. rewrite (repr_intrev_len _ _ _ R).
  pose proof (repr_size _ _ _ R) as Hsize. pose proof (blen_nonneg vs) as Hnn. pose proof (repr_sorted _ _ _ R) as Hsort.
  destruct (Z.eqb_spec (blen vs) 0) as [H0|H0].
  { do 2 eexists; split; [done|]. apply search_result_not_found; [lia|lia|].
    intros i x Hi%lookup_lt_Some. unfold blen in *. lia. }
  rewrite (wraps_small 32) by (unlimit; unfold blen in *; lia).
  destruct (lookup_lt_is_Some_2 vs (Z.to_nat (blen vs - 1))) as [z Hz]; [unfold blen in *; lia|].
  rewrite (repr_get s e vs R (blen vs - 1) z) by (done || unfold blen in *; lia). simpl.
  destruct (Z.ltb_spec z value).
  { do 2 eexists; split; [done|]. apply search_result_not_found; [lia| |].
    - intros i x Hi Hl. assert (i = Z.to_nat (blen vs - 1) ∨ (i < Z.to_nat (blen vs - 1))%nat)
        as [->|] by lia; [congruence|].
      assert (x < z); [|lia]. eapply (sorted_lookup_lt vs i); eauto.
    - intros i x Hi%lookup_lt_Some. unfold blen in *. lia. }
  destruct (lookup_lt_is_Some_2 vs 0) as [a Ha]; [unfold blen in *; lia|].
  rewrite (repr_get s e vs R 0 a) by done. simpl.
  destruct (Z.ltb_spec value a).
  { do 2 eexists; split; [done|]. apply search_result_not_found; [lia|lia|].
    intros i x Hi _. destruct i; [congruence|].
    assert (a < x); [|lia]. eapply (sorted_lookup_lt vs 0); eauto. lia. }
  destruct (search_loop_spec s e vs value R (Z.to_nat (blen vs)) 0 (blen vs - 1) (-1) (-1))
    as (mi & md & cu & -> & Hres); try lia.
  { intros i x Hi%lookup_lt_Some. unfold blen in *. lia. }
  simpl. destruct Hres as [(-> & Hmd & Hv)|(Hne & Hmi & Hlo & Hhi)].
  - rewrite Z.eqb_refl, wrapu_small by (unlimit; lia).
    do 2 eexists; split; [done|]. by apply search_result_found.
  - rewrite (proj2 (Z.eqb_neq _ _)), wrapu_small by (unlimit; lia).
    do 2 eexists; split; [done|]. by apply search_result_not_found.
Qed.

(** ** Upgrade *)

Lemma upgrade_loop_spec s cur new prepend vs n D T :
  enc_ok cur → enc_ok new → cur ≤ new → 0 ≤ prepend →
  is_encoding s = intrev32ifbe new → Forall (fits cur) vs → (n ≤ length vs)%nat →
  is_contents s = D ++ T → blen D = (Z.of_nat n + prepend) * new →
  (∃ gap, D = slots cur (take n vs) ++ gap) →
  ∃ D', intsetUpgrade_loop n s prepend cur
        = Some (set_contents s (D' ++ slots new (take n vs) ++ T)) ∧
    blen D' = prepend * new.
Proof.
  intros Hcur Hnew Hle Hp. revert s D T.
  induction n as [|n IH]; intros s D T He Hf Hn HC HD [gap Hgap].
  { exists D. simpl. rewrite <-HC. by destruct s. }
  pose proof (enc_ok_range _ Hcur). pose proof (enc_ok_range _ Hnew).
  destruct (lookup_lt_is_Some_2 vs n) as [v Hv]; [lia|].
  rewrite (take_S_r _ _ _ Hv), slots_app, <-(assoc_L (++)) in Hgap.
  change (slots cur [v]) with (le_enc (Z.to_nat cur) v ++ []) in Hgap.
  rewrite app_nil_r in Hgap.
  assert (blen (slots cur (take n vs)) = Z.of_nat n * cur) as HP
    by (rewrite slots_length by lia; f_equal; blia).
  assert (length (take n vs) = n) as Htn by (rewrite length_take; lia).
  simpl. rewrite (getEncoded_slot s (slots cur (take n vs)) v (gap ++ T) cur)
    by (done || (by eapply Forall_lookup_1) || (rewrite HC, Hgap, <-!(assoc_L (++)); done)).
  simpl. set (k := Z.to_nat ((Z.of_nat n + prepend) * new)).
  assert (Z.of_nat n * cur ≤ (Z.of_nat n + prepend) * new) as Hk by nia.
  assert ((Z.of_nat n + prepend) * new ≤ blen D) as Hkd by nia.
  assert (D = take k D ++ drop k D) as HDk by (by rewrite take_drop).
  rewrite (set_slot s (take k D) (drop k D) T new)
    by (done || (rewrite HC; rewrite HDk at 1; by rewrite <-(assoc_L (++)))
        || (subst k; unfold blen in *; rewrite ?length_take, ?length_drop; lia)).
  simpl. destruct (IH (set_contents s (take k D ++ le_enc (Z.to_nat new) v ++ T))
    (take k D) (le_enc (Z.to_nat new) v ++ T)) as (D' & -> & HD'); try done; [lia|..].
  - subst k. unfold blen in *. rewrite length_take. lia.
  - exists (take (k - length (slots cur (take n vs))) (le_enc (Z.to_nat cur) v ++ gap)).
    rewrite Hgap, take_app. f_equal. apply take_ge. unfold blen in *. lia.
  - exists D'. split; [|done]. f_equal. unfold set_contents; simpl. f_equal. f_equal.
    rewrite (take_S_r _ _ _ Hv), slots_app, <-(assoc_L (++)). f_equal.
    change (slots new [v]) with (le_enc (Z.to_nat new) v ++ []). by rewrite app_nil_r.
Qed.

Lemma fits_out_of_range e v x :
  enc_ok e → in_i64 v → e < _intsetValueEncoding v → fits e x →
  (v < 0 → v < x) ∧ (0 ≤ v → x < v).
Proof.
  intros He Hv Hlt [Hx Hxe]. apply valueEncoding_le in Hxe; [|done..].
  assert (¬ (- 2 ^ (8 * e - 1) ≤ v < 2 ^ (8 * e - 1)))
    by (rewrite <-valueEncoding_le by done; lia).
  lia.
Qed.

Lemma sorted_snoc vs v :
  StronglySorted Z.lt vs → Forall (λ x, x < v) vs → StronglySorted Z.lt (vs ++ [v]).
Proof.
  induction 1 as [|x l Hs IH Hf]; intros Hall; [repeat constructor|].
  apply Forall_cons in Hall as [? ?]. simpl. constructor; [by apply IH|].
  apply Forall_app. split; [done|]. by apply Forall_singleton.
Qed.

Lemma sorted_insert l v r :
  StronglySorted Z.lt (l ++ r) → Forall (λ x, x < v) l → Forall (Z.lt v) r →
  StronglySorted Z.lt (l ++ v :: r).
Proof.
  induction l as [|x l IH]; simpl; intros Hs Hl Hr; [by constructor|].
  inversion Hs as [|? ? Hs' Hf]; subst. apply Forall_cons in Hl as [? ?].
  constructor; [by apply IH|]. apply Forall_app in Hf as [? ?].
  apply Forall_app. split; [done|]. by constructor.
Qed.

Lemma sorted_delete l (v : Z) r :
  StronglySorted Z.lt (l ++ v :: r) → StronglySorted Z.lt (l ++ r).
Proof.
  induction l as [|x l IH]; simpl; intros Hs; inversion Hs as [|? ? Hs' Hf]; subst; [done|].
  constructor; [by apply IH|].
  apply Forall_app in Hf as [? [? ?]%Forall_cons]. by apply Forall_app.
Qed.

Lemma intsetUpgradeAndAdd_repr s e vs v :
  repr s e vs → in_i64 v → e < _intsetValueEncoding v → 8 * (blen vs + 1) < 2 ^ 31 →
  ∃ s', intsetUpgradeAndAdd s v = Some s' ∧
    repr s' (_intsetValueEncoding v) (if v <? 0 then v :: vs else vs ++ [v]).
Proof.
  intros R Hv Hlt Hsz. pose proof (blen_nonneg vs) as Hnn.
  pose proof (repr_enc _ _ _ R) as He. pose proof (valueEncoding_ok v) as He'.
  set (e' := _intsetValueEncoding v) in *.
  pose proof (enc_ok_range _ He). pose proof (enc_ok_range _ He').
  unfold intsetUpgradeAndAdd. fold e'.
  rewrite (repr_intrev_enc _ _ _ R), (repr_intrev_len _ _ _ R).
  unfold intsetResize; simpl. rewrite intrev32ifbe_invol by (by apply enc_ok_u32).
  rewrite (repr_intrev_len _ _ _ R), (repr_contents _ _ _ R).
  rewrite (wrapu_small 8), (wraps_small 32) by (unlimit; lia).
  rewrite (wrapu_small 32 (blen vs + 1)), (wrapu_small 32) by (unlimit; nia).
  set (p := if v <? 0 then 1 else 0). assert (0 ≤ p ≤ 1) as Hp by (subst p; case_match; lia).
  pose proof (slots_length e vs) as Hsl.
  destruct (mresize_grow junk (slots e vs) ((blen vs + 1) * e')) as (tl & -> & Htl); [nia|].
  set (s1 := set_contents _ _).
  set (k := Z.to_nat ((blen vs + p) * e')). set (W := slots e vs ++ tl).
  assert (blen W = (blen vs + 1) * e') as HW by (subst W; rewrite blen_app; lia).
  replace (Z.to_nat (blen vs)) with (length vs) by blia.
  destruct (upgrade_loop_spec s1 e e' p vs (length vs) (take k W) (drop k W))
    as (D' & E & HD'); try done; try lia; [apply R|by rewrite take_drop| | |].
  { unfold blen in *. rewrite length_take. subst k. nia. }
  { exists (take (k - length (slots e vs)) tl). rewrite firstn_all. subst W.
    rewrite take_app. f_equal. apply take_ge. subst k. unfold blen in *. nia. }
  assert (blen (drop k W) = (1 - p) * e') as HT
    by (unfold blen in *; rewrite length_drop; subst k; nia).
  rewrite E. simpl. rewrite firstn_all.
  pose proof (Forall_impl _ (fits e') _ (repr_fits _ _ _ R)
    (λ x Hx, fits_mono e e' x Hx ltac:(lia))) as Hfit.
  assert (Forall (λ x, (v < 0 → v < x) ∧ (0 ≤ v → x < v)) vs) as Hout.
  { eapply Forall_impl; [apply R|]. intros x Hx. by apply (fits_out_of_range e v x). }
  assert (fits e' v) as Hfv by (split; [done|subst e'; lia]).
  unfold s1. subst p. destruct (Z.ltb_spec v 0); simpl.
  - rewrite (set_slot _ [] D' (slots e' vs ++ drop k W) e')
      by (done || (rewrite ?blen_nil; lia)).
    simpl. eexists; split; [done|].
    assert (drop k W = []) as -> by (apply nil_length_inv; unfold blen in *; lia).
    rewrite app_nil_r. rewrite (repr_intrev_len _ _ _ R), wrapu_small by (unlimit; lia).
    constructor; simpl; rewrite ?blen_cons; try done; try lia.
    + f_equal. lia.
    + by constructor.
    + constructor; [apply R|]. eapply Forall_impl; [exact Hout|]. naive_solver.
  - rewrite (repr_intrev_len _ _ _ R), (wraps_small 32) by (unlimit; lia).
    assert (D' = []) as -> by (apply nil_length_inv; unfold blen in *; lia).
    rewrite (set_slot _ (slots e' vs) (drop k W) [] e')
      by (done || (simpl; by rewrite app_nil_r) || (rewrite ?slots_length; lia)).
    simpl. eexists; split; [done|].
    rewrite (repr_intrev_len _ _ _ R), wrapu_small by (unlimit; lia).
    constructor; simpl; rewrite ?blen_app, ?blen_cons, ?blen_nil; try done; try lia.
    + by rewrite slots_app.
    + apply Forall_app. split; [done|]. by apply Forall_singleton.
    + apply sorted_snoc; [apply R|]. eapply Forall_impl; [exact Hout|]. naive_solver.
Qed.

(** ** Insertion and removal *)

(** Moving the [n - from] slots [Q] at [from] to [to]. *)
Lemma moveTail_spec s e n from to A Q R A' B' C' :
  enc_ok e → is_encoding s = intrev32ifbe e → is_length s = intrev32ifbe n →
  0 ≤ from ≤ n → 8 * n < 2 ^ 31 →
  is_contents s = A ++ Q ++ R → blen A = from * e → blen Q = (n - from) * e →
  is_contents s = A' ++ B' ++ C' → blen A' = to * e → blen B' = blen Q →
  intsetMoveTail s from to = Some (set_contents s (A' ++ Q ++ C')).
Proof.
  intros He HE HL Hf Hn HC HA HQ HC' HA' HB'. unfold intsetMoveTail.
  pose proof (enc_ok_range _ He).
  rewrite HE, HL, !intrev32ifbe_invol by (try (by apply enc_ok_u32); unlimit; lia).
  rewrite (wrapu_small 32 (n - from)) by (unlimit; lia).
  assert (mmove (is_contents s) (to * e) (from * e) (u32 ((n - from) * e))
    = Some (A' ++ Q ++ C')) as E.
  { unfold mmove. rewrite wrapu_small by (unlimit; nia).
    rewrite HC, (mload_app A Q R) by lia. simpl. rewrite <-HC, HC'.
    apply mstore_app; [lia|]. unfold blen in *. lia. }
  unfold enc_ok, INTSET_ENC_INT64, INTSET_ENC_INT32, INTSET_ENC_INT16 in *.
  destruct He as [-> | [-> | ->]]; simpl; rewrite E; done.
Qed.

Lemma found_dec vs v found pos :
  StronglySorted Z.lt vs → search_result vs v found pos →
  (found = 1 ∧ v ∈ vs) ∨ (found = 0 ∧ v ∉ vs).
Proof.
  intros Hs (l & r & -> & _ & Hl & [[-> (r' & -> & Hr)]|[-> Hr]]); [left|right];
    (split; [done|]); rewrite elem_of_app; [rewrite elem_of_cons; auto|].
  rewrite Forall_forall in Hl, Hr. intros [Hx%Hl|Hx%Hr]; lia.
Qed.

(** Making room for one slot after [slots e l]. *)
Lemma insert_gap s e l r :
  repr s e (l ++ r) → 8 * (blen (l ++ r) + 1) < 2 ^ 31 →
  ∃ B, blen B = e ∧
    let s1 := intsetResize s (u32 (blen (l ++ r) + 1)) in
    (if blen l <? blen (l ++ r) then intsetMoveTail s1 (blen l) (u32 (blen l + 1)) else Some s1)
    = Some (set_contents s (slots e l ++ B ++ slots e r)).
Proof.
  intros R Hsz. pose proof (repr_enc _ _ _ R) as He. pose proof (enc_ok_range _ He) as Her.
  pose proof (blen_nonneg l) as Hnl. pose proof (blen_nonneg r) as Hnr.
  assert (blen (l ++ r) = blen l + blen r) as Hlr by apply blen_app.
  unfold intsetResize; simpl. rewrite (repr_intrev_enc _ _ _ R), (repr_contents _ _ _ R).
  rewrite (wrapu_small 32 (blen (l ++ r) + 1)), (wrapu_small 32 (_ * e)) by (unlimit; nia).
  pose proof (slots_length e l ltac:(lia)) as Hsl. pose proof (slots_length e r ltac:(lia)) as Hsr.
  pose proof (slots_length e (l ++ r) ltac:(lia)) as Hslr.
  destruct (mresize_grow junk (slots e (l ++ r)) ((blen (l ++ r) + 1) * e))
    as (tl & -> & Htl); [nia|].
  rewrite slots_app, <-(assoc_L (++)). rewrite Hslr in Htl. set (s1 := set_contents s _).
  destruct (Z.ltb_spec (blen l) (blen (l ++ r))).
  - assert (blen (slots e r ++ tl) = blen (slots e r) + e) as Hrt by (rewrite blen_app; nia).
    destruct (split_at (slots e r ++ tl) e) as (B & C & HBC & HB); [nia|].
    rewrite HBC, blen_app in Hrt.
    exists B. split; [done|]. rewrite wrapu_small by (unlimit; lia).
    rewrite (moveTail_spec s1 e (blen (l ++ r)) (blen l) _ (slots e l) (slots e r) tl
      (slots e l ++ B) C []); try done; try apply R; try lia.
    + by rewrite app_nil_r, <-(assoc_L (++)).
    + simpl. by rewrite HBC, app_nil_r, <-(assoc_L (++)).
    + rewrite blen_app. nia.
  - exists tl. assert (r = []) as -> by (apply nil_length_inv; unfold blen in *; lia).
    split; [nia|]. unfold s1. by rewrite slots_nil, app_nil_r.
Qed.

(** Overwriting the slot after [slots e l] with the tail. *)
Lemma close_gap s e l v r :
  repr s e (l ++ v :: r) →
  ∃ C, (if blen l <? u32 (blen (l ++ v :: r) - 1) then intsetMoveTail s (u32 (blen l + 1)) (blen l)
        else Some s) = Some (set_contents s (slots e l ++ slots e r ++ C)).
Proof.
  intros R. pose proof (repr_enc _ _ _ R) as He. pose proof (enc_ok_range _ He) as Her.
  pose proof (blen_nonneg l) as Hnl. pose proof (blen_nonneg r) as Hnr.
  assert (blen (l ++ v :: r) = blen l + 1 + blen r) as Hlr by blia.
  pose proof (repr_size _ _ _ R) as Hsz. rewrite (wrapu_small 32 (_ - 1)) by (unlimit; lia).
  pose proof (slots_length e l ltac:(lia)) as Hsl. pose proof (slots_length e r ltac:(lia)) as Hsr.
  set (ev := le_enc (Z.to_nat e) v). assert (blen ev = e) as Hev by (subst ev; blia).
  pose proof (repr_contents _ _ _ R) as HC. rewrite slots_app, slots_cons in HC. fold ev in HC.
  destruct (Z.ltb_spec (blen l) (blen (l ++ v :: r) - 1)).
  - destruct (split_at (ev ++ slots e r) (blen (slots e r))) as (B & C & HBC & HB).
    { rewrite blen_app. pose proof (blen_nonneg (slots e r)). lia. }
    exists C. rewrite wrapu_small by (unlimit; lia).
    apply (moveTail_spec s e (blen (l ++ v :: r)) _ _ (slots e l ++ ev) (slots e r) []
      (slots e l) B C); try done; try apply R; try lia.
    + by rewrite HC, app_nil_r, <-(assoc_L (++)).
    + rewrite blen_app. lia.
    + by rewrite HC, HBC.
  - exists ev. assert (r = []) as -> by (apply nil_length_inv; unfold blen in *; lia).
    f_equal. destruct s; simpl in *. by rewrite HC, app_nil_r.
Qed.

Lemma intsetAdd_repr s e vs v :
  repr s e vs → in_i64 v → 8 * (blen vs + 1) < 2 ^ 31 →
  ∃ s' ok vs', intsetAdd s v = Some (s', ok) ∧
    repr s' (Z.max e (_intsetValueEncoding v)) vs' ∧
    ((ok = 0 ∧ v ∈ vs ∧ vs' = vs) ∨
     (ok = 1 ∧ v ∉ vs ∧ ∃ l r, vs = l ++ r ∧ vs' = l ++ v :: r)).
Proof.
  intros R Hv Hsz. pose proof (blen_nonneg vs) as Hnn.
  pose proof (repr_enc _ _ _ R) as He. pose proof (enc_ok_range _ He) as Her.
  unfold intsetAdd. rewrite (repr_intrev_enc _ _ _ R).
  destruct (Z.ltb_spec e (_intsetValueEncoding v)) as [Hlt|Hge].
  { destruct (intsetUpgradeAndAdd_repr s e vs v R Hv Hlt Hsz) as (s' & -> & R').
    simpl. rewrite Z.max_r by lia. do 3 eexists; split; [done|split; [exact R'|]].
    right. split; [done|]. split.
    - intros Hin. pose proof (repr_fits _ _ _ R) as Hf. rewrite Forall_forall in Hf.
      apply Hf in Hin as [_ ?]. lia.
    - case_match; [exists [], vs|exists vs, []]; rewrite ?app_nil_r; done. }
  rewrite Z.max_l by lia.
  destruct (intsetSearch_result s e vs v R) as (found & pos & -> & Hres). simpl.
  destruct (found_dec vs v found pos (repr_sorted _ _ _ R) Hres) as [[-> Hin]|[-> Hnin]]; simpl.
  { do 3 eexists; split; [done|split; [exact R|]]. by left. }
  destruct Hres as (l & r & -> & -> & Hl & [[? _]|[_ Hr]]); [done|].
  simpl. rewrite (repr_intrev_len _ _ _ R).
  destruct (insert_gap s e l r R Hsz) as (B & HB & ->).
  assert (blen (l ++ r) = blen l + blen r) as Hlr by apply blen_app.
  pose proof (blen_nonneg l). pose proof (blen_nonneg r).
  pose proof (slots_length e l ltac:(lia)) as Hsl. assert (fits e v) as Hfv by (split; [done|lia]).
  simpl. rewrite (set_slot _ (slots e l) B (slots e r) e); try done; [|apply R|].
  2:{ rewrite (wraps_small 32) by (unlimit; lia). lia. }
  simpl. rewrite (repr_intrev_len _ _ _ R), (wrapu_small 32) by (unlimit; lia).
  do 3 eexists; split; [done|]. split; [|right; eauto 10].
  constructor; simpl; rewrite ?blen_app, ?blen_cons; try done; try apply R; try lia.
  - f_equal. lia.
  - by rewrite slots_app.
  - pose proof (repr_fits _ _ _ R) as [? ?]%Forall_app. apply Forall_app. split; [done|by constructor].
  - apply sorted_insert; [apply R|done..].
Qed.

Lemma intsetRemove_repr s e vs v :
  repr s e vs → in_i64 v →
  ∃ s' ok vs', intsetRemove s v = Some (s', ok) ∧ repr s' e vs' ∧
    ((ok = 0 ∧ v ∉ vs ∧ vs' = vs) ∨
     (ok = 1 ∧ ∃ l r, vs = l ++ v :: r ∧ vs' = l ++ r)).
Proof.
  intros R Hv. pose proof (blen_nonneg vs) as Hnn.
  pose proof (repr_enc _ _ _ R) as He. pose proof (enc_ok_range _ He) as Her.
  unfold intsetRemove. rewrite (repr_intrev_enc _ _ _ R).
  destruct (Z.leb_spec (_intsetValueEncoding v) e) as [Hle|Hgt].
  2:{ do 3 eexists; split; [done|split; [exact R|]]. left. split; [done|]. split; [|done].
      intros Hin. pose proof (repr_fits _ _ _ R) as Hf. rewrite Forall_forall in Hf.
      apply Hf in Hin as [_ ?]. lia. }
  destruct (intsetSearch_result s e vs v R) as (found & pos & -> & Hres). simpl.
  destruct (found_dec vs v found pos (repr_sorted _ _ _ R) Hres) as [[-> Hin]|[-> Hnin]]; simpl.
  2:{ do 3 eexists; split; [done|split; [exact R|]]. by left. }
  destruct Hres as (l & r0 & -> & -> & Hl & [[_ (r & -> & Hr)]|[? _]]); [|done].
  simpl. rewrite (repr_intrev_len _ _ _ R). destruct (close_gap s e l v r R) as (C & ->).
  pose proof (blen_nonneg l) as Hnl. pose proof (blen_nonneg r) as Hnr.
  assert (blen (l ++ v :: r) = blen l + 1 + blen r) as Hlr by blia.
  pose proof (repr_size _ _ _ R) as Hsz.
  rewrite (wrapu_small 32 (blen (l ++ v :: r) - 1)) by (unlimit; lia).
  pose proof (slots_length e l ltac:(lia)) as Hsl. pose proof (slots_length e r ltac:(lia)) as Hsr.
  simpl. unfold intsetResize. simpl. rewrite (repr_intrev_enc _ _ _ R).
  rewrite wrapu_small by (unlimit; nia).
  rewrite (assoc_L (++)), mresize_shrink by (rewrite (blen_app (slots e l)); nia).
  do 3 eexists; split; [done|]. split; [|right; eauto 10].
  constructor; simpl; rewrite ?Hlr, ?(blen_app l r); try done; try apply R; try lia.
  - f_equal. lia.
  - by rewrite slots_app.
  - pose proof (repr_fits _ _ _ R) as [? [? ?]%Forall_cons]%Forall_app. by apply Forall_app.
  - eapply sorted_delete, R.
Qed.

(** ** The abstract set *)

(** [s] is the set of integers [X]. *)
Definition models (s : intset) (X : gset Z) : Prop :=
  ∃ e vs, repr s e vs ∧ X = list_to_set vs.

(** Room for one more integer, in [int] positions. *)
Definition has_room (X : gset Z) : Prop := 8 * (Z.of_nat (size X) + 1) < 2 ^ 31.

Lemma sorted_NoDup vs : StronglySorted Z.lt vs → NoDup vs.
Proof.
  induction 1 as [|x l Hs IH Hf]; constructor; [|done].
  rewrite Forall_forall in Hf. intros Hx%Hf. lia.
Qed.

Lemma repr_set_size s e vs : repr s e vs → Z.of_nat (size (list_to_set vs : gset Z)) = blen vs.
Proof. intros R. rewrite size_list_to_set; [done|]. eapply sorted_NoDup, R. Qed.

Lemma intsetNew_models : models intsetNew ∅.
Proof.
  exists INTSET_ENC_INT16, []. split; [|done].
  constructor; simpl; try done; [by left|unfold intrev32ifbe|constructor..].
  destruct big_endian; [|done]. by rewrite intrev32_eq.
Qed.

(** [intsetSearch] on a set. *)
Lemma intsetSearch_set s e vs v :
  repr s e vs → ∃ pos, intsetSearch s v = Some (if bool_decide (v ∈ vs) then 1 else 0, pos).
Proof.
  intros R. destruct (intsetSearch_result s e vs v R) as (found & pos & -> & Hres).
  exists pos. destruct (found_dec vs v found pos (repr_sorted _ _ _ R) Hres) as [[-> ?]|[-> ?]].
  - by rewrite bool_decide_true.
  - by rewrite bool_decide_false.
Qed.

(** The rank of the element at a position. *)
Lemma sorted_rank vs i v :
  StronglySorted Z.lt vs → vs !! i = Some v →
  size (filter (λ x, x < v) (list_to_set vs : gset Z)) = i.
Proof.
  intros Hs Hv. assert (i < length vs)%nat by (by eapply lookup_lt_Some).
  replace (filter (λ x, x < v) (list_to_set vs : gset Z))
    with (list_to_set (take i vs) : gset Z).
  - rewrite size_list_to_set; [rewrite length_take; lia|].
    pose proof (sorted_NoDup _ Hs) as Hnd. rewrite <-(take_drop i vs) in Hnd.
    by apply NoDup_app in Hnd as [? _].
  - apply set_eq. intros x. rewrite elem_of_filter, !elem_of_list_to_set.
    rewrite !list_elem_of_lookup. split.
    + intros [j [Hj ?]%lookup_take_Some]. split; [|by eauto]. by eapply (sorted_lookup_lt vs j i).
    + intros [Hlt [j Hj]]. exists j. rewrite lookup_take_lt; [done|].
      destruct (decide (j < i)%nat) as [|Hge]; [done|]. exfalso.
      destruct (decide (i = j)) as [->|]; [naive_solver lia|].
      pose proof (sorted_lookup_lt vs i j v x Hs Hv Hj ltac:(lia)). lia.
Qed.

(** ** The stored block *)

(** The bytes of the block as they are in memory, and so in an RDB file. *)
Definition intset_blob (s : intset) : list Z :=
  native_enc 4 (is_encoding s) ++ native_enc 4 (is_length s) ++ is_contents s.

Lemma native_enc_intrev32ifbe v : native_enc 4 (intrev32ifbe v) = le_enc 4 v.
Proof.
  unfold native_enc, intrev32ifbe. destruct big_endian; [|done].
  rewrite intrev32_eq. pose proof (le_enc_dec (reverse (le_enc 4 v)) (reverse_ok _ (le_enc_ok _ _))) as E.
  rewrite length_reverse, le_enc_length in E. by rewrite E, reverse_involutive.
Qed.

Lemma repr_blob s e vs :
  repr s e vs → intset_blob s = le_enc 4 e ++ le_enc 4 (blen vs) ++ slots e vs.
Proof.
  intros R. unfold intset_blob.
  by rewrite (repr_encoding _ _ _ R), (repr_length _ _ _ R), (repr_contents _ _ _ R),
    !native_enc_intrev32ifbe.
Qed.

(** A sequence of insertions. *)
Fixpoint intsetAddAll (s : intset) (values : list Z) : option intset :=
  match values with
  | [] => Some s
  | v :: values => '(s, _) ← intsetAdd s v; intsetAddAll s values
  end.

Definition max_enc (e : Z) (values : list Z) : Z :=
  foldl (λ e v, Z.max e (_intsetValueEncoding v)) e values.

Lemma intsetAddAll_repr values : ∀ s e vs,
  repr s e vs → Forall in_i64 values → 8 * (blen vs + blen values) < 2 ^ 31 →
  ∃ s' vs', intsetAddAll s values = Some s' ∧ repr s' (max_enc e values) vs' ∧
    ∀ x, x ∈ vs' ↔ x ∈ vs ∨ x ∈ values.
Proof.
  induction values as [|v values IH]; intros s e vs R Hv Hsz.
  { exists s, vs. split; [done|split; [done|]]. set_solver. }
  apply Forall_cons in Hv as [Hv Hvs]. rewrite blen_cons in Hsz.
  pose proof (blen_nonneg values).
  destruct (intsetAdd_repr s e vs v R Hv ltac:(lia)) as (s1 & ok & vs1 & E & R1 & Hok).
  assert (blen vs1 ≤ blen vs + 1 ∧ ∀ x, x ∈ vs1 ↔ x ∈ vs ∨ x = v) as [Hl Hin].
  { destruct Hok as [(_ & ? & ->)|(_ & _ & l & r & -> & ->)]; split; [lia|set_solver|blia|set_solver]. }
  destruct (IH s1 _ vs1 R1 Hvs ltac:(lia)) as (s' & vs' & E' & R' & Hin').
  exists s', vs'. simpl. rewrite E. simpl. split; [done|split; [done|]].
  intros x. rewrite Hin', Hin, elem_of_cons. tauto.
Qed.

(** ** Properties *)

(** C1. [intsetAdd] refines the insertion in a set, on every host and whatever
    the allocator leaves in the new bytes: with room for one more integer no
    access leaves the block, the block is the one of the set with the integer,
    and [*success] says whether it was new.  The encoding upgrade is included. *)
Theorem intsetAdd_refines s X v :
  models s X → in_i64 v → has_room X →
  ∃ s', intsetAdd s v = Some (s', if bool_decide (v ∈ X) then 0 else 1) ∧
    models s' ({[v]} ∪ X).
Proof.
  intros (e & vs & R & ->) Hv Hroom. unfold has_room in Hroom.
  rewrite (repr_set_size s e vs R) in Hroom.
  destruct (intsetAdd_repr s e vs v R Hv Hroom) as (s' & ok & vs' & E & R' & Hok).
  exists s'. rewrite E. destruct Hok as [(-> & Hin & ->)|(-> & Hnin & l & r & -> & ->)].
  - rewrite bool_decide_true by set_solver. split; [done|].
    eexists _, vs. split; [done|]. set_solver.
  - rewrite bool_decide_false by set_solver. split; [done|].
    eexists _, _. split; [done|]. set_solver.
Qed.

(** [intsetRemove] refines the deletion from a set: no access leaves the
    block, the block is the one of the set without the integer, [*success] says
    whether it was there, and the encoding is kept. *)
Theorem intsetRemove_refines s X v :
  models s X → in_i64 v →
  ∃ s', intsetRemove s v = Some (s', if bool_decide (v ∈ X) then 1 else 0) ∧
    models s' (X ∖ {[v]}) ∧ is_encoding s' = is_encoding s.
Proof.
  intros (e & vs & R & ->) Hv.
  destruct (intsetRemove_repr s e vs v R Hv) as (s' & ok & vs' & E & R' & Hok).
  exists s'. rewrite E, (repr_encoding _ _ _ R), (repr_encoding _ _ _ R').
  destruct Hok as [(-> & Hnin & ->)|(-> & l & r & -> & ->)].
  - rewrite bool_decide_false by set_solver. split; [done|]. split; [|done].
    eexists _, vs. split; [done|]. set_solver.
  - rewrite bool_decide_true by set_solver. split; [done|]. split; [|done].
    eexists _, _. split; [done|].
    pose proof (sorted_NoDup _ (repr_sorted _ _ _ R)) as (_ & Hd & [? ?]%NoDup_cons)%NoDup_app.
    set_solver.
Qed.

(** [intsetFind] decides membership, and [intsetGet] at position [i] gives
    the integer of rank [i] and fails exactly out of range. *)
Theorem intsetFind_refines s X :
  models s X →
  (∀ v, in_i64 v → intsetFind s v = Some (if bool_decide (v ∈ X) then 1 else 0)) ∧
  intsetLen s = Z.of_nat (size X) ∧
  (∀ i, Z.of_nat (size X) ≤ i → intsetGet s i = Some (0, None)) ∧
  (∀ i, 0 ≤ i < Z.of_nat (size X) → ∃ v, intsetGet s i = Some (1, Some v) ∧ v ∈ X ∧
     Z.of_nat (size (filter (λ x, x < v) X)) = i).
Proof.
  intros (e & vs & R & ->). rewrite (repr_set_size s e vs R).
  unfold intsetFind, intsetGet, intsetLen.
  rewrite (repr_intrev_enc _ _ _ R), (repr_intrev_len _ _ _ R).
  pose proof (repr_size _ _ _ R) as Hsz.
  split; [|split; [done|split]].
  - intros v Hv. destruct (Z.leb_spec (_intsetValueEncoding v) e).
    + destruct (intsetSearch_set s e vs v R) as (pos & ->). simpl.
      by rewrite (bool_decide_ext (v ∈ vs) (v ∈ (list_to_set vs : gset Z))) by set_solver.
    + rewrite bool_decide_false; [done|]. rewrite elem_of_list_to_set. intros Hin.
      pose proof (repr_fits _ _ _ R) as Hf. rewrite Forall_forall in Hf.
      apply Hf in Hin as [_ ?]. lia.
  - intros i Hi. by rewrite (proj2 (Z.ltb_ge _ _)).
  - intros i Hi. rewrite (proj2 (Z.ltb_lt _ _)), (wraps_small 32) by (unlimit; lia).
    destruct (lookup_lt_is_Some_2 vs (Z.to_nat i)) as [v Hv]; [unfold blen in *; lia|].
    rewrite (repr_get s e vs R i v) by (done || lia). exists v. split; [done|].
    split; [rewrite elem_of_list_to_set; by eapply list_elem_of_lookup_2|].
    rewrite (sorted_rank vs (Z.to_nat i) v (repr_sorted _ _ _ R) Hv). lia.
Qed.

End with_host.

Lemma sorted_set_unique (l1 l2 : list Z) :
  StronglySorted Z.lt l1 → StronglySorted Z.lt l2 → (∀ x, x ∈ l1 ↔ x ∈ l2) → l1 = l2.
Proof.
  intros H1 H2 H.
  assert (∀ l, StronglySorted Z.lt l → StronglySorted Z.le l) as Hle.
  { induction 1 as [|x l ? ? Hf]; constructor; [done|].
    eapply Forall_impl; [exact Hf|]. simpl. lia. }
  eapply (StronglySorted_unique Z.le); [by apply Hle..|].
  apply NoDup_Permutation; [by apply sorted_NoDup..|done].
Qed.

(** C24. The stored block does not depend on the host: the same insertions, on
    two hosts of any byte order and with any allocator, never leave the block
    and end with the same bytes. *)
Theorem intset_blob_portable (H1 H2 : Host) (junk1 junk2 : nat → Z) (values : list Z) :
  Forall in_i64 values → 8 * blen values < 2 ^ 31 →
  ∃ s1 s2, @intsetAddAll H1 junk1 (@intsetNew H1) values = Some s1 ∧
    @intsetAddAll H2 junk2 (@intsetNew H2) values = Some s2 ∧
    @intset_blob H1 s1 = @intset_blob H2 s2.
Proof.
  intros Hv Hsz.
  assert (∀ H, @repr H (@intsetNew H) INTSET_ENC_INT16 []) as R0.
  { intros H. destruct (@intsetNew_models H) as (e & vs & R & Hvs).
    destruct vs as [|x vs]; [|exfalso; set_solver].
    replace INTSET_ENC_INT16 with e; [done|].
    pose proof (repr_intrev_enc _ _ _ R) as E. simpl in E.
    by rewrite intrev32ifbe_invol in E. }
  destruct (@intsetAddAll_repr H1 junk1 values _ _ [] (R0 H1) Hv) as (s1 & vs1 & E1 & R1 & I1);
    [done|].
  destruct (@intsetAddAll_repr H2 junk2 values _ _ [] (R0 H2) Hv) as (s2 & vs2 & E2 & R2 & I2);
    [done|].
  exists s1, s2. split; [done|split; [done|]].
  rewrite (repr_blob _ _ _ R1), (repr_blob _ _ _ R2).
  rewrite (sorted_set_unique vs1 vs2);
    [done|exact (repr_sorted _ _ _ R1)|exact (repr_sorted _ _ _ R2)|].
  intros x. by rewrite I1, I2.
Qed.

(** ** Witnesses *)

Definition junk_a5 : nat → Z := λ _, 165.

(** The set of -1 and 300 on a big endian host. *)
Definition sample_set : intset := @Intset (2 ^ 25) (2 ^ 25) [255; 255; 44; 1].

Lemma sample_set_models : @models big_host sample_set {[-1; 300]}.
Proof.
  exists INTSET_ENC_INT16, [-1; 300]. split; [|vm_compute; reflexivity].
  constructor; [by left|by vm_compute|by vm_compute|by vm_compute| | |by vm_compute].
  - repeat apply Forall_cons_2; [..|apply Forall_nil_2]; repeat split; by vm_compute.
  - repeat constructor.
Qed.

Lemma intsetAdd_refines_witness :
  ∃ s', @intsetAdd big_host junk_a5 sample_set (-70000) = Some (s', 1) ∧
    @models big_host s' ({[-70000]} ∪ {[-1; 300]}).
Proof.
  destruct (@intsetAdd_refines big_host junk_a5 sample_set {[-1; 300]} (-70000))
    as (s' & E & M).
  - exact sample_set_models.
  - split; vm_compute; discriminate.
  - vm_compute. reflexivity.
  - exists s'. split; [exact E|exact M].
Defined.

Lemma intsetRemove_refines_witness :
  ∃ s', @intsetRemove big_host junk_a5 sample_set 300 = Some (s', 1) ∧
    @models big_host s' ({[-1; 300]} ∖ {[300]}) ∧
    is_encoding s' = is_encoding sample_set.
Proof.
  destruct (@intsetRemove_refines big_host junk_a5 sample_set {[-1; 300]} 300)
    as (s' & E & M).
  - exact sample_set_models.
  - split; vm_compute; discriminate.
  - exists s'. split; [exact E|exact M].
Defined.

Lemma intsetFind_refines_witness :
  @intsetLen big_host sample_set = Z.of_nat (size ({[-1; 300]} : gset Z)).
Proof. exact (proj1 (proj2 (@intsetFind_refines big_host junk_a5 sample_set _ sample_set_models))). Defined.

Lemma intset_blob_portable_witness :
  ∃ s1 s2, @intsetAddAll little_host junk_a5 (@intsetNew little_host) [5; -70000; 5] = Some s1 ∧
    @intsetAddAll big_host junk_a5 (@intsetNew big_host) [5; -70000; 5] = Some s2 ∧
    @intset_blob little_host s1 = @intset_blob big_host s2.
Proof.
  apply (intset_blob_portable little_host big_host junk_a5 junk_a5 [5; -70000; 5]).
  - repeat constructor; vm_compute; discriminate.
  - vm_compute. reflexivity.
Defined.
