(* ===== verification/Util.v ===== *)
(** * Numbers and strings ([util.c])

    Glob matching, memory sizes, and the conversions between integers and
    their decimal strings on which the integer encodings of values rest.
    A [char *] is a block of bytes and an offset into it; reading outside of
    the block is [None].  Functions with loops that are not structural take a
    fuel, whose exhaustion is [None] as well. *)
From S2P Require Import Prelude.
Open Scope Z_scope.

(** ** Characters *)

Definition ch_nul : Z := 0.
Definition ch_star : Z := 42.
Definition ch_minus : Z := 45.
Definition ch_0 : Z := 48.
Definition ch_9 : Z := 57.
Definition ch_qmark : Z := 63.
Definition ch_lbracket : Z := 91.
Definition ch_backslash : Z := 92.
Definition ch_rbracket : Z := 93.
Definition ch_caret : Z := 94.

(** [isdigit], [tolower] and [strcasecmp] of the C locale. *)
Definition isdigit (c : Z) : bool := (ch_0 <=? c) && (c <=? ch_9).
Definition tolower (c : Z) : Z := if (65 <=? c) && (c <=? 90) then c + 32 else c.
Definition strcasecmp_eq (a b : list Z) : bool := bool_decide (tolower <$> a = tolower <$> b).

(** [char] is signed. *)
Definition schar (b : Z) : Z := i8 b.

(** ** Glob-style pattern matching *)

(** [while (pattern[1] == '*')] of the star case. *)
Fixpoint skip_stars (fuel : nat) (pattern : list Z) (p plen : Z) : option (Z * Z) :=
  c ← mget pattern (p + 1);
  if c =? ch_star then
    match fuel with
    | O => None
    | S fuel => skip_stars fuel pattern (p + 1) (plen - 1)
    end
  else Some (p, plen).

(** [while(1)] of the bracket case; the result is the pattern and whether the
    character of the string was met. *)
Fixpoint match_class (fuel : nat) (pattern string : list Z) (nocase : bool)
    (p plen s : Z) (matched : bool) : option (Z * Z * bool) :=
  match fuel with
  | O => None
  | S fuel =>
      c ← mget pattern p;
      if c =? ch_backslash then
        let p := p + 1 in
        let plen := plen - 1 in
        c ← mget pattern p;
        x ← mget string s;
        match_class fuel pattern string nocase (p + 1) (plen - 1) s ((c =? x) || matched)
      else if c =? ch_rbracket then Some (p, plen, matched)
      else if plen =? 0 then Some (p - 1, plen + 1, matched)
      else
        c1 ← mget pattern (p + 1);
        if (c1 =? ch_minus) && (3 <=? plen) then
          c2 ← mget pattern (p + 2);
          x ← mget string s;
          let start := schar c in
          let end_ := schar c2 in
          let '(start, end_) := if end_ <? start then (end_, start) else (start, end_) in
          let '(start, end_, x) :=
            if nocase then (tolower start, tolower end_, tolower (schar x))
            else (start, end_, schar x) in
          match_class fuel pattern string nocase (p + 3) (plen - 3) s
            (((start <=? x) && (x <=? end_)) || matched)
        else
          x ← mget string s;
          let eq := if nocase then tolower (schar c) =? tolower (schar x) else c =? x in
          match_class fuel pattern string nocase (p + 1) (plen - 1) s (eq || matched)
  end.

(** [while(star == '*')] once the string is used up. *)
Fixpoint drop_stars (fuel : nat) (pattern : list Z) (p plen : Z) : option (Z * Z) :=
  c ← mget pattern p;
  if c =? ch_star then
    match fuel with
    | O => None
    | S fuel => drop_stars fuel pattern (p + 1) (plen - 1)
    end
  else Some (p, plen).

(** [while(stringLen)] of the star case; [rest] is the recursive call. *)
Fixpoint star_loop (rest : Z → Z → option bool) (fuel : nat) (s slen : Z) : option bool :=
  if slen =? 0 then Some false
  else
    match fuel with
    | O => None
    | S fuel =>
        r ← rest s slen;
        if (r : bool) then Some true else star_loop rest fuel (s + 1) (slen - 1)
    end.

(** [p], [plen] and [s], [slen] are the pointers and lengths the C function
    moves along [pattern] and [string]. *)
Fixpoint stringmatchlen (fuel : nat) (pattern string : list Z) (nocase : bool)
    (p plen s slen : Z) : option bool :=
  match fuel with
  | O => None
  | S fuel =>
      if plen =? 0 then Some ((plen =? 0) && (slen =? 0))
      else
        c ← mget pattern p;
        let next (p plen s slen : Z) : option bool :=
          let p := p + 1 in
          let plen := plen - 1 in
          if slen =? 0 then
            '(p, plen) ← drop_stars fuel pattern p plen;
            Some ((plen =? 0) && (slen =? 0))
          else stringmatchlen fuel pattern string nocase p plen s slen in
        let literal (p plen : Z) : option bool :=
          c ← mget pattern p;
          x ← mget string s;
          if (if nocase then tolower (schar c) =? tolower (schar x) else c =? x)
          then next p plen (s + 1) (slen - 1)
          else Some false in
        if c =? ch_star then
          '(p, plen) ← skip_stars fuel pattern p plen;
          if plen =? 1 then Some true
          else
            star_loop (stringmatchlen fuel pattern string nocase (p + 1) (plen - 1)) fuel s slen
        else if c =? ch_qmark then
          if slen =? 0 then Some false else next p plen (s + 1) (slen - 1)
        else if c =? ch_lbracket then
          let p := p + 1 in
          let plen := plen - 1 in
          c ← mget pattern p;
          let negate := c =? ch_caret in
          let '(p, plen) := if negate then (p + 1, plen - 1) else (p, plen) in
          '(p, plen, matched) ← match_class fuel pattern string nocase p plen s false;
          if xorb negate matched then next p plen (s + 1) (slen - 1) else Some false
        else if (c =? ch_backslash) && (2 <=? plen) then literal (p + 1) (plen - 1)
        else literal p plen
  end.

(** The two arguments are NUL terminated: [pattern] and [string] are their
    blocks. *)
Definition stringmatch (fuel : nat) (pattern string : list Z) (nocase : bool) : option bool :=
  stringmatchlen fuel (pattern ++ [ch_nul]) (string ++ [ch_nul]) nocase
    0 (i32 (blen pattern)) 0 (i32 (blen string)).

(** ** Memory sizes *)

(** The digits of [strtoll] from the left, saturated to a [long long]. *)
Fixpoint strtoll_digits (cs : list Z) (acc : Z) : Z :=
  match cs with
  | c :: cs => if isdigit c then strtoll_digits cs (acc * 10 + (c - ch_0)) else acc
  | [] => acc
  end.

(** [strtoll(buf, NULL, 10)] on the digits with an optional minus sign that
    memtoll gives it. *)
Definition strtoll10 (buf : list Z) : Z :=
  match buf with
  | c :: cs =>
      if c =? ch_minus then Z.max LLONG_MIN (- strtoll_digits cs 0)
      else Z.min LLONG_MAX (strtoll_digits buf 0)
  | [] => 0
  end.

(** The longest prefix of digits, and the rest. *)
Fixpoint span_digits (cs : list Z) : list Z * list Z :=
  match cs with
  | c :: cs' => if isdigit c then let '(d, r) := span_digits cs' in (c :: d, r) else ([], cs)
  | [] => ([], [])
  end.

(** ** Classes of characters *)

(** [isspace] of the C locale. *)
Definition isspace (c : Z) : bool := (c =? 32) || ((9 <=? c) && (c <=? 13)).
Fixpoint drop_while (p : Z → bool) (l : list Z) : list Z :=
  match l with [] => [] | x :: l' => if p x then drop_while p l' else l end.

(** [strtoll(s, &eptr, 10)]: the value, [eptr[0]] and whether errno is ERANGE. *)
Definition strtoll_erange (s : list Z) : Z * Z * bool :=
  let s1 := drop_while isspace s in
  let '(neg, s2) :=
    match s1 with
    | c :: s2 => if c =? ch_minus then (true, s2) else if c =? 43 then (false, s2) else (false, s1)
    | [] => (false, s1)
    end in
  let '(ds, rest) := span_digits s2 in
  if bool_decide (ds = []) then (0, default 0 (head s), false)
  else
    let v := if neg : bool then - strtoll_digits ds 0 else strtoll_digits ds 0 in
    (Z.min LLONG_MAX (Z.max LLONG_MIN v), default 0 (head rest), negb ((LLONG_MIN <=? v) && (v <=? LLONG_MAX))).

Definition unit_mul (u : list Z) : option Z :=
  if bool_decide (u = []) || strcasecmp_eq u [98] then Some 1
  else if strcasecmp_eq u [107] then Some 1000
  else if strcasecmp_eq u [107; 98] then Some 1024
  else if strcasecmp_eq u [109] then Some (1000 * 1000)
  else if strcasecmp_eq u [109; 98] then Some (1024 * 1024)
  else if strcasecmp_eq u [103] then Some (1000 * 1000 * 1000)
  else if strcasecmp_eq u [103; 98] then Some (1024 * 1024 * 1024)
  else None.

(** The optional minus sign memtoll skips. *)
Definition split_sign (p : list Z) : list Z * list Z :=
  match p with c :: cs => if c =? ch_minus then ([c], cs) else ([], p) | [] => ([], []) end.

(** [p] is the string without its terminator; the result and [*err]. *)
Definition memtoll (p : list Z) : Z * Z :=
  let '(sign, rest) := split_sign p in
  let '(ds, u) := span_digits rest in
  let '(mul, err) := match unit_mul u with Some m => (m, 0) | None => (1, 1) end in
  let digits := sign ++ ds in
  if 128 <=? u32 (blen digits) then (LLONG_MAX, 1)
  else (i64 (strtoll10 digits * mul), err).

(** ** Integers to strings and back *)

(** [do *p-- = '0'+(v%10); v /= 10; while(v)]: the digits from [p] on. *)
Fixpoint put_digits (fuel : nat) (v : Z) (p : list Z) : list Z :=
  match fuel with
  | O => p
  | S fuel =>
      let p := (ch_0 + v mod 10) :: p in
      let v := v / 10 in
      if v =? 0 then p else put_digits fuel v p
  end.

(** The result and the bytes written at [s]; [buf] has room for 32. *)
Definition ll2string (len value : Z) : Z * list Z :=
  if len =? 0 then (0, [])
  else
    let v := if value <? 0 then u64 (- value) else value in
    let vl := u32 v in
    let p := if vl =? v then put_digits 32 vl [] else put_digits 32 v [] in
    let p := if value <? 0 then ch_minus :: p else p in
    let l := blen p in
    let l := if len <? l + 1 then len - 1 else l in
    (i32 l, take (Z.to_nat l) p ++ [ch_nul]).

(** The digits loop of string2ll; [None] is the return 0 on overflow, and the
    rest is what the loop did not consume. *)
Fixpoint get_digits (s : list Z) (v : Z) : option (Z * list Z) :=
  match s with
  | c :: s' =>
      if (ch_0 <=? c) && (c <=? ch_9) then
        if ULLONG_MAX / 10 <? v then None
        else
          let v := u64 (v * 10) in
          if ULLONG_MAX - (c - ch_0) <? v then None
          else get_digits s' (u64 (v + (c - ch_0)))
      else Some (v, s)
  | [] => Some (v, s)
  end.

(** [Some v] is the return 1 with [*value = v], [None] the return 0. *)
Definition string2ll (s : list Z) : option Z :=
  match s with
  | [] => None
  | c :: s' =>
      if (blen s =? 1) && (c =? ch_0) then Some 0
      else
        let negative := c =? ch_minus in
        match (if negative then s' else s) with
        | [] => None
        | c :: rest =>
            if (49 <=? c) && (c <=? ch_9) then
              match get_digits rest (c - ch_0) with
              | Some (v, []) =>
                  if negative then
                    if u64 (- (LLONG_MIN + 1)) + 1 <? v then None else Some (i64 (- v))
                  else if LLONG_MAX <? v then None else Some (i64 v)
              | _ => None
              end
            else if (c =? ch_0) && (blen s =? 1) then Some 0
            else None
        end
  end.

Definition string2l (s : list Z) : option Z :=
  llval ← string2ll s;
  if (llval <? LONG_MIN) || (LONG_MAX <? llval) then None else Some (i32 llval).

(** ** Decimal strings *)

Definition is_dig (c : Z) : Prop := ch_0 ≤ c ≤ ch_9.
Definition dec_val (v : Z) (ds : list Z) : Z := foldl (λ a c, a * 10 + (c - ch_0)) v ds.

(** The digits of a positive number, with no leading zero. *)
Definition canonical (ds : list Z) : Prop :=
  Forall is_dig ds ∧ ∃ c cs, ds = c :: cs ∧ c ≠ ch_0.

Lemma dec_val_snoc v ds c : dec_val v (ds ++ [c]) = dec_val v ds * 10 + (c - ch_0).
Proof. unfold dec_val. by rewrite foldl_app. Qed.

Lemma dec_val_mono v ds : 0 ≤ v → Forall is_dig ds → v ≤ dec_val v ds.
Proof.
  intros Hv Hd. revert v Hv. induction Hd as [|c cs Hc _ IH]; intros v Hv; simpl; [lia|].
  unfold is_dig, ch_0, ch_9 in *. trans (v * 10 + (c - 48)); [lia|]. apply IH. lia.
Qed.

Lemma canonical_pos ds : canonical ds → 1 ≤ dec_val 0 ds.
Proof.
  intros [Hd (c & cs & -> & Hc)]. apply Forall_cons in Hd as [? ?].
  unfold is_dig, ch_0, ch_9 in *. simpl.
  assert (c - 48 ≤ dec_val (c - 48) cs) by (apply dec_val_mono; [lia|done]).
  change (1 ≤ dec_val (c - 48) cs). lia.
Qed.

Lemma canonical_snoc ds c :
  canonical (ds ++ [c]) ↔ is_dig c ∧ (canonical ds ∨ (ds = [] ∧ c ≠ ch_0)).
Proof.
  unfold canonical. rewrite Forall_app, Forall_singleton. split.
  - intros [[Hd Hc] (x & xs & E & Hx)]. split; [done|].
    destruct ds as [|y ds]; simpl in *; simplify_eq; [by right|]. left. eauto 10.
  - intros [Hc [[Hd (x & xs & -> & Hx)]|[-> Hx]]]; simpl; split; eauto 10.
Qed.

(** The digits of a positive number are unique and are the ones the loop of
    ll2string writes. *)
Lemma put_digits_canonical ds fuel p :
  canonical ds → (length ds ≤ fuel)%nat → put_digits fuel (dec_val 0 ds) p = ds ++ p.
Proof.
  revert fuel p. induction ds as [|c ds IH] using rev_ind; intros fuel p Hcan Hf.
  { by destruct Hcan as [_ (? & ? & ? & _)]. }
  rewrite length_app in Hf. simpl in Hf. destruct fuel as [|fuel]; [lia|].
  apply canonical_snoc in Hcan as [Hc Hcan]. rewrite dec_val_snoc.
  unfold is_dig, ch_0, ch_9 in *. simpl.
  assert (0 ≤ dec_val 0 ds) as Hnn.
  { destruct Hcan as [Hcan|[-> _]]; [|done]. apply canonical_pos in Hcan. lia. }
  assert ((dec_val 0 ds * 10 + (c - 48)) / 10 = dec_val 0 ds) as ->
    by (symmetry; eapply (Z.div_unique _ 10 _ (c - 48)); lia).
  assert ((dec_val 0 ds * 10 + (c - 48)) mod 10 = c - 48) as ->
    by (symmetry; eapply (Z.mod_unique _ 10 (dec_val 0 ds)); lia).
  unfold ch_0. replace (48 + (c - 48)) with c by lia. rewrite <-(assoc_L (++)).
  destruct Hcan as [Hcan|[-> _]]; [|done].
  pose proof (canonical_pos _ Hcan). destruct (Z.eqb_spec (dec_val 0 ds) 0); [lia|].
  apply IH; [done|lia].
Qed.

Lemma canonical_exists k n :
  1 ≤ n < 10 ^ Z.of_nat k → ∃ ds, canonical ds ∧ dec_val 0 ds = n ∧ (length ds ≤ k)%nat.
Proof.
  revert n. induction k as [|k IH]; intros n Hn; [simpl in Hn; lia|].
  rewrite Nat2Z.inj_succ, Z.pow_succ_r in Hn by lia.
  pose proof (Z.div_mod n 10 ltac:(lia)). pose proof (Z.mod_pos_bound n 10 ltac:(lia)).
  destruct (decide (n < 10)).
  - exists [ch_0 + n]. unfold canonical, is_dig, ch_0, ch_9. repeat split.
    + rewrite Forall_singleton. lia.
    + eexists _, _. split; [done|lia].
    + simpl. unfold ch_0. lia.
    + simpl. lia.
  - destruct (IH (n / 10)) as (ds & Hc & Hv & Hl); [lia|].
    exists (ds ++ [ch_0 + n mod 10]). rewrite canonical_snoc, dec_val_snoc, length_app, Hv.
    unfold is_dig, ch_0, ch_9. simpl. split; [split; [lia|by left]|]. lia.
Qed.

(** The decimal string of an integer, as ll2string writes it. *)
Definition ll_text (v : Z) : list Z :=
  let p := put_digits 32 (Z.abs v) [] in if v <? 0 then ch_minus :: p else p.

Lemma put_digits_text v :
  in_i64 v →
  (v = 0 ∧ put_digits 32 (Z.abs v) [] = [ch_0]) ∨
  (v ≠ 0 ∧ ∃ ds, put_digits 32 (Z.abs v) [] = ds ∧ canonical ds ∧ dec_val 0 ds = Z.abs v ∧
    (length ds ≤ 19)%nat).
Proof.
  intros Hv. destruct (decide (v = 0)) as [->|]; [by left|right]. split; [done|].
  destruct (canonical_exists 19 (Z.abs v)) as (ds & Hc & Hd & Hl); [unlimit; lia|].
  exists ds. rewrite <-Hd, put_digits_canonical, app_nil_r by (done || lia). done.
Qed.

Lemma ll_text_length v : in_i64 v → (length (ll_text v) ≤ 20)%nat.
Proof.
  intros Hv. unfold ll_text.
  destruct (put_digits_text v Hv) as [[-> ->]|[? (ds & -> & _ & _ & ?)]];
    [|case_match]; simpl; lia.
Qed.

(** Digits and a minus sign only. *)
Lemma ll_text_chars v : in_i64 v → Forall (λ c, c = ch_minus ∨ is_dig c) (ll_text v).
Proof.
  intros Hv. assert (Forall is_dig (put_digits 32 (Z.abs v) [])) as Hd.
  { destruct (put_digits_text v Hv) as [[_ ->]|(_ & ds & -> & [Hd _] & _)]; [|done].
    constructor; [|constructor]. unfold is_dig, ch_0, ch_9. lia. }
  assert (Forall (λ c, c = ch_minus ∨ is_dig c) (put_digits 32 (Z.abs v) [])) as Hd'
    by (eapply Forall_impl; [exact Hd|]; auto).
  unfold ll_text. case_match; [by constructor; [left|]|done].
Qed.

Lemma ll_text_no_nul v : in_i64 v → ch_nul ∉ ll_text v.
Proof.
  intros Hv Hin. pose proof (ll_text_chars v Hv) as Hc. rewrite Forall_forall in Hc.
  destruct (Hc _ Hin) as [|[? _]]; [done|]. unfold ch_nul, ch_0 in *. lia.
Qed.

Lemma ll2string_text len v :
  in_i64 v → 0 < len →
  ll2string len v = (let l := Z.min (blen (ll_text v)) (len - 1) in
                     (l, take (Z.to_nat l) (ll_text v) ++ [ch_nul])).
Proof.
  intros Hv Hlen. unfold ll2string. destruct (Z.eqb_spec len 0); [lia|].
  pose proof (ll_text_length v Hv) as Hl. unfold ll_text in *.
  replace (if v <? 0 then u64 (- v) else v) with (Z.abs v)
    by (case_match; [rewrite wrapu_small by (unlimit; lia)|]; lia).
  replace (if u32 (Z.abs v) =? Z.abs v then put_digits 32 (u32 (Z.abs v)) []
    else put_digits 32 (Z.abs v) []) with (put_digits 32 (Z.abs v) [])
    by (destruct (Z.eqb_spec (u32 (Z.abs v)) (Z.abs v)) as [->|]; done).
  set (p := if v <? 0 then _ else _) in *.
  assert ((if len <? blen p + 1 then len - 1 else blen p) = Z.min (blen p) (len - 1)) as ->
    by (destruct (Z.ltb_spec len (blen p + 1)); lia).
  f_equal. apply wraps_small; [lia|]. unfold blen in *. unlimit. lia.
Qed.

(** What the digits loop computes. *)
Lemma get_digits_all v ds :
  0 ≤ v ≤ ULLONG_MAX → Forall is_dig ds →
  get_digits ds v = if dec_val v ds <=? ULLONG_MAX then Some (dec_val v ds, []) else None.
Proof.
  intros Hv Hd. revert v Hv. induction Hd as [|c cs Hc Hcs IH]; intros v Hv; simpl.
  { by rewrite (proj2 (Z.leb_le _ _)) by lia. }
  unfold is_dig in Hc. destruct (Z.leb_spec ch_0 c), (Z.leb_spec c ch_9); try lia. simpl.
  pose proof (dec_val_mono (v * 10 + (c - ch_0)) cs) as Hmono. unfold dec_val in *. simpl.
  unfold ch_0, ch_9, ULLONG_MAX in *. change (2 ^ 64 - 1) with 18446744073709551615 in *.
  change (18446744073709551615 / 10) with 1844674407370955161.
  destruct (Z.ltb_spec 1844674407370955161 v).
  { rewrite (proj2 (Z.leb_gt _ _)); [done|]. specialize (Hmono ltac:(lia) Hcs). lia. }
  rewrite (wrapu_small 64 (v * 10)) by (unlimit; lia).
  destruct (Z.ltb_spec (18446744073709551615 - (c - 48)) (v * 10)).
  { rewrite (proj2 (Z.leb_gt _ _)); [done|]. specialize (Hmono ltac:(lia) Hcs). lia. }
  rewrite wrapu_small by (unlimit; lia). apply IH. lia.
Qed.

Lemma get_digits_done s v r : get_digits s v = Some (r, []) → Forall is_dig s.
Proof.
  revert v. induction s as [|c s IH]; intros v; simpl; [constructor|].
  destruct (Z.leb_spec ch_0 c), (Z.leb_spec c ch_9); simpl; try done.
  repeat case_match; try done. intros Hg. constructor; [done|by eapply IH].
Qed.

(** What string2ll does once the sign is read. *)
Lemma string2ll_canonical ds :
  canonical ds → Forall is_dig ds ∧
  ∃ c rest, ds = c :: rest ∧ ((49 <=? c) && (c <=? ch_9)) = true ∧
    get_digits rest (c - ch_0) =
      if dec_val 0 ds <=? ULLONG_MAX then Some (dec_val 0 ds, []) else None.
Proof.
  intros [Hd (c & cs & -> & Hc)]. split; [done|]. exists c, cs. split; [done|].
  apply Forall_cons in Hd as [Hc' Hcs]. unfold is_dig, ch_0, ch_9 in *.
  split; [destruct (Z.leb_spec 49 c), (Z.leb_spec c 57); simpl; lia|].
  rewrite get_digits_all by (done || (unlimit; lia)). done.
Qed.

Lemma string2ll_text v : in_i64 v → string2ll (ll_text v) = Some v.
Proof.
  intros Hv. unfold ll_text. destruct (put_digits_text v Hv) as [[-> ->]|[Hv0 (ds & -> & Hc & Hval & Hl)]];
    [done|].
  destruct (string2ll_canonical ds Hc) as (_ & c & rest & -> & H19 & Hg).
  rewrite Hval, (proj2 (Z.leb_le _ _)) in Hg by (unlimit; lia).
  assert (c ≠ ch_0 ∧ c ≠ ch_minus) as [Hc0 Hcm].
  { destruct (Z.leb_spec 49 c); [|done]. unfold ch_0, ch_minus. lia. }
  unfold string2ll. destruct (Z.ltb_spec v 0).
  - rewrite blen_cons. unfold ch_minus at 1. rewrite andb_false_r.
    rewrite Z.eqb_refl, H19, Hg. change (u64 (- (LLONG_MIN + 1)) + 1) with (2 ^ 63).
    rewrite (proj2 (Z.ltb_ge _ _)) by (unlimit; lia).
    rewrite wraps_small by (unlimit; lia). f_equal. lia.
  - rewrite (proj2 (Z.eqb_neq c ch_0)), andb_false_r, (proj2 (Z.eqb_neq c ch_minus)) by done.
    rewrite H19, Hg, (proj2 (Z.ltb_ge _ _)) by (unlimit; lia).
    rewrite wraps_small by (unlimit; lia). f_equal. lia.
Qed.

Lemma string2ll_inv s v : string2ll s = Some v → in_i64 v ∧ s = ll_text v.
Proof.
  unfold string2ll. destruct s as [|c0 s']; [done|].
  destruct ((blen (c0 :: s') =? 1) && (c0 =? ch_0)) eqn:E0.
  { intros [= <-]. apply andb_true_iff in E0 as [E1%Z.eqb_eq ->%Z.eqb_eq].
    rewrite blen_cons in E1. destruct s'; [|rewrite blen_cons in E1; pose proof (blen_nonneg s'); lia].
    split; [unlimit; lia|done]. }
  destruct (if c0 =? ch_minus then s' else c0 :: s') as [|c rest] eqn:Es; [done|].
  destruct ((49 <=? c) && (c <=? ch_9)) eqn:E19.
  2:{ destruct (c =? ch_0) eqn:Ec; [|by intros]. destruct (blen (c0 :: s') =? 1) eqn:E1; [|by intros].
      simpl in E0. destruct (Z.eqb_spec c0 ch_minus); [|naive_solver congruence].
      subst s'. rewrite !blen_cons in E1. pose proof (blen_nonneg rest). lia. }
  destruct (get_digits rest (c - ch_0)) as [[r [|? ?]]|] eqn:Eg; try done.
  assert (canonical (c :: rest)) as Hcan.
  { apply andb_true_iff in E19 as [?%Z.leb_le ?%Z.leb_le]. unfold canonical, is_dig, ch_0, ch_9 in *.
    split; [|eexists _, _; split; [done|lia]]. constructor; [lia|by eapply get_digits_done]. }
  destruct (string2ll_canonical _ Hcan) as (_ & c' & rest' & [= <- <-] & _ & Hg).
  rewrite Eg in Hg. destruct (Z.leb_spec (dec_val 0 (c :: rest)) ULLONG_MAX) as [Hle|]; [|done].
  assert (r = dec_val 0 (c :: rest)) as -> by congruence. pose proof (canonical_pos _ Hcan) as Hpos.
  set (n := dec_val 0 (c :: rest)) in *.
  assert (n < 10 ^ 20) as Hn20 by (unlimit; lia).
  assert ((length (c :: rest) ≤ 32)%nat) as Hlen.
  { destruct (canonical_exists 20 n) as (ds & Hc & Hd & Hl); [lia|].
    pose proof (put_digits_canonical ds (length ds + length (c :: rest)) [] Hc ltac:(lia)) as P1.
    pose proof (put_digits_canonical _ (length ds + length (c :: rest)) [] Hcan ltac:(lia)) as P2.
    fold n in P2. rewrite Hd, P2, !app_nil_r in P1. rewrite P1. lia. }
  pose proof (put_digits_canonical _ 32 [] Hcan Hlen) as P. fold n in P. rewrite app_nil_r in P.
  destruct (Z.eqb_spec c0 ch_minus) as [->|].
  - subst s'. change (u64 (- (LLONG_MIN + 1)) + 1) with (2 ^ 63). zcase; [done|].
    rewrite wraps_small by (unlimit; lia). intros [= <-]. split; [unlimit; lia|].
    unfold ll_text. rewrite (proj2 (Z.ltb_lt _ _)) by lia.
    replace (Z.abs (- n)) with n by lia. by rewrite P.
  - rewrite Es. zcase; [done|]. rewrite wraps_small by (unlimit; lia).
    intros [= <-]. split; [unlimit; lia|].
    unfold ll_text. rewrite (proj2 (Z.ltb_ge _ _)) by lia.
    replace (Z.abs n) with n by lia. by rewrite P.
Qed.

(** ** Reference semantics of globs *)

(** The comparison of a pattern character with a string character. *)
Definition same (nocase : bool) (x y : Z) : bool :=
  if nocase then tolower (schar x) =? tolower (schar y) else x =? y.

(** The language of the patterns without brackets: a star is any string, a
    question mark any character, a backslash quotes the next character, and
    every other character is itself. *)
Fixpoint glob (nocase : bool) (p s : list Z) {struct p} : bool :=
  match p with
  | [] => match s with [] => true | _ => false end
  | c :: p' =>
      if c =? ch_star then
        (fix suffix (s : list Z) : bool :=
           glob nocase p' s || match s with [] => false | _ :: s' => suffix s' end) s
      else if c =? ch_qmark then
        match s with [] => false | _ :: s' => glob nocase p' s' end
      else
        match s with
        | [] => false
        | y :: s' =>
            match p' with
            | x :: p'' =>
                if c =? ch_backslash then same nocase x y && glob nocase p'' s'
                else same nocase c y && glob nocase p' s'
            | [] => same nocase c y && glob nocase p' s'
            end
        end
  end.

Section glob.
Context (nocase : bool).

Lemma glob_star p s :
  glob nocase (ch_star :: p) s =
  (glob nocase p s || match s with [] => false | _ :: s' => glob nocase (ch_star :: p) s' end).
Proof. destruct s; done. Qed.

Lemma glob_star_nil p : glob nocase (ch_star :: p) [] = glob nocase p [].
Proof. rewrite glob_star. by rewrite orb_false_r. Qed.

Lemma glob_star_star p s : glob nocase (ch_star :: ch_star :: p) s = glob nocase (ch_star :: p) s.
Proof.
  induction s as [|y s IH]; [by rewrite !glob_star_nil|].
  rewrite (glob_star (ch_star :: p)), IH, glob_star.
  destruct (glob nocase p (y :: s)), (glob nocase (ch_star :: p) s); done.
Qed.

Lemma glob_all s : glob nocase [ch_star] s = true.
Proof. induction s as [|y s IH]; [done|]. rewrite glob_star, IH. by rewrite orb_true_r. Qed.

Lemma glob_nil_ne c p : c ≠ ch_star → glob nocase (c :: p) [] = false.
Proof.
  intros Hc. simpl. rewrite (proj2 (Z.eqb_neq _ _)) by done.
  by destruct (c =? ch_qmark).
Qed.

Lemma glob_nil s : glob nocase [] s = (blen s =? 0).
Proof. destruct s; [done|]. rewrite blen_cons. pose proof (blen_nonneg s). simpl. symmetry. apply Z.eqb_neq. lia. Qed.
Lemma glob_qmark p y s : glob nocase (ch_qmark :: p) (y :: s) = glob nocase p s.
Proof. done. Qed.
Lemma glob_quote x p y s :
  glob nocase (ch_backslash :: x :: p) (y :: s) = same nocase x y && glob nocase p s.
Proof. done. Qed.
Lemma glob_literal c p y s :
  c ≠ ch_star → c ≠ ch_qmark → (c = ch_backslash → p = []) →
  glob nocase (c :: p) (y :: s) = same nocase c y && glob nocase p s.
Proof.
  intros H1 H2 H3. simpl. do 2 (rewrite (proj2 (Z.eqb_neq _ _)) by done).
  destruct p as [|x p]; [done|]. rewrite (proj2 (Z.eqb_neq _ _)); [done|]. by intros ?%H3.
Qed.

Lemma same_nul x : byte_ok x → x ≠ ch_nul → same nocase x ch_nul = false.
Proof.
  unfold byte_ok, ch_nul, same, schar. intros Hx H0. destruct nocase; [|by apply Z.eqb_neq].
  apply Z.eqb_neq. unfold wraps, tolower. change (2 ^ 8) with 256. change (2 ^ (8 - 1)) with 128.
  change ((0 + 128) mod 256 - 128) with 0.
  assert ((x + 128) mod 256 = x + 128 ∨ (x + 128) mod 256 = x - 128 ∧ 128 ≤ x) as [->|[-> ?]].
  { destruct (decide (x < 128)); [left; apply Z.mod_small; lia|].
    right. split; [|lia]. symmetry. apply (Z.mod_unique _ _ 1); lia. }
  all: repeat zcase; simpl; lia.
Qed.

#[local] Opaque glob same.

(** The patterns of the theorem. *)
Definition plain (p : list Z) : Prop := Forall (λ c, byte_ok c ∧ c ≠ ch_nul ∧ c ≠ ch_lbracket) p.

(** The loops over the stars. *)
Lemma skip_stars_spec p1 p2 fuel :
  (length p2 ≤ fuel)%nat →
  ∃ k p3, p2 = replicate k ch_star ++ p3 ∧ head p3 ≠ Some ch_star ∧
    skip_stars fuel (p1 ++ ch_star :: p2 ++ [ch_nul]) (blen p1) (1 + blen p2)
    = Some (blen p1 + Z.of_nat k, 1 + blen p3).
Proof.
  revert p1 fuel. induction p2 as [|c p2 IH]; intros p1 fuel Hf.
  { exists 0%nat, []. split; [done|split; [done|]].
    destruct fuel; simpl; change (ch_star :: [ch_nul]) with ([ch_star] ++ ch_nul :: []);
      rewrite (assoc_L (++)), mget_app by blia; simpl; f_equal; f_equal; lia. }
  simpl in Hf. destruct fuel as [|fuel]; [lia|]. simpl.
  assert (p1 ++ ch_star :: c :: p2 ++ [ch_nul] = (p1 ++ [ch_star]) ++ c :: p2 ++ [ch_nul]) as E
    by (by rewrite <-(assoc_L (++))).
  rewrite E, mget_app by blia. simpl.
  destruct (Z.eqb_spec c ch_star) as [->|Hc].
  - destruct (IH (p1 ++ [ch_star]) fuel ltac:(lia)) as (k & p3 & -> & Hh & IH').
    exists (S k), p3. split; [done|split; [done|]].
    assert (blen (p1 ++ [ch_star]) = blen p1 + 1) as Hb by blia. rewrite Hb in IH'.
    replace (1 + blen (ch_star :: replicate k ch_star ++ p3) - 1)
      with (1 + blen (replicate k ch_star ++ p3)) by (rewrite blen_cons; lia).
    rewrite IH'. f_equal. f_equal. lia.
  - exists 0%nat, (c :: p2). split; [done|split; [simpl; congruence|]].
    f_equal. f_equal. lia.
Qed.

Lemma drop_stars_spec p1 p2 fuel :
  plain p2 → (length p2 ≤ fuel)%nat →
  ∃ p plen, drop_stars fuel (p1 ++ p2 ++ [ch_nul]) (blen p1) (blen p2) = Some (p, plen) ∧
    (plen =? 0) = glob nocase p2 [].
Proof.
  intros Hp. revert p1 fuel. induction Hp as [|c p2 (Hb & Hn & Hl) Hp IH]; intros p1 fuel Hf.
  { do 2 eexists. destruct fuel; simpl; rewrite mget_app by done; done. }
  simpl in Hf. destruct fuel as [|fuel]; [lia|]. simpl. rewrite mget_app by done. simpl.
  destruct (Z.eqb_spec c ch_star) as [->|Hc].
  - destruct (IH (p1 ++ [ch_star]) fuel ltac:(lia)) as (p & plen & E & Hpl).
    exists p, plen. split; [|by rewrite Hpl, glob_star_nil].
    rewrite <-E, blen_cons. f_equal; [by rewrite <-(assoc_L (++))|blia|lia].
  - do 2 eexists. split; [done|]. rewrite glob_nil_ne by done.
    rewrite blen_cons. pose proof (blen_nonneg p2). apply Z.eqb_neq. lia.
Qed.

(** The loop of the star case tries the non-empty suffixes only. *)
Lemma star_loop_spec rest d p3 t2 : ∀ t1 fuel,
  d ≠ ch_star → (length t2 ≤ fuel)%nat →
  (∀ u1 u2, t1 ++ t2 = u1 ++ u2 → (length u2 ≤ length t2)%nat →
     rest (blen u1) (blen u2) = Some (glob nocase (d :: p3) u2)) →
  star_loop rest fuel (blen t1) (blen t2) = Some (glob nocase (ch_star :: d :: p3) t2).
Proof.
  induction t2 as [|y t2 IH]; intros t1 fuel Hd Hf Hrest; rewrite glob_star.
  { rewrite glob_nil_ne by done. by destruct fuel. }
  simpl in Hf. destruct fuel as [|fuel]; [lia|].
  cbn [star_loop]. rewrite blen_cons. pose proof (blen_nonneg t2).
  destruct (Z.eqb_spec (1 + blen t2) 0); [lia|].
  rewrite <-(blen_cons y t2), (Hrest t1 (y :: t2)) by done. cbn [mbind option_bind].
  destruct (glob nocase (d :: p3) (y :: t2)); [done|]. rewrite blen_cons. simpl orb.
  rewrite <-(IH (t1 ++ [y]) fuel); try done; [f_equal; blia|lia|].
  intros u1 u2 E Hl. apply Hrest; [by rewrite <-E, <-(assoc_L (++))|simpl; lia].
Qed.

(** The part of an iteration after the switch, and the default case. *)
Definition step_next (fuel : nat) (Pb Sb : list Z) (p plen s slen : Z) : option bool :=
  if slen =? 0 then
    drop_stars fuel Pb (p + 1) (plen - 1) ≫= λ '(p, plen), Some ((plen =? 0) && (slen =? 0))
  else stringmatchlen fuel Pb Sb nocase (p + 1) (plen - 1) s slen.

Definition IH_at (fuel : nat) (Pb Sb : list Z) : Prop :=
  ∀ q1 q2 t1 t2, Pb = q1 ++ q2 ++ [ch_nul] → Sb = t1 ++ t2 ++ [ch_nul] →
    plain q2 → (length q2 + length t2 < fuel)%nat →
    stringmatchlen fuel Pb Sb nocase (blen q1) (blen q2) (blen t1) (blen t2)
    = Some (glob nocase q2 t2).

Lemma step_next_spec fuel Pb Sb q1 q2 t1 t2 p plen s slen :
  IH_at fuel Pb Sb → Pb = q1 ++ q2 ++ [ch_nul] → Sb = t1 ++ t2 ++ [ch_nul] →
  plain q2 → (length q2 + length t2 < fuel)%nat →
  p + 1 = blen q1 → plen - 1 = blen q2 → s = blen t1 → slen = blen t2 →
  step_next fuel Pb Sb p plen s slen = Some (glob nocase q2 t2).
Proof.
  intros IH HP HS Hq Hlt Ep El -> ->. unfold step_next. rewrite Ep, El.
  destruct (Z.eqb_spec (blen t2) 0) as [H0|H0]; [|by apply IH].
  assert (t2 = []) as -> by (apply nil_length_inv; unfold blen in H0; lia).
  destruct (drop_stars_spec q1 q2 fuel Hq ltac:(lia)) as (p' & pl' & E & Hg).
  rewrite HP, E. simpl. by rewrite Hg, andb_true_r.
Qed.

Definition step_literal (fuel : nat) (Pb Sb : list Z) (p plen s slen : Z) : option bool :=
  c ← mget Pb p;
  x ← mget Sb s;
  if same nocase c x then step_next fuel Pb Sb p plen (s + 1) (slen - 1) else Some false.

Lemma step_literal_spec fuel Pb Sb q1 x q2 t1 t2 p plen s slen :
  IH_at fuel Pb Sb → Pb = q1 ++ x :: q2 ++ [ch_nul] → Sb = t1 ++ t2 ++ [ch_nul] →
  byte_ok x → x ≠ ch_nul → plain q2 → (length q2 + length t2 < fuel)%nat →
  p = blen q1 → plen - 1 = blen q2 → s = blen t1 → slen = blen t2 →
  step_literal fuel Pb Sb p plen s slen =
  Some match t2 with [] => false | y :: t2 => same nocase x y && glob nocase q2 t2 end.
Proof.
  intros IH HP HS Hx Hx0 Hq Hlt -> Hpl -> ->. unfold step_literal.
  rewrite HP, mget_app by done. cbn [mbind option_bind]. rewrite <-HP.
  destruct t2 as [|y t2].
  - rewrite HS. simpl app. rewrite mget_app by done. cbn [mbind option_bind].
    by rewrite same_nul.
  - rewrite HS. change ((y :: t2) ++ [ch_nul]) with (y :: t2 ++ [ch_nul]).
    rewrite mget_app by done. cbn [mbind option_bind].
    change (y :: t2 ++ [ch_nul]) with ((y :: t2) ++ [ch_nul]). rewrite <-HS.
    destruct (same nocase x y); [|done]. simpl in Hlt.
    apply (step_next_spec fuel Pb Sb (q1 ++ [x]) q2 (t1 ++ [y]) t2); try done; try lia;
      [by rewrite <-(assoc_L (++))|by rewrite <-(assoc_L (++))|blia..].
Qed.

Lemma stringmatchlen_step fuel Pb Sb p plen s slen :
  stringmatchlen (S fuel) Pb Sb nocase p plen s slen =
  if plen =? 0 then Some ((plen =? 0) && (slen =? 0))
  else
    c ← mget Pb p;
    if c =? ch_star then
      '(p, plen) ← skip_stars fuel Pb p plen;
      if plen =? 1 then Some true
      else star_loop (stringmatchlen fuel Pb Sb nocase (p + 1) (plen - 1)) fuel s slen
    else if c =? ch_qmark then
      if slen =? 0 then Some false else step_next fuel Pb Sb p plen (s + 1) (slen - 1)
    else if c =? ch_lbracket then
      c ← mget Pb (p + 1);
      let negate := c =? ch_caret in
      let '(p, plen) := if negate then (p + 1 + 1, plen - 1 - 1) else (p + 1, plen - 1) in
      '(p, plen, matched) ← match_class fuel Pb Sb nocase p plen s false;
      if xorb negate matched then step_next fuel Pb Sb p plen (s + 1) (slen - 1) else Some false
    else if (c =? ch_backslash) && (2 <=? plen) then step_literal fuel Pb Sb (p + 1) (plen - 1) s slen
    else step_literal fuel Pb Sb p plen s slen.
Proof. reflexivity. Qed.

Lemma glob_stars k p s :
  glob nocase (ch_star :: replicate k ch_star ++ p) s = glob nocase (ch_star :: p) s.
Proof. induction k as [|k IH]; [done|]. simpl replicate. simpl app. by rewrite glob_star_star. Qed.

Lemma step_star_spec fuel Pb Sb p1 p2 s1 s2 :
  IH_at fuel Pb Sb → Pb = p1 ++ ch_star :: p2 ++ [ch_nul] → Sb = s1 ++ s2 ++ [ch_nul] →
  plain p2 → (length p2 + length s2 < fuel)%nat →
  ('(p, plen) ← skip_stars fuel Pb (blen p1) (1 + blen p2);
   if plen =? 1 then Some true
   else star_loop (stringmatchlen fuel Pb Sb nocase (p + 1) (plen - 1)) fuel (blen s1) (blen s2))
  = Some (glob nocase (ch_star :: p2) s2).
Proof.
  intros IH HP HS Hp Hf.
  destruct (skip_stars_spec p1 p2 fuel) as (k & p3 & Hp3 & Hh & E); [lia|].
  rewrite HP, E, <-HP. cbn [mbind option_bind]. rewrite Hp3, glob_stars.
  destruct p3 as [|d p3]; [by rewrite glob_all|]. rewrite blen_cons. pose proof (blen_nonneg p3).
  destruct (Z.eqb_spec (1 + (1 + blen p3)) 1); [lia|].
  assert (length p2 = k + S (length p3))%nat as Hl by (by rewrite Hp3, length_app, length_replicate).
  rewrite Hp3 in Hp. apply Forall_app in Hp as [_ Hp].
  apply star_loop_spec; [intros ->; by destruct Hh|lia|]. intros u1 u2 Hu Hlu.
  replace (blen p1 + Z.of_nat k + 1) with (blen (p1 ++ ch_star :: replicate k ch_star)) by blia.
  replace (1 + (1 + blen p3) - 1) with (blen (d :: p3)) by (rewrite blen_cons; lia).
  apply IH; try done; [|by rewrite HS, !(assoc_L (++)), Hu|simpl; lia..].
  rewrite HP, Hp3. by rewrite <-!(assoc_L (++)).
Qed.

Lemma stringmatchlen_at fuel Pb Sb : IH_at fuel Pb Sb.
Proof.
  induction fuel as [|fuel IH]; intros p1 p2 s1 s2 HP HS Hp Hf; [lia|].
  rewrite stringmatchlen_step. destruct p2 as [|c p2].
  { by rewrite glob_nil. }
  rewrite blen_cons. pose proof (blen_nonneg p2). simpl in Hf.
  apply Forall_cons in Hp as [(Hcb & Hcn & Hcl) Hp2].
  destruct (Z.eqb_spec (1 + blen p2) 0); [lia|].
  rewrite HP at 1. change ((c :: p2) ++ [ch_nul]) with (c :: p2 ++ [ch_nul]) in *.
  rewrite mget_app by done. cbn [mbind option_bind].
  destruct (Z.eqb_spec c ch_star) as [->|Hcs].
  { apply step_star_spec; try done. lia. }
  destruct (Z.eqb_spec c ch_qmark) as [->|Hcq].
  { destruct s2 as [|y s2]; [by rewrite glob_nil_ne|].
    rewrite blen_cons. pose proof (blen_nonneg s2). destruct (Z.eqb_spec (1 + blen s2) 0); [lia|].
    simpl in Hf. rewrite glob_qmark.
    apply (step_next_spec fuel Pb Sb (p1 ++ [ch_qmark]) p2 (s1 ++ [y]) s2); try done; try lia;
      [by rewrite <-(assoc_L (++))|by rewrite <-(assoc_L (++))|blia..]. }
  destruct (Z.eqb_spec c ch_lbracket) as [->|_]; [done|].
  destruct ((c =? ch_backslash) && (2 <=? 1 + blen p2)) eqn:Eq.
  - apply andb_true_iff in Eq as [->%Z.eqb_eq Hl%Z.leb_le].
    destruct p2 as [|x p2]; [rewrite blen_nil in Hl; lia|].
    apply Forall_cons in Hp2 as [(Hxb & Hxn & _) Hp2]. simpl in Hf.
    rewrite (step_literal_spec fuel Pb Sb (p1 ++ [ch_backslash]) x p2 s1 s2); try done; try lia.
    + by rewrite <-(assoc_L (++)).
    + blia.
    + rewrite blen_cons. lia.
  - rewrite (step_literal_spec fuel Pb Sb p1 c p2 s1 s2); try done; try lia.
    destruct s2; [by rewrite glob_nil_ne|]. rewrite glob_literal; try done.
    intros ->. destruct p2 as [|x p2]; [done|]. rewrite blen_cons in *.
    rewrite Z.eqb_refl in Eq. simpl in Eq. apply Z.leb_gt in Eq. pose proof (blen_nonneg p2). lia.
Qed.

End glob.

(** ** Units *)

Lemma strcasecmp_letter c u d w :
  98 ≤ d ≤ 122 → strcasecmp_eq (c :: u) (d :: w) = true → isdigit c = false ∧ c ≠ ch_minus.
Proof.
  unfold strcasecmp_eq. intros Hd Hw%bool_decide_eq_true. injection Hw as Hw _.
  revert Hw. unfold tolower, isdigit, ch_0, ch_9, ch_minus. repeat zcase; simpl; split; lia.
Qed.

Lemma unit_mul_head c u m : unit_mul (c :: u) = Some m → isdigit c = false ∧ c ≠ ch_minus.
Proof.
  unfold unit_mul. simpl. intros H.
  repeat match type of H with
  | (if ?b then _ else _) = _ =>
      let E := fresh "E" in destruct b eqn:E; [eapply strcasecmp_letter; [|exact E]; lia|]
  end. done.
Qed.

Lemma unit_mul_pos u m : unit_mul u = Some m → 1 ≤ m.
Proof. unfold unit_mul. intros H. repeat case_match; simplify_eq; lia. Qed.

Lemma span_digits_app ds u :
  Forall is_dig ds → (∀ c u', u = c :: u' → isdigit c = false) → span_digits (ds ++ u) = (ds, u).
Proof.
  intros Hd Hu. induction Hd as [|c ds Hc _ IH]; simpl.
  - destruct u as [|c u]; [done|]. simpl. by rewrite (Hu c u).
  - rewrite IH. unfold isdigit, is_dig in *. zdec. done.
Qed.

Lemma strtoll_digits_val ds acc : Forall is_dig ds → strtoll_digits ds acc = dec_val acc ds.
Proof.
  intros Hd. revert acc. induction Hd as [|c ds Hc _ IH]; intros acc; [done|].
  simpl. rewrite IH. unfold isdigit, is_dig in *. zdec. done.
Qed.

Lemma ll_text_nonneg n :
  0 ≤ n → in_i64 n → Forall is_dig (ll_text n) ∧ dec_val 0 (ll_text n) = n ∧
    (length (ll_text n) ≤ 20)%nat.
Proof.
  intros Hn Hi. pose proof (ll_text_length n Hi). unfold ll_text in *.
  rewrite (proj2 (Z.ltb_ge _ _)) in * by lia.
  destruct (put_digits_text n Hi) as [[-> ->]|[_ (ds & -> & [Hd _] & Hv & ?)]].
  - split; [by repeat constructor|]. split; [done|simpl; lia].
  - split; [done|]. split; lia.
Qed.

(** ** Properties *)

(** C32. string2ll accepts exactly the decimal strings that ll2string writes: a
    string is parsed as [v] if and only if [v] is a [long long] and ll2string
    prints [v] as this string.  In particular leading zeros, "-0", a plus sign,
    spaces and values out of range are refused, and both conversions are inverse
    of each other, on which the integer encodings of strings rest. *)
Theorem string2ll_inverts_ll2string (s : list Z) (v : Z) :
  string2ll s = Some v ↔ in_i64 v ∧ ll2string 32 v = (blen s, s ++ [ch_nul]).
Proof.
  assert (in_i64 v → ll2string 32 v = (blen (ll_text v), ll_text v ++ [ch_nul])) as Htext.
  { intros Hv. rewrite ll2string_text by (done || lia). cbn [Z.sub].
    pose proof (ll_text_length v Hv).
    rewrite Z.min_l by (unfold blen; lia). by rewrite to_nat_blen, firstn_all. }
  split.
  - intros [Hv ->]%string2ll_inv. split; [done|by apply Htext].
  - intros [Hv E]. rewrite Htext in E by done. injection E as _ E.
    apply app_inv_tail in E as <-. by apply string2ll_text.
Qed.

(** C33. ll2string never writes more than [len] bytes (and never more than 21),
    always ends with the NUL byte, and returns the number of bytes before it;
    a buffer too short gets a prefix of the decimal string. *)
Theorem ll2string_bounds (len v : Z) :
  in_i64 v → 0 < len →
  ∃ text, ll2string len v = (blen text, text ++ [ch_nul]) ∧
    blen text + 1 ≤ Z.min len 21 ∧ text `prefix_of` ll_text v.
Proof.
  intros Hv Hlen. rewrite ll2string_text by done. simpl. pose proof (ll_text_length v Hv).
  set (l := Z.min _ _). assert (0 ≤ l ≤ blen (ll_text v)) as Hl by (subst l; unfold blen; lia).
  exists (take (Z.to_nat l) (ll_text v)). split; [f_equal; blia|].
  split; [unfold blen in *; rewrite length_take; lia|]. apply prefix_take.
Qed.

(** memtoll computes the amount of memory that a decimal number followed by a
    unit stands for, for every spelling of the units, and reports no error. *)
Theorem memtoll_value (n m : Z) (unit : list Z) :
  0 ≤ n → unit_mul unit = Some m → n * m ≤ LLONG_MAX →
  memtoll (ll_text n ++ unit) = (n * m, 0).
Proof.
  intros Hn Hu Hm. pose proof (unit_mul_pos _ _ Hu) as Hm1.
  assert (in_i64 n) as Hi by (unlimit; nia).
  destruct (ll_text_nonneg n Hn Hi) as (Hd & Hv & Hl).
  unfold memtoll. assert (∃ d ds, ll_text n = d :: ds) as (d & ds & E).
  { pose proof (string2ll_text n Hi). destruct (ll_text n); [done|eauto]. }
  assert (d ≠ ch_minus) as Hdm.
  { rewrite E in Hd. apply Forall_cons in Hd as [Hd _]. unfold is_dig, ch_0, ch_minus in *. lia. }
  assert (split_sign (ll_text n ++ unit) = ([], ll_text n ++ unit)) as ->
    by (rewrite E; simpl; by rewrite (proj2 (Z.eqb_neq d ch_minus))).
  rewrite span_digits_app; [|done|].
  2:{ intros c u' ->. by apply unit_mul_head in Hu as [? _]. }
  rewrite Hu. simpl app. rewrite wrapu_small by (unfold blen; unlimit; lia).
  rewrite (proj2 (Z.leb_gt _ _)) by (unfold blen; lia). f_equal.
  assert (strtoll10 (ll_text n) = n) as ->; [|apply wraps_small; unlimit; nia].
  unfold strtoll10. rewrite E, (proj2 (Z.eqb_neq d ch_minus)) by done. rewrite <-E.
  rewrite strtoll_digits_val, Hv by done. unlimit. lia.
Qed.

Lemma stringmatch_spec (nocase : bool) (pattern string : list Z) (fuel : nat) :
  plain pattern → blen pattern ≤ INT32_MAX → blen string ≤ INT32_MAX →
  (length pattern + length string < fuel)%nat →
  stringmatch fuel pattern string nocase = Some (glob nocase pattern string).
Proof.
  intros Hp Hpl Hsl Hf. unfold stringmatch.
  pose proof (blen_nonneg pattern). pose proof (blen_nonneg string).
  rewrite !(wraps_small 32) by (unlimit; lia).
  apply (stringmatchlen_at nocase fuel _ _ [] pattern [] string); done.
Qed.

(** C34. On patterns without brackets and NUL bytes, and on every string,
    stringmatchlen terminates without reading outside of the NUL terminated
    blocks and decides the language of the pattern; the fuel it needs is the sum
    of the lengths plus one. *)
Theorem stringmatch_glob (nocase : bool) (pattern string : list Z) (fuel : nat) :
  plain pattern → blen pattern ≤ INT32_MAX → blen string ≤ INT32_MAX →
  (length pattern + length string < fuel)%nat →
  stringmatch fuel pattern string nocase = Some (glob nocase pattern string).
Proof. apply stringmatch_spec. Qed.

(** ** What brackets do to the bounds *)

(** A pattern ending in an open bracket and a backslash reads past its
    terminator, with any fuel. *)
Lemma stringmatch_open_bracket_overread fuel nocase :
  stringmatch fuel [ch_lbracket; ch_backslash] [120] nocase = None.
Proof. destruct fuel as [|[|[|fuel]]]; done. Qed.

(** A negated class consumes a character of an empty string, so "[^a]*" matches
    it. *)
Lemma stringmatch_negated_class_empty :
  stringmatch 10 [91; 94; 97; 93; 42] [] false = Some true.
Proof. reflexivity. Qed.

Lemma ll_text_shape v :
  in_i64 v → ∃ d ds, ll_text v = (if v <? 0 then [ch_minus] else []) ++ d :: ds ∧ Forall is_dig (d :: ds) ∧ dec_val 0 (d :: ds) = Z.abs v.
Proof.
  intros Hv. unfold ll_text. destruct (put_digits_text v Hv) as [[-> ->]|[Hv0 (ds & -> & [Hd (c & cs & -> & _)] & Hval & _)]].
  - exists ch_0, []. split; [done|]. split; [|done]. constructor; [|constructor]. unfold is_dig, ch_0, ch_9. lia.
  - exists c, cs. split; [by case_match|]. done.
Qed.

Lemma strtoll_erange_text v tl : in_i64 v → strtoll_erange (ll_text v ++ ch_nul :: tl) = (v, ch_nul, false).
Proof.
  intros Hv. destruct (ll_text_shape v Hv) as (d & ds & Et & Hd & Hval). pose proof Hd as [Hd0 _]%Forall_cons.
  assert (isspace d = false ∧ d ≠ ch_minus ∧ d ≠ 43) as (Hs & Hm & Hp).
  { unfold is_dig, isspace, ch_0, ch_9, ch_minus in *. split; [|lia].
    rewrite (proj2 (Z.eqb_neq d 32)), (proj2 (Z.leb_gt d 13)) by lia. by rewrite andb_false_r. }
  assert (drop_while isspace (ll_text v ++ ch_nul :: tl) = ll_text v ++ ch_nul :: tl) as Hdw.
  { rewrite Et. destruct (v <? 0); cbn [app drop_while]; [done|]. by rewrite Hs. }
  assert (span_digits ((d :: ds) ++ ch_nul :: tl) = (d :: ds, ch_nul :: tl)) as Hsp
    by (apply span_digits_app; [done|]; by intros c u [= <- _]).
  assert (dec_val 0 (d :: ds) = strtoll_digits (d :: ds) 0) as Hdv by by rewrite strtoll_digits_val.
  unfold strtoll_erange. rewrite Hdw, Et.
  destruct (Z.ltb_spec v 0); cbn [app].
  - cbn [app] in Hsp. rewrite Z.eqb_refl, Hsp, bool_decide_false by done. rewrite <-Hdv, Hval. cbn [head default].
    replace (- Z.abs v) with v by lia. unlimit. rewrite (proj2 (Z.leb_le _ v)), (proj2 (Z.leb_le v _)) by lia.
    cbn [andb negb]. f_equal. f_equal. cbn [id]. lia.
  - rewrite (proj2 (Z.eqb_neq d ch_minus)), (proj2 (Z.eqb_neq d 43)) by done. cbn [app] in Hsp.
    rewrite Hsp, bool_decide_false by done. rewrite <-Hdv, Hval. cbn [head default].
    rewrite Z.abs_eq by done. unlimit. rewrite (proj2 (Z.leb_le _ v)), (proj2 (Z.leb_le v _)) by lia.
    cbn [andb negb]. f_equal. f_equal. cbn [id]. lia.
Qed.

(** ** Witnesses *)

Lemma ll2string_bounds_witness :
  ∃ text, ll2string 4 (-12345) = (blen text, text ++ [ch_nul]) ∧
    blen text + 1 ≤ Z.min 4 21 ∧ text `prefix_of` ll_text (-12345).
Proof. apply (ll2string_bounds 4 (-12345)); [split; vm_compute; discriminate|reflexivity]. Defined.

(** "64Mb" *)
Lemma memtoll_value_witness : memtoll (ll_text 64 ++ [77; 98]) = (64 * (1024 * 1024), 0).
Proof. apply (memtoll_value 64 (1024 * 1024) [77; 98]); vm_compute; (reflexivity || discriminate). Defined.

(** "h*l?o" against "hello". *)
Lemma stringmatch_glob_witness :
  stringmatch 11 [104; 42; 108; 63; 111] [104; 101; 108; 108; 111] false
  = Some (glob false [104; 42; 108; 63; 111] [104; 101; 108; 108; 111]).
Proof.
  apply stringmatch_glob; [|vm_compute; discriminate..|vm_compute; lia].
  repeat apply Forall_cons_2; try apply Forall_nil_2; repeat split; vm_compute; discriminate.
Defined.
