(* ===== verification/Dict.v ===== *)
(** * Hash tables with incremental rehashing ([dict.c], [dict.h])

    A bucket is the list of the entries of its chain, a table is the list of
    its buckets, and a pointer to an entry is the table, the bucket and the
    position of the entry.  An access out of a table, through a NULL table or
    to a missing entry, and a failing [assert], are [None]. *)
From S2P Require Import Prelude.
Open Scope Z_scope.

Definition DICT_OK : Z := 0.
Definition DICT_ERR : Z := 1.
Definition DICT_HT_INITIAL_SIZE : Z := 4.
Definition dict_force_resize_ratio : Z := 5.

(** ** Hash functions *)

(** Thomas Wang's 32 bit mix. *)
Definition dictIntHashFunction (key : Z) : Z :=
  let key := u32 (key + Z.lxor (u32 (Z.shiftl key 15)) (2 ^ 32 - 1)) in
  let key := Z.lxor key (Z.shiftr key 10) in
  let key := u32 (key + u32 (Z.shiftl key 3)) in
  let key := Z.lxor key (Z.shiftr key 6) in
  let key := u32 (key + Z.lxor (u32 (Z.shiftl key 11)) (2 ^ 32 - 1)) in
  Z.lxor key (Z.shiftr key 16).

Definition dictIdentityHashFunction (key : Z) : Z := key.

(** The seed, and the result, of dictSetHashFunctionSeed. *)
Definition DICT_HASH_FUNCTION_SEED_UNITIALIZED : Z := 5381.
Definition dictSetHashFunctionSeed (dict_hash_function_seed seed : Z) : Z * Z :=
  if dict_hash_function_seed =? DICT_HASH_FUNCTION_SEED_UNITIALIZED then (seed, 0)
  else (dict_hash_function_seed, -1).

Definition murmur_m : Z := 1540483477. (* 0x5bd1e995 *)

(** [while(len >= 4)] of MurmurHash2 on a little endian host, then the switch
    on the bytes that are left. *)
Fixpoint murmur_loop (data : list Z) (h : Z) : Z :=
  match data with
  | b0 :: b1 :: b2 :: b3 :: data' =>
      let k := le_dec [b0; b1; b2; b3] in
      let k := u32 (k * murmur_m) in
      let k := Z.lxor k (Z.shiftr k 24) in
      let k := u32 (k * murmur_m) in
      let h := u32 (h * murmur_m) in
      let h := Z.lxor h k in
      murmur_loop data' h
  | [b0; b1; b2] =>
      let h := Z.lxor h (Z.shiftl b2 16) in
      let h := Z.lxor h (Z.shiftl b1 8) in
      u32 (Z.lxor h b0 * murmur_m)
  | [b0; b1] =>
      let h := Z.lxor h (Z.shiftl b1 8) in
      u32 (Z.lxor h b0 * murmur_m)
  | [b0] => u32 (Z.lxor h b0 * murmur_m)
  | [] => h
  end.

Definition dictGenHashFunction (seed : Z) (key : list Z) : Z :=
  let h := Z.lxor seed (u32 (blen key)) in
  let h := murmur_loop key h in
  let h := Z.lxor h (Z.shiftr h 13) in
  let h := u32 (h * murmur_m) in
  Z.lxor h (Z.shiftr h 15).

(** The djb hash of a string whose characters [tolower] was applied to. *)
Definition dictGenCaseHashFunction (tolower : Z → Z) (seed : Z) (buf : list Z) : Z :=
  foldl (λ hash c, u32 (u32 (u32 (Z.shiftl hash 5) + hash) + tolower c)) seed buf.

(** *** The range of the hash *)

Lemma lxor_range n a b : 0 ≤ n → 0 ≤ a < 2 ^ n → 0 ≤ b < 2 ^ n → 0 ≤ Z.lxor a b < 2 ^ n.
Proof.
  intros Hn Ha Hb. split; [apply Z.lxor_nonneg; lia|].
  rewrite <-(Z.mod_small a (2 ^ n)), <-(Z.mod_small b (2 ^ n)), <-!Z.land_ones by lia.
  assert (Z.lxor (Z.land a (Z.ones n)) (Z.land b (Z.ones n)) = Z.land (Z.lxor a b) (Z.ones n)) as ->.
  { apply Z.bits_inj'. intros i Hi. rewrite !Z.lxor_spec, !Z.land_spec, Z.lxor_spec. by destruct (Z.testbit a i), (Z.testbit b i), (Z.testbit (Z.ones n) i). }
  rewrite Z.land_ones by done. apply Z.mod_pos_bound. lia.
Qed.

Lemma murmur_loop_range n : ∀ data h, (length data ≤ n)%nat → in_u32 h → in_u32 (murmur_loop data h).
Proof.
  assert (∀ z, in_u32 (u32 z)) as Hu by (intros; apply wrapu_range; lia).
  induction n as [|n IH]; intros data h Hl Hh; [by destruct data; [|simpl in Hl; lia]|].
  destruct data as [|b0 [|b1 [|b2 [|b3 data]]]]; cbn [murmur_loop]; [done|apply Hu..|].
  apply IH; [simpl in Hl; lia|]. apply (lxor_range 32); [lia|apply Hu|apply Hu].
Qed.

Lemma dictGenHashFunction_range seed key : in_u32 seed → in_u32 (dictGenHashFunction seed key).
Proof.
  intros Hs. unfold dictGenHashFunction.
  assert (∀ z, in_u32 (u32 z)) as Hu by (intros; apply wrapu_range; lia).
  assert (∀ z i, 0 ≤ i → in_u32 z → in_u32 (Z.shiftr z i)) as Hr.
  { intros z i Hi [Hz0 Hz1]. split; [by apply Z.shiftr_nonneg|]. rewrite Z.shiftr_div_pow2 by done.
    apply Z.le_lt_trans with z; [|done]. apply Z.div_le_upper_bound; [apply Z.pow_pos_nonneg; lia|].
    assert (0 < 2 ^ i) by (apply Z.pow_pos_nonneg; lia). nia. }
  apply (lxor_range 32); [lia|apply Hu|]. apply Hr; [lia|apply Hu].
Qed.

(** ** Tables *)

(** The methods of a [dictType] that decide where entries are; the model has
    no destructors, and keys and values are not copied. *)
Record dictType (K : Type) := DictType {
  hashFunction : K → Z;
  keyCompare : K → K → bool;
}.
Arguments hashFunction {K}.
Arguments keyCompare {K}.

(** What the hash table relies on: an [unsigned int] hash, and the equality of
    keys. *)
Class DictTypeOk {K} (t : dictType K) := {
  hash_range k : in_u32 (hashFunction t k);
  keyCompare_spec a b : keyCompare t a b = true ↔ a = b;
}.

Section dict.
Context {K V : Type} (type : dictType K).

Notation entry := (K * V)%type.

Record dictht := Dictht {
  ht_table : option (list (list entry));
  ht_size : Z;
  ht_sizemask : Z;
  ht_used : Z;
}.

Record dict := Dict {
  d_ht0 : dictht;
  d_ht1 : dictht;
  d_rehashidx : Z;
  d_iterators : Z;
}.

(** [d->ht[t]] and its update. *)
Definition ht (d : dict) (t : Z) : dictht := if t =? 0 then d_ht0 d else d_ht1 d.
Definition set_ht (d : dict) (t : Z) (h : dictht) : dict :=
  if t =? 0 then Dict h (d_ht1 d) (d_rehashidx d) (d_iterators d)
  else Dict (d_ht0 d) h (d_rehashidx d) (d_iterators d).
Definition set_rehashidx (d : dict) (i : Z) : dict :=
  Dict (d_ht0 d) (d_ht1 d) i (d_iterators d).
Definition set_used (h : dictht) (n : Z) : dictht :=
  Dictht (ht_table h) (ht_size h) (ht_sizemask h) n.

(** [ht->table[i]] and its update. *)
Definition bucket (h : dictht) (i : Z) : option (list entry) :=
  bs ← ht_table h;
  if 0 <=? i then bs !! Z.to_nat i else None.
Definition set_bucket (h : dictht) (i : Z) (b : list entry) : option dictht :=
  bs ← ht_table h;
  _ ← bucket h i;
  Some (Dictht (Some (<[Z.to_nat i := b]> bs)) (ht_size h) (ht_sizemask h) (ht_used h)).

Definition dictIsRehashing (d : dict) : bool := negb (d_rehashidx d =? -1).
Definition dictSize (d : dict) : Z := ht_used (d_ht0 d) + ht_used (d_ht1 d).
Definition dictSlots (d : dict) : Z := ht_size (d_ht0 d) + ht_size (d_ht1 d).

Definition _dictReset : dictht := Dictht None 0 0 0.

Definition dictCreate : dict := Dict _dictReset _dictReset (-1) 0.

(** The loop of _dictNextPower. *)
Fixpoint nextPower_loop (fuel : nat) (i size : Z) : Z :=
  match fuel with
  | O => i
  | S fuel => if size <=? i then i else nextPower_loop fuel (u64 (i * 2)) size
  end.

Definition _dictNextPower (size : Z) : Z :=
  if LONG_MAX <=? size then LONG_MAX else nextPower_loop 64 DICT_HT_INITIAL_SIZE size.

Definition dictExpand (d : dict) (size : Z) : dict * Z :=
  let realsize := _dictNextPower size in
  if dictIsRehashing d || (size <? ht_used (d_ht0 d)) then (d, DICT_ERR)
  else
    let n := Dictht (Some (replicate (Z.to_nat realsize) [])) realsize (realsize - 1) 0 in
    match ht_table (d_ht0 d) with
    | None => (set_ht d 0 n, DICT_OK)
    | Some _ => (set_rehashidx (set_ht d 1 n) 0, DICT_OK)
    end.

Definition dictResize (dict_can_resize : bool) (d : dict) : dict * Z :=
  if negb dict_can_resize || dictIsRehashing d then (d, DICT_ERR)
  else
    let minimal := i32 (ht_used (d_ht0 d)) in
    let minimal := if minimal <? DICT_HT_INITIAL_SIZE then DICT_HT_INITIAL_SIZE else minimal in
    dictExpand d minimal.

(** [while(d->ht[0].table[d->rehashidx] == NULL) d->rehashidx++]. *)
Fixpoint skip_empty (fuel : nat) (h : dictht) (i : Z) : option Z :=
  b ← bucket h i;
  match b with
  | [] => match fuel with O => None | S fuel => skip_empty fuel h (i32 (i + 1)) end
  | _ => Some i
  end.

(** [while(de)]: the chain [b] moves from [ht[0]] to [ht[1]]. *)
Fixpoint move_bucket (h0 h1 : dictht) (b : list entry) : option (dictht * dictht) :=
  match b with
  | [] => Some (h0, h1)
  | e :: b =>
      let h := Z.land (hashFunction type e.1) (ht_sizemask h1) in
      c ← bucket h1 h;
      h1 ← set_bucket h1 h (e :: c);
      move_bucket (set_used h0 (u64 (ht_used h0 - 1))) (set_used h1 (u64 (ht_used h1 + 1))) b
  end.

(** [while(n--)] of dictRehash. *)
Fixpoint dictRehash_loop (n : nat) (d : dict) : option (dict * Z) :=
  match n with
  | O => Some (d, 1)
  | S n =>
      if ht_used (d_ht0 d) =? 0 then
        Some (Dict (d_ht1 d) _dictReset (-1) (d_iterators d), 0)
      else if ht_size (d_ht0 d) <=? u32 (d_rehashidx d) then None
      else
        i ← skip_empty (Z.to_nat (ht_size (d_ht0 d))) (d_ht0 d) (d_rehashidx d);
        b ← bucket (d_ht0 d) i;
        '(h0, h1) ← move_bucket (d_ht0 d) (d_ht1 d) b;
        h0 ← set_bucket h0 i [];
        dictRehash_loop n (Dict h0 h1 (i32 (i + 1)) (d_iterators d))
  end.

Definition dictRehash (d : dict) (n : nat) : option (dict * Z) :=
  if negb (dictIsRehashing d) then Some (d, 0) else dictRehash_loop n d.

Definition _dictRehashStep (d : dict) : option dict :=
  if d_iterators d =? 0 then '(d, _) ← dictRehash d 1; Some d else Some d.

(** ** Lookups and updates *)

(** The position of the first entry of a chain with a key. *)
Fixpoint chain_find (key : K) (b : list entry) : option nat :=
  match b with
  | [] => None
  | e :: b => if keyCompare type key e.1 then Some O else S <$> chain_find key b
  end.

(** A pointer to an entry. *)
Record dictEntry := DictEntry { de_table : Z; de_index : Z; de_pos : nat }.

Definition entry_at (d : dict) (p : dictEntry) : option entry :=
  b ← bucket (ht d (de_table p)) (de_index p); b !! de_pos p.

Definition dictSetVal (d : dict) (p : dictEntry) (v : V) : option dict :=
  b ← bucket (ht d (de_table p)) (de_index p);
  e ← b !! de_pos p;
  h ← set_bucket (ht d (de_table p)) (de_index p) (<[de_pos p := (e.1, v)]> b);
  Some (set_ht d (de_table p) h).

Definition _dictExpandIfNeeded (dict_can_resize : bool) (d : dict) : dict * Z :=
  if dictIsRehashing d then (d, DICT_OK)
  else if ht_size (d_ht0 d) =? 0 then dictExpand d DICT_HT_INITIAL_SIZE
  else if (ht_size (d_ht0 d) <=? ht_used (d_ht0 d)) &&
          (dict_can_resize ||
           (dict_force_resize_ratio <? ht_used (d_ht0 d) / ht_size (d_ht0 d)))
  then dictExpand d (u64 (ht_used (d_ht0 d) * 2))
  else (d, DICT_OK).

(** The dictionary may be expanded; the index is -1 when the key is there. *)
Definition _dictKeyIndex (dict_can_resize : bool) (d : dict) (key : K) : option (dict * Z) :=
  let '(d, r) := _dictExpandIfNeeded dict_can_resize d in
  if r =? DICT_ERR then Some (d, -1)
  else
    let h := hashFunction type key in
    let idx := Z.land h (ht_sizemask (d_ht0 d)) in
    b ← bucket (d_ht0 d) idx;
    match chain_find key b with
    | Some _ => Some (d, -1)
    | None =>
        if negb (dictIsRehashing d) then Some (d, idx)
        else
          let idx := Z.land h (ht_sizemask (d_ht1 d)) in
          b ← bucket (d_ht1 d) idx;
          match chain_find key b with
          | Some _ => Some (d, -1)
          | None => Some (d, idx)
          end
    end.

(** [junk] is the uninitialised value of the new entry. *)
Definition dictAddRaw (dict_can_resize : bool) (junk : V) (d : dict) (key : K)
    : option (dict * option dictEntry) :=
  d ← (if dictIsRehashing d then _dictRehashStep d else Some d);
  '(d, index) ← _dictKeyIndex dict_can_resize d key;
  if index =? -1 then Some (d, None)
  else
    let t := if dictIsRehashing d then 1 else 0 in
    b ← bucket (ht d t) index;
    h ← set_bucket (ht d t) index ((key, junk) :: b);
    Some (set_ht d t (set_used h (u64 (ht_used h + 1))), Some (DictEntry t index 0)).

Definition dictAdd (dict_can_resize : bool) (junk : V) (d : dict) (key : K) (val : V)
    : option (dict * Z) :=
  '(d, entry) ← dictAddRaw dict_can_resize junk d key;
  match entry with
  | None => Some (d, DICT_ERR)
  | Some p => d ← dictSetVal d p val; Some (d, DICT_OK)
  end.

(** One turn of [for (table = 0; table <= 1; table++)] of dictFind. *)
Definition find_in (d : dict) (table : Z) (key : K) : option (option dictEntry) :=
  let idx := Z.land (hashFunction type key) (ht_sizemask (ht d table)) in
  b ← bucket (ht d table) idx;
  Some (DictEntry table idx <$> chain_find key b).

Definition dictFind (d : dict) (key : K) : option (dict * option dictEntry) :=
  if ht_size (d_ht0 d) =? 0 then Some (d, None)
  else
    d ← (if dictIsRehashing d then _dictRehashStep d else Some d);
    r ← find_in d 0 key;
    match r with
    | Some p => Some (d, Some p)
    | None =>
        if negb (dictIsRehashing d) then Some (d, None)
        else r ← find_in d 1 key; Some (d, r)
    end.

Definition dictFetchValue (d : dict) (key : K) : option (dict * option V) :=
  '(d, he) ← dictFind d key;
  match he with
  | None => Some (d, None)
  | Some p => e ← entry_at d p; Some (d, Some e.2)
  end.

Definition dictReplace (dict_can_resize : bool) (junk : V) (d : dict) (key : K) (val : V)
    : option (dict * Z) :=
  '(d, r) ← dictAdd dict_can_resize junk d key val;
  if r =? DICT_OK then Some (d, 1)
  else
    '(d, entry) ← dictFind d key;
    p ← entry;
    d ← dictSetVal d p val;
    Some (d, 0).

Definition dictReplaceRaw (dict_can_resize : bool) (junk : V) (d : dict) (key : K)
    : option (dict * option dictEntry) :=
  '(d, entry) ← dictFind d key;
  match entry with
  | Some p => Some (d, Some p)
  | None => dictAddRaw dict_can_resize junk d key
  end.

(** Unlinks the entry of [key] from [ht[table]]; [None] inside when the chain
    has no such entry. *)
Definition delete_in (d : dict) (table : Z) (key : K) : option (option dict) :=
  let idx := Z.land (hashFunction type key) (ht_sizemask (ht d table)) in
  b ← bucket (ht d table) idx;
  match chain_find key b with
  | None => Some None
  | Some i =>
      h ← set_bucket (ht d table) idx (take i b ++ drop (S i) b);
      Some (Some (set_ht d table (set_used h (u64 (ht_used h - 1)))))
  end.

Definition dictGenericDelete (d : dict) (key : K) : option (dict * Z) :=
  if ht_size (d_ht0 d) =? 0 then Some (d, DICT_ERR)
  else
    d ← (if dictIsRehashing d then _dictRehashStep d else Some d);
    r ← delete_in d 0 key;
    match r with
    | Some d => Some (d, DICT_OK)
    | None =>
        if negb (dictIsRehashing d) then Some (d, DICT_ERR)
        else
          r ← delete_in d 1 key;
          match r with Some d => Some (d, DICT_OK) | None => Some (d, DICT_ERR) end
    end.

(** [for (i = 0; i < ht->size && ht->used > 0; i++)]: the entries freed. *)
Fixpoint clear_loop (fuel : nat) (h : dictht) (i : Z) : option (list entry) :=
  if (i <? ht_size h) && (0 <? ht_used h) then
    match fuel with
    | O => None
    | S fuel =>
        b ← bucket h i;
        rest ← clear_loop fuel (set_used h (u64 (ht_used h - Z.of_nat (length b)))) (i + 1);
        Some (b ++ rest)
    end
  else Some [].

(** The entries freed and the table left. *)
Definition _dictClear (h : dictht) : option (list entry * dictht) :=
  freed ← clear_loop (Z.to_nat (ht_size h)) h 0;
  Some (freed, _dictReset).

Definition dictEmpty (d : dict) : option (list entry * dict) :=
  '(f0, h0) ← _dictClear (d_ht0 d);
  '(f1, h1) ← _dictClear (d_ht1 d);
  Some (f0 ++ f1, Dict h0 h1 (-1) 0).

(** ** Scan *)

(** [while ((s >>= 1) > 0)] of rev, on a 32 bit [unsigned long]. *)
Fixpoint rev_loop (fuel : nat) (s mask v : Z) : Z :=
  let s := Z.shiftr s 1 in
  if 0 <? s then
    match fuel with
    | O => v
    | S fuel =>
        let mask := Z.lxor mask (u32 (Z.shiftl mask s)) in
        let v := Z.lor (Z.land (Z.shiftr v s) mask)
                       (Z.land (u32 (Z.shiftl v s)) (Z.lxor mask (2 ^ 32 - 1))) in
        rev_loop fuel s mask v
    end
  else v.

Definition rev (v : Z) : Z := rev_loop 5 32 (2 ^ 32 - 1) v.

(** [~m] on an [unsigned long]. *)
Definition not32 (m : Z) : Z := Z.lxor m (2 ^ 32 - 1).

(** The do-while over the expansions of the cursor in the larger table. *)
Fixpoint scan_expansions (fuel : nat) (t1 : dictht) (m0 m1 v : Z) : option (list entry * Z) :=
  match fuel with
  | O => None
  | S fuel =>
      b ← bucket t1 (Z.land v m1);
      let v := Z.lor (Z.land (u32 (Z.lor v m0 + 1)) (not32 m0)) (Z.land v m0) in
      if Z.land v (Z.lxor m0 m1) =? 0 then Some (b, v)
      else '(es, v) ← scan_expansions fuel t1 m0 m1 v; Some (b ++ es, v)
  end.

(** The entries given to the callback, and the next cursor. *)
Definition dictScan (d : dict) (v : Z) : option (list entry * Z) :=
  if dictSize d =? 0 then Some ([], 0)
  else
    '(es, v, m0) ←
      (if negb (dictIsRehashing d) then
         let t0 := d_ht0 d in
         let m0 := u32 (ht_sizemask t0) in
         b ← bucket t0 (Z.land v m0);
         Some (b, v, m0)
       else
         let '(t0, t1) := if ht_size (d_ht1 d) <? ht_size (d_ht0 d) then (d_ht1 d, d_ht0 d)
                          else (d_ht0 d, d_ht1 d) in
         let m0 := u32 (ht_sizemask t0) in
         let m1 := u32 (ht_sizemask t1) in
         b ← bucket t0 (Z.land v m0);
         '(es, v) ← scan_expansions (Z.to_nat (ht_size t1)) t1 m0 m1 v;
         Some (b ++ es, v, m0));
    let v := Z.lor v (not32 m0) in
    let v := rev v in
    let v := u32 (v + 1) in
    let v := rev v in
    Some (es, v).

(** ** The invariant *)

Context {type_ok : DictTypeOk type}.

(** The entries of a table, chain after chain. *)
Definition entries (h : dictht) : list entry :=
  match ht_table h with Some bs => concat bs | None => [] end.
Definition all_entries (d : dict) : list entry := entries (d_ht0 d) ++ entries (d_ht1 d).

(** [h] has [2 ^ k] buckets [bs], and every entry is in the bucket of its hash. *)
Record tbl (h : dictht) (k : Z) (bs : list (list entry)) : Prop := Tbl {
  tbl_table : ht_table h = Some bs;
  tbl_size : ht_size h = 2 ^ k;
  tbl_mask : ht_sizemask h = 2 ^ k - 1;
  tbl_length : length bs = Z.to_nat (2 ^ k);
  tbl_k : 2 ≤ k ≤ 30;
  tbl_placed : ∀ i b e, bs !! i = Some b → e ∈ b →
    Z.of_nat i = hashFunction type e.1 mod 2 ^ k;
}.

Definition wf_ht (h : dictht) : Prop :=
  ht_used h = Z.of_nat (length (entries h)) ∧ ht_used h < 2 ^ 62 ∧
  (h = _dictReset ∨ ∃ k bs, tbl h k bs).

Definition wf (d : dict) : Prop :=
  wf_ht (d_ht0 d) ∧ wf_ht (d_ht1 d) ∧ NoDup (all_entries d).*1 ∧
  dictSize d < 2 ^ 62 ∧
  ((d_rehashidx d = -1 ∧ d_ht1 d = _dictReset) ∨
   (0 ≤ d_rehashidx d ≤ ht_size (d_ht0 d) ∧
    ht_table (d_ht0 d) ≠ None ∧ ht_table (d_ht1 d) ≠ None ∧
    ∀ i b, i < d_rehashidx d → bucket (d_ht0 d) i = Some b → b = [])).

(** *** Buckets *)

Lemma concat_insert {A} (bs : list (list A)) i b :
  bs !! i = Some b →
  ∃ l1 l2, concat bs = l1 ++ b ++ l2 ∧ ∀ b', concat (<[i:=b']> bs) = l1 ++ b' ++ l2.
Proof.
  intros Hb. exists (concat (take i bs)), (concat (drop (S i) bs)). split.
  - rewrite <-(take_drop_middle bs i b Hb) at 1. by rewrite concat_app.
  - intros b'. rewrite insert_take_drop by (by eapply lookup_lt_Some). by rewrite concat_app.
Qed.

Lemma bucket_lookup h i b : bucket h i = Some b → ∃ bs, ht_table h = Some bs ∧
  0 ≤ i ∧ bs !! Z.to_nat i = Some b.
Proof.
  unfold bucket. intros (bs & -> & Hi)%bind_Some. destruct (Z.leb_spec 0 i); [eauto|done].
Qed.

Section tbl.
Context (h : dictht) (k : Z) (bs : list (list entry)) (T : tbl h k bs).

Lemma tbl_pow : 4 ≤ 2 ^ k ≤ 2 ^ 30.
Proof.
  pose proof (tbl_k _ _ _ T). split.
  - change 4 with (2 ^ 2). apply Z.pow_le_mono_r; lia.
  - apply Z.pow_le_mono_r; lia.
Qed.

Lemma land_mask x : Z.land x (ht_sizemask h) = x mod 2 ^ k.
Proof.
  rewrite (tbl_mask _ _ _ T). rewrite <-Z.ones_equiv || idtac.
  replace (2 ^ k - 1) with (Z.ones k) by (rewrite Z.ones_equiv; lia).
  apply Z.land_ones. pose proof (tbl_k _ _ _ T). lia.
Qed.

Lemma bucket_tbl i : bucket h i = if 0 <=? i then bs !! Z.to_nat i else None.
Proof. unfold bucket. by rewrite (tbl_table _ _ _ T). Qed.

Lemma bucket_is_Some i : 0 ≤ i < 2 ^ k → ∃ b, bucket h i = Some b.
Proof.
  intros Hi. rewrite bucket_tbl. zdec. apply lookup_lt_is_Some_2.
  rewrite (tbl_length _ _ _ T). lia.
Qed.

Lemma hash_bucket key : ∃ b, bucket h (Z.land (hashFunction type key) (ht_sizemask h)) = Some b.
Proof.
  rewrite land_mask. apply bucket_is_Some. apply Z.mod_pos_bound. pose proof tbl_pow. lia.
Qed.

Lemma entries_tbl : entries h = concat bs.
Proof. unfold entries. by rewrite (tbl_table _ _ _ T). Qed.

Lemma tbl_used n : tbl (set_used h n) k bs.
Proof. destruct T. by constructor. Qed.

(** Replacing the chain of a bucket by entries that belong to it. *)
Lemma set_bucket_tbl i b b' :
  bucket h i = Some b →
  (∀ e, e ∈ b' → i = hashFunction type e.1 mod 2 ^ k) →
  ∃ h', set_bucket h i b' = Some h' ∧ tbl h' k (<[Z.to_nat i := b']> bs) ∧
    ht_used h' = ht_used h.
Proof.
  intros Hb Hb'. unfold set_bucket. rewrite Hb, (tbl_table _ _ _ T). simpl.
  eexists; split; [done|]. split; [|done].
  rewrite bucket_tbl in Hb. destruct (Z.leb_spec 0 i); [|done].
  destruct T as [? ? ? Hl ? Hp]. constructor; simpl; try done.
  { by rewrite length_insert. }
  intros j c e Hj He. destruct (decide (j = Z.to_nat i)) as [->|Hne].
  - rewrite list_lookup_insert_eq in Hj by (by eapply lookup_lt_Some).
    injection Hj as <-. rewrite <-(Hb' e He). lia.
  - rewrite list_lookup_insert_ne in Hj by done. by eapply Hp.
Qed.
End tbl.

Lemma tbl_inj h k bs k' bs' : tbl h k bs → tbl h k' bs' → bs = bs'.
Proof. intros [? _ _ _ _ _] [? _ _ _ _ _]. congruence. Qed.

(** *** Rehashing *)

Lemma move_bucket_spec b : ∀ h0 h1 k bs,
  tbl h1 k bs → ht_used h0 < 2 ^ 62 → Z.of_nat (length b) ≤ ht_used h0 →
  0 ≤ ht_used h1 → ht_used h1 + Z.of_nat (length b) < 2 ^ 62 →
  ∃ h1' bs', move_bucket h0 h1 b = Some (set_used h0 (ht_used h0 - Z.of_nat (length b)), h1') ∧
    tbl h1' k bs' ∧ concat bs' ≡ₚ b ++ concat bs ∧
    ht_used h1' = ht_used h1 + Z.of_nat (length b).
Proof.
  induction b as [|e b IH]; intros h0 h1 k bs T Hu0 Hl0 Hu1 Hl1; simpl in *.
  { exists h1, bs. split; [|split; [done|split; [done|lia]]].
    f_equal. f_equal. destruct h0; unfold set_used; simpl. f_equal. lia. }
  destruct (hash_bucket h1 k bs T e.1) as [c Hc]. rewrite Hc. simpl.
  destruct (set_bucket_tbl h1 k bs T _ c (e :: c) Hc) as (h1' & -> & T' & Hu).
  { intros x [->|Hx]%elem_of_cons; [by rewrite (land_mask h1 k bs T)|].
    rewrite (land_mask h1 k bs T) in *. rewrite (bucket_tbl h1 k bs T) in Hc.
    destruct (Z.leb_spec 0 (hashFunction type e.1 mod 2 ^ k)); [|done].
    rewrite <-(tbl_placed _ _ _ T _ _ x Hc Hx). lia. }
  simpl. rewrite !wrapu_small by (unlimit; lia).
  destruct (IH (set_used h0 (ht_used h0 - 1)) (set_used h1' (ht_used h1' + 1)) k
    (<[Z.to_nat (Z.land (hashFunction type e.1) (ht_sizemask h1)) := e :: c]> bs))
    as (h2 & bs2 & -> & T2 & Hp & Hu2); simpl; try lia; [by apply tbl_used|].
  exists h2, bs2. simpl in *. split; [f_equal; f_equal; unfold set_used; simpl; f_equal; lia|].
  split; [done|]. split; [|lia].
  rewrite Hp. rewrite (bucket_tbl h1 k bs T) in Hc.
  destruct (Z.leb_spec 0 (Z.land (hashFunction type e.1) (ht_sizemask h1))); [|done].
  destruct (concat_insert bs _ c Hc) as (l1 & l2 & -> & ->).
  rewrite !(assoc_L (++)). solve_Permutation.
Qed.

Lemma skip_empty_spec h k bs (T : tbl h k bs) fuel : ∀ i j c,
  0 ≤ i ≤ j → bucket h j = Some c → c ≠ [] → (Z.to_nat (2 ^ k - i) ≤ fuel)%nat →
  ∃ i' b, skip_empty fuel h i = Some i' ∧ i ≤ i' < 2 ^ k ∧ bucket h i' = Some b ∧ b ≠ [] ∧
    ∀ x b', i ≤ x < i' → bucket h x = Some b' → b' = [].
Proof.
  pose proof (tbl_pow h k bs T) as Hk.
  assert (∀ j c, bucket h j = Some c → j < 2 ^ k) as Hlt.
  { intros j c (bs' & Ht & ? & Hj)%bucket_lookup. rewrite (tbl_table _ _ _ T) in Ht.
    injection Ht as <-. apply lookup_lt_Some in Hj. rewrite (tbl_length _ _ _ T) in Hj. lia. }
  induction fuel as [|fuel IH]; intros i j c Hij Hj Hc Hf.
  { apply Hlt in Hj. lia. }
  destruct (bucket_is_Some h k bs T i) as [b Hb]; [apply Hlt in Hj; lia|].
  simpl. rewrite Hb. simpl. destruct b as [|e b].
  - assert (i ≠ j) by (intros ->; congruence).
    rewrite wraps_small by (apply Hlt in Hj; unlimit; lia).
    destruct (IH (i + 1) j c) as (i' & b' & E & Hi' & Hb' & Hne & Hemp); [lia|done|done|lia|].
    exists i', b'. split; [done|split; [lia|split; [done|split; [done|]]]].
    intros x bx Hx Hbx. destruct (decide (x = i)) as [->|]; [congruence|].
    apply (Hemp x bx); [lia|done].
  - exists i, (e :: b). apply Hlt in Hb as ?. split; [done|split; [lia|split; [done|split; [done|]]]].
    intros; lia.
Qed.

Lemma nonempty_bucket h k bs (T : tbl h k bs) :
  entries h ≠ [] → ∃ j c, 0 ≤ j ∧ bucket h j = Some c ∧ c ≠ [].
Proof.
  rewrite (entries_tbl h k bs T). intros Hne.
  assert (∃ j c, bs !! j = Some c ∧ c ≠ []) as (j & c & Hj & Hc).
  { clear T. induction bs as [|[|e b] bs IH]; [done| |by exists 0%nat, (e :: b)].
    destruct (IH Hne) as (j & c & ? & ?). by exists (S j), c. }
  exists (Z.of_nat j), c. split; [lia|]. rewrite (bucket_tbl h k bs T). zdec.
  by rewrite Nat2Z.id.
Qed.

Lemma wf_ht_tbl h : wf_ht h → ht_table h ≠ None → ∃ k bs, tbl h k bs.
Proof. intros (_ & _ & [->|?]) Hn; done. Qed.

Lemma wf_ht_nonneg h : wf_ht h → 0 ≤ ht_used h.
Proof. intros [-> _]. lia. Qed.

Lemma wf_reset : wf_ht _dictReset.
Proof. split; [done|split; [done|by left]]. Qed.

(** A table whose used counter is the number of its entries. *)
Lemma wf_ht_intro h k bs n :
  tbl h k bs → ht_used h = n → n = Z.of_nat (length (concat bs)) → n < 2 ^ 62 → wf_ht h.
Proof.
  intros T Hu Hl Hn. split; [by rewrite (entries_tbl h k bs T), Hu, Hl|].
  split; [lia|eauto].
Qed.

(** Moving one bucket, and clearing it. *)
Lemma rehash_step d k0 bs0 k1 bs1 :
  wf d → tbl (d_ht0 d) k0 bs0 → tbl (d_ht1 d) k1 bs1 →
  0 ≤ d_rehashidx d ≤ 2 ^ k0 → ht_used (d_ht0 d) ≠ 0 →
  (∀ i b, i < d_rehashidx d → bucket (d_ht0 d) i = Some b → b = []) →
  ∃ i b h0 h1 h0',
    d_rehashidx d < ht_size (d_ht0 d) ∧
    skip_empty (Z.to_nat (ht_size (d_ht0 d))) (d_ht0 d) (d_rehashidx d) = Some i ∧
    bucket (d_ht0 d) i = Some b ∧ move_bucket (d_ht0 d) (d_ht1 d) b = Some (h0, h1) ∧
    set_bucket h0 i [] = Some h0' ∧ d_rehashidx d ≤ i < 2 ^ k0 ∧
    let d' := Dict h0' h1 (i + 1) (d_iterators d) in
    wf d' ∧ all_entries d' ≡ₚ all_entries d ∧ ht_size h0' = ht_size (d_ht0 d) ∧
    ht_size h1 = ht_size (d_ht1 d).
Proof.
  intros (W0 & W1 & Hnd & Hsz & _) T0 T1 Hidx Hu Hemp. unfold dictSize in Hsz.
  pose proof (wf_ht_nonneg _ W0) as Hn0. pose proof (wf_ht_nonneg _ W1) as Hn1.
  destruct W0 as (E0 & B0 & _). destruct W1 as (E1 & B1 & _).
  destruct (nonempty_bucket _ _ _ T0) as (j & c & Hj0 & Hj & Hc).
  { intros E. rewrite E in E0. done. }
  pose proof (tbl_pow _ _ _ T0) as Hp0. pose proof (tbl_size _ _ _ T0) as Hs0.
  assert (d_rehashidx d ≤ j) as Hge.
  { destruct (decide (j < d_rehashidx d)); [|lia]. by destruct Hc; eapply Hemp. }
  destruct (skip_empty_spec _ _ _ T0 (Z.to_nat (ht_size (d_ht0 d))) (d_rehashidx d) j c)
    as (i & b & Hi & Hir & Hb & Hbne & Hempi); [lia|done|done|lia|].
  pose proof Hb as Hb'. rewrite (bucket_tbl _ _ _ T0) in Hb'.
  destruct (Z.leb_spec 0 i) as [Hi0|]; [|done].
  destruct (concat_insert bs0 (Z.to_nat i) b Hb') as (l1 & l2 & Hcat & Hcat').
  assert (length (entries (d_ht0 d)) = length l1 + (length b + length l2))%nat as Hlen
    by (rewrite (entries_tbl _ _ _ T0), Hcat, !length_app; done).
  destruct (move_bucket_spec b (d_ht0 d) (d_ht1 d) k1 bs1 T1) as (h1 & bs1' & Hm & T1' & Hpm & Hu1);
    [lia..|].
  destruct (set_bucket_tbl (set_used (d_ht0 d) (ht_used (d_ht0 d) - Z.of_nat (length b))) k0 bs0
    (tbl_used _ _ _ T0 _) i b []) as (h0' & Hs & T0' & Hu0'); [done|by intros ? ?%not_elem_of_nil|].
  exists i, b, (set_used (d_ht0 d) (ht_used (d_ht0 d) - Z.of_nat (length b))), h1, h0'.
  split; [lia|].
  split; [done|split; [done|split; [exact Hm|split; [exact Hs|split; [lia|]]]]].
  simpl in Hu0'. simpl.
  assert (all_entries (Dict h0' h1 (i + 1) (d_iterators d)) ≡ₚ all_entries d) as Hperm.
  { unfold all_entries; simpl. rewrite (entries_tbl _ _ _ T0'), (entries_tbl _ _ _ T1'), Hpm,
      (entries_tbl _ _ _ T0), (entries_tbl _ _ _ T1), Hcat, Hcat'. simpl. solve_Permutation. }
  assert (length (concat (<[Z.to_nat i:=[]]> bs0)) = length l1 + length l2)%nat as Hlen0
    by (rewrite Hcat', length_app; done).
  assert (length (concat bs1') = length b + length (concat bs1))%nat as Hlen1
    by (by rewrite Hpm, length_app).
  rewrite (entries_tbl _ _ _ T1) in E1.
  split; [|split; [done|split]].
  - unfold wf, dictSize. cbn [d_ht0 d_ht1 d_rehashidx].
    split; [eapply wf_ht_intro; [exact T0'|reflexivity|lia..]|].
    split; [eapply wf_ht_intro; [exact T1'|reflexivity|lia..]|].
    split; [by rewrite Hperm|]. split; [lia|].
    right. rewrite (tbl_size _ _ _ T0'). split; [lia|].
    rewrite (tbl_table _ _ _ T0'), (tbl_table _ _ _ T1'). split; [done|split; [done|]].
    intros x bx Hx Hbx. rewrite (bucket_tbl _ _ _ T0') in Hbx.
    destruct (Z.leb_spec 0 x); [|done]. destruct (decide (x = i)) as [->|Hne].
    + rewrite list_lookup_insert_eq in Hbx by (by eapply lookup_lt_Some). congruence.
    + rewrite list_lookup_insert_ne in Hbx by lia.
      assert (bucket (d_ht0 d) x = Some bx) as Hbx' by (rewrite (bucket_tbl _ _ _ T0); by zdec).
      destruct (decide (x < d_rehashidx d)); [by eapply Hemp|]. by apply (Hempi x bx); [lia|].
  - by rewrite (tbl_size _ _ _ T0'), (tbl_size _ _ _ T0).
  - by rewrite (tbl_size _ _ _ T1'), (tbl_size _ _ _ T1).
Qed.

(** The number of steps after which a rehashing is over. *)
Definition rehash_left (d : dict) : Z := ht_size (d_ht0 d) - d_rehashidx d.

Lemma dictRehash_loop_spec n : ∀ d,
  wf d → dictIsRehashing d = true →
  ∃ d' r, dictRehash_loop n d = Some (d', r) ∧ wf d' ∧ all_entries d' ≡ₚ all_entries d ∧
    d_iterators d' = d_iterators d ∧
    ((r = 0 ∧ dictIsRehashing d' = false ∧ ht_size (d_ht0 d') = ht_size (d_ht1 d)) ∨
     (r = 1 ∧ dictIsRehashing d' = true ∧ 0 ≤ rehash_left d' ≤ rehash_left d - Z.of_nat n)).
Proof.
  induction n as [|n IH]; intros d W Hre.
  { exists d, 1. split; [done|split; [done|split; [done|split; [done|]]]]. right.
    split; [done|split; [done|]]. unfold rehash_left.
    destruct W as (_ & _ & _ & _ & [[E _]|[? _]]); [|lia].
    unfold dictIsRehashing in Hre. by rewrite E in Hre. }
  simpl. pose proof W as (W0 & W1 & Hnd & Hsz & [[E _]|(Hidx & Hn0 & Hn1 & Hemp)]).
  { unfold dictIsRehashing in Hre. by rewrite E in Hre. }
  destruct (Z.eqb_spec (ht_used (d_ht0 d)) 0) as [Hu|Hu].
  - do 2 eexists; split; [done|]. destruct W0 as (E0 & _ & _).
    assert (entries (d_ht0 d) = []) as Hnil by (apply nil_length_inv; lia).
    assert (all_entries (Dict (d_ht1 d) _dictReset (-1) (d_iterators d)) = all_entries d) as Hall.
    { unfold all_entries at 2. rewrite Hnil. unfold all_entries; simpl. by rewrite app_nil_r. }
    split; [|split; [by rewrite Hall|split; [done|by left]]].
    split; [done|split; [apply wf_reset|]]. split; [by rewrite Hall|].
    split; [unfold dictSize in *; simpl; lia|by left].
  - destruct (wf_ht_tbl _ W0 Hn0) as (k0 & bs0 & T0).
    destruct (wf_ht_tbl _ W1 Hn1) as (k1 & bs1 & T1).
    pose proof (tbl_pow _ _ _ T0) as Hp0. rewrite (tbl_size _ _ _ T0) in Hidx.
    destruct (rehash_step d k0 bs0 k1 bs1 W T0 T1 Hidx Hu Hemp)
      as (i & b & h0 & h1 & h0' & Hlt & Hi & Hb & Hm & Hs & Hir & W' & Hp & Hz0 & Hz1).
    rewrite wrapu_small by (unlimit; lia). rewrite (proj2 (Z.leb_gt _ _)) by lia.
    rewrite Hi. simpl. rewrite Hb. simpl. rewrite Hm. simpl. rewrite Hs. simpl.
    rewrite wraps_small by (unlimit; lia).
    destruct (IH _ W') as (d' & r & E & W'' & Hp' & Hit & Hres).
    { unfold dictIsRehashing; simpl. apply negb_true_iff, Z.eqb_neq. lia. }
    exists d', r. split; [done|split; [done|split; [by rewrite Hp', Hp|split; [done|]]]].
    simpl in Hres. destruct Hres as [(?&?&?)|(?&?&?)]; [left; naive_solver congruence|right].
    split; [done|split; [done|]]. unfold rehash_left in *. simpl in *. lia.
Qed.

Lemma dictRehash_spec n d :
  wf d →
  ∃ d' r, dictRehash d n = Some (d', r) ∧ wf d' ∧ all_entries d' ≡ₚ all_entries d ∧
    d_iterators d' = d_iterators d ∧
    (dictIsRehashing d = false → d' = d).
Proof.
  intros W. unfold dictRehash. destruct (dictIsRehashing d) eqn:E; simpl.
  - destruct (dictRehash_loop_spec n d W E) as (d' & r & H1 & H2 & H3 & H4 & _).
    exists d', r. naive_solver.
  - exists d, 0. naive_solver.
Qed.

Lemma dictRehashStep_spec d :
  wf d →
  ∃ d', (if dictIsRehashing d then _dictRehashStep d else Some d) = Some d' ∧ wf d' ∧
    all_entries d' ≡ₚ all_entries d ∧
    (ht_size (d_ht0 d) ≠ 0 → ht_size (d_ht0 d') ≠ 0) ∧
    (dictIsRehashing d = false → d' = d).
Proof.
  intros W. destruct (dictIsRehashing d) eqn:E; [|exists d; naive_solver].
  unfold _dictRehashStep. destruct (d_iterators d =? 0); [|exists d; naive_solver].
  unfold dictRehash. rewrite E. simpl negb. cbv iota.
  destruct (dictRehash_loop_spec 1 d W E) as (d' & r & -> & W' & Hp & _ & Hres).
  exists d'. simpl. split; [done|split; [done|split; [done|split; [|done]]]]. intros Hz.
  destruct W as (W0 & W1 & _ & _ & [[E' _]|(Hidx & Hn0 & Hn1 & _)]).
  { unfold dictIsRehashing in E. by rewrite E' in E. }
  destruct Hres as [(_ & _ & ->)|(_ & Hre & Hl)].
  - destruct (wf_ht_tbl _ W1 Hn1) as (k1 & bs1 & T1). rewrite (tbl_size _ _ _ T1).
    pose proof (tbl_pow _ _ _ T1). lia.
  - destruct W' as (W0' & _ & _ & _ & [[E' _]|(_ & Hn0' & _)]).
    { unfold dictIsRehashing in Hre. by rewrite E' in Hre. }
    destruct (wf_ht_tbl _ W0' Hn0') as (k0 & bs0 & T0). rewrite (tbl_size _ _ _ T0).
    pose proof (tbl_pow _ _ _ T0). lia.
Qed.

(** *** Updates of one bucket *)

(** Replacing the chain [b] of a bucket by [b'], with the used counter. *)
Lemma update_bucket_wf d t k bs i b b' n :
  wf d → t = 0 ∨ t = 1 → tbl (ht d t) k bs → bucket (ht d t) i = Some b →
  (∀ e, e ∈ b' → i = hashFunction type e.1 mod 2 ^ k) →
  n = ht_used (ht d t) - Z.of_nat (length b) + Z.of_nat (length b') →
  dictSize d - Z.of_nat (length b) + Z.of_nat (length b') < 2 ^ 62 →
  (t = 0 → i < d_rehashidx d → b' = []) →
  ∃ h' rest, set_bucket (ht d t) i b' = Some h' ∧ ht_used h' = ht_used (ht d t) ∧
    all_entries d ≡ₚ b ++ rest ∧ all_entries (set_ht d t (set_used h' n)) ≡ₚ b' ++ rest ∧
    bucket (set_used h' n) i = Some b' ∧
    (NoDup (b' ++ rest).*1 → wf (set_ht d t (set_used h' n))).
Proof.
  intros (W0 & W1 & Hnd & Hsz & Hre) Ht T Hb Hpl -> Hn Hidx. unfold dictSize in *.
  pose proof (wf_ht_nonneg _ W0). pose proof (wf_ht_nonneg _ W1).
  destruct (set_bucket_tbl _ _ _ T i b b' Hb Hpl) as (h' & Hs & T' & Hu).
  pose proof Hb as Hb'. rewrite (bucket_tbl _ _ _ T) in Hb'.
  destruct (Z.leb_spec 0 i) as [Hi|]; [|done].
  destruct (concat_insert bs (Z.to_nat i) b Hb') as (l1 & l2 & Hcat & Hcat').
  set (n := ht_used _ - _ + _).
  assert (bucket (set_used h' n) i = Some b') as Hbk.
  { rewrite (bucket_tbl _ _ _ (tbl_used _ _ _ T' n)). zdec.
    apply list_lookup_insert_eq. by eapply lookup_lt_Some. }
  pose proof (entries_tbl _ _ _ T) as Eo. pose proof (entries_tbl _ _ _ (tbl_used _ _ _ T' n)) as En.
  rewrite Hcat in Eo. rewrite Hcat' in En.
  assert (n = Z.of_nat (length (concat (<[Z.to_nat i:=b']> bs)))) as Hnl.
  { subst n. rewrite Hcat', !length_app.
    assert (ht_used (ht d t) = Z.of_nat (length (entries (ht d t)))) as ->
      by (destruct Ht as [-> | ->]; apply W0 || apply W1).
    rewrite Eo, !length_app. lia. }
  assert (n < 2 ^ 62) as Hn62 by (subst n; destruct Ht as [-> | ->]; unfold ht in *; simpl in *; lia).
  assert (wf_ht (set_used h' n)) as W'
    by (eapply wf_ht_intro; [exact (tbl_used _ _ _ T' n)|reflexivity|exact Hnl|exact Hn62]).
  destruct Ht as [-> | ->].
  - unfold ht, set_ht in *; simpl in *. exists h', (l1 ++ l2 ++ entries (d_ht1 d)).
    assert (all_entries (Dict (set_used h' n) (d_ht1 d) (d_rehashidx d) (d_iterators d))
      ≡ₚ b' ++ l1 ++ l2 ++ entries (d_ht1 d)) as Hq
      by (unfold all_entries; simpl; rewrite En; solve_Permutation).
    split; [done|split; [done|]]. split; [unfold all_entries; rewrite Eo; solve_Permutation|].
    split; [done|split; [done|]]. intros Hnd'.
    split; [done|split; [done|split; [by rewrite Hq|]]].
    split; [unfold dictSize; simpl; lia|]. simpl.
    rewrite (tbl_size _ _ _ T'). destruct Hre as [?|(? & ? & ? & Hemp)]; [by left|right].
    rewrite (tbl_size _ _ _ T) in *. rewrite (tbl_table _ _ _ T').
    split; [done|split; [done|split; [done|]]]. intros x bx Hx Hbx.
    rewrite (bucket_tbl _ _ _ (tbl_used _ _ _ T' n)) in Hbx. destruct (Z.leb_spec 0 x); [|done].
    destruct (decide (x = i)) as [->|Hne].
    + rewrite list_lookup_insert_eq in Hbx by (by eapply lookup_lt_Some).
      injection Hbx as <-. by apply Hidx.
    + rewrite list_lookup_insert_ne in Hbx by lia. apply (Hemp x bx Hx).
      rewrite (bucket_tbl _ _ _ T). by zdec.
  - unfold ht, set_ht in *; simpl in *. exists h', (entries (d_ht0 d) ++ l1 ++ l2).
    assert (all_entries (Dict (d_ht0 d) (set_used h' n) (d_rehashidx d) (d_iterators d))
      ≡ₚ b' ++ entries (d_ht0 d) ++ l1 ++ l2) as Hq
      by (unfold all_entries; simpl; rewrite En; solve_Permutation).
    split; [done|split; [done|]]. split; [unfold all_entries; rewrite Eo; solve_Permutation|].
    split; [done|split; [done|]]. intros Hnd'.
    split; [done|split; [done|split; [by rewrite Hq|]]].
    split; [unfold dictSize; simpl; lia|]. simpl.
    destruct Hre as [[? Hr]|(? & ? & ? & Hemp)]; [|right; by rewrite (tbl_table _ _ _ T')].
    rewrite Hr in T. by destruct T.
Qed.

(** *** Chains *)

Lemma chain_find_Some key b i :
  chain_find key b = Some i → ∃ v, b !! i = Some (key, v).
Proof.
  revert i. induction b as [|[k v] b IH]; intros i; simpl; [done|].
  destruct (keyCompare type key k) eqn:E.
  - intros [= <-]. apply keyCompare_spec in E as ->. by exists v.
  - destruct (chain_find key b) as [j|]; simpl; [|done]. intros [= <-]. by apply IH.
Qed.

Lemma chain_find_None key b : chain_find key b = None ↔ key ∉ b.*1.
Proof.
  induction b as [|[k v] b IH]; simpl; [by split; [intros _ ?%not_elem_of_nil|]|].
  rewrite not_elem_of_cons. destruct (keyCompare type key k) eqn:E.
  - apply keyCompare_spec in E as ->. naive_solver.
  - assert (key ≠ k) by (intros Ek; apply keyCompare_spec in Ek; congruence).
    destruct (chain_find key b); simpl; naive_solver.
Qed.

(** A key is in a table when it is in the chain of its bucket. *)
Lemma key_in_bucket h k bs key b :
  tbl h k bs → bucket h (Z.land (hashFunction type key) (ht_sizemask h)) = Some b →
  key ∈ (entries h).*1 ↔ key ∈ b.*1.
Proof.
  intros T. rewrite (land_mask _ _ _ T), (bucket_tbl _ _ _ T), (entries_tbl _ _ _ T).
  pose proof (tbl_pow _ _ _ T). pose proof (Z.mod_pos_bound (hashFunction type key) (2 ^ k) ltac:(lia)).
  zdec. intros Hb. rewrite !list_elem_of_fmap. split.
  - intros (e & -> & (c & He & Hc)%elem_of_concat); exists e; split; [done|].
    apply list_elem_of_lookup in Hc as [j Hj].
    pose proof (tbl_placed _ _ _ T j c e Hj He) as Hj'.
    assert (j = Z.to_nat (hashFunction type e.1 mod 2 ^ k)) as -> by lia. congruence.
  - intros (e & -> & He). exists e. split; [done|].
    apply elem_of_concat. exists b. split; [done|by eapply list_elem_of_lookup_2].
Qed.

(** *** Expansion *)

Lemma nextPower_loop_spec fuel : ∀ j size,
  2 ≤ j ≤ 30 → size ≤ 2 ^ 30 → (Z.to_nat (30 - j) < fuel)%nat →
  ∃ k, nextPower_loop fuel (2 ^ j) size = 2 ^ k ∧ 2 ≤ k ≤ 30 ∧ size ≤ 2 ^ k ∧
    (k = j ∨ 2 ^ (k - 1) < size).
Proof.
  induction fuel as [|fuel IH]; intros j size Hj Hs Hf; [lia|].
  simpl. destruct (Z.leb_spec size (2 ^ j)); [exists j; split; [done|lia]|].
  assert (j < 30) by (destruct (decide (j = 30)) as [->|]; lia).
  assert (2 ^ j * 2 = 2 ^ (j + 1)) as -> by (rewrite Z.pow_add_r by lia; lia).
  rewrite wrapu_small by (split; [lia|apply Z.pow_lt_mono_r; lia]).
  destruct (IH (j + 1) size) as (k & -> & Hk & Hle & Hmin); [lia..|].
  exists k. split; [done|split; [lia|split; [done|]]]. right.
  destruct Hmin as [->|?]; [|done]. by replace (j + 1 - 1) with j by lia.
Qed.

Lemma nextPower_spec size :
  size ≤ 2 ^ 30 → ∃ k, _dictNextPower size = 2 ^ k ∧ 2 ≤ k ≤ 30 ∧ size ≤ 2 ^ k ∧
    (k = 2 ∨ 2 ^ (k - 1) < size).
Proof.
  intros Hs. unfold _dictNextPower. rewrite (proj2 (Z.leb_gt _ _)) by (unlimit; lia).
  change DICT_HT_INITIAL_SIZE with (2 ^ 2). apply nextPower_loop_spec; lia.
Qed.

Lemma empty_tbl k :
  2 ≤ k ≤ 30 →
  tbl (Dictht (Some (replicate (Z.to_nat (2 ^ k)) [])) (2 ^ k) (2 ^ k - 1) 0) k
      (replicate (Z.to_nat (2 ^ k)) []).
Proof.
  intros Hk. constructor; simpl; try done; [by rewrite length_replicate|].
  intros i b e [-> _]%lookup_replicate He. by apply not_elem_of_nil in He.
Qed.

Lemma concat_replicate_nil {A} n : concat (replicate n (@nil A)) = [].
Proof. by induction n. Qed.

Lemma dictExpand_spec d size :
  wf d → dictIsRehashing d = false → ht_used (d_ht0 d) ≤ size ≤ 2 ^ 30 →
  ∃ d', dictExpand d size = (d', DICT_OK) ∧ wf d' ∧ all_entries d' = all_entries d ∧
    dictSize d' = dictSize d ∧ ht_table (d_ht0 d') ≠ None.
Proof.
  intros W Hre Hs. unfold dictExpand. rewrite Hre. rewrite (proj2 (Z.ltb_ge _ _)) by lia.
  destruct (nextPower_spec size) as (k & -> & Hk & _ & _); [lia|].
  pose proof (empty_tbl k Hk) as T. set (n := Dictht _ _ _ _) in *.
  assert (entries n = []) as Hen by (rewrite (entries_tbl _ _ _ T); apply concat_replicate_nil).
  assert (wf_ht n) as Wn by (split; [by rewrite Hen|split; [done|eauto]]).
  destruct W as (W0 & W1 & Hnd & Hsz & Hreh).
  assert (d_rehashidx d = -1 ∧ d_ht1 d = _dictReset) as [Hidx Hr1].
  { destruct Hreh as [?|(Hidx & _)]; [done|]. unfold dictIsRehashing in Hre.
    apply negb_false_iff, Z.eqb_eq in Hre. lia. }
  simpl. destruct W0 as (E0 & B0 & T0). destruct (ht_table (d_ht0 d)) as [bs|] eqn:Et.
  - eexists; split; [done|].
    unfold wf, all_entries, dictSize in *; simpl in *. rewrite Hr1, Hen, Et in *. simpl in *.
    split; [|done]. split; [done|split; [done|split; [done|split; [done|right]]]].
    destruct T0 as [T0|(k0 & bs0 & T0)]; [by rewrite T0 in Et|].
    rewrite (tbl_size _ _ _ T0). pose proof (tbl_pow _ _ _ T0).
    split; [lia|split; [done|split; [done|]]]. intros; unfold bucket in *.
    destruct (Z.leb_spec 0 i); [lia|]. by destruct (ht_table (d_ht0 d)).
  - eexists; split; [done|]. destruct T0 as [T0|(k0 & bs0 & T0)]; [|by destruct T0; congruence].
    unfold wf, all_entries, dictSize in *; simpl in *. rewrite Hr1, Hen, T0 in *. simpl in *.
    split; [|done]. split; [done|split; [apply wf_reset|split; [constructor|split; [done|by left]]]].
Qed.

Lemma dictExpandIfNeeded_spec can d :
  wf d → dictSize d < 2 ^ 29 →
  ∃ d', _dictExpandIfNeeded can d = (d', DICT_OK) ∧ wf d' ∧ all_entries d' = all_entries d ∧
    dictSize d' = dictSize d ∧ ht_table (d_ht0 d') ≠ None.
Proof.
  intros W Hsz. unfold _dictExpandIfNeeded.
  assert (0 ≤ ht_used (d_ht0 d) < 2 ^ 29) as Hu.
  { unfold dictSize in Hsz. pose proof (wf_ht_nonneg _ (proj1 W)).
    pose proof (wf_ht_nonneg _ (proj1 (proj2 W))). lia. }
  destruct (dictIsRehashing d) eqn:Hre.
  { exists d. split; [done|split; [done|split; [done|split; [done|]]]].
    destruct W as (_ & _ & _ & _ & [[E _]|(_ & ? & _)]); [|done].
    unfold dictIsRehashing in Hre. by rewrite E in Hre. }
  destruct (Z.eqb_spec (ht_size (d_ht0 d)) 0) as [Hz|Hz].
  { apply dictExpand_spec; [done|done|]. unfold DICT_HT_INITIAL_SIZE.
    destruct W as ((E0 & _ & [T0|(k & bs & T)]) & _).
    - rewrite T0. simpl. lia.
    - rewrite (tbl_size _ _ _ T) in Hz. pose proof (tbl_pow _ _ _ T). lia. }
  destruct (_ && _).
  - rewrite wrapu_small by (unlimit; lia). apply dictExpand_spec; [done|done|lia].
  - exists d. split; [done|split; [done|split; [done|split; [done|]]]].
    destruct W as ((_ & _ & [T0|(k & bs & T)]) & _); [by rewrite T0 in Hz|].
    by rewrite (tbl_table _ _ _ T).
Qed.

(** *** Lookup *)

(** The tables that a lookup searches. *)
Lemma find_in_spec d t k bs key :
  tbl (ht d t) k bs →
  ∃ r, find_in d t key = Some r ∧
    match r with
    | None => key ∉ (entries (ht d t)).*1
    | Some p => de_table p = t ∧ ∃ v, entry_at d p = Some (key, v) ∧ (key, v) ∈ entries (ht d t)
    end.
Proof.
  intros T. unfold find_in. destruct (hash_bucket _ _ _ T key) as [b Hb]. rewrite Hb.
  simpl. eexists; split; [done|]. pose proof (key_in_bucket _ _ _ key b T Hb) as Hin.
  destruct (chain_find key b) as [i|] eqn:E; simpl.
  - split; [done|]. apply chain_find_Some in E as (v & Hv). exists v. unfold entry_at. simpl.
    rewrite Hb. simpl. split; [done|]. rewrite (entries_tbl _ _ _ T), elem_of_concat.
    exists b. split; [by eapply list_elem_of_lookup_2|].
    apply bucket_lookup in Hb as (bs' & Ht & _ & Hb). rewrite (tbl_table _ _ _ T) in Ht.
    injection Ht as <-. by eapply list_elem_of_lookup_2.
  - rewrite Hin. by apply chain_find_None.
Qed.

Lemma wf_tbl0 d : wf d → ht_table (d_ht0 d) ≠ None → ∃ k bs, tbl (ht d 0) k bs.
Proof. intros [W0 _] Hn. by apply wf_ht_tbl. Qed.

Lemma wf_tbl1 d : wf d → dictIsRehashing d = true → ∃ k bs, tbl (ht d 1) k bs.
Proof.
  intros (_ & W1 & _ & _ & [[E _]|(_ & _ & Hn & _)]) Hre; [|by apply wf_ht_tbl].
  unfold dictIsRehashing in Hre. by rewrite E in Hre.
Qed.

Lemma wf_not_rehashing d : wf d → dictIsRehashing d = false → entries (d_ht1 d) = [].
Proof.
  intros (_ & _ & _ & _ & [[_ ->]|(Hi & _)]) Hre; [done|].
  unfold dictIsRehashing in Hre. apply negb_false_iff, Z.eqb_eq in Hre. lia.
Qed.

Lemma size_table d : wf d → ht_size (d_ht0 d) = 0 ↔ ht_table (d_ht0 d) = None.
Proof.
  intros ((_ & _ & [-> |(k & bs & T)]) & _); [done|].
  rewrite (tbl_size _ _ _ T), (tbl_table _ _ _ T). pose proof (tbl_pow _ _ _ T). split; [lia|done].
Qed.

Lemma size_zero_entries d : wf d → ht_size (d_ht0 d) = 0 → all_entries d = [].
Proof.
  intros W Hz. pose proof (proj1 (size_table d W) Hz) as Hn.
  destruct W as (_ & _ & _ & _ & [[_ E1]|(_ & ? & _)]); [|done].
  unfold all_entries, entries. by rewrite Hn, E1.
Qed.

Lemma dictFind_spec d key :
  wf d →
  ∃ d' r, dictFind d key = Some (d', r) ∧ wf d' ∧ all_entries d' ≡ₚ all_entries d ∧
    match r with
    | None => key ∉ (all_entries d).*1
    | Some p => (de_table p = 0 ∨ de_table p = 1) ∧
        ∃ v, entry_at d' p = Some (key, v) ∧ (key, v) ∈ all_entries d
    end.
Proof.
  intros W. unfold dictFind. destruct (Z.eqb_spec (ht_size (d_ht0 d)) 0) as [Hz|Hz].
  { exists d, None. rewrite (size_zero_entries d W Hz). split; [done|split; [done|split; [done|]]].
    by apply not_elem_of_nil. }
  destruct (dictRehashStep_spec d W) as (d' & -> & W' & Hp & Hz' & _). simpl.
  assert (ht_table (d_ht0 d') ≠ None) as Hn by (rewrite <-(size_table d') by done; auto).
  destruct (wf_tbl0 d' W' Hn) as (k0 & bs0 & T0).
  destruct (find_in_spec d' 0 k0 bs0 key T0) as (r & -> & Hr). simpl.
  destruct r as [p|].
  - do 2 eexists; split; [done|split; [done|split; [done|]]].
    destruct Hr as (Ht & v & Hv & Hin). split; [by left|]. exists v. split; [done|].
    rewrite <-Hp. apply elem_of_app. by left.
  - destruct (dictIsRehashing d') eqn:Hre; simpl.
    + destruct (wf_tbl1 d' W' Hre) as (k1 & bs1 & T1).
      destruct (find_in_spec d' 1 k1 bs1 key T1) as (r & -> & Hr1). simpl.
      do 2 eexists; split; [done|split; [done|split; [done|]]].
      destruct r as [p|].
      * destruct Hr1 as (Ht & v & Hv & Hin). split; [by right|]. exists v. split; [done|].
        rewrite <-Hp. apply elem_of_app. by right.
      * rewrite <-Hp. unfold all_entries. by rewrite fmap_app, not_elem_of_app.
    + do 2 eexists; split; [done|split; [done|split; [done|]]].
      rewrite <-Hp. unfold all_entries. by rewrite (wf_not_rehashing d' W' Hre), app_nil_r.
Qed.

(** *** Insertion, update and deletion *)

(** [dictSize] counts the entries. *)
Lemma dictSize_entries d : wf d → dictSize d = Z.of_nat (length (all_entries d)).
Proof.
  intros ((E0 & _) & (E1 & _) & _). unfold dictSize, all_entries.
  rewrite E0, E1, length_app. lia.
Qed.

Lemma same_size d d' : wf d → wf d' → all_entries d' ≡ₚ all_entries d → dictSize d' = dictSize d.
Proof. intros W W' Hp. rewrite !dictSize_entries by done. by rewrite Hp. Qed.

(** The first index that insertion may use in the table being emptied. *)
Lemma insertion_table d :
  wf d → ht_table (d_ht0 d) ≠ None →
  ∃ k bs, tbl (ht d (if dictIsRehashing d then 1 else 0)) k bs.
Proof.
  intros W Hn. destruct (dictIsRehashing d) eqn:Hre; [by apply wf_tbl1|by apply wf_tbl0].
Qed.

Lemma dictKeyIndex_spec can d key :
  wf d → dictSize d < 2 ^ 29 →
  ∃ d' idx, _dictKeyIndex can d key = Some (d', idx) ∧ wf d' ∧ all_entries d' = all_entries d ∧
    ((idx = -1 ∧ key ∈ (all_entries d).*1) ∨
     (key ∉ (all_entries d).*1 ∧ ht_table (d_ht0 d') ≠ None ∧
      idx = Z.land (hashFunction type key)
              (ht_sizemask (ht d' (if dictIsRehashing d' then 1 else 0))))).
Proof.
  intros W Hsz. unfold _dictKeyIndex.
  destruct (dictExpandIfNeeded_spec can d W Hsz) as (d' & -> & W' & He & Hs & Hn). simpl.
  destruct (wf_tbl0 d' W' Hn) as (k0 & bs0 & T0).
  destruct (hash_bucket _ _ _ T0 key) as [b0 Hb0]. unfold ht in Hb0, T0. simpl in Hb0, T0.
  rewrite Hb0. simpl. pose proof (key_in_bucket _ _ _ key b0 T0 Hb0) as Hin0.
  assert (key ∈ (all_entries d).*1 ↔ key ∈ b0.*1 ∨ key ∈ (entries (d_ht1 d')).*1) as Hk.
  { rewrite <-He, <-Hin0. unfold all_entries. by rewrite fmap_app, elem_of_app. }
  clear Hin0.
  destruct (chain_find key b0) as [i|] eqn:E0.
  - do 2 eexists; split; [done|split; [done|split; [done|]]]. left. split; [done|].
    apply Hk. left. apply chain_find_Some in E0 as (v & Hv%list_elem_of_lookup_2).
    apply list_elem_of_fmap. by exists (key, v).
  - apply chain_find_None in E0. destruct (dictIsRehashing d') eqn:Hre; simpl.
    + destruct (wf_tbl1 d' W' Hre) as (k1 & bs1 & T1). unfold ht in T1; simpl in T1.
      destruct (hash_bucket _ _ _ T1 key) as [b1 Hb1]. rewrite Hb1. simpl.
      pose proof (key_in_bucket _ _ _ key b1 T1 Hb1) as Hin1.
      destruct (chain_find key b1) as [i|] eqn:E1;
        (do 2 eexists; split; [done|split; [done|split; [done|]]]).
      * left. split; [done|]. apply Hk. right. apply Hin1.
        apply chain_find_Some in E1 as (v & Hv%list_elem_of_lookup_2).
        apply list_elem_of_fmap. by exists (key, v).
      * right. apply chain_find_None in E1. rewrite Hk, Hin1, Hre. split; [tauto|done].
    + do 2 eexists; split; [done|split; [done|split; [done|]]]. right.
      rewrite Hk, (wf_not_rehashing d' W' Hre), Hre. split; [|done].
      intros [?|?%not_elem_of_nil]; done.
Qed.

Lemma dictAddRaw_spec can junk d key :
  wf d → dictSize d < 2 ^ 29 →
  ∃ d' r, dictAddRaw can junk d key = Some (d', r) ∧ wf d' ∧
    match r with
    | None => key ∈ (all_entries d).*1 ∧ all_entries d' ≡ₚ all_entries d
    | Some p => key ∉ (all_entries d).*1 ∧ all_entries d' ≡ₚ (key, junk) :: all_entries d ∧
        entry_at d' p = Some (key, junk) ∧ (de_table p = 0 ∨ de_table p = 1)
    end.
Proof.
  intros W Hsz. unfold dictAddRaw.
  destruct (dictRehashStep_spec d W) as (d1 & -> & W1 & Hp1 & _ & _). simpl.
  rewrite <-(same_size d d1 W W1 Hp1) in Hsz.
  destruct (dictKeyIndex_spec can d1 key W1 Hsz) as (d2 & idx & -> & W2 & He2 & Hidx). simpl.
  destruct Hidx as [[-> Hin]|(Hni & Hn & Hidx)].
  { exists d2, None. rewrite <-Hp1, He2. split; [done|split; [done|split; done]]. }
  destruct (insertion_table d2 W2 Hn) as (k & bs & T). set (t := if dictIsRehashing d2 then _ else _) in *.
  destruct (hash_bucket _ _ _ T key) as [b Hb]. rewrite <-Hidx in Hb.
  pose proof (tbl_pow _ _ _ T) as Hpow. rewrite (land_mask _ _ _ T) in Hidx.
  pose proof (Z.mod_pos_bound (hashFunction type key) (2 ^ k) ltac:(lia)) as Hm.
  rewrite (proj2 (Z.eqb_neq idx (-1))) by lia. rewrite Hb. simpl.
  assert (dictSize d2 < 2 ^ 29) as Hsz2 by (rewrite (same_size d1 d2) by (done || by rewrite He2); done).
  assert (t = 0 ∨ t = 1) as Ht by (subst t; destruct (dictIsRehashing d2); auto).
  pose proof (wf_ht_nonneg _ (proj1 W2)). pose proof (wf_ht_nonneg _ (proj1 (proj2 W2))).
  assert (0 ≤ ht_used (ht d2 t) < 2 ^ 29) as Hu2
    by (unfold dictSize in Hsz2; destruct Ht as [-> | ->]; unfold ht; simpl; lia).
  destruct (update_bucket_wf d2 t k bs idx b ((key, junk) :: b) (ht_used (ht d2 t) + 1) W2 Ht T Hb)
    as (h' & rest & Hs & Hu & Hpo & Hpn & Hbk & Hwf).
  - intros e [->|He]%elem_of_cons; [done|]. rewrite (bucket_tbl _ _ _ T) in Hb.
    destruct (Z.leb_spec 0 idx); [|done]. rewrite <-(tbl_placed _ _ _ T _ b e Hb He). lia.
  - simpl. lia.
  - simpl. lia.
  - intros Ht0 Hlt. destruct W2 as (_ & _ & _ & _ & [[Hi _]|(Hi & _)]); [lia|].
    subst t. unfold dictIsRehashing in Ht0. rewrite (proj2 (Z.eqb_neq _ _)) in Ht0 by lia. done.
  - rewrite Hs. simpl. rewrite Hu, wrapu_small by (unlimit; lia).
    eexists _, (Some _). split; [done|].
    assert (all_entries (set_ht d2 t (set_used h' (ht_used (ht d2 t) + 1)))
      ≡ₚ (key, junk) :: all_entries d) as Hfin
      by (rewrite Hpn, <-Hp1, <-He2, Hpo; done).
    assert (key ∉ (all_entries d).*1) as Hni' by (by rewrite <-Hp1).
    split; [|split; [done|split; [done|split; [|done]]]].
    + apply Hwf. rewrite <-Hpn, Hfin. simpl. constructor; [done|].
      rewrite <-Hp1. apply W1.
    + unfold entry_at; simpl.
      replace (ht (set_ht d2 t (set_used h' (ht_used (ht d2 t) + 1))) t)
        with (set_used h' (ht_used (ht d2 t) + 1)) by (by destruct Ht as [-> | ->]).
      by rewrite Hbk.
Qed.

(** Setting the value of an entry that a lookup returned. *)
Lemma dictSetVal_spec d p key v0 v :
  wf d → de_table p = 0 ∨ de_table p = 1 → entry_at d p = Some (key, v0) →
  ∃ d' rest, dictSetVal d p v = Some d' ∧ wf d' ∧
    all_entries d ≡ₚ (key, v0) :: rest ∧ all_entries d' ≡ₚ (key, v) :: rest.
Proof.
  intros W Ht. unfold entry_at, dictSetVal. intros (b & Hb & He)%bind_Some.
  rewrite Hb. simpl. rewrite He. simpl.
  assert (∃ k bs, tbl (ht d (de_table p)) k bs) as (k & bs & T).
  { apply bucket_lookup in Hb as (bs & Hbs & _).
    destruct W as (W0 & W1 & _).
    destruct Ht as [Ht|Ht]; rewrite Ht in Hbs |- *; apply wf_ht_tbl; try done; by rewrite Hbs. }
  pose proof (take_drop_middle b (de_pos p) (key, v0) He) as Hsplit.
  assert (<[de_pos p:=(key, v)]> b = take (de_pos p) b ++ (key, v) :: drop (S (de_pos p)) b) as Hins
    by (apply insert_take_drop; by eapply lookup_lt_Some).
  destruct (update_bucket_wf d (de_table p) k bs (de_index p) b (<[de_pos p:=(key, v)]> b)
    (ht_used (ht d (de_table p))) W Ht T Hb) as (h' & rest & Hs & Hu & Hpo & Hpn & Hbk & Hwf).
  - rewrite (bucket_tbl _ _ _ T) in Hb. destruct (Z.leb_spec 0 (de_index p)); [|done].
    intros e Hin. rewrite Hins in Hin. apply elem_of_app in Hin as [Hin|[->|Hin]%elem_of_cons].
    + rewrite <-(tbl_placed _ _ _ T _ b e Hb); [lia|]. rewrite <-Hsplit. set_solver.
    + simpl. change key with ((key, v0).1).
      rewrite <-(tbl_placed _ _ _ T _ b (key, v0) Hb); [lia|]. by eapply list_elem_of_lookup_2.
    + rewrite <-(tbl_placed _ _ _ T _ b e Hb); [lia|]. rewrite <-Hsplit. set_solver.
  - rewrite length_insert. lia.
  - rewrite length_insert. destruct W as (_ & _ & _ & ? & _). lia.
  - intros Ht0 Hlt. destruct W as (_ & _ & _ & _ & [[Hi _]|(_ & _ & _ & Hemp)]).
    + apply bucket_lookup in Hb as (_ & _ & ? & _). lia.
    + rewrite Ht0 in Hb. unfold ht in Hb; simpl in Hb. rewrite (Hemp _ _ Hlt Hb). done.
  - rewrite Hs. simpl.
    assert (set_used h' (ht_used (ht d (de_table p))) = h') as Hsame
      by (rewrite <-Hu; by destruct h').
    rewrite Hsame in *.
    exists (set_ht d (de_table p) h'), (take (de_pos p) b ++ drop (S (de_pos p)) b ++ rest).
    split; [done|]. split; [|split].
    + apply Hwf. rewrite Hins. replace (((take (de_pos p) b ++ (key, v) :: drop (S (de_pos p)) b) ++ rest).*1)
        with ((b ++ rest).*1) by (rewrite <-Hsplit at 1; by rewrite !fmap_app, !fmap_cons).
      rewrite <-Hpo. apply W.
    + rewrite Hpo. rewrite <-Hsplit at 1. solve_Permutation.
    + rewrite Hpn, Hins. solve_Permutation.
Qed.

Lemma delete_in_spec d t k bs key :
  wf d → t = 0 ∨ t = 1 → tbl (ht d t) k bs →
  ∃ r, delete_in d t key = Some r ∧
    match r with
    | None => key ∉ (entries (ht d t)).*1
    | Some d' => wf d' ∧ ∃ v, all_entries d ≡ₚ (key, v) :: all_entries d'
    end.
Proof.
  intros W Ht T. unfold delete_in. destruct (hash_bucket _ _ _ T key) as [b Hb]. rewrite Hb.
  simpl. pose proof (key_in_bucket _ _ _ key b T Hb) as Hin.
  destruct (chain_find key b) as [i|] eqn:E; simpl.
  2:{ eexists; split; [done|]. intros Hk. apply chain_find_None in E. by apply E, Hin. }
  apply chain_find_Some in E as (v & Hv).
  pose proof (take_drop_middle b i (key, v) Hv) as Hsplit.
  set (b' := take i b ++ drop (S i) b).
  assert (length b = S (length b')) as Hl
    by (rewrite <-Hsplit; subst b'; rewrite !length_app; simpl; lia).
  set (idx := Z.land (hashFunction type key) (ht_sizemask (ht d t))) in *.
  destruct (update_bucket_wf d t k bs idx b b' (ht_used (ht d t) - 1) W Ht T Hb)
    as (h' & rest & Hs & Hu & Hpo & Hpn & Hbk & Hwf).
  - rewrite (bucket_tbl _ _ _ T) in Hb. destruct (Z.leb_spec 0 idx); [|done].
    intros e Hine. rewrite <-(tbl_placed _ _ _ T _ b e Hb); [lia|].
    subst b'. rewrite <-Hsplit. apply elem_of_app in Hine as [?|?]; apply elem_of_app;
      [by left|right; by apply elem_of_cons; right].
  - lia.
  - destruct W as (_ & _ & _ & ? & _). lia.
  - intros Ht0 Hlt. destruct W as (_ & _ & _ & _ & [[Hi _]|(_ & _ & _ & Hemp)]).
    + apply bucket_lookup in Hb as (_ & _ & ? & _). lia.
    + rewrite Ht0 in Hb. unfold ht in Hb; simpl in Hb. by rewrite (Hemp _ _ Hlt Hb) in Hv.
  - rewrite Hs. simpl.
    assert (1 ≤ ht_used (ht d t) < 2 ^ 62) as Hu1.
    { assert (ht_used (ht d t) = Z.of_nat (length (entries (ht d t))) ∧ ht_used (ht d t) < 2 ^ 62)
        as [-> ?] by (destruct Ht as [-> | ->]; split; apply W).
      split; [|done]. rewrite (entries_tbl _ _ _ T).
      apply bucket_lookup in Hb as (bs' & Hbs & _ & Hb). rewrite (tbl_table _ _ _ T) in Hbs.
      injection Hbs as <-. destruct (concat_insert bs _ b Hb) as (l1 & l2 & -> & _).
      rewrite !length_app. lia. }
    rewrite Hu, wrapu_small by (unlimit; lia). eexists; split; [done|]. simpl.
    assert (all_entries d ≡ₚ (key, v) :: b' ++ rest) as Hd
      by (rewrite Hpo; rewrite <-Hsplit at 1; subst b'; solve_Permutation).
    split; [|exists v; by rewrite Hpn].
    apply Hwf. assert (NoDup ((key, v) :: b' ++ rest).*1) as Hnd
      by (rewrite <-Hd; apply W). by apply NoDup_cons in Hnd as [_ ?].
Qed.

Lemma dictGenericDelete_spec d key :
  wf d →
  ∃ d' r, dictGenericDelete d key = Some (d', r) ∧ wf d' ∧
    ((r = DICT_ERR ∧ key ∉ (all_entries d).*1 ∧ all_entries d' ≡ₚ all_entries d) ∨
     (r = DICT_OK ∧ ∃ v, all_entries d ≡ₚ (key, v) :: all_entries d')).
Proof.
  intros W. unfold dictGenericDelete. destruct (Z.eqb_spec (ht_size (d_ht0 d)) 0) as [Hz|Hz].
  { do 2 eexists; split; [done|split; [done|]]. left. rewrite (size_zero_entries d W Hz).
    split; [done|split; [apply not_elem_of_nil|done]]. }
  destruct (dictRehashStep_spec d W) as (d' & -> & W' & Hp & Hz' & _). simpl.
  assert (ht_table (d_ht0 d') ≠ None) as Hn by (rewrite <-(size_table d') by done; auto).
  destruct (wf_tbl0 d' W' Hn) as (k0 & bs0 & T0).
  destruct (delete_in_spec d' 0 k0 bs0 key W' (or_introl eq_refl) T0) as (r & -> & Hr). simpl.
  destruct r as [d''|].
  { destruct Hr as (W'' & v & Hv). do 2 eexists; split; [done|split; [done|]]. right.
    split; [done|]. exists v. by rewrite <-Hp. }
  destruct (dictIsRehashing d') eqn:Hre; simpl.
  - destruct (wf_tbl1 d' W' Hre) as (k1 & bs1 & T1).
    destruct (delete_in_spec d' 1 k1 bs1 key W' (or_intror eq_refl) T1) as (r & -> & Hr1). simpl.
    destruct r as [d''|].
    + destruct Hr1 as (W'' & v & Hv). do 2 eexists; split; [done|split; [done|]]. right.
      split; [done|]. exists v. by rewrite <-Hp.
    + do 2 eexists; split; [done|split; [done|]]. left. split; [done|split; [|done]].
      rewrite <-Hp. unfold all_entries. by rewrite fmap_app, not_elem_of_app.
  - do 2 eexists; split; [done|split; [done|]]. left. split; [done|split; [|done]].
    rewrite <-Hp. unfold all_entries. by rewrite (wf_not_rehashing d' W' Hre), app_nil_r.
Qed.

Lemma clear_loop_spec h k bs (T : tbl h k bs) fuel : ∀ i u,
  0 ≤ i → (Z.to_nat (2 ^ k - i) ≤ fuel)%nat → u < 2 ^ 62 →
  u = Z.of_nat (length (concat (drop (Z.to_nat i) bs))) →
  clear_loop fuel (set_used h u) i = Some (concat (drop (Z.to_nat i) bs)).
Proof.
  pose proof (tbl_length _ _ _ T) as Hl. pose proof (tbl_size _ _ _ T) as Hs.
  induction fuel as [|fuel IH]; intros i u Hi Hf Hu62 Hu.
  - simpl. rewrite Hs. rewrite (proj2 (Z.ltb_ge _ _)) by lia. simpl.
    by rewrite drop_ge by lia.
  - cbn [clear_loop]. cbn [ht_size ht_used set_used]. rewrite Hs.
    destruct (Z.ltb_spec i (2 ^ k)) as [Hlt|]; cbn [andb].
    2:{ by rewrite drop_ge by lia. }
    destruct (Z.ltb_spec 0 u) as [Hu0|Hu0].
    2:{ destruct (concat (drop _ _)); [done|]. simpl in Hu. lia. }
    destruct (bucket_is_Some h k bs T i) as [b Hb]; [lia|].
    pose proof Hb as Hb'. rewrite (bucket_tbl _ _ _ T) in Hb'.
    destruct (Z.leb_spec 0 i); [|done].
    rewrite (drop_S _ _ _ Hb') in Hu |- *. cbn [concat] in Hu |- *. rewrite length_app in Hu.
    replace (bucket (set_used h u) i) with (bucket h i) by done. rewrite Hb.
    cbn [mbind option_bind].
    change (set_used (set_used h u) (u64 (u - Z.of_nat (length b))))
      with (set_used h (u64 (u - Z.of_nat (length b)))).
    replace (S (Z.to_nat i)) with (Z.to_nat (i + 1)) in Hu |- * by lia.
    rewrite wrapu_small by (unlimit; lia). rewrite IH; [done|lia..].
Qed.

Lemma dictClear_spec h : wf_ht h → _dictClear h = Some (entries h, _dictReset).
Proof.
  intros (E & B & [->|(k & bs & T)]); [done|]. unfold _dictClear.
  rewrite (tbl_size _ _ _ T). pose proof (entries_tbl _ _ _ T) as Et. rewrite Et in *.
  replace h with (set_used h (ht_used h)) at 1 by (by destruct h).
  rewrite (clear_loop_spec h k bs T) with (i := 0); simpl; rewrite ?drop_0; try done; lia.
Qed.

(** ** Refinement of a finite map *)

Context `{Countable K}.

(** The map that a dictionary implements. *)
Definition dmap (d : dict) : gmap K V := list_to_map (all_entries d).

Lemma dmap_perm d d' : wf d → all_entries d' ≡ₚ all_entries d → dmap d' = dmap d.
Proof.
  intros (_ & _ & Hnd & _) Hp. unfold dmap. apply list_to_map_proper; [by rewrite Hp|done].
Qed.

Lemma dmap_cons d d' key v :
  wf d → all_entries d ≡ₚ (key, v) :: all_entries d' → dmap d = <[key := v]> (dmap d').
Proof.
  intros (_ & _ & Hnd & _) Hp. unfold dmap.
  rewrite (list_to_map_proper (M := gmap K) (all_entries d) _ Hnd Hp). done.
Qed.

Lemma dmap_Some d key v : wf d → (key, v) ∈ all_entries d → dmap d !! key = Some v.
Proof. intros (_ & _ & Hnd & _) Hin. by apply elem_of_list_to_map_1. Qed.

Lemma dmap_None d key : key ∉ (all_entries d).*1 → dmap d !! key = None.
Proof. apply not_elem_of_list_to_map_1. Qed.

Lemma dmap_key d key : key ∈ (all_entries d).*1 → is_Some (dmap d !! key).
Proof.
  intros Hin. destruct (dmap d !! key) eqn:E; [by eexists|].
  by apply not_elem_of_list_to_map_2 in E.
Qed.

(** [dictSize] is the size of the map. *)
Lemma dictSize_dmap d : wf d → dictSize d = Z.of_nat (size (dmap d)).
Proof.
  intros W. rewrite dictSize_entries by done. unfold dmap.
  rewrite map_size_list_to_map; [done|apply W].
Qed.

Lemma dictAdd_spec can junk d key val :
  wf d → dictSize d < 2 ^ 29 →
  ∃ d' r, dictAdd can junk d key val = Some (d', r) ∧ wf d' ∧
    ((r = DICT_ERR ∧ key ∈ (all_entries d).*1 ∧ all_entries d' ≡ₚ all_entries d) ∨
     (r = DICT_OK ∧ key ∉ (all_entries d).*1 ∧ all_entries d' ≡ₚ (key, val) :: all_entries d)).
Proof.
  intros W Hsz. unfold dictAdd.
  destruct (dictAddRaw_spec can junk d key W Hsz) as (d1 & r & -> & W1 & Hr). simpl.
  destruct r as [p|].
  - destruct Hr as (Hni & Hp & He & Ht).
    destruct (dictSetVal_spec d1 p key junk val W1 Ht He) as (d2 & rest & -> & W2 & Ho & Hn).
    simpl. do 2 eexists; split; [done|split; [done|]]. right. split; [done|split; [done|]].
    rewrite Hn. apply perm_skip. rewrite Hp in Ho. by apply Permutation_cons_inv in Ho.
  - do 2 eexists; split; [done|split; [done|]]. left. naive_solver.
Qed.

(** C26. dictAdd is insertion without overwriting in the map of the dictionary,
    in any state of an incremental rehashing (each call moves one more bucket
    and may start a new expansion): it fails with DICT_ERR exactly when the key
    is there, and the map is then unchanged.  The result is well formed, so
    every entry is still in the bucket of its hash. *)
Theorem dictAdd_refines can junk d key val :
  wf d → dictSize d < 2 ^ 29 →
  ∃ d', wf d' ∧
    match dmap d !! key with
    | Some _ => dictAdd can junk d key val = Some (d', DICT_ERR) ∧ dmap d' = dmap d
    | None => dictAdd can junk d key val = Some (d', DICT_OK) ∧ dmap d' = <[key := val]> (dmap d)
    end.
Proof.
  intros W Hsz. destruct (dictAdd_spec can junk d key val W Hsz) as (d' & r & -> & W' & Hr).
  exists d'. split; [done|]. destruct Hr as [(-> & Hin & Hp)|(-> & Hin & Hp)].
  - destruct (dmap_key d key Hin) as [v ->]. split; [done|by apply dmap_perm].
  - rewrite (dmap_None d key Hin). split; [done|]. by apply dmap_cons.
Qed.

Lemma dictReplace_map can junk d key val :
  wf d → dictSize d < 2 ^ 29 →
  ∃ d', dictReplace can junk d key val =
      Some (d', if decide (is_Some (dmap d !! key)) then 0 else 1) ∧
    wf d' ∧ dmap d' = <[key := val]> (dmap d).
Proof.
  intros W Hsz. unfold dictReplace.
  destruct (dictAdd_spec can junk d key val W Hsz) as (d1 & r & -> & W1 & Hr). simpl.
  destruct Hr as [(-> & Hin & Hp)|(-> & Hin & Hp)]; simpl.
  - rewrite decide_True by (by apply dmap_key).
    destruct (dictFind_spec d1 key W1) as (d2 & r & -> & W2 & Hp2 & Hr). simpl.
    destruct r as [p|]; [|by rewrite Hp in Hr]. destruct Hr as (Ht & v & Hv & _). simpl.
    destruct (dictSetVal_spec d2 p key v val W2 Ht Hv) as (d3 & rest & -> & W3 & Ho & Hn).
    exists d3. split; [done|split; [done|]].
    rewrite <-(dmap_perm d d1 W Hp), <-(dmap_perm d1 d2 W1 Hp2). unfold dmap.
    rewrite (list_to_map_proper (M := gmap K) (all_entries d2) _ ltac:(apply W2) Ho).
    rewrite (list_to_map_proper (M := gmap K) (all_entries d3) _ ltac:(apply W3) Hn). simpl.
    by rewrite insert_insert_eq.
  - rewrite decide_False by (rewrite (dmap_None d key Hin); by intros [? ?]).
    exists d1. split; [done|split; [done|]]. by apply dmap_cons.
Qed.

(** dictReplace always leaves the new value under the key, whatever the
    state of the rehashing, returns 1 exactly when the key is new, and changes
    no other binding. *)
Theorem dictReplace_refines can junk d key val :
  wf d → dictSize d < 2 ^ 29 →
  ∃ d', dictReplace can junk d key val =
      Some (d', if decide (is_Some (dmap d !! key)) then 0 else 1) ∧
    wf d' ∧ dmap d' = <[key := val]> (dmap d).
Proof. apply dictReplace_map. Qed.

Lemma dictGenericDelete_map d key :
  wf d →
  ∃ d', dictGenericDelete d key =
      Some (d', if decide (is_Some (dmap d !! key)) then DICT_OK else DICT_ERR) ∧
    wf d' ∧ dmap d' = delete key (dmap d) ∧
    dictSize d' = Z.of_nat (size (delete key (dmap d))).
Proof.
  intros W. destruct (dictGenericDelete_spec d key W) as (d' & r & -> & W' & Hr).
  exists d'. assert (r = (if decide (is_Some (dmap d !! key)) then DICT_OK else DICT_ERR) ∧
    dmap d' = delete key (dmap d)) as [<- Hd].
  { destruct Hr as [(-> & Hin & Hp)|(-> & v & Hp)].
    - rewrite (dmap_None d key Hin), decide_False by (by intros [? ?]). split; [done|].
      rewrite (dmap_perm d d' W Hp), delete_id; [done|]. by apply dmap_None.
    - rewrite (dmap_cons d d' key v W Hp), decide_True by (rewrite lookup_insert_eq; eauto).
      split; [done|]. rewrite delete_insert_id; [done|].
      apply dmap_None. assert (NoDup ((key, v) :: all_entries d').*1) as Hnd
        by (rewrite <-Hp; apply W). by apply NoDup_cons in Hnd as [? _]. }
  split; [done|split; [done|split; [done|]]]. rewrite <-Hd. by apply dictSize_dmap.
Qed.

(** C27. dictDelete and dictDeleteNoFree remove the binding of the key, whatever
    the state of the rehashing, and fail exactly when there is none. *)
Theorem dictDelete_refines d key :
  wf d →
  ∃ d', dictGenericDelete d key =
      Some (d', if decide (is_Some (dmap d !! key)) then DICT_OK else DICT_ERR) ∧
    wf d' ∧ dmap d' = delete key (dmap d) ∧
    dictSize d' = Z.of_nat (size (delete key (dmap d))).
Proof. apply dictGenericDelete_map. Qed.

(** dictFetchValue and dictFind answer the lookup of the map, in any state
    of the rehashing, and the rehashing step they take does not change it. *)
Theorem dictFetchValue_refines d key :
  wf d →
  ∃ d', dictFetchValue d key = Some (d', dmap d !! key) ∧ wf d' ∧ dmap d' = dmap d.
Proof.
  intros W. unfold dictFetchValue.
  destruct (dictFind_spec d key W) as (d' & r & -> & W' & Hp & Hr). simpl.
  exists d'. destruct r as [p|].
  - destruct Hr as (_ & v & Hv & Hin). rewrite Hv. simpl.
    rewrite (dmap_Some d key v W Hin). split; [done|split; [done|by apply dmap_perm]].
  - rewrite (dmap_None d key Hr). split; [done|split; [done|by apply dmap_perm]].
Qed.

(** C28. Incremental rehashing: dictRehash of any number of steps keeps the map
    and the invariant, and as many steps as there are buckets left, and one more
    step, finish it: the dictionary then has the one table that was
    prepared. *)
Theorem dictRehash_terminates d n :
  wf d →
  ∃ d' r, dictRehash d n = Some (d', r) ∧ wf d' ∧ dmap d' = dmap d ∧
    (dictIsRehashing d = true →
     (r = 0 ↔ dictIsRehashing d' = false) ∧
     (r = 0 → ht_size (d_ht0 d') = ht_size (d_ht1 d)) ∧
     (rehash_left d < Z.of_nat n → r = 0)).
Proof.
  intros W. unfold dictRehash. destruct (dictIsRehashing d) eqn:Hre; simpl.
  - destruct (dictRehash_loop_spec n d W Hre) as (d' & r & -> & W' & Hp & _ & Hres).
    exists d', r. split; [done|split; [done|split; [by apply dmap_perm|intros _]]].
    destruct Hres as [(-> & -> & Hs)|(-> & -> & Hl)]; [done|].
    split; [done|split; [done|]]. lia.
  - exists d, 0. done.
Qed.

(** dictEmpty frees every entry exactly once and leaves an empty
    dictionary that is not rehashing. *)
Theorem dictEmpty_frees_all d :
  wf d →
  ∃ freed, dictEmpty d = Some (freed, dictCreate) ∧ freed = all_entries d ∧
    NoDup freed.*1 ∧ list_to_map freed = dmap d ∧ wf dictCreate ∧ dmap dictCreate = ∅.
Proof.
  intros (W0 & W1 & Hnd & _). unfold dictEmpty.
  rewrite (dictClear_spec _ W0), (dictClear_spec _ W1). simpl.
  eexists; split; [done|]. split; [done|split; [done|split; [done|]]].
  split; [|done]. split; [apply wf_reset|split; [apply wf_reset|]].
  split; [constructor|split; [done|by left]].
Qed.

(** ** Scan *)

Lemma land_not32 x k : 0 ≤ k → 0 ≤ x < 2 ^ 32 → Z.land x (not32 (2 ^ k - 1)) = x / 2 ^ k * 2 ^ k.
Proof.
  intros Hk Hx. rewrite <-ldiff_ones by done. unfold not32. rewrite !ones_mask.
  apply Z.bits_inj'. intros i Hi. rewrite Z.land_spec, Z.ldiff_spec, Z.lxor_spec.
  destruct (decide (i < 32)).
  - rewrite (Z.ones_spec_low 32) by lia. by rewrite xorb_true_r.
  - rewrite <-(Z.mod_small x (2 ^ 32)) by done. rewrite Z.mod_pow2_bits_high by lia. done.
Qed.

Lemma land_mask_diff v k0 k1 : 0 ≤ k0 ≤ k1 →
  Z.land v (Z.lxor (2 ^ k0 - 1) (2 ^ k1 - 1)) = (v mod 2 ^ k1) / 2 ^ k0 * 2 ^ k0.
Proof.
  intros Hk. rewrite <-ldiff_ones, <-land_mask_mod by lia. rewrite !ones_mask.
  apply Z.bits_inj'. intros i Hi. rewrite Z.ldiff_spec, !Z.land_spec, Z.lxor_spec.
  rewrite !Z.testbit_ones_nonneg by lia.
  destruct (Z.ltb_spec i k0), (Z.ltb_spec i k1); try lia; simpl; by rewrite ?andb_true_r, ?andb_false_r.
Qed.

(** One stage of rev swaps the blocks of [s] bits. *)
Definition rev_stage (s mask v : Z) : Z :=
  Z.lor (Z.land (Z.shiftr v s) mask)
        (Z.land (u32 (Z.shiftl v s)) (Z.lxor mask (2 ^ 32 - 1))).
Definition rev_stages : list (Z * Z) :=
  [(16, 65535); (8, 16711935); (4, 252645135); (2, 858993459); (1, 1431655765)].

(** Case analysis on a bit index below 32. *)
Tactic Notation "bit32" constr(i) "by" tactic3(t) :=
  let n := fresh "n" in
  replace i with (Z.of_nat (Z.to_nat i)) by lia;
  assert (Z.to_nat i < 32)%nat as Hn by lia; revert Hn; generalize (Z.to_nat i); intros n Hn;
  do 32 (destruct n as [|n]; [solve [t]|]); lia.

(** Evaluates the bits of constants. *)
Ltac eval_bits :=
  repeat match goal with
  | |- context [ Z.testbit ?x (?f ?y ?z) ] =>
      let j := eval vm_compute in (f y z) in change (f y z) with j
  | |- context [ Z.testbit ?x (Z.of_nat ?y) ] =>
      let j := eval vm_compute in (Z.of_nat y) in change (Z.of_nat y) with j
  | |- context [ Z.testbit (Zpos ?x) ?y ] =>
      let b := eval vm_compute in (Z.testbit (Zpos x) y) in change (Z.testbit (Zpos x) y) with b
  | |- context [ Z.testbit (?f ?x ?y) ?j ] =>
      let b := eval vm_compute in (Z.testbit (f x y) j) in
      match b with true => idtac | false => idtac end; change (Z.testbit (f x y) j) with b
  end;
  cbn [xorb]; rewrite ?andb_true_r, ?andb_false_r, ?orb_false_r, ?orb_false_l; try reflexivity.

Lemma lxor_stage i s mask : 0 ≤ i < 32 → In (s, mask) rev_stages → 0 ≤ Z.lxor i s < 32.
Proof.
  intros Hi Hs. simpl in Hs.
  destruct Hs as [[= <- _]|[[= <- _]|[[= <- _]|[[= <- _]|[[= <- _]|[]]]]]]; bit32 i by (vm_compute; intuition discriminate).
Qed.

Lemma rev_stage_testbit s mask v i :
  In (s, mask) rev_stages → 0 ≤ i < 32 →
  Z.testbit (rev_stage s mask v) i = Z.testbit v (Z.lxor i s).
Proof.
  intros Hs Hi. unfold rev_stage. rewrite Z.lor_spec, !Z.land_spec, Z.lxor_spec. unfold wrapu.
  rewrite Z.mod_pow2_bits_low, Z.shiftr_spec, Z.shiftl_spec by lia. simpl in Hs.
  destruct Hs as [[= <- <-]|[[= <- <-]|[[= <- <-]|[[= <- <-]|[[= <- <-]|[]]]]]]; bit32 i by eval_bits.
Qed.

Lemma bits_lt x n : 0 ≤ n → 0 ≤ x → (∀ i, n ≤ i → Z.testbit x i = false) → x < 2 ^ n.
Proof.
  intros Hn Hx Hb. assert (x = x mod 2 ^ n) as ->.
  { apply Z.bits_inj'. intros i Hi. destruct (decide (i < n)).
    - by rewrite Z.mod_pow2_bits_low by lia.
    - rewrite Z.mod_pow2_bits_high by lia. apply Hb. lia. }
  apply Z.mod_pos_bound. lia.
Qed.

Lemma rev_stage_range s mask v : 0 ≤ v → 0 ≤ s → 0 ≤ mask < 2 ^ 32 → 0 ≤ rev_stage s mask v < 2 ^ 32.
Proof.
  intros Hv Hs Hm. assert (0 ≤ rev_stage s mask v).
  { unfold rev_stage. apply Z.lor_nonneg. split; apply Z.land_nonneg; [by right; lia|].
    left. apply wrapu_range. lia. }
  split; [done|]. apply bits_lt; [lia|done|]. intros i Hi. unfold rev_stage.
  rewrite Z.lor_spec, !Z.land_spec. unfold wrapu. rewrite Z.mod_pow2_bits_high by lia.
  rewrite <-(Z.mod_small mask (2 ^ 32)) by done. rewrite Z.mod_pow2_bits_high by lia.
  by rewrite andb_false_r.
Qed.

Lemma rev_unfold v :
  rev v = rev_stage 1 1431655765 (rev_stage 2 858993459 (rev_stage 4 252645135
           (rev_stage 8 16711935 (rev_stage 16 65535 v)))).
Proof. reflexivity. Qed.

Lemma rev_testbit v i : 0 ≤ i < 32 → Z.testbit (rev v) i = Z.testbit v (31 - i).
Proof.
  intros Hi. rewrite rev_unfold. 
  do 5 (erewrite rev_stage_testbit; [|simpl; tauto|
    repeat (eapply lxor_stage; [|simpl; tauto]); lia]).
  f_equal. bit32 i by (vm_compute; reflexivity).
Qed.

Lemma rev_range v : 0 ≤ v → 0 ≤ rev v < 2 ^ 32.
Proof. intros. rewrite rev_unfold. repeat (apply rev_stage_range; [|lia..]). done. Qed.

Lemma rev_involutive v : 0 ≤ v < 2 ^ 32 → rev (rev v) = v.
Proof.
  intros Hv. pose proof (rev_range v ltac:(lia)). pose proof (rev_range (rev v) ltac:(lia)).
  apply Z.bits_inj'. intros i Hi. destruct (decide (i < 32)).
  - rewrite !rev_testbit by lia. f_equal. lia.
  - rewrite <-(Z.mod_small v (2 ^ 32)), <-(Z.mod_small (rev (rev _)) (2 ^ 32)) by
      (done || (rewrite Z.mod_small; done)).
    by rewrite !Z.mod_pow2_bits_high by lia.
Qed.

(** The bucket of a hash in a table of [2 ^ k] buckets is the high bits of its reversal. *)
Lemma rev_high x y k : 0 ≤ k ≤ 32 → 0 ≤ x → 0 ≤ y →
  x mod 2 ^ k = y mod 2 ^ k ↔ rev x / 2 ^ (32 - k) = rev y / 2 ^ (32 - k).
Proof.
  intros Hk Hx Hy. pose proof (rev_range x Hx). pose proof (rev_range y Hy). split; intros E.
  - apply Z.bits_inj'. intros i Hi. rewrite !Z.div_pow2_bits by lia.
    destruct (decide (i < k)).
    + rewrite !rev_testbit by lia.
      rewrite <-(Z.mod_pow2_bits_low x k), <-(Z.mod_pow2_bits_low y k) by lia. by rewrite E.
    + rewrite <-(Z.mod_small (rev x) (2 ^ 32)), <-(Z.mod_small (rev y) (2 ^ 32)) by done.
      by rewrite !Z.mod_pow2_bits_high by lia.
  - apply Z.bits_inj'. intros i Hi. destruct (decide (i < k)).
    + rewrite !Z.mod_pow2_bits_low by lia.
      replace i with (31 - (31 - i)) by lia. rewrite <-(rev_testbit x), <-(rev_testbit y) by lia.
      replace (31 - i) with ((k - 1 - i) + (32 - k)) by lia.
      rewrite <-(Z.div_pow2_bits (rev x)), <-(Z.div_pow2_bits (rev y)) by lia. by rewrite E.
    + by rewrite !Z.mod_pow2_bits_high by lia.
Qed.

(** The reversed cursor after the increment. *)
Lemma rev_next v k : 0 ≤ k ≤ 32 → 0 ≤ v < 2 ^ 32 →
  rev (Z.lor v (not32 (2 ^ k - 1))) =
  rev v / 2 ^ (32 - k) * 2 ^ (32 - k) + (2 ^ (32 - k) - 1).
Proof.
  intros Hk Hv. rewrite <-lor_ones by lia. rewrite (ones_mask (32 - k)).
  assert (0 ≤ Z.lor v (not32 (2 ^ k - 1))) as Hn.
  { apply Z.lor_nonneg. split; [lia|]. unfold not32. apply Z.lxor_nonneg. split; [lia|].
    intros _. pose proof (Z.pow_pos_nonneg 2 k). lia. }
  pose proof (rev_range _ Hn). pose proof (rev_range v ltac:(lia)).
  apply Z.bits_inj'. intros i Hi. destruct (decide (i < 32)).
  - rewrite rev_testbit, !Z.lor_spec, rev_testbit by lia. f_equal. unfold not32.
    rewrite Z.lxor_spec, !ones_mask, !Z.testbit_ones_nonneg by lia.
    destruct (Z.ltb_spec (31 - i) k), (Z.ltb_spec (31 - i) 32), (Z.ltb_spec i (32 - k)); done || lia.
  - rewrite Z.lor_spec, Z.ones_spec_high by lia.
    rewrite <-(Z.mod_small (rev v) (2 ^ 32)) by done.
    rewrite <-(Z.mod_small (rev _) (2 ^ 32)) at 1 by done.
    by rewrite !Z.mod_pow2_bits_high by lia.
Qed.

Lemma div_mod_pow x k0 k1 : 0 ≤ k0 ≤ k1 →
  (x mod 2 ^ k1) / 2 ^ k0 = (x / 2 ^ k0) mod 2 ^ (k1 - k0).
Proof.
  intros Hk. rewrite <-!Z.shiftr_div_pow2, <-!Z.land_ones by lia.
  rewrite Z.shiftr_land. f_equal. apply Z.bits_inj'. intros i Hi.
  rewrite Z.shiftr_spec, !Z.testbit_ones_nonneg by lia.
  destruct (Z.ltb_spec (i + k0) k1), (Z.ltb_spec i (k1 - k0)); done || lia.
Qed.

Lemma mod_pow_mod x k0 k1 : 0 ≤ k0 ≤ k1 → (x mod 2 ^ k1) mod 2 ^ k0 = x mod 2 ^ k0.
Proof.
  intros Hk. apply Z.bits_inj'. intros i Hi. destruct (decide (i < k0)).
  - by rewrite !Z.mod_pow2_bits_low by lia.
  - by rewrite !Z.mod_pow2_bits_high by lia.
Qed.

(** The increment of the bits that the smaller mask does not cover. *)
Lemma expansion_next v k0 k1 : 0 ≤ k0 ≤ k1 → k1 ≤ 32 → 0 ≤ v < 2 ^ 32 →
  let m0 := 2 ^ k0 - 1 in
  let v' := Z.lor (Z.land (u32 (Z.lor v m0 + 1)) (not32 m0)) (Z.land v m0) in
  0 ≤ v' < 2 ^ 32 ∧ v' mod 2 ^ k0 = v mod 2 ^ k0 ∧
  (v' mod 2 ^ k1) / 2 ^ k0 = ((v mod 2 ^ k1) / 2 ^ k0 + 1) mod 2 ^ (k1 - k0).
Proof.
  intros Hk Hk1 Hv m0 v'. subst m0.
  pose proof (Z.pow_pos_nonneg 2 k0). pose proof (Z.pow_pos_nonneg 2 (32 - k0)).
  pose proof (Z.pow_pos_nonneg 2 (k1 - k0)).
  assert (2 ^ 32 = 2 ^ k0 * 2 ^ (32 - k0)) as E32 by (rewrite <-Z.pow_add_r by lia; f_equal; lia).
  pose proof (Z.mod_pos_bound v (2 ^ k0) ltac:(lia)).
  set (w := (v / 2 ^ k0 + 1) mod 2 ^ (32 - k0)).
  assert (v' = w * 2 ^ k0 + v mod 2 ^ k0) as E.
  { subst v'. rewrite lor_ones, land_mask_mod by lia.
    rewrite land_not32 by (try apply wrapu_range; lia).
    rewrite lor_disjoint by lia. f_equal. f_equal. subst w. unfold wrapu.
    replace (v / 2 ^ k0 * 2 ^ k0 + (2 ^ k0 - 1) + 1) with ((v / 2 ^ k0 + 1) * 2 ^ k0) by lia.
    rewrite E32, (Z.mul_comm (2 ^ k0)), Z.mul_mod_distr_r by lia. by rewrite Z.div_mul by lia. }
  pose proof (Z.mod_pos_bound (v / 2 ^ k0 + 1) (2 ^ (32 - k0)) ltac:(lia)) as Hw. fold w in Hw.
  split; [rewrite E, E32; nia|]. split.
  - rewrite E, Z.add_comm, Z_mod_plus_full. apply Z.mod_mod. lia.
  - rewrite !div_mod_pow by lia. rewrite E, Z.div_add_l by lia.
    rewrite (Z.div_small (v mod 2 ^ k0)), Z.add_0_r by lia. subst w.
    rewrite mod_pow_mod by lia. by rewrite Zplus_mod_idemp_l.
Qed.

(** The chain of a bucket holds the entries whose hash selects it. *)
Lemma bucket_entries h k bs x b e (T : tbl h k bs) :
  bucket h (x mod 2 ^ k) = Some b →
  e ∈ b ↔ e ∈ entries h ∧ hashFunction type e.1 mod 2 ^ k = x mod 2 ^ k.
Proof.
  intros Hb. pose proof (tbl_pow _ _ _ T). pose proof (Z.mod_pos_bound x (2 ^ k) ltac:(lia)).
  rewrite (bucket_tbl _ _ _ T), (proj2 (Z.leb_le _ _)) in Hb by lia.
  rewrite (entries_tbl _ _ _ T), elem_of_concat. split.
  - intros He. pose proof (tbl_placed _ _ _ T _ b e Hb He). split; [|lia].
    exists b. split; [done|by eapply list_elem_of_lookup_2].
  - intros [(c & He & Hc)%id Hm]. apply list_elem_of_lookup in Hc as [j Hj].
    pose proof (tbl_placed _ _ _ T j c e Hj He) as Hp. rewrite Hm in Hp.
    rewrite <-Hp, Nat2Z.id in Hb. congruence.
Qed.

Lemma scan_expansions_spec t1 k0 k1 bs (T : tbl t1 k1 bs) : 0 ≤ k0 ≤ k1 →
  ∀ fuel v, 0 ≤ v < 2 ^ 32 →
  (Z.to_nat (2 ^ (k1 - k0) - (v mod 2 ^ k1) / 2 ^ k0) ≤ fuel)%nat →
  ∃ es v', scan_expansions fuel t1 (2 ^ k0 - 1) (2 ^ k1 - 1) v = Some (es, v') ∧
    0 ≤ v' < 2 ^ 32 ∧ v' mod 2 ^ k0 = v mod 2 ^ k0 ∧ (∀ e, e ∈ es → e ∈ entries t1) ∧
    ∀ e, e ∈ entries t1 → hashFunction type e.1 mod 2 ^ k0 = v mod 2 ^ k0 →
      (v mod 2 ^ k1) / 2 ^ k0 ≤ (hashFunction type e.1 mod 2 ^ k1) / 2 ^ k0 → e ∈ es.
Proof.
  intros Hk. pose proof (tbl_k _ _ _ T) as Hk1.
  assert (∀ x, 0 ≤ (x mod 2 ^ k1) / 2 ^ k0 < 2 ^ (k1 - k0)) as Ha.
  { intros x. rewrite div_mod_pow by lia. apply Z.mod_pos_bound. lia. }
  induction fuel as [|fuel IH]; intros v Hv Hf; [pose proof (Ha v); lia|].
  cbn [scan_expansions]. rewrite (land_mask_mod v k1) by lia.
  destruct (bucket_is_Some t1 k1 bs T (v mod 2 ^ k1)) as [b Hb]; [apply Z.mod_pos_bound; lia|].
  rewrite Hb. cbn [mbind option_bind]. rewrite land_mask_diff by lia.
  pose proof (expansion_next v k0 k1 Hk ltac:(lia) Hv) as Hn. cbv zeta in Hn.
  set (v1 := Z.lor _ _) in *. destruct Hn as (Hv1 & Hc1 & Ha1). rewrite Ha1.
  assert (∀ e, e ∈ b → e ∈ entries t1) as Hbe.
  { intros e He. by apply (bucket_entries t1 k1 bs v b e T Hb) in He as [? _]. }
  assert (∀ e, e ∈ entries t1 → hashFunction type e.1 mod 2 ^ k0 = v mod 2 ^ k0 →
    (hashFunction type e.1 mod 2 ^ k1) / 2 ^ k0 = (v mod 2 ^ k1) / 2 ^ k0 → e ∈ b) as Hin.
  { intros e He Hc Hq. apply (bucket_entries t1 k1 bs v b e T Hb). split; [done|].
    rewrite <-(mod_pow_mod _ k0 k1), <-(mod_pow_mod v k0 k1) in Hc by lia.
    rewrite (Z.div_mod (hashFunction type e.1 mod 2 ^ k1) (2 ^ k0)),
      (Z.div_mod (v mod 2 ^ k1) (2 ^ k0)) by (apply Z.pow_nonzero; lia). by rewrite Hc, Hq. }
  pose proof (Z.pow_pos_nonneg 2 k0). pose proof (Ha v) as Hav.
  destruct (decide ((v mod 2 ^ k1) / 2 ^ k0 + 1 = 2 ^ (k1 - k0))) as [Hl|Hl].
  - rewrite Hl, Z_mod_same_full. cbn [Z.mul Z.eqb]. do 2 eexists; split; [done|].
    split; [done|split; [done|split; [done|]]]. intros e He Hc Hq. apply Hin; [done|done|].
    pose proof (Ha (hashFunction type e.1)). lia.
  - rewrite (Z.mod_small (_ + 1) (2 ^ (k1 - k0))) in Ha1 |- * by lia.
    rewrite (proj2 (Z.eqb_neq _ _)) by nia.
    destruct (IH v1 Hv1) as (es & v' & -> & Hv' & Hc' & Hsub & Hcov); [lia|].
    cbn [mbind option_bind]. do 2 eexists; split; [done|]. split; [done|split; [congruence|]].
    split; [intros e [?|?]%elem_of_app; auto|].
    intros e He Hc Hq. apply elem_of_app. destruct (decide
      ((hashFunction type e.1 mod 2 ^ k1) / 2 ^ k0 = (v mod 2 ^ k1) / 2 ^ k0)).
    + left. by apply Hin.
    + right. apply Hcov; [done|congruence|lia].
Qed.

(** The size of the table whose buckets a scan step visits. *)
Definition scan_size (d : dict) : Z :=
  if dictIsRehashing d then Z.min (ht_size (d_ht0 d)) (ht_size (d_ht1 d)) else ht_size (d_ht0 d).

(** The step of the cursor, as an addition to its reversal. *)
Lemma cursor_step v v1 k : 0 ≤ k ≤ 30 → 0 ≤ v < 2 ^ 32 → 0 ≤ v1 < 2 ^ 32 →
  v1 mod 2 ^ k = v mod 2 ^ k →
  let v' := rev (u32 (rev (Z.lor v1 (not32 (2 ^ k - 1))) + 1)) in
  0 ≤ v' < 2 ^ k ∧ (v' = 0 ∨ rev v < rev v') ∧
  ∀ h, 0 ≤ h → rev v ≤ rev h → v' = 0 ∨ rev h < rev v' → h mod 2 ^ k = v mod 2 ^ k.
Proof.
  intros Hk Hv Hv1 Hm v'. pose proof (rev_range v ltac:(lia)) as Hr.
  pose proof (Z.pow_pos_nonneg 2 k). pose proof (Z.pow_pos_nonneg 2 (32 - k)).
  assert (2 ^ 32 = 2 ^ k * 2 ^ (32 - k)) as E32 by (rewrite <-Z.pow_add_r by lia; f_equal; lia).
  assert (rev v' = u32 ((rev v / 2 ^ (32 - k) + 1) * 2 ^ (32 - k))) as Hv'.
  { subst v'. rewrite rev_involutive by (apply wrapu_range; lia). rewrite rev_next by lia.
    rewrite (proj1 (rev_high v1 v k ltac:(lia) ltac:(lia) ltac:(lia)) Hm). f_equal. lia. }
  assert (0 ≤ v' < 2 ^ 32) as Hvr by (apply rev_range, wrapu_range; lia).
  set (q := rev v / 2 ^ (32 - k)) in *.
  assert (0 ≤ q < 2 ^ k) as Hq.
  { subst q. split; [apply Z.div_pos; lia|]. apply Z.div_lt_upper_bound; lia. }
  assert (q * 2 ^ (32 - k) ≤ rev v < (q + 1) * 2 ^ (32 - k)) as Hqv.
  { pose proof (Z.div_mod (rev v) (2 ^ (32 - k)) ltac:(lia)) as D.
    pose proof (Z.mod_pos_bound (rev v) (2 ^ (32 - k)) ltac:(lia)). fold q in D. nia. }
  assert ((v' = 0 ∧ q + 1 = 2 ^ k) ∨ (rev v' = (q + 1) * 2 ^ (32 - k))) as Hcase.
  { destruct (decide (q + 1 = 2 ^ k)) as [Hl|Hl].
    - left. split; [|done]. rewrite <-(rev_involutive v') by done.
      rewrite Hv', Hl. unfold wrapu. rewrite E32, Z_mod_same_full. reflexivity.
    - right. rewrite Hv'. apply wrapu_small. nia. }
  split; [|split].
  - split; [lia|]. apply bits_lt; [lia|lia|]. intros i Hi.
    destruct (decide (i < 32)).
    + rewrite <-(rev_involutive v') by done. rewrite rev_testbit by lia. rewrite Hv'.
      unfold wrapu. rewrite Z.mod_pow2_bits_low by lia. apply Z.mul_pow2_bits_low. lia.
    + rewrite <-(Z.mod_small v' (2 ^ 32)) by done. by apply Z.mod_pow2_bits_high; lia.
  - destruct Hcase as [[? _]|Hc]; [by left|right]. lia.
  - intros h Hh Hle Hlt. apply rev_high; [lia..|]. fold q. symmetry.
    pose proof (rev_range h Hh). apply Z.div_unique with (rev h - q * 2 ^ (32 - k)); [left|lia].
    split; [lia|]. destruct Hcase as [[_ Hl]|Hc].
    + nia.
    + destruct Hlt as [Hz|?]; [|nia]. rewrite Hz in Hc. change (rev 0) with 0 in Hc. nia.
Qed.

(** The buckets that a step visits. *)
Lemma scan_rehashing d t0 t1 k0 k1 bs0 bs1 v :
  tbl t0 k0 bs0 → tbl t1 k1 bs1 → k0 ≤ k1 → 0 ≤ v < 2 ^ k0 →
  all_entries d ≡ₚ entries t0 ++ entries t1 →
  ∃ b es v', bucket t0 (Z.land v (2 ^ k0 - 1)) = Some b ∧
    scan_expansions (Z.to_nat (ht_size t1)) t1 (2 ^ k0 - 1) (2 ^ k1 - 1) v = Some (es, v') ∧
    0 ≤ v' < 2 ^ 32 ∧ v' mod 2 ^ k0 = v mod 2 ^ k0 ∧
    (∀ e, e ∈ b ++ es → e ∈ all_entries d) ∧
    (∀ e, e ∈ all_entries d → hashFunction type e.1 mod 2 ^ k0 = v mod 2 ^ k0 → e ∈ b ++ es).
Proof.
  intros T0 T1 Hk Hv Hall. pose proof (tbl_k _ _ _ T0). pose proof (tbl_k _ _ _ T1).
  pose proof (tbl_pow _ _ _ T0). rewrite land_mask_mod by lia.
  destruct (bucket_is_Some t0 k0 bs0 T0 (v mod 2 ^ k0)) as [b Hb]; [apply Z.mod_pos_bound; lia|].
  assert ((v mod 2 ^ k1) / 2 ^ k0 = 0) as Ha.
  { rewrite Z.mod_small; [by apply Z.div_small|]. split; [lia|].
    apply Z.lt_le_trans with (2 ^ k0); [lia|]. apply Z.pow_le_mono_r; lia. }
  destruct (scan_expansions_spec t1 k0 k1 bs1 T1 ltac:(lia) (Z.to_nat (ht_size t1)) v)
    as (es & v' & E & Hv' & Hc & Hsub & Hcov); [lia| |].
  { rewrite Ha, (tbl_size _ _ _ T1), Z.sub_0_r. apply Nat2Z.inj_le. rewrite !Z2Nat.id by lia.
    apply Z.pow_le_mono_r; lia. }
  exists b, es, v'. split; [done|split; [done|split; [done|split; [done|]]]].
  assert (∀ e, e ∈ all_entries d ↔ e ∈ entries t0 ∨ e ∈ entries t1) as Hin
    by (intros e; rewrite Hall; apply elem_of_app).
  split; intros e; rewrite elem_of_app, Hin, (bucket_entries t0 k0 bs0 v b e T0 Hb);
    [naive_solver|]. intros [He|He] Hm; [by left|right].
  apply Hcov; [done|done|]. rewrite Ha. apply Z.div_pos; [|lia].
  apply Z.mod_pos_bound. apply Z.pow_pos_nonneg; lia.
Qed.

Lemma mask_u32 h k bs : tbl h k bs → u32 (ht_sizemask h) = 2 ^ k - 1.
Proof.
  intros T. rewrite (tbl_mask _ _ _ T). apply wrapu_small. pose proof (tbl_pow _ _ _ T). lia.
Qed.

Lemma tbl_size_le t0 t1 k0 k1 bs0 bs1 :
  tbl t0 k0 bs0 → tbl t1 k1 bs1 → ht_size t0 ≤ ht_size t1 → k0 ≤ k1.
Proof.
  intros T0 T1. rewrite (tbl_size _ _ _ T0), (tbl_size _ _ _ T1).
  pose proof (tbl_k _ _ _ T0). pose proof (tbl_k _ _ _ T1). intros. apply (Z.pow_le_mono_r_iff 2); lia.
Qed.

Lemma dictScan_spec d v :
  wf d → 0 ≤ v < 2 ^ 32 → (dictIsRehashing d = true → v < scan_size d) →
  ∃ es v', dictScan d v = Some (es, v') ∧ (∀ e, e ∈ es → e ∈ all_entries d) ∧
    0 ≤ v' < 2 ^ 32 ∧ (dictSize d ≠ 0 → v' < scan_size d) ∧ (v' = 0 ∨ rev v < rev v') ∧
    ∀ e, e ∈ all_entries d → rev v ≤ rev (hashFunction type e.1) →
      v' = 0 ∨ rev (hashFunction type e.1) < rev v' → e ∈ es.
Proof.
  intros W Hv Hvs. unfold dictScan, scan_size in *.
  destruct (Z.eqb_spec (dictSize d) 0) as [Hz|Hz].
  { pose proof Hz as Hz'. rewrite (dictSize_entries d W) in Hz'.
    assert (all_entries d = []) as -> by (apply nil_length_inv; lia).
    exists [], 0. split; [done|split; [by intros ? ?%not_elem_of_nil|split; [lia|]]].
    split; [done|split; [by left|]]. intros e He. by apply not_elem_of_nil in He. }
  assert (∃ k0 es v1, (
      (if negb (dictIsRehashing d) then
         b ← bucket (d_ht0 d) (Z.land v (u32 (ht_sizemask (d_ht0 d))));
         Some (b, v, u32 (ht_sizemask (d_ht0 d)))
       else
         let '(t0, t1) := if ht_size (d_ht1 d) <? ht_size (d_ht0 d) then (d_ht1 d, d_ht0 d)
                          else (d_ht0 d, d_ht1 d) in
         b ← bucket t0 (Z.land v (u32 (ht_sizemask t0)));
         '(es, v) ← scan_expansions (Z.to_nat (ht_size t1)) t1 (u32 (ht_sizemask t0))
                      (u32 (ht_sizemask t1)) v;
         Some (b ++ es, v, u32 (ht_sizemask t0))) = Some (es, v1, 2 ^ k0 - 1)) ∧
      0 ≤ k0 ≤ 30 ∧ scan_size d = 2 ^ k0 ∧
      0 ≤ v1 < 2 ^ 32 ∧ v1 mod 2 ^ k0 = v mod 2 ^ k0 ∧
      (∀ e, e ∈ es → e ∈ all_entries d) ∧
      (∀ e, e ∈ all_entries d → hashFunction type e.1 mod 2 ^ k0 = v mod 2 ^ k0 → e ∈ es))
    as (k0 & es & v1 & E & Hk & Hsz & Hv1 & Hm & Hsub & Hcov).
  { unfold scan_size. destruct (dictIsRehashing d) eqn:Hre; simpl negb; cbv iota.
    - destruct (wf_tbl1 d W Hre) as (k1 & bs1 & T1). unfold ht in T1; simpl in T1.
      destruct (wf_ht_tbl _ (proj1 W)) as (k0 & bs0 & T0).
      { destruct W as (_ & _ & _ & _ & [[Hi _]|(_ & ? & _)]); [|done].
        unfold dictIsRehashing in Hre. by rewrite Hi in Hre. }
      specialize (Hvs eq_refl). pose proof (tbl_k _ _ _ T0). pose proof (tbl_k _ _ _ T1).
      destruct (Z.ltb_spec (ht_size (d_ht1 d)) (ht_size (d_ht0 d))) as [Hlt|Hge].
      + pose proof (tbl_size_le _ _ _ _ _ _ T1 T0 ltac:(lia)). pose proof (tbl_size _ _ _ T1) as Hs1.
        destruct (scan_rehashing d (d_ht1 d) (d_ht0 d) k1 k0 bs1 bs0 v T1 T0)
          as (b & es & v1 & Eb & Ee & ?); [lia..|apply Permutation_app_comm|].
        rewrite (mask_u32 _ _ _ T0), (mask_u32 _ _ _ T1), Eb. simpl. rewrite Ee. simpl.
        exists k1, (b ++ es), v1. rewrite Hs1 in *. split; [done|]. split; [lia|split; [lia|done]].
      + pose proof (tbl_size_le _ _ _ _ _ _ T0 T1 ltac:(lia)). pose proof (tbl_size _ _ _ T0) as Hs0.
        destruct (scan_rehashing d (d_ht0 d) (d_ht1 d) k0 k1 bs0 bs1 v T0 T1)
          as (b & es & v1 & Eb & Ee & ?); [lia..|done|].
        rewrite (mask_u32 _ _ _ T0), (mask_u32 _ _ _ T1), Eb. simpl. rewrite Ee. simpl.
        exists k0, (b ++ es), v1. rewrite Hs0 in *. split; [done|]. split; [lia|split; [lia|done]].
    - destruct (wf_ht_tbl _ (proj1 W)) as (k0 & bs0 & T0).
      { intros Hn. apply (size_table d W) in Hn. apply (size_zero_entries d W) in Hn.
        rewrite (dictSize_entries d W), Hn in Hz. done. }
      rewrite (mask_u32 _ _ _ T0). pose proof (tbl_k _ _ _ T0). pose proof (tbl_pow _ _ _ T0).
      rewrite land_mask_mod by lia.
      destruct (bucket_is_Some _ k0 bs0 T0 (v mod 2 ^ k0)) as [b Hb]; [apply Z.mod_pos_bound; lia|].
      rewrite Hb. simpl. exists k0, b, v. split; [done|]. rewrite (tbl_size _ _ _ T0).
      split; [lia|split; [done|split; [done|split; [done|]]]].
      unfold all_entries. rewrite (wf_not_rehashing d W Hre), app_nil_r.
      split; intros e He; [|intros Hm]; by apply (bucket_entries _ k0 bs0 v b e T0 Hb). }
  cbv zeta. rewrite E. cbn [mbind option_bind].
  do 2 eexists; split; [done|]. fold (scan_size d). rewrite Hsz.
  destruct (cursor_step v v1 k0 Hk Hv Hv1 Hm) as (Hr & Hinc & Hc).
  assert (2 ^ k0 ≤ 2 ^ 30) by (apply Z.pow_le_mono_r; lia).
  split; [done|split; [lia|split; [lia|split; [done|]]]].
  intros e He Hle Hlt. apply Hcov; [done|]. apply Hc; [apply hash_range|done|done].
Qed.

(** The calls of an iteration, each with the dictionary it finds, until the
    cursor is 0: the entries given to the callback and the last cursor. *)
Fixpoint scan_seq (ds : list dict) (v : Z) : option (list entry * Z) :=
  match ds with
  | [] => Some ([], v)
  | d :: ds =>
      '(es, v) ← dictScan d v;
      if v =? 0 then Some (es, v)
      else '(es', v) ← scan_seq ds v; Some (es ++ es', v)
  end.

Lemma rev_small v k : 0 ≤ k ≤ 32 → 0 ≤ v < 2 ^ k → (rev v / 2 ^ (32 - k)) * 2 ^ (32 - k) = rev v.
Proof.
  intros Hk Hv. assert (2 ^ k ≤ 2 ^ 32) by (apply Z.pow_le_mono_r; lia).
  apply Z.bits_inj'. intros i Hi. destruct (decide (i < 32 - k)).
  - rewrite Z.mul_pow2_bits_low, rev_testbit by lia.
    rewrite <-(Z.mod_small v (2 ^ k)) by lia. by rewrite Z.mod_pow2_bits_high by lia.
  - rewrite Z.mul_pow2_bits, Z.div_pow2_bits by lia. f_equal. lia.
Qed.

Lemma scan_seq_spec key k ds : 0 ≤ k ≤ 30 → ∀ v,
  Forall wf ds → Forall (λ d, key ∈ (all_entries d).*1) ds →
  StronglySorted Z.le (scan_size <$> ds) →
  Forall (λ d, v < scan_size d ≤ 2 ^ k) ds → 0 ≤ v < 2 ^ k →
  ∃ es v', scan_seq ds v = Some (es, v') ∧ 0 ≤ v' < 2 ^ k ∧
    (∀ e, e ∈ es → ∃ d, d ∈ ds ∧ e ∈ all_entries d) ∧
    (rev v ≤ rev (hashFunction type key) → v' = 0 → ds ≠ [] → key ∈ es.*1) ∧
    (v' = 0 ∨ rev v / 2 ^ (32 - k) + Z.of_nat (length ds) ≤ rev v' / 2 ^ (32 - k)).
Proof.
  intros Hk. assert (2 ^ k ≤ 2 ^ 30) by (apply Z.pow_le_mono_r; lia).
  induction ds as [|d ds IH]; intros v W Hkey Hs Hv Hvr.
  { exists [], v. split; [done|split; [done|]].
    split; [by intros ? ?%not_elem_of_nil|]. split; [done|]. right. simpl. lia. }
  apply Forall_cons in W as [W Ws]. apply Forall_cons in Hkey as [Hin Hkey].
  apply Forall_cons in Hv as [Hv Hvs]. apply StronglySorted_inv in Hs as [Hs Hle].
  destruct (dictScan_spec d v W) as (es & v1 & E & Hsub & Hv1 & Hsz & Hinc & Hcov); [lia|lia|].
  cbn [scan_seq]. rewrite E. cbn [mbind option_bind].
  assert (v1 < scan_size d) as Hv1s.
  { apply Hsz. rewrite dictSize_entries by done.
    destruct (all_entries d); [by apply not_elem_of_nil in Hin|simpl; lia]. }
  apply list_elem_of_fmap in Hin as (e & Hek & He).
  assert (rev v ≤ rev (hashFunction type key) →
    v1 = 0 ∨ rev (hashFunction type key) < rev v1 → key ∈ es.*1) as Hnow.
  { intros Hle' Hlt. rewrite Hek in Hle', Hlt. apply list_elem_of_fmap. exists e.
    split; [done|]. by apply Hcov. }
  destruct (Z.eqb_spec v1 0) as [->|Hne].
  { exists es, 0. split; [done|split; [lia|]].
    split; [intros x Hx; exists d; split; [apply elem_of_cons; by left|by apply Hsub]|].
    split; [|by left]. intros Hl _ _. apply Hnow; [done|by left]. }
  destruct (IH v1 Ws Hkey Hs) as (es' & v' & E' & Hv' & Hsub' & Hkey' & Hprog).
  { apply Forall_forall. intros x Hx. rewrite Forall_forall in Hle. rewrite Forall_forall in Hvs.
    pose proof (Hle (scan_size x) (list_elem_of_fmap_2 _ _ _ Hx)). specialize (Hvs x Hx). simpl in *. lia. }
  { lia. }
  rewrite E'. cbn [mbind option_bind]. exists (es ++ es'), v'. split; [done|split; [done|split; [|split]]].
  - intros x [Hx|Hx]%elem_of_app.
    + exists d. split; [apply elem_of_cons; by left|by apply Hsub].
    + destruct (Hsub' x Hx) as (y & Hy & ?). exists y. split; [apply elem_of_cons; by right|done].
  - intros Hl -> _. rewrite fmap_app, elem_of_app.
    destruct (decide (rev (hashFunction type key) < rev v1)); [left; apply Hnow; auto|].
    right. apply Hkey'; [lia|done|]. intros ->.
    by injection E' as _ ->.
  - destruct Hprog as [?|Hp]; [by left|right]. destruct Hinc as [?|Hinc]; [done|].
    rewrite <-(rev_small v k), <-(rev_small v1 k) in Hinc by lia.
    rewrite length_cons. apply Z.mul_lt_mono_pos_r in Hinc; [lia|]. apply Z.pow_pos_nonneg; lia.
Qed.

Lemma scan_size_pos d key : wf d → key ∈ (all_entries d).*1 → 0 < scan_size d.
Proof.
  intros W Hk. assert (ht_table (d_ht0 d) ≠ None) as Hn.
  { intros Hn. apply (size_table d W) in Hn. rewrite (size_zero_entries d W Hn) in Hk.
    by apply not_elem_of_nil in Hk. }
  destruct (wf_ht_tbl _ (proj1 W) Hn) as (k0 & bs0 & T0).
  pose proof (tbl_pow _ _ _ T0). pose proof (tbl_size _ _ _ T0).
  unfold scan_size. destruct (dictIsRehashing d) eqn:Hre; [|lia].
  destruct (wf_tbl1 d W Hre) as (k1 & bs1 & T1). unfold ht in T1; simpl in T1.
  pose proof (tbl_pow _ _ _ T1). pose proof (tbl_size _ _ _ T1). lia.
Qed.

(** C29. The guarantee of SCAN: when an iteration from cursor 0 ends with
    cursor 0, every key that was in the dictionary at each of its calls has been
    returned, whatever was added, removed or rehashed between the calls, provided
    the tables only grow; and an iteration over tables of at most [2 ^ k] buckets
    ends within [2 ^ k] calls.  Only entries of the dictionary are returned. *)
Theorem dictScan_complete key k d ds :
  0 ≤ k ≤ 30 → Forall wf (d :: ds) → Forall (λ d, key ∈ (all_entries d).*1) (d :: ds) →
  StronglySorted Z.le (scan_size <$> (d :: ds)) → Forall (λ d, scan_size d ≤ 2 ^ k) (d :: ds) →
  ∃ es v, scan_seq (d :: ds) 0 = Some (es, v) ∧
    (∀ e, e ∈ es → ∃ d', d' ∈ d :: ds ∧ e ∈ all_entries d') ∧
    (v = 0 → key ∈ es.*1) ∧ (2 ^ k ≤ Z.of_nat (length (d :: ds)) → v = 0).
Proof.
  intros Hk W Hkey Hs Hle.
  destruct (scan_seq_spec key k (d :: ds) Hk 0 W Hkey Hs) as (es & v & E & Hv & Hsub & Hin & Hpr).
  - rewrite Forall_forall in W, Hkey |- *. intros x Hx.
    pose proof (scan_size_pos x key (W x Hx) (Hkey x Hx)).
    rewrite Forall_forall in Hle. specialize (Hle x Hx). simpl in *. lia.
  - split; [done|]. apply Z.pow_pos_nonneg; lia.
  - exists es, v. split; [done|split; [done|split]].
    + intros ->. apply Hin; [|done..]. change (rev 0) with 0. apply rev_range, hash_range.
    + intros Hl. destruct Hpr as [?|Hp]; [done|]. change (rev 0) with 0 in Hp.
      rewrite Z.div_0_l in Hp by (apply Z.pow_nonzero; lia).
      pose proof (rev_range v ltac:(lia)). assert (rev v / 2 ^ (32 - k) < 2 ^ k); [|lia].
      apply Z.div_lt_upper_bound; [apply Z.pow_pos_nonneg; lia|].
      replace (2 ^ (32 - k) * 2 ^ k) with (2 ^ 32) by (rewrite <-Z.pow_add_r by lia; f_equal; lia).
      lia.
Qed.
End dict.

(** ** Concrete dictionaries *)

(** Integer keys that hash to themselves. *)
Definition int_type : dictType Z := DictType Z (λ k, dictIdentityHashFunction (u32 k)) Z.eqb.
#[export] Instance int_type_ok : DictTypeOk int_type.
Proof.
  split; [intros; apply wrapu_range; lia|]. intros. apply Z.eqb_eq.
Qed.

(** A dictionary in the middle of the rehashing of 4 buckets to 8. *)
Definition ex_dict : dict :=
  Dict (Dictht (Some [[]; [(5, 50)]; [(2, 20)]; []]) 4 3 2)
       (Dictht (Some [[(8, 80)]; []; []; []; [(12, 120); (4, 40)]; []; []; []]) 8 7 3) 1 0.

Ltac placed_cases :=
  let i := fresh "i" in let b := fresh "b" in let e := fresh "e" in
  let Hi := fresh in let He := fresh in
  intros i b e Hi He;
  repeat (destruct i as [|i];
    [cbn in Hi; injection Hi as <-;
     repeat (apply elem_of_cons in He as [->|He]; [reflexivity|]);
     by apply not_elem_of_nil in He|]); by cbn in Hi.

Lemma ex_dict_wf : wf int_type ex_dict.
Proof.
  split; [|split; [|split; [|split]]].
  - split; [done|split; [done|right]]. exists 2; eexists.
    constructor; try done. placed_cases.
  - split; [done|split; [done|right]]. exists 3; eexists.
    constructor; try done. placed_cases.
  - apply (bool_decide_unpack _). by vm_compute.
  - reflexivity.
  - right. split; [simpl; lia|split; [done|split; [done|]]].
    intros i b Hi (bs & Hbs & H0 & Hb)%bucket_lookup. simpl in Hi, Hbs. injection Hbs as <-.
    assert (i = 0) as -> by lia. by injection Hb as <-.
Qed.

Lemma dictAdd_refines_witness :
  (∃ d', wf int_type d' ∧ dictAdd int_type true 0 ex_dict 13 130 = Some (d', DICT_OK) ∧
    dmap d' = <[13 := 130]> (dmap ex_dict)) ∧
  (∃ d', wf int_type d' ∧ dictAdd int_type true 0 ex_dict 12 0 = Some (d', DICT_ERR) ∧
    dmap d' = dmap ex_dict).
Proof.
  split.
  - exact (dictAdd_refines int_type true 0 ex_dict 13 130 ex_dict_wf eq_refl).
  - exact (dictAdd_refines int_type true 0 ex_dict 12 0 ex_dict_wf eq_refl).
Defined.

Lemma dictReplace_refines_witness :
  ∃ d', dictReplace int_type true 0 ex_dict 12 7 = Some (d', 0) ∧ wf int_type d' ∧
    dmap d' = <[12 := 7]> (dmap ex_dict).
Proof. exact (dictReplace_refines int_type true 0 ex_dict 12 7 ex_dict_wf eq_refl). Defined.

Lemma dictDelete_refines_witness :
  ∃ d', dictGenericDelete int_type ex_dict 4 = Some (d', DICT_OK) ∧ wf int_type d' ∧
    dmap d' = delete 4 (dmap ex_dict) ∧ dictSize d' = Z.of_nat (size (delete 4 (dmap ex_dict))).
Proof. exact (dictDelete_refines int_type ex_dict 4 ex_dict_wf). Defined.

Lemma dictFetchValue_refines_witness :
  ∃ d', dictFetchValue int_type ex_dict 4 = Some (d', Some 40) ∧ wf int_type d' ∧
    dmap d' = dmap ex_dict.
Proof. exact (dictFetchValue_refines int_type ex_dict 4 ex_dict_wf). Defined.

Lemma dictRehash_terminates_witness :
  ∃ d', dictRehash int_type ex_dict 4 = Some (d', 0) ∧ wf int_type d' ∧ dmap d' = dmap ex_dict.
Proof.
  destruct (dictRehash_terminates int_type ex_dict 4 ex_dict_wf) as (d' & r & E & W & Hm & Hr).
  exists d'. destruct (Hr eq_refl) as (_ & _ & Hz). rewrite <-(Hz eq_refl). done.
Defined.

Lemma dictEmpty_frees_all_witness :
  ∃ freed, dictEmpty ex_dict = Some (freed, dictCreate) ∧ freed = all_entries ex_dict ∧
    NoDup freed.*1 ∧ list_to_map freed = dmap ex_dict ∧
    wf int_type (@dictCreate Z Z) ∧ dmap (@dictCreate Z Z) = ∅.
Proof. exact (dictEmpty_frees_all int_type ex_dict ex_dict_wf). Defined.

Lemma dictScan_complete_witness :
  ∃ es v, scan_seq [ex_dict; ex_dict; ex_dict; ex_dict] 0 = Some (es, v) ∧
    (∀ e, e ∈ es → ∃ d', d' ∈ [ex_dict; ex_dict; ex_dict; ex_dict] ∧ e ∈ all_entries d') ∧
    (v = 0 → 12 ∈ es.*1) ∧ (2 ^ 2 ≤ 4 → v = 0).
Proof.
  apply (dictScan_complete int_type 12 2); [lia| | | |].
  - repeat apply Forall_cons_2; try apply ex_dict_wf. apply Forall_nil_2.
  - repeat apply Forall_cons_2; try apply Forall_nil_2;
      apply (bool_decide_unpack _); by vm_compute.
  - cbn. repeat constructor; done.
  - repeat apply Forall_cons_2; try apply Forall_nil_2; done.
Defined.

(** A shrinking resize between two calls: dictResize prepares 4 buckets while
    the cursor, 8, still has bits of the 16 buckets, and the loop over the
    expansions starts at those bits.  The only key, there at every call, is never
    returned. *)
Lemma dictScan_shrinking_resize_misses :
  ∃ d16 d4 : dict,
    (d ← dictAdd int_type true 0 (fst (dictExpand dictCreate 16)) 4 40; Some d)
      = Some (d16, DICT_OK) ∧
    dictResize true d16 = (d4, DICT_OK) ∧
    scan_seq [d16; d4; d4; d4; d4; d4] 0 = Some ([], 0) ∧
    fst <$> dictFetchValue int_type d4 4 ≠ None ∧
    snd <$> dictFetchValue int_type d4 4 = Some (Some 40).
Proof.
  eexists _, _. split; [vm_compute; reflexivity|]. split; [vm_compute; reflexivity|].
  split; [vm_compute; reflexivity|]. split; [by vm_compute|]. vm_compute; reflexivity.
Qed.
