(* ===== verification/Dictiter.v ===== *)
(** * Iterators and random entries of hash tables ([dict.c])

    The safe and the unsafe iterators of a dictionary, their fingerprint, and
    dictGetRandomKey.  A pointer to an entry that an iterator keeps is the key of
    the entry, which is unique in its table; following a pointer to an entry that
    is no longer in its chain is [None]. *)
From S2P Require Import Prelude Dict.
Open Scope Z_scope.

(** The two pointers are NULL or the key of an entry of the bucket. *)
Record dictIterator (K : Type) := DictIterator {
  it_table : Z;
  it_index : Z;
  it_safe : bool;
  it_entry : option K;
  it_nextEntry : option K;
  it_fingerprint : Z
}.
Arguments DictIterator {K}.
Arguments it_table {K}.
Arguments it_index {K}.
Arguments it_safe {K}.
Arguments it_entry {K}.
Arguments it_nextEntry {K}.
Arguments it_fingerprint {K}.

Definition dictGetIterator {K} : dictIterator K := DictIterator 0 (-1) false None None 0.
Definition dictGetSafeIterator {K} : dictIterator K := DictIterator 0 (-1) true None None 0.

Section iterators.
Context {K V : Type} `{Countable K} (type : dictType K).
Notation entry := (K * V)%type.
Notation dict := (@dict K V).
Implicit Types d : dict.
Implicit Types it : dictIterator K.

(** ** Operations *)

(** One turn of the loop of dictFingerprint: Thomas Wang's 64 bit mix. *)
Definition fingerprint_step (hash n : Z) : Z :=
  let hash := i64 (hash + n) in
  let hash := i64 (Z.lnot hash + i64 (Z.shiftl hash 21)) in
  let hash := Z.lxor hash (Z.shiftr hash 24) in
  let hash := i64 (i64 (hash + i64 (Z.shiftl hash 3)) + i64 (Z.shiftl hash 8)) in
  let hash := Z.lxor hash (Z.shiftr hash 14) in
  let hash := i64 (i64 (hash + i64 (Z.shiftl hash 2)) + i64 (Z.shiftl hash 4)) in
  let hash := Z.lxor hash (Z.shiftr hash 28) in
  i64 (hash + i64 (Z.shiftl hash 31)).

(** [addr t] is the address of [d->ht[t].table], which is converted to [long]. *)
Definition dictFingerprint (addr : Z → Z) d : Z :=
  foldl fingerprint_step 0
    [i32 (addr 0); i64 (ht_size (d_ht0 d)); i64 (ht_used (d_ht0 d));
     i32 (addr 1); i64 (ht_size (d_ht1 d)); i64 (ht_used (d_ht1 d))].

Definition set_iterators d (n : Z) : dict := Dict (d_ht0 d) (d_ht1 d) (d_rehashidx d) n.

(** The entry that the pointer [k] into the bucket of the iterator stands for, and
    its [next]. *)
Definition follow d it (k : K) : option (entry * option K) :=
  b ← bucket (ht d (it_table it)) (it_index it);
  '(i, e) ← list_find (λ e : entry, e.1 = k) b;
  Some (e, fst <$> b !! S i).

(** The part of a turn of dictNext before [if (iter->entry)]; the flag says that
    the loop is left by [break]. *)
Definition advance (addr : Z → Z) d it : option (dict * dictIterator K * bool) :=
  match it_entry it with
  | Some _ =>
      Some (d, DictIterator (it_table it) (it_index it) (it_safe it) (it_nextEntry it) (it_nextEntry it) (it_fingerprint it), false)
  | None =>
      let start := (it_index it =? -1) && (it_table it =? 0) in
      let d := if start && it_safe it then set_iterators d (i32 (d_iterators d + 1)) else d in
      let fp := if start && negb (it_safe it) then dictFingerprint addr d else it_fingerprint it in
      let index := i32 (it_index it + 1) in
      if i32 (ht_size (ht d (it_table it))) <=? index then
        if dictIsRehashing d && (it_table it =? 0) then
          b ← bucket (ht d 1) 0;
          Some (d, DictIterator (it_table it + 1) 0 (it_safe it) (fst <$> head b) (it_nextEntry it) fp, false)
        else Some (d, DictIterator (it_table it) index (it_safe it) None (it_nextEntry it) fp, true)
      else
        b ← bucket (ht d (it_table it)) index;
        Some (d, DictIterator (it_table it) index (it_safe it) (fst <$> head b) (it_nextEntry it) fp, false)
  end.

(** [while (1)] of dictNext. *)
Fixpoint next_loop (addr : Z → Z) (fuel : nat) d it : option (dict * dictIterator K * option entry) :=
  match fuel with
  | O => None
  | S fuel =>
      '(d, it, stop) ← advance addr d it;
      if (stop : bool) then Some (d, it, None)
      else
        match it_entry it with
        | None => next_loop addr fuel d it
        | Some k =>
            '(e, next) ← follow d it k;
            Some (d, DictIterator (it_table it) (it_index it) (it_safe it) (Some k) next (it_fingerprint it), Some e)
        end
  end.

(** Every turn but the first and the last moves on by a bucket. *)
Definition dictNext (addr : Z → Z) d it : option (dict * dictIterator K * option entry) :=
  next_loop addr (Z.to_nat (dictSlots d) + 3) d it.

Definition dictReleaseIterator (addr : Z → Z) d it : option dict :=
  if negb ((it_index it =? -1) && (it_table it =? 0)) then
    if it_safe it then Some (set_iterators d (i32 (d_iterators d - 1)))
    else if it_fingerprint it =? dictFingerprint addr d then Some d else None
  else Some d.

(** [while((de = dictNext(di)) != NULL) body], where [body] changes a state that
    the dictionary is a part of. *)
Fixpoint while_next {St} (get : St → option dict) (put : dict → St → St)
    (body : St → entry → option St) (addr : Z → Z) (fuel : nat) it (s : St) : option (St * dictIterator K) :=
  d ← get s;
  '(d, it, e) ← dictNext addr d it;
  let s := put d s in
  match e with
  | None => Some (s, it)
  | Some e =>
      match fuel with
      | O => None
      | S fuel => s ← body s e; while_next get put body addr fuel it s
      end
  end.

(** The bucket that a draw of [random()] picks. *)
Definition random_pick d (r : Z) : option (list entry) :=
  if dictIsRehashing d then
    let h := u32 (u64 r mod u64 (ht_size (d_ht0 d) + ht_size (d_ht1 d))) in
    if ht_size (d_ht0 d) <=? h then bucket (d_ht1 d) (h - ht_size (d_ht0 d)) else bucket (d_ht0 d) h
  else bucket (d_ht0 d) (u32 (Z.land (u64 r) (ht_sizemask (d_ht0 d)))).

(** [do ... while(he == NULL)] of dictGetRandomKey: the values of [random()] that
    are left, and the first bucket that is not empty. *)
Fixpoint random_bucket (pick : Z → option (list entry)) (rs : list Z) : option (list entry * list Z) :=
  match rs with
  | [] => None
  | r :: rs =>
      b ← pick r;
      match b with [] => random_bucket pick rs | _ => Some (b, rs) end
  end.

(** [rs] are the values that [random()] returns; [None] stands for an access out of
    a table, or for more draws than there are values. *)
Definition dictGetRandomKey d (rs : list Z) : option (dict * list Z * option entry) :=
  if dictSize d =? 0 then Some (d, rs, None)
  else
    d ← (if dictIsRehashing d then _dictRehashStep type d else Some d);
    '(b, rs) ← random_bucket (random_pick d) rs;
    match rs with
    | [] => None
    | r :: rs =>
        let listele := r `rem` i32 (Z.of_nat (length b)) in
        e ← (if 0 <=? listele then b !! Z.to_nat listele else None);
        Some (d, rs, Some e)
    end.

(** ** What an iterator has still to visit *)

(** The entries of a table from a bucket on. *)
Definition tail_of (h : @dictht K V) (i : Z) : list entry :=
  match ht_table h with Some bs => concat (drop (Z.to_nat i) bs) | None => [] end.

(** After the bucket [i] of the table [t]. *)
Definition rest_of d (t i : Z) : list entry :=
  tail_of (ht d t) (i + 1) ++ (if t =? 0 then entries (ht d 1) else []).

Definition started it : bool := negb ((it_index it =? -1) && (it_table it =? 0)).

(** The bucket of the iterator ends with the entries [suf] that it has not
    returned; the entry it returned last may be gone. *)
Inductive iter_ok d it : list entry → Prop :=
| iter_fresh :
    it_table it = 0 → it_index it = -1 → it_entry it = None → iter_ok d it (all_entries d)
| iter_at b pre suf :
    it_table it = 0 ∨ it_table it = 1 → 0 ≤ it_index it →
    (it_table it = 1 → dictIsRehashing d = true) →
    bucket (ht d (it_table it)) (it_index it) = Some b → b = pre ++ suf →
    it_nextEntry it = fst <$> head suf → it_entry it ≠ None →
    iter_ok d it (suf ++ rest_of d (it_table it) (it_index it)).

(** The dictionary while the iterator is used: a safe one is counted. *)
Definition counted d it : dict :=
  if negb (started it) && it_safe it then set_iterators d (i32 (d_iterators d + 1)) else d.

Lemma bucket_set_iterators d n t i : bucket (ht (set_iterators d n) t) i = bucket (ht d t) i.
Proof. unfold ht. by destruct (t =? 0). Qed.

Lemma wf_set_iterators d n : wf type d → wf type (set_iterators d n).
Proof. intros W. exact W. Qed.

Lemma all_entries_set_iterators d n : all_entries (set_iterators d n) = all_entries d.
Proof. done. Qed.

Lemma rest_set_iterators d n t i : rest_of (set_iterators d n) t i = rest_of d t i.
Proof. done. Qed.

Lemma counted_cases d it : counted d it = d ∨ counted d it = set_iterators d (i32 (d_iterators d + 1)).
Proof. unfold counted. destruct (_ && _); auto. Qed.

Lemma bucket_tail h i b : bucket h i = Some b → tail_of h i = b ++ tail_of h (i + 1).
Proof.
  intros (bs & Ht & Hi & Hb)%bucket_lookup. unfold tail_of. rewrite Ht.
  replace (Z.to_nat (i + 1)) with (S (Z.to_nat i)) by lia. by rewrite (drop_S _ _ _ Hb).
Qed.

Lemma tail_zero h : tail_of h 0 = entries h.
Proof. done. Qed.

Lemma tbl_tail_end h k bs i : tbl type h k bs → 2 ^ k ≤ i → tail_of h i = [].
Proof.
  intros T Hi. unfold tail_of. rewrite (tbl_table _ _ _ _ T). rewrite drop_ge; [done|].
  rewrite (tbl_length _ _ _ _ T). lia.
Qed.

Context `{!DictTypeOk type}.

Lemma wf_ht_size d t : wf type d → t = 0 ∨ t = 1 → 0 ≤ ht_size (ht d t) ≤ 2 ^ 30 ∧
  tail_of (ht d t) (ht_size (ht d t)) = [] ∧ ∀ i, 0 ≤ i < ht_size (ht d t) → ∃ b, bucket (ht d t) i = Some b.
Proof.
  intros W Ht. assert (wf_ht type (ht d t)) as (_ & _ & [-> |(k & bs & T)])
    by (destruct Ht as [-> | ->]; apply W); [split; [done|split; [done|simpl; lia]]|].
  rewrite (tbl_size _ _ _ _ T). pose proof (tbl_pow _ _ _ _ T).
  split; [lia|split; [by eapply tbl_tail_end|]]. intros i Hi. by apply (bucket_is_Some _ _ _ _ T).
Qed.

(** Fields of an iterator that a call keeps. *)
Definition same_kind it it' (fp : Z) : Prop :=
  it_safe it' = it_safe it ∧ started it' = true ∧ it_fingerprint it' = fp.

Lemma follow_head d it b pre e suf :
  wf type d → it_table it = 0 ∨ it_table it = 1 →
  bucket (ht d (it_table it)) (it_index it) = Some b → b = pre ++ e :: suf →
  follow d it e.1 = Some (e, fst <$> head suf).
Proof.
  intros W Ht Hb ->. unfold follow. rewrite Hb. simpl.
  assert (NoDup (pre ++ e :: suf).*1) as Hnd.
  { destruct W as (_ & _ & Hnd & _). unfold all_entries in Hnd.
    apply bucket_lookup in Hb as (bs & Hbs & _ & Hb).
    assert (NoDup (concat bs).*1) as Hn.
    { rewrite fmap_app in Hnd. unfold entries in Hnd.
      apply NoDup_app in Hnd as (H0 & _ & H1).
      destruct Ht as [E|E]; rewrite E in Hbs; cbn in Hbs; [rewrite Hbs in H0|rewrite Hbs in H1]; done. }
    destruct (concat_insert bs _ _ Hb) as (l1 & l2 & E & _). rewrite E, fmap_app in Hn.
    apply NoDup_app in Hn as (_ & _ & Hn). rewrite fmap_app in Hn. by apply NoDup_app in Hn as (? & _). }
  assert (list_find (λ x : entry, x.1 = e.1) (pre ++ e :: suf) = Some (length pre, e)) as ->.
  { apply list_find_Some. split; [by apply list_lookup_middle|split; [done|]].
    intros j y Hj Hlt Heq. rewrite lookup_app_l in Hj by done. rewrite fmap_app in Hnd.
    apply NoDup_app in Hnd as (_ & Hnd & _). apply (Hnd y.1).
    - apply list_elem_of_fmap. exists y. split; [done|by eapply list_elem_of_lookup_2].
    - rewrite Heq. simpl. by left. }
  simpl. do 3 f_equal. rewrite lookup_app_r by lia.
  replace (S (length pre) - length pre)%nat with 1%nat by lia. by destruct suf.
Qed.

(** ** A call of dictNext *)

(** Turns that find empty buckets, up to the next entry. *)
Definition next_result d it (fp : Z) (rem : list entry) (res : option (dict * dictIterator K * option entry)) : Prop :=
  ∃ it', same_kind it it' fp ∧
    match rem with
    | [] => res = Some (d, it', None)
    | e :: rem => res = Some (d, it', Some e) ∧ iter_ok d it' rem
    end.

Lemma next_result_kind d it it1 fp rem res :
  it_safe it1 = it_safe it → next_result d it1 fp rem res → next_result d it fp rem res.
Proof. intros E (it' & (K1 & K2 & K3) & H1). exists it'. split; [split; [congruence|done]|done]. Qed.

(** The end of a turn, in the bucket [b]. *)
Lemma bucket_turn addr fuel d it b t i safe nxt fp rem :
  wf type d → t = 0 ∨ t = 1 → (t = 1 → dictIsRehashing d = true) → 0 ≤ i →
  it = DictIterator t i safe (fst <$> head b) nxt fp → bucket (ht d t) i = Some b →
  rem = b ++ rest_of d t i →
  (b = [] → next_result d it fp rem (next_loop addr fuel d it)) →
  next_result d it fp rem
    (match it_entry it with
     | None => next_loop addr fuel d it
     | Some k =>
         '(e, next) ← follow d it k;
         Some (d, DictIterator (it_table it) (it_index it) (it_safe it) (Some k) next (it_fingerprint it), Some e)
     end).
Proof.
  intros W Ht Hre Hi -> Hb -> IH. destruct b as [|e b]; [by apply IH|]. clear IH. cbn [it_entry head fmap option_map].
  cbn [fmap option_fmap option_map].
  erewrite (follow_head d _ (e :: b) [] e b); [|done|done|done|done]. cbn.
  eexists; split.
  2:{ split; [done|]. by apply (iter_at d (DictIterator t i safe (Some e.1) (fst <$> head b) fp) (e :: b) [e] b). }
  split; [done|split; [|done]]. unfold started. simpl. by rewrite (proj2 (Z.eqb_neq i (-1))) by lia.
Qed.

#[local] Opaque dictFingerprint.

(** From the end of the bucket [(t, i)], or from before the first one. *)
Lemma next_loop_spec addr fuel : ∀ d it,
  wf type d → it_table it = 0 ∨ it_table it = 1 → (it_table it = 1 → dictIsRehashing d = true) →
  it_entry it = None → -1 ≤ it_index it ≤ ht_size (ht d (it_table it)) →
  (it_table it = 1 → 0 ≤ it_index it) →
  (Z.to_nat (ht_size (ht d (it_table it)) - it_index it + (if (it_table it =? 0)%Z then ht_size (ht d 1) + 1 else 0)) < fuel)%nat →
  next_result (counted d it) it
    (if negb (started it) && negb (it_safe it) then dictFingerprint addr d else it_fingerprint it)
    (rest_of d (it_table it) (it_index it)) (next_loop addr fuel d it).
Proof.
  induction fuel as [|fuel IH]; intros d it W Ht Hre Hn Hi Hi1 Hf; [lia|].
  assert (∀ d t i safe nxt fp, wf type d → t = 0 ∨ t = 1 → (t = 1 → dictIsRehashing d = true) →
    0 ≤ i ≤ ht_size (ht d t) →
    (Z.to_nat (ht_size (ht d t) - i + (if (t =? 0)%Z then ht_size (ht d 1) + 1 else 0)) < fuel)%nat →
    next_result d (DictIterator t i safe None nxt fp) fp (rest_of d t i)
      (next_loop addr fuel d (DictIterator t i safe None nxt fp))) as IHs.
  { clear - IH. intros d t i safe nxt fp W Ht Hre Hi Hf.
    assert (started (DictIterator t i safe None nxt fp) = true) as Hst.
    { unfold started. cbn. by rewrite (proj2 (Z.eqb_neq i (-1))) by lia. }
    pose proof (IH d (DictIterator t i safe None nxt fp) W Ht Hre eq_refl) as X. unfold counted in X. rewrite Hst in X.
    cbn in X. apply X; [lia|lia|done]. }
  clear IH. destruct (wf_ht_size d _ W Ht) as (Hs & Htail & Hbk).
  destruct (wf_ht_size d 1 W (or_intror eq_refl)) as (Hs1 & _ & Hbk1).
  cbn [next_loop]. unfold advance. rewrite Hn.
  replace ((it_index it =? -1) && (it_table it =? 0)) with (negb (started it)) by (unfold started; by rewrite negb_involutive).
  change (if negb (started it) && it_safe it then set_iterators d (i32 (d_iterators d + 1)) else d) with (counted d it).
  replace (if negb (started it) && negb (it_safe it) then dictFingerprint addr (counted d it) else it_fingerprint it)
    with (if negb (started it) && negb (it_safe it) then dictFingerprint addr d else it_fingerprint it)
    by (unfold counted; destruct (started it), (it_safe it); cbn [negb andb]; reflexivity).
  set (fp := if negb (started it) && negb (it_safe it) then _ else _).
  assert (wf type (counted d it)) as W' by (by destruct (counted_cases d it) as [-> | ->]).
  assert (∀ t i, bucket (ht (counted d it) t) i = bucket (ht d t) i) as Hbe
    by (intros; destruct (counted_cases d it) as [-> | ->]; [done|apply bucket_set_iterators]).
  assert (∀ t, ht (counted d it) t = ht d t) as Hhe by (intros; by destruct (counted_cases d it) as [-> | ->]).
  assert (dictIsRehashing (counted d it) = dictIsRehashing d) as Hree by (by destruct (counted_cases d it) as [-> | ->]).
  assert (∀ t i, rest_of (counted d it) t i = rest_of d t i) as Hroe by (intros; by destruct (counted_cases d it) as [-> | ->]).
  rewrite !Hhe, Hree. rewrite (wraps_small 32 (it_index it + 1)) by (unlimit; lia). rewrite (wraps_small 32 (ht_size _)) by (unlimit; lia).
  destruct (Z.leb_spec (ht_size (ht d (it_table it))) (it_index it + 1)) as [Hend|Hmore].
  - assert (tail_of (ht d (it_table it)) (it_index it + 1) = []) as Htl.
    { destruct (Z.eq_dec (it_index it) (ht_size (ht d (it_table it)))) as [E|E].
      - unfold tail_of in Htail |- *. destruct (ht_table _); [|done]. apply concat_nil_Forall in Htail.
        apply concat_nil_Forall. replace (Z.to_nat (it_index it + 1)) with (Z.to_nat (ht_size (ht d (it_table it))) + 1)%nat by lia.
        rewrite <-drop_drop. by apply Forall_drop.
      - by replace (it_index it + 1) with (ht_size (ht d (it_table it))) by lia. }
    unfold rest_of at 1. rewrite Htl. cbn [app].
    destruct (dictIsRehashing d && (it_table it =? 0)) eqn:E; cbn [mbind option_bind].
    + apply andb_true_iff in E as [Er E0]. rewrite E0. apply Z.eqb_eq in E0. rewrite E0 in *. cbn [Z.add].
      destruct (wf_tbl1 _ d W Er) as (k1 & bs1 & T1). pose proof (tbl_size _ _ _ _ T1) as Hs1e.
      pose proof (tbl_pow _ _ _ _ T1). destruct (Hbk1 0) as [b Hb]; [lia|]. rewrite Hb. cbn [mbind option_bind].
      eapply next_result_kind; [|eapply (bucket_turn addr fuel (counted d it) _ b 1 0 (it_safe it) _ fp)].
      * done.
      * done.
      * by right.
      * intros _. by rewrite Hree.
      * done.
      * done.
      * by rewrite Hbe.
      * rewrite Hroe. unfold rest_of. simpl. rewrite app_nil_r, <-(bucket_tail _ _ _ Hb). done.
      * intros ->. cbn [head fmap option_fmap option_map]. rewrite <-tail_zero, (bucket_tail _ _ _ Hb). cbn [app].
        replace (tail_of (ht d 1) (0 + 1)) with (rest_of (counted d it) 1 0)
          by (rewrite Hroe; unfold rest_of; cbn; by rewrite app_nil_r).
        change (0 + 1) with 1. apply IHs; rewrite ?Hhe, ?Hree; [done|by right|done|lia|]. cbn [Z.eqb] in Hf |- *. lia.
    + assert ((if it_table it =? 0 then entries (ht d 1) else []) = []) as ->.
      { destruct (it_table it =? 0) eqn:E0; [|done]. rewrite andb_true_r in E. by apply (wf_not_rehashing type). }
      eexists; split; [|done]. split; [done|split; [|done]]. unfold started. simpl.
      apply negb_true_iff, andb_false_iff. left. apply Z.eqb_neq. lia.
  - destruct (Hbk (it_index it + 1)) as [b Hb]; [lia|]. rewrite Hb. cbn [mbind option_bind].
    eapply next_result_kind; [|eapply (bucket_turn addr fuel (counted d it) _ b (it_table it) (it_index it + 1) (it_safe it) _ fp)].
    + done.
    + done.
    + done.
    + intros E. rewrite Hree. by apply Hre.
    + lia.
    + done.
    + by rewrite Hbe.
    + rewrite Hroe. unfold rest_of. by rewrite (bucket_tail _ _ _ Hb), <-app_assoc.
    + intros ->. cbn [head fmap option_fmap option_map].
      replace (rest_of d (it_table it) (it_index it)) with (rest_of (counted d it) (it_table it) (it_index it + 1))
        by (rewrite Hroe; unfold rest_of; by rewrite (bucket_tail _ _ _ Hb)).
      apply IHs; rewrite ?Hhe, ?Hree; [done|done|done|lia|].
      destruct (it_table it =? 0)%Z; lia.
Qed.

(** The same for an iterator in use. *)
Lemma next_loop_started addr fuel d t i safe nxt fp :
  wf type d → t = 0 ∨ t = 1 → (t = 1 → dictIsRehashing d = true) → 0 ≤ i ≤ ht_size (ht d t) →
  (Z.to_nat (ht_size (ht d t) - i + (if (t =? 0)%Z then ht_size (ht d 1) + 1 else 0)) < fuel)%nat →
  next_result d (DictIterator t i safe None nxt fp) fp (rest_of d t i)
    (next_loop addr fuel d (DictIterator t i safe None nxt fp)).
Proof.
  intros W Ht Hre Hi Hf. set (it := DictIterator t i safe None nxt fp).
  assert (started it = true) as Hst by (unfold started; cbn; by rewrite (proj2 (Z.eqb_neq i (-1))) by lia).
  pose proof (next_loop_spec addr fuel d it W Ht Hre eq_refl) as X. unfold counted in X. rewrite Hst in X.
  apply X; cbn; [lia|lia|done].
Qed.

Lemma next_loop_S addr fuel d it :
  next_loop addr (S fuel) d it =
    ('(d, it, stop) ← advance addr d it;
     if (stop : bool) then Some (d, it, None)
     else
       match it_entry it with
       | None => next_loop addr fuel d it
       | Some k =>
           '(e, next) ← follow d it k;
           Some (d, DictIterator (it_table it) (it_index it) (it_safe it) (Some k) next (it_fingerprint it), Some e)
       end).
Proof. done. Qed.

(** dictNext returns the next of the entries that are left; the first call counts a
    safe iterator, or takes the fingerprint for an unsafe one. *)
Lemma dictNext_spec addr d it rem :
  wf type d → iter_ok d it rem →
  next_result (counted d it) it
    (if negb (started it) && negb (it_safe it) then dictFingerprint addr d else it_fingerprint it)
    rem (dictNext addr d it).
Proof.
  intros W I. unfold dictNext, dictSlots.
  destruct (wf_ht_size d 0 W (or_introl eq_refl)) as (Hs0 & _).
  destruct (wf_ht_size d 1 W (or_intror eq_refl)) as (Hs1 & _).
  unfold ht in Hs0, Hs1. cbn in Hs0, Hs1.
  destruct I as [Ht Hi Hn|b pre suf Ht Hi Hre Hb Hpre Hnx Hn].
  - pose proof (next_loop_spec addr (Z.to_nat (ht_size (d_ht0 d) + ht_size (d_ht1 d)) + 3) d it W) as X.
    rewrite Ht, Hi in X. apply X; try done; try (by left); unfold ht; cbn; lia.
  - assert (started it = true) as Hst.
    { unfold started. by rewrite (proj2 (Z.eqb_neq (it_index it) (-1))) by lia. }
    unfold counted. rewrite Hst. cbn [negb andb].
    rewrite Nat.add_comm. cbn [Nat.add]. rewrite next_loop_S. unfold advance.
    destruct (it_entry it) as [k0|] eqn:He; [clear Hn|done]. cbn [mbind option_bind it_entry]. rewrite Hnx.
    destruct suf as [|e suf]; cbn [head fmap option_fmap option_map].
    + set (fuel := S (S _)).
      destruct (wf_ht_size d _ W Ht) as (Hs & _).
      assert (it_index it < ht_size (ht d (it_table it))) as Hlt.
      { assert (wf_ht type (ht d (it_table it))) as (_ & _ & [E|(k & bs & T)]) by (destruct Ht as [-> | ->]; apply W).
        - rewrite E in Hb. done.
        - rewrite (tbl_size _ _ _ _ T). rewrite (bucket_tbl _ _ _ _ T) in Hb.
          destruct (Z.leb_spec 0 (it_index it)); [|done]. apply lookup_lt_Some in Hb.
          rewrite (tbl_length _ _ _ _ T) in Hb. lia. }
      eapply next_result_kind; [|apply next_loop_started]; try done; [lia|].
      subst fuel. destruct Ht as [-> | ->]; cbn in Hlt |- *; lia.
    + unfold follow. cbn [it_table it_index].
      pose proof (follow_head d it b pre e suf W Ht Hb Hpre) as F. unfold follow in F. rewrite F. cbn.
      eexists; split; [|split; [done|]].
      2:{ eapply (iter_at d (DictIterator (it_table it) (it_index it) (it_safe it) (Some e.1) (fst <$> head suf) (it_fingerprint it))
            b (pre ++ [e]) suf); try done. by rewrite <-app_assoc. }
      split; [done|split; [|done]]. exact Hst.
Qed.

(** *** Deletion during a safe iteration *)

(** Nothing is rehashed while an iterator is counted, so a deletion only takes the
    entry out of its bucket. *)
Definition removed (k : K) (b : list entry) : list entry := filter (λ e, e.1 ≠ k) b.

Lemma removed_absent k b : k ∉ b.*1 → removed k b = b.
Proof.
  intros Hn. unfold removed. induction b as [|e b IH]; [done|]. rewrite fmap_cons, not_elem_of_cons in Hn.
  rewrite filter_cons_True by naive_solver. f_equal. naive_solver.
Qed.

Lemma removed_app k b c : removed k (b ++ c) = removed k b ++ removed k c.
Proof. apply filter_app. Qed.

Lemma removed_concat k (bs : list (list entry)) : removed k (concat bs) = concat (removed k <$> bs).
Proof. induction bs as [|b bs IH]; [done|]. cbn [concat fmap list_fmap]. by rewrite removed_app, IH. Qed.

Lemma removed_chain k b i v :
  NoDup b.*1 → b !! i = Some (k, v) → take i b ++ drop (S i) b = removed k b.
Proof.
  intros Hnd Hi. rewrite <-(take_drop_middle b i (k, v) Hi) at 3. rewrite <-(take_drop_middle b i (k, v) Hi) in Hnd.
  rewrite fmap_app in Hnd. apply NoDup_app in Hnd as (_ & Hd & Hnd). cbn [fmap list_fmap fst] in Hd, Hnd.
  apply NoDup_cons in Hnd as [Hn _].
  rewrite removed_app. f_equal.
  - rewrite removed_absent; [done|]. intros Hin. by apply (Hd k Hin), list_elem_of_here.
  - unfold removed. rewrite filter_cons_False by naive_solver.
    symmetry. by apply (removed_absent k).
Qed.

(** [d'] is [d] without the entry of [k]; its buckets are where they were. *)
Record bucket_removed d d' (k : K) : Prop := BucketRemoved {
  br_bucket t i : bucket (ht d' t) i = removed k <$> bucket (ht d t) i;
  br_rest t i : 0 ≤ i → rest_of d' t i = removed k (rest_of d t i);
  br_entries : all_entries d' = removed k (all_entries d);
  br_rehashing : dictIsRehashing d' = dictIsRehashing d;
  br_iterators : d_iterators d' = d_iterators d
}.

Lemma tail_removed h h' k (Hb : ∀ i, bucket h' i = removed k <$> bucket h i) i :
  (ht_table h' = None ↔ ht_table h = None) → 0 ≤ i → tail_of h' i = removed k (tail_of h i).
Proof.
  intros Hn Hi. unfold tail_of. destruct (ht_table h) as [bs|] eqn:E, (ht_table h') as [bs'|] eqn:E'; try naive_solver.
  assert (bs' = removed k <$> bs) as ->.
  { apply list_eq. intros j. rewrite list_lookup_fmap. specialize (Hb (Z.of_nat j)). unfold bucket in Hb.
    rewrite E, E' in Hb. cbn [mbind option_bind] in Hb. rewrite (proj2 (Z.leb_le 0 _)), Nat2Z.id in Hb by lia. exact Hb. }
  rewrite removed_concat. f_equal. by rewrite fmap_drop.
Qed.

Lemma bucket_removed_intro d d' k :
  (∀ t i, bucket (ht d' t) i = removed k <$> bucket (ht d t) i) →
  (∀ t, ht_table (ht d' t) = None ↔ ht_table (ht d t) = None) →
  d_rehashidx d' = d_rehashidx d → d_iterators d' = d_iterators d → bucket_removed d d' k.
Proof.
  intros Hb Hn Hr Hi.
  assert (∀ t i, 0 ≤ i → tail_of (ht d' t) i = removed k (tail_of (ht d t) i)) as Ht by (intros; by apply tail_removed).
  assert (∀ t, entries (ht d' t) = removed k (entries (ht d t))) as He by (intros t; by apply (Ht t 0)).
  split; [done| | |by unfold dictIsRehashing; rewrite Hr|done].
  - intros t i Hi0. unfold rest_of. rewrite removed_app, Ht by lia. f_equal. by destruct (t =? 0).
  - unfold all_entries. rewrite removed_app. exact (f_equal2 app (He 0) (He 1)).
Qed.

(** A key is in one bucket only. *)
Lemma other_bucket d t i b t' i' b' k :
  wf type d → t = 0 ∨ t = 1 → k ∈ b.*1 → bucket (ht d t) i = Some b →
  t' = 0 ∨ t' = 1 → bucket (ht d t') i' = Some b' → (t', i') ≠ (t, i) → k ∉ b'.*1.
Proof.
  intros (W0 & W1 & Hnd & _) Ht Hk Hb Ht' Hb' Hne Hk'. unfold all_entries in Hnd. rewrite fmap_app in Hnd.
  apply NoDup_app in Hnd as (Hn0 & Hd & Hn1).
  assert (∀ t i b, bucket (ht d t) i = Some b → k ∈ b.*1 → k ∈ (entries (ht d t)).*1) as Hin.
  { clear. intros t i b (bs & Hbs & _ & Hb)%bucket_lookup (e & -> & He)%list_elem_of_fmap. apply list_elem_of_fmap. exists e. split; [done|].
    unfold entries. rewrite Hbs. apply elem_of_concat. exists b. split; [done|by eapply list_elem_of_lookup_2]. }
  pose proof (Hin _ _ _ Hb Hk) as K1. pose proof (Hin _ _ _ Hb' Hk') as K2.
  destruct (decide (t' = t)) as [->|Htt]; [|by destruct Ht as [-> | ->], Ht' as [-> | ->]; try done; apply (Hd k)].
  assert (NoDup (entries (ht d t)).*1) as Hn by (by destruct Ht as [-> | ->]).
  apply bucket_lookup in Hb as (bs & Hbs & Hi & Hl). apply bucket_lookup in Hb' as (bs' & Hbs' & Hi' & Hl').
  rewrite Hbs in Hbs'. injection Hbs' as <-. unfold entries in Hn. rewrite Hbs in Hn.
  destruct (concat_insert bs _ _ Hl) as (l1 & l2 & E & E2). specialize (E2 []).
  assert (k ∈ (l1 ++ l2).*1) as Hkl.
  { apply list_elem_of_fmap in Hk' as (e & -> & He). apply list_elem_of_fmap. exists e. split; [done|].
    change (l1 ++ l2) with (l1 ++ [] ++ l2). rewrite <-E2. apply elem_of_concat. exists b'. split; [done|].
    apply list_elem_of_lookup. exists (Z.to_nat i'). rewrite list_lookup_insert_ne; [done|]. intros X. apply Hne. f_equal. lia. }
  rewrite E, !fmap_app in Hn. apply NoDup_app in Hn as (_ & Hd1 & Hn). apply NoDup_app in Hn as (_ & Hd2 & _).
  rewrite fmap_app in Hkl. apply elem_of_app in Hkl as [Hkl|Hkl].
  - apply (Hd1 k Hkl). apply elem_of_app. by left.
  - by apply (Hd2 k Hk).
Qed.

Lemma ht_cases t : ∃ t', (t' = 0 ∨ t' = 1) ∧ ∀ d, ht d t = ht d t'.
Proof. unfold ht. destruct (t =? 0); [exists 0|exists 1]; split; auto. Qed.

(** Unlinking the entry of a chain. *)
Lemma set_bucket_removed d t i b h k n :
  wf type d → t = 0 ∨ t = 1 → k ∈ b.*1 → bucket (ht d t) i = Some b → set_bucket (ht d t) i (removed k b) = Some h →
  bucket_removed d (set_ht d t (set_used h n)) k.
Proof.
  intros W Ht Hk Hb Hs. pose proof Hb as (bs & Hbs & Hi & Hl)%bucket_lookup.
  unfold set_bucket in Hs. rewrite Hbs in Hs. cbn [mbind option_bind] in Hs. rewrite Hb in Hs. cbn in Hs. injection Hs as <-.
  set (h := set_used _ n).
  assert (∀ i', bucket h i' = removed k <$> bucket (ht d t) i') as Hh.
  { intros i'. destruct (bucket (ht d t) i') as [b'|] eqn:E'.
    - pose proof E' as (bs' & Hbs' & Hi' & Hl')%bucket_lookup. rewrite Hbs in Hbs'. injection Hbs' as <-.
      unfold bucket, h. cbn [ht_table set_used mbind option_bind]. rewrite (proj2 (Z.leb_le 0 i')) by lia.
      destruct (decide (i' = i)) as [->|Hii].
      + rewrite list_lookup_insert_eq by (by eapply lookup_lt_Some). cbn. by rewrite Hb in E'; injection E' as ->.
      + rewrite list_lookup_insert_ne by lia. rewrite Hl'. cbn. f_equal. symmetry. apply removed_absent.
        apply (other_bucket d t i b t i' b'); [done..|naive_solver].
    - unfold bucket in E' |- *. rewrite Hbs in E'. unfold h. cbn [ht_table set_used mbind option_bind fmap option_fmap option_map] in E' |- *.
      destruct (0 <=? i'); [|done]. apply lookup_ge_None in E'. apply lookup_ge_None. by rewrite length_insert. }
  apply bucket_removed_intro; [| |by destruct Ht as [-> | ->]|by destruct Ht as [-> | ->]].
  - intros t1 i'. destruct (ht_cases t1) as (t' & Ht' & E). rewrite !E. clear E.
    destruct (decide (t' = t)) as [->|Hne].
    + rewrite <-Hh. f_equal. by destruct Ht as [-> | ->].
    + replace (ht (set_ht d t h) t') with (ht d t') by (by destruct Ht as [-> | ->], Ht' as [-> | ->]).
      destruct (bucket (ht d t') i') as [b'|] eqn:E'; [|done]. cbn. f_equal. symmetry. apply removed_absent.
      apply (other_bucket d t i b t' i' b'); [done..|naive_solver].
  - intros t'. unfold ht. destruct Ht as [-> | ->]; cbn; destruct (t' =? 0); cbn; try done; cbn in Hbs; by rewrite Hbs.
Qed.

Lemma rehash_step_counted d : d_iterators d ≠ 0 → _dictRehashStep type d = Some d.
Proof. intros Hi. unfold _dictRehashStep. by rewrite (proj2 (Z.eqb_neq _ _)). Qed.

Lemma delete_in_removed d t k0 bs k :
  wf type d → t = 0 ∨ t = 1 → tbl type (ht d t) k0 bs →
  ∃ r, delete_in type d t k = Some r ∧
    match r with None => k ∉ (entries (ht d t)).*1 | Some d' => wf type d' ∧ bucket_removed d d' k ∧ k ∈ (all_entries d).*1 end.
Proof.
  intros W Ht T. destruct (delete_in_spec type d t k0 bs k W Ht T) as (r & E & Hr). exists r. split; [done|].
  destruct r as [d'|]; [|done]. destruct Hr as (W' & v & Hp). split; [done|]. split; [|rewrite Hp; by left].
  unfold delete_in in E. apply bind_Some in E as (b & Hb & E).
  destruct (chain_find type k b) as [i|] eqn:Ef; [|done]. apply chain_find_Some in Ef as (v' & Hv); [|done].
  assert (k ∈ b.*1) as Hk by (apply list_elem_of_fmap; exists (k, v'); split; [done|by eapply list_elem_of_lookup_2]).
  assert (NoDup b.*1) as Hnd.
  { destruct W as (_ & _ & Hnd & _). unfold all_entries in Hnd. rewrite fmap_app in Hnd. apply NoDup_app in Hnd as (H0 & _ & H1).
    assert (NoDup (entries (ht d t)).*1) as Hn by (by destruct Ht as [-> | ->]).
    apply bucket_lookup in Hb as (bs' & Hbs & _ & Hl). unfold entries in Hn. rewrite Hbs in Hn.
    destruct (concat_insert bs' _ _ Hl) as (l1 & l2 & Ec & _). rewrite Ec, !fmap_app in Hn.
    apply NoDup_app in Hn as (_ & _ & Hn). by apply NoDup_app in Hn as (? & _). }
  rewrite (removed_chain k b i v' Hnd Hv) in E. apply bind_Some in E as (h & Hs & [= <-]).
  by eapply set_bucket_removed.
Qed.

Lemma bucket_removed_absent d k : wf type d → k ∉ (all_entries d).*1 → bucket_removed d d k.
Proof.
  intros W Hk.
  assert (∀ t i b, bucket (ht d t) i = Some b → k ∉ b.*1) as Hb.
  { intros t i b Hb Hin. apply Hk. destruct (ht_cases t) as (t' & Ht' & E). rewrite E in Hb. clear E.
    unfold all_entries. rewrite fmap_app, elem_of_app.
    assert (k ∈ (entries (ht d t')).*1) as Hin'; [|destruct Ht' as [-> | ->]; auto].
    apply bucket_lookup in Hb as (bs & Hbs & _ & Hl). apply list_elem_of_fmap in Hin as (e & -> & He). apply list_elem_of_fmap. exists e.
    split; [done|]. unfold entries. rewrite Hbs. apply elem_of_concat. exists b. split; [done|by eapply list_elem_of_lookup_2]. }
  apply bucket_removed_intro; try done. intros t i. destruct (bucket (ht d t) i) as [b|] eqn:E; [|done].
  cbn. f_equal. symmetry. by eapply removed_absent, Hb.
Qed.

(** Deletion while an iterator is counted. *)
Lemma counted_delete d k :
  wf type d → d_iterators d ≠ 0 →
  ∃ d', dictGenericDelete type d k = Some (d', if decide (k ∈ (all_entries d).*1) then DICT_OK else DICT_ERR) ∧
    wf type d' ∧ bucket_removed d d' k.
Proof.
  intros W Hi. unfold dictGenericDelete. destruct (Z.eqb_spec (ht_size (d_ht0 d)) 0) as [Hz|Hz].
  { exists d. pose proof (size_zero_entries type d W Hz) as E. rewrite decide_False by (rewrite E; apply not_elem_of_nil).
    split; [done|split; [done|]]. apply bucket_removed_absent; [done|]. rewrite E. apply not_elem_of_nil. }
  rewrite (rehash_step_counted d Hi).
  replace (if dictIsRehashing d then Some d else Some d) with (Some d) by (by destruct (dictIsRehashing d)). cbn [mbind option_bind].
  assert (ht_table (d_ht0 d) ≠ None) as Hn by (by rewrite <-(size_table type d W)).
  destruct (wf_tbl0 type d W Hn) as (k0 & bs0 & T0).
  destruct (delete_in_removed d 0 k0 bs0 k W (or_introl eq_refl) T0) as (r & -> & Hr). cbn [mbind option_bind].
  destruct r as [d'|].
  { destruct Hr as (W' & Hd & Hk). exists d'. by rewrite decide_True. }
  assert (∀ l, entries (d_ht1 d) = l → k ∉ l.*1 → k ∉ (all_entries d).*1) as Hnone.
  { intros l <- Hl. unfold all_entries. rewrite fmap_app, not_elem_of_app. by split. }
  destruct (dictIsRehashing d) eqn:Hre; cbn [negb].
  - destruct (wf_tbl1 type d W Hre) as (k1 & bs1 & T1).
    destruct (delete_in_removed d 1 k1 bs1 k W (or_intror eq_refl) T1) as (r & -> & Hr1). cbn [mbind option_bind].
    destruct r as [d'|].
    + destruct Hr1 as (W' & Hd & Hk). exists d'. by rewrite decide_True.
    + specialize (Hnone _ eq_refl Hr1). exists d. rewrite decide_False by done. split; [done|split; [done|by apply bucket_removed_absent]].
  - specialize (Hnone _ (wf_not_rehashing type d W Hre) (not_elem_of_nil _)). exists d. rewrite decide_False by done.
    split; [done|split; [done|by apply bucket_removed_absent]].
Qed.

(** An iterator goes on undisturbed when an entry that it does not have ahead is
    deleted. *)
Lemma iter_ok_removed d d' it rem k : iter_ok d it rem → bucket_removed d d' k → k ∉ rem.*1 → iter_ok d' it rem.
Proof.
  intros [Ht Hi Hn|b pre suf Ht Hi Hre Hb -> Hnx Hn] R Hk.
  - rewrite <-(removed_absent k (all_entries d) Hk), <-(br_entries _ _ _ R). by apply iter_fresh.
  - rewrite fmap_app, not_elem_of_app in Hk. destruct Hk as [Hks Hkr].
    rewrite <-(removed_absent k (rest_of _ _ _) Hkr), <-(br_rest _ _ _ R) by done.
    apply (iter_at d' it (removed k (pre ++ suf)) (removed k pre) suf); try done.
    + rewrite (br_rehashing _ _ _ R). done.
    + by rewrite (br_bucket _ _ _ R), Hb.
    + by rewrite removed_app, (removed_absent k suf Hks).
Qed.

Lemma bucket_in_entries d t i b e : t = 0 ∨ t = 1 → bucket (ht d t) i = Some b → e ∈ b → e ∈ all_entries d.
Proof.
  intros Ht (bs & Hbs & _ & Hl)%bucket_lookup He. unfold all_entries. apply elem_of_app.
  assert (e ∈ entries (ht d t)) as Hin; [|destruct Ht as [-> | ->]; auto].
  unfold entries. rewrite Hbs. apply elem_of_concat. exists b. split; [done|by eapply list_elem_of_lookup_2].
Qed.

(** What is ahead of an iterator is in the table. *)
Lemma rest_of_entries d t i e : t = 0 ∨ t = 1 → e ∈ rest_of d t i → e ∈ all_entries d.
Proof.
  intros Ht. unfold rest_of. rewrite elem_of_app. intros [Hin|Hin].
  - unfold all_entries. apply elem_of_app. assert (e ∈ entries (ht d t)) as He; [|destruct Ht as [-> | ->]; auto].
    unfold tail_of in Hin. unfold entries. destruct (ht_table (ht d t)) as [bs|]; [|done]. rewrite <-(take_drop (Z.to_nat (i + 1)) bs).
    rewrite concat_app. apply elem_of_app. by right.
  - destruct (t =? 0); [|by apply not_elem_of_nil in Hin]. unfold all_entries. apply elem_of_app. by right.
Qed.

Lemma iter_ok_entries d it rem e : iter_ok d it rem → e ∈ rem → e ∈ all_entries d.
Proof.
  intros [Ht Hi Hn|b pre suf Ht Hi Hre Hb -> Hnx Hn] He; [done|]. apply elem_of_app in He as [He|He].
  - eapply bucket_in_entries; [done|done|]. apply elem_of_app. by right.
  - by eapply rest_of_entries.
Qed.

(** ** Loops over a dictionary *)

(** A loop with its iterator: the iterator is released after the last entry. *)
Definition foreach {St} (get : St → option dict) (put : dict → St → St) (body : St → entry → option St)
    (addr : Z → Z) it (s : St) : option St :=
  d ← get s;
  '(s, it) ← while_next get put body addr (Z.to_nat (dictSize d)) it s;
  d ← get s;
  d ← dictReleaseIterator addr d it;
  Some (put d s).

Section loops.
Context {St : Type} (get : St → option dict) (put : dict → St → St) (body : St → entry → option St) (addr : Z → Z).
Context (get_put : ∀ s d d', get s = Some d → get (put d' s) = Some d').
Context (put_get : ∀ s d, get s = Some d → put d s = s).
(** The invariant of the loop, which speaks of the entries that are left. *)
Context (Q : list entry → St → Prop).

Definition body_ok : Prop := ∀ s d e rem it,
  get s = Some d → wf type d → e ∈ all_entries d → iter_ok d it rem → Q (e :: rem) s →
  ∃ s' d', body s e = Some s' ∧ get s' = Some d' ∧ wf type d' ∧ iter_ok d' it rem ∧ Q rem s'.

(** The body runs once for each entry, in the order of the table, when it keeps the
    dictionary well formed and what is ahead of the iterator. *)
Lemma while_next_spec fuel (Hbody : body_ok) : ∀ rem it s d,
  get s = Some d → wf type d → iter_ok d it rem → (length rem ≤ fuel)%nat → Q rem (put (counted d it) s) →
  ∃ s' it' d', while_next get put body addr fuel it s = Some (s', it') ∧ get s' = Some d' ∧ wf type d' ∧
    Q [] s' ∧ same_kind it it' (if negb (started it) && negb (it_safe it) then dictFingerprint addr d else it_fingerprint it).
Proof.
  induction fuel as [|fuel IH]; intros rem it s d Hg W I Hl HQ;
    pose proof (dictNext_spec addr d it rem W I) as (it' & Kd & Hn); cbn [while_next]; rewrite Hg; cbn [mbind option_bind];
    pose proof (get_put s d (counted d it) Hg) as Hg0;
    assert (wf type (counted d it)) as W0 by (by destruct (counted_cases d it) as [-> | ->]).
  - destruct rem as [|e rem]; [|simpl in Hl; lia]. rewrite Hn. cbn. by exists (put (counted d it) s), it', (counted d it).
  - destruct rem as [|e rem].
    + rewrite Hn. cbn. by exists (put (counted d it) s), it', (counted d it).
    + destruct Hn as [Hn I']. rewrite Hn. cbn [mbind option_bind]. pose proof Kd as (Ks & Kst & Kf).
      assert (e ∈ all_entries (counted d it)) as Hin.
      { destruct (counted_cases d it) as [-> | ->]; [|rewrite all_entries_set_iterators]; (eapply iter_ok_entries; [exact I|by left]). }
      destruct (Hbody _ _ e rem it' Hg0 W0 Hin I' HQ) as (s1 & d1 & -> & Hg1 & W1 & I1 & Q1). cbn [mbind option_bind].
      assert (counted d1 it' = d1) as Hc by (unfold counted; by rewrite Kst).
      destruct (IH rem it' s1 d1 Hg1 W1 I1) as (s' & it'' & d' & E & Hg' & W' & Q' & (K1 & K2 & K3)).
      * simpl in Hl. lia.
      * by rewrite Hc, (put_get _ _ Hg1).
      * exists s', it'', d'. split; [done|split; [done|split; [done|split; [done|]]]]. rewrite Kst in K3. cbn [negb andb] in K3.
        split; [congruence|split; [done|congruence]].
Qed.

End loops.

Lemma fuel_entries d : wf type d → Z.to_nat (dictSize d) = length (all_entries d).
Proof. intros W. rewrite (dictSize_entries type) by done. lia. Qed.

(** With an unsafe iterator the body may not change the dictionary. *)
Lemma foreach_unsafe {St} (get : St → option dict) (put : dict → St → St) (body : St → entry → option St) (addr : Z → Z)
    (Q : list entry → St → Prop) d s :
  (∀ s d d', get s = Some d → get (put d' s) = Some d') → (∀ s d, get s = Some d → put d s = s) →
  get s = Some d → wf type d → Q (all_entries d) s →
  (∀ s e rem, get s = Some d → e ∈ all_entries d → Q (e :: rem) s → ∃ s', body s e = Some s' ∧ get s' = Some d ∧ Q rem s') →
  ∃ s', foreach get put body addr dictGetIterator s = Some s' ∧ get s' = Some d ∧ Q [] s'.
Proof.
  intros Hgp Hpg Hg W HQ Hbody. unfold foreach. rewrite Hg. cbn [mbind option_bind].
  destruct (while_next_spec get put body addr Hgp Hpg
    (λ rem s, get s = Some d ∧ (∃ pre, all_entries d = pre ++ rem) ∧ Q rem s) (Z.to_nat (dictSize d))) with
    (rem := all_entries d) (it := @dictGetIterator K) (s := s) (d := d) as (s' & it' & d' & -> & Hg' & W' & (Hgd & _ & HQ') & (K1 & K2 & K3)).
  - intros s1 d1 e rem it Hg1 W1 _ I1 (Hgd & (pre & Hpre) & Q1). assert (d1 = d) as -> by congruence.
    destruct (Hbody s1 e rem Hg1) as (s2 & E & Hg2 & Q2); [rewrite Hpre; apply elem_of_app; right; by left|done|].
    exists s2, d. split; [done|split; [done|split; [done|split]]].
    + done.
    + split; [done|split; [|done]]. exists (pre ++ [e]). by rewrite <-app_assoc.
  - done.
  - done.
  - by apply iter_fresh.
  - by rewrite fuel_entries.
  - unfold counted. cbn. rewrite (Hpg s d Hg). split; [done|split; [by exists []|done]].
  - cbn [mbind option_bind]. rewrite Hg'. cbn [mbind option_bind]. assert (d' = d) as -> by congruence.
    unfold dictReleaseIterator. unfold started in K2. rewrite K2, K1, K3. cbn [it_safe dictGetIterator started it_index it_table negb andb Z.eqb].
    rewrite Z.eqb_refl. cbn. rewrite (Hpg s' d Hg'). by exists s'.
Qed.

(** With a safe iterator the dictionary may change; nothing is rehashed until the
    iterator is released. *)
Lemma foreach_safe {St} (get : St → option dict) (put : dict → St → St) (body : St → entry → option St) (addr : Z → Z)
    (Q : list entry → St → Prop) d s :
  (∀ s d d', get s = Some d → get (put d' s) = Some d') → (∀ s d, get s = Some d → put d s = s) →
  get s = Some d → wf type d → 0 ≤ d_iterators d < 2 ^ 31 - 1 →
  Q (all_entries d) (put (set_iterators d (d_iterators d + 1)) s) →
  (∀ s d1 e rem it, get s = Some d1 → wf type d1 → d_iterators d1 = d_iterators d + 1 → e ∈ all_entries d1 → iter_ok d1 it rem → Q (e :: rem) s →
     ∃ s' d', body s e = Some s' ∧ get s' = Some d' ∧ wf type d' ∧ d_iterators d' = d_iterators d + 1 ∧ iter_ok d' it rem ∧ Q rem s') →
  ∃ s' d', foreach get put body addr dictGetSafeIterator s = Some (put (set_iterators d' (d_iterators d)) s') ∧ get s' = Some d' ∧
    wf type d' ∧ Q [] s'.
Proof.
  intros Hgp Hpg Hg W Hit HQ Hbody. unfold foreach. rewrite Hg. cbn [mbind option_bind].
  destruct (while_next_spec get put body addr Hgp Hpg
    (λ rem s, (∀ d', get s = Some d' → d_iterators d' = d_iterators d + 1) ∧ Q rem s) (Z.to_nat (dictSize d))) with
    (rem := all_entries d) (it := @dictGetSafeIterator K) (s := s) (d := d) as (s' & it' & d' & -> & Hg' & W' & (Hgd & HQ') & (K1 & K2 & K3)).
  - intros s1 d1 e rem it Hg1 W1 Hin1 I1 (Hgd & Q1).
    destruct (Hbody s1 d1 e rem it Hg1 W1 (Hgd d1 Hg1) Hin1 I1 Q1) as (s2 & d2 & E & Hg2 & W2 & Hi2 & I2 & Q2).
    exists s2, d2. split; [done|split; [done|split; [done|split; [done|split; [|done]]]]]. intros d3. rewrite Hg2. by intros [= <-].
  - done.
  - done.
  - by apply iter_fresh.
  - by rewrite fuel_entries.
  - unfold counted. cbn [started dictGetSafeIterator it_index it_table it_safe Z.eqb negb andb].
    rewrite wraps_small by (unlimit; lia). split; [|done]. intros d3. rewrite (Hgp s d _ Hg). by intros [= <-].
  - cbn [mbind option_bind]. rewrite Hg'. cbn [mbind option_bind]. pose proof (Hgd d' Hg') as Hi.
    unfold dictReleaseIterator. unfold started in K2. rewrite K2, K1. cbn [it_safe dictGetSafeIterator mbind option_bind].
    rewrite Hi. replace (d_iterators d + 1 - 1) with (d_iterators d) by lia. rewrite wraps_small by (unlimit; lia).
    by exists s', d'.
Qed.

(** ** Random entries *)

Lemma random_bucket_spec (pick : Z → option (list entry)) rs :
  (∀ r, r ∈ rs → is_Some (pick r)) → (∃ r e b, r ∈ rs ∧ pick r = Some (e :: b)) →
  ∃ r e b rs' pre, random_bucket pick rs = Some (e :: b, rs') ∧ rs = pre ++ r :: rs' ∧ pick r = Some (e :: b).
Proof.
  induction rs as [|r rs IH]; intros Hp (r0 & e0 & b0 & Hr0 & Hb0); [by apply not_elem_of_nil in Hr0|].
  cbn [random_bucket]. destruct (Hp r) as [b Hb]; [by left|]. rewrite Hb. cbn [mbind option_bind].
  destruct b as [|e b].
  - destruct IH as (r1 & e & b & rs' & pre & E & -> & Hpk).
    + intros r' Hr'. apply Hp. by right.
    + apply elem_of_cons in Hr0 as [->|Hr0]; [congruence|]. by exists r0, e0, b0.
    + exists r1, e, b, rs', (r :: pre). done.
  - by exists r, e, b, rs, [].
Qed.

(** The values that [random()] returns on Windows. *)
Definition random_value (r : Z) : Prop := 0 ≤ r < 2 ^ 31.

Lemma random_pick_bucket d r :
  wf type d → all_entries d ≠ [] → random_value r →
  ∃ t i b, (t = 0 ∨ t = 1) ∧ random_pick d r = Some b ∧ bucket (ht d t) i = Some b.
Proof.
  intros W Hne [Hr0 Hr1]. unfold random_pick.
  assert (ht_table (d_ht0 d) ≠ None) as Hn.
  { intros E. apply Hne, (size_zero_entries type d W), (size_table type d W), E. }
  destruct (wf_tbl0 type d W Hn) as (k0 & bs0 & T0). pose proof (tbl_pow _ _ _ _ T0) as P0.
  rewrite (wrapu_small 64 r) by (unlimit; lia). unfold ht in T0. cbn in T0.
  destruct (dictIsRehashing d) eqn:Hre.
  - destruct (wf_tbl1 type d W Hre) as (k1 & bs1 & T1). pose proof (tbl_pow _ _ _ _ T1) as P1. unfold ht in T1. cbn in T1.
    rewrite (tbl_size _ _ _ _ T0), (tbl_size _ _ _ _ T1). rewrite (wrapu_small 64) by (unlimit; lia).
    pose proof (Z.mod_pos_bound r (2 ^ k0 + 2 ^ k1) ltac:(lia)) as Hm. rewrite wrapu_small by (unlimit; lia).
    destruct (Z.leb_spec (2 ^ k0) (r mod (2 ^ k0 + 2 ^ k1))) as [Hle|Hlt].
    + destruct (bucket_is_Some _ _ _ _ T1 (r mod (2 ^ k0 + 2 ^ k1) - 2 ^ k0)) as [b Hb]; [lia|].
      exists 1, (r mod (2 ^ k0 + 2 ^ k1) - 2 ^ k0), b. split; [by right|done].
    + destruct (bucket_is_Some _ _ _ _ T0 (r mod (2 ^ k0 + 2 ^ k1))) as [b Hb]; [lia|].
      exists 0, (r mod (2 ^ k0 + 2 ^ k1)), b. split; [by left|done].
  - rewrite (land_mask _ _ _ _ T0). pose proof (Z.mod_pos_bound r (2 ^ k0) ltac:(lia)). rewrite wrapu_small by (unlimit; lia).
    destruct (bucket_is_Some _ _ _ _ T0 (r mod 2 ^ k0)) as [b Hb]; [lia|].
    exists 0, (r mod 2 ^ k0), b. split; [by left|done].
Qed.

(** A chain is short enough for its [int] length. *)
Lemma chain_length d t i b : wf type d → t = 0 ∨ t = 1 → dictSize d < 2 ^ 29 → bucket (ht d t) i = Some b → Z.of_nat (length b) < 2 ^ 29.
Proof.
  intros W Ht Hs (bs & Hbs & _ & Hl)%bucket_lookup. rewrite (dictSize_entries type d W) in Hs. unfold all_entries in Hs. rewrite length_app in Hs.
  assert (length b ≤ length (entries (ht d t)))%nat as Hle.
  { unfold entries. rewrite Hbs. destruct (concat_insert bs _ _ Hl) as (l1 & l2 & E & _). rewrite E, !length_app. lia. }
  destruct Ht as [-> | ->]; cbn in Hle; lia.
Qed.

(** dictGetRandomKey returns an entry of the table, when one of the draws finds a
    bucket that is not empty and there is one more for the position in the chain. *)
Lemma dictGetRandomKey_spec d rs :
  wf type d → dictSize d < 2 ^ 29 → all_entries d ≠ [] → Forall random_value rs →
  ∃ d', (if dictIsRehashing d then _dictRehashStep type d else Some d) = Some d' ∧ wf type d' ∧ all_entries d' ≡ₚ all_entries d ∧
    ((∃ pre r r', rs = pre ++ [r; r'] ∧ ∃ e b, random_pick d' r = Some (e :: b)) →
     ∃ rs' e, dictGetRandomKey d rs = Some (d', rs', Some e) ∧ e ∈ all_entries d ∧ suffix rs' rs).
Proof.
  intros W Hs Hne Hr.
  assert (∃ d', (if dictIsRehashing d then _dictRehashStep type d else Some d) = Some d' ∧ wf type d' ∧ all_entries d' ≡ₚ all_entries d) as (d' & E & W' & Hp).
  { destruct (dictRehashStep_spec type d W) as (d' & E & W' & Hp & _). exists d'. done. }
  exists d'. split; [done|split; [done|split; [done|]]]. intros (pre & r & r' & -> & e0 & b0 & Hpick).
  assert (all_entries d' ≠ []) as Hne' by (intros E'; rewrite E' in Hp; by apply Permutation_nil in Hp).
  unfold dictGetRandomKey. rewrite (proj2 (Z.eqb_neq _ _)).
  2:{ rewrite (dictSize_entries type d W). destruct (all_entries d); [done|]. simpl. lia. }
  rewrite E. cbn [mbind option_bind].
  destruct (random_bucket_spec (random_pick d') (pre ++ [r])) as (r1 & e & b & rs' & pre' & Eb & Hsplit & Hp1).
  { intros x Hx. destruct (random_pick_bucket d' x W' Hne') as (t & i & b & _ & -> & _); [|done].
    rewrite Forall_forall in Hr. apply Hr. rewrite elem_of_app in Hx |- *. set_solver. }
  { exists r, e0, b0. split; [apply elem_of_app; right; by left|done]. }
  assert (random_bucket (random_pick d') (pre ++ [r; r']) = Some (e :: b, rs' ++ [r'])) as Eb'.
  { clear -Eb. replace (pre ++ [r; r']) with ((pre ++ [r]) ++ [r']) by (by rewrite <-app_assoc). revert Eb. generalize (pre ++ [r]) as l.
    induction l as [|x l IH]; [done|]. cbn. destruct (random_pick d' x) as [[|y c]|]; cbn; [done|by intros [= <- <- <-]|done]. }
  rewrite Eb'. cbn [mbind option_bind].
  destruct (random_pick_bucket d' r1 W' Hne') as (t & i & b1 & Ht & Hp1' & Hb1).
  { rewrite Forall_forall in Hr. apply Hr.
    replace (pre ++ [r; r']) with ((pre ++ [r]) ++ [r']) by (by rewrite <-app_assoc). rewrite Hsplit. set_solver. }
  assert (b1 = e :: b) as -> by congruence.
  assert (dictSize d' < 2 ^ 29) as Hs' by (by rewrite (same_size type d d')).
  pose proof (chain_length d' t i _ W' Ht Hs' Hb1) as Hlen.
  assert (∀ x, x ∈ e :: b → x ∈ all_entries d) as Hall by (intros x Hx; rewrite <-Hp; by eapply bucket_in_entries).
  destruct (rs' ++ [r']) as [|r2 rs2] eqn:Ers; [by destruct rs'|].
  assert (random_value r2) as [Hr20 Hr21].
  { rewrite Forall_forall in Hr. apply Hr. replace (pre ++ [r; r']) with ((pre ++ [r]) ++ [r']) by (by rewrite <-app_assoc).
    rewrite Hsplit, <-app_assoc. cbn. rewrite Ers. set_solver. }
  rewrite wraps_small by (unlimit; lia). pose proof (Z.rem_bound_pos r2 (Z.of_nat (length (e :: b))) ltac:(lia) ltac:(simpl; lia)) as Hm.
  rewrite (proj2 (Z.leb_le 0 _)) by lia.
  destruct (lookup_lt_is_Some_2 (e :: b) (Z.to_nat (r2 `rem` Z.of_nat (length (e :: b))))) as [x Hx]; [lia|].
  rewrite Hx. cbn. exists rs2, x. split; [done|split; [by apply Hall, (list_elem_of_lookup_2 _ _ _ Hx)|]].
  exists (pre' ++ [r1; r2]). replace (pre ++ [r; r']) with ((pre ++ [r]) ++ [r']) by (by rewrite <-app_assoc).
  rewrite Hsplit, <-!app_assoc. cbn. by rewrite Ers.
Qed.

(** ** Tables while iterators may be counted *)

Lemma set_bucket_ht d t (h : @dictht K V) : d_iterators (set_ht d t h) = d_iterators d.
Proof. unfold set_ht. by destruct (t =? 0). Qed.

Lemma dictRehash_loop_iterators n : ∀ d d' r, dictRehash_loop type n d = Some (d', r) → d_iterators d' = d_iterators d.
Proof.
  induction n as [|n IH]; intros d d' r Hr; cbn [dictRehash_loop] in Hr; [by injection Hr as <- _|].
  destruct (_ =? 0); [by injection Hr as <- _|]. destruct (_ <=? _); [done|]. inv_bind. case_match. inv_bind. by apply IH in Hr.
Qed.

Lemma rehash_step_iterators d d' : _dictRehashStep type d = Some d' → d_iterators d' = d_iterators d ∧ (d_iterators d ≠ 0 → d' = d).
Proof.
  unfold _dictRehashStep. destruct (Z.eqb_spec (d_iterators d) 0) as [E|E].
  - intros Hr. apply bind_Some in Hr as ([d1 r] & Hr & [= <-]). split; [|lia]. unfold dictRehash in Hr.
    destruct (negb _); [by injection Hr as <- _|]. by eapply dictRehash_loop_iterators.
  - by intros [= <-].
Qed.

Lemma maybe_rehash_iterators d d' : (if dictIsRehashing d then _dictRehashStep type d else Some d) = Some d' →
  d_iterators d' = d_iterators d ∧ (d_iterators d ≠ 0 → d' = d).
Proof. destruct (dictIsRehashing d); [apply rehash_step_iterators|by intros [= <-]]. Qed.

(** [d'] has the entries of [d], and is [d] when an iterator is counted. *)
Definition kept d d' : Prop :=
  wf type d' ∧ dmap d' = dmap d ∧ d_iterators d' = d_iterators d ∧ (d_iterators d ≠ 0 → d' = d).

Definition removed_to d d' (k : K) : Prop :=
  wf type d' ∧ dmap d' = delete k (dmap d) ∧ d_iterators d' = d_iterators d ∧ (d_iterators d ≠ 0 → bucket_removed d d' k).

Lemma kept_refl d : wf type d → kept d d.
Proof. done. Qed.

Lemma kept_trans d1 d2 d3 : kept d1 d2 → kept d2 d3 → kept d1 d3.
Proof. intros (W1 & M1 & I1 & E1) (W2 & M2 & I2 & E2). split_and!; [done|congruence|congruence|]. intros Hi. rewrite E2; [auto|congruence]. Qed.

Lemma kept_removed d1 d2 d3 k : kept d1 d2 → removed_to d2 d3 k → removed_to d1 d3 k.
Proof. intros (W1 & M1 & I1 & E1) (W2 & M2 & I2 & E2). split_and!; [done|congruence|congruence|]. intros Hi. rewrite <-(E1 Hi). apply E2. congruence. Qed.

Lemma dictFind_kept d k : wf type d → ∃ d' p, dictFind type d k = Some (d', p) ∧ kept d d' ∧
  match p with
  | None => dmap d !! k = None
  | Some p => ∃ v, entry_at d' p = Some (k, v) ∧ dmap d !! k = Some v ∧ (de_table p = 0 ∨ de_table p = 1)
  end.
Proof.
  intros W. destruct (dictFind_spec type d k W) as (d' & p & E & W' & Hp & Hr). exists d', p. split; [done|]. split.
  - split; [done|split; [by apply (dmap_perm type)|]]. unfold dictFind in E. destruct (_ =? 0); [by injection E as <- _|].
    apply bind_Some in E as (d1 & H1 & E). apply bind_Some in E as (r & _ & E).
    assert (d' = d1) as -> by (destruct r; [congruence|]; destruct (negb _); [congruence|]; apply bind_Some in E as (r' & _ & E); congruence).
    by apply maybe_rehash_iterators.
  - destruct p as [p|].
    + destruct Hr as (Ht & v & Hv & Hin). exists v. split; [done|split; [by apply (dmap_Some type)|done]].
    + by apply dmap_None.
Qed.

Lemma dictDelete_removed d k : wf type d →
  ∃ d', dictGenericDelete type d k = Some (d', if decide (is_Some (dmap d !! k)) then DICT_OK else DICT_ERR) ∧ removed_to d d' k.
Proof.
  intros W. destruct (dictGenericDelete_map type d k W) as (d' & E & W' & Hm & _). exists d'. split; [done|].
  split; [done|split; [done|]]. split.
  - unfold dictGenericDelete in E. destruct (_ =? 0); [by injection E as <- _|].
    apply bind_Some in E as (d1 & H1 & E). apply maybe_rehash_iterators in H1 as [<- _].
    assert (∀ t d2, delete_in type d1 t k = Some (Some d2) → d_iterators d2 = d_iterators d1) as Hdel.
    { intros t d2 Hd. unfold delete_in in Hd. inv_bind. destruct (chain_find _ _ _); [|done]. inv_bind. simplify_eq. apply set_bucket_ht. }
    apply bind_Some in E as ([d2|] & H2 & E); [injection E as <- _; by eapply Hdel|].
    destruct (negb _); [by injection E as <- _|]. apply bind_Some in E as ([d2|] & H3 & E); [injection E as <- _; by eapply Hdel|by injection E as <- _].
  - intros Hi. destruct (counted_delete d k W Hi) as (d2 & E2 & _ & Hb). rewrite E in E2. by injection E2 as <- _.
Qed.

Lemma dictExpand_iterators d n : d_iterators (dictExpand d n).1 = d_iterators d.
Proof. unfold dictExpand. destruct (_ || _); [done|]. by destruct (ht_table _). Qed.

Lemma dictExpandIfNeeded_iterators can d : d_iterators (_dictExpandIfNeeded can d).1 = d_iterators d.
Proof.
  unfold _dictExpandIfNeeded. destruct (dictIsRehashing d); [done|]. destruct (_ =? 0); [apply dictExpand_iterators|].
  destruct (_ && _); [apply dictExpand_iterators|done].
Qed.

Lemma dictAddRaw_iterators can junk d k d' p : dictAddRaw type can junk d k = Some (d', p) → d_iterators d' = d_iterators d.
Proof.
  unfold dictAddRaw. intros E. apply bind_Some in E as (d1 & H1 & E). apply maybe_rehash_iterators in H1 as [<- _].
  apply bind_Some in E as ([d2 idx] & H2 & E).
  assert (d_iterators d2 = d_iterators d1) as <-.
  { unfold _dictKeyIndex in H2. pose proof (dictExpandIfNeeded_iterators can d1) as Hx.
    destruct (_dictExpandIfNeeded can d1) as [d3 r]. cbn in Hx. rewrite <-Hx. clear Hx.
    destruct (r =? DICT_ERR); [by injection H2 as <- _|]. apply bind_Some in H2 as (b & _ & H2).
    destruct (chain_find _ _ _); [by injection H2 as <- _|]. destruct (negb _); [by injection H2 as <- _|].
    apply bind_Some in H2 as (b' & _ & H2). destruct (chain_find _ _ _); by injection H2 as <- _. }
  destruct (idx =? -1); [by injection E as <- _|]. apply bind_Some in E as (b & _ & E). apply bind_Some in E as (h & _ & [= <- _]). apply set_bucket_ht.
Qed.

Lemma dictSetVal_iterators d p v d' : dictSetVal d p v = Some d' → d_iterators d' = d_iterators d.
Proof. unfold dictSetVal. intros E. inv_bind. subst. apply set_bucket_ht. Qed.

(** A new key. *)
Lemma dictAdd_new can junk d k v : wf type d → dictSize d < 2 ^ 29 → dmap d !! k = None →
  ∃ d', dictAdd type can junk d k v = Some (d', DICT_OK) ∧ wf type d' ∧ dmap d' = <[k := v]> (dmap d) ∧ d_iterators d' = d_iterators d.
Proof.
  intros W Hs Hk. destruct (dictAdd_spec type can junk d k v W Hs) as (d' & r & E & W' & [(-> & Hin & _)|(-> & Hin & Hp)]).
  - destruct (dmap_key d k Hin) as [x Hx]. congruence.
  - exists d'. split; [done|split; [done|split; [by apply (dmap_cons type)|]]]. unfold dictAdd in E.
    apply bind_Some in E as ([d1 p] & H1 & E). apply dictAddRaw_iterators in H1 as <-. destruct p as [p|]; [|by injection E as <- _].
    apply bind_Some in E as (d2 & H2 & [= <-]). by eapply dictSetVal_iterators.
Qed.

(** The value of a key that is there. *)
Lemma dictReplace_old can junk d k v : wf type d → dictSize d < 2 ^ 29 → is_Some (dmap d !! k) →
  ∃ d', dictReplace type can junk d k v = Some (d', 0) ∧ wf type d' ∧ dmap d' = <[k := v]> (dmap d) ∧ d_iterators d' = d_iterators d.
Proof.
  intros W Hs Hk. destruct (dictReplace_map type can junk d k v W Hs) as (d' & E & W' & Hm). rewrite decide_True in E by done.
  exists d'. split; [done|split; [done|split; [done|]]]. unfold dictReplace in E. apply bind_Some in E as ([d1 r] & H1 & E).
  unfold dictAdd in H1. apply bind_Some in H1 as ([d2 p] & H2 & H1). apply dictAddRaw_iterators in H2 as <-.
  destruct (r =? DICT_OK) eqn:Er; [done|].
  assert (d_iterators d1 = d_iterators d2) as <-.
  { destruct p as [p|]; [apply bind_Some in H1 as (d3 & _ & [= <- <-]); done|by injection H1 as <- _]. }
  apply bind_Some in E as ([d3 q] & H3 & E). assert (d_iterators d3 = d_iterators d1) as <-.
  { unfold dictFind in H3. destruct (_ =? 0); [by injection H3 as <- _|]. apply bind_Some in H3 as (d4 & H4 & H3).
    apply maybe_rehash_iterators in H4 as [<- _]. apply bind_Some in H3 as (r' & _ & H3).
    destruct r'; [by injection H3 as <- _|]. destruct (negb _); [by injection H3 as <- _|].
    apply bind_Some in H3 as (r'' & _ & H3). by injection H3 as <- _. }
  apply bind_Some in E as (q' & _ & E). apply bind_Some in E as (d4 & H4 & [= <-]). by eapply dictSetVal_iterators.
Qed.

(** dictReplaceRaw, and the value set through the pointer that it returns. *)
Lemma dictReplaceRaw_set can junk d k v : wf type d → dictSize d < 2 ^ 29 →
  ∃ d1 p d2, dictReplaceRaw type can junk d k = Some (d1, Some p) ∧ dictSetVal d1 p v = Some d2 ∧
    wf type d2 ∧ dmap d2 = <[k := v]> (dmap d) ∧ d_iterators d2 = d_iterators d.
Proof.
  intros W Hs. unfold dictReplaceRaw. destruct (dictFind_kept d k W) as (d1 & p & E & (W1 & Hm1 & Hi1 & _) & Hp). rewrite E. cbn [mbind option_bind].
  destruct p as [p|].
  - destruct Hp as (v0 & Hv0 & Hk & Ht). destruct (dictSetVal_spec type d1 p k v0 v W1 Ht Hv0) as (d2 & rest & E2 & W2 & Ho & Hn).
    exists d1, p, d2. split; [done|split; [done|split; [done|split]]].
    + rewrite <-Hm1. unfold dmap.
      rewrite (list_to_map_proper (M := gmap K) (all_entries d1) _ ltac:(apply W1) Ho).
      rewrite (list_to_map_proper (M := gmap K) (all_entries d2) _ ltac:(apply W2) Hn). simpl. by rewrite insert_insert_eq.
    + rewrite <-Hi1. by eapply dictSetVal_iterators.
  - assert (dictSize d1 < 2 ^ 29) as Hs1 by (rewrite (dictSize_dmap type d1 W1), Hm1, <-(dictSize_dmap type d W); done).
    rewrite <-Hm1 in Hp. destruct (dictAdd_new can junk d1 k v W1 Hs1 Hp) as (d2 & E2 & W2 & Hm2 & Hi2). unfold dictAdd in E2.
    apply bind_Some in E2 as ([d3 q] & E3 & E2). destruct q as [q|]; [|done]. apply bind_Some in E2 as (d4 & E4 & [= ->]).
    exists d3, q, d2. split_and!; [done|done|done|congruence|congruence].
Qed.

Lemma dictEmpty_spec d : wf type d →
  ∃ freed, dictEmpty d = Some (freed, dictCreate) ∧ list_to_map freed = dmap d ∧ NoDup freed.*1.
Proof.
  intros (W0 & W1 & Hnd & _). unfold dictEmpty. rewrite (dictClear_spec type _ W0), (dictClear_spec type _ W1). simpl. by eexists.
Qed.

Lemma wf_create : wf type (@dictCreate K V).
Proof. split_and!; [apply wf_reset|apply wf_reset|constructor|done|by left]. Qed.

(** Whenever dictGetRandomKey returns, it is with an entry. *)
Lemma random_bucket_in (pick : Z → option (list entry)) rs b rs' : random_bucket pick rs = Some (b, rs') →
  ∃ pre r, rs = pre ++ r :: rs' ∧ pick r = Some b ∧ b ≠ [].
Proof.
  induction rs as [|r rs IH]; cbn [random_bucket]; [done|]. destruct (pick r) as [[|e c]|] eqn:Ep; cbn [mbind option_bind]; [|intros [= <- <-]; by exists [], r|done].
  intros (pre & r' & -> & Hp & Hb)%IH. by exists (r :: pre), r'.
Qed.

Lemma dictGetRandomKey_in d rs d' rs' oe :
  wf type d → dictSize d < 2 ^ 29 → all_entries d ≠ [] → Forall random_value rs → dictGetRandomKey d rs = Some (d', rs', oe) →
  kept d d' ∧ Forall random_value rs' ∧ (length rs' < length rs)%nat ∧ ∃ e, oe = Some e ∧ e ∈ all_entries d.
Proof.
  intros W Hs Hne Hr E. unfold dictGetRandomKey in E. rewrite (proj2 (Z.eqb_neq _ _)) in E.
  2:{ rewrite (dictSize_entries type d W). destruct (all_entries d); [done|]. simpl. lia. }
  apply bind_Some in E as (d1 & H1 & E). apply bind_Some in E as ([b rs1] & Hb & E).
  destruct (dictRehashStep_spec type d W) as (d2 & E2 & W' & Hp & _). rewrite H1 in E2. injection E2 as <-.
  assert (kept d d1) as Kp.
  { split; [done|split; [by apply (dmap_perm type)|]]. by apply maybe_rehash_iterators. }
  destruct (random_bucket_in _ _ _ _ Hb) as (pre & r & -> & Hpick & Hbne).
  assert (all_entries d1 ≠ []) as Hne' by (intros E'; rewrite E' in Hp; by apply Permutation_nil in Hp).
  apply Forall_app in Hr as [_ Hr]. apply Forall_cons in Hr as [Hr0 Hr].
  destruct (random_pick_bucket d1 r W' Hne' Hr0) as (t & i & b1 & Ht & Hp1 & Hb1). rewrite Hpick in Hp1. injection Hp1 as <-.
  destruct rs1 as [|r2 rs2]; [done|]. apply Forall_cons in Hr as [_ Hr]. apply bind_Some in E as (e & He & [= <- <- <-]).
  split; [done|split; [done|split; [rewrite length_app; simpl; lia|]]]. exists e. split; [done|]. rewrite <-Hp.
  eapply bucket_in_entries; [done|done|]. destruct (0 <=? _); [|done]. by eapply list_elem_of_lookup_2.
Qed.

End iterators.
