(* ===== verification/Db.v ===== *)
(** * The keyspace: databases, expiration and the generic commands ([db.c])

    A database is a table of the keys and a table of their expire times, both of
    Dict.v.  The values are in a heap of counted objects, whose contents are a
    parameter.  What other components are told (watched keys, notifications, the
    replication stream, answers) is a log of these calls in their order.  A failing
    assertion, a dangling pointer and an access out of a table are [None]. *)
From Stdlib Require Import String.
From S2P Require Import Prelude Util Dict Dictiter.
Open Scope Z_scope.

Abbreviation text := (list Z).
Abbreviation loc := positive.

Definition REDIS_STRING : Z := 0.
Definition REDIS_LIST : Z := 1.
Definition REDIS_SET : Z := 2.
Definition REDIS_ZSET : Z := 3.
Definition REDIS_HASH : Z := 4.
Definition REDIS_NOTIFY_GENERIC : Z := 4.
Definition REDIS_NOTIFY_EXPIRED : Z := 256.
Definition UNIT_SECONDS : Z := 0.
Definition UNIT_MILLISECONDS : Z := 1.

(** ** State *)

(** [o_ptr]: the contents, with their encoding. *)
Record robj (P : Type) := Robj { o_type : Z; o_lru : Z; o_refcount : Z; o_ptr : P }.
Arguments Robj {P}.
Arguments o_type {P}.
Arguments o_lru {P}.
Arguments o_refcount {P}.
Arguments o_ptr {P}.

Record redisDb := RedisDb { db_dict : @dict text loc; db_expires : @dict text Z }.

(** What is added to the output of the client. *)
Inductive answer :=
  R_ok | R_czero | R_cone | R_nokeyerr | R_sameobjecterr | R_outofrangeerr | R_wrongtypeerr | R_syntaxerr | R_nullbulk | R_emptymultibulk
| R_notinteger | R_emptybulk | R_error (msg : string) | R_status (s : string) | R_int (n : Z) | R_bulk (t : text) | R_multibulklen (n : Z)
| R_deferredlen | R_setdeferredlen (n : Z).

(** The calls of other components. *)
Inductive event :=
| EvAnswer (a : answer)
| EvTouch (dbid : Z) (key : text) (** touchWatchedKey *)
| EvTouchFlush (dbid : Z) (** touchWatchedKeysOnFlush *)
| EvNotify (type : Z) (name : string) (key : text) (dbid : Z) (** notifyKeyspaceEvent *)
| EvFeedAof (dbid : Z) (argv : list text) (** feedAppendOnlyFile *)
| EvFeedSlaves (dbid : Z) (argv : list text) (** replicationFeedSlaves *)
| EvListReady (dbid : Z) (key : text). (** signalListAsReady *)

(** [ticks] counts the calls of mstime; [argv] is [c->argv] of the client that is
    served and [c_db] the index of [c->db]. *)
Record server (P : Type) := Server {
  dbs : list redisDb;
  objects : gmap loc (robj P);
  dirty : Z;
  stat_keyspace_hits : Z;
  stat_keyspace_misses : Z;
  stat_expiredkeys : Z;
  ticks : nat;
  c_db : Z;
  argv : list text;
  log : list event
}.
Arguments Server {P}.
Arguments dbs {P}.
Arguments objects {P}.
Arguments dirty {P}.
Arguments stat_keyspace_hits {P}.
Arguments stat_keyspace_misses {P}.
Arguments stat_expiredkeys {P}.
Arguments ticks {P}.
Arguments c_db {P}.
Arguments argv {P}.
Arguments log {P}.

(** The settings and conditions of the server.  [saving]: a child process saves the
    data set; [masterhost]: the server is a slave; [lua_start]: the time the running
    script began. *)
Record status := Status {
  loading : bool;
  masterhost : bool;
  lua_start : option Z;
  aof_on : bool;
  saving : bool;
  lruclock : Z;
  can_resize : bool
}.

Section with_P.
Context {P : Type}.
Notation server := (server P).

Definition with_dbs (s : server) (ds : list redisDb) : server :=
  Server ds (objects s) (dirty s) (stat_keyspace_hits s) (stat_keyspace_misses s) (stat_expiredkeys s) (ticks s) (c_db s) (argv s) (log s).
Definition with_objects (s : server) (h : gmap loc (robj P)) : server :=
  Server (dbs s) h (dirty s) (stat_keyspace_hits s) (stat_keyspace_misses s) (stat_expiredkeys s) (ticks s) (c_db s) (argv s) (log s).
Definition with_dirty (s : server) (n : Z) : server :=
  Server (dbs s) (objects s) n (stat_keyspace_hits s) (stat_keyspace_misses s) (stat_expiredkeys s) (ticks s) (c_db s) (argv s) (log s).
Definition with_stats (s : server) (hits misses expired : Z) : server :=
  Server (dbs s) (objects s) (dirty s) hits misses expired (ticks s) (c_db s) (argv s) (log s).
Definition with_ticks (s : server) (n : nat) : server :=
  Server (dbs s) (objects s) (dirty s) (stat_keyspace_hits s) (stat_keyspace_misses s) (stat_expiredkeys s) n (c_db s) (argv s) (log s).
Definition with_c_db (s : server) (i : Z) : server :=
  Server (dbs s) (objects s) (dirty s) (stat_keyspace_hits s) (stat_keyspace_misses s) (stat_expiredkeys s) (ticks s) i (argv s) (log s).
Definition with_argv (s : server) (a : list text) : server :=
  Server (dbs s) (objects s) (dirty s) (stat_keyspace_hits s) (stat_keyspace_misses s) (stat_expiredkeys s) (ticks s) (c_db s) a (log s).
Definition add_log (s : server) (l : list event) : server :=
  Server (dbs s) (objects s) (dirty s) (stat_keyspace_hits s) (stat_keyspace_misses s) (stat_expiredkeys s) (ticks s) (c_db s) (argv s) (log s ++ l).
End with_P.

(** ** Computations on the state *)

Definition M (P A : Type) : Type := server P → option (A * server P).
#[export] Instance M_ret P : MRet (M P) := λ A x s, Some (x, s).
#[export] Instance M_bind P : MBind (M P) := λ A B f m s, '(x, s) ← m s; f x s.

Section commands.
Context {P : Type}.
Notation M := (M P).
(** The seed of the hash functions, the answers of mstime, what is in the value of a
    new entry, and the addresses of the tables (for the iterators). *)
Context (seed : Z) (clock : nat → Z) (junk_val : loc) (junk_when : Z) (addr : Z → Z).
Context (E : status).

Definition gets {A} (f : server P → A) : M A := λ s, Some (f s, s).
Definition modify (f : server P → server P) : M unit := λ s, Some (tt, f s).
Definition lift {A} (x : option A) : M A := λ s, a ← x; Some (a, s).
Definition check (b : bool) : M unit := lift (if b then Some tt else None).

Definition dictSdsKeyCompare (k1 k2 : text) : bool :=
  if negb (blen k1 =? blen k2) then false else bool_decide (k1 = k2).
Definition dictSdsHash (k : text) : Z := dictGenHashFunction seed k.
Definition dbDictType : dictType text := DictType text dictSdsHash dictSdsKeyCompare.
Definition keyptrDictType : dictType text := DictType text dictSdsHash dictSdsKeyCompare.

(** [&server.db[i]] and the update of its tables. *)
Definition get_db (i : Z) : M redisDb := λ s, db ← (if 0 <=? i then dbs s !! Z.to_nat i else None); Some (db, s).
Definition put_dict (i : Z) (d : @dict text loc) : M unit :=
  modify (λ s, with_dbs s (alter (λ db, RedisDb d (db_expires db)) (Z.to_nat i) (dbs s))).
Definition put_expires (i : Z) (d : @dict text Z) : M unit :=
  modify (λ s, with_dbs s (alter (λ db, RedisDb (db_dict db) d) (Z.to_nat i) (dbs s))).

Definition emit (e : event) : M unit := modify (λ s, add_log s [e]).
Definition addReply (a : answer) : M unit := emit (EvAnswer a).
Definition mstime : M Z := λ s, Some (clock (ticks s), with_ticks s (S (ticks s))).
Definition add_dirty (n : Z) : M unit := modify (λ s, with_dirty s (i64 (dirty s + n))).

(** ** Objects *)

Definition get_object (l : loc) : M (robj P) := λ s, o ← objects s !! l; Some (o, s).
Definition put_object (l : loc) (o : robj P) : M unit := modify (λ s, with_objects s (<[l := o]> (objects s))).

Definition incrRefCount (l : loc) : M unit :=
  o ← get_object l;
  put_object l (Robj (o_type o) (o_lru o) (i32 (o_refcount o + 1)) (o_ptr o)).

(** What the freed object owns is freed with it. *)
Definition decrRefCount (l : loc) : M unit :=
  o ← get_object l;
  if o_refcount o <=? 0 then lift None
  else if o_refcount o =? 1 then modify (λ s, with_objects s (delete l (objects s)))
  else put_object l (Robj (o_type o) (o_lru o) (i32 (o_refcount o - 1)) (o_ptr o)).

Definition checkType (l : loc) (type : Z) : M bool :=
  o ← get_object l;
  if negb (o_type o =? type) then _ ← addReply R_wrongtypeerr; mret true else mret false.

(** ** Lookups and updates of a database *)

Definition dbFind (i : Z) (key : text) : M (option loc) :=
  db ← get_db i;
  '(d, de) ← lift (dictFind dbDictType (db_dict db) key);
  _ ← put_dict i d;
  match de with
  | None => mret None
  | Some p => e ← lift (entry_at d p); mret (Some e.2)
  end.

Definition lookupKey (i : Z) (key : text) : M (option loc) :=
  v ← dbFind i key;
  match v with
  | Some val =>
      if negb (saving E) then
        o ← get_object val;
        _ ← put_object val (Robj (o_type o) (lruclock E) (o_refcount o) (o_ptr o));
        mret (Some val)
      else mret (Some val)
  | None => mret None
  end.

Definition expiresFind (i : Z) (key : text) : M (option Z) :=
  db ← get_db i;
  '(d, de) ← lift (dictFind keyptrDictType (db_expires db) key);
  _ ← put_expires i d;
  match de with
  | None => mret None
  | Some p => e ← lift (entry_at d p); mret (Some e.2)
  end.

Definition getExpire (i : Z) (key : text) : M Z :=
  db ← get_db i;
  if dictSize (db_expires db) =? 0 then mret (-1)
  else
    de ← expiresFind i key;
    match de with
    | None => mret (-1)
    | Some when =>
        kde ← dbFind i key;
        _ ← check (bool_decide (is_Some kde));
        mret when
    end.

Definition shared_del : text := [68; 69; 76].

Definition propagateExpire (i : Z) (key : text) : M unit :=
  let argv := [shared_del; key] in
  _ ← (if aof_on E then emit (EvFeedAof i argv) else mret tt);
  emit (EvFeedSlaves i argv).

(** dictDelete on the table of the keys, whose destructor releases the value. *)
Definition dictDelete_dict (i : Z) (key : text) : M Z :=
  db ← get_db i;
  let freed := dmap (db_dict db) !! key in
  '(d, r) ← lift (dictGenericDelete dbDictType (db_dict db) key);
  _ ← put_dict i d;
  if r =? DICT_OK then
    val ← lift freed;
    _ ← decrRefCount val;
    mret r
  else mret r.

(** The table of the expire times frees neither its keys nor its values. *)
Definition dictDelete_expires (i : Z) (key : text) : M Z :=
  db ← get_db i;
  '(d, r) ← lift (dictGenericDelete keyptrDictType (db_expires db) key);
  _ ← put_expires i d;
  mret r.

Definition dbDelete (i : Z) (key : text) : M Z :=
  db ← get_db i;
  _ ← (if 0 <? dictSize (db_expires db) then dictDelete_expires i key else mret DICT_OK);
  r ← dictDelete_dict i key;
  if r =? DICT_OK then mret 1 else mret 0.

(** The result is that of the C function: whether the key has expired. *)
Definition expireIfNeeded (i : Z) (key : text) : M Z :=
  when ← getExpire i key;
  if when <? 0 then mret 0
  else if loading E then mret 0
  else
    now ← match lua_start E with Some t => mret t | None => mstime end;
    if masterhost E then mret (if when <? now then 1 else 0)
    else if now <=? when then mret 0
    else
      _ ← modify (λ s, with_stats s (stat_keyspace_hits s) (stat_keyspace_misses s) (i64 (stat_expiredkeys s + 1)));
      _ ← propagateExpire i key;
      _ ← emit (EvNotify REDIS_NOTIFY_EXPIRED "expired" key i);
      dbDelete i key.

Definition lookupKeyRead (i : Z) (key : text) : M (option loc) :=
  _ ← expireIfNeeded i key;
  val ← lookupKey i key;
  _ ← (match val with
       | None => modify (λ s, with_stats s (stat_keyspace_hits s) (i64 (stat_keyspace_misses s + 1)) (stat_expiredkeys s))
       | Some _ => modify (λ s, with_stats s (i64 (stat_keyspace_hits s + 1)) (stat_keyspace_misses s) (stat_expiredkeys s))
       end);
  mret val.

Definition lookupKeyWrite (i : Z) (key : text) : M (option loc) :=
  _ ← expireIfNeeded i key;
  lookupKey i key.

Definition lookupKeyReadOrReply (key : text) (reply : answer) : M (option loc) :=
  i ← gets c_db;
  o ← lookupKeyRead i key;
  match o with None => _ ← addReply reply; mret None | Some l => mret (Some l) end.

Definition lookupKeyWriteOrReply (key : text) (reply : answer) : M (option loc) :=
  i ← gets c_db;
  o ← lookupKeyWrite i key;
  match o with None => _ ← addReply reply; mret None | Some l => mret (Some l) end.

Definition dbAdd (i : Z) (key : text) (val : loc) : M unit :=
  db ← get_db i;
  '(d, retval) ← lift (dictAdd dbDictType (can_resize E) junk_val (db_dict db) key val);
  _ ← put_dict i d;
  _ ← check (retval =? DICT_OK);
  o ← get_object val;
  if o_type o =? REDIS_LIST then emit (EvListReady i key) else mret tt.

Definition dbOverwrite (i : Z) (key : text) (val : loc) : M unit :=
  de ← dbFind i key;
  _ ← check (bool_decide (is_Some de));
  db ← get_db i;
  let old := dmap (db_dict db) !! key in
  '(d, r) ← lift (dictReplace dbDictType (can_resize E) junk_val (db_dict db) key val);
  _ ← put_dict i d;
  if r =? 0 then old ← lift old; decrRefCount old else mret tt.

Definition removeExpire (i : Z) (key : text) : M bool :=
  de ← dbFind i key;
  _ ← check (bool_decide (is_Some de));
  r ← dictDelete_expires i key;
  mret (r =? DICT_OK).

Definition setExpire (i : Z) (key : text) (when : Z) : M unit :=
  kde ← dbFind i key;
  _ ← check (bool_decide (is_Some kde));
  db ← get_db i;
  '(d, de) ← lift (dictReplaceRaw keyptrDictType (can_resize E) junk_when (db_expires db) key);
  p ← lift de;
  d ← lift (dictSetVal d p when);
  put_expires i d.

Definition signalModifiedKey (i : Z) (key : text) : M unit := emit (EvTouch i key).

Definition setKey (i : Z) (key : text) (val : loc) : M unit :=
  o ← lookupKeyWrite i key;
  _ ← match o with None => dbAdd i key val | Some _ => dbOverwrite i key val end;
  _ ← incrRefCount val;
  _ ← removeExpire i key;
  signalModifiedKey i key.

Definition dbExists (i : Z) (key : text) : M bool :=
  de ← dbFind i key; mret (bool_decide (is_Some de)).

(** [server.dbnum] is the length of the array of databases. *)
Definition selectDb (id : Z) : M bool :=
  n ← gets (λ s, Z.of_nat (length (dbs s)));
  if (id <? 0) || (n <=? id) then mret false
  else _ ← modify (λ s, with_c_db s id); mret true.

(** [*array] of an argument vector: [None] when it is too short. *)
Definition arg (k : nat) : M text := λ s, a ← argv s !! k; Some (a, s).

(** The string object of the C code is its text. *)
Definition getLongLongFromObjectOrReply (o : text) : M (option Z) :=
  let '(value, eptr0, erange) := strtoll_erange (o ++ [ch_nul]) in
  if isspace (default ch_nul (head o)) || negb (eptr0 =? ch_nul) || erange then _ ← addReply R_notinteger; mret None
  else mret (Some value).

(** ** Commands *)

Fixpoint del_loop (keys : list text) (deleted : Z) : M Z :=
  match keys with
  | [] => mret deleted
  | key :: keys =>
      i ← gets c_db;
      _ ← expireIfNeeded i key;
      r ← dbDelete i key;
      deleted ← (if negb (r =? 0) then
                   _ ← signalModifiedKey i key;
                   _ ← emit (EvNotify REDIS_NOTIFY_GENERIC "del" key i);
                   _ ← add_dirty 1;
                   mret (i32 (deleted + 1))
                 else mret deleted);
      del_loop keys deleted
  end.

Definition delCommand : M unit :=
  a ← gets argv;
  deleted ← del_loop (tail a) 0;
  addReply (R_int deleted).

Definition existsCommand : M unit :=
  i ← gets c_db;
  key ← arg 1;
  _ ← expireIfNeeded i key;
  r ← dbExists i key;
  if (r : bool) then addReply R_cone else addReply R_czero.

(** [sdscmp] is 0 exactly on equal strings (below 2 GB). *)
Definition renameGenericCommand (nx : bool) : M unit :=
  i ← gets c_db;
  key1 ← arg 1;
  key2 ← arg 2;
  if bool_decide (key1 = key2) then addReply R_sameobjecterr
  else
    o ← lookupKeyWriteOrReply key1 R_nokeyerr;
    match o with
    | None => mret tt
    | Some o =>
        _ ← incrRefCount o;
        expire ← getExpire i key1;
        dst ← lookupKeyWrite i key2;
        match dst, nx with
        | Some _, true => _ ← decrRefCount o; addReply R_czero
        | _, _ =>
            _ ← match dst with Some _ => _ ← dbDelete i key2; mret tt | None => mret tt end;
            _ ← dbAdd i key2 o;
            _ ← (if negb (expire =? -1) then setExpire i key2 expire else mret tt);
            _ ← dbDelete i key1;
            _ ← signalModifiedKey i key1;
            _ ← signalModifiedKey i key2;
            _ ← emit (EvNotify REDIS_NOTIFY_GENERIC "rename_from" key1 i);
            _ ← emit (EvNotify REDIS_NOTIFY_GENERIC "rename_to" key2 i);
            _ ← add_dirty 1;
            addReply (if nx then R_cone else R_ok)
        end
    end.

Definition renameCommand : M unit := renameGenericCommand false.
Definition renamenxCommand : M unit := renameGenericCommand true.

(** [atoi]: the function of the C library. *)
Definition moveCommand (atoi : text → Z) : M unit :=
  src ← gets c_db;
  key ← arg 1;
  a2 ← arg 2;
  r ← selectDb (atoi a2);
  if negb r then addReply R_outofrangeerr
  else
    dst ← gets c_db;
    _ ← selectDb src;
    if src =? dst then addReply R_sameobjecterr
    else
      o ← lookupKeyWrite src key;
      match o with
      | None => addReply R_czero
      | Some o =>
          d ← lookupKeyWrite dst key;
          match d with
          | Some _ => addReply R_czero
          | None =>
              _ ← dbAdd dst key o;
              _ ← incrRefCount o;
              _ ← dbDelete src key;
              _ ← add_dirty 1;
              addReply R_cone
          end
      end.

Definition expireGenericCommand (basetime units : Z) : M unit :=
  key ← arg 1;
  param ← arg 2;
  v ← getLongLongFromObjectOrReply param;
  match v with
  | None => mret tt
  | Some when =>
      let when := if units =? UNIT_SECONDS then i64 (when * 1000) else when in
      let when := i64 (when + basetime) in
      i ← gets c_db;
      o ← lookupKeyRead i key;
      match o with
      | None => addReply R_czero
      | Some _ =>
          now ← mstime;
          if (when <=? now) && negb (loading E) && negb (masterhost E) then
            r ← dbDelete i key;
            _ ← check (negb (r =? 0));
            _ ← add_dirty 1;
            _ ← modify (λ s, with_argv s [shared_del; key]);
            _ ← signalModifiedKey i key;
            _ ← emit (EvNotify REDIS_NOTIFY_GENERIC "del" key i);
            addReply R_cone
          else
            _ ← setExpire i key when;
            _ ← addReply R_cone;
            _ ← signalModifiedKey i key;
            _ ← emit (EvNotify REDIS_NOTIFY_GENERIC "expire" key i);
            add_dirty 1
      end
  end.

Definition expireCommand : M unit := t ← mstime; expireGenericCommand t UNIT_SECONDS.
Definition expireatCommand : M unit := expireGenericCommand 0 UNIT_SECONDS.
Definition pexpireCommand : M unit := t ← mstime; expireGenericCommand t UNIT_MILLISECONDS.
Definition pexpireatCommand : M unit := expireGenericCommand 0 UNIT_MILLISECONDS.

Definition ttlGenericCommand (output_ms : bool) : M unit :=
  i ← gets c_db;
  key ← arg 1;
  o ← lookupKeyRead i key;
  match o with
  | None => addReply (R_int (-2))
  | Some _ =>
      expire ← getExpire i key;
      ttl ← (if negb (expire =? -1) then
               t ← mstime;
               let ttl := i64 (expire - t) in
               mret (if ttl <? 0 then 0 else ttl)
             else mret (-1));
      if ttl =? -1 then addReply (R_int (-1))
      else addReply (R_int (if output_ms : bool then ttl else i64 (ttl + 500) `quot` 1000))
  end.

Definition ttlCommand : M unit := ttlGenericCommand false.
Definition pttlCommand : M unit := ttlGenericCommand true.

Definition persistCommand : M unit :=
  i ← gets c_db;
  key ← arg 1;
  de ← dbFind i key;
  match de with
  | None => addReply R_czero
  | Some _ =>
      r ← removeExpire i key;
      if (r : bool) then _ ← addReply R_cone; add_dirty 1 else addReply R_czero
  end.

Definition typeCommand : M unit :=
  i ← gets c_db;
  key ← arg 1;
  o ← lookupKeyRead i key;
  type ← match o with
         | None => mret "none"%string
         | Some l =>
             o ← get_object l;
             mret (if o_type o =? REDIS_STRING then "string"%string
                   else if o_type o =? REDIS_LIST then "list"%string
                   else if o_type o =? REDIS_SET then "set"%string
                   else if o_type o =? REDIS_ZSET then "zset"%string
                   else if o_type o =? REDIS_HASH then "hash"%string else "unknown"%string)
         end;
  addReply (R_status type).

Definition dbsizeCommand : M unit :=
  i ← gets c_db;
  db ← get_db i;
  addReply (R_int (dictSize (db_dict db))).

Fixpoint release_all (freed : list (text * loc)) : M unit :=
  match freed with [] => mret tt | e :: freed => _ ← decrRefCount e.2; release_all freed end.

(** dictEmpty on the two tables of a database. *)
Definition empty_db (i : Z) : M unit :=
  db ← get_db i;
  '(freed, d) ← lift (dictEmpty (db_dict db));
  _ ← put_dict i d;
  _ ← release_all freed;
  '(_, d) ← lift (dictEmpty (db_expires db));
  put_expires i d.

Definition flushdbCommand : M unit :=
  i ← gets c_db;
  db ← get_db i;
  _ ← add_dirty (dictSize (db_dict db));
  _ ← emit (EvTouchFlush i);
  _ ← empty_db i;
  addReply R_ok.

Fixpoint emptyDb_loop (n : nat) (j : Z) (removed : Z) : M Z :=
  match n with
  | O => mret removed
  | S n =>
      db ← get_db j;
      let removed := i64 (removed + i64 (dictSize (db_dict db))) in
      _ ← empty_db j;
      emptyDb_loop n (j + 1) removed
  end.

Definition emptyDb : M Z := n ← gets (λ s, length (dbs s)); emptyDb_loop n 0 0.

(** The body of the loop of KEYS, with [numkeys]. *)
Definition keys_step (i : Z) (pattern : text) (allkeys : bool) (e : text * loc) (numkeys : Z) : M Z :=
  let key := e.1 in
  matches ← (if allkeys then mret true
             else lift (stringmatch (S (length pattern + length key)) pattern key false));
  if (matches : bool) then
    r ← expireIfNeeded i key;
    if r =? 0 then _ ← addReply (R_bulk key); mret (u32 (numkeys + 1)) else mret numkeys
  else mret numkeys.

(** The dictionary that the iterator of KEYS is in, and the body on the whole state. *)
Definition keys_get (i : Z) (st : server P * Z) : option (@dict text loc) :=
  let '(s, _) := st in db_dict <$> (if 0 <=? i then dbs s !! Z.to_nat i else None).
Definition keys_put (i : Z) (d : @dict text loc) (st : server P * Z) : server P * Z :=
  let '(s, n) := st in (with_dbs s (alter (λ db, RedisDb d (db_expires db)) (Z.to_nat i) (dbs s)), n).
Definition keys_body (i : Z) (pattern : text) (allkeys : bool) (st : server P * Z) (e : text * loc) : option (server P * Z) :=
  let '(s, n) := st in '(n, s) ← keys_step i pattern allkeys e n s; Some (s, n).

Definition keysCommand : M unit :=
  i ← gets c_db;
  pattern ← arg 1;
  _ ← addReply R_deferredlen;
  let allkeys := (default ch_nul (pattern !! 0%nat) =? ch_star) && (default ch_nul (pattern !! 1%nat) =? ch_nul) in
  numkeys ← (λ s,
    '(s, n) ← foreach (keys_get i) (keys_put i) (keys_body i pattern allkeys) addr dictGetSafeIterator (s, 0);
    Some (n, s));
  addReply (R_setdeferredlen numkeys).

(** [while(1)] of dbRandomKey; [rs] are the values of [random()] still to come. *)
Fixpoint randomkey_loop (fuel : nat) (i : Z) (rs : list Z) : M (option text) :=
  match fuel with
  | O => lift None
  | S fuel =>
      db ← get_db i;
      '(d, rs, de) ← lift (dictGetRandomKey dbDictType (db_dict db) rs);
      _ ← put_dict i d;
      match de with
      | None => mret None
      | Some e =>
          x ← expiresFind i e.1;
          if bool_decide (is_Some x) then
            r ← expireIfNeeded i e.1;
            if negb (r =? 0) then randomkey_loop fuel i rs else mret (Some e.1)
          else mret (Some e.1)
      end
  end.

(** Each turn uses two values at least, so the fuel only ends when they do. *)
Definition dbRandomKey (i : Z) (rs : list Z) : M (option text) := randomkey_loop (S (length rs)) i rs.

Definition randomkeyCommand (rs : list Z) : M unit :=
  i ← gets c_db;
  key ← dbRandomKey i rs;
  match key with None => addReply R_nullbulk | Some key => addReply (R_bulk key) end.

(** ** Runs *)

Implicit Types s : server P.

Lemma bind_run {A B} (m : M A) (f : A → M B) s a s' : m s = Some (a, s') → (m ≫= f) s = f a s'.
Proof. intros Hm. unfold mbind, M_bind. by rewrite Hm. Qed.

Tactic Notation "step" uconstr(H) := rewrite (bind_run _ _ _ _ _ H).

Lemma lift_run {A} (x : option A) s a : x = Some a → lift x s = Some (a, s).
Proof. by intros ->. Qed.

Lemma check_run b s : b = true → check b s = Some (tt, s).
Proof. by intros ->. Qed.

Lemma get_object_run l o s : objects s !! l = Some o → get_object l s = Some (o, s).
Proof. unfold get_object. by intros ->. Qed.

(** ** Databases *)

Context (seed_ok : in_u32 seed).

#[local] Instance db_type_ok : DictTypeOk dbDictType.
Proof.
  split; [intros k; by apply dictGenHashFunction_range|]. intros a b. cbn. unfold dictSdsKeyCompare.
  destruct (Z.eqb_spec (blen a) (blen b)); cbn [negb]; [apply bool_decide_eq_true|]. split; [done|]. by intros ->.
Qed.

Definition keys_of (db : redisDb) : gmap text loc := dmap (db_dict db).
Definition expires_of (db : redisDb) : gmap text Z := dmap (db_expires db).

(** A database is well formed: so are its tables, and only keys have an expire
    time. *)
Record db_ok (db : redisDb) : Prop := DbOk {
  ok_dict : wf dbDictType (db_dict db);
  ok_expires : wf dbDictType (db_expires db);
  ok_iterators : 0 ≤ d_iterators (db_dict db) < 2 ^ 31 - 1;
  ok_keys : dom (expires_of db) ⊆ dom (keys_of db)
}.

Definition at_db (s : server P) (i : Z) (db : redisDb) : Prop := 0 ≤ i ∧ dbs s !! Z.to_nat i = Some db.
Definition set_db (s : server P) (i : Z) (db : redisDb) : server P := with_dbs s (<[Z.to_nat i := db]> (dbs s)).

(** The tables may be rehashed. *)
Definition db_keep (db db' : redisDb) : Prop :=
  kept dbDictType (db_dict db) (db_dict db') ∧ kept dbDictType (db_expires db) (db_expires db').

Lemma db_keep_refl db : db_ok db → db_keep db db.
Proof. intros W. split; apply kept_refl; apply W. Qed.

Lemma db_keep_trans a b c : db_keep a b → db_keep b c → db_keep a c.
Proof. intros [? ?] [? ?]. split; by eapply kept_trans. Qed.

Lemma db_keep_ok db db' : db_ok db → db_keep db db' → db_ok db'.
Proof.
  intros [W1 W2 Hi Hk] [(W1' & M1 & I1 & _) (W2' & M2 & I2 & _)]. split; [done|done|lia|].
  unfold keys_of, expires_of in *. by rewrite M1, M2.
Qed.

Lemma db_keep_keys db db' : db_keep db db' → keys_of db' = keys_of db.
Proof. by intros [(_ & ? & _) _]. Qed.
Lemma db_keep_expires db db' : db_keep db db' → expires_of db' = expires_of db.
Proof. by intros [_ (_ & ? & _)]. Qed.

Lemma get_db_run s i db : at_db s i db → get_db i s = Some (db, s).
Proof. intros [Hi Hdb]. unfold get_db. rewrite (proj2 (Z.leb_le 0 i) Hi), Hdb. done. Qed.

Lemma alter_dbs s i db (f : redisDb → redisDb) : dbs s !! Z.to_nat i = Some db → alter f (Z.to_nat i) (dbs s) = <[Z.to_nat i := f db]> (dbs s).
Proof. intros Hdb. apply list_eq. intros j. rewrite list_lookup_alter. destruct (decide (j = Z.to_nat i)) as [->|Hne].
  - rewrite list_lookup_insert_eq by (by eapply lookup_lt_Some). by rewrite decide_True, Hdb.
  - rewrite list_lookup_insert_ne by done. by rewrite decide_False.
Qed.

Lemma put_dict_run s i db d : at_db s i db → put_dict i d s = Some (tt, set_db s i (RedisDb d (db_expires db))).
Proof. intros [Hi Hdb]. unfold put_dict, modify, set_db. by rewrite (alter_dbs s i db). Qed.

Lemma put_expires_run s i db d : at_db s i db → put_expires i d s = Some (tt, set_db s i (RedisDb (db_dict db) d)).
Proof. intros [Hi Hdb]. unfold put_expires, modify, set_db. by rewrite (alter_dbs s i db). Qed.

Lemma at_set_db s i db db' : at_db s i db → at_db (set_db s i db') i db'.
Proof. intros [Hi Hdb]. split; [done|]. cbn. apply list_lookup_insert_eq. by eapply lookup_lt_Some. Qed.

Lemma at_set_db_ne s i j db db' : at_db s j db → i ≠ j → at_db s i db' → at_db (set_db s j db) i db'.
Proof. intros [Hj _] Hne [Hi Hdb]. split; [done|]. cbn. rewrite list_lookup_insert_ne by lia. done. Qed.

Lemma set_set_db s i a b : set_db (set_db s i a) i b = set_db s i b.
Proof. unfold set_db, with_dbs. cbn. by rewrite list_insert_insert_eq. Qed.

Lemma set_db_same s i db : at_db s i db → set_db s i db = s.
Proof. intros [_ Hdb]. unfold set_db. rewrite list_insert_id by done. by destruct s. Qed.

(** ** Lookups *)

Lemma dbFind_run s i db key : at_db s i db → db_ok db →
  ∃ db', dbFind i key s = Some (keys_of db !! key, set_db s i db') ∧ db_keep db db'.
Proof.
  intros A W. destruct (dictFind_kept dbDictType (db_dict db) key (ok_dict _ W)) as (d & p & E1 & K & Hp).
  exists (RedisDb d (db_expires db)). split; [|split; [done|apply kept_refl, W]]. unfold dbFind.
  step (get_db_run _ _ _ A); step (lift_run _ _ _ E1); step (put_dict_run _ _ _ _ A).
  unfold keys_of. destruct p as [p|]; [|by rewrite Hp].
  destruct Hp as (v & Hv & -> & _). by step (lift_run _ _ _ Hv).
Qed.

Lemma expiresFind_run s i db key : at_db s i db → db_ok db →
  ∃ db', expiresFind i key s = Some (expires_of db !! key, set_db s i db') ∧ db_keep db db'.
Proof.
  intros A W. destruct (dictFind_kept dbDictType (db_expires db) key (ok_expires _ W)) as (d & p & E1 & K & Hp).
  exists (RedisDb (db_dict db) d). split; [|split; [apply kept_refl, W|done]]. unfold expiresFind.
  step (get_db_run _ _ _ A); step (lift_run _ _ _ E1); step (put_expires_run _ _ _ _ A).
  unfold expires_of. destruct p as [p|]; [|by rewrite Hp].
  destruct Hp as (v & Hv & -> & _). by step (lift_run _ _ _ Hv).
Qed.

Lemma getExpire_run s i db key : at_db s i db → db_ok db →
  ∃ db', getExpire i key s = Some (default (-1) (expires_of db !! key), set_db s i db') ∧ db_keep db db'.
Proof.
  intros A W. unfold getExpire. step (get_db_run _ _ _ A).
  destruct (Z.eqb_spec (dictSize (db_expires db)) 0) as [Hz|Hz].
  { exists db. split; [|by apply db_keep_refl]. rewrite (set_db_same _ _ _ A).
    rewrite (dictSize_dmap dbDictType _ (ok_expires _ W)) in Hz. assert (expires_of db = ∅) as -> by (apply map_size_empty_inv; unfold expires_of; lia).
    done. }
  destruct (expiresFind_run s i db key A W) as (db1 & E1 & K1). step E1.
  destruct (expires_of db !! key) as [when|] eqn:Ew; [|by exists db1].
  pose proof (db_keep_ok _ _ W K1) as W1. pose proof (at_set_db _ _ _ db1 A) as A1.
  destruct (dbFind_run _ i db1 key A1 W1) as (db2 & E2 & K2). step E2; rewrite set_set_db.
  assert (bool_decide (is_Some (keys_of db1 !! key)) = true) as Hb.
  { rewrite (db_keep_keys _ _ K1). apply bool_decide_eq_true_2, elem_of_dom, (ok_keys _ W), elem_of_dom. by eexists. }
  step (check_run _ (set_db s i db2) Hb). exists db2. split; [done|by eapply db_keep_trans].
Qed.

(** ** Deletion *)

(** What dropping a reference does to the heap. *)
Definition release (l : loc) (h : gmap loc (robj P)) : gmap loc (robj P) :=
  match h !! l with
  | Some o => if o_refcount o =? 1 then delete l h else <[l := Robj (o_type o) (o_lru o) (o_refcount o - 1) (o_ptr o)]> h
  | None => h
  end.
Definition release_opt (v : option loc) (h : gmap loc (robj P)) : gmap loc (robj P) :=
  match v with Some l => release l h | None => h end.

(** The object is there, and its count is in range. *)
Definition live_object (h : gmap loc (robj P)) (l : loc) : Prop := ∃ o, h !! l = Some o ∧ 0 < o_refcount o < 2 ^ 31 - 1.

Lemma decrRefCount_run l s : live_object (objects s) l → decrRefCount l s = Some (tt, with_objects s (release l (objects s))).
Proof.
  intros (o & Ho & Hr). unfold decrRefCount. step (get_object_run _ _ _ Ho).
  rewrite (proj2 (Z.leb_gt _ _)) by lia. unfold release. rewrite Ho.
  destruct (o_refcount o =? 1); [done|]. rewrite wraps_small by (unlimit; lia). done.
Qed.

Lemma incrRefCount_run l s o : objects s !! l = Some o → 0 ≤ o_refcount o < 2 ^ 31 - 1 →
  incrRefCount l s = Some (tt, with_objects s (<[l := Robj (o_type o) (o_lru o) (o_refcount o + 1) (o_ptr o)]> (objects s))).
Proof.
  intros Ho Hr. unfold incrRefCount. step (get_object_run _ _ _ Ho). rewrite wraps_small by (unlimit; lia). done.
Qed.

(** The database without the key. *)
Definition db_drop (db db' : redisDb) (key : text) : Prop :=
  removed_to dbDictType (db_dict db) (db_dict db') key ∧ wf dbDictType (db_expires db') ∧
  expires_of db' = delete key (expires_of db).

Lemma db_drop_ok db db' key : db_ok db → db_drop db db' key → db_ok db'.
Proof.
  intros [W1 W2 Hi Hk] [(W1' & M1 & I1 & _) [W2' M2]]. split; [done|done|lia|].
  unfold keys_of, expires_of in *. rewrite M1, M2, !dom_delete_L. set_solver.
Qed.

Lemma db_drop_keys db db' key : db_drop db db' key → keys_of db' = delete key (keys_of db).
Proof. by intros [(_ & ? & _) _]. Qed.

Lemma keep_drop a b c key : db_keep a b → db_drop b c key → db_drop a c key.
Proof.
  intros [K1 (_ & K2 & _)] (D1 & D2 & D3). split; [by eapply kept_removed|split; [done|]]. by unfold expires_of in *; rewrite D3, K2.
Qed.

Lemma dbDelete_run s i db key : at_db s i db → db_ok db → (∀ l, keys_of db !! key = Some l → live_object (objects s) l) →
  ∃ db', dbDelete i key s = Some (if decide (is_Some (keys_of db !! key)) then 1 else 0,
      with_objects (set_db s i db') (release_opt (keys_of db !! key) (objects s))) ∧ db_drop db db' key.
Proof.
  intros A W Hl. unfold dbDelete. step (get_db_run _ _ _ A).
  assert (∃ ex r, (if 0 <? dictSize (db_expires db) then dictDelete_expires i key else mret DICT_OK) s = Some (r, set_db s i (RedisDb (db_dict db) ex)) ∧
    wf dbDictType ex ∧ dmap ex = delete key (dmap (db_expires db))) as (ex & r0 & E1 & Wx & Hx).
  { destruct (Z.ltb_spec 0 (dictSize (db_expires db))) as [Hs|Hs].
    - destruct (dictDelete_removed dbDictType (db_expires db) key (ok_expires _ W)) as (d' & E1 & (W1 & M1 & _)).
      exists d'; eexists; split; [|done]. unfold dictDelete_expires. step (get_db_run _ _ _ A).
      step (lift_run _ _ _ E1). by step (put_expires_run _ _ _ _ A).
    - exists (db_expires db), DICT_OK. split; [|split; [apply W|]].
      + replace (RedisDb (db_dict db) (db_expires db)) with db by (by destruct db). by rewrite (set_db_same _ _ _ A).
      + rewrite delete_id; [done|]. rewrite (dictSize_dmap dbDictType _ (ok_expires _ W)) in Hs.
        assert (dmap (db_expires db) = ∅) as -> by (apply map_size_empty_inv; lia). apply lookup_empty. }
  step E1. pose proof (at_set_db _ _ _ (RedisDb (db_dict db) ex) A) as A1.
  unfold dictDelete_dict.
  destruct (dictDelete_removed dbDictType (db_dict db) key (ok_dict _ W)) as (d' & E2 & R).
  exists (RedisDb d' ex). split; [|split; [done|split; [done|exact Hx]]].
  match goal with |- (?m ≫= ?f) ?s = _ => assert (∃ x, m s = Some x) as [[r s1] Em]; [|step Em; rename Em into Em'; revert Em'] end.
  { step (get_db_run _ _ _ A1). cbn [db_dict]. step (lift_run _ _ _ E2). step (put_dict_run _ _ _ _ A1).
    destruct (decide _) as [[l Hlk]|]; cbn; [|by eexists]. fold (keys_of db) in Hlk |- *. unfold keys_of in Hlk |- *. rewrite Hlk.
    step (lift_run _ _ _ eq_refl). rewrite set_set_db. step (decrRefCount_run l (set_db s i _) (Hl l Hlk)). by eexists. }
  step (get_db_run _ _ _ A1). cbn [db_dict]. step (lift_run _ _ _ E2). step (put_dict_run _ _ _ _ A1). rewrite set_set_db.
  cbn [db_expires]. unfold keys_of in *. destruct (decide (is_Some (dmap (db_dict db) !! key))) as [[l Hlk]|Hn]; cbn [DICT_OK DICT_ERR Z.eqb].
  - rewrite Hlk. step (lift_run _ _ _ eq_refl). step (decrRefCount_run l (set_db s i _) (Hl l Hlk)). by intros [= <- <-].
  - intros [= <- <-]. destruct (dmap (db_dict db) !! key); [exfalso; apply Hn; by eexists|]. done.
Qed.

(** ** Expiration *)

(** A state that differs in its tables, its heap, its clock, its statistics and by
    the calls [evs]. *)
Record moved (s s' : server P) (i : Z) (db' : redisDb) (h : gmap loc (robj P)) (evs : list event) : Prop := Moved {
  mv_dbs : dbs s' = <[Z.to_nat i := db']> (dbs s);
  mv_objects : objects s' = h;
  mv_c_db : c_db s' = c_db s;
  mv_argv : argv s' = argv s;
  mv_dirty : dirty s' = dirty s;
  mv_log : log s' = log s ++ evs
}.

Lemma moved_at s s' i db db' h evs : at_db s i db → moved s s' i db' h evs → at_db s' i db'.
Proof. intros [Hi Hdb] Mv. split; [done|]. rewrite (mv_dbs _ _ _ _ _ _ Mv). apply list_lookup_insert_eq. by eapply lookup_lt_Some. Qed.

Lemma moved_set s i db' : moved s (set_db s i db') i db' (objects s) [].
Proof. split; try done. by rewrite app_nil_r. Qed.

Lemma moved_trans s1 s2 s3 i a b h1 h2 e1 e2 : moved s1 s2 i a h1 e1 → moved s2 s3 i b h2 e2 → moved s1 s3 i b h2 (e1 ++ e2).
Proof.
  intros [D1 O1 C1 A1 Y1 L1] [D2 O2 C2 A2 Y2 L2]. split; [|done|congruence|congruence|congruence|].
  - by rewrite D2, D1, list_insert_insert_eq.
  - by rewrite L2, L1, <-app_assoc.
Qed.

(** The time that expireIfNeeded compares with. *)
Definition expire_now s : Z := match lua_start E with Some t => t | None => clock (ticks s) end.
Definition past (now : Z) (when : option Z) : bool :=
  match when with Some w => (0 <=? w) && (w <? now) | None => false end.
(** The key has expired, and it is up to this server to delete it. *)
Definition dead s (db : redisDb) (key : text) : bool :=
  past (expire_now s) (expires_of db !! key) && negb (loading E) && negb (masterhost E).

Definition expire_events (i : Z) (key : text) : list event :=
  (if aof_on E then [EvFeedAof i [shared_del; key]] else []) ++
  [EvFeedSlaves i [shared_del; key]; EvNotify REDIS_NOTIFY_EXPIRED "expired" key i].

Definition values_live s (db : redisDb) : Prop := ∀ key l, keys_of db !! key = Some l → live_object (objects s) l.

(** expireIfNeeded deletes the key exactly when it is dead, after the deletion was
    propagated; otherwise it changes nothing that can be seen. *)
Lemma expireIfNeeded_run s i db key : at_db s i db → db_ok db → values_live s db →
  ∃ r s' db', expireIfNeeded i key s = Some (r, s') ∧
    if dead s db key
    then r = 1 ∧ db_drop db db' key ∧ moved s s' i db' (release_opt (keys_of db !! key) (objects s)) (expire_events i key)
    else r = (if past (expire_now s) (expires_of db !! key) && negb (loading E) then 1 else 0) ∧ db_keep db db' ∧
         moved s s' i db' (objects s) [].
Proof.
  intros A W V. unfold expireIfNeeded, dead. destruct (getExpire_run s i db key A W) as (db1 & E1 & K1). step E1.
  pose proof (moved_set s i db1) as Mv1. pose proof (at_set_db _ _ _ db1 A) as A1. pose proof (db_keep_ok _ _ W K1) as W1.
  destruct (expires_of db !! key) as [w|] eqn:Ew; cbn [default Datatypes.id past]; [|by exists 0, (set_db s i db1), db1].
  destruct (Z.ltb_spec w 0) as [Hw|Hw]; [rewrite (proj2 (Z.leb_gt _ _)) by lia; by exists 0, (set_db s i db1), db1|].
  rewrite (proj2 (Z.leb_le 0 w)) by lia. cbn [andb].
  destruct (loading E); [rewrite andb_false_r; by exists 0, (set_db s i db1), db1|]. cbn [negb]. rewrite andb_true_r.
  assert (∃ s2, (match lua_start E with Some t => mret t | None => mstime end) (set_db s i db1) = Some (expire_now s, s2) ∧
     moved s s2 i db1 (objects s) []) as (s2 & E2 & Mv2).
  { unfold expire_now. destruct (lua_start E); eexists; (split; [reflexivity|]); [done|]. destruct Mv1. by split. }
  step E2. pose proof (moved_at _ _ _ _ _ _ _ A Mv2) as A2.
  destruct (masterhost E) eqn:Em; cbn [negb].
  { rewrite !andb_false_r. eexists _, s2, db1. split; [reflexivity|]. done. }
  rewrite andb_true_r. destruct (Z.leb_spec (expire_now s) w) as [Hle|Hlt].
  { rewrite (proj2 (Z.ltb_ge w _)) by lia. by exists 0, s2, db1. }
  rewrite (proj2 (Z.ltb_lt w _)) by lia.
  match goal with |- context [modify ?f] => set (s3 := f s2) end.
  assert (modify (λ s, with_stats s (stat_keyspace_hits s) (stat_keyspace_misses s) (i64 (stat_expiredkeys s + 1))) s2 = Some (tt, s3)) as E3 by done.
  step E3. set (s4 := add_log s3 (expire_events i key)).
  assert (propagateExpire i key s3 = Some (tt, add_log s3 ((if aof_on E then [EvFeedAof i [shared_del; key]] else []) ++ [EvFeedSlaves i [shared_del; key]]))) as E4.
  { unfold propagateExpire, emit, modify, add_log, mbind, M_bind. destruct (aof_on E); [|done]. cbn. by rewrite <-app_assoc. }
  step E4.
  assert (emit (EvNotify REDIS_NOTIFY_EXPIRED "expired" key i) (add_log s3 ((if aof_on E then [EvFeedAof i [shared_del; key]] else []) ++ [EvFeedSlaves i [shared_del; key]])) = Some (tt, s4)) as E5.
  { unfold s4, emit, modify, add_log, expire_events. cbn. rewrite <-app_assoc. do 3 f_equal. by destruct (aof_on E). }
  step E5. assert (moved s s4 i db1 (objects s) (expire_events i key)) as Mv4.
  { destruct Mv2 as [D O C Ar Y L]. split; try done. change (log s4) with (log s2 ++ expire_events i key). by rewrite L, app_nil_r. }
  pose proof (moved_at _ _ _ _ _ _ _ A Mv4) as A4.
  assert (∀ l, keys_of db1 !! key = Some l → live_object (objects s4) l) as V4.
  { intros l. rewrite (db_keep_keys _ _ K1), (mv_objects _ _ _ _ _ _ Mv4). apply V. }
  destruct (dbDelete_run s4 i db1 key A4 W1 V4) as (db2 & E6 & Dr). rewrite E6.
  rewrite (db_keep_keys _ _ K1), (mv_objects _ _ _ _ _ _ Mv4).
  rewrite decide_True by (apply elem_of_dom, (ok_keys _ W), elem_of_dom; by eexists).
  eexists 1, _, db2. split; [done|]. split; [done|]. split; [by eapply keep_drop|].
  destruct Mv4 as [D O C Ar Y L]. split; try done. change (<[Z.to_nat i := db2]> (dbs s4) = <[Z.to_nat i := db2]> (dbs s)). by rewrite D, list_insert_insert_eq.
Qed.

(** ** Ownership *)

(** The keys of a map that hold a value. *)
Definition holders (m : gmap text loc) (l : loc) : Z := Z.of_nat (size (filter (λ kv, kv.2 = l) m)).
Definition sum_dbs (f : redisDb → Z) (ds : list redisDb) : Z := foldr Z.add 0 (f <$> ds).
Definition refs (ds : list redisDb) (l : loc) : Z := sum_dbs (λ db, holders (keys_of db) l) ds.
Definition total (ds : list redisDb) : Z := sum_dbs (λ db, Z.of_nat (size (keys_of db))) ds.

(** The count of an object is the number of keys that hold it and of the references
    [ext] that others have; an object that is not there is not referred to. *)
Definition owned (ext : loc → Z) (ds : list redisDb) (h : gmap loc (robj P)) : Prop :=
  ∀ l, match h !! l with
       | Some o => o_refcount o = refs ds l + ext l ∧ 0 < o_refcount o
       | None => refs ds l = 0 ∧ ext l = 0
       end.

Definition bump (ext : loc → Z) (l : loc) (n : Z) : loc → Z := λ x, if decide (x = l) then ext x + n else ext x.

Lemma sum_dbs_cons f db ds : sum_dbs f (db :: ds) = f db + sum_dbs f ds.
Proof. done. Qed.

Lemma sum_dbs_insert f ds n db db' : ds !! n = Some db → sum_dbs f (<[n := db']> ds) = sum_dbs f ds - f db + f db'.
Proof.
  revert n. induction ds as [|x ds IH]; intros [|n] Hn; try done.
  - injection Hn as ->. change (<[0%nat := db']> (db :: ds)) with (db' :: ds). rewrite !sum_dbs_cons. lia.
  - change (<[S n := db']> (x :: ds)) with (x :: <[n := db']> ds). rewrite !sum_dbs_cons, (IH n Hn). lia.
Qed.

Lemma sum_dbs_nonneg f ds : (∀ x, 0 ≤ f x) → 0 ≤ sum_dbs f ds.
Proof. intros Hf. induction ds as [|x ds IH]; [done|]. rewrite sum_dbs_cons. specialize (Hf x). lia. Qed.

Lemma sum_dbs_ge f ds n db : (∀ x, 0 ≤ f x) → ds !! n = Some db → f db ≤ sum_dbs f ds.
Proof.
  intros Hf. revert n. induction ds as [|x ds IH]; intros [|n] Hn; try done; rewrite sum_dbs_cons.
  - injection Hn as ->. pose proof (sum_dbs_nonneg f ds Hf). lia.
  - specialize (IH n Hn). specialize (Hf x). lia.
Qed.

Lemma sum_dbs_mono f g ds : (∀ x, f x ≤ g x) → sum_dbs f ds ≤ sum_dbs g ds.
Proof. intros Hfg. induction ds as [|x ds IH]; [done|]. rewrite !sum_dbs_cons. specialize (Hfg x). lia. Qed.

Lemma holders_nonneg m l : 0 ≤ holders m l.
Proof. unfold holders. lia. Qed.

Lemma holders_size m l : holders m l ≤ Z.of_nat (size m).
Proof. unfold holders. apply inj_le, map_subseteq_size, map_filter_subseteq. Qed.

Lemma holders_insert m key v l : m !! key = None → holders (<[key := v]> m) l = holders m l + (if decide (l = v) then 1 else 0).
Proof.
  intros Hn. unfold holders. rewrite map_filter_insert. cbn. destruct (decide (v = l)) as [->|Hne].
  - rewrite (decide_True _ _ (eq_refl l)), map_size_insert_None; [lia|]. apply map_lookup_filter_None. left. done.
  - rewrite decide_False by congruence. rewrite delete_id by done. lia.
Qed.

Lemma holders_delete m key v l : m !! key = Some v → holders (delete key m) l = holders m l - (if decide (l = v) then 1 else 0).
Proof.
  intros Hv. rewrite <-(insert_delete_id m key v Hv) at 2. rewrite holders_insert by apply lookup_delete_eq. lia.
Qed.

Lemma holders_pos m key l : m !! key = Some l → 1 ≤ holders m l.
Proof.
  intros Hl. pose proof (holders_delete m key l l Hl) as Hd. rewrite decide_True in Hd by done. pose proof (holders_nonneg (delete key m) l). lia.
Qed.

Lemma refs_pos ds n db key l : ds !! n = Some db → keys_of db !! key = Some l → 1 ≤ refs ds l.
Proof.
  intros Hn Hl. pose proof (sum_dbs_ge (λ db, holders (keys_of db) l) ds n db (λ _, holders_nonneg _ _) Hn) as Hs. cbn in Hs.
  pose proof (holders_pos _ _ _ Hl). unfold refs. lia.
Qed.

Lemma refs_total ds l : refs ds l ≤ total ds.
Proof. apply sum_dbs_mono. intros. apply holders_size. Qed.

Lemma owned_live ext ds h n db key l :
  owned ext ds h → total ds < 2 ^ 29 → ext l < 2 ^ 29 → ds !! n = Some db → keys_of db !! key = Some l → live_object h l.
Proof.
  intros O Ht He Hn Hl. specialize (O l). pose proof (refs_pos _ _ _ _ _ Hn Hl). pose proof (refs_total ds l).
  destruct (h !! l) as [o|] eqn:Eo; [|lia]. exists o. split; [done|lia].
Qed.

Lemma owned_keep ext ds h n db db' :
  owned ext ds h → ds !! n = Some db → keys_of db' = keys_of db → owned ext (<[n := db']> ds) h.
Proof.
  intros O Hn Hk l. specialize (O l). unfold refs in *. rewrite (sum_dbs_insert _ _ _ _ db' Hn), Hk.
  destruct (h !! l); [destruct O; split; [lia|done]|lia].
Qed.

Lemma owned_drop ext ds h n db db' key :
  owned ext ds h → (∀ l, 0 ≤ ext l) → ds !! n = Some db → keys_of db' = delete key (keys_of db) →
  owned ext (<[n := db']> ds) (release_opt (keys_of db !! key) h).
Proof.
  intros O He Hn Hk. destruct (keys_of db !! key) as [v|] eqn:Ev; cbn.
  2:{ apply (owned_keep ext ds h n db); [done|done|]. by rewrite Hk, delete_id. }
  assert (∀ l, refs (<[n := db']> ds) l = refs ds l - (if decide (l = v) then 1 else 0)) as Hr.
  { intros l. unfold refs. rewrite (sum_dbs_insert _ _ _ _ db' Hn), Hk, (holders_delete _ _ _ l Ev). lia. }
  intros l. rewrite Hr. pose proof (O v) as Ov. pose proof (refs_pos _ _ _ _ _ Hn Ev) as Hp. specialize (O l). specialize (He v). unfold release.
  destruct (h !! v) as [o|] eqn:Eo; [|lia]. destruct (Z.eqb_spec (o_refcount o) 1) as [E1|E1].
  - destruct (decide (l = v)) as [->|Hne]; [rewrite lookup_delete_eq; lia|]. rewrite lookup_delete_ne by done. by rewrite Z.sub_0_r.
  - destruct (decide (l = v)) as [->|Hne]; [rewrite lookup_insert_eq; cbn; lia|]. rewrite lookup_insert_ne by done. by rewrite Z.sub_0_r.
Qed.

Lemma owned_add ext ds h n db db' key v :
  owned ext ds h → ds !! n = Some db → keys_of db !! key = None → is_Some (h !! v) → keys_of db' = <[key := v]> (keys_of db) →
  owned (bump ext v (-1)) (<[n := db']> ds) h.
Proof.
  intros O Hn Hk [o Ho] Hk' l. specialize (O l). unfold refs in *.
  rewrite (sum_dbs_insert _ _ _ _ db' Hn), Hk', (holders_insert _ _ _ l Hk). unfold bump.
  destruct (decide (l = v)) as [->|Hne]; [rewrite Ho in *; lia|]. destruct (h !! l); lia.
Qed.

Lemma owned_incr ext ds h l o :
  owned ext ds h → h !! l = Some o →
  owned (bump ext l 1) ds (<[l := Robj (o_type o) (o_lru o) (o_refcount o + 1) (o_ptr o)]> h).
Proof.
  intros O Ho x. pose proof (O x) as Ox. unfold bump. destruct (decide (x = l)) as [->|Hne].
  - rewrite lookup_insert_eq. rewrite Ho in Ox. cbn. lia.
  - by rewrite lookup_insert_ne.
Qed.

Lemma owned_decr ext ds h l :
  owned ext ds h → 1 ≤ ext l → is_Some (h !! l) → owned (bump ext l (-1)) ds (release l h).
Proof.
  intros O He [o Ho] x. pose proof (O x) as Ox. pose proof (O l) as Ol. rewrite Ho in Ol. unfold release, bump. rewrite Ho.
  assert (0 ≤ refs ds l) as Hr by (apply sum_dbs_nonneg; intros; apply holders_nonneg).
  destruct (Z.eqb_spec (o_refcount o) 1) as [E1|E1]; (destruct (decide (x = l)) as [->|Hne]; [|by rewrite ?lookup_delete_ne, ?lookup_insert_ne by done]).
  - rewrite lookup_delete_eq. lia.
  - rewrite lookup_insert_eq. cbn. lia.
Qed.

Lemma owned_ext ext ext' ds h : owned ext ds h → (∀ l, ext l = ext' l) → owned ext' ds h.
Proof. intros O He l. specialize (O l). by rewrite <-(He l). Qed.

Lemma owned_put ext ds h l o o' :
  owned ext ds h → h !! l = Some o → o_refcount o' = o_refcount o → owned ext ds (<[l := o']> h).
Proof.
  intros O Ho Hr x. specialize (O x). destruct (decide (x = l)) as [->|Hne].
  - rewrite lookup_insert_eq. rewrite Ho in O. by rewrite Hr.
  - by rewrite lookup_insert_ne.
Qed.

Lemma total_insert ds n db db' : ds !! n = Some db →
  total (<[n := db']> ds) = total ds - Z.of_nat (size (keys_of db)) + Z.of_nat (size (keys_of db')).
Proof. intros Hn. unfold total. by rewrite (sum_dbs_insert _ _ _ _ db' Hn). Qed.

Lemma size_total ds n db : ds !! n = Some db → Z.of_nat (size (keys_of db)) ≤ total ds.
Proof. intros Hn. unfold total. apply (sum_dbs_ge (λ db, Z.of_nat (size (keys_of db))) ds n db); [lia|done]. Qed.

(** ** The logical keyspace *)

(** The time does not change while a command runs, and is [t]. *)
Definition steady (t : Z) : Prop := (∀ n, clock n = t) ∧ match lua_start E with Some u => u = t | None => True end.

(** A key whose time is past does not exist any more, except for a slave and while
    data are loaded. *)
Definition gone (t : Z) (when : option Z) : bool := past t when && negb (loading E) && negb (masterhost E).

(** The keys that exist at [t], with their values and expire times. *)
Definition lview (t : Z) (db : redisDb) : gmap text (loc * option Z) :=
  map_imap (λ key l, if gone t (expires_of db !! key) then None else Some (l, expires_of db !! key)) (keys_of db).

Lemma lookup_lview t db key :
  lview t db !! key = (l ← keys_of db !! key; if gone t (expires_of db !! key) then None else Some (l, expires_of db !! key)).
Proof. unfold lview. by rewrite map_lookup_imap. Qed.

Lemma steady_now t s : steady t → expire_now s = t.
Proof. intros [Hc Hl]. unfold expire_now. destruct (lua_start E); [done|apply Hc]. Qed.

Lemma steady_dead t s db key : steady t → dead s db key = gone t (expires_of db !! key).
Proof. intros Hs. unfold dead, gone. by rewrite (steady_now t s Hs). Qed.

Lemma lview_keep t db db' : db_keep db db' → lview t db' = lview t db.
Proof. intros K. apply map_eq. intros key. rewrite !lookup_lview. by rewrite (db_keep_keys _ _ K), (db_keep_expires _ _ K). Qed.

Lemma lview_drop t db db' key : db_drop db db' key → lview t db' = delete key (lview t db).
Proof.
  intros D. apply map_eq. intros key'. destruct (decide (key' = key)) as [->|Hne].
  - rewrite lookup_delete_eq, lookup_lview, (db_drop_keys _ _ _ D), lookup_delete_eq. done.
  - rewrite lookup_delete_ne, !lookup_lview, (db_drop_keys _ _ _ D) by done. destruct D as (_ & _ & ->). by rewrite !lookup_delete_ne.
Qed.

Lemma lview_gone t db key : gone t (expires_of db !! key) = true → lview t db !! key = None.
Proof. intros Hg. rewrite lookup_lview, Hg. by destruct (keys_of db !! key). Qed.

(** A key that has just been looked at: it is there exactly when it exists. *)
Definition settled (t : Z) (db : redisDb) (key : text) : Prop := is_Some (keys_of db !! key) → gone t (expires_of db !! key) = false.

Lemma settled_lookup t db key : settled t db key → lview t db !! key = (λ l, (l, expires_of db !! key)) <$> keys_of db !! key.
Proof. intros Hs. rewrite lookup_lview. destruct (keys_of db !! key) as [l|] eqn:El; [|done]. cbn. rewrite Hs; [done|by rewrite El]. Qed.

Definition answers (evs : list event) : list answer := omap (λ e, match e with EvAnswer a => Some a | _ => None end) evs.
Definition touches (evs : list event) : list (Z * text) := omap (λ e, match e with EvTouch i key => Some (i, key) | _ => None end) evs.

(** ** Invariant *)

(** [db] is the database [i] of a well formed server; [ext] are the references that
    others have to the objects. *)
Record focus (ext : loc → Z) s (i : Z) (db : redisDb) : Prop := Focus {
  fc_at : at_db s i db;
  fc_dbs : Forall db_ok (dbs s);
  fc_owned : owned ext (dbs s) (objects s);
  fc_total : total (dbs s) < 2 ^ 28;
  fc_ext : ∀ l, 0 ≤ ext l < 2 ^ 28
}.

Lemma focus_ok ext s i db : focus ext s i db → db_ok db.
Proof. intros F. eapply Forall_lookup_1; [apply F|apply (fc_at _ _ _ _ F)]. Qed.

Lemma focus_live ext s i db : focus ext s i db → values_live s db.
Proof. intros F key l Hl. eapply owned_live; [apply F| | |apply (fc_at _ _ _ _ F)|done]; pose proof (fc_total _ _ _ _ F); pose proof (fc_ext _ _ _ _ F l); lia. Qed.

(** Types and contents of the objects stay. *)
Definition same_contents (h h' : gmap loc (robj P)) : Prop :=
  ∀ l o', h' !! l = Some o' → ∃ o, h !! l = Some o ∧ o_type o' = o_type o ∧ o_ptr o' = o_ptr o.

Lemma same_contents_refl h : same_contents h h.
Proof. intros l o Ho. by exists o. Qed.

Lemma same_contents_trans h1 h2 h3 : same_contents h1 h2 → same_contents h2 h3 → same_contents h1 h3.
Proof. intros H1 H2 l o3 H3. destruct (H2 l o3 H3) as (o2 & Ho2 & T2 & P2). destruct (H1 l o2 Ho2) as (o1 & Ho1 & T1 & P1). exists o1. split_and!; congruence. Qed.

Lemma same_contents_put h l o o' : h !! l = Some o → o_type o' = o_type o → o_ptr o' = o_ptr o → same_contents h (<[l := o']> h).
Proof.
  intros Ho Ht Hp x o2. destruct (decide (x = l)) as [->|Hne].
  - rewrite lookup_insert_eq. intros [= <-]. by exists o.
  - rewrite lookup_insert_ne by done. intros Hx. by exists o2.
Qed.

Lemma same_contents_release h v : same_contents h (release_opt v h).
Proof.
  destruct v as [l|]; cbn; [|apply same_contents_refl]. unfold release. destruct (h !! l) as [o|] eqn:Eo; [|apply same_contents_refl].
  destruct (o_refcount o =? 1); [|by apply (same_contents_put h l o)].
  intros x o'. intros [_ Hx]%lookup_delete_Some. by exists o'.
Qed.

(** A step that cannot be seen: it rehashes tables and deletes keys that do not
    exist any more. *)
Record quiet s s' (i : Z) (db db' : redisDb) : Prop := Quiet {
  qt_dbs : dbs s' = <[Z.to_nat i := db']> (dbs s);
  qt_contents : same_contents (objects s) (objects s');
  qt_c_db : c_db s' = c_db s;
  qt_argv : argv s' = argv s;
  qt_dirty : dirty s' = dirty s;
  qt_log : ∃ evs, log s' = log s ++ evs ∧ answers evs = [] ∧ touches evs = [];
  qt_view : ∀ t, steady t → lview t db' = lview t db;
  qt_keys : keys_of db' ⊆ keys_of db;
  qt_expires : ∀ key, is_Some (keys_of db' !! key) → expires_of db' !! key = expires_of db !! key
}.

Lemma answers_app a b : answers (a ++ b) = answers a ++ answers b.
Proof. apply omap_app. Qed.
Lemma touches_app a b : touches (a ++ b) = touches a ++ touches b.
Proof. apply omap_app. Qed.

Lemma quiet_trans s1 s2 s3 i a b c : quiet s1 s2 i a b → quiet s2 s3 i b c → quiet s1 s3 i a c.
Proof.
  intros [D1 O1 C1 A1 Y1 (e1 & L1 & N1 & T1) V1 K1 X1] [D2 O2 C2 A2 Y2 (e2 & L2 & N2 & T2) V2 K2 X2].
  split; [|by eapply same_contents_trans|congruence..| | |by etrans|].
  - by rewrite D2, D1, list_insert_insert_eq.
  - exists (e1 ++ e2). rewrite L2, L1, <-app_assoc, answers_app, touches_app, N1, N2, T1, T2. done.
  - intros t Ht. by rewrite V2, V1.
  - intros key Hk. rewrite X2 by done. apply X1. destruct Hk as [l Hl]. exists l. by eapply lookup_weaken.
Qed.

Lemma keep_quiet s s' i db db' : db_keep db db' → dbs s' = <[Z.to_nat i := db']> (dbs s) → same_contents (objects s) (objects s') →
  c_db s' = c_db s → argv s' = argv s → dirty s' = dirty s → log s' = log s → quiet s s' i db db'.
Proof.
  intros K D O C A Y L. split; try done.
  - exists []. by rewrite L, app_nil_r.
  - intros t _. by apply lview_keep.
  - by rewrite (db_keep_keys _ _ K).
  - intros key _. by rewrite (db_keep_expires _ _ K).
Qed.

Lemma focus_keep ext s s' i db db' : focus ext s i db → db_keep db db' → dbs s' = <[Z.to_nat i := db']> (dbs s) →
  owned ext (dbs s) (objects s') → focus ext s' i db'.
Proof.
  intros F K D O. pose proof (fc_at _ _ _ _ F) as [Hi Hdb]. split.
  - split; [done|]. rewrite D. apply list_lookup_insert_eq. by eapply lookup_lt_Some.
  - rewrite D. apply Forall_insert; [apply F|]. by eapply db_keep_ok, K; eapply focus_ok.
  - rewrite D. eapply owned_keep; [done|done|]. by apply db_keep_keys.
  - rewrite D, (total_insert _ _ _ _ Hdb), (db_keep_keys _ _ K). pose proof (fc_total _ _ _ _ F). lia.
  - apply F.
Qed.

Lemma focus_drop ext s s' i db db' key : focus ext s i db → db_drop db db' key → dbs s' = <[Z.to_nat i := db']> (dbs s) →
  objects s' = release_opt (keys_of db !! key) (objects s) → focus ext s' i db'.
Proof.
  intros F K D O. pose proof (fc_at _ _ _ _ F) as [Hi Hdb]. split.
  - split; [done|]. rewrite D. apply list_lookup_insert_eq. by eapply lookup_lt_Some.
  - rewrite D. apply Forall_insert; [apply F|]. by eapply db_drop_ok, K; eapply focus_ok.
  - rewrite D, O. eapply owned_drop; [apply F|apply F|done|by apply db_drop_keys].
  - rewrite D, (total_insert _ _ _ _ Hdb), (db_drop_keys _ _ _ K). pose proof (fc_total _ _ _ _ F).
    pose proof (map_subseteq_size _ _ (delete_subseteq (keys_of db) key)). lia.
  - apply F.
Qed.

(** ** Lookups, as seen from outside *)

Lemma expire_events_silent i key : answers (expire_events i key) = [] ∧ touches (expire_events i key) = [].
Proof. unfold expire_events. by destruct (aof_on E). Qed.

Lemma expireIfNeeded_spec ext s i db key : focus ext s i db →
  ∃ r s' db', expireIfNeeded i key s = Some (r, s') ∧ focus ext s' i db' ∧ quiet s s' i db db' ∧
    (∀ t, steady t → settled t db' key) ∧
    (∀ key', key' ≠ key → keys_of db' !! key' = keys_of db !! key') ∧
    (∀ t, steady t → (r =? 0) = negb (past t (expires_of db !! key) && negb (loading E))) ∧
    (db_keep db db' ∨ db_drop db db' key).
Proof.
  intros F. destruct (expireIfNeeded_run s i db key (fc_at _ _ _ _ F) (focus_ok _ _ _ _ F) (focus_live _ _ _ _ F)) as (r & s' & db' & E1 & Hr).
  exists r, s', db'. split; [done|]. destruct (dead s db key) eqn:Ed.
  - destruct Hr as (-> & Dr & Mv). split; [by eapply focus_drop; try done; apply Mv|]. destruct (expire_events_silent i key) as [Ha Ht].
    split; [|split; [|split; [|split; [|by right]]]].
    + split; [apply Mv|rewrite (mv_objects _ _ _ _ _ _ Mv); apply same_contents_release|apply Mv|apply Mv|apply Mv|..].
      * exists (expire_events i key). by rewrite (mv_log _ _ _ _ _ _ Mv).
      * intros t St. rewrite (lview_drop _ _ _ _ Dr). apply delete_id, lview_gone. by rewrite <-(steady_dead t s).
      * rewrite (db_drop_keys _ _ _ Dr). apply delete_subseteq.
      * intros key' Hk. rewrite (db_drop_keys _ _ _ Dr) in Hk. destruct Dr as (_ & _ & ->). apply lookup_delete_ne. intros ->.
        rewrite lookup_delete_eq in Hk. by destruct Hk.
    + intros t _ Hk. rewrite (db_drop_keys _ _ _ Dr), lookup_delete_eq in Hk. by destruct Hk.
    + intros key' Hne. by rewrite (db_drop_keys _ _ _ Dr), lookup_delete_ne.
    + intros t St. unfold dead in Ed. rewrite (steady_now t s St) in Ed. apply andb_true_iff in Ed as [Ed _]. by rewrite Ed.
  - destruct Hr as (-> & K & Mv). split; [|split; [|split; [|split; [|split; [|by left]]]]].
    + eapply focus_keep; [done|done|apply Mv|]. rewrite (mv_objects _ _ _ _ _ _ Mv). apply F.
    + apply keep_quiet; [done|apply Mv| |apply Mv|apply Mv|apply Mv|].
      * rewrite (mv_objects _ _ _ _ _ _ Mv). apply same_contents_refl.
      * by rewrite (mv_log _ _ _ _ _ _ Mv), app_nil_r.
    + intros t St _. by rewrite (db_keep_expires _ _ K), <-(steady_dead t s).
    + intros key' _. by rewrite (db_keep_keys _ _ K).
    + intros t St. rewrite (steady_now t s St). by destruct (past t _ && _).
Qed.

Lemma dbFind_spec ext s i db key : focus ext s i db →
  ∃ s' db', dbFind i key s = Some (keys_of db !! key, s') ∧ focus ext s' i db' ∧ quiet s s' i db db' ∧ db_keep db db' ∧ objects s' = objects s.
Proof.
  intros F. destruct (dbFind_run s i db key (fc_at _ _ _ _ F) (focus_ok _ _ _ _ F)) as (db' & E1 & K).
  exists (set_db s i db'), db'. split; [done|]. split; [eapply focus_keep; [done|done|done|apply F]|]. split; [|done].
  apply keep_quiet; try done. apply same_contents_refl.
Qed.

Lemma lookupKey_spec ext s i db key : focus ext s i db →
  ∃ s' db', lookupKey i key s = Some (keys_of db !! key, s') ∧ focus ext s' i db' ∧ quiet s s' i db db' ∧ db_keep db db'.
Proof.
  intros F. destruct (dbFind_spec ext s i db key F) as (s1 & db1 & E1 & F1 & Q1 & K1 & O1). unfold lookupKey. step E1.
  destruct (keys_of db !! key) as [l|] eqn:El; [|by exists s1, db1]. destruct (saving E); cbn [negb]; [by exists s1, db1|].
  destruct (focus_live _ _ _ _ F key l El) as (o & Ho & _). rewrite <-O1 in Ho. step (get_object_run _ _ _ Ho).
  eexists _, db1. split; [done|]. split.
  - split; [apply F1|apply F1| |apply F1|apply F1]. cbn. eapply owned_put; [apply F1|done|done].
  - split; [|done]. destruct Q1 as [D O C A Y L V KK X]. split; try done. cbn. eapply same_contents_trans; [exact O|]. by eapply same_contents_put.
Qed.

(** A lookup finds the key exactly when it exists. *)
Definition found ext s i db key (v : option loc) s' db' : Prop :=
  focus ext s' i db' ∧ quiet s s' i db db' ∧ v = keys_of db' !! key ∧ (∀ t, steady t → settled t db' key) ∧
  (∀ key', key' ≠ key → keys_of db' !! key' = keys_of db !! key').

Lemma lookupKeyWrite_spec ext s i db key : focus ext s i db →
  ∃ v s' db', lookupKeyWrite i key s = Some (v, s') ∧ found ext s i db key v s' db'.
Proof.
  intros F. unfold lookupKeyWrite. destruct (expireIfNeeded_spec ext s i db key F) as (r & s1 & db1 & E1 & F1 & Q1 & S1 & N1 & _). step E1.
  destruct (lookupKey_spec ext s1 i db1 key F1) as (s2 & db2 & E2 & F2 & Q2 & K2). rewrite E2.
  exists (keys_of db1 !! key), s2, db2. split; [done|]. split; [done|]. split; [by eapply quiet_trans|]. split; [by rewrite (db_keep_keys _ _ K2)|].
  split; [|by rewrite (db_keep_keys _ _ K2)].
  intros t St. unfold settled. rewrite (db_keep_keys _ _ K2), (db_keep_expires _ _ K2). by apply S1.
Qed.

Lemma lookupKeyRead_spec ext s i db key : focus ext s i db →
  ∃ v s' db', lookupKeyRead i key s = Some (v, s') ∧ found ext s i db key v s' db'.
Proof.
  intros F. unfold lookupKeyRead. destruct (expireIfNeeded_spec ext s i db key F) as (r & s1 & db1 & E1 & F1 & Q1 & S1 & N1 & _). step E1.
  destruct (lookupKey_spec ext s1 i db1 key F1) as (s2 & db2 & E2 & F2 & Q2 & K2). step E2.
  assert (∃ s3, (match keys_of db1 !! key with
       | None => modify (λ s, with_stats s (stat_keyspace_hits s) (i64 (stat_keyspace_misses s + 1)) (stat_expiredkeys s))
       | Some _ => modify (λ s, with_stats s (i64 (stat_keyspace_hits s + 1)) (stat_keyspace_misses s) (stat_expiredkeys s))
       end) s2 = Some (tt, s3) ∧ focus ext s3 i db2 ∧ quiet s s3 i db db2) as (s3 & E3 & F3 & Q3).
  { pose proof (quiet_trans _ _ _ _ _ _ _ Q1 Q2) as Q. destruct Q, F2. destruct (keys_of db1 !! key); eexists; (split; [reflexivity|split; by split]). }
  step E3. exists (keys_of db1 !! key), s3, db2. split; [done|]. split; [done|]. split; [done|]. split; [by rewrite (db_keep_keys _ _ K2)|].
  split; [|by rewrite (db_keep_keys _ _ K2)].
  intros t St. unfold settled. rewrite (db_keep_keys _ _ K2), (db_keep_expires _ _ K2). by apply S1.
Qed.

Lemma found_view ext s i db key v s' db' t : found ext s i db key v s' db' → steady t →
  lview t db !! key = (λ l, (l, expires_of db' !! key)) <$> v.
Proof. intros (_ & Q & -> & S & _) St. rewrite <-(qt_view _ _ _ _ _ Q t St). by apply settled_lookup, S. Qed.

Lemma getExpire_spec ext s i db key : focus ext s i db →
  ∃ s' db', getExpire i key s = Some (default (-1) (expires_of db !! key), s') ∧ focus ext s' i db' ∧ quiet s s' i db db' ∧ db_keep db db' ∧
    objects s' = objects s.
Proof.
  intros F. destruct (getExpire_run s i db key (fc_at _ _ _ _ F) (focus_ok _ _ _ _ F)) as (db' & E1 & K).
  exists (set_db s i db'), db'. split; [done|]. split; [eapply focus_keep; [done|done|done|apply F]|]. split; [|done].
  apply keep_quiet; try done. apply same_contents_refl.
Qed.

(** ** Updates *)

(** What a run adds to the answers, the signalled keys and the counter of changes. *)
Record trace s s' (i : Z) (db' : redisDb) (ans : list answer) (tch : list (Z * text)) (n : Z) : Prop := Trace {
  tr_dbs : dbs s' = <[Z.to_nat i := db']> (dbs s);
  tr_contents : same_contents (objects s) (objects s');
  tr_c_db : c_db s' = c_db s;
  tr_dirty : i64 (dirty s') = i64 (dirty s + n);
  tr_log : ∃ evs, log s' = log s ++ evs ∧ answers evs = ans ∧ touches evs = tch
}.

Lemma i64_i64_add x y : i64 (i64 x + y) = i64 (x + y).
Proof.
  unfold wraps. f_equal. replace ((x + 2 ^ (64 - 1)) mod 2 ^ 64 - 2 ^ (64 - 1) + y + 2 ^ (64 - 1)) with ((x + 2 ^ (64 - 1)) mod 2 ^ 64 + y) by lia.
  rewrite Zplus_mod_idemp_l. f_equal. lia.
Qed.

Lemma trace_trans s1 s2 s3 i a b ans1 ans2 tch1 tch2 n1 n2 :
  trace s1 s2 i a ans1 tch1 n1 → trace s2 s3 i b ans2 tch2 n2 → trace s1 s3 i b (ans1 ++ ans2) (tch1 ++ tch2) (n1 + n2).
Proof.
  intros [D1 O1 C1 Y1 (e1 & L1 & N1 & T1)] [D2 O2 C2 Y2 (e2 & L2 & N2 & T2)]. split; [|by eapply same_contents_trans|congruence| |].
  - by rewrite D2, D1, list_insert_insert_eq.
  - rewrite Y2, <-(i64_i64_add (dirty s2)), Y1, i64_i64_add. f_equal. lia.
  - exists (e1 ++ e2). by rewrite L2, L1, <-app_assoc, answers_app, touches_app, N1, N2, T1, T2.
Qed.

Lemma quiet_trace s s' i db db' : quiet s s' i db db' → trace s s' i db' [] [] 0.
Proof. intros Q. split; [apply Q|apply Q|apply Q| |apply Q]. by rewrite (qt_dirty _ _ _ _ _ Q), Z.add_0_r. Qed.

Lemma emit_run e s : emit e s = Some (tt, add_log s [e]).
Proof. done. Qed.

Lemma focus_log ext s i db evs : focus ext s i db → focus ext (add_log s evs) i db.
Proof. by intros []. Qed.
Lemma focus_dirty ext s i db n : focus ext s i db → focus ext (with_dirty s n) i db.
Proof. by intros []. Qed.

Lemma trace_log s i db evs : at_db s i db → trace s (add_log s evs) i db (answers evs) (touches evs) 0.
Proof.
  intros [Hi Hdb]. split; cbn; [by rewrite list_insert_id|apply same_contents_refl|done|by rewrite Z.add_0_r|by exists evs].
Qed.

Lemma trace_dirty s i db n : at_db s i db → trace s (with_dirty s (i64 (dirty s + n))) i db [] [] n.
Proof.
  intros [Hi Hdb]. split; cbn; [by rewrite list_insert_id|apply same_contents_refl|done| |by exists []; rewrite app_nil_r].
  pose proof (i64_i64_add (dirty s + n) 0) as X. by rewrite !Z.add_0_r in X.
Qed.

Lemma dbDelete_spec ext s i db key : focus ext s i db →
  ∃ s' db', dbDelete i key s = Some (if decide (is_Some (keys_of db !! key)) then 1 else 0, s') ∧ focus ext s' i db' ∧
    trace s s' i db' [] [] 0 ∧ db_drop db db' key ∧ objects s' = release_opt (keys_of db !! key) (objects s).
Proof.
  intros F. destruct (dbDelete_run s i db key (fc_at _ _ _ _ F) (focus_ok _ _ _ _ F) (focus_live _ _ _ _ F key)) as (db' & E1 & Dr).
  eexists _, db'. split; [exact E1|]. split; [by eapply focus_drop|]. split; [|done].
  split; cbn; [done|apply same_contents_release|done|by rewrite Z.add_0_r|by exists []; rewrite app_nil_r].
Qed.

(** The references of the callers of dbAdd go to the keyspace. *)
Lemma dbAdd_spec ext s i db key l o : focus ext s i db → keys_of db !! key = None → objects s !! l = Some o →
  ∃ s' db', dbAdd i key l s = Some (tt, s') ∧ at_db s' i db' ∧ Forall db_ok (dbs s') ∧ owned (bump ext l (-1)) (dbs s') (objects s') ∧
    total (dbs s') = total (dbs s) + 1 ∧ trace s s' i db' [] [] 0 ∧ objects s' = objects s ∧
    keys_of db' = <[key := l]> (keys_of db) ∧ expires_of db' = expires_of db.
Proof.
  intros F Hk Ho. pose proof (fc_at _ _ _ _ F) as A. pose proof (focus_ok _ _ _ _ F) as W. pose proof (fc_total _ _ _ _ F) as Ht.
  assert (dictSize (db_dict db) < 2 ^ 29) as Hs.
  { rewrite (dictSize_dmap dbDictType _ (ok_dict _ W)). pose proof (size_total _ _ _ (proj2 A)) as Hs. unfold keys_of in Hs. lia. }
  destruct (dictAdd_new dbDictType (can_resize E) junk_val (db_dict db) key l (ok_dict _ W) Hs Hk) as (d & E1 & W1 & M1 & I1).
  set (db' := RedisDb d (db_expires db)).
  assert (db_ok db') as W'.
  { split; cbn; [done|apply W|rewrite I1; apply W|]. unfold keys_of, expires_of. cbn. rewrite M1, dom_insert_L. pose proof (ok_keys _ W) as Hd.
    unfold keys_of, expires_of in Hd. set_solver. }
  assert (keys_of db' = <[key := l]> (keys_of db)) as Hk' by exact M1.
  set (s1 := set_db s i db').
  assert (∃ evs, dbAdd i key l s = Some (tt, add_log s1 evs) ∧ answers evs = [] ∧ touches evs = []) as (evs & Ed & Ha & Htc).
  { unfold dbAdd. step (get_db_run _ _ _ A). step (lift_run _ _ _ E1). step (put_dict_run _ _ _ _ A).
    assert ((DICT_OK =? DICT_OK) = true) as Hb by done. step (check_run _ (set_db s i db') Hb).
    assert (objects (set_db s i db') !! l = Some o) as Ho' by done. step (get_object_run _ _ _ Ho').
    destruct (o_type o =? REDIS_LIST); [by exists [EvListReady i key]|]. exists []. split; [|done]. unfold add_log. by rewrite app_nil_r; destruct s. }
  exists (add_log s1 evs), db'. split; [done|]. split; [by apply (at_set_db s i db)|]. split; [by apply Forall_insert; [apply F|]|].
  split; [eapply owned_add; [apply F|apply A|done|by exists o|done]|].
  split; [|split; [|done]].
  - change (dbs (add_log s1 evs)) with (<[Z.to_nat i := db']> (dbs s)). rewrite (total_insert _ _ _ _ (proj2 A)), Hk', map_size_insert_None by done. lia.
  - split; [done|apply same_contents_refl|done|by rewrite Z.add_0_r|by exists evs].
Qed.

Lemma setExpire_spec ext s i db key when : focus ext s i db → is_Some (keys_of db !! key) →
  ∃ s' db', setExpire i key when s = Some (tt, s') ∧ focus ext s' i db' ∧ trace s s' i db' [] [] 0 ∧ objects s' = objects s ∧
    keys_of db' = keys_of db ∧ expires_of db' = <[key := when]> (expires_of db).
Proof.
  intros F Hk. destruct (dbFind_spec ext s i db key F) as (s1 & db1 & E1 & F1 & Q1 & K1 & O1). unfold setExpire. step E1.
  step (check_run _ s1 (bool_decide_eq_true_2 _ Hk)). pose proof (fc_at _ _ _ _ F1) as A1. step (get_db_run _ _ _ A1).
  pose proof (focus_ok _ _ _ _ F1) as W1. pose proof (fc_total _ _ _ _ F1) as Ht.
  assert (dictSize (db_expires db1) < 2 ^ 29) as Hs.
  { rewrite (dictSize_dmap dbDictType _ (ok_expires _ W1)). pose proof (size_total _ _ _ (proj2 A1)) as Hs.
    pose proof (subseteq_size _ _ (ok_keys _ W1)) as Hd. rewrite !size_dom in Hd. unfold keys_of, expires_of in *. lia. }
  destruct (dictReplaceRaw_set dbDictType (can_resize E) junk_when (db_expires db1) key when (ok_expires _ W1) Hs) as (d1 & p & d2 & E2 & E3 & W2 & M2 & _).
  step (lift_run _ _ _ E2). step (lift_run (Some p) s1 p eq_refl). step (lift_run _ s1 _ E3). rewrite (put_expires_run _ _ _ _ A1).
  set (db2 := RedisDb (db_dict db1) d2). exists (set_db s1 i db2), db2. split; [done|].
  assert (keys_of db2 = keys_of db1) as Hk2 by done. assert (expires_of db2 = <[key := when]> (expires_of db1)) as He2 by exact M2.
  assert (db_ok db2) as Wk.
  { split; [apply W1|done|apply W1|]. rewrite Hk2, He2, dom_insert_L. pose proof (ok_keys _ W1).
    assert (key ∈ dom (keys_of db1)) by (rewrite elem_of_dom, (db_keep_keys _ _ K1); done). set_solver. }
  split; [|split; [|split; [done|split]]].
  - split; [by eapply at_set_db|apply Forall_insert; [apply F1|done]| | |apply F1].
    + eapply owned_keep; [apply F1|apply A1|done].
    + change (total (<[Z.to_nat i := db2]> (dbs s1)) < 2 ^ 28). rewrite (total_insert _ _ _ _ (proj2 A1)), Hk2. lia.
  - apply (trace_trans s s1 (set_db s1 i db2) i db1 db2 [] [] [] [] 0 0); [by eapply quiet_trace|].
    split; [done|apply same_contents_refl|done|by rewrite Z.add_0_r|exists []; by rewrite app_nil_r].
  - by rewrite Hk2, (db_keep_keys _ _ K1).
  - by rewrite He2, (db_keep_expires _ _ K1).
Qed.

Lemma dictDelete_expires_run s i db key : at_db s i db → db_ok db →
  ∃ db', dictDelete_expires i key s = Some (if decide (is_Some (expires_of db !! key)) then DICT_OK else DICT_ERR, set_db s i db') ∧
    db_ok db' ∧ keys_of db' = keys_of db ∧ expires_of db' = delete key (expires_of db).
Proof.
  intros A W. destruct (dictDelete_removed dbDictType (db_expires db) key (ok_expires _ W)) as (d' & E1 & (W1 & M1 & _)).
  exists (RedisDb (db_dict db) d'). split; [|split; [|done]].
  - unfold dictDelete_expires. step (get_db_run _ _ _ A). step (lift_run _ _ _ E1). by step (put_expires_run _ _ _ _ A).
  - split; [apply W|done|apply W|]. unfold keys_of, expires_of. cbn. rewrite M1, dom_delete_L. pose proof (ok_keys _ W) as Hk.
    unfold keys_of, expires_of in Hk. set_solver.
Qed.

Lemma removeExpire_spec ext s i db key : focus ext s i db → is_Some (keys_of db !! key) →
  ∃ s' db', removeExpire i key s = Some (bool_decide (is_Some (expires_of db !! key)), s') ∧ focus ext s' i db' ∧ trace s s' i db' [] [] 0 ∧
    objects s' = objects s ∧ keys_of db' = keys_of db ∧ expires_of db' = delete key (expires_of db).
Proof.
  intros F Hk. destruct (dbFind_spec ext s i db key F) as (s1 & db1 & E1 & F1 & Q1 & K1 & O1). unfold removeExpire. step E1.
  step (check_run _ s1 (bool_decide_eq_true_2 _ Hk)). pose proof (fc_at _ _ _ _ F1) as A1. pose proof (focus_ok _ _ _ _ F1) as W1.
  destruct (dictDelete_expires_run s1 i db1 key A1 W1) as (db2 & E2 & W2 & Hk2 & He2). step E2. rewrite (db_keep_expires _ _ K1).
  exists (set_db s1 i db2), db2. split.
  { f_equal. f_equal. destruct (decide (is_Some (expires_of db !! key))); [by rewrite bool_decide_true|by rewrite bool_decide_false]. }
  split; [|split; [|split; [done|split]]].
  - split; [by eapply at_set_db|apply Forall_insert; [apply F1|done]| | |apply F1].
    + eapply owned_keep; [apply F1|apply A1|done].
    + change (total (<[Z.to_nat i := db2]> (dbs s1)) < 2 ^ 28). rewrite (total_insert _ _ _ _ (proj2 A1)), Hk2. pose proof (fc_total _ _ _ _ F1). lia.
  - apply (trace_trans s s1 (set_db s1 i db2) i db1 db2 [] [] [] [] 0 0); [by eapply quiet_trace|].
    split; [done|apply same_contents_refl|done|by rewrite Z.add_0_r|exists []; by rewrite app_nil_r].
  - by rewrite Hk2, (db_keep_keys _ _ K1).
  - by rewrite He2, (db_keep_expires _ _ K1).
Qed.

Lemma trace_add_log s s' i db' ans tch n evs :
  trace s s' i db' ans tch n → trace s (add_log s' evs) i db' (ans ++ answers evs) (tch ++ touches evs) n.
Proof.
  intros [D O C Y (e & L & N & T)]. split; try done. exists (e ++ evs). cbn.
  by rewrite L, <-app_assoc, answers_app, touches_app, N, T.
Qed.

Lemma trace_add_dirty s s' i db' ans tch n m :
  trace s s' i db' ans tch n → trace s (with_dirty s' (i64 (dirty s' + m))) i db' ans tch (n + m).
Proof.
  intros [D O C Y L]. split; try done. cbn. pose proof (i64_i64_add (dirty s' + m) 0) as X. rewrite !Z.add_0_r in X. rewrite X.
  rewrite <-i64_i64_add, Y, i64_i64_add. f_equal. lia.
Qed.

(** ** What the commands do to the logical keyspace *)

Abbreviation lmap := (gmap text (loc * option Z)).

Inductive kcmd :=
| KDel (keys : list text)
| KExists (key : text)
| KRename (nx : bool) (src dst : text)
| KExpire (relative secs : bool) (key : text) (n : Z)
| KTtl (ms : bool) (key : text)
| KType (key : text).

Definition name_del : text := shared_del.
Definition argv_of (c : kcmd) : list text :=
  match c with
  | KDel keys => name_del :: keys
  | KExists key | KTtl _ key | KType key => [[]; key]
  | KRename _ src dst => [[]; src; dst]
  | KExpire _ _ key n => [[]; key; ll_text n]
  end.

Definition command_of (c : kcmd) : M unit :=
  match c with
  | KDel _ => delCommand
  | KExists _ => existsCommand
  | KRename false _ _ => renameCommand
  | KRename true _ _ => renamenxCommand
  | KExpire true true _ _ => expireCommand
  | KExpire true false _ _ => pexpireCommand
  | KExpire false true _ _ => expireatCommand
  | KExpire false false _ _ => pexpireatCommand
  | KTtl false _ => ttlCommand
  | KTtl true _ => pttlCommand
  | KType _ => typeCommand
  end.

Definition kcmd_ok (c : kcmd) : Prop :=
  match c with KDel keys => Z.of_nat (length keys) < 2 ^ 31 | KExpire _ _ _ n => in_i64 n | _ => True end.

Definition type_name (type : Z) : string :=
  if type =? REDIS_STRING then "string"%string else if type =? REDIS_LIST then "list"%string
  else if type =? REDIS_SET then "set"%string else if type =? REDIS_ZSET then "zset"%string
  else if type =? REDIS_HASH then "hash"%string else "unknown"%string.

Definition del_spec (keys : list text) (L : lmap) : lmap * list text :=
  foldl (λ '(L, tch) key, match L !! key with Some _ => (delete key L, tch ++ [key]) | None => (L, tch) end) (L, []) keys.

(** At the time [t], with the types [ty] of the values: the keyspace after the
    command, the answers, the signalled keys and the number of changes. *)
Definition kspec (t : Z) (ty : loc → Z) (c : kcmd) (L : lmap) : lmap * list answer * list text * Z :=
  match c with
  | KDel keys =>
      let '(L', tch) := del_spec keys L in (L', [R_int (Z.of_nat (length tch))], tch, Z.of_nat (length tch))
  | KExists key => (L, [if decide (is_Some (L !! key)) then R_cone else R_czero], [], 0)
  | KRename nx src dst =>
      if bool_decide (src = dst) then (L, [R_sameobjecterr], [], 0)
      else
        match L !! src with
        | None => (L, [R_nokeyerr], [], 0)
        | Some (l, w) =>
            if nx && bool_decide (is_Some (L !! dst)) then (L, [R_czero], [], 0)
            else
              let w := if default (-1) w =? -1 then None else w in
              (delete src (<[dst := (l, w)]> L), [if nx then R_cone else R_ok], [src; dst], 1)
        end
  | KExpire relative secs key n =>
      let when := i64 ((if secs then i64 (n * 1000) else n) + (if relative then t else 0)) in
      match L !! key with
      | None => (L, [R_czero], [], 0)
      | Some (l, _) =>
          if (when <=? t) && negb (loading E) && negb (masterhost E) then (delete key L, [R_cone], [key], 1)
          else (<[key := (l, Some when)]> L, [R_cone], [key], 1)
      end
  | KTtl ms key =>
      match L !! key with
      | None => (L, [R_int (-2)], [], 0)
      | Some (_, w) =>
          let expire := default (-1) w in
          let ttl := Z.max 0 (i64 (expire - t)) in
          (L, [R_int (if expire =? -1 then -1 else if ms then ttl else i64 (ttl + 500) `quot` 1000)], [], 0)
      end
  | KType key => (L, [R_status match L !! key with None => "none"%string | Some (l, _) => type_name (ty l) end], [], 0)
  end.

Definition type_in (h : gmap loc (robj P)) (l : loc) : Z := default 0 (o_type <$> h !! l).

(** The command [c] runs and does what [kspec] says. *)
Definition refines ext s (i : Z) (db : redisDb) (c : kcmd) : Prop :=
  ∃ s' db' ans tch n, command_of c s = Some (tt, s') ∧ focus ext s' i db' ∧ trace s s' i db' ans ((λ key, (i, key)) <$> tch) n ∧
    (size (keys_of db') ≤ size (keys_of db))%nat ∧
    ∀ t, steady t → kspec t (type_in (objects s)) c (lview t db) = (lview t db', ans, tch, n).

Lemma arg_run k a s : argv s !! k = Some a → arg k s = Some (a, s).
Proof. unfold arg. by intros ->. Qed.

Lemma exists_refines ext s db key : focus ext s (c_db s) db → argv s = argv_of (KExists key) → refines ext s (c_db s) db (KExists key).
Proof.
  intros F Ha. unfold refines. cbn [command_of]. unfold existsCommand. step (eq_refl (gets c_db s)).
  assert (arg 1 s = Some (key, s)) as Ea by (apply arg_run; by rewrite Ha). step Ea.
  destruct (expireIfNeeded_spec ext s _ db key F) as (r & s1 & db1 & E1 & F1 & Q1 & S1 & _). step E1.
  destruct (dbFind_spec ext s1 _ db1 key F1) as (s2 & db2 & E2 & F2 & Q2 & K2 & _).
  assert (dbExists (c_db s) key s1 = Some (bool_decide (is_Some (keys_of db1 !! key)), s2)) as E3 by (unfold dbExists; by step E2).
  step E3. set (a := if bool_decide (is_Some (keys_of db1 !! key)) then R_cone else R_czero).
  exists (add_log s2 [EvAnswer a]), db2, [a], [], 0. split; [subst a; by destruct (bool_decide _)|]. split; [by apply focus_log|]. split.
  - apply (trace_add_log s s2 _ db2 [] [] 0). by eapply quiet_trace, quiet_trans.
  - split; [apply map_subseteq_size; etrans; [apply Q2|apply Q1]|].
    intros t St. cbn. rewrite (qt_view _ _ _ _ _ Q2 t St), (qt_view _ _ _ _ _ Q1 t St).
    rewrite <-(qt_view _ _ _ _ _ Q1 t St), (settled_lookup t db1 key (S1 t St)). subst a.
    destruct (keys_of db1 !! key) as [l|]; cbn; by rewrite ?decide_True, ?decide_False by (by eauto || by intros [? ?]).
Qed.

Lemma type_refines ext s db key : focus ext s (c_db s) db → argv s = argv_of (KType key) → refines ext s (c_db s) db (KType key).
Proof.
  intros F Ha. unfold refines. cbn [command_of]. unfold typeCommand. step (eq_refl (gets c_db s)).
  assert (arg 1 s = Some (key, s)) as Ea by (apply arg_run; by rewrite Ha). step Ea.
  destruct (lookupKeyRead_spec ext s _ db key F) as (v & s1 & db1 & E1 & Fd). step E1. pose proof Fd as (F1 & Q1 & Hv & S1 & _).
  set (nm := match v with None => "none"%string | Some l => type_name (type_in (objects s) l) end).
  match goal with |- context [(?m ≫= _) s1] => assert (m s1 = Some (nm, s1)) as E2 end.
  { subst nm. destruct v as [l|]; [|done]. destruct (focus_live _ _ _ _ F1 key l (eq_sym Hv)) as (o' & Ho' & _). step (get_object_run _ _ _ Ho').
    destruct (qt_contents _ _ _ _ _ Q1 l o' Ho') as (o & Ho & Ht & _). unfold type_in, type_name. rewrite Ho. cbn. by rewrite Ht. }
  step E2. exists (add_log s1 [EvAnswer (R_status nm)]), db1, [R_status nm], [], 0. split; [done|]. split; [by apply focus_log|]. split.
  - apply (trace_add_log s s1 _ db1 [] [] 0). by eapply quiet_trace.
  - split; [apply map_subseteq_size, Q1|]. intros t St. cbn. rewrite (found_view _ _ _ _ _ _ _ _ t Fd St), (qt_view _ _ _ _ _ Q1 t St). by destruct v.
Qed.

Lemma mstime_run s : mstime s = Some (clock (ticks s), with_ticks s (S (ticks s))).
Proof. done. Qed.

Lemma focus_ticks ext s i db n : focus ext s i db → focus ext (with_ticks s n) i db.
Proof. by intros []. Qed.
Lemma trace_ticks s s' i db ans tch n m : trace s s' i db ans tch n → trace s (with_ticks s' m) i db ans tch n.
Proof. by intros []. Qed.

Lemma ttl_refines ext s db ms key : focus ext s (c_db s) db → argv s = argv_of (KTtl ms key) → refines ext s (c_db s) db (KTtl ms key).
Proof.
  intros F Ha. unfold refines. replace (command_of (KTtl ms key)) with (ttlGenericCommand ms) by (by destruct ms).
  unfold ttlGenericCommand. step (eq_refl (gets c_db s)).
  assert (arg 1 s = Some (key, s)) as Ea by (apply arg_run; by rewrite Ha). step Ea.
  destruct (lookupKeyRead_spec ext s _ db key F) as (v & s1 & db1 & E1 & Fd). step E1. pose proof Fd as (F1 & Q1 & Hv & S1 & _).
  destruct v as [l|].
  2:{ exists (add_log s1 [EvAnswer (R_int (-2))]), db1, [R_int (-2)], [], 0. split; [done|]. split; [by apply focus_log|]. split.
      - apply (trace_add_log s s1 _ db1 [] [] 0). by eapply quiet_trace.
      - split; [apply map_subseteq_size, Q1|]. intros t St. cbn. by rewrite (found_view _ _ _ _ _ _ _ _ t Fd St), (qt_view _ _ _ _ _ Q1 t St). }
  destruct (getExpire_spec ext s1 _ db1 key F1) as (s2 & db2 & E2 & F2 & Q2 & K2 & _). step E2.
  set (expire := default (-1) (expires_of db1 !! key)).
  assert (trace s s2 (c_db s) db2 [] [] 0) as T2 by (by eapply quiet_trace, quiet_trans).
  destruct (Z.eqb_spec expire (-1)) as [He|He]; cbn [negb].
  - step (eq_refl (mret (M := M) (-1) s2)). rewrite Z.eqb_refl.
    exists (add_log s2 [EvAnswer (R_int (-1))]), db2, [R_int (-1)], [], 0. split; [done|]. split; [by apply focus_log|]. split.
    + by apply (trace_add_log s s2 _ db2 [] [] 0).
    + split; [apply map_subseteq_size; etrans; [apply Q2|apply Q1]|]. intros t St. cbn. rewrite (found_view _ _ _ _ _ _ _ _ t Fd St). cbn. fold expire. rewrite He, Z.eqb_refl.
      by rewrite (qt_view _ _ _ _ _ Q2 t St), (qt_view _ _ _ _ _ Q1 t St).
  - set (ttl := let ttl := i64 (expire - clock (ticks s2)) in if ttl <? 0 then 0 else ttl).
    set (s3 := with_ticks s2 (S (ticks s2))).
    assert ((t ← mstime; let ttl := i64 (expire - t) in mret (M := M) (if ttl <? 0 then 0 else ttl)) s2 = Some (ttl, s3)) as E3 by done.
    step E3. assert (0 <= ttl) as Ht by (subst ttl; cbn; by destruct (Z.ltb_spec (i64 (expire - clock (ticks s2))) 0)).
    rewrite (proj2 (Z.eqb_neq ttl (-1))) by lia. set (a := R_int (if ms then ttl else i64 (ttl + 500) `quot` 1000)).
    exists (add_log s3 [EvAnswer a]), db2, [a], [], 0. split; [done|]. split; [by apply focus_log, focus_ticks|]. split.
    + by apply (trace_add_log s s3 _ db2 [] [] 0), trace_ticks.
    + split; [apply map_subseteq_size; etrans; [apply Q2|apply Q1]|]. intros t St. cbn. rewrite (found_view _ _ _ _ _ _ _ _ t Fd St). cbn. fold expire. rewrite (proj2 (Z.eqb_neq expire (-1)) He).
      rewrite (qt_view _ _ _ _ _ Q2 t St), (qt_view _ _ _ _ _ Q1 t St). subst a ttl. cbn. rewrite (proj1 St).
      replace (Z.max 0 (i64 (expire - t))) with (if i64 (expire - t) <? 0 then 0 else i64 (expire - t)); [done|].
      destruct (Z.ltb_spec (i64 (expire - t)) 0); lia.
Qed.

Lemma getLongLong_text_run n s : in_i64 n → getLongLongFromObjectOrReply (ll_text n) s = Some (Some n, s).
Proof.
  intros Hn. unfold getLongLongFromObjectOrReply. rewrite strtoll_erange_text by done.
  destruct (ll_text_shape n Hn) as (d & ds & -> & Hd & _). apply Forall_cons in Hd as [Hd _].
  assert (isspace (default ch_nul (head ((if n <? 0 then [ch_minus] else []) ++ d :: ds))) = false) as ->; [|done].
  destruct (n <? 0); cbn; [done|]. unfold is_dig, ch_0, ch_9 in Hd. unfold isspace. destruct (Z.eqb_spec d 32); [lia|]. cbn. zdec. done.
Qed.

(** The view after the expire time of a key is set. *)
Lemma lview_expire t db db' key l when :
  keys_of db' = keys_of db → expires_of db' = <[key := when]> (expires_of db) → keys_of db !! key = Some l →
  lview t db' = if gone t (Some when) then delete key (lview t db) else <[key := (l, Some when)]> (lview t db).
Proof.
  intros Hk He Hl. apply map_eq. intros key'. rewrite lookup_lview, Hk, He. destruct (decide (key' = key)) as [->|Hne].
  - rewrite lookup_insert_eq, Hl. cbn. destruct (gone t (Some when)); by rewrite ?lookup_delete_eq, ?lookup_insert_eq.
  - rewrite lookup_insert_ne by done. destruct (gone t (Some when)); by rewrite ?lookup_delete_ne, ?lookup_insert_ne, lookup_lview by done.
Qed.

Lemma lview_add t db db' key l :
  keys_of db' = <[key := l]> (keys_of db) → expires_of db' = expires_of db → expires_of db !! key = None →
  lview t db' = <[key := (l, None)]> (lview t db).
Proof.
  intros Hk He Hn. apply map_eq. intros key'. rewrite lookup_lview, Hk, He. destruct (decide (key' = key)) as [->|Hne].
  - by rewrite !lookup_insert_eq, Hn.
  - by rewrite !lookup_insert_ne, lookup_lview by done.
Qed.

Lemma expires_none ext s i db key : focus ext s i db → keys_of db !! key = None → expires_of db !! key = None.
Proof.
  intros F Hk. destruct (expires_of db !! key) eqn:Ee; [|done]. exfalso. pose proof (ok_keys _ (focus_ok _ _ _ _ F) key) as Hd.
  rewrite !elem_of_dom in Hd. destruct Hd as [? Hd]; [by rewrite Ee|]. congruence.
Qed.

Lemma expireGeneric_run ext s db key n (secs : bool) basetime :
  focus ext s (c_db s) db → argv s = [[]; key; ll_text n] → in_i64 n →
  ∃ s' db' ans tch m, expireGenericCommand basetime (if secs then UNIT_SECONDS else UNIT_MILLISECONDS) s = Some (tt, s') ∧ focus ext s' (c_db s) db' ∧
    trace s s' (c_db s) db' ans ((λ key, (c_db s, key)) <$> tch) m ∧
    (size (keys_of db') ≤ size (keys_of db))%nat ∧
    ∀ t, steady t → let when := i64 ((if secs then i64 (n * 1000) else n) + basetime) in
      match lview t db !! key with
      | None => (lview t db, [R_czero], [], 0)
      | Some (l, _) =>
          if (when <=? t) && negb (loading E) && negb (masterhost E) then (delete key (lview t db), [R_cone], [key], 1)
          else (<[key := (l, Some when)]> (lview t db), [R_cone], [key], 1)
      end = (lview t db', ans, tch, m).
Proof.
  intros F Ha Hn. unfold expireGenericCommand.
  assert (arg 1 s = Some (key, s)) as Ea1 by (apply arg_run; by rewrite Ha). step Ea1.
  assert (arg 2 s = Some (ll_text n, s)) as Ea2 by (apply arg_run; by rewrite Ha). step Ea2.
  step (getLongLong_text_run n s Hn).
  replace (if (if secs then UNIT_SECONDS else UNIT_MILLISECONDS) =? UNIT_SECONDS then i64 (n * 1000) else n) with (if secs then i64 (n * 1000) else n)
    by (by destruct secs).
  set (when := i64 _). cbn zeta. step (eq_refl (gets c_db s)).
  destruct (lookupKeyRead_spec ext s _ db key F) as (v & s1 & db1 & E1 & Fd). step E1. pose proof Fd as (F1 & Q1 & Hv & S1 & _).
  pose proof (quiet_trace _ _ _ _ _ Q1) as T1. destruct v as [l|].
  2:{ exists (add_log s1 [EvAnswer R_czero]), db1, [R_czero], [], 0. split; [done|]. split; [by apply focus_log|]. split.
      - by apply (trace_add_log s s1 _ db1 [] [] 0).
      - split; [apply map_subseteq_size, Q1|]. intros t St. cbn. by rewrite (found_view _ _ _ _ _ _ _ _ t Fd St), (qt_view _ _ _ _ _ Q1 t St). }
  step (mstime_run s1). set (now := clock (ticks s1)). set (s2 := with_ticks s1 _).
  assert (focus ext s2 (c_db s) db1) as F2 by (by apply focus_ticks). assert (trace s s2 (c_db s) db1 [] [] 0) as T2 by (by apply trace_ticks).
  assert (∀ t, steady t → now = t) as Hnow by (intros t St; apply St).
  destruct ((when <=? now) && negb (loading E) && negb (masterhost E)) eqn:Ew.
  - destruct (dbDelete_spec ext s2 _ db1 key F2) as (s3 & db3 & E3 & F3 & T3 & D3 & _). rewrite decide_True in E3 by (by rewrite <-Hv). step E3.
    step (check_run (negb (1 =? 0)) s3 eq_refl).
    eexists _, db3, [R_cone], [key], 1. split; [reflexivity|].
    set (s4 := with_dirty s3 (i64 (dirty s3 + 1))).
    pose proof (trace_add_dirty _ _ _ _ _ _ _ 1 (trace_trans _ _ _ _ _ _ _ _ _ _ _ _ T2 T3)) as T4. fold s4 in T4.
    set (evs := [EvTouch (c_db s) key; EvNotify REDIS_NOTIFY_GENERIC "del" key (c_db s); EvAnswer R_cone]).
    pose proof (trace_add_log _ _ _ _ _ _ _ evs T4) as T5. split; [|split].
    + destruct F3. by split.
    + destruct T5 as [D O C Y L]. split; try done. destruct L as (e & L & N & T). exists e. split; [|done].
      rewrite <-L. cbn. unfold add_log. cbn. by rewrite <-!app_assoc.
    + split; [rewrite (db_drop_keys _ _ _ D3); apply map_subseteq_size; etrans; [apply delete_subseteq|apply Q1]|].
      intros t St. cbn zeta. rewrite (found_view _ _ _ _ _ _ _ _ t Fd St). cbn. rewrite <-(Hnow t St), Ew, (Hnow t St).
      by rewrite (lview_drop t _ _ _ D3), (qt_view _ _ _ _ _ Q1 t St).
  - destruct (setExpire_spec ext s2 _ db1 key when F2) as (s3 & db3 & E3 & F3 & T3 & _ & Hk3 & He3); [by rewrite <-Hv|]. step E3.
    eexists _, db3, [R_cone], [key], 1. split; [reflexivity|].
    set (evs := [EvAnswer R_cone; EvTouch (c_db s) key; EvNotify REDIS_NOTIFY_GENERIC "expire" key (c_db s)]).
    pose proof (trace_add_log _ _ _ _ _ _ _ evs (trace_trans _ _ _ _ _ _ _ _ _ _ _ _ T2 T3)) as T4.
    pose proof (trace_add_dirty _ _ _ _ _ _ _ 1 T4) as T5. split; [|split].
    + destruct F3. by split.
    + destruct T5 as [D O C Y L]. split; try done. destruct L as (e & L & N & T). exists e. split; [|done].
      rewrite <-L. cbn. unfold add_log. cbn. by rewrite <-!app_assoc.
    + split; [rewrite Hk3; apply map_subseteq_size, Q1|].
      intros t St. cbn zeta. rewrite (found_view _ _ _ _ _ _ _ _ t Fd St). cbn. rewrite <-(Hnow t St), Ew, (Hnow t St).
      rewrite (lview_expire t db1 db3 key l when Hk3 He3 (eq_sym Hv)), (qt_view _ _ _ _ _ Q1 t St).
      assert (gone t (Some when) = false) as ->; [|done]. unfold gone, past. rewrite <-(Hnow t St).
      destruct (loading E), (masterhost E); rewrite ?andb_false_r; try done. rewrite !andb_true_r in *. apply Z.leb_gt in Ew.
      rewrite (proj2 (Z.ltb_ge when now)) by lia. by rewrite andb_false_r.
Qed.

Lemma expire_refines ext s db relative secs key n : focus ext s (c_db s) db → argv s = argv_of (KExpire relative secs key n) → in_i64 n →
  refines ext s (c_db s) db (KExpire relative secs key n).
Proof.
  intros F Ha Hn. unfold refines. destruct relative.
  - set (s0 := with_ticks s (S (ticks s))).
    assert (command_of (KExpire true secs key n) s = expireGenericCommand (clock (ticks s)) (if secs then UNIT_SECONDS else UNIT_MILLISECONDS) s0) as ->
      by (by destruct secs).
    destruct (expireGeneric_run ext s0 db key n secs (clock (ticks s))) as (s' & db' & ans & tch & m & E1 & F1 & T1 & Z1 & H1);
      [by apply focus_ticks|done|done|].
    exists s', db', ans, tch, m. split; [done|]. split; [done|]. split; [by destruct T1|]. split; [done|].
    intros t St. cbn. rewrite <-(H1 t St). by rewrite (proj1 St).
  - assert (command_of (KExpire false secs key n) s = expireGenericCommand 0 (if secs then UNIT_SECONDS else UNIT_MILLISECONDS) s) as ->
      by (by destruct secs).
    destruct (expireGeneric_run ext s db key n secs 0 F Ha Hn) as (s' & db' & ans & tch & m & E1 & F1 & T1 & Z1 & H1).
    exists s', db', ans, tch, m. split; [done|]. split; [done|]. split; [done|]. split; [done|]. intros t St. cbn. by rewrite <-(H1 t St).
Qed.

(** The loop of DEL. *)
Lemma del_loop_run ext keys : ∀ s db deleted, focus ext s (c_db s) db → 0 ≤ deleted → deleted + Z.of_nat (length keys) < 2 ^ 31 →
  ∃ s' db' tch, del_loop keys deleted s = Some (deleted + Z.of_nat (length tch), s') ∧ focus ext s' (c_db s) db' ∧
    trace s s' (c_db s) db' [] ((λ key, (c_db s, key)) <$> tch) (Z.of_nat (length tch)) ∧
    keys_of db' ⊆ keys_of db ∧
    ∀ t, steady t → ∀ tch0, foldl (λ '(L, tch) key, match L !! key with Some _ => (delete key L, tch ++ [key]) | None => (L, tch) end)
      (lview t db, tch0) keys = (lview t db', tch0 ++ tch).
Proof.
  induction keys as [|key keys IH]; intros s db deleted F Hd Hl.
  { exists s, db, []. cbn [length]. rewrite Z.add_0_r. split; [done|]. split; [done|]. split.
    - pose proof (trace_log s (c_db s) db [] (fc_at _ _ _ _ F)) as T. unfold add_log in T. rewrite app_nil_r in T. by destruct s.
    - split; [done|]. intros t _ tch0. by rewrite app_nil_r. }
  cbn [length] in Hl. cbn [del_loop]. step (eq_refl (gets c_db s)).
  destruct (expireIfNeeded_spec ext s _ db key F) as (r & s1 & db1 & E1 & F1 & Q1 & S1 & _). step E1.
  destruct (dbDelete_spec ext s1 _ db1 key F1) as (s2 & db2 & E2 & F2 & T2 & D2 & _). step E2.
  pose proof (trace_trans _ _ _ _ _ _ _ _ _ _ _ _ (quiet_trace _ _ _ _ _ Q1) T2) as T12. cbn in T12.
  assert (keys_of db2 ⊆ keys_of db) as Hsub by (rewrite (db_drop_keys _ _ _ D2); etrans; [apply delete_subseteq|apply Q1]).
  destruct (keys_of db1 !! key) as [l|] eqn:El.
  - rewrite decide_True by eauto. cbn [Z.eqb negb].
    set (evs := [EvTouch (c_db s) key; EvNotify REDIS_NOTIFY_GENERIC "del" key (c_db s)]).
    set (s3 := with_dirty (add_log s2 evs) (i64 (dirty (add_log s2 evs) + 1))).
    assert ((_ ← signalModifiedKey (c_db s) key; _ ← emit (EvNotify REDIS_NOTIFY_GENERIC "del" key (c_db s)); _ ← add_dirty 1; mret (i32 (deleted + 1))) s2
      = Some (deleted + 1, s3)) as E3.
    { subst s3 evs. unfold mbind, M_bind, signalModifiedKey, emit, modify, add_dirty. cbn. rewrite wraps_small by (unlimit; lia).
      unfold add_log. cbn. by rewrite <-app_assoc. }
    step E3. pose proof (trace_add_dirty _ _ _ _ _ _ _ 1 (trace_add_log _ _ _ _ _ _ _ evs T12)) as T3. cbn in T3. fold s3 in T3.
    assert (c_db s3 = c_db s) as Hc by (apply (tr_c_db _ _ _ _ _ _ _ T3)).
    assert (focus ext s3 (c_db s3) db2) as F3 by (rewrite Hc; by apply focus_dirty, focus_log).
    destruct (IH s3 db2 (deleted + 1) F3) as (s' & db' & tch & E4 & F4 & T4 & Z4 & H4); [lia|lia|]. rewrite Hc in *.
    exists s', db', (key :: tch). split; [rewrite E4; cbn [length]; do 2 f_equal; lia|]. split; [done|]. split.
    + pose proof (trace_trans _ _ _ _ _ _ _ _ _ _ _ _ T3 T4) as T5. cbn in T5. cbn [length fmap list_fmap].
      replace (Z.of_nat (S (length tch))) with (1 + Z.of_nat (length tch)) by lia. exact T5.
    + split; [by etrans|]. intros t St tch0. cbn [foldl]. rewrite <-(qt_view _ _ _ _ _ Q1 t St), (settled_lookup t db1 key (S1 t St)), El. cbn.
      rewrite <-(lview_drop t _ _ _ D2), (H4 t St), <-app_assoc. done.
  - rewrite decide_False by (by intros [? ?]). cbn [Z.eqb negb]. step (eq_refl (mret (M := M) deleted s2)).
    assert (c_db s2 = c_db s) as Hc by (apply (tr_c_db _ _ _ _ _ _ _ T12)).
    assert (focus ext s2 (c_db s2) db2) as F3 by (by rewrite Hc).
    destruct (IH s2 db2 deleted F3) as (s' & db' & tch & E4 & F4 & T4 & Z4 & H4); [lia|lia|]. rewrite Hc in *.
    exists s', db', tch. split; [done|]. split; [done|]. split; [by apply (trace_trans _ _ _ _ _ _ _ _ _ _ _ _ T12 T4)|]. split; [by etrans|].
    intros t St tch0. cbn [foldl]. rewrite <-(qt_view _ _ _ _ _ Q1 t St), (settled_lookup t db1 key (S1 t St)), El. cbn.
    rewrite <-(H4 t St tch0). f_equal. f_equal. rewrite (lview_drop t _ _ _ D2), delete_id; [done|].
    by rewrite (settled_lookup t db1 key (S1 t St)), El.
Qed.

Lemma del_command_refines ext s db keys : focus ext s (c_db s) db → argv s = argv_of (KDel keys) → Z.of_nat (length keys) < 2 ^ 31 →
  refines ext s (c_db s) db (KDel keys).
Proof.
  intros F Ha Hl. unfold refines. cbn [command_of]. unfold delCommand. step (eq_refl (gets argv s)). rewrite Ha. cbn [argv_of tail].
  destruct (del_loop_run ext keys s db 0 F) as (s1 & db1 & tch & E1 & F1 & T1 & Z1 & H1); [lia|lia|]. step E1.
  rewrite Z.add_0_l. exists (add_log s1 [EvAnswer (R_int (Z.of_nat (length tch)))]), db1, [R_int (Z.of_nat (length tch))], tch, (Z.of_nat (length tch)).
  split; [done|]. split; [by apply focus_log|]. split.
  - pose proof (trace_add_log _ _ _ _ _ _ _ [EvAnswer (R_int (Z.of_nat (length tch)))] T1) as T2. cbn in T2. by rewrite app_nil_r in T2.
  - split; [by apply map_subseteq_size|]. intros t St. cbn [kspec]. unfold del_spec. by rewrite (H1 t St []).
Qed.

(** ** RENAME *)

Lemma lookupKeyWriteOrReply_spec ext s db key a : focus ext s (c_db s) db →
  ∃ v s1 db1, found ext s (c_db s) db key v s1 db1 ∧
    lookupKeyWriteOrReply key a s = Some (v, match v with None => add_log s1 [EvAnswer a] | Some _ => s1 end).
Proof.
  intros F. unfold lookupKeyWriteOrReply. step (eq_refl (gets c_db s)).
  destruct (lookupKeyWrite_spec ext s _ db key F) as (v & s1 & db1 & E1 & Fd). exists v, s1, db1. split; [done|]. step E1. by destruct v.
Qed.

Lemma bump_bump ext l n m : ∀ x, bump (bump ext l n) l m x = bump ext l (n + m) x.
Proof. intros x. unfold bump. destruct (decide (x = l)); lia. Qed.

Lemma bump_zero ext l : ∀ x, bump ext l 0 x = ext x.
Proof. intros x. unfold bump. destruct (decide (x = l)); lia. Qed.

(** A reference that the command takes for itself. *)
Lemma incr_focus ext s i db l key : focus ext s i db → (∀ l, ext l < 2 ^ 28 - 1) → keys_of db !! key = Some l →
  ∃ s' o, incrRefCount l s = Some (tt, s') ∧ focus (bump ext l 1) s' i db ∧ trace s s' i db [] [] 0 ∧ objects s' !! l = Some o ∧
    (∀ t, steady t → True).
Proof.
  intros F He Hl. destruct (focus_live _ _ _ _ F key l Hl) as (o & Ho & Hr). pose proof (incrRefCount_run l s o Ho ltac:(lia)) as E1.
  eexists _, _. split; [exact E1|]. split; [|split; [|split; [cbn; by rewrite lookup_insert_eq|done]]].
  - split; [apply F|apply F|by apply owned_incr; [apply F|]|apply F|].
    intros x. unfold bump. pose proof (fc_ext _ _ _ _ F x). specialize (He x). destruct (decide (x = l)); lia.
  - split; cbn; [by rewrite list_insert_id by apply F|by eapply same_contents_put|done|by rewrite Z.add_0_r|exists []; by rewrite app_nil_r].
Qed.

(** And gives back. *)
Lemma decr_focus ext s i db l : focus (bump ext l 1) s i db → (∀ l, 0 ≤ ext l) → is_Some (objects s !! l) →
  ∃ s', decrRefCount l s = Some (tt, s') ∧ focus ext s' i db ∧ trace s s' i db [] [] 0.
Proof.
  intros F He [o Ho]. pose proof (fc_owned _ _ _ _ F l) as O. rewrite Ho in O. pose proof (refs_total (dbs s) l). pose proof (fc_total _ _ _ _ F).
  pose proof (fc_ext _ _ _ _ F) as Hx. assert (bump ext l 1 l = ext l + 1) as Hb by (unfold bump; by rewrite decide_True).
  assert (live_object (objects s) l) as Hlv by (exists o; split; [done|]; specialize (Hx l); lia).
  eexists. split; [by apply decrRefCount_run|]. split.
  - split; [apply F|apply F| |apply F|].
    + cbn. eapply owned_ext; [apply (owned_decr _ _ _ l (fc_owned _ _ _ _ F)); [rewrite Hb; specialize (He l); lia|by exists o]|].
      intros x. rewrite bump_bump. by apply (bump_zero ext l).
    + intros x. specialize (Hx x). unfold bump in Hx. specialize (He x). destruct (decide (x = l)); lia.
  - split; cbn; [by rewrite list_insert_id by apply F|apply (same_contents_release _ (Some l))|done|by rewrite Z.add_0_r|exists []; by rewrite app_nil_r].
Qed.

(** dbAdd of a value of which the caller has a reference. *)
Lemma add_focus ext s i db key l : focus (bump ext l 1) s i db → (∀ l, 0 ≤ ext l) → total (dbs s) < 2 ^ 28 - 1 →
  keys_of db !! key = None → is_Some (objects s !! l) →
  ∃ s' db', dbAdd i key l s = Some (tt, s') ∧ focus ext s' i db' ∧ trace s s' i db' [] [] 0 ∧
    keys_of db' = <[key := l]> (keys_of db) ∧ expires_of db' = expires_of db.
Proof.
  intros F He Ht Hk [o Ho].
  destruct (dbAdd_spec _ s i db key l o F Hk Ho) as (s' & db' & E1 & A1 & W1 & O1 & T1 & Tr1 & Ob1 & Hk1 & He1).
  exists s', db'. split; [done|]. split; [|done]. split; [done|done| |lia|].
  - eapply owned_ext; [done|]. intros x. rewrite bump_bump. by apply (bump_zero ext l).
  - intros x. pose proof (fc_ext _ _ _ _ F x) as Hx. unfold bump in Hx. specialize (He x). destruct (decide (x = l)); lia.
Qed.

(** The part of RENAME that moves the value. *)
Lemma rename_moves ext s i db src dst l w : focus (bump ext l 1) s i db → (∀ l, 0 ≤ ext l) → total (dbs s) < 2 ^ 28 - 1 → src ≠ dst →
  keys_of db !! dst = None → keys_of db !! src = Some l → is_Some (objects s !! l) → w = default (-1) (expires_of db !! src) →
  ∃ s' db', (∀ k : M unit, (_ ← dbAdd i dst l; _ ← (if negb (w =? -1) then setExpire i dst w else mret tt); _ ← dbDelete i src; k) s = k s') ∧
    focus ext s' i db' ∧ trace s s' i db' [] [] 0 ∧ size (keys_of db') = size (keys_of db) ∧
    ∀ t, settled t db src → lview t db' = delete src (<[dst := (l, if w =? -1 then None else expires_of db !! src)]> (lview t db)).
Proof.
  intros F He Ht Hne Hd Hs Hl Hw. destruct (add_focus ext s i db dst l F He Ht Hd Hl) as (s1 & db1 & E1 & F1 & T1 & Hk1 & He1). 
  assert (expires_of db !! dst = None) as Hnd by (by eapply expires_none).
  assert (∃ s2 db2, (if negb (w =? -1) then setExpire i dst w else mret tt) s1 = Some (tt, s2) ∧ focus ext s2 i db2 ∧ trace s s2 i db2 [] [] 0 ∧
    keys_of db2 = keys_of db1 ∧
    ∀ t, settled t db src → lview t db2 = <[dst := (l, if w =? -1 then None else expires_of db !! src)]> (lview t db)) as (s2 & db2 & E2 & F2 & T2 & Hk2 & V2).
  { destruct (Z.eqb_spec w (-1)) as [Ew|Ew]; cbn [negb].
    - exists s1, db1. split; [done|]. split; [done|]. split; [done|]. split; [done|]. intros t _. by apply lview_add.
    - destruct (setExpire_spec ext s1 i db1 dst w F1) as (s2 & db2 & E2 & F2 & T2 & _ & Hk2 & He2); [rewrite Hk1, lookup_insert_eq; eauto|].
      exists s2, db2. split; [done|]. split; [done|]. split; [by apply (trace_trans _ _ _ _ _ _ _ _ _ _ _ _ T1 T2)|]. split; [done|].
      intros t St. destruct (expires_of db !! src) as [w'|] eqn:Ex; cbn in Hw; [|done]. subst w'.
      rewrite (lview_expire t db1 db2 dst l w Hk2 He2) by (by rewrite Hk1, lookup_insert_eq).
      rewrite (lview_add t db db1 dst l Hk1 He1 Hnd). unfold settled in St. rewrite Ex in St. rewrite St by eauto. by rewrite insert_insert_eq. }
  destruct (dbDelete_spec ext s2 i db2 src F2) as (s3 & db3 & E3 & F3 & T3 & D3 & _).
  exists s3, db3. split; [intros k; step E1; step E2; by step E3|]. split; [done|]. split; [by apply (trace_trans _ _ _ _ _ _ _ _ _ _ _ _ T2 T3)|]. split.
  - rewrite (db_drop_keys _ _ _ D3), Hk2, Hk1. rewrite map_size_delete, lookup_insert_ne, Hs by done. rewrite map_size_insert_None by done. lia.
  - intros t St. by rewrite (lview_drop t _ _ _ D3), (V2 t St).
Qed.

(** The state of RENAME when both keys have been looked up; [w] is the expire time
    of the source, or -1. *)
Record ready ext s i (db : redisDb) (src dst : text) (l : loc) (w : Z) (v : option loc) s' (db' : redisDb) : Prop := Ready {
  rd_focus : focus (bump ext l 1) s' i db';
  rd_trace : trace s s' i db' [] [] 0;
  rd_src : keys_of db' !! src = Some l;
  rd_dst : v = keys_of db' !! dst;
  rd_expire : w = default (-1) (expires_of db' !! src);
  rd_view : ∀ t, steady t → lview t db' = lview t db ∧ settled t db' src ∧ settled t db' dst;
  rd_size : (size (keys_of db') ≤ size (keys_of db))%nat
}.

Lemma rename_ready ext s i db src dst l s1 db1 : focus ext s i db → (∀ l, ext l < 2 ^ 28 - 1) → src ≠ dst →
  found ext s i db src (Some l) s1 db1 →
  ∃ w v s' db', (∀ k : Z → option loc → M unit, (_ ← incrRefCount l; expire ← getExpire i src; dst ← lookupKeyWrite i dst; k expire dst) s1 = k w v s') ∧
    ready ext s i db src dst l w v s' db'.
Proof.
  intros F He Hne Fd. pose proof Fd as (F1 & Q1 & Hv & S1 & N1).
  destruct (incr_focus ext s1 _ db1 l src F1 He (eq_sym Hv)) as (s2 & o & E2 & F2 & T2 & Ho & _).
  destruct (getExpire_spec _ s2 _ db1 src F2) as (s3 & db3 & E3 & F3 & Q3 & K3 & O3).
  destruct (lookupKeyWrite_spec _ s3 _ db3 dst F3) as (v & s4 & db4 & E4 & F4 & Q4 & Hv4 & S4 & N4).
  exists (default (-1) (expires_of db1 !! src)), v, s4, db4. split; [intros k; step E2; step E3; by step E4|].
  assert (keys_of db4 !! src = Some l) as Hs4 by (rewrite N4, (db_keep_keys _ _ K3) by done; done).
  assert (expires_of db4 !! src = expires_of db1 !! src) as Hx4 by (rewrite (qt_expires _ _ _ _ _ Q4) by eauto; by rewrite (db_keep_expires _ _ K3)).
  split; [done| |done|done|by rewrite Hx4| |].
  - apply (trace_trans _ _ _ _ _ _ _ _ _ _ _ _ (trace_trans _ _ _ _ _ _ _ _ _ _ _ _ (quiet_trace _ _ _ _ _ Q1) T2)
      (quiet_trace _ _ _ _ _ (quiet_trans _ _ _ _ _ _ _ Q3 Q4))).
  - intros t St. split; [by rewrite (qt_view _ _ _ _ _ Q4 t St), (qt_view _ _ _ _ _ Q3 t St), (qt_view _ _ _ _ _ Q1 t St)|]. split; [|by apply S4].
    intros _. rewrite Hx4. apply S1; [done|]. rewrite <-Hv. eauto.
  - apply map_subseteq_size. etrans; [apply Q4|]. rewrite (db_keep_keys _ _ K3). apply Q1.
Qed.

(** The deletion of the old value. *)
Lemma rename_clears ext s i db src dst l w v s4 db4 : ready ext s i db src dst l w v s4 db4 → src ≠ dst →
  ∃ s5 db5, (match v with Some _ => _ ← dbDelete i dst; mret tt | None => mret tt end) s4 = Some (tt, s5) ∧
    focus (bump ext l 1) s5 i db5 ∧ trace s s5 i db5 [] [] 0 ∧ keys_of db5 = delete dst (keys_of db4) ∧
    expires_of db5 !! src = expires_of db4 !! src ∧ ∀ t, lview t db5 = delete dst (lview t db4).
Proof.
  intros [F4 T4 Hs Hv Hw V Z4] Hne. destruct v as [l2|].
  - destruct (dbDelete_spec _ s4 _ db4 dst F4) as (s5 & db5 & E5 & F5 & T5 & D5 & _). exists s5, db5. split; [by step E5|]. split; [done|].
    split; [apply (trace_trans _ _ _ _ _ _ _ _ _ _ _ _ T4 T5)|]. split; [by apply db_drop_keys|].
    split; [destruct D5 as (_ & _ & ->); by apply lookup_delete_ne|]. intros t. by apply lview_drop.
  - exists s4, db4. split; [done|]. split; [done|]. split; [done|]. split; [symmetry; by apply delete_id|]. split; [done|].
    intros t. symmetry. apply delete_id. by rewrite lookup_lview, <-Hv.
Qed.

(** And the rest, when RENAME goes through. *)
Lemma rename_finishes ext s i db src dst l w v s4 db4 (nx : bool) :
  focus ext s i db → total (dbs s) < 2 ^ 28 - 1 → ready ext s i db src dst l w v s4 db4 → src ≠ dst →
  ∃ s5 s' db', (match v with Some _ => _ ← dbDelete i dst; mret tt | None => mret tt end) s4 = Some (tt, s5) ∧
    (_ ← dbAdd i dst l; _ ← (if negb (w =? -1) then setExpire i dst w else mret tt); _ ← dbDelete i src;
     _ ← signalModifiedKey i src; _ ← signalModifiedKey i dst;
     _ ← emit (EvNotify REDIS_NOTIFY_GENERIC "rename_from" src i); _ ← emit (EvNotify REDIS_NOTIFY_GENERIC "rename_to" dst i);
     _ ← add_dirty 1; addReply (if nx then R_cone else R_ok)) s5 = Some (tt, s') ∧
    focus ext s' i db' ∧ trace s s' i db' [if nx then R_cone else R_ok] [(i, src); (i, dst)] 1 ∧ (size (keys_of db') ≤ size (keys_of db))%nat ∧
    ∀ t, steady t → lview t db' = delete src (<[dst := (l, if w =? -1 then None else expires_of db4 !! src)]> (lview t db)).
Proof.
  intros F Ht R Hne. pose proof R as [F4 T4 Hs Hv Hw V Z4].
  destruct (rename_clears _ _ _ _ _ _ _ _ _ _ _ R Hne) as (s5 & db5 & E5 & F5 & T5 & Hk5 & Hx5 & V5).
  assert (keys_of db5 !! src = Some l) as Hs5 by (by rewrite Hk5, lookup_delete_ne).
  pose proof (map_subseteq_size _ _ (delete_subseteq (keys_of db4) dst)) as Hsz.
  destruct (focus_live _ _ _ _ F5 src l Hs5) as (o5 & Ho5 & _).
  destruct (rename_moves ext s5 _ db5 src dst l w F5) as (s6 & db6 & E6 & F6 & T6 & Z6 & V6); [apply F| |done|by rewrite Hk5, lookup_delete_eq|done|by exists o5|by rewrite Hx5|].
  { rewrite (tr_dbs _ _ _ _ _ _ _ T5), (total_insert _ _ _ _ (proj2 (fc_at _ _ _ _ F))), Hk5. lia. }
  set (evs := [EvTouch i src; EvTouch i dst; EvNotify REDIS_NOTIFY_GENERIC "rename_from" src i; EvNotify REDIS_NOTIFY_GENERIC "rename_to" dst i]).
  set (a := if nx then R_cone else R_ok). set (s7 := with_dirty (add_log s6 evs) (i64 (dirty (add_log s6 evs) + 1))).
  pose proof (trace_add_dirty _ _ _ _ _ _ _ 1 (trace_add_log _ _ _ _ _ _ _ evs (trace_trans _ _ _ _ _ _ _ _ _ _ _ _ T5 T6))) as T7. fold s7 in T7.
  exists s5, (add_log s7 [EvAnswer a]), db6. split; [done|]. split.
  { rewrite E6. subst s7 evs. unfold mbind, M_bind, signalModifiedKey, addReply, emit, modify, add_dirty, with_dirty, add_log. cbn. by rewrite <-!app_assoc. }
  split; [by apply focus_log, focus_dirty, focus_log|]. split; [exact (trace_add_log _ _ _ _ _ _ _ [EvAnswer a] T7)|]. split.
  { rewrite Z6, Hk5. lia. }
  intros t St. destruct (V t St) as (Vd & Ss & _). rewrite (V6 t), (V5 t), Vd, insert_delete_eq; [by rewrite Hx5|].
  intros _. rewrite Hx5. apply Ss. rewrite Hs. eauto.
Qed.

Lemma rename_refines ext s db nx src dst : focus ext s (c_db s) db → (∀ l, ext l < 2 ^ 28 - 1) → total (dbs s) < 2 ^ 28 - 1 →
  argv s = argv_of (KRename nx src dst) → refines ext s (c_db s) db (KRename nx src dst).
Proof.
  intros F He Ht Ha. unfold refines. replace (command_of (KRename nx src dst)) with (renameGenericCommand nx) by (by destruct nx).
  unfold renameGenericCommand. step (eq_refl (gets c_db s)).
  assert (arg 1 s = Some (src, s)) as Ea1 by (apply arg_run; by rewrite Ha). step Ea1.
  assert (arg 2 s = Some (dst, s)) as Ea2 by (apply arg_run; by rewrite Ha). step Ea2. cbn [kspec].
  destruct (bool_decide_reflect (src = dst)) as [Heq|Hne].
  { exists (add_log s [EvAnswer R_sameobjecterr]), db, [R_sameobjecterr], [], 0. split; [done|]. split; [by apply focus_log|].
    split; [apply trace_log, F|done]. }
  destruct (lookupKeyWriteOrReply_spec ext s db src R_nokeyerr F) as (v & s1 & db1 & Fd & E1). step E1.
  destruct v as [l|].
  2:{ pose proof Fd as (F1 & Q1 & _). exists (add_log s1 [EvAnswer R_nokeyerr]), db1, [R_nokeyerr], [], 0. split; [done|]. split; [by apply focus_log|].
      split; [by apply (trace_add_log s s1 _ db1 [] [] 0), (quiet_trace _ _ _ db)|]. split; [apply map_subseteq_size, Q1|]. intros t St.
      by rewrite (found_view _ _ _ _ _ _ _ _ t Fd St), (qt_view _ _ _ _ _ Q1 t St). }
  destruct (rename_ready ext s _ db src dst l s1 db1 F He Hne Fd) as (w & v & s4 & db4 & E4 & R). rewrite E4. pose proof R as [F4 T4 Hs Hv Hw V Z4].
  assert (∀ t, steady t → lview t db !! src = Some (l, expires_of db4 !! src)) as Vs.
  { intros t St. destruct (V t St) as (<- & Ss & _). by rewrite (settled_lookup t db4 src Ss), Hs. }
  assert (∀ t, steady t → is_Some (lview t db !! dst) ↔ is_Some v) as Vd.
  { intros t St. destruct (V t St) as (<- & _ & Sd). by rewrite (settled_lookup t db4 dst Sd), <-Hv, fmap_is_Some. }
  destruct (decide (is_Some v ∧ nx = true)) as [[[l2 ->] ->]|Hgo].
  { destruct (focus_live _ _ _ _ F4 src l Hs) as (o4 & Ho4 & _).
    destruct (decr_focus ext s4 _ db4 l F4) as (s5 & E5 & F5 & T5); [apply F|by exists o4|]. step E5.
    exists (add_log s5 [EvAnswer R_czero]), db4, [R_czero], [], 0. split; [done|]. split; [by apply focus_log|].
    split; [apply (trace_add_log s s5 _ db4 [] [] 0), (trace_trans _ _ _ _ _ _ _ _ _ _ _ _ T4 T5)|]. split; [done|].
    intros t St. rewrite (Vs t St), bool_decide_true by (apply (Vd t St); eauto). cbn [andb]. by rewrite (proj1 (V t St)). }
  destruct (rename_finishes ext s _ db src dst l w v s4 db4 nx F Ht R Hne) as (s5 & s' & db' & E5 & E6 & F6 & T6 & Z6 & V6).
  exists s', db', [if nx then R_cone else R_ok], [src; dst], 1. split.
  { destruct v as [l2|], nx; try (exfalso; apply Hgo; split; [by eexists|done]); step E5; exact E6. }
  split; [done|]. split; [done|]. split; [done|]. intros t St. rewrite (Vs t St). cbn beta iota.
  assert (nx && bool_decide (is_Some (lview t db !! dst)) = false) as ->.
  { destruct nx; [|done]. cbn. apply bool_decide_eq_false. rewrite (Vd t St). intros Hx. by apply Hgo. }
  rewrite <-Hw. by rewrite (V6 t St).
Qed.

(** ** KEYS *)

(** Whether KEYS lists a key with this expire time: also a slave leaves out those
    whose time is past. *)
Definition shown (t : Z) (when : option Z) : bool := negb (past t when && negb (loading E)).
Definition listed (t : Z) (pattern : text) (db : redisDb) (key : text) : bool :=
  glob false pattern key && shown t (expires_of db !! key).

Lemma allkeys_star pattern : plain pattern →
  (default ch_nul (pattern !! 0%nat) =? ch_star) && (default ch_nul (pattern !! 1%nat) =? ch_nul) = true → pattern = [ch_star].
Proof.
  intros Hp. destruct pattern as [|c [|c' p]]; cbn; [done|by rewrite andb_true_r; intros ->%Z.eqb_eq|].
  apply Forall_cons in Hp as [_ Hp]. apply Forall_cons in Hp as [(_ & Hn & _) _]. rewrite (proj2 (Z.eqb_neq c' ch_nul)) by done. by rewrite andb_false_r.
Qed.

Lemma keys_matches pattern key allkeys s : plain pattern → blen pattern ≤ INT32_MAX → blen key ≤ INT32_MAX →
  (allkeys = true → pattern = [ch_star]) →
  (if allkeys then mret true else lift (stringmatch (S (length pattern + length key)) pattern key false)) s = Some (glob false pattern key, s).
Proof.
  intros Hp H1 H2 Ha. destruct allkeys.
  - rewrite (Ha eq_refl), glob_all. done.
  - unfold lift. by rewrite (stringmatch_spec false pattern key) by (done || lia).
Qed.

(** The list of KEYS while it is made: [out] are the keys answered so far. *)
Record listing ext (t : Z) s0 (i : Z) (db0 : redisDb) (pattern : text) (visited rem : list (text * loc)) s (n : Z) (db : redisDb) : Prop := Listing {
  ls_focus : focus ext s i db;
  ls_entries : all_entries (db_dict db0) = visited ++ rem;
  ls_iterators : d_iterators (db_dict db) = 1;
  ls_trace : trace s0 s i db (R_bulk <$> filter (λ key, listed t pattern db0 key = true) visited.*1) [] 0;
  ls_count : n = Z.of_nat (length (filter (λ key, listed t pattern db0 key = true) visited.*1));
  ls_view : lview t db = lview t db0;
  ls_expires : ∀ key, is_Some (keys_of db !! key) → expires_of db !! key = expires_of db0 !! key;
  ls_keys : keys_of db ⊆ keys_of db0
}.

Lemma listed_snoc (f : text → bool) (visited : list (text * loc)) e :
  filter (λ key, f key = true) (visited ++ [e]).*1 = filter (λ key, f key = true) visited.*1 ++ (if f e.1 then [e.1] else []).
Proof. rewrite fmap_app, filter_app. cbn [fmap list_fmap]. rewrite filter_cons. by destruct (f e.1). Qed.

Lemma listing_step ext t s0 i db0 pattern allkeys visited e rem s n db it :
  steady t → plain pattern → blen pattern ≤ INT32_MAX → blen e.1 ≤ INT32_MAX → (allkeys = true → pattern = [ch_star]) →
  wf dbDictType (db_dict db0) → Z.of_nat (length (all_entries (db_dict db0))) < 2 ^ 28 → e ∈ all_entries (db_dict db) →
  listing ext t s0 i db0 pattern visited (e :: rem) s n db → iter_ok (db_dict db) it rem →
  ∃ s' n' db', keys_body i pattern allkeys (s, n) e = Some (s', n') ∧ listing ext t s0 i db0 pattern (visited ++ [e]) rem s' n' db' ∧
    iter_ok (db_dict db') it rem.
Proof.
  intros St Hp Hl1 Hl2 Hall W0 Hsz Hin [F Hent Hit T Hn V X Kk] I.
  assert (all_entries (db_dict db0) = (visited ++ [e]) ++ rem) as Hent' by (by rewrite <-app_assoc).
  assert (expires_of db !! e.1 = expires_of db0 !! e.1) as Hx.
  { apply X. exists e.2. apply (dmap_Some dbDictType); [apply (focus_ok _ _ _ _ F)|by destruct e]. }
  assert (e.1 ∉ rem.*1) as Hnr.
  { destruct W0 as (_ & _ & Hnd & _). rewrite Hent, fmap_app in Hnd. apply NoDup_app in Hnd as (_ & _ & Hnd). cbn in Hnd. by apply NoDup_cons in Hnd as [? _]. }
  unfold keys_body, keys_step. rewrite (bind_run _ _ _ _ _ (keys_matches pattern e.1 allkeys s Hp Hl1 Hl2 Hall)).
  destruct (glob false pattern e.1) eqn:Eg.
  2:{ exists s, n, db. split; [done|]. split; [|done]. assert (listed t pattern db0 e.1 = false) as Hls by (unfold listed; by rewrite Eg).
      split; try done; rewrite (listed_snoc (listed t pattern db0)), Hls; by rewrite app_nil_r. }
  destruct (expireIfNeeded_spec ext s i db e.1 F) as (r & s1 & db1 & E1 & F1 & Q1 & _ & _ & Hr & D1). rewrite (bind_run _ _ _ _ _ E1).
  assert (iter_ok (db_dict db1) it rem ∧ d_iterators (db_dict db1) = 1) as [I1 Hit1].
  { destruct D1 as [[(_ & _ & Hi & Hd) _]|[(_ & _ & Hi & Hd) _]]; (split; [|congruence]).
    - by rewrite Hd by lia.
    - eapply iter_ok_removed; [done|by apply Hd; lia|done]. }
  pose proof (trace_trans _ _ _ _ _ _ _ _ _ _ _ _ T (quiet_trace _ _ _ _ _ Q1)) as T1. rewrite app_nil_r in T1.
  assert (lview t db1 = lview t db0) as V1 by (by rewrite (qt_view _ _ _ _ _ Q1 t St)).
  assert (∀ key, is_Some (keys_of db1 !! key) → expires_of db1 !! key = expires_of db0 !! key) as X1.
  { intros key Hk. rewrite (qt_expires _ _ _ _ _ Q1 key Hk). apply X. destruct Hk as [l Hk]. exists l. eapply lookup_weaken; [done|apply Q1]. }
  assert (keys_of db1 ⊆ keys_of db0) as Kk1 by (etrans; [apply Q1|done]).
  specialize (Hr t St). rewrite Hx in Hr. fold (shown t (expires_of db0 !! e.1)) in Hr. rewrite Hr.
  assert (listed t pattern db0 e.1 = shown t (expires_of db0 !! e.1)) as Hls by (unfold listed; by rewrite Eg).
  destruct (shown t (expires_of db0 !! e.1)).
  - eexists (add_log s1 [EvAnswer (R_bulk e.1)]), (u32 (n + 1)), db1. split; [done|]. split; [|done].
    split; [by apply focus_log|done|done| | |done|done|done]; rewrite (listed_snoc (listed t pattern db0)), Hls.
    + rewrite fmap_app. apply (trace_add_log _ _ _ _ _ _ _ [EvAnswer (R_bulk e.1)] T1).
    + rewrite length_app, Hn. cbn [length]. rewrite wrapu_small; [lia|].
      pose proof (length_filter (λ key, listed t pattern db0 key = true) visited.*1) as Hle. rewrite length_fmap in Hle.
      rewrite Hent, length_app in Hsz. lia.
  - exists s1, n, db1. split; [done|]. split; [|done].
    split; [done|done|done| | |done|done|done]; by rewrite (listed_snoc (listed t pattern db0)), Hls, app_nil_r.
Qed.

(** The count of iterators of the table of the keys does not matter to the rest. *)
Lemma focus_iterators ext s i db n : focus ext s i db → 0 ≤ n < 2 ^ 31 - 1 →
  focus ext (set_db s i (RedisDb (set_iterators (db_dict db) n) (db_expires db))) i (RedisDb (set_iterators (db_dict db) n) (db_expires db)).
Proof.
  intros F Hn. pose proof (focus_ok _ _ _ _ F) as W. split.
  - eapply at_set_db, F.
  - apply Forall_insert; [apply F|]. split; [apply W|apply W|done|apply W].
  - eapply owned_keep; [apply F|apply F|done].
  - change (total (<[Z.to_nat i := RedisDb (set_iterators (db_dict db) n) (db_expires db)]> (dbs s)) < 2 ^ 28).
    rewrite (total_insert _ _ _ _ (proj2 (fc_at _ _ _ _ F))). pose proof (fc_total _ _ _ _ F). unfold keys_of in *. cbn [db_dict].
    change (dmap (set_iterators (db_dict db) n)) with (dmap (db_dict db)). lia.
  - apply F.
Qed.

Lemma trace_set_db s s' i a b ans tch n : trace s s' i a ans tch n → at_db s' i a → trace s (set_db s' i b) i b ans tch n.
Proof. intros [D O C Y L] A. split; try done. cbn. by rewrite D, list_insert_insert_eq. Qed.

Lemma keys_get_run s i db n : at_db s i db → keys_get i (s, n) = Some (db_dict db).
Proof. intros [Hi Hdb]. unfold keys_get. rewrite (proj2 (Z.leb_le 0 i) Hi), Hdb. done. Qed.

Lemma keys_get_inv s i n d : keys_get i (s, n) = Some d → ∃ db, at_db s i db ∧ db_dict db = d.
Proof.
  unfold keys_get. destruct (Z.leb_spec 0 i); [|done]. destruct (dbs s !! Z.to_nat i) as [db|] eqn:Edb; [|done]. intros [= <-]. by exists db.
Qed.

Lemma keys_put_run s i db d n : at_db s i db → keys_put i d (s, n) = (set_db s i (RedisDb d (db_expires db)), n).
Proof. intros A. unfold keys_put. by rewrite (alter_dbs s i db _ (proj2 A)). Qed.

Lemma keys_laws i : (∀ st d d', keys_get i st = Some d → keys_get i (keys_put i d' st) = Some d') ∧ (∀ st d, keys_get i st = Some d → keys_put i d st = st).
Proof.
  split.
  - intros [s n] d d' (db & A & _)%keys_get_inv. rewrite (keys_put_run _ _ _ _ _ A). rewrite (keys_get_run _ _ _ n (at_set_db _ _ _ _ A)). done.
  - intros [s n] d (db & A & <-)%keys_get_inv. rewrite (keys_put_run _ _ _ _ _ A).
    replace (RedisDb (db_dict db) (db_expires db)) with db by (by destruct db). by rewrite (set_db_same _ _ _ A).
Qed.

(** The loop of KEYS visits every key once, although it deletes those that are gone
    while it iterates. *)
Lemma keys_loop_run ext s i db t pattern allkeys :
  focus ext s i db → d_iterators (db_dict db) = 0 → steady t → plain pattern → blen pattern ≤ INT32_MAX →
  (∀ key, is_Some (keys_of db !! key) → blen key ≤ INT32_MAX) → (allkeys = true → pattern = [ch_star]) →
  ∃ s' n db', foreach (keys_get i) (keys_put i) (keys_body i pattern allkeys) addr dictGetSafeIterator (s, 0) = Some (s', n) ∧
    focus ext s' i db' ∧ d_iterators (db_dict db') = 0 ∧ lview t db' = lview t db ∧
    (let ks := filter (λ key, listed t pattern db key = true) (all_entries (db_dict db)).*1 in
     n = Z.of_nat (length ks) ∧ trace s s' i db' (R_bulk <$> ks) [] 0).
Proof.
  intros F Hit St Hp Hl Hk Hall. pose proof (fc_at _ _ _ _ F) as A. pose proof (focus_ok _ _ _ _ F) as W. pose proof (ok_dict _ W) as W0.
  assert (Z.of_nat (length (all_entries (db_dict db))) < 2 ^ 28) as Hsz.
  { rewrite <-(dictSize_entries dbDictType _ W0), (dictSize_dmap dbDictType _ W0). pose proof (size_total _ _ _ (proj2 A)). pose proof (fc_total _ _ _ _ F).
    unfold keys_of in *. lia. }
  destruct (keys_laws i) as [Lgp Lpg].
  set (Q := λ rem (st : server P * Z), ∃ visited db', listing ext t s i db pattern visited rem st.1 st.2 db').
  destruct (foreach_safe dbDictType (keys_get i) (keys_put i) (keys_body i pattern allkeys) addr Q (db_dict db) (s, 0))
    as ([s' n] & d' & E1 & Hg' & W' & (visited & db' & Ls)).
  - exact Lgp.
  - exact Lpg.
  - by apply keys_get_run.
  - done.
  - lia.
  - rewrite (keys_put_run _ _ _ _ _ A), Hit. exists [], (RedisDb (set_iterators (db_dict db) 1) (db_expires db)).
    split; cbn [fst snd]; [by apply focus_iterators|done|done| |done|done|done|done].
    apply (trace_set_db s s i db); [|done]. pose proof (trace_log s i db [] A) as T. unfold add_log in T. rewrite app_nil_r in T. by destruct s.
  - intros [s1 n1] d1 e rem it Hg1 W1 Hi1 He I1 (visited & db1 & Ls1). cbn [fst snd] in Ls1. pose proof (ls_focus _ _ _ _ _ _ _ _ _ _ _ Ls1) as F1.
    rewrite (keys_get_run _ _ _ _ (fc_at _ _ _ _ F1)) in Hg1. injection Hg1 as <-.
    assert (e ∈ all_entries (db_dict db)) as He0 by (rewrite (ls_entries _ _ _ _ _ _ _ _ _ _ _ Ls1); apply elem_of_app; right; by left).
    destruct (listing_step ext t s i db pattern allkeys visited e rem s1 n1 db1 it St Hp Hl) as (s2 & n2 & db2 & E2 & Ls2 & I2); try done.
    { apply Hk. exists e.2. apply (dmap_Some dbDictType); [done|by destruct e]. }
    exists (s2, n2), (db_dict db2). pose proof (ls_focus _ _ _ _ _ _ _ _ _ _ _ Ls2) as F2. split; [done|]. split; [by apply keys_get_run, F2|].
    split; [apply (focus_ok _ _ _ _ F2)|]. split; [rewrite (ls_iterators _ _ _ _ _ _ _ _ _ _ _ Ls2); lia|]. split; [done|]. by exists (visited ++ [e]), db2.
  - cbn [fst snd] in Ls. pose proof (ls_focus _ _ _ _ _ _ _ _ _ _ _ Ls) as F'. pose proof (fc_at _ _ _ _ F') as A'.
    rewrite (keys_get_run _ _ _ _ A') in Hg'. injection Hg' as <-. rewrite E1, (keys_put_run _ _ _ _ _ A'), Hit.
    eexists _, n, _. split; [done|]. split; [by apply focus_iterators|]. split; [done|]. split; [apply (ls_view _ _ _ _ _ _ _ _ _ _ _ Ls)|].
    pose proof (ls_entries _ _ _ _ _ _ _ _ _ _ _ Ls) as He. rewrite app_nil_r in He. cbn zeta. rewrite He.
    split; [apply (ls_count _ _ _ _ _ _ _ _ _ _ _ Ls)|]. eapply trace_set_db; [apply (ls_trace _ _ _ _ _ _ _ _ _ _ _ Ls)|done].
Qed.

Lemma keys_run ext s db t pattern : focus ext s (c_db s) db → argv s !! 1%nat = Some pattern → d_iterators (db_dict db) = 0 → steady t →
  plain pattern → blen pattern ≤ INT32_MAX → (∀ key, is_Some (keys_of db !! key) → blen key ≤ INT32_MAX) →
  let ks := filter (λ key, listed t pattern db key = true) (all_entries (db_dict db)).*1 in
  ∃ s' db', keysCommand s = Some (tt, s') ∧ focus ext s' (c_db s) db' ∧ d_iterators (db_dict db') = 0 ∧ lview t db' = lview t db ∧
    trace s s' (c_db s) db' (R_deferredlen :: (R_bulk <$> ks) ++ [R_setdeferredlen (Z.of_nat (length ks))]) [] 0.
Proof.
  intros F Ha Hit St Hp Hl Hk ks. unfold keysCommand. step (eq_refl (gets c_db s)). step (arg_run _ _ _ Ha).
  set (s1 := add_log s [EvAnswer R_deferredlen]). step (emit_run (EvAnswer R_deferredlen) s : addReply R_deferredlen s = Some (tt, s1)).
  set (allkeys := (_ =? ch_star) && _).
  destruct (keys_loop_run ext s1 (c_db s) db t pattern allkeys (focus_log _ _ _ _ _ F) Hit St Hp Hl Hk (allkeys_star pattern Hp))
    as (s2 & n & db2 & E2 & F2 & Hit2 & V2 & -> & T2). fold ks in T2, E2.
  assert ((λ s', '(s', n) ← foreach (keys_get (c_db s)) (keys_put (c_db s)) (keys_body (c_db s) pattern allkeys) addr dictGetSafeIterator (s', 0); Some (n, s')) s1
    = Some (Z.of_nat (length ks), s2)) as E3 by (cbv beta; by rewrite E2).
  exists (add_log s2 [EvAnswer (R_setdeferredlen (Z.of_nat (length ks)))]), db2. split; [by step E3|].
  split; [by apply focus_log|]. split; [done|]. split; [done|].
  exact (trace_add_log _ _ _ _ _ _ _ [EvAnswer (R_setdeferredlen (Z.of_nat (length ks)))]
    (trace_trans _ _ _ _ _ _ _ _ _ _ _ _ (trace_log s _ db [EvAnswer R_deferredlen] (fc_at _ _ _ _ F)) T2)).
Qed.

(** ** What the code does not do *)

(** PERSIST does not look whether the key has expired: a key whose time is past, which
    does not exist any more, is brought back for good. *)
Lemma persist_revives ext s db key l w t : focus ext s (c_db s) db → argv s !! 1%nat = Some key → steady t →
  keys_of db !! key = Some l → expires_of db !! key = Some w → gone t (Some w) = true →
  lview t db !! key = None ∧
  ∃ s' db', persistCommand s = Some (tt, s') ∧ focus ext s' (c_db s) db' ∧ trace s s' (c_db s) db' [R_cone] [] 1 ∧
    ∀ t', lview t' db' !! key = Some (l, None).
Proof.
  intros F Ha St Hl Hw Hg. split; [by rewrite lookup_lview, Hl, Hw, Hg|].
  unfold persistCommand. step (eq_refl (gets c_db s)). step (arg_run _ _ _ Ha).
  destruct (dbFind_spec ext s _ db key F) as (s1 & db1 & E1 & F1 & Q1 & K1 & _). step E1. rewrite Hl.
  destruct (removeExpire_spec ext s1 _ db1 key F1) as (s2 & db2 & E2 & F2 & T2 & _ & Hk2 & He2); [by rewrite (db_keep_keys _ _ K1), Hl|].
  rewrite (db_keep_expires _ _ K1), Hw in E2. step E2. rewrite bool_decide_true by eauto.
  set (s3 := add_log s2 [EvAnswer R_cone]).
  pose proof (trace_add_log _ _ _ _ _ _ _ [EvAnswer R_cone] (trace_trans _ _ _ _ _ _ _ _ _ _ _ _ (quiet_trace _ _ _ _ _ Q1) T2)) as T3. fold s3 in T3.
  exists (with_dirty s3 (i64 (dirty s3 + 1))), db2. split; [done|]. split; [by apply focus_dirty, focus_log|].
  split; [exact (trace_add_dirty _ _ _ _ _ _ _ 1 T3)|].
  intros t'. rewrite lookup_lview, Hk2, (db_keep_keys _ _ K1), Hl, He2, lookup_delete_eq. done.
Qed.

(** On a slave whose keys have all expired RANDOMKEY never answers: whatever random()
    returns, the loop goes on. *)
Lemma randomkey_slave_loops ext i t : steady t → masterhost E = true → loading E = false → ∀ fuel rs s db,
  focus ext s i db → keys_of db ≠ ∅ → (∀ key, is_Some (keys_of db !! key) → past t (expires_of db !! key) = true) →
  Forall random_value rs → randomkey_loop fuel i rs s = None.
Proof.
  intros St Hm Hld. induction fuel as [|fuel IH]; intros rs s db F Hne Hall Hr; [done|]. cbn [randomkey_loop].
  pose proof (fc_at _ _ _ _ F) as A. pose proof (focus_ok _ _ _ _ F) as W. step (get_db_run _ _ _ A).
  destruct (dictGetRandomKey dbDictType (db_dict db) rs) as [[[d' rs'] oe]|] eqn:E1.
  2:{ unfold mbind, M_bind, lift. done. }
  destruct (dictGetRandomKey_in dbDictType (db_dict db) rs d' rs' oe) as (K & Hr' & _ & e & -> & He); try done; [apply W| | |].
  { rewrite (dictSize_dmap dbDictType _ (ok_dict _ W)). pose proof (size_total _ _ _ (proj2 A)). pose proof (fc_total _ _ _ _ F). unfold keys_of in *. lia. }
  { intros E0. apply Hne. unfold keys_of, dmap. by rewrite E0. }
  step (lift_run (Some (d', rs', Some e)) s _ eq_refl). step (put_dict_run _ _ _ _ A).
  set (db1 := RedisDb d' (db_expires db)). assert (db_keep db db1) as K1 by (split; [done|apply kept_refl, W]).
  assert (focus ext (set_db s i db1) i db1) as F1 by (by eapply focus_keep, F).
  destruct (expiresFind_run (set_db s i db1) i db1 e.1 (fc_at _ _ _ _ F1) (focus_ok _ _ _ _ F1)) as (db2 & E2 & K2). step E2. rewrite set_set_db.
  assert (is_Some (keys_of db !! e.1)) as Hk by (exists e.2; apply (dmap_Some dbDictType); [apply W|by destruct e]).
  pose proof (Hall _ Hk) as Hp. destruct (expires_of db !! e.1) as [w|] eqn:Ew; [|done].
  rewrite bool_decide_true by (rewrite (db_keep_expires _ _ K1), Ew; eauto).
  assert (focus ext (set_db s i db2) i db2) as F2.
  { eapply focus_keep; [exact F|by eapply db_keep_trans|done|apply F]. }
  destruct (expireIfNeeded_run (set_db s i db2) i db2 e.1 (fc_at _ _ _ _ F2) (focus_ok _ _ _ _ F2) (focus_live _ _ _ _ F2)) as (r & s3 & db3 & E3 & H3).
  pose proof (db_keep_trans _ _ _ K1 K2) as K12.
  unfold dead in H3. rewrite Hm in H3. rewrite andb_false_r in H3. destruct H3 as (Hrr & K3 & Mv).
  rewrite (steady_now t _ St), (db_keep_expires _ _ K12), Ew, Hp, Hld in Hrr. subst r. step E3.
  apply (IH rs' s3 db3); [| | |done].
  - eapply focus_keep; [exact F2|exact K3|apply Mv|]. rewrite (mv_objects _ _ _ _ _ _ Mv). apply F2.
  - by rewrite (db_keep_keys _ _ K3), (db_keep_keys _ _ K12).
  - intros key. rewrite (db_keep_keys _ _ K3), (db_keep_keys _ _ K12), (db_keep_expires _ _ K3), (db_keep_expires _ _ K12). apply Hall.
Qed.

(** ** MOVE *)

(** What is left of [trace] when more than one database changes. *)
Record effects s s' (ans : list answer) (tch : list (Z * text)) (n : Z) : Prop := Effects {
  ef_contents : same_contents (objects s) (objects s');
  ef_c_db : c_db s' = c_db s;
  ef_dirty : i64 (dirty s') = i64 (dirty s + n);
  ef_log : ∃ evs, log s' = log s ++ evs ∧ answers evs = ans ∧ touches evs = tch
}.

Lemma trace_effects s s' i db ans tch n : trace s s' i db ans tch n → effects s s' ans tch n.
Proof. intros [D O C Y L]. by split. Qed.

Lemma effects_trans s1 s2 s3 a1 a2 t1 t2 n1 n2 :
  effects s1 s2 a1 t1 n1 → effects s2 s3 a2 t2 n2 → effects s1 s3 (a1 ++ a2) (t1 ++ t2) (n1 + n2).
Proof.
  intros [O1 C1 Y1 (e1 & L1 & <- & <-)] [O2 C2 Y2 (e2 & L2 & <- & <-)]. split; [by eapply same_contents_trans|congruence| |].
  - rewrite Y2, <-i64_i64_add, Y1, i64_i64_add. f_equal. lia.
  - exists (e1 ++ e2). by rewrite L2, L1, <-app_assoc, answers_app, touches_app.
Qed.

(** Another database of a well formed server. *)
Lemma focus_other ext s i db j dbj : focus ext s i db → at_db s j dbj → focus ext s j dbj.
Proof. intros [_ W O T X] A. by split. Qed.

Lemma at_other s s' i db' j dbj : at_db s j dbj → i ≠ j → 0 ≤ i → dbs s' = <[Z.to_nat i := db']> (dbs s) → at_db s' j dbj.
Proof. intros [Hj Hl] Hne Hi D. split; [done|]. rewrite D, list_lookup_insert_ne by lia. done. Qed.

Lemma selectDb_run n s : selectDb n s =
  Some (bool_decide (0 ≤ n < Z.of_nat (length (dbs s))), if bool_decide (0 ≤ n < Z.of_nat (length (dbs s))) then with_c_db s n else s).
Proof.
  case_bool_decide as Hn; unfold selectDb, gets, modify, mbind, M_bind; cbn.
  - rewrite (proj2 (Z.ltb_ge n 0)), (proj2 (Z.leb_gt _ n)) by lia. done.
  - assert ((n <? 0) || (Z.of_nat (length (dbs s)) <=? n) = true) as -> by lia. done.
Qed.

(** MOVE ends with the key in the other database. *)
Lemma move_adds ext s i db j dbj key l : focus ext s i db → at_db s j dbj → i ≠ j → total (dbs s) < 2 ^ 28 - 1 →
  keys_of db !! key = Some l → keys_of dbj !! key = None →
  ∃ s' db' dbj', (_ ← dbAdd j key l; _ ← incrRefCount l; _ ← dbDelete i key; _ ← add_dirty 1; addReply R_cone) s = Some (tt, s') ∧
    focus ext s' i db' ∧ at_db s' j dbj' ∧ dbs s' = <[Z.to_nat i := db']> (<[Z.to_nat j := dbj']> (dbs s)) ∧ effects s s' [R_cone] [] 1 ∧
    ∀ t, lview t db' = delete key (lview t db) ∧ lview t dbj' = <[key := (l, None)]> (lview t dbj).
Proof.
  intros F Aj Hne Ht Hl Hn. pose proof (focus_other _ _ _ _ _ _ F Aj) as Fj. pose proof (fc_at _ _ _ _ F) as A.
  destruct (focus_live _ _ _ _ F key l Hl) as (o & Ho & Hr).
  destruct (dbAdd_spec ext s j dbj key l o Fj Hn Ho) as (s1 & dbj1 & E1 & A1 & W1 & O1 & Tot1 & T1 & Ob1 & Hk1 & Hx1). step E1.
  assert (objects s1 !! l = Some o) as Ho1 by (by rewrite Ob1). step (incrRefCount_run l s1 o Ho1 ltac:(lia)). rewrite Ob1.
  set (h2 := <[l := _]> (objects s)). set (s2 := with_objects s1 h2).
  assert (at_db s2 i db) as A2 by (eapply (at_other s s1 j dbj1); [done|lia|apply Aj|apply T1]).
  assert (focus ext s2 i db) as F2.
  { split; [done|done| |change (total (dbs s1) < 2 ^ 28); lia|apply F]. apply (owned_ext (bump (bump ext l (-1)) l 1)).
    - pose proof (owned_incr _ _ _ l o O1 Ho1) as O2. by rewrite Ob1 in O2.
    - intros x. unfold bump. destruct (decide (x = l)); lia. }
  destruct (dbDelete_spec ext s2 i db key F2) as (s3 & db3 & E3 & F3 & T3 & D3 & _). step E3.
  set (s4 := with_dirty s3 (i64 (dirty s3 + 1))). exists (add_log s4 [EvAnswer R_cone]), db3, dbj1. split; [done|].
  split; [by apply focus_log, focus_dirty|]. split.
  { eapply (at_other s2 _ i db3); [exact A1|done|apply A2|exact (tr_dbs _ _ _ _ _ _ _ T3)]. }
  split; [|split].
  - change (dbs (add_log s4 [EvAnswer R_cone])) with (dbs s3). rewrite (tr_dbs _ _ _ _ _ _ _ T3). change (dbs s2) with (dbs s1).
    by rewrite (tr_dbs _ _ _ _ _ _ _ T1).
  - assert (effects s s2 [] [] 0) as T2.
    { destruct T1 as [_ _ C Y L]. split; try done. cbn. by apply (same_contents_put _ l o). }
    pose proof (trace_effects _ _ _ _ _ _ _ (trace_add_log _ _ _ _ _ _ _ [EvAnswer R_cone] (trace_add_dirty _ _ _ _ _ _ _ 1 T3))) as T4.
    exact (effects_trans _ _ _ _ _ _ _ _ _ T2 T4).
  - intros t. split; [by apply lview_drop|]. apply (lview_add t dbj dbj1 key l Hk1 Hx1). by eapply expires_none.
Qed.

(** What MOVE does to the keyspace it takes the key from and the one it brings it to:
    the expire time is lost. *)
Definition move_spec (key : text) (Li Lj : lmap) : lmap * lmap * answer * Z :=
  match Li !! key with
  | None => (Li, Lj, R_czero, 0)
  | Some (l, _) =>
      if bool_decide (is_Some (Lj !! key)) then (Li, Lj, R_czero, 0) else (delete key Li, <[key := (l, None)]> Lj, R_cone, 1)
  end.

Lemma move_run ext s db j dbj key a2 (atoi : text → Z) :
  focus ext s (c_db s) db → atoi a2 = j → at_db s j dbj → c_db s ≠ j → total (dbs s) < 2 ^ 28 - 1 →
  argv s !! 1%nat = Some key → argv s !! 2%nat = Some a2 →
  ∃ s' db' dbj' a n, moveCommand atoi s = Some (tt, s') ∧ focus ext s' (c_db s) db' ∧ at_db s' j dbj' ∧
    dbs s' = <[Z.to_nat (c_db s) := db']> (<[Z.to_nat j := dbj']> (dbs s)) ∧ effects s s' [a] [] n ∧
    ∀ t, steady t → move_spec key (lview t db) (lview t dbj) = (lview t db', lview t dbj', a, n).
Proof.
  intros F Hj Aj Hne Ht Ha1 Ha2. set (i := c_db s) in *. pose proof (fc_at _ _ _ _ F) as A.
  assert (∀ s' dbi dbj, at_db s' i dbi → at_db s' j dbj → dbs s' = <[Z.to_nat i := dbi]> (<[Z.to_nat j := dbj]> (dbs s'))) as Hsame.
  { intros s' x y [_ Hx] [_ Hy]. by rewrite (list_insert_id (dbs s') _ _ Hy), (list_insert_id _ _ _ Hx). }
  unfold moveCommand. step (eq_refl (gets c_db s)). step (arg_run _ _ _ Ha1). step (arg_run _ _ _ Ha2). rewrite Hj.
  assert (∀ k db s, at_db s k db → selectDb k s = Some (true, with_c_db s k)) as Hsel.
  { intros k x s0 [Hk Hx]. apply lookup_lt_Some in Hx. rewrite selectDb_run, bool_decide_true by lia. done. }
  step (Hsel _ _ _ Aj). cbn [negb]. step (eq_refl (gets c_db (with_c_db s j))). change (c_db (with_c_db s j)) with j.
  assert (at_db (with_c_db s j) i db) as A' by done. step (Hsel _ _ _ A').
  assert (with_c_db (with_c_db s j) i = s) as -> by (subst i; by destruct s). fold i.
  rewrite (proj2 (Z.eqb_neq i j) Hne).
  destruct (lookupKeyWrite_spec ext s i db key F) as (v & s1 & db1 & E1 & Fd). step E1. pose proof Fd as (F1 & Q1 & Hv & S1 & _).
  assert (at_db s1 j dbj) as Aj1 by (eapply (at_other s s1 i db1); [done|done|apply A|apply Q1]).
  pose proof (trace_effects _ _ _ _ _ _ _ (quiet_trace _ _ _ _ _ Q1)) as T1. destruct v as [l|].
  2:{ exists (add_log s1 [EvAnswer R_czero]), db1, dbj, R_czero, 0. split; [done|]. split; [by apply focus_log|]. split; [done|]. split.
      - change (dbs (add_log s1 _)) with (dbs s1). by rewrite (qt_dbs _ _ _ _ _ Q1), (list_insert_id (dbs s) _ _ (proj2 Aj)).
      - split; [exact (trace_effects _ _ _ _ _ _ _ (trace_add_log _ _ _ _ _ _ _ [EvAnswer R_czero] (quiet_trace _ _ _ _ _ Q1)))|].
        intros t St. unfold move_spec. by rewrite (found_view _ _ _ _ _ _ _ _ t Fd St), (qt_view _ _ _ _ _ Q1 t St). }
  pose proof (focus_other _ _ _ _ _ _ F1 Aj1) as Fj1.
  destruct (lookupKeyWrite_spec ext s1 j dbj key Fj1) as (v2 & s2 & dbj2 & E2 & Fd2). step E2. pose proof Fd2 as (F2 & Q2 & Hv2 & S2 & _).
  assert (at_db s2 i db1) as A2 by (eapply (at_other s1 s2 j dbj2); [apply F1|done|apply Aj|apply Q2]).
  assert (dbs s2 = <[Z.to_nat i := db1]> (<[Z.to_nat j := dbj2]> (dbs s))) as D2.
  { rewrite (qt_dbs _ _ _ _ _ Q2), (qt_dbs _ _ _ _ _ Q1). apply list_insert_insert_ne. destruct A, Aj. lia. }
  pose proof (effects_trans _ _ _ _ _ _ _ _ _ T1 (trace_effects _ _ _ _ _ _ _ (quiet_trace _ _ _ _ _ Q2))) as T2.
  destruct v2 as [l2|].
  { exists (add_log s2 [EvAnswer R_czero]), db1, dbj2, R_czero, 0. split; [done|]. split; [by apply focus_log, (focus_other _ _ j dbj2)|]. split; [apply F2|].
    split; [done|]. split.
    - exact (effects_trans _ _ _ _ _ _ _ _ _ T1 (trace_effects _ _ _ _ _ _ _ (trace_add_log _ _ _ _ _ _ _ [EvAnswer R_czero] (quiet_trace _ _ _ _ _ Q2)))).
    - intros t St. unfold move_spec. rewrite (found_view _ _ _ _ _ _ _ _ t Fd St), (found_view _ _ _ _ _ _ _ _ t Fd2 St). cbn [fmap option_fmap option_map].
      rewrite bool_decide_true by eauto. by rewrite (qt_view _ _ _ _ _ Q1 t St), (qt_view _ _ _ _ _ Q2 t St). }
  pose proof (focus_other _ _ _ _ _ _ F2 A2) as F2i.
  destruct (move_adds ext s2 i db1 j dbj2 key l F2i (fc_at _ _ _ _ F2) Hne) as (s' & db' & dbj' & E3 & F3 & Aj3 & D3 & T3 & V3);
    [|done|done|].
  { rewrite D2. assert (<[Z.to_nat j := dbj2]> (dbs s) !! Z.to_nat i = Some db) as Hi by (rewrite list_lookup_insert_ne by (destruct A, Aj; lia); apply A).
    rewrite (total_insert _ _ _ _ Hi), (total_insert _ _ _ _ (proj2 Aj)).
    pose proof (map_subseteq_size _ _ (qt_keys _ _ _ _ _ Q1)). pose proof (map_subseteq_size _ _ (qt_keys _ _ _ _ _ Q2)). lia. }
  rewrite E3. exists s', db', dbj', R_cone, 1. split; [done|]. split; [done|]. split; [done|]. split; [|split].
  - rewrite D3, D2. rewrite (list_insert_insert_ne _ (Z.to_nat j)) by (destruct A, Aj; lia). by rewrite !list_insert_insert_eq.
  - exact (effects_trans _ _ _ _ _ _ _ _ _ T2 T3).
  - intros t St. unfold move_spec. rewrite (found_view _ _ _ _ _ _ _ _ t Fd St), (found_view _ _ _ _ _ _ _ _ t Fd2 St). cbn [fmap option_fmap option_map].
    rewrite bool_decide_false by (by intros [? ?]). destruct (V3 t) as [-> ->]. by rewrite (qt_view _ _ _ _ _ Q1 t St), (qt_view _ _ _ _ _ Q2 t St).
Qed.

End commands.

(** ** Commands one after the other *)

Definition zero_time (t : Z) : nat → Z := λ _, t.

Lemma last_time (t t0 : Z) l : List.last (t :: l) t0 = List.last l t.
Proof. revert t t0. induction l as [|x l IH]; intros t t0; [done|]. change (List.last (x :: l) t0 = List.last (x :: l) t). by rewrite !IH. Qed.

Section sequences.
Context {P : Type}.
Context (seed : Z) (junk_val : loc) (junk_when : Z) (addr : Z → Z) (E : status).
Implicit Types s : server P.
Abbreviation lmap := (gmap text (loc * option Z)).

(** The command [c] at the time [t]. *)
Definition run_kcmd (t : Z) (c : kcmd) : M P unit :=
  λ s, command_of seed (zero_time t) junk_val junk_when E c (with_argv s (argv_of c)).

Fixpoint run_kcmds (cmds : list (Z * kcmd)) : M P unit :=
  match cmds with
  | [] => mret tt
  | (t, c) :: cmds => _ ← run_kcmd t c; run_kcmds cmds
  end.

(** The keys that still exist at [t]. *)
Definition aged (t : Z) (L : lmap) : lmap := filter (λ kv, gone E t kv.2.2 = false) L.

(** A sequence of commands on the logical keyspace. *)
Fixpoint kspec_seq (ty : loc → Z) (cmds : list (Z * kcmd)) (L : lmap) : lmap * list answer * list text * Z :=
  match cmds with
  | [] => (L, [], [], 0)
  | (t, c) :: cmds =>
      let '(L, a1, t1, n1) := kspec E t ty c (aged t L) in
      let '(L, a2, t2, n2) := kspec_seq ty cmds L in
      (L, a1 ++ a2, t1 ++ t2, n1 + n2)
  end.

Lemma gone_later t t' w : t ≤ t' → gone E t w = true → gone E t' w = true.
Proof. unfold gone, past. destruct w as [w|]; [|done]. destruct (loading E), (masterhost E); rewrite ?andb_false_r; try done. cbn. lia. Qed.

Lemma lview_later t t' db : t ≤ t' → lview E t' db = aged t' (lview E t db).
Proof.
  intros Ht. apply map_eq. intros key. unfold aged. rewrite map_lookup_filter, !lookup_lview.
  destruct (keys_of db !! key) as [l|]; [|done]. cbn. destruct (gone E t (expires_of db !! key)) eqn:Eg; cbn.
  - by rewrite (gone_later t t').
  - by destruct (gone E t' (expires_of db !! key)).
Qed.

Lemma kspec_types (t : Z) (ty ty' : loc → Z) (c : kcmd) (L : lmap) : (∀ key l w, L !! key = Some (l, w) → ty l = ty' l) → kspec E t ty c L = kspec E t ty' c L.
Proof. intros Hty. destruct c; try done. cbn. destruct (L !! key) as [[l w]|] eqn:El; [|done]. by rewrite (Hty _ _ _ El). Qed.

Lemma command_refines (t : Z) (c : kcmd) ext s db : in_u32 seed → focus seed ext s (c_db s) db → (∀ l, ext l < 2 ^ 28 - 1) → total (dbs s) < 2 ^ 28 - 1 →
  kcmd_ok c → argv s = argv_of c → refines seed (zero_time t) junk_val junk_when E ext s (c_db s) db c.
Proof.
  intros Hs F He Ht Hc Ha. destruct c as [keys|key|nx src dst|relative secs key n|ms key|key].
  - by apply del_command_refines.
  - by apply exists_refines.
  - by apply rename_refines.
  - by apply expire_refines.
  - by apply ttl_refines.
  - by apply type_refines.
Qed.

Lemma trace_refl s i db : at_db s i db → trace s s i db [] [] 0.
Proof. intros A. pose proof (trace_log s i db [] A) as T. unfold add_log in T. rewrite app_nil_r in T. by destruct s. Qed.

Lemma trace_argv s a s' i db ans tch n : trace (with_argv s a) s' i db ans tch n → trace s s' i db ans tch n.
Proof. intros [D O C Y L]. by split. Qed.

Lemma run_kcmds_spec ext ty : in_u32 seed → lua_start E = None → (∀ l, ext l < 2 ^ 28 - 1) → ∀ cmds t0 s db,
  focus seed ext s (c_db s) db → total (dbs s) < 2 ^ 28 - 1 → Forall (λ tc, kcmd_ok tc.2) cmds → Sorted Z.le (t0 :: cmds.*1) →
  (∀ l o, objects s !! l = Some o → ty l = o_type o) →
  ∃ s' db' ans tch n, run_kcmds cmds s = Some (tt, s') ∧ focus seed ext s' (c_db s) db' ∧
    trace s s' (c_db s) db' ans ((λ key, (c_db s, key)) <$> tch) n ∧
    kspec_seq ty cmds (lview E t0 db) = (lview E (List.last cmds.*1 t0) db', ans, tch, n).
Proof.
  intros Hs Hlua He. induction cmds as [|[t c] cmds IH]; intros t0 s db F Ht Hc Hst Hty.
  { exists s, db, [], [], 0. split; [done|]. split; [done|]. split; [apply trace_refl, F|done]. }
  apply Forall_cons in Hc as [Hc Hcs]. cbn [fst snd] in Hc. apply Sorted_inv in Hst as [Hst Hhd]. apply HdRel_inv in Hhd. cbn [fst] in Hhd.
  set (s0 := with_argv s (argv_of c)). assert (focus seed ext s0 (c_db s0) db) as F0 by (destruct F; by split).
  destruct (command_refines t c ext s0 db Hs F0 He Ht Hc eq_refl) as (s1 & db1 & a1 & t1 & n1 & E1 & F1 & T1 & Z1 & V1).
  apply trace_argv in T1. change (c_db s0) with (c_db s) in *. change (objects s0) with (objects s) in *.
  assert (c_db s1 = c_db s) as Hcd by eapply tr_c_db, T1.
  assert (total (dbs s1) < 2 ^ 28 - 1) as Ht1.
  { rewrite (tr_dbs _ _ _ _ _ _ _ T1), (total_insert _ _ _ _ (proj2 (fc_at _ _ _ _ _ F))). lia. }
  destruct (IH t s1 db1) as (s2 & db2 & a2 & t2 & n2 & E2 & F2 & T2 & V2).
  { by rewrite Hcd. } { done. } { done. } { done. }
  { intros l o Ho. destruct (tr_contents _ _ _ _ _ _ _ T1 l o Ho) as (o' & Ho' & -> & _). by apply Hty. }
  rewrite Hcd in F2, T2. exists s2, db2, (a1 ++ a2), (t1 ++ t2), (n1 + n2). split; [cbn [run_kcmds]; by rewrite (bind_run _ _ _ _ _ (E1 : run_kcmd t c s = _))|].
  split; [done|]. split.
  { rewrite fmap_app. eapply trace_trans; [exact T1|exact T2]. }
  cbn [kspec_seq]. rewrite <-(lview_later t0 t db Hhd).
  rewrite (kspec_types t ty (type_in (objects s)) c).
  2:{ intros key l w. rewrite lookup_lview. destruct (keys_of db !! key) as [l'|] eqn:El; [|done]. cbn. destruct (gone E t _); [done|]. intros [= -> _].
      destruct (focus_live _ _ _ _ _ F key l El) as (o & Ho & _). unfold type_in. rewrite Ho. by apply Hty. }
  assert (steady (zero_time t) E t) as St by (split; [done|by rewrite Hlua]). rewrite (V1 t St), V2. cbn [fmap list_fmap fst].
  by rewrite last_time.
Qed.
End sequences.

(** ** The commands and the logical keyspace *)

(** C2. A sequence of keyspace commands, each at its time, does on the two hash tables,
    the heap of counted values and the lazily deleted keys exactly what it does on a
    map of the keys that exist at each moment, with their values and expire times: the
    answers, the keys signalled to WATCH and the number of changes are those of the map,
    the other databases stay as they are, no value is leaked, freed twice or used after
    it was freed, and no assertion fails. *)
Theorem keyspace_refines_logical {P} seed junk_val junk_when E ext (s : server P) db t0 cmds :
  in_u32 seed → lua_start E = None → focus seed ext s (c_db s) db → (∀ l, ext l < 2 ^ 28 - 1) → total (dbs s) < 2 ^ 28 - 1 →
  Forall (λ tc, kcmd_ok tc.2) cmds → Sorted Z.le (t0 :: cmds.*1) →
  ∃ s' db' ans tch n, run_kcmds seed junk_val junk_when E cmds s = Some (tt, s') ∧ focus seed ext s' (c_db s) db' ∧
    trace s s' (c_db s) db' ans ((λ key, (c_db s, key)) <$> tch) n ∧
    kspec_seq E (type_in (objects s)) cmds (lview E t0 db) = (lview E (List.last cmds.*1 t0) db', ans, tch, n).
Proof.
  intros Hs Hlua F He Ht Hc Hst. apply (run_kcmds_spec seed junk_val junk_when id E ext); try done.
  intros l o Ho. unfold type_in. by rewrite Ho.
Qed.

(** C12. KEYS, with a pattern of characters, backslashes, '?' and '*' (no brackets and
    no NUL, where stringmatchlen departs from its documentation), deletes keys from the
    table it iterates, and still answers with every key that matches the pattern and has
    not expired, each once, and with their number; on a master these are the keys of the
    logical keyspace.  The clock stands still during the command, no other iterator is
    at work on the table, and pattern and keys have at most 2^31 - 1 bytes. *)
Theorem keys_lists {P} seed clock addr E ext (s : server P) db t pattern :
  in_u32 seed → steady clock E t → focus seed ext s (c_db s) db → d_iterators (db_dict db) = 0 → argv s !! 1%nat = Some pattern →
  plain pattern → blen pattern ≤ INT32_MAX → (∀ key, is_Some (keys_of db !! key) → blen key ≤ INT32_MAX) →
  ∃ s' db' ks, keysCommand seed clock addr E s = Some (tt, s') ∧ focus seed ext s' (c_db s) db' ∧ lview E t db' = lview E t db ∧
    trace s s' (c_db s) db' (R_deferredlen :: (R_bulk <$> ks) ++ [R_setdeferredlen (Z.of_nat (length ks))]) [] 0 ∧ NoDup ks ∧
    (∀ key, key ∈ ks ↔ glob false pattern key = true ∧ is_Some (keys_of db !! key) ∧ shown E t (expires_of db !! key) = true) ∧
    (masterhost E = false → ∀ key, key ∈ ks ↔ glob false pattern key = true ∧ is_Some (lview E t db !! key)).
Proof.
  intros Hs St F Hit Ha Hp Hl Hk. destruct (keys_run seed clock 0 addr E Hs ext s db t pattern F Ha Hit St Hp Hl Hk) as (s' & db' & E1 & F1 & _ & V1 & T1).
  pose proof (focus_ok _ _ _ _ _ F) as W. pose proof (ok_dict _ _ W) as W0.
  assert (∀ key, key ∈ (all_entries (db_dict db)).*1 ↔ is_Some (keys_of db !! key)) as Hin.
  { intros key. split.
    - intros [[k l] [-> He]]%list_elem_of_fmap. exists l. by apply (dmap_Some (dbDictType seed)).
    - intros [l Hlk]. apply elem_of_list_to_map_2 in Hlk. apply list_elem_of_fmap. by exists (key, l). }
  eexists s', db', _. split; [done|]. split; [done|]. split; [done|]. split; [exact T1|]. split; [apply NoDup_filter, W0|].
  assert (∀ key, key ∈ filter (λ key, listed E t pattern db key = true) (all_entries (db_dict db)).*1 ↔
     glob false pattern key = true ∧ is_Some (keys_of db !! key) ∧ shown E t (expires_of db !! key) = true) as Hks.
  { intros key. rewrite list_elem_of_filter, Hin. unfold listed. rewrite andb_true_iff. tauto. }
  split; [done|]. intros Hm key. rewrite Hks, lookup_lview. unfold shown, gone. rewrite Hm. cbn [negb]. rewrite andb_true_r.
  destruct (keys_of db !! key) as [l|]; cbn.
  - destruct (past t _ && _); cbn; split; intros (? & ? & ?); try done; by eauto.
  - split; [by intros (_ & [? ?] & _)|by intros (_ & [? ?])].
Qed.

(** C22. MOVE takes a key that exists out of its database and brings its value into the
    other one when no key of this name exists there, without its expire time and
    without a signal for WATCH; otherwise it answers zero and changes neither. *)
Theorem move_forgets_expire {P} seed clock junk_val E ext (s : server P) db j dbj key a2 atoi :
  in_u32 seed → focus seed ext s (c_db s) db → atoi a2 = j → at_db s j dbj → c_db s ≠ j → total (dbs s) < 2 ^ 28 - 1 →
  argv s !! 1%nat = Some key → argv s !! 2%nat = Some a2 →
  ∃ s' db' dbj' a n, moveCommand seed clock junk_val E atoi s = Some (tt, s') ∧ focus seed ext s' (c_db s) db' ∧ at_db s' j dbj' ∧
    dbs s' = <[Z.to_nat (c_db s) := db']> (<[Z.to_nat j := dbj']> (dbs s)) ∧ effects s s' [a] [] n ∧
    ∀ t, steady clock E t → move_spec key (lview E t db) (lview E t dbj) = (lview E t db', lview E t dbj', a, n).
Proof. intros Hs F. by apply (move_run seed clock junk_val 0 (λ z, z) E Hs). Qed.

(** ** Witnesses *)

Definition demo_type : dictType text := dbDictType 5.
Definition demo_dict : @dict text loc :=
  default dictCreate ('(d, _) ← dictAdd demo_type true 1%positive dictCreate [97] 1%positive; '(d, _) ← dictAdd demo_type true 1%positive d [98] 2%positive; Some d).
Definition demo_expires : @dict text Z := default dictCreate ('(d, _) ← dictAdd demo_type true 0 dictCreate [97] 100; Some d).
Definition demo_db : redisDb := RedisDb demo_dict demo_expires.
Definition demo_status : status := Status false false None true false 7 true.
Definition demo_objects : gmap loc (robj unit) := <[1%positive := Robj REDIS_STRING 0 1 tt]> {[2%positive := Robj REDIS_LIST 0 1 tt]}.
Definition demo (args : list text) : server unit :=
  Server [demo_db; RedisDb dictCreate dictCreate] demo_objects 0 0 0 0 0 0 args [].

Lemma demo_keys : keys_of demo_db = <[[97] := 1%positive]> {[[98] := 2%positive]}.
Proof. by vm_compute. Qed.
Lemma demo_times : expires_of demo_db = {[[97] := 100]}.
Proof. by vm_compute. Qed.

Lemma demo_seed : in_u32 5.
Proof. done. Qed.

Lemma demo_db_ok : db_ok 5 demo_db.
Proof.
  pose proof (db_type_ok 5 demo_seed) as T.
  destruct (dictAdd_new demo_type true 1%positive dictCreate [97] 1%positive (wf_create _) eq_refl) as (d1 & E1 & W1 & M1 & I1); [by vm_compute|].
  assert (dictSize d1 < 2 ^ 29) as Hs1 by (by rewrite (dictSize_dmap demo_type d1 W1), M1).
  destruct (dictAdd_new demo_type true 1%positive d1 [98] 2%positive W1 Hs1) as (d2 & E2 & W2 & M2 & I2); [by rewrite M1|].
  destruct (dictAdd_new demo_type true 0 dictCreate [97] 100 (wf_create _) eq_refl) as (d3 & E3 & W3 & M3 & _); [by vm_compute|].
  assert (demo_dict = d2) as Hd by (unfold demo_dict; rewrite E1; cbn [mbind option_bind]; by rewrite E2).
  assert (demo_expires = d3) as He by (unfold demo_expires; by rewrite E3).
  assert (wf (dbDictType 5) demo_dict) as Wd by (rewrite Hd; exact W2). assert (wf (dbDictType 5) demo_expires) as We by (rewrite He; exact W3).
  assert (dom (expires_of demo_db) ⊆ dom (keys_of demo_db)) as Hk.
  { rewrite demo_keys, demo_times, dom_singleton_L, dom_insert_L. apply union_subseteq_l. }
  assert (0 ≤ d_iterators demo_dict < 2 ^ 31 - 1) as Hi by (rewrite Hd, I2, I1; cbn; lia).
  revert Wd We Hi Hk. unfold demo_db. generalize demo_dict demo_expires. intros d e Wd We Hi Hk. by split.
Qed.

Lemma empty_db_ok : db_ok 5 (RedisDb dictCreate dictCreate).
Proof. split; [apply wf_create|apply wf_create|by vm_compute|done]. Qed.

Lemma demo_holders l : holders (keys_of demo_db) l = (if decide (l = 1%positive) then 1 else 0) + (if decide (l = 2%positive) then 1 else 0).
Proof.
  rewrite demo_keys, holders_insert by by vm_compute. change {[[98] := 2%positive]} with (<[[98] := 2%positive]> (∅ : gmap text loc)).
  rewrite holders_insert by by vm_compute. change (holders ∅ l) with 0. lia.
Qed.

Lemma demo_focus args : focus 5 (λ _, 0) (demo args) 0 demo_db.
Proof.
  split; [done| | | |by intros].
  - apply Forall_cons; split; [apply demo_db_ok|]. apply Forall_cons; split; [apply empty_db_ok|by apply Forall_nil].
  - intros l. change (refs (dbs (demo args)) l) with (holders (keys_of demo_db) l + (0 + 0)). rewrite demo_holders. cbn [objects demo]. unfold demo_objects.
    destruct (decide (l = 1%positive)) as [->|H1]; [by vm_compute|]. destruct (decide (l = 2%positive)) as [->|H2]; [by vm_compute|].
    by rewrite lookup_insert_ne, lookup_singleton_ne by done.
  - by vm_compute.
Qed.

(** EXISTS of a key whose time is to come, RENAME of it, TTL under its new name, and
    what is left when this time is past. *)
Definition demo_cmds : list (Z * kcmd) :=
  [(50, KExists [97]); (60, KRename false [97] [99]); (70, KTtl true [99]); (90, KType [98]); (120, KExists [99])].

Lemma keyspace_refines_logical_witness :
  ∃ s' db' ans tch n, run_kcmds 5 1%positive 0 demo_status demo_cmds (demo []) = Some (tt, s') ∧
    focus 5 (λ _, 0) s' 0 db' ∧ trace (demo []) s' 0 db' ans ((λ key, (0, key)) <$> tch) n ∧
    ans = [R_cone; R_ok; R_int 30; R_status "list"; R_czero] ∧ tch = [[97]; [99]] ∧ n = 1 ∧ lview demo_status 120 db' = {[[98] := (2%positive, None)]}.
Proof.
  destruct (keyspace_refines_logical 5 1%positive 0 demo_status (λ _, 0) (demo []) demo_db 10 demo_cmds) as (s' & db' & ans & tch & n & E & F & T & V).
  - done.
  - done.
  - apply demo_focus.
  - by intros.
  - by vm_compute.
  - repeat constructor.
  - repeat constructor; by vm_compute.
  - exists s', db', ans, tch, n. split; [done|]. split; [done|]. split; [done|].
    assert (kspec_seq demo_status (type_in demo_objects) demo_cmds (lview demo_status 10 demo_db)
      = ({[[98] := (2%positive, None)]}, [R_cone; R_ok; R_int 30; R_status "list"; R_czero], [[97]; [99]], 1)) as V' by by vm_compute.
    change (objects (demo [])) with demo_objects in V. rewrite V' in V. injection V as V1 V2 V3 V4.
    split; [exact (eq_sym V2)|]. split; [exact (eq_sym V3)|]. split; [exact (eq_sym V4)|exact (eq_sym V1)].
Defined.

Lemma keys_lists_witness :
  ∃ s' db' ks, keysCommand 5 (zero_time 200) (λ z, z) demo_status (demo [[]; [ch_star]]) = Some (tt, s') ∧ focus 5 (λ _, 0) s' 0 db' ∧
    ([98] ∈ ks ∧ [97] ∉ ks) ∧
    trace (demo [[]; [ch_star]]) s' 0 db' (R_deferredlen :: (R_bulk <$> ks) ++ [R_setdeferredlen (Z.of_nat (length ks))]) [] 0.
Proof.
  destruct (keys_lists 5 (zero_time 200) (λ z, z) demo_status (λ _, 0) (demo [[]; [ch_star]]) demo_db 200 [ch_star])
    as (s' & db' & ks & E & F & _ & T & _ & _ & V).
  - done.
  - by split.
  - apply demo_focus.
  - by vm_compute.
  - done.
  - by repeat constructor.
  - by vm_compute.
  - intros key. rewrite demo_keys. intros [l Hl]. rewrite lookup_insert_Some, lookup_singleton_Some in Hl.
    destruct Hl as [[<- _]|(_ & <- & _)]; by vm_compute.
  - exists s', db', ks. split; [done|]. split; [done|]. split; [|done]. rewrite !(V eq_refl). split.
    + split; [done|]. exists (2%positive, None). vm_compute. reflexivity.
    + intros [_ [x Hx]]. vm_compute in Hx. discriminate Hx.
Defined.

Lemma move_forgets_expire_witness :
  ∃ s' db' dbj' a n, moveCommand 5 (zero_time 50) 1%positive demo_status (λ _, 1) (demo [[]; [97]; [49]]) = Some (tt, s') ∧
    focus 5 (λ _, 0) s' 0 db' ∧ at_db s' 1 dbj' ∧ effects (demo [[]; [97]; [49]]) s' [a] [] n ∧
    lview demo_status 50 dbj' = {[[97] := (1%positive, None)]} ∧ a = R_cone.
Proof.
  destruct (move_forgets_expire 5 (zero_time 50) 1%positive demo_status (λ _, 0) (demo [[]; [97]; [49]]) demo_db 1 (RedisDb dictCreate dictCreate)
    [97] [49] (λ _, 1)) as (s' & db' & dbj' & a & n & E & F & A & _ & T & V).
  - done.
  - apply demo_focus.
  - done.
  - done.
  - done.
  - by vm_compute.
  - done.
  - done.
  - exists s', db', dbj', a, n. split; [done|]. split; [done|]. split; [done|]. split; [done|].
    assert (steady (zero_time 50) demo_status 50) as St by by split. specialize (V 50 St).
    assert (move_spec [97] (lview demo_status 50 demo_db) (lview demo_status 50 (RedisDb dictCreate dictCreate))
      = ({[[98] := (2%positive, None)]}, {[[97] := (1%positive, None)]}, R_cone, 1)) as V' by by vm_compute.
    rewrite V' in V. injection V as V1 V2 V3 V4. split; [exact (eq_sym V2)|exact (eq_sym V3)].
Defined.
