(* ===== verification/Adlist.v ===== *)
(** * Doubly linked lists ([adlist.c], [adlist.h])

    The nodes live in an explicit heap: a finite map from locations to nodes.
    A pointer is [None] (NULL) or a location; reading or writing through NULL or
    a location that was freed is undefined behaviour, which is [None] of the
    option monad.  [zmalloc] does not fail: its handler aborts the process. *)
From S2P Require Import Prelude.
Open Scope Z_scope.

Notation loc := positive.
Notation ptr := (option positive).

Definition AL_START_HEAD : Z := 0.
Definition AL_START_TAIL : Z := 1.

Section adlist.
Context {V : Type} `{EqDecision V}.

Record listNode := ListNode { n_prev : ptr; n_next : ptr; n_value : V }.
Record listIter := ListIter { it_next : ptr; it_direction : Z }.

(** The [dup] method may return NULL; of the [free] method the model keeps
    whether it is set, and the operations return the values given to it. *)
Record alist := Alist {
  l_head : ptr;
  l_tail : ptr;
  l_dup : option (V → option V);
  l_free : bool;
  l_match : option (V → V → bool);
  l_len : Z;
}.

Abbreviation heap := (gmap loc listNode).

(** [zmalloc] of a node and the stores that fill it. *)
Definition alloc (h : heap) (n : listNode) : heap * loc :=
  let l := fresh (dom h) in (<[l := n]> h, l).
Definition zfree (h : heap) (p : loc) : option heap :=
  _ ← h !! p; Some (delete p h).
(** [p->...], through a pointer that may be NULL. *)
Definition deref (h : heap) (p : ptr) : option listNode := l ← p; h !! l.
Definition set_next (h : heap) (p : ptr) (q : ptr) : option heap :=
  l ← p; n ← h !! l; Some (<[l := ListNode (n_prev n) q (n_value n)]> h).
Definition set_prev (h : heap) (p : ptr) (q : ptr) : option heap :=
  l ← p; n ← h !! l; Some (<[l := ListNode q (n_next n) (n_value n)]> h).

(** [if (p != NULL) p->next = q], and the same for [prev]. *)
Definition link_next (h : heap) (p q : ptr) : option heap :=
  match p with Some _ => set_next h p q | None => Some h end.
Definition link_prev (h : heap) (p q : ptr) : option heap :=
  match p with Some _ => set_prev h p q | None => Some h end.

Definition with_head (l : alist) (p : ptr) : alist :=
  Alist p (l_tail l) (l_dup l) (l_free l) (l_match l) (l_len l).
Definition with_tail (l : alist) (p : ptr) : alist :=
  Alist (l_head l) p (l_dup l) (l_free l) (l_match l) (l_len l).
Definition with_len (l : alist) (n : Z) : alist :=
  Alist (l_head l) (l_tail l) (l_dup l) (l_free l) (l_match l) n.

Definition listCreate : alist := Alist None None None false None 0.
Definition listLength (l : alist) : Z := l_len l.

(** [list->free(value)], as the values freed. *)
Definition free_value (l : alist) (v : V) : list V := if l_free l then [v] else [].

(** [while(len--)] of listRelease. *)
Fixpoint listRelease_loop (len : nat) (h : heap) (l : alist) (current : ptr)
    : option (heap * list V) :=
  match len with
  | O => Some (h, [])
  | S len =>
      n ← deref h current;
      c ← current;
      h ← zfree h c;
      '(h, freed) ← listRelease_loop len h l (n_next n);
      Some (h, free_value l (n_value n) ++ freed)
  end.

Definition listRelease (h : heap) (l : alist) : option (heap * list V) :=
  listRelease_loop (Z.to_nat (l_len l)) h l (l_head l).

Definition listAddNodeHead (h : heap) (l : alist) (value : V) : option (heap * alist) :=
  if l_len l =? 0 then
    let '(h, node) := alloc h (ListNode None None value) in
    Some (h, with_len (with_tail (with_head l (Some node)) (Some node)) (u32 (l_len l + 1)))
  else
    let '(h, node) := alloc h (ListNode None (l_head l) value) in
    h ← set_prev h (l_head l) (Some node);
    Some (h, with_len (with_head l (Some node)) (u32 (l_len l + 1))).

Definition listAddNodeTail (h : heap) (l : alist) (value : V) : option (heap * alist) :=
  if l_len l =? 0 then
    let '(h, node) := alloc h (ListNode None None value) in
    Some (h, with_len (with_tail (with_head l (Some node)) (Some node)) (u32 (l_len l + 1)))
  else
    let '(h, node) := alloc h (ListNode (l_tail l) None value) in
    h ← set_next h (l_tail l) (Some node);
    Some (h, with_len (with_tail l (Some node)) (u32 (l_len l + 1))).

Definition listInsertNode (h : heap) (l : alist) (old_node : loc) (value : V) (after : bool)
    : option (heap * alist) :=
  old ← h !! old_node;
  let prev := if after then Some old_node else n_prev old in
  let next := if after then n_next old else Some old_node in
  let '(h, node) := alloc h (ListNode prev next value) in
  let l := if after then if decide (l_tail l = Some old_node) then with_tail l (Some node) else l
           else if decide (l_head l = Some old_node) then with_head l (Some node) else l in
  h ← link_next h prev (Some node);
  h ← link_prev h next (Some node);
  Some (h, with_len l (u32 (l_len l + 1))).

Definition listDelNode (h : heap) (l : alist) (node : loc) : option (heap * alist * list V) :=
  n ← h !! node;
  h ← link_next h (n_prev n) (n_next n);
  let l := match n_prev n with Some _ => l | None => with_head l (n_next n) end in
  n ← h !! node;
  h ← link_prev h (n_next n) (n_prev n);
  let l := match n_next n with Some _ => l | None => with_tail l (n_prev n) end in
  n ← h !! node;
  h ← zfree h node;
  Some (h, with_len l (u32 (l_len l - 1)), free_value l (n_value n)).

(** ** Iterators *)

Definition listGetIterator (l : alist) (direction : Z) : listIter :=
  ListIter (if direction =? AL_START_HEAD then l_head l else l_tail l) direction.
Definition listRewind (l : alist) : listIter := ListIter (l_head l) AL_START_HEAD.
Definition listRewindTail (l : alist) : listIter := ListIter (l_tail l) AL_START_TAIL.

Definition listNext (h : heap) (iter : listIter) : option (ptr * listIter) :=
  let current := it_next iter in
  match current with
  | Some c =>
      n ← h !! c;
      let next := if it_direction iter =? AL_START_HEAD then n_next n else n_prev n in
      Some (current, ListIter next (it_direction iter))
  | None => Some (None, iter)
  end.

(** The loop of listDup; the boolean is whether [dup] succeeded throughout. *)
Fixpoint listDup_loop (fuel : nat) (h : heap) (copy : alist) (iter : listIter)
    : option (heap * alist * bool) :=
  match fuel with
  | O => None
  | S fuel =>
      '(node, iter) ← listNext h iter;
      match node with
      | None => Some (h, copy, true)
      | Some p =>
          n ← h !! p;
          match (match l_dup copy with Some dup => dup (n_value n) | None => Some (n_value n) end) with
          | None => Some (h, copy, false)
          | Some value =>
              '(h, copy) ← listAddNodeTail h copy value;
              listDup_loop fuel h copy iter
          end
      end
  end.

(** The copy, [None] when a [dup] returned NULL, and the values freed then. *)
Definition listDup (h : heap) (orig : alist) : option (heap * option alist * list V) :=
  let copy := Alist None None (l_dup orig) (l_free orig) (l_match orig) 0 in
  let iter := listGetIterator orig AL_START_HEAD in
  '(h, copy, ok) ← listDup_loop (S (size h)) h copy iter;
  if (ok : bool) then Some (h, Some copy, [])
  else '(h, freed) ← listRelease h copy; Some (h, None, freed).

Fixpoint listSearchKey_loop (fuel : nat) (h : heap) (l : alist) (key : V) (iter : listIter)
    : option ptr :=
  match fuel with
  | O => None
  | S fuel =>
      '(node, iter) ← listNext h iter;
      match node with
      | None => Some None
      | Some p =>
          n ← h !! p;
          if (match l_match l with
              | Some m => m (n_value n) key
              | None => bool_decide (key = n_value n)
              end)
          then Some (Some p)
          else listSearchKey_loop fuel h l key iter
      end
  end.

Definition listSearchKey (h : heap) (l : alist) (key : V) : option ptr :=
  listSearchKey_loop (S (size h)) h l key (listGetIterator l AL_START_HEAD).

(** [while(index-- && n)]. *)
Fixpoint listIndex_loop (index : nat) (h : heap) (forward : bool) (n : ptr) : option ptr :=
  match index, n with
  | S index, Some p =>
      n ← h !! p; listIndex_loop index h forward (if forward then n_next n else n_prev n)
  | _, _ => Some n
  end.

(** [-index] overflows for LONG_MIN. *)
Definition listIndex (h : heap) (l : alist) (index : Z) : option ptr :=
  if index <? 0 then
    if index =? LONG_MIN then None
    else listIndex_loop (Z.to_nat (- index - 1)) h false (l_tail l)
  else listIndex_loop (Z.to_nat index) h true (l_head l).

Definition listRotate (h : heap) (l : alist) : option (heap * alist) :=
  let tail := l_tail l in
  if listLength l <=? 1 then Some (h, l)
  else
    t ← deref h tail;
    let l := with_tail l (n_prev t) in
    h ← set_next h (l_tail l) None;
    h ← set_prev h (l_head l) tail;
    h ← set_prev h tail None;
    h ← set_next h tail (l_head l);
    Some (h, with_head l tail).

(** ** Representation *)

(** The nodes of a list, in order: each with its location and its value. *)
Abbreviation nodes := (list (loc * V)).

Definition firstp (ns : nodes) (nx : ptr) : ptr :=
  match ns with [] => nx | n :: _ => Some n.1 end.
Fixpoint lastp (ns : nodes) (pr : ptr) : ptr :=
  match ns with [] => pr | n :: ns => lastp ns (Some n.1) end.

(** The nodes are linked in both directions, from [pr] to [nx]. *)
Fixpoint seg (h : heap) (pr : ptr) (ns : nodes) (nx : ptr) : Prop :=
  match ns with
  | [] => True
  | n :: ns => h !! n.1 = Some (ListNode pr (firstp ns nx) n.2) ∧ seg h (Some n.1) ns nx
  end.

Record rep (h : heap) (l : alist) (ns : nodes) : Prop := Rep {
  rep_nodup : NoDup ns.*1;
  rep_seg : seg h None ns None;
  rep_head : l_head l = firstp ns None;
  rep_tail : l_tail l = lastp ns None;
  rep_len : l_len l = Z.of_nat (length ns);
  rep_small : Z.of_nat (length ns) < 2 ^ 32;
}.

(** The methods are those of [l]. *)
Definition same_methods (l l' : alist) : Prop :=
  l_dup l' = l_dup l ∧ l_free l' = l_free l ∧ l_match l' = l_match l.

(** The heaps agree outside of the locations [ps]. *)
Definition agree_off (ps : list loc) (h h' : heap) : Prop :=
  ∀ q, q ∉ ps → h' !! q = h !! q.

Lemma firstp_app ns1 ns2 nx : firstp (ns1 ++ ns2) nx = firstp ns1 (firstp ns2 nx).
Proof. by destruct ns1. Qed.
Lemma lastp_app ns1 ns2 pr : lastp (ns1 ++ ns2) pr = lastp ns2 (lastp ns1 pr).
Proof. revert pr. induction ns1; intros; simpl; auto. Qed.

Lemma seg_app h pr ns1 ns2 nx :
  seg h pr (ns1 ++ ns2) nx ↔ seg h pr ns1 (firstp ns2 nx) ∧ seg h (lastp ns1 pr) ns2 nx.
Proof.
  revert pr. induction ns1 as [|n ns1 IH]; intros pr; simpl; [tauto|].
  rewrite IH, firstp_app. tauto.
Qed.

Lemma seg_frame h h' pr ns nx :
  (∀ q, q ∈ ns.*1 → h' !! q = h !! q) → seg h pr ns nx → seg h' pr ns nx.
Proof.
  revert pr. induction ns as [|n ns IH]; intros pr Hq; simpl; [done|].
  intros [Hn Hs]. rewrite Hq by (apply elem_of_cons; by left). split; [done|].
  apply IH; [|done]. intros q Hin. apply Hq, elem_of_cons. by right.
Qed.

Lemma seg_elem h pr ns nx q : seg h pr ns nx → q ∈ ns.*1 → is_Some (h !! q).
Proof.
  revert pr. induction ns as [|n ns IH]; intros pr; simpl; [by intros _ ?%not_elem_of_nil|].
  intros [Hn Hs] [->|Hin]%elem_of_cons; [eauto|]. by eapply IH.
Qed.

(** Linking the last node of a segment to another successor. *)
Lemma seg_link_next h ns nx nx' : NoDup ns.*1 → seg h None ns nx → ns ≠ [] →
  ∃ h', set_next h (lastp ns None) nx' = Some h' ∧ seg h' None ns nx' ∧
    agree_off ns.*1 h h' ∧ dom h' = dom h.
Proof.
  intros Hnd Hs Hne. destruct (exists_last Hne) as (ns1 & [p v] & ->).
  apply seg_app in Hs as [Hs1 [Hp _]]. simpl in *. rewrite lastp_app. simpl.
  unfold set_next. simpl. rewrite Hp. simpl. eexists; split; [done|].
  rewrite fmap_app in Hnd. apply NoDup_app in Hnd as (Hnd1 & Hdis & _). split; [|split].
  - apply seg_app. simpl. split; [|by rewrite lookup_insert_eq].
    eapply seg_frame; [|exact Hs1]. intros q Hq. rewrite lookup_insert_ne; [done|].
    intros <-. apply (Hdis p Hq). simpl. by apply elem_of_cons; left.
  - intros q Hq. rewrite lookup_insert_ne; [done|]. intros <-. apply Hq.
    rewrite fmap_app, elem_of_app. right. simpl. by apply elem_of_cons; left.
  - apply dom_insert_lookup_L. by rewrite Hp.
Qed.

(** Linking the first node of a segment to another predecessor. *)
Lemma seg_link_prev h pr pr' ns nx : NoDup ns.*1 → seg h pr ns nx → ns ≠ [] →
  ∃ h', set_prev h (firstp ns None) pr' = Some h' ∧ seg h' pr' ns nx ∧
    agree_off ns.*1 h h' ∧ dom h' = dom h.
Proof.
  intros Hnd Hs Hne. destruct ns as [|[p v] ns]; [done|]. simpl in *. destruct Hs as [Hp Hs].
  unfold set_prev. simpl. rewrite Hp. simpl. eexists; split; [done|].
  apply NoDup_cons in Hnd as [Hni Hnd]. split; [split; [by rewrite lookup_insert_eq|]|split].
  - eapply seg_frame; [|exact Hs]. intros q Hq. rewrite lookup_insert_ne; [done|]. by intros <-.
  - intros q Hq. rewrite lookup_insert_ne; [done|]. intros <-. apply Hq, elem_of_cons. by left.
  - apply dom_insert_lookup_L. by rewrite Hp.
Qed.

(** Relinking the ends of two segments that are next to each other. *)
Lemma relink h ns1 ns2 nx pr nx' pr' :
  NoDup (ns1 ++ ns2).*1 → seg h None ns1 nx → seg h pr ns2 None →
  ∃ h1 h2, link_next h (lastp ns1 None) nx' = Some h1 ∧
    link_prev h1 (firstp ns2 None) pr' = Some h2 ∧
    seg h2 None ns1 nx' ∧ seg h2 pr' ns2 None ∧
    agree_off ns1.*1 h h1 ∧ agree_off (ns1 ++ ns2).*1 h h2 ∧ dom h2 = dom h.
Proof.
  rewrite fmap_app. intros (Hnd1 & Hdis & Hnd2)%NoDup_app Hs1 Hs2.
  assert (∃ h1, link_next h (lastp ns1 None) nx' = Some h1 ∧ seg h1 None ns1 nx' ∧
    agree_off ns1.*1 h h1 ∧ dom h1 = dom h) as (h1 & E1 & Hs1' & Hf1 & Hd1).
  { destruct ns1 as [|n ns1]; [by exists h|].
    destruct (seg_link_next h (n :: ns1) nx nx' Hnd1 Hs1) as (h1 & E & ?); [done|].
    exists h1. split; [|done]. revert E. unfold link_next.
    by destruct (lastp (n :: ns1) None). }
  assert (seg h1 pr ns2 None) as Hs2'.
  { eapply seg_frame; [|exact Hs2]. intros q Hq. apply Hf1. intros Hq1. by apply (Hdis q). }
  assert (∃ h2, link_prev h1 (firstp ns2 None) pr' = Some h2 ∧ seg h2 pr' ns2 None ∧
    agree_off ns2.*1 h1 h2 ∧ dom h2 = dom h1) as (h2 & E2 & Hs2'' & Hf2 & Hd2).
  { destruct ns2 as [|n ns2]; [by exists h1|].
    destruct (seg_link_prev h1 pr pr' (n :: ns2) None Hnd2 Hs2') as (h2 & E & ?); [done|].
    exists h2. by split. }
  exists h1, h2. split; [done|split; [done|split; [|split; [done|split; [done|split]]]]].
  - eapply seg_frame; [|exact Hs1']. intros q Hq. apply Hf2. by apply Hdis.
  - intros q Hq. rewrite not_elem_of_app in Hq. by rewrite Hf2, Hf1 by tauto.
  - congruence.
Qed.

Lemma rep_dom h l ns q : rep h l ns → q ∈ ns.*1 → q ∈ dom h.
Proof. intros R Hq. apply elem_of_dom. eapply seg_elem; [apply R|done]. Qed.

(** A new node between two halves of a list. *)
Lemma insert_between h ns1 ns2 v h0 q :
  NoDup (ns1 ++ ns2).*1 → seg h None (ns1 ++ ns2) None →
  alloc h (ListNode (lastp ns1 None) (firstp ns2 None) v) = (h0, q) →
  ∃ h1 h2, link_next h0 (lastp ns1 None) (Some q) = Some h1 ∧
    link_prev h1 (firstp ns2 None) (Some q) = Some h2 ∧
    seg h2 None (ns1 ++ (q, v) :: ns2) None ∧ NoDup (ns1 ++ (q, v) :: ns2).*1 ∧
    agree_off (q :: (ns1 ++ ns2).*1) h h2 ∧ q ∉ dom h.
Proof.
  intros Hnd Hs [= <- Hq]. rewrite Hq. assert (q ∉ dom h) as Hfr by (rewrite <-Hq; apply is_fresh).
  assert (q ∉ (ns1 ++ ns2).*1) as Hni.
  { intros Hin. apply Hfr, elem_of_dom. by eapply seg_elem. }
  set (h0' := <[q := _]> h).
  assert (seg h0' None (ns1 ++ ns2) None) as Hs0.
  { eapply seg_frame; [|exact Hs]. intros x Hx. apply lookup_insert_ne. by intros ->. }
  apply seg_app in Hs0 as [Hs1 Hs2].
  destruct (relink h0' ns1 ns2 _ _ (Some q) (Some q) Hnd Hs1 Hs2)
    as (h1 & h2 & E1 & E2 & Hs1' & Hs2' & _ & Hf & _).
  exists h1, h2. split; [done|split; [done|split; [|split; [|split; [|done]]]]].
  - apply seg_app. simpl. split; [done|split; [|done]].
    rewrite Hf by done. apply lookup_insert_eq.
  - assert ((ns1 ++ (q, v) :: ns2).*1 ≡ₚ q :: (ns1 ++ ns2).*1) as ->
      by (rewrite !fmap_app; simpl; solve_Permutation).
    by constructor.
  - intros x Hx. apply not_elem_of_cons in Hx as [Hx1 Hx2]. rewrite Hf by done.
    by apply lookup_insert_ne.
Qed.

Lemma firstp_lastp_nil ns : ns ≠ [] → (∃ p, firstp ns None = Some p) ∧ ∃ p, lastp ns None = Some p.
Proof.
  intros Hne. destruct (exists_last Hne) as (ns1 & [p v] & ->). split.
  - destruct ns1 as [|n ns1]; simpl; eauto.
  - rewrite lastp_app. simpl. eauto.
Qed.

Lemma listAddNodeHead_spec h l ns v :
  rep h l ns → Z.of_nat (length ns) < 2 ^ 32 - 1 →
  ∃ h' l' p, listAddNodeHead h l v = Some (h', l') ∧ p ∉ dom h ∧ rep h' l' ((p, v) :: ns) ∧
    agree_off (p :: ns.*1) h h' ∧ same_methods l l'.
Proof.
  intros R Hn. pose proof R as [Hnd Hs Hh Ht Hl _]. unfold listAddNodeHead.
  destruct (Z.eqb_spec (l_len l) 0) as [Hz|Hz].
  - destruct ns; [|simpl in *; lia].
    destruct (insert_between h [] [] v _ _ Hnd Hs eq_refl) as (h1 & h2 & [= <-] & [= <-] & Hs' & Hnd' & Hf & Hfr).
    simpl. do 3 eexists; split; [done|split; [exact Hfr|]].
    split; [|split; [done|done]]. constructor; simpl in *; try done.
    rewrite Hl, wrapu_small by lia. lia.
  - assert (ns ≠ []) as Hne by (intros ->; simpl in Hl; lia).
    rewrite Hh. destruct (alloc h (ListNode None (firstp ns None) v)) as [h0 q] eqn:Ea.
    destruct (insert_between h [] ns v h0 q Hnd Hs Ea) as (h1 & h2 & [= <-] & E2 & Hs' & Hnd' & Hf & Hfr).
    unfold link_prev in E2. destruct (proj1 (firstp_lastp_nil ns Hne)) as [p Hp].
    rewrite Hp in E2 |- *. rewrite E2. simpl. do 3 eexists; split; [done|split; [exact Hfr|]].
    split; [|split; [done|done]]. constructor; simpl in *; try done.
    + rewrite Ht. destruct ns; [done|]. done.
    + rewrite Hl, wrapu_small by lia. lia.
    + lia.
Qed.

Lemma listAddNodeTail_spec h l ns v :
  rep h l ns → Z.of_nat (length ns) < 2 ^ 32 - 1 →
  ∃ h' l' p, listAddNodeTail h l v = Some (h', l') ∧ p ∉ dom h ∧ rep h' l' (ns ++ [(p, v)]) ∧
    agree_off (p :: ns.*1) h h' ∧ same_methods l l'.
Proof.
  intros R Hn. pose proof R as [Hnd Hs Hh Ht Hl _]. unfold listAddNodeTail.
  destruct (Z.eqb_spec (l_len l) 0) as [Hz|Hz].
  - destruct ns; [|simpl in *; lia].
    destruct (insert_between h [] [] v _ _ Hnd Hs eq_refl) as (h1 & h2 & [= <-] & [= <-] & Hs' & Hnd' & Hf & Hfr).
    simpl. do 3 eexists; split; [done|split; [exact Hfr|]].
    split; [|split; [done|done]]. constructor; simpl in *; try done.
    rewrite Hl, wrapu_small by lia. lia.
  - assert (ns ≠ []) as Hne by (intros ->; simpl in Hl; lia).
    rewrite Ht. destruct (alloc h (ListNode (lastp ns None) None v)) as [h0 q] eqn:Ea.
    rewrite <-(app_nil_r ns) in Hnd, Hs.
    destruct (insert_between h ns [] v h0 q Hnd Hs Ea) as (h1 & h2 & E1 & [= <-] & Hs' & Hnd' & Hf & Hfr).
    unfold link_next in E1. destruct (proj2 (firstp_lastp_nil ns Hne)) as [p Hp].
    rewrite Hp in E1 |- *. rewrite E1. simpl. do 3 eexists; split; [done|split; [exact Hfr|]].
    rewrite app_nil_r in Hf. split; [|split; [done|done]]. constructor; simpl in *; try done.
    + rewrite Hh. by destruct ns.
    + by rewrite lastp_app.
    + rewrite length_app, Hl, wrapu_small by lia. simpl. lia.
    + rewrite length_app. simpl. lia.
Qed.

(** The node of a position, and the list header's pointers to it. *)
Lemma rep_node h l ns1 p v ns2 :
  rep h l (ns1 ++ (p, v) :: ns2) →
  h !! p = Some (ListNode (lastp ns1 None) (firstp ns2 None) v).
Proof. intros R. pose proof (rep_seg _ _ _ R) as Hs. by apply seg_app in Hs as [_ [Hp _]]. Qed.

Lemma lastp_elem (ns : nodes) pr p : lastp ns pr = Some p → p ∈ ns.*1 ∨ (ns = [] ∧ pr = Some p).
Proof.
  revert pr. induction ns as [|n ns IH]; intros pr; simpl; [auto|].
  intros [?|[-> [= <-]]]%IH; left; apply elem_of_cons; auto.
Qed.
Lemma firstp_elem (ns : nodes) nx p : firstp ns nx = Some p → p ∈ ns.*1 ∨ (ns = [] ∧ nx = Some p).
Proof. destruct ns; simpl; [auto|]. intros [= <-]. left. apply elem_of_cons; auto. Qed.

Lemma nodup_middle (ns1 : nodes) p v ns2 : NoDup (ns1 ++ (p, v) :: ns2).*1 →
  NoDup (ns1 ++ ns2).*1 ∧ p ∉ (ns1 ++ ns2).*1.
Proof.
  rewrite !fmap_app. simpl. rewrite <-Permutation_middle. by intros [? ?]%NoDup_cons.
Qed.

(** [p] is the last node exactly when nothing follows it, and the first exactly
    when nothing precedes it. *)
Lemma tail_is_last h l ns1 p v ns2 :
  rep h l (ns1 ++ (p, v) :: ns2) → l_tail l = Some p ↔ ns2 = [].
Proof.
  intros R. rewrite (rep_tail _ _ _ R), lastp_app. simpl. split; [|by intros ->].
  intros [Hin|[? _]]%lastp_elem; [|done].
  destruct (nodup_middle _ _ _ _ (rep_nodup _ _ _ R)) as [_ Hni].
  rewrite fmap_app, elem_of_app in Hni. tauto.
Qed.
Lemma head_is_first h l ns1 p v ns2 :
  rep h l (ns1 ++ (p, v) :: ns2) → l_head l = Some p ↔ ns1 = [].
Proof.
  intros R. rewrite (rep_head _ _ _ R), firstp_app. simpl. split; [|by intros ->].
  intros [Hin|[? _]]%firstp_elem; [|done].
  destruct (nodup_middle _ _ _ _ (rep_nodup _ _ _ R)) as [_ Hni].
  rewrite fmap_app, elem_of_app in Hni. tauto.
Qed.

Lemma listInsertNode_spec h l ns1 p w ns2 v after :
  let ns := ns1 ++ (p, w) :: ns2 in
  rep h l ns → Z.of_nat (length ns) < 2 ^ 32 - 1 →
  ∃ h' l' q, listInsertNode h l p v after = Some (h', l') ∧ q ∉ dom h ∧
    rep h' l' (if after then ns1 ++ (p, w) :: (q, v) :: ns2 else ns1 ++ (q, v) :: (p, w) :: ns2) ∧
    agree_off (q :: ns.*1) h h' ∧ same_methods l l'.
Proof.
  intros ns R Hn. subst ns. pose proof R as [Hnd Hs Hh Ht Hl _]. unfold listInsertNode.
  rewrite (rep_node _ _ _ _ _ _ R). cbn [mbind option_bind n_prev n_next].
  set (ms1 := if after then ns1 ++ [(p, w)] else ns1).
  set (ms2 := if after then ns2 else (p, w) :: ns2).
  assert (ms1 ++ ms2 = ns1 ++ (p, w) :: ns2) as Ems
    by (subst ms1 ms2; destruct after; [by rewrite <-(assoc_L (++))|done]).
  replace (if after then Some p else lastp ns1 None) with (lastp ms1 None)
    by (subst ms1; destruct after; [by rewrite lastp_app|done]).
  replace (if after then firstp ns2 None else Some p) with (firstp ms2 None)
    by (subst ms2; by destruct after).
  destruct (alloc h (ListNode (lastp ms1 None) (firstp ms2 None) v)) as [h0 q] eqn:Ea.
  rewrite <-Ems in Hnd, Hs.
  destruct (insert_between h ms1 ms2 v h0 q Hnd Hs Ea) as (h1 & h2 & E1 & E2 & Hs' & Hnd' & Hf & Hfr).
  rewrite E1. cbn [mbind option_bind]. rewrite E2. cbn [mbind option_bind].
  do 3 eexists; split; [reflexivity|split; [exact Hfr|]].
  assert ((if after then ns1 ++ (p, w) :: (q, v) :: ns2 else ns1 ++ (q, v) :: (p, w) :: ns2)
    = ms1 ++ (q, v) :: ms2) as -> by (subst ms1 ms2; destruct after; [by rewrite <-(assoc_L (++))|done]).
  rewrite Ems in Hf. split; [|split; [done|by destruct after; repeat case_decide]].
  assert (length (ms1 ++ (q, v) :: ms2) = S (length (ns1 ++ (p, w) :: ns2))) as Elen
    by (rewrite <-Ems, !length_app; simpl; lia).
  pose proof (tail_is_last _ _ _ _ _ _ R) as Htl. pose proof (head_is_first _ _ _ _ _ _ R) as Hhd.
  constructor; try done; [| | |lia].
  - destruct after; case_decide as Hc; subst ms1 ms2; simpl.
    + rewrite Hh, !firstp_app. by simpl.
    + rewrite Hh, !firstp_app. by simpl.
    + apply Hhd in Hc as ->. done.
    + rewrite Hh, !firstp_app. destruct ns1; [|done]. by rewrite Hhd in Hc.
  - destruct after; case_decide as Hc; subst ms1 ms2; simpl.
    + apply Htl in Hc as ->. by rewrite lastp_app.
    + rewrite Ht, !lastp_app. simpl. destruct ns2; [|done]. by rewrite Htl in Hc.
    + rewrite Ht, !lastp_app. done.
    + rewrite Ht, !lastp_app. done.
  - destruct after; case_decide; simpl; rewrite Elen, Hl, wrapu_small; lia.
Qed.

Lemma listDelNode_spec h l ns1 p v ns2 :
  rep h l (ns1 ++ (p, v) :: ns2) →
  ∃ h' l', listDelNode h l p = Some (h', l', free_value l v) ∧ rep h' l' (ns1 ++ ns2) ∧
    h' !! p = None ∧ agree_off (ns1 ++ (p, v) :: ns2).*1 h h' ∧ same_methods l l'.
Proof.
  intros R. pose proof R as [Hnd Hs Hh Ht Hl Hsm]. unfold listDelNode.
  pose proof (rep_node _ _ _ _ _ _ R) as Hp. rewrite Hp. cbn [mbind option_bind n_prev n_next].
  apply seg_app in Hs as [Hs1 Hs2]. simpl in Hs1, Hs2. destruct Hs2 as [_ Hs2].
  destruct (nodup_middle _ _ _ _ Hnd) as [Hnd' Hni].
  destruct (relink h ns1 ns2 _ _ (firstp ns2 None) (lastp ns1 None) Hnd' Hs1 Hs2)
    as (h1 & h2 & E1 & E2 & Hs1' & Hs2' & Hf1 & Hf & _).
  rewrite E1. cbn [mbind option_bind].
  rewrite (Hf1 p) by (rewrite fmap_app, elem_of_app in Hni; tauto). rewrite Hp.
  cbn [mbind option_bind n_prev n_next n_value]. rewrite E2. cbn [mbind option_bind].
  rewrite (Hf p Hni), Hp. cbn [mbind option_bind n_prev n_next n_value].
  unfold zfree. rewrite (Hf p Hni), Hp. cbn [mbind option_bind].
  set (l1 := match lastp ns1 None with Some _ => l | None => with_head l (firstp ns2 None) end).
  set (l2 := match firstp ns2 None with Some _ => l1 | None => with_tail l1 (lastp ns1 None) end).
  assert (l_len l2 = l_len l ∧ same_methods l l2) as [Elen Hme]
    by (subst l2 l1; by destruct (firstp ns2 None), (lastp ns1 None)).
  assert (l_head l2 = firstp (ns1 ++ ns2) None) as Ehd.
  { rewrite firstp_app in Hh |- *. simpl in Hh. assert (l_head l2 = l_head l1) as ->
      by (subst l2; by destruct (firstp ns2 None)). subst l1.
    destruct ns1 as [|n ns1]; [done|].
    by destruct (proj2 (firstp_lastp_nil (n :: ns1) ltac:(done))) as [? ->]. }
  assert (l_tail l2 = lastp (ns1 ++ ns2) None) as Etl.
  { rewrite lastp_app in Ht |- *. simpl in Ht. subst l2.
    assert (l_tail l1 = l_tail l) as Et1 by (subst l1; by destruct (lastp ns1 None)).
    by destruct ns2 as [|n ns2]; simpl in *; [|rewrite Et1]. }
  assert (free_value l2 v = free_value l v) as ->
    by (unfold free_value; by destruct Hme as (_ & -> & _)).
  do 2 eexists. split; [done|split; [|split; [|split; [|done]]]].
  - rewrite length_app in Hl, Hsm. simpl in Hl, Hsm.
    constructor; [done| |done|done| |rewrite length_app; lia].
    + eapply seg_frame; [|apply seg_app; by split].
      intros x Hx. apply lookup_delete_ne. by intros ->.
    + simpl. rewrite length_app, Elen, Hl, wrapu_small; lia.
  - apply lookup_delete_eq.
  - intros q Hq. rewrite fmap_app, elem_of_app in Hq. simpl in Hq. rewrite elem_of_cons in Hq.
    rewrite lookup_delete_ne by (intros ->; tauto). apply Hf.
    rewrite fmap_app, elem_of_app. tauto.
Qed.

Lemma listRotate_spec h l ns p v :
  rep h l (ns ++ [(p, v)]) → ns ≠ [] →
  ∃ h' l', listRotate h l = Some (h', l') ∧ rep h' l' ((p, v) :: ns) ∧
    agree_off (ns ++ [(p, v)]).*1 h h' ∧ same_methods l l'.
Proof.
  intros R Hne. pose proof R as [Hnd Hs Hh Ht Hl Hsm]. unfold listRotate, listLength.
  rewrite length_app in Hl. simpl in Hl.
  assert (length ns ≠ 0)%nat by (destruct ns; simpl; [done|lia]).
  rewrite (proj2 (Z.leb_gt _ _)) by lia.
  rewrite lastp_app in Ht. simpl in Ht. rewrite firstp_app in Hh. simpl in Hh.
  apply seg_app in Hs as [Hs1 [Hp _]]. simpl in Hs1, Hp.
  apply (nodup_middle ns p v []) in Hnd as [Hnd Hni]. rewrite app_nil_r in Hnd, Hni.
  rewrite Ht. unfold deref. cbn [mbind option_bind]. rewrite Hp.
  cbn [mbind option_bind n_prev with_tail l_tail l_head].
  destruct (seg_link_next h ns (Some p) None Hnd Hs1 Hne) as (h1 & -> & Hs1' & Hf1 & _).
  cbn [mbind option_bind]. rewrite Hh.
  replace (firstp ns (Some p)) with (firstp ns None) by (by destruct ns).
  destruct (seg_link_prev h1 None (Some p) ns None Hnd Hs1' Hne) as (h2 & -> & Hs2 & Hf2 & _).
  cbn [mbind option_bind]. assert (h2 !! p = h !! p) as Hp2 by (by rewrite Hf2, Hf1).
  unfold set_prev at 1. cbn [mbind option_bind]. rewrite Hp2, Hp. cbn [mbind option_bind n_next n_value].
  unfold set_next. cbn [mbind option_bind]. rewrite lookup_insert_eq. cbn [mbind option_bind n_prev n_value].
  do 2 eexists; split; [reflexivity|]. rewrite insert_insert_eq. split; [|split; [|done]].
  - constructor; simpl.
    + by constructor.
    + split; [by rewrite lookup_insert_eq|]. eapply seg_frame; [|exact Hs2].
      intros q Hq. apply lookup_insert_ne. by intros ->.
    + done.
    + destruct (exists_last Hne) as (ms & n & ->). by rewrite !lastp_app.
    + lia.
    + rewrite length_app in Hsm. simpl in Hsm. lia.
  - intros q Hq. rewrite fmap_app, elem_of_app in Hq. simpl in Hq. rewrite list_elem_of_singleton in Hq.
    rewrite lookup_insert_ne by (intros ->; tauto). rewrite Hf2, Hf1 by tauto. done.
Qed.

Lemma listRelease_loop_spec l ns : ∀ h pr,
  NoDup ns.*1 → seg h pr ns None →
  ∃ h', listRelease_loop (length ns) h l (firstp ns None)
      = Some (h', concat (free_value l <$> ns.*2)) ∧
    agree_off ns.*1 h h' ∧ ∀ q, q ∈ ns.*1 → h' !! q = None.
Proof.
  induction ns as [|[p v] ns IH]; intros h pr Hnd Hs; simpl.
  { exists h. split; [done|split; [done|by intros ? ?%not_elem_of_nil]]. }
  simpl in Hnd, Hs. apply NoDup_cons in Hnd as [Hni Hnd]. destruct Hs as [Hp Hs].
  rewrite Hp. cbn [mbind option_bind n_next]. unfold zfree. rewrite Hp. cbn [mbind option_bind].
  destruct (IH (delete p h) (Some p) Hnd) as (h' & -> & Hf & Hd).
  { eapply seg_frame; [|exact Hs]. intros q Hq. apply lookup_delete_ne. by intros ->. }
  cbn [mbind option_bind]. exists h'. split; [done|split].
  - intros q Hq. apply not_elem_of_cons in Hq as [Hq1 Hq2]. rewrite Hf by done.
    by apply lookup_delete_ne.
  - intros q [->|Hq]%elem_of_cons; [|by apply Hd]. rewrite Hf by done. apply lookup_delete_eq.
Qed.

Lemma listRelease_spec h l ns :
  rep h l ns →
  ∃ h', listRelease h l = Some (h', concat (free_value l <$> ns.*2)) ∧
    agree_off ns.*1 h h' ∧ ∀ q, q ∈ ns.*1 → h' !! q = None.
Proof.
  intros [Hnd Hs Hh Ht Hl _]. unfold listRelease. rewrite Hl, Hh, Nat2Z.id.
  by apply (listRelease_loop_spec l ns h None).
Qed.

(** *** Traversals *)

Lemma index_forward h ns : ∀ pr i, seg h pr ns None →
  listIndex_loop i h true (firstp ns None) = Some (fst <$> ns !! i).
Proof.
  induction ns as [|[p v] ns IH]; intros pr i Hs; [by destruct i|].
  destruct i as [|i]; [done|]. simpl in *. destruct Hs as [-> Hs]. cbn [mbind option_bind n_next].
  by apply IH with (Some p).
Qed.

Lemma index_backward h ns : ∀ i nx, seg h None ns nx →
  listIndex_loop i h false (lastp ns None) = Some (fst <$> reverse ns !! i).
Proof.
  induction ns as [|[p v] ns IH] using rev_ind; intros i nx Hs; [by destruct i|].
  rewrite lastp_app, reverse_app. simpl. destruct i as [|i]; [done|].
  apply seg_app in Hs as [Hs [Hp _]]. simpl in *. rewrite Hp. cbn [mbind option_bind n_prev].
  by apply IH with (Some p).
Qed.

Lemma listIndex_spec h l ns index :
  rep h l ns → LONG_MIN < index →
  listIndex h l index = Some (fst <$>
    (if index <? 0 then reverse ns !! Z.to_nat (- index - 1) else ns !! Z.to_nat index)).
Proof.
  intros [_ Hs Hh Ht _ _] Hi. unfold listIndex. rewrite Hh, Ht.
  rewrite (proj2 (Z.eqb_neq _ _)) by lia. destruct (Z.ltb_spec index 0).
  - by apply index_backward with None.
  - by apply index_forward with None.
Qed.

(** The node and the iterator that listNext gives, inside a list. *)
Lemma listNext_head h pr p v ns :
  seg h pr ((p, v) :: ns) None →
  listNext h (ListIter (Some p) AL_START_HEAD)
    = Some (Some p, ListIter (firstp ns None) AL_START_HEAD).
Proof. simpl. intros [Hp _]. unfold listNext. simpl. by rewrite Hp. Qed.

Lemma size_bound h pr ns nx : NoDup ns.*1 → seg h pr ns nx → (length ns ≤ size h)%nat.
Proof.
  intros Hnd Hs. rewrite <-(length_fmap fst), <-(size_list_to_set (C := gset loc)) by done. rewrite <-size_dom.
  apply subseteq_size. intros q Hq. apply elem_of_list_to_set in Hq. apply elem_of_dom.
  by eapply seg_elem.
Qed.

Definition matches (l : alist) (key v : V) : bool :=
  match l_match l with Some m => m v key | None => bool_decide (key = v) end.

Lemma search_loop h l key ns : ∀ fuel pr, seg h pr ns None → (length ns < fuel)%nat →
  listSearchKey_loop fuel h l key (ListIter (firstp ns None) AL_START_HEAD)
    = Some (fst <$> head (filter (λ n, matches l key n.2) ns)).
Proof.
  induction ns as [|[p v] ns IH]; intros [|fuel] pr Hs Hf; simpl length in Hf; try lia; [done|].
  cbn [firstp fst listSearchKey_loop]. rewrite (listNext_head h pr p v ns Hs).
  cbn [mbind option_bind]. simpl in Hs. destruct Hs as [Hp Hs]. rewrite Hp. cbn [mbind option_bind n_value].
  fold (matches l key v). rewrite filter_cons. simpl.
  destruct (matches l key v); simpl; [done|]. apply IH with (Some p); [done|lia].
Qed.

Lemma listSearchKey_spec h l ns key :
  rep h l ns →
  listSearchKey h l key = Some (fst <$> head (filter (λ n, matches l key n.2) ns)).
Proof.
  intros [Hnd Hs Hh _ _ _]. unfold listSearchKey, listGetIterator. simpl. rewrite Hh.
  apply (search_loop h l key ns (S (size h)) None Hs).
  pose proof (size_bound h None ns None Hnd Hs). lia.
Qed.

Definition dup_value (l : alist) (v : V) : option V :=
  match l_dup l with Some dup => dup v | None => Some v end.

Lemma listDup_loop_spec fuel : ∀ h c cs ns pr,
  rep h c cs → seg h pr ns None → (∀ q, q ∈ ns.*1 → q ∉ cs.*1) → (length ns < fuel)%nat →
  Z.of_nat (length cs + length ns) < 2 ^ 32 →
  ∃ h' c' cs' ok, listDup_loop fuel h c (ListIter (firstp ns None) AL_START_HEAD) = Some (h', c', ok) ∧
    rep h' c' (cs ++ cs') ∧ same_methods c c' ∧ (∀ q, q ∈ cs'.*1 → q ∉ dom h) ∧
    agree_off (cs ++ cs').*1 h h' ∧
    mapM (dup_value c) ns.*2 = if (ok : bool) then Some cs'.*2 else None.
Proof.
  induction fuel as [|fuel IH]; intros h c cs ns pr R Hs Hdis Hf Hlen; [lia|].
  cbn [listDup_loop]. destruct ns as [|[p v] ns].
  { exists h, c, [], true. rewrite app_nil_r. split; [done|split; [done|]].
    split; [done|split; [by intros ? ?%not_elem_of_nil|done]]. }
  cbn [firstp fst]. rewrite (listNext_head h pr p v ns Hs).
  cbn [mbind option_bind]. simpl in Hs. destruct Hs as [Hp Hs]. rewrite Hp.
  cbn [mbind option_bind n_value]. fold (dup_value c v).
  assert (mapM (dup_value c) ((p, v) :: ns).*2
    = w ← dup_value c v; ws ← mapM (dup_value c) ns.*2; Some (w :: ws)) as -> by done.
  destruct (dup_value c v) as [w|] eqn:Ed; cbn [mbind option_bind].
  2:{ exists h, c, [], false. rewrite app_nil_r. split; [done|split; [done|]].
      split; [done|split; [by intros ? ?%not_elem_of_nil|done]]. }
  simpl length in Hf, Hlen.
  destruct (listAddNodeTail_spec h c cs w R) as (h1 & c1 & q & -> & Hfr & R1 & Hf1 & Hm1); [lia|].
  cbn [mbind option_bind].
  assert (∀ x, x ∈ ns.*1 → x ∉ q :: cs.*1) as Hdis1.
  { intros x Hx [->|Hc]%elem_of_cons.
    - apply Hfr, elem_of_dom. by eapply seg_elem.
    - eapply Hdis; [|exact Hc]. apply elem_of_cons. by right. }
  destruct (IH h1 c1 (cs ++ [(q, w)]) ns (Some p) R1) as (h' & c' & cs' & ok & E & R' & Hm & Hfr' & Hf' & Hv).
  { eapply seg_frame; [|exact Hs]. intros x Hx. apply Hf1. by apply Hdis1. }
  { intros x Hx. rewrite fmap_app, elem_of_app. specialize (Hdis1 x Hx).
    rewrite elem_of_cons in Hdis1. simpl. rewrite list_elem_of_singleton. tauto. }
  { lia. }
  { rewrite length_app. simpl. lia. }
  exists h', c', ((q, w) :: cs'), ok. rewrite E.
  rewrite <-(assoc_L (++)) in R', Hf'. simpl in R', Hf'.
  assert (dom h ⊆ dom h1) as Hsub.
  { intros x Hx. apply elem_of_dom. destruct (decide (x ∈ q :: cs.*1)) as [Hin|Hin].
    - apply elem_of_dom, (rep_dom h1 c1 (cs ++ [(q, w)])); [done|].
      rewrite fmap_app, elem_of_app. simpl. rewrite list_elem_of_singleton.
      apply elem_of_cons in Hin. tauto.
    - rewrite Hf1 by done. by apply elem_of_dom. }
  split; [done|split; [done|split; [|split; [|split]]]].
  - destruct Hm as (?&?&?), Hm1 as (?&?&?). by repeat split; congruence.
  - intros x [->|Hx]%elem_of_cons; [done|]. intros Hd. by apply (Hfr' x Hx), Hsub.
  - intros x Hx. rewrite Hf' by done. apply Hf1. rewrite fmap_app, elem_of_app in Hx.
    simpl in Hx. rewrite elem_of_cons in Hx |- *. tauto.
  - assert (dup_value c1 = dup_value c) as Hdv
      by (unfold dup_value; by destruct Hm1 as (-> & _)).
    rewrite Hdv in Hv. rewrite Hv. by destruct ok.
Qed.

(** listDup copies the list: when [dup] (or the identity, without a [dup]
    method) succeeds on every value, the copy is a well linked list of the
    duplicates in new nodes, and the original and every other object are as they
    were; when it fails on one, the partial copy is released and the heap is
    exactly the heap before the call. *)
Theorem listDup_refines h l ns :
  rep h l ns →
  match mapM (dup_value l) ns.*2 with
  | Some vs => ∃ h' c cs, listDup h l = Some (h', Some c, []) ∧ rep h' c cs ∧ cs.*2 = vs ∧
      same_methods l c ∧ h ⊆ h' ∧ rep h' l ns ∧ ∀ q, q ∈ cs.*1 → q ∉ dom h
  | None => ∃ freed, listDup h l = Some (h, None, freed)
  end.
Proof.
  intros R. pose proof R as [Hnd Hs Hh Ht Hl Hsm]. unfold listDup.
  set (c0 := Alist None None (l_dup l) (l_free l) (l_match l) 0).
  assert (rep h c0 []) as R0 by (constructor; try done; constructor).
  destruct (listDup_loop_spec (S (size h)) h c0 [] ns None R0 Hs)
    as (h' & c & cs & ok & E & Rc & Hm & Hfr & Hf & Hv).
  { by intros ? _ ?%not_elem_of_nil. }
  { pose proof (size_bound h None ns None Hnd Hs). lia. }
  { simpl. lia. }
  simpl in Rc, Hf. change (listGetIterator l AL_START_HEAD) with (ListIter (l_head l) AL_START_HEAD).
  rewrite Hh. cbv zeta. rewrite E. cbn [mbind option_bind].
  change (dup_value c0) with (dup_value l) in Hv. rewrite Hv.
  assert (∀ q, q ∈ dom h → h' !! q = h !! q) as Hsame.
  { intros q Hq. apply Hf. intros Hin. by apply (Hfr q). }
  destruct ok.
  - exists h', c, cs. split; [done|split; [done|split; [done|split; [done|split; [|split; [|done]]]]]].
    + apply map_subseteq_spec. intros q n Hq. rewrite Hsame; [done|]. by eapply elem_of_dom_2.
    + constructor; try done. eapply seg_frame; [|exact Hs]. intros q Hq. apply Hsame.
      by apply (rep_dom h l ns).
  - destruct (listRelease_spec h' c cs Rc) as (h'' & -> & Hf2 & Hdel). cbn [mbind option_bind].
    eexists. assert (h'' = h) as ->; [|done]. apply map_eq. intros q.
    destruct (decide (q ∈ cs.*1)) as [Hin|Hin].
    + rewrite Hdel by done. symmetry. apply not_elem_of_dom. by apply Hfr.
    + rewrite Hf2, Hf by done. done.
Qed.

(** The usage that listNext documents: the node just returned may be deleted. *)
Fixpoint filter_loop (fuel : nat) (keep : V → bool) (h : heap) (l : alist) (iter : listIter)
    : option (heap * alist) :=
  match fuel with
  | O => None
  | S fuel =>
      '(node, iter) ← listNext h iter;
      match node with
      | None => Some (h, l)
      | Some p =>
          n ← h !! p;
          if keep (n_value n) then filter_loop fuel keep h l iter
          else '(h, l, _) ← listDelNode h l p; filter_loop fuel keep h l iter
      end
  end.

Lemma filter_loop_spec keep fuel : ∀ h l ns1 ns2,
  rep h l (ns1 ++ ns2) → (length ns2 < fuel)%nat →
  ∃ h' l', filter_loop fuel keep h l (ListIter (firstp ns2 None) AL_START_HEAD) = Some (h', l') ∧
    rep h' l' (ns1 ++ filter (λ n, keep n.2) ns2).
Proof.
  induction fuel as [|fuel IH]; intros h l ns1 ns2 R Hf; [lia|]. cbn [filter_loop].
  destruct ns2 as [|[p v] ns2]; [exists h, l; by split|].
  pose proof (rep_seg _ _ _ R) as Hs. apply seg_app in Hs as [_ Hs].
  cbn [firstp fst]. rewrite (listNext_head h _ p v ns2 Hs). cbn [mbind option_bind].
  simpl in Hs. rewrite (proj1 Hs). cbn [mbind option_bind n_value]. rewrite filter_cons.
  simpl length in Hf. simpl. destruct (keep v); simpl.
  - destruct (IH h l (ns1 ++ [(p, v)]) ns2) as (h' & l' & -> & R'); [by rewrite <-(assoc_L (++))|lia|].
    rewrite <-(assoc_L (++)) in R'. eauto.
  - destruct (listDelNode_spec h l ns1 p v ns2 R) as (h1 & l1 & -> & R1 & _). cbn [mbind option_bind].
    apply IH; [done|lia].
Qed.

(** ** Refinement of sequences *)

(** An update of a list, at a position given by an index. *)
Inductive list_op :=
  | AddHead (value : V)
  | AddTail (value : V)
  | Insert (index : Z) (value : V) (after : bool)
  | Del (index : Z)
  | Rotate.

Definition run_op (h : heap) (l : alist) (op : list_op) : option (heap * alist) :=
  match op with
  | AddHead value => listAddNodeHead h l value
  | AddTail value => listAddNodeTail h l value
  | Insert index value after =>
      p ← listIndex h l index;
      match p with Some p => listInsertNode h l p value after | None => Some (h, l) end
  | Del index =>
      p ← listIndex h l index;
      match p with Some p => '(h, l, _) ← listDelNode h l p; Some (h, l) | None => Some (h, l) end
  | Rotate => listRotate h l
  end.

(** The position that an index denotes in a list of [len] elements. *)
Definition position (len index : Z) : option nat :=
  let i := if index <? 0 then len + index else index in
  if (0 <=? i) && (i <? len) then Some (Z.to_nat i) else None.

Definition spec_op (vs : list V) (op : list_op) : list V :=
  match op with
  | AddHead value => value :: vs
  | AddTail value => vs ++ [value]
  | Insert index value after =>
      match position (Z.of_nat (length vs)) index with
      | Some i => let i := if after then S i else i in take i vs ++ value :: drop i vs
      | None => vs
      end
  | Del index =>
      match position (Z.of_nat (length vs)) index with
      | Some i => take i vs ++ drop (S i) vs
      | None => vs
      end
  | Rotate => match last vs with Some v => v :: take (length vs - 1) vs | None => [] end
  end.

Definition op_index_ok (op : list_op) : Prop :=
  match op with Insert i _ _ | Del i => LONG_MIN < i | _ => True end.

Lemma index_position h l ns index :
  rep h l ns → LONG_MIN < index →
  match position (Z.of_nat (length ns)) index with
  | Some i => ∃ ns1 p v ns2, ns = ns1 ++ (p, v) :: ns2 ∧ length ns1 = i ∧
      listIndex h l index = Some (Some p)
  | None => listIndex h l index = Some None
  end.
Proof.
  intros R Hi. rewrite (listIndex_spec h l ns index R Hi). unfold position.
  assert (∀ j, (j < length ns)%nat → ∃ ns1 p v ns2,
    ns = ns1 ++ (p, v) :: ns2 ∧ length ns1 = j ∧ ns !! j = Some (p, v)) as Hsplit.
  { intros j Hj. apply lookup_lt_is_Some in Hj as [[p v] Hj].
    exists (take j ns), p, v, (drop (S j) ns). rewrite take_drop_middle by done.
    split; [done|split; [|done]]. apply length_take_le. apply lookup_lt_Some in Hj. lia. }
  destruct (Z.ltb_spec index 0) as [Hn|Hn].
  - destruct (Z.leb_spec 0 (Z.of_nat (length ns) + index)); simpl.
    + rewrite (proj2 (Z.ltb_lt _ _)) by lia.
      destruct (Hsplit (Z.to_nat (Z.of_nat (length ns) + index))) as (ns1 & p & v & ns2 & ? & ? & Hl);
        [lia|]. exists ns1, p, v, ns2. split; [done|split; [done|]].
      rewrite reverse_lookup by lia.
      replace (length ns - S (Z.to_nat (- index - 1)))%nat
        with (Z.to_nat (Z.of_nat (length ns) + index)) by lia. by rewrite Hl.
    + rewrite lookup_ge_None_2; [done|]. rewrite length_reverse. lia.
  - rewrite (proj2 (Z.leb_le _ _)) by lia. simpl.
    destruct (Z.ltb_spec index (Z.of_nat (length ns))); simpl.
    + destruct (Hsplit (Z.to_nat index)) as (ns1 & p & v & ns2 & ? & ? & Hl); [lia|].
      exists ns1, p, v, ns2. split; [done|split; [done|]]. by rewrite Hl.
    + rewrite lookup_ge_None_2; [done|lia].
Qed.

(** What an update leaves of the heap: the nodes it removed are freed, and no
    cell of another object is written. *)
Definition heap_ok (h h' : heap) (ns ns' : nodes) : Prop :=
  (∀ q, q ∈ dom h → q ∉ ns.*1 → h' !! q = h !! q ∧ q ∉ ns'.*1) ∧
  (∀ q, q ∉ dom h → q ∉ ns'.*1 → h' !! q = None) ∧
  (∀ q, q ∈ ns.*1 → q ∉ ns'.*1 → h' !! q = None).

(** A new node [q] was added to the nodes. *)
Lemma heap_ok_add h l h' ns ns' q :
  rep h l ns → q ∉ dom h → ns'.*1 ≡ₚ q :: ns.*1 → agree_off (q :: ns.*1) h h' → heap_ok h h' ns ns'.
Proof.
  intros R Hq Hp Hf. split; [|split]; intros x Hx Hx'.
  - rewrite Hp, elem_of_cons. split.
    + apply Hf. rewrite elem_of_cons. intros [->|?]; done.
    + intros [->|?]; done.
  - rewrite Hf; [by apply not_elem_of_dom|]. by rewrite <-Hp.
  - destruct Hx'. rewrite Hp. apply elem_of_cons. by right.
Qed.

Lemma heap_ok_same h l h' ns ns' :
  rep h l ns → ns'.*1 ≡ₚ ns.*1 → agree_off ns.*1 h h' → heap_ok h h' ns ns'.
Proof.
  intros R Hp Hf. split; [|split]; intros x Hx Hx'.
  - rewrite Hp. split; [by apply Hf|done].
  - rewrite Hp in Hx'. rewrite Hf by done. by apply not_elem_of_dom.
  - by rewrite Hp in Hx'.
Qed.

Lemma heap_ok_id h l ns : rep h l ns → heap_ok h h ns ns.
Proof. intros R. by eapply heap_ok_same. Qed.

Lemma middle_insert {A} (l1 : list A) w l2 v (after : bool) :
  (let i := if after then S (length l1) else length l1 in
   take i (l1 ++ w :: l2) ++ v :: drop i (l1 ++ w :: l2))
  = l1 ++ if after then w :: v :: l2 else v :: w :: l2.
Proof. induction l1 as [|x l1 IH]; destruct after; simpl in *; f_equal; auto. Qed.
Lemma middle_delete {A} (l1 : list A) w l2 :
  take (length l1) (l1 ++ w :: l2) ++ drop (S (length l1)) (l1 ++ w :: l2) = l1 ++ l2.
Proof. induction l1; simpl in *; f_equal; auto. Qed.

Lemma insert_refines h l ns index v after :
  rep h l ns → Z.of_nat (length ns) < 2 ^ 32 - 1 → LONG_MIN < index →
  ∃ h' l' ns', run_op h l (Insert index v after) = Some (h', l') ∧ rep h' l' ns' ∧
    ns'.*2 = spec_op ns.*2 (Insert index v after) ∧ heap_ok h h' ns ns' ∧ same_methods l l'.
Proof.
  intros R Hn Hi. pose proof (index_position h l ns index R Hi) as Hpos. simpl.
  rewrite length_fmap. destruct (position _ _) as [i|].
  2:{ rewrite Hpos. exists h, l, ns. pose proof (heap_ok_id h l ns R). done. }
  destruct Hpos as (ns1 & p & w & ns2 & -> & <- & ->). cbn [mbind option_bind].
  destruct (listInsertNode_spec h l ns1 p w ns2 v after R Hn) as (h' & l' & q & -> & Hq & R' & Hf & Hm).
  eexists h', l', _. split; [done|split; [exact R'|split; [|split; [|done]]]].
  - rewrite fmap_app, fmap_cons, <-(length_fmap snd ns1).
    cbv zeta. pose proof (middle_insert ns1.*2 w ns2.*2 v after) as E. cbv zeta in E.
    simpl. rewrite E. by destruct after; rewrite ?fmap_app.
  - apply heap_ok_add with l q; try done. destruct after; rewrite !fmap_app; simpl; solve_Permutation.
Qed.

Lemma del_refines h l ns index :
  rep h l ns → LONG_MIN < index →
  ∃ h' l' ns', run_op h l (Del index) = Some (h', l') ∧ rep h' l' ns' ∧
    ns'.*2 = spec_op ns.*2 (Del index) ∧ heap_ok h h' ns ns' ∧ same_methods l l'.
Proof.
  intros R Hi. pose proof (index_position h l ns index R Hi) as Hpos. simpl.
  rewrite length_fmap. destruct (position _ _) as [i|].
  2:{ rewrite Hpos. exists h, l, ns. pose proof (heap_ok_id h l ns R). done. }
  destruct Hpos as (ns1 & p & w & ns2 & -> & <- & ->). cbn [mbind option_bind].
  destruct (listDelNode_spec h l ns1 p w ns2 R) as (h' & l' & -> & R' & Hdel & Hf & Hm).
  exists h', l', (ns1 ++ ns2). split; [done|split; [done|split; [|split; [|done]]]].
  - by rewrite !fmap_app, fmap_cons, <-(length_fmap snd ns1), middle_delete.
  - assert (∀ x, x ∈ (ns1 ++ (p, w) :: ns2).*1 ↔ x = p ∨ x ∈ (ns1 ++ ns2).*1) as Hin
      by (intros x; rewrite !fmap_app, fmap_cons, !elem_of_app, elem_of_cons; tauto).
    split; [|split]; intros x Hx Hx'.
    + split; [by apply Hf|]. intros ?. apply Hx', Hin. by right.
    + destruct (decide (x = p)) as [->|]; [done|]. rewrite Hf; [by apply not_elem_of_dom|].
      rewrite Hin. tauto.
    + apply Hin in Hx as [->|?]; done.
Qed.

(** C35. Every update of adlist.c refines the operation on lists: on a well
    linked list (both directions, head, tail and length) it succeeds, never goes
    through NULL or a freed node, leaves a well linked list of the expected
    values, frees exactly the nodes it removed, and writes to no cell of another
    object. *)
Theorem adlist_update_refines h l ns op :
  rep h l ns → Z.of_nat (length ns) < 2 ^ 32 - 1 → op_index_ok op →
  ∃ h' l' ns', run_op h l op = Some (h', l') ∧ rep h' l' ns' ∧ ns'.*2 = spec_op ns.*2 op ∧
    heap_ok h h' ns ns' ∧ same_methods l l'.
Proof.
  intros R Hn Hi. destruct op as [v|v|i v after|i|]; unfold run_op; [| |by apply insert_refines|by apply del_refines|].
  - destruct (listAddNodeHead_spec h l ns v R Hn) as (h' & l' & q & -> & Hq & R' & Hf & Hm).
    exists h', l', ((q, v) :: ns). split; [done|split; [done|split; [done|split; [|done]]]].
    by apply heap_ok_add with l q.
  - destruct (listAddNodeTail_spec h l ns v R Hn) as (h' & l' & q & -> & Hq & R' & Hf & Hm).
    exists h', l', (ns ++ [(q, v)]). split; [done|split; [done|]]. rewrite fmap_app.
    split; [done|split; [|done]]. apply heap_ok_add with l q; try done.
    rewrite fmap_app. apply (Permutation_app_comm _ [q]).
  - destruct ns as [|n ns0 _] using rev_ind; [|destruct ns0 as [|n0 ns0]].
    + exists h, l, []. pose proof (heap_ok_id h l [] R). unfold listRotate, listLength.
      by rewrite (rep_len _ _ _ R).
    + exists h, l, [n]. pose proof (heap_ok_id h l [n] R). unfold listRotate, listLength.
      by rewrite (rep_len _ _ _ R).
    + destruct n as [p v].
      destruct (listRotate_spec h l (n0 :: ns0) p v R) as (h' & l' & E & R' & Hf & Hm); [done|].
      exists h', l', ((p, v) :: n0 :: ns0). split; [done|split; [done|split; [|split; [|done]]]].
      * rewrite fmap_app. change ([(p, v)].*2) with [v]. cbn [spec_op]. rewrite last_snoc. f_equal.
        rewrite length_app. change (length [v]) with 1%nat. rewrite Nat.add_sub.
        by rewrite take_app_length.
      * apply heap_ok_same with l; try done. rewrite fmap_app.
        apply (Permutation_app_comm [p]).
Qed.

(** Deleting the nodes that listNext returns while iterating, as its comment
    allows, visits every node once: the loop ends, keeps the values that are to be
    kept, in their order, and listSearchKey then finds the first match. *)
Theorem adlist_filter_iteration keep h l ns key :
  rep h l ns →
  ∃ h' l', filter_loop (S (length ns)) keep h l (listRewind l) = Some (h', l') ∧
    let ns' := filter (λ n, keep n.2) ns in
    rep h' l' ns' ∧
    listSearchKey h' l' key = Some (fst <$> head (filter (λ n, matches l' key n.2) ns')).
Proof.
  intros R. unfold listRewind. rewrite (rep_head _ _ _ R).
  destruct (filter_loop_spec keep (S (length ns)) h l [] ns R) as (h' & l' & E & R'); [lia|].
  exists h', l'. split; [done|split; [done|]]. by apply listSearchKey_spec.
Qed.

(** listRelease frees every node of the list, calls [free] on every value in
    order, and touches nothing else. *)
Theorem listRelease_frees h l ns :
  rep h l ns →
  ∃ h', listRelease h l = Some (h', if l_free l then ns.*2 else []) ∧
    (∀ q, q ∈ ns.*1 → h' !! q = None) ∧ ∀ q, q ∉ ns.*1 → h' !! q = h !! q.
Proof.
  intros R. destruct (listRelease_spec h l ns R) as (h' & -> & Hf & Hd). exists h'.
  split; [|done]. do 2 f_equal. clear R Hf Hd. unfold free_value. generalize ns.*2. intros vs.
  induction vs as [|v vs IH]; [by destruct (l_free l)|].
  rewrite fmap_cons. cbn [concat]. rewrite IH. by destruct (l_free l).
Qed.
End adlist.

(** ** A concrete list *)

Definition ex_heap : gmap loc (@listNode Z) :=
  {[1%positive := ListNode None (Some 2%positive) 10;
    2%positive := ListNode (Some 1%positive) (Some 3%positive) 20;
    3%positive := ListNode (Some 2%positive) None 30; 7%positive := ListNode None None 0]}.
Definition ex_list : @alist Z :=
  Alist (Some 1%positive) (Some 3%positive) (Some (λ v, if v =? 30 then None else Some (v + 1)))
    true None 3.
Definition ex_nodes : list (loc * Z) := [(1%positive, 10); (2%positive, 20); (3%positive, 30)].

Lemma ex_rep : rep ex_heap ex_list ex_nodes.
Proof.
  constructor; try done. apply (bool_decide_unpack _). by vm_compute.
Qed.

Lemma adlist_update_refines_witness :
  ∃ h' l' ns', run_op ex_heap ex_list (Insert (-2) 15 false) = Some (h', l') ∧ rep h' l' ns' ∧
    ns'.*2 = [10; 15; 20; 30] ∧ heap_ok ex_heap h' ex_nodes ns' ∧ same_methods ex_list l'.
Proof. exact (adlist_update_refines ex_heap ex_list ex_nodes (Insert (-2) 15 false) ex_rep eq_refl eq_refl). Defined.

Lemma listDup_refines_witness : ∃ freed, listDup ex_heap ex_list = Some (ex_heap, None, freed).
Proof. exact (listDup_refines ex_heap ex_list ex_nodes ex_rep). Defined.

Lemma adlist_filter_iteration_witness :
  ∃ h' l', filter_loop 4 (λ v, negb (v =? 20)) ex_heap ex_list (listRewind ex_list) = Some (h', l') ∧
    rep h' l' [(1%positive, 10); (3%positive, 30)] ∧
    listSearchKey h' l' 30 = Some (fst <$> head (filter (λ n, matches l' 30 n.2) [(1%positive, 10); (3%positive, 30)])).
Proof. exact (adlist_filter_iteration (λ v, negb (v =? 20)) ex_heap ex_list ex_nodes 30 ex_rep). Defined.

Lemma listRelease_frees_witness :
  ∃ h', listRelease ex_heap ex_list = Some (h', [10; 20; 30]) ∧
    (∀ q, q ∈ ex_nodes.*1 → h' !! q = None) ∧ ∀ q, q ∉ ex_nodes.*1 → h' !! q = ex_heap !! q.
Proof. exact (listRelease_frees ex_heap ex_list ex_nodes ex_rep). Defined.

