(* ===== verification/Sds.v ===== *)
(** * Simple dynamic strings ([sds.c], [sds.h])

    A string is its header and its buffer, a block of [len + free + 1] bytes;
    an [sds] that was reallocated is a new value, and the old pointer is not
    used again.  An access out of the buffer, a failing [assert] and a NULL
    dereference are [None].  [zmalloc] does not fail: its handler aborts. *)
From S2P Require Import Prelude Util.
Open Scope Z_scope.

Definition SDS_MAX_PREALLOC : Z := 1024 * 1024.
Definition SDS_LLSTR_SIZE : Z := 21.
Definition ch_a : Z := 97.
Definition ch_b : Z := 98.
Definition ch_n : Z := 110.
Definition ch_r : Z := 114.
Definition ch_t : Z := 116.
Definition ch_x : Z := 120.
Definition ch_quote : Z := 34.
Definition ch_squote : Z := 39.
Definition ch_space : Z := 32.
Definition ch_percent : Z := 37.

(** [isprint] and [toupper] of the C locale. *)
Definition isprint (c : Z) : bool := (32 <=? c) && (c <=? 126).
Definition toupper (c : Z) : Z := if (97 <=? c) && (c <=? 122) then c - 32 else c.

(** [strlen] of a block: [None] when it has no terminator. *)
Fixpoint strlen (m : list Z) : option Z :=
  match m with
  | [] => None
  | c :: m => if c =? ch_nul then Some 0 else n ← strlen m; Some (n + 1)
  end.

(** The sign of [memcmp] on blocks of the same length. *)
Fixpoint memcmp (a b : list Z) : Z :=
  match a, b with
  | x :: a, y :: b => if x <? y then -1 else if y <? x then 1 else memcmp a b
  | _, _ => 0
  end.

(** [strchr(cset, c) != NULL]: the terminator of [cset] is a character of it. *)
Definition strchr (cset : list Z) (c : Z) : bool := bool_decide (c ∈ cset) || (c =? ch_nul).

Record sdshdr := Sdshdr { sh_len : Z; sh_free : Z; sh_buf : list Z }.

Definition sdslen (s : sdshdr) : Z := u64 (sh_len s).
Definition sdsavail (s : sdshdr) : Z := u64 (sh_free s).

Section sds.
Context (junk : nat → Z).

Definition sdsnewlen (init : option (list Z)) (initlen : Z) : option sdshdr :=
  let buf := match init with
             | Some _ => mresize junk [] (initlen + 1)
             | None => replicate (Z.to_nat (initlen + 1)) 0
             end in
  buf ← (match init with
         | Some m => if initlen =? 0 then Some buf else b ← mload m 0 initlen; mstore buf 0 b
         | None => Some buf
         end);
  buf ← mset buf initlen 0;
  Some (Sdshdr (i32 initlen) 0 buf).

Definition sdsempty : option sdshdr := sdsnewlen (Some [ch_nul]) 0.

Definition sdsnew (init : option (list Z)) : option sdshdr :=
  initlen ← (match init with None => Some 0 | Some m => strlen m end);
  sdsnewlen init initlen.

Definition sdsdup (s : sdshdr) : option sdshdr := sdsnewlen (Some (sh_buf s)) (sdslen s).

Definition sdsupdatelen (s : sdshdr) : option sdshdr :=
  n ← strlen (sh_buf s);
  let reallen := i32 n in
  Some (Sdshdr reallen (i32 (sh_free s + (sh_len s - reallen))) (sh_buf s)).

Definition sdsclear (s : sdshdr) : option sdshdr :=
  buf ← mset (sh_buf s) 0 0;
  Some (Sdshdr 0 (i32 (sh_free s + sh_len s)) buf).

Definition sdsMakeRoomFor (s : sdshdr) (addlen : Z) : sdshdr :=
  let free := sdsavail s in
  if addlen <=? free then s
  else
    let len := sdslen s in
    let newlen := u64 (len + addlen) in
    let newlen := if newlen <? SDS_MAX_PREALLOC then u64 (newlen * 2)
                  else u64 (newlen + SDS_MAX_PREALLOC) in
    Sdshdr (sh_len s) (i32 (newlen - len)) (mresize junk (sh_buf s) (newlen + 1)).

Definition sdsRemoveFreeSpace (s : sdshdr) : sdshdr :=
  Sdshdr (sh_len s) 0 (mresize junk (sh_buf s) (sh_len s + 1)).

Definition sdsAllocSize (s : sdshdr) : Z := u64 (8 + sh_len s + sh_free s + 1).

Definition sdsIncrLen (s : sdshdr) (incr : Z) : option sdshdr :=
  if sh_free s <? incr then None
  else
    let len := i32 (sh_len s + incr) in
    let free := i32 (sh_free s - incr) in
    if free <? 0 then None
    else buf ← mset (sh_buf s) len 0; Some (Sdshdr len free buf).

Definition sdsgrowzero (s : sdshdr) (len : Z) : option sdshdr :=
  let curlen := sdslen s in
  if len <=? curlen then Some s
  else
    let s := sdsMakeRoomFor s (u64 (len - curlen)) in
    buf ← mstore (sh_buf s) curlen (replicate (Z.to_nat (len - curlen + 1)) 0);
    let totlen := u64 (i32 (sh_len s + sh_free s)) in
    Some (Sdshdr (i32 len) (i32 (totlen - i32 len)) buf).

(** [t] is the block that the pointer points into. *)
Definition sdscatlen (s : sdshdr) (t : list Z) (len : Z) : option sdshdr :=
  let curlen := sdslen s in
  let s := sdsMakeRoomFor s len in
  b ← mload t 0 len;
  buf ← mstore (sh_buf s) curlen b;
  buf ← mset buf (curlen + len) 0;
  Some (Sdshdr (i32 (curlen + len)) (i32 (u64 (sh_free s - len))) buf).

Definition sdscat (s : sdshdr) (t : list Z) : option sdshdr :=
  n ← strlen t; sdscatlen s t n.
Definition sdscatsds (s t : sdshdr) : option sdshdr := sdscatlen s (sh_buf t) (sdslen t).

Definition sdscpylen (s : sdshdr) (t : list Z) (len : Z) : option sdshdr :=
  let totlen := u64 (i32 (sh_free s + sh_len s)) in
  let '(s, totlen) :=
    if totlen <? len then
      let s := sdsMakeRoomFor s (u64 (len - sh_len s)) in
      (s, u64 (i32 (sh_free s + sh_len s)))
    else (s, totlen) in
  b ← mload t 0 len;
  buf ← mstore (sh_buf s) 0 b;
  buf ← mset buf len 0;
  Some (Sdshdr (i32 len) (i32 (totlen - len)) buf).

Definition sdscpy (s : sdshdr) (t : list Z) : option sdshdr :=
  n ← strlen t; sdscpylen s t n.

(** ** Numbers *)

(** [do *p++ = '0'+(v%10); v /= 10; while(v)]. *)
Fixpoint emit_digits (fuel : nat) (s : list Z) (p v : Z) : option (list Z * Z) :=
  match fuel with
  | O => None
  | S fuel =>
      s ← mset s p (ch_0 + v mod 10);
      let v := v / 10 in
      if v =? 0 then Some (s, p + 1) else emit_digits fuel s (p + 1) v
  end.

(** [while(s < p)]: the bytes between [i] and [j] are reversed in place. *)
Fixpoint reverse_loop (fuel : nat) (m : list Z) (i j : Z) : option (list Z) :=
  if i <? j then
    match fuel with
    | O => None
    | S fuel =>
        aux ← mget m i;
        y ← mget m j;
        m ← mset m i y;
        m ← mset m j aux;
        reverse_loop fuel m (i + 1) (j - 1)
    end
  else Some m.

(** The buffer and the length; [-value] wraps around for LLONG_MIN. *)
Definition sdsll2str (s : list Z) (value : Z) : option (list Z * Z) :=
  let v := if value <? 0 then u64 (i64 (- value)) else value in
  '(s, p) ← emit_digits 20 s 0 v;
  '(s, p) ← (if value <? 0 then s ← mset s p ch_minus; Some (s, p + 1) else Some (s, p));
  let l := p in
  s ← mset s p ch_nul;
  s ← reverse_loop (length s) s 0 (p - 1);
  Some (s, i32 l).

Definition sdsull2str (s : list Z) (v : Z) : option (list Z * Z) :=
  '(s, p) ← emit_digits 20 s 0 v;
  let l := p in
  s ← mset s p ch_nul;
  s ← reverse_loop (length s) s 0 (p - 1);
  Some (s, i32 l).

Definition sdsfromlonglong (value : Z) : option sdshdr :=
  '(buf, len) ← sdsll2str (mresize junk [] SDS_LLSTR_SIZE) value;
  sdsnewlen (Some buf) len.

(** ** sdscatfmt *)

(** The arguments, as their conversion reads them. *)
Inductive fmt_arg :=
  | ArgStr (s : list Z)
  | ArgSds (s : sdshdr)
  | ArgInt (z : Z)
  | ArgLL (z : Z)
  | ArgUint (z : Z)
  | ArgULL (z : Z).

(** Copies [l] bytes of [str] at position [i], with room made when needed. *)
Definition fmt_put (s : sdshdr) (i : Z) (str : list Z) (l : Z) : option (sdshdr * Z) :=
  let s := if sh_free s <? l then sdsMakeRoomFor s (u64 l) else s in
  b ← mload str 0 l;
  buf ← mstore (sh_buf s) i b;
  Some (Sdshdr (i32 (sh_len s + l)) (i32 (sh_free s - l)) buf, i32 (i + l)).

(** [s[i++] = c; sh->len += 1; sh->free -= 1]. *)
Definition fmt_putc (s : sdshdr) (i c : Z) : option (sdshdr * Z) :=
  buf ← mset (sh_buf s) i c;
  Some (Sdshdr (i32 (sh_len s + 1)) (i32 (sh_free s - 1)) buf, i32 (i + 1)).

(** The switch on the character after '%'; the arguments left. *)
Definition fmt_conv (s : sdshdr) (i next : Z) (args : list fmt_arg)
    : option (sdshdr * Z * list fmt_arg) :=
  if next =? 115 then
    match args with
    | ArgStr str :: args => l ← strlen str; '(s, i) ← fmt_put s i str (i32 l); Some (s, i, args)
    | _ => None
    end
  else if next =? 83 then
    match args with
    | ArgSds t :: args => '(s, i) ← fmt_put s i (sh_buf t) (i32 (sdslen t)); Some (s, i, args)
    | _ => None
    end
  else if (next =? 105) || (next =? 73) then
    match args with
    | ArgInt num :: args' | ArgLL num :: args' =>
        if (match args with ArgInt _ :: _ => next =? 105 | _ => next =? 73 end) then
          '(buf, l) ← sdsll2str (mresize junk [] SDS_LLSTR_SIZE) num;
          '(s, i) ← fmt_put s i buf l; Some (s, i, args')
        else None
    | _ => None
    end
  else if (next =? 117) || (next =? 85) then
    match args with
    | ArgUint unum :: args' | ArgULL unum :: args' =>
        if (match args with ArgUint _ :: _ => next =? 117 | _ => next =? 85 end) then
          '(buf, l) ← sdsull2str (mresize junk [] SDS_LLSTR_SIZE) unum;
          '(s, i) ← fmt_put s i buf l; Some (s, i, args')
        else None
    | _ => None
    end
  else '(s, i) ← fmt_putc s i next; Some (s, i, args).

(** [while( *f)]; a '%' that ends the format makes the loop step over the
    terminator, which is [None]. *)
Fixpoint fmt_loop (f : list Z) (s : sdshdr) (i : Z) (args : list fmt_arg) : option (sdshdr * Z) :=
  match f with
  | [] => Some (s, i)
  | c :: f' =>
      let s := if sh_free s =? 0 then sdsMakeRoomFor s 1 else s in
      if c =? ch_percent then
        match f' with
        | [] => None
        | next :: f'' => '(s, i, args) ← fmt_conv s i next args; fmt_loop f'' s i args
        end
      else '(s, i) ← fmt_putc s i c; fmt_loop f' s i args
  end.

Definition sdscatfmt (s : sdshdr) (fmt : list Z) (args : list fmt_arg) : option sdshdr :=
  '(s, i) ← fmt_loop fmt s (i32 (sdslen s)) args;
  buf ← mset (sh_buf s) i 0;
  Some (Sdshdr (sh_len s) (sh_free s) buf).

(** ** Substrings and comparison *)

(** [while(sp <= end && strchr(cset, *sp)) sp++]. *)
Fixpoint trim_left (fuel : nat) (buf cset : list Z) (sp end_ : Z) : option Z :=
  if sp <=? end_ then
    c ← mget buf sp;
    if strchr cset c then
      match fuel with O => None | S fuel => trim_left fuel buf cset (sp + 1) end_ end
    else Some sp
  else Some sp.

(** [while(ep > start && strchr(cset, *ep)) ep--]. *)
Fixpoint trim_right (fuel : nat) (buf cset : list Z) (ep start : Z) : option Z :=
  if start <? ep then
    c ← mget buf ep;
    if strchr cset c then
      match fuel with O => None | S fuel => trim_right fuel buf cset (ep - 1) start end
    else Some ep
  else Some ep.

Definition sdstrim (s : sdshdr) (cset : list Z) : option sdshdr :=
  let end_ := sdslen s - 1 in
  sp ← trim_left (length (sh_buf s)) (sh_buf s) cset 0 end_;
  ep ← trim_right (length (sh_buf s)) (sh_buf s) cset end_ 0;
  let len := if ep <? sp then 0 else ep - sp + 1 in
  buf ← (if sp =? 0 then Some (sh_buf s) else mmove (sh_buf s) 0 sp len);
  buf ← mset buf len 0;
  Some (Sdshdr (i32 len) (i32 (sh_free s + i32 (sh_len s - len))) buf).

Definition sdsrange (s : sdshdr) (start end_ : Z) : option sdshdr :=
  let len := sdslen s in
  if len =? 0 then Some s
  else
    let start := if start <? 0 then
                   let start := i32 (i32 len + start) in if start <? 0 then 0 else start
                 else start in
    let end_ := if end_ <? 0 then
                  let end_ := i32 (i32 len + end_) in if end_ <? 0 then 0 else end_
                else end_ in
    let newlen := if end_ <? start then 0 else u64 (i32 (end_ - start + 1)) in
    let '(start, newlen) :=
      if negb (newlen =? 0) then
        if i32 len <=? start then (start, 0)
        else if i32 len <=? end_ then
          let end_ := i32 len - 1 in
          (start, if end_ <? start then 0 else u64 (i32 (end_ - start + 1)))
        else (start, newlen)
      else (0, newlen) in
    buf ← (if negb (start =? 0) && negb (newlen =? 0) then mmove (sh_buf s) 0 start newlen
           else Some (sh_buf s));
    buf ← mset buf newlen 0;
    Some (Sdshdr (i32 newlen) (i32 (sh_free s + (sh_len s - newlen))) buf).

(** [for (j = 0; j < len; j++) s[j] = f(s[j])]. *)
Fixpoint map_bytes (fuel : nat) (f : Z → Z) (m : list Z) (j len : Z) : option (list Z) :=
  if j <? len then
    match fuel with
    | O => None
    | S fuel => c ← mget m j; m ← mset m j (f c); map_bytes fuel f m (j + 1) len
    end
  else Some m.

Definition sdstolower (s : sdshdr) : option sdshdr :=
  let len := i32 (sdslen s) in
  buf ← map_bytes (Z.to_nat len) tolower (sh_buf s) 0 len;
  Some (Sdshdr (sh_len s) (sh_free s) buf).
Definition sdstoupper (s : sdshdr) : option sdshdr :=
  let len := i32 (sdslen s) in
  buf ← map_bytes (Z.to_nat len) toupper (sh_buf s) 0 len;
  Some (Sdshdr (sh_len s) (sh_free s) buf).

(** The inner loop of sdsmapchars: the first match in [from] decides. *)
Fixpoint mapchar (from to : list Z) (c : Z) : Z :=
  match from, to with
  | x :: from, y :: to => if c =? x then y else mapchar from to c
  | _, _ => c
  end.

(** [from] and [to] have [setlen] characters. *)
Definition sdsmapchars (s : sdshdr) (from to : list Z) : option sdshdr :=
  let l := sdslen s in
  buf ← map_bytes (Z.to_nat l) (mapchar from to) (sh_buf s) 0 l;
  Some (Sdshdr (sh_len s) (sh_free s) buf).

Definition sdscmp (s1 s2 : sdshdr) : option Z :=
  let l1 := sdslen s1 in
  let l2 := sdslen s2 in
  let minlen := if l1 <? l2 then l1 else l2 in
  a ← mload (sh_buf s1) 0 minlen;
  b ← mload (sh_buf s2) 0 minlen;
  let cmp := memcmp a b in
  Some (if cmp =? 0 then i32 (l1 - l2) else cmp).

(** ** Splitting and joining *)

(** Storing a token in the array of [slots] pointers. *)
Definition push_token (tokens : list sdshdr) (slots : Z) (t : sdshdr) : option (list sdshdr) :=
  if Z.of_nat (length tokens) <? slots then Some (tokens ++ [t]) else None.

Fixpoint split_loop (fuel : nat) (s : list Z) (len : Z) (sep : list Z) (seplen : Z)
    (j start slots : Z) (tokens : list sdshdr) : option (list sdshdr * Z * Z) :=
  if j <? len - (seplen - 1) then
    match fuel with
    | O => None
    | S fuel =>
        let slots := if slots <? Z.of_nat (length tokens) + 2 then slots * 2 else slots in
        c ← mget s j;
        sep0 ← mget sep 0;
        eq ← (if (seplen =? 1) && (c =? sep0) then Some true
              else a ← mload s j seplen; b ← mload sep 0 seplen; Some (memcmp a b =? 0));
        if (eq : bool) then
          t ← sdsnewlen (Some (drop (Z.to_nat start) s)) (j - start);
          tokens ← push_token tokens slots t;
          split_loop fuel s len sep seplen (j + seplen) (j + seplen) slots tokens
        else split_loop fuel s len sep seplen (j + 1) start slots tokens
    end
  else Some (tokens, start, slots).

(** NULL is [Some None]. *)
Definition sdssplitlen (s : list Z) (len : Z) (sep : list Z) (seplen : Z)
    : option (option (list sdshdr)) :=
  if (seplen <? 1) || (len <? 0) then Some None
  else if len =? 0 then Some (Some [])
  else
    '(tokens, start, slots) ← split_loop (Z.to_nat len) s len sep seplen 0 0 5 [];
    t ← sdsnewlen (Some (drop (Z.to_nat start) s)) (len - start);
    tokens ← push_token tokens slots t;
    Some (Some tokens).

(** [argv] and [sep] are blocks with a terminator. *)
Fixpoint join_loop (join : sdshdr) (argv : list (list Z)) (sep : list Z) : option sdshdr :=
  match argv with
  | [] => Some join
  | [a] => sdscat join a
  | a :: argv => join ← sdscat join a; join ← sdscat join sep; join_loop join argv sep
  end.
Definition sdsjoin (argv : list (list Z)) (sep : list Z) : option sdshdr :=
  join ← sdsempty; join_loop join argv sep.

(** ** Quoting *)

(** The digits of [%02x]. *)
Definition hex_char (d : Z) : Z := if d <? 10 then ch_0 + d else ch_a + (d - 10).

(** What the switch of sdscatrepr appends for a byte.  The sdscatprintf calls
    append what the format prints: it has no terminator inside. *)
Definition repr_char (s : sdshdr) (c : Z) : option sdshdr :=
  if (c =? ch_backslash) || (c =? ch_quote) then sdscat s [ch_backslash; c; ch_nul]
  else if c =? 10 then sdscatlen s [ch_backslash; ch_n] 2
  else if c =? 13 then sdscatlen s [ch_backslash; ch_r] 2
  else if c =? 9 then sdscatlen s [ch_backslash; ch_t] 2
  else if c =? 7 then sdscatlen s [ch_backslash; ch_a] 2
  else if c =? 8 then sdscatlen s [ch_backslash; ch_b] 2
  else if isprint c then sdscat s [c; ch_nul]
  else sdscat s [ch_backslash; ch_x; hex_char (c / 16); hex_char (c mod 16); ch_nul].

Fixpoint repr_loop (s : sdshdr) (p : list Z) : option sdshdr :=
  match p with
  | [] => Some s
  | c :: p => s ← repr_char s c; repr_loop s p
  end.

(** [p] is the [len] bytes to quote. *)
Definition sdscatrepr (s : sdshdr) (p : list Z) : option sdshdr :=
  s ← sdscatlen s [ch_quote] 1;
  s ← repr_loop s p;
  sdscatlen s [ch_quote] 1.

Definition is_hex_digit (c : Z) : bool :=
  ((48 <=? c) && (c <=? 57)) || ((97 <=? c) && (c <=? 102)) || ((65 <=? c) && (c <=? 70)).
Definition hex_digit_to_int (c : Z) : Z :=
  if (48 <=? c) && (c <=? 57) then c - 48
  else if (97 <=? c) && (c <=? 102) then c - 87
  else if (65 <=? c) && (c <=? 70) then c - 55
  else 0.

(** The character that an escape in double quotes stands for. *)
Definition unescape (c : Z) : Z :=
  if c =? ch_n then 10 else if c =? ch_r then 13 else if c =? ch_t then 9
  else if c =? ch_b then 8 else if c =? ch_a then 7 else c.

(** A closing quote must be followed by a space or nothing at all. *)
Definition quote_ok (p : list Z) : bool :=
  match p with [] => true | c :: _ => isspace c end.

(** [while(!done)]: a line is the list of its characters, which its terminator
    follows.  The result is the rest of the line and the token; the inner
    [None] is [goto err]. *)
Fixpoint get_token (fuel : nat) (p : list Z) (inq insq : bool) (current : sdshdr)
    : option (option (list Z * sdshdr)) :=
  match fuel with
  | O => None
  | S fuel =>
      let append c p' inq insq := current ← sdscatlen current [c] 1;
                                  get_token fuel p' inq insq current in
      if inq then
        match p with
        | [] => Some None
        | c :: p' =>
            if (c =? ch_backslash) && (match p' with
                 | x :: h1 :: h2 :: _ => (x =? ch_x) && is_hex_digit h1 && is_hex_digit h2
                 | _ => false end)
            then match p' with
                 | _ :: h1 :: h2 :: p'' =>
                     append (u8 (hex_digit_to_int h1 * 16 + hex_digit_to_int h2)) p'' inq insq
                 | _ => None
                 end
            else match p' with
                 | e :: p'' =>
                     if c =? ch_backslash then append (unescape e) p'' inq insq
                     else if c =? ch_quote then
                       if quote_ok p' then Some (Some (p', current)) else Some None
                     else append c p' inq insq
                 | [] =>
                     if c =? ch_quote then Some (Some ([], current)) else append c [] inq insq
                 end
        end
      else if insq then
        match p with
        | [] => Some None
        | c :: p' =>
            match p' with
            | e :: p'' =>
                if (c =? ch_backslash) && (e =? ch_squote) then append ch_squote p'' inq insq
                else if c =? ch_squote then
                  if quote_ok p' then Some (Some (p', current)) else Some None
                else append c p' inq insq
            | [] =>
                if c =? ch_squote then Some (Some ([], current)) else append c [] inq insq
            end
        end
      else
        match p with
        | [] => Some (Some ([], current))
        | c :: p' =>
            if (c =? ch_space) || (c =? 10) || (c =? 13) || (c =? 9) then Some (Some (p', current))
            else if c =? ch_quote then get_token fuel p' true insq current
            else if c =? ch_squote then get_token fuel p' inq true current
            else append c p' inq insq
        end
  end.

(** [while( *p && isspace( *p)) p++]. *)
Fixpoint skip_blanks (p : list Z) : list Z :=
  match p with c :: p' => if isspace c then skip_blanks p' else p | [] => [] end.

(** [while(1)]: NULL is [Some None]. *)
Fixpoint splitargs_loop (fuel : nat) (p : list Z) (vector : list sdshdr)
    : option (option (list sdshdr)) :=
  match fuel with
  | O => None
  | S fuel =>
      match skip_blanks p with
      | [] => Some (Some vector)
      | p =>
          current ← sdsempty;
          r ← get_token (S (length p)) p false false current;
          match r with
          | None => Some None
          | Some (p, current) => splitargs_loop fuel p (vector ++ [current])
          end
      end
  end.

Definition sdssplitargs (line : list Z) : option (option (list sdshdr)) :=
  splitargs_loop (S (length line)) line [].

(** ** The contents of a string *)

(** The buffer holds the contents, the byte behind them and the free space; in
    a string that is not being written to, this byte is the terminator. *)
Definition repx (x : Z) (s : sdshdr) (c : list Z) : Prop :=
  ∃ tl, sh_buf s = c ++ x :: tl ∧ sh_len s = blen c ∧ sh_free s = blen tl ∧
    blen c + blen tl < INT32_MAX.
Definition rep : sdshdr → list Z → Prop := repx 0.

(** The contents, as a function. *)
Definition sds_text (s : sdshdr) : list Z := take (Z.to_nat (sh_len s)) (sh_buf s).

Lemma sds_text_rep s c : rep s c → sds_text s = c.
Proof.
  intros (tl & Hb & Hl & _). unfold sds_text. by rewrite Hb, Hl, to_nat_blen, take_app_length.
Qed.

(** The lengths that the development of a string may reach. *)
Definition max_len : Z := 2 ^ 30.

Lemma mstore_prefix c m b :
  blen b ≤ blen m → mstore (c ++ m) (blen c) b = Some (c ++ b ++ drop (length b) m).
Proof.
  intros Hl. rewrite <-(take_drop (length b) m) at 1.
  rewrite (mstore_app c (take (length b) m) (drop (length b) m)); [done|done|].
  rewrite length_take. unfold blen in Hl. lia.
Qed.

Lemma mstore_0 m b : blen b ≤ blen m → mstore m 0 b = Some (b ++ drop (length b) m).
Proof. apply (mstore_prefix []). Qed.

Lemma repx_bounds x s c : repx x s c → 0 ≤ blen c < 2 ^ 31 - 1 ∧ sdslen s = blen c ∧
  0 ≤ sh_free s < 2 ^ 31 - 1 ∧ sdsavail s = sh_free s ∧ sh_len s = blen c.
Proof.
  intros (tl & _ & Hl & Hf & Hb). unfold sdslen, sdsavail. rewrite Hl, Hf.
  pose proof (blen_nonneg c). pose proof (blen_nonneg tl). unlimit.
  rewrite !wrapu_small by lia. lia.
Qed.

Lemma sdsMakeRoomFor_repx x s c n :
  repx x s c → 0 ≤ n → blen c + n ≤ max_len →
  let s' := sdsMakeRoomFor s n in
  repx x s' c ∧ n ≤ sh_free s' ∧ (n ≤ sh_free s → s' = s) ∧
  (sh_free s < n → sh_free s' = n + Z.min (blen c + n) SDS_MAX_PREALLOC ∨
                   sh_free s' = n + SDS_MAX_PREALLOC).
Proof.
  intros R Hn Hm. pose proof (repx_bounds x s c R) as (Hc & El & Hfr & Ef & _).
  destruct R as (tl & Hb & Hl & Hf & Hlt). unfold sdsMakeRoomFor. rewrite El, Ef.
  unfold max_len, SDS_MAX_PREALLOC in *. change (2 ^ 31) with 2147483648 in *.
  change (2 ^ 30) with 1073741824 in *.
  destruct (Z.leb_spec n (sh_free s)); simpl.
  { split; [by exists tl|split; [done|split; [done|lia]]]. }
  rewrite (wrapu_small 64 (blen c + n)) by (unlimit; lia).
  assert (∀ m, blen c + n ≤ m → m < 2147483647 → wraps 32 (m - blen c) = m - blen c ∧
    repx x (Sdshdr (sh_len s) (i32 (m - blen c)) (mresize junk (sh_buf s) (m + 1))) c) as Hrep.
  { intros m Hm1 Hm2. rewrite wraps_small by (unlimit; lia). split; [done|].
    destruct (mresize_grow junk (sh_buf s) (m + 1)) as (t2 & E & Ht2).
    { rewrite Hb, blen_app, blen_cons. lia. }
    rewrite Hb, blen_app, blen_cons in Ht2.
    exists (tl ++ t2). simpl. rewrite E, Hb, <-(assoc_L (++)), blen_app. unlimit.
    split; [done|]. split; [done|split; lia]. }
  destruct (Z.ltb_spec (blen c + n) (1024 * 1024)); rewrite wrapu_small by (unlimit; lia).
  - destruct (Hrep ((blen c + n) * 2)) as [E HR]; [lia..|]. rewrite E in HR |- *.
    split; [done|split; [lia|split; [lia|]]]. left. lia.
  - destruct (Hrep (blen c + n + 1024 * 1024)) as [E HR]; [lia..|]. rewrite E in HR |- *.
    split; [done|split; [lia|split; [lia|]]]. right. lia.
Qed.

Lemma rep_bounds s c : rep s c → 0 ≤ blen c < 2 ^ 31 - 1 ∧ sdslen s = blen c ∧
  0 ≤ sh_free s < 2 ^ 31 - 1 ∧ sdsavail s = sh_free s ∧ sh_len s = blen c.
Proof. apply repx_bounds. Qed.

Lemma sdsMakeRoomFor_spec s c n :
  rep s c → 0 ≤ n → blen c + n ≤ max_len →
  let s' := sdsMakeRoomFor s n in
  rep s' c ∧ n ≤ sh_free s' ∧ (n ≤ sh_free s → s' = s) ∧
  (sh_free s < n → sh_free s' = n + Z.min (blen c + n) SDS_MAX_PREALLOC ∨
                   sh_free s' = n + SDS_MAX_PREALLOC).
Proof. apply sdsMakeRoomFor_repx. Qed.

(** Replacing the contents by [c], when the buffer has room. *)
Lemma rewrite_contents s c c0 c' :
  rep s c → blen c0 + blen c' ≤ sh_len s + sh_free s → (∃ r, c = c0 ++ r) →
  ∃ buf, mstore (sh_buf s) (blen c0) c' = Some buf ∧
    ∃ tl, mset buf (blen c0 + blen c') 0 = Some (c0 ++ c' ++ 0 :: tl) ∧
      blen tl = sh_len s + sh_free s - blen c0 - blen c'.
Proof.
  intros (tl & Hb & Hl & Hf & Hlt) Hroom [r ->]. rewrite Hb, <-(assoc_L (++)).
  rewrite blen_app in *. rewrite mstore_prefix by (rewrite blen_app, blen_cons; lia).
  eexists; split; [done|].
  assert (blen (drop (length c') (r ++ 0 :: tl)) = blen r + 1 + blen tl - blen c') as Hd by blia.
  destruct (drop (length c') (r ++ 0 :: tl)) as [|x t]; [rewrite blen_nil in Hd; lia|].
  rewrite blen_cons in Hd. exists t. rewrite (assoc_L (++)), mset_app by (rewrite blen_app; lia).
  rewrite <-(assoc_L (++)). split; [done|lia].
Qed.

Lemma rep_intro l f c tl :
  l = blen c → f = blen tl → blen c + blen tl < INT32_MAX → rep (Sdshdr l f (c ++ 0 :: tl)) c.
Proof. intros -> -> ?. exists tl. done. Qed.

Lemma sdsnewlen_spec m c rest :
  m = Some (c ++ rest) → blen c < 2 ^ 31 - 1 →
  ∃ s, sdsnewlen m (blen c) = Some s ∧ rep s c ∧ sh_free s = 0.
Proof.
  intros -> Hl. unfold sdsnewlen. pose proof (blen_nonneg c).
  assert (length (mresize junk [] (blen c + 1)) = S (length c)) as Hlen
    by (rewrite mresize_length; unfold blen; lia).
  assert (∃ buf, (if blen c =? 0 then Some (mresize junk [] (blen c + 1))
      else b ← mload (c ++ rest) 0 (blen c); mstore (mresize junk [] (blen c + 1)) 0 b) = Some buf ∧
    ∃ x, buf = c ++ [x]) as (buf & E & x & ->).
  { destruct (Z.eqb_spec (blen c) 0) as [Hz|Hz].
    - eexists; split; [done|]. destruct c; [|unfold blen in *; simpl in *; lia].
      destruct (mresize junk [] _) as [|x [|]]; simpl in Hlen; try lia. by exists x.
    - rewrite (mload_app [] c rest) by done. cbn [mbind option_bind].
      rewrite mstore_0 by (unfold blen in *; lia).
      eexists; split; [done|]. simpl. 
      assert (length (drop (length c) (mresize junk [] (blen c + 1))) = 1%nat) as Hd
        by (rewrite length_drop; lia).
      destruct (drop _ _) as [|x [|]]; simpl in Hd; try lia. by exists x. }
  rewrite E. cbn [mbind option_bind]. rewrite mset_app by done. cbn [mbind option_bind].
  eexists; split; [done|]. split; [|done]. rewrite wraps_small by (unlimit; lia).
  apply (rep_intro (blen c) 0 c []); [done|done|]. rewrite blen_nil. unlimit. lia.
Qed.

Lemma sdscatlen_spec s c t rest :
  rep s c → blen c + blen t ≤ max_len →
  ∃ s', sdscatlen s (t ++ rest) (blen t) = Some s' ∧ rep s' (c ++ t).
Proof.
  intros R Hm. pose proof (rep_bounds s c R) as (Hc & El & _). pose proof (blen_nonneg t).
  unfold sdscatlen. rewrite El.
  destruct (sdsMakeRoomFor_spec s c (blen t) R) as (R' & Hroom & _); [lia|done|].
  set (s1 := sdsMakeRoomFor s (blen t)) in *.
  rewrite (mload_app [] t rest) by done. cbn [mbind option_bind].
  pose proof (rep_bounds s1 c R') as (_ & _ & Hf1 & _ & Hl1).
  destruct (rewrite_contents s1 c c t R') as (buf & E & tl & E2 & Htl); [lia|exists []; by rewrite app_nil_r|].
  rewrite E. cbn [mbind option_bind]. rewrite E2. cbn [mbind option_bind].
  destruct R' as (tl1 & _ & Hl' & Hf' & Hb'). unlimit.
  eexists; split; [done|]. rewrite (assoc_L (++)). unfold max_len in Hm.
  apply rep_intro; [rewrite blen_app; apply wraps_small; unlimit; lia| |rewrite blen_app; unlimit; lia].
  rewrite wrapu_small by (unlimit; lia). rewrite wraps_small by (unlimit; lia). lia.
Qed.

Lemma sdscpylen_spec s c t rest :
  rep s c → blen t ≤ max_len →
  ∃ s', sdscpylen s (t ++ rest) (blen t) = Some s' ∧ rep s' t.
Proof.
  intros R Hm. pose proof (rep_bounds s c R) as (Hc & El & Hf & _ & Hl). pose proof (blen_nonneg t).
  unfold sdscpylen. unfold max_len in Hm. change (2 ^ 30) with 1073741824 in Hm.
  assert (∀ s, rep s c → u64 (i32 (sh_free s + sh_len s)) = sh_len s + sh_free s ∧
    blen c ≤ sh_len s + sh_free s < INT32_MAX) as Htot.
  { intros s0 (tl & _ & Hl0 & Hf0 & Hb0). pose proof (blen_nonneg c). pose proof (blen_nonneg tl).
    unlimit. rewrite wraps_small, wrapu_small by (unlimit; lia). lia. }
  set (p := if u64 (i32 (sh_free s + sh_len s)) <? blen t then _ else _).
  assert (∃ s1, p = (s1, sh_len s1 + sh_free s1) ∧ rep s1 c ∧ blen t ≤ sh_len s1 + sh_free s1)
    as (s1 & -> & R1 & Hroom).
  { subst p. destruct (Htot s R) as [-> Hb]. destruct (Z.ltb_spec (sh_len s + sh_free s) (blen t)).
    - rewrite (wrapu_small 64 (blen t - sh_len s)) by (unlimit; lia).
      destruct (sdsMakeRoomFor_spec s c (blen t - sh_len s) R) as (R1 & Hfr & _);
        [lia|unfold max_len; unlimit; lia|].
      set (s1 := sdsMakeRoomFor s (blen t - sh_len s)) in *. exists s1. cbv zeta.
      destruct (Htot s1 R1) as [-> _]. pose proof (rep_bounds s1 c R1) as (_ & _ & _ & _ & ->).
      split; [done|split; [done|lia]].
    - exists s. done. }
  rewrite (mload_app [] t rest) by done. cbn [mbind option_bind].
  destruct (rewrite_contents s1 c [] t R1) as (buf & E & tl & E2 & Htl); [by rewrite blen_nil|by exists c|].
  change (blen []) with 0 in *. rewrite E. cbn [mbind option_bind].
  rewrite Z.add_0_l in E2. rewrite E2. cbn [mbind option_bind].
  destruct (Htot s1 R1) as [_ Hb1]. unlimit.
  eexists; split; [done|]. simpl. apply rep_intro; [apply wraps_small; unlimit; lia| |unlimit; lia].
  rewrite wraps_small by (unlimit; lia). lia.
Qed.

(** *** Shrinking *)

(** Moving a range to the front and cutting there; nothing is moved when the
    range is empty or already there. *)
Lemma keep_range s c a n (b : bool) :
  rep s c → 0 ≤ a → 0 ≤ n → a + n ≤ blen c → (b = true → a = 0 ∨ n = 0) →
  ∃ tl, (buf ← (if b then Some (sh_buf s) else mmove (sh_buf s) 0 a n); mset buf n 0)
      = Some (take (Z.to_nat n) (drop (Z.to_nat a) c) ++ 0 :: tl) ∧
    blen tl = sh_len s + sh_free s - n.
Proof.
  intros (tl & Hb & Hl & Hf & Hlt) Ha Hn Hc Hbt. rewrite Hb, Hl, Hf.
  set (m := take (Z.to_nat n) (drop (Z.to_nat a) c)).
  assert (blen m = n) as Hm by (subst m; blia).
  assert (∃ r, (if b then Some (c ++ 0 :: tl) else mmove (c ++ 0 :: tl) 0 a n) = Some (m ++ r) ∧
    blen r = blen c + 1 + blen tl - n) as (r & -> & Hr).
  { destruct b.
    - exists (drop (Z.to_nat n) (c ++ 0 :: tl)). split; [|blia]. f_equal.
      rewrite <-(take_drop (Z.to_nat n) (c ++ 0 :: tl)) at 1. f_equal. subst m.
      destruct (Hbt eq_refl) as [-> | ->]; [|done]. rewrite drop_0.
      apply take_app_le. unfold blen in *. lia.
    - unfold mmove. assert (c ++ 0 :: tl = take (Z.to_nat a) c ++ m ++
        (drop (Z.to_nat n) (drop (Z.to_nat a) c) ++ 0 :: tl)) as E.
      { subst m. rewrite !(assoc_L (++)). rewrite <-(assoc_L (++) (take _ c)).
        by rewrite !take_drop. }
      assert (mload (c ++ 0 :: tl) a n = Some m) as ->
        by (rewrite E; apply mload_app; [blia|by symmetry]).
      cbn [mbind option_bind].
      rewrite mstore_0 by (rewrite blen_app, blen_cons; pose proof (blen_nonneg tl); lia).
      eexists; split; [done|]. blia. }
  cbn [mbind option_bind]. destruct r as [|x r]; [rewrite blen_nil in Hr; pose proof (blen_nonneg tl); lia|].
  rewrite blen_cons in Hr. rewrite mset_app by done. exists r. split; [done|lia].
Qed.

Lemma rep_cut s c a n tl f :
  rep s c → 0 ≤ a → 0 ≤ n → a + n ≤ blen c → blen tl = sh_len s + sh_free s - n →
  f = sh_free s + (sh_len s - n) →
  rep (Sdshdr n f (take (Z.to_nat n) (drop (Z.to_nat a) c) ++ 0 :: tl))
      (take (Z.to_nat n) (drop (Z.to_nat a) c)).
Proof.
  intros (tl0 & _ & Hl & Hf & Hlt) ? ? ? Ht ->. apply rep_intro; [blia|lia|].
  rewrite Hl, Hf in Ht. assert (blen (take (Z.to_nat n) (drop (Z.to_nat a) c)) = n) as -> by blia. lia.
Qed.

Definition trim (cset c : list Z) : list Z :=
  reverse (drop_while (strchr cset) (reverse (drop_while (strchr cset) c))).

Lemma drop_while_split p l :
  ∃ l1, l = l1 ++ drop_while p l ∧ Forall (λ x, p x = true) l1 ∧
    match drop_while p l with [] => True | x :: _ => p x = false end.
Proof.
  induction l as [|x l IH]; simpl; [by exists []|]. destruct (p x) eqn:E.
  - destruct IH as (l1 & H1 & H2 & H3). exists (x :: l1). simpl. rewrite <-H1. auto.
  - exists []. by rewrite E.
Qed.

Lemma trim_left_spec cset rest l1 : ∀ a r fuel,
  Forall (λ x, strchr cset x = true) l1 →
  match r with [] => True | x :: _ => strchr cset x = false end →
  (length l1 ≤ fuel)%nat →
  trim_left fuel (a ++ l1 ++ r ++ rest) cset (blen a) (blen a + blen l1 + blen r - 1)
    = Some (blen a + blen l1).
Proof.
  induction l1 as [|x l1 IH]; intros a r fuel Hl Hr Hf.
  - destruct r as [|y r]; destruct fuel; cbn [trim_left]; rewrite ?blen_nil, ?blen_cons.
    all: pose proof (blen_nonneg a).
    1,2: rewrite (proj2 (Z.leb_gt _ _)) by lia; f_equal; lia.
    all: pose proof (blen_nonneg r); rewrite (proj2 (Z.leb_le _ _)) by lia;
      simpl app; rewrite mget_app by done; cbn [mbind option_bind]; rewrite Hr; f_equal; lia.
  - destruct fuel as [|fuel]; [simpl in Hf; lia|]. apply Forall_cons in Hl as [Hx Hl].
    cbn [trim_left]. rewrite blen_cons. pose proof (blen_nonneg l1). pose proof (blen_nonneg r).
    rewrite (proj2 (Z.leb_le _ _)) by lia. simpl app. rewrite mget_app by done.
    cbn [mbind option_bind]. rewrite Hx.
    specialize (IH (a ++ [x]) r fuel Hl Hr). rewrite blen_app, blen_cons, blen_nil in IH.
    rewrite <-(assoc_L (++)) in IH. simpl app in IH.
    replace (blen a + (1 + blen l1) + blen r - 1) with (blen a + (1 + 0) + blen l1 + blen r - 1) by lia.
    replace (blen a + 1) with (blen a + (1 + 0)) by lia. rewrite IH by (simpl in Hf; lia).
    f_equal. lia.
Qed.

Lemma trim_right_spec cset q : ∀ rest r fuel,
  Forall (λ x, strchr cset x = true) q →
  match reverse r with [] => True | x :: _ => strchr cset x = false end →
  (length q ≤ fuel)%nat →
  trim_right fuel (r ++ q ++ rest) cset (blen r + blen q - 1) 0
    = Some (if (blen r =? 0) && (0 <? blen q) then 0 else blen r - 1).
Proof.
  induction q as [|x q IH] using rev_ind; intros rest r fuel Hq Hr Hf.
  - rewrite blen_nil, andb_false_r. destruct r as [|y r _] using rev_ind.
    { destruct fuel; done. }
    rewrite reverse_app in Hr. simpl in Hr. rewrite blen_app, blen_cons, blen_nil.
    pose proof (blen_nonneg r). destruct (Z.ltb_spec 0 (blen r)).
    + destruct fuel; cbn [trim_right]; rewrite (proj2 (Z.ltb_lt _ _)) by lia;
        rewrite <-(assoc_L (++)); simpl app; rewrite mget_app by lia; cbn [mbind option_bind];
        rewrite Hr; f_equal; lia.
    + destruct fuel; cbn [trim_right]; rewrite (proj2 (Z.ltb_ge _ _)) by lia; f_equal; lia.
  - apply Forall_app in Hq as [Hq Hx]. apply Forall_cons in Hx as [Hx _].
    rewrite length_app in Hf. simpl in Hf. destruct fuel as [|fuel]; [lia|].
    rewrite blen_app, blen_cons, blen_nil. pose proof (blen_nonneg r). pose proof (blen_nonneg q).
    cbn [trim_right]. destruct (Z.ltb_spec 0 (blen r + (blen q + (1 + 0)) - 1)).
    + rewrite <-!(assoc_L (++)). simpl app. rewrite (assoc_L (++)), mget_app by (rewrite blen_app; lia).
      cbn [mbind option_bind]. rewrite Hx. rewrite <-(assoc_L (++)).
      replace (blen r + (blen q + (1 + 0)) - 1 - 1) with (blen r + blen q - 1) by lia.
      rewrite IH by (done || lia).
      f_equal. destruct (Z.eqb_spec (blen r) 0); simpl; [|done].
      rewrite (proj2 (Z.ltb_lt 0 (blen q))), (proj2 (Z.ltb_lt 0 _)) by lia. done.
    + assert (blen r = 0) as -> by lia. simpl. rewrite (proj2 (Z.ltb_lt 0 _)) by lia. f_equal. lia.
Qed.

Lemma bool_case {A} (b : bool) (x y : A) : (if b then x else y) = if negb b then y else x.
Proof. by destruct b. Qed.

(** The contents that sdstrim keeps, as a range. *)
Lemma trim_range cset c :
  ∃ p q, c = p ++ trim cset c ++ q ∧ Forall (λ x, strchr cset x = true) p ∧
    Forall (λ x, strchr cset x = true) q ∧
    match trim cset c ++ q with [] => True | x :: _ => strchr cset x = false end ∧
    match reverse (trim cset c) with [] => True | x :: _ => strchr cset x = false end.
Proof.
  destruct (drop_while_split (strchr cset) c) as (p & Hp & Fp & Hhd).
  set (l := drop_while (strchr cset) c) in *.
  destruct (drop_while_split (strchr cset) (reverse l)) as (q & Hq & Fq & Htl).
  assert (l = trim cset c ++ reverse q) as Hl.
  { unfold trim. fold l. rewrite <-reverse_app, <-Hq. by rewrite reverse_involutive. }
  exists p, (reverse q). rewrite <-Hl. split; [done|split; [done|split; [|split; [done|]]]].
  - by apply Forall_reverse.
  - unfold trim. fold l. by rewrite reverse_involutive.
Qed.

Lemma sdstrim_spec s c cset :
  rep s c → ∃ s', sdstrim s cset = Some s' ∧ rep s' (trim cset c).
Proof.
  intros R. pose proof (rep_bounds s c R) as (Hc & El & Hf & _ & Hl).
  destruct (trim_range cset c) as (p & q & Ec & Fp & Fq & Hhd & Htl).
  set (m := trim cset c) in *. unfold sdstrim. rewrite El.
  pose proof R as (tl & Hb & _ & _ & Hlt). rewrite Hb.
  pose proof (blen_nonneg p). pose proof (blen_nonneg q). pose proof (blen_nonneg m).
  assert (blen c = blen p + blen m + blen q) as Hlen by (rewrite Ec, !blen_app; lia).
  assert (c ++ 0 :: tl = p ++ m ++ q ++ 0 :: tl) as EW by (rewrite Ec at 1; by rewrite <-!(assoc_L (++))).
  assert (length (c ++ 0%Z :: tl) = length p + (length m + (length q + S (length tl))))%nat as HF
    by (rewrite EW, !length_app; simpl; lia).
  set (F := length (c ++ 0 :: tl)) in *.
  assert (trim_left F (c ++ 0 :: tl) cset 0 (blen c - 1) = Some (blen p)) as ->.
  { pose proof (trim_left_spec cset (0 :: tl) p [] (m ++ q) F Fp Hhd ltac:(lia)) as E1.
    simpl app in E1. rewrite blen_nil, blen_app, Z.add_0_l, <-(assoc_L (++)) in E1.
    rewrite EW, Hlen, <-E1. f_equal. lia. }
  cbn [mbind option_bind].
  (* the right end: it stops inside the trimmed prefix when nothing is kept *)
  assert (∃ ep, trim_right F (c ++ 0 :: tl) cset (blen c - 1) 0 = Some ep ∧
    (if ep <? blen p then 0 else ep - blen p + 1) = blen m) as (ep & -> & Hep).
  { rewrite EW, Hlen. clearbody F m. clear - Fp Fq Hhd Htl HF. pose proof (blen_nonneg p).
    pose proof (blen_nonneg q). destruct m as [|x m].
    - exists (if (0 =? 0) && (0 <? blen (p ++ q)) then 0 else 0 - 1). split.
      + pose proof (trim_right_spec cset (p ++ q) (0 :: tl) [] F) as E2.
        simpl app in E2 |- *. rewrite blen_nil, blen_app, <-(assoc_L (++)) in E2.
        rewrite blen_nil, blen_app. replace (blen p + 0 + blen q - 1) with (0 + (blen p + blen q) - 1) by lia.
        apply E2; [by apply Forall_app_2|done|]. rewrite length_app. simpl in HF. lia.
      + rewrite blen_app, blen_nil. destruct (Z.ltb_spec 0 (blen p + blen q)); simpl.
        * destruct q as [|y q]; [|simpl in Hhd; apply Forall_cons in Fq as [? _]; congruence].
          rewrite blen_nil in *. zdec. done.
        * zdec. lia.
    - assert (1 ≤ blen (x :: m)) by (rewrite blen_cons; pose proof (blen_nonneg m); lia).
      exists (blen p + blen (x :: m) - 1). split; [|zdec; lia].
      pose proof (trim_right_spec cset q (0 :: tl) (p ++ x :: m) F Fq) as E2.
      rewrite <-(assoc_L (++)), blen_app in E2. rewrite E2; [|rewrite reverse_app|lia].
      + rewrite (proj2 (Z.eqb_neq _ 0)) by lia. done.
      + destruct (reverse (x :: m)) as [|y r] eqn:Er; [|done].
        apply (f_equal length) in Er. rewrite length_reverse in Er. done. }
  cbn [mbind option_bind]. cbv zeta. rewrite Hep, <-Hb.
  destruct (keep_range s c (blen p) (blen m) (blen p =? 0) R) as (tl' & E & Htl'); [lia..| |].
  { intros ?%Z.eqb_eq. by left. }
  destruct (if blen p =? 0 then _ else _) as [buf|]; [|done]. cbn [mbind option_bind] in E |- *.
  rewrite E. cbn [mbind option_bind]. rewrite !to_nat_blen in *.
  assert (take (length m) (drop (length p) c) = m) as Em.
  { rewrite Ec at 1. by rewrite drop_app_length, take_app_length. }
  rewrite Em. eexists; split; [done|]. unlimit.
  destruct R as (tl0 & _ & Hl0 & Hf0 & Hlt0).
  apply rep_intro; [apply wraps_small; unlimit; lia| |unlimit; lia].
  rewrite (wraps_small 32 (sh_len s - blen m)) by (unlimit; lia).
  rewrite wraps_small by (unlimit; lia). lia.
Qed.

(** The range that sdsrange keeps, with both ends clamped. *)
Definition range (c : list Z) (start end_ : Z) : list Z :=
  let clamp i := if i <? 0 then Z.max 0 (blen c + i) else i in
  let a := clamp start in
  let e := Z.min (clamp end_) (blen c - 1) in
  take (Z.to_nat (e - a + 1)) (drop (Z.to_nat a) c).

Lemma sdsrange_spec s c start end_ :
  rep s c → - 2 ^ 31 ≤ start < 2 ^ 31 → - 2 ^ 31 ≤ end_ < 2 ^ 31 →
  ∃ s', sdsrange s start end_ = Some s' ∧ rep s' (range c start end_).
Proof.
  intros R Hs He. pose proof (rep_bounds s c R) as (Hc & El & Hf & _ & Hl).
  unfold sdsrange, range. rewrite El. destruct (Z.eqb_spec (blen c) 0) as [Hz|Hz].
  { exists s. split; [done|]. destruct c; [|unfold blen in Hz; simpl in Hz; lia].
    by rewrite drop_nil, take_nil. }
  rewrite (wraps_small 32 (blen c)) by (unlimit; lia).
  assert (∀ i, - 2 ^ 31 ≤ i < 2 ^ 31 →
    (if i <? 0 then let j := i32 (blen c + i) in if j <? 0 then 0 else j else i)
    = if i <? 0 then Z.max 0 (blen c + i) else i) as Hcl.
  { intros i Hi. destruct (Z.ltb_spec i 0); [|done]. rewrite wraps_small by (unlimit; lia).
    cbv zeta. destruct (Z.ltb_spec (blen c + i) 0); lia. }
  rewrite !Hcl by done. clear Hcl.
  set (a := if start <? 0 then Z.max 0 (blen c + start) else start).
  set (e := if end_ <? 0 then Z.max 0 (blen c + end_) else end_).
  assert (0 ≤ a < 2 ^ 31) as Ha by (subst a; destruct (Z.ltb_spec start 0); lia).
  assert (0 ≤ e < 2 ^ 31) as Hee by (subst e; destruct (Z.ltb_spec end_ 0); lia).
  set (n := Z.max 0 (Z.min e (blen c - 1) - a + 1)).
  set (pr := if negb _ then _ else _).
  assert (∃ a', pr = (a', n) ∧ (n ≠ 0 → a' = a) ∧ 0 ≤ a') as (a' & -> & Ha' & Ha0).
  { subst pr n. destruct (Z.ltb_spec e a); simpl; [exists 0; split; [f_equal; lia|lia]|].
    destruct (decide (a = 0 ∧ e = 2 ^ 31 - 1)) as [[-> He1]|Hne].
    - rewrite He1. replace (u64 (i32 (2 ^ 31 - 1 - 0 + 1))) with (2 ^ 64 - 2 ^ 31) by reflexivity.
      simpl. rewrite (proj2 (Z.leb_gt _ _)), (proj2 (Z.leb_le _ _)) by lia.
      rewrite (proj2 (Z.ltb_ge _ _)) by lia. exists 0.
      rewrite wraps_small, wrapu_small by (unlimit; lia). split; [f_equal; lia|lia].
    - rewrite (wraps_small 32 (e - a + 1)), (wrapu_small 64 (e - a + 1)) by (unlimit; lia).
      rewrite (proj2 (Z.eqb_neq _ _)) by lia. simpl.
      destruct (Z.leb_spec (blen c) a); [exists a; split; [f_equal; lia|lia]|].
      destruct (Z.leb_spec (blen c) e); [|exists a; split; [f_equal; lia|lia]].
      rewrite (proj2 (Z.ltb_ge _ _)) by lia. exists a.
      rewrite wraps_small, wrapu_small by (unlimit; lia). split; [f_equal; lia|lia]. }
  rewrite bool_case.
  destruct (keep_range s c (if n =? 0 then 0 else a') n (negb (negb (a' =? 0) && negb (n =? 0))) R)
    as (tl' & E & Htl'); [destruct (n =? 0); lia|subst n; lia| | |].
  { destruct (Z.eqb_spec n 0); [lia|]. rewrite Ha' by done. subst n. lia. }
  { destruct (Z.eqb_spec a' 0), (Z.eqb_spec n 0); simpl; intros; auto; lia || by left. }
  rewrite bool_case in E |- *. rewrite negb_involutive in E |- *.
  assert ((if negb (a' =? 0) && negb (n =? 0) then mmove (sh_buf s) 0 a' n else Some (sh_buf s))
    = if negb (a' =? 0) && negb (n =? 0) then mmove (sh_buf s) 0 (if n =? 0 then 0 else a') n
      else Some (sh_buf s)) as -> by (destruct (n =? 0); [by rewrite andb_false_r|done]).
  destruct (if negb (a' =? 0) && negb (n =? 0) then _ else _) as [buf|]; [|done].
  cbn [mbind option_bind] in E |- *. rewrite E. cbn [mbind option_bind].
  eexists; split; [done|].
  assert (take (Z.to_nat (Z.min e (blen c - 1) - a + 1)) (drop (Z.to_nat a) c) =
    take (Z.to_nat n) (drop (Z.to_nat (if n =? 0 then 0 else a')) c)) as ->.
  { destruct (Z.eqb_spec n 0) as [Hn|Hn].
    - rewrite Hn. replace (Z.to_nat (Z.min e (blen c - 1) - a + 1)) with 0%nat by lia. by rewrite !take_0.
    - rewrite Ha' by done. do 2 f_equal. lia. }
  assert (0 ≤ n ≤ blen c) by (subst n; lia).
  destruct R as (tl0 & Hb0 & Hl0 & Hf0 & Hlt0). unlimit.
  rewrite !wraps_small by (unlimit; lia).
  apply (rep_cut s c); [exists tl0; unlimit; done| | | | |lia].
  - destruct (n =? 0); lia.
  - lia.
  - destruct (Z.eqb_spec n 0); [lia|]. rewrite Ha' by done. subst n. lia.
  - lia.
Qed.

(** *** The other updates *)

Lemma sdsclear_spec s c : rep s c → ∃ s', sdsclear s = Some s' ∧ rep s' [].
Proof.
  intros R. destruct (keep_range s c 0 0 true R) as (tl & E & Htl); [lia..|pose proof (blen_nonneg c); lia|auto|].
  cbn [mbind option_bind] in E. unfold sdsclear. rewrite E. cbn [mbind option_bind].
  eexists; split; [done|]. destruct R as (tl0 & _ & Hl & Hf & Hlt).
  pose proof (blen_nonneg c). pose proof (blen_nonneg tl0). unlimit.
  rewrite wraps_small by (unlimit; lia). simpl. apply (rep_intro 0 _ [] tl); [done|lia|].
  rewrite blen_nil. unlimit. lia.
Qed.

Lemma sdsRemoveFreeSpace_spec s c :
  rep s c → rep (sdsRemoveFreeSpace s) c ∧ sh_free (sdsRemoveFreeSpace s) = 0 ∧
    blen (sh_buf (sdsRemoveFreeSpace s)) = blen c + 1.
Proof.
  intros (tl & Hb & Hl & Hf & Hlt). unfold sdsRemoveFreeSpace. simpl. rewrite Hb, Hl.
  rewrite cons_middle, (assoc_L (++)). rewrite mresize_shrink by blia.
  pose proof (blen_nonneg tl). split; [|split; [done|blia]].
  exists []. simpl. rewrite blen_nil. split; [done|split; [done|split; [done|lia]]].
Qed.

Lemma sdsgrowzero_spec s c len :
  rep s c → 0 ≤ len ≤ max_len →
  ∃ s', sdsgrowzero s len = Some s' ∧
    rep s' (c ++ replicate (Z.to_nat (len - blen c)) 0).
Proof.
  intros R Hlen. pose proof (rep_bounds s c R) as (Hc & El & Hf & _ & Hl).
  unfold sdsgrowzero. rewrite El. destruct (Z.leb_spec len (blen c)).
  { exists s. split; [done|]. replace (Z.to_nat (len - blen c)) with 0%nat by lia. by rewrite app_nil_r. }
  unfold max_len in Hlen. rewrite (wrapu_small 64 (len - blen c)) by (unlimit; lia).
  destruct (sdsMakeRoomFor_spec s c (len - blen c) R) as (R1 & Hroom & _); [lia|unfold max_len; lia|].
  set (s1 := sdsMakeRoomFor s (len - blen c)) in *. cbv zeta.
  pose proof (rep_bounds s1 c R1) as (_ & _ & _ & _ & Hl1).
  destruct R1 as (tl & Hb & _ & Hf1 & Hlt). rewrite Hb.
  set (k := Z.to_nat (len - blen c)).
  replace (Z.to_nat (len - blen c + 1)) with (S k) by lia.
  rewrite Hf1 in Hroom. assert (blen (replicate (S k) 0) = len - blen c + 1) as Hz
    by (subst k; unfold blen in *; rewrite length_replicate; lia).
  rewrite mstore_prefix by (rewrite blen_cons; lia).
  cbn [mbind option_bind]. rewrite length_replicate.
  replace (replicate (S k) 0) with (replicate k 0 ++ [0]) by (by rewrite replicate_S_end).
  rewrite <-(assoc_L (++)), (assoc_L (++)). simpl app.
  eexists; split; [done|]. unlimit. rewrite Hl1, Hf1.
  rewrite (wraps_small 32 (blen c + blen tl)), wrapu_small by (unlimit; pose proof (blen_nonneg tl); lia).
  rewrite (wraps_small 32 len) by (unlimit; lia). rewrite wraps_small by (unlimit; lia).
  apply rep_intro; unlimit; unfold blen in *; rewrite ?length_app, ?length_replicate, ?length_drop; lia.
Qed.

Lemma map_bytes_spec f tl c : ∀ a fuel, (length c ≤ fuel)%nat →
  map_bytes fuel f (a ++ c ++ tl) (blen a) (blen a + blen c) = Some (a ++ (f <$> c) ++ tl).
Proof.
  induction c as [|x c IH]; intros a fuel Hf.
  - destruct fuel; cbn [map_bytes]; rewrite blen_nil, (proj2 (Z.ltb_ge _ _)) by lia; done.
  - destruct fuel as [|fuel]; [simpl in Hf; lia|]. cbn [map_bytes].
    rewrite blen_cons, (proj2 (Z.ltb_lt _ _)) by (pose proof (blen_nonneg c); lia).
    assert ((f <$> x :: c) ++ tl = f x :: (f <$> c) ++ tl) as -> by done.
    simpl app. rewrite mget_app by done. cbn [mbind option_bind]. rewrite mset_app by done.
    cbn [mbind option_bind]. specialize (IH (a ++ [f x]) fuel ltac:(simpl in Hf; lia)).
    rewrite blen_app, blen_cons, blen_nil, <-!(assoc_L (++)) in IH. simpl app in IH.
    rewrite <-IH. f_equal; lia.
Qed.

Lemma map_string s c f n :
  rep s c → n = blen c →
  ∃ buf, map_bytes (Z.to_nat n) f (sh_buf s) 0 n = Some buf ∧
    rep (Sdshdr (sh_len s) (sh_free s) buf) (f <$> c).
Proof.
  intros (tl & Hb & Hl & Hf & Hlt) ->. rewrite Hb, to_nat_blen.
  pose proof (map_bytes_spec f (0 :: tl) c [] (length c) ltac:(lia)) as E. simpl app in E.
  rewrite blen_nil, Z.add_0_l in E. rewrite E. eexists; split; [done|]. exists tl. simpl.
  assert (blen (f <$> c) = blen c) as -> by (unfold blen; by rewrite length_fmap). done.
Qed.

(** The contents after an operation. *)
Inductive sds_op :=
  | OCat (t : list Z)
  | OCpy (t : list Z)
  | OGrowZero (len : Z)
  | OTrim (cset : list Z)
  | ORange (start end_ : Z)
  | OClear
  | OToLower
  | OToUpper
  | OMapChars (from to : list Z)
  | OMakeRoom (addlen : Z)
  | ORemoveFree.

Definition run_sds (s : sdshdr) (op : sds_op) : option sdshdr :=
  match op with
  | OCat t => sdscatlen s t (blen t)
  | OCpy t => sdscpylen s t (blen t)
  | OGrowZero len => sdsgrowzero s len
  | OTrim cset => sdstrim s cset
  | ORange start end_ => sdsrange s start end_
  | OClear => sdsclear s
  | OToLower => sdstolower s
  | OToUpper => sdstoupper s
  | OMapChars from to => sdsmapchars s from to
  | OMakeRoom addlen => Some (sdsMakeRoomFor s addlen)
  | ORemoveFree => Some (sdsRemoveFreeSpace s)
  end.

Definition spec_sds (c : list Z) (op : sds_op) : list Z :=
  match op with
  | OCat t => c ++ t
  | OCpy t => t
  | OGrowZero len => c ++ replicate (Z.to_nat (len - blen c)) 0
  | OTrim cset => trim cset c
  | ORange start end_ => range c start end_
  | OClear => []
  | OToLower => tolower <$> c
  | OToUpper => toupper <$> c
  | OMapChars from to => mapchar from to <$> c
  | OMakeRoom _ | ORemoveFree => c
  end.

Definition op_ok (c : list Z) (op : sds_op) : Prop :=
  match op with
  | OCat t => blen c + blen t ≤ max_len
  | OCpy t => blen t ≤ max_len
  | OGrowZero len => 0 ≤ len ≤ max_len
  | OMakeRoom addlen => 0 ≤ addlen ∧ blen c + addlen ≤ max_len
  | ORange start end_ => - 2 ^ 31 ≤ start < 2 ^ 31 ∧ - 2 ^ 31 ≤ end_ < 2 ^ 31
  | _ => True
  end.

(** C36. Every operation on a dynamic string stays within its buffer, keeps the
    header consistent with it (length, free space and a terminator behind the
    contents) and gives the contents that the operation on byte lists gives:
    appending, replacing, growing with zeros, trimming at both ends, keeping a
    range with negative indices counted from the end, mapping characters, and
    reallocations that change nothing.  (Trimming removes the characters of the set
    and NUL bytes at both ends: strchr finds the terminator of the set too, against
    the comment of sdstrim.)  The resulting length is at most [max_len] and the
    indices of a range fit in an int. *)
Theorem sds_update_refines s c op :
  rep s c → op_ok c op → ∃ s', run_sds s op = Some s' ∧ rep s' (spec_sds c op).
Proof.
  intros R Hop. pose proof (rep_bounds s c R) as (Hc & El & _).
  assert (i32 (sdslen s) = blen c) as Ei by (rewrite El; apply wraps_small; unlimit; lia).
  destruct op as [t|t|len|cset|start end_| | | |from to|addlen|]; simpl in *.
  - pose proof (sdscatlen_spec s c t [] R Hop) as E. by rewrite app_nil_r in E.
  - pose proof (sdscpylen_spec s c t [] R Hop) as E. by rewrite app_nil_r in E.
  - by apply sdsgrowzero_spec.
  - by apply sdstrim_spec.
  - destruct Hop. by apply sdsrange_spec.
  - by apply sdsclear_spec with c.
  - unfold sdstolower. destruct (map_string s c tolower _ R Ei) as (buf & -> & ?). eauto.
  - unfold sdstoupper. destruct (map_string s c toupper _ R Ei) as (buf & -> & ?). eauto.
  - unfold sdsmapchars. destruct (map_string s c (mapchar from to) _ R El) as (buf & -> & ?). eauto.
  - destruct Hop. eexists; split; [done|]. by apply sdsMakeRoomFor_spec.
  - eexists; split; [done|]. by apply sdsRemoveFreeSpace_spec.
Qed.

(** ** Numbers *)

Lemma put_digits_app fuel : ∀ v p, put_digits fuel v p = put_digits fuel v [] ++ p.
Proof.
  induction fuel as [|fuel IH]; intros v p; [done|]. simpl.
  destruct (v / 10 =? 0); [done|]. rewrite IH, (IH _ [_]). by rewrite <-(assoc_L (++)).
Qed.

Lemma div10_bound v k : 0 ≤ v < 10 ^ Z.of_nat (S k) → 0 ≤ v / 10 < 10 ^ Z.of_nat k.
Proof. rewrite Nat2Z.inj_succ, Z.pow_succ_r by lia. intros. split; [apply Z.div_pos; lia|]. apply Z.div_lt_upper_bound; lia. Qed.

Lemma put_digits_fuel f1 : ∀ f2 v, 0 ≤ v < 10 ^ Z.of_nat (S f1) → (f1 ≤ f2)%nat →
  put_digits (S f1) v [] = put_digits (S f2) v [].
Proof.
  induction f1 as [|f1 IH]; intros f2 v Hv Hf.
  - apply div10_bound in Hv. simpl in Hv. simpl.
    assert (v / 10 = 0) as -> by lia. done.
  - destruct f2 as [|f2]; [lia|]. apply div10_bound in Hv.
    remember (S f1) as g1 eqn:E1. remember (S f2) as g2 eqn:E2. simpl.
    destruct (v / 10 =? 0); [done|]. rewrite (put_digits_app g1), (put_digits_app g2). subst.
    rewrite (IH f2); [done|done|lia].
Qed.

Lemma emit_digits_spec fuel : ∀ v a r, 0 ≤ v < 10 ^ Z.of_nat (S fuel) → (S fuel ≤ length r)%nat →
  ∃ r', emit_digits (S fuel) (a ++ r) (blen a) v =
      Some (a ++ reverse (put_digits (S fuel) v []) ++ r',
            blen a + blen (put_digits (S fuel) v [])) ∧
    blen (put_digits (S fuel) v []) + blen r' = blen r.
Proof.
  induction fuel as [|fuel IH]; intros v a r Hv Hr; (destruct r as [|x r]; [simpl in Hr; lia|]);
    apply div10_bound in Hv.
  - simpl in Hv. simpl. rewrite mset_app by done. simpl. assert (v / 10 = 0) as -> by lia. simpl.
    exists r. split; [done|]. rewrite !blen_cons, blen_nil. lia.
  - remember (S fuel) as g eqn:Eg. cbn [emit_digits put_digits]. rewrite mset_app by done.
    cbn [mbind option_bind]. destruct (Z.eqb_spec (v / 10) 0).
    + exists r. split; [done|]. rewrite !blen_cons, blen_nil. lia.
    + destruct (IH (v / 10) (a ++ [ch_0 + v mod 10]) r Hv) as (r' & E & Hl); [simpl in Hr; lia|].
      rewrite blen_app, blen_cons, blen_nil, <-(assoc_L (++)) in E. simpl app in E.
      rewrite Z.add_0_r in E. rewrite E. exists r'.
      rewrite (put_digits_app g _ [_]), reverse_app, blen_app, !blen_cons, blen_nil.
      rewrite <-!(assoc_L (++)). simpl app. split; [f_equal; f_equal; lia|lia].
Qed.

Lemma reverse_loop_spec fuel : ∀ mid a b, (length mid ≤ fuel)%nat →
  reverse_loop fuel (a ++ mid ++ b) (blen a) (blen a + blen mid - 1) = Some (a ++ reverse mid ++ b).
Proof.
  induction fuel as [|fuel IH]; intros mid a b Hf.
  { destruct mid; [|simpl in Hf; lia]. cbn [reverse_loop]. rewrite blen_nil, (proj2 (Z.ltb_ge _ _)) by lia. done. }
  cbn [reverse_loop]. destruct mid as [|x mid].
  { rewrite blen_nil, (proj2 (Z.ltb_ge _ _)) by lia. done. }
  destruct mid as [|y mid _] using rev_ind.
  { rewrite blen_cons, (proj2 (Z.ltb_ge _ _)) by (rewrite blen_nil; lia). done. }
  rewrite blen_cons, blen_app, blen_cons, blen_nil. pose proof (blen_nonneg mid).
  rewrite (proj2 (Z.ltb_lt _ _)) by lia. simpl app.
  rewrite (mget_app a x _ (blen a)) by done. cbn [mbind option_bind].
  rewrite <-(assoc_L (++)). simpl app.
  assert (∀ z, a ++ z :: mid ++ y :: b = (a ++ z :: mid) ++ y :: b) as Ea
    by (intros; by rewrite <-(assoc_L (++))).
  rewrite (Ea x), mget_app by (rewrite blen_app, blen_cons; lia). cbn [mbind option_bind].
  rewrite <-(Ea x), mset_app by done. cbn [mbind option_bind].
  rewrite (Ea y), mset_app by (rewrite blen_app, blen_cons; lia). cbn [mbind option_bind].
  specialize (IH mid (a ++ [y]) (x :: b)). rewrite blen_app, blen_cons, blen_nil in IH.
  rewrite <-!(assoc_L (++)) in IH. simpl app in IH. rewrite <-(assoc_L (++)). simpl app.
  replace (blen a + (1 + (blen mid + (1 + 0))) - 1 - 1) with (blen a + (1 + 0) + blen mid - 1) by lia.
  replace (blen a + 1) with (blen a + (1 + 0)) by lia.
  rewrite IH by (simpl in Hf; rewrite length_app in Hf; simpl in Hf; lia).
  rewrite reverse_cons, reverse_app. simpl. by rewrite <-(assoc_L (++)).
Qed.

(** The loops, the sign and the terminator; [sg] is what the sign writes. *)
Lemma number_text m v (sg : list Z) :
  0 ≤ v < 2 ^ 64 → (length m = 21)%nat → blen sg + blen (put_digits 32 v []) ≤ 20 →
  (sg = [] ∨ sg = [ch_minus]) →
  ∃ m1 p m2 rest, emit_digits 20 m 0 v = Some (m1, p) ∧
    (match sg with [] => Some (m1, p) | _ => s ← mset m1 p ch_minus; Some (s, p + 1) end)
      = Some (m2, blen (sg ++ put_digits 32 v [])) ∧
    ∃ m3, mset m2 (blen (sg ++ put_digits 32 v [])) ch_nul = Some m3 ∧
      reverse_loop (length m3) m3 0 (blen (sg ++ put_digits 32 v []) - 1)
        = Some (sg ++ put_digits 32 v [] ++ ch_nul :: rest).
Proof.
  intros Hv Hm Hd Hsg. unlimit.
  destruct (emit_digits_spec 19 v [] m) as (r' & E & Hl); [change (Z.of_nat 20) with 20; lia|lia|].
  rewrite (put_digits_fuel 19 31) in E, Hl by (change (Z.of_nat 20) with 20; lia).
  set (ds := put_digits 32 v []) in *. simpl app in E. change (blen []) with 0 in E.
  rewrite Z.add_0_l in E.
  assert (∃ m2 r2, (match sg with
     | [] => Some (reverse ds ++ r', blen ds)
     | _ => s ← mset (reverse ds ++ r') (blen ds) ch_minus; Some (s, blen ds + 1) end)
    = Some (m2, blen (sg ++ ds)) ∧ m2 = reverse (sg ++ ds) ++ r2 ∧
    blen sg + blen r2 = blen r' ∧ r2 ≠ []) as (m2 & r2 & E2 & -> & Hr2 & Hne).
  { assert (blen ds = blen (reverse ds)) as Hrev by (unfold blen; by rewrite length_reverse).
    assert (blen m = 21) as Hm21 by (unfold blen; lia).
    destruct Hsg as [-> | ->].
    - eexists _, r'. split; [done|]. split; [done|]. split; [done|]. intros ->.
      rewrite blen_nil in *. lia.
    - destruct r' as [|x r']; [rewrite !blen_cons, !blen_nil in *; lia|].
      rewrite mset_app by done. simpl. eexists _, r'. split; [f_equal; f_equal; rewrite blen_cons; lia|].
      rewrite reverse_cons, <-(assoc_L (++)). rewrite !blen_cons, !blen_nil in *.
      split; [done|split; [lia|]]. intros ->. rewrite blen_nil in *. lia. }
  destruct r2 as [|x r2]; [done|].
  eexists _, _, _, r2. split; [exact E|]. split; [exact E2|].
  assert (blen (sg ++ ds) = blen (reverse (sg ++ ds))) as Hb by (unfold blen; by rewrite length_reverse).
  rewrite mset_app by done. eexists; split; [done|].
  pose proof (reverse_loop_spec (length (reverse (sg ++ ds) ++ ch_nul :: r2)) (reverse (sg ++ ds)) []
    (ch_nul :: r2)) as E3. simpl app in E3. change (blen []) with 0 in E3. rewrite Z.add_0_l in E3.
  rewrite Hb, E3, reverse_involutive, <-(assoc_L (++)); [done|]. rewrite length_app. simpl. lia.
Qed.

Lemma sdsll2str_spec m v :
  length m = 21%nat → in_i64 v →
  ∃ rest, sdsll2str m v = Some (ll_text v ++ ch_nul :: rest, blen (ll_text v)).
Proof.
  intros Hm Hv. unfold sdsll2str.
  assert ((if v <? 0 then u64 (i64 (- v)) else v) = Z.abs v) as ->.
  { destruct (Z.ltb_spec v 0); [|lia]. unfold in_i64 in Hv.
    destruct (decide (v = LLONG_MIN)) as [->|]; [reflexivity|].
    rewrite wraps_small, wrapu_small by (unlimit; lia). lia. }
  pose proof (ll_text_length v Hv) as Hl. unfold ll_text in *.
  set (sg := if v <? 0 then [ch_minus] else []).
  assert ((if v <? 0 then ch_minus :: put_digits 32 (Z.abs v) [] else put_digits 32 (Z.abs v) [])
    = sg ++ put_digits 32 (Z.abs v) []) as Et by (subst sg; by destruct (v <? 0)).
  rewrite Et in *. rewrite length_app in Hl.
  destruct (number_text m (Z.abs v) sg) as (m1 & p & m2 & rest & E1 & E2 & m3 & E3 & E4);
    [unlimit; lia|done|unfold blen; lia|subst sg; destruct (v <? 0); auto|].
  rewrite E1. cbn [mbind option_bind].
  assert ((if v <? 0 then s ← mset m1 p ch_minus; Some (s, p + 1) else Some (m1, p))
    = Some (m2, blen (sg ++ put_digits 32 (Z.abs v) []))) as ->
    by (rewrite <-E2; subst sg; by destruct (v <? 0)).
  cbn [mbind option_bind]. rewrite E3. cbn [mbind option_bind]. rewrite E4. cbn [mbind option_bind].
  exists rest. rewrite <-(assoc_L (++)). do 2 f_equal. apply wraps_small; [lia|].
  unfold blen. rewrite length_app. unlimit. lia.
Qed.

(** The decimal text of an unsigned number. *)
Definition ull_text (v : Z) : list Z := put_digits 32 v [].

Lemma sdsull2str_spec m v :
  length m = 21%nat → 0 ≤ v < 2 ^ 64 →
  ∃ rest, sdsull2str m v = Some (ull_text v ++ ch_nul :: rest, blen (ull_text v)) ∧
    blen (ull_text v) ≤ 20.
Proof.
  intros Hm Hv. assert (blen (ull_text v) ≤ 20) as Hl.
  { unfold ull_text. destruct (decide (v = 0)) as [->|]; [by vm_compute|].
    destruct (canonical_exists 20 v) as (ds & Hc & Hd & Hl); [unlimit; change (Z.of_nat 20) with 20; lia|].
    rewrite <-Hd, put_digits_canonical, app_nil_r by (done || lia). unfold blen. lia. }
  unfold sdsull2str, ull_text in *.
  destruct (number_text m v []) as (m1 & p & m2 & rest & E1 & E2 & m3 & E3 & E4);
    [done|done|rewrite blen_nil; lia|by left|].
  apply (inj Some), pair_eq in E2 as [-> ->]. rewrite app_nil_l in *. rewrite E1. cbn [mbind option_bind].
  rewrite E3. cbn [mbind option_bind]. rewrite E4. cbn [mbind option_bind].
  exists rest. split; [|done]. do 2 f_equal. apply wraps_small; [lia|].
  pose proof (blen_nonneg (put_digits 32 v [])). unlimit. lia.
Qed.

(** ** Formats *)

Lemma strlen_spec m n : strlen m = Some n →
  ∃ t rest, m = t ++ ch_nul :: rest ∧ n = blen t ∧ ch_nul ∉ t.
Proof.
  revert n. induction m as [|c m IH]; intros n; simpl; [done|].
  destruct (Z.eqb_spec c ch_nul) as [->|Hc].
  - intros [= <-]. exists [], m. split; [done|split; [done|apply not_elem_of_nil]].
  - intros (k & Hk & [= <-])%bind_Some. destruct (IH k Hk) as (t & rest & -> & -> & Hni).
    exists (c :: t), rest. rewrite blen_cons. split; [done|split; [lia|]].
    rewrite not_elem_of_cons. naive_solver.
Qed.

Lemma strlen_text t rest : ch_nul ∉ t → strlen (t ++ ch_nul :: rest) = Some (blen t).
Proof.
  induction t as [|c t IH]; intros Hni; [done|]. rewrite not_elem_of_cons in Hni.
  simpl. rewrite (proj2 (Z.eqb_neq _ _)) by naive_solver. rewrite IH by tauto. simpl.
  rewrite blen_cons. f_equal. lia.
Qed.

(** The text of a conversion and the arguments left. *)
Definition conv_text (next : Z) (args : list fmt_arg) : option (list Z * list fmt_arg) :=
  if next =? 115 then
    match args with
    | ArgStr str :: args => n ← strlen str; Some (take (Z.to_nat n) str, args)
    | _ => None
    end
  else if next =? 83 then
    match args with
    | ArgSds t :: args => Some (take (Z.to_nat (sh_len t)) (sh_buf t), args)
    | _ => None
    end
  else if next =? 105 then
    match args with ArgInt z :: args => Some (ll_text z, args) | _ => None end
  else if next =? 73 then
    match args with ArgLL z :: args => Some (ll_text z, args) | _ => None end
  else if next =? 117 then
    match args with ArgUint z :: args => Some (ull_text z, args) | _ => None end
  else if next =? 85 then
    match args with ArgULL z :: args => Some (ull_text z, args) | _ => None end
  else Some ([next], args).

Fixpoint fmt_text (f : list Z) (args : list fmt_arg) : option (list Z) :=
  match f with
  | [] => Some []
  | c :: f' =>
      if c =? ch_percent then
        match f' with
        | [] => None
        | next :: f'' => '(t, args) ← conv_text next args; ts ← fmt_text f'' args; Some (t ++ ts)
        end
      else ts ← fmt_text f' args; Some (c :: ts)
  end.

(** The arguments are what their types allow. *)
Definition arg_ok (a : fmt_arg) : Prop :=
  match a with
  | ArgStr _ => True
  | ArgSds t => ∃ c, rep t c
  | ArgInt z => - 2 ^ 31 ≤ z < 2 ^ 31
  | ArgLL z => in_i64 z
  | ArgUint z => 0 ≤ z < 2 ^ 32
  | ArgULL z => 0 ≤ z < 2 ^ 64
  end.

Lemma fmt_put_spec x s c t rest l :
  repx x s c → l = blen t → blen c + blen t ≤ max_len →
  ∃ s' y, fmt_put s (blen c) (t ++ rest) l = Some (s', blen (c ++ t)) ∧ repx y s' (c ++ t).
Proof.
  intros R -> Hm. pose proof (blen_nonneg t). pose proof (blen_nonneg c). unfold fmt_put.
  unfold max_len in Hm. rewrite wrapu_small by (unlimit; lia).
  set (s1 := if sh_free s <? blen t then _ else _).
  assert (repx x s1 c ∧ blen t ≤ sh_free s1) as [R1 Hroom].
  { subst s1. destruct (Z.ltb_spec (sh_free s) (blen t)); [|split; [done|lia]].
    destruct (sdsMakeRoomFor_repx x s c (blen t) R) as (? & ? & _); done. }
  rewrite (mload_app [] t rest) by done. cbn [mbind option_bind].
  destruct R1 as (tl & -> & Hl & Hf & Hlt). rewrite mstore_prefix by (rewrite blen_cons; lia).
  cbn [mbind option_bind].
  assert (blen (drop (length t) (x :: tl)) = 1 + blen tl - blen t) as Hd by blia.
  destruct (drop (length t) (x :: tl)) as [|y tl']; [rewrite blen_nil in Hd; lia|].
  rewrite blen_cons in Hd. unlimit. rewrite blen_app.
  rewrite (wraps_small 32 (blen c + blen t)) by (unlimit; lia).
  eexists _, y. split; [done|]. exists tl'. simpl. rewrite <-(assoc_L (++)), blen_app, Hl, Hf.
  rewrite !wraps_small by (unlimit; lia). unlimit. split; [done|split; [done|split; lia]].
Qed.

Lemma fmt_putc_spec x s c ch :
  repx x s c → 1 ≤ sh_free s →
  ∃ s' y, fmt_putc s (blen c) ch = Some (s', blen (c ++ [ch])) ∧ repx y s' (c ++ [ch]).
Proof.
  intros (tl & Hb & Hl & Hf & Hlt) Hroom. unfold fmt_putc. rewrite Hb, mset_app by done.
  cbn [mbind option_bind]. rewrite Hf in Hroom.
  destruct tl as [|y tl]; [rewrite blen_nil in Hroom; lia|]. rewrite blen_cons in *.
  pose proof (blen_nonneg c). pose proof (blen_nonneg tl). unlimit.
  rewrite Hl, Hf, !wraps_small by (unlimit; lia). rewrite blen_app, blen_cons, blen_nil.
  eexists _, y. split; [f_equal; f_equal; lia|]. exists tl. simpl.
  rewrite <-(assoc_L (++)), blen_app, blen_cons, blen_nil. unlimit.
  split; [done|split; [lia|split; lia]].
Qed.

Lemma mresize_21 : length (mresize junk [] SDS_LLSTR_SIZE) = 21%nat.
Proof. by rewrite mresize_length. Qed.

Lemma fmt_conv_spec x s c next args t args' :
  repx x s c → 1 ≤ sh_free s → Forall arg_ok args → conv_text next args = Some (t, args') →
  blen c + blen t ≤ max_len →
  Forall arg_ok args' ∧
  ∃ s' y, fmt_conv s (blen c) next args = Some (s', blen (c ++ t), args') ∧ repx y s' (c ++ t).
Proof.
  intros R Hroom Hok Ht Hm. unfold conv_text in Ht. unfold fmt_conv.
  assert (∀ z args0, in_i64 z → t = ll_text z → ∃ s' y,
    ('(buf, l) ← sdsll2str (mresize junk [] SDS_LLSTR_SIZE) z;
     '(s, i) ← fmt_put s (blen c) buf l; Some (s, i, args0 : list fmt_arg))
      = Some (s', blen (c ++ t), args0) ∧ repx y s' (c ++ t)) as Hll.
  { intros z args0 Hz ->. destruct (sdsll2str_spec _ z mresize_21 Hz) as (rest & ->).
    cbn [mbind option_bind].
    destruct (fmt_put_spec x s c (ll_text z) (ch_nul :: rest) (blen (ll_text z)) R) as (s' & y & -> & ?);
      [done|done|]. exists s', y. done. }
  assert (∀ z args0, 0 ≤ z < 2 ^ 64 → t = ull_text z → ∃ s' y,
    ('(buf, l) ← sdsull2str (mresize junk [] SDS_LLSTR_SIZE) z;
     '(s, i) ← fmt_put s (blen c) buf l; Some (s, i, args0 : list fmt_arg))
      = Some (s', blen (c ++ t), args0) ∧ repx y s' (c ++ t)) as Hull.
  { intros z args0 Hz ->. destruct (sdsull2str_spec _ z mresize_21 Hz) as (rest & -> & _).
    cbn [mbind option_bind].
    destruct (fmt_put_spec x s c (ull_text z) (ch_nul :: rest) (blen (ull_text z)) R) as (s' & y & -> & ?);
      [done|done|]. exists s', y. done. }
  unfold max_len in Hm. pose proof (blen_nonneg c) as Hc.
  destruct (Z.eqb_spec next 115).
  { destruct args as [|[str| | | | |] args]; try done. apply Forall_cons in Hok as [_ Hok].
    apply bind_Some in Ht as (n & Hn & Ht). rewrite Hn. simpl in Ht.
    apply strlen_spec in Hn as (u & rest & -> & -> & _).
    rewrite to_nat_blen, take_app_length in Ht. injection Ht as -> ->.
    split; [done|]. cbn [mbind option_bind].
    destruct (fmt_put_spec x s c t (ch_nul :: rest) (i32 (blen t)) R) as (s' & y & -> & ?);
      [apply wraps_small; pose proof (blen_nonneg t); unlimit; lia|done|]. exists s', y. done. }
  destruct (Z.eqb_spec next 83).
  { destruct args as [|[|u| | | |] args]; try done. apply Forall_cons in Hok as [[cu Ru] Hok].
    injection Ht as <- <-. pose proof (rep_bounds u cu Ru) as (Hcu & -> & _ & _ & Hlu).
    destruct Ru as (tl & Hb & _ & _ & _). rewrite Hb, Hlu, to_nat_blen, take_app_length in *.
    split; [done|].
    destruct (fmt_put_spec x s c cu (0 :: tl) (i32 (blen cu)) R) as (s' & y & -> & ?);
      [apply wraps_small; unlimit; lia|done|]. exists s', y. done. }
  destruct (Z.eqb_spec next 105) as [->|]; [|destruct (Z.eqb_spec next 73) as [->|]]; cbn [orb].
  1,2: destruct args as [|[| |z|z| |] args]; try done; injection Ht as <- <-;
    apply Forall_cons in Hok as [Hz Hok]; (split; [done|]); apply Hll; [|done];
    simpl in Hz; unlimit; lia.
  destruct (Z.eqb_spec next 117) as [->|]; [|destruct (Z.eqb_spec next 85) as [->|]]; cbn [orb].
  1,2: destruct args as [|[| | | |z|z] args]; try done; injection Ht as <- <-;
    apply Forall_cons in Hok as [Hz Hok]; (split; [done|]); apply Hull; [|done];
    simpl in Hz; unlimit; lia.
  injection Ht as <- <-. split; [done|].
  destruct (fmt_putc_spec x s c next R Hroom) as (s' & y & -> & ?). exists s', y. done.
Qed.

Lemma fmt_loop_spec n : ∀ f x s c args t, (length f ≤ n)%nat →
  repx x s c → Forall arg_ok args → fmt_text f args = Some t → blen c + blen t + 1 ≤ max_len →
  ∃ s' y, fmt_loop f s (blen c) args = Some (s', blen (c ++ t)) ∧ repx y s' (c ++ t).
Proof.
  induction n as [|n IH]; intros f x s c args t Hn R Hok Ht Hm; destruct f as [|ch f];
    simpl in Hn; try lia.
  1,2: injection Ht as <-; rewrite app_nil_r; by exists s, x.
  cbn [fmt_loop fmt_text] in *. pose proof (blen_nonneg t). pose proof (blen_nonneg c).
  set (s1 := if sh_free s =? 0 then _ else _).
  assert (repx x s1 c ∧ 1 ≤ sh_free s1) as [R1 Hroom].
  { subst s1. pose proof (repx_bounds x s c R) as (_ & _ & ? & _).
    destruct (Z.eqb_spec (sh_free s) 0); [|split; [done|lia]].
    destruct (sdsMakeRoomFor_repx x s c 1 R) as (? & ? & _); [lia|lia|done]. }
  destruct (Z.eqb_spec ch ch_percent).
  - destruct f as [|next f]; [done|]. apply bind_Some in Ht as ([t1 args1] & Hc & Ht).
    apply bind_Some in Ht as (ts & Hts & [= <-]). rewrite blen_app in Hm.
    pose proof (blen_nonneg t1). pose proof (blen_nonneg ts).
    destruct (fmt_conv_spec x s1 c next args t1 args1 R1 Hroom Hok Hc) as (Hok1 & s2 & y & -> & R2); [lia|].
    cbn [mbind option_bind].
    destruct (IH f y s2 (c ++ t1) args1 ts) as (s' & y' & -> & R'); try done; [simpl in Hn; lia|rewrite blen_app; lia|].
    rewrite (assoc_L (++)). by exists s', y'.
  - apply bind_Some in Ht as (ts & Hts & [= <-]). rewrite blen_cons in Hm.
    destruct (fmt_putc_spec x s1 c ch R1 Hroom) as (s2 & y & -> & R2). cbn [mbind option_bind].
    destruct (IH f y s2 (c ++ [ch]) args ts) as (s' & y' & -> & R'); try done;
      [lia|rewrite blen_app, blen_cons, blen_nil; lia|].
    rewrite <-(assoc_L (++)) in R' |- *. by exists s', y'.
Qed.

(** sdscatfmt appends the text of its format: %s, %S, %i, %I, %u and %U give
    the string, the signed and the unsigned decimal of their argument, "%%" and
    an unknown conversion the character itself; the room it makes while writing is
    enough, and the string ends with its terminator. *)
Theorem sdscatfmt_text s c f args t :
  rep s c → Forall arg_ok args → fmt_text f args = Some t → blen c + blen t + 1 ≤ max_len →
  ∃ s', sdscatfmt s f args = Some s' ∧ rep s' (c ++ t).
Proof.
  intros R Hok Ht Hm. unfold sdscatfmt. pose proof (rep_bounds s c R) as (Hc & -> & _).
  rewrite wraps_small by (unlimit; lia).
  destruct (fmt_loop_spec (length f) f 0 s c args t) as (s' & y & -> & R'); try done.
  cbn [mbind option_bind]. destruct R' as (tl & Hb & Hl & Hf & Hlt).
  rewrite Hb, mset_app by done. cbn [mbind option_bind]. eexists; split; [done|]. by exists tl.
Qed.

(** ** Quoting and splitting into arguments *)

Definition repr_text (c : Z) : list Z :=
  if (c =? ch_backslash) || (c =? ch_quote) then [ch_backslash; c]
  else if c =? 10 then [ch_backslash; ch_n]
  else if c =? 13 then [ch_backslash; ch_r]
  else if c =? 9 then [ch_backslash; ch_t]
  else if c =? 7 then [ch_backslash; ch_a]
  else if c =? 8 then [ch_backslash; ch_b]
  else if isprint c then [c]
  else [ch_backslash; ch_x; hex_char (c / 16); hex_char (c mod 16)].

Definition quoted (p : list Z) : list Z := ch_quote :: concat (repr_text <$> p) ++ [ch_quote].

Lemma repr_text_length c : 1 ≤ blen (repr_text c) ≤ 4.
Proof. unfold repr_text. repeat case_match; by vm_compute. Qed.

Lemma sdscat_text s c t :
  rep s c → ch_nul ∉ t → blen c + blen t ≤ max_len →
  ∃ s', sdscat s (t ++ [ch_nul]) = Some s' ∧ rep s' (c ++ t).
Proof.
  intros R Hni Hm. unfold sdscat. rewrite strlen_text by done. simpl. by apply sdscatlen_spec.
Qed.

Lemma sdscatlen_all s c t n :
  rep s c → n = blen t → blen c + blen t ≤ max_len →
  ∃ s', sdscatlen s t n = Some s' ∧ rep s' (c ++ t).
Proof.
  intros R -> Hm. pose proof (sdscatlen_spec s c t [] R Hm) as E. by rewrite app_nil_r in E.
Qed.

Lemma nibbles ch : byte_ok ch → 0 ≤ ch / 16 < 16 ∧ 0 ≤ ch mod 16 < 16 ∧ ch / 16 * 16 + ch mod 16 = ch.
Proof.
  unfold byte_ok. intros. pose proof (Z.div_mod ch 16 ltac:(lia)).
  pose proof (Z.mod_pos_bound ch 16 ltac:(lia)). lia.
Qed.

Lemma repr_char_spec s c ch :
  rep s c → byte_ok ch → blen c + 4 ≤ max_len →
  ∃ s', repr_char s ch = Some s' ∧ rep s' (c ++ repr_text ch).
Proof.
  intros R Hb Hm. pose proof (nibbles ch Hb). unfold byte_ok in Hb. unfold repr_char, repr_text.
  assert (∀ t, ch_nul ∉ t → blen t ≤ 4 → ∃ s', sdscat s (t ++ [ch_nul]) = Some s' ∧ rep s' (c ++ t))
    as Hcat by (intros; apply sdscat_text; done || lia).
  assert (∀ x y, ∃ s', sdscatlen s [x; y] 2 = Some s' ∧ rep s' (c ++ [x; y])) as Hlen.
  { intros. apply sdscatlen_all; [done|done|]. rewrite !blen_cons, blen_nil. lia. }
  destruct ((ch =? ch_backslash) || (ch =? ch_quote)) eqn:E.
  { apply (Hcat [ch_backslash; ch]); [|by vm_compute]. rewrite !not_elem_of_cons.
    apply orb_true_iff in E as [->%Z.eqb_eq | ->%Z.eqb_eq]; (split; [done|split; [done|apply not_elem_of_nil]]). }
  do 5 (case_match; [apply Hlen|]).
  destruct (isprint ch) eqn:Ep.
  - apply (Hcat [ch]); [|by vm_compute]. rewrite not_elem_of_cons. unfold isprint, ch_nul in *.
    split; [|apply not_elem_of_nil]. destruct (Z.leb_spec 32 ch); [lia|done].
  - apply (Hcat [ch_backslash; ch_x; hex_char (ch / 16); hex_char (ch mod 16)]); [|by vm_compute].
    assert (∀ d, 0 ≤ d < 16 → ch_nul ≠ hex_char d) as Hh.
    { intros d Hd. unfold hex_char, ch_nul, ch_0, ch_a. destruct (Z.ltb_spec d 10); lia. }
    rewrite !not_elem_of_cons. split; [done|split; [done|split; [apply Hh; lia|split; [apply Hh; lia|]]]].
    apply not_elem_of_nil.
Qed.

Lemma repr_loop_spec p : ∀ s c,
  rep s c → Forall byte_ok p → blen c + 4 * blen p ≤ max_len →
  ∃ s', repr_loop s p = Some s' ∧ rep s' (c ++ concat (repr_text <$> p)).
Proof.
  induction p as [|ch p IH]; intros s c R Hb Hm; simpl.
  { exists s. by rewrite app_nil_r. }
  apply Forall_cons in Hb as [Hch Hb]. rewrite blen_cons in Hm. pose proof (blen_nonneg p).
  destruct (repr_char_spec s c ch R Hch) as (s1 & -> & R1); [lia|]. cbn [mbind option_bind].
  pose proof (repr_text_length ch).
  destruct (IH s1 (c ++ repr_text ch) R1 Hb) as (s' & -> & R'); [rewrite blen_app; lia|].
  exists s'. by rewrite (assoc_L (++)).
Qed.

Lemma concat_repr_length p : blen (concat (repr_text <$> p)) ≤ 4 * blen p.
Proof.
  induction p as [|ch p IH]; [done|]. rewrite fmap_cons. cbn [concat].
  rewrite blen_app, blen_cons. pose proof (repr_text_length ch). lia.
Qed.

Lemma sdscatrepr_spec s c p :
  rep s c → Forall byte_ok p → blen c + 4 * blen p + 2 ≤ max_len →
  ∃ s', sdscatrepr s p = Some s' ∧ rep s' (c ++ quoted p).
Proof.
  intros R Hb Hm. pose proof (blen_nonneg p). unfold sdscatrepr, quoted.
  destruct (sdscatlen_all s c [ch_quote] 1 R) as (s1 & -> & R1); [done|rewrite blen_cons, blen_nil; lia|].
  cbn [mbind option_bind].
  destruct (repr_loop_spec p s1 (c ++ [ch_quote]) R1 Hb) as (s2 & -> & R2);
    [rewrite blen_app, blen_cons, blen_nil; lia|]. cbn [mbind option_bind].
  destruct (sdscatlen_all s2 _ [ch_quote] 1 R2) as (s3 & -> & R3); [done| |].
  { pose proof (concat_repr_length p). rewrite !blen_app, !blen_cons, blen_nil. lia. }
  exists s3. split; [done|]. by rewrite <-!(assoc_L (++)) in R3.
Qed.

Lemma hex_char_ok d : 0 ≤ d < 16 → is_hex_digit (hex_char d) = true ∧ hex_digit_to_int (hex_char d) = d.
Proof.
  intros Hd. assert (d = Z.of_nat (Z.to_nat d)) as -> by lia.
  assert (Z.to_nat d < 16)%nat as Hn by lia. revert Hn. generalize (Z.to_nat d). intros n Hn.
  do 16 (destruct n as [|n]; [done|]). lia.
Qed.

(** One byte of the quoted form inside of double quotes. *)
Lemma get_token_char fuel ch p' cur c :
  byte_ok ch → rep cur c → blen c + 1 ≤ max_len → p' ≠ [] →
  ∃ cur', rep cur' (c ++ [ch]) ∧
    get_token (S fuel) (repr_text ch ++ p') true false cur = get_token fuel p' true false cur'.
Proof.
  intros Hb R Hm Hp. pose proof (nibbles ch Hb) as (? & ? & Hval). unfold byte_ok in Hb.
  destruct (sdscatlen_all cur c [ch] 1 R) as (cur' & E & R'); [done|done|].
  exists cur'. split; [done|]. cbn [get_token]. unfold repr_text.
  destruct ((ch =? ch_backslash) || (ch =? ch_quote)) eqn:E1.
  { apply orb_true_iff in E1 as [->%Z.eqb_eq | ->%Z.eqb_eq]; cbn -[get_token sdscatlen];
      (destruct p' as [|e p'']; [done|]); cbn -[get_token sdscatlen].
    - destruct p''; by rewrite E.
    - destruct p''; by rewrite E. }
  do 5 (match goal with |- context [ch =? ?k] => destruct (Z.eqb_spec ch k) as [->|] end;
    [destruct p' as [|? [|? ?]]; cbn -[get_token sdscatlen]; by rewrite E|]).
  apply orb_false_iff in E1 as [Ebs Eq].
  destruct (isprint ch).
  - change ([ch] ++ p') with (ch :: p'). cbv beta iota. rewrite Ebs, Eq. destruct p' as [|e p'']; [done|].
    cbn [andb]. rewrite E. done.
  - destruct (hex_char_ok (ch / 16)) as [Hh1 Hv1]; [lia|].
    destruct (hex_char_ok (ch mod 16)) as [Hh2 Hv2]; [lia|].
    cbn [app]. cbv beta iota. rewrite Hh1, Hh2, Hv1, Hv2. cbn [andb].
    replace (u8 (ch / 16 * 16 + ch mod 16)) with ch by (rewrite Hval, wrapu_small; lia).
    change (ch_backslash =? ch_backslash) with true. change (ch_x =? ch_x) with true.
    cbn [andb]. rewrite E. done.
Qed.

(** Reading a quoted string back. *)
Lemma get_token_quoted p : ∀ fuel rest cur c,
  Forall byte_ok p → rep cur c → blen c + blen p ≤ max_len → (length p < fuel)%nat →
  quote_ok rest = true →
  ∃ cur', get_token fuel (concat (repr_text <$> p) ++ ch_quote :: rest) true false cur
      = Some (Some (rest, cur')) ∧ rep cur' (c ++ p).
Proof.
  induction p as [|ch p IH]; intros fuel rest cur c Hb R Hm Hf Hq;
    (destruct fuel as [|fuel]; [simpl in Hf; lia|]).
  - exists cur. rewrite app_nil_r. split; [|done]. cbn -[sdscatlen]. destruct rest as [|e r]; [done|].
    cbn in Hq. cbn. by rewrite Hq.
  - apply Forall_cons in Hb as [Hch Hb]. rewrite blen_cons in Hm. pose proof (blen_nonneg p).
    rewrite fmap_cons. cbn [concat]. rewrite <-(assoc_L (++)).
    destruct (get_token_char fuel ch (concat (repr_text <$> p) ++ ch_quote :: rest) cur c Hch R)
      as (cur1 & R1 & ->); [lia|by destruct (concat _)|].
    destruct (IH fuel rest cur1 (c ++ [ch]) Hb R1) as (cur' & -> & R');
      [rewrite blen_app, blen_cons, blen_nil; lia|simpl in Hf; lia|done|].
    exists cur'. by rewrite <-(assoc_L (++)) in R'.
Qed.

(** The line of arguments: each quoted, separated by a space. *)
Fixpoint args_line (args : list (list Z)) : list Z :=
  match args with
  | [] => []
  | [a] => quoted a
  | a :: args => quoted a ++ ch_space :: args_line args
  end.

Lemma sdsempty_spec : ∃ s, sdsempty = Some s ∧ rep s [].
Proof.
  destruct (sdsnewlen_spec (Some [ch_nul]) [] [ch_nul]) as (s & E & R & _); [done|done|].
  exists s. done.
Qed.

Lemma quoted_length p : blen p + 2 ≤ blen (quoted p).
Proof.
  unfold quoted. rewrite blen_cons, blen_app, blen_cons, blen_nil.
  assert (blen p ≤ blen (concat (repr_text <$> p))); [|lia].
  induction p as [|ch p IH]; [done|]. rewrite fmap_cons. cbn [concat].
  rewrite blen_app, blen_cons. pose proof (repr_text_length ch). lia.
Qed.

Lemma skip_blanks_quoted a rest : skip_blanks (quoted a ++ rest) = quoted a ++ rest.
Proof. done. Qed.

Lemma get_token_arg a rest e :
  Forall byte_ok a → blen a ≤ max_len → quote_ok rest = true → rep e [] →
  ∃ cur, get_token (S (length (quoted a ++ rest))) (quoted a ++ rest) false false e
    = Some (Some (rest, cur)) ∧ rep cur a.
Proof.
  intros Ha Hma Hq Re. pose proof (quoted_length a) as Hl.
  destruct (get_token_quoted a (length (quoted a ++ rest)) rest e [] Ha Re) as (cur & E & R);
    [rewrite blen_nil; lia|rewrite length_app; unfold blen in Hl; lia|done|].
  assert (concat (repr_text <$> a) ++ ch_quote :: rest = (concat (repr_text <$> a) ++ [ch_quote]) ++ rest)
    as Ea by (by rewrite <-(assoc_L (++))).
  rewrite Ea in E. exists cur. split; [exact E|done].
Qed.

Lemma splitargs_quoted args : ∀ fuel vector,
  Forall (Forall byte_ok) args → Forall (λ a, blen a ≤ max_len) args →
  (length (args_line args) < fuel)%nat →
  ∃ toks, splitargs_loop fuel (args_line args) vector = Some (Some (vector ++ toks)) ∧
    Forall2 rep toks args.
Proof.
  induction args as [|a args IH]; intros fuel vector Hb Hm Hf;
    (destruct fuel as [|fuel]; [lia|]).
  { exists []. by rewrite app_nil_r. }
  apply Forall_cons in Hb as [Ha Hb]. apply Forall_cons in Hm as [Hma Hm].
  set (rest := match args with [] => [] | _ => ch_space :: args_line args end).
  assert (args_line (a :: args) = quoted a ++ rest) as El
    by (subst rest; destruct args; [by rewrite app_nil_r|done]).
  rewrite El in *. destruct sdsempty_spec as (e & Ee & Re).
  destruct (get_token_arg a rest e Ha Hma) as (cur & Et & Rc); [by subst rest; destruct args|done|].
  pose proof (quoted_length a) as Hq. pose proof (blen_nonneg a). rewrite length_app in Hf.
  assert (splitargs_loop (S fuel) (quoted a ++ rest) vector
    = splitargs_loop fuel rest (vector ++ [cur])) as ->.
  { cbn [splitargs_loop]. rewrite skip_blanks_quoted.
    destruct (quoted a ++ rest) as [|x l] eqn:Eq; [done|]. rewrite Ee. cbn [mbind option_bind].
    by rewrite Et. }
  destruct fuel as [|fuel]; [unfold blen in Hq; simpl in Hf; lia|].
  assert (splitargs_loop (S fuel) rest (vector ++ [cur])
    = splitargs_loop (S fuel) (args_line args) (vector ++ [cur])) as ->
    by (subst rest; by destruct args).
  destruct (IH (S fuel) (vector ++ [cur]) Hb Hm) as (toks & -> & HF).
  { subst rest. destruct args; simpl length in *; unfold blen in Hq; lia. }
  exists (cur :: toks). rewrite <-(assoc_L (++)). split; [done|by constructor].
Qed.

(** The line after a token, or a syntax error. *)
Definition token_end (p : list Z) (r : option (list Z * sdshdr)) : Prop :=
  match r with Some (p', _) => (length p' ≤ pred (length p))%nat | None => True end.

Lemma get_token_append fuel ch p p' inq insq cur c :
  (∀ p inq insq cur c, rep cur c → blen c + blen p ≤ max_len → (length p < fuel)%nat →
     ∃ r, get_token fuel p inq insq cur = Some r ∧ token_end p r) →
  rep cur c → blen c + blen p ≤ max_len → (length p < S fuel)%nat → (length p' < length p)%nat →
  ∃ r, (cur ← sdscatlen cur [ch] 1; get_token fuel p' inq insq cur) = Some r ∧ token_end p r.
Proof.
  intros IH R Hm Hf Hp. destruct (sdscatlen_spec cur c [ch] [] R) as (cur' & E & R').
  { change (blen [ch]) with 1. unfold blen in *. lia. }
  change (blen [ch]) with 1 in E. cbn [app] in E. rewrite E. cbn [mbind option_bind].
  destruct (IH p' inq insq cur' (c ++ [ch]) R') as (r & -> & Hr); [|lia|].
  { rewrite blen_app. change (blen [ch]) with 1. unfold blen in *. lia. }
  exists r. split; [done|]. destruct r as [[p2 cur2]|]; [|done]. cbn in *. lia.
Qed.

Lemma get_token_total fuel : ∀ p inq insq cur c,
  rep cur c → blen c + blen p ≤ max_len → (length p < fuel)%nat →
  ∃ r, get_token fuel p inq insq cur = Some r ∧ token_end p r.
Proof.
  induction fuel as [|fuel IH]; intros p inq insq cur c R Hm Hf; [lia|]. cbn [get_token].
  assert (∀ ch p' inq insq, (length p' < length p)%nat →
    ∃ r, (cur ← sdscatlen cur [ch] 1; get_token fuel p' inq insq cur) = Some r ∧ token_end p r) as Happ
    by (intros; by eapply get_token_append).
  assert (∀ q1 q2, p ≠ [] → ∃ r, get_token fuel (tail p) q1 q2 cur = Some r ∧ token_end p r) as Hskip.
  { intros q1 q2 Hne. destruct p as [|x p]; [done|]. cbn [tail length] in *. destruct (IH p q1 q2 cur c R) as (r & -> & Hr).
    - rewrite blen_cons in Hm. lia.
    - lia.
    - exists r. split; [done|]. destruct r as [[p2 cur2]|]; [|done]. cbn in *. lia. }
  destruct inq; [|destruct insq]; (destruct p as [|x p]; [eexists; split; [reflexivity|cbn; lia || exact I]|]).
  - destruct ((x =? ch_backslash) && _) eqn:Ehex.
    { destruct p as [|y [|h1 [|h2 p]]]; try (rewrite andb_false_r in Ehex; done). apply Happ. cbn. lia. }
    destruct p as [|e p]; repeat case_match; try (eexists; split; [reflexivity|cbn; lia || exact I]); apply Happ; cbn; lia.
  - destruct p as [|e p]; repeat case_match; try (eexists; split; [reflexivity|cbn; lia || exact I]); apply Happ; cbn; lia.
  - repeat case_match; try (eexists; split; [reflexivity|cbn; lia || exact I]); try (apply (Hskip _ _); done); apply Happ; cbn; lia.
Qed.

Lemma skip_blanks_length p : (length (skip_blanks p) ≤ length p)%nat.
Proof. induction p as [|x p IH]; cbn; [done|]. case_match; cbn; lia. Qed.

Lemma splitargs_loop_total fuel : ∀ p vector,
  blen p ≤ max_len → (length p < fuel)%nat → ∃ r, splitargs_loop fuel p vector = Some r.
Proof.
  induction fuel as [|fuel IH]; intros p vector Hm Hf; [lia|]. cbn [splitargs_loop].
  pose proof (skip_blanks_length p) as Hl. destruct (skip_blanks p) as [|x q] eqn:Eq; [by eexists|].
  destruct sdsempty_spec as (e & -> & Re). cbn [mbind option_bind].
  destruct (get_token_total (S (length (x :: q))) (x :: q) false false e [] Re) as (r & -> & Hr).
  { rewrite blen_nil. unfold blen in *. lia. } { lia. }
  cbn [mbind option_bind]. destruct r as [[p' cur]|]; [|by eexists]. cbn [token_end length] in *.
  apply IH; unfold blen in *; cbn [length] in *; lia.
Qed.

(** No line makes sdssplitargs fail otherwise than by its NULL. *)
Lemma sdssplitargs_total line : blen line ≤ max_len → ∃ r, sdssplitargs line = Some r.
Proof. intros Hm. apply splitargs_loop_total; [done|lia]. Qed.
(** C37. What sdscatrepr writes, sdssplitargs reads back, for every list of byte
    strings (NUL, quotes, control and non printable bytes included): the quoted
    arguments, separated by spaces, split into exactly these arguments. *)
Theorem sdssplitargs_sdscatrepr args :
  Forall (Forall byte_ok) args → Forall (λ a, 4 * blen a + 2 ≤ max_len) args →
  ∃ ss toks, mapM (λ a, e ← sdsempty; sdscatrepr e a) args = Some ss ∧
    Forall2 rep ss (quoted <$> args) ∧
    sdssplitargs (args_line args) = Some (Some toks) ∧ Forall2 rep toks args.
Proof.
  intros Hb Hm. destruct sdsempty_spec as (e & Ee & Re).
  assert (∃ ss, mapM (λ a, e ← sdsempty; sdscatrepr e a) args = Some ss ∧
    Forall2 rep ss (quoted <$> args)) as (ss & E1 & E2).
  { clear - Hb Hm Ee Re. induction args as [|a args IH].
    { exists []. split; [done|constructor]. }
    apply Forall_cons in Hb as [Ha Hb]. apply Forall_cons in Hm as [Hma Hm].
    destruct (IH Hb Hm) as (ss & E & HF).
    destruct (sdscatrepr_spec e [] a Re Ha) as (s & Es & Rs); [rewrite blen_nil; lia|].
    exists (s :: ss). split; [|by constructor].
    change (mapM (λ a, e ← sdsempty; sdscatrepr e a) (a :: args))
      with (y ← (e ← sdsempty; sdscatrepr e a); k ← mapM (λ a, e ← sdsempty; sdscatrepr e a) args;
            Some (y :: k)).
    rewrite Ee. cbn [mbind option_bind]. rewrite Es. cbn [mbind option_bind].
    rewrite Ee in E. cbn [mbind option_bind] in E. by rewrite E. }
  destruct (splitargs_quoted args (S (length (args_line args))) [] Hb) as (toks & E3 & E4);
    [|lia|].
  { eapply Forall_impl; [exact Hm|]. intros a Ha. simpl in Ha. pose proof (blen_nonneg a). lia. }
  exists ss, toks. done.
Qed.

(** ** Splitting at a separator *)

(** The bytes of [sep] occur at position [i] of [l]. *)
Definition occurs (sep l : list Z) (i : nat) : Prop :=
  (i + length sep ≤ length l)%nat ∧ take (length sep) (drop i l) = sep.

(** The tokens between the leftmost occurrences of a separator. *)
Inductive tokens_of (sep : list Z) : list Z → list (list Z) → Prop :=
  | tokens_last t : (∀ i, ¬ occurs sep t i) → tokens_of sep t [t]
  | tokens_cons t l ts :
      (∀ i, (i < length t)%nat → ¬ occurs sep (t ++ sep ++ l) i) →
      tokens_of sep l ts → tokens_of sep (t ++ sep ++ l) (t :: ts).

Lemma memcmp_eq a b : length a = length b → (memcmp a b =? 0) = bool_decide (a = b).
Proof.
  revert b. induction a as [|x a IH]; intros [|y b] Hl; try done. simpl.
  destruct (Z.ltb_spec x y); [|destruct (Z.ltb_spec y x)].
  - symmetry. apply bool_decide_eq_false. intros [= ?]. lia.
  - symmetry. apply bool_decide_eq_false. intros [= ?]. lia.
  - assert (x = y) as -> by lia. rewrite IH by (simpl in Hl; lia).
    apply bool_decide_ext. naive_solver.
Qed.

Lemma split_step_eq s sep j c sep0 pre rem :
  s = pre ++ rem → j = blen pre → (1 ≤ length sep)%nat → (length sep ≤ length rem)%nat →
  mget s j = Some c → mget sep 0 = Some sep0 →
  (if (blen sep =? 1) && (c =? sep0) then Some true
   else a ← mload s j (blen sep); b ← mload sep 0 (blen sep); Some (memcmp a b =? 0))
  = Some (bool_decide (take (length sep) rem = sep)).
Proof.
  intros -> -> Hs Hr Hc H0.
  assert (mload (pre ++ rem) (blen pre) (blen sep) = Some (take (length sep) rem)) as ->.
  { rewrite <-(take_drop (length sep) rem) at 1. apply mload_app; [done|].
    unfold blen. rewrite length_take. lia. }
  assert (mload sep 0 (blen sep) = Some sep) as ->.
  { pose proof (mload_app [] sep [] 0 (blen sep) eq_refl eq_refl) as E. by rewrite app_nil_r in E. }
  cbn [mbind option_bind]. rewrite memcmp_eq by (rewrite length_take; lia).
  destruct ((blen sep =? 1) && (c =? sep0)) eqn:E; [|done]. apply andb_true_iff in E as [E1%Z.eqb_eq ->%Z.eqb_eq].
  symmetry. f_equal. apply bool_decide_eq_true.
  destruct sep as [|x [|y sep]]; [done| |unfold blen in E1; simpl in E1; lia].
  injection H0 as <-. destruct rem as [|z rem]; [simpl in Hr; lia|].
  rewrite mget_app in Hc by done. by injection Hc as <-.
Qed.

Lemma occurs_app sep a b i : occurs sep (a ++ b) (length a + i) ↔ occurs sep b i.
Proof.
  unfold occurs. rewrite length_app, drop_app_add. split; intros [? ?]; (split; [lia|done]).
Qed.

Lemma split_loop_spec sep fuel : (1 ≤ length sep)%nat → ∀ pre cur rem slots tokens,
  (length rem ≤ fuel)%nat → blen (pre ++ cur ++ rem) < 2 ^ 31 - 1 →
  (∀ i, (i < length cur)%nat → ¬ occurs sep (cur ++ rem) i) →
  2 ≤ slots → Z.of_nat (length tokens) + 1 ≤ slots →
  let s := pre ++ cur ++ rem in
  ∃ tokens' start slots' cs,
    split_loop fuel s (blen s) sep (blen sep) (blen pre + blen cur) (blen pre) slots tokens
      = Some (tokens ++ tokens', start, slots') ∧
    Z.of_nat (length (tokens ++ tokens')) + 1 ≤ slots' ∧ Forall2 rep tokens' cs ∧
    0 ≤ start ≤ blen s ∧ tokens_of sep (cur ++ rem) (cs ++ [drop (Z.to_nat start) s]).
Proof.
  intros Hsep. induction fuel as [|fuel IH]; intros pre cur rem slots tokens Hf Hlen Hno Hs2 Hs s;
    pose proof (blen_nonneg pre) as Hp0; pose proof (blen_nonneg cur) as Hc0; pose proof (blen_nonneg rem) as Hr0;
    assert (blen s = blen pre + blen cur + blen rem) as Hsl by (subst s; rewrite !blen_app; lia).
  all: assert ((length rem < length sep)%nat → ∃ tokens' start slots' cs,
      Some (tokens, blen pre, slots) = Some (tokens ++ tokens', start, slots') ∧
      Z.of_nat (length (tokens ++ tokens')) + 1 ≤ slots' ∧ Forall2 rep tokens' cs ∧
      0 ≤ start ≤ blen s ∧ tokens_of sep (cur ++ rem) (cs ++ [drop (Z.to_nat start) s])) as Hend.
  1,3: intros Hr; exists [], (blen pre), slots, []; rewrite app_nil_r; split; [done|]; split; [done|];
    split; [constructor|]; split; [lia|]; rewrite to_nat_blen; subst s; rewrite drop_app_length;
    apply tokens_last; intros i Ho; destruct (decide (i < length cur)%nat);
    [by eapply Hno|destruct Ho as [Ho _]; rewrite length_app in Ho; lia].
  - cbn [split_loop]. rewrite (proj2 (Z.ltb_ge _ _)) by (unfold blen in *; lia). apply Hend. lia.
  - cbn [split_loop]. destruct (Z.ltb_spec (blen pre + blen cur) (blen s - (blen sep - 1))) as [Hlt|];
      [|apply Hend; unfold blen in *; lia].
    assert (length sep ≤ length rem)%nat as Hr by (unfold blen in *; lia).
    destruct rem as [|x rem]; [simpl in Hr; lia|]. simpl length in Hf.
    set (slots1 := if slots <? Z.of_nat (length tokens) + 2 then slots * 2 else slots).
    assert (2 ≤ slots1 ∧ Z.of_nat (length tokens) + 2 ≤ slots1) as [Hs1 Hs1'].
    { subst slots1. destruct (Z.ltb_spec slots (Z.of_nat (length tokens) + 2)); lia. }
    assert (s = (pre ++ cur) ++ x :: rem) as Es by (subst s; by rewrite (assoc_L (++))).
    assert (mget s (blen pre + blen cur) = Some x) as Hx by (rewrite Es; apply mget_app; by rewrite blen_app).
    destruct sep as [|sep0 sep'] eqn:Esep; [simpl in Hsep; lia|]. rewrite <-Esep in *.
    assert (mget sep 0 = Some sep0) as H0 by (by rewrite Esep).
    rewrite Hx. cbn [mbind option_bind]. rewrite H0. cbn [mbind option_bind].
    rewrite (split_step_eq s sep _ x sep0 (pre ++ cur) (x :: rem) Es) by (try rewrite blen_app; done).
    cbn [mbind option_bind]. destruct (bool_decide_reflect (take (length sep) (x :: rem) = sep)) as [Heq|Hneq].
    + pose proof (take_drop (length sep) (x :: rem)) as Htd. rewrite Heq in Htd.
      set (l := drop (length sep) (x :: rem)) in *.
      assert (drop (Z.to_nat (blen pre)) s = cur ++ x :: rem) as Hd
        by (subst s; by rewrite to_nat_blen, drop_app_length).
      rewrite Hd. replace (blen pre + blen cur - blen pre) with (blen cur) by lia.
      destruct (sdsnewlen_spec (Some (cur ++ x :: rem)) cur (x :: rem) eq_refl) as (t & -> & Rt & _);
        [rewrite !blen_app in Hlen; lia|]. cbn [mbind option_bind].
      unfold push_token at 1. rewrite (proj2 (Z.ltb_lt _ _)) by lia. cbn [mbind option_bind].
      assert (s = (pre ++ cur ++ sep) ++ [] ++ l) as Es2
        by (rewrite Es, <-Htd, <-!(assoc_L (++)); done).
      destruct (IH (pre ++ cur ++ sep) [] l slots1 (tokens ++ [t])) as (toks & start & slots' & cs & E & Hsl' & HF & Hst & Ht).
      { subst l. rewrite length_drop. simpl. lia. }
      { by rewrite <-Es2. }
      { simpl. lia. }
      { done. }
      { rewrite length_app. simpl. lia. }
      rewrite <-Es2 in *. rewrite !blen_app, blen_nil in E.
      replace (blen pre + (blen cur + blen sep) + 0) with (blen pre + blen cur + blen sep) in E by lia.
      replace (blen pre + (blen cur + blen sep)) with (blen pre + blen cur + blen sep) in E by lia.
      rewrite E. exists (t :: toks), start, slots', (cur :: cs). rewrite <-(assoc_L (++)) in *.
      split; [done|split; [done|split; [by constructor|split; [done|]]]].
      rewrite <-Htd. simpl app. apply tokens_cons; [|exact Ht]. by rewrite Htd.
    + assert (s = pre ++ (cur ++ [x]) ++ rem) as Es2 by (subst s; by rewrite <-(assoc_L (++) cur)).
      destruct (IH pre (cur ++ [x]) rem slots1 tokens) as (toks & start & slots' & cs & E & Hsl' & HF & Hst & Ht).
      { lia. }
      { by rewrite <-Es2. }
      { rewrite <-(assoc_L (++)). simpl app. intros i Hi Ho. rewrite length_app in Hi. simpl in Hi.
        destruct (decide (i < length cur)%nat); [by eapply Hno|].
        assert (i = length cur + 0)%nat as -> by lia. apply occurs_app in Ho as [_ Ho].
        by rewrite drop_0 in Ho. }
      { done. }
      { lia. }
      rewrite <-Es2 in *. rewrite blen_app, blen_cons, blen_nil in E.
      replace (blen pre + blen cur + 1) with (blen pre + (blen cur + (1 + 0))) by lia.
      rewrite E. exists toks, start, slots', cs. rewrite <-(assoc_L (++) cur) in Ht. done.
Qed.

Fixpoint join_text (sep : list Z) (ts : list (list Z)) : list Z :=
  match ts with
  | [] => []
  | [t] => t
  | t :: ts => t ++ sep ++ join_text sep ts
  end.

Lemma tokens_join sep s ts : tokens_of sep s ts → s = join_text sep ts.
Proof.
  induction 1 as [t|t l ts _ H IH]; [done|]. rewrite IH.
  destruct ts; [by inversion H|done].
Qed.

Lemma tokens_no_nul sep s ts : tokens_of sep s ts → ch_nul ∉ s → Forall (λ t, ch_nul ∉ t) ts.
Proof.
  induction 1 as [t|t l ts _ H IH]; intros Hs; [by constructor|].
  rewrite !not_elem_of_app in Hs. constructor; [tauto|]. apply IH. tauto.
Qed.

Lemma join_loop_spec sep ts : ∀ s c,
  rep s c → ch_nul ∉ sep → Forall (λ t, ch_nul ∉ t) ts →
  blen c + blen (join_text sep ts) ≤ max_len →
  ∃ s', join_loop s ((λ t, t ++ [ch_nul]) <$> ts) (sep ++ [ch_nul]) = Some s' ∧
    rep s' (c ++ join_text sep ts).
Proof.
  induction ts as [|t ts IH]; intros s c R Hsep Hts Hm.
  { exists s. simpl. by rewrite app_nil_r. }
  apply Forall_cons in Hts as [Ht Hts]. destruct ts as [|t2 ts].
  { simpl in *. by apply sdscat_text. }
  assert (join_text sep (t :: t2 :: ts) = t ++ sep ++ join_text sep (t2 :: ts)) as Ej by done.
  rewrite Ej in *. rewrite !blen_app in Hm.
  pose proof (blen_nonneg t). pose proof (blen_nonneg sep). pose proof (blen_nonneg (join_text sep (t2 :: ts))).
  change ((λ t, t ++ [ch_nul]) <$> t :: t2 :: ts)
    with ((t ++ [ch_nul]) :: (t2 ++ [ch_nul]) :: ((λ t, t ++ [ch_nul]) <$> ts)).
  cbn [join_loop].
  destruct (sdscat_text s c t R Ht) as (s1 & -> & R1); [lia|]. cbn [mbind option_bind].
  destruct (sdscat_text s1 _ sep R1 Hsep) as (s2 & -> & R2); [rewrite blen_app; lia|].
  cbn [mbind option_bind].
  destruct (IH s2 _ R2 Hsep Hts) as (s' & E & R'); [rewrite !blen_app; lia|].
  exists s'. split; [exact E|]. by rewrite <-!(assoc_L (++)) in R'.
Qed.

(** sdssplitlen cuts a string at the leftmost occurrences of the separator,
    never writes behind the array of tokens that it grows, and sdsjoin of the
    tokens is the string again (a C string, without NUL bytes). *)
Theorem sdssplitlen_sdsjoin s sep :
  0 < blen s ≤ max_len → (1 ≤ length sep)%nat →
  ∃ toks ts, sdssplitlen s (blen s) sep (blen sep) = Some (Some toks) ∧ Forall2 rep toks ts ∧
    tokens_of sep s ts ∧
    (ch_nul ∉ s → ch_nul ∉ sep →
     ∃ j, sdsjoin ((λ t, t ++ [ch_nul]) <$> ts) (sep ++ [ch_nul]) = Some j ∧ rep j s).
Proof.
  intros Hs Hsep. unfold max_len in Hs. unfold sdssplitlen.
  rewrite (proj2 (Z.ltb_ge (blen sep) 1)), (proj2 (Z.ltb_ge (blen s) 0)),
    (proj2 (Z.eqb_neq (blen s) 0)) by (unfold blen in *; lia). cbn [orb].
  destruct (split_loop_spec sep (Z.to_nat (blen s)) Hsep [] [] s 5 []) as
    (toks & start & slots & cs & E & Hsl & HF & Hst & Ht); try (simpl; lia).
  { rewrite to_nat_blen. lia. }
  simpl app in E, Hst, Ht, Hsl. rewrite blen_nil, Z.add_0_r in E. rewrite E. cbn [mbind option_bind].
  set (last := drop (Z.to_nat start) s) in *.
  assert (blen last = blen s - start) as Hlast by (subst last; unfold blen in *; rewrite length_drop; lia).
  rewrite <-Hlast. destruct (sdsnewlen_spec (Some last) last []) as (t & -> & Rt & _);
    [by rewrite app_nil_r|lia|]. cbn [mbind option_bind]. unfold push_token.
  rewrite (proj2 (Z.ltb_lt _ _)) by lia. cbn [mbind option_bind].
  exists (toks ++ [t]), (cs ++ [last]). split; [done|]. split; [by apply Forall2_app; [|constructor]|].
  split; [done|]. intros Hn1 Hn2. unfold sdsjoin. destruct sdsempty_spec as (e & -> & Re).
  cbn [mbind option_bind]. pose proof (tokens_join _ _ _ Ht) as Ej.
  destruct (join_loop_spec sep (cs ++ [last]) e [] Re Hn2) as (j & Ejl & Rj).
  { by eapply tokens_no_nul. }
  { rewrite <-Ej, blen_nil. unfold max_len. lia. }
  exists j. split; [exact Ejl|]. by rewrite Ej at 1.
Qed.

(** sdsll2str and sdsfromlonglong write the decimal text of every [long long],
    LLONG_MIN included, within the 21 bytes of their buffer: the same text as
    ll2string. *)
Theorem sdsfromlonglong_text v :
  in_i64 v → ∃ s, sdsfromlonglong v = Some s ∧ rep s (ll_text v) ∧
    ll2string 32 v = (sdslen s, ll_text v ++ [ch_nul]).
Proof.
  intros Hv. unfold sdsfromlonglong. destruct (sdsll2str_spec _ v mresize_21 Hv) as (rest & ->).
  cbn [mbind option_bind]. pose proof (ll_text_length v Hv) as Hl.
  destruct (sdsnewlen_spec (Some (ll_text v ++ ch_nul :: rest)) (ll_text v) (ch_nul :: rest) eq_refl)
    as (s & -> & R & _); [unfold blen; lia|].
  exists s. split; [done|split; [done|]]. pose proof (rep_bounds s _ R) as (_ & -> & _).
  rewrite ll2string_text by (done || lia). cbv zeta.
  rewrite Z.min_l by (unfold blen; lia). by rewrite to_nat_blen, firstn_all.
Qed.
End sds.

(** ** Concrete strings *)

Definition ex_sds : sdshdr := Sdshdr 5 2 [104; 101; 108; 108; 111; 0; 7; 9].
Lemma ex_sds_rep : rep ex_sds [104; 101; 108; 108; 111].
Proof. exists [7; 9]. done. Qed.

Lemma sds_update_refines_witness :
  (∃ s', run_sds (λ _, 170) ex_sds (OCat [33; 33; 33]) = Some s' ∧ rep s' [104; 101; 108; 108; 111; 33; 33; 33]) ∧
  (∃ s', run_sds (λ _, 170) ex_sds (ORange (-3) (-2)) = Some s' ∧ rep s' [108; 108]).
Proof.
  split.
  - exact (sds_update_refines (λ _, 170) ex_sds _ (OCat [33; 33; 33]) ex_sds_rep ltac:(by vm_compute)).
  - exact (sds_update_refines (λ _, 170) ex_sds _ (ORange (-3) (-2)) ex_sds_rep ltac:(by vm_compute)).
Defined.

(** The format "%i-%s%%" with -12 and "ab". *)
Lemma sdscatfmt_text_witness :
  ∃ s', sdscatfmt (λ _, 170) ex_sds [37; 105; 45; 37; 115; 37; 37] [ArgInt (-12); ArgStr [97; 98; 0]] = Some s' ∧
    rep s' ([104; 101; 108; 108; 111] ++ [45; 49; 50; 45; 97; 98; 37]).
Proof.
  apply (sdscatfmt_text (λ _, 170) ex_sds _ _ _ [45; 49; 50; 45; 97; 98; 37] ex_sds_rep).
  - constructor; [by vm_compute|]. constructor; [done|constructor].
  - reflexivity.
  - by vm_compute.
Defined.

Lemma sdssplitargs_sdscatrepr_witness :
  ∃ ss toks, mapM (λ a, e ← sdsempty (λ _, 170); sdscatrepr (λ _, 170) e a) [[34; 0; 255]; []; [10; 32; 97]] = Some ss ∧
    Forall2 rep ss (quoted <$> [[34; 0; 255]; []; [10; 32; 97]]) ∧
    sdssplitargs (λ _, 170) (args_line [[34; 0; 255]; []; [10; 32; 97]]) = Some (Some toks) ∧
    Forall2 rep toks [[34; 0; 255]; []; [10; 32; 97]].
Proof.
  apply (sdssplitargs_sdscatrepr (λ _, 170)).
  - repeat constructor; by vm_compute.
  - repeat constructor; by vm_compute.
Defined.

Lemma sdssplitlen_sdsjoin_witness :
  ∃ toks ts, sdssplitlen (λ _, 170) [97; 44; 44; 98] 4 [44] 1 = Some (Some toks) ∧ Forall2 rep toks ts ∧
    tokens_of [44] [97; 44; 44; 98] ts ∧
    (ch_nul ∉ [97; 44; 44; 98] → ch_nul ∉ [44] →
     ∃ j, sdsjoin (λ _, 170) ((λ t, t ++ [ch_nul]) <$> ts) [44; ch_nul] = Some j ∧ rep j [97; 44; 44; 98]).
Proof. apply (sdssplitlen_sdsjoin (λ _, 170) [97; 44; 44; 98] [44]); [by vm_compute|simpl; lia]. Defined.

Lemma sdsfromlonglong_text_witness :
  ∃ s, sdsfromlonglong (λ _, 170) LLONG_MIN = Some s ∧ rep s (ll_text LLONG_MIN) ∧
    ll2string 32 LLONG_MIN = (sdslen s, ll_text LLONG_MIN ++ [ch_nul]).
Proof. apply (sdsfromlonglong_text (λ _, 170) LLONG_MIN). by vm_compute. Defined.

(** ** Where the code and its comments differ *)

(** sdstrim also removes NUL bytes at the ends, which are in no C string [cset]. *)
Example sdstrim_removes_nul : trim [120] [0; 97; 0] = [97].
Proof. reflexivity. Qed.

(** A format that ends in '%' is read behind its terminator. *)
Lemma sdscatfmt_open_percent junk s i args : fmt_loop junk [ch_percent] s i args = None.
Proof. done. Qed.
