(* ===== verification/Ziplist.v ===== *)
(** * Compressed lists ([ziplist.c], [ziplist.h])

    A ziplist is one block of bytes: a header (total bytes, offset of the tail,
    number of entries), the entries and the end byte 255.  An entry holds the
    length of the previous entry on 1 or 5 bytes, its encoding and length, and
    its string or integer.  Pointers into the block are offsets; an access
    outside of the block and a failing [assert] are [None]. *)
From S2P Require Import Prelude Endian Util.
Open Scope Z_scope.

Definition ZIP_END : Z := 255.
Definition ZIP_BIGLEN : Z := 254.
Definition ZIP_STR_MASK : Z := 192.
Definition ZIP_STR_06B : Z := 0.
Definition ZIP_STR_14B : Z := 64.
Definition ZIP_STR_32B : Z := 128.
Definition ZIP_INT_16B : Z := 192.
Definition ZIP_INT_32B : Z := 208.
Definition ZIP_INT_64B : Z := 224.
Definition ZIP_INT_24B : Z := 240.
Definition ZIP_INT_8B : Z := 254.
Definition ZIP_INT_IMM_MASK : Z := 15.
Definition ZIP_INT_IMM_MIN : Z := 241.
Definition ZIP_INT_IMM_MAX : Z := 253.
Definition INT24_MAX : Z := 8388607.
Definition INT24_MIN : Z := - INT24_MAX - 1.
Definition UINT16_MAX : Z := 65535.
Definition ZIPLIST_HEADER_SIZE : Z := 10.
Definition ZIPLIST_HEAD : Z := 0.
Definition ZIPLIST_TAIL : Z := 1.

Definition ZIP_IS_STR (enc : Z) : bool := Z.land enc ZIP_STR_MASK <? ZIP_STR_MASK.

Record zlentry := Zlentry {
  prevrawlensize : Z;
  prevrawlen : Z;
  lensize : Z;
  len : Z;
  headersize : Z;
  encoding : Z;
}.

Section ziplist.
Context `{Host}.
Context (junk : nat → Z).

(** ** The header *)

Definition ZIPLIST_BYTES (zl : list Z) : option Z :=
  bs ← mload zl 0 4; Some (intrev32ifbe (native_dec bs)).
Definition set_ZIPLIST_BYTES (zl : list Z) (v : Z) : option (list Z) :=
  mstore zl 0 (native_enc 4 (intrev32ifbe v)).
Definition ZIPLIST_TAIL_OFFSET (zl : list Z) : option Z :=
  bs ← mload zl 4 4; Some (intrev32ifbe (native_dec bs)).
Definition set_ZIPLIST_TAIL_OFFSET (zl : list Z) (v : Z) : option (list Z) :=
  mstore zl 4 (native_enc 4 (intrev32ifbe v)).
(** As stored, not converted. *)
Definition ZIPLIST_LENGTH (zl : list Z) : option Z :=
  bs ← mload zl 8 2; Some (native_dec bs).
Definition set_ZIPLIST_LENGTH (zl : list Z) (v : Z) : option (list Z) :=
  mstore zl 8 (native_enc 2 v).

Definition ZIPLIST_INCR_LENGTH (zl : list Z) (incr : Z) : option (list Z) :=
  n ← ZIPLIST_LENGTH zl;
  if n <? UINT16_MAX then set_ZIPLIST_LENGTH zl (intrev16ifbe (u16 (intrev16ifbe n + incr)))
  else Some zl.

(** ** Encodings *)

Definition ZIP_ENTRY_ENCODING (b : Z) : Z :=
  if b <? ZIP_STR_MASK then Z.land b ZIP_STR_MASK else b.

Definition zipIntSize (enc : Z) : Z :=
  if enc =? ZIP_INT_8B then 1
  else if enc =? ZIP_INT_16B then 2
  else if enc =? ZIP_INT_24B then 3
  else if enc =? ZIP_INT_32B then 4
  else if enc =? ZIP_INT_64B then 8
  else 0.

(** The bytes [buf] of zipEncodeLength. *)
Definition zipEncodeLength_buf (enc rawlen : Z) : list Z :=
  if ZIP_IS_STR enc then
    if rawlen <=? 63 then [Z.lor ZIP_STR_06B rawlen]
    else if rawlen <=? 16383 then
      [Z.lor ZIP_STR_14B (Z.land (Z.shiftr rawlen 8) 63); Z.land rawlen 255]
    else [ZIP_STR_32B; Z.land (Z.shiftr rawlen 24) 255; Z.land (Z.shiftr rawlen 16) 255;
          Z.land (Z.shiftr rawlen 8) 255; Z.land rawlen 255]
  else [enc].
(** With [p] NULL: the size only. *)
Definition zipEncodeLength_size (enc rawlen : Z) : Z := blen (zipEncodeLength_buf enc rawlen).
Definition zipEncodeLength (zl : list Z) (p enc rawlen : Z) : option (list Z * Z) :=
  zl ← mstore zl p (zipEncodeLength_buf enc rawlen);
  Some (zl, zipEncodeLength_size enc rawlen).

(** The encoding, the size of the length and the length. *)
Definition ZIP_DECODE_LENGTH (zl : list Z) (p : Z) : option (Z * Z * Z) :=
  b0 ← mget zl p;
  let enc := ZIP_ENTRY_ENCODING b0 in
  if enc <? ZIP_STR_MASK then
    if enc =? ZIP_STR_06B then Some (enc, 1, Z.land b0 63)
    else if enc =? ZIP_STR_14B then
      b1 ← mget zl (p + 1);
      Some (enc, 2, Z.lor (Z.shiftl (Z.land b0 63) 8) b1)
    else if enc =? ZIP_STR_32B then
      b1 ← mget zl (p + 1);
      b2 ← mget zl (p + 2);
      b3 ← mget zl (p + 3);
      b4 ← mget zl (p + 4);
      Some (enc, 5, u32 (Z.lor (Z.lor (Z.lor (Z.shiftl b1 24) (Z.shiftl b2 16)) (Z.shiftl b3 8)) b4))
    else None
  else Some (enc, 1, zipIntSize enc).

Definition zipPrevEncodeLength_size (len : Z) : Z := if len <? ZIP_BIGLEN then 1 else 5.

Definition zipPrevEncodeLengthForceLarge (zl : list Z) (p len : Z) : option (list Z) :=
  zl ← mset zl p ZIP_BIGLEN;
  zl ← mstore zl (p + 1) (native_enc 4 len);
  memrev32ifbe zl (p + 1).

Definition zipPrevEncodeLength (zl : list Z) (p len : Z) : option (list Z * Z) :=
  if len <? ZIP_BIGLEN then zl ← mset zl p len; Some (zl, 1)
  else zl ← zipPrevEncodeLengthForceLarge zl p len; Some (zl, 5).

Definition ZIP_DECODE_PREVLENSIZE (zl : list Z) (p : Z) : option Z :=
  b ← mget zl p; Some (if b <? ZIP_BIGLEN then 1 else 5).

(** The size and the value. *)
Definition ZIP_DECODE_PREVLEN (zl : list Z) (p : Z) : option (Z * Z) :=
  prevlensize ← ZIP_DECODE_PREVLENSIZE zl p;
  if prevlensize =? 1 then b ← mget zl p; Some (prevlensize, b)
  else
    bs ← mload zl (p + 1) 4;
    bs ← memrev32ifbe bs 0;
    Some (prevlensize, native_dec bs).

Definition zipPrevLenByteDiff (zl : list Z) (p len : Z) : option Z :=
  prevlensize ← ZIP_DECODE_PREVLENSIZE zl p;
  Some (i32 (zipPrevEncodeLength_size len - prevlensize)).

Definition zipRawEntryLength (zl : list Z) (p : Z) : option Z :=
  prevlensize ← ZIP_DECODE_PREVLENSIZE zl p;
  '(enc, lensize, len) ← ZIP_DECODE_LENGTH zl (p + prevlensize);
  Some (u32 (prevlensize + lensize + len)).

(** The value and its encoding; [entry] is the block of the string. *)
Definition zipTryEncoding (entry : list Z) (entrylen : Z) : option (Z * Z) :=
  if (32 <=? entrylen) || (entrylen =? 0) then None
  else
    value ← string2ll (take (Z.to_nat entrylen) entry);
    Some (value,
      if (0 <=? value) && (value <=? 12) then u8 (ZIP_INT_IMM_MIN + value)
      else if (-128 <=? value) && (value <=? 127) then ZIP_INT_8B
      else if (INT16_MIN <=? value) && (value <=? INT16_MAX) then ZIP_INT_16B
      else if (INT24_MIN <=? value) && (value <=? INT24_MAX) then ZIP_INT_24B
      else if (INT32_MIN <=? value) && (value <=? INT32_MAX) then ZIP_INT_32B
      else ZIP_INT_64B).

Definition zipSaveInteger (zl : list Z) (p value enc : Z) : option (list Z) :=
  if enc =? ZIP_INT_8B then mset zl p (u8 value)
  else if enc =? ZIP_INT_16B then
    zl ← mstore zl p (native_enc 2 (i16 value)); memrev16ifbe zl p
  else if enc =? ZIP_INT_24B then
    b ← memrev32ifbe (native_enc 4 (i32 (Z.shiftl value 8))) 0;
    b ← mload b 1 3;
    mstore zl p b
  else if enc =? ZIP_INT_32B then
    zl ← mstore zl p (native_enc 4 (i32 value)); memrev32ifbe zl p
  else if enc =? ZIP_INT_64B then
    zl ← mstore zl p (native_enc 8 value); memrev64ifbe zl p
  else if (ZIP_INT_IMM_MIN <=? enc) && (enc <=? ZIP_INT_IMM_MAX) then Some zl
  else None.

Definition zipLoadInteger (zl : list Z) (p enc : Z) : option Z :=
  if enc =? ZIP_INT_8B then b ← mget zl p; Some (i8 b)
  else if enc =? ZIP_INT_16B then
    b ← mload zl p 2; b ← memrev16ifbe b 0; Some (native_sdec b)
  else if enc =? ZIP_INT_32B then
    b ← mload zl p 4; b ← memrev32ifbe b 0; Some (native_sdec b)
  else if enc =? ZIP_INT_24B then
    b ← mload zl p 3; b ← memrev32ifbe (0 :: b) 0; Some (Z.shiftr (native_sdec b) 8)
  else if enc =? ZIP_INT_64B then
    b ← mload zl p 8; b ← memrev64ifbe b 0; Some (native_sdec b)
  else if (ZIP_INT_IMM_MIN <=? enc) && (enc <=? ZIP_INT_IMM_MAX) then
    Some (Z.land enc ZIP_INT_IMM_MASK - 1)
  else None.

Definition zipEntry (zl : list Z) (p : Z) : option zlentry :=
  '(prevrawlensize, prevrawlen) ← ZIP_DECODE_PREVLEN zl p;
  '(encoding, lensize, len) ← ZIP_DECODE_LENGTH zl (p + prevrawlensize);
  Some (Zlentry prevrawlensize prevrawlen lensize len (prevrawlensize + lensize) encoding).

(** ** Updates *)

Definition ziplistNew : option (list Z) :=
  let bytes := ZIPLIST_HEADER_SIZE + 1 in
  let zl := mresize junk [] bytes in
  zl ← set_ZIPLIST_BYTES zl bytes;
  zl ← set_ZIPLIST_TAIL_OFFSET zl ZIPLIST_HEADER_SIZE;
  zl ← set_ZIPLIST_LENGTH zl 0;
  mset zl (bytes - 1) ZIP_END.

Definition ziplistResize (zl : list Z) (len : Z) : option (list Z) :=
  let zl := mresize junk zl len in
  zl ← set_ZIPLIST_BYTES zl len;
  mset zl (len - 1) ZIP_END.

(** [while (p[0] != ZIP_END)] of __ziplistCascadeUpdate; each turn moves to the
    next entry. *)
Fixpoint cascade_loop (fuel : nat) (zl : list Z) (p curlen : Z) : option (list Z) :=
  c ← mget zl p;
  if c =? ZIP_END then Some zl
  else
    match fuel with
    | O => None
    | S fuel =>
        cur ← zipEntry zl p;
        let rawlen := u32 (headersize cur + len cur) in
        let rawlensize := zipPrevEncodeLength_size rawlen in
        c ← mget zl (p + rawlen);
        if c =? ZIP_END then Some zl
        else
          next ← zipEntry zl (p + rawlen);
          if prevrawlen next =? rawlen then Some zl
          else if prevrawlensize next <? rawlensize then
            let extra := rawlensize - prevrawlensize next in
            zl ← ziplistResize zl (u32 (curlen + extra));
            let np := p + rawlen in
            tail ← ZIPLIST_TAIL_OFFSET zl;
            zl ← (if negb (tail =? np) then set_ZIPLIST_TAIL_OFFSET zl (u32 (tail + extra))
                  else Some zl);
            zl ← mmove zl (np + rawlensize) (np + prevrawlensize next)
                   (curlen - np - prevrawlensize next - 1);
            '(zl, _) ← zipPrevEncodeLength zl np rawlen;
            cascade_loop fuel zl np (curlen + extra)
          else if rawlensize <? prevrawlensize next then
            zipPrevEncodeLengthForceLarge zl (p + rawlen) rawlen
          else '(zl, _) ← zipPrevEncodeLength zl (p + rawlen) rawlen; Some zl
    end.

Definition __ziplistCascadeUpdate (zl : list Z) (p : Z) : option (list Z) :=
  curlen ← ZIPLIST_BYTES zl;
  cascade_loop (length zl) zl p curlen.

(** [for (i = 0; p[0] != ZIP_END && i < num; i++)]: the end and the number of the
    entries to delete. *)
Fixpoint delete_span (num : nat) (zl : list Z) (p : Z) : option (Z * Z) :=
  c ← mget zl p;
  if c =? ZIP_END then Some (p, 0)
  else
    match num with
    | O => Some (p, 0)
    | S num =>
        l ← zipRawEntryLength zl p;
        '(p, deleted) ← delete_span num zl (p + l);
        Some (p, deleted + 1)
    end.

(** The entries after the deleted ones moved to [first_p]: the block and [nextdiff]. *)
Definition delete_move (zl : list Z) (first : zlentry) (first_p p totlen : Z) : option (list Z * Z) :=
  c ← mget zl p;
  if negb (c =? ZIP_END) then
    nextdiff ← zipPrevLenByteDiff zl p (prevrawlen first);
    let p := p - nextdiff in
    '(zl, _) ← zipPrevEncodeLength zl p (prevrawlen first);
    t ← ZIPLIST_TAIL_OFFSET zl;
    zl ← set_ZIPLIST_TAIL_OFFSET zl (u32 (t - totlen));
    tail ← zipEntry zl p;
    c ← mget zl (p + headersize tail + len tail);
    zl ← (if negb (c =? ZIP_END) then
            t ← ZIPLIST_TAIL_OFFSET zl; set_ZIPLIST_TAIL_OFFSET zl (u32 (t + nextdiff))
          else Some zl);
    bytes ← ZIPLIST_BYTES zl;
    zl ← mmove zl first_p p (bytes - p - 1);
    Some (zl, nextdiff)
  else
    zl ← set_ZIPLIST_TAIL_OFFSET zl (u32 (first_p - prevrawlen first));
    Some (zl, 0).

Definition __ziplistDelete (zl : list Z) (p num : Z) : option (list Z) :=
  first ← zipEntry zl p;
  let first_p := p in
  '(p, deleted) ← delete_span (Z.to_nat num) zl p;
  let totlen := u32 (p - first_p) in
  if 0 <? totlen then
    '(zl, nextdiff) ← delete_move zl first first_p p totlen;
    bytes ← ZIPLIST_BYTES zl;
    zl ← ziplistResize zl (u32 (bytes - totlen + nextdiff));
    zl ← ZIPLIST_INCR_LENGTH zl (- deleted);
    if negb (nextdiff =? 0) then __ziplistCascadeUpdate zl first_p else Some zl
  else Some zl.

(** The length of the entry before [p]. *)
Definition insert_prevlen (zl : list Z) (p : Z) : option Z :=
  c ← mget zl p;
  if negb (c =? ZIP_END) then entry ← zipEntry zl p; Some (prevrawlen entry)
  else
    ptail ← ZIPLIST_TAIL_OFFSET zl;
    c ← mget zl ptail;
    if negb (c =? ZIP_END) then zipRawEntryLength zl ptail else Some 0.

(** Room for [reqlen] bytes at [p]: the resize, the move and the cascade. *)
Definition insert_room (zl : list Z) (p curlen reqlen nextdiff : Z) : option (list Z) :=
  zl ← ziplistResize zl (u32 (curlen + reqlen + nextdiff));
  c ← mget zl p;
  zl ←
    (if negb (c =? ZIP_END) then
       zl ← mmove zl (p + reqlen) (p - nextdiff) (curlen - p - 1 + nextdiff);
       '(zl, _) ← zipPrevEncodeLength zl (p + reqlen) (u32 reqlen);
       t ← ZIPLIST_TAIL_OFFSET zl;
       zl ← set_ZIPLIST_TAIL_OFFSET zl (u32 (t + reqlen));
       tail ← zipEntry zl (p + reqlen);
       c ← mget zl (p + reqlen + headersize tail + len tail);
       if negb (c =? ZIP_END) then
         t ← ZIPLIST_TAIL_OFFSET zl; set_ZIPLIST_TAIL_OFFSET zl (u32 (t + nextdiff))
       else Some zl
     else set_ZIPLIST_TAIL_OFFSET zl (u32 p));
  if negb (nextdiff =? 0) then __ziplistCascadeUpdate zl (p + reqlen) else Some zl.

(** "Write the entry". *)
Definition insert_write (zl : list Z) (p prevlen encoding slen value : Z) (s : list Z) : option (list Z) :=
  '(zl, n) ← zipPrevEncodeLength zl p prevlen;
  let p := p + n in
  '(zl, n) ← zipEncodeLength zl p encoding slen;
  let p := p + n in
  if ZIP_IS_STR encoding then b ← mload s 0 slen; mstore zl p b
  else zipSaveInteger zl p value encoding.

Definition __ziplistInsert (zl : list Z) (p : Z) (s : list Z) (slen : Z) : option (list Z) :=
  curlen ← ZIPLIST_BYTES zl;
  prevlen ← insert_prevlen zl p;
  let enc := zipTryEncoding s slen in
  let value := match enc with Some (v, _) => v | None => 123456789 end in
  let encoding := match enc with Some (_, e) => e | None => 0 end in
  let reqlen := match enc with Some (_, e) => zipIntSize e | None => slen end in
  let reqlen := reqlen + zipPrevEncodeLength_size prevlen in
  let reqlen := reqlen + zipEncodeLength_size encoding slen in
  c ← mget zl p;
  nextdiff ← (if negb (c =? ZIP_END) then zipPrevLenByteDiff zl p (u32 reqlen) else Some 0);
  zl ← insert_room zl p curlen reqlen nextdiff;
  zl ← insert_write zl p prevlen encoding slen value s;
  ZIPLIST_INCR_LENGTH zl 1.

Definition ZIPLIST_ENTRY_HEAD : Z := ZIPLIST_HEADER_SIZE.
Definition ZIPLIST_ENTRY_END (zl : list Z) : option Z := n ← ZIPLIST_BYTES zl; Some (n - 1).

Definition ziplistPush (zl : list Z) (s : list Z) (slen where_ : Z) : option (list Z) :=
  p ← (if where_ =? ZIPLIST_HEAD then Some ZIPLIST_ENTRY_HEAD else ZIPLIST_ENTRY_END zl);
  __ziplistInsert zl p s slen.

Definition ziplistInsert (zl : list Z) (p : Z) (s : list Z) (slen : Z) : option (list Z) :=
  __ziplistInsert zl p s slen.

(** The ziplist and the pointer left in [*p]. *)
Definition ziplistDelete (zl : list Z) (p : Z) : option (list Z * Z) :=
  zl ← __ziplistDelete zl p 1; Some (zl, p).

(** ** Traversal *)

(** [while (entry.prevrawlen > 0 && index--)]. *)
Fixpoint index_back (fuel : nat) (zl : list Z) (p index : Z) : option (Z * Z) :=
  entry ← zipEntry zl p;
  if 0 <? prevrawlen entry then
    if index =? 0 then Some (p, index - 1)
    else
      match fuel with
      | O => None
      | S fuel => index_back fuel zl (p - prevrawlen entry) (index - 1)
      end
  else Some (p, index).

(** [while (p[0] != ZIP_END && index--)]. *)
Fixpoint index_fwd (fuel : nat) (zl : list Z) (p index : Z) : option (Z * Z) :=
  c ← mget zl p;
  if c =? ZIP_END then Some (p, index)
  else if index =? 0 then Some (p, index - 1)
  else
    match fuel with
    | O => None
    | S fuel => l ← zipRawEntryLength zl p; index_fwd fuel zl (p + l) (index - 1)
    end.

(** NULL is the inner [None]. *)
Definition ziplistIndex (zl : list Z) (index : Z) : option (option Z) :=
  '(p, index) ←
    (if index <? 0 then
       let index := i32 (- index) - 1 in
       p ← ZIPLIST_TAIL_OFFSET zl;
       c ← mget zl p;
       if negb (c =? ZIP_END) then index_back (length zl) zl p index else Some (p, index)
     else index_fwd (length zl) zl ZIPLIST_ENTRY_HEAD index);
  c ← mget zl p;
  Some (if (c =? ZIP_END) || (0 <? index) then None else Some p).

Definition ziplistDeleteRange (zl : list Z) (index num : Z) : option (list Z) :=
  p ← ziplistIndex zl (i32 index);
  match p with None => Some zl | Some p => __ziplistDelete zl p num end.

Definition ziplistNext (zl : list Z) (p : Z) : option (option Z) :=
  c ← mget zl p;
  if c =? ZIP_END then Some None
  else
    l ← zipRawEntryLength zl p;
    c ← mget zl (p + l);
    Some (if c =? ZIP_END then None else Some (p + l)).

Definition ziplistPrev (zl : list Z) (p : Z) : option (option Z) :=
  c ← mget zl p;
  if c =? ZIP_END then
    p ← ZIPLIST_TAIL_OFFSET zl;
    c ← mget zl p;
    Some (if c =? ZIP_END then None else Some p)
  else if p =? ZIPLIST_ENTRY_HEAD then Some None
  else
    entry ← zipEntry zl p;
    if 0 <? prevrawlen entry then Some (Some (p - prevrawlen entry)) else None.

(** What ziplistGet stores: the string's pointer and length, or the integer. *)
Inductive zget := GetStr (sstr slen : Z) | GetInt (sval : Z).

Definition ziplistGet (zl : list Z) (p : option Z) : option (option zget) :=
  match p with
  | None => Some None
  | Some p =>
      c ← mget zl p;
      if c =? ZIP_END then Some None
      else
        entry ← zipEntry zl p;
        if ZIP_IS_STR (encoding entry) then Some (Some (GetStr (p + headersize entry) (len entry)))
        else v ← zipLoadInteger zl (p + headersize entry) (encoding entry); Some (Some (GetInt v))
  end.

Definition memeq (a b : list Z) : bool := bool_decide (a = b).

Definition ziplistCompare (zl : list Z) (p : Z) (sstr : list Z) (slen : Z) : option bool :=
  c ← mget zl p;
  if c =? ZIP_END then Some false
  else
    entry ← zipEntry zl p;
    if ZIP_IS_STR (encoding entry) then
      if len entry =? slen then
        a ← mload zl (p + headersize entry) slen;
        b ← mload sstr 0 slen;
        Some (memeq a b)
      else Some false
    else
      match zipTryEncoding sstr slen with
      | Some (sval, _) =>
          zval ← zipLoadInteger zl (p + headersize entry) (encoding entry);
          Some (zval =? sval)
      | None => Some false
      end.

(** [while (p[0] != ZIP_END)]: [venc] is [vencoding], 0 before the first try. *)
Fixpoint find_loop (fuel : nat) (zl : list Z) (p : Z) (vstr : list Z) (vlen skip : Z)
    (skipcnt venc vll : Z) : option (option Z) :=
  c ← mget zl p;
  if c =? ZIP_END then Some None
  else
    match fuel with
    | O => None
    | S fuel =>
        prevlensize ← ZIP_DECODE_PREVLENSIZE zl p;
        '(enc, lensize, len) ← ZIP_DECODE_LENGTH zl (p + prevlensize);
        let q := p + prevlensize + lensize in
        if skipcnt =? 0 then
          if ZIP_IS_STR enc then
            eq ← (if len =? vlen then a ← mload zl q vlen; b ← mload vstr 0 vlen; Some (memeq a b)
                  else Some false);
            if (eq : bool) then Some (Some p)
            else find_loop fuel zl (q + len) vstr vlen skip (i32 skip) venc vll
          else
            let '(venc, vll) :=
              if venc =? 0 then
                match zipTryEncoding vstr vlen with
                | Some (v, e) => (e, v)
                | None => (255, vll)
                end
              else (venc, vll) in
            eq ← (if negb (venc =? 255) then ll ← zipLoadInteger zl q enc; Some (ll =? vll)
                  else Some false);
            if (eq : bool) then Some (Some p)
            else find_loop fuel zl (q + len) vstr vlen skip (i32 skip) venc vll
        else find_loop fuel zl (q + len) vstr vlen skip (skipcnt - 1) venc vll
    end.

Definition ziplistFind (zl : list Z) (p : Z) (vstr : list Z) (vlen skip : Z) : option (option Z) :=
  find_loop (length zl) zl p vstr vlen skip 0 0 0.

Fixpoint count_loop (fuel : nat) (zl : list Z) (p n : Z) : option Z :=
  c ← mget zl p;
  if c =? ZIP_END then Some n
  else
    match fuel with
    | O => None
    | S fuel => l ← zipRawEntryLength zl p; count_loop fuel zl (p + l) (u32 (n + 1))
    end.

(** The length may be stored. *)
Definition ziplistLen (zl : list Z) : option (list Z * Z) :=
  n ← ZIPLIST_LENGTH zl;
  if intrev16ifbe n <? UINT16_MAX then Some (zl, intrev16ifbe n)
  else
    len ← count_loop (length zl) zl ZIPLIST_HEADER_SIZE 0;
    zl ← (if len <? UINT16_MAX then set_ZIPLIST_LENGTH zl (intrev16ifbe len) else Some zl);
    Some (zl, len).

Definition ziplistBlobLen (zl : list Z) : option Z := ZIPLIST_BYTES zl.

(** ** The entries of a block *)

(** A string, or an integer with the encoding it is stored with. *)
Inductive zval := ZStr (s : list Z) | ZInt (enc z : Z).

(** [e_big]: the length of the previous entry is on 5 bytes. *)
Record ent := Ent { e_big : bool; e_val : zval }.

Definition int_size (enc : Z) : nat := Z.to_nat (zipIntSize enc).
Definition val_hdr (v : zval) : list Z :=
  match v with ZStr s => zipEncodeLength_buf 0 (blen s) | ZInt enc _ => [enc] end.
Definition val_payload (v : zval) : list Z :=
  match v with ZStr s => s | ZInt enc z => le_enc (int_size enc) z end.
Definition val_bytes (v : zval) : list Z := val_hdr v ++ val_payload v.

(** The range of the integers of an encoding. *)
Definition int_ok (enc z : Z) : Prop :=
  (enc = ZIP_INT_8B ∧ - 2 ^ 7 ≤ z < 2 ^ 7) ∨ (enc = ZIP_INT_16B ∧ - 2 ^ 15 ≤ z < 2 ^ 15) ∨
  (enc = ZIP_INT_24B ∧ - 2 ^ 23 ≤ z < 2 ^ 23) ∨ (enc = ZIP_INT_32B ∧ - 2 ^ 31 ≤ z < 2 ^ 31) ∨
  (enc = ZIP_INT_64B ∧ - 2 ^ 63 ≤ z < 2 ^ 63) ∨ (enc = ZIP_INT_IMM_MIN + z ∧ 0 ≤ z ≤ 12).
Definition val_ok (v : zval) : Prop :=
  match v with ZStr s => Forall byte_ok s ∧ blen s < 2 ^ 32 | ZInt enc z => int_ok enc z end.

Definition prev_bytes (big : bool) (prev : Z) : list Z :=
  if big then ZIP_BIGLEN :: le_enc 4 prev else [prev].
Definition prev_size (big : bool) : Z := if big then 5 else 1.
Definition ent_bytes (prev : Z) (e : ent) : list Z := prev_bytes (e_big e) prev ++ val_bytes (e_val e).
Definition ent_len (e : ent) : Z := prev_size (e_big e) + blen (val_bytes (e_val e)).

Fixpoint ents_bytes (prev : Z) (es : list ent) : list Z :=
  match es with [] => [] | e :: es => ent_bytes prev e ++ ents_bytes (ent_len e) es end.
Fixpoint ents_len (es : list ent) : Z :=
  match es with [] => 0 | e :: es => ent_len e + ents_len es end.
Fixpoint last_len (prev : Z) (es : list ent) : Z :=
  match es with [] => prev | e :: es => last_len (ent_len e) es end.

(** Each 1 byte length is less than 254. *)
Fixpoint chain_ok (prev : Z) (es : list ent) : Prop :=
  match es with
  | [] => True
  | e :: es => (e_big e = false → prev < ZIP_BIGLEN) ∧ chain_ok (ent_len e) es
  end.

Lemma prev_bytes_length big prev : blen (prev_bytes big prev) = prev_size big.
Proof. destruct big; [|done]. unfold prev_bytes. rewrite blen_cons. unfold blen. by rewrite le_enc_length. Qed.

Lemma ent_bytes_length prev e : blen (ent_bytes prev e) = ent_len e.
Proof. unfold ent_bytes, ent_len. by rewrite blen_app, prev_bytes_length. Qed.

Lemma ents_bytes_length prev es : blen (ents_bytes prev es) = ents_len es.
Proof.
  revert prev. induction es as [|e es IH]; intros prev; [done|]. simpl.
  by rewrite blen_app, ent_bytes_length, IH.
Qed.

Lemma ents_bytes_app prev a b :
  ents_bytes prev (a ++ b) = ents_bytes prev a ++ ents_bytes (last_len prev a) b.
Proof.
  revert prev. induction a as [|e a IH]; intros prev; [done|]. simpl. by rewrite IH, (assoc_L (++)).
Qed.
Lemma ents_len_app a b : ents_len (a ++ b) = ents_len a + ents_len b.
Proof. induction a as [|e a IH]; simpl; lia. Qed.
Lemma last_len_app prev a b : last_len prev (a ++ b) = last_len (last_len prev a) b.
Proof. revert prev. induction a; simpl; auto. Qed.
Lemma chain_ok_app prev a b : chain_ok prev (a ++ b) ↔ chain_ok prev a ∧ chain_ok (last_len prev a) b.
Proof. revert prev. induction a as [|e a IH]; intros prev; simpl; [tauto|]. rewrite IH. tauto. Qed.

Lemma val_hdr_length v : 1 ≤ blen (val_hdr v) ≤ 5.
Proof. destruct v; simpl; [|done]. unfold zipEncodeLength_buf. repeat case_match; done. Qed.

Lemma ent_len_pos e : 2 ≤ ent_len e.
Proof.
  unfold ent_len, val_bytes. rewrite blen_app. pose proof (val_hdr_length (e_val e)).
  pose proof (blen_nonneg (val_payload (e_val e))). unfold prev_size. destruct (e_big e); lia.
Qed.
Lemma ents_len_nonneg es : 2 * Z.of_nat (length es) ≤ ents_len es.
Proof. induction es as [|e es IH]; [done|]. cbn [ents_len length]. pose proof (ent_len_pos e). lia. Qed.
Lemma last_len_bound prev es : 0 ≤ prev → 0 ≤ last_len prev es ≤ prev + ents_len es.
Proof.
  revert prev. induction es as [|e es IH]; intros prev Hp; cbn [last_len ents_len]; [lia|].
  pose proof (ent_len_pos e). specialize (IH (ent_len e) ltac:(lia)). lia.
Qed.

(** *** Reading an entry *)

Lemma decode_prevlen A big prev B :
  0 ≤ prev < 2 ^ 32 → (big = false → prev < ZIP_BIGLEN) →
  ZIP_DECODE_PREVLENSIZE (A ++ prev_bytes big prev ++ B) (blen A) = Some (prev_size big) ∧
  ZIP_DECODE_PREVLEN (A ++ prev_bytes big prev ++ B) (blen A) = Some (prev_size big, prev).
Proof.
  intros Hp Hb. unfold ZIP_DECODE_PREVLEN, ZIP_DECODE_PREVLENSIZE, prev_bytes, prev_size.
  destruct big.
  - simpl app. rewrite (mget_app A ZIP_BIGLEN _ (blen A)) by done. cbn [mbind option_bind].
    change (ZIP_BIGLEN <? ZIP_BIGLEN) with false. cbv iota. split; [done|].
    change (5 =? 1) with false. cbv iota.
    assert (A ++ ZIP_BIGLEN :: le_enc 4 prev ++ B = (A ++ [ZIP_BIGLEN]) ++ le_enc 4 prev ++ B) as ->
      by (by rewrite <-(assoc_L (++))).
    rewrite mload_app; [|blia|blia]. cbn [mbind option_bind].
    destruct (memrev32ifbe_le (le_enc 4 prev)) as (bs & -> & Hd & _); [apply le_enc_length|].
    cbn [mbind option_bind]. rewrite Hd, le_dec_enc. do 2 f_equal. apply Z.mod_small. exact Hp.
  - specialize (Hb eq_refl). simpl app. rewrite mget_app by done. cbn [mbind option_bind].
    rewrite (proj2 (Z.ltb_lt _ _)) by done. split; [done|]. done.
Qed.

(** The encoding that ZIP_DECODE_LENGTH finds. *)
Definition val_enc (v : zval) : Z :=
  match v with
  | ZStr s => if blen s <=? 63 then ZIP_STR_06B else if blen s <=? 16383 then ZIP_STR_14B else ZIP_STR_32B
  | ZInt enc _ => enc
  end.

Lemma val_enc_str s : ZIP_IS_STR (val_enc (ZStr s)) = true.
Proof. unfold val_enc. by repeat case_match. Qed.

Lemma int_ok_enc enc z : int_ok enc z → 192 ≤ enc ≤ 254 ∧ ZIP_IS_STR enc = false ∧
  ZIP_ENTRY_ENCODING enc = enc.
Proof.
  intros Hok. assert (192 ≤ enc ≤ 254) as He.
  { unfold int_ok, ZIP_INT_8B, ZIP_INT_16B, ZIP_INT_24B, ZIP_INT_32B, ZIP_INT_64B, ZIP_INT_IMM_MIN in Hok. lia. }
  split; [done|]. clear Hok.
  assert (ZIP_IS_STR enc = false).
  { unfold ZIP_IS_STR, ZIP_STR_MASK. replace enc with (192 + Z.of_nat (Z.to_nat (enc - 192))) by lia.
    assert (Z.to_nat (enc - 192) < 64)%nat as Hn by lia. revert Hn.
    generalize (Z.to_nat (enc - 192)). intros n Hn. do 64 (destruct n as [|n]; [done|]). lia. }
  split; [done|]. unfold ZIP_ENTRY_ENCODING, ZIP_STR_MASK. by rewrite (proj2 (Z.ltb_ge _ _)) by lia.
Qed.

Lemma land_ones_mod x k : 0 ≤ k → Z.land x (2 ^ k - 1) = x mod 2 ^ k.
Proof. apply land_mask_mod. Qed.

Lemma be_bytes n : 0 ≤ n < 2 ^ 32 →
  u32 (Z.lor (Z.lor (Z.lor (Z.shiftl (Z.land (Z.shiftr n 24) 255) 24)
    (Z.shiftl (Z.land (Z.shiftr n 16) 255) 16)) (Z.shiftl (Z.land (Z.shiftr n 8) 255) 8)) (Z.land n 255)) = n.
Proof.
  intros Hn. unfold wrapu. change 255 with (Z.ones 8). apply Z.bits_inj'. intros i Hi.
  destruct (decide (i < 32)).
  - rewrite Z.mod_pow2_bits_low by lia.
    rewrite !Z.lor_spec, !Z.shiftl_spec, !Z.land_spec by lia.
    destruct (decide (i < 8)); [|destruct (decide (i < 16)); [|destruct (decide (i < 24))]].
    + rewrite (Z.testbit_neg_r _ (i - 24)), (Z.testbit_neg_r _ (i - 16)), (Z.testbit_neg_r _ (i - 8)) by lia.
      simpl. rewrite Z.testbit_ones_nonneg, (proj2 (Z.ltb_lt _ _)) by lia. by rewrite andb_true_r.
    + rewrite (Z.testbit_neg_r _ (i - 24)), (Z.testbit_neg_r _ (i - 16)) by lia. cbn [andb orb].
      rewrite !Z.testbit_ones_nonneg by lia. rewrite (proj2 (Z.ltb_lt (i - 8) 8)), (proj2 (Z.ltb_ge i 8)) by lia.
      rewrite andb_false_r, andb_true_r, orb_false_r. simpl. rewrite Z.shiftr_spec by lia. f_equal. lia.
    + rewrite (Z.testbit_neg_r _ (i - 24)) by lia. cbn [andb orb].
      rewrite !Z.testbit_ones_nonneg by lia.
      rewrite (proj2 (Z.ltb_lt (i - 16) 8)), (proj2 (Z.ltb_ge (i - 8) 8)), (proj2 (Z.ltb_ge i 8)) by lia.
      rewrite !andb_false_r, andb_true_r, !orb_false_r. simpl. rewrite Z.shiftr_spec by lia. f_equal. lia.
    + rewrite !Z.testbit_ones_nonneg by lia.
      rewrite (proj2 (Z.ltb_lt (i - 24) 8)), (proj2 (Z.ltb_ge (i - 16) 8)), (proj2 (Z.ltb_ge (i - 8) 8)),
        (proj2 (Z.ltb_ge i 8)) by lia.
      rewrite !andb_false_r, andb_true_r, !orb_false_r. rewrite Z.shiftr_spec by lia. f_equal. lia.
  - rewrite Z.mod_pow2_bits_high by lia. rewrite <-(Z.mod_small n (2 ^ 32)) by done.
    by rewrite Z.mod_pow2_bits_high by lia.
Qed.

Lemma small_string_byte n : 0 ≤ n < 64 →
  Z.lor 0 n = n ∧ (n <? 192) = true ∧ Z.land n 192 = 0 ∧ Z.land n 63 = n ∧
  (Z.lor 64 n <? 192) = true ∧ Z.land (Z.lor 64 n) 192 = 64 ∧ Z.land (Z.lor 64 n) 63 = n.
Proof.
  intros Hn. replace n with (Z.of_nat (Z.to_nat n)) by lia. assert (Z.to_nat n < 64)%nat as Hk by lia.
  revert Hk. generalize (Z.to_nat n). intros k Hk. do 64 (destruct k as [|k]; [done|]). lia.
Qed.


Lemma decode_length A v B :
  val_ok v →
  ZIP_DECODE_LENGTH (A ++ val_hdr v ++ B) (blen A)
    = Some (val_enc v, blen (val_hdr v), blen (val_payload v)).
Proof.
  intros Hok. unfold ZIP_DECODE_LENGTH. destruct v as [s|enc z]; simpl val_hdr.
  2:{ apply int_ok_enc in Hok as Hio. destruct Hio as (He & _ & Hee). simpl app.
      rewrite (mget_app _ _ _ (blen A)) by done. cbn [mbind option_bind]. rewrite Hee.
      unfold ZIP_STR_MASK. rewrite (proj2 (Z.ltb_ge _ _)) by lia.
      assert (blen (val_payload (ZInt enc z)) = zipIntSize enc) as ->; [|done].
      unfold val_payload, blen, int_size. rewrite le_enc_length, Z2Nat.id; [done|].
      unfold zipIntSize. repeat case_match; done. }
  destruct Hok as [_ Hl]. pose proof (blen_nonneg s) as Hn. simpl val_payload. unfold val_enc, zipEncodeLength_buf.
  change (ZIP_IS_STR 0) with true. cbv iota.
  destruct (Z.leb_spec (blen s) 63) as [Hs|Hs]; [|destruct (Z.leb_spec (blen s) 16383) as [Hs2|Hs2]].
  - destruct (small_string_byte (blen s)) as (E1 & E2 & E3 & E4 & _); [lia|].
    unfold ZIP_STR_06B. rewrite E1. simpl app. rewrite (mget_app _ _ _ (blen A)) by done. cbn [mbind option_bind].
    unfold ZIP_ENTRY_ENCODING, ZIP_STR_MASK. rewrite E2, E3. simpl. by rewrite E4.
  - set (h := Z.land (Z.shiftr (blen s) 8) 63).
    pose proof (Z.div_mod (blen s) 256 ltac:(lia)) as Hdm.
    pose proof (Z.mod_pos_bound (blen s) 256 ltac:(lia)) as Hmb.
    assert (h = blen s / 256) as Eh.
    { subst h. rewrite (land_ones_mod _ 6), Z.shiftr_div_pow2 by lia. apply Z.mod_small.
      change (2 ^ 8) with 256. change (2 ^ 6) with 64. lia. }
    destruct (small_string_byte h) as (_ & _ & _ & _ & E2 & E3 & E4); [lia|].
    unfold ZIP_STR_14B. simpl app. rewrite (mget_app A _ _ (blen A)) by done. cbn [mbind option_bind].
    unfold ZIP_ENTRY_ENCODING, ZIP_STR_MASK. rewrite E2, E3.
    change (64 <? 192) with true. cbv iota.
    change (64 =? ZIP_STR_06B) with false. change (64 =? 64) with true. cbv iota.
    rewrite cons_middle, (assoc_L (++)), (mget_app _ _ _ (blen A + 1)) by blia. cbn [mbind option_bind]. rewrite E4.
    rewrite (land_ones_mod _ 8), Z.shiftl_mul_pow2 by lia.
    rewrite (lor_disjoint h _ 8) by (try apply Z.mod_pos_bound; lia). change (2 ^ 8) with 256.
    repeat f_equal. lia.
  - unfold ZIP_STR_32B. simpl app. rewrite (mget_app A _ _ (blen A)) by done. cbn [mbind option_bind].
    change (ZIP_ENTRY_ENCODING 128) with 128. change (128 <? ZIP_STR_MASK) with true. cbv iota.
    change (128 =? ZIP_STR_06B) with false. change (128 =? ZIP_STR_14B) with false.
    change (128 =? 128) with true. cbv iota.
    set (b1 := Z.land (Z.shiftr (blen s) 24) 255). set (b2 := Z.land (Z.shiftr (blen s) 16) 255).
    set (b3 := Z.land (Z.shiftr (blen s) 8) 255). set (b4 := Z.land (blen s) 255).
    assert (∀ p x l r, A ++ 128 :: p ++ x :: r = l → mget l (blen A + 1 + blen p) = Some x) as Hget.
    { intros p x l r <-. rewrite cons_middle, !(assoc_L (++)). apply mget_app. blia. }
    replace (blen A + 1) with (blen A + 1 + blen []) by (rewrite blen_nil; lia).
    rewrite (Hget [] b1 _ (b2 :: b3 :: b4 :: B)) by done. cbn [mbind option_bind].
    replace (blen A + 2) with (blen A + 1 + blen [b1]) by (rewrite blen_cons, blen_nil; lia).
    rewrite (Hget [b1] b2 _ (b3 :: b4 :: B)) by done. cbn [mbind option_bind].
    replace (blen A + 3) with (blen A + 1 + blen [b1; b2]) by (rewrite !blen_cons, blen_nil; lia).
    rewrite (Hget [b1; b2] b3 _ (b4 :: B)) by done. cbn [mbind option_bind].
    replace (blen A + 4) with (blen A + 1 + blen [b1; b2; b3]) by (rewrite !blen_cons, blen_nil; lia).
    rewrite (Hget [b1; b2; b3] b4 _ B) by done. cbn [mbind option_bind].
    do 2 f_equal. apply be_bytes. lia.
Qed.

Lemma zipEntry_at A prev e B :
  0 ≤ prev < 2 ^ 32 → (e_big e = false → prev < ZIP_BIGLEN) → val_ok (e_val e) →
  zipEntry (A ++ ent_bytes prev e ++ B) (blen A) =
    Some (Zlentry (prev_size (e_big e)) prev (blen (val_hdr (e_val e))) (blen (val_payload (e_val e)))
            (prev_size (e_big e) + blen (val_hdr (e_val e))) (val_enc (e_val e))).
Proof.
  intros Hp Hb Hok. unfold zipEntry, ent_bytes, val_bytes. rewrite <-!(assoc_L (++)).
  destruct (decode_prevlen A (e_big e) prev (val_hdr (e_val e) ++ val_payload (e_val e) ++ B) Hp Hb) as [_ ->].
  cbn [mbind option_bind].
  rewrite (assoc_L (++) A), <-(prev_bytes_length (e_big e) prev), <-blen_app, decode_length by done.
  cbn [mbind option_bind]. by rewrite prev_bytes_length.
Qed.

Lemma rawlen_at A prev e B :
  0 ≤ prev < 2 ^ 32 → (e_big e = false → prev < ZIP_BIGLEN) → val_ok (e_val e) → ent_len e < 2 ^ 32 →
  zipRawEntryLength (A ++ ent_bytes prev e ++ B) (blen A) = Some (ent_len e).
Proof.
  intros Hp Hb Hok Hl. unfold zipRawEntryLength, ent_bytes, val_bytes. rewrite <-!(assoc_L (++)).
  destruct (decode_prevlen A (e_big e) prev (val_hdr (e_val e) ++ val_payload (e_val e) ++ B) Hp Hb) as [-> _].
  cbn [mbind option_bind].
  rewrite (assoc_L (++) A), <-(prev_bytes_length (e_big e) prev), <-blen_app, decode_length by done.
  cbn [mbind option_bind]. pose proof (ent_len_pos e). f_equal. rewrite prev_bytes_length.
  unfold ent_len, val_bytes in *. rewrite blen_app in *. rewrite wrapu_small; lia.
Qed.

(** The byte at the head of the rest of a block. *)
Lemma head_byte A prev es :
  0 ≤ prev → chain_ok prev es →
  ∃ c, mget (A ++ ents_bytes prev es ++ [ZIP_END]) (blen A) = Some c ∧
    (c =? ZIP_END) = match es with [] => true | _ => false end.
Proof.
  intros Hp Hc. destruct es as [|e es]; simpl.
  { rewrite (mget_app _ _ _ (blen A)) by done. eauto. }
  destruct Hc as [Hb _]. unfold ent_bytes, prev_bytes. destruct (e_big e); simpl app.
  - rewrite (mget_app _ _ _ (blen A)) by done. eauto.
  - rewrite (mget_app _ _ _ (blen A)) by done. eexists; split; [done|]. specialize (Hb eq_refl).
    unfold ZIP_BIGLEN, ZIP_END in *. apply Z.eqb_neq. lia.
Qed.

(** *** Writing the length of the previous entry *)

Lemma forceLarge_at A B C l :
  blen B = 5 → zipPrevEncodeLengthForceLarge (A ++ B ++ C) (blen A) l
    = Some (A ++ prev_bytes true l ++ C).
Proof.
  intros HB. unfold zipPrevEncodeLengthForceLarge. destruct B as [|x B]; [done|].
  rewrite blen_cons in HB. simpl app. rewrite mset_app by done. cbn [mbind option_bind].
  assert (A ++ ZIP_BIGLEN :: B ++ C = (A ++ [ZIP_BIGLEN]) ++ B ++ C) as -> by (by rewrite <-(assoc_L (++))).
  rewrite mstore_app; [|blia|rewrite native_enc_length; unfold blen in HB; lia]. cbn [mbind option_bind].
  rewrite memrev32ifbe_native by blia. unfold prev_bytes. by rewrite <-(assoc_L (++)).
Qed.

Lemma prevEncode_at A B C l :
  blen B = zipPrevEncodeLength_size l → 0 ≤ l →
  zipPrevEncodeLength (A ++ B ++ C) (blen A) l
    = Some (A ++ prev_bytes (ZIP_BIGLEN <=? l) l ++ C, zipPrevEncodeLength_size l).
Proof.
  unfold zipPrevEncodeLength, zipPrevEncodeLength_size. intros HB Hl.
  destruct (Z.ltb_spec l ZIP_BIGLEN).
  - rewrite (proj2 (Z.leb_gt _ _)) by done. destruct B as [|x [|? B]]; try (rewrite ?blen_cons, ?blen_nil in HB; pose proof (blen_nonneg B); lia) || done.
    + simpl app. by rewrite mset_app.
  - rewrite (proj2 (Z.leb_le _ _)) by done. rewrite forceLarge_at by done. done.
Qed.

Lemma prev_size_eq l : zipPrevEncodeLength_size l = prev_size (ZIP_BIGLEN <=? l).
Proof.
  unfold zipPrevEncodeLength_size, prev_size.
  destruct (Z.ltb_spec l ZIP_BIGLEN), (Z.leb_spec ZIP_BIGLEN l); done || lia.
Qed.

(** *** Integers *)

Lemma zipSaveInteger_at A B C enc z :
  int_ok enc z → length B = int_size enc →
  zipSaveInteger (A ++ B ++ C) (blen A) z enc = Some (A ++ le_enc (int_size enc) z ++ C).
Proof.
  intros Hok HB. unfold zipSaveInteger.
  destruct Hok as [[-> Hz] | [[-> Hz] | [[-> Hz] | [[-> Hz] | [[-> Hz] | [-> Hz]]]]]].
  - destruct B as [|x [|? ?]]; try done. change (ZIP_INT_8B =? ZIP_INT_8B) with true. cbv iota.
    simpl app. rewrite mset_app by done. done.
  - change (mstore (A ++ B ++ C) (blen A) (native_enc 2 (i16 z)) ≫= (λ zl, memrev16ifbe zl (blen A))
      = Some (A ++ le_enc 2 z ++ C)).
    rewrite mstore_app by (rewrite ?native_enc_length; done). cbn [mbind option_bind].
    rewrite memrev16ifbe_native by done. rewrite (wraps_small 16 z) by (unlimit; lia). done.
  - change ((b ← memrev32ifbe (native_enc 4 (i32 (Z.shiftl z 8))) 0; b ← mload b 1 3;
      mstore (A ++ B ++ C) (blen A) b) = Some (A ++ le_enc 3 z ++ C)).
    rewrite Z.shiftl_mul_pow2 by lia. change (2 ^ 8) with 256.
    rewrite (wraps_small 32) by (unlimit; lia).
    pose proof (memrev32ifbe_native [] (z * 256) [] 0 eq_refl) as E. rewrite !app_nil_r in E.
    simpl app in E. rewrite E. cbn [mbind option_bind]. rewrite le_enc_shift.
    rewrite <-(app_nil_r (le_enc 3 z)). change (0 :: le_enc 3 z ++ []) with ([0] ++ le_enc 3 z ++ []).
    rewrite mload_app by (unfold blen; rewrite ?le_enc_length; done). cbn [mbind option_bind].
    by rewrite app_nil_r, mstore_app by (rewrite ?le_enc_length; done).
  - change (mstore (A ++ B ++ C) (blen A) (native_enc 4 (i32 z)) ≫= (λ zl, memrev32ifbe zl (blen A))
      = Some (A ++ le_enc 4 z ++ C)).
    rewrite mstore_app by (rewrite ?native_enc_length; done). cbn [mbind option_bind].
    rewrite memrev32ifbe_native by done. rewrite (wraps_small 32 z) by (unlimit; lia). done.
  - change (mstore (A ++ B ++ C) (blen A) (native_enc 8 z) ≫= (λ zl, memrev64ifbe zl (blen A))
      = Some (A ++ le_enc 8 z ++ C)).
    rewrite mstore_app by (rewrite ?native_enc_length; done). cbn [mbind option_bind].
    rewrite memrev64ifbe_native by done. done.
  - unfold int_size, zipIntSize, ZIP_INT_8B, ZIP_INT_16B, ZIP_INT_24B, ZIP_INT_32B, ZIP_INT_64B,
      ZIP_INT_IMM_MIN, ZIP_INT_IMM_MAX in *.
    revert HB. zdec. intros HB. destruct B; [|done]. done.
Qed.

Lemma zipLoadInteger_at A C enc z :
  int_ok enc z → zipLoadInteger (A ++ le_enc (int_size enc) z ++ C) (blen A) enc = Some z.
Proof.
  intros Hok. unfold zipLoadInteger.
  destruct Hok as [[-> Hz] | [[-> Hz] | [[-> Hz] | [[-> Hz] | [[-> Hz] | [-> Hz]]]]]].
  - change ((b ← mget (A ++ le_enc 1 z ++ C) (blen A); Some (i8 b)) = Some z).
    rewrite le_enc_S, le_enc_0. simpl app. rewrite mget_app by done. cbn [mbind option_bind]. f_equal.
    change (z mod 256) with (wrapu 8 z). rewrite wraps_wrapu by lia. apply wraps_small; [lia|unlimit; lia].
  - change ((b ← mload (A ++ le_enc 2 z ++ C) (blen A) 2; b ← memrev16ifbe b 0; Some (native_sdec b)) = Some z).
    rewrite mload_app by (unfold blen; rewrite ?le_enc_length; done). cbn [mbind option_bind].
    destruct (memrev16ifbe_le (le_enc 2 z)) as (bs & -> & _ & Hd); [apply le_enc_length|].
    cbn [mbind option_bind]. rewrite Hd, le_sdec_enc; [done|lia|]. unlimit; simpl; lia.
  - change ((b ← mload (A ++ le_enc 3 z ++ C) (blen A) 3; b ← memrev32ifbe (0 :: b) 0;
      Some (Z.shiftr (native_sdec b) 8)) = Some z).
    rewrite mload_app by (unfold blen; rewrite ?le_enc_length; done). cbn [mbind option_bind].
    rewrite <-le_enc_shift.
    destruct (memrev32ifbe_le (le_enc 4 (z * 256))) as (bs & -> & _ & Hd); [apply le_enc_length|].
    cbn [mbind option_bind]. rewrite Hd, le_sdec_enc; [|lia|unlimit; simpl; lia].
    rewrite Z.shiftr_div_pow2 by lia. change (2 ^ 8) with 256. by rewrite Z_div_mult by lia.
  - change ((b ← mload (A ++ le_enc 4 z ++ C) (blen A) 4; b ← memrev32ifbe b 0; Some (native_sdec b)) = Some z).
    rewrite mload_app by (unfold blen; rewrite ?le_enc_length; done). cbn [mbind option_bind].
    destruct (memrev32ifbe_le (le_enc 4 z)) as (bs & -> & _ & Hd); [apply le_enc_length|].
    cbn [mbind option_bind]. rewrite Hd, le_sdec_enc; [done|lia|]. unlimit; simpl; lia.
  - change ((b ← mload (A ++ le_enc 8 z ++ C) (blen A) 8; b ← memrev64ifbe b 0; Some (native_sdec b)) = Some z).
    rewrite mload_app by (unfold blen; rewrite ?le_enc_length; done). cbn [mbind option_bind].
    destruct (memrev64ifbe_le (le_enc 8 z)) as (bs & -> & _ & Hd); [apply le_enc_length|].
    cbn [mbind option_bind]. rewrite Hd, le_sdec_enc; [done|lia|]. unlimit; simpl; lia.
  - unfold ZIP_INT_8B, ZIP_INT_16B, ZIP_INT_24B, ZIP_INT_32B, ZIP_INT_64B,
      ZIP_INT_IMM_MIN, ZIP_INT_IMM_MAX in *. zdec. cbv iota. simpl. f_equal.
    replace z with (Z.of_nat (Z.to_nat z)) by lia. assert (Z.to_nat z < 13)%nat as Hk by lia.
    revert Hk. generalize (Z.to_nat z). intros k Hk. do 13 (destruct k as [|k]; [done|]). lia.
Qed.

(** The text of a value, and the value that a text is stored as. *)
Definition text (v : zval) : list Z := match v with ZStr s => s | ZInt _ z => ll_text z end.
Definition enc_of (s : list Z) : zval :=
  match zipTryEncoding s (blen s) with Some (v, e) => ZInt e v | None => ZStr s end.

Lemma zipTryEncoding_ok s v e :
  zipTryEncoding s (blen s) = Some (v, e) → int_ok e v ∧ s = ll_text v ∧ 0 < blen s < 32.
Proof.
  unfold zipTryEncoding. destruct (_ || _) eqn:E; [done|]. apply orb_false_iff in E as [E1 E2].
  apply Z.leb_gt in E1. apply Z.eqb_neq in E2. pose proof (blen_nonneg s).
  rewrite to_nat_blen, firstn_all. destruct (string2ll s) as [v'|] eqn:Es; [|done].
  cbn [mbind option_bind]. intros Hr. apply (inj Some), pair_eq in Hr as [-> <-].
  apply string2ll_inv in Es as [Hv ->]. split; [|split; [done|lia]]. unfold int_ok, in_i64 in *.
  destruct ((0 <=? v) && (v <=? 12)) eqn:E0; [|clear E0].
  { do 5 right. split; [apply wrapu_small; unfold ZIP_INT_IMM_MIN; lia|lia]. }
  destruct ((-128 <=? v) && (v <=? 127)) eqn:E3; [left; split; [done|lia]|right; clear E3].
  change INT16_MIN with (-2 ^ 15). change INT16_MAX with (2 ^ 15 - 1).
  destruct ((-2 ^ 15 <=? v) && (v <=? 2 ^ 15 - 1)) eqn:E3; [left; split; [done|lia]|right; clear E3].
  change INT24_MIN with (-2 ^ 23). change INT24_MAX with (2 ^ 23 - 1).
  destruct ((-2 ^ 23 <=? v) && (v <=? 2 ^ 23 - 1)) eqn:E3; [left; split; [done|lia]|right; clear E3].
  change INT32_MIN with (-2 ^ 31). change INT32_MAX with (2 ^ 31 - 1).
  destruct ((-2 ^ 31 <=? v) && (v <=? 2 ^ 31 - 1)) eqn:E3; [left; split; [done|lia]|right; clear E3].
  left. split; [done|]. unfold LLONG_MIN, LLONG_MAX in Hv. lia.
Qed.

Lemma enc_of_ok s : Forall byte_ok s → blen s < 2 ^ 32 → val_ok (enc_of s) ∧ text (enc_of s) = s.
Proof.
  intros Hs Hl. unfold enc_of. destruct (zipTryEncoding s (blen s)) as [[v e]|] eqn:E; [|done].
  apply zipTryEncoding_ok in E as (? & -> & _). done.
Qed.

Lemma int_size_pos enc : Z.of_nat (int_size enc) = zipIntSize enc.
Proof. unfold int_size, zipIntSize. repeat case_match; done. Qed.

(** ** The header *)

Definition hdr (total tail cnt : Z) : list Z := le_enc 4 total ++ le_enc 4 tail ++ le_enc 2 cnt.

Lemma hdr_length T t c : blen (hdr T t c) = 10.
Proof. unfold hdr, blen. by rewrite !length_app, !le_enc_length. Qed.

Lemma hdr_bytes T t c R : 0 ≤ T < 2 ^ 32 → ZIPLIST_BYTES (hdr T t c ++ R) = Some T.
Proof.
  intros HT. unfold ZIPLIST_BYTES, hdr. rewrite <-!(assoc_L (++)).
  rewrite <-(app_nil_l (le_enc 4 T ++ le_enc 4 t ++ le_enc 2 c ++ R)), mload_app by (unfold blen; rewrite ?le_enc_length; done).
  cbn [mbind option_bind]. rewrite native_dec_le32, le_dec_enc by (apply le_enc_length || apply le_enc_ok).
  f_equal. by apply Z.mod_small.
Qed.
Lemma hdr_tail T t c R : 0 ≤ t < 2 ^ 32 → ZIPLIST_TAIL_OFFSET (hdr T t c ++ R) = Some t.
Proof.
  intros HT. unfold ZIPLIST_TAIL_OFFSET, hdr. rewrite <-!(assoc_L (++)).
  rewrite mload_app by (unfold blen; rewrite ?le_enc_length; done).
  cbn [mbind option_bind]. rewrite native_dec_le32, le_dec_enc by (apply le_enc_length || apply le_enc_ok).
  f_equal. by apply Z.mod_small.
Qed.
Lemma hdr_set_bytes T t c R v : set_ZIPLIST_BYTES (hdr T t c ++ R) v = Some (hdr v t c ++ R).
Proof.
  unfold set_ZIPLIST_BYTES, hdr. rewrite native_enc_le32, <-!(assoc_L (++)).
  rewrite <-(app_nil_l (le_enc 4 T ++ le_enc 4 t ++ le_enc 2 c ++ R)).
  by rewrite mstore_app by (rewrite ?le_enc_length; done).
Qed.
Lemma hdr_set_tail T t c R v : set_ZIPLIST_TAIL_OFFSET (hdr T t c ++ R) v = Some (hdr T v c ++ R).
Proof.
  unfold set_ZIPLIST_TAIL_OFFSET, hdr. rewrite native_enc_le32, <-!(assoc_L (++)).
  by rewrite mstore_app by (unfold blen; rewrite ?le_enc_length; done).
Qed.

(** The stored count is exact below its maximum. *)
Definition cnt_ok (c : Z) (n : nat) : Prop := 0 ≤ c ≤ UINT16_MAX ∧ (c < UINT16_MAX → c = Z.of_nat n).

Lemma hdr_length_raw T t c R :
  0 ≤ c ≤ UINT16_MAX →
  ∃ raw, ZIPLIST_LENGTH (hdr T t c ++ R) = Some raw ∧ intrev16ifbe raw = c ∧
    (raw <? UINT16_MAX) = (c <? UINT16_MAX).
Proof.
  intros Hc. unfold ZIPLIST_LENGTH, hdr. rewrite <-!(assoc_L (++)), (assoc_L (++) (le_enc 4 T)).
  rewrite mload_app by (unfold blen; rewrite ?length_app, ?le_enc_length; done).
  cbn [mbind option_bind].
  assert (le_dec (le_enc 2 c) = c) as Ec
    by (rewrite le_dec_enc; apply Z.mod_small; unfold UINT16_MAX in Hc; simpl; lia).
  eexists; split; [done|]. split.
  { by rewrite native_dec_le16 by (apply le_enc_length || apply le_enc_ok). }
  unfold native_dec. destruct big_endian; [|by rewrite Ec].
  rewrite !le_enc_S, le_enc_0. change (reverse [c mod 256; c / 256 mod 256]) with [c / 256 mod 256; c mod 256].
  assert (∀ x y, le_dec [x; y] = x + 256 * y) as ->.
  { intros. rewrite !le_dec_cons, le_dec_nil. lia. }
  pose proof (Z.div_mod c 256 ltac:(lia)). pose proof (Z.mod_pos_bound c 256 ltac:(lia)).
  unfold UINT16_MAX in *. rewrite (Z.mod_small (c / 256)) by lia.
  destruct (Z.ltb_spec (c / 256 + 256 * (c mod 256)) 65535), (Z.ltb_spec c 65535); lia || done.
Qed.

Lemma hdr_incr T t c R n k :
  cnt_ok c n → 0 ≤ Z.of_nat n + k → k ≤ 1 →
  ∃ c', ZIPLIST_INCR_LENGTH (hdr T t c ++ R) k = Some (hdr T t c' ++ R) ∧
    cnt_ok c' (Z.to_nat (Z.of_nat n + k)).
Proof.
  intros [Hc Hn] Hk Hk1. destruct (hdr_length_raw T t c R Hc) as (raw & Er & Ei & El).
  unfold ZIPLIST_INCR_LENGTH. rewrite Er. cbn [mbind option_bind]. rewrite El, Ei.
  destruct (Z.ltb_spec c UINT16_MAX) as [Hlt|Hge].
  - specialize (Hn Hlt). exists (c + k). unfold UINT16_MAX in *.
    rewrite (wrapu_small 16) by (unlimit; lia). split.
    + unfold set_ZIPLIST_LENGTH, hdr. rewrite native_enc_le16, <-!(assoc_L (++)), !(assoc_L (++) (le_enc 4 T)).
      by rewrite mstore_app by (unfold blen; rewrite ?length_app, ?le_enc_length; done).
    + unfold cnt_ok, UINT16_MAX. lia.
  - exists c. split; [done|]. split; [done|lia].
Qed.

(** [ziplistResize] of a block that grows, or that shrinks to a prefix. *)
Lemma resize_grow T t c R n :
  10 + blen R ≤ n → 0 < blen R →
  ∃ J, ziplistResize (hdr T t c ++ R) n = Some (hdr n t c ++ J ++ [ZIP_END]) ∧
    blen J = n - 11 ∧ (∀ r, 10 + r < n → r ≤ blen R → take (Z.to_nat r) J = take (Z.to_nat r) R).
Proof.
  intros Hn HR. unfold ziplistResize.
  destruct (mresize_grow junk (hdr T t c ++ R) n) as (tl & -> & Htl).
  { rewrite blen_app, hdr_length. lia. }
  rewrite blen_app, hdr_length in Htl. rewrite <-(assoc_L (++)), hdr_set_bytes. cbn [mbind option_bind].
  assert (0 < length (R ++ tl))%nat as Hpos by (revert HR; unfold blen; rewrite length_app; lia).
  destruct (exists_last (l := R ++ tl)) as (J & x & EJ); [intros E; rewrite E in Hpos; simpl in Hpos; lia|].
  assert (blen J = n - 11) as HJ.
  { assert (blen (R ++ tl) = blen (J ++ [x])) as E by (by rewrite EJ).
    rewrite !blen_app, blen_cons, blen_nil in E. lia. }
  exists J. split; [|split; [done|]].
  - rewrite EJ, (assoc_L (++)), mset_app; [by rewrite <-(assoc_L (++))|].
    rewrite blen_app, hdr_length. lia.
  - intros r Hr HrR. transitivity (take (Z.to_nat r) (J ++ [x])).
    + rewrite take_app_le; [done|]. unfold blen in HJ. lia.
    + rewrite <-EJ. rewrite take_app_le; [done|]. unfold blen in HrR. lia.
Qed.

Lemma resize_shrink T t c J x R n :
  n = 11 + blen J → ziplistResize (hdr T t c ++ J ++ x :: R) n = Some (hdr n t c ++ J ++ [ZIP_END]).
Proof.
  intros ->. unfold ziplistResize.
  assert (hdr T t c ++ J ++ x :: R = (hdr T t c ++ J ++ [x]) ++ R) as -> by (by rewrite <-!(assoc_L (++))).
  rewrite mresize_shrink by (rewrite !blen_app, hdr_length, blen_cons, blen_nil; lia).
  rewrite hdr_set_bytes. cbn [mbind option_bind].
  rewrite (assoc_L (++)), mset_app; [by rewrite <-(assoc_L (++))|].
  rewrite blen_app, hdr_length. lia.
Qed.


(** ** Cascading updates *)

(** What the entries become when the length of their predecessor is [prev]:
    lengths grow to 5 bytes as long as it is necessary. *)
Fixpoint cascade (prev : Z) (es : list ent) : list ent :=
  match es with
  | [] => []
  | e :: es' =>
      if e_big e || (prev <? ZIP_BIGLEN) then es
      else let e' := Ent true (e_val e) in e' :: cascade (ent_len e') es'
  end.

Lemma cascade_id prev es : chain_ok prev es → cascade prev es = es.
Proof.
  destruct es as [|[[] v] es]; [done..|]. cbn [chain_ok cascade e_big]. intros [Hb _].
  by rewrite (proj2 (Z.ltb_lt _ _)) by auto.
Qed.

Lemma cascade_chain old prev es : chain_ok old es → chain_ok prev (cascade prev es).
Proof.
  revert old prev. induction es as [|[big v] es IH]; intros old prev; [done|].
  cbn [chain_ok cascade e_big e_val]. intros [Hb Hc].
  destruct big; cbn [orb]; [by split|]. destruct (Z.ltb_spec prev ZIP_BIGLEN); [by split|].
  split; [done|]. by eapply IH.
Qed.

Lemma cascade_vals prev es : e_val <$> cascade prev es = e_val <$> es.
Proof.
  revert prev. induction es as [|[big v] es IH]; intros prev; [done|]. cbn [cascade]. case_match; [done|].
  change (v :: (e_val <$> cascade (ent_len (Ent true v)) es) = v :: (e_val <$> es)). by rewrite IH.
Qed.

Lemma cascade_length prev es : length (cascade prev es) = length es.
Proof. rewrite <-(length_fmap e_val), cascade_vals. apply length_fmap. Qed.

Lemma ent_len_big v : ent_len (Ent true v) = ent_len (Ent false v) + 4.
Proof. unfold ent_len, prev_size. cbn [e_big e_val]. lia. Qed.

Lemma cascade_size prev es : ents_len es ≤ ents_len (cascade prev es) ≤ ents_len es + 4 * Z.of_nat (length es).
Proof.
  revert prev. induction es as [|[big v] es IH]; intros prev; [done|]. cbn [cascade e_big e_val].
  case_match; [lia|]. cbn [ents_len length]. specialize (IH (ent_len (Ent true v))).
  destruct big; [done|]. rewrite ent_len_big in *. lia.
Qed.

Definition vals_ok (es : list ent) : Prop := Forall (λ e, val_ok (e_val e)) es.

Lemma vals_ok_vals es es' : e_val <$> es = e_val <$> es' → vals_ok es → vals_ok es'.
Proof. unfold vals_ok. intros E Hv. apply (Forall_fmap e_val val_ok). rewrite <-E. by apply Forall_fmap. Qed.

(** The block of a cascade that has reached the entry [cur]: [es] still hold the
    length [old] for it. *)
Definition cstate (c : Z) (P : list Z) (pv : Z) (cur : ent) (old : Z) (es : list ent) : list Z :=
  hdr (11 + blen P + ent_len cur + ents_len es)
      (10 + blen P + ent_len cur + ents_len es - last_len (ent_len cur) es) c
    ++ P ++ ent_bytes pv cur ++ ents_bytes old es ++ [ZIP_END].

Ltac lapp := repeat (rewrite <-?(assoc_L (++)); cbn [app]); reflexivity.

Lemma cstate_cons c P pv cur old e es :
  cstate c P pv cur old (e :: es) =
    hdr (11 + blen P + ent_len cur + (ent_len e + ents_len es))
        (10 + blen P + ent_len cur + (ent_len e + ents_len es) - last_len (ent_len e) es) c
      ++ P ++ ent_bytes pv cur ++ ent_bytes old e ++ ents_bytes (ent_len e) es ++ [ZIP_END].
Proof. unfold cstate. cbn [ents_bytes ents_len last_len]. lapp. Qed.

Lemma cstate_next c P pv cur e es :
  cstate c P pv cur (ent_len cur) (e :: es) = cstate c (P ++ ent_bytes pv cur) (ent_len cur) e (ent_len e) es.
Proof.
  rewrite cstate_cons. unfold cstate. rewrite blen_app, ent_bytes_length, <-(assoc_L (++) P).
  do 2 f_equal; lia.
Qed.

Lemma ent_head A pv e B :
  (e_big e = false → pv < ZIP_BIGLEN) →
  ∃ b, mget (A ++ ent_bytes pv e ++ B) (blen A) = Some b ∧ (b =? ZIP_END) = false.
Proof.
  intros Hb. unfold ent_bytes, prev_bytes. destruct (e_big e); simpl app.
  - rewrite (mget_app _ _ _ (blen A)) by done. by eexists.
  - rewrite (mget_app _ _ _ (blen A)) by done. eexists; split; [done|]. specialize (Hb eq_refl).
    unfold ZIP_BIGLEN, ZIP_END in *. apply Z.eqb_neq. lia.
Qed.

Lemma last_len_le prev es : es ≠ [] → 2 ≤ last_len prev es ≤ ents_len es.
Proof.
  destruct es as [|e es]; [done|]. intros _. cbn [last_len ents_len].
  revert e. induction es as [|e' es IH]; intros e; cbn [last_len ents_len].
  - pose proof (ent_len_pos e). lia.
  - pose proof (ent_len_pos e). specialize (IH e'). lia.
Qed.

(** One turn that makes the length of [e] larger. *)
Lemma cascade_grow c P pv cur old v es :
  ZIP_BIGLEN ≤ ent_len cur →
  11 + blen P + ent_len cur + ents_len (Ent false v :: es) + 4 < 2 ^ 32 →
  let zl := cstate c P pv cur old (Ent false v :: es) in
  let np := 10 + blen P + ent_len cur in
  let curlen := 11 + blen P + ent_len cur + ents_len (Ent false v :: es) in
  (zl ← ziplistResize zl (u32 (curlen + 4));
   tail ← ZIPLIST_TAIL_OFFSET zl;
   zl ← (if negb (tail =? np) then set_ZIPLIST_TAIL_OFFSET zl (u32 (tail + 4)) else Some zl);
   zl ← mmove zl (np + 5) (np + 1) (curlen - np - 1 - 1);
   zipPrevEncodeLength zl np (ent_len cur))
  = Some (cstate c (P ++ ent_bytes pv cur) (ent_len cur) (Ent true v) (ent_len (Ent false v)) es, 5).
Proof.
  intros Hbig Hsz zl np curlen. subst zl. rewrite cstate_cons.
  set (old_len := ent_len (Ent false v)) in *.
  change (ents_len (Ent false v :: es)) with (old_len + ents_len es) in *.
  pose proof (ent_len_pos cur) as Hcur. pose proof (ent_len_pos (Ent false v)) as Hv.
  fold old_len in Hv. pose proof (ents_len_nonneg es) as Hes. pose proof (blen_nonneg P) as HP.
  unfold ent_bytes at 2. cbn [e_big e_val prev_bytes].
  set (W := val_bytes v ++ ents_bytes old_len es).
  assert (blen W = old_len + ents_len es - 1) as HW.
  { subst W. rewrite blen_app, ents_bytes_length. unfold old_len, ent_len. cbn [e_big e_val prev_size]. lia. }
  set (Q := P ++ ent_bytes pv cur).
  assert (blen Q = blen P + ent_len cur) as HQ by (subst Q; by rewrite blen_app, ent_bytes_length).
  set (R := Q ++ old :: W ++ [ZIP_END]).
  assert (P ++ ent_bytes pv cur ++ ([old] ++ val_bytes v) ++ ents_bytes old_len es ++ [ZIP_END] = R) as ->
    by (subst R Q W; simpl; lapp).
  assert (blen R = curlen - 10) as HR.
  { subst R curlen. rewrite blen_app, blen_cons, blen_app, blen_cons, blen_nil. lia. }
  rewrite (wrapu_small 32) by lia.
  destruct (resize_grow (11 + blen P + ent_len cur + (old_len + ents_len es))
    (10 + blen P + ent_len cur + (old_len + ents_len es) - last_len old_len es) c R (curlen + 4))
    as (J & -> & HJ & HJt); [lia|lia|]. cbn [mbind option_bind].
  specialize (HJt (blen R) ltac:(lia) ltac:(lia)). rewrite !to_nat_blen, firstn_all in HJt.
  assert (∃ x, J = R ++ x ∧ blen x = 3) as (x & -> & Hx).
  { exists (drop (length R) J). rewrite <-HJt at 1. rewrite take_drop. split; [done|].
    unfold blen in *. rewrite length_drop. lia. }
  clear HJ HJt.
  pose proof (last_len_bound old_len es ltac:(lia)) as Hll.
  rewrite hdr_tail by lia. cbn [mbind option_bind].
  set (t' := 10 + blen Q + ent_len (Ent true v) + ents_len es - last_len (ent_len (Ent true v)) es).
  pose proof (ent_len_big v : ent_len (Ent true v) = old_len + 4) as Hnew.
  match goal with |- (?X ≫= _) = _ => assert (X = Some (hdr (curlen + 4) t' c ++ (R ++ x) ++ [ZIP_END])) as -> end.
  { destruct es as [|e es].
    - cbn [ents_len last_len] in *. subst np t'. rewrite (proj2 (Z.eqb_eq _ _)) by lia. cbn [negb].
      do 3 f_equal. lia.
    - pose proof (last_len_le old_len (e :: es) ltac:(done)).
      subst np t'. rewrite (proj2 (Z.eqb_neq _ _)) by lia. cbn [negb]. rewrite hdr_set_tail.
      rewrite (wrapu_small 32) by lia. do 3 f_equal. cbn [last_len]. lia. }
  cbn [mbind option_bind].
  destruct (split_at (old :: W ++ [ZIP_END] ++ x) 5) as (Y1 & Y2 & EY & HY1).
  { rewrite blen_cons, !blen_app, blen_cons, blen_nil. pose proof (blen_nonneg W). lia. }
  assert (blen Y2 = blen W) as HY2.
  { assert (blen (old :: W ++ [ZIP_END] ++ x) = blen (Y1 ++ Y2)) as E by (by rewrite EY).
    rewrite blen_cons, !blen_app, blen_cons, blen_nil in E. lia. }
  rewrite (mmove_app _ (hdr (curlen + 4) t' c ++ Q ++ Y1) Y2 [ZIP_END] W
    (hdr (curlen + 4) t' c ++ Q ++ [old]) (ZIP_END :: x ++ [ZIP_END])).
  - cbn [mbind option_bind]. subst np.
    assert ((hdr (curlen + 4) t' c ++ Q ++ Y1) ++ W ++ [ZIP_END] =
      (hdr (curlen + 4) t' c ++ Q) ++ Y1 ++ (W ++ [ZIP_END])) as -> by lapp.
    replace (10 + blen P + ent_len cur) with (blen (hdr (curlen + 4) t' c ++ Q))
      by (rewrite blen_app, hdr_length; lia).
    rewrite prevEncode_at; [|by unfold zipPrevEncodeLength_size; rewrite (proj2 (Z.ltb_ge _ _)) by lia|lia].
    rewrite (proj2 (Z.leb_le _ _)) by done. unfold zipPrevEncodeLength_size.
    rewrite (proj2 (Z.ltb_ge _ _)) by done. f_equal. f_equal. unfold cstate. fold t'.
    replace (11 + blen Q + ent_len (Ent true v) + ents_len es) with (curlen + 4) by lia.
    subst W. unfold ent_bytes at 1. cbn [e_big e_val]. lapp.
  - subst R. transitivity (hdr (curlen + 4) t' c ++ Q ++ (old :: W ++ [ZIP_END] ++ x) ++ [ZIP_END]); [lapp|].
    rewrite EY. lapp.
  - subst R. lapp.
  - rewrite !blen_app, hdr_length. lia.
  - rewrite !blen_app, hdr_length, blen_cons, blen_nil. lia.
  - lia.
  - done.
Qed.

(** Reading the state of a cascade. *)
Lemma cstate_cur c P pv cur old es :
  0 ≤ pv < 2 ^ 32 → (e_big cur = false → pv < ZIP_BIGLEN) → val_ok (e_val cur) → ent_len cur < 2 ^ 32 →
  (∃ b, mget (cstate c P pv cur old es) (10 + blen P) = Some b ∧ (b =? ZIP_END) = false) ∧
  ∃ cz, zipEntry (cstate c P pv cur old es) (10 + blen P) = Some cz ∧
    u32 (headersize cz + len cz) = ent_len cur.
Proof.
  intros Hp Hb Hv Hl. unfold cstate. set (h := hdr _ _ _).
  assert (10 + blen P = blen (h ++ P)) as -> by (rewrite blen_app; subst h; by rewrite hdr_length).
  rewrite (assoc_L (++) h). split; [by apply ent_head|].
  rewrite zipEntry_at by done. eexists. split; [done|]. cbn [headersize len].
  pose proof (ent_len_pos cur). unfold ent_len, val_bytes in *. rewrite blen_app in *.
  rewrite (wrapu_small 32); lia.
Qed.

Lemma cstate_next_entry c P pv cur old e es :
  0 ≤ old < 2 ^ 32 → (e_big e = false → old < ZIP_BIGLEN) → val_ok (e_val e) →
  (∃ b, mget (cstate c P pv cur old (e :: es)) (10 + blen P + ent_len cur) = Some b ∧ (b =? ZIP_END) = false) ∧
  ∃ nz, zipEntry (cstate c P pv cur old (e :: es)) (10 + blen P + ent_len cur) = Some nz ∧
    prevrawlen nz = old ∧ prevrawlensize nz = prev_size (e_big e).
Proof.
  intros Hp Hb Hv. rewrite cstate_cons. set (h := hdr _ _ _).
  assert (10 + blen P + ent_len cur = blen (h ++ P ++ ent_bytes pv cur)) as ->
    by (rewrite !blen_app, ent_bytes_length; subst h; rewrite hdr_length; lia).
  assert (∀ X, h ++ P ++ ent_bytes pv cur ++ X = (h ++ P ++ ent_bytes pv cur) ++ X) as -> by (intros; lapp).
  split; [by apply ent_head|]. rewrite zipEntry_at by done. eexists. split; [done|]. done.
Qed.

Lemma cstate_end c P pv cur old : mget (cstate c P pv cur old []) (10 + blen P + ent_len cur) = Some ZIP_END.
Proof.
  unfold cstate. set (h := hdr _ _ _). cbn [ents_bytes app].
  assert (h ++ P ++ ent_bytes pv cur ++ [ZIP_END] = (h ++ P ++ ent_bytes pv cur) ++ [ZIP_END]) as -> by lapp.
  apply mget_app. rewrite !blen_app, ent_bytes_length. subst h. rewrite hdr_length. lia.
Qed.

(** The length of the next entry rewritten in place. *)
Lemma cstate_rewrite c P pv cur old e es l :
  let zl := cstate c P pv cur old (e :: es) in
  0 ≤ l →
  (e_big e = true → zipPrevEncodeLengthForceLarge zl (10 + blen P + ent_len cur) l
    = Some (cstate c P pv cur l (e :: es))) ∧
  (prev_size (e_big e) = zipPrevEncodeLength_size l →
    zipPrevEncodeLength zl (10 + blen P + ent_len cur) l =
      Some (cstate c P pv cur l (e :: es), zipPrevEncodeLength_size l)).
Proof.
  intros zl Hl. subst zl. rewrite !cstate_cons. set (h := hdr _ _ _). unfold ent_bytes at 2 4 6 8.
  assert (10 + blen P + ent_len cur = blen (h ++ P ++ ent_bytes pv cur)) as ->
    by (rewrite !blen_app, ent_bytes_length; subst h; rewrite hdr_length; lia).
  assert (∀ X Y Z, h ++ P ++ ent_bytes pv cur ++ (X ++ Y) ++ Z = (h ++ P ++ ent_bytes pv cur) ++ X ++ Y ++ Z) as E
    by (intros; lapp).
  rewrite !E. split.
  - intros Hb. rewrite Hb, forceLarge_at by (by rewrite prev_bytes_length). done.
  - intros Hs. rewrite prevEncode_at by (rewrite ?prev_bytes_length; done).
    assert (e_big e = (ZIP_BIGLEN <=? l)) as ->; [|done].
    rewrite prev_size_eq in Hs. destruct (e_big e), (ZIP_BIGLEN <=? l); done.
Qed.

Lemma cascade_loop_spec c es : ∀ fuel P pv cur old,
  0 ≤ pv < 2 ^ 32 → (e_big cur = false → pv < ZIP_BIGLEN) → val_ok (e_val cur) →
  0 ≤ old < 2 ^ 32 → chain_ok old es → vals_ok es →
  11 + blen P + ent_len cur + ents_len es + 4 * Z.of_nat (length es) < 2 ^ 32 → (length es < fuel)%nat →
  cascade_loop fuel (cstate c P pv cur old es) (10 + blen P) (11 + blen P + ent_len cur + ents_len es)
    = Some (cstate c P pv cur (ent_len cur) (cascade (ent_len cur) es)).
Proof.
  induction es as [|e es IH]; intros fuel P pv cur old Hpv Hbig Hok Hold Hch Hvs Hsz Hfuel;
    (destruct fuel as [|fuel]; [simpl in Hfuel; lia|]); pose proof (ent_len_pos cur) as Hcl;
    pose proof (blen_nonneg P) as HP.
  - cbn [ents_len length] in Hsz.
    destruct (cstate_cur c P pv cur old [] Hpv Hbig Hok ltac:(lia)) as [(b & Eb & Eb') (cz & Ec & El)].
    cbn [cascade_loop]. rewrite Eb. cbn [mbind option_bind]. rewrite Eb', Ec. cbn [mbind option_bind].
    rewrite El, cstate_end. done.
  - apply Forall_cons in Hvs as [Hve Hvs]. destruct Hch as [Hbe Hch].
    pose proof (ent_len_pos e) as Hel. pose proof (ents_len_nonneg es) as Hes.
    cbn [ents_len] in Hsz. rewrite length_cons in Hsz, Hfuel.
    destruct (cstate_cur c P pv cur old (e :: es) Hpv Hbig Hok ltac:(lia)) as [(b & Eb & Eb') (cz & Ec & El)].
    destruct (cstate_next_entry c P pv cur old e es Hold Hbe Hve) as [(b2 & En & En') (nz & Enz & Epl & Eps)].
    destruct (cstate_rewrite c P pv cur old e es (ent_len cur) ltac:(lia)) as [Hforce Hwrite].
    cbn [cascade_loop]. rewrite Eb. cbn [mbind option_bind]. rewrite Eb', Ec. cbn [mbind option_bind].
    rewrite El, En. cbn [mbind option_bind]. rewrite En', Enz. cbn [mbind option_bind].
    rewrite Epl, Eps.
    destruct (Z.eqb_spec old (ent_len cur)) as [->|Hne].
    { rewrite cascade_id; [done|]. by split. }
    destruct e as [big v]. cbn [e_big e_val cascade] in *. unfold zipPrevEncodeLength_size in *.
    destruct big; cbn [prev_size orb] in *.
    + rewrite (proj2 (Z.ltb_ge 5 _)) by (case_match; lia).
      destruct (Z.ltb_spec (ent_len cur) ZIP_BIGLEN); cbn [Z.ltb Z.compare Pos.compare Pos.compare_cont].
      * by rewrite Hforce.
      * by rewrite Hwrite.
    + destruct (Z.ltb_spec (ent_len cur) ZIP_BIGLEN); cbn [Z.ltb Z.compare Pos.compare Pos.compare_cont].
      * by rewrite Hwrite.
      * pose proof (cascade_grow c P pv cur old v es ltac:(done) ltac:(cbn [ents_len]; lia)) as Hg.
        cbv zeta in Hg. change (5 - 1) with 4.
        destruct (ziplistResize _ _) as [z1|]; [|done]. cbn [mbind option_bind] in *.
        destruct (ZIPLIST_TAIL_OFFSET z1) as [t1|]; [|done]. cbn [mbind option_bind] in *.
        destruct (if negb _ then _ else _) as [z2|]; [|done]. cbn [mbind option_bind] in *.
        destruct (mmove _ _ _ _) as [z3|]; [|done]. cbn [mbind option_bind] in *.
        rewrite Hg. cbn [mbind option_bind].
        assert (blen (P ++ ent_bytes pv cur) = blen P + ent_len cur) as HQ
          by (by rewrite blen_app, ent_bytes_length).
        pose proof (ent_len_big v) as Hv4.
        replace (10 + blen P + ent_len cur) with (10 + blen (P ++ ent_bytes pv cur)) by lia.
        replace (11 + blen P + ent_len cur + ents_len (Ent false v :: es) + 4)
          with (11 + blen (P ++ ent_bytes pv cur) + ent_len (Ent true v) + ents_len es)
          by (cbn [ents_len]; lia).
        rewrite (IH fuel); try done; try lia. by rewrite <-cstate_next.
Qed.

(** The cascade from an entry of the block. *)
Lemma cascade_spec c P pv cur old es :
  0 ≤ pv < 2 ^ 32 → (e_big cur = false → pv < ZIP_BIGLEN) → val_ok (e_val cur) →
  0 ≤ old < 2 ^ 32 → chain_ok old es → vals_ok es →
  11 + blen P + ent_len cur + ents_len es + 4 * Z.of_nat (length es) < 2 ^ 32 →
  __ziplistCascadeUpdate (cstate c P pv cur old es) (10 + blen P)
    = Some (cstate c P pv cur (ent_len cur) (cascade (ent_len cur) es)).
Proof.
  intros. unfold __ziplistCascadeUpdate. pose proof (ents_len_nonneg es). pose proof (ent_len_pos cur).
  pose proof (blen_nonneg P).
  assert (ZIPLIST_BYTES (cstate c P pv cur old es) = Some (11 + blen P + ent_len cur + ents_len es)) as ->
    by (unfold cstate; apply hdr_bytes; lia).
  cbn [mbind option_bind].
  apply cascade_loop_spec; try done. unfold cstate. rewrite !length_app.
  pose proof (hdr_length (11 + blen P + ent_len cur + ents_len es)
    (10 + blen P + ent_len cur + ents_len es - last_len (ent_len cur) es) c).
  pose proof (ents_bytes_length old es). unfold blen in *. lia.
Qed.

(** ** The abstract ziplist *)

Definition zblock (c : Z) (es : list ent) : list Z :=
  hdr (11 + ents_len es) (10 + ents_len es - last_len 0 es) c ++ ents_bytes 0 es ++ [ZIP_END].

(** The block [zl] holds the entries [es]. *)
Definition zrep (zl : list Z) (es : list ent) : Prop :=
  ∃ c, cnt_ok c (length es) ∧ zl = zblock c es ∧ chain_ok 0 es ∧ vals_ok es.

(** The offset of the [i]-th entry. *)
Definition zpos (es : list ent) (i : nat) : Z := 10 + ents_len (take i es).

Lemma cstate_zblock c a e b :
  cstate c (ents_bytes 0 a) (last_len 0 a) e (ent_len e) b = zblock c (a ++ e :: b).
Proof.
  unfold cstate, zblock. rewrite ents_bytes_app, ents_len_app, last_len_app, ents_bytes_length.
  cbn [ents_bytes ents_len last_len]. rewrite <-!(assoc_L (++)). do 2 f_equal; lia.
Qed.

Lemma zblock_split c a b :
  zblock c (a ++ b) = hdr (11 + ents_len (a ++ b)) (10 + ents_len (a ++ b) - last_len 0 (a ++ b)) c
    ++ ents_bytes 0 a ++ ents_bytes (last_len 0 a) b ++ [ZIP_END].
Proof. unfold zblock. by rewrite ents_bytes_app, <-(assoc_L (++)). Qed.

(** The byte, the entry and the length at the position between [a] and [b]. *)
Lemma zblock_at c a b :
  chain_ok 0 (a ++ b) → vals_ok (a ++ b) → ents_len (a ++ b) < 2 ^ 32 →
  (∃ x, mget (zblock c (a ++ b)) (10 + ents_len a) = Some x ∧
    (x =? ZIP_END) = match b with [] => true | _ => false end) ∧
  (∀ e b', b = e :: b' →
    ZIP_DECODE_PREVLENSIZE (zblock c (a ++ b)) (10 + ents_len a) = Some (prev_size (e_big e)) ∧
    ZIP_DECODE_LENGTH (zblock c (a ++ b)) (10 + ents_len a + prev_size (e_big e))
      = Some (val_enc (e_val e), blen (val_hdr (e_val e)), blen (val_payload (e_val e))) ∧
    zipRawEntryLength (zblock c (a ++ b)) (10 + ents_len a) = Some (ent_len e) ∧
    zipEntry (zblock c (a ++ b)) (10 + ents_len a) =
      Some (Zlentry (prev_size (e_big e)) (last_len 0 a) (blen (val_hdr (e_val e)))
        (blen (val_payload (e_val e))) (prev_size (e_big e) + blen (val_hdr (e_val e)))
        (val_enc (e_val e)))).
Proof.
  intros Hc Hv Hs. rewrite zblock_split. set (h := hdr _ _ _).
  assert (10 + ents_len a = blen (h ++ ents_bytes 0 a)) as Hpos
    by (rewrite blen_app, ents_bytes_length; subst h; by rewrite hdr_length).
  rewrite Hpos, (assoc_L (++) h). apply chain_ok_app in Hc as [_ Hc].
  pose proof (last_len_bound 0 a ltac:(lia)) as Hl. rewrite ents_len_app in Hs.
  apply Forall_app in Hv as [_ Hv]. split; [apply head_byte; [lia|done]|].
  intros e b' ->. destruct Hc as [He _]. apply Forall_cons in Hv as [Hve _].
  cbn [ents_bytes ents_len] in *. rewrite <-(assoc_L (++) (ent_bytes _ _)).
  pose proof (ents_len_nonneg a). pose proof (ents_len_nonneg b'). pose proof (ent_len_pos e).
  split; [|split; [|split; [apply rawlen_at|apply zipEntry_at]]]; try done; try lia.
  - unfold ent_bytes. rewrite <-(assoc_L (++) (prev_bytes _ _)).
    apply (decode_prevlen (h ++ ents_bytes 0 a) (e_big e) (last_len 0 a)); [lia|done].
  - unfold ent_bytes, val_bytes. rewrite <-!(assoc_L (++) (prev_bytes _ _)), <-(assoc_L (++) (val_hdr _)).
    rewrite (assoc_L (++) (h ++ ents_bytes 0 a)), <-(prev_bytes_length (e_big e) (last_len 0 a)), <-blen_app.
    by apply decode_length.
Qed.

(** ** Insertion *)

(** The entries after an entry of length [l] that has been put before them. *)
Definition relink (l : Z) (es : list ent) : list ent :=
  match es with
  | [] => []
  | e :: es => let e' := Ent (ZIP_BIGLEN <=? l) (e_val e) in e' :: cascade (ent_len e') es
  end.
Definition nextdiff_of (l : Z) (es : list ent) : Z :=
  match es with [] => 0 | e :: _ => zipPrevEncodeLength_size l - prev_size (e_big e) end.

Lemma relink_vals l es : e_val <$> relink l es = e_val <$> es.
Proof.
  destruct es as [|e es]; [done|]. cbn [relink].
  change (e_val e :: (e_val <$> cascade (ent_len (Ent (ZIP_BIGLEN <=? l) (e_val e))) es) = e_val <$> e :: es).
  by rewrite cascade_vals.
Qed.
Lemma relink_length l es : length (relink l es) = length es.
Proof. rewrite <-(length_fmap e_val), relink_vals. apply length_fmap. Qed.
Lemma relink_chain old l es : chain_ok old es → chain_ok l (relink l es).
Proof.
  destruct es as [|e es]; [done|]. cbn [relink chain_ok e_big]. intros [_ Hc]. split.
  - intros Hl%Z.leb_gt. done.
  - by eapply cascade_chain.
Qed.

Lemma ent_len_with big e : ent_len (Ent big (e_val e)) = ent_len e + prev_size big - prev_size (e_big e).
Proof. unfold ent_len. cbn [e_big e_val]. lia. Qed.

(** The correction of the tail offset after the entry [cur] has changed its size. *)
Lemma tail_fix T t c P pv cur old es nd :
  0 ≤ pv < 2 ^ 32 → (e_big cur = false → pv < ZIP_BIGLEN) → val_ok (e_val cur) →
  0 ≤ old → chain_ok old es → 0 ≤ t < 2 ^ 32 → 0 ≤ t + nd < 2 ^ 32 →
  let zl t := hdr T t c ++ P ++ ent_bytes pv cur ++ ents_bytes old es ++ [ZIP_END] in
  (tail ← zipEntry (zl t) (10 + blen P);
   b ← mget (zl t) (10 + blen P + headersize tail + len tail);
   (if negb (b =? ZIP_END) then
      t' ← ZIPLIST_TAIL_OFFSET (zl t); set_ZIPLIST_TAIL_OFFSET (zl t) (u32 (t' + nd))
    else Some (zl t)))
  = Some (zl (t + match es with [] => 0 | _ => nd end)).
Proof.
  intros Hp Hb Hv Ho Hc Ht Htn zl. subst zl. cbv beta. set (h := hdr T t c).
  assert (10 + blen P = blen (h ++ P)) as E by (rewrite blen_app; subst h; by rewrite hdr_length).
  rewrite E, (assoc_L (++) h), zipEntry_at by done. cbn [mbind option_bind headersize len].
  destruct (head_byte ((h ++ P) ++ ent_bytes pv cur) old es Ho Hc) as (b & Eb & Eb').
  rewrite <-(assoc_L (++) _ (ent_bytes pv cur)), blen_app, ent_bytes_length in Eb.
  replace (blen (h ++ P) + (prev_size (e_big cur) + blen (val_hdr (e_val cur))) +
    blen (val_payload (e_val cur))) with (blen (h ++ P) + ent_len cur)
    by (unfold ent_len, val_bytes; rewrite (blen_app (val_hdr _)); lia).
  rewrite Eb. cbn [mbind option_bind]. rewrite Eb', <-(assoc_L (++) h). subst h.
  destruct es as [|e es]; cbn [negb].
  - do 3 f_equal. lia.
  - rewrite hdr_tail by lia. cbn [mbind option_bind].
    rewrite hdr_set_tail, (wrapu_small 32 (t + nd)) by lia. done.
Qed.

Lemma insert_prevlen_spec c a b :
  chain_ok 0 (a ++ b) → vals_ok (a ++ b) → ents_len (a ++ b) < 2 ^ 32 - 11 →
  insert_prevlen (zblock c (a ++ b)) (10 + ents_len a) = Some (last_len 0 a).
Proof.
  intros Hc Hv Hs. unfold insert_prevlen.
  destruct (zblock_at c a b Hc Hv ltac:(lia)) as [(x & Ex & Ex') Hat]. rewrite Ex. cbn [mbind option_bind].
  rewrite Ex'. destruct b as [|e b]; cbn [negb].
  2:{ destruct (Hat e b eq_refl) as (_ & _ & _ & ->). done. }
  clear Hat Ex Ex'. rewrite app_nil_r in *. pose proof (last_len_bound 0 a ltac:(lia)).
  pose proof (ents_len_nonneg a).
  assert (ZIPLIST_TAIL_OFFSET (zblock c a) = Some (10 + ents_len a - last_len 0 a)) as ->
    by (unfold zblock; apply hdr_tail; lia).
  cbn [mbind option_bind]. destruct a as [|e0 a0 _] using rev_ind.
  - destruct (zblock_at c [] [] Hc Hv ltac:(done)) as [(x' & Ex & Ex') _]. cbn [app ents_len last_len] in *.
    change (10 + 0 - 0) with (10 + 0). rewrite Ex. cbn [mbind option_bind]. by rewrite Ex'.
  - destruct (zblock_at c a0 [e0] Hc Hv ltac:(lia)) as [(x' & Ex & Ex') Hat].
    rewrite ents_len_app, last_len_app. cbn [ents_len last_len].
    replace (10 + (ents_len a0 + (ent_len e0 + 0)) - ent_len e0) with (10 + ents_len a0) by lia.
    rewrite Ex. cbn [mbind option_bind]. rewrite Ex'. cbn [negb].
    destruct (Hat e0 [] eq_refl) as (_ & _ & -> & _). done.
Qed.

(** The end of a block that an update has relinked. *)
Definition relinked (c : Z) (P : list Z) (l : Z) (es : list ent) : list Z :=
  hdr (11 + blen P + ents_len (relink l es))
      (10 + blen P + ents_len (relink l es) - last_len l (relink l es)) c
    ++ P ++ ents_bytes l (relink l es) ++ [ZIP_END].

(** The cascade is only needed when the entry after the update has changed its size. *)
Lemma relink_spec c P l e es :
  0 ≤ l < 2 ^ 32 → val_ok (e_val e) → chain_ok (ent_len e) es → vals_ok es →
  21 + blen P + ents_len (e :: es) + 4 * Z.of_nat (length es) < 2 ^ 32 →
  let zl := cstate c P l (Ent (ZIP_BIGLEN <=? l) (e_val e)) (ent_len e) es in
  (if negb (nextdiff_of l (e :: es) =? 0) then __ziplistCascadeUpdate zl (10 + blen P) else Some zl)
  = Some (relinked c P l (e :: es)).
Proof.
  intros Hl Hv Hc Hvs Hsz zl. subst zl. set (e' := Ent (ZIP_BIGLEN <=? l) (e_val e)).
  assert (relinked c P l (e :: es) = cstate c P l e' (ent_len e') (cascade (ent_len e') es)) as ->.
  { unfold relinked, cstate. cbn [relink ents_len ents_bytes last_len]. fold e'.
    rewrite <-(assoc_L (++) (ent_bytes _ _)). do 2 f_equal; lia. }
  pose proof (ent_len_with (ZIP_BIGLEN <=? l) e) as Hel. fold e' in Hel. cbn [ents_len nextdiff_of] in *.
  rewrite prev_size_eq. pose proof (ent_len_pos e). pose proof (ents_len_nonneg es). pose proof (blen_nonneg P).
  assert (ent_len e' ≤ ent_len e + 4)
    by (destruct (ZIP_BIGLEN <=? l), (e_big e); cbn [prev_size] in *; lia).
  destruct (Z.eqb_spec (prev_size (ZIP_BIGLEN <=? l) - prev_size (e_big e)) 0); cbn [negb].
  - assert (ent_len e' = ent_len e) as -> by lia. rewrite (cascade_id (ent_len e) es) by done. done.
  - rewrite cascade_spec; try done; try lia. intros ?%Z.leb_gt. done.
Qed.

Lemma insert_room_end c a reqlen :
  2 ≤ reqlen → 11 + ents_len a + reqlen < 2 ^ 32 →
  ∃ B, blen B = reqlen ∧
    insert_room (zblock c a) (10 + ents_len a) (11 + ents_len a) reqlen 0
      = Some (relinked c (ents_bytes 0 a ++ B) reqlen []).
Proof.
  intros Hr Hs. unfold insert_room, zblock. pose proof (ents_len_nonneg a).
  rewrite (wrapu_small 32 (11 + ents_len a + reqlen + 0)) by lia.
  destruct (resize_grow (11 + ents_len a) (10 + ents_len a - last_len 0 a) c (ents_bytes 0 a ++ [ZIP_END])
    (11 + ents_len a + reqlen + 0)) as (J & -> & HJ & HJt).
  { rewrite blen_app, ents_bytes_length, blen_cons, blen_nil. lia. }
  { rewrite blen_app, ents_bytes_length, blen_cons, blen_nil. lia. }
  specialize (HJt (blen (ents_bytes 0 a ++ [ZIP_END]))).
  rewrite blen_app, ents_bytes_length, blen_cons, blen_nil in HJt.
  specialize (HJt ltac:(lia) ltac:(lia)).
  replace (Z.to_nat (ents_len a + (1 + 0))) with (length (ents_bytes 0 a ++ [ZIP_END])) in HJt
    by (pose proof (ents_bytes_length 0 a) as El; unfold blen in El; rewrite length_app; simpl; lia).
  rewrite firstn_all in HJt.
  rewrite <-(take_drop (length (ents_bytes 0 a ++ [ZIP_END])) J), HJt in HJ |- *. clear HJt.
  set (x := drop _ J) in *. rewrite !blen_app, ents_bytes_length, blen_cons, blen_nil in HJ.
  exists (ZIP_END :: x). split; [rewrite blen_cons; lia|]. cbn [mbind option_bind].
  set (h := hdr _ _ _).
  assert (mget (h ++ ((ents_bytes 0 a ++ [ZIP_END]) ++ x) ++ [ZIP_END]) (10 + ents_len a) = Some ZIP_END) as ->.
  { assert (h ++ ((ents_bytes 0 a ++ [ZIP_END]) ++ x) ++ [ZIP_END] =
      (h ++ ents_bytes 0 a) ++ ZIP_END :: (x ++ [ZIP_END])) as -> by lapp.
    apply mget_app. subst h. rewrite blen_app, hdr_length, ents_bytes_length. lia. }
  cbn [mbind option_bind]. change (ZIP_END =? ZIP_END) with true. cbn [negb]. subst h.
  rewrite hdr_set_tail, (wrapu_small 32) by lia. cbn [mbind option_bind].
  change (0 =? 0) with true. cbn [negb]. unfold relinked. cbn [relink ents_len ents_bytes last_len].
  rewrite blen_app, ents_bytes_length, blen_cons.
  f_equal. rewrite <-!(assoc_L (++)). cbn [app]. f_equal. f_equal; lia.
Qed.

(** The block after the resize that precedes a move. *)
Lemma insert_resize c a e b n :
  11 + ents_len (a ++ e :: b) ≤ n →
  ∃ x, ziplistResize (zblock c (a ++ e :: b)) n
      = Some (hdr n (10 + ents_len (a ++ e :: b) - last_len 0 (a ++ e :: b)) c ++
          ents_bytes 0 a ++ prev_bytes (e_big e) (last_len 0 a) ++
          (val_bytes (e_val e) ++ ents_bytes (ent_len e) b) ++ x ++ [ZIP_END]) ∧
    blen x = n - 11 - ents_len (a ++ e :: b).
Proof.
  intros Hn. unfold zblock. pose proof (ents_len_nonneg (a ++ e :: b)).
  destruct (resize_grow (11 + ents_len (a ++ e :: b)) (10 + ents_len (a ++ e :: b) - last_len 0 (a ++ e :: b))
    c (ents_bytes 0 (a ++ e :: b) ++ [ZIP_END]) n) as (J & -> & HJ & HJt).
  { rewrite blen_app, ents_bytes_length, blen_cons, blen_nil. lia. }
  { rewrite blen_app, ents_bytes_length, blen_cons, blen_nil. lia. }
  specialize (HJt (blen (ents_bytes 0 (a ++ e :: b)))).
  rewrite blen_app, blen_cons, blen_nil, to_nat_blen, take_app_length, ents_bytes_length in HJt.
  specialize (HJt ltac:(lia) ltac:(lia)).
  set (k := length (ents_bytes 0 (a ++ e :: b))) in *.
  exists (drop k J). split.
  - rewrite <-(take_drop k J) at 1. rewrite HJt, ents_bytes_app. cbn [ents_bytes].
    unfold ent_bytes at 1. lapp.
  - rewrite <-(take_drop k J), HJt, blen_app, ents_bytes_length in HJ. lia.
Qed.

Lemma insert_room_mid c a e b reqlen :
  let nd := nextdiff_of reqlen (e :: b) in
  chain_ok 0 (a ++ e :: b) → vals_ok (a ++ e :: b) → 2 ≤ reqlen → 0 ≤ reqlen + nd →
  30 + ents_len (a ++ e :: b) + reqlen + 4 * Z.of_nat (length b) < 2 ^ 32 →
  ∃ B, blen B = reqlen ∧
    insert_room (zblock c (a ++ e :: b)) (10 + ents_len a) (11 + ents_len (a ++ e :: b)) reqlen nd
      = Some (relinked c (ents_bytes 0 a ++ B) reqlen (e :: b)).
Proof.
  intros nd Hc Hv Hr Hnd Hs. unfold insert_room.
  pose proof (ents_len_app a (e :: b)) as Hlen. cbn [ents_len] in Hlen.
  pose proof (ents_len_nonneg a) as Ha. pose proof (ents_len_nonneg b) as Hb.
  pose proof (ent_len_pos e) as He. pose proof (last_len_bound 0 a ltac:(lia)) as Hla.
  apply chain_ok_app in Hc as Hc'. destruct Hc' as [_ [Hbig Hcb]].
  assert (val_ok (e_val e)) as Hve by (apply Forall_app in Hv as [_ Hv]; by apply Forall_cons in Hv as [? _]).
  assert (vals_ok b) as Hvb by (apply Forall_app in Hv as [_ Hv]; by apply Forall_cons in Hv as [_ ?]).
  assert (nd = prev_size (ZIP_BIGLEN <=? reqlen) - prev_size (e_big e)) as End
    by (subst nd; cbn [nextdiff_of]; by rewrite prev_size_eq).
  assert (1 ≤ prev_size (e_big e) ≤ 5 ∧ 1 ≤ prev_size (ZIP_BIGLEN <=? reqlen) ≤ 5) as [Hps Hps']
    by (unfold prev_size; repeat case_match; lia).
  set (e' := Ent (ZIP_BIGLEN <=? reqlen) (e_val e)).
  pose proof (ent_len_with (ZIP_BIGLEN <=? reqlen) e : ent_len e' = _) as He'.
  rewrite (wrapu_small 32 (11 + ents_len (a ++ e :: b) + reqlen + nd)) by lia.
  destruct (insert_resize c a e b (11 + ents_len (a ++ e :: b) + reqlen + nd)) as (x & -> & Hx); [lia|].
  replace (11 + ents_len (a ++ e :: b) + reqlen + nd - 11 - ents_len (a ++ e :: b)) with (reqlen + nd) in Hx by lia.
  cbn [mbind option_bind]. set (n := 11 + ents_len (a ++ e :: b) + reqlen + nd).
  set (t := 10 + ents_len (a ++ e :: b) - last_len 0 (a ++ e :: b)).
  set (W' := val_bytes (e_val e) ++ ents_bytes (ent_len e) b).
  assert (blen W' = ent_len e - prev_size (e_big e) + ents_len b) as HW'.
  { subst W'. rewrite blen_app, ents_bytes_length. unfold ent_len. lia. }
  pose proof (blen_nonneg W') as HW0. pose proof (blen_nonneg (ents_bytes (ent_len e) b)) as HW1.
  set (pb := prev_bytes (e_big e) (last_len 0 a)).
  assert (blen pb = prev_size (e_big e)) as Hpb by (subst pb; apply prev_bytes_length).
  set (h := hdr n t c). assert (blen h = 10) as Hh by apply hdr_length.
  set (EA := ents_bytes 0 a). assert (blen EA = ents_len a) as HEA by (subst EA; apply ents_bytes_length).
  assert (∃ y, mget (h ++ EA ++ pb ++ W' ++ x ++ [ZIP_END]) (10 + ents_len a) = Some y ∧ (y =? ZIP_END) = false)
    as (y & Ey & Ey').
  { replace (10 + ents_len a) with (blen (h ++ EA)) by (rewrite blen_app; lia).
    assert (h ++ EA ++ pb ++ W' ++ x ++ [ZIP_END] =
      (h ++ EA) ++ ent_bytes (last_len 0 a) e ++ (ents_bytes (ent_len e) b ++ x ++ [ZIP_END])) as ->
      by (subst W' pb; unfold ent_bytes; lapp).
    by apply ent_head. }
  rewrite Ey. cbn [mbind option_bind]. rewrite Ey'. cbn [negb].
  destruct (split_at (h ++ EA ++ pb) (10 + ents_len a - nd)) as (S & X & ES & HS).
  { rewrite !blen_app. lia. }
  assert (blen X = prev_size (ZIP_BIGLEN <=? reqlen)) as HX.
  { assert (blen (h ++ EA ++ pb) = blen (S ++ X)) as E by (by rewrite ES). rewrite !blen_app in E. lia. }
  destruct (split_at ((pb ++ W') ++ x) reqlen) as (B & X2 & EX & HB).
  { rewrite !blen_app. lia. }
  assert (blen X2 = blen (X ++ W')) as HX2.
  { assert (blen ((pb ++ W') ++ x) = blen (B ++ X2)) as E by (by rewrite EX). rewrite !blen_app in E. rewrite blen_app. lia. }
  rewrite (mmove_app _ (h ++ EA ++ B) X2 [ZIP_END] (X ++ W') S (x ++ [ZIP_END])).
  2:{ transitivity (h ++ EA ++ ((pb ++ W') ++ x) ++ [ZIP_END]); [lapp|]. rewrite EX. lapp. }
  2:{ transitivity ((h ++ EA ++ pb) ++ W' ++ x ++ [ZIP_END]); [lapp|]. rewrite ES. lapp. }
  2:{ rewrite !blen_app. lia. }
  2:{ lia. }
  2:{ rewrite blen_app. lia. }
  2:{ done. }
  cbn [mbind option_bind]. exists B. split; [done|].
  assert ((h ++ EA ++ B) ++ (X ++ W') ++ [ZIP_END] = (h ++ EA ++ B) ++ X ++ (W' ++ [ZIP_END])) as -> by lapp.
  assert (10 + ents_len a + reqlen = blen (h ++ EA ++ B)) as Hp by (rewrite !blen_app; lia).
  rewrite Hp, (wrapu_small 32 reqlen), prevEncode_at by (rewrite ?prev_size_eq; lia).
  cbn [mbind option_bind].
  assert ((h ++ EA ++ B) ++ prev_bytes (ZIP_BIGLEN <=? reqlen) reqlen ++ W' ++ [ZIP_END] =
    h ++ (EA ++ B) ++ ent_bytes reqlen e' ++ ents_bytes (ent_len e) b ++ [ZIP_END]) as ->.
  { subst W'. unfold ent_bytes, e'. cbn [e_big e_val]. lapp. }
  assert (0 ≤ last_len 0 (a ++ e :: b) ≤ ents_len (a ++ e :: b)) as Hll
    by (pose proof (last_len_bound 0 (a ++ e :: b) ltac:(lia)); lia).
  subst h. rewrite hdr_tail by lia. cbn [mbind option_bind].
  rewrite hdr_set_tail, (wrapu_small 32) by lia. cbn [mbind option_bind].
  assert (blen (hdr n t c ++ EA ++ B) = 10 + blen (EA ++ B)) as -> by (rewrite !blen_app, hdr_length; lia).
  rewrite (tail_fix n (t + reqlen) c (EA ++ B) reqlen e' (ent_len e) b nd); try done; try lia.
  2:{ unfold e'. cbn [e_big]. intros ?%Z.leb_gt. done. }
  cbn [mbind option_bind].
  assert (hdr n (t + reqlen + match b with [] => 0 | _ => nd end) c ++
    (EA ++ B) ++ ent_bytes reqlen e' ++ ents_bytes (ent_len e) b ++ [ZIP_END] =
    cstate c (EA ++ B) reqlen e' (ent_len e) b) as ->.
  { unfold cstate. rewrite blen_app, HEA, HB. f_equal. subst n t. rewrite last_len_app. cbn [last_len].
    destruct b as [|e2 b]; cbn [last_len ents_len] in *; f_equal; lia. }
  apply relink_spec; try done; [lia|]. cbn [ents_len]. rewrite blen_app. lia.
Qed.


(** The bytes that zipEncodeLength and zipPrevEncodeLength count for a new entry. *)
Lemma insert_reqlen s pl :
  let enc := zipTryEncoding s (blen s) in
  (match enc with Some (_, e) => zipIntSize e | None => blen s end) + zipPrevEncodeLength_size pl +
    zipEncodeLength_size (match enc with Some (_, e) => e | None => 0 end) (blen s)
  = ent_len (Ent (ZIP_BIGLEN <=? pl) (enc_of s)).
Proof.
  cbv zeta. rewrite prev_size_eq. unfold ent_len, val_bytes, enc_of. cbn [e_big e_val]. rewrite blen_app.
  destruct (zipTryEncoding s (blen s)) as [[v e]|] eqn:E.
  - apply zipTryEncoding_ok in E as (Hok & _). apply int_ok_enc in Hok as (_ & Hs & _).
    unfold zipEncodeLength_size, zipEncodeLength_buf. rewrite Hs.
    cbn [val_hdr val_payload]. unfold blen at 3. rewrite le_enc_length, int_size_pos. lia.
  - unfold zipEncodeLength_size. cbn [val_hdr val_payload]. lia.
Qed.

Lemma insert_write_spec A B C s pl :
  let enc := zipTryEncoding s (blen s) in
  let new := Ent (ZIP_BIGLEN <=? pl) (enc_of s) in
  0 ≤ pl → blen B = ent_len new →
  insert_write (A ++ B ++ C) (blen A) pl (match enc with Some (_, e) => e | None => 0 end) (blen s)
    (match enc with Some (v, _) => v | None => 123456789 end) s
  = Some (A ++ ent_bytes pl new ++ C).
Proof.
  intros enc new Hpl HB. subst new. unfold ent_len, val_bytes in HB. cbn [e_big e_val] in HB.
  rewrite blen_app in HB. pose proof (blen_nonneg (val_payload (enc_of s))).
  pose proof (val_hdr_length (enc_of s)).
  assert (1 ≤ prev_size (ZIP_BIGLEN <=? pl)) by (unfold prev_size; case_match; lia).
  destruct (split_at B (prev_size (ZIP_BIGLEN <=? pl))) as (B1 & B' & -> & HB1); [lia|].
  rewrite blen_app in HB.
  destruct (split_at B' (blen (val_hdr (enc_of s)))) as (B2 & B3 & -> & HB2); [lia|].
  rewrite blen_app in HB. unfold insert_write.
  rewrite <-(assoc_L (++) B1), prevEncode_at by (rewrite ?prev_size_eq; done). cbn [mbind option_bind].
  set (Q := A ++ prev_bytes (ZIP_BIGLEN <=? pl) pl).
  assert (blen A + zipPrevEncodeLength_size pl = blen Q) as ->
    by (subst Q; by rewrite blen_app, prev_bytes_length, prev_size_eq).
  rewrite <-(assoc_L (++) B2), (assoc_L (++) A). fold Q. unfold zipEncodeLength.
  assert (zipEncodeLength_buf (match enc with Some (_, e) => e | None => 0 end) (blen s) = val_hdr (enc_of s)) as Eh.
  { subst enc. unfold enc_of. destruct (zipTryEncoding s (blen s)) as [[v e]|] eqn:E; [|done].
    apply zipTryEncoding_ok in E as (Hok & _). apply int_ok_enc in Hok as (_ & Hs & _).
    unfold zipEncodeLength_buf. by rewrite Hs. }
  unfold zipEncodeLength_size. rewrite Eh.
  rewrite mstore_app by (done || (unfold blen in HB2; lia)). cbn [mbind option_bind].
  set (Q2 := Q ++ val_hdr (enc_of s)).
  assert (blen Q + blen (val_hdr (enc_of s)) = blen Q2) as -> by (subst Q2; by rewrite blen_app).
  assert (Q ++ val_hdr (enc_of s) ++ B3 ++ C = Q2 ++ B3 ++ C) as -> by (subst Q2; lapp).
  assert (A ++ ent_bytes pl (Ent (ZIP_BIGLEN <=? pl) (enc_of s)) ++ C = Q2 ++ val_payload (enc_of s) ++ C) as ->
    by (subst Q2 Q; unfold ent_bytes, val_bytes; cbn [e_big e_val]; lapp).
  assert (length B3 = length (val_payload (enc_of s))) as HB3 by (unfold blen in *; lia).
  clear Eh HB2. subst enc. unfold enc_of in *.
  destruct (zipTryEncoding s (blen s)) as [[v e]|] eqn:E.
  - apply zipTryEncoding_ok in E as (Hok & _). apply int_ok_enc in Hok as Hio. destruct Hio as (_ & Hs & _).
    rewrite Hs. cbn [val_payload] in *. rewrite le_enc_length in HB3.
    by apply zipSaveInteger_at.
  - change (ZIP_IS_STR 0) with true. cbv iota. rewrite mload_all. cbn [mbind option_bind val_payload] in *.
    by apply mstore_app.
Qed.

Lemma insert_spec zl a b s :
  let new := Ent (ZIP_BIGLEN <=? last_len 0 a) (enc_of s) in
  let l := ent_len new in
  zrep zl (a ++ b) → Forall byte_ok s →
  30 + ents_len (a ++ b) + l + 4 * Z.of_nat (length b) < 2 ^ 31 → 0 ≤ l + nextdiff_of l b →
  ∃ zl', __ziplistInsert zl (10 + ents_len a) s (blen s) = Some zl' ∧ zrep zl' (a ++ new :: relink l b).
Proof.
  intros new l (c & Hcnt & -> & Hc & Hv) Hs Hsz Hsafe. unfold __ziplistInsert.
  pose proof (ents_len_app a b) as Hlen. pose proof (ents_len_nonneg a). pose proof (ents_len_nonneg b).
  assert (2 ≤ l) by apply ent_len_pos. pose proof (last_len_bound 0 a ltac:(lia)) as Hla.
  assert (blen s < 2 ^ 32) as Hsl.
  { assert (blen s ≤ l + 32); [|lia]. subst l new. unfold ent_len, val_bytes. cbn [e_big e_val].
    rewrite blen_app. unfold enc_of. destruct (zipTryEncoding s (blen s)) as [[v e]|] eqn:E.
    - apply zipTryEncoding_ok in E as (_ & _ & ?).
      pose proof (blen_nonneg (val_hdr (ZInt e v))). pose proof (blen_nonneg (val_payload (ZInt e v))).
      unfold prev_size. case_match; lia.
    - cbn [val_payload]. pose proof (blen_nonneg (val_hdr (ZStr s))). unfold prev_size. case_match; lia. }
  destruct (enc_of_ok s Hs Hsl) as [Hvn _].
  assert (ZIPLIST_BYTES (zblock c (a ++ b)) = Some (11 + ents_len (a ++ b))) as ->
    by (unfold zblock; apply hdr_bytes; lia).
  cbn [mbind option_bind]. rewrite insert_prevlen_spec by (done || lia). cbn [mbind option_bind].
  rewrite insert_reqlen. fold new. fold l.
  destruct (zblock_at c a b Hc Hv ltac:(lia)) as [(x & Ex & Ex') Hat]. rewrite Ex. cbn [mbind option_bind].
  rewrite Ex', (wrapu_small 32 l) by lia.
  assert ((if negb match b with [] => true | _ => false end
           then zipPrevLenByteDiff (zblock c (a ++ b)) (10 + ents_len a) l else Some 0)
    = Some (nextdiff_of l b)) as ->.
  { destruct b as [|e b]; [done|]. cbn [negb]. unfold zipPrevLenByteDiff.
    destruct (Hat e b eq_refl) as (-> & _). cbn [mbind option_bind nextdiff_of]. f_equal.
    apply wraps_small; [lia|]. unfold zipPrevEncodeLength_size, prev_size.
    destruct (Z.ltb_spec l ZIP_BIGLEN), (e_big e); unlimit; lia. }
  cbn [mbind option_bind].
  assert (∃ B, blen B = l ∧ insert_room (zblock c (a ++ b)) (10 + ents_len a) (11 + ents_len (a ++ b)) l
      (nextdiff_of l b) = Some (relinked c (ents_bytes 0 a ++ B) l b)) as (B & HB & ->).
  { destruct b as [|e b].
    - rewrite app_nil_r in *. apply insert_room_end; lia.
    - rewrite length_cons in Hsz. apply insert_room_mid; try done; lia. }
  cbn [mbind option_bind]. unfold relinked at 1. set (h := hdr _ _ _).
  assert (h ++ (ents_bytes 0 a ++ B) ++ ents_bytes l (relink l b) ++ [ZIP_END] =
    (h ++ ents_bytes 0 a) ++ B ++ (ents_bytes l (relink l b) ++ [ZIP_END])) as -> by lapp.
  assert (10 + ents_len a = blen (h ++ ents_bytes 0 a)) as ->
    by (rewrite blen_app, ents_bytes_length; subst h; by rewrite hdr_length).
  rewrite insert_write_spec by (done || lia). cbn [mbind option_bind]. fold new.
  rewrite <-(assoc_L (++) h).
  assert (h = hdr (11 + ents_len (a ++ new :: relink l b))
    (10 + ents_len (a ++ new :: relink l b) - last_len 0 (a ++ new :: relink l b)) c) as ->.
  { subst h. rewrite ents_len_app, last_len_app, blen_app, ents_bytes_length, HB. cbn [ents_len last_len].
    fold l. f_equal; lia. }
  destruct (hdr_incr (11 + ents_len (a ++ new :: relink l b))
    (10 + ents_len (a ++ new :: relink l b) - last_len 0 (a ++ new :: relink l b)) c
    (ents_bytes 0 a ++ ent_bytes (last_len 0 a) new ++ ents_bytes l (relink l b) ++ [ZIP_END])
    _ 1 Hcnt ltac:(lia) ltac:(lia)) as (c' & Hi & Hcnt').
  eexists. split; [exact Hi|]. exists c'. split; [|split; [|split]].
  - rewrite length_app, length_cons, relink_length. rewrite length_app in Hcnt'.
    by replace (length a + S (length b))%nat with (Z.to_nat (Z.of_nat (length a + length b) + 1)) by lia.
  - rewrite zblock_split. cbn [ents_bytes]. fold l. lapp.
  - apply chain_ok_app in Hc as [Hca Hcb]. apply chain_ok_app. split; [done|]. split.
    + intros ?%Z.leb_gt. done.
    + by eapply relink_chain.
  - apply Forall_app in Hv as [Hva Hvb]. apply Forall_app. split; [done|]. apply Forall_cons.
    split; [done|]. apply (vals_ok_vals b); [by rewrite relink_vals|done].
Qed.

(** ** Deletion *)

Lemma delete_span_spec c num : ∀ a b,
  chain_ok 0 (a ++ b) → vals_ok (a ++ b) → ents_len (a ++ b) < 2 ^ 32 →
  delete_span num (zblock c (a ++ b)) (10 + ents_len a)
    = Some (10 + ents_len (a ++ take num b), Z.of_nat (length (take num b))).
Proof.
  induction num as [|num IH]; intros a b Hc Hv Hs;
    destruct (zblock_at c a b Hc Hv Hs) as [(x & Ex & Ex') Hat]; cbn [delete_span]; rewrite Ex;
    cbn [mbind option_bind]; rewrite Ex'; destruct b as [|e b]; rewrite ?app_nil_r; try done.
  destruct (Hat e b eq_refl) as (_ & _ & -> & _). cbn [mbind option_bind]. clear Hat.
  replace (a ++ e :: b) with ((a ++ [e]) ++ b) in * by (by rewrite <-(assoc_L (++))).
  replace (10 + ents_len a + ent_len e) with (10 + ents_len (a ++ [e]))
    by (rewrite ents_len_app; cbn [ents_len]; lia).
  rewrite (IH (a ++ [e]) b) by done. cbn [mbind option_bind].
  rewrite <-(assoc_L (++) a). cbn [app firstn length]. do 2 f_equal. lia.
Qed.

(** The block after the move and the resize of a deletion. *)
Definition deleted_block (c : Z) (a b : list ent) : list Z :=
  match b with
  | [] => relinked c (ents_bytes 0 a) (last_len 0 a) []
  | e :: b => cstate c (ents_bytes 0 a) (last_len 0 a) (Ent (ZIP_BIGLEN <=? last_len 0 a) (e_val e)) (ent_len e) b
  end.

Lemma delete_room_end c a d first :
  d ≠ [] → prevrawlen first = last_len 0 a → 20 + ents_len (a ++ d) < 2 ^ 32 →
  ∃ z1, delete_move (zblock c (a ++ d)) first (10 + ents_len a) (10 + ents_len (a ++ d)) (ents_len d) = Some (z1, 0) ∧
    ZIPLIST_BYTES z1 = Some (11 + ents_len (a ++ d)) ∧
    ziplistResize z1 (11 + ents_len a) = Some (deleted_block c a []).
Proof.
  intros Hd Hf Hs. unfold delete_move. rewrite ents_len_app in Hs.
  pose proof (ents_len_nonneg a). pose proof (ents_len_nonneg d). pose proof (last_len_bound 0 a ltac:(lia)).
  assert (mget (zblock c (a ++ d)) (10 + ents_len (a ++ d)) = Some ZIP_END) as ->.
  { unfold zblock. rewrite (assoc_L (++)). apply mget_app. by rewrite blen_app, hdr_length, ents_bytes_length. }
  cbn [mbind option_bind]. change (ZIP_END =? ZIP_END) with true. cbn [negb]. unfold zblock.
  rewrite hdr_set_tail, Hf, (wrapu_small 32) by lia. cbn [mbind option_bind].
  eexists. split; [done|]. split; [apply hdr_bytes; rewrite ents_len_app; lia|].
  rewrite ents_bytes_app, <-(assoc_L (++) (ents_bytes 0 a)).
  destruct (ents_bytes (last_len 0 a) d ++ [ZIP_END]) as [|x R] eqn:E.
  { by destruct (ents_bytes (last_len 0 a) d). }
  rewrite resize_shrink by (rewrite ents_bytes_length; lia). unfold deleted_block, relinked.
  cbn [relink ents_len ents_bytes last_len app]. rewrite ents_bytes_length. do 2 f_equal. f_equal; lia.
Qed.

Lemma delete_room_mid c a d e b first :
  let pl := last_len 0 a in
  let nd := nextdiff_of pl (e :: b) in
  d ≠ [] → prevrawlen first = pl → chain_ok 0 (a ++ d ++ e :: b) → vals_ok (a ++ d ++ e :: b) →
  20 + ents_len (a ++ d ++ e :: b) < 2 ^ 32 →
  ∃ z1, delete_move (zblock c (a ++ d ++ e :: b)) first (10 + ents_len a) (10 + ents_len (a ++ d)) (ents_len d)
      = Some (z1, nd) ∧
    ZIPLIST_BYTES z1 = Some (11 + ents_len (a ++ d ++ e :: b)) ∧
    ziplistResize z1 (11 + ents_len (a ++ e :: b) + nd) = Some (deleted_block c a (e :: b)).
Proof.
  intros pl nd Hd Hf Hc Hv Hs. unfold delete_move.
  assert (ents_len (a ++ d ++ e :: b) = ents_len a + (ents_len d + (ent_len e + ents_len b))) as Hlen
    by (by rewrite !ents_len_app).
  pose proof (ents_len_nonneg a) as Ha. pose proof (ents_len_nonneg b) as Hb. pose proof (ents_len_nonneg d) as Hdl.
  pose proof (ent_len_pos e) as He. pose proof (last_len_bound 0 a ltac:(lia) : 0 ≤ pl ≤ _) as Hla.
  apply chain_ok_app in Hc as Hc'. destruct Hc' as [_ Hcd]. fold pl in Hcd.
  apply chain_ok_app in Hcd as Hc'. destruct Hc' as [_ [_ Hcb]].
  assert (val_ok (e_val e)) as Hve
    by (apply Forall_app in Hv as [_ Hv]; apply Forall_app in Hv as [_ Hv]; by apply Forall_cons in Hv as [? _]).
  assert (nd = prev_size (ZIP_BIGLEN <=? pl) - prev_size (e_big e)) as End
    by (subst nd; cbn [nextdiff_of]; by rewrite prev_size_eq).
  assert (nd ≤ ents_len d) as Hnd.
  { destruct d as [|d0 d]; [done|]. destruct Hcd as [Hb0 _]. cbn [ents_len] in *.
    pose proof (ents_len_nonneg d). pose proof (val_hdr_length (e_val d0)).
    pose proof (blen_nonneg (val_payload (e_val d0))).
    assert (prev_size (ZIP_BIGLEN <=? pl) ≤ ent_len d0).
    { unfold ent_len, val_bytes. rewrite blen_app. destruct (e_big d0); [unfold prev_size; case_match; lia|].
      specialize (Hb0 eq_refl). rewrite (proj2 (Z.leb_gt _ _)) by done. cbn [prev_size]. lia. }
    assert (1 ≤ prev_size (e_big e)) by (unfold prev_size; case_match; lia). lia. }
  assert (1 ≤ prev_size (e_big e) ≤ 5 ∧ 1 ≤ prev_size (ZIP_BIGLEN <=? pl) ≤ 5) as [Hps Hps']
    by (unfold prev_size; repeat case_match; lia).
  set (e' := Ent (ZIP_BIGLEN <=? pl) (e_val e)).
  pose proof (ent_len_with (ZIP_BIGLEN <=? pl) e : ent_len e' = _) as He'.
  assert (a ++ d ++ e :: b = (a ++ d) ++ e :: b) as Eadb by (by rewrite (assoc_L (++))).
  destruct (zblock_at c (a ++ d) (e :: b)) as [(y & Ey & Ey') Hat]; try (rewrite <-Eadb; done || lia).
  rewrite <-Eadb in *. rewrite Ey. cbn [mbind option_bind]. rewrite Ey'. cbn [negb].
  unfold zipPrevLenByteDiff. destruct (Hat e b eq_refl) as (-> & _). cbn [mbind option_bind].
  rewrite Hf. assert (i32 (zipPrevEncodeLength_size pl - prev_size (e_big e)) = nd) as ->
    by (rewrite prev_size_eq, (wraps_small 32); unlimit; lia).
  cbn [mbind option_bind]. clear Hat Ey Ey' y.
  set (T := 11 + ents_len (a ++ d ++ e :: b)). set (t := 10 + ents_len (a ++ d ++ e :: b) - last_len 0 (a ++ d ++ e :: b)).
  assert (0 ≤ last_len 0 (a ++ d ++ e :: b) ≤ ent_len e + ents_len b) as Hll.
  { rewrite !last_len_app. cbn [last_len]. pose proof (last_len_bound (ent_len e) b ltac:(lia)). lia. }
  set (EA := ents_bytes 0 a). assert (blen EA = ents_len a) as HEA by (subst EA; apply ents_bytes_length).
  set (D := ents_bytes pl d). assert (blen D = ents_len d) as HD by (subst D; apply ents_bytes_length).
  set (pb := prev_bytes (e_big e) (last_len pl d)).
  assert (blen pb = prev_size (e_big e)) as Hpb by (subst pb; apply prev_bytes_length).
  set (W' := val_bytes (e_val e) ++ ents_bytes (ent_len e) b).
  destruct (split_at (D ++ pb) (ents_len d - nd)) as (D' & X & EX & HD').
  { rewrite blen_app. lia. }
  assert (blen X = zipPrevEncodeLength_size pl) as HX.
  { assert (blen (D ++ pb) = blen (D' ++ X)) as E by (by rewrite EX). rewrite !blen_app in E.
    rewrite prev_size_eq. lia. }
  assert (zblock c (a ++ d ++ e :: b) = (hdr T t c ++ EA ++ D') ++ X ++ (W' ++ [ZIP_END])) as ->.
  { transitivity (hdr T t c ++ EA ++ (D ++ pb) ++ W' ++ [ZIP_END]); [|rewrite EX; lapp].
    unfold zblock. fold T t. rewrite !ents_bytes_app. fold pl. subst EA D pb W'. cbn [ents_bytes].
    unfold ent_bytes at 1. lapp. }
  assert (10 + ents_len (a ++ d) - nd = blen (hdr T t c ++ EA ++ D')) as Hp
    by (rewrite !blen_app, hdr_length, ents_len_app; lia).
  rewrite Hp, prevEncode_at by (done || lia). cbn [mbind option_bind].
  set (W := ent_bytes pl e' ++ ents_bytes (ent_len e) b).
  assert (blen W = ent_len e' + ents_len b) as HW
    by (subst W; by rewrite blen_app, ent_bytes_length, ents_bytes_length).
  assert ((hdr T t c ++ EA ++ D') ++ prev_bytes (ZIP_BIGLEN <=? pl) pl ++ W' ++ [ZIP_END] =
    hdr T t c ++ (EA ++ D') ++ ent_bytes pl e' ++ ents_bytes (ent_len e) b ++ [ZIP_END]) as ->.
  { subst W'. unfold ent_bytes, e'. cbn [e_big e_val]. lapp. }
  rewrite hdr_tail by (subst t; lia). cbn [mbind option_bind].
  rewrite hdr_set_tail, (wrapu_small 32) by (subst t; lia). cbn [mbind option_bind].
  assert (blen (hdr T t c ++ EA ++ D') = 10 + blen (EA ++ D')) as -> by (rewrite !blen_app, hdr_length; lia).
  pose proof (tail_fix T (t - ents_len d) c (EA ++ D') pl e' (ent_len e) b nd) as Htf. cbv zeta beta in Htf.
  match type of Htf with ?A → ?B → ?C → ?D1 → ?E → ?F → ?G → _ => assert (A ∧ B ∧ C ∧ D1 ∧ E ∧ F ∧ G) as Hpre end.
  { split_and!; try done; try (subst t; lia). unfold e'. cbn [e_big]. intros ?%Z.leb_gt. done. }
  destruct Hpre as (H1 & H2 & H3 & H4 & H5 & H6 & H7). specialize (Htf H1 H2 H3 H4 H5 H6 H7).
  clear H1 H2 H3 H4 H5 H6 H7.
  destruct (zipEntry _ _) as [tz|]; [|done]. cbn [mbind option_bind] in *.
  destruct (mget _ _) as [tb|]; [|done]. cbn [mbind option_bind] in *. rewrite Htf. cbn [mbind option_bind].
  clear Htf tz tb. set (t' := t - ents_len d + match b with [] => 0 | _ => nd end).
  rewrite hdr_bytes by (subst T; lia). cbn [mbind option_bind].
  destruct (split_at (D' ++ W) (blen W)) as (X2 & B' & E2 & HX2).
  { rewrite blen_app. pose proof (blen_nonneg D'). pose proof (blen_nonneg W). lia. }
  rewrite (mmove_app _ (hdr T t' c ++ EA) X2 (B' ++ [ZIP_END]) W (hdr T t' c ++ EA ++ D') [ZIP_END]).
  2:{ transitivity (hdr T t' c ++ EA ++ (D' ++ W) ++ [ZIP_END]); [subst W; lapp|]. rewrite E2. lapp. }
  2:{ subst W. lapp. }
  2:{ rewrite blen_app, hdr_length. lia. }
  2:{ rewrite !blen_app, hdr_length. lia. }
  2:{ rewrite HW. subst T. rewrite blen_app. lia. }
  2:{ done. }
  cbn [mbind option_bind]. eexists. split; [done|].
  rewrite <-(assoc_L (++) (hdr _ _ _)). split; [apply hdr_bytes; subst T; lia|].
  destruct (B' ++ [ZIP_END]) as [|x R] eqn:EB; [by destruct B'|].
  rewrite (assoc_L (++) EA), resize_shrink.
  2:{ rewrite blen_app, ents_len_app. cbn [ents_len]. lia. }
  unfold deleted_block, cstate. fold pl e' EA. subst W. f_equal.
  assert (hdr (11 + ents_len (a ++ e :: b) + nd) t' c = hdr (11 + blen EA + ent_len e' + ents_len b)
    (10 + blen EA + ent_len e' + ents_len b - last_len (ent_len e') b) c) as ->; [|lapp].
  rewrite ents_len_app. subst t' t. rewrite !last_len_app. cbn [ents_len last_len].
  destruct b as [|e2 b]; cbn [last_len ents_len] in *; f_equal; lia.
Qed.

Lemma relinked_zblock c a l b :
  l = last_len 0 a → relinked c (ents_bytes 0 a) l b = zblock c (a ++ relink l b).
Proof.
  intros ->. rewrite zblock_split. unfold relinked. rewrite ents_bytes_length, ents_len_app, last_len_app.
  f_equal. f_equal; lia.
Qed.

Lemma deleted_block_hdr a b : ∃ T t R, ∀ c, deleted_block c a b = hdr T t c ++ R.
Proof. destruct b; do 3 eexists; intros c; unfold deleted_block, relinked, cstate; reflexivity. Qed.

Lemma delete_spec zl a d b num :
  zrep zl (a ++ d ++ b) → d ≠ [] → take (Z.to_nat num) (d ++ b) = d →
  40 + ents_len (a ++ d ++ b) + 4 * Z.of_nat (length b) < 2 ^ 32 →
  ∃ zl', __ziplistDelete zl (10 + ents_len a) num = Some zl' ∧ zrep zl' (a ++ relink (last_len 0 a) b).
Proof.
  intros (c & Hcnt & -> & Hc & Hv) Hd Hnum Hs. unfold __ziplistDelete.
  assert (∃ first, zipEntry (zblock c (a ++ d ++ b)) (10 + ents_len a) = Some first ∧
    prevrawlen first = last_len 0 a) as (first & -> & Hf).
  { destruct d as [|d0 d]; [done|]. cbn [app] in Hc, Hv, Hs |- *.
    destruct (zblock_at c a (d0 :: d ++ b) Hc Hv ltac:(lia)) as [_ Hat].
    destruct (Hat d0 (d ++ b) eq_refl) as (_ & _ & _ & ->). by eexists. }
  cbn [mbind option_bind]. rewrite delete_span_spec by (done || lia). cbn [mbind option_bind]. rewrite Hnum.
  assert (ents_len (a ++ d ++ b) = ents_len a + (ents_len d + ents_len b)) as Hlen by (by rewrite !ents_len_app).
  pose proof (ents_len_nonneg a). pose proof (ents_len_nonneg b). pose proof (ents_len_nonneg d).
  pose proof (last_len_bound 0 a ltac:(lia)).
  assert (0 < ents_len d) by (destruct d; [done|]; simpl length in *; lia).
  assert (u32 (10 + ents_len (a ++ d) - (10 + ents_len a)) = ents_len d) as ->
    by (rewrite ents_len_app, (wrapu_small 32); lia).
  rewrite (proj2 (Z.ltb_lt _ _)) by done.
  assert (∃ z1, delete_move (zblock c (a ++ d ++ b)) first (10 + ents_len a) (10 + ents_len (a ++ d)) (ents_len d)
      = Some (z1, nextdiff_of (last_len 0 a) b) ∧
    ZIPLIST_BYTES z1 = Some (11 + ents_len (a ++ d ++ b)) ∧
    ziplistResize z1 (11 + ents_len (a ++ b) + nextdiff_of (last_len 0 a) b) = Some (deleted_block c a b))
    as (z1 & -> & Hby & Hrs).
  { destruct b as [|e b].
    - rewrite !app_nil_r in *. cbn [nextdiff_of]. rewrite Z.add_0_r. apply delete_room_end; try done. lia.
    - apply delete_room_mid; try done. rewrite length_cons in Hs. lia. }
  cbn [mbind option_bind]. rewrite Hby. cbn [mbind option_bind].
  assert (-4 ≤ nextdiff_of (last_len 0 a) b ≤ 4 ∧ (b = [] → nextdiff_of (last_len 0 a) b = 0)) as [Hnd Hnd0].
  { split; [|by intros ->]. destruct b as [|e b]; cbn [nextdiff_of]; [lia|]. rewrite prev_size_eq.
    unfold prev_size. repeat case_match; lia. }
  assert (0 ≤ ents_len b + nextdiff_of (last_len 0 a) b) as Hbn.
  { destruct b as [|e b]; [cbn; lia|]. cbn [nextdiff_of ents_len]. rewrite prev_size_eq.
    pose proof (ent_len_with (ZIP_BIGLEN <=? last_len 0 a) e) as E.
    pose proof (ent_len_pos (Ent (ZIP_BIGLEN <=? last_len 0 a) (e_val e))). pose proof (ents_len_nonneg b). lia. }
  assert (u32 (11 + ents_len (a ++ d ++ b) - ents_len d + nextdiff_of (last_len 0 a) b) =
    11 + ents_len (a ++ b) + nextdiff_of (last_len 0 a) b) as ->
    by (pose proof (ents_len_app a b); rewrite (wrapu_small 32); lia).
  rewrite Hrs. cbn [mbind option_bind]. destruct (deleted_block_hdr a b) as (T & t & R & Hblk). rewrite Hblk.
  destruct (hdr_incr T t c R _ (- Z.of_nat (length d)) Hcnt) as (c' & -> & Hcnt'); [rewrite !length_app; lia|lia|].
  cbn [mbind option_bind]. rewrite <-Hblk.
  assert ((if negb (nextdiff_of (last_len 0 a) b =? 0)
    then __ziplistCascadeUpdate (deleted_block c' a b) (10 + ents_len a)
    else Some (deleted_block c' a b)) = Some (zblock c' (a ++ relink (last_len 0 a) b))) as ->.
  { rewrite <-relinked_zblock by done. rewrite <-(ents_bytes_length 0 a) at 1. destruct b as [|e b]; [done|].
    apply Forall_app in Hv as [_ Hv]. apply Forall_app in Hv as [_ Hv]. apply Forall_cons in Hv as [? ?].
    apply chain_ok_app in Hc as [_ Hc]. apply chain_ok_app in Hc as [_ [_ Hc]].
    rewrite length_cons in Hs.
    apply relink_spec; try done; rewrite ?ents_bytes_length; lia. }
  eexists. split; [done|]. exists c'. split; [|split; [done|split]].
  - rewrite length_app, relink_length. rewrite !length_app in Hcnt'.
    by replace (length a + length b)%nat with
      (Z.to_nat (Z.of_nat (length a + (length d + length b)) + - Z.of_nat (length d))) by lia.
  - apply chain_ok_app in Hc as [Hca Hcb]. apply chain_ok_app in Hcb as [_ Hcb]. apply chain_ok_app.
    split; [done|]. by eapply relink_chain.
  - apply Forall_app in Hv as [Hva Hvb]. apply Forall_app in Hvb as [_ Hvb]. apply Forall_app. split; [done|].
    apply (vals_ok_vals b); [by rewrite relink_vals|done].
Qed.

(** ** Traversal *)

(** The byte, the entry and the length at the [i]-th position. *)
Lemma zblock_nth c es i :
  chain_ok 0 es → vals_ok es → ents_len es < 2 ^ 32 → (i ≤ length es)%nat →
  (∃ x, mget (zblock c es) (zpos es i) = Some x ∧ (x =? ZIP_END) = bool_decide (i = length es)) ∧
  (∀ e, es !! i = Some e →
    ZIP_DECODE_PREVLENSIZE (zblock c es) (zpos es i) = Some (prev_size (e_big e)) ∧
    ZIP_DECODE_LENGTH (zblock c es) (zpos es i + prev_size (e_big e))
      = Some (val_enc (e_val e), blen (val_hdr (e_val e)), blen (val_payload (e_val e))) ∧
    zipRawEntryLength (zblock c es) (zpos es i) = Some (ent_len e) ∧
    zipEntry (zblock c es) (zpos es i) =
      Some (Zlentry (prev_size (e_big e)) (last_len 0 (take i es)) (blen (val_hdr (e_val e)))
        (blen (val_payload (e_val e))) (prev_size (e_big e) + blen (val_hdr (e_val e)))
        (val_enc (e_val e)))).
Proof.
  intros Hc Hv Hs Hi.
  destruct (zblock_at c (take i es) (drop i es)) as [Hx Hat]; rewrite ?take_drop in *; try done.
  split.
  - destruct Hx as (x & Ex & Ex'). exists x. split; [done|]. rewrite Ex'.
    destruct (drop i es) eqn:Ed.
    + apply (f_equal length) in Ed. rewrite length_drop in Ed. simpl in Ed. by rewrite bool_decide_true by lia.
    + apply (f_equal length) in Ed. rewrite length_drop in Ed. simpl in Ed. by rewrite bool_decide_false by lia.
  - intros e He. apply (Hat e (drop (S i) es)). by apply drop_S.
Qed.

Lemma zpos_S es i e : es !! i = Some e → zpos es (S i) = zpos es i + ent_len e.
Proof.
  intros He. unfold zpos. rewrite (take_S_r _ _ e) by done. rewrite ents_len_app. cbn [ents_len]. lia.
Qed.

Lemma last_len_take es i e : es !! i = Some e → last_len 0 (take (S i) es) = ent_len e.
Proof. intros He. rewrite (take_S_r _ _ e) by done. by rewrite last_len_app. Qed.

Lemma ziplistNext_spec zl es i :
  zrep zl es → ents_len es < 2 ^ 32 → (i ≤ length es)%nat →
  ziplistNext zl (zpos es i) = Some (if decide (S i < length es)%nat then Some (zpos es (S i)) else None).
Proof.
  intros (c & _ & -> & Hc & Hv) Hs Hi. unfold ziplistNext.
  destruct (zblock_nth c es i Hc Hv Hs Hi) as [(x & -> & Hx) Hat]. cbn [mbind option_bind]. rewrite Hx.
  destruct (decide (i = length es)) as [->|Hne].
  { rewrite bool_decide_true by done. by rewrite decide_False by lia. }
  rewrite bool_decide_false by done. destruct (lookup_lt_is_Some_2 es i) as [e He]; [lia|].
  destruct (Hat e He) as (_ & _ & -> & _). cbn [mbind option_bind]. rewrite <-(zpos_S es i e He).
  destruct (zblock_nth c es (S i) Hc Hv Hs ltac:(lia)) as [(y & -> & Hy) _]. cbn [mbind option_bind]. rewrite Hy.
  destruct (decide (S i = length es)).
  - rewrite bool_decide_true, decide_False by lia. done.
  - rewrite bool_decide_false, decide_True by lia. done.
Qed.

Lemma tail_pos c es :
  es ≠ [] → ents_len es + 11 < 2 ^ 32 →
  ZIPLIST_TAIL_OFFSET (zblock c es) = Some (zpos es (length es - 1)).
Proof.
  intros Hne Hs. destruct es as [|e es _] using rev_ind; [done|]. clear Hne.
  unfold zblock. pose proof (ents_len_nonneg es). pose proof (ent_len_pos e).
  rewrite ents_len_app, last_len_app in *. cbn [ents_len last_len] in *. rewrite hdr_tail by lia.
  f_equal. unfold zpos. rewrite length_app. simpl length. rewrite Nat.add_sub, take_app_length. lia.
Qed.
Lemma tail_nil c : ZIPLIST_TAIL_OFFSET (zblock c []) = Some 10.
Proof. unfold zblock. rewrite hdr_tail; done. Qed.

Lemma zpos_inj es i : (i ≤ length es)%nat → zpos es i = ZIPLIST_ENTRY_HEAD → i = 0%nat.
Proof.
  intros Hi. unfold zpos, ZIPLIST_ENTRY_HEAD, ZIPLIST_HEADER_SIZE.
  pose proof (ents_len_nonneg (take i es)) as Hl. rewrite length_take in Hl. lia.
Qed.

Lemma zpos_prev es i e : es !! i = Some e → zpos es (S i) - last_len 0 (take (S i) es) = zpos es i.
Proof. intros He. rewrite (zpos_S es i e), (last_len_take es i e) by done. lia. Qed.

Lemma ziplistPrev_spec zl es i :
  zrep zl es → ents_len es + 11 < 2 ^ 32 → (i ≤ length es)%nat →
  ziplistPrev zl (zpos es i) = Some (if decide (i = 0)%nat then None else Some (zpos es (i - 1))).
Proof.
  intros (c & _ & -> & Hc & Hv) Hs Hi. unfold ziplistPrev.
  destruct (zblock_nth c es i Hc Hv ltac:(lia) Hi) as [(x & -> & Hx) Hat]. cbn [mbind option_bind]. rewrite Hx.
  destruct (decide (i = length es)) as [->|Hne].
  - rewrite bool_decide_true by done. destruct (decide (es = [])) as [->|Hes].
    + rewrite tail_nil. cbn [mbind option_bind].
      destruct (zblock_nth c [] 0 Hc Hv ltac:(done) ltac:(done)) as [(y & Ey & Hy) _].
      change 10 with (zpos [] 0). rewrite Ey. cbn [mbind option_bind]. by rewrite Hy.
    + rewrite tail_pos by done. cbn [mbind option_bind].
      destruct (zblock_nth c es (length es - 1) Hc Hv ltac:(lia) ltac:(lia)) as [(y & -> & Hy) _].
      cbn [mbind option_bind]. rewrite Hy. assert (length es ≠ 0%nat) by (by destruct es).
      rewrite bool_decide_false, decide_False by lia. done.
  - rewrite bool_decide_false by done. destruct (lookup_lt_is_Some_2 es i) as [e He]; [lia|].
    destruct (Z.eqb_spec (zpos es i) ZIPLIST_ENTRY_HEAD) as [Hz|Hz].
    { apply zpos_inj in Hz; [|done]. by rewrite decide_True. }
    destruct i as [|i]; [by destruct Hz|]. destruct (lookup_lt_is_Some_2 es i) as [e0 He0]; [lia|].
    destruct (Hat e He) as (_ & _ & _ & ->). cbn [mbind option_bind prevrawlen].
    pose proof (last_len_take es i e0 He0) as Hl. pose proof (ent_len_pos e0).
    rewrite (proj2 (Z.ltb_lt _ _)) by lia. rewrite (zpos_prev es i e0) by done.
    rewrite decide_False by lia. by rewrite Nat.sub_succ, Nat.sub_0_r.
Qed.

(** *** ziplistIndex *)

Lemma index_fwd_spec c es fuel : ∀ i k,
  chain_ok 0 es → vals_ok es → ents_len es < 2 ^ 32 → (i ≤ length es)%nat → (length es - i ≤ fuel)%nat → 0 ≤ k →
  ∃ k', index_fwd fuel (zblock c es) (zpos es i) k = Some (zpos es (min (length es) (i + Z.to_nat k)), k') ∧
    (Z.of_nat i + k < Z.of_nat (length es) → k' = -1).
Proof.
  induction fuel as [|fuel IH]; intros i k Hc Hv Hs Hi Hf Hk;
    destruct (zblock_nth c es i Hc Hv Hs Hi) as [(x & Ex & Hx) Hat]; cbn [index_fwd]; rewrite Ex;
    cbn [mbind option_bind]; rewrite Hx; destruct (decide (i = length es)) as [Hend|Hne].
  1,3: rewrite bool_decide_true by done; exists k; split; [do 3 f_equal; lia|lia].
  { lia. }
  rewrite bool_decide_false by done. destruct (Z.eqb_spec k 0) as [->|Hk0].
  { eexists. split; [do 3 f_equal; lia|]. done. }
  destruct (lookup_lt_is_Some_2 es i) as [e He]; [lia|].
  destruct (Hat e He) as (_ & _ & -> & _). cbn [mbind option_bind]. rewrite <-(zpos_S es i e He).
  destruct (IH (S i) (k - 1)) as (k' & -> & Hk'); try done; try lia.
  exists k'. split; [do 3 f_equal; lia|]. intros. apply Hk'. lia.
Qed.

Lemma index_back_spec c es fuel : ∀ i k,
  chain_ok 0 es → vals_ok es → ents_len es < 2 ^ 32 → (i < length es)%nat → (i ≤ fuel)%nat → 0 ≤ k →
  index_back fuel (zblock c es) (zpos es i) k =
    Some (zpos es (i - Z.to_nat k), if decide (k < Z.of_nat i) then -1 else k - Z.of_nat i).
Proof.
  induction fuel as [|fuel IH]; intros i k Hc Hv Hs Hi Hf Hk;
    destruct (lookup_lt_is_Some_2 es i Hi) as [e He];
    destruct (zblock_nth c es i Hc Hv Hs ltac:(lia)) as [_ Hat];
    destruct (Hat e He) as (_ & _ & _ & Ez); cbn [index_back]; rewrite Ez; cbn [mbind option_bind prevrawlen];
    destruct i as [|i]; try lia.
  1,2: rewrite take_0; change (0 <? last_len 0 []) with false; cbv iota; rewrite decide_False by lia; do 3 f_equal; lia.
  destruct (lookup_lt_is_Some_2 es i) as [e0 He0]; [lia|].
  rewrite (last_len_take es i e0 He0). pose proof (ent_len_pos e0).
  rewrite (proj2 (Z.ltb_lt _ _)) by lia. destruct (Z.eqb_spec k 0) as [->|Hk0].
  { rewrite decide_True by lia. do 3 f_equal. }
  replace (zpos es (S i) - ent_len e0) with (zpos es i) by (rewrite (zpos_S es i e0) by done; lia).
  rewrite (IH i (k - 1)) by (done || lia). do 2 f_equal.
  - f_equal. lia.
  - destruct (decide (k - 1 < Z.of_nat i)), (decide (k < Z.of_nat (S i))); lia.
Qed.

(** The position that an index of ziplistIndex denotes. *)
Definition zindex (es : list ent) (index : Z) : option nat :=
  let n := Z.of_nat (length es) in
  let i := if index <? 0 then n + index else index in
  if (0 <=? i) && (i <? n) then Some (Z.to_nat i) else None.

Lemma zblock_long c es : (length es ≤ length (zblock c es))%nat.
Proof.
  pose proof (ents_len_nonneg es). pose proof (ents_bytes_length 0 es) as E. unfold zblock.
  rewrite !length_app. unfold blen in E. lia.
Qed.

Lemma ziplistIndex_spec zl es index :
  zrep zl es → ents_len es + 11 < 2 ^ 32 → - 2 ^ 31 < index < 2 ^ 31 →
  ziplistIndex zl index = Some (zpos es <$> zindex es index).
Proof.
  intros (c & _ & -> & Hc & Hv) Hs Hidx. unfold ziplistIndex, zindex. pose proof (zblock_long c es) as Hlong.
  destruct (Z.ltb_spec index 0) as [Hneg|Hpos].
  - rewrite (wraps_small 32) by (unlimit; lia). destruct (decide (es = [])) as [->|Hne].
    + rewrite tail_nil. cbn [mbind option_bind].
      destruct (zblock_nth c [] 0 Hc Hv ltac:(done) ltac:(done)) as [(y & Ey & Hy) _].
      change 10 with (zpos [] 0). rewrite Ey. cbn [mbind option_bind]. rewrite Hy. cbn [negb bool_decide].
      rewrite bool_decide_true by done. cbn [negb mbind option_bind]. rewrite Ey. cbn [mbind option_bind].
      rewrite Hy, bool_decide_true by done. simpl length. rewrite (proj2 (Z.leb_gt _ _)) by lia. done.
    + rewrite tail_pos by done. cbn [mbind option_bind].
      assert (length es ≠ 0%nat) as Hl0 by (by destruct es).
      destruct (zblock_nth c es (length es - 1) Hc Hv ltac:(lia) ltac:(lia)) as [(y & -> & Hy) _].
      cbn [mbind option_bind]. rewrite Hy, bool_decide_false by lia. cbn [negb].
      rewrite index_back_spec by (done || lia). cbn [mbind option_bind].
      destruct (zblock_nth c es (length es - 1 - Z.to_nat (- index - 1)) Hc Hv ltac:(lia) ltac:(lia))
        as [(z & -> & Hz) _].
      cbn [mbind option_bind]. rewrite Hz, bool_decide_false by lia. cbn [orb].
      destruct (decide (- index - 1 < Z.of_nat (length es - 1))).
      * change (0 <? -1) with false. zdec. cbn [andb fmap option_fmap option_map]. do 3 f_equal. lia.
      * destruct (Z.ltb_spec 0 (- index - 1 - Z.of_nat (length es - 1))); zdec; [done|].
        cbn [andb fmap option_fmap option_map]. do 3 f_equal. lia.
  - destruct (index_fwd_spec c es (length (zblock c es)) 0 index Hc Hv ltac:(lia) ltac:(lia) ltac:(lia) Hpos)
      as (k' & Ei & Hk').
    change ZIPLIST_ENTRY_HEAD with (zpos es 0). rewrite Ei. cbn [mbind option_bind].
    destruct (zblock_nth c es (min (length es) (0 + Z.to_nat index)) Hc Hv ltac:(lia) ltac:(lia)) as [(z & -> & Hz) _].
    cbn [mbind option_bind]. rewrite Hz. rewrite (proj2 (Z.leb_le 0 index)) by done. cbn [andb].
    destruct (Z.ltb_spec index (Z.of_nat (length es))).
    + rewrite bool_decide_false by lia. rewrite Hk' by lia. cbn. do 2 f_equal. f_equal. lia.
    + rewrite bool_decide_true by lia. done.
Qed.

(** *** Values *)

(** What ziplistGet finds: a pointer into the block, or the integer. *)
Definition got_text (zl : list Z) (g : zget) : option (list Z) :=
  match g with GetStr p l => mload zl p l | GetInt z => Some (ll_text z) end.

Lemma val_len_lt a e b : ents_len (a ++ e :: b) < 2 ^ 32 → 0 ≤ blen (val_payload (e_val e)) < 2 ^ 32.
Proof.
  rewrite ents_len_app. cbn [ents_len]. pose proof (ents_len_nonneg a). pose proof (ents_len_nonneg b).
  unfold ent_len, val_bytes. rewrite blen_app. pose proof (blen_nonneg (val_payload (e_val e))).
  pose proof (val_hdr_length (e_val e)). unfold prev_size. case_match; lia.
Qed.

(** The payload of the [i]-th entry is in the block. *)
Lemma payload_at c es i e :
  chain_ok 0 es → vals_ok es → es !! i = Some e →
  let q := zpos es i + (prev_size (e_big e) + blen (val_hdr (e_val e))) in
  match e_val e with
  | ZStr s => mload (zblock c es) q (blen s) = Some s
  | ZInt enc z => zipLoadInteger (zblock c es) q enc = Some z
  end.
Proof.
  intros Hc Hv He q. assert (val_ok (e_val e)) as Hve by (eapply Forall_lookup_1 in Hv; done).
  destruct (take_drop_middle es i e He) as [].
  set (a := take i es) in *. set (b := drop (S i) es) in *.
  set (A := hdr (11 + ents_len (a ++ e :: b)) (10 + ents_len (a ++ e :: b) - last_len 0 (a ++ e :: b)) c
    ++ ents_bytes 0 a ++ prev_bytes (e_big e) (last_len 0 a) ++ val_hdr (e_val e)).
  assert (q = blen A) as ->.
  { subst q A. unfold zpos. rewrite !blen_app, hdr_length, ents_bytes_length, prev_bytes_length.
    fold a. lia. }
  assert (zblock c (a ++ e :: b) = A ++ val_payload (e_val e) ++ ents_bytes (ent_len e) b ++ [ZIP_END]) as ->.
  { rewrite zblock_split. subst A. cbn [ents_bytes]. unfold ent_bytes, val_bytes. lapp. }
  destruct (e_val e) as [s|enc z]; cbn [val_payload]; [by apply mload_app|by apply zipLoadInteger_at].
Qed.

Lemma ziplistGet_spec zl es i e :
  zrep zl es → ents_len es < 2 ^ 32 → es !! i = Some e →
  ∃ g, ziplistGet zl (Some (zpos es i)) = Some (Some g) ∧ got_text zl g = Some (text (e_val e)).
Proof.
  intros (c & _ & -> & Hc & Hv) Hs He. unfold ziplistGet.
  pose proof (lookup_lt_Some _ _ _ He).
  destruct (zblock_nth c es i Hc Hv Hs ltac:(lia)) as [(x & -> & Hx) Hat]. cbn [mbind option_bind].
  rewrite Hx, bool_decide_false by lia. destruct (Hat e He) as (_ & _ & _ & ->).
  cbn [mbind option_bind encoding headersize len]. pose proof (payload_at c es i e Hc Hv He) as Hp.
  assert (val_ok (e_val e)) as Hve by (eapply Forall_lookup_1 in Hv; done).
  cbv zeta in Hp. destruct (e_val e) as [s|enc z] eqn:Ee.
  - rewrite val_enc_str. cbn [val_payload] in *. eexists. split; [done|]. done.
  - apply int_ok_enc in Hve as (_ & Hstr & _). cbn [val_enc]. rewrite Hstr, Hp. cbn [mbind option_bind].
    eexists. split; [done|]. done.
Qed.

(** *** Comparison and search *)

Definition val_matches (v : zval) (s : list Z) : bool := bool_decide (text v = s).

Lemma int_matches enc z s :
  int_ok enc z →
  val_matches (ZInt enc z) s = match zipTryEncoding s (blen s) with Some (v, _) => z =? v | None => false end.
Proof.
  intros Hok. unfold val_matches. cbn [text].
  assert (in_i64 z) as Hz.
  { unfold int_ok, in_i64, LLONG_MIN, LLONG_MAX in *. lia. }
  destruct (zipTryEncoding s (blen s)) as [[v e]|] eqn:E.
  - apply zipTryEncoding_ok in E as (Hv & -> & _).
    assert (in_i64 v) as Hv'.
    { unfold int_ok, in_i64, LLONG_MIN, LLONG_MAX in *. lia. }
    destruct (Z.eqb_spec z v) as [->|Hne]; [by rewrite bool_decide_true|]. apply bool_decide_false.
    intros Ht. apply (f_equal string2ll) in Ht. rewrite !string2ll_text in Ht by done. by injection Ht.
  - apply bool_decide_false. intros <-. pose proof (ll_text_length z Hz) as Hl. revert E. unfold zipTryEncoding.
    pose proof (string2ll_text z Hz) as Es. unfold blen.
    destruct (ll_text z) as [|x t] eqn:Et; [done|]. rewrite <-Et in *. clear Et.
    rewrite (proj2 (Z.leb_gt _ _)) by lia.
    destruct (Z.eqb_spec (Z.of_nat (length (ll_text z))) 0) as [Hz0|]; cbn [orb].
    { destruct (ll_text z); [done|]. simpl in Hz0. lia. }
    by rewrite Nat2Z.id, firstn_all, Es.
Qed.

Lemma ziplistCompare_spec zl es i e s :
  zrep zl es → ents_len es < 2 ^ 32 → es !! i = Some e →
  ziplistCompare zl (zpos es i) s (blen s) = Some (val_matches (e_val e) s).
Proof.
  intros (c & _ & -> & Hc & Hv) Hs He. unfold ziplistCompare. pose proof (lookup_lt_Some _ _ _ He).
  destruct (zblock_nth c es i Hc Hv Hs ltac:(lia)) as [(x & -> & Hx) Hat]. cbn [mbind option_bind].
  rewrite Hx, bool_decide_false by lia. destruct (Hat e He) as (_ & _ & _ & ->).
  cbn [mbind option_bind encoding headersize len]. pose proof (payload_at c es i e Hc Hv He) as Hp.
  assert (val_ok (e_val e)) as Hve by (eapply Forall_lookup_1 in Hv; done).
  cbv zeta in Hp. destruct (e_val e) as [t|enc z] eqn:Ee.
  - rewrite val_enc_str. cbn [val_payload] in *. unfold val_matches. cbn [text].
    destruct (Z.eqb_spec (blen t) (blen s)) as [El|El].
    + rewrite <-El, Hp. cbn [mbind option_bind]. rewrite El, mload_all. done.
    + rewrite bool_decide_false; [done|]. by intros ->.
  - rewrite int_matches by done. apply int_ok_enc in Hve as (_ & Hstr & _). cbn [val_enc]. rewrite Hstr.
    destruct (zipTryEncoding s (blen s)) as [[v ?]|]; [|done]. rewrite Hp. done.
Qed.

(** The first match from [k] skipped entries on, then after every [skip] entries. *)
Fixpoint find_text (skip k : nat) (s : list Z) (vs : list zval) : option nat :=
  match vs with
  | [] => None
  | v :: vs =>
      match k with
      | O => if val_matches v s then Some O else S <$> find_text skip skip s vs
      | S k => S <$> find_text skip k s vs
      end
  end.

(** The encoding that the search has computed, once it has needed it. *)
Definition venc_ok (s : list Z) (venc vll : Z) : Prop :=
  venc = 0 ∨ match zipTryEncoding s (blen s) with Some (v, e) => venc = e ∧ vll = v | None => venc = 255 end.

Lemma find_loop_spec c es s skip fuel : ∀ i k venc vll,
  chain_ok 0 es → vals_ok es → ents_len es < 2 ^ 32 → (i ≤ length es)%nat → (length es - i ≤ fuel)%nat →
  0 ≤ skip < 2 ^ 31 → 0 ≤ k → venc_ok s venc vll →
  find_loop fuel (zblock c es) (zpos es i) s (blen s) skip k venc vll
    = Some ((λ j, zpos es (i + j)) <$> find_text (Z.to_nat skip) (Z.to_nat k) s (drop i (e_val <$> es))).
Proof.
  induction fuel as [|fuel IH]; intros i k venc vll Hc Hv Hs Hi Hf Hsk Hk Hve;
    destruct (zblock_nth c es i Hc Hv Hs Hi) as [(x & Ex & Hx) Hat]; cbn [find_loop]; rewrite Ex;
    cbn [mbind option_bind]; rewrite Hx; destruct (decide (i = length es)) as [Hend|Hne].
  1,3: rewrite bool_decide_true, drop_ge by (rewrite ?length_fmap; lia); done.
  { lia. }
  rewrite bool_decide_false by done. destruct (lookup_lt_is_Some_2 es i) as [e He]; [lia|].
  destruct (Hat e He) as (-> & Hdl & _ & _). cbn [mbind option_bind]. rewrite Hdl. cbn [mbind option_bind].
  pose proof (payload_at c es i e Hc Hv He) as Hp. cbv zeta in Hp.
  replace (zpos es i + prev_size (e_big e) + blen (val_hdr (e_val e)))
    with (zpos es i + (prev_size (e_big e) + blen (val_hdr (e_val e)))) by lia.
  replace (zpos es i + (prev_size (e_big e) + blen (val_hdr (e_val e))) + blen (val_payload (e_val e)))
    with (zpos es (S i)) by (rewrite (zpos_S es i e) by done; unfold ent_len, val_bytes; rewrite blen_app; lia).
  assert (val_ok (e_val e)) as Hok by (eapply Forall_lookup_1 in Hv; done).
  assert (drop i (e_val <$> es) = e_val e :: drop (S i) (e_val <$> es)) as ->
    by (apply drop_S; by rewrite list_lookup_fmap, He).
  assert (∀ k' venc' vll', 0 ≤ k' → venc_ok s venc' vll' →
    find_loop fuel (zblock c es) (zpos es (S i)) s (blen s) skip k' venc' vll'
    = Some ((λ j, zpos es (i + j)) <$> (S <$> find_text (Z.to_nat skip) (Z.to_nat k') s (drop (S i) (e_val <$> es)))))
    as Hnext.
  { intros. rewrite IH by (done || lia). destruct (find_text _ _ _ _); [|done]. cbn. do 3 f_equal. lia. }
  destruct (Z.eqb_spec k 0) as [->|Hk0].
  2:{ rewrite Hnext by (done || lia). cbn [find_text].
      destruct (Z.to_nat k) as [|k'] eqn:Ek; [lia|]. by replace (Z.to_nat (k - 1)) with k' by lia. }
  rewrite (wraps_small 32 skip) by (unlimit; lia). change (Z.to_nat 0) with 0%nat. cbn [find_text].
  destruct (e_val e) as [t|enc z] eqn:Ee.
  - rewrite val_enc_str. cbn [val_payload]. unfold val_matches. cbn [text].
    destruct (Z.eqb_spec (blen t) (blen s)) as [El|El].
    + rewrite <-El, Hp. cbn [mbind option_bind]. rewrite El, mload_all. cbn [mbind option_bind].
      unfold memeq. destruct (decide (t = s)).
      * rewrite !bool_decide_true by done. cbn. do 3 f_equal. lia.
      * rewrite !bool_decide_false by done. apply Hnext; [lia|done].
    + rewrite bool_decide_false by (by intros ->). cbn [mbind option_bind]. apply Hnext; [lia|done].
  - rewrite int_matches by done. apply int_ok_enc in Hok as (_ & Hstr & _). cbn [val_enc]. rewrite Hstr.
    assert ((if venc =? 0 then match zipTryEncoding s (blen s) with Some (v, e0) => (e0, v) | None => (255, vll) end
             else (venc, vll)) = match zipTryEncoding s (blen s) with Some (v, e0) => (e0, v) | None => (255, vll) end) as ->.
    { destruct Hve as [->|Hve]; [done|]. destruct (zipTryEncoding s (blen s)) as [[v e0]|] eqn:E.
      - destruct Hve as [-> ->]. by destruct (e0 =? 0).
      - by rewrite Hve. }
    destruct (zipTryEncoding s (blen s)) as [[v e0]|] eqn:E.
    + assert (e0 ≠ 255) as H255.
      { apply zipTryEncoding_ok in E as (Hok & _). apply int_ok_enc in Hok. lia. }
      rewrite (proj2 (Z.eqb_neq _ _)) by done. cbn [negb]. rewrite Hp. cbn [mbind option_bind].
      destruct (z =? v); [cbn; do 3 f_equal; lia|]. apply Hnext; [lia|]. right. by rewrite E.
    + change (255 =? 255) with true. cbn [negb mbind option_bind]. apply Hnext; [lia|]. right. by rewrite E.
Qed.

Lemma ziplistFind_spec zl es i s skip :
  zrep zl es → ents_len es < 2 ^ 32 → (i ≤ length es)%nat → 0 ≤ skip < 2 ^ 31 →
  ziplistFind zl (zpos es i) s (blen s) skip
    = Some ((λ j, zpos es (i + j)) <$> find_text (Z.to_nat skip) 0 s (drop i (e_val <$> es))).
Proof.
  intros (c & _ & -> & Hc & Hv) Hs Hi Hsk. unfold ziplistFind. pose proof (zblock_long c es).
  apply find_loop_spec; try done; [lia|]. by left.
Qed.

(** *** The length *)

Lemma count_loop_spec c es fuel : ∀ i n,
  chain_ok 0 es → vals_ok es → ents_len es < 2 ^ 32 → (i ≤ length es)%nat → (length es - i ≤ fuel)%nat →
  0 ≤ n → n + Z.of_nat (length es - i) < 2 ^ 32 →
  count_loop fuel (zblock c es) (zpos es i) n = Some (n + Z.of_nat (length es - i)).
Proof.
  induction fuel as [|fuel IH]; intros i n Hc Hv Hs Hi Hf Hn Hnl;
    destruct (zblock_nth c es i Hc Hv Hs Hi) as [(x & Ex & Hx) Hat]; cbn [count_loop]; rewrite Ex;
    cbn [mbind option_bind]; rewrite Hx; destruct (decide (i = length es)) as [Hend|Hne].
  1,3: rewrite bool_decide_true by done; f_equal; lia.
  { lia. }
  rewrite bool_decide_false by done. destruct (lookup_lt_is_Some_2 es i) as [e He]; [lia|].
  destruct (Hat e He) as (_ & _ & -> & _). cbn [mbind option_bind]. rewrite <-(zpos_S es i e He).
  rewrite (wrapu_small 32) by lia. rewrite IH by (done || lia). f_equal. lia.
Qed.

Lemma ziplistLen_spec zl es :
  zrep zl es → ents_len es < 2 ^ 32 →
  ∃ zl', ziplistLen zl = Some (zl', Z.of_nat (length es)) ∧ zrep zl' es.
Proof.
  intros (c & [Hcr Hcn] & -> & Hc & Hv) Hs. unfold ziplistLen.
  destruct (hdr_length_raw (11 + ents_len es) (10 + ents_len es - last_len 0 es) c
    (ents_bytes 0 es ++ [ZIP_END]) Hcr) as (raw & Er & Ei & _).
  change (ZIPLIST_LENGTH (zblock c es) = Some raw) in Er. rewrite Er. cbn [mbind option_bind]. rewrite Ei. pose proof (ents_len_nonneg es).
  destruct (Z.ltb_spec c UINT16_MAX) as [Hlt|Hge].
  - rewrite (Hcn Hlt). eexists. split; [done|]. exists (Z.of_nat (length es)).
    rewrite (Hcn Hlt) in Hcr. done.
  - change ZIPLIST_HEADER_SIZE with (zpos es 0). pose proof (zblock_long c es).
    rewrite (count_loop_spec c es) by (done || lia). cbn [mbind option_bind].
    rewrite Nat.sub_0_r, Z.add_0_l.
    destruct (Z.ltb_spec (Z.of_nat (length es)) UINT16_MAX); cbn [mbind option_bind].
    + unfold set_ZIPLIST_LENGTH, zblock, hdr.
      rewrite native_enc_le16, <-!(assoc_L (++)), !(assoc_L (++) (le_enc 4 (11 + ents_len es))).
      rewrite mstore_app by (unfold blen; rewrite ?length_app, ?le_enc_length; done).
      cbn [mbind option_bind]. eexists. split; [done|]. exists (Z.of_nat (length es)).
      split; [split; lia|]. split; [|done]. unfold zblock, hdr. lapp.
    + eexists. split; [done|]. exists c. done.
Qed.

Lemma ziplistNew_spec : ∃ zl, ziplistNew = Some zl ∧ zrep zl [].
Proof.
  unfold ziplistNew. assert (∃ x, mresize junk [] (ZIPLIST_HEADER_SIZE + 1) = x ∧ length x = 11%nat) as (x & -> & Hx).
  { eexists. split; [done|]. by rewrite mresize_length. }
  do 11 (destruct x as [|? x]; [done|]). destruct x; [|done].
  unfold set_ZIPLIST_BYTES. rewrite native_enc_le32.
  match goal with |- context [mstore ?m 0 ?b] =>
    assert (mstore m 0 b = Some (b ++ drop 4 m)) as -> by (apply (mstore_app [] (take 4 m) (drop 4 m)); rewrite ?le_enc_length; done) end.
  cbn [mbind option_bind drop]. unfold set_ZIPLIST_TAIL_OFFSET. rewrite native_enc_le32.
  match goal with |- context [mstore (?a ++ ?m) 4 ?b] =>
    assert (mstore (a ++ m) 4 b = Some (a ++ b ++ drop 4 m)) as -> by (apply (mstore_app a (take 4 m) (drop 4 m)); unfold blen; rewrite ?le_enc_length; done) end.
  cbn [mbind option_bind drop]. unfold set_ZIPLIST_LENGTH.
  match goal with |- context [mstore (?a ++ ?a' ++ ?m) 8 ?b] =>
    assert (mstore (a ++ a' ++ m) 8 b = Some ((a ++ a') ++ b ++ drop 2 m)) as ->
      by (rewrite (assoc_L (++)); apply (mstore_app (a ++ a') (take 2 m) (drop 2 m)); unfold blen; rewrite ?length_app, ?le_enc_length, ?native_enc_length; done) end.
  cbn [mbind option_bind drop].
  rewrite (assoc_L (++) _ (native_enc 2 0)), mset_app by (unfold blen; rewrite !length_app, !le_enc_length, native_enc_length; done).
  eexists. split; [done|]. exists 0. split; [done|]. split; [|split; [done|constructor]].
  unfold zblock, hdr. cbn [ents_bytes ents_len last_len app].
  assert (native_enc 2 0 = le_enc 2 0) as ->.
  { unfold native_enc. destruct big_endian; [|done]. by rewrite !le_enc_S, le_enc_0. }
  lapp.
Qed.

(** ** Properties *)

(** The room that the insertion at [i] needs: when the next entry keeps the
    length of its predecessor on 5 bytes, the new entry is not less than 4 bytes. *)
Definition insert_fits (es : list ent) (i : nat) (s : list Z) : bool :=
  match es !! i with
  | Some e => negb (e_big e) || (4 <=? ent_len (Ent (ZIP_BIGLEN <=? last_len 0 (take i es)) (enc_of s)))
  | None => true
  end.

Lemma enc_of_len big s : blen s < 2 ^ 32 → ent_len (Ent big (enc_of s)) ≤ blen s + 18.
Proof.
  intros Hs. unfold ent_len, val_bytes. cbn [e_big e_val]. rewrite blen_app.
  assert (prev_size big ≤ 5) by (destruct big; done). pose proof (val_hdr_length (enc_of s)).
  assert (blen (val_payload (enc_of s)) ≤ blen s + 8); [|lia]. unfold enc_of.
  destruct (zipTryEncoding s (blen s)) as [[v e]|]; cbn [val_payload]; [|lia].
  unfold blen at 1. rewrite le_enc_length, int_size_pos. pose proof (blen_nonneg s).
  unfold zipIntSize. repeat case_match; lia.
Qed.

Lemma insert_at_spec zl es i s :
  zrep zl es → (i ≤ length es)%nat → Forall byte_ok s →
  100 + 3 * ents_len es + blen s < 2 ^ 31 → insert_fits es i s = true →
  ∃ zl' es', __ziplistInsert zl (zpos es i) s (blen s) = Some zl' ∧ zrep zl' es' ∧
    e_val <$> es' = take i (e_val <$> es) ++ enc_of s :: drop i (e_val <$> es) ∧ text (enc_of s) = s.
Proof.
  intros Hz Hi Hs Hsz Hf. pose proof (ents_len_nonneg es) as Hl.
  destruct (enc_of_ok s Hs ltac:(lia)) as [_ Htext].
  pose proof (enc_of_len (ZIP_BIGLEN <=? last_len 0 (take i es)) s ltac:(lia)) as Hnew.
  pose proof (ent_len_pos (Ent (ZIP_BIGLEN <=? last_len 0 (take i es)) (enc_of s))) as Hnew0.
  assert (length (drop i es) ≤ length es)%nat by (rewrite length_drop; lia).
  destruct (insert_spec zl (take i es) (drop i es) s) as (zl' & E & Hz'); rewrite ?take_drop in *; try done.
  - lia.
  - unfold insert_fits in Hf. destruct (es !! i) as [e|] eqn:He.
    + rewrite (drop_S es e i) by done. cbn [nextdiff_of]. rewrite prev_size_eq. apply orb_true_iff in Hf as [Hf|Hf].
      * apply negb_true_iff in Hf. rewrite Hf. unfold prev_size at 1. case_match; cbn [prev_size]; lia.
      * apply Z.leb_le in Hf. unfold prev_size. repeat case_match; lia.
    + apply lookup_ge_None in He. rewrite drop_ge by lia. cbn [nextdiff_of]. lia.
  - eexists _, _. split; [exact E|]. split; [exact Hz'|]. split; [|done].
    rewrite fmap_app. f_equal; [by rewrite fmap_take|].
    change (enc_of s :: (e_val <$> relink (ent_len (Ent (ZIP_BIGLEN <=? last_len 0 (take i es)) (enc_of s))) (drop i es))
      = enc_of s :: drop i (e_val <$> es)).
    by rewrite relink_vals, fmap_drop.
Qed.

(** C30. ziplistInsert at an entry, or at the end, puts the element there: the
    other values stay, in order, through the move, the relinking of the next
    entry and the cascade of growing lengths; the element is stored as an
    integer when its text is one, which gives back the same text.  ziplistPush
    is the insertion at either end, and ziplistNew makes the empty list.  One
    case is excluded by [insert_fits]: the next entry keeps the length of its
    predecessor on 5 bytes (as after a cascade) and the new entry takes less than
    4; there the code shrinks the block before it moves the rest, which then reads
    behind it (ziplistInsert_small_overread).  The list and the text are below
    2^31 bytes together, with room for a cascade. *)
Theorem ziplistInsert_refines (zl : list Z) (es : list ent) (i : nat) (s : list Z) :
  zrep zl es → (i ≤ length es)%nat → Forall byte_ok s →
  100 + 3 * ents_len es + blen s < 2 ^ 31 → insert_fits es i s = true →
  (∃ zl' es', ziplistInsert zl (zpos es i) s (blen s) = Some zl' ∧ zrep zl' es' ∧
    e_val <$> es' = take i (e_val <$> es) ++ enc_of s :: drop i (e_val <$> es) ∧ text (enc_of s) = s) ∧
  (i = 0%nat → ziplistPush zl s (blen s) ZIPLIST_HEAD = ziplistInsert zl (zpos es i) s (blen s)) ∧
  (i = length es → ziplistPush zl s (blen s) ZIPLIST_TAIL = ziplistInsert zl (zpos es i) s (blen s)) ∧
  (∃ zl0, ziplistNew = Some zl0 ∧ zrep zl0 []).
Proof.
  intros Hz Hi Hs Hsz Hf. split; [by apply insert_at_spec|]. split; [|split; [|apply ziplistNew_spec]].
  - intros ->. reflexivity.
  - intros ->. destruct Hz as (c & _ & -> & _). unfold ziplistPush, ZIPLIST_ENTRY_END, ziplistInsert.
    change (ZIPLIST_TAIL =? ZIPLIST_HEAD) with false. cbv iota. pose proof (ents_len_nonneg es).
    pose proof (blen_nonneg s).
    assert (ZIPLIST_BYTES (zblock c es) = Some (11 + ents_len es)) as -> by (unfold zblock; apply hdr_bytes; lia).
    cbn [mbind option_bind]. f_equal. unfold zpos. rewrite firstn_all. lia.
Qed.

Lemma delete_at_spec zl es i num :
  zrep zl es → (i < length es)%nat → 0 ≤ num → 100 + 3 * ents_len es < 2 ^ 31 →
  ∃ zl' es', __ziplistDelete zl (zpos es i) num = Some zl' ∧ zrep zl' es' ∧ zpos es' i = zpos es i ∧
    e_val <$> es' = take i (e_val <$> es) ++ drop (i + Z.to_nat num) (e_val <$> es).
Proof.
  intros Hz Hi Hnum Hsz. pose proof (ents_len_nonneg es) as Hl.
  destruct (decide (num = 0)) as [->|Hn0].
  - exists zl, es. rewrite Nat.add_0_r, take_drop. split; [|done]. destruct Hz as (c & _ & -> & Hc & Hv).
    destruct (lookup_lt_is_Some_2 es i Hi) as [e He].
    destruct (zblock_nth c es i Hc Hv ltac:(lia) ltac:(lia)) as [(x & Ex & _) Hat].
    destruct (Hat e He) as (_ & _ & _ & Ez).
    assert (delete_span (Z.to_nat 0) (zblock c es) (zpos es i) = Some (zpos es i, 0)) as Esp
      by (change (Z.to_nat 0) with 0%nat; cbn [delete_span]; rewrite Ex; cbn [mbind option_bind]; by case_match).
    unfold __ziplistDelete. rewrite Ez. cbn [mbind option_bind]. rewrite Esp. cbn [mbind option_bind]. replace (u32 (zpos es i - zpos es i)) with 0 by (by rewrite Z.sub_diag).
    by case_match.
  - set (a := take i es). set (d := take (Z.to_nat num) (drop i es)). set (b := drop (Z.to_nat num) (drop i es)).
    assert (es = a ++ d ++ b) as E by (subst a d b; by rewrite !take_drop).
    assert (length a = i) as Ha by (subst a; rewrite length_take; lia).
    destruct (delete_spec zl a d b num) as (zl' & Ed & Hz').
    + by rewrite <-E.
    + subst d. intros Hd. apply (f_equal length) in Hd. rewrite length_take, length_drop in Hd. simpl in Hd. lia.
    + subst d b. by rewrite take_drop.
    + rewrite <-E. assert (length b ≤ length es)%nat by (subst b; rewrite !length_drop; lia). lia.
    + eexists _, _. split; [exact Ed|]. split; [exact Hz'|]. split.
      * unfold zpos. f_equal. f_equal. rewrite <-Ha at 1. by rewrite take_app_length.
      * rewrite fmap_app, relink_vals. subst a b. by rewrite fmap_take, drop_drop, fmap_drop.
Qed.

(** C31. ziplistDelete and ziplistDeleteRange remove the entries asked for (at
    most those there are, none when the index has no entry) and keep the other
    values in order; after ziplistDelete the pointer is at the entry after the
    removed one. *)
Theorem ziplistDelete_refines (zl : list Z) (es : list ent) (i : nat) (index num : Z) :
  zrep zl es → (i < length es)%nat → - 2 ^ 31 < index < 2 ^ 31 → 0 ≤ num → 100 + 3 * ents_len es < 2 ^ 31 →
  (∃ zl' es', ziplistDelete zl (zpos es i) = Some (zl', zpos es' i) ∧ zrep zl' es' ∧
    e_val <$> es' = take i (e_val <$> es) ++ drop (S i) (e_val <$> es)) ∧
  (∃ zl' es', ziplistDeleteRange zl index num = Some zl' ∧ zrep zl' es' ∧
    e_val <$> es' = match zindex es index with
                    | Some k => take k (e_val <$> es) ++ drop (k + Z.to_nat num) (e_val <$> es)
                    | None => e_val <$> es
                    end).
Proof.
  intros Hz Hi Hidx Hnum Hsz. split.
  - destruct (delete_at_spec zl es i 1 Hz Hi ltac:(lia) Hsz) as (zl' & es' & E & Hz' & Hp & Hv).
    exists zl', es'. unfold ziplistDelete. rewrite E, Hp. rewrite Nat.add_comm in Hv. done.
  - unfold ziplistDeleteRange. rewrite (wraps_small 32) by (unlimit; lia).
    pose proof (ents_len_nonneg es). rewrite (ziplistIndex_spec zl es) by (done || lia).
    cbn [mbind option_bind]. destruct (zindex es index) as [k|] eqn:Ek; cbn [fmap option_fmap option_map].
    + destruct (delete_at_spec zl es k num Hz) as (zl' & es' & E & Hz' & _ & Hv); try done; [|by exists zl', es'].
      unfold zindex in Ek. destruct ((0 <=? _) && _) eqn:E2; [|done]. injection Ek as <-. lia.
    + by exists zl, es.
Qed.

(** Traversal: ziplistIndex finds the entry of an index, from the tail when
    it is negative, or nothing; ziplistNext and ziplistPrev move to the entry after
    and before (from the end to the last entry); ziplistGet gives the text of
    the value; ziplistLen counts the entries, also when there are more than
    the header can tell, and the stored count stays right. *)
Theorem ziplist_traversal (zl : list Z) (es : list ent) (index : Z) (i : nat) :
  zrep zl es → ents_len es + 11 < 2 ^ 32 → - 2 ^ 31 < index < 2 ^ 31 → (i ≤ length es)%nat →
  ziplistIndex zl index = Some (zpos es <$> zindex es index) ∧
  ziplistNext zl (zpos es i) = Some (if decide (S i < length es)%nat then Some (zpos es (S i)) else None) ∧
  ziplistPrev zl (zpos es i) = Some (if decide (i = 0)%nat then None else Some (zpos es (i - 1))) ∧
  (∀ e, es !! i = Some e →
    ∃ g, ziplistGet zl (Some (zpos es i)) = Some (Some g) ∧ got_text zl g = Some (text (e_val e))) ∧
  (∃ zl', ziplistLen zl = Some (zl', Z.of_nat (length es)) ∧ zrep zl' es).
Proof.
  intros Hz Hs Hidx Hi. split_and!.
  - by apply ziplistIndex_spec.
  - apply ziplistNext_spec; (done || lia).
  - by apply ziplistPrev_spec.
  - intros e He. apply (ziplistGet_spec zl es); (done || lia).
  - apply ziplistLen_spec; (done || lia).
Qed.

(** ziplistFind finds the first element equal to a text among those it does
    not skip, and ziplistCompare tells equality, although integers are stored
    encoded and the search encodes the text at most once. *)
Theorem ziplistFind_refines (zl : list Z) (es : list ent) (i : nat) (s : list Z) (skip : Z) :
  zrep zl es → ents_len es < 2 ^ 32 → (i ≤ length es)%nat → 0 ≤ skip < 2 ^ 31 →
  ziplistFind zl (zpos es i) s (blen s) skip
    = Some ((λ j, zpos es (i + j)) <$> find_text (Z.to_nat skip) 0 s (drop i (e_val <$> es))) ∧
  (∀ e, es !! i = Some e →
    ziplistCompare zl (zpos es i) s (blen s) = Some (bool_decide (text (e_val e) = s))).
Proof.
  intros Hz Hs Hi Hsk. split; [by apply ziplistFind_spec|]. intros e He. by apply (ziplistCompare_spec zl es).
Qed.

End ziplist.

(** ** Witnesses *)

Definition demo_junk (_ : nat) : Z := 170.

(** "ab", 42, 7 and 1000000 *)
Definition demo_ents : list ent :=
  [Ent false (ZStr [97; 98]); Ent false (ZInt ZIP_INT_8B 42); Ent false (ZInt 248 7);
   Ent false (ZInt ZIP_INT_24B 1000000)].

Lemma demo_rep : zrep (zblock 4 demo_ents) demo_ents.
Proof.
  exists 4. split; [split; done|]. split; [done|]. split; [done|].
  unfold vals_ok, demo_ents. rewrite !Forall_cons. cbn [e_val val_ok].
  unfold int_ok, ZIP_INT_24B, ZIP_INT_16B, ZIP_INT_32B, ZIP_INT_64B, ZIP_INT_8B, ZIP_INT_IMM_MIN.
  split; [split; [repeat constructor|done]; done|]. split; [lia|]. split; [lia|]. split; [lia|]. by apply Forall_nil.
Qed.

Lemma ziplistInsert_refines_witness :
  let _ := little_host in
  ∃ zl' es', ziplistInsert demo_junk (zblock 4 demo_ents) (zpos demo_ents 1) [45; 53] 2 = Some zl' ∧
    zrep zl' es' ∧
    text <$> (e_val <$> es') = [[97; 98]; [45; 53]; ll_text 42; ll_text 7; ll_text 1000000].
Proof.
  intros hh.
  destruct (@ziplistInsert_refines hh demo_junk (zblock 4 demo_ents) demo_ents 1 [45; 53])
    as ((zl' & es' & E & Hz & Hv & _) & _).
  - apply demo_rep.
  - simpl. lia.
  - apply (bool_decide_unpack _). by vm_compute.
  - vm_compute. done.
  - vm_compute. done.
  - exists zl', es'. split; [exact E|]. split; [exact Hz|]. rewrite Hv. vm_compute. done.
Defined.

Lemma ziplistDelete_refines_witness :
  let _ := big_host in
  ∃ zl' es', ziplistDeleteRange demo_junk (zblock 4 demo_ents) (-3) 2 = Some zl' ∧ zrep zl' es' ∧
    text <$> (e_val <$> es') = [[97; 98]; ll_text 1000000].
Proof.
  intros hh.
  destruct (@ziplistDelete_refines hh demo_junk (zblock 4 demo_ents) demo_ents 0 (-3) 2)
    as (_ & zl' & es' & E & Hz & Hv).
  - apply demo_rep.
  - simpl. lia.
  - lia.
  - lia.
  - vm_compute. done.
  - exists zl', es'. split; [exact E|]. split; [exact Hz|]. rewrite Hv. vm_compute. done.
Defined.

Lemma ziplist_traversal_witness :
  let _ := little_host in
  ziplistIndex (zblock 4 demo_ents) (-1) = Some (Some 19) ∧
  ∃ zl', ziplistLen (zblock 4 demo_ents) = Some (zl', 4) ∧ zrep zl' demo_ents.
Proof.
  intros hh. destruct (@ziplist_traversal hh (zblock 4 demo_ents) demo_ents (-1) 0) as (E & _ & _ & _ & Hl).
  - apply demo_rep.
  - vm_compute. done.
  - lia.
  - lia.
  - split; [exact E|exact Hl].
Defined.

(** The text of 7 is found at the third entry. *)
Lemma ziplistFind_refines_witness :
  let _ := little_host in
  ziplistFind (zblock 4 demo_ents) (zpos demo_ents 0) [55] 1 1 = Some (Some 17).
Proof.
  intros hh. destruct (@ziplistFind_refines hh (zblock 4 demo_ents) demo_ents 0 [55] 1) as (E & _).
  - apply demo_rep.
  - vm_compute. done.
  - lia.
  - lia.
  - exact E.
Defined.

(** The insertion that does not fit: a block in which an entry keeps the length 6
    of its predecessor on 5 bytes (after the deletion of a long one), and a new
    entry of 3 bytes before it.  The block shrinks before the move, which then
    reads beyond its end. *)
Definition shrink_block : option (list Z) :=
  let _ := little_host in
  let J := demo_junk in
  zl ← ziplistNew J;
  zl ← ziplistPush J zl (replicate 300 97) 300 ZIPLIST_TAIL;
  zl ← ziplistPush J zl (replicate 250 98) 250 ZIPLIST_TAIL;
  zl ← ziplistPush J zl (replicate 5 99) 5 ZIPLIST_TAIL;
  '(zl, _) ← ziplistDelete J zl 10;
  Some zl.

Lemma ziplistInsert_small_overread :
  let _ := little_host in
  ∃ zl p, shrink_block = Some zl ∧ ziplistIndex zl 1 = Some (Some p) ∧
    ziplistInsert demo_junk zl p [53] 1 = None ∧
    is_Some (ziplistInsert demo_junk zl p [53; 97; 97; 97; 97] 5).
Proof.
  intros hh. destruct shrink_block as [zl|] eqn:E; [|vm_compute in E; done].
  vm_compute in E. injection E as <-.
  eexists _, _. split; [reflexivity|]. split; [vm_compute; reflexivity|].
  split; [vm_compute; reflexivity|]. vm_compute. eexists. reflexivity.
Qed.
