(* ===== verification/Lzf.v ===== *)
(** * LZF compression ([lzf_c.c], [lzf_d.c], [lzfP.h])

    The compressor with the options of [lzfP.h] (HLOG 16, VERY_FAST, no
    initialisation of the hash table) and the decompressor.  The input and the
    output are blocks; [ip], [op] and [ref] are offsets into them.  The hash
    table starts with what the stack holds, so it is an argument.  An access
    outside of a block is [None]. *)
From S2P Require Import Prelude.
Open Scope Z_scope.

Definition HLOG : Z := 16.
Definition HSIZE : Z := 2 ^ 16.
Definition MAX_LIT : Z := 32.
Definition MAX_OFF : Z := 8192.
Definition MAX_REF : Z := 264.

Definition FRST (data : list Z) (p : Z) : option Z :=
  b0 ← mget data p; b1 ← mget data (p + 1); Some (Z.lor (Z.shiftl b0 8) b1).
Definition NEXT (v : Z) (data : list Z) (p : Z) : option Z :=
  b2 ← mget data (p + 2); Some (u32 (Z.lor (Z.shiftl v 8) b2)).
Definition IDX (h : Z) : Z := Z.land (u32 (Z.shiftr h (3 * 8 - HLOG) - u32 (h * 5))) (HSIZE - 1).

(** The table of pointers into the input, as offsets. *)
Definition htab_set (htab : Z → Z) (i v : Z) : Z → Z := λ j, if j =? i then v else htab j.

Record comp_state := CompState {
  c_ip : Z; c_op : Z; c_lit : Z; c_hval : Z; c_htab : Z → Z; c_out : list Z;
}.

(** How a turn of the main loop ends: the next turn, [break], or [return 0]. *)
Inductive turn := TNext (s : comp_state) | TBreak (s : comp_state) | TZero (out : list Z).

(** [len++; if (ref [len] != ip [len]) break;], [n] times: the length and
    whether it has stopped. *)
Fixpoint match_unrolled (n : nat) (data : list Z) (ref ip len : Z) : option (Z * bool) :=
  match n with
  | O => Some (len, false)
  | S n =>
      let len := len + 1 in
      a ← mget data (ref + len);
      b ← mget data (ip + len);
      if negb (a =? b) then Some (len, true) else match_unrolled n data ref ip len
  end.

(** [do len++; while (len < maxlen && ref[len] == ip[len])]. *)
Fixpoint match_do (fuel : nat) (data : list Z) (ref ip maxlen len : Z) : option Z :=
  match fuel with
  | O => None
  | S fuel =>
      let len := len + 1 in
      if len <? maxlen then
        a ← mget data (ref + len);
        b ← mget data (ip + len);
        if a =? b then match_do fuel data ref ip maxlen len else Some len
      else Some len
  end.

Definition match_len (data : list Z) (ref ip maxlen : Z) : option Z :=
  '(len, stopped) ← (if 16 <? maxlen then match_unrolled 16 data ref ip 2 else Some (2, false));
  if (stopped : bool) then Some len else match_do (Z.to_nat MAX_REF) data ref ip maxlen len.

(** The test for a match at [ip]. *)
Definition is_match (data : list Z) (in_end ip ref off : Z) : option bool :=
  if (off <? MAX_OFF) && (ip + 4 <? in_end) && (0 <? ref) then
    r0 ← mget data ref; i0 ← mget data ip;
    r1 ← mget data (ref + 1); i1 ← mget data (ip + 1);
    r2 ← mget data (ref + 2); i2 ← mget data (ip + 2);
    Some ((r0 =? i0) && (r1 =? i1) && (r2 =? i2))
  else Some false.

(** "match found". *)
Definition emit_match (data : list Z) (in_end out_end : Z) (s : comp_state) (ref off : Z) : option turn :=
  let ip := c_ip s in
  let lit := c_lit s in
  let maxlen := in_end - ip - 2 in
  let maxlen := if MAX_REF <? maxlen then MAX_REF else maxlen in
  out ← mset (c_out s) (c_op s - lit - 1) (u8 (lit - 1));
  let op := c_op s - (if lit =? 0 then 1 else 0) in
  if out_end <=? op + 3 + 1 then Some (TZero out)
  else
    len ← match_len data ref ip maxlen;
    let len := len - 2 in
    let ip := ip + 1 in
    '(out, op) ←
      (if len <? 7 then
         out ← mset out op (u8 (Z.shiftr off 8 + Z.shiftl len 5)); Some (out, op + 1)
       else
         out ← mset out op (u8 (Z.shiftr off 8 + Z.shiftl 7 5));
         out ← mset out (op + 1) (u8 (len - 7));
         Some (out, op + 2));
    out ← mset out op (u8 off);
    let op := op + 2 in
    let ip := ip + len + 1 in
    if in_end - 2 <=? ip then Some (TBreak (CompState ip op 0 (c_hval s) (c_htab s) out))
    else
      let ip := ip - 2 in
      hval ← FRST data ip;
      hval ← NEXT hval data ip;
      let htab := htab_set (c_htab s) (IDX hval) ip in
      let ip := ip + 1 in
      hval ← NEXT hval data ip;
      let htab := htab_set htab (IDX hval) ip in
      Some (TNext (CompState (ip + 1) op 0 hval htab out)).

(** "stop run" and "start run" after MAX_LIT literals. *)
Definition stop_run (op lit : Z) (out : list Z) : option (list Z * Z * Z) :=
  if lit =? MAX_LIT then out ← mset out (op - lit - 1) (u8 (lit - 1)); Some (out, op + 1, 0)
  else Some (out, op, lit).

(** "one more literal byte we must copy". *)
Definition emit_literal (data : list Z) (out_end : Z) (s : comp_state) : option turn :=
  if out_end <=? c_op s then Some (TZero (c_out s))
  else
    b ← mget data (c_ip s);
    out ← mset (c_out s) (c_op s) b;
    '(out, op, lit) ← stop_run (c_op s + 1) (c_lit s + 1) out;
    Some (TNext (CompState (c_ip s + 1) op lit (c_hval s) (c_htab s) out)).

Definition compress_turn (data : list Z) (in_end out_end : Z) (s : comp_state) : option turn :=
  hval ← NEXT (c_hval s) data (c_ip s);
  let hslot := IDX hval in
  let ref := c_htab s hslot in
  let s := CompState (c_ip s) (c_op s) (c_lit s) hval (htab_set (c_htab s) hslot (c_ip s)) (c_out s) in
  let off := u64 (c_ip s - ref - 1) in
  m ← is_match data in_end (c_ip s) ref off;
  if (m : bool) then emit_match data in_end out_end s ref off else emit_literal data out_end s.

(** [while (ip < in_end - 2)]; [inr] is [return 0]. *)
Fixpoint compress_loop (fuel : nat) (data : list Z) (in_end out_end : Z) (s : comp_state) : option (comp_state + list Z) :=
  if c_ip s <? in_end - 2 then
    match fuel with
    | O => None
    | S fuel =>
        t ← compress_turn data in_end out_end s;
        match t with
        | TNext s => compress_loop fuel data in_end out_end s
        | TBreak s => Some (inl s)
        | TZero out => Some (inr out)
        end
    end
  else Some (inl s).

(** [while (ip < in_end)]: the last literals. *)
Fixpoint compress_tail (fuel : nat) (data : list Z) (in_end ip op lit : Z) (out : list Z) : option (list Z * Z * Z) :=
  if ip <? in_end then
    match fuel with
    | O => None
    | S fuel =>
        b ← mget data ip;
        out ← mset out op b;
        '(out, op, lit) ← stop_run (op + 1) (lit + 1) out;
        compress_tail fuel data in_end (ip + 1) op lit out
    end
  else Some (out, op, lit).

(** The number of bytes written, 0 when they do not fit, and the output block. *)
Definition lzf_compress (htab : Z → Z) (data : list Z) (in_len : Z) (out : list Z) (out_len : Z)
    : option (Z * list Z) :=
  if (in_len =? 0) || (out_len =? 0) then Some (0, out)
  else
    hval ← FRST data 0;
    r ← compress_loop (Z.to_nat in_len) data in_len out_len (CompState 0 1 0 hval htab out);
    match r with
    | inr out => Some (0, out)
    | inl s =>
        if out_len <? c_op s + 3 then Some (0, c_out s)
        else
          '(out, op, lit) ← compress_tail (Z.to_nat in_len) data in_len (c_ip s) (c_op s) (c_lit s) (c_out s);
          out ← mset out (op - lit - 1) (u8 (lit - 1));
          Some (op - (if lit =? 0 then 1 else 0), out)
    end.

(** ** Decompression *)

(** [do *op++ = *ref++; while (--len)] within the output. *)
Fixpoint copy_back (n : nat) (out : list Z) (op ref : Z) : option (list Z) :=
  match n with
  | O => Some out
  | S n => b ← mget out ref; out ← mset out op b; copy_back n out (op + 1) (ref + 1)
  end.

Inductive lzf_errno := E2BIG | EINVAL.

Fixpoint decompress_loop (fuel : nat) (inp : list Z) (in_end out_end : Z) (ip op : Z) (out : list Z)
    : option ((Z * list Z) + lzf_errno) :=
  match fuel with
  | O => None
  | S fuel =>
      ctrl ← mget inp ip;
      let ip := ip + 1 in
      if ctrl <? 32 then
        let ctrl := ctrl + 1 in
        if out_end <? op + ctrl then Some (inr E2BIG)
        else if in_end <? ip + ctrl then Some (inr EINVAL)
        else
          bs ← mload inp ip ctrl;
          out ← mstore out op bs;
          if ip + ctrl <? in_end then decompress_loop fuel inp in_end out_end (ip + ctrl) (op + ctrl) out
          else Some (inl (op + ctrl, out))
      else
        let len := Z.shiftr ctrl 5 in
        let ref := op - Z.shiftl (Z.land ctrl 31) 8 - 1 in
        if in_end <=? ip then Some (inr EINVAL)
        else
          l ← (if len =? 7 then
                 b ← mget inp ip;
                 if in_end <=? ip + 1 then Some (inr EINVAL) else Some (inl (len + b, ip + 1))
               else Some (inl (len, ip)));
          match l with
          | inr e => Some (inr e)
          | inl (len, ip) =>
              b ← mget inp ip;
              let ref := ref - b in
              let ip := ip + 1 in
              if out_end <? op + len + 2 then Some (inr E2BIG)
              else if ref <? 0 then Some (inr EINVAL)
              else
                out ← copy_back (Z.to_nat (len + 2)) out op ref;
                let op := op + (len + 2) in
                if ip <? in_end then decompress_loop fuel inp in_end out_end ip op out
                else Some (inl (op, out))
          end
  end.

(** The number of bytes and the output block, or the [errno] of a return of 0. *)
Definition lzf_decompress (inp : list Z) (in_len : Z) (out : list Z) (out_len : Z)
    : option ((Z * list Z) + lzf_errno) :=
  decompress_loop (Z.to_nat in_len) inp in_len out_len 0 0 out.

(** ** The compressed format *)

(** A literal run, or [n] bytes at distance [off + 1]. *)
Inductive token := Lit (l : list Z) | Ref (off n : Z).

Definition enc_token (t : token) : list Z :=
  match t with
  | Lit l => blen l - 1 :: l
  | Ref off n =>
      if n - 2 <? 7 then [Z.shiftr off 8 + Z.shiftl (n - 2) 5; off mod 256]
      else [Z.shiftr off 8 + 224; n - 9; off mod 256]
  end.
Definition enc_tokens (ts : list token) : list Z := concat (enc_token <$> ts).

(** [n] bytes copied from distance [off + 1]; the source may overlap the copy. *)
Fixpoint copy (n : nat) (off : Z) (d : list Z) : list Z :=
  match n with
  | O => d
  | S n => copy n off (d ++ [default 0 (mget d (blen d - 1 - off))])
  end.
Definition apply_token (d : list Z) (t : token) : list Z :=
  match t with Lit l => d ++ l | Ref off n => copy (Z.to_nat n) off d end.
Definition decode (ts : list token) (d : list Z) : list Z := foldl apply_token d ts.

Definition token_ok (d : list Z) (t : token) : Prop :=
  match t with
  | Lit l => 1 ≤ blen l ≤ MAX_LIT
  | Ref off n => 0 ≤ off < MAX_OFF ∧ off < blen d ∧ 3 ≤ n ≤ MAX_REF
  end.
Fixpoint tokens_ok (d : list Z) (ts : list token) : Prop :=
  match ts with [] => True | t :: ts => token_ok d t ∧ tokens_ok (apply_token d t) ts end.

Lemma enc_tokens_app a b : enc_tokens (a ++ b) = enc_tokens a ++ enc_tokens b.
Proof. unfold enc_tokens. by rewrite fmap_app, concat_app. Qed.
Lemma enc_tokens_cons t ts : enc_tokens (t :: ts) = enc_token t ++ enc_tokens ts.
Proof. done. Qed.
Lemma enc_tokens_nil : enc_tokens [] = [].
Proof. done. Qed.
Lemma decode_app a b d : decode (a ++ b) d = decode b (decode a d).
Proof. apply foldl_app. Qed.
Lemma tokens_ok_app a b d : tokens_ok d (a ++ b) ↔ tokens_ok d a ∧ tokens_ok (decode a d) b.
Proof. revert d. induction a as [|t a IH]; intros d; simpl; [tauto|]. rewrite IH. tauto. Qed.

Lemma copy_length n off d : blen (copy n off d) = blen d + Z.of_nat n.
Proof. revert d. induction n as [|n IH]; intros d; simpl; [lia|]. rewrite IH, blen_app, blen_cons, blen_nil. lia. Qed.

Lemma enc_token_pos t : 1 ≤ blen (enc_token t).
Proof.
  destruct t; cbn [enc_token]; [|case_match]; rewrite blen_cons;
    match goal with |- context [blen ?x] => pose proof (blen_nonneg x) end; lia.
Qed.

Lemma apply_token_mono d t : blen d ≤ blen (apply_token d t).
Proof. destruct t; cbn [apply_token]; [rewrite blen_app; pose proof (blen_nonneg l)|rewrite copy_length]; lia. Qed.
Lemma decode_mono ts d : blen d ≤ blen (decode ts d).
Proof.
  revert d. induction ts as [|t ts IH]; intros d; [simpl; lia|]. change (decode (t :: ts) d) with (decode ts (apply_token d t)).
  pose proof (apply_token_mono d t). pose proof (IH (apply_token d t)). lia.
Qed.

(** The first [n] bytes. *)
Definition ztake (n : Z) (l : list Z) : list Z := take (Z.to_nat n) l.

Lemma ztake_length n l : 0 ≤ n ≤ blen l → blen (ztake n l) = n.
Proof. unfold ztake. intros. blia. Qed.

Lemma mget_Some l i b : mget l i = Some b → 0 ≤ i < blen l.
Proof.
  unfold mget. destruct (Z.leb_spec 0 i); [|done]. intros Hl%lookup_lt_Some. unfold blen. lia.
Qed.
Lemma mget_is_Some l i : 0 ≤ i < blen l → ∃ b, mget l i = Some b.
Proof.
  intros Hi. unfold mget. rewrite (proj2 (Z.leb_le _ _)) by lia. apply lookup_lt_is_Some_2. unfold blen in Hi. lia.
Qed.
Lemma mget_ztake l i n : 0 ≤ i < n → mget (ztake n l) i = mget l i.
Proof. intros. unfold mget, ztake. destruct (0 <=? i); [|done]. apply lookup_take_lt. lia. Qed.

Lemma ztake_snoc l n b : mget l n = Some b → ztake (n + 1) l = ztake n l ++ [b].
Proof.
  intros Hb. pose proof (mget_Some _ _ _ Hb). unfold mget in Hb. rewrite (proj2 (Z.leb_le _ _)) in Hb by lia.
  unfold ztake. replace (Z.to_nat (n + 1)) with (S (Z.to_nat n)) by lia. by apply take_S_r.
Qed.

(** A copy that the input itself contains. *)
Lemma copy_match data off n : ∀ ip,
  0 ≤ off < ip → ip + Z.of_nat n ≤ blen data →
  (∀ j, 0 ≤ j < Z.of_nat n → mget data (ip - 1 - off + j) = mget data (ip + j)) →
  copy n off (ztake ip data) = ztake (ip + Z.of_nat n) data.
Proof.
  induction n as [|n IH]; intros ip Hoff Hlen Heq; cbn [copy].
  { f_equal. lia. }
  destruct (mget_is_Some data ip) as [b Hb]; [lia|].
  rewrite ztake_length, mget_ztake by lia.
  pose proof (Heq 0 ltac:(lia)) as H0. rewrite !Z.add_0_r, Hb in H0. rewrite H0. change (default 0 (Some b)) with b.
  rewrite <-(ztake_snoc data ip b Hb), IH; [f_equal; lia|lia|lia|].
  intros j Hj. replace (ip + 1 - 1 - off + j) with (ip - 1 - off + (j + 1)) by lia.
  rewrite Heq by lia. f_equal. lia.
Qed.

(** ** The matches *)

Section compress.
Context (data : list Z).

(** The bytes at [ref] and [ip] agree below [n]. *)
Definition agree (ref ip n : Z) : Prop := ∀ j, 0 ≤ j < n → mget data (ref + j) = mget data (ip + j).

Lemma agree_S ref ip n : agree ref ip n → mget data (ref + n) = mget data (ip + n) → agree ref ip (n + 1).
Proof. intros Ha Hn j Hj. destruct (decide (j = n)) as [->|]; [done|]. apply Ha. lia. Qed.

Lemma match_unrolled_spec n : ∀ ref ip len,
  0 ≤ ref ≤ ip → 0 ≤ len → ip + len + Z.of_nat n < blen data → agree ref ip (len + 1) →
  ∃ len' b, match_unrolled n data ref ip len = Some (len', b) ∧ len ≤ len' ≤ len + Z.of_nat n ∧
    agree ref ip (if b : bool then len' else len' + 1) ∧ (b = true → len < len').
Proof.
  induction n as [|n IH]; intros ref ip len Hr Hl Hlen Ha; cbn [match_unrolled].
  { exists len, false. split; [done|]. split; [lia|]. done. }
  destruct (mget_is_Some data (ref + (len + 1))) as [a Ea]; [lia|].
  destruct (mget_is_Some data (ip + (len + 1))) as [b Eb]; [lia|].
  rewrite Ea, Eb. cbn [mbind option_bind]. destruct (Z.eqb_spec a b) as [->|Hne]; cbn [negb].
  - destruct (IH ref ip (len + 1)) as (len' & b' & -> & Hl' & Ha' & Hb'); try lia.
    { apply agree_S; [done|]. by rewrite Ea, Eb. }
    exists len', b'. split; [done|]. split; [lia|]. split; [done|]. intros Ht. specialize (Hb' Ht). lia.
  - exists (len + 1), true. split; [done|]. split; [lia|]. split; [done|lia].
Qed.

Lemma match_do_spec fuel : ∀ ref ip maxlen len,
  0 ≤ ref ≤ ip → 0 ≤ len → ip + maxlen ≤ blen data → agree ref ip (len + 1) → maxlen - len ≤ Z.of_nat fuel →
  (0 < fuel)%nat →
  ∃ len', match_do fuel data ref ip maxlen len = Some len' ∧ len + 1 ≤ len' ≤ Z.max (len + 1) maxlen ∧
    agree ref ip len'.
Proof.
  induction fuel as [|fuel IH]; intros ref ip maxlen len Hr Hl Hlen Ha Hf H0; [lia|]. cbn [match_do].
  destruct (Z.ltb_spec (len + 1) maxlen).
  - destruct (mget_is_Some data (ref + (len + 1))) as [a Ea]; [lia|].
    destruct (mget_is_Some data (ip + (len + 1))) as [b Eb]; [lia|].
    rewrite Ea, Eb. cbn [mbind option_bind]. destruct (Z.eqb_spec a b) as [->|Hne].
    + destruct (IH ref ip maxlen (len + 1)) as (len' & -> & Hl' & Ha'); try lia.
      { apply agree_S; [done|]. by rewrite Ea, Eb. }
      exists len'. split; [done|]. split; [lia|done].
    + exists (len + 1). split; [done|]. split; [lia|done].
  - exists (len + 1). split; [done|]. split; [lia|done].
Qed.

Lemma match_len_spec ref ip :
  let m := blen data - ip - 2 in
  let maxlen := if MAX_REF <? m then MAX_REF else m in
  0 ≤ ref ≤ ip → ip + 4 < blen data → agree ref ip 3 →
  ∃ n, match_len data ref ip maxlen = Some n ∧ 3 ≤ n ≤ MAX_REF ∧ ip + n ≤ blen data ∧ agree ref ip n.
Proof.
  intros m maxlen Hr Hip Ha. unfold match_len.
  assert (3 ≤ maxlen ≤ MAX_REF ∧ maxlen ≤ m) as [Hm Hmm]
    by (subst maxlen m; unfold MAX_REF; case_match; lia).
  unfold MAX_REF in *. change (Z.to_nat 264) with 264%nat. generalize dependent maxlen. intros maxlen Hm Hmm.
  destruct (Z.ltb_spec 16 maxlen).
  - destruct (match_unrolled_spec 16 ref ip 2) as (len & b & -> & Hl & Ha' & Hb); try lia; [exact Ha|].
    cbn [mbind option_bind]. destruct b.
    + specialize (Hb eq_refl). exists len. split; [done|]. split; [lia|]. split; [lia|done].
    + destruct (match_do_spec 264 ref ip maxlen len) as (n & -> & Hn & Han); try lia; [done|].
      exists n. split; [done|]. split; [lia|]. split; [lia|done].
  - cbn [mbind option_bind].
    destruct (match_do_spec 264 ref ip maxlen 2) as (n & -> & Hn & Han); try lia; [done|].
    exists n. split; [done|]. split; [lia|]. split; [lia|done].
Qed.

Lemma is_match_spec ip ref off :
  0 ≤ ip → off = u64 (ip - ref - 1) → - 2 ^ 63 ≤ ref < 2 ^ 63 → ip < 2 ^ 32 → ip + 2 < blen data →
  ∃ m, is_match data (blen data) ip ref off = Some m ∧
    (m = true → 0 < ref < ip ∧ off = ip - ref - 1 ∧ off < MAX_OFF ∧ ip + 4 < blen data ∧ agree ref ip 3).
Proof.
  intros Hip Hoff Href Hip2 Hlen. unfold is_match. destruct (Z.ltb_spec off MAX_OFF) as [Ho|Ho]; [|by exists false].
  destruct (Z.ltb_spec (ip + 4) (blen data)); [|by exists false].
  destruct (Z.ltb_spec 0 ref); [|by exists false]. cbn [andb].
  assert (ref < ip ∧ off = ip - ref - 1) as [Hri Ho'].
  { subst off. unfold wrapu, MAX_OFF in *. destruct (Z.lt_ge_cases ref ip).
    - split; [done|]. apply Z.mod_small. lia.
    - rewrite <-(Z.mod_unique (ip - ref - 1) (2 ^ 64) (-1) (ip - ref - 1 + 2 ^ 64)) in Ho by lia. lia. }
  destruct (mget_is_Some data ref) as [r0 E0]; [lia|]. destruct (mget_is_Some data ip) as [i0 F0]; [lia|].
  destruct (mget_is_Some data (ref + 1)) as [r1 E1]; [lia|]. destruct (mget_is_Some data (ip + 1)) as [i1 F1]; [lia|].
  destruct (mget_is_Some data (ref + 2)) as [r2 E2]; [lia|]. destruct (mget_is_Some data (ip + 2)) as [i2 F2]; [lia|].
  rewrite E0, F0, E1, F1, E2, F2. cbn [mbind option_bind]. eexists. split; [done|].
  intros [[->%Z.eqb_eq ->%Z.eqb_eq]%andb_true_iff ->%Z.eqb_eq]%andb_true_iff.
  split_and!; try done. intros j Hj. assert (j = 0 ∨ j = 1 ∨ j = 2) as [-> | [-> | ->]] by lia.
  - by rewrite !Z.add_0_r, E0, F0.
  - by rewrite E1, F1.
  - by rewrite E2, F2.
Qed.

(** ** The invariant of the compressor

    The output holds the tokens of what is before the current run, the byte
    kept for the run's length, and the literals of the run. *)
Definition run_inv (L ip op lit : Z) (out : list Z) : Prop :=
  ∃ ts lits x R, tokens_ok [] ts ∧ decode ts [] ++ lits = ztake ip data ∧ blen lits = lit ∧ 0 ≤ lit < MAX_LIT ∧
    op = blen (enc_tokens ts) + 1 + lit ∧ out = enc_tokens ts ++ x :: lits ++ R ∧
    0 ≤ ip ≤ blen data ∧ blen out = L.

(** The output holds the tokens of all before [ip]. *)
Definition closed_inv (L ip op : Z) (out : list Z) : Prop :=
  ∃ ts R, tokens_ok [] ts ∧ decode ts [] = ztake ip data ∧ op = blen (enc_tokens ts) ∧
    out = enc_tokens ts ++ R ∧ 0 ≤ ip ≤ blen data ∧ blen out = L.

Lemma run_start L ip op out : closed_inv L ip op out → op < L → run_inv L ip (op + 1) 0 out.
Proof.
  intros (ts & R & Hok & Hd & -> & -> & Hip & HL) Hop. rewrite blen_app in HL.
  destruct R as [|x R]; [rewrite blen_nil in HL; lia|].
  exists ts, [], x, R. rewrite app_nil_r, Z.add_0_r. unfold MAX_LIT. split_and!; try done; try lia.
  by rewrite blen_app.
Qed.

(** "stop run", with the run undone when it is empty. *)
Lemma run_stop L ip op lit out :
  run_inv L ip op lit out →
  ∃ out', mset out (op - lit - 1) (u8 (lit - 1)) = Some out' ∧
    closed_inv L ip (op - (if lit =? 0 then 1 else 0)) out'.
Proof.
  intros (ts & lits & x & R & Hok & Hd & Hl & Hlit & -> & -> & Hip & HL).
  rewrite mset_app by lia. eexists. split; [done|].
  assert (∀ y, blen (enc_tokens ts ++ y :: lits ++ R) = L) as HLy
    by (intros y; rewrite <-HL, !blen_app, !blen_cons, !blen_app; done).
  destruct (Z.eqb_spec lit 0) as [->|Hne].
  - destruct lits; [|rewrite blen_cons in Hl; pose proof (blen_nonneg lits); lia].
    rewrite app_nil_r in Hd. exists ts. eexists. split_and!; try done; lia.
  - exists (ts ++ [Lit lits]), R. rewrite tokens_ok_app, decode_app, enc_tokens_app. unfold MAX_LIT in Hlit.
    assert (enc_tokens [Lit lits] = (lit - 1) :: lits) as ->.
    { rewrite enc_tokens_cons, enc_tokens_nil, app_nil_r. cbn [enc_token]. by rewrite Hl. }
    rewrite (wrapu_small 8) by lia. split_and!; try done; try lia.
    + cbn [tokens_ok token_ok]. unfold MAX_LIT. split; [lia|done].
    + rewrite blen_app, blen_cons. lia.
    + by rewrite <-(assoc_L (++)).
Qed.

Lemma stop_run_spec L ip op lit out ts lits x R :
  tokens_ok [] ts → decode ts [] ++ lits = ztake ip data → blen lits = lit → 1 ≤ lit ≤ MAX_LIT →
  op = blen (enc_tokens ts) + 1 + lit → out = enc_tokens ts ++ x :: lits ++ R → 0 ≤ ip ≤ blen data →
  blen out = L → op < L →
  ∃ out' op' lit', stop_run op lit out = Some (out', op', lit') ∧ run_inv L ip op' lit' out' ∧
    ((op' = op ∧ lit' = lit) ∨ (op' = op + 1 ∧ lit' = 0 ∧ lit = MAX_LIT)).
Proof.
  intros Hok Hd Hl Hlit -> -> Hip HL HopL. unfold stop_run.
  destruct (Z.eqb_spec lit MAX_LIT) as [->|Hne].
  - rewrite mset_app by lia. cbn [mbind option_bind]. eexists _, _, _. split; [done|]. split; [|lia].
    rewrite (wrapu_small 8) by (unfold MAX_LIT; lia).
    replace (blen (enc_tokens ts) + 1 + MAX_LIT) with (blen (enc_tokens (ts ++ [Lit lits]))).
    2:{ rewrite enc_tokens_app, blen_app, enc_tokens_cons, enc_tokens_nil, app_nil_r. cbn [enc_token].
        rewrite blen_cons. lia. }
    apply run_start.
    + exists (ts ++ [Lit lits]), R. rewrite tokens_ok_app, decode_app.
      rewrite enc_tokens_app, enc_tokens_cons, enc_tokens_nil, app_nil_r. cbn [enc_token]. rewrite Hl.
      split_and!; try done; try lia.
      * cbn [tokens_ok token_ok]. split; [lia|done].
      * by rewrite <-(assoc_L (++)).
      * rewrite <-HL, !blen_app, !blen_cons. done.
    + rewrite enc_tokens_app, blen_app, enc_tokens_cons, enc_tokens_nil, app_nil_r. cbn [enc_token].
      rewrite blen_cons. lia.
  - eexists _, _, _. split; [done|]. split; [|lia]. exists ts, lits, x, R. split_and!; try done; lia.
Qed.

(** A literal is written and the run stops when it is full. *)
Lemma literal_spec L ip op lit out :
  run_inv L ip op lit out → ip < blen data → op + 1 < L →
  ∃ b out1 out' op' lit', mget data ip = Some b ∧ mset out op b = Some out1 ∧
    stop_run (op + 1) (lit + 1) out1 = Some (out', op', lit') ∧
    run_inv L (ip + 1) op' lit' out' ∧
    ((op' = op + 1 ∧ lit' = lit + 1) ∨ (op' = op + 2 ∧ lit' = 0 ∧ lit + 1 = MAX_LIT)).
Proof.
  intros (ts & lits & x & R & Hok & Hd & Hl & Hlit & -> & -> & Hip & HL) Hipd HopL.
  destruct (mget_is_Some data ip) as [b Hb]; [lia|].
  rewrite blen_app, blen_cons, blen_app in HL.
  destruct R as [|y R]; [rewrite blen_nil in HL; lia|]. rewrite blen_cons in HL.
  assert (enc_tokens ts ++ x :: lits ++ y :: R = (enc_tokens ts ++ x :: lits) ++ y :: R) as ->
    by (by rewrite <-(assoc_L (++))).
  exists b. rewrite mset_app by (rewrite blen_app, blen_cons; lia).
  destruct (stop_run_spec L (ip + 1) (blen (enc_tokens ts) + 1 + lit + 1) (lit + 1)
    ((enc_tokens ts ++ x :: lits) ++ b :: R) ts (lits ++ [b]) x R) as (out' & op' & lit' & E & Hinv & Hop');
    try done; try lia.
  - by rewrite (assoc_L (++)), Hd, (ztake_snoc _ _ b).
  - rewrite blen_app, blen_cons, blen_nil. lia.
  - by rewrite <-!(assoc_L (++)).
  - rewrite !blen_app, !blen_cons. lia.
  - eexists _, _, _, _. split; [done|]. split; [done|]. split; [exact E|]. split; [exact Hinv|lia].
Qed.

Lemma compress_tail_spec L fuel : ∀ ip op lit out,
  run_inv L ip op lit out → blen data - ip ≤ Z.of_nat fuel → op + 2 * (blen data - ip) ≤ L →
  ∃ out' op' lit', compress_tail fuel data (blen data) ip op lit out = Some (out', op', lit') ∧
    run_inv L (blen data) op' lit' out' ∧ 32 * (op' - op - (blen data - ip)) ≤ lit + (blen data - ip).
Proof.
  induction fuel as [|fuel IH]; intros ip op lit out Hinv Hf HopL; cbn [compress_tail];
    destruct (Z.ltb_spec ip (blen data)) as [Hlt|Hge]; try lia.
  1,3: exists out, op, lit; split; [done|];
    destruct Hinv as (?&?&?&?&?&?&?&?&?&?&Hipd&?);
    replace (blen data) with ip by lia; split; [do 4 eexists; split_and!; done || lia|lia].
  destruct (literal_spec L ip op lit out Hinv Hlt ltac:(lia)) as (b & o1 & o2 & op2 & lit2 & -> & E1 & E2 & Hinv2 & Hop2).
  cbn [mbind option_bind]. rewrite E1. cbn [mbind option_bind]. rewrite E2. cbn [mbind option_bind].
  unfold MAX_LIT in Hop2.
  destruct (IH (ip + 1) op2 lit2 o2 Hinv2 ltac:(lia) ltac:(lia)) as (out' & op' & lit' & -> & Hinv' & Hop').
  exists out', op', lit'. split; [done|]. split; [done|lia].
Qed.

Definition htab_ok (htab : Z → Z) : Prop := ∀ k, - 2 ^ 63 ≤ htab k < 2 ^ 63.
Lemma htab_set_ok htab i v : htab_ok htab → 0 ≤ v < 2 ^ 63 → htab_ok (htab_set htab i v).
Proof. intros Hh Hv k. unfold htab_set. case_match; [lia|apply Hh]. Qed.

Lemma NEXT_Some v p : 0 ≤ p → p + 2 < blen data → ∃ h, NEXT v data p = Some h.
Proof. intros. unfold NEXT. destruct (mget_is_Some data (p + 2)) as [b ->]; [lia|]. by eexists. Qed.
Lemma FRST_Some p : 0 ≤ p → p + 1 < blen data → ∃ h, FRST data p = Some h.
Proof.
  intros. unfold FRST. destruct (mget_is_Some data p) as [b ->]; [lia|].
  destruct (mget_is_Some data (p + 1)) as [b' ->]; [lia|]. by eexists.
Qed.

Definition state_inv (L : Z) (s : comp_state) : Prop :=
  run_inv L (c_ip s) (c_op s) (c_lit s) (c_out s) ∧ htab_ok (c_htab s).

(** The bytes of a back reference. *)
Lemma put_ref L ip op out off n :
  closed_inv L ip op out → 0 ≤ off < MAX_OFF → off < ip → 3 ≤ n ≤ MAX_REF → ip + n ≤ blen data →
  agree (ip - 1 - off) ip n → op + 4 < L →
  ∃ out1 op1 out2,
    (if n - 2 <? 7 then
       o ← mset out op (u8 (Z.shiftr off 8 + Z.shiftl (n - 2) 5)); Some (o, op + 1)
     else
       o ← mset out op (u8 (Z.shiftr off 8 + Z.shiftl 7 5));
       o ← mset o (op + 1) (u8 (n - 2 - 7));
       Some (o, op + 2)) = Some (out1, op1) ∧
    mset out1 op1 (u8 off) = Some out2 ∧ closed_inv L (ip + n) (op1 + 1) out2 ∧ op1 ≤ op + 2.
Proof.
  intros (ts & R & Hok & Hd & -> & -> & Hip & HL) Ho Hoi Hn Hend Ha Hop. unfold MAX_OFF, MAX_REF in *.
  rewrite blen_app in HL.
  destruct R as [|r0 [|r1 [|r2 R]]]; rewrite ?blen_cons, ?blen_nil in HL; try lia.
  assert (0 ≤ Z.shiftr off 8 < 32) as Hsh.
  { rewrite Z.shiftr_div_pow2 by lia. change (2 ^ 8) with 256. split; [apply Z.div_pos; lia|].
    apply Z.div_lt_upper_bound; lia. }
  assert (u8 off = off mod 256) as Eo by done.
  assert (decode (ts ++ [Ref off n]) [] = ztake (ip + n) data) as Hdec.
  { rewrite decode_app, Hd. change (copy (Z.to_nat n) off (ztake ip data) = ztake (ip + n) data).
    rewrite copy_match; [f_equal; lia|lia|lia|]. intros j Hj. apply Ha. lia. }
  assert (tokens_ok [] (ts ++ [Ref off n])) as Htok.
  { apply tokens_ok_app. split; [done|]. cbn [tokens_ok token_ok]. rewrite Hd, ztake_length by lia.
    unfold MAX_OFF, MAX_REF. lia. }
  assert (∀ b0 b1 R', blen (enc_tokens ts ++ b0 :: b1 :: r2 :: R') = blen (enc_tokens ts) + (3 + blen R')) as HLb
    by (intros; rewrite blen_app, !blen_cons; lia).
  destruct (Z.ltb_spec (n - 2) 7) as [H7|H7].
  - rewrite mset_app by done. cbn [mbind option_bind]. eexists _, _, _. split; [done|].
    rewrite (Z.shiftl_mul_pow2 _ 5) by lia. change (2 ^ 5) with 32.
    rewrite (wrapu_small 8 (Z.shiftr off 8 + _)) by lia.
    rewrite cons_middle, (assoc_L (++)), mset_app by (rewrite blen_app, blen_cons, blen_nil; lia).
    split; [done|]. split; [|lia]. exists (ts ++ [Ref off n]), (r2 :: R).
    rewrite enc_tokens_app, enc_tokens_cons, enc_tokens_nil, app_nil_r. cbn [enc_token].
    rewrite (proj2 (Z.ltb_lt _ _)) by lia. rewrite (Z.shiftl_mul_pow2 _ 5) by lia. change (2 ^ 5) with 32.
    split_and!; try done; try lia.
    + rewrite blen_app, !blen_cons, blen_nil. lia.
    + by rewrite <-!(assoc_L (++)).
    + rewrite <-(assoc_L (++)). cbn [app]. rewrite HLb. lia.
  - rewrite mset_app by done. cbn [mbind option_bind]. change (Z.shiftl 7 5) with 224.
    rewrite (wrapu_small 8 (Z.shiftr off 8 + 224)) by lia.
    rewrite cons_middle, (assoc_L (++)), mset_app by (rewrite blen_app, blen_cons, blen_nil; lia).
    cbn [mbind option_bind]. eexists _, _, _. split; [done|].
    rewrite (wrapu_small 8 (n - 2 - 7)) by lia.
    rewrite (cons_middle (n - 2 - 7)), (assoc_L (++)), mset_app
      by (rewrite !blen_app, !blen_cons, blen_nil; lia).
    split; [done|]. split; [|lia]. exists (ts ++ [Ref off n]), R.
    rewrite enc_tokens_app, enc_tokens_cons, enc_tokens_nil, app_nil_r. cbn [enc_token].
    rewrite (proj2 (Z.ltb_ge _ _)) by lia. replace (n - 2 - 7) with (n - 9) by lia.
    split_and!; try done; try lia.
    + rewrite blen_app, !blen_cons, blen_nil. lia.
    + by rewrite <-!(assoc_L (++)).
    + rewrite <-!(assoc_L (++)). cbn [app]. rewrite blen_app, !blen_cons. lia.
Qed.

(** What a turn leaves. *)
Definition turn_inv (L ip : Z) (t : turn) : Prop :=
  match t with
  | TNext s => state_inv L s ∧ ip < c_ip s
  | TBreak s => state_inv L s ∧ blen data - 2 ≤ c_ip s
  | TZero out => blen out = L
  end.

Lemma run_inv_length L ip op lit out : run_inv L ip op lit out → blen out = L ∧ 0 ≤ ip ≤ blen data ∧ 0 ≤ lit.
Proof. intros (?&?&?&?&_&_&_&?&_&_&?&?). lia. Qed.

Lemma emit_match_spec L out_end s ref off :
  state_inv L s → out_end < L → blen data < 2 ^ 32 → 0 < ref < c_ip s → off = c_ip s - ref - 1 → off < MAX_OFF →
  c_ip s + 4 < blen data → agree ref (c_ip s) 3 →
  ∃ t, emit_match data (blen data) out_end s ref off = Some t ∧ turn_inv L (c_ip s) t.
Proof.
  intros [Hinv Hh] HL Hd Href Hoff Hmax Hip Ha. unfold emit_match.
  destruct (run_stop _ _ _ _ _ Hinv) as (out & -> & Hcl). cbn [mbind option_bind].
  set (op := c_op s - (if c_lit s =? 0 then 1 else 0)) in *.
  destruct (Z.leb_spec out_end (op + 3 + 1)).
  { eexists. split; [done|]. destruct Hcl as (?&?&_&_&_&_&_&?). done. }
  destruct (match_len_spec ref (c_ip s)) as (n & -> & Hn & Hne & Han); [lia|done|done|]. cbn [mbind option_bind].
  destruct (put_ref L (c_ip s) op out off n Hcl) as (o1 & op1 & o2 & E1 & E2 & Hcl2 & Hop1); try lia.
  { subst off. by replace (c_ip s - 1 - (c_ip s - ref - 1)) with ref by lia. }
  rewrite E1. cbn [mbind option_bind]. rewrite E2. cbn [mbind option_bind].
  apply run_start in Hcl2; [|lia]. replace (op1 + 1 + 1) with (op1 + 2) in Hcl2 by lia.
  replace (c_ip s + 1 + (n - 2) + 1) with (c_ip s + n) by lia.
  destruct (Z.leb_spec (blen data - 2) (c_ip s + n)).
  { eexists. split; [done|]. split; [|done]. split; [done|]. done. }
  destruct (FRST_Some (c_ip s + n - 2)) as [h0 ->]; [lia|lia|]. cbn [mbind option_bind].
  destruct (NEXT_Some h0 (c_ip s + n - 2)) as [h1 ->]; [lia|lia|]. cbn [mbind option_bind].
  destruct (NEXT_Some h1 (c_ip s + n - 2 + 1)) as [h2 ->]; [lia|lia|]. cbn [mbind option_bind].
  eexists. split; [done|]. unfold turn_inv, state_inv. cbn [c_ip c_op c_lit c_out c_htab].
  replace (c_ip s + n - 2 + 1 + 1) with (c_ip s + n) by lia.
  split; [|lia]. split; [done|]. apply htab_set_ok; [|lia]. apply htab_set_ok; [done|lia].
Qed.

Lemma compress_turn_spec L out_end s :
  state_inv L s → out_end < L → blen data < 2 ^ 32 → c_ip s < blen data - 2 →
  ∃ t, compress_turn data (blen data) out_end s = Some t ∧ turn_inv L (c_ip s) t.
Proof.
  intros [Hinv Hh] HL Hd Hip. unfold compress_turn.
  destruct (run_inv_length _ _ _ _ _ Hinv) as (Hlen & Hip0 & _).
  destruct (NEXT_Some (c_hval s) (c_ip s)) as [hv ->]; [lia|lia|]. cbn [mbind option_bind c_ip c_op c_lit c_out c_htab c_hval].
  destruct (is_match_spec (c_ip s) (c_htab s (IDX hv)) (u64 (c_ip s - c_htab s (IDX hv) - 1)))
    as (m & -> & Hm); try lia; [apply Hh|]. cbn [mbind option_bind].
  assert (htab_ok (htab_set (c_htab s) (IDX hv) (c_ip s))) as Hh' by (apply htab_set_ok; [done|lia]).
  destruct m.
  - destruct (Hm eq_refl) as (Href & Hoff & Hmax & H4 & Ha). apply (emit_match_spec L _ (CompState _ _ _ _ _ _)); try done.
  - unfold emit_literal. cbn [c_ip c_op c_lit c_out c_htab c_hval].
    destruct (Z.leb_spec out_end (c_op s)); [by eexists|].
    destruct (literal_spec L _ _ _ _ Hinv) as (b & o1 & o2 & op2 & lit2 & -> & E1 & E2 & Hinv2 & _); [lia|lia|].
    cbn [mbind option_bind]. rewrite E1. cbn [mbind option_bind]. rewrite E2. cbn [mbind option_bind].
    eexists. split; [done|]. split; [done|]. cbn [c_ip]. lia.
Qed.

Lemma compress_loop_spec L out_end fuel : ∀ s,
  state_inv L s → out_end < L → blen data < 2 ^ 32 → blen data - c_ip s ≤ Z.of_nat fuel →
  ∃ r, compress_loop fuel data (blen data) out_end s = Some r ∧
    match r with inl s' => state_inv L s' ∧ blen data - 2 ≤ c_ip s' | inr out => blen out = L end.
Proof.
  induction fuel as [|fuel IH]; intros s Hinv HL Hd Hf; cbn [compress_loop];
    (destruct (Z.ltb_spec (c_ip s) (blen data - 2)) as [Hlt|Hge];
      [|by exists (inl s)]); [lia|].
  destruct (compress_turn_spec L out_end s Hinv HL Hd Hlt) as (t & -> & Ht). cbn [mbind option_bind].
  destruct t as [s'|s'|out]; cbn [turn_inv] in Ht.
  - apply IH; try done; [by destruct Ht|]. lia.
  - by exists (inl s').
  - by exists (inr out).
Qed.
End compress.

(** ** Decompression *)

Lemma drop_blen (a R : list Z) k : k = length a → drop k (a ++ R) = R.
Proof. intros ->. apply drop_app_length. Qed.

Lemma copy_back_spec n off : ∀ d R,
  0 ≤ off < blen d → (n ≤ length R)%nat →
  copy_back n (d ++ R) (blen d) (blen d - 1 - off) = Some (copy n off d ++ drop n R).
Proof.
  induction n as [|n IH]; intros d R Ho Hn; cbn [copy_back copy]; [by rewrite drop_0|].
  destruct R as [|x R]; [simpl in Hn; lia|].
  destruct (mget_is_Some d (blen d - 1 - off)) as [b Hb]; [lia|].
  assert (mget (d ++ x :: R) (blen d - 1 - off) = Some b) as ->.
  { unfold mget in *. case_match; [|done]. rewrite lookup_app_l; [done|]. unfold blen in *. lia. }
  cbn [mbind option_bind]. rewrite mset_app by done. cbn [mbind option_bind].
  rewrite Hb. change (default 0 (Some b)) with b.
  assert (d ++ b :: R = (d ++ [b]) ++ R) as -> by (by rewrite <-(assoc_L (++))).
  assert (blen (d ++ [b]) = blen d + 1) as Hl by (rewrite blen_app, blen_cons, blen_nil; lia).
  replace (blen d + 1) with (blen (d ++ [b])) by done.
  replace (blen d - 1 - off + 1) with (blen (d ++ [b]) - 1 - off) by lia.
  simpl in Hn. rewrite IH by lia. done.
Qed.

(** The control byte of a back reference. *)
Lemma ref_ctrl off k :
  0 ≤ off < MAX_OFF → 0 ≤ k → let c := Z.shiftr off 8 + Z.shiftl k 5 in
  Z.shiftr c 5 = k ∧ Z.shiftl (Z.land c 31) 8 + off mod 256 = off ∧ (1 ≤ k → 32 ≤ c).
Proof.
  intros Ho Hk c. unfold MAX_OFF in Ho. subst c. rewrite (Z.shiftl_mul_pow2 k 5), !Z.shiftr_div_pow2 by lia.
  change (2 ^ 8) with 256. change (2 ^ 5) with 32.
  pose proof (Z.div_mod off 256 ltac:(lia)). pose proof (Z.mod_pos_bound off 256 ltac:(lia)).
  assert (0 ≤ off / 256 < 32) as Hd by lia.
  split; [|split; [|lia]].
  - rewrite Z.div_add by lia. rewrite (Z.div_small (off / 256)) by lia. lia.
  - change 31 with (2 ^ 5 - 1). rewrite land_mask_mod, Z.shiftl_mul_pow2 by lia.
    change (2 ^ 5) with 32. change (2 ^ 8) with 256.
    rewrite Z_mod_plus_full, (Z.mod_small (off / 256)) by lia. lia.
Qed.

Section tokens.
Context (out_end : Z).

(** The state after a token. *)
Definition goes_on (fuel : nat) (inp : list Z) (ip op : Z) (out : list Z) :=
  if ip <? blen inp then decompress_loop fuel inp (blen inp) out_end ip op out else Some (inl (op, out)).

Lemma decompress_token fuel A t B d R :
  token_ok d t → blen (apply_token d t) ≤ out_end → out_end ≤ blen (d ++ R) →
  decompress_loop (S fuel) (A ++ enc_token t ++ B) (blen (A ++ enc_token t ++ B)) out_end (blen A) (blen d) (d ++ R)
  = goes_on fuel (A ++ enc_token t ++ B) (blen (A ++ enc_token t)) (blen (apply_token d t))
      (apply_token d t ++ drop (Z.to_nat (blen (apply_token d t) - blen d)) R).
Proof.
  intros Hok Hend HR. cbn [decompress_loop]. pose proof (blen_nonneg B) as HB. rewrite blen_app in HR.
  assert (∀ p x r, enc_token t = p ++ x :: r → mget (A ++ enc_token t ++ B) (blen A + blen p) = Some x) as Hget.
  { intros p x r ->. assert (A ++ (p ++ x :: r) ++ B = (A ++ p) ++ x :: (r ++ B)) as -> by (by rewrite <-!(assoc_L (++))).
    apply mget_app. by rewrite blen_app. }
  assert (∀ x r, enc_token t = x :: r → mget (A ++ enc_token t ++ B) (blen A) = Some x) as Hget0
    by (intros x r Ex; specialize (Hget [] x r Ex); by rewrite blen_nil, Z.add_0_r in Hget).
  assert (blen (A ++ enc_token t ++ B) = blen A + (blen (enc_token t) + blen B)) as HI by (by rewrite !blen_app).
  assert (∀ l r, enc_token t = [blen l - 1] ++ l ++ r → mload (A ++ enc_token t ++ B) (blen A + 1) (blen l) = Some l)
    as Hload.
  { intros l r ->. assert (A ++ ([blen l - 1] ++ l ++ r) ++ B = (A ++ [blen l - 1]) ++ l ++ (r ++ B)) as ->
      by (by rewrite <-!(assoc_L (++))).
    apply mload_app; [|done]. by rewrite blen_app. }
  unfold goes_on. rewrite (blen_app A (enc_token t)). set (I := A ++ enc_token t ++ B) in *. clearbody I.
  destruct t as [l|off n]; cbn [token_ok apply_token enc_token] in *.
  - rewrite (Hget0 (blen l - 1) l) by done. cbn [mbind option_bind].
    unfold MAX_LIT in Hok. rewrite (proj2 (Z.ltb_lt _ 32)) by lia. rewrite blen_app in Hend.
    replace (blen l - 1 + 1) with (blen l) by lia. rewrite (blen_cons (blen l - 1)) in *.
    rewrite (proj2 (Z.ltb_ge out_end _)), (proj2 (Z.ltb_ge (blen I) (blen A + 1 + blen l))) by lia.
    rewrite (Hload l []) by (by rewrite app_nil_r). cbn [mbind option_bind].
    destruct (split_at R (blen l)) as (R1 & R2 & -> & HR1); [lia|].
    rewrite mstore_app by (done || (unfold blen in *; lia)). cbn [mbind option_bind].
    replace (Z.to_nat (blen (d ++ l) - blen d)) with (length R1)
      by (rewrite blen_app; unfold blen in *; lia).
    rewrite drop_app_length, <-(assoc_L (++) d), blen_app.
    by replace (blen A + 1 + blen l) with (blen A + (1 + blen l)) by lia.
  - destruct Hok as (Ho & Hod & Hn). rewrite copy_length in Hend. unfold MAX_REF in Hn.
    rewrite copy_length, !Z2Nat.id by lia. replace (blen d + n - blen d) with n by lia.
    destruct (ref_ctrl off (n - 2) Ho ltac:(lia)) as (C1 & C2 & C3). specialize (C3 ltac:(lia)).
    destruct (ref_ctrl off 7 Ho ltac:(lia)) as (D1 & D2 & D3). specialize (D3 ltac:(lia)).
    change (Z.shiftl 7 5) with 224 in *. pose proof (Z.mod_pos_bound off 256 ltac:(lia)).
    assert (copy_back (Z.to_nat n) (d ++ R) (blen d) (blen d - 1 - off)
      = Some (copy (Z.to_nat n) off d ++ drop (Z.to_nat n) R)) as Hcp
      by (apply copy_back_spec; [lia|unfold blen in *; lia]).
    destruct (Z.ltb_spec (n - 2) 7) as [H7|H7]; rewrite !blen_cons, blen_nil in *.
    + rewrite (Hget0 _ [off mod 256]) by done. cbn [mbind option_bind].
      rewrite (proj2 (Z.ltb_ge _ 32)), C1, (proj2 (Z.leb_gt _ (blen A + 1))), (proj2 (Z.eqb_neq (n - 2) 7)) by lia.
      cbn [mbind option_bind].
      pose proof (Hget [Z.shiftr off 8 + Z.shiftl (n - 2) 5] (off mod 256) [] eq_refl) as E.
      rewrite blen_cons, blen_nil in E. change (1 + 0) with 1 in E. rewrite E. cbn [mbind option_bind].
      rewrite (proj2 (Z.ltb_ge out_end _)) by lia.
      replace (blen d - Z.shiftl (Z.land (Z.shiftr off 8 + Z.shiftl (n - 2) 5) 31) 8 - 1 - off mod 256)
        with (blen d - 1 - off) by lia.
      rewrite (proj2 (Z.ltb_ge _ 0)) by lia. replace (n - 2 + 2) with n by lia.
      rewrite Hcp. cbn [mbind option_bind]. by replace (blen A + 1 + 1) with (blen A + (1 + (1 + 0))) by lia.
    + rewrite (Hget0 _ [n - 9; off mod 256]) by done. cbn [mbind option_bind].
      rewrite (proj2 (Z.ltb_ge _ 32)), D1, (proj2 (Z.leb_gt _ (blen A + 1))) by lia.
      change (7 =? 7) with true. cbv iota.
      pose proof (Hget [Z.shiftr off 8 + 224] (n - 9) [off mod 256] eq_refl) as E1.
      pose proof (Hget [Z.shiftr off 8 + 224; n - 9] (off mod 256) [] eq_refl) as E2.
      change (blen [_]) with 1 in E1. change (blen [_; _]) with 2 in E2.
      replace (blen A + 2) with (blen A + 1 + 1) in E2 by lia.
      rewrite E1. cbn [mbind option_bind]. rewrite (proj2 (Z.leb_gt _ (blen A + 1 + 1))) by lia.
      cbn [mbind option_bind]. rewrite E2. cbn [mbind option_bind].
      rewrite (proj2 (Z.ltb_ge out_end _)) by lia.
      replace (blen d - Z.shiftl (Z.land (Z.shiftr off 8 + 224) 31) 8 - 1 - off mod 256)
        with (blen d - 1 - off) by lia.
      rewrite (proj2 (Z.ltb_ge _ 0)) by lia. replace (7 + (n - 9) + 2) with n by lia.
      rewrite Hcp. cbn [mbind option_bind].
      by replace (blen A + 1 + 1 + 1) with (blen A + (1 + (1 + (1 + 0)))) by lia.
Qed.

Lemma decompress_tokens ts : ∀ fuel A d R,
  ts ≠ [] → tokens_ok d ts → (length ts ≤ fuel)%nat → blen (decode ts d) ≤ out_end → out_end ≤ blen (d ++ R) →
  decompress_loop fuel (A ++ enc_tokens ts) (blen (A ++ enc_tokens ts)) out_end (blen A) (blen d) (d ++ R)
  = Some (inl (blen (decode ts d), decode ts d ++ drop (Z.to_nat (blen (decode ts d) - blen d)) R)).
Proof.
  induction ts as [|t ts IH]; intros fuel A d R Hne Hok Hf Hend HR; [done|].
  destruct fuel as [|fuel]; [simpl in Hf; lia|]. destruct Hok as [Ht Hok].
  change (decode (t :: ts) d) with (decode ts (apply_token d t)) in *. rewrite enc_tokens_cons.
  pose proof (decode_mono ts (apply_token d t)) as Hmono. pose proof (apply_token_mono d t) as Hmono2.
  rewrite decompress_token by (done || lia). unfold goes_on.
  destruct ts as [|t2 ts].
  - rewrite enc_tokens_nil, !app_nil_r. rewrite (proj2 (Z.ltb_ge _ _)) by lia. done.
  - rewrite (assoc_L (++) A). rewrite (proj2 (Z.ltb_lt _ _)).
    2:{ rewrite (blen_app (A ++ _)), enc_tokens_cons, (blen_app (enc_token t2)). pose proof (enc_token_pos t2).
        pose proof (blen_nonneg (enc_tokens ts)). lia. }
    rewrite blen_app in HR. rewrite IH; try done.
    + do 4 f_equal. rewrite drop_drop. f_equal. lia.
    + simpl in *. lia.
    + rewrite blen_app. assert (0 ≤ blen R) by apply blen_nonneg. unfold blen in *. rewrite length_drop. lia.
Qed.
End tokens.

(** No input makes the decompressor leave its blocks. *)
Lemma copy_back_length n : ∀ out op ref,
  0 ≤ ref ≤ op → op + Z.of_nat n ≤ blen out → ∃ out', copy_back n out op ref = Some out' ∧ blen out' = blen out.
Proof.
  induction n as [|n IH]; intros out op ref Hr Ho; cbn [copy_back]; [by exists out|].
  destruct (mget_is_Some out ref) as [b ->]; [lia|]. cbn [mbind option_bind].
  destruct (split_at out op) as (a & c & -> & Ha); [lia|]. rewrite blen_app in Ho.
  destruct c as [|x c]; [rewrite blen_nil in Ho; lia|]. rewrite mset_app by done. cbn [mbind option_bind].
  destruct (IH (a ++ b :: c) (op + 1) (ref + 1)) as (out' & -> & Hl); [lia|rewrite blen_app, blen_cons in *; lia|].
  exists out'. split; [done|]. by rewrite Hl, !blen_app, !blen_cons.
Qed.

Lemma decompress_safe inp out_end fuel : ∀ ip op out,
  Forall byte_ok inp → 0 ≤ ip < blen inp → 0 ≤ op ≤ out_end → out_end ≤ blen out → blen inp - ip ≤ Z.of_nat fuel →
  ∃ r, decompress_loop fuel inp (blen inp) out_end ip op out = Some r ∧
    match r with inl (n, out') => op ≤ n ≤ out_end ∧ blen out' = blen out | inr _ => True end.
Proof.
  induction fuel as [|fuel IH]; intros ip op out Hb Hip Hop Hout Hf; [lia|]. cbn [decompress_loop].
  assert (∀ i, 0 ≤ i < blen inp → ∃ b, mget inp i = Some b ∧ 0 ≤ b < 256) as Hget.
  { intros i Hi. destruct (mget_is_Some inp i Hi) as [b E]. exists b. split; [done|].
    unfold mget in E. case_match; [|done]. eapply Forall_lookup_1 in Hb; [|exact E]. exact Hb. }
  destruct (Hget ip Hip) as (ctrl & -> & Hc). cbn [mbind option_bind].
  assert (∀ ip' op' out', ip < ip' → op ≤ op' ≤ out_end → blen out' = blen out →
    ∃ r, (if ip' <? blen inp then decompress_loop fuel inp (blen inp) out_end ip' op' out' else Some (inl (op', out')))
      = Some r ∧ match r with inl (n, o) => op ≤ n ≤ out_end ∧ blen o = blen out | inr _ => True end) as Hgo.
  { intros ip' op' out' H1 H2 H3. destruct (Z.ltb_spec ip' (blen inp)).
    - destruct (IH ip' op' out') as (r & -> & Hr); try done; try lia. exists r. split; [done|].
      destruct r as [[n o]|]; [|done]. lia.
    - eexists. split; [done|]. simpl. lia. }
  destruct (Z.ltb_spec ctrl 32).
  - destruct (Z.ltb_spec out_end (op + (ctrl + 1))); [by eexists|].
    destruct (Z.ltb_spec (blen inp) (ip + 1 + (ctrl + 1))); [by eexists|].
    destruct (split_at inp (ip + 1)) as (a & c & E & Ha); [lia|].
    assert (blen inp = blen a + blen c) as Hl by (by rewrite E, blen_app).
    destruct (split_at c (ctrl + 1)) as (c1 & c2 & -> & Hc1); [lia|].
    assert (mload inp (ip + 1) (ctrl + 1) = Some c1) as -> by (rewrite E; apply mload_app; lia). cbn [mbind option_bind].
    destruct (split_at out op) as (o1 & o & -> & Ho1); [lia|]. rewrite blen_app in Hout.
    destruct (split_at o (ctrl + 1)) as (o2 & o3 & -> & Ho2); [lia|].
    rewrite mstore_app by (lia || (unfold blen in *; lia)). cbn [mbind option_bind].
    apply Hgo; [lia|lia|]. rewrite !blen_app. lia.
  - destruct (Z.leb_spec (blen inp) (ip + 1)); [by eexists|].
    assert (1 ≤ Z.shiftr ctrl 5 ≤ 7) as Hlen.
    { rewrite Z.shiftr_div_pow2 by lia. change (2 ^ 5) with 32.
      pose proof (Z.div_mod ctrl 32 ltac:(lia)). pose proof (Z.mod_pos_bound ctrl 32 ltac:(lia)). lia. }
    assert (0 ≤ Z.shiftl (Z.land ctrl 31) 8) as Hr0.
    { rewrite Z.shiftl_mul_pow2 by lia. change 31 with (2 ^ 5 - 1). rewrite land_mask_mod by lia.
      pose proof (Z.mod_pos_bound ctrl (2 ^ 5) ltac:(lia)). lia. }
    destruct (Hget (ip + 1)) as (b & Eb & Hb1); [lia|].
    assert (∃ l, (if Z.shiftr ctrl 5 =? 7
       then b0 ← mget inp (ip + 1);
            (if blen inp <=? ip + 1 + 1 then Some (inr EINVAL) else Some (inl (Z.shiftr ctrl 5 + b0, ip + 1 + 1)))
       else Some (inl (Z.shiftr ctrl 5, ip + 1))) = Some l ∧
      match l with inl (len, ip') => 1 ≤ len ∧ ip < ip' < blen inp | inr _ => True end) as (l & -> & Hl).
    { rewrite Eb. cbn [mbind option_bind]. destruct (Z.eqb_spec (Z.shiftr ctrl 5) 7).
      - destruct (Z.leb_spec (blen inp) (ip + 1 + 1)); eexists; (split; [done|]); simpl; lia.
      - eexists. split; [done|]. simpl. lia. }
    cbn [mbind option_bind]. destruct l as [[len ip']|e]; [|by eexists].
    destruct (Hget ip') as (b' & -> & Hb'); [lia|]. cbn [mbind option_bind].
    destruct (Z.ltb_spec out_end (op + len + 2)); [by eexists|].
    destruct (Z.ltb_spec (op - Z.shiftl (Z.land ctrl 31) 8 - 1 - b') 0); [by eexists|].
    destruct (copy_back_length (Z.to_nat (len + 2)) out op (op - Z.shiftl (Z.land ctrl 31) 8 - 1 - b'))
      as (o' & -> & Ho'); [lia|lia|]. cbn [mbind option_bind].
    apply Hgo; [lia|lia|done].
Qed.

(** ** Properties *)

Lemma enc_tokens_long ts : Z.of_nat (length ts) ≤ blen (enc_tokens ts).
Proof.
  induction ts as [|t ts IH]; [done|]. rewrite enc_tokens_cons, blen_app. pose proof (enc_token_pos t).
  rewrite length_cons. lia.
Qed.

Lemma lzf_compress_spec htab data out out_len :
  htab_ok htab → 2 ≤ blen data < 2 ^ 32 → 0 ≤ out_len < blen out →
  ∃ n out', lzf_compress htab data (blen data) out out_len = Some (n, out') ∧ 0 ≤ n ≤ out_len ∧
    blen out' = blen out ∧ (n ≠ 0 → closed_inv data (blen out) (blen data) n out').
Proof.
  intros Hh Hd HL. unfold lzf_compress. rewrite (proj2 (Z.eqb_neq (blen data) 0)) by lia. cbn [orb].
  destruct (Z.eqb_spec out_len 0) as [->|Ho]; [exists 0, out; split_and!; done || lia|].
  destruct (FRST_Some data 0) as [hv ->]; [lia|lia|]. cbn [mbind option_bind].
  destruct (compress_loop_spec data (blen out) out_len (Z.to_nat (blen data)) (CompState 0 1 0 hv htab out))
    as (r & -> & Hr); cbn [c_ip]; try lia.
  { split; [|done]. apply (run_start data (blen out) 0 0); [|lia]. exists [], out. split_and!; done || lia. }
  cbn [mbind option_bind]. destruct r as [s|o]; [|exists 0, o; split_and!; done || lia].
  destruct Hr as [[Hinv _] Hip]. destruct (run_inv_length _ _ _ _ _ _ Hinv) as (Hlen & Hip0 & Hlit0).
  destruct (Z.ltb_spec out_len (c_op s + 3)).
  { exists 0, (c_out s). split_and!; done || lia. }
  destruct (compress_tail_spec data (blen out) (Z.to_nat (blen data)) (c_ip s) (c_op s) (c_lit s) (c_out s))
    as (o & op & lit & -> & Hinv2 & Hop); try done; try lia.
  cbn [mbind option_bind]. destruct (run_stop _ _ _ _ _ _ Hinv2) as (o2 & -> & Hcl). cbn [mbind option_bind].
  eexists _, _. split; [done|]. destruct Hcl as (ts & R & Hok & Hdec & Hn & -> & ? & Hl).
  pose proof (blen_nonneg (enc_tokens ts)). split; [|split; [done|]].
  - destruct Hinv as (?&?&?&?&_&_&_&?&_). unfold MAX_LIT in *. case_match; lia.
  - intros _. exists ts, R. split_and!; done || lia.
Qed.

Lemma closed_decompress L data n out dst :
  closed_inv data L (blen data) n out → n ≠ 0 → blen data ≤ blen dst →
  lzf_decompress (ztake n out) n dst (blen data) = Some (inl (blen data, data ++ drop (length data) dst)).
Proof.
  intros (ts & R & Hok & Hdec & -> & -> & _ & _) Hn0 Hdst.
  assert (ztake (blen (enc_tokens ts)) (enc_tokens ts ++ R) = enc_tokens ts) as ->
    by (unfold ztake; by rewrite to_nat_blen, take_app_length).
  assert (ztake (blen data) data = data) as Hall by (unfold ztake; by rewrite to_nat_blen, firstn_all).
  rewrite Hall in Hdec. pose proof (enc_tokens_long ts).
  pose proof (decompress_tokens (blen data) ts (Z.to_nat (blen (enc_tokens ts))) [] [] dst) as Hdt.
  cbn [app] in Hdt. rewrite Hdec, blen_nil, Z.sub_0_r, !to_nat_blen in Hdt.
  unfold lzf_decompress. rewrite to_nat_blen. apply Hdt; try done; [by intros -> | unfold blen in *; lia].
Qed.

(** C38. Given at least two bytes and a block of at least one byte more than
    [out_len], the compressor stays in its memory whatever the uninitialised hash
    table holds and answers a length of at most [out_len], or 0 when the result does
    not fit; the bytes of that length decompress to the input, into any block that is
    large enough.  The byte behind [out_len] is needed: the compressor may write it
    before it tests for the end (lzf_compress_overrun), and rdbSaveLzfStringObject
    provides it. *)
Theorem lzf_roundtrip (htab : Z → Z) (data out dst : list Z) (out_len : Z) :
  htab_ok htab → 2 ≤ blen data < 2 ^ 32 → 0 ≤ out_len < blen out → blen data ≤ blen dst →
  ∃ n out', lzf_compress htab data (blen data) out out_len = Some (n, out') ∧ 0 ≤ n ≤ out_len ∧
    blen out' = blen out ∧
    (n ≠ 0 → lzf_decompress (ztake n out') n dst (blen data)
      = Some (inl (blen data, data ++ drop (length data) dst))).
Proof.
  intros Hh Hd HL Hdst. destruct (lzf_compress_spec htab data out out_len Hh Hd HL) as (n & out' & E & Hn & Hl & Hcl).
  exists n, out'. split_and!; try done; try lia. intros Hn0.
  by eapply closed_decompress; [apply Hcl|..].
Qed.

(** C39. The decompressor stays within its input and its output for every input that
    is not empty, well formed or not: it ends with a length that fits or with an
    error.  (Of an empty input it reads the first byte before it tests for the
    end.) *)
Theorem lzf_decompress_bounds (inp out : list Z) (out_len : Z) :
  Forall byte_ok inp → 1 ≤ blen inp → 0 ≤ out_len ≤ blen out →
  ∃ r, lzf_decompress inp (blen inp) out out_len = Some r ∧
    match r with inl (n, out') => 0 ≤ n ≤ out_len ∧ blen out' = blen out | inr _ => True end.
Proof. intros Hb Hi Ho. apply decompress_safe; try done; lia. Qed.

Lemma zero_htab_ok : htab_ok (λ _, 0).
Proof. intros k. lia. Qed.

(** Twice "abcdefg" *)
Lemma lzf_roundtrip_witness :
  let data := [97; 98; 99; 100; 101; 102; 103; 97; 98; 99; 100; 101; 102; 103; 97; 98; 99; 100] in
  ∃ out', lzf_compress (λ _, 0) data 18 (replicate 21 0) 20 = Some (14, out') ∧
    lzf_decompress (ztake 14 out') 14 (replicate 18 0) 18 = Some (inl (18, data)).
Proof.
  intros data. destruct (lzf_roundtrip (λ _, 0) data (replicate 21 0) (replicate 18 0) 20)
    as (n & out' & E & _ & _ & Hr).
  - apply zero_htab_ok.
  - vm_compute. split; congruence.
  - vm_compute. split; congruence.
  - vm_compute. congruence.
  - vm_compute in E. injection E as <- <-. eexists. split; [vm_compute; reflexivity|]. apply Hr. done.
Defined.

Lemma lzf_decompress_bounds_witness :
  ∃ r, lzf_decompress [224; 255; 3] 3 (replicate 4 0) 4 = Some r ∧
    match r with inl (n, out') => 0 ≤ n ≤ 4 ∧ blen out' = 4 | inr _ => True end.
Proof.
  apply (lzf_decompress_bounds [224; 255; 3] (replicate 4 0) 4).
  - apply (bool_decide_unpack _). by vm_compute.
  - vm_compute. congruence.
  - vm_compute. split; congruence.
Defined.

(** The byte of the run's length is written before the space is tested: after
    32 literals that fill the output, a match writes one byte behind it. *)
Lemma lzf_compress_overrun :
  let data := (Z.of_nat <$> seq 0 32) ++ [1; 2; 3; 4; 5; 6] in
  lzf_compress (λ _, 0) data 38 (replicate 33 0) 33 = None ∧
  ∃ out', lzf_compress (λ _, 0) data 38 (replicate 34 0) 33 = Some (0, out').
Proof. intros data. split; [by vm_compute|]. vm_compute. eexists. reflexivity. Qed.
