(* ===== verification/Crc64.v ===== *)
(** * Checksum ([crc64.c])

    The table driven CRC-64 of the dump files, and its equivalence with the
    division by the polynomial bit by bit. *)
From S2P Require Import Prelude.
Open Scope Z_scope.

Definition crc64_tab : list Z :=
[
   0x0000000000000000; 0x7ad870c830358979; 0xf5b0e190606b12f2;
   0x8f689158505e9b8b; 0xc038e5739841b68f; 0xbae095bba8743ff6;
   0x358804e3f82aa47d; 0x4f50742bc81f2d04; 0xab28ecb46814fe75;
   0xd1f09c7c5821770c; 0x5e980d24087fec87; 0x24407dec384a65fe;
   0x6b1009c7f05548fa; 0x11c8790fc060c183; 0x9ea0e857903e5a08;
   0xe478989fa00bd371; 0x7d08ff3b88be6f81; 0x07d08ff3b88be6f8;
   0x88b81eabe8d57d73; 0xf2606e63d8e0f40a; 0xbd301a4810ffd90e;
   0xc7e86a8020ca5077; 0x4880fbd87094cbfc; 0x32588b1040a14285;
   0xd620138fe0aa91f4; 0xacf86347d09f188d; 0x2390f21f80c18306;
   0x594882d7b0f40a7f; 0x1618f6fc78eb277b; 0x6cc0863448deae02;
   0xe3a8176c18803589; 0x997067a428b5bcf0; 0xfa11fe77117cdf02;
   0x80c98ebf2149567b; 0x0fa11fe77117cdf0; 0x75796f2f41224489;
   0x3a291b04893d698d; 0x40f16bccb908e0f4; 0xcf99fa94e9567b7f;
   0xb5418a5cd963f206; 0x513912c379682177; 0x2be1620b495da80e;
   0xa489f35319033385; 0xde51839b2936bafc; 0x9101f7b0e12997f8;
   0xebd98778d11c1e81; 0x64b116208142850a; 0x1e6966e8b1770c73;
   0x8719014c99c2b083; 0xfdc17184a9f739fa; 0x72a9e0dcf9a9a271;
   0x08719014c99c2b08; 0x4721e43f0183060c; 0x3df994f731b68f75;
   0xb29105af61e814fe; 0xc849756751dd9d87; 0x2c31edf8f1d64ef6;
   0x56e99d30c1e3c78f; 0xd9810c6891bd5c04; 0xa3597ca0a188d57d;
   0xec09088b6997f879; 0x96d1784359a27100; 0x19b9e91b09fcea8b;
   0x636199d339c963f2; 0xdf7adabd7a6e2d6f; 0xa5a2aa754a5ba416;
   0x2aca3b2d1a053f9d; 0x50124be52a30b6e4; 0x1f423fcee22f9be0;
   0x659a4f06d21a1299; 0xeaf2de5e82448912; 0x902aae96b271006b;
   0x74523609127ad31a; 0x0e8a46c1224f5a63; 0x81e2d7997211c1e8;
   0xfb3aa75142244891; 0xb46ad37a8a3b6595; 0xceb2a3b2ba0eecec;
   0x41da32eaea507767; 0x3b024222da65fe1e; 0xa2722586f2d042ee;
   0xd8aa554ec2e5cb97; 0x57c2c41692bb501c; 0x2d1ab4dea28ed965;
   0x624ac0f56a91f461; 0x1892b03d5aa47d18; 0x97fa21650afae693;
   0xed2251ad3acf6fea; 0x095ac9329ac4bc9b; 0x7382b9faaaf135e2;
   0xfcea28a2faafae69; 0x8632586aca9a2710; 0xc9622c4102850a14;
   0xb3ba5c8932b0836d; 0x3cd2cdd162ee18e6; 0x460abd1952db919f;
   0x256b24ca6b12f26d; 0x5fb354025b277b14; 0xd0dbc55a0b79e09f;
   0xaa03b5923b4c69e6; 0xe553c1b9f35344e2; 0x9f8bb171c366cd9b;
   0x10e3202993385610; 0x6a3b50e1a30ddf69; 0x8e43c87e03060c18;
   0xf49bb8b633338561; 0x7bf329ee636d1eea; 0x012b592653589793;
   0x4e7b2d0d9b47ba97; 0x34a35dc5ab7233ee; 0xbbcbcc9dfb2ca865;
   0xc113bc55cb19211c; 0x5863dbf1e3ac9dec; 0x22bbab39d3991495;
   0xadd33a6183c78f1e; 0xd70b4aa9b3f20667; 0x985b3e827bed2b63;
   0xe2834e4a4bd8a21a; 0x6debdf121b863991; 0x1733afda2bb3b0e8;
   0xf34b37458bb86399; 0x8993478dbb8deae0; 0x06fbd6d5ebd3716b;
   0x7c23a61ddbe6f812; 0x3373d23613f9d516; 0x49aba2fe23cc5c6f;
   0xc6c333a67392c7e4; 0xbc1b436e43a74e9d; 0x95ac9329ac4bc9b5;
   0xef74e3e19c7e40cc; 0x601c72b9cc20db47; 0x1ac40271fc15523e;
   0x5594765a340a7f3a; 0x2f4c0692043ff643; 0xa02497ca54616dc8;
   0xdafce7026454e4b1; 0x3e847f9dc45f37c0; 0x445c0f55f46abeb9;
   0xcb349e0da4342532; 0xb1eceec59401ac4b; 0xfebc9aee5c1e814f;
   0x8464ea266c2b0836; 0x0b0c7b7e3c7593bd; 0x71d40bb60c401ac4;
   0xe8a46c1224f5a634; 0x927c1cda14c02f4d; 0x1d148d82449eb4c6;
   0x67ccfd4a74ab3dbf; 0x289c8961bcb410bb; 0x5244f9a98c8199c2;
   0xdd2c68f1dcdf0249; 0xa7f41839ecea8b30; 0x438c80a64ce15841;
   0x3954f06e7cd4d138; 0xb63c61362c8a4ab3; 0xcce411fe1cbfc3ca;
   0x83b465d5d4a0eece; 0xf96c151de49567b7; 0x76048445b4cbfc3c;
   0x0cdcf48d84fe7545; 0x6fbd6d5ebd3716b7; 0x15651d968d029fce;
   0x9a0d8ccedd5c0445; 0xe0d5fc06ed698d3c; 0xaf85882d2576a038;
   0xd55df8e515432941; 0x5a3569bd451db2ca; 0x20ed197575283bb3;
   0xc49581ead523e8c2; 0xbe4df122e51661bb; 0x3125607ab548fa30;
   0x4bfd10b2857d7349; 0x04ad64994d625e4d; 0x7e7514517d57d734;
   0xf11d85092d094cbf; 0x8bc5f5c11d3cc5c6; 0x12b5926535897936;
   0x686de2ad05bcf04f; 0xe70573f555e26bc4; 0x9ddd033d65d7e2bd;
   0xd28d7716adc8cfb9; 0xa85507de9dfd46c0; 0x273d9686cda3dd4b;
   0x5de5e64efd965432; 0xb99d7ed15d9d8743; 0xc3450e196da80e3a;
   0x4c2d9f413df695b1; 0x36f5ef890dc31cc8; 0x79a59ba2c5dc31cc;
   0x037deb6af5e9b8b5; 0x8c157a32a5b7233e; 0xf6cd0afa9582aa47;
   0x4ad64994d625e4da; 0x300e395ce6106da3; 0xbf66a804b64ef628;
   0xc5bed8cc867b7f51; 0x8aeeace74e645255; 0xf036dc2f7e51db2c;
   0x7f5e4d772e0f40a7; 0x05863dbf1e3ac9de; 0xe1fea520be311aaf;
   0x9b26d5e88e0493d6; 0x144e44b0de5a085d; 0x6e963478ee6f8124;
   0x21c640532670ac20; 0x5b1e309b16452559; 0xd476a1c3461bbed2;
   0xaeaed10b762e37ab; 0x37deb6af5e9b8b5b; 0x4d06c6676eae0222;
   0xc26e573f3ef099a9; 0xb8b627f70ec510d0; 0xf7e653dcc6da3dd4;
   0x8d3e2314f6efb4ad; 0x0256b24ca6b12f26; 0x788ec2849684a65f;
   0x9cf65a1b368f752e; 0xe62e2ad306bafc57; 0x6946bb8b56e467dc;
   0x139ecb4366d1eea5; 0x5ccebf68aecec3a1; 0x2616cfa09efb4ad8;
   0xa97e5ef8cea5d153; 0xd3a62e30fe90582a; 0xb0c7b7e3c7593bd8;
   0xca1fc72bf76cb2a1; 0x45775673a732292a; 0x3faf26bb9707a053;
   0x70ff52905f188d57; 0x0a2722586f2d042e; 0x854fb3003f739fa5;
   0xff97c3c80f4616dc; 0x1bef5b57af4dc5ad; 0x61372b9f9f784cd4;
   0xee5fbac7cf26d75f; 0x9487ca0fff135e26; 0xdbd7be24370c7322;
   0xa10fceec0739fa5b; 0x2e675fb4576761d0; 0x54bf2f7c6752e8a9;
   0xcdcf48d84fe75459; 0xb71738107fd2dd20; 0x387fa9482f8c46ab;
   0x42a7d9801fb9cfd2; 0x0df7adabd7a6e2d6; 0x772fdd63e7936baf;
   0xf8474c3bb7cdf024; 0x829f3cf387f8795d; 0x66e7a46c27f3aa2c;
   0x1c3fd4a417c62355; 0x935745fc4798b8de; 0xe98f353477ad31a7;
   0xa6df411fbfb21ca3; 0xdc0731d78f8795da; 0x536fa08fdfd90e51;
   0x29b7d047efec8728].

(** [for (j = 0; j < l; j++)]: the bytes are those of the block [s]. *)
Fixpoint crc64 (crc : Z) (s : list Z) : Z :=
  match s with
  | [] => crc
  | byte :: s => crc64 (Z.lxor (nth (Z.to_nat (Z.lxor (u8 crc) byte)) crc64_tab 0) (Z.shiftr crc 8)) s
  end.

(** ** The reference

    One bit of the message divided by the polynomial, in the reflected form. *)
Definition crc64_poly : Z := 0x95ac9329ac4bc9b5.
Definition crc_bit (c : Z) : Z := Z.lxor (Z.shiftr c 1) (if Z.odd c then crc64_poly else 0).
Definition crc_byte (c byte : Z) : Z := Nat.iter 8 crc_bit (Z.lxor c byte).
Definition crc_ref (crc : Z) (s : list Z) : Z := foldl crc_byte crc s.

Lemma crc_bit_xor a b : crc_bit (Z.lxor a b) = Z.lxor (crc_bit a) (crc_bit b).
Proof.
  unfold crc_bit. rewrite Z.shiftr_lxor, <-!Z.bit0_odd, Z.lxor_spec.
  apply Z.bits_inj'. intros n Hn. rewrite !Z.lxor_spec.
  destruct (Z.testbit a 0), (Z.testbit b 0); cbn [xorb]; rewrite ?Z.bits_0;
    destruct (Z.testbit (Z.shiftr a 1) n), (Z.testbit (Z.shiftr b 1) n), (Z.testbit crc64_poly n); done.
Qed.

Lemma crc_bits_xor n a b :
  Nat.iter n crc_bit (Z.lxor a b) = Z.lxor (Nat.iter n crc_bit a) (Nat.iter n crc_bit b).
Proof. induction n as [|n IH]; [done|]. by rewrite !Nat.iter_succ, IH, crc_bit_xor. Qed.

Lemma crc_bit_even k : crc_bit (2 * k) = k.
Proof.
  unfold crc_bit. rewrite Z.odd_mul. cbn [Z.odd andb]. rewrite Z.lxor_0_r, Z.shiftr_div_pow2 by lia.
  change (2 ^ 1) with 2. rewrite Z.mul_comm. by apply Z_div_mult.
Qed.

Lemma crc_bits_high k : Nat.iter 8 crc_bit (256 * k) = k.
Proof.
  cbn [Nat.iter nat_rect]. replace (256 * k) with (2 * (2 * (2 * (2 * (2 * (2 * (2 * (2 * k)))))))) by lia.
  by rewrite !crc_bit_even.
Qed.

(** The table holds the remainders of the bytes. *)
Lemma crc64_tab_spec b : 0 ≤ b < 256 → nth (Z.to_nat b) crc64_tab 0 = Nat.iter 8 crc_bit b.
Proof.
  intros Hb.
  assert (crc64_tab = (λ n, Nat.iter 8 crc_bit (Z.of_nat n)) <$> seq 0 256) as -> by (by vm_compute).
  rewrite (nth_indep _ 0 (Nat.iter 8 crc_bit (Z.of_nat 0))) by (rewrite length_fmap, length_seq; lia).
  rewrite (map_nth (λ n, Nat.iter 8 crc_bit (Z.of_nat n))), seq_nth by lia.
  f_equal. lia.
Qed.

Lemma lxor_byte c b : 0 ≤ c → byte_ok b → Z.lxor c b = Z.lxor (256 * Z.shiftr c 8) (Z.lxor (u8 c) b).
Proof.
  intros Hc Hb. rewrite <-Z.lxor_assoc. f_equal. unfold wrapu. apply Z.bits_inj'. intros n Hn.
  rewrite Z.lxor_spec. change 256 with (2 ^ 8). rewrite Z.mul_comm. destruct (decide (n < 8)).
  - rewrite Z.mul_pow2_bits_low, Z.mod_pow2_bits_low by lia. by rewrite xorb_false_l.
  - rewrite Z.mul_pow2_bits, Z.mod_pow2_bits_high, Z.shiftr_spec by lia. rewrite xorb_false_r. f_equal. lia.
Qed.

Lemma byte_xor_range a b : 0 ≤ a < 256 → 0 ≤ b < 256 → 0 ≤ Z.lxor a b < 256.
Proof.
  intros Ha Hb. split; [apply Z.lxor_nonneg; lia|]. destruct (decide (Z.lxor a b = 0)) as [->|Hne]; [lia|].
  assert (0 < Z.lxor a b) by (pose proof (proj2 (Z.lxor_nonneg a b)); lia).
  change 256 with (2 ^ 8). apply Z.log2_lt_pow2; [done|].
  eapply Z.le_lt_trans; [apply Z.log2_lxor; lia|]. apply Z.max_lub_lt.
  - destruct (decide (a = 0)) as [->|]; [done|]. apply Z.log2_lt_pow2; lia.
  - destruct (decide (b = 0)) as [->|]; [done|]. apply Z.log2_lt_pow2; lia.
Qed.

Lemma crc_byte_table c b :
  0 ≤ c → byte_ok b → crc_byte c b = Z.lxor (nth (Z.to_nat (Z.lxor (u8 c) b)) crc64_tab 0) (Z.shiftr c 8).
Proof.
  intros Hc Hb. pose proof (wrapu_range 8 c ltac:(lia)) as Hu.
  rewrite crc64_tab_spec by (apply byte_xor_range; [exact Hu|exact Hb]).
  unfold crc_byte. rewrite lxor_byte, crc_bits_xor, crc_bits_high by done. apply Z.lxor_comm.
Qed.

Lemma crc_bit_nonneg c : 0 ≤ c → 0 ≤ crc_bit c.
Proof. intros. unfold crc_bit. apply Z.lxor_nonneg. rewrite Z.shiftr_nonneg. case_match; split; done. Qed.

Lemma crc_byte_nonneg c b : 0 ≤ c → byte_ok b → 0 ≤ crc_byte c b.
Proof.
  intros Hc [Hb _]. unfold crc_byte. assert (0 ≤ Z.lxor c b) by (apply Z.lxor_nonneg; tauto).
  do 8 (rewrite Nat.iter_succ; apply crc_bit_nonneg). done.
Qed.

Lemma crc64_ref s : ∀ crc, 0 ≤ crc → Forall byte_ok s → crc64 crc s = crc_ref crc s.
Proof.
  induction s as [|b s IH]; intros crc Hc Hs; [done|]. apply Forall_cons in Hs as [Hb Hs].
  cbn [crc64]. rewrite <-crc_byte_table by done. by apply IH; [apply crc_byte_nonneg|].
Qed.

Lemma crc64_app a b crc : crc64 crc (a ++ b) = crc64 (crc64 crc a) b.
Proof. revert crc. induction a as [|x a IH]; intros crc; [done|]. apply IH. Qed.

Lemma crc_bit_range c : 0 ≤ c < 2 ^ 64 → 0 ≤ crc_bit c < 2 ^ 64.
Proof.
  intros Hc. split; [apply crc_bit_nonneg; lia|]. pose proof (crc_bit_nonneg c ltac:(lia)).
  destruct (decide (crc_bit c = 0)) as [->|Hne]; [done|]. apply Z.log2_lt_pow2; [lia|].
  unfold crc_bit in *. eapply Z.le_lt_trans; [apply Z.log2_lxor|].
  - rewrite Z.shiftr_nonneg. lia.
  - case_match; done.
  - apply Z.max_lub_lt; [|case_match; done]. rewrite Z.shiftr_div_pow2 by lia. change (2 ^ 1) with 2.
    assert (0 ≤ c / 2 < 2 ^ 63) as Hd
      by (pose proof (Z.div_mod c 2 ltac:(lia)); pose proof (Z.mod_pos_bound c 2 ltac:(lia)); lia).
    destruct (decide (c / 2 = 0)) as [->|]; [done|].
    assert (Z.log2 (c / 2) < 63) by (apply Z.log2_lt_pow2; lia). lia.
Qed.

Lemma crc_ref_range s : ∀ crc, 0 ≤ crc < 2 ^ 64 → Forall byte_ok s → 0 ≤ crc_ref crc s < 2 ^ 64.
Proof.
  induction s as [|b s IH]; intros crc Hc Hs; [done|]. apply Forall_cons in Hs as [Hb Hs].
  apply (IH (crc_byte crc b)); [|done].
  assert (0 ≤ Z.lxor crc b < 2 ^ 64) as Hx.
  { pose proof (lxor_byte crc b ltac:(lia) Hb) as E.
    assert (0 ≤ Z.lxor crc b) by (apply Z.lxor_nonneg; destruct Hb; lia). split; [done|].
    destruct (decide (Z.lxor crc b = 0)) as [->|]; [done|]. apply Z.log2_lt_pow2; [lia|].
    eapply Z.le_lt_trans; [apply Z.log2_lxor; destruct Hb; lia|]. apply Z.max_lub_lt.
    - destruct (decide (crc = 0)) as [->|]; [done|]. apply Z.log2_lt_pow2; lia.
    - destruct (decide (b = 0)) as [->|]; [done|]. apply Z.log2_lt_pow2; destruct Hb; lia. }
  unfold crc_byte. do 8 (rewrite Nat.iter_succ; apply crc_bit_range). done.
Qed.

(** The table driven checksum is the remainder of the division of the message,
    bit by bit, by the polynomial; it fits 64 bits, and it can be computed in
    any pieces. *)
Theorem crc64_bitwise (crc : Z) (a b : list Z) :
  0 ≤ crc < 2 ^ 64 → Forall byte_ok a → Forall byte_ok b →
  crc64 (crc64 crc a) b = foldl crc_byte crc (a ++ b) ∧ 0 ≤ crc64 crc a < 2 ^ 64.
Proof.
  intros Hc Ha Hb. rewrite <-crc64_app, !crc64_ref by (lia || done || by apply Forall_app).
  split; [done|]. by apply crc_ref_range.
Qed.

(** The example of the source. *)
Lemma crc64_bitwise_witness :
  crc64 (crc64 0 [49; 50; 51; 52]) [53; 54; 55; 56; 57] = foldl crc_byte 0 [49; 50; 51; 52; 53; 54; 55; 56; 57] ∧
  0 ≤ crc64 0 [49; 50; 51; 52] < 2 ^ 64 ∧ crc64 0 [49; 50; 51; 52; 53; 54; 55; 56; 57] = 0xe9c6d914c4b8d9ca.
Proof.
  destruct (crc64_bitwise 0 [49; 50; 51; 52] [53; 54; 55; 56; 57]) as [E R].
  - lia.
  - apply (bool_decide_unpack _). by vm_compute.
  - apply (bool_decide_unpack _). by vm_compute.
  - split; [exact E|]. split; [exact R|]. by vm_compute.
Defined.
