(* ===== verification/Rio.v ===== *)
(** * Streams ([rio.c], [rio.h])

    The interface that the dump and the append only file are written against
    ([RioStream], with its laws), the memory buffer that implements it, with
    the chunked loops and the checksum, and the writers of the protocol. *)
From S2P Require Import Prelude Util Crc64.
Open Scope Z_scope.

(** ** The interface

    What a caller gets back: the value, the error return of the C function, or
    undefined behaviour (a failing assertion or panic included). *)
Inductive outcome (A : Type) := Done (a : A) | Error | Undef.
Arguments Done {_} _.
Arguments Error {_}.
Arguments Undef {_}.

#[global] Instance outcome_ret : MRet outcome := @Done.
#[global] Instance outcome_bind : MBind outcome := λ A B f m,
  match m with Done a => f a | Error => Error | Undef => Undef end.

(** Of an option that is [None] on undefined behaviour. *)
Definition lift {A} (o : option A) : outcome A := match o with Some a => Done a | None => Undef end.

Class RioStream (R : Type) := {
  rio_write : R → list Z → outcome R;
  rio_read : R → Z → outcome (list Z * R);
}.

(** A stream has the bytes written to it and the bytes still to read.  A write may
    fail; a read of bytes that are there succeeds. *)
Class RioLaws (R : Type) `{RioStream R} := {
  rio_written : R → list Z;
  rio_pending : R → list Z;
  rio_write_spec r bs :
    match rio_write r bs with Done r' => rio_written r' = rio_written r ++ bs | Error => True | Undef => False end;
  rio_read_spec r bs rest :
    rio_pending r = bs ++ rest →
    ∃ r', rio_read r (blen bs) = Done (bs, r') ∧ rio_pending r' = rest;
}.

(** ** The memory buffer *)

Record rio := Rio {
  buffer_ptr : list Z;
  buffer_pos : Z;
  update_cksum : bool;
  cksum : Z;
  processed_bytes : Z;
  max_processing_chunk : nat;
}.

Definition rioInitWithBuffer (s : list Z) : rio := Rio s 0 false 0 0 0.

Definition rioBufferWrite (r : rio) (buf : list Z) : rio * bool :=
  (Rio (buffer_ptr r ++ buf) (buffer_pos r + blen buf) (update_cksum r) (cksum r) (processed_bytes r)
     (max_processing_chunk r), true).

(** [sdslen(ptr)-pos] is unsigned. *)
Definition rioBufferRead (r : rio) (len : Z) : rio * option (list Z) :=
  if u64 (blen (buffer_ptr r) - buffer_pos r) <? len then (r, None)
  else
    (Rio (buffer_ptr r) (buffer_pos r + len) (update_cksum r) (cksum r) (processed_bytes r) (max_processing_chunk r),
     mload (buffer_ptr r) (buffer_pos r) len).

Definition rioGenericUpdateChecksum (r : rio) (buf : list Z) : rio :=
  Rio (buffer_ptr r) (buffer_pos r) (update_cksum r) (crc64 (cksum r) buf) (processed_bytes r) (max_processing_chunk r).

Definition add_processed (r : rio) (n : Z) : rio :=
  Rio (buffer_ptr r) (buffer_pos r) (update_cksum r) (cksum r) (u64 (processed_bytes r + n)) (max_processing_chunk r).

Definition chunk (r : rio) (len : Z) : Z :=
  let m := Z.of_nat (max_processing_chunk r) in
  if negb (m =? 0) && (m <? len) then m else len.

(** [while (len)]. *)
Fixpoint rioWrite_loop (fuel : nat) (r : rio) (buf : list Z) : rio * bool :=
  match fuel with
  | O => (r, true)
  | S fuel =>
      if blen buf =? 0 then (r, true)
      else
        let n := chunk r (blen buf) in
        let now := take (Z.to_nat n) buf in
        let r := if update_cksum r then rioGenericUpdateChecksum r now else r in
        let '(r, ok) := rioBufferWrite r now in
        if negb ok then (r, false)
        else rioWrite_loop fuel (add_processed r n) (drop (Z.to_nat n) buf)
  end.
Definition rioWrite (r : rio) (buf : list Z) : rio * bool := rioWrite_loop (S (length buf)) r buf.

Fixpoint rioRead_loop (fuel : nat) (r : rio) (len : Z) (acc : list Z) : rio * option (list Z) :=
  match fuel with
  | O => (r, Some acc)
  | S fuel =>
      if len =? 0 then (r, Some acc)
      else
        let n := chunk r len in
        match rioBufferRead r n with
        | (r, None) => (r, None)
        | (r, Some bs) =>
            let r := if update_cksum r then rioGenericUpdateChecksum r bs else r in
            rioRead_loop fuel (add_processed r n) (len - n) (acc ++ bs)
        end
  end.
Definition rioRead (r : rio) (len : Z) : rio * option (list Z) := rioRead_loop (S (Z.to_nat len)) r len [].

#[global] Instance rio_stream : RioStream rio := {
  rio_write r bs := match rioWrite r bs with (r, true) => Done r | (_, false) => Error end;
  rio_read r n := match rioRead r n with (r, Some bs) => Done (bs, r) | (_, None) => Error end;
}.

(** ** The protocol of the append only file *)

Definition ch_cr : Z := 13.
Definition ch_lf : Z := 10.
Definition ch_dollar : Z := 36.
Definition crlf : list Z := [13; 10].

Section protocol.
Context {R : Type} `{RioStream R}.

(** [ll2string] and the terminator of the line in a buffer of 128 bytes: the text
    and the number of bytes. *)
Definition rioWriteBulkCount (r : R) (prefix count : Z) : outcome (R * Z) :=
  let '(clen, text) := ll2string 127 count in
  let cbuf := prefix :: take (Z.to_nat clen) text ++ crlf in
  r ← rio_write r cbuf;
  mret (r, 1 + clen + 2).

Definition rioWriteBulkString (r : R) (buf : list Z) : outcome (R * Z) :=
  '(r, nwritten) ← rioWriteBulkCount r 36 (i32 (blen buf));
  r ← (if 0 <? blen buf then rio_write r buf else mret r);
  r ← rio_write r crlf;
  mret (r, nwritten + blen buf + 2).

Definition rioWriteBulkLongLong (r : R) (l : Z) : outcome (R * Z) :=
  let '(llen, lbuf) := ll2string 32 l in
  rioWriteBulkString r (take (Z.to_nat llen) lbuf).
End protocol.

(** ** The text of the protocol

    A line with a number, a bulk string, a multi bulk request. *)

Definition line (prefix n : Z) : list Z := prefix :: ll_text n ++ crlf.
Definition bulk (a : list Z) : list Z := line ch_dollar (blen a) ++ a ++ crlf.
Definition bulks (args : list (list Z)) : list Z := concat (bulk <$> args).
Definition request (args : list (list Z)) : list Z := line ch_star (Z.of_nat (length args)) ++ bulks args.
Definition requests (cmds : list (list (list Z))) : list Z := concat (request <$> cmds).

(** ** The buffer implements the interface *)

Lemma chunk_range r len : 0 < len → 0 < chunk r len ≤ len.
Proof.
  intros Hl. unfold chunk. destruct (Z.eqb_spec (Z.of_nat (max_processing_chunk r)) 0);
    destruct (Z.ltb_spec (Z.of_nat (max_processing_chunk r)) len); cbn [negb andb]; lia.
Qed.

(** The checksum after [bs]. *)
Definition sum_after (r : rio) (bs : list Z) : Z := if update_cksum r then crc64 (cksum r) bs else cksum r.

(** The fields that the streams leave alone. *)
Definition same_setup (r r' : rio) : Prop :=
  update_cksum r' = update_cksum r ∧ max_processing_chunk r' = max_processing_chunk r.

Lemma sum_after_app r r' a b :
  same_setup r r' → cksum r' = sum_after r a → sum_after r' b = sum_after r (a ++ b).
Proof.
  intros [Hu _] Hc. unfold sum_after in *. rewrite Hu, Hc. destruct (update_cksum r); [|done]. by rewrite crc64_app.
Qed.

Lemma rioWrite_loop_spec fuel : ∀ r buf,
  (length buf < fuel)%nat →
  ∃ r', rioWrite_loop fuel r buf = (r', true) ∧ buffer_ptr r' = buffer_ptr r ++ buf ∧
    buffer_pos r' = buffer_pos r + blen buf ∧ cksum r' = sum_after r buf ∧ same_setup r r'.
Proof.
  induction fuel as [|fuel IH]; intros r buf Hf; [lia|]. cbn [rioWrite_loop].
  destruct (Z.eqb_spec (blen buf) 0) as [Hz|Hz].
  { destruct buf; [|rewrite blen_cons in Hz; pose proof (blen_nonneg buf); lia].
    exists r. rewrite app_nil_r, blen_nil. split_and!; try done; try lia.
    unfold sum_after. by destruct (update_cksum r). }
  pose proof (blen_nonneg buf). pose proof (chunk_range r (blen buf) ltac:(lia)) as Hc.
  set (n := chunk r (blen buf)) in *. cbn [negb rioBufferWrite].
  match goal with |- context [rioWrite_loop fuel ?x (drop _ _)] => set (r1 := x) end.
  destruct (IH r1 (drop (Z.to_nat n) buf)) as (r' & -> & Hp & Hpos & Hs & Hset).
  { rewrite length_drop. unfold blen in *. lia. }
  exists r'. split; [done|].
  assert (same_setup r r1 ∧ cksum r1 = sum_after r (take (Z.to_nat n) buf) ∧
    buffer_ptr r1 = buffer_ptr r ++ take (Z.to_nat n) buf ∧
    buffer_pos r1 = buffer_pos r + blen (take (Z.to_nat n) buf)) as (Hset1 & Hs1 & Hp1 & Hpos1)
    by (subst r1; unfold sum_after, same_setup; destruct (update_cksum r) eqn:E; cbn; rewrite ?E; done).
  rewrite Hp, Hpos, Hp1, Hpos1, Hs, (sum_after_app r r1 _ _ Hset1 Hs1), take_drop, <-(assoc_L (++)), take_drop.
  split; [done|]. split; [|split; [done|]].
  - rewrite <-(take_drop (Z.to_nat n) buf) at 3. rewrite blen_app. lia.
  - destruct Hset1, Hset. split; congruence.
Qed.

Definition buffer_pending (r : rio) : list Z :=
  if decide (0 ≤ buffer_pos r ∧ blen (buffer_ptr r) < 2 ^ 64) then drop (Z.to_nat (buffer_pos r)) (buffer_ptr r) else [].

Lemma rioBufferRead_spec r bs rest :
  buffer_pending r = bs ++ rest → bs ≠ [] →
  ∃ r', rioBufferRead r (blen bs) = (r', Some bs) ∧ buffer_pending r' = rest ∧ cksum r' = cksum r ∧ same_setup r r'.
Proof.
  unfold buffer_pending. intros Hp Hne. destruct (decide _) as [[Hpos Hlen]|_]; [|by destruct bs].
  assert (buffer_ptr r = take (Z.to_nat (buffer_pos r)) (buffer_ptr r) ++ bs ++ rest) as E
    by (by rewrite <-Hp, take_drop).
  assert (blen (take (Z.to_nat (buffer_pos r)) (buffer_ptr r)) = buffer_pos r) as Htk.
  { assert (buffer_pos r < blen (buffer_ptr r)) as Hlt.
    { destruct (Z.lt_ge_cases (buffer_pos r) (blen (buffer_ptr r))) as [|Hge]; [done|].
      rewrite drop_ge in Hp by (unfold blen in Hge; lia). by destruct bs. }
    unfold blen in *. rewrite length_take. lia. }
  assert (blen (buffer_ptr r) = buffer_pos r + (blen bs + blen rest)) as Hbl
    by (rewrite E, !blen_app, Htk at 1; done).
  pose proof (blen_nonneg bs). pose proof (blen_nonneg rest). unfold rioBufferRead.
  rewrite (wrapu_small 64) by lia. rewrite (proj2 (Z.ltb_ge _ _)) by lia.
  assert (mload (buffer_ptr r) (buffer_pos r) (blen bs) = Some bs) as -> by (rewrite E; by apply mload_app).
  eexists. split; [done|]. cbn [buffer_pos buffer_ptr cksum]. split; [|split; [done|by split]].
  rewrite decide_True by lia. replace (Z.to_nat (buffer_pos r + blen bs))
    with (Z.to_nat (buffer_pos r) + length bs)%nat by (unfold blen; lia).
  rewrite <-drop_drop, Hp. by rewrite drop_app_length.
Qed.

Lemma pending_add r n : buffer_pending (add_processed r n) = buffer_pending r.
Proof. done. Qed.

Lemma rioRead_loop_spec fuel : ∀ r bs rest acc,
  buffer_pending r = bs ++ rest → (length bs < fuel)%nat →
  ∃ r', rioRead_loop fuel r (blen bs) acc = (r', Some (acc ++ bs)) ∧ buffer_pending r' = rest ∧
    cksum r' = sum_after r bs ∧ same_setup r r'.
Proof.
  induction fuel as [|fuel IH]; intros r bs rest acc Hp Hf; [lia|]. cbn [rioRead_loop].
  destruct (Z.eqb_spec (blen bs) 0) as [Hz|Hz].
  { destruct bs; [|rewrite blen_cons in Hz; pose proof (blen_nonneg bs); lia].
    exists r. rewrite app_nil_r. split_and!; try done. unfold sum_after. by destruct (update_cksum r). }
  pose proof (blen_nonneg bs). pose proof (chunk_range r (blen bs) ltac:(lia)) as Hc.
  destruct (split_at bs (chunk r (blen bs))) as (b1 & b2 & E & Hb1); [lia|]. rewrite <-Hb1 in *. subst bs.
  rewrite <-(assoc_L (++)) in Hp. rewrite blen_app in Hz, Hc.
  destruct (rioBufferRead_spec r b1 (b2 ++ rest) Hp) as (r1 & E1 & Hp1 & Hs1 & Hset1).
  { intros ->. rewrite blen_nil in Hc. lia. }
  rewrite E1. set (r2 := add_processed _ _).
  assert (buffer_pending r2 = b2 ++ rest ∧ cksum r2 = sum_after r b1 ∧ same_setup r r2) as (Hp2 & Hs2 & Hset2).
  { subst r2. destruct Hset1 as [Hu Hm]. unfold sum_after, same_setup. rewrite Hu.
    destruct (update_cksum r) eqn:Eu; cbn [add_processed rioGenericUpdateChecksum cksum update_cksum max_processing_chunk];
      rewrite ?Hs1, ?Hm, ?Hu, ?Eu; split_and!; try done; exact Hp1. }
  destruct (IH r2 b2 rest (acc ++ b1) Hp2) as (r' & E' & Hp' & Hs' & Hset').
  { rewrite length_app in Hf. unfold blen in Hc. lia. }
  exists r'. rewrite blen_app. replace (blen b1 + blen b2 - blen b1) with (blen b2) by lia.
  rewrite E', <-(assoc_L (++)). split; [done|]. split; [done|]. split.
  - by rewrite Hs', (sum_after_app r r2 _ _ Hset2 Hs2).
  - destruct Hset2, Hset'. split; congruence.
Qed.

Lemma rioWrite_spec r buf :
  ∃ r', rioWrite r buf = (r', true) ∧ buffer_ptr r' = buffer_ptr r ++ buf ∧
    buffer_pos r' = buffer_pos r + blen buf ∧ cksum r' = sum_after r buf ∧ same_setup r r'.
Proof. apply rioWrite_loop_spec. lia. Qed.

Lemma rioRead_spec r bs rest :
  buffer_pending r = bs ++ rest →
  ∃ r', rioRead r (blen bs) = (r', Some bs) ∧ buffer_pending r' = rest ∧ cksum r' = sum_after r bs ∧ same_setup r r'.
Proof. intros Hp. unfold rioRead. apply rioRead_loop_spec; [done|]. rewrite to_nat_blen. lia. Qed.

#[global] Instance rio_laws : RioLaws rio.
Proof.
  refine {| rio_written := buffer_ptr; rio_pending := buffer_pending |}.
  - intros r bs. unfold rio_write, rio_stream. destruct (rioWrite_spec r bs) as (r' & -> & Hp & _). done.
  - intros r bs rest Hp. unfold rio_read, rio_stream. destruct (rioRead_spec r bs rest Hp) as (r' & -> & Hp' & _). by exists r'.
Defined.

(** Whatever the sizes of the chunks of the two sides, a write to a memory
    buffer appends the bytes, a read of as many pending bytes gives them back,
    and each side's checksum, when it is computed, is that of the whole. *)
Theorem rio_chunks_agree (r q : rio) (buf rest : list Z) :
  buffer_pending q = buf ++ rest →
  ∃ r' q', rioWrite r buf = (r', true) ∧ buffer_ptr r' = buffer_ptr r ++ buf ∧
    buffer_pos r' = buffer_pos r + blen buf ∧
    rioRead q (blen buf) = (q', Some buf) ∧ buffer_pending q' = rest ∧
    cksum r' = (if update_cksum r then crc64 (cksum r) buf else cksum r) ∧
    cksum q' = (if update_cksum q then crc64 (cksum q) buf else cksum q).
Proof.
  intros Hp. destruct (rioWrite_spec r buf) as (r' & Ew & Hptr & Hpos & Hs & _).
  destruct (rioRead_spec q buf rest Hp) as (q' & Er & Hp' & Hs' & _). exists r', q'. split_and!; done.
Qed.

(** Chunks of 2 and of 3 bytes. *)
Lemma rio_chunks_agree_witness :
  ∃ r' q', rioWrite (Rio [1] 1 true 0 0 2) [49; 50; 51; 52; 53] = (r', true) ∧
    rioRead (Rio [49; 50; 51; 52; 53; 54] 0 true 0 0 3) 5 = (q', Some [49; 50; 51; 52; 53]) ∧ cksum r' = cksum q'.
Proof.
  destruct (rio_chunks_agree (Rio [1] 1 true 0 0 2) (Rio [49; 50; 51; 52; 53; 54] 0 true 0 0 3) [49; 50; 51; 52; 53] [54])
    as (r' & q' & E1 & _ & _ & E2 & _ & S1 & S2); [by vm_compute|].
  exists r', q'. split; [exact E1|]. split; [exact E2|]. by rewrite S1, S2.
Defined.
