(* ===== verification/Rdb.v ===== *)
(** * Dump files: lengths and strings ([rdb.c], [rdb.h])

    The encodings of lengths, integers and string objects of the dump format,
    written against the interface of streams: integers in special form, LZF
    compressed strings and plain ones. *)
From S2P Require Import Prelude Endian Util Sds Lzf Rio.
Open Scope Z_scope.

Definition REDIS_RDB_6BITLEN : Z := 0.
Definition REDIS_RDB_14BITLEN : Z := 1.
Definition REDIS_RDB_32BITLEN : Z := 2.
Definition REDIS_RDB_ENCVAL : Z := 3.
Definition REDIS_RDB_LENERR : Z := 2 ^ 32 - 1.
Definition REDIS_RDB_ENC_INT8 : Z := 0.
Definition REDIS_RDB_ENC_INT16 : Z := 1.
Definition REDIS_RDB_ENC_INT32 : Z := 2.
Definition REDIS_RDB_ENC_LZF : Z := 3.

(** A string object by its encoding. *)
Inductive robj := ORaw (s : list Z) | OInt (v : Z).

Definition createStringObjectFromLongLong (value : Z) : robj :=
  if (LONG_MIN <=? value) && (value <=? LONG_MAX) then OInt value else ORaw (ll_text value).

(** ** The integers of a string: strtoll(s, &endptr, 10) of the C library *)

Fixpoint skip_space (s : list Z) : list Z :=
  match s with c :: s' => if isspace c then skip_space s' else s | [] => [] end.

(** The value, saturated, and the string from [endptr] on. *)
Definition strtoll (s : list Z) : Z * list Z :=
  let s1 := skip_space s in
  let '(neg, s2) :=
    match s1 with
    | c :: s2 => if c =? ch_minus then (true, s2) else if c =? 43 then (false, s2) else (false, s1)
    | [] => (false, s1)
    end in
  let '(ds, rest) := span_digits s2 in
  if bool_decide (ds = []) then (0, s)
  else
    (if neg : bool then Z.max LLONG_MIN (- strtoll_digits ds 0) else Z.min LLONG_MAX (strtoll_digits ds 0), rest).

(** ** Writing *)

Section write.
Context {W : Type} `{RioStream W, Host}.

Definition rdbWriteRaw (rdb : W) (p : list Z) : outcome (W * Z) :=
  rdb ← rio_write rdb p; mret (rdb, blen p).

Definition rdbSaveType (rdb : W) (type : Z) : outcome (W * Z) := rdbWriteRaw rdb [u8 type].

Definition rdbSaveMillisecondTime (rdb : W) (t : Z) : outcome (W * Z) := rdbWriteRaw rdb (native_enc 8 t).

(** [htonl], [ntohl]. *)
Definition htonl (v : Z) : Z := if big_endian then v else intrev32 v.

Definition rdbSaveLen (rdb : W) (len : Z) : outcome (W * Z) :=
  if len <? 2 ^ 6 then
    '(rdb, _) ← rdbWriteRaw rdb [u8 (Z.lor (Z.land len 255) (Z.shiftl REDIS_RDB_6BITLEN 6))];
    mret (rdb, 1)
  else if len <? 2 ^ 14 then
    '(rdb, _) ← rdbWriteRaw rdb [u8 (Z.lor (Z.land (Z.shiftr len 8) 255) (Z.shiftl REDIS_RDB_14BITLEN 6));
                                 Z.land len 255];
    mret (rdb, 2)
  else
    '(rdb, _) ← rdbWriteRaw rdb [u8 (Z.shiftl REDIS_RDB_32BITLEN 6)];
    '(rdb, _) ← rdbWriteRaw rdb (native_enc 4 (htonl len));
    mret (rdb, 1 + 4).

(** The bytes of [enc]; none when the value does not fit. *)
Definition rdbEncodeInteger (value : Z) : list Z :=
  if (- 2 ^ 7 <=? value) && (value <=? 2 ^ 7 - 1) then
    [Z.lor (Z.shiftl REDIS_RDB_ENCVAL 6) REDIS_RDB_ENC_INT8; Z.land value 255]
  else if (- 2 ^ 15 <=? value) && (value <=? 2 ^ 15 - 1) then
    [Z.lor (Z.shiftl REDIS_RDB_ENCVAL 6) REDIS_RDB_ENC_INT16; Z.land value 255; Z.land (Z.shiftr value 8) 255]
  else if (- 2 ^ 31 <=? value) && (value <=? 2 ^ 31 - 1) then
    [Z.lor (Z.shiftl REDIS_RDB_ENCVAL 6) REDIS_RDB_ENC_INT32; Z.land value 255; Z.land (Z.shiftr value 8) 255;
     Z.land (Z.shiftr value 16) 255; Z.land (Z.shiftr value 24) 255]
  else [].

(** [s] is a string of [len] bytes and its terminator. *)
Definition rdbTryIntegerEncoding (s : list Z) (len : Z) : option (list Z) :=
  let '(value, endptr) := strtoll s in
  e ← mget endptr 0;
  if negb (e =? ch_nul) then Some []
  else
    let '(_, buf) := ll2string 32 value in
    n ← strlen buf;
    if negb (n =? len) then Some []
    else
      a ← mload buf 0 len;
      b ← mload s 0 len;
      Some (if negb (memcmp a b =? 0) then [] else rdbEncodeInteger value).

(** [htab] is the table on the stack of lzf_compress and [out] the block that
    zmalloc returns for [outlen+1] bytes. *)
Context (htab : Z → Z) (malloc : Z → list Z).

Definition rdbSaveLzfStringObject (rdb : W) (s : list Z) (len : Z) : outcome (W * Z) :=
  if len <=? 4 then mret (rdb, 0)
  else
    let outlen := len - 4 in
    let out := malloc (outlen + 1) in
    '(comprlen, out) ← lift (lzf_compress htab s (u32 len) out (u32 outlen));
    if comprlen =? 0 then mret (rdb, 0)
    else
      '(rdb, n) ← rdbWriteRaw rdb [Z.lor (Z.shiftl REDIS_RDB_ENCVAL 6) REDIS_RDB_ENC_LZF];
      let nwritten := n in
      '(rdb, n) ← rdbSaveLen rdb (u32 comprlen);
      let nwritten := nwritten + n in
      '(rdb, n) ← rdbSaveLen rdb (u32 len);
      let nwritten := nwritten + n in
      out ← lift (mload out 0 comprlen);
      '(rdb, n) ← rdbWriteRaw rdb out;
      mret (rdb, nwritten + n).

(** [s] without its terminator; [compression] is server.rdb_compression. *)
Definition rdbSaveRawString (compression : bool) (rdb : W) (s : list Z) (len : Z) : outcome (W * Z) :=
  enc ← (if len <=? 11 then lift (rdbTryIntegerEncoding (s ++ [ch_nul]) len) else mret []);
  if negb (bool_decide (enc = [])) then rdbWriteRaw rdb enc
  else
    '(rdb, n) ← (if compression && (20 <? len) then rdbSaveLzfStringObject rdb s len else mret (rdb, 0));
    if 0 <? n then mret (rdb, n)
    else
      '(rdb, nwritten) ← rdbSaveLen rdb (u32 len);
      if 0 <? len then '(rdb, _) ← rdbWriteRaw rdb s; mret (rdb, nwritten + len)
      else mret (rdb, nwritten).

Definition rdbSaveLongLongAsStringObject (rdb : W) (value : Z) : outcome (W * Z) :=
  let buf := rdbEncodeInteger value in
  if 0 <? blen buf then rdbWriteRaw rdb buf
  else
    let '(enclen, buf) := ll2string 32 value in
    if 32 <=? enclen then Undef
    else
      '(rdb, n) ← rdbSaveLen rdb enclen;
      let nwritten := n in
      buf ← lift (mload buf 0 enclen);
      '(rdb, n) ← rdbWriteRaw rdb buf;
      mret (rdb, nwritten + n).

(** [(long)obj->ptr]. *)
Definition rdbSaveStringObject (compression : bool) (rdb : W) (obj : robj) : outcome (W * Z) :=
  match obj with
  | OInt v => rdbSaveLongLongAsStringObject rdb (i32 v)
  | ORaw s => rdbSaveRawString compression rdb s (blen s)
  end.
End write.

(** ** Reading *)

Section read.
Context {R : Type} `{RioStream R, Host}.

Definition rdbLoadType (rdb : R) : outcome (Z * R) :=
  '(buf, rdb) ← rio_read rdb 1; type ← lift (mget buf 0); mret (type, rdb).
Definition rdbLoadTime (rdb : R) : outcome (Z * R) :=
  '(buf, rdb) ← rio_read rdb 4; mret (native_sdec buf, rdb).
Definition rdbLoadMillisecondTime (rdb : R) : outcome (Z * R) :=
  '(buf, rdb) ← rio_read rdb 8; mret (native_sdec buf, rdb).

(** The length, or the type of encoding, and [*isencoded].  A read that fails gives
    REDIS_RDB_LENERR, on which every caller returns its error. *)
Definition rdbLoadLen (rdb : R) : outcome (Z * bool * R) :=
  '(buf, rdb) ← rio_read rdb 1;
  b0 ← lift (mget buf 0);
  let type := Z.shiftr (Z.land b0 192) 6 in
  if type =? REDIS_RDB_ENCVAL then mret (Z.land b0 63, true, rdb)
  else if type =? REDIS_RDB_6BITLEN then mret (Z.land b0 63, false, rdb)
  else if type =? REDIS_RDB_14BITLEN then
    '(buf, rdb) ← rio_read rdb 1;
    b1 ← lift (mget buf 0);
    mret (Z.lor (Z.shiftl (Z.land b0 63) 8) b1, false, rdb)
  else
    '(buf, rdb) ← rio_read rdb 4;
    mret (htonl (native_dec buf), false, rdb).

Definition rdbLoadIntegerObject (rdb : R) (enctype : Z) (encode : bool) : outcome (robj * R) :=
  '(val, rdb) ←
    (if enctype =? REDIS_RDB_ENC_INT8 then
       '(enc, rdb) ← rio_read rdb 1;
       e0 ← lift (mget enc 0);
       mret (i8 e0, rdb)
     else if enctype =? REDIS_RDB_ENC_INT16 then
       '(enc, rdb) ← rio_read rdb 2;
       e0 ← lift (mget enc 0); e1 ← lift (mget enc 1);
       mret (i16 (u16 (Z.lor e0 (Z.shiftl e1 8))), rdb)
     else if enctype =? REDIS_RDB_ENC_INT32 then
       '(enc, rdb) ← rio_read rdb 4;
       e0 ← lift (mget enc 0); e1 ← lift (mget enc 1); e2 ← lift (mget enc 2); e3 ← lift (mget enc 3);
       mret (i32 (u32 (Z.lor (Z.lor (Z.lor e0 (Z.shiftl e1 8)) (Z.shiftl e2 16)) (Z.shiftl e3 24))), rdb)
     else Undef);
  mret (if encode then createStringObjectFromLongLong val else ORaw (ll_text val), rdb).

(** The object has the [len] bytes of [val]. *)
Definition rdbLoadLzfStringObject (rdb : R) : outcome (robj * R) :=
  '(clen, _, rdb) ← rdbLoadLen rdb;
  if clen =? REDIS_RDB_LENERR then Error
  else
    '(len, _, rdb) ← rdbLoadLen rdb;
    if len =? REDIS_RDB_LENERR then Error
    else
      let val := replicate (Z.to_nat len) 0 ++ [ch_nul] in
      '(c, rdb) ← rio_read rdb clen;
      r ← lift (lzf_decompress c clen val len);
      match r with
      | inr _ => Error
      | inl (n, val) => if n =? 0 then Error else mret (ORaw (take (Z.to_nat len) val), rdb)
      end.

Definition rdbGenericLoadStringObject (rdb : R) (encode : bool) : outcome (robj * R) :=
  '(len, isencoded, rdb) ← rdbLoadLen rdb;
  if (isencoded : bool) then
    if (len =? REDIS_RDB_ENC_INT8) || (len =? REDIS_RDB_ENC_INT16) || (len =? REDIS_RDB_ENC_INT32)
    then rdbLoadIntegerObject rdb len encode
    else if len =? REDIS_RDB_ENC_LZF then rdbLoadLzfStringObject rdb
    else Undef
  else if len =? REDIS_RDB_LENERR then Error
  else
    '(val, rdb) ← (if negb (len =? 0) then rio_read rdb len else mret ([], rdb));
    mret (ORaw val, rdb).

Definition rdbLoadStringObject (rdb : R) := rdbGenericLoadStringObject rdb false.
Definition rdbLoadEncodedStringObject (rdb : R) := rdbGenericLoadStringObject rdb true.
End read.

(** ** What is written, and what it reads as *)

Section spec.
Context `{Host}.

(** A stream after some writes; one of its writes fails. *)
Inductive after_writes {W} `{RioStream W} (w : W) : W → Prop :=
| after_none : after_writes w w
| after_write w1 bs w2 : after_writes w w1 → rio_write w1 bs = Done w2 → after_writes w w2.
Definition refuses {W} `{RioStream W} (w : W) : Prop := ∃ w1 bs, after_writes w w1 ∧ rio_write w1 bs = Error.

Lemma after_writes_trans {W} `{RioStream W} (w w1 w2 : W) : after_writes w w1 → after_writes w1 w2 → after_writes w w2.
Proof. intros H1 H2. induction H2 as [|w3 bs w4 _ IH Hw]; [done|]. by eapply after_write. Qed.
Lemma refuses_after {W} `{RioStream W} (w w1 : W) : after_writes w w1 → refuses w1 → refuses w.
Proof. intros H1 (w2 & bs & H2 & Hw). exists w2, bs. split; [by eapply after_writes_trans|done]. Qed.

(** The call appends [bs] to the stream and returns [off] more than their number,
    or fails because the stream does. *)
Definition wrote {W} `{RioLaws W} (w : W) (off : Z) (bs : list Z) (m : outcome (W * Z)) : Prop :=
  match m with
  | Done (w', n) => after_writes w w' ∧ rio_written w' = rio_written w ++ bs ∧ n = off + blen bs
  | Error => refuses w
  | Undef => False
  end.

(** The call reads [x] from the bytes [bs] of any stream and leaves what follows. *)
Definition reads {A} (f : ∀ R (_ : RioStream R), R → outcome (A * R)) (bs : list Z) (x : A) : Prop :=
  ∀ R (HR : RioStream R) (HL : RioLaws R) (q : R) (rest : list Z),
    rio_pending q = bs ++ rest → ∃ q', f R HR q = Done (x, q') ∧ rio_pending q' = rest.

Section writing.
Context {W : Type} `{RioLaws W}.

Lemma wrote_raw w bs : wrote w 0 bs (rdbWriteRaw w bs).
Proof.
  unfold rdbWriteRaw, wrote. pose proof (rio_write_spec w bs) as Hw. pose proof (after_write w w bs) as Ha.
  destruct (rio_write w bs) as [w1| |] eqn:E; cbn in *; [|by exists w, bs; split; [apply after_none|]|done].
  split; [apply Ha; [apply after_none|done]|]. split; [done|lia].
Qed.

(** Two writes in a row. *)
Lemma wrote_bind w off a b m k :
  wrote w off a m → (∀ w', wrote w' (off + blen a) b (k (w', off + blen a))) →
  wrote w off (a ++ b) (m ≫= k).
Proof.
  destruct m as [[w1 n]| |]; cbn [wrote mbind outcome_bind]; [|done..]. intros (Ha & Hw & ->) Hk.
  specialize (Hk w1). unfold wrote in *. destruct (k _) as [[w2 n2]| |]; [|by eapply refuses_after|done]. destruct Hk as (Ha2 & -> & ->).
  split; [by eapply after_writes_trans|]. rewrite Hw, <-(assoc_L (++)), blen_app. split; [done|lia].
Qed.
Lemma wrote_ret w off bs n : bs = [] → n = off → wrote w off bs (mret (w, n)).
Proof. intros -> ->. cbn. rewrite app_nil_r. split; [apply after_none|]. split; [done|]. rewrite blen_nil. lia. Qed.

Lemma wrote_shift w off bs m k :
  wrote w 0 bs m → (∀ w' n, k (w', n) = mret (w', off + n)) → wrote w off bs (m ≫= k).
Proof.
  intros Hm Hk. destruct m as [[w1 n]| |]; cbn [wrote mbind outcome_bind] in *; [|done..]. rewrite Hk. cbn.
  destruct Hm as (Ha & -> & ->). split; [done|]. split; [done|lia].
Qed.
End writing.

(** The bytes of a length. *)
Definition len_bytes (len : Z) : list Z :=
  if len <? 2 ^ 6 then [len]
  else if len <? 2 ^ 14 then [64 + len / 256; len mod 256]
  else 128 :: reverse (le_enc 4 len).

Lemma native_htonl len : native_enc 4 (htonl len) = reverse (le_enc 4 len).
Proof.
  unfold htonl, native_enc. destruct big_endian; [done|]. rewrite intrev32_eq.
  pose proof (le_enc_dec (reverse (le_enc 4 len)) (reverse_ok _ (le_enc_ok _ _))) as E.
  by rewrite length_reverse, le_enc_length in E.
Qed.
Lemma htonl_native len : 0 ≤ len < 2 ^ 32 → htonl (native_dec (reverse (le_enc 4 len))) = len.
Proof.
  intros Hl. unfold htonl, native_dec. assert (le_dec (le_enc 4 len) = len) as E
    by (rewrite le_dec_enc; apply Z.mod_small; exact Hl).
  destruct big_endian; [by rewrite reverse_involutive|]. rewrite intrev32_eq.
  pose proof (le_enc_dec (reverse (le_enc 4 len)) (reverse_ok _ (le_enc_ok _ _))) as E2.
  rewrite length_reverse, le_enc_length in E2. by rewrite E2, reverse_involutive.
Qed.

Lemma div256_small n : 0 ≤ n < 2 ^ 14 → 0 ≤ n / 256 < 64.
Proof. intros Hn. pose proof (Z.div_mod n 256 ltac:(lia)). pose proof (Z.mod_pos_bound n 256 ltac:(lia)). lia. Qed.

Lemma rdbSaveLen_spec {W} `{RioLaws W} (w : W) len : 0 ≤ len < 2 ^ 32 → wrote w 0 (len_bytes len) (rdbSaveLen w len).
Proof.
  intros Hl. unfold rdbSaveLen, len_bytes. pose proof (land_mask_mod len 8 ltac:(lia)) as E8.
  change (2 ^ 8 - 1) with 255 in E8. change (2 ^ 8) with 256 in E8.
  destruct (Z.ltb_spec len (2 ^ 6)); [|destruct (Z.ltb_spec len (2 ^ 14))].
  - rewrite E8, Z.mod_small by lia. change (Z.shiftl REDIS_RDB_6BITLEN 6) with 0. rewrite Z.lor_0_r, (wrapu_small 8) by lia.
    rewrite <-(app_nil_r [len]). eapply wrote_bind; [apply wrote_raw|]. intros w'. by apply wrote_ret.
  - rewrite E8, Z.shiftr_div_pow2 by lia. change 255 with (2 ^ 8 - 1). rewrite land_mask_mod by lia.
    change (2 ^ 8) with 256. pose proof (div256_small len ltac:(lia)).
    rewrite (Z.mod_small (len / 256)) by lia. rewrite Z.lor_comm.
    change (Z.shiftl REDIS_RDB_14BITLEN 6) with (1 * 2 ^ 6). rewrite lor_disjoint by lia.
    rewrite (wrapu_small 8) by lia. change (1 * 2 ^ 6) with 64.
    rewrite <-(app_nil_r [64 + len / 256; len mod 256]). eapply wrote_bind; [apply wrote_raw|]. intros w'. by apply wrote_ret.
  - change (u8 (Z.shiftl REDIS_RDB_32BITLEN 6)) with 128. rewrite native_htonl.
    change (128 :: reverse (le_enc 4 len)) with ([128] ++ reverse (le_enc 4 len)).
    eapply wrote_bind; [apply wrote_raw|]. intros w'.
    assert (blen (reverse (le_enc 4 len)) = 4) as E4 by (unfold blen; by rewrite length_reverse, le_enc_length).
    pose proof (wrote_raw w' (reverse (le_enc 4 len))) as Hw.
    destruct (rdbWriteRaw w' (reverse (le_enc 4 len))) as [[w2 n]| |]; cbn in *; [|done..].
    rewrite E4. destruct Hw as (Ha & -> & _). done.
Qed.

(** Reading a few bytes. *)
Lemma rio_read_bytes {R} `{RioLaws R} (q : R) bs rest n :
  rio_pending q = bs ++ rest → n = blen bs → ∃ q', rio_read q n = Done (bs, q') ∧ rio_pending q' = rest.
Proof. intros Hp ->. by apply rio_read_spec. Qed.

Lemma top_bits b k : 0 ≤ k < 4 → 0 ≤ b < 64 →
  Z.shiftr (Z.land (64 * k + b) 192) 6 = k ∧ Z.land (64 * k + b) 63 = b.
Proof.
  intros Hk Hb. split.
  - rewrite Z.shiftr_land. change (Z.shiftr 192 6) with (2 ^ 2 - 1). rewrite land_mask_mod, Z.shiftr_div_pow2 by lia.
    change (2 ^ 6) with 64. change (2 ^ 2) with 4. rewrite (Z.mul_comm 64), Z.div_add_l, Z.div_small by lia.
    rewrite Z.mod_small; lia.
  - change 63 with (2 ^ 6 - 1). rewrite land_mask_mod by lia. change (2 ^ 6) with 64.
    rewrite (Z.mul_comm 64), Z.add_comm, Z_mod_plus_full. apply Z.mod_small. lia.
Qed.

Lemma rdbLoadLen_spec len : 0 ≤ len < 2 ^ 32 → reads (λ R _ q, rdbLoadLen q) (len_bytes len) (len, false).
Proof.
  intros Hl R HR HL q rest Hp. unfold rdbLoadLen, len_bytes in *.
  destruct (Z.ltb_spec len (2 ^ 6)) as [H6|H6]; [|destruct (Z.ltb_spec len (2 ^ 14)) as [H14|H14]].
  - destruct (rio_read_bytes q [len] rest 1 Hp eq_refl) as (q' & -> & Hq'). exists q'. cbn [mbind outcome_bind].
    change (lift (mget [len] 0)) with (Done len). cbn [mbind outcome_bind].
    destruct (top_bits len 0) as [E1 E2]; [lia|lia|]. rewrite Z.add_0_l in E1, E2. rewrite E1, E2. done.
  - change ([64 + len / 256; len mod 256] ++ rest) with ([64 + len / 256] ++ [len mod 256] ++ rest) in Hp.
    destruct (rio_read_bytes q _ _ 1 Hp eq_refl) as (q' & -> & Hq'). cbn [mbind outcome_bind].
    change (lift (mget [64 + len / 256] 0)) with (Done (64 + len / 256)). cbn [mbind outcome_bind].
    pose proof (div256_small len ltac:(lia)).
    destruct (top_bits (len / 256) 1) as [E1 E2]; [lia|lia|]. rewrite Z.mul_1_r in E1, E2. rewrite E1, E2.
    change (1 =? REDIS_RDB_ENCVAL) with false. change (1 =? REDIS_RDB_6BITLEN) with false.
    change (1 =? REDIS_RDB_14BITLEN) with true. cbv iota.
    destruct (rio_read_bytes q' _ _ 1 Hq' eq_refl) as (q2 & -> & Hq2). cbn [mbind outcome_bind].
    change (lift (mget [len mod 256] 0)) with (Done (len mod 256)). cbn [mbind outcome_bind].
    exists q2. split; [|done]. rewrite Z.shiftl_mul_pow2, lor_disjoint by (try apply Z.mod_pos_bound; lia).
    change (2 ^ 8) with 256. unfold mret, outcome_ret. do 3 f_equal.
    pose proof (Z.div_mod len 256 ltac:(lia)). lia.
  - change ((128 :: reverse (le_enc 4 len)) ++ rest) with ([128] ++ reverse (le_enc 4 len) ++ rest) in Hp.
    destruct (rio_read_bytes q _ _ 1 Hp eq_refl) as (q' & -> & Hq'). cbn [mbind outcome_bind].
    change (lift (mget [128] 0)) with (Done 128). cbn [mbind outcome_bind].
    change (Z.shiftr (Z.land 128 192) 6) with 2. change (2 =? REDIS_RDB_ENCVAL) with false.
    change (2 =? REDIS_RDB_6BITLEN) with false. change (2 =? REDIS_RDB_14BITLEN) with false. cbv iota.
    destruct (rio_read_bytes q' _ _ 4 Hq') as (q2 & -> & Hq2); [unfold blen; by rewrite length_reverse, le_enc_length|].
    cbn [mbind outcome_bind]. exists q2. rewrite htonl_native by done. done.
Qed.

(** The byte of a special encoding. *)
Lemma rdbLoadLen_enc e : 0 ≤ e < 64 → reads (λ R _ q, rdbLoadLen q) [192 + e] (e, true).
Proof.
  intros He R HR HL q rest Hp. unfold rdbLoadLen.
  destruct (rio_read_bytes q _ _ 1 Hp eq_refl) as (q' & -> & Hq'). exists q'. cbn [mbind outcome_bind].
  change (lift (mget [192 + e] 0)) with (Done (192 + e)). cbn [mbind outcome_bind].
  destruct (top_bits e 3) as [E1 E2]; [lia|lia|]. change (64 * 3) with 192 in E1, E2. by rewrite E1, E2.
Qed.

(** *** Integers *)

Lemma land255 x : Z.land x 255 = x mod 256.
Proof. change 255 with (2 ^ 8 - 1). by apply land_mask_mod. Qed.
Lemma shiftr_div x k : 0 ≤ k → Z.shiftr x k = x / 2 ^ k.
Proof. apply Z.shiftr_div_pow2. Qed.

Lemma enc_int_form v :
  rdbEncodeInteger v = [] ∨
  ∃ e k, rdbEncodeInteger v = (192 + e) :: le_enc k v ∧ ((e = 0 ∧ k = 1%nat) ∨ (e = 1 ∧ k = 2%nat) ∨ (e = 2 ∧ k = 4%nat)) ∧
    - 2 ^ (8 * Z.of_nat k - 1) ≤ v < 2 ^ (8 * Z.of_nat k - 1).
Proof.
  unfold rdbEncodeInteger. rewrite !land255, !shiftr_div by lia.
  destruct ((- 2 ^ 7 <=? v) && (v <=? 2 ^ 7 - 1)) eqn:E1; [|destruct ((- 2 ^ 15 <=? v) && (v <=? 2 ^ 15 - 1)) eqn:E2;
    [|destruct ((- 2 ^ 31 <=? v) && (v <=? 2 ^ 31 - 1)) eqn:E3; [|by left]]]; right.
  - exists 0, 1%nat. rewrite le_enc_S, le_enc_0. split; [done|]. split; [auto|]. simpl. lia.
  - exists 1, 2%nat. rewrite !le_enc_S, le_enc_0. split; [done|]. split; [auto|]. simpl. lia.
  - exists 2, 4%nat. rewrite !le_enc_S, le_enc_0. change (2 ^ 16) with (256 * 256). change (2 ^ 24) with (256 * (256 * 256)).
    rewrite <-!Z.div_div by lia. split; [done|]. split; [auto|]. simpl. lia.
Qed.

Lemma lor_low a c k : 0 ≤ k → 0 ≤ c < 2 ^ k → Z.lor c (Z.shiftl a k) = c + a * 2 ^ k.
Proof. intros. rewrite Z.shiftl_mul_pow2, Z.lor_comm, lor_disjoint by lia. lia. Qed.

Definition robj_text (o : robj) : list Z := match o with ORaw s => s | OInt v => ll_text v end.

Lemma created_text v : robj_text (createStringObjectFromLongLong v) = ll_text v.
Proof. unfold createStringObjectFromLongLong. by case_match. Qed.

(** The object read from [bs] has the text [s]. *)
Definition reads_text (bs s : list Z) : Prop :=
  ∀ R (HR : RioStream R) (HL : RioLaws R) (q : R) (rest : list Z) (encode : bool),
    rio_pending q = bs ++ rest →
    ∃ o q', rdbGenericLoadStringObject q encode = Done (o, q') ∧ robj_text o = s ∧ rio_pending q' = rest.

Lemma le_dec_bytes2 a b : le_dec [a; b] = a + 256 * b.
Proof. rewrite !le_dec_cons, le_dec_nil. lia. Qed.

Lemma rdbLoadIntegerObject_spec e k v :
  (e = 0 ∧ k = 1%nat) ∨ (e = 1 ∧ k = 2%nat) ∨ (e = 2 ∧ k = 4%nat) →
  - 2 ^ (8 * Z.of_nat k - 1) ≤ v < 2 ^ (8 * Z.of_nat k - 1) →
  ∀ R (HR : RioStream R) (HL : RioLaws R) (q : R) (rest : list Z) (encode : bool),
    rio_pending q = le_enc k v ++ rest →
    ∃ o q', rdbLoadIntegerObject q e encode = Done (o, q') ∧ robj_text o = ll_text v ∧ rio_pending q' = rest.
Proof.
  intros Hek Hv R HR HL q rest encode Hp.
  assert (le_dec (le_enc k v) = v mod 256 ^ Z.of_nat k) as Hd by apply le_dec_enc.
  pose proof (le_enc_ok k v) as Hok. pose proof (le_enc_length k v) as Hlen.
  assert (∀ (val : Z) (q1 : R), val = v → rio_pending q1 = rest →
    ∃ o q', ('(val, rdb) ← Done (val, q1);
      mret (if encode then createStringObjectFromLongLong val else ORaw (ll_text val), rdb) : outcome (robj * R))
      = Done (o, q') ∧ robj_text o = ll_text v ∧ rio_pending q' = rest) as Hfin.
  { intros val q1 -> Hq1. eexists _, q1. split; [done|]. split; [|done]. destruct encode; [apply created_text|done]. }
  unfold rdbLoadIntegerObject. destruct Hek as [[-> ->] | [[-> ->] | [-> ->]]]; cbn [Z.eqb Pos.eqb REDIS_RDB_ENC_INT8 REDIS_RDB_ENC_INT16 REDIS_RDB_ENC_INT32].
  - destruct (rio_read_bytes q _ _ 1 Hp) as (q1 & -> & Hq1); [unfold blen; by rewrite Hlen|]. cbn [mbind outcome_bind].
    destruct (le_enc 1 v) as [|e0 [|? ?]]; try done. change (lift (mget [e0] 0)) with (Done e0). cbn [mbind outcome_bind].
    apply Hfin; [|done]. rewrite le_dec_cons, le_dec_nil in Hd.
    replace e0 with (wrapu 8 v) by (unfold wrapu; change (2 ^ 8) with (256 ^ Z.of_nat 1); lia).
    rewrite wraps_wrapu by lia. apply wraps_small; [lia|]. exact Hv.
  - destruct (rio_read_bytes q _ _ 2 Hp) as (q1 & -> & Hq1); [unfold blen; by rewrite Hlen|]. cbn [mbind outcome_bind].
    destruct (le_enc 2 v) as [|e0 [|e1 [|? ?]]]; try done.
    change (lift (mget [e0; e1] 0)) with (Done e0). change (lift (mget [e0; e1] 1)) with (Done e1).
    cbn [mbind outcome_bind]. apply Hfin; [|done]. rewrite !Forall_cons in Hok. unfold byte_ok in Hok.
    rewrite lor_low by lia. rewrite !le_dec_cons, le_dec_nil in Hd.
    rewrite wraps_wrapu by lia. replace (e0 + e1 * 2 ^ 8) with (wrapu 16 v)
      by (unfold wrapu; change (2 ^ 16) with (256 ^ Z.of_nat 2); lia).
    rewrite wraps_wrapu by lia. apply wraps_small; [lia|]. exact Hv.
  - destruct (rio_read_bytes q _ _ 4 Hp) as (q1 & -> & Hq1); [unfold blen; by rewrite Hlen|]. cbn [mbind outcome_bind].
    destruct (le_enc 4 v) as [|e0 [|e1 [|e2 [|e3 [|? ?]]]]]; try done.
    change (lift (mget [e0; e1; e2; e3] 0)) with (Done e0). change (lift (mget [e0; e1; e2; e3] 1)) with (Done e1).
    change (lift (mget [e0; e1; e2; e3] 2)) with (Done e2). change (lift (mget [e0; e1; e2; e3] 3)) with (Done e3).
    cbn [mbind outcome_bind]. apply Hfin; [|done]. rewrite !Forall_cons in Hok. unfold byte_ok in Hok.
    rewrite (lor_low e1 e0), (lor_low e2), (lor_low e3) by lia. rewrite !le_dec_cons, le_dec_nil in Hd.
    rewrite wraps_wrapu by lia. replace (e0 + e1 * 2 ^ 8 + e2 * 2 ^ 16 + e3 * 2 ^ 24) with (wrapu 32 v)
      by (unfold wrapu; change (2 ^ 32) with (256 ^ Z.of_nat 4); lia).
    rewrite wraps_wrapu by lia. apply wraps_small; [lia|]. exact Hv.
Qed.

Lemma reads_integer v : rdbEncodeInteger v ≠ [] → reads_text (rdbEncodeInteger v) (ll_text v).
Proof.
  intros Hne R HR HL q rest encode Hp. destruct (enc_int_form v) as [|(e & k & E & Hek & Hv)]; [done|].
  rewrite E in Hp. change (((192 + e) :: le_enc k v) ++ rest) with ([192 + e] ++ (le_enc k v ++ rest)) in Hp.
  unfold rdbGenericLoadStringObject. destruct (rdbLoadLen_enc e ltac:(lia) R HR HL q _ Hp) as (q1 & -> & Hq1).
  cbn [mbind outcome_bind].
  assert ((e =? REDIS_RDB_ENC_INT8) || (e =? REDIS_RDB_ENC_INT16) || (e =? REDIS_RDB_ENC_INT32) = true) as ->
    by (destruct Hek as [[-> _] | [[-> _] | [-> _]]]; done).
  by apply (rdbLoadIntegerObject_spec e k v).
Qed.

(** A plain string. *)
Lemma reads_plain s : blen s < REDIS_RDB_LENERR → reads_text (len_bytes (blen s) ++ s) s.
Proof.
  intros Hs R HR HL q rest encode Hp. unfold rdbGenericLoadStringObject, REDIS_RDB_LENERR in *. pose proof (blen_nonneg s).
  rewrite <-(assoc_L (++)) in Hp.
  destruct (rdbLoadLen_spec (blen s) ltac:(lia) R HR HL q _ Hp) as (q1 & -> & Hq1). cbn [mbind outcome_bind].
  rewrite (proj2 (Z.eqb_neq _ _)) by lia. destruct (Z.eqb_spec (blen s) 0) as [Hz|Hz]; cbn [negb].
  - destruct s; [|rewrite blen_cons in Hz; pose proof (blen_nonneg s); lia].
    eexists _, q1. split; [done|]. done.
  - destruct (rio_read_spec q1 s rest Hq1) as (q2 & -> & Hq2). eexists _, q2. split; [done|]. done.
Qed.

(** A compressed string. *)
Lemma reads_lzf c s clen :
  0 ≤ clen < REDIS_RDB_LENERR → 0 < blen s < REDIS_RDB_LENERR → blen c = clen →
  (∀ dst, blen s ≤ blen dst → lzf_decompress c clen dst (blen s) = Some (inl (blen s, s ++ drop (length s) dst))) →
  reads_text ([195] ++ len_bytes clen ++ len_bytes (blen s) ++ c) s.
Proof.
  intros Hcl Hs Hc Hdec R HR HL q rest encode Hp. unfold rdbGenericLoadStringObject, REDIS_RDB_LENERR in *.
  rewrite <-!(assoc_L (++)) in Hp.
  destruct (rdbLoadLen_enc 3 ltac:(lia) R HR HL q _ Hp) as (q1 & -> & Hq1). cbn [mbind outcome_bind].
  change ((3 =? REDIS_RDB_ENC_INT8) || (3 =? REDIS_RDB_ENC_INT16) || (3 =? REDIS_RDB_ENC_INT32)) with false.
  change (3 =? REDIS_RDB_ENC_LZF) with true. cbv iota. unfold rdbLoadLzfStringObject, REDIS_RDB_LENERR.
  destruct (rdbLoadLen_spec clen ltac:(lia) R HR HL q1 _ Hq1) as (q2 & -> & Hq2). cbn [mbind outcome_bind].
  rewrite (proj2 (Z.eqb_neq clen _)) by lia.
  destruct (rdbLoadLen_spec (blen s) ltac:(lia) R HR HL q2 _ Hq2) as (q3 & -> & Hq3). cbn [mbind outcome_bind].
  rewrite (proj2 (Z.eqb_neq (blen s) _)) by lia.
  destruct (rio_read_bytes q3 c rest clen Hq3) as (q4 & -> & Hq4); [done|]. cbn [mbind outcome_bind].
  rewrite Hdec by (rewrite blen_app; unfold blen; rewrite length_replicate; lia). cbn [lift mbind outcome_bind].
  rewrite (proj2 (Z.eqb_neq (blen s) 0)) by lia. eexists _, q4. split; [done|]. split; [|done].
  cbn [robj_text]. by rewrite to_nat_blen, take_app_length.
Qed.

(** *** The attempt to encode a string as an integer *)

Lemma skip_space_end s : ∃ l, skip_space (s ++ [ch_nul]) = l ++ [ch_nul].
Proof.
  induction s as [|c s [l IH]]; [by exists []|]. cbn [app skip_space]. destruct (isspace c); [by exists l|].
  by exists (c :: s).
Qed.
Lemma span_digits_end s : ∃ ds l, span_digits (s ++ [ch_nul]) = (ds, l ++ [ch_nul]).
Proof.
  induction s as [|c s (ds & l & IH)]; [by exists [], []|]. cbn [app span_digits]. rewrite IH.
  destruct (isdigit c); [by exists (c :: ds), l|]. by exists [], (c :: s).
Qed.

Lemma strtoll_digits_nonneg ds a : 0 ≤ a → 0 ≤ strtoll_digits ds a.
Proof.
  revert a. induction ds as [|c ds IH]; intros a Ha; [done|]. cbn [strtoll_digits].
  unfold isdigit. destruct (Z.leb_spec ch_0 c); cbn [andb]; [|done]. case_match; [|done].
  apply IH. unfold ch_0 in *. lia.
Qed.

Lemma strtoll_end s : ∃ v l, strtoll (s ++ [ch_nul]) = (v, l ++ [ch_nul]) ∧ in_i64 v.
Proof.
  unfold strtoll. destruct (skip_space_end s) as [l El]. rewrite El.
  assert (∃ neg l2, match l ++ [ch_nul] with
    | [] => (false, l ++ [ch_nul])
    | c :: s2 => if c =? ch_minus then (true, s2) else if c =? 43 then (false, s2) else (false, l ++ [ch_nul])
    end = (neg, l2 ++ [ch_nul])) as (neg & l2 & ->).
  { destruct l as [|c l]; [by exists false, []|]. cbn [app]. destruct (c =? ch_minus); [by exists true, l|].
    destruct (c =? 43); [by exists false, l|]. by exists false, (c :: l). }
  destruct (span_digits_end l2) as (ds & r & ->). destruct (bool_decide (ds = [])).
  { exists 0, s. split; [done|]. unlimit. lia. }
  eexists _, r. split; [done|]. pose proof (strtoll_digits_nonneg ds 0 ltac:(lia)). destruct neg; unlimit; lia.
Qed.

Lemma rdbTryIntegerEncoding_spec s :
  ∃ enc, rdbTryIntegerEncoding (s ++ [ch_nul]) (blen s) = Some enc ∧
    (enc = [] ∨ ∃ v, s = ll_text v ∧ enc = rdbEncodeInteger v ∧ enc ≠ []).
Proof.
  unfold rdbTryIntegerEncoding. destruct (strtoll_end s) as (v & l & -> & Hv).
  destruct (mget (l ++ [ch_nul]) 0) as [e|] eqn:Ee; [|by destruct l]. cbn [mbind option_bind].
  destruct (e =? ch_nul); cbn [negb]; [|exists []; split; [done|by left]].
  rewrite ll2string_text by (done || lia). cbv zeta. pose proof (ll_text_length v Hv) as Hl.
  rewrite Z.min_l by (unfold blen; lia). rewrite to_nat_blen, firstn_all.
  rewrite (strlen_text (ll_text v) []) by (by apply ll_text_no_nul). cbn [mbind option_bind].
  destruct (Z.eqb_spec (blen (ll_text v)) (blen s)) as [E|E]; cbn [negb]; [|exists []; split; [done|by left]].
  assert (mload (ll_text v ++ [ch_nul]) 0 (blen s) = Some (ll_text v)) as -> by (rewrite <-E; apply mload_prefix).
  assert (mload (s ++ [ch_nul]) 0 (blen s) = Some s) as -> by (by apply mload_prefix).
  cbn [mbind option_bind]. rewrite memcmp_eq by (unfold blen in E; lia).
  eexists. split; [done|]. destruct (decide (ll_text v = s)) as [<-|Hne].
  - rewrite bool_decide_true by done. cbn [negb]. destruct (decide (rdbEncodeInteger v = [])); [by left|].
    right. by exists v.
  - rewrite bool_decide_false by done. by left.
Qed.

(** ** Saving strings *)

Section save.
Context {W : Type} `{RioLaws W} (htab : Z → Z) (malloc : Z → list Z).
Hypothesis htab_stack : htab_ok htab.
Hypothesis malloc_size : ∀ n, 0 ≤ n → blen (malloc n) = n.

(** The bytes [bs] appended to the stream read as [s]. *)
Definition saved (w : W) (s : list Z) (m : outcome (W * Z)) : Prop :=
  match m with
  | Done (w', n) => ∃ bs, rio_written w' = rio_written w ++ bs ∧ n = blen bs ∧ reads_text bs s
  | Error => refuses w
  | Undef => False
  end.

Lemma saved_intro w s bs m : wrote w 0 bs m → reads_text bs s → saved w s m.
Proof. unfold wrote, saved. intros Hw Hr. destruct m as [[w' n]| |]; [|done..]. destruct Hw as (_ & ? & ->). by exists bs. Qed.

(** Compressed, or left for the plain form. *)
Lemma rdbSaveLzf_spec w s :
  20 < blen s < 2 ^ 31 →
  match rdbSaveLzfStringObject htab malloc w s (blen s) with
  | Done (w', n) => (n = 0 ∧ w' = w) ∨ (0 < n ∧ saved w s (Done (w', n)))
  | Error => refuses w
  | Undef => False
  end.
Proof.
  intros Hs. unfold rdbSaveLzfStringObject. rewrite (proj2 (Z.leb_gt _ _)) by lia.
  rewrite !(wrapu_small 32 (blen s)), (wrapu_small 32 (blen s - 4)) by lia.
  destruct (lzf_compress_spec htab s (malloc (blen s - 4 + 1)) (blen s - 4)) as (n & out' & E & Hn & Hlen & Hcl);
    [done|lia|rewrite malloc_size by lia; lia|].
  rewrite E. cbn [lift mbind outcome_bind]. destruct (Z.eqb_spec n 0) as [Hz|Hz]; [by left|].
  specialize (Hcl Hz). rewrite malloc_size in Hlen, Hcl by lia.
  assert (reads_text ([195] ++ len_bytes n ++ len_bytes (blen s) ++ ztake n out') s) as Hrd.
  { apply reads_lzf; [unfold REDIS_RDB_LENERR; lia..|apply ztake_length; lia|].
    intros dst Hdst. by eapply closed_decompress. }
  rewrite (wrapu_small 32 n) by lia.
  assert (mload out' 0 n = Some (ztake n out')) as Eload.
  { apply mload_Some. split_and!; try done; lia. }
  match goal with |- match ?m with _ => _ end =>
    assert (wrote w 0 ([195] ++ len_bytes n ++ len_bytes (blen s) ++ ztake n out') m) as Hw end.
  { eapply wrote_bind; [apply wrote_raw|]. intros w1.
    match goal with |- wrote _ ?o _ _ => generalize o; intros o1 end.
    pose proof (rdbSaveLen_spec w1 n ltac:(lia)) as Hw1. destruct (rdbSaveLen w1 n) as [[w2 n2]| |]; cbn in Hw1 |- *; [|done..].
    destruct Hw1 as (Ha1 & Hr1 & ->).
    pose proof (rdbSaveLen_spec w2 (blen s) ltac:(lia)) as Hw2. destruct (rdbSaveLen w2 (blen s)) as [[w3 n3]| |];
      cbn in Hw2 |- *; [|by eapply refuses_after|done].
    destruct Hw2 as (Ha2 & Hr2 & ->). rewrite Eload. cbn [lift mbind outcome_bind].
    pose proof (wrote_raw w3 (ztake n out')) as Hw3. destruct (rdbWriteRaw w3 (ztake n out')) as [[w4 n4]| |];
      cbn in Hw3 |- *; [|by do 2 (eapply refuses_after; [eassumption|])|done].
    destruct Hw3 as (Ha3 & Hr3 & ->). split; [by do 2 (eapply after_writes_trans; [eassumption|])|]. rewrite Hr3, Hr2, Hr1, !blen_app, <-!(assoc_L (++)). split; [done|lia]. }
  unfold wrote in Hw. match goal with |- match ?m with _ => _ end => destruct m as [[w' m']| |] end; [|done..].
  destruct Hw as (_ & Hwr & ->). right. split.
  - rewrite !blen_app, blen_cons. pose proof (blen_nonneg (len_bytes n)). pose proof (blen_nonneg (len_bytes (blen s))).
    pose proof (blen_nonneg (ztake n out')). pose proof (blen_nonneg []). lia.
  - eexists. done.
Qed.

Lemma rdbSaveRawString_spec compression w s :
  blen s < 2 ^ 31 → saved w s (rdbSaveRawString htab malloc compression w s (blen s)).
Proof.
  intros Hs. unfold rdbSaveRawString. pose proof (blen_nonneg s) as Hs0.
  assert (∃ enc, (if blen s <=? 11 then lift (rdbTryIntegerEncoding (s ++ [ch_nul]) (blen s)) else mret []) = Done enc ∧
    (enc = [] ∨ ∃ v, s = ll_text v ∧ enc = rdbEncodeInteger v ∧ enc ≠ [])) as (enc & -> & Henc).
  { destruct (blen s <=? 11); [|exists []; split; [done|by left]].
    destruct (rdbTryIntegerEncoding_spec s) as (enc & -> & Henc). by exists enc. }
  cbn [mbind outcome_bind]. destruct (decide (enc = [])) as [->|Hne].
  2:{ rewrite bool_decide_false by done. cbn [negb]. destruct Henc as [|(v & -> & -> & _)]; [done|].
      eapply saved_intro; [apply wrote_raw|]. by apply reads_integer. }
  rewrite bool_decide_true by done. cbn [negb]. clear Henc.
  assert (saved w s ('(rdb, nwritten) ← rdbSaveLen w (u32 (blen s));
    if 0 <? blen s then '(rdb, _) ← rdbWriteRaw rdb s; mret (rdb, nwritten + blen s) else mret (rdb, nwritten))) as Hplain.
  { rewrite (wrapu_small 32) by lia.
    apply (saved_intro w s (len_bytes (blen s) ++ s)); [|apply reads_plain; unfold REDIS_RDB_LENERR; lia].
    eapply wrote_bind; [apply rdbSaveLen_spec; lia|]. intros w1. destruct (Z.ltb_spec 0 (blen s)).
    - pose proof (wrote_raw w1 s) as Hw. destruct (rdbWriteRaw w1 s) as [[w2 n2]| |]; cbn in Hw |- *; [|done..].
      destruct Hw as (Ha & -> & _). done.
    - assert (s = []) as -> by (destruct s; [done|rewrite blen_cons in *; pose proof (blen_nonneg s); lia]).
      by apply wrote_ret. }
  destruct (compression && (20 <? blen s)) eqn:Ec.
  - apply andb_true_iff in Ec as [_ Ec%Z.ltb_lt]. pose proof (rdbSaveLzf_spec w s ltac:(lia)) as Hz.
    destruct (rdbSaveLzfStringObject htab malloc w s (blen s)) as [[w' n]| |]; cbn [mbind outcome_bind]; [|done..].
    destruct Hz as [[-> ->]|[Hn Hz]]; [exact Hplain|]. rewrite (proj2 (Z.ltb_lt _ _)) by done. exact Hz.
  - cbn [mbind outcome_bind mret outcome_ret]. exact Hplain.
Qed.

Lemma rdbSaveLongLong_spec w v : in_i64 v → saved w (ll_text v) (rdbSaveLongLongAsStringObject w v).
Proof.
  intros Hv. unfold rdbSaveLongLongAsStringObject. destruct (decide (rdbEncodeInteger v = [])) as [->|Hne].
  - change (0 <? blen []) with false. cbv iota. rewrite ll2string_text by (done || lia). cbv zeta.
    pose proof (ll_text_length v Hv) as Hl. rewrite Z.min_l by (unfold blen; lia).
    rewrite to_nat_blen, firstn_all. rewrite (proj2 (Z.leb_gt _ _)) by (unfold blen; lia).
    pose proof (blen_nonneg (ll_text v)) as Hl0. assert (blen (ll_text v) ≤ 20) by (unfold blen; lia).
    apply (saved_intro w _ (len_bytes (blen (ll_text v)) ++ ll_text v));
      [|apply reads_plain; unfold REDIS_RDB_LENERR; lia].
    eapply wrote_bind; [apply rdbSaveLen_spec; lia|]. intros w1.
    rewrite mload_prefix. cbn [lift mbind outcome_bind].
    eapply wrote_shift; [apply wrote_raw|]. done.
  - rewrite (proj2 (Z.ltb_lt _ _)).
    2:{ destruct (rdbEncodeInteger v); [done|]. rewrite blen_cons. pose proof (blen_nonneg l). lia. }
    eapply saved_intro; [apply wrote_raw|]. by apply reads_integer.
Qed.
End save.
End spec.

(** ** Properties *)

Definition robj_ok (o : robj) : Prop :=
  match o with ORaw s => blen s < 2 ^ 31 | OInt v => LONG_MIN ≤ v ≤ LONG_MAX end.

(** C40. What rdbSaveStringObject appends to a stream, in whichever form it chooses
    (an integer, LZF or plain bytes), reads back from any stream as an object
    of the same text, by either of the loading functions, and leaves what
    follows unread; the returned count is that of the bytes; it fails only
    when a write to the stream fails (after the writes before it).  The text
    has less than 2^31 bytes, zmalloc gives a block of the asked size, and the
    uninitialised hash table of the compressor holds any positions. *)
Theorem rdb_string_roundtrip {HH : Host} {W R : Type} `{RioLaws W} `{RioLaws R} (htab : Z → Z) (malloc : Z → list Z)
    (compression : bool) (w : W) (o : robj) :
  htab_ok htab → (∀ n, 0 ≤ n → blen (malloc n) = n) → robj_ok o →
  match rdbSaveStringObject htab malloc compression w o with
  | Done (w', n) =>
      ∃ bs, rio_written w' = rio_written w ++ bs ∧ n = blen bs ∧
        ∀ (q : R) rest encode, rio_pending q = bs ++ rest →
          ∃ o' q', rdbGenericLoadStringObject q encode = Done (o', q') ∧ robj_text o' = robj_text o ∧
            rio_pending q' = rest
  | Error => refuses w
  | Undef => False
  end.
Proof.
  intros Hh Hm Ho.
  assert (saved w (robj_text o) (rdbSaveStringObject htab malloc compression w o)) as Hs.
  { destruct o as [s|v]; cbn [rdbSaveStringObject robj_text robj_ok] in *.
    - by apply rdbSaveRawString_spec.
    - rewrite (wraps_small 32) by (unlimit; lia). apply rdbSaveLongLong_spec. unlimit. lia. }
  unfold saved in Hs. destruct (rdbSaveStringObject htab malloc compression w o) as [[w' n]| |]; [|done..].
  destruct Hs as (bs & Hw & Hn & Hr). exists bs. split_and!; try done.
  intros q rest encode Hp. by eapply Hr.
Qed.

(** Twenty four times "a", compressed, through two memory buffers. *)
Lemma rdb_string_roundtrip_witness :
  let HH := little_host in
  ∃ w' o' q', rdbSaveStringObject (λ _, 0) (λ n, replicate (Z.to_nat n) 0) true (rioInitWithBuffer [])
      (ORaw (replicate 24 97)) = Done (w', 12) ∧
    rdbLoadStringObject (rioInitWithBuffer (buffer_ptr w')) = Done (o', q') ∧ robj_text o' = replicate 24 97.
Proof.
  intros HH.
  pose proof (@rdb_string_roundtrip HH rio rio _ _ _ _ (λ _, 0) (λ n, replicate (Z.to_nat n) 0) true (rioInitWithBuffer [])
    (ORaw (replicate 24 97)) zero_htab_ok) as Hrt.
  specialize (Hrt ltac:(intros n Hn; unfold blen; rewrite length_replicate; lia) ltac:(by vm_compute)).
  destruct (rdbSaveStringObject _ _ _ _ _) as [[w' n]| |] eqn:E; [|vm_compute in E; discriminate E..].
  destruct Hrt as (bs & Hw & Hn & Hr). vm_compute in E. injection E as <- <-.
  destruct (Hr (rioInitWithBuffer bs) [] false) as (o' & q' & E1 & E2 & _); [vm_compute in Hw; subst bs; by vm_compute|].
  vm_compute in Hw. eexists _, o', q'. split; [reflexivity|]. split; [|exact E2].
  cbn [buffer_ptr]. rewrite Hw. exact E1.
Defined.
