(* ===== verification/Settype.v ===== *)
(** * Sets in two encodings, and their algebra ([t_set.c])

    A set value is a block of integers (Intset.v) or a hash table (Dict.v) whose keys
    are string objects.  An object is [Rdb.robj]: a text, or an integer that stands for
    its decimal text.  The table of a set compares and hashes keys by their texts, so an
    entry has the text as its key and the object itself as its value.  Objects are not
    changed here; their counts are the subject of Db.v and Reply.v.

    The set operations go over set values in a heap, as the same value can be given
    several times.  [None] is a failing assertion or an access out of memory. *)
From S2P Require Import Prelude Endian Intset Util Dict Dictiter Rdb.
Open Scope Z_scope.

Abbreviation text := (list Z).
Abbreviation loc := positive.

(** ** String objects *)

(** [getDecodedObject]: the text of the object, which is made from [(long)o->ptr]. *)
Definition getDecodedObject (o : robj) : text :=
  match o with ORaw s => s | OInt v => ll_text (i32 v) end.

Definition isObjectRepresentableAsLongLong (o : robj) : option Z :=
  match o with OInt v => Some v | ORaw s => string2ll s end.

Definition REDIS_SHARED_INTEGERS : Z := 10000.

(** An object with other holders is left alone. *)
Definition tryObjectEncoding (shared : bool) (o : robj) : robj :=
  match o with
  | OInt _ => o
  | ORaw s =>
      if shared then o
      else if 21 <? blen s then o
      else match string2l s with None => o | Some value => OInt value end
  end.

(** ** The table of a set *)

Definition dictEncObjHash (seed : Z) (o : robj) : Z :=
  match o with
  | ORaw s => dictGenHashFunction seed s
  | OInt v => dictGenHashFunction seed (ll_text (i32 v))
  end.

Definition dictEncObjKeyCompare (o1 o2 : robj) : bool :=
  match o1, o2 with
  | OInt v1, OInt v2 => v1 =? v2
  | _, _ => bool_decide (getDecodedObject o1 = getDecodedObject o2)
  end.

(** The functions of the type only depend on the texts of the keys
    ([dictEncObj_texts] below), which are the keys here. *)
Definition setDictType (seed : Z) : dictType text :=
  DictType text (λ k, dictEncObjHash seed (ORaw k)) (λ k1 k2, dictEncObjKeyCompare (ORaw k1) (ORaw k2)).

Definition htNeedsResize {K V} (d : @dict K V) : bool :=
  let size := dictSlots d in
  let used := dictSize d in
  negb (size =? 0) && negb (used =? 0) && (DICT_HT_INITIAL_SIZE <? size) && (i64 (used * 100) `quot` size <? 10).

(** ** Set values *)

(** [robj] with the encodings [REDIS_ENCODING_INTSET] and [REDIS_ENCODING_HT]. *)
Inductive setobj :=
| SIntset (s : intset)
| SHt (d : @dict text robj).

(** What setTypeNext finds. *)
Inductive element := EInt (v : Z) | EObj (o : robj).

Section sets.
Context {H : Host}.
(** What new memory holds, the seed of the hash functions, the addresses of the tables
    and the settings of the server. *)
Context (junk : nat → Z) (junk_entry : robj) (seed : Z) (addr : Z → Z) (can_resize : bool) (set_max_intset_entries : Z).

Notation sdict := (setDictType seed).

Definition createSetObject : setobj := SHt dictCreate.
Definition createIntsetObject : setobj := SIntset intsetNew.

Definition setTypeCreate (value : robj) : setobj :=
  match isObjectRepresentableAsLongLong value with Some _ => createIntsetObject | None => createSetObject end.

Definition setTypeSize (subject : setobj) : Z :=
  match subject with SHt d => u32 (dictSize d) | SIntset s => intsetLen s end.

(** dictAdd of an object to the table of a set. *)
Definition set_dictAdd (d : @dict text robj) (value : robj) : option (@dict text robj * Z) :=
  dictAdd sdict can_resize junk_entry d (getDecodedObject value) value.

(** [while (setTypeNext(si,NULL,&intele) != -1)] of setTypeConvert. *)
Fixpoint convert_loop (fuel : nat) (s : intset) (ii : Z) (d : @dict text robj) : option (@dict text robj) :=
  '(more, intele) ← intsetGet s ii;
  if more =? 0 then Some d
  else
    match fuel with
    | O => None
    | S fuel =>
        intele ← intele;
        let element := createStringObjectFromLongLong intele in
        '(d, r) ← set_dictAdd d element;
        if r =? DICT_OK then convert_loop fuel s (i32 (ii + 1)) d else None
    end.

(** To [REDIS_ENCODING_HT], the only encoding that a set is converted to. *)
Definition setTypeConvert (subject : setobj) : option setobj :=
  match subject with
  | SIntset s =>
      let d := (dictExpand dictCreate (intsetLen s)).1 in
      d ← convert_loop (Z.to_nat (intsetLen s)) s 0 d;
      Some (SHt d)
  | SHt _ => None
  end.

Definition setTypeAdd (subject : setobj) (value : robj) : option (setobj * Z) :=
  match subject with
  | SHt d =>
      '(d, r) ← set_dictAdd d value;
      if r =? DICT_OK then Some (SHt d, 1) else Some (SHt d, 0)
  | SIntset s =>
      match isObjectRepresentableAsLongLong value with
      | Some llval =>
          '(s, success) ← intsetAdd junk s llval;
          if negb (success =? 0) then
            if set_max_intset_entries <? intsetLen s then
              subject ← setTypeConvert (SIntset s); Some (subject, 1)
            else Some (SIntset s, 1)
          else Some (SIntset s, 0)
      | None =>
          subject ← setTypeConvert (SIntset s);
          match subject with
          | SHt d =>
              '(d, r) ← set_dictAdd d value;
              if r =? DICT_OK then Some (SHt d, 1) else None
          | SIntset _ => None
          end
      end
  end.

Definition setTypeRemove (subject : setobj) (value : robj) : option (setobj * Z) :=
  match subject with
  | SHt d =>
      '(d, r) ← dictGenericDelete sdict d (getDecodedObject value);
      if r =? DICT_OK then
        Some (SHt (if htNeedsResize d then (dictResize can_resize d).1 else d), 1)
      else Some (SHt d, 0)
  | SIntset s =>
      match isObjectRepresentableAsLongLong value with
      | Some llval =>
          '(s, success) ← intsetRemove junk s llval;
          Some (SIntset s, if negb (success =? 0) then 1 else 0)
      | None => Some (SIntset s, 0)
      end
  end.

Definition setTypeIsMember (subject : setobj) (value : robj) : option (setobj * Z) :=
  match subject with
  | SHt d =>
      '(d, de) ← dictFind sdict d (getDecodedObject value);
      Some (SHt d, match de with Some _ => 1 | None => 0 end)
  | SIntset s =>
      match isObjectRepresentableAsLongLong value with
      | Some llval => found ← intsetFind s llval; Some (SIntset s, found)
      | None => Some (SIntset s, 0)
      end
  end.

(** [rs] are the values of [random()], [r] is the one of [rand()]. *)
Definition setTypeRandomElement (subject : setobj) (r : Z) (rs : list Z) : option (setobj * list Z * element) :=
  match subject with
  | SHt d =>
      '(d, rs, de) ← dictGetRandomKey sdict d rs;
      e ← de;
      Some (SHt d, rs, EObj e.2)
  | SIntset s => llele ← intsetRandom r s; Some (SIntset s, rs, EInt llele)
  end.

(** ** Iteration over a set of the heap *)

Abbreviation heap := (gmap loc setobj).

Inductive setTypeIterator :=
| IterHt (subject : loc) (di : dictIterator text)
| IterIntset (subject : loc) (ii : Z).

Definition setTypeInitIterator (h : heap) (subject : loc) : option setTypeIterator :=
  s ← h !! subject;
  match s with
  | SHt _ => Some (IterHt subject dictGetIterator)
  | SIntset _ => Some (IterIntset subject 0)
  end.

(** The element is absent when there are no more.  The value is not changed: an
    unsafe iterator writes to itself only. *)
Definition setTypeNext (h : heap) (si : setTypeIterator) : option (setTypeIterator * option element) :=
  match si with
  | IterHt subject di =>
      s ← h !! subject;
      match s with
      | SHt d =>
          '(_, di, de) ← dictNext addr d di;
          Some (IterHt subject di, match de with Some e => Some (EObj e.2) | None => None end)
      | SIntset _ => None
      end
  | IterIntset subject ii =>
      s ← h !! subject;
      match s with
      | SIntset s =>
          '(more, llele) ← intsetGet s ii;
          Some (IterIntset subject (i32 (ii + 1)), if more =? 0 then None else match llele with Some v => Some (EInt v) | None => None end)
      | SHt _ => None
      end
  end.

(** [setTypeReleaseIterator] has the fingerprint of the table checked. *)
Definition setTypeReleaseIterator (h : heap) (si : setTypeIterator) : option unit :=
  match si with
  | IterHt subject di =>
      s ← h !! subject;
      match s with
      | SHt d => _ ← dictReleaseIterator addr d di; Some tt
      | SIntset _ => None
      end
  | IterIntset _ _ => Some tt
  end.

(** The object that setTypeNextObject makes of an element. *)
Definition element_object (e : element) : robj :=
  match e with EInt v => createStringObjectFromLongLong v | EObj o => o end.

(** [while ((encoding = setTypeNext(si,...)) != -1) body], where the body works on the
    heap and on the variables of the function. *)
Fixpoint next_elements {A} (body : heap → A → element → option (heap * A)) (fuel : nat)
    (si : setTypeIterator) (h : heap) (a : A) : option (setTypeIterator * heap * A) :=
  '(si, e) ← setTypeNext h si;
  match e with
  | None => Some (si, h, a)
  | Some e =>
      match fuel with
      | O => None
      | S fuel => '(h, a) ← body h a e; next_elements body fuel si h a
      end
  end.

(** With the creation and the release of the iterator; the fuel is the size of the set. *)
Definition each_element {A} (body : heap → A → element → option (heap * A)) (subject : loc) (h : heap) (a : A) : option (heap * A) :=
  si ← setTypeInitIterator h subject;
  s ← h !! subject;
  '(si, h, a) ← next_elements body (Z.to_nat (setTypeSize s)) si h a;
  _ ← setTypeReleaseIterator h si;
  Some (h, a).

(** setTypeIsMember of a set of the heap, whose table may be rehashed. *)
Definition member_at (h : heap) (l : loc) (value : robj) : option (heap * Z) :=
  s ← h !! l;
  '(s, r) ← setTypeIsMember s value;
  Some (<[l := s]> h, r).

(** ** Union, difference and intersection *)

Definition REDIS_OP_UNION : Z := 0.
Definition REDIS_OP_DIFF : Z := 1.

(** [qsort(base,n,...)] of the C library with a comparison of set values. *)
Context (qsort : ∀ A : Type, (A → A → Z) → list A → list A).

Definition size_at (h : heap) (l : loc) : Z := match h !! l with Some s => setTypeSize s | None => 0 end.

Definition qsortCompareSetsByCardinality (h : heap) (s1 s2 : loc) : Z :=
  i32 (u32 (size_at h s1 - size_at h s2)).

Definition qsortCompareSetsByRevCardinality (h : heap) (o1 o2 : option loc) : Z :=
  i32 (u32 (from_option (size_at h) 0 o2 - from_option (size_at h) 0 o1)).

(** The body of the loops of SUNION and of the first pass of algorithm 2. *)
Definition union_body (h : heap) (a : setobj * Z) (e : element) : option (heap * (setobj * Z)) :=
  let '(dstset, cardinality) := a in
  '(dstset, r) ← setTypeAdd dstset (element_object e);
  Some (h, (dstset, if negb (r =? 0) then i32 (cardinality + 1) else cardinality)).

Fixpoint union_loop (sets : list (option loc)) (h : heap) (a : setobj * Z) : option (heap * (setobj * Z)) :=
  match sets with
  | [] => Some (h, a)
  | None :: sets => union_loop sets h a
  | Some s :: sets => '(h, a) ← each_element union_body s h a; union_loop sets h a
  end.

(** The inner loop of algorithm 1: whether [j] reaches [setnum]. *)
Fixpoint absent_loop (s0 : loc) (sets : list (option loc)) (h : heap) (ele : robj) : option (heap * bool) :=
  match sets with
  | [] => Some (h, true)
  | None :: sets => absent_loop s0 sets h ele
  | Some s :: sets =>
      if decide (s = s0) then Some (h, false)
      else
        '(h, r) ← member_at h s ele;
        if negb (r =? 0) then Some (h, false) else absent_loop s0 sets h ele
  end.

Definition diff1_body (s0 : loc) (sets : list (option loc)) (h : heap) (a : setobj * Z) (e : element) : option (heap * (setobj * Z)) :=
  let '(dstset, cardinality) := a in
  '(h, absent) ← absent_loop s0 sets h (element_object e);
  if (absent : bool) then
    '(dstset, _) ← setTypeAdd dstset (element_object e);
    Some (h, (dstset, i32 (cardinality + 1)))
  else Some (h, (dstset, cardinality)).

Definition diff2_body (h : heap) (a : setobj * Z) (e : element) : option (heap * (setobj * Z)) :=
  let '(dstset, cardinality) := a in
  '(dstset, r) ← setTypeRemove dstset (element_object e);
  Some (h, (dstset, if negb (r =? 0) then i32 (cardinality - 1) else cardinality)).

(** Algorithm 2 after the first set, which ends when nothing is left. *)
Fixpoint diff2_loop (sets : list (option loc)) (h : heap) (a : setobj * Z) : option (heap * (setobj * Z)) :=
  match sets with
  | [] => Some (h, a)
  | None :: sets => diff2_loop sets h a
  | Some s :: sets =>
      '(h, a) ← each_element diff2_body s h a;
      if a.2 =? 0 then Some (h, a) else diff2_loop sets h a
  end.

(** The work that the two algorithms need; [long long]. *)
Definition diff_work (h : heap) (s0 : loc) (sets : list (option loc)) : Z * Z :=
  foldl (λ '(one, two) s,
    match s with
    | None => (one, two)
    | Some s => (i64 (one + size_at h s0), i64 (two + size_at h s))
    end) (0, 0) sets.

Definition diff_algorithm (h : heap) (s0 : loc) (sets : list (option loc)) : Z :=
  let '(one, two) := diff_work h s0 sets in
  if one `quot` 2 <=? two then 1 else 2.

(** The part of sunionDiffGenericCommand between the lookup of the sets and the answer:
    the resulting set and [cardinality]. *)
Definition sunionDiff (op : Z) (sets : list (option loc)) (h : heap) : option (heap * (setobj * Z)) :=
  let a := (createIntsetObject, 0) in
  if op =? REDIS_OP_UNION then union_loop sets h a
  else
    match sets with
    | Some s0 :: rest =>
        if (op =? REDIS_OP_DIFF) && (diff_algorithm h s0 sets =? 1) then
          let rest := match rest with [] => [] | _ => qsort _ (qsortCompareSetsByRevCardinality h) rest end in
          each_element (diff1_body s0 rest) s0 h a
        else if (op =? REDIS_OP_DIFF) && (diff_algorithm h s0 sets =? 2) then
          '(h, a) ← each_element union_body s0 h a;
          if a.2 =? 0 then Some (h, a) else diff2_loop rest h a
        else Some (h, a)
    | _ => Some (h, a)
    end.

(** The inner loop of sinterGenericCommand: whether all the other sets have the
    element. *)
Fixpoint inter_loop (s0 : loc) (sets : list loc) (h : heap) (e : element) : option (heap * bool) :=
  match sets with
  | [] => Some (h, true)
  | s :: sets =>
      if decide (s = s0) then inter_loop s0 sets h e
      else
        setj ← h !! s;
        match e with
        | EInt intobj =>
            match setj with
            | SIntset setj =>
                found ← intsetFind setj intobj;
                if found =? 0 then Some (h, false) else inter_loop s0 sets h e
            | SHt _ =>
                '(h, r) ← member_at h s (createStringObjectFromLongLong intobj);
                if r =? 0 then Some (h, false) else inter_loop s0 sets h e
            end
        | EObj eleobj =>
            missed ← match eleobj, setj with
                     | OInt v, SIntset setj => found ← intsetFind setj (i32 v); Some (found =? 0)
                     | _, _ => Some false
                     end;
            if (missed : bool) then Some (h, false)
            else
              '(h, r) ← member_at h s eleobj;
              if r =? 0 then Some (h, false) else inter_loop s0 sets h e
        end
  end.

(** [store]: the elements are added to the target; otherwise they are answered. *)
Definition inter_body (store : bool) (s0 : loc) (sets : list loc) (h : heap) (a : setobj * list text) (e : element)
    : option (heap * (setobj * list text)) :=
  let '(dstset, answered) := a in
  '(h, all) ← inter_loop s0 sets h e;
  if (all : bool) then
    if store then '(dstset, _) ← setTypeAdd dstset (element_object e); Some (h, (dstset, answered))
    else Some (h, (dstset, answered ++ [match e with EInt v => ll_text v | EObj o => getDecodedObject o end]))
  else Some (h, (dstset, answered)).

(** The part of sinterGenericCommand between the lookup of the sets, which are all
    there, and the end: the target and the answered elements. *)
Definition sinter (store : bool) (sets : list loc) (h : heap) : option (heap * (setobj * list text)) :=
  match qsort _ (qsortCompareSetsByCardinality h) sets with
  | [] => None
  | s0 :: rest => each_element (inter_body store s0 rest) s0 h (createIntsetObject, [])
  end.

(** ** Objects and their texts *)

(** An integer object holds a [long]. *)
Definition in_long (v : Z) : Prop := LONG_MIN ≤ v ≤ LONG_MAX.
Definition elem_ok (o : robj) : Prop := match o with OInt v => in_long v | ORaw _ => True end.

Lemma i32_i64 v : in_long v → in_i64 v.
Proof. unfold in_long. unlimit. lia. Qed.

Lemma text_OInt v : in_long v → getDecodedObject (OInt v) = ll_text v.
Proof. intros Hv. unfold in_long in Hv. cbn. by rewrite wraps_small by (unlimit; lia). Qed.

Lemma ll_text_inj v w : in_i64 v → in_i64 w → ll_text v = ll_text w → v = w.
Proof. intros Hv Hw E. pose proof (string2ll_text v Hv) as Ev. rewrite E, string2ll_text in Ev by done. by injection Ev. Qed.

Lemma representable_Some o v : elem_ok o → isObjectRepresentableAsLongLong o = Some v → in_i64 v ∧ getDecodedObject o = ll_text v.
Proof.
  destruct o as [s|w]; cbn [elem_ok isObjectRepresentableAsLongLong].
  - intros _ Hs. by apply string2ll_inv in Hs.
  - intros Hw [= <-]. split; [by apply i32_i64|by apply text_OInt].
Qed.

Lemma representable_None o v : isObjectRepresentableAsLongLong o = None → in_i64 v → getDecodedObject o ≠ ll_text v.
Proof. destruct o as [s|w]; cbn; [|done]. intros Hs Hv ->. by rewrite string2ll_text in Hs. Qed.

Lemma create_elem v : in_i64 v →
  elem_ok (createStringObjectFromLongLong v) ∧ getDecodedObject (createStringObjectFromLongLong v) = ll_text v.
Proof.
  intros Hv. unfold createStringObjectFromLongLong. destruct ((LONG_MIN <=? v) && (v <=? LONG_MAX)) eqn:E; [|done].
  assert (in_long v) as Hv' by (apply andb_true_iff in E as [E1%Z.leb_le E2%Z.leb_le]; done).
  split; [done|by apply text_OInt].
Qed.

(** tryObjectEncoding keeps the text. *)
Lemma tryObjectEncoding_elem shared o : elem_ok o →
  elem_ok (tryObjectEncoding shared o) ∧ getDecodedObject (tryObjectEncoding shared o) = getDecodedObject o.
Proof.
  destruct o as [s|v]; [|done]. intros _. cbn. destruct shared; [done|]. destruct (21 <? blen s); [done|].
  destruct (string2l s) as [v|] eqn:E; [|done]. unfold string2l in E. apply bind_Some in E as (v' & E1 & E2).
  apply string2ll_inv in E1 as [Hv ->]. destruct (_ || _) eqn:Hr in E2; [done|]. injection E2 as <-.
  apply orb_false_iff in Hr as [H1%Z.ltb_ge H2%Z.ltb_ge]. rewrite (wraps_small 32) by (unlimit; lia).
  assert (in_long v') as Hv' by done. split; [done|by apply text_OInt].
Qed.

(** The table cannot tell two objects with one text apart. *)
Lemma dictEncObj_texts o1 o2 : elem_ok o1 → elem_ok o2 →
  dictEncObjHash seed o1 = dictEncObjHash seed (ORaw (getDecodedObject o1)) ∧
  dictEncObjKeyCompare o1 o2 = dictEncObjKeyCompare (ORaw (getDecodedObject o1)) (ORaw (getDecodedObject o2)).
Proof.
  intros H1 H2. split; [by destruct o1|]. destruct o1 as [s1|v1], o2 as [s2|v2]; try done. cbn [elem_ok dictEncObjKeyCompare] in *.
  rewrite !text_OInt by done. cbn [getDecodedObject]. destruct (Z.eqb_spec v1 v2) as [->|Hne]; [by rewrite bool_decide_true|].
  rewrite bool_decide_false; [done|]. intros E. apply Hne. apply ll_text_inj; [by apply i32_i64..|done].
Qed.

(** ** The set that a value stands for *)

Context (seed_ok : in_u32 seed).
Context (max_ok : 0 ≤ set_max_intset_entries ∧ 8 * (set_max_intset_entries + 2) < 2 ^ 31).

#[local] Instance set_type_ok : DictTypeOk sdict.
Proof.
  split; [intros k; by apply dictGenHashFunction_range|]. intros a b. cbn. apply bool_decide_eq_true.
Qed.

Definition entries_ok (d : @dict text robj) : Prop := map_Forall (λ k o, elem_ok o ∧ getDecodedObject o = k) (dmap d).

(** [s] is the set of the texts [T]. *)
Definition is_set (s : setobj) (T : gset text) : Prop :=
  match s with
  | SIntset s => ∃ X, models s X ∧ Z.of_nat (size X) ≤ set_max_intset_entries ∧ T = set_map ll_text X
  | SHt d => wf sdict d ∧ entries_ok d ∧ T = dom (dmap d)
  end.

Lemma models_range s X x : models s X → x ∈ X → in_i64 x.
Proof.
  intros (e & vs & R & ->). rewrite elem_of_list_to_set. intros Hx. pose proof (repr_fits _ _ _ R) as Hf. rewrite Forall_forall in Hf. by apply Hf.
Qed.

Lemma elem_of_texts s X v : models s X → in_i64 v → ll_text v ∈ (set_map ll_text X : gset text) ↔ v ∈ X.
Proof.
  intros M Hv. rewrite elem_of_map. split; [|by exists v]. intros (w & Ew & Hw). apply ll_text_inj in Ew as ->; [done|done|]. by eapply models_range.
Qed.

Lemma size_set_map (f : Z → text) (X : gset Z) : (∀ x y, x ∈ X → y ∈ X → f x = f y → x = y) → size (set_map f X : gset text) = size X.
Proof.
  induction X as [|x X Hx IH] using set_ind_L; intros Hinj; [by rewrite set_map_empty|].
  rewrite set_map_union_L, set_map_singleton_L, !size_union, !size_singleton, IH.
  - done.
  - intros a b Ha Hb. apply Hinj; set_solver.
  - set_solver.
  - apply disjoint_singleton_l. rewrite elem_of_map. intros (y & E & Hy). apply Hx. rewrite (Hinj x y); set_solver.
Qed.

Lemma texts_size s X : models s X → size (set_map ll_text X : gset text) = size X.
Proof. intros M. apply size_set_map. intros x y Hx Hy. apply ll_text_inj; by eapply models_range. Qed.

Lemma is_set_size s T : is_set s T → Z.of_nat (size T) < 2 ^ 29 → setTypeSize s = Z.of_nat (size T).
Proof.
  destruct s as [s|d]; cbn [is_set setTypeSize].
  - intros (X & M & _ & ->) _. rewrite (texts_size s X M). by apply (intsetFind_refines junk s X M).
  - intros (W & _ & ->) Ht. rewrite size_dom in *. rewrite (dictSize_dmap sdict d W), wrapu_small; [done|lia].
Qed.

Lemma createIntsetObject_empty : is_set createIntsetObject ∅.
Proof. exists ∅. split; [apply intsetNew_models|]. split; [rewrite size_empty; lia|done]. Qed.

(** ** Operations *)

Lemma ht_add d T o : is_set (SHt d) T → elem_ok o → Z.of_nat (size T) < 2 ^ 29 →
  ∃ d', set_dictAdd d o = Some (d', if decide (getDecodedObject o ∈ T) then DICT_ERR else DICT_OK) ∧
    is_set (SHt d') ({[getDecodedObject o]} ∪ T).
Proof.
  intros (W & Ok & ->) Ho Hs. rewrite size_dom in Hs. unfold set_dictAdd.
  assert (dictSize d < 2 ^ 29) as Hs' by (by rewrite (dictSize_dmap sdict d W)).
  destruct (decide (getDecodedObject o ∈ dom (dmap d))) as [Hin|Hn].
  - destruct (dictAdd_spec sdict can_resize junk_entry d (getDecodedObject o) o W Hs') as (d' & r & E & W' & [(-> & _ & Hp)|(_ & Hn & _)]).
    + exists d'. split; [done|]. assert (dmap d' = dmap d) as Hm by by apply (dmap_perm sdict).
      split; [done|]. split; [by unfold entries_ok; rewrite Hm|]. rewrite Hm. set_solver.
    + exfalso. apply Hn. apply elem_of_dom in Hin as [x Hx]. apply elem_of_list_to_map_2 in Hx. apply list_elem_of_fmap. by exists (getDecodedObject o, x).
  - apply not_elem_of_dom in Hn. destruct (dictAdd_new sdict can_resize junk_entry d _ o W Hs' Hn) as (d' & E & W' & Hm & _).
    exists d'. split; [done|]. split; [done|]. split; [|by rewrite Hm, dom_insert_L].
    unfold entries_ok. rewrite Hm. by apply map_Forall_insert_2.
Qed.

(** intsetGet in the block of a sorted sequence. *)
Lemma intsetGet_at s e vs i : repr s e vs → 0 ≤ i < 2 ^ 31 →
  intsetGet s i = match vs !! Z.to_nat i with Some v => Some (1, Some v) | None => Some (0, None) end.
Proof.
  intros R Hi. unfold intsetGet. rewrite (repr_intrev_len s e vs R).
  destruct (vs !! Z.to_nat i) as [v|] eqn:Ev.
  - pose proof (lookup_lt_Some _ _ _ Ev). rewrite (proj2 (Z.ltb_lt _ _)) by (unfold blen; lia).
    rewrite wraps_small by (unlimit; lia). by rewrite (repr_get s e vs R i v) by (done || lia).
  - apply lookup_ge_None in Ev. by rewrite (proj2 (Z.ltb_ge _ _)) by (unfold blen; lia).
Qed.

Lemma convert_loop_spec s e vs : repr s e vs → ∀ fuel ii d,
  0 ≤ ii ≤ blen vs → (Z.to_nat (blen vs - ii) ≤ fuel)%nat → is_set (SHt d) (list_to_set (ll_text <$> take (Z.to_nat ii) vs)) →
  ∃ d', convert_loop fuel s ii d = Some d' ∧ is_set (SHt d') (list_to_set (ll_text <$> vs)).
Proof.
  intros R. pose proof (repr_size _ _ _ R) as Hsz. induction fuel as [|fuel IH]; intros ii d Hii Hf Hd; cbn [convert_loop];
    rewrite (intsetGet_at s e vs ii R) by lia.
  - rewrite lookup_ge_None_2 by (unfold blen in *; lia). exists d. split; [done|]. by rewrite take_ge in Hd by (unfold blen in *; lia).
  - destruct (vs !! Z.to_nat ii) as [v|] eqn:Ev; cbn [mbind option_bind].
    2:{ exists d. split; [done|]. apply lookup_ge_None in Ev. by rewrite take_ge in Hd. }
    assert (in_i64 v) as Hv by (eapply (Forall_lookup_1 (fits e)) in Ev; [apply Ev|apply R]).
    destruct (create_elem v Hv) as [Ho Ht]. pose proof (lookup_lt_Some _ _ _ Ev) as Hlt.
    destruct (ht_add d _ (createStringObjectFromLongLong v) Hd Ho) as (d' & E & Hd').
    { rewrite size_list_to_set; [rewrite length_fmap, length_take; unfold blen in *; lia|].
      pose proof (sorted_NoDup _ (repr_sorted _ _ _ R)) as Hnd. pose proof (repr_fits _ _ _ R) as Hfit.
      rewrite <-(take_drop (Z.to_nat ii) vs) in Hnd, Hfit. apply NoDup_app in Hnd as [Hnd _]. apply Forall_app in Hfit as [Hfit _].
      rewrite Forall_forall in Hfit. apply NoDup_fmap_2_strong; [|done]. intros x y Hx Hy. by apply ll_text_inj; apply Hfit. }
    rewrite Ht in E, Hd'. rewrite decide_False in E.
    2:{ rewrite elem_of_list_to_set, list_elem_of_fmap. intros (w & Ew & Hw). apply list_elem_of_lookup in Hw as [j [Hj Hjl]%lookup_take_Some].
        apply ll_text_inj in Ew as ->; [|done|eapply (Forall_lookup_1 (fits e)) in Hj; [apply Hj|apply R]].
        pose proof (sorted_lookup_lt vs j (Z.to_nat ii) w w (repr_sorted _ _ _ R) Hj Ev Hjl). lia. }
    rewrite E. cbn [mbind option_bind DICT_OK Z.eqb].
    rewrite wraps_small by (unlimit; unfold blen in *; lia). apply IH; [unfold blen in *; lia..|].
    replace (Z.to_nat (ii + 1)) with (S (Z.to_nat ii)) by lia. rewrite (take_S_r _ _ v Ev), fmap_app, list_to_set_app_L.
    cbn [fmap list_fmap list_to_set]. by rewrite union_empty_r_L, union_comm_L.
Qed.

Lemma texts_list (vs : list Z) : (set_map ll_text (list_to_set vs : gset Z) : gset text) = list_to_set (ll_text <$> vs).
Proof. apply set_eq. intros t. rewrite elem_of_map, elem_of_list_to_set, list_elem_of_fmap. by setoid_rewrite elem_of_list_to_set. Qed.

Lemma setTypeConvert_spec s X : models s X →
  ∃ d, setTypeConvert (SIntset s) = Some (SHt d) ∧ is_set (SHt d) (set_map ll_text X).
Proof.
  intros (e & vs & R & ->). unfold setTypeConvert.
  assert (intsetLen s = blen vs) as -> by (unfold intsetLen; by rewrite (repr_intrev_len s e vs R)).
  pose proof (repr_size _ _ _ R) as Hsz.
  destruct (dictExpand_spec sdict (dictCreate : @dict text robj) (blen vs) (wf_create _) eq_refl) as (d0 & E0 & W0 & He & _).
  { cbn. unfold blen in *. lia. }
  rewrite E0. cbn [fst]. destruct (convert_loop_spec s e vs R (Z.to_nat (blen vs)) 0 d0) as (d & E & Hd).
  - unfold blen. lia.
  - lia.
  - assert (dmap d0 = ∅) as Hm by (unfold dmap; by rewrite He). split; [done|]. split; [by unfold entries_ok; rewrite Hm|]. by rewrite Hm, dom_empty_L.
  - rewrite E. cbn. exists d. split; [done|]. by rewrite texts_list.
Qed.

(** setTypeAdd adds the text, whichever encodings the set and the object have, and
    says whether it is new. *)
Lemma setTypeAdd_spec s T o : is_set s T → elem_ok o → Z.of_nat (size T) < 2 ^ 29 →
  ∃ s', setTypeAdd s o = Some (s', if decide (getDecodedObject o ∈ T) then 0 else 1) ∧ is_set s' ({[getDecodedObject o]} ∪ T).
Proof.
  destruct s as [s|d]; intros Hset Ho Hs; cbn [setTypeAdd].
  - destruct Hset as (X & M & Hm & ->). destruct (isObjectRepresentableAsLongLong o) as [v|] eqn:Ev.
    + destruct (representable_Some o v Ho Ev) as [Hv ->].
      destruct (intsetAdd_refines junk s X v M Hv) as (s' & E & M'); [unfold has_room; lia|]. rewrite E. cbn [mbind option_bind].
      destruct (bool_decide_reflect (v ∈ X)) as [Hin|Hn].
      * rewrite decide_True by (by apply (elem_of_texts s X v M)). cbn. exists (SIntset s'). split; [done|].
        replace ({[v]} ∪ X) with X in M' by set_solver. exists X. split; [done|]. split; [done|].
        apply (elem_of_texts s X v M Hv) in Hin. set_solver.
      * rewrite decide_False by (by rewrite (elem_of_texts s X v M)). cbn [Z.eqb negb].
        assert (set_map ll_text ({[v]} ∪ X) = ({[ll_text v]} ∪ set_map ll_text X : gset text)) as Et by (by rewrite set_map_union_L, set_map_singleton_L).
        assert (intsetLen s' = Z.of_nat (size ({[v]} ∪ X))) as -> by apply (intsetFind_refines junk s' _ M').
        destruct (Z.ltb_spec set_max_intset_entries (Z.of_nat (size ({[v]} ∪ X)))).
        -- destruct (setTypeConvert_spec s' _ M') as (d & E' & Hd). rewrite E'. cbn [mbind option_bind]. exists (SHt d). split; [done|]. by rewrite <-Et.
        -- exists (SIntset s'). split; [done|]. exists ({[v]} ∪ X). split; [done|]. split; [lia|done].
    + destruct (setTypeConvert_spec s X M) as (d & E & Hd). rewrite E. cbn [mbind option_bind].
      destruct (ht_add d _ o Hd Ho Hs) as (d' & E' & Hd'). rewrite E'. cbn [mbind option_bind].
      assert (getDecodedObject o ∉ (set_map ll_text X : gset text)) as Hn.
      { rewrite elem_of_map. intros (v & Ew & Hv). revert Ew. apply representable_None; [done|]. by eapply models_range. }
      rewrite !decide_False by done. cbn. by exists (SHt d').
  - destruct (ht_add d T o Hset Ho Hs) as (d' & E & Hd'). rewrite E. cbn [mbind option_bind]. exists (SHt d').
    by destruct (decide _).
Qed.

Lemma texts_decide s X v {A} (a b : A) : models s X → in_i64 v →
  (if decide (ll_text v ∈ (set_map ll_text X : gset text)) then a else b) = (if bool_decide (v ∈ X) then a else b).
Proof.
  intros M Hv. destruct (bool_decide_reflect (v ∈ X)) as [Hin|Hn]; [rewrite decide_True|rewrite decide_False]; try done;
    by rewrite (elem_of_texts s X v M Hv).
Qed.

Lemma dictResize_keeps (d : @dict text robj) T : is_set (SHt d) T → Z.of_nat (size T) < 2 ^ 29 → is_set (SHt (dictResize can_resize d).1) T.
Proof.
  intros (W & Ok & ->) Hs. unfold dictResize. destruct (negb can_resize || dictIsRehashing d) eqn:E; [done|].
  apply orb_false_iff in E as [_ Hre]. rewrite size_dom in Hs. pose proof (dictSize_dmap sdict d W) as Hsz. unfold dictSize in Hsz.
  pose proof (wf_ht_nonneg _ _ (proj1 W)). pose proof (wf_ht_nonneg _ _ (proj1 (proj2 W))). rewrite (wraps_small 32) by (unlimit; lia).
  set (n := if _ <? _ then _ else _).
  assert (ht_used (d_ht0 d) ≤ n ≤ 2 ^ 30) as Hn by (subst n; unfold DICT_HT_INITIAL_SIZE; destruct (Z.ltb_spec (ht_used (d_ht0 d)) 4); lia).
  destruct (dictExpand_spec sdict d n W Hre Hn) as (d' & -> & W' & He & _). cbn.
  assert (dmap d' = dmap d) as Hm by (unfold dmap; by rewrite He). split; [done|]. split; [by unfold entries_ok; rewrite Hm|by rewrite Hm].
Qed.

(** setTypeRemove takes the text away, and says whether it was there. *)
Lemma setTypeRemove_spec s T o : is_set s T → elem_ok o → Z.of_nat (size T) < 2 ^ 29 →
  ∃ s', setTypeRemove s o = Some (s', if decide (getDecodedObject o ∈ T) then 1 else 0) ∧ is_set s' (T ∖ {[getDecodedObject o]}).
Proof.
  destruct s as [s|d]; intros Hset Ho Hs; cbn [setTypeRemove].
  - destruct Hset as (X & M & Hm & ->). destruct (isObjectRepresentableAsLongLong o) as [v|] eqn:Ev.
    + destruct (representable_Some o v Ho Ev) as [Hv ->].
      destruct (intsetRemove_refines junk s X v M Hv) as (s' & E & M' & _). rewrite E. cbn [mbind option_bind]. exists (SIntset s').
      split.
      * rewrite (texts_decide s X v _ _ M Hv). by destruct (bool_decide _).
      * exists (X ∖ {[v]}). split; [done|]. split.
        { pose proof (subseteq_size (X ∖ {[v]}) X ltac:(set_solver)). lia. }
        apply set_eq. intros t. rewrite elem_of_difference, !elem_of_map, elem_of_singleton. split.
        -- intros [(w & -> & Hw) Hne]. exists w. split; [done|]. set_solver.
        -- intros (w & -> & Hw). apply elem_of_difference in Hw as [Hw Hne]. split; [by exists w|].
           intros E'. apply Hne. apply elem_of_singleton, ll_text_inj; [exact (models_range s X w M Hw)|done|done].
    + assert (getDecodedObject o ∉ (set_map ll_text X : gset text)) as Hn.
      { rewrite elem_of_map. intros (v & Ew & Hv). revert Ew. apply representable_None; [done|]. by eapply models_range. }
      exists (SIntset s). rewrite decide_False by done. split; [done|]. exists X. split; [done|]. split; [done|]. set_solver.
  - pose proof Hset as (W & Ok & ->). destruct (dictDelete_removed sdict d (getDecodedObject o) W) as (d' & E & W' & Hm & _).
    rewrite E. cbn [mbind option_bind].
    assert (is_set (SHt d') (dom (dmap d) ∖ {[getDecodedObject o]})) as Hd'.
    { split; [done|]. split; [|by rewrite Hm, dom_delete_L]. unfold entries_ok. rewrite Hm. by apply map_Forall_delete. }
    assert (Z.of_nat (size (dom (dmap d) ∖ {[getDecodedObject o]})) < 2 ^ 29) as Hs'.
    { pose proof (subseteq_size (dom (dmap d) ∖ {[getDecodedObject o]}) (dom (dmap d)) ltac:(set_solver)). lia. }
    destruct (decide (is_Some (dmap d !! getDecodedObject o))) as [Hin|Hn]; cbn [DICT_OK DICT_ERR Z.eqb].
    + rewrite decide_True by by apply elem_of_dom. destruct (htNeedsResize d').
      * eexists. split; [done|]. by apply dictResize_keeps.
      * eexists. split; [done|]. done.
    + rewrite decide_False by by rewrite elem_of_dom. by exists (SHt d').
Qed.

Lemma setTypeIsMember_spec s T o : is_set s T → elem_ok o →
  ∃ s', setTypeIsMember s o = Some (s', if decide (getDecodedObject o ∈ T) then 1 else 0) ∧ is_set s' T ∧
    match s with SIntset _ => s' = s | SHt _ => True end.
Proof.
  destruct s as [s|d]; intros Hset Ho; cbn [setTypeIsMember].
  - pose proof Hset as (X & M & Hm & ->). destruct (isObjectRepresentableAsLongLong o) as [v|] eqn:Ev.
    + destruct (representable_Some o v Ho Ev) as [Hv ->]. rewrite (proj1 (intsetFind_refines junk s X M) v Hv). cbn [mbind option_bind].
      exists (SIntset s). split; [|done]. by rewrite (texts_decide s X v _ _ M Hv).
    + exists (SIntset s). rewrite decide_False; [done|].
      rewrite elem_of_map. intros (v & Ew & Hv). revert Ew. apply representable_None; [done|]. by eapply models_range.
  - pose proof Hset as (W & Ok & ->). destruct (dictFind_kept sdict d (getDecodedObject o) W) as (d' & p & E & (W' & Hm & _) & Hp).
    rewrite E. cbn [mbind option_bind]. exists (SHt d'). split.
    + do 2 f_equal. destruct p as [p|].
      * destruct Hp as (x & _ & Hx & _). rewrite decide_True; [done|]. apply elem_of_dom. by exists x.
      * rewrite decide_False; [done|]. by apply not_elem_of_dom.
    + split; [|done]. split; [done|]. split; [by unfold entries_ok; rewrite Hm|by rewrite Hm].
Qed.

(** ** Iteration *)

(** The elements in the order of the iterator. *)
Definition elements_of (s : setobj) (L : list element) : Prop :=
  match s with
  | SIntset s => ∃ e vs, repr s e vs ∧ L = EInt <$> vs
  | SHt d => L = (λ e, EObj e.2) <$> all_entries d
  end.

Definition element_text (e : element) : text := getDecodedObject (element_object e).
Definition element_ok (e : element) : Prop := match e with EInt v => in_i64 v | EObj o => elem_ok o end.

Lemma element_object_ok e : element_ok e → elem_ok (element_object e).
Proof. destruct e as [v|o]; cbn; [|done]. intros Hv. by apply create_elem. Qed.

(** They are the texts of the set, each once. *)
Definition lists (s : setobj) (T : gset text) (L : list element) : Prop :=
  elements_of s L ∧ Forall element_ok L ∧ NoDup (element_text <$> L) ∧ T = list_to_set (element_text <$> L).

Lemma elements_texts s T : is_set s T → ∃ L, lists s T L.
Proof.
  unfold lists.
  destruct s as [s|d].
  - intros (X & (e & vs & R & ->) & _ & ->). exists (EInt <$> vs). pose proof (repr_fits _ _ _ R) as Hf.
    assert (Forall in_i64 vs) as Hi by (eapply Forall_impl; [exact Hf|]; by intros x [? _]).
    assert (element_text <$> (EInt <$> vs) = ll_text <$> vs) as Ht.
    { rewrite <-list_fmap_compose. apply list_fmap_ext. intros i x Hx. apply create_elem. by eapply (Forall_lookup_1 in_i64). }
    split; [by exists e, vs|]. split; [by apply Forall_fmap|]. rewrite Ht. split; [|apply texts_list].
    apply NoDup_fmap_2_strong; [|by eapply sorted_NoDup, R]. rewrite Forall_forall in Hi. intros x y Hx Hy. apply ll_text_inj; by apply Hi.
  - intros (W & Ok & ->). eexists. split; [done|]. 
    assert (∀ e, e ∈ all_entries d → elem_ok e.2 ∧ getDecodedObject e.2 = e.1) as He.
    { intros e Hin. apply (Ok e.1). apply (dmap_Some sdict); [done|]. by destruct e. }
    assert (element_text <$> ((λ e, EObj e.2) <$> all_entries d) = (all_entries d).*1) as Ht.
    { rewrite <-list_fmap_compose. apply list_fmap_ext. intros i e Hx. apply He. by eapply list_elem_of_lookup_2. }
    split; [apply Forall_fmap, Forall_forall; intros e Hin; by apply He|]. rewrite Ht. split; [apply W|].
    unfold dmap. by rewrite dom_list_to_map_L.
Qed.

(** The iterator of a set that is not changed has still to visit [rem]. *)
Definition iterating (h : heap) (l : loc) (s : setobj) (si : setTypeIterator) (rem : list element) : Prop :=
  match s, si with
  | SHt d, IterHt l' di =>
      l' = l ∧ wf sdict d ∧ it_safe di = false ∧ (started di = true → it_fingerprint di = dictFingerprint addr d) ∧
      ∃ es, iter_ok d di es ∧ rem = (λ e, EObj e.2) <$> es
  | SIntset s, IterIntset l' ii =>
      l' = l ∧ ∃ e vs, repr s e vs ∧ 0 ≤ ii ≤ blen vs ∧ rem = EInt <$> drop (Z.to_nat ii) vs
  | _, _ => False
  end.

(** After the last element the iterator can be released. *)
Definition releasable (l : loc) (s : setobj) (si : setTypeIterator) : Prop :=
  match s, si with
  | SHt d, IterHt l' di => l' = l ∧ it_safe di = false ∧ started di = true ∧ it_fingerprint di = dictFingerprint addr d
  | SIntset _, IterIntset _ _ => True
  | _, _ => False
  end.

Lemma iterating_heap h h' l s si rem : iterating h l s si rem → iterating h' l s si rem.
Proof. done. Qed.

Lemma setTypeInitIterator_spec h l s T L : h !! l = Some s → is_set s T → elements_of s L →
  ∃ si, setTypeInitIterator h l = Some si ∧ iterating h l s si L.
Proof.
  intros Hl Hs HL. unfold setTypeInitIterator. rewrite Hl. cbn [mbind option_bind]. destruct s as [s|d].
  - destruct HL as (e & vs & R & ->). eexists. split; [done|]. split; [done|]. exists e, vs. split; [done|]. split; [unfold blen; lia|done].
  - rewrite HL. eexists. split; [done|]. split; [done|]. split; [apply Hs|]. split; [done|]. split; [done|].
    exists (all_entries d). split; [by apply iter_fresh|done].
Qed.

Lemma setTypeNext_spec h l s si rem : h !! l = Some s → iterating h l s si rem →
  ∃ si', match rem with
         | [] => setTypeNext h si = Some (si', None) ∧ releasable l s si'
         | e :: rem => setTypeNext h si = Some (si', Some e) ∧ iterating h l s si' rem
         end.
Proof.
  intros Hl I. destruct s as [s|d], si as [l' di|l' ii]; try done; cbn [setTypeNext].
  - destruct I as (-> & e & vs & R & Hii & ->). rewrite Hl. cbn [mbind option_bind]. pose proof (repr_size _ _ _ R).
    rewrite (intsetGet_at s e vs ii R) by lia. destruct (vs !! Z.to_nat ii) as [v|] eqn:Ev.
    + rewrite (drop_S _ v _ Ev). cbn. eexists. split; [done|]. split; [done|]. exists e, vs.
      pose proof (lookup_lt_Some _ _ _ Ev). rewrite wraps_small by (unlimit; unfold blen in *; lia). split; [done|].
      split; [unfold blen in *; lia|]. do 2 f_equal. lia.
    + apply lookup_ge_None in Ev. rewrite drop_ge by done. by eexists.
  - destruct I as (-> & W & Hs & Hf & es & Io & ->). rewrite Hl. cbn [mbind option_bind].
    destruct (dictNext_spec sdict addr d di es W Io) as (di' & (K1 & K2 & K3) & Hn).
    assert (counted d di = d) as Hc by (unfold counted; by rewrite Hs, andb_false_r). rewrite Hc in Hn.
    assert (it_fingerprint di' = dictFingerprint addr d) as Hfp.
    { rewrite K3, Hs. destruct (started di); [by apply Hf|done]. }
    destruct es as [|e es]; cbn [fmap list_fmap].
    + rewrite Hn. eexists. split; [done|]. split; [done|]. split; [congruence|done].
    + destruct Hn as [Hn Io']. rewrite Hn. eexists. split; [done|]. split; [done|]. split; [done|]. split; [congruence|].
      split; [done|]. by exists es.
Qed.

Lemma setTypeRelease_spec h l s si : h !! l = Some s → releasable l s si → setTypeReleaseIterator h si = Some tt.
Proof.
  intros Hl R. destruct s as [s|d], si as [l' di|l' ii]; try done. destruct R as (-> & Hs & Hst & Hf). cbn. rewrite Hl. cbn [mbind option_bind].
  unfold dictReleaseIterator. unfold started in Hst. by rewrite Hst, Hs, Hf, Z.eqb_refl.
Qed.

Lemma next_elements_spec {A} (body : heap → A → element → option (heap * A)) (Q : list element → heap → A → Prop) l s :
  ∀ fuel rem si h a, h !! l = Some s → iterating h l s si rem → (length rem ≤ fuel)%nat → Q rem h a →
  (∀ h a e rem', h !! l = Some s → (∃ pre, rem = pre ++ e :: rem') → Q (e :: rem') h a →
     ∃ h' a', body h a e = Some (h', a') ∧ h' !! l = Some s ∧ Q rem' h' a') →
  ∃ si' h' a', next_elements body fuel si h a = Some (si', h', a') ∧ h' !! l = Some s ∧ releasable l s si' ∧ Q [] h' a'.
Proof.
  induction fuel as [|fuel IH]; intros rem si h a Hl I Hf HQ Hb; destruct (setTypeNext_spec h l s si rem Hl I) as (si' & Hn); cbn [next_elements].
  - destruct rem as [|e rem]; [|simpl in Hf; lia]. destruct Hn as [-> Hr]. by exists si', h, a.
  - destruct rem as [|e rem]; destruct Hn as [-> Hn]; cbn [mbind option_bind]; [by exists si', h, a|].
    destruct (Hb h a e rem Hl) as (h1 & a1 & -> & Hl1 & Q1); [by exists []|done|]. cbn [mbind option_bind].
    apply (IH rem si' h1 a1 Hl1); [done|simpl in Hf; lia|done|]. intros h2 a2 e2 rem2 Hl2 (pre & ->) Q2.
    apply Hb; [done| |done]. by exists (e :: pre).
Qed.

(** A loop over a set runs its body once for each element, when the body leaves the
    set as it is. *)
Lemma each_element_spec {A} (body : heap → A → element → option (heap * A)) l s T h a L (Q : list element → heap → A → Prop) :
  h !! l = Some s → is_set s T → Z.of_nat (size T) < 2 ^ 29 → lists s T L → Q L h a →
  (∀ h a e rem, h !! l = Some s → (∃ pre, L = pre ++ e :: rem) → Q (e :: rem) h a →
     ∃ h' a', body h a e = Some (h', a') ∧ h' !! l = Some s ∧ Q rem h' a') →
  ∃ h' a', each_element body l h a = Some (h', a') ∧ h' !! l = Some s ∧ Q [] h' a'.
Proof.
  intros Hl Hs Ht (HL & _ & Hnd & HT) HQ Hb. unfold each_element.
  destruct (setTypeInitIterator_spec h l s T L Hl Hs HL) as (si & -> & I). cbn [mbind option_bind]. rewrite Hl. cbn [mbind option_bind].
  rewrite (is_set_size s T Hs Ht).
  destruct (next_elements_spec body Q l s (Z.to_nat (Z.of_nat (size T))) L si h a Hl I) as (si' & h' & a' & -> & Hl' & R & Q'); [|done|done|].
  { rewrite HT, size_list_to_set, length_fmap by done. lia. }
  cbn [mbind option_bind]. rewrite (setTypeRelease_spec h' l s si' Hl' R). by exists h', a'.
Qed.

(** ** Sets of the heap *)

(** The heap has the sets [G] at their addresses. *)
Definition has_sets (h : heap) (G : gmap loc (gset text)) : Prop :=
  map_Forall (λ l T, (∃ s, h !! l = Some s ∧ is_set s T) ∧ Z.of_nat (size T) < 2 ^ 29) G.

(** A key that does not exist is an empty set. *)
Definition set_at (G : gmap loc (gset text)) (o : option loc) : gset text :=
  match o with Some l => default ∅ (G !! l) | None => ∅ end.
Definition known (G : gmap loc (gset text)) (o : option loc) : Prop := match o with Some l => is_Some (G !! l) | None => True end.
Definition texts_of (L : list element) : gset text := list_to_set (element_text <$> L).

Lemma texts_cons e L : texts_of (e :: L) = {[element_text e]} ∪ texts_of L.
Proof. done. Qed.

Lemma has_sets_put h G l s T : has_sets h G → G !! l = Some T → is_set s T → has_sets (<[l := s]> h) G.
Proof.
  intros Hg Hl Hs l' T' Hl'. destruct (Hg l' T' Hl') as [(s' & Hs' & Hset) Hsz]. split; [|done].
  destruct (decide (l' = l)) as [->|Hne]; [|exists s'; by rewrite lookup_insert_ne].
  exists s. rewrite lookup_insert_eq. split; [done|]. congruence.
Qed.

Lemma member_at_spec h G l T o : has_sets h G → G !! l = Some T → elem_ok o →
  ∃ h', member_at h l o = Some (h', if decide (getDecodedObject o ∈ T) then 1 else 0) ∧ has_sets h' G ∧
    ∀ l', l' ≠ l → h' !! l' = h !! l'.
Proof.
  intros Hg Hl Ho. destruct (Hg l T Hl) as [(s & Hs & Hset) _]. unfold member_at. rewrite Hs. cbn [mbind option_bind].
  destruct (setTypeIsMember_spec s T o Hset Ho) as (s' & E & Hset' & _). rewrite E. cbn [mbind option_bind].
  exists (<[l := s']> h). split; [done|]. split; [by eapply has_sets_put|]. intros l' Hne. by rewrite lookup_insert_ne.
Qed.

(** The element at which a loop is, among the others of its list. *)
Lemma listed_element s T L pre e rem : lists s T L → L = pre ++ e :: rem →
  element_ok e ∧ element_text e ∈ T ∧ element_text e ∉ texts_of rem.
Proof.
  intros (_ & Hok & Hnd & ->) ->. apply Forall_app in Hok as [_ Hok]. apply Forall_cons in Hok as [Hok _]. split; [done|].
  rewrite fmap_app in *. cbn [fmap list_fmap] in *. apply NoDup_app in Hnd as (_ & _ & Hnd). apply NoDup_cons in Hnd as [Hn _].
  split; [|by unfold texts_of; rewrite elem_of_list_to_set]. rewrite elem_of_list_to_set. apply elem_of_app. right. by left.
Qed.

Lemma size_add (t : text) (U : gset text) : t ∉ U → Z.of_nat (size ({[t]} ∪ U)) = Z.of_nat (size U) + 1.
Proof. intros Hn. rewrite size_union by set_solver. rewrite size_singleton. lia. Qed.

Lemma size_le (A B : gset text) : A ⊆ B → Z.of_nat (size A) ≤ Z.of_nat (size B).
Proof. intros Hs%subseteq_size. lia. Qed.

(** The accumulator of the loops: a set and its size. *)
Definition counted_set (a : setobj * Z) (U : gset text) : Prop := is_set a.1 U ∧ a.2 = Z.of_nat (size U).

Lemma counted_add a U o : counted_set a U → elem_ok o → Z.of_nat (size ({[getDecodedObject o]} ∪ U)) < 2 ^ 29 →
  ∃ s r, setTypeAdd a.1 o = Some (s, r) ∧
    counted_set (s, if negb (r =? 0) then i32 (a.2 + 1) else a.2) ({[getDecodedObject o]} ∪ U).
Proof.
  intros [Ha Hc] Ho Hs. pose proof (size_le U ({[getDecodedObject o]} ∪ U) ltac:(set_solver)).
  destruct (setTypeAdd_spec a.1 U o Ha Ho ltac:(lia)) as (s & E & Hset). eexists s, _. split; [exact E|]. split; [exact Hset|]. cbn [snd].
  destruct (decide (getDecodedObject o ∈ U)) as [Hin|Hn]; cbn.
  - by replace ({[getDecodedObject o]} ∪ U) with U by set_solver.
  - rewrite size_add in * by done. rewrite Hc, wraps_small by (unlimit; lia). done.
Qed.

Lemma counted_remove a U o : counted_set a U → elem_ok o → Z.of_nat (size U) < 2 ^ 29 →
  ∃ s r, setTypeRemove a.1 o = Some (s, r) ∧
    counted_set (s, if negb (r =? 0) then i32 (a.2 - 1) else a.2) (U ∖ {[getDecodedObject o]}).
Proof.
  intros [Ha Hc] Ho Hs. destruct (setTypeRemove_spec a.1 U o Ha Ho Hs) as (s & E & Hset). eexists s, _. split; [exact E|]. split; [exact Hset|]. cbn [snd].
  destruct (decide (getDecodedObject o ∈ U)) as [Hin|Hn]; cbn.
  - assert (size U = S (size (U ∖ {[getDecodedObject o]}))) as Hu.
    { rewrite (union_difference_singleton_L (getDecodedObject o) U Hin) at 1. rewrite size_union by set_solver. by rewrite size_singleton. }
    rewrite Hc, wraps_small by (unlimit; lia). lia.
  - by replace (U ∖ {[getDecodedObject o]}) with U by set_solver.
Qed.

(** One pass of the union. *)
Lemma each_union h G l T a U : has_sets h G → G !! l = Some T → counted_set a U → Z.of_nat (size (U ∪ T)) < 2 ^ 29 →
  ∃ a', each_element union_body l h a = Some (h, a') ∧ counted_set a' (U ∪ T).
Proof.
  intros Hg Hl Ha Hsz. destruct (Hg l T Hl) as [(s & Hs & Hset) Ht]. destruct (elements_texts s T Hset) as (L & HL).
  destruct (each_element_spec union_body l s T h a L (λ rem h' a, h' = h ∧ counted_set a (U ∪ (T ∖ texts_of rem)))) as (h' & a' & E & _ & -> & Ha'); try done.
  - split; [done|]. destruct HL as (_ & _ & _ & ->). change (list_to_set (element_text <$> L)) with (texts_of L). by replace (U ∪ (texts_of L ∖ texts_of L)) with U by set_solver.
  - intros h1 a1 e rem Hl1 (pre & Hpre) [-> Ha1]. destruct (listed_element s T L pre e rem HL Hpre) as (He & Hin & Hn).
    destruct (counted_add a1 _ (element_object e) Ha1 (element_object_ok e He)) as (s' & r & E & Hc).
    { pose proof (size_le ({[getDecodedObject (element_object e)]} ∪ (U ∪ T ∖ texts_of (e :: rem))) (U ∪ T)
        ltac:(fold (element_text e); set_solver)). lia. }
    unfold union_body. destruct a1 as [dst card]. cbn [fst snd] in *. rewrite E. cbn [mbind option_bind]. eexists h, _. split; [done|]. split; [done|].
    split; [done|]. fold (element_text e) in Hc. rewrite texts_cons in Hc.
    by replace (U ∪ (T ∖ texts_of rem)) with ({[element_text e]} ∪ (U ∪ (T ∖ ({[element_text e]} ∪ texts_of rem)))) by
      (apply set_eq; intros x; destruct (decide (x = element_text e)); set_solver).
  - exists a'. split; [done|]. cbn in Ha'. by replace (U ∪ T) with (U ∪ (T ∖ ∅)) by set_solver.
Qed.

(** One pass of algorithm 2. *)
Lemma each_diff2 h G l T a U : has_sets h G → G !! l = Some T → counted_set a U → Z.of_nat (size U) < 2 ^ 29 →
  ∃ a', each_element diff2_body l h a = Some (h, a') ∧ counted_set a' (U ∖ T).
Proof.
  intros Hg Hl Ha Hsz. destruct (Hg l T Hl) as [(s & Hs & Hset) Ht]. destruct (elements_texts s T Hset) as (L & HL).
  destruct (each_element_spec diff2_body l s T h a L (λ rem h' a, h' = h ∧ counted_set a (U ∖ (T ∖ texts_of rem)))) as (h' & a' & E & _ & -> & Ha'); try done.
  - split; [done|]. destruct HL as (_ & _ & _ & ->). change (list_to_set (element_text <$> L)) with (texts_of L). by replace (U ∖ (texts_of L ∖ texts_of L)) with U by set_solver.
  - intros h1 a1 e rem Hl1 (pre & Hpre) [-> Ha1]. destruct (listed_element s T L pre e rem HL Hpre) as (He & Hin & Hn).
    destruct (counted_remove a1 _ (element_object e) Ha1 (element_object_ok e He)) as (s' & r & E & Hc).
    { pose proof (size_le (U ∖ (T ∖ texts_of (e :: rem))) U ltac:(set_solver)). lia. }
    unfold diff2_body. destruct a1 as [dst card]. cbn [fst snd] in *. rewrite E. cbn [mbind option_bind]. eexists h, _. split; [done|]. split; [done|].
    split; [done|]. fold (element_text e) in Hc. rewrite texts_cons in Hc.
    by replace (U ∖ (T ∖ texts_of rem)) with ((U ∖ (T ∖ ({[element_text e]} ∪ texts_of rem))) ∖ {[element_text e]}) by
      (apply set_eq; intros x; destruct (decide (x = element_text e)); set_solver).
  - exists a'. split; [done|]. cbn in Ha'. by replace (U ∖ T) with (U ∖ (T ∖ ∅)) by set_solver.
Qed.

(** *** Union *)

Definition union_of (G : gmap loc (gset text)) (sets : list (option loc)) : gset text := ⋃ (set_at G <$> sets).

Lemma union_of_cons G o sets : union_of G (o :: sets) = set_at G o ∪ union_of G sets.
Proof. done. Qed.
Lemma union_of_nil G : union_of G [] = ∅.
Proof. done. Qed.

Lemma union_loop_spec h G sets : has_sets h G → Forall (known G) sets → ∀ a U,
  counted_set a U → Z.of_nat (size (U ∪ union_of G sets)) < 2 ^ 29 →
  ∃ a', union_loop sets h a = Some (h, a') ∧ counted_set a' (U ∪ union_of G sets).
Proof.
  intros Hg. induction sets as [|o sets IH]; intros Hk a U Ha Hsz; cbn [union_loop]; rewrite ?union_of_nil, ?union_of_cons in *.
  - exists a. split; [done|]. by replace (U ∪ ∅) with U by set_solver.
  - apply Forall_cons in Hk as [Ho Hk]. destruct o as [l|]; cbn [set_at] in *.
    + destruct Ho as [T HT]. rewrite HT in *. cbn [default Datatypes.id] in *. rewrite (assoc_L (∪)) in *.
      destruct (each_union h G l T a U Hg HT Ha) as (a1 & E & Ha1).
      { pose proof (size_le (U ∪ T) (U ∪ T ∪ union_of G sets) ltac:(set_solver)). lia. }
      rewrite E. cbn [mbind option_bind]. by apply IH.
    + rewrite (left_id_L ∅ (∪)) in *. by apply IH.
Qed.

(** *** Difference *)

Lemma absent_loop_spec l0 G T0 e sets : G !! l0 = Some T0 → Forall (known G) sets → element_ok e → element_text e ∈ T0 → ∀ h, has_sets h G →
  ∃ h', absent_loop l0 sets h (element_object e) = Some (h', bool_decide (element_text e ∉ union_of G sets)) ∧ has_sets h' G ∧ h' !! l0 = h !! l0.
Proof.
  intros H0 Hk He Hin. induction sets as [|o sets IH]; intros h Hg; cbn [absent_loop]; rewrite ?union_of_nil, ?union_of_cons in *.
  - exists h. rewrite bool_decide_true by set_solver. done.
  - apply Forall_cons in Hk as [Ho Hk]. destruct o as [l|]; cbn [set_at] in *.
    2:{ destruct (IH Hk h Hg) as (h' & E & Hg' & Hl). exists h'. rewrite E. split; [|done]. do 2 f_equal. apply bool_decide_ext. set_solver. }
    destruct (decide (l = l0)) as [->|Hne].
    { exists h. split; [|done]. rewrite H0. cbn [default Datatypes.id]. by rewrite bool_decide_false by set_solver. }
    destruct Ho as [T HT]. rewrite HT. cbn [default Datatypes.id].
    destruct (member_at_spec h G l T (element_object e) Hg HT (element_object_ok e He)) as (h1 & E & Hg1 & Hl1).
    fold (element_text e) in E. rewrite E. cbn [mbind option_bind].
    destruct (decide (element_text e ∈ T)) as [Hi|Hn]; cbn [Z.eqb negb].
    + exists h1. rewrite bool_decide_false by set_solver. split; [done|]. split; [done|]. by apply Hl1.
    + destruct (IH Hk h1 Hg1) as (h' & E' & Hg' & Hl). exists h'. rewrite E'. split; [|split; [done|by rewrite Hl, Hl1]].
      do 2 f_equal. apply bool_decide_ext. set_solver.
Qed.

(** Algorithm 1. *)
Lemma each_diff1 h G l0 T0 sets : has_sets h G → G !! l0 = Some T0 → Forall (known G) sets →
  ∃ h' a', each_element (diff1_body l0 sets) l0 h (createIntsetObject, 0) = Some (h', a') ∧ has_sets h' G ∧
    counted_set a' (T0 ∖ union_of G sets).
Proof.
  intros Hg Hl Hk. set (R := union_of G sets). destruct (Hg l0 T0 Hl) as [(s & Hs & Hset) Ht]. destruct (elements_texts s T0 Hset) as (L & HL).
  destruct (each_element_spec (diff1_body l0 sets) l0 s T0 h (createIntsetObject, 0) L
    (λ rem h' a, has_sets h' G ∧ counted_set a ((T0 ∖ R) ∖ texts_of rem))) as (h' & a' & E & _ & Hg' & Ha'); try done.
  - split; [done|]. destruct HL as (_ & _ & _ & ->). change (list_to_set (element_text <$> L)) with (texts_of L).
    replace (texts_of L ∖ R ∖ texts_of L) with (∅ : gset text) by set_solver. split; [apply createIntsetObject_empty|done].
  - intros h1 a1 e rem Hl1 (pre & Hpre) [Hg1 Ha1]. destruct (listed_element s T0 L pre e rem HL Hpre) as (He & Hin & Hn).
    destruct (absent_loop_spec l0 G T0 e sets Hl Hk He Hin h1 Hg1) as (h2 & E2 & Hg2 & Hl2). fold R in E2.
    unfold diff1_body. destruct a1 as [dst card]. rewrite E2. cbn [mbind option_bind].
    destruct (bool_decide_reflect (element_text e ∉ R)) as [Hr|Hr].
    + assert (element_text e ∉ (T0 ∖ R) ∖ texts_of (e :: rem)) as Hnew by (rewrite texts_cons; set_solver).
      assert ((T0 ∖ R) ∖ texts_of rem = {[element_text e]} ∪ ((T0 ∖ R) ∖ texts_of (e :: rem))) as Heq.
      { rewrite texts_cons. apply set_eq. intros x. destruct (decide (x = element_text e)); set_solver. }
      destruct Ha1 as [Ha1 Hc1]. cbn [fst snd] in *.
      assert (Z.of_nat (size ((T0 ∖ R) ∖ texts_of rem)) < 2 ^ 29) as Hsz.
      { pose proof (size_le ((T0 ∖ R) ∖ texts_of rem) T0 ltac:(set_solver)). lia. }
      rewrite Heq, size_add in Hsz by done.
      destruct (setTypeAdd_spec dst _ (element_object e) Ha1 (element_object_ok e He) ltac:(lia)) as (s' & E & Hset').
      rewrite E. cbn [mbind option_bind]. eexists h2, _. split; [done|]. split; [congruence|]. split; [done|]. rewrite Heq.
      split; [exact Hset'|]. cbn [snd]. rewrite size_add by done. rewrite Hc1, wraps_small by (unlimit; lia). done.
    + eexists h2, _. split; [done|]. split; [congruence|]. split; [done|].
      assert (element_text e ∈ R) as Hr' by (destruct (decide (element_text e ∈ R)); [done|by exfalso; apply Hr]).
      replace ((T0 ∖ R) ∖ texts_of rem) with ((T0 ∖ R) ∖ texts_of (e :: rem)); [done|].
      rewrite texts_cons. apply set_eq. intros x. destruct (decide (x = element_text e)); set_solver.
  - exists h', a'. split; [done|]. split; [done|]. cbn in Ha'. by replace (T0 ∖ R) with ((T0 ∖ R) ∖ ∅) by set_solver.
Qed.

Lemma size_zero (U : gset text) : Z.of_nat (size U) = 0 → U = ∅.
Proof. intros Hs. apply leibniz_equiv, size_empty_inv. lia. Qed.

(** Algorithm 2. *)
Lemma diff2_loop_spec h G sets : has_sets h G → Forall (known G) sets → ∀ a U,
  counted_set a U → Z.of_nat (size U) < 2 ^ 29 →
  ∃ a', diff2_loop sets h a = Some (h, a') ∧ counted_set a' (U ∖ union_of G sets).
Proof.
  intros Hg. induction sets as [|o sets IH]; intros Hk a U Ha Hsz; cbn [diff2_loop]; rewrite ?union_of_nil, ?union_of_cons in *.
  - exists a. split; [done|]. by replace (U ∖ ∅) with U by set_solver.
  - apply Forall_cons in Hk as [Ho Hk]. destruct o as [l|]; cbn [set_at] in *.
    + destruct Ho as [T HT]. rewrite HT in *. cbn [default Datatypes.id] in *. rewrite <-difference_difference_l_L.
      destruct (each_diff2 h G l T a U Hg HT Ha Hsz) as (a1 & E & Ha1). rewrite E. cbn [mbind option_bind].
      pose proof (size_le (U ∖ T) U ltac:(set_solver)).
      destruct (Z.eqb_spec a1.2 0) as [Hz|Hz]; [|apply IH; [done|done|lia]].
      exists a1. split; [done|]. destruct Ha1 as [Ha1 Hc]. rewrite Hc in Hz. apply size_zero in Hz.
      split; rewrite Hz in *; by replace (∅ ∖ union_of G sets) with (∅ : gset text) by set_solver.
    + rewrite (left_id_L ∅ (∪)). by apply IH.
Qed.

Lemma diff_algorithm_cases h s0 sets : diff_algorithm h s0 sets = 1 ∨ diff_algorithm h s0 sets = 2.
Proof. unfold diff_algorithm. destruct (diff_work h s0 sets) as [one two]. destruct (_ <=? _); auto. Qed.

(** What is known of qsort: it gives a permutation. *)
Context (qsort_perm : ∀ A (cmp : A → A → Z) l, qsort A cmp l ≡ₚ l).

Lemma union_perm (G : gmap loc (gset text)) l l' : l ≡ₚ l' → union_of G l = union_of G l'.
Proof. intros Hp. unfold union_of. apply set_eq. intros x. rewrite !elem_of_union_list. by setoid_rewrite Hp. Qed.

(** SUNION and SDIFF compute the union and the difference of the sets, whatever the
    encodings, the repetitions and the algorithm that is chosen. *)
Lemma sunionDiff_spec op sets h G : has_sets h G → Forall (known G) sets → op = REDIS_OP_UNION ∨ op = REDIS_OP_DIFF →
  (op = REDIS_OP_UNION → Z.of_nat (size (union_of G sets)) < 2 ^ 29) →
  ∃ h' a, sunionDiff op sets h = Some (h', a) ∧ has_sets h' G ∧
    counted_set a (if op =? REDIS_OP_UNION then union_of G sets
                   else match sets with o :: rest => set_at G o ∖ union_of G rest | [] => ∅ end).
Proof.
  intros Hg Hk Hop Hsz. unfold sunionDiff.
  assert (counted_set (createIntsetObject, 0) ∅) as H0 by (split; [apply createIntsetObject_empty|done]).
  destruct (Z.eqb_spec op REDIS_OP_UNION) as [Hu|Hu].
  - destruct (union_loop_spec h G sets Hg Hk _ ∅ H0) as (a & E & Ha); rewrite (left_id_L ∅ (∪)) in *; [by apply Hsz|]. by exists h, a.
  - destruct Hop as [Hop| ->]; [done|]. destruct sets as [|o rest]; [|destruct o as [s0|]].
    + by exists h, (createIntsetObject, 0).
    + apply Forall_cons in Hk as [[T0 H1] Hk]. cbn [set_at]. rewrite H1. cbn [default Datatypes.id].
      destruct (diff_algorithm_cases h s0 (Some s0 :: rest)) as [-> | ->]; cbn [Z.eqb andb REDIS_OP_DIFF].
      * set (rest' := match rest with [] => [] | _ => _ end).
        assert (rest' ≡ₚ rest) as Hp by (subst rest'; destruct rest; [done|apply qsort_perm]).
        destruct (each_diff1 h G s0 T0 rest' Hg H1) as (h' & a' & E & Hg' & Ha'); [by rewrite Hp|].
        exists h', a'. split; [exact E|]. split; [done|]. by rewrite <-(union_perm G rest' rest Hp).
      * destruct (Hg s0 T0 H1) as [_ Ht]. destruct (each_union h G s0 T0 _ ∅ Hg H1 H0) as (a1 & E & Ha1); rewrite (left_id_L ∅ (∪)) in *; [done|].
        rewrite E. cbn [mbind option_bind]. destruct (Z.eqb_spec a1.2 0) as [Hz|Hz].
        -- exists h, a1. split; [done|]. split; [done|]. destruct Ha1 as [Ha1 Hc]. rewrite Hc in Hz. apply size_zero in Hz.
           split; rewrite Hz in *; by replace (∅ ∖ union_of G rest) with (∅ : gset text) by set_solver.
        -- destruct (diff2_loop_spec h G rest Hg Hk a1 T0 Ha1 Ht) as (a' & E' & Ha'). exists h, a'. done.
    + exists h, (createIntsetObject, 0). split; [done|]. split; [done|]. cbn [set_at]. by replace (∅ ∖ union_of G rest) with (∅ : gset text) by set_solver.
Qed.

(** *** Intersection *)

(** The text is in every set of the list. *)
Definition in_all (G : gmap loc (gset text)) (sets : list loc) (t : text) : Prop := Forall (λ l, t ∈ set_at G (Some l)) sets.
#[local] Instance in_all_dec G sets t : Decision (in_all G sets t) := _.

Lemma intsetFind_at s X v : models s X → in_i64 v → intsetFind s v = Some (if bool_decide (ll_text v ∈ (set_map ll_text X : gset text)) then 1 else 0).
Proof.
  intros M Hv. rewrite (proj1 (intsetFind_refines junk s X M) v Hv). by rewrite (bool_decide_ext _ _ (elem_of_texts s X v M Hv)).
Qed.

(** The test of one set gives the same answer on each of its paths. *)
Lemma inter_loop_spec l0 G T0 e sets : G !! l0 = Some T0 → Forall (λ l, is_Some (G !! l)) sets → element_ok e → element_text e ∈ T0 → ∀ h, has_sets h G →
  ∃ h', inter_loop l0 sets h e = Some (h', bool_decide (in_all G sets (element_text e))) ∧ has_sets h' G ∧ h' !! l0 = h !! l0.
Proof.
  intros H0 Hk He Hin. induction sets as [|l sets IH]; intros h Hg; cbn [inter_loop].
  - exists h. rewrite bool_decide_true by apply Forall_nil_2. done.
  - apply Forall_cons in Hk as [[T HT] Hk].
    assert (in_all G (l :: sets) (element_text e) ↔ element_text e ∈ T ∧ in_all G sets (element_text e)) as Hall.
    { unfold in_all. rewrite Forall_cons. cbn [set_at]. by rewrite HT. }
    assert (∀ h1, has_sets h1 G → h1 !! l0 = h !! l0 → element_text e ∈ T →
      ∃ h', inter_loop l0 sets h1 e = Some (h', bool_decide (in_all G (l :: sets) (element_text e))) ∧ has_sets h' G ∧ h' !! l0 = h !! l0) as Hgo.
    { intros h1 Hg1 Hl1 Hi. destruct (IH Hk h1 Hg1) as (h' & E & Hg' & Hl'). exists h'. rewrite E. split; [|split; [done|congruence]].
      do 2 f_equal. apply bool_decide_ext. tauto. }
    assert (∀ h1, has_sets h1 G → h1 !! l0 = h !! l0 → element_text e ∉ T →
      ∃ h', Some (h1, false) = Some (h', bool_decide (in_all G (l :: sets) (element_text e))) ∧ has_sets h' G ∧ h' !! l0 = h !! l0) as Hstop.
    { intros h1 Hg1 Hl1 Hi. exists h1. rewrite bool_decide_false by tauto. done. }
    destruct (decide (l = l0)) as [->|Hne]; [apply Hgo; [done|done|congruence]|].
    destruct (Hg l T HT) as [(s & Hs & Hset) _]. rewrite Hs. cbn [mbind option_bind].
    assert (∀ o, elem_ok o → getDecodedObject o = element_text e →
      ∃ h', ('(h, r) ← member_at h l o; if r =? 0 then Some (h, false) else inter_loop l0 sets h e) =
        Some (h', bool_decide (in_all G (l :: sets) (element_text e))) ∧ has_sets h' G ∧ h' !! l0 = h !! l0) as Hobj.
    { intros o Ho Hot. destruct (member_at_spec h G l T o Hg HT Ho) as (h1 & E & Hg1 & Hl1). rewrite E, Hot. cbn [mbind option_bind].
      destruct (decide (element_text e ∈ T)) as [Hi|Hn]; cbn [Z.eqb]; [apply Hgo|apply Hstop]; auto. }
    destruct e as [v|o].
    + destruct (create_elem v He) as [Ho Hot]. destruct s as [s|d]; [|by apply Hobj].
      destruct Hset as (X & M & _ & ->). rewrite (intsetFind_at s X v M He). cbn [mbind option_bind].
      change (element_text (EInt v)) with (getDecodedObject (createStringObjectFromLongLong v)) in *. rewrite Hot in *.
      destruct (bool_decide_reflect (ll_text v ∈ (set_map ll_text X : gset text))); cbn [Z.eqb]; [by apply Hgo|by apply Hstop].
    + change (element_text (EObj o)) with (getDecodedObject o) in *. cbn [element_ok] in He.
      assert (∃ b : bool, match o, s with
                   | OInt v, SIntset setj => found ← intsetFind setj (i32 v); Some (found =? 0)
                   | _, _ => Some false
                   end = Some b ∧ (b = true → getDecodedObject o ∉ T)) as (b & -> & Hb).
      { destruct o as [t|v]; [by exists false|]. destruct s as [s|d]; [|by exists false]. destruct Hset as (X & M & _ & ->).
        cbn [elem_ok] in He. assert (i32 v = v) as -> by (apply wraps_small; unfold in_long in He; unlimit; lia).
        rewrite (intsetFind_at s X v M (i32_i64 v He)). cbn [mbind option_bind]. eexists. split; [done|].
        rewrite text_OInt by done. by destruct (bool_decide_reflect (ll_text v ∈ (set_map ll_text X : gset text))). }
      cbn [mbind option_bind]. destruct b; [apply Hstop; auto|]. by apply Hobj.
Qed.

(** The elements of the first set that are in all the others. *)
Definition inter_of (G : gmap loc (gset text)) (sets : list loc) : gset text :=
  match sets with [] => ∅ | l :: rest => filter (in_all G rest) (set_at G (Some l)) end.

Lemma elem_of_inter G sets t : sets ≠ [] → t ∈ inter_of G sets ↔ in_all G sets t.
Proof. destruct sets as [|l rest]; [done|]. intros _. cbn [inter_of]. rewrite elem_of_filter. unfold in_all. rewrite Forall_cons. split; intros [Ha Hb]; by split. Qed.

Lemma inter_perm G sets sets' : sets ≡ₚ sets' → inter_of G sets = inter_of G sets'.
Proof.
  intros Hp. destruct sets as [|l rest]; [by apply Permutation_nil in Hp as ->|].
  assert (sets' ≠ []) as Hne by (intros ->; by apply symmetry, Permutation_nil in Hp).
  apply set_eq. intros t. rewrite !elem_of_inter by done. unfold in_all. by rewrite Hp.
Qed.

(** SINTER and SINTERSTORE compute the intersection of the sets. *)
Lemma sinter_spec store sets h G : has_sets h G → Forall (λ l, is_Some (G !! l)) sets → sets ≠ [] →
  ∃ h' dst ans, sinter store sets h = Some (h', (dst, ans)) ∧ has_sets h' G ∧
    if store then is_set dst (inter_of G sets) ∧ ans = []
    else is_set dst ∅ ∧ NoDup ans ∧ list_to_set ans = inter_of G sets.
Proof.
  intros Hg Hk Hne. unfold sinter. set (sets' := qsort _ _ sets). assert (sets' ≡ₚ sets) as Hp by apply qsort_perm.
  rewrite <-(inter_perm G sets' sets Hp). rewrite <-Hp in Hk. clearbody sets'.
  destruct sets' as [|l0 rest]; [by apply Permutation_nil in Hp|]. clear Hp Hne sets. apply Forall_cons in Hk as [[T0 H1] Hk].
  destruct (Hg l0 T0 H1) as [(s & Hs & Hset) Ht]. destruct (elements_texts s T0 Hset) as (L & HL).
  assert (inter_of G (l0 :: rest) = filter (in_all G rest) T0) as -> by (cbn [inter_of set_at]; by rewrite H1). set (R := filter (in_all G rest) T0).
  assert (∀ x, x ∈ R ↔ x ∈ T0 ∧ in_all G rest x) as HR by (intros x; subst R; rewrite elem_of_filter; tauto).
  destruct (each_element_spec (inter_body store l0 rest) l0 s T0 h (createIntsetObject, []) L
    (λ rem h' a, has_sets h' G ∧ if store then is_set a.1 (R ∖ texts_of rem) ∧ a.2 = []
                               else is_set a.1 ∅ ∧ NoDup a.2 ∧ list_to_set a.2 = R ∖ texts_of rem)) as (h' & a' & E & _ & Hg' & Ha'); try done.
  - split; [done|]. assert (R ∖ texts_of L = ∅) as ->.
    { destruct HL as (_ & _ & _ & HT). change (list_to_set (element_text <$> L)) with (texts_of L) in HT. set_solver. }
    destruct store; (split; [apply createIntsetObject_empty|]); [done|]. split; [constructor|done].
  - intros h1 a1 e rem Hl1 (pre & Hpre) [Hg1 Ha1]. destruct (listed_element s T0 L pre e rem HL Hpre) as (He & Hin & Hn).
    destruct (inter_loop_spec l0 G T0 e rest H1 Hk He Hin h1 Hg1) as (h2 & E2 & Hg2 & Hl2). unfold inter_body. destruct a1 as [dst ans].
    rewrite E2. cbn [mbind option_bind fst snd] in *. destruct (bool_decide_reflect (in_all G rest (element_text e))) as [Hr|Hr].
    + assert (R ∖ texts_of rem = {[element_text e]} ∪ (R ∖ texts_of (e :: rem))) as Heq.
      { rewrite texts_cons. pose proof (proj2 (HR (element_text e)) (conj Hin Hr)). apply set_eq. intros x. destruct (decide (x = element_text e)); set_solver. }
      destruct store.
      * destruct Ha1 as [Ha1 ->]. destruct (setTypeAdd_spec dst _ (element_object e) Ha1 (element_object_ok e He)) as (s' & E & Hset').
        { pose proof (size_le (R ∖ texts_of (e :: rem)) T0) as Hle. specialize (Hle ltac:(intros x [Hx _]%elem_of_difference; by apply HR)). lia. }
        rewrite E. cbn [mbind option_bind]. eexists h2, _. split; [done|]. split; [congruence|]. split; [done|]. rewrite Heq. done.
      * destruct Ha1 as (Ha1 & Hnd & Hans). eexists h2, _. split; [done|]. split; [congruence|]. split; [done|]. split; [done|]. cbn [snd].
        assert (match e with EInt v => ll_text v | EObj o => getDecodedObject o end = element_text e) as ->.
        { destruct e as [v|o]; [|done]. symmetry. by apply create_elem. }
        split.
        -- apply NoDup_app. split; [done|]. split; [|apply NoDup_singleton]. intros x Hx Hx'. apply list_elem_of_singleton in Hx' as ->.
           assert (element_text e ∈ R ∖ texts_of (e :: rem)) as Hx2 by (rewrite <-Hans; by apply elem_of_list_to_set). rewrite texts_cons in Hx2. set_solver.
        -- rewrite list_to_set_app_L, Hans, Heq. cbn [list_to_set]. set_solver.
    + eexists h2, _. split; [done|]. split; [congruence|]. split; [done|].
      assert (R ∖ texts_of rem = R ∖ texts_of (e :: rem)) as ->; [|done].
      rewrite texts_cons. apply set_eq. intros x. pose proof (HR x). destruct (decide (x = element_text e)) as [->|]; set_solver.
  - destruct a' as [dst ans]. exists h', dst, ans. split; [done|]. split; [done|]. cbn [fst snd texts_of fmap list_fmap list_to_set] in Ha'.
    replace (R ∖ ∅) with R in Ha' by set_solver. done.
Qed.

Lemma setTypeRandomElement_spec s T r rs s' rs' e : is_set s T → Z.of_nat (size T) < 2 ^ 29 → T ≠ ∅ → Forall random_value rs → in_long r →
  setTypeRandomElement s r rs = Some (s', rs', e) → is_set s' T ∧ element_ok e ∧ element_text e ∈ T.
Proof.
  intros Hset Hs Hne Hr Hrr. destruct s as [s|d]; cbn [setTypeRandomElement]; intros E.
  - apply bind_Some in E as (v & E & [= <- <- <-]). split; [done|]. destruct Hset as (X & M & _ & ->).
    pose proof M as (en & vs & R & HX). unfold intsetRandom in E. rewrite (repr_intrev_len s en vs R) in E.
    destruct (Z.eqb_spec (blen vs) 0) as [Hz|Hz]; [done|]. pose proof (repr_size _ _ _ R) as Hsz.
    assert (0 ≤ u32 r mod blen vs < blen vs) as Hm by (apply Z.mod_pos_bound; unfold blen in *; lia).
    rewrite wraps_small in E by (unlimit; lia).
    destruct (lookup_lt_is_Some_2 vs (Z.to_nat (u32 r mod blen vs))) as [w Hw]; [unfold blen in *; lia|].
    rewrite (repr_get s en vs R _ w) in E by (done || lia). injection E as ->.
    assert (v ∈ X) as Hv by (rewrite HX, elem_of_list_to_set; by eapply list_elem_of_lookup_2).
    pose proof (models_range s X v M Hv) as Hi. split; [done|]. unfold element_text. cbn [element_object].
    rewrite (proj2 (create_elem v Hi)). by apply (elem_of_texts s X v M Hi).
  - apply bind_Some in E as ([[d' rs1] de] & E & Hde). apply bind_Some in Hde as (en & -> & [= <- <- <-]).
    destruct Hset as (W & Ok & ->). assert (dictSize d < 2 ^ 29) as Hs' by (by rewrite (dictSize_dmap sdict d W), <-size_dom).
    assert (all_entries d ≠ []) as Hn by (intros E0; apply Hne; unfold dmap; rewrite E0; apply dom_empty_L).
    destruct (dictGetRandomKey_in sdict d rs d' rs1 _ W Hs' Hn Hr E) as ((W' & Hm & _) & _ & _ & en' & [= <-] & Hin).
    assert (dmap d !! en.1 = Some en.2) as Hl by (apply (dmap_Some sdict); [done|by destruct en]).
    destruct (Ok _ _ Hl) as [Ho Ht]. split; [|split; [done|]].
    + split; [done|]. split; [by unfold entries_ok; rewrite Hm|by rewrite Hm].
    + unfold element_text. cbn [element_object]. rewrite Ht. apply elem_of_dom. by eexists.
Qed.
End sets.

(** ** Properties *)

(** C17. A set value implements a set of texts: adding, removing and testing an object
    do so by its text and say whether the set had it, and the size is the number of
    texts, whether the value is a block of integers or a hash table, whether the object
    is encoded as an integer or not, and also when an operation converts or resizes the
    value. *)
Theorem set_type_refines {H : Host} junk junk_entry seed can_resize max s T o :
  in_u32 seed → 0 ≤ max ∧ 8 * (max + 2) < 2 ^ 31 → is_set seed max s T → elem_ok o → Z.of_nat (size T) < 2 ^ 29 →
  let t := getDecodedObject o in
  (∃ s', setTypeAdd junk junk_entry seed can_resize max s o = Some (s', if decide (t ∈ T) then 0 else 1) ∧ is_set seed max s' ({[t]} ∪ T)) ∧
  (∃ s', setTypeRemove junk seed can_resize s o = Some (s', if decide (t ∈ T) then 1 else 0) ∧ is_set seed max s' (T ∖ {[t]})) ∧
  (∃ s', setTypeIsMember seed s o = Some (s', if decide (t ∈ T) then 1 else 0) ∧ is_set seed max s' T) ∧
  setTypeSize s = Z.of_nat (size T).
Proof.
  intros Hseed Hmax Hset Ho Hs t. split; [|split; [|split]].
  - by apply (setTypeAdd_spec junk junk_entry seed id).
  - by apply (setTypeRemove_spec junk seed id).
  - destruct (setTypeIsMember_spec junk seed _ Hseed s T o Hset Ho) as (s' & E & Hs' & _). by exists s'.
  - exact (is_set_size junk seed id max Hseed Hmax s T Hset Hs).
Qed.

(** C6. The set operations compute union, difference and intersection of the sets at the
    given addresses (a missing key is an empty set for the first two), for every mixture
    of encodings, with sets given more than once, with either algorithm of the
    difference, and in any order that qsort leaves; the operands stay the same sets, and
    the number that is answered is the size of the result. *)
Theorem set_algebra {H : Host} junk junk_entry seed addr can_resize max (qsort : ∀ A : Type, (A → A → Z) → list A → list A) h G :
  in_u32 seed → 0 ≤ max ∧ 8 * (max + 2) < 2 ^ 31 → (∀ A (cmp : A → A → Z) l, qsort A cmp l ≡ₚ l) → has_sets seed max h G →
  (∀ sets, Forall (known G) sets → Z.of_nat (size (union_of G sets)) < 2 ^ 29 →
     ∃ h' dst, sunionDiff junk junk_entry seed addr can_resize max qsort REDIS_OP_UNION sets h = Some (h', (dst, Z.of_nat (size (union_of G sets)))) ∧
       is_set seed max dst (union_of G sets) ∧ has_sets seed max h' G) ∧
  (∀ o rest, Forall (known G) (o :: rest) → let D := set_at G o ∖ union_of G rest in
     ∃ h' dst, sunionDiff junk junk_entry seed addr can_resize max qsort REDIS_OP_DIFF (o :: rest) h = Some (h', (dst, Z.of_nat (size D))) ∧
       is_set seed max dst D ∧ has_sets seed max h' G) ∧
  (∀ l rest, Forall (λ l, is_Some (G !! l)) (l :: rest) → ∃ I : gset text, (∀ t, t ∈ I ↔ Forall (λ l, t ∈ set_at G (Some l)) (l :: rest)) ∧
     (∃ h' dst, sinter junk junk_entry seed addr can_resize max qsort true (l :: rest) h = Some (h', (dst, [])) ∧
        is_set seed max dst I ∧ has_sets seed max h' G) ∧
     (∃ h' dst ans, sinter junk junk_entry seed addr can_resize max qsort false (l :: rest) h = Some (h', (dst, ans)) ∧
        NoDup ans ∧ list_to_set ans = I ∧ has_sets seed max h' G)).
Proof.
  intros Hseed Hmax Hq Hg. split; [|split].
  - intros sets Hk Hs. destruct (sunionDiff_spec junk junk_entry seed addr can_resize max qsort Hseed Hmax Hq REDIS_OP_UNION sets h G Hg Hk)
      as (h' & [dst n] & E & Hg' & [Ha Hc]); [by left|done|]. cbn in Ha, Hc. subst n. by exists h', dst.
  - intros o rest Hk D. destruct (sunionDiff_spec junk junk_entry seed addr can_resize max qsort Hseed Hmax Hq REDIS_OP_DIFF (o :: rest) h G Hg Hk)
      as (h' & [dst n] & E & Hg' & [Ha Hc]); [by right|done|]. cbn in Ha, Hc. subst n. by exists h', dst.
  - intros l rest Hk. exists (inter_of G (l :: rest)). split; [intros t; by apply elem_of_inter|]. split.
    + destruct (sinter_spec junk junk_entry seed addr can_resize max qsort Hseed Hmax Hq true (l :: rest) h G Hg Hk) as (h' & dst & ans & E & Hg' & Ha & ->); [done|].
      by exists h', dst.
    + destruct (sinter_spec junk junk_entry seed addr can_resize max qsort Hseed Hmax Hq false (l :: rest) h G Hg Hk) as (h' & dst & ans & E & Hg' & _ & Hn & Ha); [done|].
      by exists h', dst, ans.
Qed.

(** ** Witnesses *)

#[local] Existing Instance little_host.
Definition demo_junk : nat → Z := λ _, 165.
Definition demo_add (s : setobj) (o : robj) : setobj := default s (fst <$> setTypeAdd demo_junk (ORaw []) 5 true 2 s o).
(** The integers 7 and 300, and the same with a text. *)
Definition demo_ints : setobj := demo_add (demo_add createIntsetObject (OInt 7)) (ORaw [51; 48; 48]).
Definition demo_mixed : setobj := demo_add (demo_add createSetObject (OInt 7)) (ORaw [97]).
Definition demo_sets : gmap loc setobj := <[1%positive := demo_ints]> {[2%positive := demo_mixed]}.
Definition demo_G : gmap loc (gset text) := <[1%positive := {[[55]; [51; 48; 48]]}]> {[2%positive := {[[55]; [97]]}]}.

Lemma sample_seed : in_u32 5.
Proof. done. Qed.

Lemma demo_add_set s T o : is_set 5 2 s T → elem_ok o → Z.of_nat (size T) < 2 ^ 29 → is_set 5 2 (demo_add s o) ({[getDecodedObject o]} ∪ T).
Proof.
  intros Hs Ho Ht. destruct (setTypeAdd_spec demo_junk (ORaw []) 5 id true 2 sample_seed ltac:(lia) s T o Hs Ho Ht) as (s' & E & Hs').
  unfold demo_add. by rewrite E.
Qed.

Lemma demo_ints_set : is_set 5 2 demo_ints {[[55]; [51; 48; 48]]}.
Proof.
  pose proof (demo_add_set _ ∅ (OInt 7) (createIntsetObject_empty 5 2 ltac:(lia)) ltac:(done) ltac:(done)) as H1.
  pose proof (demo_add_set _ _ (ORaw [51; 48; 48]) H1 ltac:(done) ltac:(done)) as H2. unfold demo_ints.
  cbn [getDecodedObject] in *. change (ll_text (i32 7)) with [55] in *. by replace ({[[55]; [51; 48; 48]]} : gset text) with ({[[51; 48; 48]]} ∪ ({[[55]]} ∪ ∅) : gset text) by set_solver.
Qed.

Lemma demo_mixed_set : is_set 5 2 demo_mixed {[[55]; [97]]}.
Proof.
  assert (is_set 5 2 createSetObject ∅) as H0.
  { split; [apply wf_create|]. assert (dmap (dictCreate : @dict text robj) = ∅) as Hm by done. split; [unfold entries_ok; by rewrite Hm|by rewrite Hm, dom_empty_L]. }
  pose proof (demo_add_set _ ∅ (OInt 7) H0 ltac:(done) ltac:(done)) as H1.
  pose proof (demo_add_set _ _ (ORaw [97]) H1 ltac:(done) ltac:(done)) as H2. unfold demo_mixed.
  cbn [getDecodedObject] in *. change (ll_text (i32 7)) with [55] in *. by replace ({[[55]; [97]]} : gset text) with ({[[97]]} ∪ ({[[55]]} ∪ ∅) : gset text) by set_solver.
Qed.

Lemma demo_has_sets : has_sets 5 2 demo_sets demo_G.
Proof.
  apply map_Forall_insert_2; [|apply map_Forall_singleton].
  - split; [|by vm_compute]. exists demo_ints. split; [done|apply demo_ints_set].
  - split; [|by vm_compute]. exists demo_mixed. split; [done|apply demo_mixed_set].
Qed.

(** The text 300 does not fit any more: the third element converts the block. *)
Lemma set_type_refines_witness :
  is_set 5 2 demo_ints {[[55]; [51; 48; 48]]} ∧
  ∃ s', setTypeAdd demo_junk (ORaw []) 5 true 2 demo_ints (ORaw [97]) = Some (s', 1) ∧ is_set 5 2 s' ({[[97]]} ∪ {[[55]; [51; 48; 48]]}).
Proof.
  split; [exact demo_ints_set|].
  destruct (set_type_refines demo_junk (ORaw []) 5 true 2 demo_ints {[[55]; [51; 48; 48]]} (ORaw [97])) as ((s' & E & Hs) & _).
  - done.
  - lia.
  - exact demo_ints_set.
  - done.
  - by vm_compute.
  - exists s'. split; [exact E|exact Hs].
Defined.

Definition demo_sort (A : Type) (cmp : A → A → Z) (l : list A) : list A := reverse l.

Lemma set_algebra_witness :
  ∃ h' dst ans, sinter demo_junk (ORaw []) 5 id true 2 demo_sort false [1%positive; 2%positive] demo_sets = Some (h', (dst, ans)) ∧
    list_to_set ans = ({[[55]]} : gset text) ∧ has_sets 5 2 h' demo_G.
Proof.
  destruct (set_algebra demo_junk (ORaw []) 5 id true 2 demo_sort demo_sets demo_G) as (_ & _ & HI).
  - done.
  - lia.
  - intros A cmp l. apply reverse_Permutation.
  - exact demo_has_sets.
  - destruct (HI 1%positive [2%positive]) as (I & HI1 & _ & (h' & dst & ans & E & _ & Hans & Hg)).
    { apply Forall_cons; split; [by eexists|]. apply Forall_cons; split; [by eexists|apply Forall_nil_2]. }
    exists h', dst, ans. split; [exact E|]. split; [|exact Hg]. rewrite Hans. apply set_eq. intros t. rewrite HI1, !Forall_cons.
    change (set_at demo_G (Some 1%positive)) with ({[[55]; [51; 48; 48]]} : gset text).
    change (set_at demo_G (Some 2%positive)) with ({[[55]; [97]]} : gset text).
    rewrite !elem_of_union, !elem_of_singleton. split.
    + intros ([-> | ->] & [? | ?] & _); done.
    + intros ->. split; [by left|]. split; [by left|apply Forall_nil_2].
Defined.
