(* ===== verification/Bitops.v ===== *)
(** * Bit operations on strings ([bitops.c])

    A string is the list of its bytes; its address [a] matters only for the alignment.
    [long] has 32 bits, so a word has 4 bytes, which are read and written in little
    endian order.  [None] is an access out of the string, or a failing assertion. *)
From S2P Require Import Prelude.
Open Scope Z_scope.

Abbreviation text := (list Z).

(** ** Counting bits *)

Definition bitsinbyte : list Z :=
  [0; 1; 1; 2; 1; 2; 2; 3; 1; 2; 2; 3; 2; 3; 3; 4; 1; 2; 2; 3; 2; 3; 3; 4; 2; 3; 3; 4; 3; 4; 4; 5;
   1; 2; 2; 3; 2; 3; 3; 4; 2; 3; 3; 4; 3; 4; 4; 5; 2; 3; 3; 4; 3; 4; 4; 5; 3; 4; 4; 5; 4; 5; 5; 6;
   1; 2; 2; 3; 2; 3; 3; 4; 2; 3; 3; 4; 3; 4; 4; 5; 2; 3; 3; 4; 3; 4; 4; 5; 3; 4; 4; 5; 4; 5; 5; 6;
   2; 3; 3; 4; 3; 4; 4; 5; 3; 4; 4; 5; 4; 5; 5; 6; 3; 4; 4; 5; 4; 5; 5; 6; 4; 5; 5; 6; 5; 6; 6; 7;
   1; 2; 2; 3; 2; 3; 3; 4; 2; 3; 3; 4; 3; 4; 4; 5; 2; 3; 3; 4; 3; 4; 4; 5; 3; 4; 4; 5; 4; 5; 5; 6;
   2; 3; 3; 4; 3; 4; 4; 5; 3; 4; 4; 5; 4; 5; 5; 6; 3; 4; 4; 5; 4; 5; 5; 6; 4; 5; 5; 6; 5; 6; 6; 7;
   2; 3; 3; 4; 3; 4; 4; 5; 3; 4; 4; 5; 4; 5; 5; 6; 3; 4; 4; 5; 4; 5; 5; 6; 4; 5; 5; 6; 5; 6; 6; 7;
   3; 4; 4; 5; 4; 5; 5; 6; 4; 5; 5; 6; 5; 6; 6; 7; 4; 5; 5; 6; 5; 6; 6; 7; 5; 6; 6; 7; 6; 7; 7; 8].

(** [bits += bitsinbyte[*p++]]. *)
Definition count_byte (s : text) (p bits : Z) : option Z :=
  b ← mget s p;
  n ← bitsinbyte !! Z.to_nat b;
  Some (u64 (bits + n)).

(** [while((unsigned long)p & 3 && count)]. *)
Fixpoint popcount_unaligned (fuel : nat) (a : Z) (s : text) (p count bits : Z) : option (Z * Z * Z) :=
  if negb (Z.land (u32 (a + p)) 3 =? 0) && negb (count =? 0) then
    match fuel with
    | O => None
    | S fuel => bits ← count_byte s p bits; popcount_unaligned fuel a s (p + 1) (i32 (count - 1)) bits
    end
  else Some (p, count, bits).

(** [*p4]. *)
Definition load_word (s : text) (p : Z) : option Z := w ← mload s p 4; Some (le_dec w).

(** The two lines for each of [aux1] to [aux4], and its term of the sum. *)
Definition popcount_word (aux : Z) : Z :=
  let aux := u32 (aux - Z.land (Z.shiftr aux 1) 0x55555555) in
  let aux := u32 (Z.land aux 0x33333333 + Z.land (Z.shiftr aux 2) 0x33333333) in
  Z.shiftr (u32 (Z.land (u32 (aux + Z.shiftr aux 4)) 0x0F0F0F0F * 0x01010101)) 24.

(** [while(count>=16)]. *)
Fixpoint popcount_words (fuel : nat) (s : text) (p count bits : Z) : option (Z * Z * Z) :=
  if 16 <=? count then
    match fuel with
    | O => None
    | S fuel =>
        aux1 ← load_word s p;
        aux2 ← load_word s (p + 4);
        aux3 ← load_word s (p + 8);
        aux4 ← load_word s (p + 12);
        let sum := u32 (u32 (u32 (popcount_word aux1 + popcount_word aux2) + popcount_word aux3) + popcount_word aux4) in
        popcount_words fuel s (p + 16) (i32 (count - 16)) (u64 (bits + sum))
    end
  else Some (p, count, bits).

(** [while(count--)]. *)
Fixpoint popcount_rest (fuel : nat) (s : text) (p count bits : Z) : option Z :=
  if count =? 0 then Some bits
  else
    match fuel with
    | O => None
    | S fuel => bits ← count_byte s p bits; popcount_rest fuel s (p + 1) (i32 (count - 1)) bits
    end.

(** At most three bytes are not aligned; the other loops make progress in [s]. *)
Definition redisPopcount (a : Z) (s : text) (p count : Z) : option Z :=
  '(p, count, bits) ← popcount_unaligned 3 a s p count 0;
  '(p, count, bits) ← popcount_words (length s) s p count bits;
  popcount_rest (length s) s p count bits.

(** ** The first bit of a kind *)

Fixpoint bitpos_unaligned (fuel : nat) (a : Z) (s : text) (skipval c count pos : Z) : option (Z * Z * Z) :=
  if negb (Z.land (u32 (a + c)) 3 =? 0) && negb (count =? 0) then
    b ← mget s c;
    if negb (b =? skipval) then Some (c, count, pos)
    else
      match fuel with
      | O => None
      | S fuel => bitpos_unaligned fuel a s skipval (c + 1) (i32 (count - 1)) (i32 (pos + 8))
      end
  else Some (c, count, pos).

Fixpoint bitpos_words (fuel : nat) (s : text) (skipval l count pos : Z) : option (Z * Z * Z) :=
  if 4 <=? u64 count then
    w ← load_word s l;
    if negb (w =? skipval) then Some (l, count, pos)
    else
      match fuel with
      | O => None
      | S fuel => bitpos_words fuel s skipval (l + 4) (i32 (count - 4)) (i32 (pos + 32))
      end
  else Some (l, count, pos).

(** The word, with its first byte as the most significant one, padded with zeros. *)
Fixpoint bitpos_load (j : nat) (s : text) (c count word : Z) : option Z :=
  match j with
  | O => Some word
  | S j =>
      let word := u32 (Z.shiftl word 8) in
      if negb (count =? 0) then b ← mget s c; bitpos_load j s (c + 1) (i32 (count - 1)) (Z.lor word b)
      else bitpos_load j s c count word
  end.

(** [while(one)], over the 32 positions of [one]. *)
Fixpoint bitpos_scan (fuel : nat) (word bit one pos : Z) : option Z :=
  if one =? 0 then None
  else
    match fuel with
    | O => None
    | S fuel =>
        if (if Z.land one word =? 0 then 0 else 1) =? bit then Some pos
        else bitpos_scan fuel word bit (Z.shiftr one 1) (i32 (pos + 1))
    end.

Definition ULONG_MAX : Z := 2 ^ 32 - 1.

Definition redisBitpos (a : Z) (s : text) (p count bit : Z) : option Z :=
  let skipval := if negb (bit =? 0) then 0 else 255 in
  '(c, count, pos) ← bitpos_unaligned 3 a s skipval p count 0;
  let skipval := if negb (bit =? 0) then 0 else ULONG_MAX in
  '(c, count, pos) ← bitpos_words (length s) s skipval c count pos;
  word ← bitpos_load 4 s c count 0;
  if (bit =? 1) && (word =? 0) then Some (-1)
  else bitpos_scan 32 word bit (u32 (Z.lnot (Z.shiftr ULONG_MAX 1))) pos.

(** ** BITOP *)

Definition BITOP_AND : Z := 0.
Definition BITOP_OR : Z := 1.
Definition BITOP_XOR : Z := 2.
Definition BITOP_NOT : Z := 3.

(** The operation on two words or bytes. *)
Definition bit_op (op x y : Z) : Z :=
  if op =? BITOP_AND then Z.land x y
  else if op =? BITOP_OR then Z.lor x y
  else if op =? BITOP_XOR then Z.lxor x y
  else x.

(** The lookups: [j = 0 || len[j] < minlen] only for a key that exists. *)
Fixpoint bitop_lens (objects : list (option text)) (first : bool) (maxlen minlen : Z) : Z * Z :=
  match objects with
  | [] => (maxlen, minlen)
  | None :: objects => bitop_lens objects false maxlen 0
  | Some o :: objects =>
      let len := i32 (blen o) in
      bitop_lens objects false (if maxlen <? len then len else maxlen) (if first || (len <? minlen) then len else minlen)
  end.

(** [lres[k] op= lp[i][k]]; [lres] and all [lp[i]] are at the byte [j]. *)
Definition fast_word (op j : Z) (src res : text) (k : Z) : option text :=
  x ← load_word res (j + 4 * k);
  y ← load_word src (j + 4 * k);
  mstore res (j + 4 * k) (le_enc 4 (bit_op op x y)).

Definition fast_not (j : Z) (res : text) (k : Z) : option text :=
  x ← load_word res (j + 4 * k);
  mstore res (j + 4 * k) (le_enc 4 (u32 (Z.lnot x))).

(** The four words of each of the other sources. *)
Fixpoint fast_sources (op j : Z) (srcs : list text) (res : text) : option text :=
  match srcs with
  | [] => Some res
  | src :: srcs =>
      res ← fast_word op j src res 0;
      res ← fast_word op j src res 1;
      res ← fast_word op j src res 2;
      res ← fast_word op j src res 3;
      fast_sources op j srcs res
  end.

Definition fast_step (op j : Z) (srcs : list text) (res : text) : option text :=
  if op =? BITOP_NOT then
    res ← fast_not j res 0;
    res ← fast_not j res 1;
    res ← fast_not j res 2;
    fast_not j res 3
  else fast_sources op j (tail srcs) res.

(** [while(minlen >= sizeof(unsigned long)*4)]: the result and [j]. *)
Fixpoint bitop_fast (fuel : nat) (op : Z) (srcs : list text) (res : text) (j minlen : Z) : option (text * Z) :=
  if 16 <=? u64 minlen then
    match fuel with
    | O => None
    | S fuel => res ← fast_step op j srcs res; bitop_fast fuel op srcs res (i32 (j + 16)) (i32 (minlen - 16))
    end
  else Some (res, j).

(** [(len[i] <= j) ? 0 : src[i][j]]. *)
Definition byte_at (src : text) (j : Z) : option Z := if i32 (blen src) <=? j then Some 0 else mget src j.

Fixpoint bitop_byte (op j : Z) (srcs : list text) (output : Z) : option Z :=
  match srcs with
  | [] => Some output
  | src :: srcs => byte ← byte_at src j; bitop_byte op j srcs (bit_op op output byte)
  end.

(** [for (; j < maxlen; j++)]. *)
Fixpoint bitop_bytes (fuel : nat) (op : Z) (srcs : list text) (res : text) (j maxlen : Z) : option text :=
  if maxlen <=? j then Some res
  else
    match fuel with
    | O => None
    | S fuel =>
        match srcs with
        | [] => None
        | src0 :: rest =>
            output ← byte_at src0 j;
            let output := if op =? BITOP_NOT then u8 (Z.lnot output) else output in
            output ← bitop_byte op j rest output;
            res ← mset res j output;
            bitop_bytes fuel op srcs res (i32 (j + 1)) maxlen
        end
    end.

(** The part of bitopCommand between the lookups and the store: the result is absent
    when all the sources are empty.  [sdsnewlen(NULL,maxlen)] is filled with zeros. *)
Definition bitop (op : Z) (objects : list (option text)) : option (option text) :=
  let numkeys := Z.of_nat (length objects) in
  let '(maxlen, minlen) := bitop_lens objects true 0 0 in
  if maxlen =? 0 then Some None
  else
    let srcs := (λ o, default [] o) <$> objects in
    let res := replicate (Z.to_nat maxlen) 0 in
    '(res, j) ← (if negb (minlen =? 0) && (numkeys <=? 16) then
                   src0 ← head srcs;
                   bs ← mload src0 0 minlen;
                   res ← mstore res 0 bs;
                   bitop_fast (Z.to_nat minlen) op srcs res 0 minlen
                 else Some (res, 0));
    res ← bitop_bytes (Z.to_nat maxlen) op srcs res j maxlen;
    Some (Some res).

(** ** SETBIT, GETBIT and the ranges of BITCOUNT and BITPOS *)

(** The value of the argument, as getLongLongFromObjectOrReply parses it. *)
Definition getBitOffsetFromArgument (loffset : Z) : option Z :=
  if (loffset <? 0) || (512 * 1024 * 1024 <=? Z.shiftr (u64 loffset) 3) then None else Some (u64 loffset).

(** What sdsgrowzero does to the contents (Sds.v). *)
Definition grown (s : text) (len : Z) : text := s ++ replicate (Z.to_nat (len - blen s)) 0.

(** The new string and the old bit, for [on] among 0 and 1. *)
Definition setbit (s : text) (bitoffset on : Z) : option (text * Z) :=
  let byte := i32 (Z.shiftr bitoffset 3) in
  let s := grown s (byte + 1) in
  byteval ← mget s byte;
  let bit := 7 - Z.land bitoffset 7 in
  let bitval := Z.land byteval (Z.shiftl 1 bit) in
  let byteval := Z.land byteval (Z.lnot (Z.shiftl 1 bit)) in
  let byteval := Z.lor byteval (Z.shiftl (Z.land on 1) bit) in
  s ← mset s byte (u8 byteval);
  Some (s, if bitval =? 0 then 0 else 1).

Definition getbit (s : text) (bitoffset : Z) : option Z :=
  let byte := Z.shiftr bitoffset 3 in
  let bit := 7 - Z.land bitoffset 7 in
  if byte <? blen s then
    b ← mget s byte;
    Some (if Z.land b (Z.shiftl 1 bit) =? 0 then 0 else 1)
  else Some 0.

(** [start] and [end] as they are used, from the arguments when they are given. *)
Definition bit_range (strlen : Z) (range : option (Z * Z)) : Z * Z :=
  match range with
  | Some (start, end_) =>
      let start := if start <? 0 then i32 (strlen + start) else start in
      let end_ := if end_ <? 0 then i32 (strlen + end_) else end_ in
      let start := if start <? 0 then 0 else start in
      let end_ := if end_ <? 0 then 0 else end_ in
      (start, if strlen <=? end_ then i32 (strlen - 1) else end_)
  | None => (0, i32 (strlen - 1))
  end.

(** BITCOUNT of a string, after the lookup and the parsing of the arguments. *)
Definition bitcount (a : Z) (s : text) (range : option (Z * Z)) : option Z :=
  let '(start, end_) := bit_range (i32 (blen s)) range in
  if end_ <? start then Some 0
  else redisPopcount a s start (i32 (i32 (end_ - start) + 1)).

(** BITPOS of a string: [Some (start, None)] is a range without an end. *)
Definition bitpos (a : Z) (s : text) (bit : Z) (range : option (Z * option Z)) : option Z :=
  let strlen := i32 (blen s) in
  let end_given := match range with Some (_, Some _) => true | _ => false end in
  let '(start, end_) :=
    bit_range strlen (match range with Some (start, end_) => Some (start, default (i32 (strlen - 1)) end_) | None => None end) in
  if end_ <? start then Some (-1)
  else
    let bytes := i32 (i32 (end_ - start) + 1) in
    pos ← redisBitpos a s start bytes bit;
    if end_given && (bit =? 0) && (pos =? i32 (bytes * 8)) then Some (-1)
    else Some (if negb (pos =? -1) then i32 (pos + i32 (start * 8)) else pos).

(** ** Reference *)

(** The number of ones of a byte, and the bit [n] of a string, counted from the left;
    there are zeros behind its end. *)
Definition ones (b : Z) : Z := foldr (λ i n, Z.b2z (Z.testbit b (Z.of_nat i)) + n) 0 (seq 0 8).
Definition popcount (s : text) : Z := foldr (λ b n, ones b + n) 0 s.
Definition bit_of (s : text) (n : Z) : bool :=
  match s !! Z.to_nat (n / 8) with Some b => Z.testbit b (7 - n mod 8) | None => false end.

Example popcount_sample : redisPopcount 3 (replicate 30 255 ++ [7]) 0 31 = Some 243.
Proof. by vm_compute. Qed.
Example bitpos_sample : redisBitpos 1 (replicate 9 255 ++ [251]) 0 10 0 = Some 77.
Proof. by vm_compute. Qed.
Example bitop_sample : bitop BITOP_XOR [Some (replicate 20 255); Some (replicate 18 15); None] = Some (Some (replicate 18 240 ++ [255; 255])).
Proof. by vm_compute. Qed.

(** ** Words of four bytes *)

Lemma land_low x y j m : 0 ≤ j → 0 ≤ m < 2 ^ j → Z.land (x + 2 ^ j * y) m = Z.land x m.
Proof.
  intros Hj Hm. rewrite <-(Z.mod_small m (2 ^ j)) by done. rewrite <-(Z.land_ones m j) by done.
  rewrite !(Z.land_comm m), !Z.land_assoc, !Z.land_ones by done.
  by rewrite (Z.mul_comm _ y), Z_mod_plus_full.
Qed.

(** Masks work byte by byte. *)
Lemma land_bytes b r m M : byte_ok b → byte_ok m →
  Z.land (b + 256 * r) (m + 256 * M) = Z.land b m + 256 * Z.land r M.
Proof.
  unfold byte_ok. intros Hb Hm. set (x := Z.land (b + 256 * r) (m + 256 * M)).
  assert (∀ c q, 0 ≤ c < 256 → Z.shiftr (c + 256 * q) 8 = q) as Hq.
  { intros c q Hc. rewrite Z.shiftr_div_pow2 by lia. change (2 ^ 8) with 256. rewrite (Z.mul_comm 256), Z.div_add, Z.div_small by lia. lia. }
  assert (x / 256 = Z.land r M) as Ed.
  { change 256 with (2 ^ 8). rewrite <-Z.shiftr_div_pow2 by lia. unfold x. by rewrite Z.shiftr_land, !Hq. }
  assert (x mod 256 = Z.land b m) as Em.
  { change 256 with (2 ^ 8). rewrite <-Z.land_ones by lia. unfold x. rewrite <-Z.land_assoc.
    rewrite (Z.land_ones (m + _)), (Z.mul_comm 256 M), Z_mod_plus_full by lia.
    rewrite (Z.mod_small m) by done. apply (land_low b r 8); lia. }
  rewrite (Z.div_mod x 256) by lia. lia.
Qed.

Lemma land_shifted_bytes k b r m M : 0 ≤ k ≤ 8 → byte_ok b → 0 ≤ m < 2 ^ (8 - k) →
  Z.land (Z.shiftr (b + 256 * r) k) (m + 256 * M) = Z.land (Z.shiftr b k) m + 256 * Z.land (Z.shiftr r k) M.
Proof.
  unfold byte_ok. intros Hk Hb Hm.
  assert (2 ^ (8 - k) * 2 ^ k = 256) as E by (rewrite <-Z.pow_add_r by lia; by replace (8 - k + k) with 8 by lia).
  assert (0 < 2 ^ k) by (apply Z.pow_pos_nonneg; lia). assert (0 < 2 ^ (8 - k)) by (apply Z.pow_pos_nonneg; lia).
  rewrite !Z.shiftr_div_pow2 by lia. rewrite <-E at 1.
  replace (b + 2 ^ (8 - k) * 2 ^ k * r) with (b + 2 ^ (8 - k) * r * 2 ^ k) by lia. rewrite Z_div_plus_full by lia.
  rewrite (Z.div_mod r (2 ^ k)) at 1 by lia.
  replace (b / 2 ^ k + 2 ^ (8 - k) * (2 ^ k * (r / 2 ^ k) + r mod 2 ^ k))
    with (b / 2 ^ k + 2 ^ (8 - k) * (r mod 2 ^ k) + 256 * (r / 2 ^ k)) by (rewrite <-E; ring).
  pose proof (Z.mod_pos_bound r (2 ^ k) ltac:(lia)). pose proof (Z.div_pos b (2 ^ k) ltac:(lia) ltac:(lia)).
  assert (b / 2 ^ k < 2 ^ (8 - k)) by (apply Z.div_lt_upper_bound; lia).
  rewrite land_bytes, land_low; [done|lia|done|unfold byte_ok; nia|unfold byte_ok; nia].
Qed.

(** A fact about the bytes, by going through all of them. *)
Lemma all_bytes (P : Z → Prop) `{∀ b, Decision (P b)} b :
  forallb (λ n, bool_decide (P (Z.of_nat n))) (seq 0 256) = true → byte_ok b → P b.
Proof.
  unfold byte_ok. intros E Hb. rewrite forallb_forall in E. specialize (E (Z.to_nat b)).
  rewrite Z2Nat.id, bool_decide_eq_true in E by lia. apply E, in_seq. lia.
Qed.

(** The three steps on one byte. *)
Definition pairs (b : Z) : Z := b - Z.land (Z.shiftr b 1) 0x55.
Definition nibbles (b : Z) : Z := Z.land (pairs b) 0x33 + Z.land (Z.shiftr (pairs b) 2) 0x33.

Lemma pairs_ok b : byte_ok b → byte_ok (pairs b).
Proof. apply (all_bytes (λ b, byte_ok (pairs b))). by vm_compute. Qed.
Lemma nibbles_ok b : byte_ok b → byte_ok (nibbles b) ∧ nibbles b ≤ 0x44 ∧ nibbles b mod 16 ≤ 4.
Proof. apply (all_bytes (λ b, byte_ok (nibbles b) ∧ nibbles b ≤ 0x44 ∧ nibbles b mod 16 ≤ 4)). by vm_compute. Qed.
Lemma nibbles_ones b : byte_ok b → (nibbles b + nibbles b / 16) mod 16 = ones b ∧ 0 ≤ ones b ≤ 8.
Proof. apply (all_bytes (λ b, (nibbles b + nibbles b / 16) mod 16 = ones b ∧ 0 ≤ ones b ≤ 8)). by vm_compute. Qed.
Lemma bitsinbyte_ones b : byte_ok b → bitsinbyte !! Z.to_nat b = Some (ones b).
Proof. apply (all_bytes (λ b, bitsinbyte !! Z.to_nat b = Some (ones b))). by vm_compute. Qed.

Lemma land_shifted_word k m bs : 0 ≤ k ≤ 8 → 0 ≤ m < 2 ^ (8 - k) → Forall byte_ok bs →
  Z.land (Z.shiftr (le_dec bs) k) (le_dec (replicate (length bs) m)) = le_dec ((λ b, Z.land (Z.shiftr b k) m) <$> bs).
Proof.
  intros Hk Hm. induction 1 as [|b bs Hb Hbs IH].
  - rewrite fmap_nil. cbn [length replicate]. rewrite le_dec_nil. apply Z.land_0_r.
  - rewrite fmap_cons. cbn [length replicate]. rewrite !le_dec_cons, land_shifted_bytes by done. by rewrite IH.
Qed.

Lemma le_dec_add (f g : Z → Z) bs : le_dec ((λ b, f b + g b) <$> bs) = le_dec (f <$> bs) + le_dec (g <$> bs).
Proof. induction bs as [|b bs IH]; [by rewrite !fmap_nil, !le_dec_nil|]. rewrite !fmap_cons, !le_dec_cons, IH. lia. Qed.

Lemma le_dec_sub (f g : Z → Z) bs : le_dec ((λ b, f b - g b) <$> bs) = le_dec (f <$> bs) - le_dec (g <$> bs).
Proof. induction bs as [|b bs IH]; [by rewrite !fmap_nil, !le_dec_nil|]. rewrite !fmap_cons, !le_dec_cons, IH. lia. Qed.

Lemma le_dec_u32 bs : length bs = 4%nat → Forall byte_ok bs → u32 (le_dec bs) = le_dec bs.
Proof. intros Hl Hb. apply wrapu_small. pose proof (le_dec_range _ Hb) as H. unfold blen in H. by rewrite Hl in H. Qed.

(** The multiplication collects the sum in the highest byte. *)
Lemma product_word n0 n1 n2 n3 : 0 ≤ n0 ≤ 8 → 0 ≤ n1 ≤ 8 → 0 ≤ n2 ≤ 8 → 0 ≤ n3 ≤ 8 →
  Z.shiftr (u32 ((n0 + 256 * (n1 + 256 * (n2 + 256 * (n3 + 256 * 0)))) * 0x01010101)) 24 = n0 + n1 + n2 + n3.
Proof.
  intros. set (low := n0 + 256 * (n0 + n1) + 65536 * (n0 + n1 + n2)).
  rewrite Z.shiftr_div_pow2 by lia. unfold wrapu. unlimit.
  rewrite <-(Z.mod_unique _ 4294967296 (n1 + n2 + n3 + 256 * (n2 + n3) + 65536 * n3) (low + 16777216 * (n0 + n1 + n2 + n3)));
    [|unfold low; lia..].
  symmetry. apply (Z.div_unique _ _ _ low); unfold low; lia.
Qed.

Section popcount_word.
Context (bs : list Z) (Hl : length bs = 4%nat) (Hb : Forall byte_ok bs).

Lemma pairs_word : u32 (le_dec bs - Z.land (Z.shiftr (le_dec bs) 1) 0x55555555) = le_dec (pairs <$> bs).
Proof.
  replace 0x55555555 with (le_dec (replicate (length bs) 0x55)) by (rewrite Hl; by vm_compute).
  rewrite land_shifted_word by done. replace (le_dec bs) with (le_dec (id <$> bs)) by (by rewrite list_fmap_id). rewrite <-(le_dec_sub id).
  apply le_dec_u32; [by rewrite length_fmap|]. apply Forall_fmap. eapply Forall_impl; [exact Hb|]. exact pairs_ok.
Qed.

Lemma nibbles_word :
  u32 (Z.land (le_dec (pairs <$> bs)) 0x33333333 + Z.land (Z.shiftr (le_dec (pairs <$> bs)) 2) 0x33333333) = le_dec (nibbles <$> bs).
Proof.
  assert (Forall byte_ok (pairs <$> bs)) as Hp by (apply Forall_fmap; eapply Forall_impl; [exact Hb|]; exact pairs_ok).
  replace 0x33333333 with (le_dec (replicate (length (pairs <$> bs)) 0x33)) by (rewrite length_fmap, Hl; by vm_compute).
  rewrite <-(Z.shiftr_0_r (le_dec (pairs <$> bs))) at 1. rewrite !land_shifted_word by done.
  rewrite <-le_dec_add, <-list_fmap_compose. rewrite (list_fmap_ext _ nibbles).
  - apply le_dec_u32; [by rewrite length_fmap|]. apply Forall_fmap. eapply Forall_impl; [exact Hb|].
    intros b H. by apply nibbles_ok.
  - intros i b _. cbn [compose]. unfold nibbles. by rewrite Z.shiftr_0_r.
Qed.

(** Four nibble sums, which do not overflow into each other. *)
Lemma sums_word n0 n1 n2 n3 :
  Forall (λ n, 0 ≤ n ≤ 0x44 ∧ n mod 16 ≤ 4) [n0; n1; n2; n3] →
  Z.land (u32 (le_dec [n0; n1; n2; n3] + Z.shiftr (le_dec [n0; n1; n2; n3]) 4)) 0x0F0F0F0F
  = le_dec ((λ n, (n + n / 16) mod 16) <$> [n0; n1; n2; n3]).
Proof.
  intros Hn. repeat (apply Forall_cons in Hn as [? Hn]). clear Hn Hb Hl.
  rewrite Z.shiftr_div_pow2 by lia. change (2 ^ 4) with 16.
  set (hi := λ n m, n + n / 16 + 16 * (m mod 16)).
  replace (le_dec [n0; n1; n2; n3] + le_dec [n0; n1; n2; n3] / 16)
    with (hi n0 n1 + 256 * (hi n1 n2 + 256 * (hi n2 n3 + 256 * (hi n3 0 + 256 * 0)))).
  2:{ unfold hi. rewrite !le_dec_cons, le_dec_nil. Z.to_euclidean_division_equations. lia. }
  assert (∀ n m, 0 ≤ n ≤ 0x44 ∧ n mod 16 ≤ 4 → 0 ≤ m mod 16 ≤ 4 → byte_ok (hi n m) ∧ Z.land (hi n m) 15 = (n + n / 16) mod 16) as Hhi.
  { intros n m Hn Hm. unfold hi, byte_ok. split; [Z.to_euclidean_division_equations; lia|].
    rewrite (land_low _ _ 4) by lia. exact (land_mask_mod _ 4 ltac:(lia)). }
  unfold wrapu. rewrite Z.mod_small by (unlimit; unfold hi; Z.to_euclidean_division_equations; lia).
  replace 0x0F0F0F0F with (15 + 256 * (15 + 256 * (15 + 256 * (15 + 256 * 0)))) by lia.
  assert (∀ n, 0 ≤ n ≤ 0x44 ∧ n mod 16 ≤ 4 → 0 ≤ n mod 16 ≤ 4) by (intros n Hn; pose proof (Z.mod_pos_bound n 16); lia).
  assert (0 ≤ 0 mod 16 ≤ 4) by (by rewrite Z.mod_0_l by lia).
  rewrite !land_bytes by first [by apply Hhi; auto | by unfold byte_ok].
  rewrite !(λ n m A B, proj2 (Hhi n m A B)) by auto. by rewrite !fmap_cons, fmap_nil, !le_dec_cons, le_dec_nil.
Qed.

(** Each of the four aux variables counts the ones of its word. *)
Lemma popcount_word_spec : popcount_word (le_dec bs) = popcount bs.
Proof.
  unfold popcount_word. rewrite pairs_word, nibbles_word.
  destruct bs as [|b0 [|b1 [|b2 [|b3 [|]]]]]; try done.
  repeat (apply Forall_cons in Hb as [? Hb]). rewrite !fmap_cons, fmap_nil.
  rewrite sums_word.
  2:{ repeat constructor; try apply nibbles_ok; done. }
  rewrite !fmap_cons, fmap_nil, !le_dec_cons, le_dec_nil.
  pose proof (nibbles_ones b0) as [E0 ?]; [done|]. pose proof (nibbles_ones b1) as [E1 ?]; [done|].
  pose proof (nibbles_ones b2) as [E2 ?]; [done|]. pose proof (nibbles_ones b3) as [E3 ?]; [done|].
  rewrite E0, E1, E2, E3. unfold popcount. cbn [foldr]. rewrite product_word by lia. lia.
Qed.
End popcount_word.

(** ** Parts of a string *)

Lemma slice_app s p m q : 0 ≤ p ≤ m → m ≤ q → slice s p q = slice s p m ++ slice s m q.
Proof.
  intros Hp Hm. unfold slice. replace (Z.to_nat m) with (Z.to_nat p + Z.to_nat (m - p))%nat by lia.
  rewrite <-drop_drop. set (l := drop (Z.to_nat p) s).
  replace (Z.to_nat (q - p)) with (Z.to_nat (m - p) + Z.to_nat (q - m))%nat by lia. by rewrite take_take_drop.
Qed.

Lemma slice_cons s p q : 0 ≤ p < q → q ≤ blen s →
  ∃ b, mget s p = Some b ∧ s !! Z.to_nat p = Some b ∧ slice s p q = b :: slice s (p + 1) q.
Proof.
  intros Hp Hq. destruct (lookup_lt_is_Some_2 s (Z.to_nat p)) as [b Hb]; [unfold blen in Hq; lia|].
  exists b. unfold mget. zdec. split_and!; [done..|]. rewrite (slice_app s p (p + 1)) by lia.
  unfold slice at 1. replace (Z.to_nat (p + 1 - p)) with 1%nat by lia. by rewrite (drop_S _ _ _ Hb).
Qed.

Lemma slice_Forall (P : Z → Prop) s p q : Forall P s → Forall P (slice s p q).
Proof. intros. unfold slice. by apply Forall_take, Forall_drop. Qed.

Lemma load_word_slice s p : 0 ≤ p → p + 4 ≤ blen s → load_word s p = Some (le_dec (slice s p (p + 4))).
Proof.
  intros. unfold load_word, mload. zdec. cbn [andb mbind option_bind]. unfold slice.
  by replace (p + 4 - p) with 4 by lia.
Qed.

Lemma ones_range b : byte_ok b → 0 ≤ ones b ≤ 8.
Proof. apply nibbles_ones. Qed.

Lemma popcount_app s t : popcount (s ++ t) = popcount s + popcount t.
Proof. unfold popcount. induction s as [|b s IH]; [done|]. cbn [foldr app]. rewrite IH. lia. Qed.
Lemma popcount_cons b s : popcount (b :: s) = ones b + popcount s.
Proof. done. Qed.
Lemma popcount_range s : Forall byte_ok s → 0 ≤ popcount s ≤ 8 * blen s.
Proof.
  induction 1 as [|b s Hb Hs IH]; [done|]. rewrite popcount_cons, blen_cons. pose proof (ones_range b Hb). lia.
Qed.

(** ** The loops of redisPopcount *)

Section popcount_loops.
Context (s : text) (Hs : Forall byte_ok s) (Hlen : blen s < 2 ^ 31 - 1).

(** What a loop from [p] may assume, and what the loops keep: the count so far and the
    bits still to be counted. *)
Definition counting (e total p count bits : Z) : Prop :=
  0 ≤ p ∧ 0 ≤ count ∧ p + count = e ∧ e ≤ blen s ∧ 0 ≤ bits ≤ 8 * p ∧ bits + popcount (slice s p e) = total.

Lemma counting_step e total p count bits k : counting e total p count bits → 0 ≤ k ≤ count →
  counting e total (p + k) (i32 (count - k)) (u64 (bits + popcount (slice s p (p + k)))).
Proof.
  intros (Hp & Hc & He & Hle & Hb & Ht) Hk.
  pose proof (popcount_range _ (slice_Forall _ s p (p + k) Hs)) as H. rewrite blen_slice in H by lia.
  rewrite wraps_small by (try unlimit; lia). rewrite wrapu_small by (unlimit; lia). unfold counting.
  rewrite (slice_app s p (p + k)), popcount_app in Ht by lia. split_and!; lia.
Qed.

Lemma count_byte_spec e total p count bits : counting e total p count bits → count ≠ 0 →
  count_byte s p bits = Some (u64 (bits + popcount (slice s p (p + 1)))).
Proof.
  intros (Hp & Hc & He & Hle & Hb & Ht) Hn. destruct (slice_cons s p (p + 1)) as (b & Eb & Lb & ->); [lia..|].
  unfold count_byte. rewrite Eb. cbn [mbind option_bind]. rewrite bitsinbyte_ones.
  - cbn [mbind option_bind]. rewrite slice_nil, popcount_cons by lia. f_equal. unfold popcount. cbn [foldr]. by rewrite Z.add_0_r.
  - eapply Forall_lookup_1; eauto.
Qed.

Lemma popcount_unaligned_spec fuel a e total p count bits :
  counting e total p count bits → (- (a + p)) mod 4 ≤ Z.of_nat fuel →
  ∃ p' count' bits', popcount_unaligned fuel a s p count bits = Some (p', count', bits') ∧ counting e total p' count' bits'.
Proof.
  revert p count bits. induction fuel as [|fuel IH]; intros p count bits Hc Hf; cbn [popcount_unaligned].
  all: assert (Z.land (u32 (a + p)) 3 = (a + p) mod 4) as ->
    by (change 3 with (2 ^ 2 - 1); rewrite land_mask_mod by lia; unfold wrapu; unlimit; Z.to_euclidean_division_equations; lia).
  - replace ((a + p) mod 4) with 0 by (Z.to_euclidean_division_equations; lia). cbn. eauto.
  - destruct (Z.eqb_spec ((a + p) mod 4) 0) as [|Ha]; cbn [negb andb]; [by eauto|].
    destruct (Z.eqb_spec count 0) as [|Hn]; cbn [negb]; [by eauto|].
    rewrite (count_byte_spec e total p count bits) by done. cbn [mbind option_bind].
    apply IH; [|Z.to_euclidean_division_equations; lia].
    apply (counting_step _ _ _ _ _ 1 Hc). destruct Hc; lia.
Qed.

Lemma popcount_words_spec fuel e total p count bits :
  counting e total p count bits → count ≤ Z.of_nat fuel →
  ∃ p' count' bits', popcount_words fuel s p count bits = Some (p', count', bits') ∧ counting e total p' count' bits'.
Proof.
  revert p count bits. induction fuel as [|fuel IH]; intros p count bits Hc Hf; cbn [popcount_words].
  { assert (count ≤ 0) by lia. zdec. eauto. }
  zcase; [|by eauto].
  pose proof Hc as (Hp & Hc' & He & Hle & Hb & Ht).
  rewrite !load_word_slice by lia. cbn [mbind option_bind].
  assert (∀ q, p ≤ q → q + 4 ≤ e → popcount_word (le_dec (slice s q (q + 4))) = popcount (slice s q (q + 4)) ∧
    0 ≤ popcount (slice s q (q + 4)) ≤ 32) as W.
  { intros q Hq1 Hq2. pose proof (slice_Forall _ s q (q + 4) Hs) as F. pose proof (popcount_range _ F) as R.
    rewrite blen_slice in R by lia. split; [|lia]. apply popcount_word_spec; [|done].
    pose proof (blen_slice s q (q + 4) ltac:(lia) ltac:(lia)) as L. unfold blen in L. lia. }
  rewrite !(λ q A B, proj1 (W q A B)) by lia.
  pose proof (W p ltac:(lia) ltac:(lia)) as [_ ?]. pose proof (W (p + 4) ltac:(lia) ltac:(lia)) as [_ ?].
  pose proof (W (p + 8) ltac:(lia) ltac:(lia)) as [_ ?]. pose proof (W (p + 12) ltac:(lia) ltac:(lia)) as [_ ?].
  rewrite (wrapu_small 32 (popcount _ + popcount _)), (wrapu_small 32 (popcount _ + popcount _ + _)), (wrapu_small 32 (popcount _ + popcount _ + _ + _)) by (unlimit; lia).
  assert (popcount (slice s p (p + 16)) = popcount (slice s p (p + 4)) + popcount (slice s (p + 4) (p + 4 + 4)) +
    popcount (slice s (p + 8) (p + 8 + 4)) + popcount (slice s (p + 12) (p + 12 + 4))) as <-.
  { rewrite (slice_app s p (p + 4)), (slice_app s (p + 4) (p + 8)), (slice_app s (p + 8) (p + 12)), !popcount_app by lia.
    replace (p + 4 + 4) with (p + 8) by lia. replace (p + 8 + 4) with (p + 12) by lia. replace (p + 12 + 4) with (p + 16) by lia. lia. }
  pose proof (counting_step _ _ _ _ _ 16 Hc ltac:(lia)) as Hc2.
  apply IH; [done|]. rewrite wraps_small by (try unlimit; lia). lia.
Qed.

Lemma popcount_rest_spec fuel e total p count bits :
  counting e total p count bits → count ≤ Z.of_nat fuel → popcount_rest fuel s p count bits = Some total.
Proof.
  revert p count bits. induction fuel as [|fuel IH]; intros p count bits Hc Hf; cbn [popcount_rest].
  all: pose proof Hc as (Hp & Hc' & He & Hle & Hb & Ht).
  all: destruct (Z.eqb_spec count 0) as [Hn|Hn];
    [replace e with p in Ht by lia; rewrite slice_nil in Ht by lia; f_equal; unfold popcount in Ht; cbn [foldr] in Ht; lia|].
  - lia.
  - rewrite (count_byte_spec e total p count bits) by done. cbn [mbind option_bind].
    apply IH; [apply (counting_step _ _ _ _ _ 1 Hc); lia|]. rewrite wraps_small by (try unlimit; lia). lia.
Qed.

Lemma redisPopcount_spec a p count :
  0 ≤ p → 0 ≤ count → p + count ≤ blen s → redisPopcount a s p count = Some (popcount (slice s p (p + count))).
Proof.
  intros Hp Hc He. unfold redisPopcount.
  assert (counting (p + count) (popcount (slice s p (p + count))) p count 0) as H by (unfold counting; split_and!; lia).
  destruct (popcount_unaligned_spec 3 a _ _ _ _ _ H) as (p1 & c1 & b1 & -> & H1); [Z.to_euclidean_division_equations; lia|].
  cbn [mbind option_bind]. destruct (popcount_words_spec (length s) _ _ _ _ _ H1) as (p2 & c2 & b2 & -> & H2).
  { destruct H1 as (? & ? & ? & ? & _). unfold blen in *. lia. }
  cbn [mbind option_bind]. apply (popcount_rest_spec _ _ _ _ _ _ H2).
  destruct H2 as (? & ? & ? & ? & _). unfold blen in *. lia.
Qed.
End popcount_loops.

(** ** Counting positions *)

(** A byte index of an argument: negative ones count from the end. *)
Definition from_end (strlen i : Z) : Z := if i <? 0 then Z.max 0 (strlen + i) else i.

(** The positions of the ones from [lo] up to but without [hi]. *)
Definition one_positions (s : text) (lo hi : Z) : list Z := filter (λ n, bit_of s n = true) (seqZ lo (hi - lo)).

(** The bits of the bytes that the arguments select, and the positions of ones among them. *)
Definition selected (s : text) (range : option (Z * Z)) (n : Z) : Prop :=
  match range with
  | Some (start, end_) => from_end (blen s) start ≤ n / 8 ≤ from_end (blen s) end_
  | None => True
  end.
#[global] Instance selected_dec s range n : Decision (selected s range n).
Proof. unfold selected. destruct range as [[]|]; apply _. Defined.

Lemma bit_of_byte s p b i : 0 ≤ p → s !! Z.to_nat p = Some b → 0 ≤ i < 8 → bit_of s (8 * p + i) = Z.testbit b (7 - i).
Proof.
  intros Hp E Hi. unfold bit_of. rewrite (Z.mul_comm 8), Z.div_add_l, Z.div_small, Z.add_0_r by lia. rewrite E.
  by rewrite Z.add_comm, Z_mod_plus_full, Z.mod_small by lia.
Qed.

Lemma bit_of_behind s n : 8 * blen s ≤ n → bit_of s n = false.
Proof.
  intros Hn. unfold bit_of. rewrite lookup_ge_None_2; [done|].
  pose proof (Z.div_le_lower_bound n 8 (blen s)). unfold blen in *. lia.
Qed.

Lemma one_positions_nil s lo : one_positions s lo lo = [].
Proof. unfold one_positions. by rewrite Z.sub_diag. Qed.

Lemma one_positions_app s lo mid hi : lo ≤ mid ≤ hi → one_positions s lo hi = one_positions s lo mid ++ one_positions s mid hi.
Proof.
  intros. unfold one_positions. rewrite <-filter_app. f_equal.
  replace (hi - lo) with ((mid - lo) + (hi - mid)) by lia. rewrite seqZ_app by lia. do 2 f_equal. lia.
Qed.

Lemma ones_positions b : byte_ok b → Z.of_nat (length (filter (λ i, Z.testbit b (7 - i) = true) (seqZ 0 8))) = ones b.
Proof. intros Hb. exact (all_bytes (λ b, Z.of_nat (length (filter (λ i, Z.testbit b (7 - i) = true) (seqZ 0 8))) = ones b) b ltac:(by vm_compute) Hb). Qed.

Lemma filter_length_ext {A B} (P : A → Prop) (Q : B → Prop) `{∀ x, Decision (P x)} `{∀ x, Decision (Q x)} (f : A → B) (l : list A) :
  (∀ x, x ∈ l → P x ↔ Q (f x)) → length (filter P l) = length (filter Q (f <$> l)).
Proof.
  induction l as [|x l IH]; intros HPQ; [done|]. rewrite fmap_cons, !filter_cons.
  assert (P x ↔ Q (f x)) as Hx by (apply HPQ; set_solver).
  assert (length (filter P l) = length (filter Q (f <$> l))) as E by (apply IH; intros; apply HPQ; set_solver).
  destruct (decide (P x)), (decide (Q (f x))); simpl; tauto || lia.
Qed.

Lemma byte_positions s p b : 0 ≤ p → s !! Z.to_nat p = Some b → byte_ok b →
  Z.of_nat (length (one_positions s (8 * p) (8 * p + 8))) = ones b.
Proof.
  intros Hp E Hb. rewrite <-ones_positions by done. f_equal. unfold one_positions.
  replace (8 * p + 8 - 8 * p) with 8 by lia. symmetry.
  replace (seqZ (8 * p) 8) with ((λ i, 8 * p + i) <$> seqZ 0 8) by (rewrite fmap_add_seqZ; f_equal; lia).
  apply filter_length_ext. intros i Hi%elem_of_seqZ. rewrite (bit_of_byte s p b); [done..|lia].
Qed.

Lemma popcount_positions s p q : Forall byte_ok s → 0 ≤ p ≤ q → q ≤ blen s →
  popcount (slice s p q) = Z.of_nat (length (one_positions s (8 * p) (8 * q))).
Proof.
  intros Hs Hp Hq. remember (Z.to_nat (q - p)) as n eqn:En. revert p Hp En. induction n as [|n IH]; intros p Hp En.
  - replace q with p by lia. by rewrite slice_nil, one_positions_nil by lia.
  - destruct (slice_cons s p q) as (b & _ & Lb & ->); [lia..|].
    rewrite popcount_cons, (IH (p + 1)), (one_positions_app s (8 * p) (8 * p + 8)), length_app by lia.
    rewrite Nat2Z.inj_add, (byte_positions s p b) by (first [done|lia|eapply Forall_lookup_1; eauto]).
    replace (8 * (p + 1)) with (8 * p + 8) by lia. done.
Qed.

Lemma one_positions_in s lo hi len : 0 ≤ lo ≤ hi → hi ≤ len →
  filter (λ n, bit_of s n = true ∧ lo ≤ n < hi) (seqZ 0 len) = one_positions s lo hi.
Proof.
  intros Hlo Hhi. unfold one_positions. rewrite <-list_filter_filter. f_equal.
  replace (seqZ 0 len) with (seqZ 0 lo ++ seqZ lo (hi - lo) ++ seqZ hi (len - hi)).
  - rewrite !filter_app, filter_none, filter_all, filter_none, app_nil_r; [done|..]; intros x Hx%elem_of_seqZ; lia.
  - replace len with (lo + (len - lo)) at 2 by lia. rewrite seqZ_app by lia. f_equal.
    replace (len - lo) with ((hi - lo) + (len - hi)) by lia. rewrite seqZ_app by lia. f_equal; f_equal; lia.
Qed.

(** The range that the code computes. *)
Lemma bit_range_spec s range start end_ : blen s < 2 ^ 31 - 1 →
  match range with Some (a, b) => - 2 ^ 31 ≤ a < 2 ^ 31 ∧ - 2 ^ 31 ≤ b < 2 ^ 31 | None => True end →
  bit_range (i32 (blen s)) range = (start, end_) →
  0 ≤ start ∧ -1 ≤ end_ < blen s ∧ (∀ n, 0 ≤ n < 8 * blen s → selected s range n ↔ 8 * start ≤ n < 8 * (end_ + 1)).
Proof.
  intros Hl Hr. pose proof (blen_nonneg s) as H0. rewrite wraps_small by (try unlimit; lia). unfold bit_range.
  rewrite (wraps_small 32 (blen s - 1)) by (try unlimit; lia).
  destruct range as [[a b]|]; intros [= <- <-]; cbn [selected].
  - assert (∀ i, - 2 ^ 31 ≤ i < 2 ^ 31 → (if (if i <? 0 then i32 (blen s + i) else i) <? 0 then 0 else if i <? 0 then i32 (blen s + i) else i)
      = from_end (blen s) i) as F.
    { intros i Hi. unfold from_end. destruct (Z.ltb_spec i 0); [rewrite wraps_small by (try unlimit; lia)|]; zcase; lia. }
    rewrite !F by tauto. clear F Hr.
    assert (∀ i, 0 ≤ from_end (blen s) i) as F0 by (intros i; unfold from_end; zcase; lia).
    pose proof (F0 a). pose proof (F0 b). split; [done|]. zcase; (split; [lia|]); intros n Hn; Z.to_euclidean_division_equations; lia.
  - split; [done|]. split; [lia|]. intros n Hn. lia.
Qed.

(** The command counts the ones at the positions that the arguments select. *)
Lemma bitcount_spec a s range : Forall byte_ok s → blen s < 2 ^ 31 - 1 →
  match range with Some (a, b) => - 2 ^ 31 ≤ a < 2 ^ 31 ∧ - 2 ^ 31 ≤ b < 2 ^ 31 | None => True end →
  bitcount a s range =
    Some (Z.of_nat (length (filter (λ n, bit_of s n = true ∧ selected s range n) (seqZ 0 (8 * blen s))))).
Proof.
  intros Hs Hl Hr. unfold bitcount. destruct (bit_range (i32 (blen s)) range) as [start end_] eqn:E.
  destruct (bit_range_spec s range start end_ Hl Hr E) as (H0 & H1 & Hsel).
  assert (length (filter (λ n, bit_of s n = true ∧ selected s range n) (seqZ 0 (8 * blen s)))
    = length (filter (λ n, bit_of s n = true ∧ 8 * start ≤ n < 8 * (end_ + 1)) (seqZ 0 (8 * blen s)))) as ->.
  { rewrite <-(list_fmap_id (seqZ 0 (8 * blen s))) at 2. apply filter_length_ext. intros n Hn%elem_of_seqZ.
    rewrite Hsel by lia. done. }
  zcase.
  - rewrite filter_none; [done|]. intros n _ [_ ?]. lia.
  - rewrite (wraps_small 32 (end_ - start)), wraps_small by (try unlimit; lia).
    rewrite redisPopcount_spec by (done || lia). replace (start + (end_ - start + 1)) with (end_ + 1) by lia.
    rewrite popcount_positions by (done || lia). do 3 f_equal. symmetry. apply one_positions_in; lia.
Qed.

(** ** The first bit of a kind *)

Lemma i32_step x k : i32 (i32 x + k) = i32 (x + k).
Proof.
  unfold wraps. change (2 ^ (32 - 1)) with 2147483648. change (2 ^ 32) with 4294967296.
  replace ((x + 2147483648) mod 4294967296 - 2147483648 + k + 2147483648) with ((x + 2147483648) mod 4294967296 + k) by lia.
  rewrite Zplus_mod_idemp_l. do 2 f_equal. lia.
Qed.

(** The byte without a bit [v], and the other bytes. *)
Definition skip_byte (v : bool) : Z := if v then 0 else 255.

Lemma skip_byte_bits v i : 0 ≤ i < 8 → Z.testbit (skip_byte v) (7 - i) = negb v.
Proof.
  intros Hi. destruct v; cbn [skip_byte negb]; [apply Z.testbit_0_l|].
  change 255 with (Z.ones 8). apply Z.ones_spec_low. lia.
Qed.

Lemma other_byte_bits v b : byte_ok b → b ≠ skip_byte v → ∃ i, 0 ≤ i < 8 ∧ Z.testbit b (7 - i) = v.
Proof.
  intros Hb Hn. cut (b = skip_byte v ∨ Exists (λ i, Z.testbit b (7 - i) = v) (seqZ 0 8)).
  - intros [?|(i & Hi%elem_of_seqZ & Ei)%Exists_exists]; [done|]. exists i. split; [lia|done].
  - clear Hn. destruct v.
    + exact (all_bytes (λ b, b = skip_byte true ∨ Exists (λ i, Z.testbit b (7 - i) = true) (seqZ 0 8)) b ltac:(by vm_compute) Hb).
    + exact (all_bytes (λ b, b = skip_byte false ∨ Exists (λ i, Z.testbit b (7 - i) = false) (seqZ 0 8)) b ltac:(by vm_compute) Hb).
Qed.

Section bitpos_loops.
(** The bits from the byte [p] up to the byte [e] are searched for a bit [v]. *)
Context (s : text) (Hs : Forall byte_ok s) (v : bool) (p e : Z) (Hp : 0 ≤ p) (He : e ≤ blen s) (Hlen : blen s < 2 ^ 31 - 1).

Definition skipped (hi : Z) : Prop := ∀ n, 8 * p ≤ n < hi → bit_of s n = negb v.
Definition searching (c count pos : Z) : Prop :=
  p ≤ c ∧ 0 ≤ count ∧ c + count = e ∧ pos = i32 (8 * (c - p)) ∧ skipped (8 * c).

Lemma skipped_byte c : p ≤ c → s !! Z.to_nat c = Some (skip_byte v) → skipped (8 * c) → skipped (8 * (c + 1)).
Proof.
  intros Hc E H n Hn. destruct (decide (n < 8 * c)); [apply H; lia|].
  replace n with (8 * c + (n - 8 * c)) by lia. rewrite (bit_of_byte s c (skip_byte v)) by (done || lia).
  apply skip_byte_bits. lia.
Qed.

Lemma searching_step c count pos k : searching c count pos → 0 ≤ k ≤ count → skipped (8 * (c + k)) →
  searching (c + k) (i32 (count - k)) (i32 (pos + 8 * k)).
Proof.
  intros (Hc & Hc' & He' & -> & H) Hk Hskip. unfold searching.
  rewrite i32_step, (wraps_small 32 (count - k)) by (try unlimit; lia). split_and!; [lia..| |done]. f_equal. lia.
Qed.

Lemma bitpos_unaligned_spec fuel a c count pos :
  searching c count pos → (- (a + c)) mod 4 ≤ Z.of_nat fuel →
  ∃ c' count' pos', bitpos_unaligned fuel a s (skip_byte v) c count pos = Some (c', count', pos') ∧ searching c' count' pos'.
Proof.
  revert c count pos. induction fuel as [|fuel IH]; intros c count pos Hc Hf; cbn [bitpos_unaligned].
  all: assert (Z.land (u32 (a + c)) 3 = (a + c) mod 4) as ->
    by (change 3 with (2 ^ 2 - 1); rewrite land_mask_mod by lia; unfold wrapu; unlimit; Z.to_euclidean_division_equations; lia).
  - replace ((a + c) mod 4) with 0 by (Z.to_euclidean_division_equations; lia). cbn. eauto 6.
  - destruct (Z.eqb_spec ((a + c) mod 4) 0) as [|Ha]; cbn [negb andb]; [by eauto 6|].
    destruct (Z.eqb_spec count 0) as [|Hn]; cbn [negb]; [by eauto 6|].
    pose proof Hc as (Hpc & Hc' & He' & Epos & Hskip).
    destruct (slice_cons s c (c + 1)) as (b & -> & Lb & _); [lia..|]. cbn [mbind option_bind].
    destruct (Z.eqb_spec b (skip_byte v)) as [->|]; cbn [negb]; [|by eauto 6].
    apply IH; [|Z.to_euclidean_division_equations; lia].
    apply (searching_step _ _ _ 1 Hc); [lia|]. by apply skipped_byte.
Qed.

Definition skip_word : Z := if v then 0 else ULONG_MAX.

Lemma slice_word c : 0 ≤ c → c + 4 ≤ blen s → ∃ b0 b1 b2 b3, slice s c (c + 4) = [b0; b1; b2; b3] ∧
  s !! Z.to_nat c = Some b0 ∧ s !! Z.to_nat (c + 1) = Some b1 ∧ s !! Z.to_nat (c + 2) = Some b2 ∧ s !! Z.to_nat (c + 3) = Some b3.
Proof.
  intros Hc Hle. destruct (slice_cons s c (c + 4)) as (b0 & _ & L0 & E0); [lia..|].
  destruct (slice_cons s (c + 1) (c + 4)) as (b1 & _ & L1 & E1); [lia..|]. replace (c + 1 + 1) with (c + 2) in E1 by lia.
  destruct (slice_cons s (c + 2) (c + 4)) as (b2 & _ & L2 & E2); [lia..|]. replace (c + 2 + 1) with (c + 3) in E2 by lia.
  destruct (slice_cons s (c + 3) (c + 4)) as (b3 & _ & L3 & E3); [lia..|]. replace (c + 3 + 1) with (c + 4) in E3 by lia.
  exists b0, b1, b2, b3. rewrite (slice_nil s (c + 4) (c + 4)) in E3 by lia. by rewrite E0, E1, E2, E3.
Qed.

(** A word is skipped exactly when all its bytes are. *)
Lemma skip_word_bytes bs : length bs = 4%nat → Forall byte_ok bs → le_dec bs = skip_word ↔ bs = replicate 4 (skip_byte v).
Proof.
  intros Hl Hb. split.
  - intros E. rewrite <-(le_enc_dec bs) by done. rewrite Hl, E. unfold skip_word, skip_byte. destruct v; by vm_compute.
  - intros ->. unfold skip_word, skip_byte. destruct v; by vm_compute.
Qed.

(** After the loop there is a bit in the next word, or there is no word left. *)
Definition word_found (c count : Z) : Prop :=
  4 ≤ count → ∃ n, 8 * c ≤ n < 8 * c + 32 ∧ bit_of s n = v.

Lemma word_found_other c b i : p ≤ c → 0 ≤ i < 4 → s !! Z.to_nat (c + i) = Some b → b ≠ skip_byte v →
  ∃ n, 8 * c ≤ n < 8 * c + 32 ∧ bit_of s n = v.
Proof.
  intros Hc Hi E Hb. destruct (other_byte_bits v b) as (k & Hk & Ek); [eapply Forall_lookup_1; eauto|done|].
  exists (8 * (c + i) + k). split; [lia|]. by rewrite (bit_of_byte s (c + i) b) by (done || lia).
Qed.

Lemma bitpos_words_spec fuel c count pos : searching c count pos → count ≤ Z.of_nat fuel →
  ∃ c' count' pos', bitpos_words fuel s skip_word c count pos = Some (c', count', pos') ∧
    searching c' count' pos' ∧ word_found c' count'.
Proof.
  revert c count pos. induction fuel as [|fuel IH]; intros c count pos Hc Hf; cbn [bitpos_words].
  all: pose proof Hc as (Hpc & Hc' & He' & Epos & Hskip); rewrite (wrapu_small 64 count) by (unlimit; lia).
  { zdec. exists c, count, pos. split_and!; [done..|]. intros ?. lia. }
  zcase; [|exists c, count, pos; split_and!; [done..|]; intros ?; lia].
  rewrite load_word_slice by lia. cbn [mbind option_bind].
  destruct (slice_word c) as (b0 & b1 & b2 & b3 & E & L0 & L1 & L2 & L3); [lia..|].
  pose proof (slice_Forall _ s c (c + 4) Hs) as F. rewrite E in *.
  destruct (Z.eqb_spec (le_dec [b0; b1; b2; b3]) skip_word) as [Ew|Ew]; cbn [negb].
  - apply skip_word_bytes in Ew; [|done..]. injection Ew as -> -> -> ->.
    replace (pos + 32) with (pos + 8 * 4) by lia.
    assert (skipped (8 * (c + 4))) as Hs4.
    { apply skipped_byte in L0; [|lia|done]. apply skipped_byte in L1; [|lia|done].
      replace (c + 1 + 1) with (c + 2) in L1 by lia. apply skipped_byte in L2; [|lia|done].
      replace (c + 2 + 1) with (c + 3) in L2 by lia. apply skipped_byte in L3; [|lia|done].
      by replace (c + 3 + 1) with (c + 4) in L3 by lia. }
    apply IH; [by apply searching_step|]. rewrite wraps_small by (try unlimit; lia). lia.
  - exists c, count, pos. split_and!; [done..|]. intros _.
    destruct (decide (b0 = skip_byte v)) as [->|]; [|apply (word_found_other c b0 0); rewrite ?Z.add_0_r; done || lia].
    destruct (decide (b1 = skip_byte v)) as [->|]; [|apply (word_found_other c b1 1); done || lia].
    destruct (decide (b2 = skip_byte v)) as [->|]; [|apply (word_found_other c b2 2); done || lia].
    destruct (decide (b3 = skip_byte v)) as [->|]; [|apply (word_found_other c b3 3); done || lia].
    destruct Ew. by apply skip_word_bytes.
Qed.
End bitpos_loops.

(** ** The last word of the search *)

(** The bits of the string up to the byte [e], and zeros behind. *)
Definition bit_before (s : text) (e n : Z) : bool := (n <? 8 * e) && bit_of s n.

Lemma bit_before_in s e n : n < 8 * e → bit_before s e n = bit_of s n.
Proof. intros. unfold bit_before. by zdec. Qed.
Lemma bit_before_out s e n : 8 * e ≤ n → bit_before s e n = false.
Proof. intros. unfold bit_before. by zdec. Qed.

Lemma testbit_byte b r n : byte_ok b → 0 ≤ n → Z.testbit (b + 256 * r) n = if n <? 8 then Z.testbit b n else Z.testbit r (n - 8).
Proof.
  unfold byte_ok. intros Hb Hn. change 256 with (2 ^ 8). zcase.
  - rewrite <-(Z.mod_pow2_bits_low (b + 2 ^ 8 * r) 8) by lia. rewrite Z.mul_comm, Z_mod_plus_full. rewrite Z.mod_pow2_bits_low by lia. done.
  - replace n with (n - 8 + 8) at 1 by lia. rewrite <-Z.div_pow2_bits by lia.
    rewrite Z.mul_comm, Z.div_add by lia. rewrite Z.div_small by (change (2 ^ 8) with 256; lia). done.
Qed.

Lemma bitpos_load_spec s e j c count word : Forall byte_ok s → blen s < 2 ^ 31 - 1 → e ≤ blen s → (j ≤ 4)%nat →
  0 ≤ c → 0 ≤ count → c + count = e → 0 ≤ word < 2 ^ (32 - 8 * Z.of_nat j) →
  ∃ w, bitpos_load j s c count word = Some w ∧ 0 ≤ w < 2 ^ 32 ∧
    ∀ k, 0 ≤ k → Z.testbit w k = if k <? 8 * Z.of_nat j then bit_before s e (8 * c + (8 * Z.of_nat j - 1 - k))
                                else Z.testbit word (k - 8 * Z.of_nat j).
Proof.
  intros Hs Hl He. revert c count word. induction j as [|j IH]; intros c count word Hj Hc Hc' Hce Hw; cbn [bitpos_load].
  { exists word. split; [done|]. split; [exact Hw|]. intros k Hk. zdec. f_equal. lia. }
  assert (0 ≤ word * 256 ∧ word * 256 + 256 ≤ 2 ^ (32 - 8 * Z.of_nat j)) as Hw2.
  { replace (32 - 8 * Z.of_nat j) with (8 + (32 - 8 * Z.of_nat (S j))) by lia. rewrite Z.pow_add_r by lia. change (2 ^ 8) with 256. lia. }
  assert (2 ^ (32 - 8 * Z.of_nat j) ≤ 2 ^ 32) by (apply Z.pow_le_mono_r; lia).
  assert (u32 (Z.shiftl word 8) = word * 256) as ->.
  { rewrite Z.shiftl_mul_pow2 by lia. change (2 ^ 8) with 256. apply wrapu_small. lia. }
  destruct (Z.eqb_spec count 0) as [->|Hn]; cbn [negb].
  - destruct (IH c 0 (word * 256)) as (w & Ew & Hr & Hb); [lia..|]. exists w. split_and!; [done|lia|lia|].
    intros k Hk. rewrite Hb by done. zcase; zcase; [by rewrite !bit_before_out by lia|lia| |].
    + rewrite bit_before_out by lia. rewrite Z.mul_comm. rewrite (testbit_byte 0 word) by (unfold byte_ok; lia). zdec. apply Z.testbit_0_l.
    + rewrite Z.mul_comm. rewrite (testbit_byte 0 word) by (unfold byte_ok; lia). zdec. f_equal. lia.
  - destruct (slice_cons s c (c + 1)) as (b & -> & Lb & _); [lia..|]. cbn [mbind option_bind].
    assert (byte_ok b) as Hb by (eapply Forall_lookup_1; eauto).
    rewrite (wraps_small 32) by (try unlimit; lia).
    assert (Z.lor (word * 256) b = word * 256 + b) as -> by (apply (lor_disjoint _ _ 8); [lia|exact Hb]).
    destruct (IH (c + 1) (count - 1) (word * 256 + b)) as (w & Ew & Hr & Hbits); [unfold byte_ok in Hb; lia..|].
    exists w. split_and!; [done|lia|lia|]. intros k Hk. rewrite Hbits by done.
    replace (word * 256 + b) with (b + 256 * word) by lia. zcase; zcase; [f_equal; lia|lia| |].
    + rewrite testbit_byte by (done || lia). zdec. rewrite bit_before_in by lia.
      rewrite (bit_of_byte s c b) by (done || lia). f_equal. lia.
    + rewrite testbit_byte by (done || lia). zdec. f_equal. lia.
Qed.

Lemma land_bit x k : 0 ≤ k → Z.land x (2 ^ k) = if Z.testbit x k then 2 ^ k else 0.
Proof.
  intros Hk. apply Z.bits_inj'. intros i Hi. rewrite Z.land_spec, Z.pow2_bits_eqb by lia.
  destruct (Z.eqb_spec k i) as [<-|Hne].
  - rewrite andb_true_r. destruct (Z.testbit x k); [by rewrite Z.pow2_bits_true|by rewrite Z.testbit_0_l].
  - rewrite andb_false_r. destruct (Z.testbit x k); [by rewrite Z.pow2_bits_false|by rewrite Z.testbit_0_l].
Qed.

Lemma bitpos_scan_spec fuel word bit pos i : bit = 0 ∨ bit = 1 → 0 ≤ i → Z.of_nat fuel = 32 - i →
  (∃ m, i ≤ m < 32 ∧ Z.testbit word (31 - m) = (bit =? 1)) →
  ∃ m, bitpos_scan fuel word bit (2 ^ (31 - i)) (i32 (pos + i)) = Some (i32 (pos + m)) ∧ i ≤ m < 32 ∧
    Z.testbit word (31 - m) = (bit =? 1) ∧ ∀ m', i ≤ m' < m → Z.testbit word (31 - m') = negb (bit =? 1).
Proof.
  intros Hbit. revert i. induction fuel as [|fuel IH]; intros i Hi Hf (m & Hm & Em); [lia|].
  cbn [bitpos_scan]. assert (0 < 2 ^ (31 - i)) by (apply Z.pow_pos_nonneg; lia). rewrite (proj2 (Z.eqb_neq _ _)) by lia.
  assert (((if Z.land (2 ^ (31 - i)) word =? 0 then 0 else 1) =? bit) = bool_decide (Z.testbit word (31 - i) = (bit =? 1))) as ->.
  { rewrite Z.land_comm, land_bit by lia.
    destruct (Z.testbit word (31 - i)); [rewrite (proj2 (Z.eqb_neq (2 ^ (31 - i)) 0)) by lia|]; by destruct Hbit as [-> | ->]. }
  case_bool_decide as D.
  - exists i. split_and!; [done|lia|lia|done|]. intros m' ?. lia.
  - assert (Z.testbit word (31 - i) = negb (bit =? 1)) as D' by (destruct (Z.testbit word (31 - i)), (bit =? 1); done).
    rewrite i32_step, <-Z.add_assoc. rewrite Z.shiftr_div_pow2 by lia.
    destruct (decide (i = m)) as [->|]; [done|].
    replace (2 ^ (31 - i) / 2 ^ 1) with (2 ^ (31 - (i + 1))).
    2:{ replace (31 - i) with (31 - (i + 1) + 1) by lia. rewrite (Z.pow_add_r 2 (31 - (i + 1)) 1), Z.div_mul by lia. done. }
    destruct (IH (i + 1)) as (m2 & E2 & Hm2 & Eb & Hmin); [lia|lia|exists m; split; [lia|done]|].
    exists m2. split_and!; [done|lia|lia|done|]. intros m' Hm'. destruct (decide (m' = i)) as [->|]; [done|]. apply Hmin. lia.
Qed.

Lemma redisBitpos_skip a s p count bit : bit = 0 ∨ bit = 1 →
  redisBitpos a s p count bit =
    '(c, count, pos) ← bitpos_unaligned 3 a s (skip_byte (bit =? 1)) p count 0;
    '(c, count, pos) ← bitpos_words (length s) s (skip_word (bit =? 1)) c count pos;
    word ← bitpos_load 4 s c count 0;
    if (bit =? 1) && (word =? 0) then Some (-1) else bitpos_scan 32 word bit (2 ^ 31) pos.
Proof. intros [-> | ->]; done. Qed.

(** The first position of a bit [v] from [lo] up to but without [hi]. *)
Definition first_bit (s : text) (v : bool) (lo hi n : Z) : Prop :=
  lo ≤ n < hi ∧ bit_of s n = v ∧ ∀ m, lo ≤ m < n → bit_of s m = negb v.

Lemma positive_bit w : 0 < w < 2 ^ 32 → ∃ m, 0 ≤ m < 32 ∧ Z.testbit w (31 - m) = true.
Proof.
  intros Hw. exists (31 - Z.log2 w). pose proof (Z.log2_nonneg w). assert (Z.log2 w < 32) by (apply Z.log2_lt_pow2; lia).
  split; [lia|]. replace (31 - (31 - Z.log2 w)) with (Z.log2 w) by lia. apply Z.bit_log2. lia.
Qed.

Lemma redisBitpos_spec a s p count bit : Forall byte_ok s → blen s < 2 ^ 31 - 1 → bit = 0 ∨ bit = 1 →
  0 ≤ p → 0 ≤ count → p + count ≤ blen s →
  ∃ r, redisBitpos a s p count bit = Some r ∧
    ((∃ n, first_bit s (bit =? 1) (8 * p) (8 * (p + count)) n ∧ r = i32 (n - 8 * p)) ∨
     ((∀ n, 8 * p ≤ n < 8 * (p + count) → bit_of s n = negb (bit =? 1)) ∧ r = if bit =? 1 then -1 else i32 (8 * count))).
Proof.
  intros Hs Hl Hbit Hp Hc He. rewrite redisBitpos_skip by done. set (v := bit =? 1). set (e := p + count).
  assert (searching s v p e p count 0) as H0.
  { unfold searching, skipped. split_and!; [lia..|by rewrite Z.sub_diag|]. intros n ?. lia. }
  destruct (bitpos_unaligned_spec s v p e Hp He Hl 3 a _ _ _ H0) as (c1 & k1 & q1 & -> & H1);
    [Z.to_euclidean_division_equations; lia|]. cbn [mbind option_bind].
  destruct (bitpos_words_spec s Hs v p e Hp He Hl (length s) _ _ _ H1) as (c & k & q & -> & (Hpc & Hk & Hce & -> & Hskip) & Hfound).
  { destruct H1 as (? & ? & ? & _). unfold blen, e in *. lia. }
  cbn [mbind option_bind].
  destruct (bitpos_load_spec s e 4 c k 0) as (w & -> & Hw & Hbits); [done..|lia|lia|done|done|lia|]. cbn [mbind option_bind].
  assert (∀ m, 0 ≤ m < 32 → Z.testbit w (31 - m) = bit_before s e (8 * c + m)) as Hbit'.
  { intros m Hm. rewrite Hbits by lia. zdec. f_equal. lia. }
  clear Hbits H0 H1 c1 k1 q1.
  assert (4 ≤ k → ∃ m, 0 ≤ m < 32 ∧ Z.testbit w (31 - m) = v) as Hfound'.
  { intros H4. destruct (Hfound H4) as (n & Hn & En). exists (n - 8 * c). split; [lia|]. rewrite Hbit' by lia.
    rewrite bit_before_in by lia. rewrite <-En. f_equal. lia. }
  destruct (decide (v = true ∧ w = 0)) as [[Ev ->]|Hnot].
  - rewrite Ev. cbn [andb]. rewrite Z.eqb_refl. exists (-1). split; [done|]. right. split; [|done].
    intros n Hn. destruct (decide (n < 8 * c)); [rewrite <-Ev; apply Hskip; lia|].
    destruct (decide (4 ≤ k)) as [H4|H4].
    { destruct (Hfound' H4) as (m & _ & Em). rewrite Z.testbit_0_l in Em. congruence. }
    pose proof (Hbit' (n - 8 * c) ltac:(lia)) as E. rewrite Z.testbit_0_l, bit_before_in in E by lia.
    replace (8 * c + (n - 8 * c)) with n in E by lia. done.
  - assert (v && (w =? 0) = false) as -> by (apply not_true_iff_false; rewrite andb_true_iff, Z.eqb_eq; exact Hnot).
    replace (8 * (c - p)) with (8 * (c - p) + 0) by lia.
    destruct (bitpos_scan_spec 32 w bit (8 * (c - p)) 0) as (m & Em & Hm & Ebm & Hmin); [done|lia|done| |].
    { destruct (decide (4 ≤ k)) as [H4|H4]; [by apply Hfound'|]. fold v. destruct v eqn:Ev; [apply positive_bit; destruct (decide (w = 0)); [tauto|lia]|].
      exists (8 * k). split; [lia|]. rewrite Hbit' by lia. apply bit_before_out. lia. }
    change (31 - 0) with 31 in Em. rewrite Em. exists (i32 (8 * (c - p) + m)). split; [done|]. fold v in Ebm, Hmin. rewrite Hbit' in Ebm by lia.
    assert (∀ n, 8 * p ≤ n < 8 * c + m → n < 8 * e → bit_of s n = negb v) as Hbefore.
    { intros n Hn Hne. destruct (decide (n < 8 * c)); [apply Hskip; lia|]. rewrite <-(Hmin (n - 8 * c)) by lia.
      rewrite Hbit', bit_before_in by lia. f_equal. lia. }
    destruct (decide (8 * c + m < 8 * e)) as [Hin|Hout].
    + left. exists (8 * c + m). rewrite bit_before_in in Ebm by done. split; [|f_equal; lia].
      unfold first_bit. split_and!; [lia|done|done|]. intros n Hn. apply Hbefore; lia.
    + right. rewrite bit_before_out in Ebm by lia. rewrite <-Ebm. split; [rewrite Ebm; intros n Hn; apply Hbefore; lia|].
      f_equal. destruct (decide (8 * c + m = 8 * e)); [lia|]. pose proof (Hmin (8 * e - 8 * c) ltac:(lia)) as E.
      rewrite Hbit', bit_before_out, <-Ebm in E by lia. done.
Qed.

(** ** BITPOS *)

Definition pos_range (s : text) (range : option (Z * option Z)) : option (Z * Z) :=
  match range with
  | Some (start, Some end_) => Some (start, end_)
  | Some (start, None) => Some (start, blen s - 1)
  | None => None
  end.

Definition pos_range_ok (range : option (Z * option Z)) : Prop :=
  match range with
  | Some (start, Some end_) => - 2 ^ 31 ≤ start < 2 ^ 31 ∧ - 2 ^ 31 ≤ end_ < 2 ^ 31
  | Some (start, None) => - 2 ^ 31 ≤ start < 2 ^ 31
  | None => True
  end.

(** The positions where BITPOS looks, and whether it sees the zeros behind the string. *)
Definition searched (s : text) (range : option (Z * option Z)) (n : Z) : Prop :=
  0 ≤ n < 8 * blen s ∧ selected s (pos_range s range) n.
Definition open_ended (range : option (Z * option Z)) : bool :=
  match range with Some (_, Some _) => false | _ => true end.

(** The answer: the first position with the bit; if there is none, the first position
    behind the string for a zero and an open range, and otherwise -1. *)
Definition bitpos_answer (s : text) (bit : Z) (range : option (Z * option Z)) (r : Z) : Prop :=
  (searched s range r ∧ bit_of s r = (bit =? 1) ∧ ∀ n, searched s range n → bit_of s n = (bit =? 1) → r ≤ n) ∨
  ((∀ n, searched s range n → bit_of s n = negb (bit =? 1)) ∧
   (r = -1 ∧ (bit = 0 → open_ended range = true → ∀ n, ¬ searched s range n) ∨
    r = 8 * blen s ∧ bit = 0 ∧ open_ended range = true ∧ ∃ n, searched s range n)).

Lemma bitpos_spec a s bit range : Forall byte_ok s → blen s < 2 ^ 28 → bit = 0 ∨ bit = 1 → pos_range_ok range →
  ∃ r, bitpos a s bit range = Some r ∧ bitpos_answer s bit range r.
Proof.
  intros Hs Hl Hbit Hr. pose proof (blen_nonneg s) as Hb0. unfold bitpos.
  assert (bit_range (i32 (blen s)) (match range with Some (start, end_) => Some (start, default (i32 (i32 (blen s) - 1)) end_) | None => None end)
    = bit_range (i32 (blen s)) (pos_range s range)) as ->.
  { rewrite (wraps_small 32 (blen s)) by (try unlimit; lia). rewrite (wraps_small 32 (blen s - 1)) by (try unlimit; lia).
    by destruct range as [[? [?|]]|]. }
  destruct (bit_range (i32 (blen s)) (pos_range s range)) as [start end_] eqn:E.
  destruct (bit_range_spec s (pos_range s range) start end_) as (H0 & H1 & Hsel); [lia| |done|].
  { destruct range as [[? [?|]]|]; cbn [pos_range pos_range_ok] in *; [done| |done]. split; [done|unlimit; lia]. }
  assert (∀ n, searched s range n ↔ 8 * start ≤ n < 8 * (end_ + 1)) as Hse.
  { intros n. unfold searched. split; [intros [? ?]; by apply Hsel|]. intros Hn. assert (0 ≤ n < 8 * blen s) by lia. split; [done|]. by apply Hsel. }
  assert (open_ended range = true → end_ = blen s - 1) as Hopen.
  { clear - E Hl Hb0. intros Ho. rewrite (wraps_small 32 (blen s)) in E by (try unlimit; lia). unfold bit_range in E.
    rewrite (wraps_small 32 (blen s - 1)) in E by (try unlimit; lia).
    destruct range as [[? [?|]]|]; [done| |]; cbn [pos_range] in E; injection E as _ <-; [|done].
    destruct (Z.ltb_spec (blen s - 1) 0); [rewrite (wraps_small 32 (blen s + (blen s - 1))) by (try unlimit; lia)|]; zcase; zcase; lia. }
  zcase.
  - exists (-1). split; [done|]. right. split; [intros n Hn%Hse; lia|]. left. split; [done|]. intros _ _ n Hn%Hse. lia.
  - rewrite (wraps_small 32 (end_ - start)), (wraps_small 32 (end_ - start + 1)) by (try unlimit; lia).
    destruct (redisBitpos_spec a s start (end_ - start + 1) bit Hs) as (r & -> & Hcase); [unlimit; lia|done|lia|lia|lia|].
    cbn [mbind option_bind]. replace (start + (end_ - start + 1)) with (end_ + 1) in Hcase by lia.
    rewrite (wraps_small 32 ((end_ - start + 1) * 8)), (wraps_small 32 (start * 8)) by (try unlimit; lia).
    destruct Hcase as [(n & (Hn & En & Hmin) & ->)|(Hnone & ->)].
    + rewrite (wraps_small 32 (n - 8 * start)) by (try unlimit; lia).
      rewrite (proj2 (Z.eqb_neq (n - 8 * start) _)), (proj2 (Z.eqb_neq (n - 8 * start) (-1))), andb_false_r by lia. cbn [negb].
      rewrite wraps_small by (try unlimit; lia). exists n. split; [f_equal; lia|]. left. split_and!; [by apply Hse|done|].
      intros m Hm%Hse Em. destruct (decide (n ≤ m)); [done|]. rewrite Hmin in Em by lia. by destruct (bit =? 1).
    + assert ((∀ n, searched s range n → bit_of s n = negb (bit =? 1))) as Hnone' by (intros n Hn%Hse; by apply Hnone).
      destruct Hbit as [-> | ->].
      * cbn [Z.eqb]. rewrite (wraps_small 32 (8 * _)) by (try unlimit; lia).
        rewrite (proj2 (Z.eqb_eq (8 * _) _)) by lia. rewrite (proj2 (Z.eqb_neq _ (-1))) by lia.
        rewrite andb_true_r, (wraps_small 32 (8 * _ + _)) by (try unlimit; lia).
        destruct (match range with Some (_, Some _) => true | _ => false end) eqn:Eo; cbn [andb negb].
        -- exists (-1). split; [done|]. right. split; [done|]. left. split; [done|]. intros _ Ho.
           by destruct range as [[? [?|]]|].
        -- assert (open_ended range = true) as Ho by (by destruct range as [[? [?|]]|]). specialize (Hopen Ho).
           exists (8 * blen s). split; [f_equal; lia|]. right. split; [done|]. right. split_and!; [done..|].
           exists (8 * start). apply Hse. lia.
      * cbn. exists (-1). rewrite !andb_false_r. split; [done|]. right. split; [done|]. left. split; [done|]. lia.
Qed.

(** The address of a string does not matter for the answer. *)
Lemma first_bit_unique s v lo hi n m : first_bit s v lo hi n → first_bit s v lo hi m → n = m.
Proof.
  intros (Hn & Bn & Mn) (Hm & Bm & Mm). destruct (Z.lt_trichotomy n m) as [Hlt|[->|Hlt]]; [|done|].
  - specialize (Mm n ltac:(lia)). rewrite Bn in Mm. by destruct v.
  - specialize (Mn m ltac:(lia)). rewrite Bm in Mn. by destruct v.
Qed.

Lemma redisBitpos_address s p count bit : Forall byte_ok s → blen s < 2 ^ 31 - 1 → bit = 0 ∨ bit = 1 → 0 ≤ p → 0 ≤ count → p + count ≤ blen s →
  ∃ r, ∀ a, redisBitpos a s p count bit = Some r.
Proof.
  intros Hs Hl Hb Hp Hc He. destruct (redisBitpos_spec 0 s p count bit Hs Hl Hb Hp Hc He) as (r & _ & H0). exists r. intros a.
  destruct (redisBitpos_spec a s p count bit Hs Hl Hb Hp Hc He) as (r' & -> & H1). f_equal.
  destruct H0 as [(n & Hn & ->)|(Hn & ->)], H1 as [(m & Hm & ->)|(Hm & ->)]; [|exfalso..|done].
  - by rewrite (first_bit_unique _ _ _ _ _ _ Hn Hm).
  - destruct Hn as (Hr & Hv & _). rewrite (Hm n Hr) in Hv. by destruct (bit =? 1).
  - destruct Hm as (Hr & Hv & _). rewrite (Hn m Hr) in Hv. by destruct (bit =? 1).
Qed.

Lemma bitpos_address s bit range : Forall byte_ok s → blen s < 2 ^ 31 - 1 → bit = 0 ∨ bit = 1 → pos_range_ok range → ∃ r, ∀ a, bitpos a s bit range = Some r.
Proof.
  intros Hs Hl Hb Hr. unfold bitpos. pose proof (blen_nonneg s) as H0.
  assert (match range with Some (start, end_) => Some (start, default (i32 (i32 (blen s) - 1)) end_) | None => None end = pos_range s range) as ->.
  { rewrite (wraps_small 32 (blen s)) by (try unlimit; lia). rewrite (wraps_small 32 (blen s - 1)) by (try unlimit; lia). by destruct range as [[? [?|]]|]. }
  destruct (bit_range (i32 (blen s)) (pos_range s range)) as [start end_] eqn:Er.
  destruct (bit_range_spec s (pos_range s range) start end_) as (Hst & Hen & _); [lia| |done|].
  { destruct range as [[? [?|]]|]; cbn [pos_range pos_range_ok] in *; [done| |done]. split; [done|unlimit; lia]. }
  destruct (Z.ltb_spec end_ start); [by exists (-1)|].
  destruct (redisBitpos_address s start (i32 (i32 (end_ - start) + 1)) bit Hs Hl Hb) as [r Hp]; [lia|..].
  1-2: rewrite (wraps_small 32 (end_ - start)), wraps_small by (try unlimit; lia); lia.
  destruct (match range with Some (_, Some _) => true | _ => false end && (bit =? 0) && (r =? i32 (i32 (i32 (end_ - start) + 1) * 8))) eqn:Ec;
    eexists; intros a; rewrite Hp; cbn [mbind option_bind]; rewrite Ec; reflexivity.
Qed.

(** The position is computed in a [long]: with 32 bits it overflows for a string of
    256 MB, which the limit of 512 MB allows. *)
Lemma bitpos_overflow a n : Z.of_nat n = 2 ^ 28 → bitpos a (replicate n 0 ++ [255]) 1 None = Some (- 2 ^ 31).
Proof.
  intros Hn. set (s := replicate n 0 ++ [255]).
  assert (blen s = 2 ^ 28 + 1) as Hl by (unfold s; rewrite blen_app; unfold blen; rewrite length_replicate, Hn; done).
  assert (Forall byte_ok s) as Hs by (apply Forall_app; split; [by apply Forall_replicate|by repeat constructor]).
  assert (∀ m, 0 ≤ m → bit_of s m = bool_decide (2 ^ 31 ≤ m < 2 ^ 31 + 8)) as Hbits.
  { intros m Hm. destruct (decide (m < 8 * (2 ^ 28 + 1))); [|rewrite bit_of_behind by lia; symmetry; apply bool_decide_eq_false; unlimit; lia].
    rewrite (Z.div_mod m 8) by lia. pose proof (Z.mod_pos_bound m 8 ltac:(lia)).
    assert (0 ≤ m / 8 < 2 ^ 28 + 1) by (split; [apply Z.div_pos|apply Z.div_lt_upper_bound]; lia).
    destruct (decide (m / 8 < 2 ^ 28)).
    - rewrite (bit_of_byte s (m / 8) 0); [|lia| |lia].
      + rewrite Z.testbit_0_l. symmetry. apply bool_decide_eq_false. unlimit. lia.
      + unfold s. rewrite lookup_app_l by (rewrite length_replicate; lia). apply lookup_replicate_2. lia.
    - rewrite (bit_of_byte s (m / 8) 255); [|lia| |lia].
      + change 255 with (Z.ones 8). rewrite Z.ones_spec_low by lia. symmetry. apply bool_decide_eq_true. unlimit. lia.
      + unfold s. rewrite lookup_app_r by (rewrite length_replicate; lia). rewrite length_replicate.
        by replace (Z.to_nat (m / 8) - n)%nat with 0%nat by lia. }
  unfold bitpos. rewrite Hl. clearbody s. unlimit.
  change (bit_range (i32 (268435456 + 1)) None) with (0, 268435456). cbn -[redisBitpos].
  destruct (redisBitpos_spec a s 0 (268435456 + 1) 1 Hs) as (r & Er & Hcase); [unlimit; lia|by right|lia|lia|lia|].
  change (i32 (i32 (268435456 - 0) + 1)) with (268435456 + 1). rewrite Er. cbn [mbind option_bind].
  destruct Hcase as [(m & (Hm & Em & Hmin) & ->)|(Hnone & _)].
  - assert (m = 2147483648) as ->; [|by vm_compute]. rewrite Hbits in Em by lia. apply bool_decide_eq_true in Em.
    destruct (decide (m = 2147483648)); [done|]. specialize (Hmin 2147483648 ltac:(lia)). rewrite Hbits in Hmin by lia. done.
  - specialize (Hnone 2147483648 ltac:(lia)). rewrite Hbits in Hnone by lia. done.
Qed.

(** ** Updates of a range *)

(** The bytes from [lo] up to but without [hi] are changed by [f]. *)
Definition upd (f : nat → Z → Z) (lo hi : Z) (l : text) : text :=
  imap (λ i x, if bool_decide (lo ≤ Z.of_nat i < hi) then f i x else x) l.

Lemma upd_lookup f lo hi l i :
  upd f lo hi l !! i = (λ x, if bool_decide (lo ≤ Z.of_nat i < hi) then f i x else x) <$> l !! i.
Proof. apply list_lookup_imap. Qed.

Lemma upd_length f lo hi l : length (upd f lo hi l) = length l.
Proof. apply length_imap. Qed.
Lemma upd_blen f lo hi l : blen (upd f lo hi l) = blen l.
Proof. unfold blen. by rewrite upd_length. Qed.

Lemma upd_app f lo mid hi l : lo ≤ mid ≤ hi → upd f mid hi (upd f lo mid l) = upd f lo hi l.
Proof.
  intros. apply list_eq. intros i. rewrite !upd_lookup. destruct (l !! i) as [x|]; [|done]. cbn. f_equal.
  repeat case_bool_decide; done || lia.
Qed.

Lemma upd_compose f g lo hi l : upd f lo hi (upd g lo hi l) = upd (λ i x, f i (g i x)) lo hi l.
Proof.
  apply list_eq. intros i. rewrite !upd_lookup. destruct (l !! i) as [x|]; [|done]. cbn. f_equal. by case_bool_decide.
Qed.

Lemma upd_none f lo l : upd f lo lo l = l.
Proof.
  apply list_eq. intros i. rewrite !upd_lookup. destruct (l !! i) as [x|]; [|done]. cbn. f_equal. case_bool_decide; done || lia.
Qed.

Lemma upd_id lo hi l : upd (λ _ x, x) lo hi l = l.
Proof. apply list_eq. intros i. rewrite !upd_lookup. destruct (l !! i) as [x|]; [|done]. cbn. by case_bool_decide. Qed.

Lemma upd_ext f g lo hi l : (∀ i x, l !! i = Some x → lo ≤ Z.of_nat i < hi → f i x = g i x) → upd f lo hi l = upd g lo hi l.
Proof.
  intros H. apply list_eq. intros i. rewrite !upd_lookup. destruct (l !! i) as [x|] eqn:E; [|done]. cbn. f_equal.
  case_bool_decide; [by apply H|done].
Qed.

Lemma upd_Forall (P : Z → Prop) f lo hi l : Forall P l → (∀ i x, P x → P (f i x)) → Forall P (upd f lo hi l).
Proof.
  rewrite !Forall_lookup. intros Hl Hf i x. rewrite upd_lookup. destruct (l !! i) as [y|] eqn:E; [|done]. cbn. intros [= <-].
  case_bool_decide; [apply Hf|]; by eapply Hl.
Qed.

(** What is written over a part of the block is such an update. *)
Lemma mstore_upd f l lo bs : 0 ≤ lo → lo + blen bs ≤ blen l →
  (∀ i b, bs !! i = Some b → ∃ x, l !! (Z.to_nat lo + i)%nat = Some x ∧ b = f (Z.to_nat lo + i)%nat x) →
  mstore l lo bs = Some (upd f lo (lo + blen bs) l).
Proof.
  intros Hlo Hle H. unfold mstore. zdec. cbn [andb]. f_equal. apply list_eq. intros i. rewrite upd_lookup.
  unfold blen in *. destruct (decide (i < Z.to_nat lo)%nat).
  { rewrite lookup_app_l, lookup_take by (rewrite ?length_take; lia). rewrite decide_True by lia.
    destruct (l !! i); [|done]. cbn. rewrite bool_decide_eq_false_2 by lia. done. }
  rewrite lookup_app_r by (rewrite length_take; lia). rewrite length_take, Nat.min_l by lia.
  destruct (decide (i < Z.to_nat lo + length bs)%nat).
  - rewrite lookup_app_l by lia. destruct (lookup_lt_is_Some_2 bs (i - Z.to_nat lo)) as [b Eb]; [lia|].
    destruct (H _ _ Eb) as (x & Ex & ->). replace (Z.to_nat lo + (i - Z.to_nat lo))%nat with i in * by lia.
    rewrite Eb, Ex. cbn. by rewrite bool_decide_eq_true_2 by lia.
  - rewrite lookup_app_r, lookup_drop by lia. replace (Z.to_nat (lo + Z.of_nat (length bs)) + (i - Z.to_nat lo - length bs))%nat with i by lia.
    destruct (l !! i); [|done]. cbn. by rewrite bool_decide_eq_false_2 by lia.
Qed.

(** ** The operations on bytes and words *)

(** The operation on two bits. *)
Definition bool_op (op : Z) (x y : bool) : bool :=
  if op =? BITOP_AND then x && y else if op =? BITOP_OR then x || y else if op =? BITOP_XOR then xorb x y else x.

Lemma testbit_bit_op op x y i : 0 ≤ i → Z.testbit (bit_op op x y) i = bool_op op (Z.testbit x i) (Z.testbit y i).
Proof.
  intros. unfold bit_op, bool_op. repeat (zcase; [first [apply Z.land_spec|apply Z.lor_spec|apply Z.lxor_spec]|]). done.
Qed.

Lemma byte_ok_shiftr x : byte_ok x ↔ 0 ≤ x ∧ Z.shiftr x 8 = 0.
Proof. unfold byte_ok. rewrite Z.shiftr_div_pow2 by lia. change (2 ^ 8) with 256. Z.to_euclidean_division_equations. lia. Qed.

Lemma bit_op_ok op x y : byte_ok x → byte_ok y → byte_ok (bit_op op x y).
Proof.
  rewrite !byte_ok_shiftr. intros [? Ex] [? Ey]. unfold bit_op.
  repeat (zcase; [rewrite ?Z.land_nonneg, ?Z.lor_nonneg, ?Z.lxor_nonneg, ?Z.shiftr_land, ?Z.shiftr_lor, ?Z.shiftr_lxor, Ex, Ey; split; [lia|done]|]).
  done.
Qed.

Lemma bit_op_bytes op b r c q : byte_ok b → byte_ok c → bit_op op (b + 256 * r) (c + 256 * q) = bit_op op b c + 256 * bit_op op r q.
Proof.
  intros Hb Hc. apply Z.bits_inj'. intros i Hi. rewrite testbit_bit_op by done.
  rewrite !testbit_byte by (try apply bit_op_ok; done). zcase; by rewrite testbit_bit_op by lia.
Qed.

Lemma bit_op_word op xs ys : length xs = length ys → Forall byte_ok xs → Forall byte_ok ys →
  bit_op op (le_dec xs) (le_dec ys) = le_dec (zip_with (bit_op op) xs ys).
Proof.
  revert ys. induction xs as [|x xs IH]; intros [|y ys] Hl Hx Hy; try done.
  - cbn [zip_with]. rewrite le_dec_nil. unfold bit_op. by repeat zcase.
  - apply Forall_cons in Hx as [? ?], Hy as [? ?]. cbn [zip_with]. rewrite !le_dec_cons, bit_op_bytes by done.
    rewrite IH; [done|by injection Hl|done..].
Qed.

Lemma not_byte b : byte_ok b → u8 (Z.lnot b) = 255 - b.
Proof. unfold byte_ok, Z.lnot, wrapu. intros. symmetry. apply (Z.mod_unique _ _ (-1)); unlimit; lia. Qed.
Lemma not_byte_ok b : byte_ok b → byte_ok (u8 (Z.lnot b)).
Proof. intros Hb. rewrite not_byte by done. unfold byte_ok in *. lia. Qed.

Lemma not_word xs : length xs = 4%nat → Forall byte_ok xs → u32 (Z.lnot (le_dec xs)) = le_dec ((λ x, u8 (Z.lnot x)) <$> xs).
Proof.
  intros Hl Hx. destruct xs as [|x0 [|x1 [|x2 [|x3 [|]]]]]; try done.
  repeat (apply Forall_cons in Hx as [? Hx]). rewrite !fmap_cons, fmap_nil, !not_byte by done.
  rewrite !le_dec_cons, le_dec_nil. unfold byte_ok, Z.lnot, wrapu in *. symmetry. apply (Z.mod_unique _ _ (-1)); unlimit; lia.
Qed.

(** The byte [i] of a source, which is zero behind its end. *)
Definition byte (i : nat) (src : text) : Z := default 0 (src !! i).

Lemma byte_byte_ok i src : Forall byte_ok src → byte_ok (byte i src).
Proof. unfold byte. intros H. destruct (src !! i) eqn:E; [|done]. by eapply Forall_lookup_1. Qed.

Section fast.
Context (op : Z) (j k : Z) (res : text) (Hres : Forall byte_ok res) (Hj : 0 ≤ j) (Hk : 0 ≤ k) (Hle : j + 4 * k + 4 ≤ blen res).

Lemma fast_word_spec src : Forall byte_ok src → j + 4 * k + 4 ≤ blen src →
  fast_word op j src res k = Some (upd (λ i x, bit_op op x (byte i src)) (j + 4 * k) (j + 4 * k + 4) res).
Proof.
  intros Hsrc Hlen. unfold fast_word. set (p := j + 4 * k) in *. rewrite !load_word_slice by lia. cbn [mbind option_bind].
  assert (∀ l, p + 4 ≤ blen l → length (slice l p (p + 4)) = 4%nat) as L.
  { intros l Hl. pose proof (blen_slice l p (p + 4) ltac:(lia) Hl) as E. unfold blen in E. lia. }
  rewrite bit_op_word by (rewrite ?L by done; try done; by apply slice_Forall).
  set (bs := zip_with _ _ _). assert (length bs = 4%nat) as Lb by (unfold bs; rewrite length_zip_with, !L by done; done).
  rewrite <-Lb at 1. rewrite le_enc_dec.
  2:{ apply Forall_lookup. intros i b (x & y & -> & Ex & Ey)%lookup_zip_with_Some.
      apply bit_op_ok; [eapply (Forall_lookup_1 _ _ i x); [|exact Ex]|eapply (Forall_lookup_1 _ _ i y); [|exact Ey]]; by apply slice_Forall. }
  replace (p + 4) with (p + blen bs) by (unfold blen; lia). apply mstore_upd; [lia|unfold blen in *; lia|].
  intros i b (x & y & -> & Ex & Ey)%lookup_zip_with_Some. unfold slice in Ex, Ey.
  apply lookup_take_Some in Ex as [Ex _], Ey as [Ey _]. rewrite lookup_drop in Ex, Ey. exists x. split; [done|].
  unfold byte. by rewrite Ey.
Qed.

Lemma fast_not_spec :
  fast_not j res k = Some (upd (λ _ x, u8 (Z.lnot x)) (j + 4 * k) (j + 4 * k + 4) res).
Proof.
  unfold fast_not. set (p := j + 4 * k) in *. rewrite !load_word_slice by lia. cbn [mbind option_bind].
  pose proof (blen_slice res p (p + 4) ltac:(lia) Hle) as L.
  rewrite not_word by (first [unfold blen in L; lia|by apply slice_Forall]).
  set (bs := _ <$> _). assert (length bs = 4%nat) as Lb by (unfold bs; rewrite length_fmap; unfold blen in L; lia).
  rewrite <-Lb at 1. rewrite le_enc_dec.
  2:{ apply Forall_fmap. eapply Forall_impl; [by apply slice_Forall|]. apply not_byte_ok. }
  replace (p + 4) with (p + blen bs) by (unfold blen; lia). apply mstore_upd; [lia|unfold blen in *; lia|].
  intros i b (x & -> & Ex)%list_lookup_fmap_Some. unfold slice in Ex.
  apply lookup_take_Some in Ex as [Ex _]. rewrite lookup_drop in Ex. by exists x.
Qed.
End fast.

(** ** The two ways of BITOP *)

(** What becomes of a byte [x] of the first source. *)
Definition first_byte (op x : Z) : Z := if op =? BITOP_NOT then u8 (Z.lnot x) else x.
Definition combine (op : Z) (rest : list text) (i : nat) (x : Z) : Z := foldl (λ x src, bit_op op x (byte i src)) x rest.
Definition final (op : Z) (rest : list text) (i : nat) (x : Z) : Z := combine op rest i (first_byte op x).

Lemma combine_ok op rest i x : Forall (Forall byte_ok) rest → byte_ok x → byte_ok (combine op rest i x).
Proof.
  unfold combine. intros H. revert x. induction H as [|src rest Hsrc _ IH]; intros x Hx; [done|]. cbn [foldl].
  apply IH, bit_op_ok; [done|]. by apply byte_byte_ok.
Qed.
Lemma first_byte_ok op x : byte_ok x → byte_ok (first_byte op x).
Proof. unfold first_byte. intros. zcase; [by apply not_byte_ok|done]. Qed.
Lemma final_ok op rest i x : Forall (Forall byte_ok) rest → byte_ok x → byte_ok (final op rest i x).
Proof. intros. by apply combine_ok, first_byte_ok. Qed.

(** NOT does not look at a second source. *)
Lemma combine_not rest i x : combine BITOP_NOT rest i x = x.
Proof. unfold combine. by induction rest. Qed.

(** Four words in a row make an update of their 16 bytes. *)
Lemma four_words (w : text → Z → option text) f j res : Forall byte_ok res → 0 ≤ j → j + 16 ≤ blen res →
  (∀ i x, byte_ok x → byte_ok (f i x)) →
  (∀ res k, Forall byte_ok res → 0 ≤ k → j + 4 * k + 4 ≤ blen res → k < 4 → w res k = Some (upd f (j + 4 * k) (j + 4 * k + 4) res)) →
  (res ← w res 0; res ← w res 1; res ← w res 2; w res 3) = Some (upd f j (j + 16) res).
Proof.
  intros Hres Hj Hle Hf Hw.
  assert (∀ k lo hi, 0 ≤ k < 4 → lo = j + 4 * k → hi = lo + 4 → w (upd f j lo res) k = Some (upd f j hi res)) as W.
  { intros k lo hi Hk -> ->. rewrite Hw by first [by apply upd_Forall|rewrite ?upd_blen; lia]. by rewrite upd_app by lia. }
  rewrite <-(upd_none f j res) at 1. rewrite (W 0 j (j + 4)) by lia. cbn [mbind option_bind].
  rewrite (W 1 (j + 4) (j + 8)) by lia. cbn [mbind option_bind].
  rewrite (W 2 (j + 8) (j + 12)) by lia. cbn [mbind option_bind]. apply W; lia.
Qed.

Lemma fast_sources_spec op j rest res : Forall byte_ok res → Forall (Forall byte_ok) rest →
  0 ≤ j → j + 16 ≤ blen res → Forall (λ src, j + 16 ≤ blen src) rest →
  fast_sources op j rest res = Some (upd (combine op rest) j (j + 16) res).
Proof.
  intros Hres Hrest Hj Hle. revert res Hres Hle. induction Hrest as [|src rest Hsrc Hrest IH]; intros res Hres Hle Hlen.
  - cbn [fast_sources]. f_equal. symmetry. apply upd_id.
  - apply Forall_cons in Hlen as [Hl Hlen]. cbn [fast_sources].
    pose proof (four_words (λ res k, fast_word op j src res k) (λ i x, bit_op op x (byte i src)) j res Hres Hj Hle) as E.
    assert (∀ i x, byte_ok x → byte_ok (bit_op op x (byte i src))) as Hok by (intros; apply bit_op_ok; [done|by apply byte_byte_ok]).
    specialize (E Hok ltac:(intros; apply fast_word_spec; done || lia)). cbn beta in E.
    destruct (fast_word op j src res 0) as [r0|]; [|done]. cbn [mbind option_bind] in *.
    destruct (fast_word op j src r0 1) as [r1|]; [|done]. cbn [mbind option_bind] in *.
    destruct (fast_word op j src r1 2) as [r2|]; [|done]. cbn [mbind option_bind] in *. rewrite E. cbn [mbind option_bind].
    rewrite IH by first [by apply upd_Forall|by rewrite upd_blen|done]. by rewrite upd_compose.
Qed.

Lemma fast_step_spec op j src0 rest res : Forall byte_ok res → Forall (Forall byte_ok) rest →
  0 ≤ j → j + 16 ≤ blen res → Forall (λ src, j + 16 ≤ blen src) rest →
  fast_step op j (src0 :: rest) res = Some (upd (final op rest) j (j + 16) res).
Proof.
  intros Hres Hrest Hj Hle Hlen. unfold fast_step, final, first_byte. destruct (Z.eqb_spec op BITOP_NOT) as [->|].
  - rewrite (upd_ext _ (λ _ x, u8 (Z.lnot x))) by (intros; apply combine_not).
    apply (four_words (λ res k, fast_not j res k)); [done..| |]; [by intros; apply not_byte_ok|]. intros. apply fast_not_spec; done || lia.
  - cbn [tail]. by apply fast_sources_spec.
Qed.

Lemma bitop_fast_spec fuel op src0 rest res j minlen : Forall byte_ok res → Forall (Forall byte_ok) rest →
  0 ≤ j → 0 ≤ minlen → j + minlen ≤ blen res → blen res < 2 ^ 31 - 1 → Forall (λ src, j + minlen ≤ blen src) rest → minlen ≤ Z.of_nat fuel →
  ∃ j', j ≤ j' ≤ j + minlen ∧ bitop_fast fuel op (src0 :: rest) res j minlen = Some (upd (final op rest) j j' res, j').
Proof.
  intros Hres Hrest. revert res Hres j minlen. induction fuel as [|fuel IH]; intros res Hres j minlen Hj Hm Hle Hl Hlen Hf;
    cbn [bitop_fast]; rewrite (wrapu_small 64) by (unlimit; lia).
  { zdec. exists j. rewrite upd_none. split; [lia|done]. }
  zcase; [|exists j; rewrite upd_none; split; [lia|done]].
  rewrite fast_step_spec by first [done|lia|eapply Forall_impl; [exact Hlen|]; cbn; lia]. cbn [mbind option_bind].
  rewrite !wraps_small by (try unlimit; lia).
  destruct (IH (upd (final op rest) j (j + 16) res)) with (j := j + 16) (minlen := minlen - 16) as (j' & Hj' & ->).
  - apply upd_Forall; [done|]. intros. by apply final_ok.
  - lia.
  - lia.
  - rewrite upd_blen. lia.
  - by rewrite upd_blen.
  - eapply Forall_impl; [exact Hlen|]. cbn. lia.
  - lia.
  - exists j'. rewrite upd_app by lia. split; [lia|done].
Qed.

(** [o] as it is used: a missing key is an empty string. *)
Definition sources (objects : list (option text)) : list text := (λ o, default [] o) <$> objects.
Definition source_ok (src : text) : Prop := Forall byte_ok src ∧ blen src < 2 ^ 31 - 1.
Definition max_len (srcs : list text) : Z := foldr (λ src n, Z.max (blen src) n) 0 srcs.

Lemma max_len_cons src srcs : max_len (src :: srcs) = Z.max (blen src) (max_len srcs).
Proof. done. Qed.
Lemma max_len_le srcs : Forall (λ src, blen src ≤ max_len srcs) srcs.
Proof.
  induction srcs as [|src srcs IH]; constructor; rewrite ?max_len_cons; [lia|]. eapply Forall_impl; [exact IH|]. intros l Hl. cbn beta in *. lia.
Qed.
Lemma max_len_ok srcs : Forall source_ok srcs → 0 ≤ max_len srcs < 2 ^ 31 - 1.
Proof. induction 1 as [|src srcs [_ Hl] _ IH]; [done|]. rewrite max_len_cons. pose proof (blen_nonneg src). lia. Qed.
Lemma sources_cons o objects : sources (o :: objects) = default [] o :: sources objects.
Proof. done. Qed.

Lemma bitop_lens_spec objects first maxlen minlen maxlen' minlen' : Forall source_ok (sources objects) → 0 ≤ maxlen → 0 ≤ minlen →
  bitop_lens objects first maxlen minlen = (maxlen', minlen') →
  maxlen' = Z.max maxlen (max_len (sources objects)) ∧ 0 ≤ minlen' ∧
  Forall (λ src, minlen' ≤ blen src) (sources objects) ∧ (first = false ∨ objects = [] → minlen' ≤ minlen).
Proof.
  revert first maxlen minlen. induction objects as [|[o|] objects IH]; intros first maxlen minlen Hok Hmax Hmin; cbn [bitop_lens].
  - intros [= <- <-]. cbn. split_and!; [lia|done|constructor|done].
  - apply Forall_cons in Hok as [[_ Hl] Hok]. change (default [] (Some o)) with o in *. pose proof (blen_nonneg o). rewrite wraps_small by (try unlimit; lia).
    intros E. apply IH in E as (-> & H0 & H1 & H2); [|done|zcase; lia|destruct (first || _); lia].
    specialize (H2 (or_introl eq_refl)). rewrite sources_cons, max_len_cons. change (default [] (Some o)) with o. split_and!; [zcase; lia|done| |].
    + constructor; [|done]. destruct first; cbn [orb] in H2; [done|]. zcase_in H2; lia.
    + intros [-> |?]; [|done]. cbn [orb] in H2. zcase_in H2; lia.
  - apply Forall_cons in Hok as [_ Hok]. intros E. apply IH in E as (-> & H0 & H1 & H2); [|done..].
    specialize (H2 (or_introl eq_refl)). rewrite sources_cons, max_len_cons. change (default [] None) with (@nil Z). rewrite blen_nil.
    pose proof (max_len_ok _ Hok). split_and!; [lia|done| |lia]. constructor; [rewrite blen_nil; lia|done].
Qed.

Lemma byte_at_spec src j : source_ok src → 0 ≤ j → byte_at src j = Some (byte (Z.to_nat j) src).
Proof.
  intros [_ Hl] Hj. unfold byte_at, byte. pose proof (blen_nonneg src). rewrite wraps_small by (try unlimit; lia).
  zcase; [by rewrite lookup_ge_None_2 by (unfold blen in *; lia)|].
  unfold mget. zdec. destruct (lookup_lt_is_Some_2 src (Z.to_nat j)) as [b ->]; [unfold blen in *; lia|done].
Qed.

Lemma bitop_byte_spec op j rest x : Forall source_ok rest → 0 ≤ j → bitop_byte op j rest x = Some (combine op rest (Z.to_nat j) x).
Proof.
  intros Hok Hj. revert x. induction Hok as [|src rest Hsrc Hok IH]; intros x; [done|].
  cbn [bitop_byte]. rewrite byte_at_spec by done. cbn [mbind option_bind]. apply IH.
Qed.

Lemma bitop_bytes_spec fuel op src0 rest res j : Forall source_ok (src0 :: rest) →
  0 ≤ j ≤ blen res → blen res < 2 ^ 31 - 1 → blen res - j ≤ Z.of_nat fuel →
  bitop_bytes fuel op (src0 :: rest) res j (blen res) = Some (upd (λ i _, final op rest i (byte i src0)) j (blen res) res).
Proof.
  intros Hok. revert res j. induction fuel as [|fuel IH]; intros res j Hj Hl Hf; cbn [bitop_bytes].
  { zdec. replace j with (blen res) by lia. by rewrite upd_none. }
  zcase; [replace j with (blen res) by lia; by rewrite upd_none|].
  pose proof Hok as [H0 Hrest]%Forall_cons. rewrite byte_at_spec by (done || lia). cbn [mbind option_bind].
  rewrite bitop_byte_spec by (done || lia). cbn [mbind option_bind]. unfold mset.
  rewrite (mstore_upd (λ i _, final op rest i (byte i src0))); [|lia|rewrite blen_cons, blen_nil; lia|].
  2:{ intros [|i] b; [|done]. intros [= <-]. rewrite Nat.add_0_r.
      destruct (lookup_lt_is_Some_2 res (Z.to_nat j)) as [x Ex]; [unfold blen in *; lia|]. by exists x. }
  cbn [mbind option_bind]. change (blen [_]) with 1. rewrite wraps_small by (try unlimit; lia).
  set (res' := upd _ j (j + 1) res). replace (blen res) with (blen res') by apply upd_blen.
  rewrite IH by (unfold res'; rewrite ?upd_blen; lia). unfold res'. by rewrite upd_app, upd_blen by (rewrite ?upd_blen; lia).
Qed.

(** Both ways compute every byte of the result from the bytes of the sources. *)
Lemma bitop_bytewise op objects src0 rest : sources objects = src0 :: rest → Forall source_ok (sources objects) →
  bitop op objects = Some (if max_len (sources objects) =? 0 then None
                           else Some ((λ i, final op rest i (byte i src0)) <$> seq 0 (Z.to_nat (max_len (sources objects))))).
Proof.
  intros Esrc Hok. unfold bitop. destruct (bitop_lens objects true 0 0) as [maxlen minlen] eqn:E.
  destruct (bitop_lens_spec _ _ _ _ _ _ Hok (Z.le_refl 0) (Z.le_refl 0) E) as (-> & Hmin & Hlen & _).
  pose proof (max_len_ok _ Hok) as Hmax. rewrite Z.max_r by lia. pose proof (max_len_le (sources objects)) as Hle.
  set (n := max_len (sources objects)) in *. fold (sources objects). destruct (Z.eqb_spec n 0); [done|].
  rewrite Esrc in *. apply Forall_cons in Hlen as [Hlen0 Hlen], Hle as [Hle0 _]. pose proof Hok as [[H0 H0'] Hrest]%Forall_cons.
  assert (Forall (Forall byte_ok) rest) as Hrest' by (eapply Forall_impl; [exact Hrest|]; by intros ? []).
  set (zeros := replicate (Z.to_nat n) 0). assert (blen zeros = n) as Hz by (unfold zeros, blen; rewrite length_replicate; lia).
  set (G := λ i (_ : Z), final op rest i (byte i src0)).
  assert (∃ res j, 0 ≤ j ≤ n ∧ res = upd G 0 j res ∧ blen res = n ∧
    (if negb (minlen =? 0) && (Z.of_nat (length objects) <=? 16) then
       src1 ← head (src0 :: rest); bs ← mload src1 0 minlen; res ← mstore zeros 0 bs;
       bitop_fast (Z.to_nat minlen) op (src0 :: rest) res 0 minlen
     else Some (zeros, 0)) = Some (res, j)) as (res & j & Hj & Eres & Hres & ->).
  { destruct (negb (minlen =? 0) && (Z.of_nat (length objects) <=? 16)); [|exists zeros, 0; rewrite upd_none; split_and!; done || lia].
    cbn [head mbind option_bind]. set (bs := slice src0 0 minlen).
    assert (mload src0 0 minlen = Some bs) as -> by (unfold mload; zdec; unfold bs, slice; by rewrite Z.sub_0_r). cbn [mbind option_bind].
    assert (blen bs = minlen) as Hbs by (unfold bs; rewrite blen_slice by lia; lia).
    assert (∀ i b, bs !! i = Some b → src0 !! i = Some b) as Hget.
    { intros i b Hb. unfold bs, slice in Hb. apply lookup_take_Some in Hb as [Hb _]. by rewrite lookup_drop in Hb. }
    rewrite (mstore_upd (λ i _, byte i src0)); [|lia|lia|].
    2:{ intros i b Hb. change (Z.to_nat 0 + i)%nat with i. exists 0. split; [|cbn beta; unfold byte; by rewrite (Hget _ _ Hb)].
        apply lookup_replicate_2. apply lookup_lt_Some in Hb. unfold blen in Hbs. lia. }
    cbn [mbind option_bind]. rewrite Hbs, Z.add_0_l. set (start := upd _ 0 minlen zeros).
    assert (blen start = n) as Hstart by (unfold start; by rewrite upd_blen).
    destruct (bitop_fast_spec (Z.to_nat minlen) op src0 rest start 0 minlen) as (j & Hj & ->); try done; try lia.
    { apply Forall_lookup. intros i x. unfold start. rewrite upd_lookup. destruct (zeros !! i) as [y|] eqn:Ey; [|done]. cbn.
      intros [= <-]. case_bool_decide; [by apply byte_byte_ok|]. apply lookup_replicate in Ey as [-> _]. done. }
    exists (upd (final op rest) 0 j start), j. split_and!; [lia|lia| |by rewrite upd_blen|done].
    rewrite upd_compose. apply upd_ext. intros i x Ex Hi. unfold start in Ex. rewrite upd_lookup in Ex.
    destruct (zeros !! i); [|done]. cbn in Ex. rewrite bool_decide_eq_true_2 in Ex by lia. by injection Ex as <-. }
  cbn [mbind option_bind]. rewrite <-Hres. rewrite bitop_bytes_spec by (done || lia). cbn [mbind option_bind].
  rewrite Eres at 2. rewrite upd_app by lia. do 2 f_equal. apply list_eq. intros i. rewrite upd_lookup, list_lookup_fmap.
  unfold blen in *. destruct (decide (i < length res)%nat) as [Hi|Hi].
  - destruct (lookup_lt_is_Some_2 res i Hi) as [x ->]. rewrite lookup_seq_lt by lia. cbn. by rewrite bool_decide_eq_true_2 by lia.
  - rewrite lookup_ge_None_2, lookup_seq_ge by lia. done.
Qed.

(** ** What BITOP computes, bit by bit *)

Lemma testbit_first_byte op b k : 0 ≤ k < 8 →
  Z.testbit (first_byte op b) k = if op =? BITOP_NOT then negb (Z.testbit b k) else Z.testbit b k.
Proof.
  intros Hk. unfold first_byte. zcase; [|done]. unfold wrapu. rewrite Z.mod_pow2_bits_low by lia. apply Z.lnot_spec. lia.
Qed.

Lemma testbit_combine op rest i x k : 0 ≤ k →
  Z.testbit (combine op rest i x) k = foldl (bool_op op) (Z.testbit x k) ((λ src, Z.testbit (byte i src) k) <$> rest).
Proof.
  intros Hk. unfold combine. revert x. induction rest as [|src rest IH]; intros x; [done|].
  cbn [foldl]. rewrite IH, fmap_cons. cbn [foldl]. by rewrite testbit_bit_op.
Qed.

Lemma testbit_byte_of src n : 0 ≤ n → Z.testbit (byte (Z.to_nat (n / 8)) src) (7 - n mod 8) = bit_of src n.
Proof. intros Hn. unfold byte, bit_of. destruct (src !! _); [done|]. apply Z.testbit_0_l. Qed.

(** The bit [n] of the result of an operation on the bits of its sources. *)
Definition result_bit (op : Z) (bits : list bool) : bool :=
  if op =? BITOP_AND then forallb id bits
  else if op =? BITOP_OR then existsb id bits
  else if op =? BITOP_XOR then foldr xorb false bits
  else match bits with b :: _ => negb b | [] => false end.

Lemma foldl_result_bit op b bits : 0 ≤ op ≤ 3 →
  foldl (bool_op op) (if op =? BITOP_NOT then negb b else b) bits = result_bit op (b :: bits).
Proof.
  intros Hop. assert (op = 0 ∨ op = 1 ∨ op = 2 ∨ op = 3) as [-> |[-> |[-> | ->]]] by lia; cbn.
  - revert b. induction bits as [|c bits IH]; intros b; cbn; [by destruct b|]. rewrite IH. by rewrite andb_assoc.
  - revert b. induction bits as [|c bits IH]; intros b; cbn; [by destruct b|]. rewrite IH. by rewrite orb_assoc.
  - revert b. induction bits as [|c bits IH]; intros b; cbn; [by destruct b|]. rewrite IH. by rewrite xorb_assoc_reverse.
  - generalize (negb b). induction bits as [|c bits IH]; intros d; [done|]. cbn. apply IH.
Qed.

Lemma bit_of_bytes f len n : 0 ≤ n < 8 * Z.of_nat len →
  bit_of (f <$> seq 0 len) n = Z.testbit (f (Z.to_nat (n / 8))) (7 - n mod 8).
Proof.
  intros Hn. unfold bit_of. assert (0 ≤ n / 8 < Z.of_nat len) by (split; [apply Z.div_pos|apply Z.div_lt_upper_bound]; lia).
  rewrite list_lookup_fmap, lookup_seq_lt by lia. done.
Qed.

Lemma max_len_positive srcs : max_len srcs ≠ 0 → ∃ src, src ∈ srcs ∧ src ≠ [].
Proof.
  intros Hm. destruct (decide (Forall (λ src, src = []) srcs)) as [Hall|Hall].
  - exfalso. apply Hm. clear Hm. induction Hall as [|src srcs -> Hall IH]; [done|]. cbn. change (blen []) with 0. unfold max_len in IH. lia.
  - apply not_Forall_Exists in Hall; [|apply _]. apply Exists_exists in Hall as (src & Hin & Hs). by exists src.
Qed.

Lemma bitop_spec op objects : 0 ≤ op ≤ 3 → objects ≠ [] → Forall source_ok (sources objects) →
  ∃ r, bitop op objects = Some r ∧
    match r with
    | None => Forall (λ src, src = []) (sources objects)
    | Some res => ¬ Forall (λ src, src = []) (sources objects) ∧ blen res = max_len (sources objects) ∧ Forall byte_ok res ∧
        ∀ n, 0 ≤ n < 8 * blen res → bit_of res n = result_bit op ((λ src, bit_of src n) <$> sources objects)
    end.
Proof.
  intros Hop Hne Hok. destruct (sources objects) as [|src0 rest] eqn:Esrc; [by destruct objects|]. rewrite <-Esrc in Hok.
  rewrite (bitop_bytewise op objects src0 rest Esrc Hok). eexists. split; [done|].
  pose proof (max_len_ok _ Hok) as Hmax. pose proof (max_len_le (sources objects)) as Hle. rewrite Esrc in *.
  destruct (Z.eqb_spec (max_len (src0 :: rest)) 0) as [?|Hnz].
  - eapply Forall_impl; [exact Hle|]. intros src Hsrc. cbn beta in Hsrc. destruct src; [done|]. rewrite blen_cons in Hsrc. pose proof (blen_nonneg src). lia.
  - apply Forall_cons in Hok as [[H0 _] Hrest].
    assert (Forall (Forall byte_ok) rest) as Hrest' by (eapply Forall_impl; [exact Hrest|]; by intros ? []).
    set (res := _ <$> seq _ _). assert (blen res = max_len (src0 :: rest)) as Hres by (unfold res; blia).
    split_and!; [|done| |].
    + intros Hall. destruct (max_len_positive _ Hnz) as (src & Hin & Hs). rewrite Forall_forall in Hall. by apply Hs, Hall.
    + apply Forall_fmap, Forall_forall. intros i _. cbn. apply final_ok; [done|]. by apply byte_byte_ok.
    + intros n Hn. unfold res. rewrite bit_of_bytes by lia. pose proof (Z.mod_pos_bound n 8 ltac:(lia)).
      unfold final. rewrite testbit_combine, testbit_first_byte by lia. rewrite fmap_cons, <-foldl_result_bit by done.
      rewrite testbit_byte_of by lia. f_equal. apply list_fmap_ext. intros ? src _. apply testbit_byte_of. lia.
Qed.

(** ** SETBIT and GETBIT *)

Lemma getBitOffsetFromArgument_spec loffset : LLONG_MIN ≤ loffset ≤ LLONG_MAX →
  getBitOffsetFromArgument loffset = if bool_decide (0 ≤ loffset < 2 ^ 32) then Some loffset else None.
Proof.
  intros H. unfold getBitOffsetFromArgument. destruct (Z.ltb_spec loffset 0).
  { by rewrite bool_decide_eq_false_2 by lia. }
  rewrite wrapu_small by (unlimit; lia). cbn [orb]. rewrite Z.shiftr_div_pow2 by lia. zcase.
  - rewrite bool_decide_eq_false_2; [done|]. unlimit. Z.to_euclidean_division_equations. lia.
  - rewrite bool_decide_eq_true_2; [done|]. unlimit. Z.to_euclidean_division_equations. lia.
Qed.

Lemma offset_split n : 0 ≤ n → Z.shiftr n 3 = n / 8 ∧ Z.land n 7 = n mod 8 ∧ 0 ≤ n mod 8 < 8 ∧ 0 ≤ n / 8 ∧ n = 8 * (n / 8) + n mod 8.
Proof.
  intros. rewrite Z.shiftr_div_pow2 by lia. change 7 with (2 ^ 3 - 1). rewrite land_mask_mod by lia.
  change (2 ^ 3) with 8. split_and!; Z.to_euclidean_division_equations; lia.
Qed.

Lemma test_b2z b k : 0 ≤ k → (if Z.land b (Z.shiftl 1 k) =? 0 then 0 else 1) = Z.b2z (Z.testbit b k).
Proof.
  intros Hk. rewrite Z.shiftl_1_l, land_bit by done. assert (0 < 2 ^ k) by (apply Z.pow_pos_nonneg; lia).
  destruct (Z.testbit b k); [by rewrite (proj2 (Z.eqb_neq _ _)) by lia|done].
Qed.

Lemma getbit_spec s n : 0 ≤ n → getbit s n = Some (Z.b2z (bit_of s n)).
Proof.
  intros Hn. unfold getbit. destruct (offset_split n Hn) as (-> & -> & Hm & Hd & _). zcase.
  - unfold mget, bit_of. zdec. destruct (lookup_lt_is_Some_2 s (Z.to_nat (n / 8))) as [b ->]; [unfold blen in *; lia|].
    cbn [mbind option_bind]. by rewrite test_b2z by lia.
  - rewrite bit_of_behind; [done|]. Z.to_euclidean_division_equations. lia.
Qed.

Lemma grown_length s len : blen (grown s len) = Z.max (blen s) len.
Proof. unfold grown. rewrite blen_app. unfold blen. rewrite length_replicate. lia. Qed.

Lemma bit_of_grown s len n : 0 ≤ n → bit_of (grown s len) n = bit_of s n.
Proof.
  intros Hn. unfold bit_of, grown. set (i := Z.to_nat (n / 8)). destruct (decide (i < length s)%nat).
  - by rewrite lookup_app_l.
  - rewrite lookup_app_r, (lookup_ge_None_2 s) by lia. destruct (replicate _ _ !! _) eqn:E; [|done].
    apply lookup_replicate in E as [-> _]. apply Z.testbit_0_l.
Qed.

Lemma setbit_spec s off on : Forall byte_ok s → 0 ≤ off < 2 ^ 32 → on = 0 ∨ on = 1 →
  ∃ s', setbit s off on = Some (s', Z.b2z (bit_of s off)) ∧ Forall byte_ok s' ∧ blen s' = Z.max (blen s) (off / 8 + 1) ∧
    ∀ n, 0 ≤ n → bit_of s' n = if decide (n = off) then on =? 1 else bit_of s n.
Proof.
  intros Hs Hoff Hon. unfold setbit. destruct (offset_split off ltac:(lia)) as (-> & -> & Hm & Hd & Eoff).
  rewrite wraps_small by (try unlimit; Z.to_euclidean_division_equations; lia).
  set (p := off / 8) in *. set (k := 7 - off mod 8). assert (0 ≤ k < 8) as Hk by lia. set (g := grown s (p + 1)).
  assert (blen g = Z.max (blen s) (p + 1)) as Lg by apply grown_length.
  assert (∀ n, 0 ≤ n → bit_of g n = bit_of s n) as Bg by (intros; by apply bit_of_grown).
  assert (Forall byte_ok g) as Hg by (apply Forall_app; split; [done|by apply Forall_replicate]). clearbody g.
  destruct (slice_cons g p (p + 1)) as (b & -> & Lb & _); [lia..|]. cbn [mbind option_bind].
  set (b' := u8 _). unfold mset.
  rewrite (mstore_upd (λ _ _, b')); [|lia|rewrite blen_cons, blen_nil; lia|].
  2:{ intros [|i] c; [|done]. intros [= <-]. rewrite Nat.add_0_r. by exists b. }
  cbn [mbind option_bind]. change (blen [b']) with 1. rewrite test_b2z by lia.
  assert (byte_ok b') as Hb' by (unfold b', byte_ok; apply (wrapu_range 8); lia).
  assert (∀ i, 0 ≤ i < 8 → Z.testbit b' (7 - i) = if decide (i = off mod 8) then on =? 1 else Z.testbit b (7 - i)) as Bits.
  { intros i Hi. unfold b', wrapu. rewrite Z.mod_pow2_bits_low by lia. rewrite Z.lor_spec, Z.land_spec, Z.lnot_spec, Z.shiftl_1_l by lia.
    rewrite Z.pow2_bits_eqb, Z.shiftl_spec by lia. assert (Z.land on 1 = on) as -> by (by destruct Hon as [-> | ->]).
    case_decide.
    - replace (7 - i) with k by lia. rewrite Z.eqb_refl, Z.sub_diag, andb_false_r. by destruct Hon as [-> | ->].
    - rewrite (proj2 (Z.eqb_neq k (7 - i))) by lia. rewrite andb_true_r.
      replace (Z.testbit on (7 - i - k)) with false; [by rewrite orb_false_r|].
      destruct Hon as [-> | ->]; [by rewrite Z.testbit_0_l|]. destruct (decide (7 - i - k < 0)); [by rewrite Z.testbit_neg_r|].
      change 1 with (2 ^ 0). by rewrite Z.pow2_bits_false by lia. }
  exists (upd (λ _ _, b') p (p + 1) g). split_and!.
  - do 2 f_equal. rewrite <-Bg by lia. replace (bit_of g off) with (bit_of g (8 * p + off mod 8)) by (f_equal; lia). by rewrite (bit_of_byte g p b).
  - by apply upd_Forall.
  - by rewrite upd_blen.
  - intros n Hn. destruct (offset_split n Hn) as (_ & _ & Hm' & Hd' & En). unfold bit_of at 1. rewrite upd_lookup.
    destruct (decide (n / 8 = p)) as [Ep|Hp].
    + rewrite Ep, Lb. cbn. rewrite bool_decide_eq_true_2 by lia. rewrite Bits by lia.
      destruct (decide (n = off)); [rewrite decide_True by congruence; done|]. rewrite decide_False by lia.
      rewrite <-Bg by done. replace (bit_of g n) with (bit_of g (8 * p + n mod 8)) by (f_equal; lia). by rewrite (bit_of_byte g p b).
    + rewrite decide_False by (intros ->; done). rewrite <-Bg by done. unfold bit_of.
      destruct (g !! Z.to_nat (n / 8)); [|done]. cbn. by rewrite bool_decide_eq_false_2 by lia.
Qed.

(** ** Properties *)

(** C15. BITCOUNT answers the number of ones among the bits of the bytes that its
    arguments select, with negative indices from the end and whatever lies outside
    of the string left out: the counting by words of four bytes (the masks, the shifts
    and the multiplication), the unaligned bytes in front and the rest behind agree
    with looking at each bit. *)
Theorem bitcount_counts a s range : Forall byte_ok s → blen s < 2 ^ 31 - 1 →
  match range with Some (a, b) => - 2 ^ 31 ≤ a < 2 ^ 31 ∧ - 2 ^ 31 ≤ b < 2 ^ 31 | None => True end →
  bitcount a s range =
    Some (Z.of_nat (length (filter (λ n, bit_of s n = true ∧ selected s range n) (seqZ 0 (8 * blen s))))).
Proof. apply bitcount_spec. Qed.

Definition demo : text := [255; 0; 23; 0; 1; 2; 3; 4; 5; 6; 7; 8; 129; 10; 11; 12; 13; 14; 15; 16; 17; 18; 19; 200].
Lemma demo_ok : Forall byte_ok demo.
Proof. apply (bool_decide_unpack _); by vm_compute. Qed.

Lemma bitcount_counts_witness :
  bitcount 2 demo (Some (-23, 100)) =
    Some (Z.of_nat (length (filter (λ n, bit_of demo n = true ∧ selected demo (Some (-23, 100)) n) (seqZ 0 (8 * blen demo))))).
Proof. apply bitcount_counts; [exact demo_ok|reflexivity|split; lia]. Defined.

(** C14. BITPOS answers the first position with the bit among the bits of the selected
    bytes.  Without one, a search for a zero that has no given end answers the first
    position behind the string, if any byte is selected, and every other search
    answers -1 (so does every search of an empty selection).  So skipping whole words,
    reading the last word with the first byte as the most significant one, and the
    zeros it is padded with behave as the search of bit by bit.  The string has less
    than 2^28 bytes: from there on a position does not fit in the result, which is a
    long of 32 bits (bitpos_overflow); the arguments are numbers that fit in a
    long. *)
Theorem bitpos_first a s bit range : Forall byte_ok s → blen s < 2 ^ 28 → bit = 0 ∨ bit = 1 → pos_range_ok range →
  ∃ r, bitpos a s bit range = Some r ∧ bitpos_answer s bit range r.
Proof. apply bitpos_spec. Qed.

Lemma bitpos_first_witness : ∃ r, bitpos 1 (replicate 9 255 ++ [251]) 0 (Some (-8, None)) = Some r ∧
  bitpos_answer (replicate 9 255 ++ [251]) 0 (Some (-8, None)) r.
Proof. apply bitpos_first; [apply (bool_decide_unpack _); by vm_compute|reflexivity|by left|split; lia]. Defined.

(** C13. The value that BITOP stores has the length of the longest source, and each of
    its bits is the operation on the bits of all the sources at this position, where
    shorter sources and missing keys have zeros; there is no value exactly when all
    the sources are empty.  It is
    stated for the four operations, at least one source, and sources of less than
    2^31 - 1 bytes.  In particular the way by words (at most 16 sources, up to
    the shortest one) and the way by bytes agree, and both stay inside the sources. *)
Theorem bitop_bits op objects : 0 ≤ op ≤ 3 → objects ≠ [] → Forall source_ok (sources objects) →
  ∃ r, bitop op objects = Some r ∧ (r = None ↔ Forall (λ src, src = []) (sources objects)) ∧
    ∀ res, r = Some res → blen res = max_len (sources objects) ∧ Forall byte_ok res ∧
      ∀ n, 0 ≤ n < 8 * blen res → bit_of res n = result_bit op ((λ src, bit_of src n) <$> sources objects).
Proof.
  intros Hop Hne Hok. destruct (bitop_spec op objects Hop Hne Hok) as (r & E & Hr). exists r. split; [done|]. destruct r as [res|].
  - destruct Hr as [Hall Hres]. split; [by split; [|intros ?; destruct Hall]|]. by intros ? [= <-].
  - by split.
Qed.

Lemma bitop_bits_witness :
  let objects := [Some demo; Some (replicate 18 15); Some (replicate 33 170)] in
  ∃ r, bitop BITOP_XOR objects = Some r ∧ (r = None ↔ Forall (λ src, src = []) (sources objects)) ∧
    ∀ res, r = Some res → blen res = max_len (sources objects) ∧ Forall byte_ok res ∧
      ∀ n, 0 ≤ n < 8 * blen res → bit_of res n = result_bit BITOP_XOR ((λ src, bit_of src n) <$> sources objects).
Proof.
  intros objects. apply bitop_bits; [unfold BITOP_XOR; lia|done|].
  repeat (apply Forall_cons; split); try apply Forall_nil; split; first [by vm_compute|apply (bool_decide_unpack _); by vm_compute].
Defined.

(** SETBIT answers the bit it replaces, and GETBIT then answers the new bit at this
    offset and what it answered before at every other one. *)
Theorem setbit_getbit s off on : Forall byte_ok s → 0 ≤ off < 2 ^ 32 → on = 0 ∨ on = 1 →
  ∃ s' old, setbit s off on = Some (s', old) ∧ getbit s off = Some old ∧ blen s' = Z.max (blen s) (off / 8 + 1) ∧
    ∀ n, 0 ≤ n → getbit s' n = if decide (n = off) then Some on else getbit s n.
Proof.
  intros Hs Hoff Hon. destruct (setbit_spec s off on Hs Hoff Hon) as (s' & E & Hs' & Hl & Hb).
  exists s', (Z.b2z (bit_of s off)). split_and!; [done|apply getbit_spec; lia|done|].
  intros n Hn. rewrite !getbit_spec, Hb by done. case_decide; [|done]. by destruct Hon as [-> | ->].
Qed.
