(* ===== verification/Strings.v ===== *)
(** * String values and their commands ([t_string.c], the string objects of [object.c], the commands of [bitops.c])

    The commands run on the server of Db.v, whose values are here strings with their two
    encodings; values of the other types are opaque.  A value that a client sends is an
    object of the heap, which its argument vector refers to; a command gets the locations
    of these objects and returns the ones that its argument vector has at the end. *)
From Stdlib Require Import String.
From S2P Require Import Prelude Util Dict Dictiter Db Bitops.
Open Scope Z_scope.

Abbreviation text := (list Z).
Abbreviation loc := positive.

(** ** Objects *)

(** [o->encoding] with [o->ptr]: REDIS_ENCODING_RAW, REDIS_ENCODING_INT, and what a value
    of another type has. *)
Inductive sval := Raw (t : text) | Enc (n : Z) | Other.

Definition REDIS_SHARED_INTEGERS : Z := 10000.
Definition REDIS_NOTIFY_STRING : Z := 8.
Definition REDIS_SET_NO_FLAGS : Z := 0.
Definition REDIS_SET_NX : Z := 1.
Definition REDIS_SET_XX : Z := 2.

Abbreviation robj := (Db.robj sval).
Abbreviation server := (Db.server sval).
Abbreviation M := (Db.M sval).

Section commands.
(** The parameters of Db.v; the addresses of the bytes of an object (for the alignment
    of the words of Bitops.v), [shared.integers] and [server.maxmemory]. *)
Context (seed : Z) (clock : nat → Z) (junk_val : loc) (junk_when : Z) (E : status).
Context (address : loc → Z) (shared_integers : Z → loc) (maxmemory : Z).

Definition lookupWrite := lookupKeyWrite (P := sval) seed clock E.
Definition lookupRead := lookupKeyRead (P := sval) seed clock E.

(** A new object is at a location that is not in use. *)
Definition createObject (type : Z) (ptr : sval) : M loc :=
  λ s, let l := fresh (dom (objects s)) in Some (l, with_objects s (<[l := Robj type (lruclock E) 1 ptr]> (objects s))).
Definition createStringObject (t : text) : M loc := createObject REDIS_STRING (Raw t).

(** What ll2string writes to a buffer of [len] bytes, without the terminator. *)
Definition llbuf (len n : Z) : text := let '(l, buf) := ll2string len n in take (Z.to_nat l) buf.

Definition createStringObjectFromLongLong (value : Z) : M loc :=
  if (0 <=? value) && (value <? REDIS_SHARED_INTEGERS) then
    _ ← incrRefCount (shared_integers value); mret (shared_integers value)
  else if (LONG_MIN <=? value) && (value <=? LONG_MAX) then createObject REDIS_STRING (Enc value)
  else createObject REDIS_STRING (Raw (llbuf 32 value)).

Definition set_ptr (l : loc) (v : sval) : M unit :=
  o ← get_object l; put_object l (Robj (o_type o) (o_lru o) (o_refcount o) v).

(** sdsRemoveFreeSpace does not change the contents. *)
Definition tryObjectEncoding (l : loc) : M loc :=
  o ← get_object l;
  match o_ptr o with
  | Raw s =>
      if 1 <? o_refcount o then mret l
      else
        _ ← check (o_type o =? REDIS_STRING);
        match (if 21 <? blen s then None else string2l s) with
        | None => mret l
        | Some value =>
            if (maxmemory =? 0) && (0 <=? value) && (value <? REDIS_SHARED_INTEGERS) then
              _ ← decrRefCount l;
              _ ← incrRefCount (shared_integers value);
              mret (shared_integers value)
            else _ ← set_ptr l (Enc value); mret l
        end
  | _ => mret l
  end.

Definition getDecodedObject (l : loc) : M loc :=
  o ← get_object l;
  match o_ptr o with
  | Raw _ => _ ← incrRefCount l; mret l
  | Enc n => if o_type o =? REDIS_STRING then createStringObject (llbuf 32 n) else lift None
  | Other => lift None
  end.

(** The bytes of a string object: [o->ptr], or what ll2string writes to a local buffer. *)
Definition object_text (l : loc) : M text :=
  o ← get_object l;
  match o_ptr o with Raw t => mret t | Enc n => mret (llbuf 32 n) | Other => lift None end.

Definition stringObjectLen (l : loc) : M Z :=
  o ← get_object l;
  _ ← check (o_type o =? REDIS_STRING);
  match o_ptr o with Raw t => mret (blen t) | Enc n => mret (ll2string 32 n).1 | Other => lift None end.

(** The text of an argument, or of a value, which the callers know to be a string; a
    missing value is 0. *)
Definition getLongLongFromObject (o : option sval) : option (option Z) :=
  match o with
  | None => Some (Some 0)
  | Some (Raw t) =>
      let '(value, eptr0, erange) := strtoll_erange (t ++ [ch_nul]) in
      if isspace (default ch_nul (head t)) || negb (eptr0 =? ch_nul) || erange then Some None else Some (Some value)
  | Some (Enc n) => Some (Some n)
  | Some Other => None
  end.

Definition getLongLongFromObjectOrReply (o : option sval) (msg : answer) : M (option Z) :=
  r ← lift (getLongLongFromObject o);
  match r with None => _ ← addReply msg; mret None | Some value => mret (Some value) end.

Definition getLongFromObjectOrReply (o : option sval) (msg : option answer) : M (option Z) :=
  r ← getLongLongFromObjectOrReply o (default R_notinteger msg);
  match r with
  | None => mret None
  | Some value =>
      if (value <? LONG_MIN) || (LONG_MAX <? value) then
        _ ← addReply (default (R_error "value is out of range") msg); mret None
      else mret (Some value)
  end.

Definition addReplyBulk (l : loc) : M unit := t ← object_text l; addReply (R_bulk t).

(** An unshared copy without encoding takes the place of [o]. *)
Definition dbUnshareStringValue (i : Z) (key : text) (l : loc) : M loc :=
  o ← get_object l;
  _ ← check (o_type o =? REDIS_STRING);
  if negb (o_refcount o =? 1) || match o_ptr o with Raw _ => false | _ => true end then
    decoded ← getDecodedObject l;
    t ← object_text decoded;
    l' ← createStringObject t;
    _ ← decrRefCount decoded;
    _ ← dbOverwrite seed junk_val E i key l';
    mret l'
  else mret l.

(** ** SET and GET *)

(** The test of the 512 MB: true if it fails. *)
Definition checkStringLength (size : Z) : M bool :=
  if 512 * 1024 * 1024 <? size then
    _ ← addReply (R_error "string exceeds maximum allowed size (512MB)"); mret true
  else mret false.

Definition notify (type : Z) (name : string) (key : text) : M unit := i ← gets c_db; emit (EvNotify type name key i).

(** The keys of the short circuits: the second lookup is made when the first does not decide. *)
Definition set_refused (flags : Z) (i : Z) (key : text) : M bool :=
  nx ← (if negb (Z.land flags REDIS_SET_NX =? 0) then v ← lookupWrite i key; mret (bool_decide (is_Some v)) else mret false);
  if nx : bool then mret true
  else if negb (Z.land flags REDIS_SET_XX =? 0) then v ← lookupWrite i key; mret (bool_decide (v = None)) else mret false.

Definition set_value (flags : Z) (key : text) (val : loc) (expire : option Z) (ok_reply abort_reply : option answer) : M unit :=
  i ← gets c_db;
  refused ← set_refused flags i key;
  if refused : bool then addReply (default R_nullbulk abort_reply)
  else
    _ ← setKey seed clock junk_val E i key val;
    _ ← add_dirty 1;
    _ ← match expire with Some milliseconds => t ← mstime clock; setExpire seed junk_when E i key (i64 (t + milliseconds)) | None => mret tt end;
    _ ← notify REDIS_NOTIFY_STRING "set" key;
    _ ← match expire with Some _ => notify REDIS_NOTIFY_GENERIC "expire" key | None => mret tt end;
    addReply (default R_ok ok_reply).

Definition setGenericCommand (flags : Z) (key : text) (val : loc) (expire : option text) (unit_ : Z) (ok_reply abort_reply : option answer) : M unit :=
  match expire with
  | Some e =>
      r ← getLongLongFromObjectOrReply (Some (Raw e)) R_notinteger;
      match r with
      | None => mret tt
      | Some milliseconds =>
          if milliseconds <=? 0 then addReply (R_error "invalid expire time in SETEX")
          else
            let milliseconds := if unit_ =? UNIT_SECONDS then i64 (milliseconds * 1000) else milliseconds in
            set_value flags key val (Some milliseconds) ok_reply abort_reply
      end
  | None => set_value flags key val None ok_reply abort_reply
  end.

(** [a[k]] of a string that ends with a NUL. *)
Definition char_at (a : text) (k : nat) : Z := default ch_nul (a !! k).
Definition is_option (lower1 upper1 lower2 upper2 : Z) (a : text) : bool :=
  ((char_at a 0 =? lower1) || (char_at a 0 =? upper1)) && ((char_at a 1 =? lower2) || (char_at a 1 =? upper2)) && (char_at a 2 =? ch_nul).
Definition is_nx : text → bool := is_option 110 78 120 88.
Definition is_xx : text → bool := is_option 120 88 120 88.
Definition is_ex : text → bool := is_option 101 69 120 88.
Definition is_px : text → bool := is_option 112 80 120 88.

(** The options: [flags], [expire] and [unit]; [None] is a syntax error. *)
Fixpoint set_options (args : list text) (flags : Z) (expire : option text) (unit_ : Z) : option (Z * option text * Z) :=
  match args with
  | [] => Some (flags, expire, unit_)
  | a :: args' =>
      if is_nx a then set_options args' (Z.lor flags REDIS_SET_NX) expire unit_
      else if is_xx a then set_options args' (Z.lor flags REDIS_SET_XX) expire unit_
      else
        match args' with
        | next :: rest =>
            if is_ex a then set_options rest flags (Some next) UNIT_SECONDS
            else if is_px a then set_options rest flags (Some next) UNIT_MILLISECONDS
            else None
        | [] => None
        end
  end.

Definition setCommand (val : loc) : M loc :=
  args ← gets argv;
  key ← arg 1;
  match set_options (drop 3 args) REDIS_SET_NO_FLAGS None UNIT_SECONDS with
  | None => _ ← addReply R_syntaxerr; mret val
  | Some (flags, expire, unit_) =>
      val ← tryObjectEncoding val;
      _ ← setGenericCommand flags key val expire unit_ None None;
      mret val
  end.

Definition setnxCommand (val : loc) : M loc :=
  key ← arg 1;
  val ← tryObjectEncoding val;
  _ ← setGenericCommand REDIS_SET_NX key val None 0 (Some R_cone) (Some R_czero);
  mret val.

Definition setexCommand (val : loc) : M loc :=
  key ← arg 1;
  expire ← arg 2;
  val ← tryObjectEncoding val;
  _ ← setGenericCommand REDIS_SET_NO_FLAGS key val (Some expire) UNIT_SECONDS None None;
  mret val.

Definition psetexCommand (val : loc) : M loc :=
  key ← arg 1;
  expire ← arg 2;
  val ← tryObjectEncoding val;
  _ ← setGenericCommand REDIS_SET_NO_FLAGS key val (Some expire) UNIT_MILLISECONDS None None;
  mret val.

(** True is REDIS_OK. *)
Definition getGenericCommand : M bool :=
  key ← arg 1;
  o ← lookupKeyReadOrReply seed clock E key R_nullbulk;
  match o with
  | None => mret true
  | Some l =>
      o ← get_object l;
      if negb (o_type o =? REDIS_STRING) then _ ← addReply R_wrongtypeerr; mret false
      else _ ← addReplyBulk l; mret true
  end.

Definition getCommand : M unit := _ ← getGenericCommand; mret tt.

Definition getsetCommand (val : loc) : M loc :=
  ok ← getGenericCommand;
  if negb ok then mret val
  else
    key ← arg 1;
    i ← gets c_db;
    val ← tryObjectEncoding val;
    _ ← setKey seed clock junk_val E i key val;
    _ ← notify REDIS_NOTIFY_STRING "set" key;
    _ ← add_dirty 1;
    mret val.

Fixpoint mget_loop (i : Z) (keys : list text) : M unit :=
  match keys with
  | [] => mret tt
  | key :: keys =>
      o ← lookupRead i key;
      _ ← match o with
          | None => addReply R_nullbulk
          | Some l =>
              o ← get_object l;
              if negb (o_type o =? REDIS_STRING) then addReply R_nullbulk else addReplyBulk l
          end;
      mget_loop i keys
  end.

Definition mgetCommand : M unit :=
  args ← gets argv;
  i ← gets c_db;
  _ ← addReply (R_multibulklen (Z.of_nat (length args) - 1));
  mget_loop i (tail args).

(** The number of the keys that exist. *)
Fixpoint busy_loop (i : Z) (keys : list text) (busykeys : Z) : M Z :=
  match keys with
  | [] => mret busykeys
  | key :: keys =>
      o ← lookupWrite i key;
      busy_loop i keys (match o with Some _ => i32 (busykeys + 1) | None => busykeys end)
  end.

(** The pairs of a key and its value; the new argument vector. *)
Fixpoint mset_loop (i : Z) (pairs : list (text * loc)) : M (list loc) :=
  match pairs with
  | [] => mret []
  | (key, val) :: pairs =>
      val ← tryObjectEncoding val;
      _ ← setKey seed clock junk_val E i key val;
      _ ← notify REDIS_NOTIFY_STRING "set" key;
      vals ← mset_loop i pairs;
      mret (val :: vals)
  end.

(** [keys] are the arguments 1, 3, ... and [vals] the objects of the arguments 2, 4, ... *)
Definition msetGenericCommand (nx : bool) (keys : list text) (vals : list loc) : M (list loc) :=
  args ← gets argv;
  if Z.of_nat (length args) mod 2 =? 0 then
    _ ← addReply (R_error "wrong number of arguments for MSET"); mret vals
  else
    i ← gets c_db;
    busykeys ← (if nx then busy_loop i keys 0 else mret 0);
    if negb (busykeys =? 0) then _ ← addReply R_czero; mret vals
    else
      vals ← mset_loop i (zip keys vals);
      _ ← add_dirty ((Z.of_nat (length args) - 1) / 2);
      _ ← addReply (if nx then R_cone else R_ok);
      mret vals.

(** ** Ranges, numbers and lengths *)

(** The value at [key] of [o], which must be a string: its location for writing. *)
Definition write_ptr (l : loc) (t : text) : M unit := set_ptr l (Raw t).

Definition setrangeCommand : M unit :=
  key ← arg 1;
  offset_arg ← arg 2;
  value ← arg 3;
  i ← gets c_db;
  r ← getLongFromObjectOrReply (Some (Raw offset_arg)) None;
  match r with
  | None => mret tt
  | Some offset =>
      if offset <? 0 then addReply (R_error "offset is out of range")
      else
        o ← lookupWrite i key;
        target ← match o with
          | None =>
              if blen value =? 0 then _ ← addReply R_czero; mret None
              else
                long ← checkStringLength (i64 (u64 (offset + blen value)));
                if long : bool then mret None
                else l ← createStringObject []; _ ← dbAdd seed junk_val E i key l; mret (Some l)
          | Some l =>
              wrong ← checkType l REDIS_STRING;
              if wrong : bool then mret None
              else
                olen ← stringObjectLen l;
                if blen value =? 0 then _ ← addReply (R_int olen); mret None
                else
                  long ← checkStringLength (i64 (u64 (offset + blen value)));
                  if long : bool then mret None
                  else l ← dbUnshareStringValue i key l; mret (Some l)
          end;
        match target with
        | None => mret tt
        | Some l =>
            _ ← (if 0 <? blen value then
                   t ← object_text l;
                   t ← lift (mstore (grown t (offset + blen value)) offset value);
                   _ ← write_ptr l t;
                   _ ← signalModifiedKey i key;
                   _ ← notify REDIS_NOTIFY_STRING "setrange" key;
                   add_dirty 1
                 else mret tt);
            t ← object_text l;
            addReply (R_int (blen t))
        end
  end.

(** The part of getrangeCommand after the lookup. *)
Definition getrange_reply (str : text) (start end_ : Z) : M unit :=
  let strlen := blen str in
  let start := if start <? 0 then i32 (u64 (strlen + start)) else start in
  let end_ := if end_ <? 0 then i32 (u64 (strlen + end_)) else end_ in
  let start := if start <? 0 then 0 else start in
  let end_ := if end_ <? 0 then 0 else end_ in
  let end_ := if strlen <=? u32 end_ then i32 (u64 (strlen - 1)) else end_ in
  if end_ <? start then addReply R_emptybulk
  else t ← lift (mload str start (i32 (i32 (end_ - start) + 1))); addReply (R_bulk t).

Definition getrangeCommand : M unit :=
  key ← arg 1;
  start_arg ← arg 2;
  end_arg ← arg 3;
  start ← getLongFromObjectOrReply (Some (Raw start_arg)) None;
  match start with
  | None => mret tt
  | Some start =>
      end_ ← getLongFromObjectOrReply (Some (Raw end_arg)) None;
      match end_ with
      | None => mret tt
      | Some end_ =>
          o ← lookupKeyReadOrReply seed clock E key R_emptybulk;
          match o with
          | None => mret tt
          | Some l =>
              wrong ← checkType l REDIS_STRING;
              if wrong : bool then mret tt
              else
                str ← object_text l; getrange_reply str start end_
          end
      end
  end.

(** The reply is written in three calls, with the new object between a colon and a line end. *)
Definition incrDecrCommand (incr : Z) : M unit :=
  key ← arg 1;
  i ← gets c_db;
  o ← lookupWrite i key;
  wrong ← match o with Some l => checkType l REDIS_STRING | None => mret false end;
  if wrong : bool then mret tt
  else
    ptr ← match o with Some l => o ← get_object l; mret (Some (o_ptr o)) | None => mret None end;
    r ← getLongLongFromObjectOrReply ptr R_notinteger;
    match r with
    | None => mret tt
    | Some oldvalue =>
        if ((incr <? 0) && (oldvalue <? 0) && (incr <? i64 (LLONG_MIN - oldvalue)))
           || ((0 <? incr) && (0 <? oldvalue) && (i64 (LLONG_MAX - oldvalue) <? incr))
        then addReply (R_error "increment or decrement would overflow")
        else
          let value := i64 (oldvalue + incr) in
          new ← createStringObjectFromLongLong value;
          _ ← match o with
              | Some _ => dbOverwrite seed junk_val E i key new
              | None => dbAdd seed junk_val E i key new
              end;
          _ ← signalModifiedKey i key;
          _ ← notify REDIS_NOTIFY_STRING "incrby" key;
          _ ← add_dirty 1;
          addReply (R_int value)
    end.

Definition incrCommand : M unit := incrDecrCommand 1.
Definition decrCommand : M unit := incrDecrCommand (-1).

Definition incrbyCommand : M unit :=
  a ← arg 2;
  r ← getLongLongFromObjectOrReply (Some (Raw a)) R_notinteger;
  match r with None => mret tt | Some incr => incrDecrCommand incr end.

(** The negation overflows for the smallest number. *)
Definition decrbyCommand : M unit :=
  a ← arg 2;
  r ← getLongLongFromObjectOrReply (Some (Raw a)) R_notinteger;
  match r with None => mret tt | Some incr => incrDecrCommand (i64 (- incr)) end.

Definition appendCommand (val : loc) : M loc :=
  key ← arg 1;
  i ← gets c_db;
  o ← lookupWrite i key;
  r ← match o with
      | None =>
          val ← tryObjectEncoding val;
          _ ← dbAdd seed junk_val E i key val;
          _ ← incrRefCount val;
          totlen ← stringObjectLen val;
          mret (Some (val, totlen))
      | Some l =>
          wrong ← checkType l REDIS_STRING;
          if wrong : bool then mret None
          else
            len ← stringObjectLen l;
            append ← object_text val;
            long ← checkStringLength (i64 (u64 (len + blen append)));
            if long : bool then mret None
            else
              l ← dbUnshareStringValue i key l;
              t ← object_text l;
              _ ← write_ptr l (t ++ append);
              t ← object_text l;
              mret (Some (val, blen t))
      end;
  match r with
  | None => mret val
  | Some (val, totlen) =>
      _ ← signalModifiedKey i key;
      _ ← notify REDIS_NOTIFY_STRING "append" key;
      _ ← add_dirty 1;
      _ ← addReply (R_int totlen);
      mret val
  end.

Definition strlenCommand : M unit :=
  key ← arg 1;
  o ← lookupKeyReadOrReply seed clock E key R_czero;
  match o with
  | None => mret tt
  | Some l =>
      wrong ← checkType l REDIS_STRING;
      if wrong : bool then mret tt
      else len ← stringObjectLen l; addReply (R_int len)
  end.

(** ** The commands on bits *)

Definition bit_err : answer := R_error "bit is not an integer or out of range".
Definition bit_offset_err : answer := R_error "bit offset is not an integer or out of range".

Definition getBitOffset (a : text) : M (option Z) :=
  r ← getLongLongFromObjectOrReply (Some (Raw a)) bit_offset_err;
  match r with
  | None => mret None
  | Some loffset =>
      match getBitOffsetFromArgument loffset with
      | None => _ ← addReply bit_offset_err; mret None
      | Some offset => mret (Some offset)
      end
  end.

Definition setbitCommand : M unit :=
  key ← arg 1;
  offset_arg ← arg 2;
  on_arg ← arg 3;
  i ← gets c_db;
  r ← getBitOffset offset_arg;
  match r with
  | None => mret tt
  | Some bitoffset =>
      r ← getLongFromObjectOrReply (Some (Raw on_arg)) (Some bit_err);
      match r with
      | None => mret tt
      | Some on =>
          if negb (Z.land on (Z.lnot 1) =? 0) then addReply bit_err
          else
            o ← lookupWrite i key;
            target ← match o with
              | None => l ← createStringObject []; _ ← dbAdd seed junk_val E i key l; mret (Some l)
              | Some l =>
                  wrong ← checkType l REDIS_STRING;
                  if wrong : bool then mret None else l ← dbUnshareStringValue i key l; mret (Some l)
              end;
            match target with
            | None => mret tt
            | Some l =>
                t ← object_text l;
                '(t, bitval) ← lift (setbit t bitoffset on);
                _ ← write_ptr l t;
                _ ← signalModifiedKey i key;
                _ ← notify REDIS_NOTIFY_STRING "setbit" key;
                _ ← add_dirty 1;
                addReply (if negb (bitval =? 0) then R_cone else R_czero)
            end
      end
  end.

Definition getbitCommand : M unit :=
  key ← arg 1;
  offset_arg ← arg 2;
  r ← getBitOffset offset_arg;
  match r with
  | None => mret tt
  | Some bitoffset =>
      o ← lookupKeyReadOrReply seed clock E key R_czero;
      match o with
      | None => mret tt
      | Some l =>
          wrong ← checkType l REDIS_STRING;
          if wrong : bool then mret tt
          else
            t ← object_text l;
            bitval ← lift (getbit t bitoffset);
            addReply (if negb (bitval =? 0) then R_cone else R_czero)
      end
  end.

(** The arguments of a range, in the order in which they are parsed: [None] if one of
    them is not a number, which has been answered. *)
Definition parse_range (start_arg end_arg : text) : M (option (Z * Z)) :=
  start ← getLongFromObjectOrReply (Some (Raw start_arg)) None;
  match start with
  | None => mret None
  | Some start =>
      end_ ← getLongFromObjectOrReply (Some (Raw end_arg)) None;
      match end_ with None => mret None | Some end_ => mret (Some (start, end_)) end
  end.

(** The answer for an empty range, [shared.czero], is written as the integer 0. *)
Definition bitcountCommand : M unit :=
  args ← gets argv;
  key ← arg 1;
  o ← lookupKeyReadOrReply seed clock E key R_czero;
  match o with
  | None => mret tt
  | Some l =>
      wrong ← checkType l REDIS_STRING;
      if wrong : bool then mret tt
      else
        t ← object_text l;
        range ← match args with
          | [_; _; start_arg; end_arg] => r ← parse_range start_arg end_arg; mret (Some <$> r)
          | [_; _] => mret (Some None)
          | _ => _ ← addReply R_syntaxerr; mret None
          end;
        match range with
        | None => mret tt
        | Some range => n ← lift (bitcount (address l) t range); addReply (R_int n)
        end
  end.

Definition bitposCommand : M unit :=
  args ← gets argv;
  key ← arg 1;
  bit_arg ← arg 2;
  i ← gets c_db;
  bit ← getLongFromObjectOrReply (Some (Raw bit_arg)) None;
  match bit with
  | None => mret tt
  | Some bit =>
      if negb (bit =? 0) && negb (bit =? 1) then addReply (R_error "The bit argument must be 1 or 0.")
      else
        o ← lookupRead i key;
        match o with
        | None => addReply (R_int (if negb (bit =? 0) then -1 else 0))
        | Some l =>
            wrong ← checkType l REDIS_STRING;
            if wrong : bool then mret tt
            else
              t ← object_text l;
              range ← match args with
                | [_; _; _; start_arg] =>
                    r ← getLongFromObjectOrReply (Some (Raw start_arg)) None;
                    mret ((λ start, Some (start, None)) <$> r)
                | [_; _; _; start_arg; end_arg] => r ← parse_range start_arg end_arg; mret ((λ '(start, end_), Some (start, Some end_)) <$> r)
                | [_; _; _] => mret (Some None)
                | _ => _ ← addReply R_syntaxerr; mret None
                end;
              match range with
              | None => mret tt
              | Some range => pos ← lift (bitpos (address l) t bit range); addReply (R_int pos)
              end
        end
  end.

Definition name_and : text := [97; 110; 100].
Definition name_or : text := [111; 114].
Definition name_xor : text := [120; 111; 114].
Definition name_not : text := [110; 111; 116].

(** The text of a C string. *)
Fixpoint c_str (a : text) : text := match a with [] => [] | c :: a => if c =? ch_nul then [] else c :: c_str a end.

Definition bitop_of (opname : text) : option Z :=
  let c := char_at opname 0 in
  if ((c =? 97) || (c =? 65)) && strcasecmp_eq (c_str opname) name_and then Some BITOP_AND
  else if ((c =? 111) || (c =? 79)) && strcasecmp_eq (c_str opname) name_or then Some BITOP_OR
  else if ((c =? 120) || (c =? 88)) && strcasecmp_eq (c_str opname) name_xor then Some BITOP_XOR
  else if ((c =? 110) || (c =? 78)) && strcasecmp_eq (c_str opname) name_not then Some BITOP_NOT
  else None.

Fixpoint release_sources (ls : list (option loc)) : M unit :=
  match ls with
  | [] => mret tt
  | l :: ls => _ ← match l with Some l => decrRefCount l | None => mret tt end; release_sources ls
  end.

(** [objects], with the earlier ones in [done]: [None] when a key holds another type. *)
Fixpoint source_loop (i : Z) (keys : list text) (done : list (option loc)) : M (option (list (option loc))) :=
  match keys with
  | [] => mret (Some done)
  | key :: keys =>
      o ← lookupRead i key;
      match o with
      | None => source_loop i keys (done ++ [None])
      | Some l =>
          wrong ← checkType l REDIS_STRING;
          if wrong : bool then _ ← release_sources (reverse done); mret None
          else l ← getDecodedObject l; source_loop i keys (done ++ [Some l])
      end
  end.

Fixpoint source_texts (ls : list (option loc)) : M (list (option text)) :=
  match ls with
  | [] => mret []
  | l :: ls =>
      t ← match l with Some l => t ← object_text l; mret (Some t) | None => mret None end;
      ts ← source_texts ls;
      mret (t :: ts)
  end.

Definition bitopCommand : M unit :=
  args ← gets argv;
  opname ← arg 1;
  targetkey ← arg 2;
  i ← gets c_db;
  match bitop_of opname with
  | None => addReply R_syntaxerr
  | Some op =>
      if (op =? BITOP_NOT) && negb (Z.of_nat (length args) =? 4) then
        addReply (R_error "BITOP NOT must be called with a single source key.")
      else
        sources ← source_loop i (drop 3 args) [];
        match sources with
        | None => mret tt
        | Some ls =>
            objects ← source_texts ls;
            res ← lift (bitop op objects);
            _ ← release_sources ls;
            maxlen ← match res with
              | Some res =>
                  o ← createStringObject res;
                  _ ← setKey seed clock junk_val E i targetkey o;
                  _ ← notify REDIS_NOTIFY_STRING "set" targetkey;
                  _ ← decrRefCount o;
                  mret (blen res)
              | None =>
                  r ← dbDelete seed i targetkey;
                  if negb (r =? 0) then
                    _ ← signalModifiedKey i targetkey;
                    _ ← notify REDIS_NOTIFY_GENERIC "del" targetkey;
                    mret 0
                  else mret 0
              end;
            _ ← add_dirty 1;
            addReply (R_int maxlen)
        end
  end.

(** ** The texts of the values *)

Implicit Types s : server.
Implicit Types db : redisDb.
Implicit Types ext : loc → Z.
Implicit Types (txt key : text) (val : loc).
Context (seed_ok : in_u32 seed).

Tactic Notation "step" uconstr(H) := rewrite (bind_run _ _ _ _ _ H).

Definition value_text (v : sval) : text := match v with Raw t => t | Enc n => ll_text n | Other => [] end.

Definition text_ok (t : text) : Prop := Forall byte_ok t ∧ blen t ≤ 2 ^ 29.
Definition in_long (n : Z) : Prop := LONG_MIN ≤ n ≤ LONG_MAX.
Definition ptr_ok (v : sval) : Prop := match v with Raw t => text_ok t | Enc n => in_long n | Other => False end.
(** A string object has one of the two encodings; lengths are at most 512 MB. *)
Definition object_ok (o : robj) : Prop := o_type o = REDIS_STRING → ptr_ok (o_ptr o).

(** What a location stands for: the text of a string, or a value of another type, which
    is known by its location. *)
Inductive value := VStr (t : text) | VOther (l : loc).

Definition content (h : gmap loc robj) (l : loc) : value :=
  match h !! l with
  | Some o => if o_type o =? REDIS_STRING then VStr (value_text (o_ptr o)) else VOther l
  | None => VOther l
  end.

Abbreviation smap := (gmap text (value * option Z)).

(** The keys that exist at [t], with their contents. *)
Definition sview (t : Z) s (db : redisDb) : smap := (λ lw : loc * option Z, (content (objects s) lw.1, lw.2)) <$> lview E t db.

Lemma llbuf_text n : in_i64 n → llbuf 32 n = ll_text n ∧ (ll2string 32 n).1 = blen (ll_text n).
Proof.
  intros Hn. pose proof (ll_text_length n Hn) as Hl. pose proof (ll2string_text 32 n Hn ltac:(lia)) as E1.
  unfold llbuf. rewrite E1. cbn. rewrite Z.min_l by (unfold blen; lia). split; [|done].
  rewrite to_nat_blen, take_app_length' by (rewrite length_take; lia). by rewrite take_ge by lia.
Qed.

Lemma in_long_i64 n : in_long n → in_i64 n.
Proof. unfold in_long. unlimit. lia. Qed.

Lemma ll_text_ok n : in_i64 n → text_ok (ll_text n).
Proof.
  intros Hn. split; [|pose proof (ll_text_length n Hn); unfold blen; lia].
  eapply Forall_impl; [by apply ll_text_chars|]. unfold is_dig, byte_ok, ch_minus, ch_0, ch_9. intros c. cbn. lia.
Qed.

Lemma value_text_ok v : ptr_ok v → text_ok (value_text v).
Proof. destruct v; cbn; [done| |done]. intros H. by apply ll_text_ok, in_long_i64. Qed.

(** The number that a text is taken for. *)
Definition number (t : text) : option Z :=
  let '(value, eptr0, erange) := strtoll_erange (t ++ [ch_nul]) in
  if isspace (default ch_nul (head t)) || negb (eptr0 =? ch_nul) || erange then None else Some value.

Lemma getLongLong_raw t : getLongLongFromObject (Some (Raw t)) = Some (number t).
Proof. unfold getLongLongFromObject, number. destruct (strtoll_erange _) as [[value eptr0] erange]. by destruct (isspace _ || _ || _). Qed.

Lemma number_ll_text n : in_i64 n → number (ll_text n) = Some n.
Proof.
  intros Hn. pose proof (getLongLong_text_run (P := sval) n (Server [] ∅ 0 0 0 0 0 0 [] []) Hn) as E1.
  unfold Db.getLongLongFromObjectOrReply in E1. unfold number. destruct (strtoll_erange _) as [[value eptr0] erange].
  destruct (isspace _ || _ || _); [done|]. by injection E1 as ->.
Qed.

Lemma getLongLong_value v : ptr_ok v → getLongLongFromObject (Some v) = Some (number (value_text v)).
Proof.
  destruct v as [t|n|]; [intros _; apply getLongLong_raw| |done]. intros Hn. cbn [value_text]. rewrite number_ll_text by by apply in_long_i64. done.
Qed.

Lemma number_range t n : number t = Some n → in_i64 n.
Proof.
  unfold number. unfold strtoll_erange. intros H. repeat case_match; simplify_eq; unfold in_i64; unlimit; lia.
Qed.

(** ** Steps *)

Definition shared_ok (ext : loc → Z) s : Prop :=
  ∀ v, 0 ≤ v < REDIS_SHARED_INTEGERS →
    1 ≤ ext (shared_integers v) ∧ ∃ o, objects s !! shared_integers v = Some o ∧ o_type o = REDIS_STRING ∧ o_ptr o = Enc v.

(** The invariant of Db.v with the contents of the values, and the objects of the small
    integers, which the server holds itself. *)
Record sfocus (ext : loc → Z) s (i : Z) (db : redisDb) : Prop := SFocus {
  sf_focus : focus seed ext s i db;
  sf_objects : ∀ l o, objects s !! l = Some o → object_ok o;
  sf_shared : shared_ok ext s
}.

(** What a run adds to the answers, the signalled keys and the changes; the other
    databases look the same, although they share objects with this one. *)
Record strace s s' (i : Z) (ans : list answer) (tch : list (Z * text)) (n : Z) : Prop := STrace {
  st_c_db : c_db s' = c_db s;
  st_dirty : i64 (dirty s') = i64 (dirty s + n);
  st_log : ∃ evs, log s' = log s ++ evs ∧ answers evs = ans ∧ touches evs = tch;
  st_others : ∀ j dbj, j ≠ i → at_db s j dbj → at_db s' j dbj ∧ ∀ t, sview t s' dbj = sview t s dbj
}.

Lemma strace_refl s i : strace s s i [] [] 0.
Proof. split; [done|by rewrite Z.add_0_r|exists []; by rewrite app_nil_r|done]. Qed.

Lemma strace_trans s1 s2 s3 i ans1 ans2 tch1 tch2 n1 n2 :
  strace s1 s2 i ans1 tch1 n1 → strace s2 s3 i ans2 tch2 n2 → strace s1 s3 i (ans1 ++ ans2) (tch1 ++ tch2) (n1 + n2).
Proof.
  intros [C1 Y1 (e1 & L1 & N1 & T1) O1] [C2 Y2 (e2 & L2 & N2 & T2) O2]. split; [congruence| | |].
  - rewrite Y2, <-(i64_i64_add (dirty s2)), Y1, i64_i64_add. f_equal. lia.
  - exists (e1 ++ e2). by rewrite L2, L1, <-app_assoc, answers_app, touches_app, N1, N2, T1, T2.
  - intros j dbj Hj A1. destruct (O1 j dbj Hj A1) as [A2 V1]. destruct (O2 j dbj Hj A2) as [A3 V2]. split; [done|]. intros t. by rewrite V2, V1.
Qed.

Lemma content_same h h' l : same_contents h h' → is_Some (h' !! l) → content h' l = content h l.
Proof. intros S [o' Ho']. destruct (S l o' Ho') as (o & Ho & Ht & Hp). unfold content. by rewrite Ho, Ho', Ht, Hp. Qed.

Lemma sview_content s s' db t : (∀ key l, keys_of db !! key = Some l → content (objects s') l = content (objects s) l) → sview t s' db = sview t s db.
Proof.
  intros H. apply map_eq. intros key. unfold sview. rewrite !lookup_fmap, lookup_lview. destruct (keys_of db !! key) as [l|] eqn:El; [|done].
  cbn. destruct (gone _ _ _); [done|]. cbn. by rewrite (H key l El).
Qed.

Lemma focus_present ext s i db j dbj key l : focus seed ext s i db → at_db s j dbj → keys_of dbj !! key = Some l → is_Some (objects s !! l).
Proof.
  intros F A Hl. destruct (focus_live _ _ _ _ _ (focus_other _ _ _ _ _ _ _ F A) key l Hl) as (o & Ho & _). by exists o.
Qed.

Lemma focus_ext_present ext s i db l : focus seed ext s i db → 1 ≤ ext l → is_Some (objects s !! l).
Proof. intros F He. pose proof (fc_owned _ _ _ _ _ F l) as O. destruct (objects s !! l); [eauto|lia]. Qed.

(** A run of Db.v's operations is a step. *)
Lemma trace_step ext ext' s s' i db db' ans tch n :
  sfocus ext s i db → focus seed ext' s' i db' → (∀ v, 0 ≤ v < REDIS_SHARED_INTEGERS → 1 ≤ ext' (shared_integers v)) →
  trace s s' i db' ans tch n →
  sfocus ext' s' i db' ∧ strace s s' i ans tch n ∧
  ∀ t, sview t s' db' = (λ lw : loc * option Z, (content (objects s) lw.1, lw.2)) <$> lview E t db'.
Proof.
  intros [F Hv Hsh] F' He T. pose proof (tr_contents _ _ _ _ _ _ _ T) as S.
  assert (∀ j dbj, j ≠ i → at_db s j dbj → at_db s' j dbj) as Ho.
  { intros j dbj Hj Aj. pose proof (fc_at _ _ _ _ _ F) as A. eapply (at_other s s' i); [done|done|apply A|apply T]. }
  split; [split; [done| |]|split; [split|]].
  - intros l o' Ho' Hty. destruct (S l o' Ho') as (o & Ho2 & Ht & Hp). rewrite Hp. apply (Hv l o Ho2). congruence.
  - intros v Hvr. split; [by apply He|]. destruct (focus_ext_present _ _ _ _ _ F' (He v Hvr)) as [o' Ho']. exists o'. split; [done|].
    destruct (S _ o' Ho') as (o & Ho2 & Ht & Hp). destruct (Hsh v Hvr) as (_ & o2 & Ho3 & Hty & Hptr). simplify_eq. by rewrite Ht, Hp.
  - apply T.
  - apply T.
  - apply T.
  - intros j dbj Hj Aj. split; [by apply Ho|]. intros t. apply sview_content. intros key l Hl. apply content_same; [done|].
    by eapply (focus_present _ _ _ _ _ _ _ _ F' (Ho j dbj Hj Aj)).
  - intros t. apply map_eq. intros key. unfold sview. rewrite !lookup_fmap, lookup_lview. destruct (keys_of db' !! key) as [l|] eqn:El; [|done].
    cbn. destruct (gone _ _ _); [done|]. cbn. rewrite (content_same _ _ _ S); [done|]. by eapply (focus_present _ _ _ _ _ _ _ _ F' (fc_at _ _ _ _ _ F')).
Qed.

(** ** The heap *)

Lemma sfocus_ext ext ext' s i db : sfocus ext s i db → (∀ l, ext l = ext' l) → sfocus ext' s i db.
Proof.
  intros [[F1 F2 F3 F4 F5] Hv Hsh] He. split; [split; try done| |].
  - by eapply owned_ext.
  - intros l. rewrite <-He. apply F5.
  - done.
  - intros v Hvr. rewrite <-He. by apply Hsh.
Qed.

Lemma bump_le ext l n x : 0 ≤ n → ext x ≤ bump ext l n x.
Proof. unfold bump. destruct (decide (x = l)); lia. Qed.
Lemma bump_self ext l n : bump ext l n l = ext l + n.
Proof. unfold bump. by rewrite decide_True. Qed.
Lemma bump_other ext l n x : x ≠ l → bump ext l n x = ext x.
Proof. unfold bump. intros. by rewrite decide_False. Qed.

(** The room for more references. *)
Definition roomy (ext : loc → Z) : Prop := ∀ l, ext l < 2 ^ 28 - 1.

(** A step that only changes the heap, and keeps what the keys stand for. *)
Lemma heap_step ext ext' s i db h :
  sfocus ext s i db → owned ext' (dbs s) h → (∀ l, 0 ≤ ext' l < 2 ^ 28) → (∀ v, 0 ≤ v < REDIS_SHARED_INTEGERS → 1 ≤ ext' (shared_integers v)) →
  (∀ l o', h !! l = Some o' → object_ok o') →
  (∀ v, 0 ≤ v < REDIS_SHARED_INTEGERS → is_Some (h !! shared_integers v) → content h (shared_integers v) = content (objects s) (shared_integers v) ∧
     ∃ o, h !! shared_integers v = Some o ∧ o_type o = REDIS_STRING ∧ o_ptr o = Enc v) →
  (∀ j dbj key l, at_db s j dbj → keys_of dbj !! key = Some l → content h l = content (objects s) l) →
  sfocus ext' (with_objects s h) i db ∧ strace s (with_objects s h) i [] [] 0 ∧ ∀ t, sview t (with_objects s h) db = sview t s db.
Proof.
  intros [[F1 F2 F3 F4 F5] Hv Hsh] O He Hs' Hok Hshared Hview.
  assert (focus seed ext' (with_objects s h) i db) as F' by (split; done).
  split; [split; [done|done|]|split].
  - intros v Hvr. split; [by apply Hs'|]. by apply Hshared, (focus_ext_present _ _ _ _ _ F'), Hs'.
  - split; [done|by rewrite Z.add_0_r|exists []; by rewrite app_nil_r|]. intros j dbj Hj A. split; [done|]. intros t.
    apply sview_content. intros key l Hl. by eapply Hview.
  - intros t. apply sview_content. intros key l Hl. by eapply Hview.
Qed.

(** A heap in which the contents of what is still there have not changed. *)
Lemma same_heap_step ext ext' s i db h :
  sfocus ext s i db → owned ext' (dbs s) h → (∀ l, 0 ≤ ext' l < 2 ^ 28) → (∀ v, 0 ≤ v < REDIS_SHARED_INTEGERS → 1 ≤ ext' (shared_integers v)) →
  same_contents (objects s) h →
  sfocus ext' (with_objects s h) i db ∧ strace s (with_objects s h) i [] [] 0 ∧ ∀ t, sview t (with_objects s h) db = sview t s db.
Proof.
  intros SF O He Hs' S. pose proof SF as [F Hv Hsh].
  assert (focus seed ext' (with_objects s h) i db) as F' by (destruct F; split; done).
  apply (heap_step ext ext'); try done.
  - intros l o' Ho' Hty. destruct (S l o' Ho') as (o & Ho & Ht & Hp). rewrite Hp. apply (Hv l o Ho). congruence.
  - intros v Hvr Hp. split; [by apply content_same|]. destruct Hp as [o' Ho']. exists o'. split; [done|].
    destruct (S _ o' Ho') as (o & Ho2 & Ht & Hp). destruct (Hsh v Hvr) as (_ & o2 & Ho3 & Hty & Hptr). simplify_eq. by rewrite Ht, Hp.
  - intros j dbj key l A Hl. apply content_same; [done|]. exact (focus_present _ _ _ _ _ _ _ _ F' A Hl).
Qed.

Lemma sf_ext_nonneg ext s i db l : sfocus ext s i db → 0 ≤ ext l < 2 ^ 28.
Proof. intros SF. apply (fc_ext _ _ _ _ _ (sf_focus _ _ _ _ SF)). Qed.
Lemma sf_shared_ext ext s i db v : sfocus ext s i db → 0 ≤ v < REDIS_SHARED_INTEGERS → 1 ≤ ext (shared_integers v).
Proof. intros SF Hv. by apply (sf_shared _ _ _ _ SF). Qed.

Lemma object_count ext s i db l o : sfocus ext s i db → objects s !! l = Some o → o_refcount o = refs (dbs s) l + ext l ∧ 0 < o_refcount o < 2 ^ 29 ∧ 0 ≤ refs (dbs s) l < 2 ^ 28.
Proof.
  intros SF Ho. pose proof (fc_owned _ _ _ _ _ (sf_focus _ _ _ _ SF) l) as O. rewrite Ho in O.
  pose proof (refs_total (dbs s) l). pose proof (fc_total _ _ _ _ _ (sf_focus _ _ _ _ SF)). pose proof (sf_ext_nonneg _ _ _ _ l SF).
  assert (0 ≤ refs (dbs s) l) by (apply sum_dbs_nonneg; intros; apply holders_nonneg). lia.
Qed.

Lemma incr_step ext s i db l o : sfocus ext s i db → roomy ext → objects s !! l = Some o →
  ∃ s', incrRefCount l s = Some (tt, s') ∧ sfocus (bump ext l 1) s' i db ∧ strace s s' i [] [] 0 ∧ dbs s' = dbs s ∧ argv s' = argv s ∧
    objects s' !! l = Some (Robj (o_type o) (o_lru o) (o_refcount o + 1) (o_ptr o)) ∧ ∀ t, sview t s' db = sview t s db.
Proof.
  intros SF Hr Ho. destruct (object_count _ _ _ _ _ _ SF Ho) as (Hc & Hc2 & _).
  pose proof (incrRefCount_run l s o Ho ltac:(lia)) as E1. eexists. split; [exact E1|].
  edestruct (same_heap_step ext (bump ext l 1) s i db) as (SF' & T' & V'); [done|by apply owned_incr; [apply SF|]| | |by eapply same_contents_put|].
  - intros x. pose proof (sf_ext_nonneg _ _ _ _ x SF). specialize (Hr x). unfold bump. destruct (decide (x = l)); lia.
  - intros v Hv. pose proof (sf_shared_ext _ _ _ _ v SF Hv). pose proof (bump_le ext l 1 (shared_integers v)). lia.
  - split; [exact SF'|]. split; [exact T'|]. split; [done|]. split; [done|]. split; [cbn; by rewrite lookup_insert_eq|exact V'].
Qed.

Lemma decr_step ext s i db l : sfocus (bump ext l 1) s i db → (∀ x, 0 ≤ ext x) → (∀ v, 0 ≤ v < REDIS_SHARED_INTEGERS → 1 ≤ ext (shared_integers v)) →
  ∃ s', decrRefCount l s = Some (tt, s') ∧ sfocus ext s' i db ∧ strace s s' i [] [] 0 ∧ dbs s' = dbs s ∧ argv s' = argv s ∧
    objects s' = release l (objects s) ∧ ∀ t, sview t s' db = sview t s db.
Proof.
  intros SF He Hsh. pose proof (sf_ext_nonneg _ _ _ _ l SF) as Hl. rewrite bump_self in Hl. specialize (He l) as Hel.
  destruct (focus_ext_present _ _ _ _ l (sf_focus _ _ _ _ SF)) as [o Ho]; [rewrite bump_self; lia|].
  destruct (object_count _ _ _ _ _ _ SF Ho) as (Hc & Hc2 & _).
  assert (live_object (objects s) l) as Hlv by (exists o; split; [done|lia]).
  eexists. split; [by apply decrRefCount_run|].
  edestruct (same_heap_step (bump ext l 1) ext s i db) as (SF' & T' & V'); [done| | |done|exact (same_contents_release _ (Some l))|].
  - eapply owned_ext; [apply (owned_decr _ _ _ l (fc_owned _ _ _ _ _ (sf_focus _ _ _ _ SF))); [rewrite bump_self; lia|by exists o]|].
    intros x. rewrite bump_bump. by apply (bump_zero ext l).
  - intros x. split; [apply He|]. pose proof (sf_ext_nonneg _ _ _ _ x SF). pose proof (bump_le ext l 1 x). lia.
  - split; [exact SF'|]. split; [exact T'|]. split; [done|]. split; [done|]. split; [done|exact V'].
Qed.

Lemma fresh_none (h : gmap loc robj) : h !! fresh (dom h) = None.
Proof. apply not_elem_of_dom. apply is_fresh. Qed.

Lemma create_step ext s i db ty v : sfocus ext s i db → roomy ext → object_ok (Robj ty (lruclock E) 1 v) →
  ∃ l s', createObject ty v s = Some (l, s') ∧ sfocus (bump ext l 1) s' i db ∧ strace s s' i [] [] 0 ∧ dbs s' = dbs s ∧ argv s' = argv s ∧
    objects s !! l = None ∧ ext l = 0 ∧ objects s' = <[l := Robj ty (lruclock E) 1 v]> (objects s) ∧ ∀ t, sview t s' db = sview t s db.
Proof.
  intros SF Hr Hok. set (l := fresh (dom (objects s))). pose proof (fresh_none (objects s)) as Hl. fold l in Hl.
  pose proof (fc_owned _ _ _ _ _ (sf_focus _ _ _ _ SF) l) as Ol. rewrite Hl in Ol. destruct Ol as [Or Oe].
  exists l. eexists. split; [reflexivity|].
  edestruct (heap_step ext (bump ext l 1) s i db (<[l := Robj ty (lruclock E) 1 v]> (objects s))) as (SF' & T' & V'); [done|..].
  - intros x. pose proof (fc_owned _ _ _ _ _ (sf_focus _ _ _ _ SF) x) as O. destruct (decide (x = l)) as [->|Hne].
    + rewrite lookup_insert_eq, bump_self. cbn. lia.
    + rewrite lookup_insert_ne, bump_other by done. exact O.
  - intros x. pose proof (sf_ext_nonneg _ _ _ _ x SF). specialize (Hr x). unfold bump. destruct (decide (x = l)); lia.
  - intros w Hw. pose proof (sf_shared_ext _ _ _ _ w SF Hw). pose proof (bump_le ext l 1 (shared_integers w)). lia.
  - intros x o'. rewrite lookup_insert_Some. intros [[<- <-]|[_ Ho]]; [done|by eapply (sf_objects _ _ _ _ SF)].
  - intros w Hw _. destruct (sf_shared _ _ _ _ SF w Hw) as (_ & o & Ho & Hty & Hp). assert (l ≠ shared_integers w) by (intros Heq; rewrite Heq in Hl; congruence).
    split; [unfold content; by rewrite lookup_insert_ne|]. exists o. by rewrite lookup_insert_ne.
  - intros j dbj key x A Hx. destruct (focus_present _ _ _ _ _ _ _ _ (sf_focus _ _ _ _ SF) A Hx) as [o Ho]. unfold content.
    rewrite lookup_insert_ne by congruence. done.
  - split; [exact SF'|]. split; [exact T'|]. done.
Qed.

(** Who holds a location, when there is only one reference. *)
Lemma sum_dbs_two f ds n m a b : (∀ x, 0 ≤ f x) → n ≠ m → ds !! n = Some a → ds !! m = Some b → f a + f b ≤ sum_dbs f ds.
Proof.
  intros Hf. revert n m. induction ds as [|x ds IH]; intros [|n] [|m] Hne Hn Hm; try done; rewrite sum_dbs_cons.
  - injection Hn as ->. pose proof (sum_dbs_ge f ds m b Hf Hm). lia.
  - injection Hm as ->. pose proof (sum_dbs_ge f ds n a Hf Hn). lia.
  - assert (n ≠ m) as Hne' by congruence. specialize (IH n m Hne' Hn Hm). specialize (Hf x). lia.
Qed.

Lemma refs_unique ds n m a b key key' l :
  refs ds l ≤ 1 → ds !! n = Some a → ds !! m = Some b → keys_of a !! key = Some l → keys_of b !! key' = Some l → n = m ∧ key = key'.
Proof.
  intros Hr Hn Hm Ha Hb. pose proof (holders_pos _ _ _ Ha) as Pa. pose proof (holders_pos _ _ _ Hb) as Pb. split.
  - destruct (decide (n = m)) as [|Hne]; [done|]. pose proof (sum_dbs_two (λ db, holders (keys_of db) l) ds n m a b (λ _, holders_nonneg _ _) Hne Hn Hm) as H.
    cbn in H. unfold refs in Hr. lia.
  - destruct (decide (n = m)) as [<-|Hne].
    + rewrite Hn in Hm. injection Hm as <-. destruct (decide (key = key')) as [|Hk]; [done|]. pose proof (holders_delete _ _ _ l Ha) as Hd. rewrite decide_True in Hd by done.
      assert (delete key (keys_of a) !! key' = Some l) as Hb' by (by rewrite lookup_delete_ne). pose proof (holders_pos _ _ _ Hb') as P.
      pose proof (sum_dbs_ge (λ db, holders (keys_of db) l) ds n a (λ _, holders_nonneg _ _) Hn) as H. cbn in H. unfold refs in Hr. lia.
    + pose proof (sum_dbs_two (λ db, holders (keys_of db) l) ds n m a b (λ _, holders_nonneg _ _) Hne Hn Hm) as H. cbn in H. unfold refs in Hr. lia.
Qed.

Lemma content_string h l o : h !! l = Some o → o_type o = REDIS_STRING → content h l = VStr (value_text (o_ptr o)).
Proof. intros Ho Ht. unfold content. rewrite Ho, Ht. done. Qed.

Lemma set_ptr_run l v s o : objects s !! l = Some o →
  set_ptr l v s = Some (tt, with_objects s (<[l := Robj (o_type o) (o_lru o) (o_refcount o) v]> (objects s))).
Proof. intros Ho. unfold set_ptr. by step (get_object_run _ _ _ Ho). Qed.

Lemma not_shared ext s i db l o t : sfocus ext s i db → objects s !! l = Some o → o_ptr o = Raw t → ∀ v, 0 ≤ v < REDIS_SHARED_INTEGERS → shared_integers v ≠ l.
Proof. intros SF Ho Hp v Hv <-. destruct (sf_shared _ _ _ _ SF v Hv) as (_ & o' & Ho' & _ & Hp'). congruence. Qed.

(** Objects that are referred to stay what they are. *)
Definition stays (ext : loc → Z) s s' : Prop :=
  ∀ x, 1 ≤ ext x → ∀ o, objects s !! x = Some o → ∃ o', objects s' !! x = Some o' ∧ o_type o' = o_type o ∧ o_ptr o' = o_ptr o.

Lemma stays_refl ext s : stays ext s s.
Proof. intros x _ o Ho. by exists o. Qed.

Lemma stays_trans ext s1 s2 s3 : stays ext s1 s2 → stays ext s2 s3 → stays ext s1 s3.
Proof.
  intros K1 K2 x Hx o1 H1. destruct (K1 x Hx o1 H1) as (o2 & H2 & T2 & P2). destruct (K2 x Hx o2 H2) as (o3 & H3 & T3 & P3).
  exists o3. split_and!; congruence.
Qed.

Lemma stays_mono ext ext' s s' : stays ext' s s' → (∀ x, ext x ≤ ext' x) → stays ext s s'.
Proof. intros K H x Hx. apply K. specialize (H x). lia. Qed.

Lemma stays_contents ext s s' i db : focus seed ext s' i db → same_contents (objects s) (objects s') → stays ext s s'.
Proof.
  intros F S x Hx o Ho. destruct (focus_ext_present _ _ _ _ x F Hx) as [o' Ho']. exists o'. split; [done|].
  destruct (S x o' Ho') as (o2 & Ho2 & ? & ?). by simplify_eq.
Qed.

(** The encoding of a value that only the argument vector holds. *)
Lemma encode_step ext s i db l o t : sfocus (bump ext l 1) s i db → roomy ext → (∀ x, 0 ≤ ext x) → (∀ v, 0 ≤ v < REDIS_SHARED_INTEGERS → 1 ≤ ext (shared_integers v)) →
  objects s !! l = Some o → o_type o = REDIS_STRING → o_ptr o = Raw t →
  ∃ l' s', tryObjectEncoding l s = Some (l', s') ∧ sfocus (bump ext l' 1) s' i db ∧ strace s s' i [] [] 0 ∧ dbs s' = dbs s ∧ argv s' = argv s ∧
    (∃ o', objects s' !! l' = Some o' ∧ o_type o' = REDIS_STRING ∧ value_text (o_ptr o') = t) ∧
    stays ext s s' ∧
    ∀ t, sview t s' db = sview t s db.
Proof.
  intros SF Hr He Hsh Ho Hty Hp. unfold tryObjectEncoding. step (get_object_run _ _ _ Ho). rewrite Hp.
  assert (∃ l' s', Some (l, s) = Some (l', s') ∧ sfocus (bump ext l' 1) s' i db ∧ strace s s' i [] [] 0 ∧ dbs s' = dbs s ∧ argv s' = argv s ∧
    (∃ o', objects s' !! l' = Some o' ∧ o_type o' = REDIS_STRING ∧ value_text (o_ptr o') = t) ∧
    stays ext s s' ∧
    ∀ t, sview t s' db = sview t s db) as Hsame.
  { exists l, s. split; [done|]. split; [done|]. split; [apply strace_refl|]. do 2 (split; [done|]). split; [exists o; by rewrite Hp|]. split; [apply stays_refl|done]. }
  destruct (Z.ltb_spec 1 (o_refcount o)); [exact Hsame|].
  step (check_run (o_type o =? REDIS_STRING) s ltac:(by rewrite Hty)).
  destruct (if 21 <? blen t then None else string2l t) as [value|] eqn:Ev; [|exact Hsame].
  assert (t = ll_text value ∧ in_long value) as [Et Hlong].
  { destruct (21 <? blen t); [done|]. unfold string2l in Ev. apply bind_Some in Ev as (ll & Ell & Ev). destruct (string2ll_inv _ _ Ell) as [Hi ->].
    destruct (Z.ltb_spec ll LONG_MIN), (Z.ltb_spec LONG_MAX ll); cbn in Ev; try done. rewrite wraps_small in Ev by (unlimit; lia). injection Ev as <-.
    split; [done|]. unfold in_long. lia. }
  destruct (object_count _ _ _ _ _ _ SF Ho) as (Hc & Hc2 & Hrefs). rewrite bump_self in Hc. specialize (He l) as Hel.
  assert (ext l = 0 ∧ refs (dbs s) l = 0) as [El0 Hr0] by lia.
  destruct ((maxmemory =? 0) && (0 <=? value) && (value <? REDIS_SHARED_INTEGERS)) eqn:Eb.
  - apply andb_true_iff in Eb as [[_ Hv1%Z.leb_le]%andb_true_iff Hv2%Z.ltb_lt].
    destruct (decr_step ext s i db l SF He Hsh) as (s1 & E1 & SF1 & T1 & D1 & A1 & O1 & V1). step E1.
    destruct (sf_shared _ _ _ _ SF1 value ltac:(lia)) as (_ & os & Hos & Hts & Hps).
    destruct (incr_step ext s1 i db (shared_integers value) os SF1 Hr Hos) as (s2 & E2 & SF2 & T2 & D2 & A2 & Ho2 & V2). step E2.
    exists (shared_integers value), s2. split; [done|]. split; [done|]. split; [exact (strace_trans _ _ _ _ _ _ _ _ _ _ T1 T2)|].
    split; [congruence|]. split; [congruence|]. split; [eexists; split; [exact Ho2|]; cbn; by rewrite Hps|]. split; [|intros t'; by rewrite V2, V1].
    intros x Hex o' Hxo. assert (x ≠ l) as Hx by (intros ->; lia). unfold incrRefCount in E2. rewrite (bind_run _ _ _ _ _ (get_object_run _ _ _ Hos)) in E2. injection E2 as <-.
    assert (objects s1 !! x = Some o') as Hx1.
    { rewrite O1. unfold release. rewrite Ho. destruct (o_refcount o =? 1); [by rewrite lookup_delete_ne|by rewrite lookup_insert_ne]. }
    cbn. destruct (decide (x = shared_integers value)) as [->|Hne].
    + rewrite lookup_insert_eq. eexists. split; [done|]. cbn. by simplify_eq.
    + rewrite lookup_insert_ne by done. by exists o'.
  - step (set_ptr_run l (Enc value) s o Ho). eexists l, _. split; [reflexivity|].
    set (o1 := Robj (o_type o) (o_lru o) (o_refcount o) (Enc value)).
    destruct (heap_step (bump ext l 1) (bump ext l 1) s i db (<[l := o1]> (objects s))) as (SF' & T' & V'); [done|..].
    + by apply (owned_put _ _ _ _ o); [apply SF|..].
    + intros x. apply (sf_ext_nonneg _ _ _ _ x SF).
    + intros v Hv. by apply (sf_shared_ext _ _ _ _ v SF).
    + intros x o'. rewrite lookup_insert_Some. intros [[<- <-]|[_ Hx]]; [intros _; exact Hlong|by eapply (sf_objects _ _ _ _ SF)].
    + intros v Hv _. pose proof (not_shared _ _ _ _ _ _ _ SF Ho Hp v Hv) as Hne. destruct (sf_shared _ _ _ _ SF v Hv) as (_ & os & Hos & Hts & Hps).
      split; [unfold content; by rewrite lookup_insert_ne|]. exists os. by rewrite lookup_insert_ne.
    + intros j dbj key x A Hx. unfold content. destruct (decide (x = l)) as [->|Hne]; [|by rewrite lookup_insert_ne].
      pose proof (refs_pos _ _ _ _ _ (proj2 A) Hx). lia.
    + split; [exact SF'|]. split; [exact T'|]. do 2 (split; [done|]). split; [|split; [|exact V']].
      * exists o1. cbn. by rewrite lookup_insert_eq, Et.
      * intros x Hex o' Hxo. assert (x ≠ l) as Hx by (intros ->; lia). exists o'. cbn. by rewrite lookup_insert_ne.
Qed.

(** Writing to a value that only one key holds changes what this key stands for. *)
Lemma write_step ext s i db key l o t : sfocus ext s i db → keys_of db !! key = Some l → objects s !! l = Some o → o_type o = REDIS_STRING →
  o_refcount o = 1 → is_Some (match o_ptr o with Raw t => Some t | _ => None end) → text_ok t →
  ∃ s', write_ptr l t s = Some (tt, s') ∧ sfocus ext s' i db ∧ strace s s' i [] [] 0 ∧ dbs s' = dbs s ∧ argv s' = argv s ∧
    objects s' !! l = Some (Robj REDIS_STRING (o_lru o) 1 (Raw t)) ∧
    ∀ t', sview t' s' db = alter (λ vw : value * option Z, (VStr t, vw.2)) key (sview t' s db).
Proof.
  intros SF Hk Ho Hty Hc Hraw Ht. unfold write_ptr. rewrite (set_ptr_run l (Raw t) s o Ho). eexists. split; [reflexivity|].
  set (o1 := Robj (o_type o) (o_lru o) (o_refcount o) (Raw t)). pose proof SF as [F Hv Hsh].
  destruct (object_count _ _ _ _ _ _ SF Ho) as (Hcount & _ & _). pose proof (sf_ext_nonneg _ _ _ _ l SF) as He.
  assert (owned ext (dbs s) (<[l := o1]> (objects s))) as O' by (by apply (owned_put _ _ _ _ o); [apply F|..]).
  assert (∀ x, x ≠ l → content (<[l := o1]> (objects s)) x = content (objects s) x) as Hcx by (intros x Hx; unfold content; by rewrite lookup_insert_ne).
  assert (∀ v, 0 ≤ v < REDIS_SHARED_INTEGERS → shared_integers v ≠ l) as Hns.
  { intros v Hvr. destruct (o_ptr o) as [t0| |] eqn:Ep; [by eapply not_shared| |]; by destruct Hraw. }
  assert (∀ j dbj key', at_db s j dbj → keys_of dbj !! key' = Some l → j = i ∧ key' = key) as Huniq.
  { intros j dbj key' A Hl. destruct (fc_at _ _ _ _ _ F) as [Hi Hdb]. destruct A as [Hj Hdj].
    assert (refs (dbs s) l ≤ 1) as Hr1 by lia. destruct (refs_unique _ _ _ _ _ _ _ _ Hr1 Hdj Hdb Hl Hk) as [E1 ->]. split; [lia|done]. }
  split; [split; [destruct F; by split| |]|split; [split|]].
  - intros x o'. cbn. rewrite lookup_insert_Some. intros [[<- <-]|[_ Hx]]; [intros _; exact Ht|by eapply Hv].
  - intros v Hvr. destruct (Hsh v Hvr) as (H1 & os & Hos & Hts & Hps). split; [done|]. exists os. cbn. rewrite lookup_insert_ne; [done|]. intros Heq. by eapply Hns.
  - done.
  - by rewrite Z.add_0_r.
  - exists []. by rewrite app_nil_r.
  - intros j dbj Hj A. split; [done|]. intros t'. apply sview_content. intros key' x Hx. cbn. apply Hcx. intros ->.
    by destruct (Huniq j dbj key' A Hx) as [-> _].
  - do 2 (split; [done|]). split.
    + cbn. rewrite lookup_insert_eq. unfold o1. by rewrite Hty, Hc.
    + intros t'. apply map_eq. intros key'. unfold sview. destruct (decide (key' = key)) as [->|Hne].
      * rewrite lookup_alter_eq, !lookup_fmap, lookup_lview, Hk. cbn. destruct (gone _ _ _); [done|]. cbn. unfold content. rewrite lookup_insert_eq. cbn. by rewrite Hty.
      * rewrite lookup_alter_ne, !lookup_fmap, lookup_lview by done. destruct (keys_of db !! key') as [x|] eqn:Ex; [|done]. cbn. destruct (gone _ _ _); [done|]. cbn.
        rewrite Hcx; [done|]. intros ->. by destruct (Huniq i db key' (fc_at _ _ _ _ _ F) Ex) as [_ ->].
Qed.

(** ** The keyspace *)

(** A lookup, for reading or for writing. *)
Definition looks_up ext s i db key (v : option loc) s' db' : Prop :=
  sfocus ext s' i db' ∧ strace s s' i [] [] 0 ∧ argv s' = argv s ∧ total (dbs s') ≤ total (dbs s) ∧ v = keys_of db' !! key ∧ stays ext s s' ∧
  (∀ t, steady clock E t → is_Some v → gone E t (expires_of db' !! key) = false) ∧
  (∀ t, steady clock E t → sview t s' db' = sview t s db) ∧ (∀ key', key' ≠ key → keys_of db' !! key' = keys_of db !! key').

Lemma found_looks_up ext s i db key v s' db' : sfocus ext s i db → found seed clock E ext s i db key v s' db' → looks_up ext s i db key v s' db'.
Proof.
  intros SF (F & Q & Ev & S & Fr). pose proof (quiet_trace _ _ _ _ _ _ _ Q) as T.
  destruct (trace_step ext ext s s' i db db' [] [] 0 SF F (λ v, sf_shared_ext _ _ _ _ v SF) T) as (SF' & T' & V').
  split; [done|]. split; [done|]. split; [apply Q|]. split; [|split; [done|split; [|split; [|split; [|exact Fr]]]]].
  - rewrite (qt_dbs _ _ _ _ _ _ _ Q), (total_insert _ _ _ _ (proj2 (fc_at _ _ _ _ _ (sf_focus _ _ _ _ SF)))).
    pose proof (map_subseteq_size _ _ (qt_keys _ _ _ _ _ _ _ Q)). lia.
  - apply (stays_contents _ _ _ i db' F), Q.
  - intros t St Hv. apply (S t St). by rewrite <-Ev.
  - intros t St. by rewrite V', (qt_view _ _ _ _ _ _ _ Q t St).
Qed.

Lemma lookupWrite_step ext s i db key : sfocus ext s i db → ∃ v s' db', lookupWrite i key s = Some (v, s') ∧ looks_up ext s i db key v s' db'.
Proof.
  intros SF. destruct (lookupKeyWrite_spec seed clock junk_when id E seed_ok ext s i db key (sf_focus _ _ _ _ SF)) as (v & s' & db' & E1 & Fd).
  exists v, s', db'. split; [done|]. by apply found_looks_up.
Qed.

Lemma lookupRead_step ext s i db key : sfocus ext s i db → ∃ v s' db', lookupRead i key s = Some (v, s') ∧ looks_up ext s i db key v s' db'.
Proof.
  intros SF. destruct (lookupKeyRead_spec seed clock junk_when id E seed_ok ext s i db key (sf_focus _ _ _ _ SF)) as (v & s' & db' & E1 & Fd).
  exists v, s', db'. split; [done|]. by apply found_looks_up.
Qed.

(** What a key that was looked up stands for. *)
Lemma looks_up_view ext s i db key v s' db' t : looks_up ext s i db key v s' db' → steady clock E t →
  sview t s db !! key = (λ l, (content (objects s') l, expires_of db' !! key)) <$> v.
Proof.
  intros (_ & _ & _ & _ & Ev & _ & G & V & _) St. rewrite <-(V t St). unfold sview. rewrite lookup_fmap, lookup_lview, <-Ev.
  destruct v as [l|]; [|done]. cbn. by rewrite (G t St ltac:(eauto)).
Qed.

(** A new value under a key: dbAdd takes the reference of the caller. *)
Definition sets (ext : loc → Z) s i db (key : text) l s' db' : Prop :=
  sfocus ext s' i db' ∧ strace s s' i [] [] 0 ∧ total (dbs s') ≤ total (dbs s) + 1 ∧ keys_of db' = <[key := l]> (keys_of db) ∧
  expires_of db' = expires_of db ∧ stays ext s s' ∧ dbs s' = <[Z.to_nat i := db']> (dbs s) ∧ (∃ o o', objects s !! l = Some o ∧ objects s' !! l = Some o' ∧ o_type o' = o_type o ∧ o_ptr o' = o_ptr o) ∧
  ∀ t, steady clock E t → sview t s' db' = <[key := (content (objects s) l, expires_of db !! key)]> (sview t s db).

Lemma object_kept (ext ext' : loc → Z) s s' i db' l o : focus seed ext' s' i db' → trace s s' i db' [] [] 0 → objects s !! l = Some o → (1 ≤ ext' l ∨ ∃ key, keys_of db' !! key = Some l) →
  ∃ o o', objects s !! l = Some o ∧ objects s' !! l = Some o' ∧ o_type o' = o_type o ∧ o_ptr o' = o_ptr o.
Proof.
  intros F T Ho Hl. assert (is_Some (objects s' !! l)) as [o' Ho'].
  { destruct Hl as [Hl|[key Hl]]; [by eapply focus_ext_present|]. exact (focus_present _ _ _ _ _ _ _ _ F (fc_at _ _ _ _ _ F) Hl). }
  destruct (tr_contents _ _ _ _ _ _ _ T l o' Ho') as (o2 & Ho2 & ? & ?). by exists o2, o'.
Qed.

Lemma add_step ext s i db key l : sfocus (bump ext l 1) s i db → (∀ x, 0 ≤ ext x) → (∀ v, 0 ≤ v < REDIS_SHARED_INTEGERS → 1 ≤ ext (shared_integers v)) →
  total (dbs s) < 2 ^ 28 - 1 → keys_of db !! key = None →
  ∃ s' db', dbAdd seed junk_val E i key l s = Some (tt, s') ∧ sets ext s i db key l s' db'.
Proof.
  intros SF He Hsh Ht Hk. pose proof (sf_focus _ _ _ _ SF) as F.
  destruct (focus_ext_present _ _ _ _ l F) as [o Ho]; [rewrite bump_self; specialize (He l); lia|].
  pose proof (expires_none _ _ _ _ _ _ F Hk) as Hx.
  destruct (add_focus seed junk_val id E seed_ok ext s i db key l F He Ht Hk ltac:(eauto)) as (s' & db' & E1 & F1 & T1 & K1 & X1).
  exists s', db'. split; [done|]. destruct (trace_step (bump ext l 1) ext s s' i db db' [] [] 0 SF F1 Hsh T1) as (SF' & T' & V').
  split; [done|]. split; [done|]. split; [|split; [done|split; [done|split; [|split; [apply T1|split]]]]].
  - rewrite (tr_dbs _ _ _ _ _ _ _ T1), (total_insert _ _ _ _ (proj2 (fc_at _ _ _ _ _ F))), K1, map_size_insert_None by done. lia.
  - apply (stays_contents _ _ _ i db' F1), T1.
  - apply (object_kept ext ext s s' i db' l o F1 T1 Ho). right. exists key. by rewrite K1, lookup_insert_eq.
  - intros t _. rewrite V', (lview_add E t db db' key l K1 X1 Hx), fmap_insert. by rewrite Hx.
Qed.

Lemma holders_replace (m : gmap text loc) key old new l : m !! key = Some old →
  holders (<[key := new]> m) l = holders m l - (if decide (l = old) then 1 else 0) + (if decide (l = new) then 1 else 0).
Proof.
  intros Ho. rewrite <-(insert_delete_eq m key new). rewrite holders_insert by apply lookup_delete_eq. rewrite (holders_delete m key old l Ho). lia.
Qed.

Lemma owned_replace ext ds (h : gmap loc robj) n db db' key old new :
  owned ext ds h → (∀ x, 0 ≤ ext x) → ds !! n = Some db → keys_of db !! key = Some old → keys_of db' = <[key := new]> (keys_of db) → 1 ≤ ext new →
  owned (bump ext new (-1)) (<[n := db']> ds) (release old h).
Proof.
  intros O He Hn Hk Hk' Hnew.
  assert (∀ l, refs (<[n := db']> ds) l = refs ds l - (if decide (l = old) then 1 else 0) + (if decide (l = new) then 1 else 0)) as Hr.
  { intros l. unfold refs. rewrite (sum_dbs_insert _ _ _ _ db' Hn), Hk', (holders_replace _ _ _ _ l Hk). lia. }
  pose proof (refs_pos _ _ _ _ _ Hn Hk) as Hp. pose proof (O old) as Oo. destruct (h !! old) as [oo|] eqn:Eo; [|lia].
  intros l. rewrite Hr. specialize (O l). specialize (He l). unfold release, bump. rewrite Eo.
  destruct (Z.eqb_spec (o_refcount oo) 1) as [E1|E1].
  - destruct (decide (l = old)) as [->|Hne]; [rewrite lookup_delete_eq; rewrite Eo in O; destruct (decide (old = new)) as [->|]; lia|].
    rewrite lookup_delete_ne by done. destruct (h !! l), (decide (l = new)) as [->|]; lia.
  - destruct (decide (l = old)) as [->|Hne]; [rewrite lookup_insert_eq; rewrite Eo in O; cbn; destruct (decide (old = new)) as [->|]; lia|].
    rewrite lookup_insert_ne by done. destruct (h !! l), (decide (l = new)) as [->|]; lia.
Qed.

Lemma lview_replace t db db' key l : keys_of db' = <[key := l]> (keys_of db) → expires_of db' = expires_of db → gone E t (expires_of db !! key) = false →
  lview E t db' = <[key := (l, expires_of db !! key)]> (lview E t db).
Proof.
  intros Hk He Hg. apply map_eq. intros key'. rewrite lookup_lview, Hk, He. destruct (decide (key' = key)) as [->|Hne].
  - rewrite !lookup_insert_eq. cbn. by rewrite Hg.
  - by rewrite !lookup_insert_ne, lookup_lview by done.
Qed.

Lemma lview_persist t db db' key l : keys_of db' = keys_of db → expires_of db' = delete key (expires_of db) → keys_of db !! key = Some l →
  lview E t db' = <[key := (l, None)]> (lview E t db).
Proof.
  intros Hk He Hl. apply map_eq. intros key'. rewrite lookup_lview, Hk, He. destruct (decide (key' = key)) as [->|Hne].
  - by rewrite lookup_insert_eq, lookup_delete_eq, Hl.
  - by rewrite lookup_insert_ne, lookup_delete_ne, lookup_lview by done.
Qed.

(** dbOverwrite takes the reference of the caller and drops the one to the old value. *)
Lemma overwrite_step ext s i db key l old : sfocus (bump ext l 1) s i db → (∀ x, 0 ≤ ext x) → (∀ v, 0 ≤ v < REDIS_SHARED_INTEGERS → 1 ≤ ext (shared_integers v)) →
  keys_of db !! key = Some old → (∀ t, steady clock E t → gone E t (expires_of db !! key) = false) →
  ∃ s' db', dbOverwrite seed junk_val E i key l s = Some (tt, s') ∧ sets ext s i db key l s' db'.
Proof.
  intros SF He Hsh Hk Hgone. pose proof (sf_focus _ _ _ _ SF) as F. assert (1 ≤ bump ext l 1 l) as Hl1 by (rewrite bump_self; specialize (He l); lia).
  destruct (focus_ext_present _ _ _ _ l F Hl1) as [o Ho].
  destruct (dbFind_spec seed clock E seed_ok (bump ext l 1) s i db key F) as (s1 & db1 & E1 & F1 & Q1 & K1 & O1). unfold dbOverwrite. step E1.
  assert (is_Some (keys_of db !! key)) as Hsome by (rewrite Hk; eauto). step (check_run _ s1 (bool_decide_eq_true_2 _ Hsome)).
  pose proof (fc_at _ _ _ _ _ F1) as A1. step (get_db_run _ _ _ A1). pose proof (focus_ok _ _ _ _ _ F1) as W1.
  assert (keys_of db1 !! key = Some old) as Hk1 by (by rewrite (db_keep_keys _ _ _ K1)).
  assert (dictSize (db_dict db1) < 2 ^ 29) as Hs.
  { pose proof (db_type_ok seed seed_ok). rewrite (dictSize_dmap (dbDictType seed) _ (ok_dict _ _ W1)). pose proof (size_total _ _ _ (proj2 A1)) as Hs.
    pose proof (fc_total _ _ _ _ _ F1). unfold keys_of in Hs. lia. }
  pose proof (db_type_ok seed seed_ok) as T0.
  destruct (dictReplace_old (dbDictType seed) (can_resize E) junk_val (db_dict db1) key l (ok_dict _ _ W1) Hs) as (d & E2 & W2 & M2 & I2).
  { unfold keys_of in Hk1. by rewrite Hk1. }
  step (lift_run _ _ _ E2). step (put_dict_run _ _ _ d A1).
  set (db2 := RedisDb d (db_expires db1)). set (s2 := set_db s1 i db2).
  assert (keys_of db2 = <[key := l]> (keys_of db1)) as Hk2 by exact M2.
  assert (live_object (objects s2) old) as Hlive by exact (focus_live _ _ _ _ _ F1 key old Hk1).
  change (dmap (db_dict db1)) with (keys_of db1). rewrite Hk1. cbn [Z.eqb]. step (lift_run (Some old) s2 old eq_refl).
  rewrite (decrRefCount_run old s2 Hlive). set (s3 := with_objects s2 (release old (objects s2))).
  assert (db_ok seed db2) as Wk.
  { split; cbn; [done|apply W1|rewrite I2; apply W1|]. unfold keys_of, expires_of. cbn. rewrite M2, dom_insert_L. pose proof (ok_keys _ _ W1) as Hd.
    unfold keys_of, expires_of in Hd. set_solver. }
  assert (size (<[key := l]> (keys_of db1)) = size (keys_of db1)) as Hsz by (apply map_size_insert_Some; rewrite Hk1; eauto).
  assert (focus seed ext s3 i db2) as F3.
  { split.
    - by apply (at_set_db s1 i db1).
    - apply Forall_insert; [apply F1|done].
    - apply (owned_ext (bump (bump ext l 1) l (-1))).
      + exact (owned_replace _ _ _ _ _ db2 _ _ _ (fc_owned _ _ _ _ _ F1) (λ x, proj1 (fc_ext _ _ _ _ _ F1 x)) (proj2 A1) Hk1 Hk2 Hl1).
      + intros x. rewrite bump_bump. by apply (bump_zero ext l).
    - change (total (<[Z.to_nat i := db2]> (dbs s1)) < 2 ^ 28). rewrite (total_insert _ _ _ _ (proj2 A1)), Hk2, Hsz.
      pose proof (fc_total _ _ _ _ _ F1). lia.
    - intros x. pose proof (fc_ext _ _ _ _ _ F1 x). pose proof (bump_le ext l 1 x). specialize (He x). lia. }
  assert (trace s s3 i db2 [] [] 0) as T3.
  { apply (trace_trans s s1 s3 i db1 db2 [] [] [] [] 0 0); [by eapply quiet_trace|].
    split; [done|exact (same_contents_release _ (Some old))|done|by rewrite Z.add_0_r|exists []; by rewrite app_nil_r]. }
  exists s3, db2. split; [done|].
  destruct (trace_step (bump ext l 1) ext s s3 i db db2 [] [] 0 SF F3 Hsh T3) as (SF' & T' & V').
  split; [done|]. split; [done|]. split; [|split; [by rewrite Hk2, (db_keep_keys _ _ _ K1)|split; [exact (db_keep_expires _ _ _ K1)|split; [|split; [apply T3|split]]]]].
  - change (total (<[Z.to_nat i := db2]> (dbs s1)) ≤ total (dbs s) + 1).
    rewrite (qt_dbs _ _ _ _ _ _ _ Q1), list_insert_insert_eq, (total_insert _ _ _ _ (proj2 (fc_at _ _ _ _ _ F))), Hk2, Hsz, (db_keep_keys _ _ _ K1). lia.
  - apply (stays_contents _ _ _ i db2 F3), T3.
  - apply (object_kept ext ext s s3 i db2 l o F3 T3 Ho). right. exists key. by rewrite Hk2, lookup_insert_eq.
  - intros t St. rewrite V', (lview_replace t db1 db2 key l Hk2 eq_refl), fmap_insert.
    + by rewrite (db_keep_expires _ _ _ K1), (lview_keep seed E t db db1 K1).
    + rewrite (db_keep_expires _ _ _ K1). by apply Hgone.
Qed.

(** setKey: the key has the value, without an expire time, and the caller keeps its
    reference. *)
Lemma setKey_step ext s i db key l : sfocus (bump ext l 1) s i db → roomy ext → (∀ x, 0 ≤ ext x) → (∀ v, 0 ≤ v < REDIS_SHARED_INTEGERS → 1 ≤ ext (shared_integers v)) →
  total (dbs s) < 2 ^ 28 - 1 →
  ∃ s' db', setKey seed clock junk_val E i key l s = Some (tt, s') ∧ sfocus (bump ext l 1) s' i db' ∧ strace s s' i [] [(i, key)] 0 ∧
    total (dbs s') ≤ total (dbs s) + 1 ∧ keys_of db' !! key = Some l ∧ stays (bump ext l 1) s s' ∧
    ∀ t, steady clock E t → sview t s' db' = <[key := (content (objects s) l, None)]> (sview t s db).
Proof.
  intros SF Hr He Hsh Ht. unfold setKey. destruct (lookupWrite_step _ s i db key SF) as (v & s1 & db1 & E1 & L1).
  pose proof L1 as (SF1 & T1 & A1 & Ht1 & Ev & Kp1 & G1 & V1 & _).
  step (E1 : lookupKeyWrite seed clock E i key s = _).
  assert (∃ s2 db2, match v with None => dbAdd seed junk_val E i key l | Some _ => dbOverwrite seed junk_val E i key l end s1 = Some (tt, s2) ∧
    sets ext s1 i db1 key l s2 db2) as (s2 & db2 & E2 & SF2 & T2 & Ht2 & K2 & X2 & Kp2 & D2 & (o & o' & Ho & Ho' & Hty & Hptr) & V2).
  { destruct v as [old|]; [apply (overwrite_step ext s1 i db1 key l old); try done; intros t St; by apply G1|].
    apply add_step; try done. lia. }
  step E2. destruct (incr_step ext s2 i db2 l o' SF2 Hr Ho') as (s3 & E3 & SF3 & T3 & D3 & A3 & Ho3 & V3). step E3.
  assert (is_Some (keys_of db2 !! key)) as Hk2 by (rewrite K2, lookup_insert_eq; eauto).
  destruct (removeExpire_spec seed clock id E seed_ok (bump ext l 1) s3 i db2 key (sf_focus _ _ _ _ SF3) Hk2) as (s4 & db4 & E4 & F4 & T4 & O4 & K4 & X4).
  step E4. unfold signalModifiedKey. rewrite emit_run.
  destruct (trace_step (bump ext l 1) (bump ext l 1) s3 s4 i db2 db4 [] [] 0 SF3 F4 (λ v, sf_shared_ext _ _ _ _ v SF3) T4) as (SF4 & T4' & V4).
  exists (add_log s4 [EvTouch i key]), db4. split; [done|]. split; [|split; [|split; [|split; [|split]]]].
  - destruct SF4 as [[? ? ? ? ?] ? ?]. split; [split; done|done|done].
  - pose proof (strace_trans _ _ _ _ _ _ _ _ _ _ T1 (strace_trans _ _ _ _ _ _ _ _ _ _ T2 (strace_trans _ _ _ _ _ _ _ _ _ _ T3 T4'))) as [C Y (evs & L & N & Tc) O].
    split; [exact C|exact Y| |exact O]. exists (evs ++ [EvTouch i key]). cbn. by rewrite L, <-app_assoc, answers_app, touches_app, N, Tc.
  - change (total (dbs s4) ≤ total (dbs s) + 1). rewrite (tr_dbs _ _ _ _ _ _ _ T4), (total_insert _ _ _ _ (proj2 (fc_at _ _ _ _ _ (sf_focus _ _ _ _ SF3)))), K4, D3. lia.
  - by rewrite K4, K2, lookup_insert_eq.
  - eapply stays_trans; [exact Kp1|]. eapply stays_trans; [|apply (stays_contents _ _ _ i db4 F4), T4].
    intros x Hx ox Hox. destruct (decide (x = l)) as [->|Hne].
    + eexists. split; [exact Ho3|]. cbn. simplify_eq. done.
    + rewrite bump_other in Hx by done. destruct (Kp2 x Hx ox Hox) as (o2 & Ho2 & ? & ?).
      unfold incrRefCount in E3. rewrite (bind_run _ _ _ _ _ (get_object_run _ _ _ Ho')) in E3. injection E3 as <-. cbn. rewrite lookup_insert_ne by done. by exists o2.
  - intros t St. change (sview t s4 db4 = <[key:=(content (objects s) l, None)]> (sview t s db)). rewrite V4.
    rewrite (lview_persist t db2 db4 key l K4 X4) by (by rewrite K2, lookup_insert_eq).
    rewrite fmap_insert. fold (sview t s3 db2). rewrite V3, V2, V1 by done. rewrite insert_insert_eq. f_equal. f_equal.
    destruct (focus_ext_present _ _ _ _ l (sf_focus _ _ _ _ SF)) as [os Hos]; [rewrite bump_self; specialize (He l); lia|].
    destruct (Kp1 l ltac:(rewrite bump_self; specialize (He l); lia) os Hos) as (o1 & Ho1 & Ht1' & Hp1). simplify_eq.
    unfold content. cbn [fst]. rewrite Ho3, Hos. cbn. by rewrite Hty, Hptr, Ht1', Hp1.
Qed.

(** ** Building blocks of the commands *)

Lemma sfocus_log ext s i db evs : sfocus ext s i db → sfocus ext (add_log s evs) i db.
Proof. intros [[? ? ? ? ?] ? ?]. split; [split; done|done|done]. Qed.
Lemma sfocus_dirty ext s i db n : sfocus ext s i db → sfocus ext (with_dirty s n) i db.
Proof. intros [[? ? ? ? ?] ? ?]. split; [split; done|done|done]. Qed.
Lemma sfocus_ticks ext s i db n : sfocus ext s i db → sfocus ext (with_ticks s n) i db.
Proof. intros [[? ? ? ? ?] ? ?]. split; [split; done|done|done]. Qed.
Lemma sfocus_argv ext s i db a : sfocus ext s i db → sfocus ext (with_argv s a) i db.
Proof. intros [[? ? ? ? ?] ? ?]. split; [split; done|done|done]. Qed.

Lemma strace_log s s' i ans tch n evs : strace s s' i ans tch n → strace s (add_log s' evs) i (ans ++ answers evs) (tch ++ touches evs) n.
Proof.
  intros [C Y (e & L & N & T) O]. split; [done|done| |done]. exists (e ++ evs). cbn. by rewrite L, <-app_assoc, answers_app, touches_app, N, T.
Qed.

Lemma strace_quiet s s' i ans tch n evs : strace s s' i ans tch n → touches evs = [] → strace s (add_log s' evs) i (ans ++ answers evs) tch n.
Proof. intros T He. pose proof (strace_log _ _ _ _ _ _ evs T) as T'. by rewrite He, app_nil_r in T'. Qed.

Lemma strace_dirty s s' i ans tch n m : strace s s' i ans tch n → strace s (with_dirty s' (i64 (dirty s' + m))) i ans tch (n + m).
Proof.
  intros [C Y L O]. split; [done| |done|done]. cbn. pose proof (i64_i64_add (dirty s' + m) 0) as X. rewrite !Z.add_0_r in X. rewrite X.
  rewrite <-i64_i64_add, Y, i64_i64_add. f_equal. lia.
Qed.

Lemma strace_ticks s s' i ans tch n m : strace s s' i ans tch n → strace s (with_ticks s' m) i ans tch n.
Proof. intros [C Y L O]. by split. Qed.

(** A step that cannot be seen. *)
Record silent (ext : loc → Z) s i db s' db' : Prop := Silent {
  sl_focus : sfocus ext s' i db';
  sl_trace : strace s s' i [] [] 0;
  sl_argv : argv s' = argv s;
  sl_total : total (dbs s') ≤ total (dbs s);
  sl_kept : stays ext s s';
  sl_view : ∀ t, steady clock E t → sview t s' db' = sview t s db
}.

Lemma silent_refl ext s i db : sfocus ext s i db → silent ext s i db s db.
Proof. intros SF. split; [done|apply strace_refl|done|done|apply stays_refl|done]. Qed.

Lemma silent_trans ext s1 s2 s3 i a b c : silent ext s1 i a s2 b → silent ext s2 i b s3 c → silent ext s1 i a s3 c.
Proof.
  intros [F1 T1 A1 N1 K1 V1] [F2 T2 A2 N2 K2 V2]. split; [done|exact (strace_trans _ _ _ _ _ _ _ _ _ _ T1 T2)|congruence|lia|by eapply stays_trans|].
  intros t St. by rewrite V2, V1.
Qed.

Lemma looks_up_silent ext s i db key v s' db' : looks_up ext s i db key v s' db' → silent ext s i db s' db'.
Proof. intros (F & T & A & N & _ & K & _ & V & _). by split. Qed.

Lemma looks_up_some ext s i db key l s' db' : looks_up ext s i db key (Some l) s' db' →
  ∃ o, objects s' !! l = Some o ∧ keys_of db' !! key = Some l ∧ object_ok o ∧
    ∀ t, steady clock E t → sview t s db !! key = Some (content (objects s') l, expires_of db' !! key).
Proof.
  intros L. pose proof L as (F & _ & _ & _ & Ev & _). symmetry in Ev.
  destruct (focus_present _ _ _ _ _ _ _ _ (sf_focus _ _ _ _ F) (fc_at _ _ _ _ _ (sf_focus _ _ _ _ F)) Ev) as [o Ho].
  exists o. split; [done|]. split; [done|]. split; [by eapply (sf_objects _ _ _ _ F)|]. intros t St. by rewrite (looks_up_view _ _ _ _ _ _ _ _ t L St).
Qed.

Lemma looks_up_none ext s i db key s' db' : looks_up ext s i db key None s' db' →
  keys_of db' !! key = None ∧ ∀ t, steady clock E t → sview t s db !! key = None.
Proof. intros L. pose proof L as (_ & _ & _ & _ & Ev & _). split; [done|]. intros t St. by rewrite (looks_up_view _ _ _ _ _ _ _ _ t L St). Qed.

(** The result of a specification: the keyspace, the answers, the signalled keys, the changes. *)
Abbreviation result := (smap * list answer * list text * Z)%type.

(** A command that holds the values [vals] and returns the ones it holds at the end, with
    at most [more] new keys. *)
Definition does (ext : loc → Z) s (db : redisDb) (m : M (list loc)) (sp : Z → smap → result) (more : Z) : Prop :=
  ∃ (vals : list loc) s' (db' : redisDb) (ans : list answer) (tch : list text) (n : Z), m s = Some (vals, s') ∧ sfocus (foldr (λ l e, bump e l 1) ext vals) s' (c_db s) db' ∧
    strace s s' (c_db s) ans ((λ key, (c_db s, key)) <$> tch) n ∧ total (dbs s') ≤ total (dbs s) + more ∧
    ∀ t, steady clock E t → sp t (sview t s db) = (sview t s' db', ans, tch, n).

(** A command without values. *)
Definition plainly (m : M unit) : M (list loc) := _ ← m; mret [].
Definition holding (m : M loc) : M (list loc) := l ← m; mret [l].

Lemma bind_assoc_run {A B C} (m : M A) (f : A → M B) (g : B → M C) s : ((m ≫= f) ≫= g) s = (m ≫= λ x, f x ≫= g) s.
Proof. unfold mbind, M_bind. by destruct (m s) as [[a s1]|]. Qed.

(** After a silent step. *)
Lemma does_silent ext ext' s s1 db db1 m m1 sp more : silent ext' s (c_db s) db s1 db1 → does ext s1 db1 m1 sp more → m s = m1 s1 → does ext s db m sp more.
Proof.
  intros [F1 T1 A1 N1 K1 V1] (vals & s' & db' & ans & tch & n & E2 & F2 & T2 & N2 & V2) Em.
  pose proof (st_c_db _ _ _ _ _ _ T1) as Hc. exists vals, s', db', ans, tch, n. rewrite Em. split; [done|]. rewrite Hc in *.
  split; [done|]. split; [exact (strace_trans _ _ _ _ _ _ _ _ _ _ T1 T2)|]. split; [lia|]. intros t St. by rewrite <-V1, V2.
Qed.

(** A command that ends with an answer. *)
Lemma does_answers ext vals s db m sp a : sfocus (foldr (λ l e, bump e l 1) ext vals) s (c_db s) db → m s = Some (vals, add_log s [EvAnswer a]) →
  (∀ t, steady clock E t → sp t (sview t s db) = (sview t s db, [a], [], 0)) → does ext s db m sp 0.
Proof.
  intros F Em Hsp. exists vals, (add_log s [EvAnswer a]), db, [a], [], 0. split; [done|]. split; [by apply sfocus_log|].
  split; [exact (strace_log _ _ _ _ _ _ [EvAnswer a] (strace_refl s (c_db s)))|]. split; [|done].
  change (total (dbs s) ≤ total (dbs s) + 0). lia.
Qed.

Lemma does_more ext s db m sp more more' : does ext s db m sp more → more ≤ more' → does ext s db m sp more'.
Proof. intros (vals & s' & db' & ans & tch & n & ? & ? & ? & ? & ?) Hm. exists vals, s', db', ans, tch, n. split_and!; try done. lia. Qed.

(** ** What the helpers answer *)

Lemma lookupReadOrReply_run ext s db key a : sfocus ext s (c_db s) db →
  ∃ v s1 db1, looks_up ext s (c_db s) db key v s1 db1 ∧
    lookupKeyReadOrReply seed clock E key a s = Some (v, match v with None => add_log s1 [EvAnswer a] | Some _ => s1 end).
Proof.
  intros SF. destruct (lookupRead_step ext s (c_db s) db key SF) as (v & s1 & db1 & E1 & L). exists v, s1, db1. split; [done|].
  unfold lookupKeyReadOrReply. step (eq_refl : gets c_db s = Some (c_db s, s)). step (E1 : lookupKeyRead seed clock E (c_db s) key s = _). by destruct v.
Qed.

Lemma checkType_run l o ty s : objects s !! l = Some o →
  checkType l ty s = Some (negb (o_type o =? ty), if o_type o =? ty then s else add_log s [EvAnswer R_wrongtypeerr]).
Proof. intros Ho. unfold checkType. step (get_object_run _ _ _ Ho). by destruct (o_type o =? ty). Qed.

Lemma object_text_run l o s : objects s !! l = Some o → o_type o = REDIS_STRING → object_ok o → object_text l s = Some (value_text (o_ptr o), s).
Proof.
  intros Ho Ht Hok. unfold object_text. step (get_object_run _ _ _ Ho). specialize (Hok Ht). destruct (o_ptr o) as [t|n|]; [done| |done].
  cbn [ptr_ok value_text] in *. by rewrite (proj1 (llbuf_text n (in_long_i64 n Hok))).
Qed.

Lemma stringObjectLen_run l o s : objects s !! l = Some o → o_type o = REDIS_STRING → object_ok o → stringObjectLen l s = Some (blen (value_text (o_ptr o)), s).
Proof.
  intros Ho Ht Hok. unfold stringObjectLen. step (get_object_run _ _ _ Ho). step (check_run (o_type o =? REDIS_STRING) s ltac:(by rewrite Ht)).
  specialize (Hok Ht). destruct (o_ptr o) as [t|n|]; [done| |done]. cbn [ptr_ok value_text] in *. by rewrite (proj2 (llbuf_text n (in_long_i64 n Hok))).
Qed.

Lemma getLongLong_run t msg s : getLongLongFromObjectOrReply (Some (Raw t)) msg s =
  Some (number t, match number t with None => add_log s [EvAnswer msg] | Some _ => s end).
Proof. unfold getLongLongFromObjectOrReply. rewrite getLongLong_raw. step (lift_run (Some (number t)) s _ eq_refl). by destruct (number t). Qed.

(** A [long] argument, or the answer when it is none. *)
Definition long_number (t : text) (msg : option answer) : answer + Z :=
  match number t with
  | None => inl (default R_notinteger msg)
  | Some n => if (n <? LONG_MIN) || (LONG_MAX <? n) then inl (default (R_error "value is out of range") msg) else inr n
  end.

Lemma getLong_run t msg s : getLongFromObjectOrReply (Some (Raw t)) msg s =
  Some (match long_number t msg with inl a => (None, add_log s [EvAnswer a]) | inr n => (Some n, s) end).
Proof.
  unfold getLongFromObjectOrReply, long_number. step (getLongLong_run t (default R_notinteger msg) s). destruct (number t) as [n|]; [|done].
  by destruct ((n <? LONG_MIN) || (LONG_MAX <? n)).
Qed.

Lemma long_number_range t msg n : long_number t msg = inr n → in_long n.
Proof. unfold long_number, in_long. destruct (number t) as [m|]; [|done]. destruct (Z.ltb_spec m LONG_MIN), (Z.ltb_spec LONG_MAX m); cbn; intros; simplify_eq. lia. Qed.

Lemma string_view s l o : objects s !! l = Some o → o_type o = REDIS_STRING → content (objects s) l = VStr (value_text (o_ptr o)).
Proof. apply content_string. Qed.
Lemma other_view s l o : objects s !! l = Some o → o_type o ≠ REDIS_STRING → content (objects s) l = VOther l.
Proof. intros Ho Ht. unfold content. rewrite Ho. by rewrite (proj2 (Z.eqb_neq _ _)). Qed.

(** ** Commands that read *)

(** A key that holds a string, a value of another type, or nothing. *)
Definition reading (V : smap) (key : text) (missing : answer) (wrong : answer) (f : text → answer) : answer :=
  match V !! key with None => missing | Some (VStr t, _) => f t | Some (VOther _, _) => wrong end.

Lemma getGeneric_run ext s db key : sfocus ext s (c_db s) db → argv s !! 1%nat = Some key →
  ∃ ok a s1 db1, getGenericCommand s = Some (ok, add_log s1 [EvAnswer a]) ∧ silent ext s (c_db s) db s1 db1 ∧
    ∀ t, steady clock E t → reading (sview t s db) key R_nullbulk R_wrongtypeerr R_bulk = a ∧
      ok = match sview t s db !! key with Some (VOther _, _) => false | _ => true end.
Proof.
  intros SF Ha. destruct (lookupReadOrReply_run ext s db key R_nullbulk SF) as (v & s1 & db1 & L & E1).
  unfold getGenericCommand. step (arg_run _ _ _ Ha). step E1. pose proof (looks_up_silent _ _ _ _ _ _ _ _ L) as S1. destruct v as [l|].
  - destruct (looks_up_some _ _ _ _ _ _ _ _ L) as (o & Ho & Hk & Hok & V). step (get_object_run _ _ _ Ho).
    destruct (Z.eqb_spec (o_type o) REDIS_STRING) as [Ht|Ht]; cbn [negb].
    + exists true, (R_bulk (value_text (o_ptr o))), s1, db1. split; [|split; [done|]].
      * unfold addReplyBulk. rewrite bind_assoc_run. by step (object_text_run _ _ _ Ho Ht Hok).
      * intros t St. unfold reading. by rewrite (V t St), (string_view _ _ _ Ho Ht).
    + exists false, R_wrongtypeerr, s1, db1. split; [done|]. split; [done|]. intros t St. unfold reading. by rewrite (V t St), (other_view _ _ _ Ho Ht).
  - exists true, R_nullbulk, s1, db1. split; [done|]. split; [done|]. intros t St. unfold reading. by rewrite (proj2 (looks_up_none _ _ _ _ _ _ _ L) t St).
Qed.

(** A command that reads one key, whose answer is a function of what this key stands for. *)
Lemma reader_does ext s db (m : M unit) (sp : Z → smap → result) a s1 db1 :
  m s = Some (tt, add_log s1 [EvAnswer a]) → silent ext s (c_db s) db s1 db1 →
  (∀ t, steady clock E t → sp t (sview t s db) = (sview t s db, [a], [], 0)) → does ext s db (plainly m) sp 0.
Proof.
  intros Em S1 Hsp. pose proof (sl_trace _ _ _ _ _ _ S1) as T. pose proof (st_c_db _ _ _ _ _ _ T) as Hc.
  exists [], (add_log s1 [EvAnswer a]), db1, [a], [], 0. split; [unfold plainly; by step Em|]. split; [apply sfocus_log, S1|].
  split; [exact (strace_log _ _ _ _ _ _ [EvAnswer a] T)|]. split; [pose proof (sl_total _ _ _ _ _ _ S1); change (total (dbs s1) ≤ total (dbs s) + 0); lia|].
  intros t St. rewrite Hsp by done. change (sview t (add_log s1 _) db1) with (sview t s1 db1). by rewrite (sl_view _ _ _ _ _ _ S1 t St).
Qed.

Lemma get_does ext s db key : sfocus ext s (c_db s) db → argv s !! 1%nat = Some key →
  does ext s db (plainly getCommand) (λ _ V, (V, [reading V key R_nullbulk R_wrongtypeerr R_bulk], [], 0)) 0.
Proof.
  intros SF Ha. destruct (getGeneric_run ext s db key SF Ha) as (ok & a & s1 & db1 & E1 & S1 & V).
  eapply reader_does; [|exact S1|].
  - unfold getCommand. by step E1.
  - intros t St. by destruct (V t St) as [-> _].
Qed.

(** The common part of the commands that look a string up and compute an answer from it. *)
Lemma string_found ext s db key (v : option loc) s1 db1 missing (m : loc → M unit) (f : text → answer) : looks_up ext s (c_db s) db key v s1 db1 →
  (∀ l o, objects s1 !! l = Some o → o_type o = REDIS_STRING → object_ok o → m l s1 = Some (tt, add_log s1 [EvAnswer (f (value_text (o_ptr o)))])) →
  ∃ a, (match v with
     | None => addReply missing
     | Some l => wrong ← checkType l REDIS_STRING; if wrong : bool then mret tt else m l
     end) s1 = Some (tt, add_log s1 [EvAnswer a]) ∧
    ∀ t, steady clock E t → reading (sview t s db) key missing R_wrongtypeerr f = a.
Proof.
  intros L Hm. destruct v as [l|].
  - destruct (looks_up_some _ _ _ _ _ _ _ _ L) as (o & Ho & Hk & Hok & V). step (checkType_run l o REDIS_STRING s1 Ho).
    destruct (Z.eqb_spec (o_type o) REDIS_STRING) as [Ht|Ht]; cbn [negb].
    + eexists. split; [by apply (Hm l o)|]. intros t St. unfold reading. by rewrite (V t St), (string_view _ _ _ Ho Ht).
    + exists R_wrongtypeerr. split; [done|]. intros t St. unfold reading. by rewrite (V t St), (other_view _ _ _ Ho Ht).
  - exists missing. split; [done|]. intros t St. unfold reading. by rewrite (proj2 (looks_up_none _ _ _ _ _ _ _ L) t St).
Qed.

Lemma string_reader ext s db key missing (m : loc → M unit) (f : text → answer) : sfocus ext s (c_db s) db →
  (∀ s1 l o, argv s1 = argv s → objects s1 !! l = Some o → o_type o = REDIS_STRING → object_ok o →
     m l s1 = Some (tt, add_log s1 [EvAnswer (f (value_text (o_ptr o)))])) →
  ∃ a s1 db1, (o ← lookupKeyReadOrReply seed clock E key missing;
     match o with
     | None => mret tt
     | Some l => wrong ← checkType l REDIS_STRING; if wrong : bool then mret tt else m l
     end) s = Some (tt, add_log s1 [EvAnswer a]) ∧ silent ext s (c_db s) db s1 db1 ∧
    ∀ t, steady clock E t → reading (sview t s db) key missing R_wrongtypeerr f = a.
Proof.
  intros SF Hm. destruct (lookupReadOrReply_run ext s db key missing SF) as (v & s1 & db1 & L & E1).
  pose proof (looks_up_silent _ _ _ _ _ _ _ _ L) as S1. destruct (string_found ext s db key v s1 db1 missing m f L) as (a & E2 & V).
  { intros l o. apply Hm, S1. }
  exists a, s1, db1. split; [|done]. step E1. destruct v as [l|]; [done|]. by rewrite <-E2.
Qed.

Lemma strlen_does ext s db key : sfocus ext s (c_db s) db → argv s !! 1%nat = Some key →
  does ext s db (plainly strlenCommand) (λ _ V, (V, [reading V key R_czero R_wrongtypeerr (λ t, R_int (blen t))], [], 0)) 0.
Proof.
  intros SF Ha. destruct (string_reader ext s db key R_czero (λ l, len ← stringObjectLen l; addReply (R_int len)) (λ t, R_int (blen t)) SF) as (a & s1 & db1 & E1 & S1 & V).
  { intros s1 l o _ Ho Ht Hok. by step (stringObjectLen_run _ _ _ Ho Ht Hok). }
  eapply reader_does; [|exact S1|].
  - unfold strlenCommand. step (arg_run _ _ _ Ha). exact E1.
  - intros t St. by rewrite (V t St).
Qed.

(** GETRANGE: the bytes from [start] to [end], both counted from the end when negative. *)
Definition getrange_text (t : text) (start end_ : Z) : text :=
  let start := from_end (blen t) start in
  let end_ := Z.min (from_end (blen t) end_) (blen t - 1) in
  slice t start (end_ + 1).
Definition getrange_answer (start end_ : Z) (t : text) : answer :=
  match getrange_text t start end_ with [] => R_emptybulk | t' => R_bulk t' end.

Lemma getrange_run (t : text) start end_ (s : server) : text_ok t → in_long start → in_long end_ →
  getrange_reply t start end_ s
  = Some (tt, add_log s [EvAnswer (getrange_answer start end_ t)]).
Proof.
  intros [_ Hl] Hs He. unfold getrange_reply. cbn zeta. pose proof (blen_nonneg t) as H0. unfold in_long in Hs, He.
  assert (∀ z, - 2 ^ 31 ≤ z < 2 ^ 31 → i32 (u64 z) = z) as I.
  { intros z Hz. unfold wrapu, wraps. change (2 ^ 64) with (2 ^ 32 * 2 ^ 32). change (2 ^ (32 - 1)) with 2147483648.
    destruct (Z.ltb_spec z 0).
    - rewrite <-(Z.mod_unique z (2 ^ 32 * 2 ^ 32) (-1) (z + 2 ^ 32 * 2 ^ 32)) by (unlimit; lia).
      rewrite <-(Z.mod_unique _ (2 ^ 32) (2 ^ 32) (z + 2147483648)) by (unlimit; lia). lia.
    - rewrite (Z.mod_small z) by (unlimit; lia). rewrite Z.mod_small by (unlimit; lia). lia. }
  assert (∀ i, LONG_MIN ≤ i ≤ LONG_MAX → (if (if i <? 0 then i32 (u64 (blen t + i)) else i) <? 0 then 0 else if i <? 0 then i32 (u64 (blen t + i)) else i) = from_end (blen t) i) as F.
  { intros i Hi. unfold from_end. destruct (Z.ltb_spec i 0); [rewrite I by (unlimit; lia)|]; zcase; lia. }
  rewrite !F by done. rewrite (I (blen t - 1)) by (unlimit; lia). clear F I.
  set (a := from_end (blen t) start). set (b := from_end (blen t) end_).
  assert (0 ≤ a ≤ LONG_MAX ∧ 0 ≤ b ≤ LONG_MAX) as [Ha Hb].
  { unfold a, b, from_end. split; zcase; unlimit; lia. }
  rewrite wrapu_small by (unlimit; lia). unfold getrange_answer, getrange_text. fold a b.
  replace (if blen t <=? b then blen t - 1 else b) with (Z.min b (blen t - 1)) by (zcase; lia). set (e := Z.min b (blen t - 1)).
  zcase.
  - unfold slice. replace (Z.to_nat (e + 1 - a)) with 0%nat by lia. done.
  - rewrite (wraps_small 32 (e - a)) by (unlimit; lia). rewrite wraps_small by (unlimit; lia).
    assert (mload t a (e - a + 1) = Some (slice t a (e + 1))) as Em.
    { unfold mload. zdec. cbn [andb]. unfold slice. do 2 f_equal. lia. }
    step (lift_run _ s _ Em). destruct (slice t a (e + 1)) eqn:Es; [|done].
    pose proof (blen_slice t a (e + 1) ltac:(lia) ltac:(lia)) as L. rewrite Es in L. rewrite blen_nil in L. lia.
Qed.

(** An argument that has to be parsed before anything else. *)
Definition with_long (a : text) (msg : option answer) (V : smap) (f : Z → result) : result :=
  match long_number a msg with inl x => (V, [x], [], 0) | inr n => f n end.

Lemma answer_does ext s db (m : M unit) (sp : Z → smap → result) a :
  sfocus ext s (c_db s) db → m s = Some (tt, add_log s [EvAnswer a]) → (∀ t V, sp t V = (V, [a], [], 0)) → does ext s db (plainly m) sp 0.
Proof. intros SF Em Hsp. eapply reader_does; [exact Em|by apply silent_refl|]. intros t St. apply Hsp. Qed.

Definition getrange_spec (key start_arg end_arg : text) (V : smap) : result :=
  with_long start_arg None V (λ start, with_long end_arg None V (λ end_,
    (V, [reading V key R_emptybulk R_wrongtypeerr (getrange_answer start end_)], [], 0))).

Lemma getrange_does ext s db key a b : sfocus ext s (c_db s) db → argv s !! 1%nat = Some key → argv s !! 2%nat = Some a → argv s !! 3%nat = Some b →
  does ext s db (plainly getrangeCommand) (λ _ V, getrange_spec key a b V) 0.
Proof.
  intros SF H1 H2 H3.
  destruct (long_number a None) as [x|start] eqn:Ea.
  { eapply (answer_does _ _ _ _ _ x SF); [|intros t V; unfold getrange_spec, with_long; by rewrite Ea].
    unfold getrangeCommand. step (arg_run _ _ _ H1). step (arg_run _ _ _ H2). step (arg_run _ _ _ H3).
    pose proof (getLong_run a None s) as E1. rewrite Ea in E1. by step E1. }
  destruct (long_number b None) as [x|end_] eqn:Eb.
  { eapply (answer_does _ _ _ _ _ x SF); [|intros t V; unfold getrange_spec, with_long; by rewrite Ea, Eb].
    unfold getrangeCommand. step (arg_run _ _ _ H1). step (arg_run _ _ _ H2). step (arg_run _ _ _ H3).
    pose proof (getLong_run a None s) as E1. rewrite Ea in E1. step E1. pose proof (getLong_run b None s) as E2. rewrite Eb in E2. by step E2. }
  pose proof (long_number_range _ _ _ Ea) as Ra. pose proof (long_number_range _ _ _ Eb) as Rb.
  destruct (string_reader ext s db key R_emptybulk (λ l, str ← object_text l; getrange_reply str start end_) (getrange_answer start end_) SF)
    as (x & s1 & db1 & E1 & S1 & V1); [|eapply reader_does; [|exact S1|]].
  - intros s1 l o _ Ho Ht Hok. step (object_text_run _ _ _ Ho Ht Hok). apply getrange_run; [|done..]. by apply value_text_ok, Hok.
  - unfold getrangeCommand. step (arg_run _ _ _ H1). step (arg_run _ _ _ H2). step (arg_run _ _ _ H3).
    pose proof (getLong_run a None s) as X1. rewrite Ea in X1. step X1. pose proof (getLong_run b None s) as X2. rewrite Eb in X2. step X2. exact E1.
  - intros t St. unfold getrange_spec, with_long. rewrite Ea, Eb. by rewrite (V1 t St).
Qed.

Lemma mget_loop_run ext keys : ∀ s i db, sfocus ext s i db →
  ∃ s' db' ans, mget_loop i keys s = Some (tt, s') ∧ sfocus ext s' i db' ∧ strace s s' i ans [] 0 ∧ total (dbs s') ≤ total (dbs s) ∧
    ∀ t, steady clock E t → sview t s' db' = sview t s db ∧ ans = (λ key, reading (sview t s db) key R_nullbulk R_nullbulk R_bulk) <$> keys.
Proof.
  induction keys as [|key keys IH]; intros s i db SF; cbn [mget_loop].
  { exists s, db, []. split; [done|]. split; [done|]. split; [apply strace_refl|]. by split. }
  destruct (lookupRead_step ext s i db key SF) as (v & s1 & db1 & E1 & L). step E1. pose proof (looks_up_silent _ _ _ _ _ _ _ _ L) as S1.
  assert (∃ a, (match v with
      | None => addReply R_nullbulk
      | Some l => o ← get_object l; if negb (o_type o =? REDIS_STRING) then addReply R_nullbulk else addReplyBulk l
      end) s1 = Some (tt, add_log s1 [EvAnswer a]) ∧ ∀ t, steady clock E t → reading (sview t s db) key R_nullbulk R_nullbulk R_bulk = a) as (a & E2 & V2).
  { destruct v as [l|].
    - destruct (looks_up_some _ _ _ _ _ _ _ _ L) as (o & Ho & Hk & Hok & V).
      destruct (Z.eqb_spec (o_type o) REDIS_STRING) as [Ht|Ht].
      + exists (R_bulk (value_text (o_ptr o))). split.
        * step (get_object_run _ _ _ Ho). rewrite Ht, Z.eqb_refl. cbn [negb]. unfold addReplyBulk. by step (object_text_run _ _ _ Ho Ht Hok).
        * intros t St. unfold reading. by rewrite (V t St), (string_view _ _ _ Ho Ht).
      + exists R_nullbulk. split.
        * step (get_object_run _ _ _ Ho). by rewrite (proj2 (Z.eqb_neq _ _)).
        * intros t St. unfold reading. by rewrite (V t St), (other_view _ _ _ Ho Ht).
    - exists R_nullbulk. split; [done|]. intros t St. unfold reading. by rewrite (proj2 (looks_up_none _ _ _ _ _ _ _ L) t St). }
  step E2. destruct (IH (add_log s1 [EvAnswer a]) i db1) as (s3 & db3 & ans & E3 & SF3 & T3 & N3 & V3); [apply sfocus_log, S1|].
  exists s3, db3, (a :: ans). split; [done|]. split; [done|].
  split; [exact (strace_trans _ _ _ _ _ _ _ _ _ _ (strace_log _ _ _ _ _ _ [EvAnswer a] (sl_trace _ _ _ _ _ _ S1)) T3)|].
  split; [pose proof (sl_total _ _ _ _ _ _ S1); change (total (dbs (add_log s1 [EvAnswer a]))) with (total (dbs s1)) in N3; lia|].
  intros t St. destruct (V3 t St) as [Hv Ha]. change (sview t (add_log s1 _) db1) with (sview t s1 db1) in *.
  rewrite (sl_view _ _ _ _ _ _ S1 t St) in *. split; [done|]. rewrite fmap_cons, (V2 t St). by rewrite Ha.
Qed.

Lemma mget_does ext s db c keys : sfocus ext s (c_db s) db → argv s = c :: keys →
  does ext s db (plainly mgetCommand) (λ _ V, (V, R_multibulklen (Z.of_nat (length keys)) :: ((λ key, reading V key R_nullbulk R_nullbulk R_bulk) <$> keys), [], 0)) 0.
Proof.
  intros SF Ha. set (s0 := add_log s [EvAnswer (R_multibulklen (Z.of_nat (length keys)))]).
  destruct (mget_loop_run ext keys s0 (c_db s) db (sfocus_log _ _ _ _ _ SF)) as (s1 & db1 & ans & E1 & SF1 & T1 & N1 & V1).
  exists [], s1, db1, (R_multibulklen (Z.of_nat (length keys)) :: ans), [], 0. split; [|split; [done|split; [|split]]].
  - unfold plainly, mgetCommand. rewrite bind_assoc_run. step (eq_refl : gets argv s = Some (argv s, s)). rewrite Ha. cbn [length tail].
    rewrite bind_assoc_run. step (eq_refl : gets c_db s = Some (c_db s, s)). rewrite bind_assoc_run.
    replace (Z.of_nat (S (length keys)) - 1) with (Z.of_nat (length keys)) by lia.
    step (eq_refl : addReply _ s = Some (tt, s0)). by step E1.
  - exact (strace_trans _ _ _ _ _ _ _ _ _ _ (strace_log _ _ _ _ _ _ [EvAnswer _] (strace_refl s (c_db s))) T1).
  - change (total (dbs s0)) with (total (dbs s)) in N1. lia.
  - intros t St. destruct (V1 t St) as [Hv ->]. change (sview t s0 db) with (sview t s db) in *. by rewrite Hv.
Qed.

(** ** SET and its relatives *)

(** A key with an expire time, which may be past already. *)
Definition put (t : Z) (key : text) (v : value) (w : option Z) (V : smap) : smap :=
  if gone E t w then delete key V else <[key := (v, w)]> V.

Lemma setExpire_step ext s i db key l when : sfocus ext s i db → keys_of db !! key = Some l →
  ∃ s' db', setExpire seed junk_when E i key when s = Some (tt, s') ∧ sfocus ext s' i db' ∧ strace s s' i [] [] 0 ∧ total (dbs s') = total (dbs s) ∧
    ∀ t, sview t s' db' = put t key (content (objects s) l) (Some when) (sview t s db).
Proof.
  intros SF Hk. assert (is_Some (keys_of db !! key)) as Hk' by (rewrite Hk; eauto).
  destruct (setExpire_spec seed clock junk_when id E seed_ok ext s i db key when (sf_focus _ _ _ _ SF) Hk') as (s' & db' & E1 & F1 & T1 & O1 & K1 & X1).
  destruct (trace_step ext ext s s' i db db' [] [] 0 SF F1 (λ v, sf_shared_ext _ _ _ _ v SF) T1) as (SF' & T' & V').
  exists s', db'. split; [done|]. split; [done|]. split; [done|]. split.
  - rewrite (tr_dbs _ _ _ _ _ _ _ T1), (total_insert _ _ _ _ (proj2 (fc_at _ _ _ _ _ (sf_focus _ _ _ _ SF)))), K1. lia.
  - intros t. rewrite V', (lview_expire E t db db' key l when K1 X1 Hk). unfold put. destruct (gone E t (Some when)); [by rewrite fmap_delete|by rewrite fmap_insert].
Qed.

Definition refuses (flags : Z) (V : smap) (key : text) : bool :=
  (negb (Z.land flags REDIS_SET_NX =? 0) && bool_decide (is_Some (V !! key))) ||
  (negb (Z.land flags REDIS_SET_XX =? 0) && bool_decide (V !! key = None)).

Lemma set_refused_run ext s i db flags key : sfocus ext s i db →
  ∃ b s' db', set_refused flags i key s = Some (b, s') ∧ silent ext s i db s' db' ∧ ∀ t, steady clock E t → b = refuses flags (sview t s db) key.
Proof.
  intros SF. unfold set_refused, refuses.
  assert (∃ b s1 db1, (if negb (Z.land flags REDIS_SET_NX =? 0) then v ← lookupWrite i key; mret (bool_decide (is_Some v)) else mret false) s = Some (b, s1) ∧
    silent ext s i db s1 db1 ∧ ∀ t, steady clock E t → b = negb (Z.land flags REDIS_SET_NX =? 0) && bool_decide (is_Some (sview t s db !! key))) as (b1 & s1 & db1 & E1 & S1 & B1).
  { destruct (negb (Z.land flags REDIS_SET_NX =? 0)); [|exists false, s, db; split; [done|]; split; [by apply silent_refl|done]].
    destruct (lookupWrite_step ext s i db key SF) as (v & s1 & db1 & E1 & L). exists (bool_decide (is_Some v)), s1, db1. split; [by step E1|].
    split; [by apply looks_up_silent in L|]. intros t St. cbn [andb]. apply bool_decide_ext. rewrite (looks_up_view _ _ _ _ _ _ _ _ t L St). by rewrite fmap_is_Some. }
  step E1. destruct b1.
  { exists true, s1, db1. split; [done|]. split; [done|]. intros t St. by rewrite <-(B1 t St). }
  destruct (negb (Z.land flags REDIS_SET_XX =? 0)).
  - destruct (lookupWrite_step ext s1 i db1 key (sl_focus _ _ _ _ _ _ S1)) as (v & s2 & db2 & E2 & L). exists (bool_decide (v = None)), s2, db2. split; [by step E2|].
    split; [exact (silent_trans _ _ _ _ _ _ _ _ S1 (looks_up_silent _ _ _ _ _ _ _ _ L))|]. intros t St. rewrite <-(B1 t St). cbn [orb andb].
    apply bool_decide_ext. rewrite <-(sl_view _ _ _ _ _ _ S1 t St), (looks_up_view _ _ _ _ _ _ _ _ t L St). by rewrite fmap_None.
  - exists false, s1, db1. split; [done|]. split; [done|]. intros t St. by rewrite <-(B1 t St).
Qed.

(** [w] is what happens to the results of the arithmetic: the code wraps them to 64 bits. *)
Definition set_spec (w : Z → Z) (t flags : Z) (key txt : text) (ms : option Z) (ok_reply abort_reply : option answer) (V : smap) : result :=
  if refuses flags V key then (V, [default R_nullbulk abort_reply], [], 0)
  else (put t key (VStr txt) ((λ ms, w (t + ms)) <$> ms) V, [default R_ok ok_reply], [key], 1).

(** What holds for a command with one value. *)
Record argument (ext : loc → Z) s db (val : loc) (txt : text) : Prop := Argument {
  ar_focus : sfocus (bump ext val 1) s (c_db s) db;
  ar_roomy : ∀ x, 0 ≤ ext x < 2 ^ 28 - 8;
  ar_shared : ∀ v, 0 ≤ v < REDIS_SHARED_INTEGERS → 1 ≤ ext (shared_integers v);
  ar_total : total (dbs s) < 2 ^ 28 - 1;
  ar_content : content (objects s) val = VStr txt
}.

Lemma roomy_bump ext l : (∀ x, 0 ≤ ext x < 2 ^ 28 - 8) → roomy ext ∧ roomy (bump ext l 1) ∧ ∀ x, 0 ≤ ext x.
Proof.
  intros H. split_and!; intros x; specialize (H x); [lia| |lia]. unfold bump. destruct (decide (x = l)); lia.
Qed.

Lemma stays_content ext s s' l o : stays ext s s' → 1 ≤ ext l → objects s !! l = Some o → content (objects s') l = content (objects s) l.
Proof. intros K Hl Ho. destruct (K l Hl o Ho) as (o' & Ho' & Ht & Hp). unfold content. by rewrite Ho, Ho', Ht, Hp. Qed.

Lemma argument_silent ext s db val txt s' db' : argument ext s db val txt → silent (bump ext val 1) s (c_db s) db s' db' → argument ext s' db' val txt.
Proof.
  intros [SF R Sh Tt Ct] Si. pose proof (st_c_db _ _ _ _ _ _ (sl_trace _ _ _ _ _ _ Si)) as Hc. split; [rewrite Hc; apply Si|done|done| |].
  - pose proof (sl_total _ _ _ _ _ _ Si). lia.
  - assert (1 ≤ bump ext val 1 val) as H1 by (rewrite bump_self; specialize (R val); lia).
    destruct (focus_ext_present _ _ _ _ val (sf_focus _ _ _ _ SF) H1) as [o Ho]. by rewrite (stays_content _ _ _ _ _ (sl_kept _ _ _ _ _ _ Si) H1 Ho).
Qed.

Lemma set_value_does ext s db flags key val txt ms ok_reply abort_reply : argument ext s db val txt →
  does ext s db (holding (_ ← set_value flags key val ms ok_reply abort_reply; mret val)) (λ t V, set_spec i64 t flags key txt ms ok_reply abort_reply V) 1.
Proof.
  intros A. set (i := c_db s). destruct (set_refused_run (bump ext val 1) s i db flags key (ar_focus _ _ _ _ _ A)) as (b & s1 & db1 & E1 & S1 & B1).
  pose proof (argument_silent _ _ _ _ _ _ _ A S1) as A1. pose proof (st_c_db _ _ _ _ _ _ (sl_trace _ _ _ _ _ _ S1)) as Hc1.
  assert (∀ r s', set_value flags key val ms ok_reply abort_reply s = Some (r, s') →
    holding (_ ← set_value flags key val ms ok_reply abort_reply; mret val) s = Some ([val], s')) as Hh.
  { intros r s' Er. unfold holding. rewrite bind_assoc_run. by step Er. }
  destruct b.
  { exists [val], (add_log s1 [EvAnswer (default R_nullbulk abort_reply)]), db1, [default R_nullbulk abort_reply], [], 0. split; [|split; [|split; [|split]]].
    - eapply Hh. unfold set_value. step (eq_refl : gets c_db s = Some (i, s)). step E1. done.
    - apply sfocus_log. change (sfocus (bump ext val 1) s1 i db1). apply S1.
    - exact (strace_log _ _ _ _ _ _ [EvAnswer _] (sl_trace _ _ _ _ _ _ S1)).
    - pose proof (sl_total _ _ _ _ _ _ S1). change (total (dbs s1) ≤ total (dbs s) + 1). lia.
    - intros t St. unfold set_spec. rewrite <-(B1 t St). change (sview t (add_log s1 _) db1) with (sview t s1 db1). by rewrite (sl_view _ _ _ _ _ _ S1 t St). }
  destruct (roomy_bump ext val (ar_roomy _ _ _ _ _ A)) as (R0 & R1 & R2).
  destruct (setKey_step ext s1 i db1 key val) as (s2 & db2 & E2 & SF2 & T2 & N2 & K2 & Kp2 & V2);
    [apply S1|done|done|apply A|apply A1|].
  set (s3 := with_dirty s2 (i64 (dirty s2 + 1))). pose proof (sfocus_dirty _ _ _ _ (i64 (dirty s2 + 1)) SF2 : sfocus (bump ext val 1) s3 i db2) as SF3.
  pose proof (strace_dirty _ _ _ _ _ _ 1 (strace_trans _ _ _ _ _ _ _ _ _ _ (sl_trace _ _ _ _ _ _ S1) T2) : strace s s3 i [] [(i, key)] 1) as T3.
  set (when := λ t, (λ ms, i64 (t + ms)) <$> ms).
  assert (∃ s4 db4, (match ms with Some ms => t ← mstime clock; setExpire seed junk_when E i key (i64 (t + ms)) | None => mret tt end) s3 = Some (tt, s4) ∧
    sfocus (bump ext val 1) s4 i db4 ∧ strace s3 s4 i [] [] 0 ∧ total (dbs s4) = total (dbs s3) ∧
    ∀ t, steady clock E t → sview t s4 db4 = put t key (VStr txt) (when t) (sview t s db)) as (s4 & db4 & E4 & SF4 & T4 & N4 & V4).
  { assert (∀ t, steady clock E t → sview t s3 db2 = <[key := (VStr txt, None)]> (sview t s db)) as V3.
    { intros t St. change (sview t s3 db2) with (sview t s2 db2). rewrite (V2 t St), (ar_content _ _ _ _ _ A1). by rewrite (sl_view _ _ _ _ _ _ S1 t St). }
    destruct ms as [ms|].
    - set (s3' := with_ticks s3 (S (ticks s3))).
      destruct (setExpire_step _ s3' i db2 key val (i64 (clock (ticks s3) + ms)) (sfocus_ticks _ _ _ _ _ SF3) K2) as (s4 & db4 & E4 & SF4 & T4 & N4 & V4).
      exists s4, db4. split; [by step (mstime_run clock s3)|]. split; [done|]. split; [exact (strace_trans _ _ _ _ _ _ _ _ _ _ (strace_ticks _ _ _ _ _ _ (S (ticks s3)) (strace_refl s3 i)) T4)|].
      split; [done|]. intros t St. rewrite V4. change (sview t s3' db2) with (sview t s3 db2). rewrite (V3 t St).
      assert (clock (ticks s3) = t) as -> by apply St.
      assert (content (objects s3') val = VStr txt) as ->.
      { change (content (objects s2) val = VStr txt). rewrite <-(ar_content _ _ _ _ _ A1).
        assert (1 ≤ bump ext val 1 val) as H1 by (rewrite bump_self; specialize (R2 val); lia).
        destruct (focus_ext_present _ _ _ _ val (sf_focus _ _ _ _ (sl_focus _ _ _ _ _ _ S1)) H1) as [o Ho]. exact (stays_content _ _ _ _ _ Kp2 H1 Ho). }
      unfold put, when. cbn [fmap option_fmap option_map]. destruct (gone E t (Some (i64 (t + ms)))); [by rewrite delete_insert_eq|by rewrite insert_insert_eq].
    - exists s3, db2. split; [done|]. split; [done|]. split; [apply strace_refl|]. split; [done|]. intros t St. rewrite (V3 t St). unfold put, when, gone. done. }
  set (evs := EvNotify REDIS_NOTIFY_STRING "set" key i :: (match ms with Some _ => [EvNotify REDIS_NOTIFY_GENERIC "expire" key i] | None => [] end) ++ [EvAnswer (default R_ok ok_reply)]).
  pose proof (st_c_db _ _ _ _ _ _ (strace_trans _ _ _ _ _ _ _ _ _ _ T3 T4)) as Hc4.
  exists [val], (add_log s4 evs), db4, [default R_ok ok_reply], [key], 1. split; [|split; [|split; [|split]]].
  - apply (Hh tt). unfold set_value. step (eq_refl : gets c_db s = Some (i, s)). step E1. step E2. step (eq_refl : add_dirty 1 s2 = Some (tt, s3)). step E4.
    unfold notify. rewrite bind_assoc_run. step (eq_refl : gets c_db s4 = Some (c_db s4, s4)). rewrite Hc4. step (emit_run (EvNotify REDIS_NOTIFY_STRING "set" key (c_db s)) s4).
    unfold evs, i. destruct ms as [ms|].
    + rewrite bind_assoc_run. step (eq_refl : gets c_db (add_log s4 [EvNotify REDIS_NOTIFY_STRING "set" key (c_db s)]) = Some (c_db s4, _)). rewrite Hc4.
      step (emit_run (EvNotify REDIS_NOTIFY_GENERIC "expire" key (c_db s)) (add_log s4 [EvNotify REDIS_NOTIFY_STRING "set" key (c_db s)])).
      unfold addReply, emit, modify, add_log. cbn. by rewrite <-!app_assoc.
    + unfold mbind, M_bind, mret, M_ret, addReply, emit, modify, add_log. cbn. by rewrite <-!app_assoc.
  - by apply sfocus_log.
  - pose proof (strace_log _ _ _ _ _ _ evs (strace_trans _ _ _ _ _ _ _ _ _ _ T3 T4)) as T. unfold evs in T. destruct ms; exact T.
  - change (total (dbs s4) ≤ total (dbs s) + 1). rewrite N4. pose proof (sl_total _ _ _ _ _ _ S1). change (total (dbs s3)) with (total (dbs s2)). lia.
  - intros t St. unfold set_spec. rewrite <-(B1 t St). change (sview t (add_log s4 evs) db4) with (sview t s4 db4). by rewrite (V4 t St).
Qed.

Definition set_generic_spec (w : Z → Z) (t flags : Z) (key txt : text) (expire : option text) (unit_ : Z) (ok_reply abort_reply : option answer) (V : smap) : result :=
  match expire with
  | None => set_spec w t flags key txt None ok_reply abort_reply V
  | Some e =>
      match number e with
      | None => (V, [R_notinteger], [], 0)
      | Some n =>
          if n <=? 0 then (V, [R_error "invalid expire time in SETEX"], [], 0)
          else set_spec w t flags key txt (Some (if unit_ =? UNIT_SECONDS then w (n * 1000) else n)) ok_reply abort_reply V
      end
  end.

Lemma argument_answers ext s db val txt (m : M loc) (sp : Z → smap → result) (a : answer) :
  argument ext s db val txt → m s = Some (val, add_log s [EvAnswer a]) → (∀ t V, sp t V = (V, [a], [], 0)) → does ext s db (holding m) sp 0.
Proof. intros A Em Hsp. apply (does_answers ext [val] s db _ _ a); [apply A|unfold holding; by step Em|by intros]. Qed.

Lemma setGeneric_does ext s db flags key val txt expire unit_ ok_reply abort_reply : argument ext s db val txt →
  does ext s db (holding (_ ← setGenericCommand flags key val expire unit_ ok_reply abort_reply; mret val))
    (λ t V, set_generic_spec i64 t flags key txt expire unit_ ok_reply abort_reply V) 1.
Proof.
  intros A. unfold setGenericCommand, set_generic_spec. destruct expire as [e|]; [|by apply set_value_does].
  pose proof (getLongLong_run e R_notinteger s) as E1. destruct (number e) as [n|] eqn:En.
  - destruct (Z.leb_spec n 0).
    + eapply does_more; [|instantiate (1 := 0); lia]. eapply argument_answers; [done| |by intros]. rewrite !bind_assoc_run. step E1. by rewrite (proj2 (Z.leb_le n 0)).
    + destruct (set_value_does ext s db flags key val txt (Some (if unit_ =? UNIT_SECONDS then i64 (n * 1000) else n)) ok_reply abort_reply A)
        as (vals & s' & db' & ans & tch & k & E2 & R). exists vals, s', db', ans, tch, k. split; [|done]. rewrite <-E2. unfold holding. rewrite !bind_assoc_run.
      step E1. rewrite (proj2 (Z.leb_gt n 0)) by lia. done.
  - eapply does_more; [|instantiate (1 := 0); lia]. eapply argument_answers; [done| |by intros]. rewrite !bind_assoc_run. by step E1.
Qed.

(** The argument as it arrives: a raw string of its own. *)
Record raw_argument (ext : loc → Z) s db (val : loc) (txt : text) : Prop := RawArgument {
  rw_focus : sfocus (bump ext val 1) s (c_db s) db;
  rw_roomy : ∀ x, 0 ≤ ext x < 2 ^ 28 - 8;
  rw_shared : ∀ v, 0 ≤ v < REDIS_SHARED_INTEGERS → 1 ≤ ext (shared_integers v);
  rw_total : total (dbs s) < 2 ^ 28 - 1;
  rw_object : ∃ o, objects s !! val = Some o ∧ o_type o = REDIS_STRING ∧ o_ptr o = Raw txt
}.

Lemma raw_is_argument ext s db val txt : raw_argument ext s db val txt → argument ext s db val txt.
Proof. intros [F R Sh Tt (o & Ho & Ht & Hp)]. split; try done. by rewrite (content_string _ _ _ Ho Ht), Hp. Qed.

Lemma raw_argument_silent ext s db val txt s' db' : raw_argument ext s db val txt → silent (bump ext val 1) s (c_db s) db s' db' → raw_argument ext s' db' val txt.
Proof.
  intros [SF R Sh Tt (o & Ho & Ht & Hp)] Si. pose proof (st_c_db _ _ _ _ _ _ (sl_trace _ _ _ _ _ _ Si)) as Hc. split; [rewrite Hc; apply Si|done|done| |].
  - pose proof (sl_total _ _ _ _ _ _ Si). lia.
  - destruct (sl_kept _ _ _ _ _ _ Si val) with (o := o) as (o' & Ho' & Ht' & Hp'); [rewrite bump_self; specialize (R val); lia|done|].
    exists o'. split_and!; congruence.
Qed.

(** A command that starts with the encoding of its value. *)
Lemma encoded_does ext s db val txt (m : loc → M unit) (sp : Z → smap → result) more : raw_argument ext s db val txt →
  (∀ val' s', argument ext s' db val' txt → argv s' = argv s → c_db s' = c_db s → does ext s' db (holding (_ ← m val'; mret val')) sp more) →
  does ext s db (holding (val ← tryObjectEncoding val; _ ← m val; mret val)) sp more.
Proof.
  intros A Hm. destruct (roomy_bump ext val (rw_roomy _ _ _ _ _ A)) as (R0 & R1 & R2). pose proof A as [SF R Sh Tt (o & Ho & Ht & Hp)].
  destruct (encode_step ext s (c_db s) db val o txt SF R0 R2 Sh Ho Ht Hp) as (val' & s1 & E1 & SF1 & T1 & D1 & A1 & (o1 & Ho1 & Ht1 & Hv1) & _ & V1).
  pose proof (st_c_db _ _ _ _ _ _ T1) as Hc.
  destruct (Hm val' s1) as (vals & s2 & db2 & ans & tch & n & E2 & F2 & T2 & N2 & V2); [|done|done|].
  { split; [by rewrite Hc|done|done|by rewrite D1|]. by rewrite (content_string _ _ _ Ho1 Ht1), Hv1. }
  rewrite Hc in *. exists vals, s2, db2, ans, tch, n. split; [|split; [done|split; [exact (strace_trans _ _ _ _ _ _ _ _ _ _ T1 T2)|split; [by rewrite <-D1|]]]].
  - rewrite <-E2. unfold holding. rewrite (bind_assoc_run (tryObjectEncoding val)). by step E1.
  - intros t St. by rewrite <-V1, V2.
Qed.

Lemma set_does ext s db val txt c key x opts : raw_argument ext s db val txt → argv s = c :: key :: x :: opts →
  does ext s db (holding (setCommand val)) (λ t V,
    match set_options opts REDIS_SET_NO_FLAGS None UNIT_SECONDS with
    | None => (V, [R_syntaxerr], [], 0)
    | Some (flags, expire, unit_) => set_generic_spec i64 t flags key txt expire unit_ None None V
    end) 1.
Proof.
  intros A Ha. assert (∀ r, holding (setCommand val) s = r ↔ holding (match set_options opts REDIS_SET_NO_FLAGS None UNIT_SECONDS with
      | None => _ ← addReply R_syntaxerr; mret val
      | Some (flags, expire, unit_) => val ← tryObjectEncoding val; _ ← setGenericCommand flags key val expire unit_ None None; mret val end) s = r) as Hrun.
  { intros r. unfold setCommand, holding. rewrite !bind_assoc_run. step (eq_refl : gets argv s = Some (argv s, s)). rewrite Ha. cbn [drop].
    rewrite bind_assoc_run. assert (argv s !! 1%nat = Some key) as H1 by by rewrite Ha. by step (arg_run _ _ _ H1). }
  assert (∀ m sp, (∀ r, holding (setCommand val) s = r ↔ m s = r) → does ext s db m sp 1 → does ext s db (holding (setCommand val)) sp 1) as Hd.
  { intros m sp Hm (vals & s' & db' & ans & tch & n & E1 & R). exists vals, s', db', ans, tch, n. split; [by apply Hm|done]. }
  apply (Hd _ _ Hrun). destruct (set_options opts REDIS_SET_NO_FLAGS None UNIT_SECONDS) as [[[flags expire] unit_]|].
  - apply (encoded_does ext s db val txt (λ val, setGenericCommand flags key val expire unit_ None None) _ 1 A). intros val' s' A' _ _. by apply setGeneric_does.
  - eapply does_more; [|instantiate (1 := 0); lia]. eapply argument_answers; [by apply raw_is_argument|done|by intros].
Qed.

Lemma setnx_does ext s db val txt key : raw_argument ext s db val txt → argv s !! 1%nat = Some key →
  does ext s db (holding (setnxCommand val)) (λ t V, set_generic_spec i64 t REDIS_SET_NX key txt None 0 (Some R_cone) (Some R_czero) V) 1.
Proof.
  intros A Ha. destruct (encoded_does ext s db val txt (λ val, setGenericCommand REDIS_SET_NX key val None 0 (Some R_cone) (Some R_czero))
    (λ t V, set_generic_spec i64 t REDIS_SET_NX key txt None 0 (Some R_cone) (Some R_czero) V) 1 A) as (vals & s' & db' & ans & tch & n & E1 & R).
  { intros val' s' A' _ _. by apply setGeneric_does. }
  exists vals, s', db', ans, tch, n. split; [|done]. rewrite <-E1. unfold setnxCommand, holding. rewrite bind_assoc_run. by step (arg_run _ _ _ Ha).
Qed.

Lemma setex_does ext s db val txt key expire (ms : bool) : raw_argument ext s db val txt → argv s !! 1%nat = Some key → argv s !! 2%nat = Some expire →
  does ext s db (holding ((if ms then psetexCommand else setexCommand) val))
    (λ t V, set_generic_spec i64 t REDIS_SET_NO_FLAGS key txt (Some expire) (if ms then UNIT_MILLISECONDS else UNIT_SECONDS) None None V) 1.
Proof.
  intros A Ha Hx. destruct (encoded_does ext s db val txt (λ val, setGenericCommand REDIS_SET_NO_FLAGS key val (Some expire) (if ms then UNIT_MILLISECONDS else UNIT_SECONDS) None None)
    (λ t V, set_generic_spec i64 t REDIS_SET_NO_FLAGS key txt (Some expire) (if ms then UNIT_MILLISECONDS else UNIT_SECONDS) None None V) 1 A) as (vals & s' & db' & ans & tch & n & E1 & R).
  { intros val' s' A' _ _. by apply setGeneric_does. }
  exists vals, s', db', ans, tch, n. split; [|done]. rewrite <-E1. destruct ms; unfold psetexCommand, setexCommand, holding;
    rewrite bind_assoc_run; step (arg_run _ _ _ Ha); rewrite bind_assoc_run; by step (arg_run _ _ _ Hx).
Qed.

(** After a step that only answers. *)
Lemma does_after ext s s1 db db1 (m m1 : M (list loc)) (sp sp1 : Z → smap → result) (more : Z) ans1 : strace s s1 (c_db s) ans1 [] 0 → total (dbs s1) ≤ total (dbs s) →
  (∀ t, steady clock E t → sview t s1 db1 = sview t s db) → does ext s1 db1 m1 sp1 more → m s = m1 s1 →
  (∀ t, steady clock E t → sp t (sview t s db) = let '(V, a, tch, n) := sp1 t (sview t s db) in (V, ans1 ++ a, tch, n)) → does ext s db m sp more.
Proof.
  intros T1 N1 V1 (vals & s2 & db2 & ans & tch & n & E2 & F2 & T2 & N2 & V2) Em Hsp. pose proof (st_c_db _ _ _ _ _ _ T1) as Hc. rewrite Hc in *.
  exists vals, s2, db2, (ans1 ++ ans), tch, n. split; [by rewrite Em|]. split; [done|]. split; [exact (strace_trans _ _ _ _ _ _ _ _ _ _ T1 T2)|].
  split; [lia|]. intros t St. rewrite (Hsp t St), <-(V1 t St), (V2 t St). done.
Qed.

(** setKey with its notification. *)
Definition set_plain (i : Z) (key : text) (val : loc) : M unit :=
  _ ← setKey seed clock junk_val E i key val; _ ← notify REDIS_NOTIFY_STRING "set" key; add_dirty 1.

Lemma set_plain_does ext s db key val txt : argument ext s db val txt →
  does ext s db (holding (_ ← set_plain (c_db s) key val; mret val)) (λ _ V, (<[key := (VStr txt, None)]> V, [], [key], 1)) 1.
Proof.
  intros A. destruct (roomy_bump ext val (ar_roomy _ _ _ _ _ A)) as (R0 & R1 & R2).
  destruct (setKey_step ext s (c_db s) db key val (ar_focus _ _ _ _ _ A) R0 R2 (ar_shared _ _ _ _ _ A) (ar_total _ _ _ _ _ A)) as (s1 & db1 & E1 & SF1 & T1 & N1 & K1 & Kp1 & V1).
  pose proof (st_c_db _ _ _ _ _ _ T1) as Hc. set (s2 := add_log s1 [EvNotify REDIS_NOTIFY_STRING "set" key (c_db s)]).
  exists [val], (with_dirty s2 (i64 (dirty s2 + 1))), db1, [], [key], 1. split; [|split; [|split; [|split]]].
  - unfold holding, set_plain. rewrite !bind_assoc_run. step E1. rewrite !bind_assoc_run. unfold notify. rewrite !bind_assoc_run.
    step (eq_refl : gets c_db s1 = Some (c_db s1, s1)). rewrite Hc. rewrite (bind_run (emit _) _ _ _ _ (emit_run _ s1)). done.
  - by apply sfocus_dirty, sfocus_log.
  - exact (strace_dirty _ _ _ _ _ _ 1 (strace_log _ _ _ _ _ _ [EvNotify REDIS_NOTIFY_STRING "set" key (c_db s)] T1)).
  - exact N1.
  - intros t St. change (sview t (with_dirty s2 _) db1) with (sview t s1 db1). by rewrite (V1 t St), (ar_content _ _ _ _ _ A).
Qed.

Lemma raw_argument_log ext s db val txt evs : raw_argument ext s db val txt → raw_argument ext (add_log s evs) db val txt.
Proof. intros [F R Sh Tt O]. split; [by apply sfocus_log|done..]. Qed.

Definition getset_spec (key txt : text) (V : smap) : result :=
  match V !! key with
  | Some (VOther _, _) => (V, [R_wrongtypeerr], [], 0)
  | _ => (<[key := (VStr txt, None)]> V, [reading V key R_nullbulk R_wrongtypeerr R_bulk], [key], 1)
  end.

Lemma getset_does ext s db val txt key : raw_argument ext s db val txt → argv s !! 1%nat = Some key →
  does ext s db (holding (getsetCommand val)) (λ _ V, getset_spec key txt V) 1.
Proof.
  intros A Ha. destruct (getGeneric_run (bump ext val 1) s db key (rw_focus _ _ _ _ _ A) Ha) as (ok & a & s1 & db1 & E1 & S1 & V1).
  pose proof (st_c_db _ _ _ _ _ _ (sl_trace _ _ _ _ _ _ S1)) as Hc. set (s2 := add_log s1 [EvAnswer a]) in *.
  pose proof (raw_argument_log _ _ _ _ _ [EvAnswer a] (raw_argument_silent _ _ _ _ _ _ _ A S1)) as A2. fold s2 in A2.
  pose proof (strace_log _ _ _ _ _ _ [EvAnswer a] (sl_trace _ _ _ _ _ _ S1)) as T2. fold s2 in T2.
  destruct ok.
  - pose proof (encoded_does ext s2 db1 val txt (λ val, set_plain (c_db s) key val) (λ _ V, (<[key := (VStr txt, None)]> V, [], [key], 1)) 1 A2) as D.
    refine (does_after ext s s2 db db1 _ _ _ _ 1 [a] T2 (sl_total _ _ _ _ _ _ S1) (sl_view _ _ _ _ _ _ S1) (D _) _ _).
    + intros val' s' A' _ Hc'. assert (c_db s = c_db s') as -> by (rewrite Hc'; by rewrite <-Hc). by apply set_plain_does.
    + unfold getsetCommand, holding. rewrite bind_assoc_run. step E1. cbn [negb]. rewrite bind_assoc_run.
      assert (argv s2 !! 1%nat = Some key) as H1 by (change (argv s1 !! 1%nat = Some key); by rewrite (sl_argv _ _ _ _ _ _ S1)).
      step (arg_run _ _ _ H1). rewrite bind_assoc_run. step (eq_refl : gets c_db s2 = Some (c_db s1, s2)). rewrite Hc.
      rewrite !bind_assoc_run. destruct (tryObjectEncoding val s2) as [[val' s3]|] eqn:E3; [|unfold mbind, M_bind; by rewrite E3].
      step E3. step E3. unfold set_plain. by rewrite !bind_assoc_run.
    + intros t St. destruct (V1 t St) as [Hr Ho]. unfold getset_spec. destruct (sview t s db !! key) as [[[t'|l] w]|]; [by rewrite Hr|done|by rewrite Hr].
  - refine (does_more _ _ _ _ _ 0 1 _ ltac:(lia)). exists [val], s2, db1, [a], [], 0. split; [|split; [|split; [exact T2|split]]].
    + unfold getsetCommand, holding. rewrite bind_assoc_run. by step E1.
    + apply sfocus_log. change (sfocus (bump ext val 1) s1 (c_db s) db1). apply S1.
    + pose proof (sl_total _ _ _ _ _ _ S1). change (total (dbs s1) ≤ total (dbs s) + 0). lia.
    + intros t St. destruct (V1 t St) as [Hr Ho]. unfold getset_spec, reading in *. change (sview t s2 db1) with (sview t s1 db1). rewrite (sl_view _ _ _ _ _ _ S1 t St).
      destruct (sview t s db !! key) as [[[t'|l] w]|]; [done|by rewrite <-Hr|done].
Qed.

(** ** MSET *)

Abbreviation bumps := (foldr (λ (l : loc) (e : loc → Z), bump e l 1)).

Lemma bumps_count ext ls x : bumps ext ls x = ext x + Z.of_nat (length (filter (λ l, l = x) ls)).
Proof.
  induction ls as [|l ls IH]; [cbn; lia|]. cbn [foldr]. rewrite filter_cons. destruct (decide (x = l)) as [->|Hne].
  - rewrite bump_self, decide_True, IH by done. cbn [length]. lia.
  - rewrite bump_other, decide_False by congruence. exact IH.
Qed.

Lemma bumps_perm ext ls ls' : ls ≡ₚ ls' → ∀ x, bumps ext ls x = bumps ext ls' x.
Proof. intros P x. rewrite !bumps_count. by rewrite P. Qed.

Lemma bumps_bound ext ls x : ext x ≤ bumps ext ls x ≤ ext x + Z.of_nat (length ls).
Proof. rewrite bumps_count. pose proof (length_filter (λ l, l = x) ls). lia. Qed.

Lemma bumps_in ext ls x : 0 ≤ ext x → x ∈ ls → 1 ≤ bumps ext ls x.
Proof.
  intros He Hx. rewrite bumps_count. assert (x ∈ filter (λ l, l = x) ls) as Hf by by apply list_elem_of_filter.
  destruct (filter (λ l, l = x) ls); [by apply not_elem_of_nil in Hf|]. cbn. lia.
Qed.

(** The values that are not yet encoded. *)
Definition raws s (vals : list loc) (txts : list text) : Prop :=
  Forall2 (λ val txt, ∃ o, objects s !! val = Some o ∧ o_type o = REDIS_STRING ∧ o_ptr o = Raw txt) vals txts.

Lemma raws_kept ext s s' vals txts : raws s vals txts → stays ext s s' → (∀ x, x ∈ vals → 1 ≤ ext x) → raws s' vals txts.
Proof.
  intros R K. induction R as [|val txt vals txts (o & Ho & Ht & Hp) R IH]; intros Hx; constructor.
  - destruct (K val (Hx val ltac:(by left)) o Ho) as (o' & Ho' & Ht' & Hp'). exists o'. split_and!; congruence.
  - apply IH. intros x Hin. apply Hx. by right.
Qed.

Definition mset_map (kvs : list (text * text)) (V : smap) : smap := foldl (λ V kv, <[kv.1 := (VStr kv.2, None)]> V) V kvs.

Lemma mset_loop_run (ext : loc → Z) i : ∀ (keys : list text) (vals : list loc) (txts : list text) (done : list loc) s db,
  length keys = length vals → sfocus (bumps ext (done ++ vals)) s i db → (∀ x, 0 ≤ ext x) → (∀ x, ext x + Z.of_nat (length (done ++ vals)) < 2 ^ 28 - 7) →
  (∀ v, 0 ≤ v < REDIS_SHARED_INTEGERS → 1 ≤ ext (shared_integers v)) → total (dbs s) + Z.of_nat (length keys) < 2 ^ 28 →
  raws s vals txts →
  ∃ (vals' : list loc) s' db', mset_loop i (zip keys vals) s = Some (vals', s') ∧ length vals' = length vals ∧ sfocus (bumps ext (done ++ vals')) s' i db' ∧
    strace s s' i [] ((λ key, (i, key)) <$> keys) 0 ∧ total (dbs s') ≤ total (dbs s) + Z.of_nat (length keys) ∧
    ∀ t, steady clock E t → sview t s' db' = mset_map (zip keys txts) (sview t s db).
Proof.
  induction keys as [|key keys IH]; intros vals txts done s db Hlen SF He Hr Hsh Ht Hraw.
  { destruct vals; [|done]. exists [], s, db. split; [done|]. split; [done|]. split; [done|]. split; [apply strace_refl|]. split; [cbn; lia|done]. }
  destruct vals as [|val vals]; [done|]. cbn in Hlen. injection Hlen as Hlen. cbn [zip zip_with mset_loop].
  inversion Hraw as [|? txt ? txts' (o & Ho & Hty & Hp) Hraw']; subst.
  set (ext0 := bumps ext (done ++ vals)).
  assert (∀ x, bumps ext (done ++ val :: vals) x = bump ext0 val 1 x) as Hperm.
  { intros x. change (bump ext0 val 1) with (bumps ext (val :: done ++ vals)). apply bumps_perm. by rewrite Permutation_middle. }
  rewrite length_app in Hr. cbn [length] in Hr. pose proof (sfocus_ext _ _ _ _ _ SF Hperm) as SF0.
  assert (∀ x, 0 ≤ ext0 x < 2 ^ 28 - 8) as R.
  { intros x. unfold ext0. pose proof (bumps_bound ext (done ++ vals) x) as B. rewrite length_app in B. specialize (He x). specialize (Hr x). lia. }
  destruct (roomy_bump ext0 val R) as (R0 & R1 & R2).
  assert (∀ v, 0 ≤ v < REDIS_SHARED_INTEGERS → 1 ≤ ext0 (shared_integers v)) as Hsh0.
  { intros v Hv. specialize (Hsh v Hv). pose proof (bumps_bound ext (done ++ vals) (shared_integers v)). unfold ext0. lia. }
  destruct (encode_step ext0 s i db val o txt SF0 R0 R2 Hsh0 Ho Hty Hp) as (val' & s1 & X1 & SF1 & T1 & D1 & A1 & (o1 & Ho1 & Hty1 & Hv1) & Kp1 & V1). step X1.
  cbn [length] in Ht.
  destruct (setKey_step ext0 s1 i db key val' SF1 R0 R2 Hsh0) as (s2 & db2 & X2 & SF2 & T2 & N2 & K2 & Kp2 & V2); [rewrite D1; lia|]. step X2.
  pose proof (st_c_db _ _ _ _ _ _ (strace_trans _ _ _ _ _ _ _ _ _ _ T1 T2)) as Hc.
  set (s3 := add_log s2 [EvNotify REDIS_NOTIFY_STRING "set" key (c_db s2)]). step (eq_refl : notify REDIS_NOTIFY_STRING "set" key s2 = Some (tt, s3)).
  destruct (IH vals txts' (val' :: done) s3 db2) as (vals' & s4 & db4 & X4 & L4 & SF4 & T4 & N4 & V4); [done|by apply sfocus_log|done| |done| | |].
  { intros x. rewrite length_app. cbn [length]. specialize (Hr x). lia. }
  { change (total (dbs s2) + Z.of_nat (length keys) < 2 ^ 28). rewrite D1 in N2. lia. }
  { assert (∀ x, x ∈ vals → 1 ≤ ext0 x) as Hin. { intros x Hx. apply bumps_in; [done|]. apply elem_of_app. by right. }
    eapply raws_kept; [eapply raws_kept; [exact Hraw'|exact Kp1|exact Hin]|exact (stays_mono _ _ _ _ Kp2 (λ x, bump_le ext0 val' 1 x ltac:(lia)))|exact Hin]. }
  step X4. exists (val' :: vals'), s4, db4. split; [done|]. split; [cbn; by rewrite L4|]. split; [|split; [|split]].
  - eapply sfocus_ext; [exact SF4|]. intros x. apply bumps_perm. cbn [app]. by rewrite Permutation_middle.
  - exact (strace_trans _ _ _ _ _ _ _ _ _ _ T1 (strace_trans _ _ _ _ _ _ _ _ _ _ (strace_log _ _ _ _ _ _ [EvNotify _ _ _ _] T2) T4)).
  - change (total (dbs s3)) with (total (dbs s2)) in N4. rewrite D1 in N2. cbn [length]. lia.
  - intros t St. rewrite (V4 t St). change (sview t s3 db2) with (sview t s2 db2). by rewrite (V2 t St), V1, (content_string _ _ _ Ho1 Hty1), Hv1.
Qed.

Lemma busy_loop_run ext i : ∀ (keys : list text) s db (n : Z), sfocus ext s i db → 0 ≤ n → n + Z.of_nat (length keys) < 2 ^ 31 →
  ∃ n' s' db', busy_loop i keys n s = Some (n', s') ∧ silent ext s i db s' db' ∧
    ∀ t, steady clock E t → n' = n + Z.of_nat (length (filter (λ key, is_Some (sview t s db !! key)) keys)).
Proof.
  induction keys as [|key keys IH]; intros s db n SF Hn Hb; cbn [busy_loop].
  { exists n, s, db. split; [done|]. split; [by apply silent_refl|]. intros t _. cbn. lia. }
  cbn [length] in Hb. destruct (lookupWrite_step ext s i db key SF) as (v & s1 & db1 & E1 & L). step E1.
  pose proof (looks_up_silent _ _ _ _ _ _ _ _ L) as S1. set (n1 := match v with Some _ => i32 (n + 1) | None => n end).
  assert (n1 = n + (if v then 1 else 0)) as En1 by (unfold n1; destruct v; [rewrite wraps_small by (unlimit; lia)|]; lia).
  destruct (IH s1 db1 n1 (sl_focus _ _ _ _ _ _ S1)) as (n' & s2 & db2 & E2 & S2 & V2); [destruct v; lia|destruct v; lia|].
  exists n', s2, db2. split; [done|]. split; [by eapply silent_trans|]. intros t St. rewrite (V2 t St), filter_cons, (sl_view _ _ _ _ _ _ S1 t St), En1.
  pose proof (looks_up_view _ _ _ _ _ _ _ _ t L St) as Hv. destruct v as [l|].
  - rewrite decide_True by (rewrite Hv; eauto). cbn [length]. lia.
  - rewrite decide_False by (rewrite Hv; by intros [? ?]). lia.
Qed.

(** The arguments of a command with several values. *)
Record raw_arguments (ext : loc → Z) s db (vals : list loc) (txts : list text) : Prop := RawArguments {
  rs_focus : sfocus (bumps ext vals) s (c_db s) db;
  rs_roomy : ∀ x, 0 ≤ ext x ∧ ext x + Z.of_nat (length vals) < 2 ^ 28 - 7;
  rs_shared : ∀ v, 0 ≤ v < REDIS_SHARED_INTEGERS → 1 ≤ ext (shared_integers v);
  rs_total : total (dbs s) + Z.of_nat (length vals) < 2 ^ 28;
  rs_objects : raws s vals txts
}.

Lemma raw_arguments_silent ext s db vals txts s' db' : raw_arguments ext s db vals txts → silent (bumps ext vals) s (c_db s) db s' db' → raw_arguments ext s' db' vals txts.
Proof.
  intros [SF R Sh Tt O] Si. pose proof (st_c_db _ _ _ _ _ _ (sl_trace _ _ _ _ _ _ Si)) as Hc. split; [rewrite Hc; apply Si|done|done| |].
  - pose proof (sl_total _ _ _ _ _ _ Si). lia.
  - eapply raws_kept; [done|apply Si|]. intros x Hx. apply bumps_in; [apply R|done].
Qed.

Definition mset_spec (nx : bool) (keys txts : list text) (V : smap) : result :=
  if negb (bool_decide (length keys = length txts)) then (V, [R_error "wrong number of arguments for MSET"], [], 0)
  else if nx && bool_decide (Exists (λ key, is_Some (V !! key)) keys) then (V, [R_czero], [], 0)
  else (mset_map (zip keys txts) V, [if nx then R_cone else R_ok], keys, Z.of_nat (length keys)).

Lemma filter_zero (A : Type) (P : A → Prop) `{!∀ x, Decision (P x)} (l : list A) : length (filter P l) = 0%nat ↔ ¬ Exists P l.
Proof.
  rewrite length_zero_iff_nil, <-Forall_Exists_neg. split.
  - intros Hf. apply Forall_forall. intros x Hx Px. assert (x ∈ filter P l) as Hin by by apply list_elem_of_filter. rewrite Hf in Hin. by apply not_elem_of_nil in Hin.
  - intros Hf. apply filter_none. by apply Forall_forall.
Qed.

Lemma total_nonneg ds : 0 ≤ total ds.
Proof. apply sum_dbs_nonneg. lia. Qed.

(** The argument vector: every key has its value, or the last one has none. *)
Lemma mset_argc (keys txts : list text) : (length txts ≤ length keys ≤ S (length txts))%nat →
  let argc := Z.of_nat (S (length keys + length txts)) in
  (argc mod 2 =? 0) = negb (bool_decide (length keys = length txts)) ∧ (length keys = length txts → (argc - 1) / 2 = Z.of_nat (length keys)).
Proof.
  intros Hl argc. unfold argc. split.
  - case_bool_decide; cbn [negb]; [apply Z.eqb_neq|apply Z.eqb_eq]; Z.to_euclidean_division_equations; lia.
  - intros He. replace (Z.of_nat (S (length keys + length txts)) - 1) with (Z.of_nat (length keys) * 2) by lia. by rewrite Z.div_mul.
Qed.

(** What follows the test of the number of arguments. *)
Definition mset_rest (nx : bool) (keys : list text) (vals : list loc) (argc : nat) : M (list loc) :=
  i ← gets c_db;
  busykeys ← (if nx then busy_loop i keys 0 else mret 0);
  if negb (busykeys =? 0) then _ ← addReply R_czero; mret vals
  else
    vals ← mset_loop i (zip keys vals);
    _ ← add_dirty ((Z.of_nat argc - 1) / 2);
    _ ← addReply (if nx then R_cone else R_ok);
    mret vals.

Lemma mset_does ext s db nx (keys : list text) vals txts : raw_arguments ext s db vals txts →
  length (argv s) = S (length keys + length txts) → (length txts ≤ length keys ≤ S (length txts))%nat →
  does ext s db (msetGenericCommand nx keys vals) (λ _ V, mset_spec nx keys txts V) (Z.of_nat (length keys)).
Proof.
  intros A Ha Hsh. pose proof (Forall2_length _ _ _ (rs_objects _ _ _ _ _ A)) as Hl. destruct (mset_argc keys txts Hsh) as [Hodd Hhalf].
  unfold mset_spec. rewrite <-Hl in *.
  assert (∀ r, (if negb (bool_decide (length keys = length vals)) then _ ← addReply (R_error "wrong number of arguments for MSET"); mret vals
    else mset_rest nx keys vals (length (argv s))) s = r → msetGenericCommand nx keys vals s = r) as Hrun.
  { intros r <-. unfold msetGenericCommand. step (eq_refl : gets argv s = Some (argv s, s)). by rewrite Ha, Hodd. }
  destruct (decide (length keys = length vals)) as [Hk|Hk].
  2: { rewrite bool_decide_eq_false_2 in * by done. eapply does_more; [|instantiate (1 := 0); lia]. eapply does_answers; [apply A|by apply Hrun|done]. }
  rewrite bool_decide_eq_true_2 in * by done. cbn [negb] in *. unfold mset_rest in Hrun. rewrite Ha, (Hhalf Hk) in Hrun.
  assert (∃ n s1 db1, (if nx then busy_loop (c_db s) keys 0 else mret 0) s = Some (n, s1) ∧ silent (bumps ext vals) s (c_db s) db s1 db1 ∧
    ∀ t, steady clock E t → n = 0 ↔ nx && bool_decide (Exists (λ key, is_Some (sview t s db !! key)) keys) = false) as (n & s1 & db1 & E1 & S1 & B1).
  { destruct nx; [|exists 0, s, db; split; [done|]; split; [apply silent_refl, A|done]].
    destruct (busy_loop_run (bumps ext vals) (c_db s) keys s db 0 (rs_focus _ _ _ _ _ A)) as (n & s1 & db1 & E1 & S1 & B1); [lia|pose proof (rs_total _ _ _ _ _ A); pose proof (total_nonneg (dbs s)); lia|].
    exists n, s1, db1. split; [done|]. split; [done|]. intros t St. rewrite (B1 t St). cbn [andb]. rewrite bool_decide_eq_false, <-(filter_zero _ (λ key, is_Some (sview t s db !! key))). lia. }
  pose proof (raw_arguments_silent _ _ _ _ _ _ _ A S1) as A1. pose proof (st_c_db _ _ _ _ _ _ (sl_trace _ _ _ _ _ _ S1)) as Hc1.
  destruct (Z.eqb_spec n 0) as [Hn|Hn].
  - destruct (mset_loop_run ext (c_db s) keys vals txts [] s1 db1 Hk) as (vals' & s2 & db2 & E2 & L2 & SF2 & T2 & N2 & V2);
      [rewrite <-Hc1; apply A1|apply A|intros x; apply A|apply A|rewrite Hk; apply A1|apply A1|].
    set (s3 := with_dirty s2 (i64 (dirty s2 + Z.of_nat (length keys)))). set (a := if nx then R_cone else R_ok).
    exists vals', (add_log s3 [EvAnswer a]), db2, [a], keys, (Z.of_nat (length keys)). split; [|split; [|split; [|split]]].
    + apply Hrun. step (eq_refl : gets c_db s = Some (c_db s, s)). step E1. subst n. cbn [Z.eqb negb]. step E2.
      step (eq_refl : add_dirty (Z.of_nat (length keys)) s2 = Some (tt, s3)). done.
    + by apply sfocus_log, sfocus_dirty.
    + exact (strace_quiet _ _ _ _ _ _ [EvAnswer a] (strace_dirty _ _ _ _ _ _ _ (strace_trans _ _ _ _ _ _ _ _ _ _ (sl_trace _ _ _ _ _ _ S1) T2)) eq_refl).
    + pose proof (sl_total _ _ _ _ _ _ S1). change (total (dbs s2) ≤ total (dbs s) + Z.of_nat (length keys)). lia.
    + intros t St. rewrite (proj1 (B1 t St) Hn). change (sview t (add_log s3 _) db2) with (sview t s2 db2). by rewrite (V2 t St), (sl_view _ _ _ _ _ _ S1 t St).
  - exists vals, (add_log s1 [EvAnswer R_czero]), db1, [R_czero], [], 0. split; [|split; [|split; [|split]]].
    + apply Hrun. step (eq_refl : gets c_db s = Some (c_db s, s)). step E1. by rewrite (proj2 (Z.eqb_neq _ _) Hn).
    + apply sfocus_log. change (sfocus (bumps ext vals) s1 (c_db s) db1). apply S1.
    + exact (strace_log _ _ _ _ _ _ [EvAnswer _] (sl_trace _ _ _ _ _ _ S1)).
    + pose proof (sl_total _ _ _ _ _ _ S1). change (total (dbs s1) ≤ total (dbs s) + Z.of_nat (length keys)). lia.
    + intros t St. destruct (nx && _) eqn:Eb; [|by apply (B1 t St) in Eb]. change (sview t (add_log s1 _) db1) with (sview t s1 db1). by rewrite (sl_view _ _ _ _ _ _ S1 t St).
Qed.

(** ** Unsharing *)

Lemma refs_set ds n db db' key l l' : ds !! n = Some db → keys_of db !! key = Some l → keys_of db' = <[key := l']> (keys_of db) → refs ds l' = 0 →
  refs (<[n := db']> ds) l' = 1.
Proof.
  intros Hn Hk Hk' Hr. unfold refs in *. rewrite (sum_dbs_insert _ _ _ _ db' Hn), Hk', (holders_replace _ _ _ _ l' Hk). destruct (decide (l' = l')) as [_|]; [|done].
  destruct (decide (l' = l)) as [->|]; [|lia]. pose proof (refs_pos _ _ _ _ _ Hn Hk). unfold refs in *. lia.
Qed.

(** A decoded copy, or the object itself with one more reference. *)
Lemma decoded_step ext s i db l o : sfocus ext s i db → roomy ext → objects s !! l = Some o → o_type o = REDIS_STRING →
  ∃ d od s', getDecodedObject l s = Some (d, s') ∧ sfocus (bump ext d 1) s' i db ∧ strace s s' i [] [] 0 ∧ dbs s' = dbs s ∧ argv s' = argv s ∧ stays ext s s' ∧
    objects s' !! d = Some od ∧ o_type od = REDIS_STRING ∧ o_ptr od = Raw (value_text (o_ptr o)) ∧ ∀ t, sview t s' db = sview t s db.
Proof.
  intros SF Hr Ho Hty. pose proof (sf_objects _ _ _ _ SF l o Ho Hty) as Hok. unfold getDecodedObject. step (get_object_run _ _ _ Ho).
  destruct (o_ptr o) as [t|n|] eqn:Ep; [| |done].
  - destruct (incr_step ext s i db l o SF Hr Ho) as (s1 & E1 & SF1 & T1 & D1 & A1 & Ho1 & V1). step E1.
    exists l, (Robj (o_type o) (o_lru o) (o_refcount o + 1) (o_ptr o)), s1. split_and!; try done.
    intros x Hx ox Hox. unfold incrRefCount in E1. rewrite (bind_run _ _ _ _ _ (get_object_run _ _ _ Ho)) in E1. injection E1 as <-. cbn.
    destruct (decide (x = l)) as [->|Hne]; [|rewrite lookup_insert_ne by done; by exists ox]. rewrite lookup_insert_eq. eexists. split; [done|]. by simplify_eq.
  - rewrite Hty. cbn [Z.eqb REDIS_STRING]. cbn [ptr_ok] in Hok. rewrite (proj1 (llbuf_text n (in_long_i64 n Hok))).
    destruct (create_step ext s i db REDIS_STRING (Raw (ll_text n)) SF Hr) as (d & s1 & E1 & SF1 & T1 & D1 & A1 & Hn & He & O1 & V1).
    { intros _. by apply ll_text_ok, in_long_i64. }
    exists d, (Robj REDIS_STRING (lruclock E) 1 (Raw (ll_text n))), s1. split_and!; try done; [|by rewrite O1, lookup_insert_eq].
    intros x Hx ox Hox. exists ox. rewrite O1, lookup_insert_ne by congruence. done.
Qed.

(** What the operations that write in place need: an object of its own, with the same text. *)
Lemma unshare_step ext s i db key l o : sfocus ext s i db → (∀ x, 0 ≤ ext x < 2 ^ 28 - 3) → (∀ v, 0 ≤ v < REDIS_SHARED_INTEGERS → 1 ≤ ext (shared_integers v)) →
  total (dbs s) < 2 ^ 28 - 1 →
  keys_of db !! key = Some l → objects s !! l = Some o → o_type o = REDIS_STRING → (∀ t, steady clock E t → gone E t (expires_of db !! key) = false) →
  ∃ l' o' s' db', dbUnshareStringValue i key l s = Some (l', s') ∧ sfocus ext s' i db' ∧ strace s s' i [] [] 0 ∧ total (dbs s') ≤ total (dbs s) ∧
    stays ext s s' ∧ keys_of db' !! key = Some l' ∧ objects s' !! l' = Some o' ∧ o_type o' = REDIS_STRING ∧ o_refcount o' = 1 ∧ o_ptr o' = Raw (value_text (o_ptr o)) ∧
    ∀ t, steady clock E t → sview t s' db' = sview t s db.
Proof.
  intros SF R Hsh Ht Hk Ho Hty Hg. unfold dbUnshareStringValue. step (get_object_run _ _ _ Ho). step (check_run (o_type o =? REDIS_STRING) s ltac:(by rewrite Hty)).
  pose proof (sf_objects _ _ _ _ SF l o Ho Hty) as Hok.
  destruct (negb (o_refcount o =? 1) || match o_ptr o with Raw _ => false | _ => true end) eqn:Eb.
  2: { apply orb_false_iff in Eb as [Hc%negb_false_iff%Z.eqb_eq Hp]. destruct (o_ptr o) as [t| |] eqn:Ep; [|done..].
    exists l, o, s, db. split_and!; try done; [apply strace_refl|apply stays_refl]. }
  clear Eb. assert (roomy ext) as R0 by (intros x; specialize (R x); lia).
  destruct (decoded_step ext s i db l o SF R0 Ho Hty) as (d & od & s1 & E1 & SF1 & T1 & D1 & A1 & Kp1 & Hod & Htd & Hpd & V1). step E1.
  assert (object_ok od) as Hokd by (intros _; rewrite Hpd; by apply value_text_ok, Hok).
  step (object_text_run _ _ _ Hod Htd Hokd). rewrite Hpd. cbn [value_text]. set (t := value_text (o_ptr o)).
  assert (roomy (bump ext d 1)) as R1 by (intros x; specialize (R x); unfold bump; destruct (decide (x = d)); lia).
  destruct (create_step (bump ext d 1) s1 i db REDIS_STRING (Raw t) SF1 R1) as (l' & s2 & E2 & SF2 & T2 & D2 & A2 & Hn & He & O2 & V2).
  { intros _. by apply value_text_ok, Hok. }
  unfold createStringObject. step E2.
  assert (∀ x, bump (bump ext d 1) l' 1 x = bump (bump ext l' 1) d 1 x) as Hcomm by (intros x; unfold bump; destruct (decide (x = l')), (decide (x = d)); lia).
  assert (∀ x, 0 ≤ ext x) as R2 by (intros x; apply R). assert (d ≠ l') as Hdl by (intros ->; congruence).
  rewrite bump_other in He by done.
  destruct (decr_step (bump ext l' 1) s2 i db d (sfocus_ext _ _ _ _ _ SF2 Hcomm)) as (s3 & E3 & SF3 & T3 & D3 & A3 & O3 & V3).
  { intros x. pose proof (bump_le ext l' 1 x). specialize (R2 x). lia. }
  { intros v Hv. pose proof (bump_le ext l' 1 (shared_integers v)). specialize (Hsh v Hv). lia. }
  step E3. assert (refs (dbs s3) l' = 0) as Hr3.
  { rewrite D3, D2. pose proof (fc_owned _ _ _ _ _ (sf_focus _ _ _ _ SF1) l') as O. rewrite Hn in O. by destruct O. }
  assert (objects s3 !! l' = Some (Robj REDIS_STRING (lruclock E) 1 (Raw t))) as Hol'.
  { rewrite O3, O2. unfold release. rewrite lookup_insert_ne, Hod by done.
    destruct (o_refcount od =? 1); [rewrite lookup_delete_ne by done|rewrite lookup_insert_ne by done]; by rewrite lookup_insert_eq. }
  destruct (overwrite_step ext s3 i db key l' l SF3 R2 Hsh Hk Hg) as (s4 & db4 & E4 & SF4 & T4 & N4 & K4 & X4 & Kp4 & D4 & (o3 & o4 & Ho3 & Ho4 & Ht4 & Hp4) & V4).
  step E4. rewrite Hol' in Ho3. injection Ho3 as <-. cbn in Ht4, Hp4.
  exists l', o4, s4, db4. split; [done|]. split; [done|].
  split; [exact (strace_trans _ _ _ _ _ _ _ _ _ _ T1 (strace_trans _ _ _ _ _ _ _ _ _ _ T2 (strace_trans _ _ _ _ _ _ _ _ _ _ T3 T4)))|].
  pose proof (fc_at _ _ _ _ _ (sf_focus _ _ _ _ SF3)) as At3.
  split; [|split; [|split; [|split; [done|split; [done|split; [|split; [done|]]]]]]].
  - rewrite D4, (total_insert _ _ _ _ (proj2 At3)), K4, D3, D2, D1. rewrite map_size_insert_Some by (rewrite Hk; eauto). lia.
  - eapply stays_trans; [exact Kp1|]. eapply stays_trans; [|exact Kp4]. intros x Hx ox Hox. assert (x ≠ l') as Hxl by (intros ->; lia).
    assert (objects s2 !! x = Some ox) as Hx2 by (rewrite O2, lookup_insert_ne by done; done).
    assert (1 ≤ bump ext l' 1 x) as Hx1 by (pose proof (bump_le ext l' 1 x); lia).
    destruct (focus_ext_present _ _ _ _ x (sf_focus _ _ _ _ SF3) Hx1) as [o5 Ho5]. exists o5. split; [done|]. rewrite O3 in Ho5.
    destruct (same_contents_release (objects s2) (Some d) x o5 Ho5) as (o6 & Ho6 & ? & ?). by simplify_eq.
  - by rewrite K4, lookup_insert_eq.
  - destruct (object_count _ _ _ _ _ _ SF4 Ho4) as (Hc & _). rewrite Hc, D4, (refs_set _ _ _ _ _ _ _ (proj2 At3) Hk K4 Hr3). lia.
  - intros t' St. rewrite (V4 t' St). rewrite (content_string _ _ _ Hol' eq_refl). cbn [o_ptr value_text].
    rewrite V3, V2, V1. apply insert_id. unfold sview. rewrite lookup_fmap, lookup_lview, Hk. cbn. rewrite (Hg t' St). cbn. by rewrite (content_string _ _ _ Ho Hty).
Qed.

(** ** Writing *)

(** After signalModifiedKey, the notification and the counter of the changes. *)
Definition touched s (i : Z) (ty : Z) (name : string) (key : text) : server :=
  let s1 := add_log s [EvTouch i key; EvNotify ty name key (c_db s)] in with_dirty s1 (i64 (dirty s1 + 1)).

Lemma touch_run_unit s i ty name key : (_ ← signalModifiedKey i key; _ ← notify ty name key; add_dirty 1) s = Some (tt, touched s i ty name key).
Proof.
  unfold signalModifiedKey, notify. step (emit_run (EvTouch i key) s). set (s1 := add_log s [EvTouch i key]). rewrite bind_assoc_run.
  step (eq_refl : gets c_db s1 = Some (c_db s, s1)). step (emit_run (EvNotify ty name key (c_db s)) s1).
  unfold touched, s1, add_log, add_dirty, modify. cbn. by rewrite <-app_assoc.
Qed.

Lemma touch_run {A} s i ty name key (k : M A) :
  (_ ← signalModifiedKey i key; _ ← notify ty name key; _ ← add_dirty 1; k) s = k (touched s i ty name key).
Proof. rewrite <-(bind_run _ (λ _, k) _ _ _ (touch_run_unit s i ty name key)). rewrite bind_assoc_run. by unfold mbind, M_bind; destruct (signalModifiedKey i key s) as [[? ?]|]. Qed.

(** A command that changes the value of one key. *)
Lemma does_put ext (vals : list loc) s s1 db db1 (m : M (list loc)) (sp : Z → smap → result) more ty name key a :
  sfocus (bumps ext vals) s1 (c_db s) db1 → strace s s1 (c_db s) [] [] 0 → total (dbs s1) ≤ total (dbs s) + more →
  m s = Some (vals, add_log (touched s1 (c_db s) ty name key) [EvAnswer a]) →
  (∀ t, steady clock E t → sp t (sview t s db) = (sview t s1 db1, [a], [key], 1)) → does ext s db m sp more.
Proof.
  intros SF T N Em Hsp. set (evs := [EvTouch (c_db s) key; EvNotify ty name key (c_db s1)]).
  exists vals, (add_log (touched s1 (c_db s) ty name key) [EvAnswer a]), db1, [a], [key], 1. split; [done|]. split; [|split; [|split; [exact N|exact Hsp]]].
  - by apply sfocus_log, sfocus_dirty, sfocus_log.
  - exact (strace_log _ _ _ _ _ _ [EvAnswer a] (strace_dirty _ _ _ _ _ _ 1 (strace_log _ _ _ _ _ _ evs T))).
Qed.

(** A key whose value can be written in place: its object has no other reference. *)
Record writable ext s i db key l (t : text) : Prop := Writable {
  wr_focus : sfocus ext s i db;
  wr_key : keys_of db !! key = Some l;
  wr_object : ∃ o, objects s !! l = Some o ∧ o_type o = REDIS_STRING ∧ o_refcount o = 1 ∧ o_ptr o = Raw t
}.

Lemma writable_ok ext s i db key l t : writable ext s i db key l t → text_ok t.
Proof. intros [SF Hk (o & Ho & Hty & _ & Hp)]. pose proof (sf_objects _ _ _ _ SF l o Ho Hty) as H. by rewrite Hp in H. Qed.

Lemma writable_text ext s i db key l t : writable ext s i db key l t → object_text l s = Some (t, s).
Proof.
  intros [SF Hk (o & Ho & Hty & _ & Hp)]. pose proof (object_text_run l o s Ho Hty (sf_objects _ _ _ _ SF l o Ho)) as E1. by rewrite Hp in E1.
Qed.

Lemma writable_write ext s i db key l t t' : writable ext s i db key l t → text_ok t' →
  ∃ s', write_ptr l t' s = Some (tt, s') ∧ writable ext s' i db key l t' ∧ strace s s' i [] [] 0 ∧ dbs s' = dbs s ∧ argv s' = argv s ∧
    ∀ t0, sview t0 s' db = alter (λ vw : value * option Z, (VStr t', vw.2)) key (sview t0 s db).
Proof.
  intros [SF Hk (o & Ho & Hty & Hc & Hp)] Ht.
  destruct (write_step ext s i db key l o t' SF Hk Ho Hty Hc) as (s' & E1 & SF1 & T1 & D1 & A1 & Ho1 & V1); [rewrite Hp; eauto|done|].
  exists s'. split; [done|]. split; [split; [done|done|eexists; split; [exact Ho1|done]]|done].
Qed.

(** The value of a key that was looked up, made writable; its text stays. *)
Lemma writable_unshared ext s i db key l o : sfocus ext s i db → (∀ x, 0 ≤ ext x < 2 ^ 28 - 3) → (∀ v, 0 ≤ v < REDIS_SHARED_INTEGERS → 1 ≤ ext (shared_integers v)) →
  total (dbs s) < 2 ^ 28 - 1 → keys_of db !! key = Some l → objects s !! l = Some o → o_type o = REDIS_STRING →
  (∀ t, steady clock E t → gone E t (expires_of db !! key) = false) →
  ∃ l' s' db', dbUnshareStringValue i key l s = Some (l', s') ∧ writable ext s' i db' key l' (value_text (o_ptr o)) ∧ strace s s' i [] [] 0 ∧ total (dbs s') ≤ total (dbs s) ∧
    ∀ t, steady clock E t → sview t s' db' = sview t s db.
Proof.
  intros SF R Hsh Ht Hk Ho Hty Hg.
  destruct (unshare_step ext s i db key l o SF R Hsh Ht Hk Ho Hty Hg) as (l' & o' & s' & db' & E1 & SF1 & T1 & N1 & _ & K1 & Ho1 & Ht1 & Hc1 & Hp1 & V1).
  exists l', s', db'. split; [done|]. split; [split; [done|done|by exists o']|done].
Qed.

Lemma holders_none (m : gmap text loc) key l : holders m l = 0 → m !! key = None → holders (<[key := l]> m) l = 1.
Proof. intros H0 Hk. rewrite (holders_insert _ _ _ _ Hk). destruct (decide (l = l)); [lia|done]. Qed.

(** A new empty string under a key. *)
Lemma writable_new ext s i db key t : sfocus ext s i db → (∀ x, 0 ≤ ext x < 2 ^ 28 - 3) → (∀ v, 0 ≤ v < REDIS_SHARED_INTEGERS → 1 ≤ ext (shared_integers v)) →
  total (dbs s) < 2 ^ 28 - 1 → keys_of db !! key = None → text_ok t →
  ∃ l s1 s2 db2, createStringObject t s = Some (l, s1) ∧ dbAdd seed junk_val E i key l s1 = Some (tt, s2) ∧ writable ext s2 i db2 key l t ∧ strace s s2 i [] [] 0 ∧
    total (dbs s2) ≤ total (dbs s) + 1 ∧ ∀ t0, steady clock E t0 → sview t0 s2 db2 = <[key := (VStr t, None)]> (sview t0 s db).
Proof.
  intros SF R Hsh Ht Hk Hok. assert (roomy ext) as R0 by (intros x; specialize (R x); lia). assert (∀ x, 0 ≤ ext x) as R2 by (intros x; apply R).
  destruct (create_step ext s i db REDIS_STRING (Raw t) SF R0 (λ _, Hok)) as (l & s1 & E1 & SF1 & T1 & D1 & A1 & Hn & He & O1 & V1).
  destruct (add_step ext s1 i db key l SF1 R2 Hsh ltac:(by rewrite D1) Hk) as (s2 & db2 & E2 & SF2 & T2 & N2 & K2 & X2 & Kp2 & D2 & (o & o' & Ho & Ho' & Hty & Hp) & V2).
  rewrite O1, lookup_insert_eq in Ho. injection Ho as <-. cbn in Hty, Hp.
  exists l, s1, s2, db2. split; [done|]. split; [done|]. split; [|split; [exact (strace_trans _ _ _ _ _ _ _ _ _ _ T1 T2)|split; [by rewrite <-D1|]]].
  - split; [done|by rewrite K2, lookup_insert_eq|]. exists o'. split_and!; try done.
    destruct (object_count _ _ _ _ _ _ SF2 Ho') as (Hc & _). rewrite Hc, He, Z.add_0_r, D2, D1.
    pose proof (fc_owned _ _ _ _ _ (sf_focus _ _ _ _ SF) l) as O. rewrite Hn in O. destruct O as [Hr _].
    pose proof (proj2 (fc_at _ _ _ _ _ (sf_focus _ _ _ _ SF))) as Hdb. unfold refs in *. rewrite (sum_dbs_insert _ _ _ _ db2 Hdb), K2.
    pose proof (sum_dbs_ge (λ db, holders (keys_of db) l) (dbs s) _ db (λ _, holders_nonneg _ _) Hdb) as Hge. cbn in Hge. pose proof (holders_nonneg (keys_of db) l).
    rewrite (holders_none (keys_of db) key l) by (try done; lia). lia.
  - intros t0 St. rewrite (V2 t0 St), V1. rewrite (content_string (objects s1) l (Robj REDIS_STRING (lruclock E) 1 (Raw t))) by (try done; by rewrite O1, lookup_insert_eq).
    cbn. by rewrite (expires_none _ _ _ _ _ _ (sf_focus _ _ _ _ SF) Hk).
Qed.

Lemma alter_present (V : smap) key (f : value * option Z → value * option Z) x : V !! key = Some x → alter f key V = <[key := f x]> V.
Proof.
  intros H. apply map_eq. intros key'. destruct (decide (key' = key)) as [->|Hne]; [by rewrite lookup_alter_eq, lookup_insert_eq, H|].
  by rewrite lookup_alter_ne, lookup_insert_ne.
Qed.

Definition too_long : answer := R_error "string exceeds maximum allowed size (512MB)".

Lemma checkStringLength_run n s : checkStringLength n s = Some (2 ^ 29 <? n, if 2 ^ 29 <? n then add_log s [EvAnswer too_long] else s).
Proof. unfold checkStringLength. change (512 * 1024 * 1024) with (2 ^ 29). by destruct (2 ^ 29 <? n). Qed.

Definition append_spec (key txt : text) (V : smap) : result :=
  match V !! key with
  | None => (<[key := (VStr txt, None)]> V, [R_int (blen txt)], [key], 1)
  | Some (VOther _, _) => (V, [R_wrongtypeerr], [], 0)
  | Some (VStr t, w) =>
      if 2 ^ 29 <? blen t + blen txt then (V, [too_long], [], 0)
      else (<[key := (VStr (t ++ txt), w)]> V, [R_int (blen (t ++ txt))], [key], 1)
  end.

(** A command with a value that stops with an answer after a silent step. *)
Lemma silent_answers ext (vals : list loc) s s1 db db1 (m : M (list loc)) (sp : Z → smap → result) more a :
  silent (bumps ext vals) s (c_db s) db s1 db1 → m s = Some (vals, add_log s1 [EvAnswer a]) → 0 ≤ more →
  (∀ t, steady clock E t → sp t (sview t s db) = (sview t s db, [a], [], 0)) → does ext s db m sp more.
Proof.
  intros S1 Em Hm Hsp. exists vals, (add_log s1 [EvAnswer a]), db1, [a], [], 0. split; [done|]. split; [apply sfocus_log, S1|].
  split; [exact (strace_log _ _ _ _ _ _ [EvAnswer a] (sl_trace _ _ _ _ _ _ S1))|].
  split; [pose proof (sl_total _ _ _ _ _ _ S1); change (total (dbs s1) ≤ total (dbs s) + more); lia|].
  intros t St. rewrite Hsp by done. change (sview t (add_log s1 _) db1) with (sview t s1 db1). by rewrite (sl_view _ _ _ _ _ _ S1 t St).
Qed.

Lemma holding_run (m : M loc) s l s' : m s = Some (l, s') → holding m s = Some ([l], s').
Proof. intros E1. unfold holding. by step E1. Qed.
Lemma plainly_run (m : M unit) s s' : m s = Some (tt, s') → plainly m s = Some ([], s').
Proof. intros E1. unfold plainly. by step E1. Qed.

Lemma small_sum n m : 0 ≤ n < 2 ^ 32 → 0 ≤ m < 2 ^ 32 → i64 (u64 (n + m)) = n + m.
Proof. intros. rewrite wrapu_small by lia. apply wraps_small; lia. Qed.

Lemma append_missing ext s db val txt key s1 db1 : raw_argument ext s db val txt → argv s !! 1%nat = Some key →
  lookupWrite (c_db s) key s = Some (None, s1) → looks_up (bump ext val 1) s (c_db s) db key None s1 db1 →
  does ext s db (holding (appendCommand val)) (λ _ V, append_spec key txt V) 1.
Proof.
  intros A Ha E1 L. pose proof (looks_up_silent _ _ _ _ _ _ _ _ L) as S1. pose proof (raw_argument_silent _ _ _ _ _ _ _ A S1) as A1.
  pose proof (st_c_db _ _ _ _ _ _ (sl_trace _ _ _ _ _ _ S1)) as Hc1. destruct (looks_up_none _ _ _ _ _ _ _ L) as [Hk V0].
  destruct (roomy_bump ext val (rw_roomy _ _ _ _ _ A)) as (R0 & R1 & R2). pose proof A1 as [SF1 R Sh Tt (o & Ho & Ht & Hp)]. rewrite Hc1 in SF1.
  destruct (encode_step ext s1 (c_db s) db1 val o txt SF1 R0 R2 Sh Ho Ht Hp) as (val' & s2 & E2 & SF2 & T2 & D2 & Av2 & (o2 & Ho2 & Ht2 & Hv2) & _ & V2).
  destruct (add_step ext s2 (c_db s) db1 key val' SF2 R2 Sh ltac:(by rewrite D2) Hk) as (s3 & db3 & E3 & SF3 & T3 & N3 & K3 & X3 & Kp3 & D3 & (o3 & o4 & Ho3 & Ho4 & Ht4 & Hp4) & V3).
  rewrite Ho2 in Ho3. injection Ho3 as <-.
  destruct (incr_step ext s3 (c_db s) db3 val' o4 SF3 R0 Ho4) as (s4 & E4 & SF4 & T4 & D4 & Av4 & Ho5 & V4).
  set (o5 := Robj (o_type o4) (o_lru o4) (o_refcount o4 + 1) (o_ptr o4)) in *.
  assert (o_type o5 = REDIS_STRING) as Ht5 by by (cbn; rewrite Ht4).
  pose proof (stringObjectLen_run val' o5 s4 Ho5 Ht5 (sf_objects _ _ _ _ SF4 _ _ Ho5)) as E5. unfold o5 in E5 at 1. cbn [o_ptr] in E5. rewrite Hp4, Hv2 in E5.
  eapply (does_put ext [val'] s s4 db db3 _ _ 1 REDIS_NOTIFY_STRING "append" key (R_int (blen txt)) SF4).
  - exact (strace_trans _ _ _ _ _ _ _ _ _ _ (sl_trace _ _ _ _ _ _ S1) (strace_trans _ _ _ _ _ _ _ _ _ _ T2 (strace_trans _ _ _ _ _ _ _ _ _ _ T3 T4))).
  - rewrite D4. pose proof (sl_total _ _ _ _ _ _ S1). rewrite D2 in N3. lia.
  - apply holding_run. unfold appendCommand. step (arg_run _ _ _ Ha). step (eq_refl : gets c_db s = Some (c_db s, s)).
    step E1. rewrite bind_assoc_run. step E2. rewrite !bind_assoc_run. step E3. rewrite !bind_assoc_run. step E4. rewrite !bind_assoc_run. step E5.
    step (eq_refl : (mret (Some (val', blen txt)) : M _) s4 = Some (Some (val', blen txt), s4)). by rewrite touch_run.
  - intros t St. unfold append_spec. rewrite (V0 t St), V4, (V3 t St), V2, (sl_view _ _ _ _ _ _ S1 t St), (content_string _ _ _ Ho2 Ht2), Hv2.
    by rewrite (expires_none _ _ _ _ _ _ (sf_focus _ _ _ _ SF2) Hk).
Qed.

Lemma object_text_objects l t s s' : objects s' = objects s → object_text l s = Some (t, s) → object_text l s' = Some (t, s').
Proof.
  intros Eo E1. destruct (objects s !! l) as [o|] eqn:Ho.
  - assert (objects s' !! l = Some o) as Ho' by by rewrite Eo. unfold object_text in *. rewrite (bind_run _ _ _ _ _ (get_object_run _ _ _ Ho)) in E1.
    step (get_object_run _ _ _ Ho'). destruct (o_ptr o) as [t'|n|]; [| |discriminate E1].
    + assert (t' = t) as -> by (injection E1; trivial). done.
    + assert (llbuf 32 n = t) as Et by (injection E1; trivial). by rewrite Et.
  - exfalso. unfold object_text, get_object, gets, mbind, M_bind in E1. rewrite Ho in E1. discriminate E1.
Qed.

(** A command that writes to a key after it was made writable. *)
Lemma does_write ext (vals : list loc) s s1 db db1 (m : M (list loc)) (sp : Z → smap → result) more name key l t t' a :
  writable (bumps ext vals) s1 (c_db s) db1 key l t → text_ok t' → strace s s1 (c_db s) [] [] 0 → total (dbs s1) ≤ total (dbs s) + more →
  (∀ s2, write_ptr l t' s1 = Some (tt, s2) → (∀ s3, objects s3 = objects s2 → object_text l s3 = Some (t', s3)) →
     m s = Some (vals, add_log (touched s2 (c_db s) REDIS_NOTIFY_STRING name key) [EvAnswer a])) →
  (∀ t0, steady clock E t0 → sp t0 (sview t0 s db) = (alter (λ vw : value * option Z, (VStr t', vw.2)) key (sview t0 s1 db1), [a], [key], 1)) → does ext s db m sp more.
Proof.
  intros W Ht T N Em Hsp. destruct (writable_write _ _ _ _ _ _ _ t' W Ht) as (s2 & E1 & W2 & T2 & D2 & _ & V2).
  eapply (does_put ext vals s s2 db db1 _ _ more REDIS_NOTIFY_STRING name key a (wr_focus _ _ _ _ _ _ _ W2)).
  - exact (strace_trans _ _ _ _ _ _ _ _ _ _ T T2).
  - by rewrite D2.
  - apply (Em s2 E1). intros s3 Ho. eapply object_text_objects; [exact Ho|by eapply writable_text].
  - intros t0 St. by rewrite Hsp, V2.
Qed.

Lemma argument_object ext s db val txt : raw_argument ext s db val txt → text_ok txt ∧ object_text val s = Some (txt, s).
Proof.
  intros [SF R Sh Tt (o & Ho & Ht & Hp)]. pose proof (sf_objects _ _ _ _ SF val o Ho) as Hok. pose proof (object_text_run val o s Ho Ht Hok) as E1.
  specialize (Hok Ht). rewrite Hp in *. done.
Qed.

Lemma append_does ext s db val txt key : raw_argument ext s db val txt → argv s !! 1%nat = Some key →
  does ext s db (holding (appendCommand val)) (λ _ V, append_spec key txt V) 1.
Proof.
  intros A Ha. destruct (lookupWrite_step (bump ext val 1) s (c_db s) db key (rw_focus _ _ _ _ _ A)) as (v & s1 & db1 & E1 & L).
  destruct v as [l|]; [|by eapply append_missing].
  pose proof (looks_up_silent _ _ _ _ _ _ _ _ L) as S1. pose proof (raw_argument_silent _ _ _ _ _ _ _ A S1) as A1.
  pose proof (st_c_db _ _ _ _ _ _ (sl_trace _ _ _ _ _ _ S1)) as Hc1. destruct (looks_up_some _ _ _ _ _ _ _ _ L) as (o & Ho & Hk & Hok & V).
  assert (∀ r s', appendCommand val s = Some (r, s') ↔
    (wrong ← checkType l REDIS_STRING; r ← (if wrong : bool then mret None
      else
        len ← stringObjectLen l; append ← object_text val; long ← checkStringLength (i64 (u64 (len + blen append)));
        if long : bool then mret None
        else l ← dbUnshareStringValue (c_db s) key l; t ← object_text l; _ ← write_ptr l (t ++ append); t ← object_text l; mret (Some (val, blen t)));
      match r with
      | None => mret val
      | Some (val, totlen) =>
          _ ← signalModifiedKey (c_db s) key; _ ← notify REDIS_NOTIFY_STRING "append" key; _ ← add_dirty 1; _ ← addReply (R_int totlen); mret val
      end) s1 = Some (r, s')) as Hrun.
  { intros r s'. unfold appendCommand. step (arg_run _ _ _ Ha). step (eq_refl : gets c_db s = Some (c_db s, s)). step E1. by rewrite bind_assoc_run. }
  destruct (Z.eqb_spec (o_type o) REDIS_STRING) as [Ht|Ht].
  2: { eapply (silent_answers ext [val] s s1 db db1 _ _ 1 R_wrongtypeerr S1); [|lia|].
    - apply holding_run, Hrun. step (checkType_run l o REDIS_STRING s1 Ho). rewrite (proj2 (Z.eqb_neq _ _) Ht). done.
    - intros t St. unfold append_spec. by rewrite (V t St), (other_view _ _ _ Ho Ht). }
  destruct (argument_object _ _ _ _ _ A1) as [Hx Etx]. set (t := value_text (o_ptr o)). pose proof (value_text_ok _ (Hok Ht)) as Htok. fold t in Htok.
  pose proof (small_sum (blen t) (blen txt)) as Hsum. destruct Hx as [Hx1 Hx2], Htok as [Ht1 Ht2]. pose proof (blen_nonneg t). pose proof (blen_nonneg txt).
  assert (∀ {B} (k : bool → M B), (wrong ← checkType l REDIS_STRING; k wrong) s1 = k false s1) as Hty by
    (intros B k; step (checkType_run l o REDIS_STRING s1 Ho); by rewrite Ht).
  destruct (Z.ltb_spec (2 ^ 29) (blen t + blen txt)) as [Hlong|Hlong].
  - eapply (silent_answers ext [val] s s1 db db1 _ _ 1 too_long S1); [|lia|].
    + apply holding_run, Hrun. rewrite Hty. rewrite bind_assoc_run. step (stringObjectLen_run _ _ _ Ho Ht Hok). rewrite bind_assoc_run. step Etx. fold t. rewrite Hsum by lia.
      rewrite bind_assoc_run. step (checkStringLength_run (blen t + blen txt) s1). by rewrite (proj2 (Z.ltb_lt _ _) Hlong).
    + intros t0 St. unfold append_spec. rewrite (V t0 St), (string_view _ _ _ Ho Ht). fold t. by rewrite (proj2 (Z.ltb_lt _ _) Hlong).
  - destruct (writable_unshared (bump ext val 1) s1 (c_db s) db1 key l o) as (l' & s2 & db2 & E2 & W2 & T2 & N2 & V2); try done.
    { rewrite <-Hc1. apply A1. }
    { intros x. pose proof (rw_roomy _ _ _ _ _ A x). unfold bump. destruct (decide (x = val)); lia. }
    { intros v Hv. pose proof (rw_shared _ _ _ _ _ A v Hv). pose proof (bump_le ext val 1 (shared_integers v)). lia. }
    { apply A1. }
    { intros t0 St. pose proof L as (_ & _ & _ & _ & _ & _ & G & _). by apply G; [|eauto]. }
    assert (text_ok (t ++ txt)) as Hok' by (split; [by apply Forall_app|rewrite blen_app; lia]).
    eapply (does_write ext [val] s s2 db db2 _ _ 1 "append" key l' t (t ++ txt) (R_int (blen (t ++ txt))) W2 Hok').
    + exact (strace_trans _ _ _ _ _ _ _ _ _ _ (sl_trace _ _ _ _ _ _ S1) T2).
    + pose proof (sl_total _ _ _ _ _ _ S1). lia.
    + intros s3 E3 Etx3. apply holding_run, Hrun. rewrite Hty. rewrite !bind_assoc_run. step (stringObjectLen_run _ _ _ Ho Ht Hok). rewrite bind_assoc_run. step Etx.
      fold t. rewrite Hsum by lia. rewrite bind_assoc_run. step (checkStringLength_run (blen t + blen txt) s1). rewrite (proj2 (Z.ltb_ge _ _) Hlong). cbv iota.
      rewrite bind_assoc_run. step E2. rewrite bind_assoc_run. step (writable_text _ _ _ _ _ _ _ W2). rewrite bind_assoc_run. step E3. rewrite bind_assoc_run.
      step (Etx3 s3 eq_refl). step (eq_refl : (mret (Some (val, blen (t ++ txt))) : M _) s3 = Some (Some (val, blen (t ++ txt)), s3)). by rewrite touch_run.
    + intros t0 St. unfold append_spec. rewrite (V t0 St), (string_view _ _ _ Ho Ht). fold t. rewrite (proj2 (Z.ltb_ge _ _) Hlong).
      rewrite (V2 t0 St), (sl_view _ _ _ _ _ _ S1 t0 St). erewrite alter_present by exact (V t0 St). done.
Qed.

(** SETRANGE: the string is padded with zeros up to the offset. *)
Definition setrange_text (t : text) (offset : Z) (value : text) : text :=
  let g := grown t (offset + blen value) in take (Z.to_nat offset) g ++ value ++ drop (Z.to_nat (offset + blen value)) g.

Definition setrange_spec (key offset_arg value : text) (V : smap) : result :=
  with_long offset_arg None V (λ offset,
    if offset <? 0 then (V, [R_error "offset is out of range"], [], 0)
    else
      match V !! key with
      | Some (VOther _, _) => (V, [R_wrongtypeerr], [], 0)
      | v =>
          let '(t, w, none) := match v with Some (VStr t, w) => (t, w, R_int (blen t)) | _ => ([], None, R_czero) end in
          if blen value =? 0 then (V, [none], [], 0)
          else if 2 ^ 29 <? offset + blen value then (V, [too_long], [], 0)
          else (<[key := (VStr (setrange_text t offset value), w)]> V, [R_int (blen (setrange_text t offset value))], [key], 1)
      end).

Lemma setrange_store t offset value : 0 ≤ offset → text_ok t → text_ok value → offset + blen value ≤ 2 ^ 29 →
  mstore (grown t (offset + blen value)) offset value = Some (setrange_text t offset value) ∧ text_ok (setrange_text t offset value).
Proof.
  intros Ho [Ht1 Ht2] [Hv1 Hv2] Hl. pose proof (blen_nonneg value). pose proof (blen_nonneg t). pose proof (grown_length t (offset + blen value)) as Hg. split.
  - unfold mstore. zdec. done.
  - unfold setrange_text. cbn zeta. assert (Forall byte_ok (grown t (offset + blen value))) as Hf.
    { unfold grown. apply Forall_app. split; [done|]. apply Forall_replicate. by unfold byte_ok. }
    split.
    + repeat (apply Forall_app; split); [by apply Forall_take|done|by apply Forall_drop].
    + unfold blen in *. rewrite !length_app, length_take, length_drop. lia.
Qed.

Lemma setrange_tail ext s i db key l t offset value s2 : writable ext s i db key l t → 0 ≤ offset → text_ok value → offset + blen value ≤ 2 ^ 29 → blen value ≠ 0 →
  write_ptr l (setrange_text t offset value) s = Some (tt, s2) → (∀ s3, objects s3 = objects s2 → object_text l s3 = Some (setrange_text t offset value, s3)) →
  (_ ← (if 0 <? blen value then
          t ← object_text l; t ← lift (mstore (grown t (offset + blen value)) offset value); _ ← write_ptr l t;
          _ ← signalModifiedKey i key; _ ← notify REDIS_NOTIFY_STRING "setrange" key; add_dirty 1
        else mret tt);
   t ← object_text l; addReply (R_int (blen t))) s
  = Some (tt, add_log (touched s2 i REDIS_NOTIFY_STRING "setrange" key) [EvAnswer (R_int (blen (setrange_text t offset value)))]).
Proof.
  intros W Ho Hv Hl Hn E1 Etx. pose proof (blen_nonneg value). rewrite (proj2 (Z.ltb_lt 0 (blen value))) by lia.
  rewrite bind_assoc_run. step (writable_text _ _ _ _ _ _ _ W). rewrite bind_assoc_run.
  destruct (setrange_store t offset value Ho (writable_ok _ _ _ _ _ _ _ W) Hv Hl) as [Em _]. step (lift_run _ s _ Em). rewrite bind_assoc_run. step E1.
  step (touch_run_unit s2 i REDIS_NOTIFY_STRING "setrange" key). by step (Etx (touched s2 i REDIS_NOTIFY_STRING "setrange" key) eq_refl).
Qed.

(** What a command without values that writes needs of the state. *)
Record ready (ext : loc → Z) s (db : redisDb) : Prop := Ready {
  rd_focus : sfocus ext s (c_db s) db;
  rd_roomy : ∀ x, 0 ≤ ext x < 2 ^ 28 - 8;
  rd_shared : ∀ v, 0 ≤ v < REDIS_SHARED_INTEGERS → 1 ≤ ext (shared_integers v);
  rd_total : total (dbs s) < 2 ^ 28 - 1
}.

Lemma ready_silent ext s db s1 db1 : ready ext s db → silent ext s (c_db s) db s1 db1 → ready ext s1 db1.
Proof.
  intros [SF R Sh Tt] Si. pose proof (st_c_db _ _ _ _ _ _ (sl_trace _ _ _ _ _ _ Si)) as Hc. split; [rewrite Hc; apply Si|done|done|].
  pose proof (sl_total _ _ _ _ _ _ Si). lia.
Qed.

Lemma ready_unshared ext s i db key l o s1 db1 : ready ext s db → i = c_db s → looks_up ext s i db key (Some l) s1 db1 → objects s1 !! l = Some o → o_type o = REDIS_STRING →
  ∃ l' s' db', dbUnshareStringValue i key l s1 = Some (l', s') ∧ writable ext s' i db' key l' (value_text (o_ptr o)) ∧ strace s s' i [] [] 0 ∧ total (dbs s') ≤ total (dbs s) ∧
    ∀ t, steady clock E t → sview t s' db' = sview t s db.
Proof.
  intros Rd -> L Ho Ht. pose proof (looks_up_silent _ _ _ _ _ _ _ _ L) as S1. pose proof (ready_silent _ _ _ _ _ Rd S1) as [SF R Sh Tt].
  pose proof (st_c_db _ _ _ _ _ _ (sl_trace _ _ _ _ _ _ S1)) as Hc. rewrite Hc in SF. pose proof L as (_ & _ & _ & _ & Ev & _ & G & _).
  destruct (writable_unshared ext s1 (c_db s) db1 key l o SF) as (l' & s2 & db2 & E2 & W2 & T2 & N2 & V2); try done.
  { intros x. specialize (R x). lia. }
  { intros t St. apply G; [done|eauto]. }
  exists l', s2, db2. split; [done|]. split; [done|]. split; [exact (strace_trans _ _ _ _ _ _ _ _ _ _ (sl_trace _ _ _ _ _ _ S1) T2)|].
  split; [pose proof (sl_total _ _ _ _ _ _ S1); lia|]. intros t St. by rewrite (V2 t St), (sl_view _ _ _ _ _ _ S1 t St).
Qed.

Lemma ready_new ext s i db key t s1 db1 : ready ext s db → i = c_db s → looks_up ext s i db key None s1 db1 → text_ok t →
  ∃ l s2 s3 db3, createStringObject t s1 = Some (l, s2) ∧ dbAdd seed junk_val E i key l s2 = Some (tt, s3) ∧ writable ext s3 i db3 key l t ∧ strace s s3 i [] [] 0 ∧
    total (dbs s3) ≤ total (dbs s) + 1 ∧ ∀ t0, steady clock E t0 → sview t0 s3 db3 = <[key := (VStr t, None)]> (sview t0 s db).
Proof.
  intros Rd -> L Ht. pose proof (looks_up_silent _ _ _ _ _ _ _ _ L) as S1. pose proof (ready_silent _ _ _ _ _ Rd S1) as [SF R Sh Tt].
  pose proof (st_c_db _ _ _ _ _ _ (sl_trace _ _ _ _ _ _ S1)) as Hc. rewrite Hc in SF. destruct (looks_up_none _ _ _ _ _ _ _ L) as [Hk _].
  destruct (writable_new ext s1 (c_db s) db1 key t SF) as (l & s2 & s3 & db3 & E2 & E3 & W3 & T3 & N3 & V3); try done.
  { intros x. specialize (R x). lia. }
  exists l, s2, s3, db3. split; [done|]. split; [done|]. split; [done|]. split; [exact (strace_trans _ _ _ _ _ _ _ _ _ _ (sl_trace _ _ _ _ _ _ S1) T3)|].
  split; [pose proof (sl_total _ _ _ _ _ _ S1); lia|]. intros t0 St. by rewrite (V3 t0 St), (sl_view _ _ _ _ _ _ S1 t0 St).
Qed.

Lemma checkType_string l o s {B} (k : bool → M B) : objects s !! l = Some o → o_type o = REDIS_STRING → (wrong ← checkType l REDIS_STRING; k wrong) s = k false s.
Proof. intros Ho Ht. step (checkType_run l o REDIS_STRING s Ho). by rewrite Ht. Qed.
Lemma checkType_other l o s {B} (k : bool → M B) : objects s !! l = Some o → o_type o ≠ REDIS_STRING →
  (wrong ← checkType l REDIS_STRING; k wrong) s = k true (add_log s [EvAnswer R_wrongtypeerr]).
Proof. intros Ho Ht. step (checkType_run l o REDIS_STRING s Ho). by rewrite (proj2 (Z.eqb_neq _ _) Ht). Qed.

Ltac setrange_start H1 H2 H3 :=
  apply plainly_run; unfold setrangeCommand; rewrite (bind_run _ _ _ _ _ (arg_run _ _ _ H1)), (bind_run _ _ _ _ _ (arg_run _ _ _ H2)), (bind_run _ _ _ _ _ (arg_run _ _ _ H3));
  match goal with |- context [gets c_db ≫= ?f] => match goal with |- _ ?s = _ => rewrite (bind_run (gets c_db) f s (c_db s) s eq_refl) end end.

Lemma setrange_does ext s db c key a value : ready ext s db → argv s = [c; key; a; value] → text_ok value →
  does ext s db (plainly setrangeCommand) (λ _ V, setrange_spec key a value V) 1.
Proof.
  intros Rd Ha Hv. assert (argv s !! 1%nat = Some key ∧ argv s !! 2%nat = Some a ∧ argv s !! 3%nat = Some value) as (H1 & H2 & H3) by by rewrite Ha.
  pose proof (getLong_run a None s) as X1. destruct (long_number a None) as [x|offset] eqn:Ea.
  { eapply (silent_answers ext [] s s db db _ _ 1 x); [apply silent_refl, Rd| |lia|intros t St; unfold setrange_spec, with_long; by rewrite Ea].
    setrange_start H1 H2 H3. by step X1. }
  pose proof (long_number_range _ _ _ Ea) as Ra. unfold in_long in Ra. destruct Hv as [Hv1 Hv2]. pose proof (blen_nonneg value) as Hv0.
  destruct (Z.ltb_spec offset 0) as [Hneg|Hneg].
  { eapply (silent_answers ext [] s s db db _ _ 1 _); [apply silent_refl, Rd| |lia|intros t St; unfold setrange_spec, with_long; rewrite Ea; by rewrite (proj2 (Z.ltb_lt _ _) Hneg)].
    setrange_start H1 H2 H3. step X1. by rewrite (proj2 (Z.ltb_lt _ _) Hneg). }
  pose proof (proj2 (Z.ltb_ge _ _) Hneg) as Hnn.
  destruct (lookupWrite_step ext s (c_db s) db key (rd_focus _ _ _ Rd)) as (v & s1 & db1 & E1 & L). pose proof (looks_up_silent _ _ _ _ _ _ _ _ L) as S1.
  assert (i64 (u64 (offset + blen value)) = offset + blen value) as Hsum by (apply small_sum; unlimit; lia).
  assert (∀ V, setrange_spec key a value V = match V !! key with
      | Some (VOther _, _) => (V, [R_wrongtypeerr], [], 0)
      | v =>
          let '(t, w, none) := match v with Some (VStr t, w) => (t, w, R_int (blen t)) | _ => ([], None, R_czero) end in
          if blen value =? 0 then (V, [none], [], 0)
          else if 2 ^ 29 <? offset + blen value then (V, [too_long], [], 0)
          else (<[key := (VStr (setrange_text t offset value), w)]> V, [R_int (blen (setrange_text t offset value))], [key], 1)
      end) as Hsp by (intros V; unfold setrange_spec, with_long; rewrite Ea; by rewrite (proj2 (Z.ltb_ge _ _) Hneg)).
  destruct v as [l|].
  - destruct (looks_up_some _ _ _ _ _ _ _ _ L) as (o & Ho & Hk & Hok & V).
    destruct (Z.eqb_spec (o_type o) REDIS_STRING) as [Ht|Ht].
    2: { eapply (silent_answers ext [] s s1 db db1 _ _ 1 _ S1); [|lia|intros t St; by rewrite Hsp, (V t St), (other_view _ _ _ Ho Ht)].
      setrange_start H1 H2 H3. step X1. rewrite Hnn. step E1. rewrite bind_assoc_run. by rewrite (checkType_other _ _ _ _ Ho Ht). }
    set (t := value_text (o_ptr o)).
    assert (∀ T, steady clock E T → sview T s db !! key = Some (VStr t, expires_of db1 !! key)) as Vt by (intros T St; by rewrite (V T St), (string_view _ _ _ Ho Ht)).
    destruct (Z.eqb_spec (blen value) 0) as [Hz|Hz].
    { eapply (silent_answers ext [] s s1 db db1 _ _ 1 _ S1); [|lia|intros T St; by rewrite Hsp, (Vt T St)].
      setrange_start H1 H2 H3. step X1. rewrite Hnn. step E1. rewrite bind_assoc_run, (checkType_string _ _ _ _ Ho Ht), bind_assoc_run.
      step (stringObjectLen_run _ _ _ Ho Ht Hok). by rewrite (proj2 (Z.eqb_eq _ _) Hz). }
    destruct (Z.ltb_spec (2 ^ 29) (offset + blen value)) as [Hl|Hl].
    { eapply (silent_answers ext [] s s1 db db1 _ _ 1 _ S1); [|lia|intros T St; by rewrite Hsp, (Vt T St)].
      setrange_start H1 H2 H3. step X1. rewrite Hnn. step E1. rewrite bind_assoc_run, (checkType_string _ _ _ _ Ho Ht), bind_assoc_run.
      step (stringObjectLen_run _ _ _ Ho Ht Hok). rewrite (proj2 (Z.eqb_neq _ _) Hz), bind_assoc_run, Hsum. step (checkStringLength_run (offset + blen value) s1).
      by rewrite (proj2 (Z.ltb_lt _ _) Hl). }
    destruct (ready_unshared ext s (c_db s) db key l o s1 db1 Rd eq_refl L Ho Ht) as (l' & s2 & db2 & E2 & W2 & T2 & N2 & V2). fold t in W2.
    eapply (does_write ext [] s s2 db db2 _ _ 1 "setrange" key l' t (setrange_text t offset value) _ W2); [|exact T2|lia| |].
    + apply setrange_store; [done|by eapply writable_ok|by split|done].
    + intros s3 E3 Etx. setrange_start H1 H2 H3. step X1. rewrite Hnn. step E1. rewrite bind_assoc_run, (checkType_string _ _ _ _ Ho Ht), bind_assoc_run.
      step (stringObjectLen_run _ _ _ Ho Ht Hok). rewrite (proj2 (Z.eqb_neq _ _) Hz), bind_assoc_run, Hsum. step (checkStringLength_run (offset + blen value) s1).
      rewrite (proj2 (Z.ltb_ge _ _) Hl). cbv iota. rewrite bind_assoc_run. step E2. step (eq_refl : (mret (Some l') : M _) s2 = Some (Some l', s2)).
      by apply (setrange_tail ext s2 (c_db s) db2 key l' t offset value s3 W2 Hneg (conj Hv1 Hv2) Hl Hz).
    + intros T St. rewrite Hsp, (Vt T St), (V2 T St). erewrite alter_present by exact (Vt T St). done.
  - destruct (looks_up_none _ _ _ _ _ _ _ L) as [Hk V0].
    destruct (Z.eqb_spec (blen value) 0) as [Hz|Hz].
    { eapply (silent_answers ext [] s s1 db db1 _ _ 1 _ S1); [|lia|intros T St; by rewrite Hsp, (V0 T St)].
      setrange_start H1 H2 H3. step X1. rewrite Hnn. step E1. by rewrite (proj2 (Z.eqb_eq _ _) Hz). }
    destruct (Z.ltb_spec (2 ^ 29) (offset + blen value)) as [Hl|Hl].
    { eapply (silent_answers ext [] s s1 db db1 _ _ 1 _ S1); [|lia|intros T St; by rewrite Hsp, (V0 T St)].
      setrange_start H1 H2 H3. step X1. rewrite Hnn. step E1. rewrite (proj2 (Z.eqb_neq _ _) Hz), bind_assoc_run, Hsum.
      step (checkStringLength_run (offset + blen value) s1). by rewrite (proj2 (Z.ltb_lt _ _) Hl). }
    destruct (ready_new ext s (c_db s) db key [] s1 db1 Rd eq_refl L) as (l & s2 & s3 & db3 & E2 & E3 & W3 & T3 & N3 & V3); [by split|].
    eapply (does_write ext [] s s3 db db3 _ _ 1 "setrange" key l [] (setrange_text [] offset value) _ W3); [|exact T3|lia| |].
    + apply setrange_store; [done|by split|by split|done].
    + intros s4 E4 Etx. setrange_start H1 H2 H3. step X1. rewrite Hnn. step E1. rewrite (proj2 (Z.eqb_neq _ _) Hz), bind_assoc_run, Hsum.
      step (checkStringLength_run (offset + blen value) s1). rewrite (proj2 (Z.ltb_ge _ _) Hl). cbv iota. rewrite bind_assoc_run. step E2. rewrite bind_assoc_run. step E3.
      step (eq_refl : (mret (Some l) : M _) s3 = Some (Some l, s3)). by apply (setrange_tail ext s3 (c_db s) db3 key l [] offset value s4 W3 Hneg (conj Hv1 Hv2) Hl Hz).
    + intros T St. rewrite Hsp, (V0 T St), (V3 T St). rewrite (alter_present _ key _ (VStr [], None)) by apply lookup_insert_eq. by rewrite insert_insert_eq.
Qed.

(** ** Numbers *)

Lemma number_step ext s i db value : sfocus ext s i db → roomy ext → in_i64 value →
  ∃ l o s', createStringObjectFromLongLong value s = Some (l, s') ∧ sfocus (bump ext l 1) s' i db ∧ strace s s' i [] [] 0 ∧ dbs s' = dbs s ∧
    objects s' !! l = Some o ∧ o_type o = REDIS_STRING ∧ value_text (o_ptr o) = ll_text value ∧ ∀ t, sview t s' db = sview t s db.
Proof.
  intros SF R Hv. unfold createStringObjectFromLongLong. destruct ((0 <=? value) && (value <? REDIS_SHARED_INTEGERS)) eqn:E1.
  - apply andb_true_iff in E1 as [E1%Z.leb_le E2%Z.ltb_lt]. destruct (sf_shared _ _ _ _ SF value (conj E1 E2)) as (_ & o & Ho & Ht & Hp).
    destruct (incr_step ext s i db (shared_integers value) o SF R Ho) as (s' & E3 & SF' & T & D & _ & Ho' & V). step E3.
    eexists (shared_integers value), _, s'. split_and!; [done|done|done|done|exact Ho'|done|by cbn; rewrite Hp|done].
  - assert (∀ v, object_ok (Robj REDIS_STRING (lruclock E) 1 v) → value_text v = ll_text value → ∃ l o s', createObject REDIS_STRING v s = Some (l, s') ∧
      sfocus (bump ext l 1) s' i db ∧ strace s s' i [] [] 0 ∧ dbs s' = dbs s ∧ objects s' !! l = Some o ∧ o_type o = REDIS_STRING ∧ value_text (o_ptr o) = ll_text value ∧
      ∀ t, sview t s' db = sview t s db) as Hc.
    { intros v Hok Et. destruct (create_step ext s i db REDIS_STRING v SF R Hok) as (l & s' & E2 & SF' & T & D & _ & _ & _ & O & V).
      eexists l, _, s'. split_and!; [done|done|done|done|by rewrite O, lookup_insert_eq|done|done|done]. }
    destruct ((LONG_MIN <=? value) && (value <=? LONG_MAX)) eqn:E2; apply Hc; cbn [value_text].
    + intros _. apply andb_true_iff in E2 as [H1%Z.leb_le H2%Z.leb_le]. by split.
    + done.
    + intros _. cbn [o_ptr ptr_ok]. rewrite (proj1 (llbuf_text value Hv)). by apply ll_text_ok.
    + by rewrite (proj1 (llbuf_text value Hv)).
Qed.

Definition incr_spec (key : text) (incr : Z) (V : smap) : result :=
  match V !! key with
  | Some (VOther _, _) => (V, [R_wrongtypeerr], [], 0)
  | v =>
      match match v with Some (VStr t, _) => number t | _ => Some 0 end with
      | None => (V, [R_notinteger], [], 0)
      | Some oldvalue =>
          if (oldvalue + incr <? LLONG_MIN) || (LLONG_MAX <? oldvalue + incr) then (V, [R_error "increment or decrement would overflow"], [], 0)
          else (<[key := (VStr (ll_text (oldvalue + incr)), match v with Some (_, w) => w | None => None end)]> V, [R_int (oldvalue + incr)], [key], 1)
      end
  end.

(** The test is the one for a result that does not fit. *)
Lemma incr_overflow oldvalue incr : in_i64 oldvalue → in_i64 incr →
  ((incr <? 0) && (oldvalue <? 0) && (incr <? i64 (LLONG_MIN - oldvalue))) || ((0 <? incr) && (0 <? oldvalue) && (i64 (LLONG_MAX - oldvalue) <? incr))
  = (oldvalue + incr <? LLONG_MIN) || (LLONG_MAX <? oldvalue + incr).
Proof.
  unfold in_i64. intros Ho Hi.
  destruct (Z.ltb_spec incr 0), (Z.ltb_spec oldvalue 0), (Z.ltb_spec 0 incr), (Z.ltb_spec 0 oldvalue); try (exfalso; lia); cbn [andb orb];
    rewrite ?wraps_small by (unlimit; lia); rewrite ?orb_false_r;
    destruct (Z.ltb_spec (oldvalue + incr) LLONG_MIN), (Z.ltb_spec LLONG_MAX (oldvalue + incr)); cbn [orb]; try (exfalso; unlimit; lia);
    try done; first [apply Z.ltb_lt; lia|apply Z.ltb_ge; lia].
Qed.

(** What is left when the old value is known; [o] is the old object. *)
Lemma incr_rest ext s i db key (v : option loc) (oldvalue incr : Z) s1 db1 : ready ext s db → i = c_db s → looks_up ext s i db key v s1 db1 → in_i64 (oldvalue + incr) →
  ∃ l s2 s3 db3, createStringObjectFromLongLong (oldvalue + incr) s1 = Some (l, s2) ∧
    match v with Some _ => dbOverwrite seed junk_val E i key l | None => dbAdd seed junk_val E i key l end s2 = Some (tt, s3) ∧
    sfocus ext s3 i db3 ∧ strace s s3 i [] [] 0 ∧ total (dbs s3) ≤ total (dbs s) + 1 ∧
    ∀ t, steady clock E t → sview t s3 db3 = <[key := (VStr (ll_text (oldvalue + incr)), expires_of db1 !! key)]> (sview t s db).
Proof.
  intros Rd -> L Hv. pose proof (looks_up_silent _ _ _ _ _ _ _ _ L) as S1. pose proof (ready_silent _ _ _ _ _ Rd S1) as [SF R Sh Tt].
  pose proof (st_c_db _ _ _ _ _ _ (sl_trace _ _ _ _ _ _ S1)) as Hc. rewrite Hc in SF. pose proof L as (_ & _ & _ & _ & Ev & _ & G & _).
  assert (∀ x, 0 ≤ ext x) as R2 by (intros x; apply R).
  destruct (number_step ext s1 (c_db s) db1 (oldvalue + incr) SF) as (l & o & s2 & E2 & SF2 & T2 & D2 & Ho & Ht & Hx & V2); [intros x; specialize (R x); lia|done|].
  assert (∃ s3 db3, match v with Some _ => dbOverwrite seed junk_val E (c_db s) key l | None => dbAdd seed junk_val E (c_db s) key l end s2 = Some (tt, s3) ∧
    sets ext s2 (c_db s) db1 key l s3 db3) as (s3 & db3 & E3 & SF3 & T3 & N3 & K3 & X3 & Kp3 & D3 & _ & V3).
  { destruct v as [old|].
    - apply (overwrite_step ext s2 (c_db s) db1 key l old SF2 R2 Sh); [done|]. intros t St. apply G; [done|eauto].
    - by apply (add_step ext s2 (c_db s) db1 key l SF2 R2 Sh); [by rewrite D2|]. }
  exists l, s2, s3, db3. split; [done|]. split; [done|]. split; [done|].
  split; [exact (strace_trans _ _ _ _ _ _ _ _ _ _ (sl_trace _ _ _ _ _ _ S1) (strace_trans _ _ _ _ _ _ _ _ _ _ T2 T3))|].
  split; [pose proof (sl_total _ _ _ _ _ _ S1); rewrite D2 in N3; lia|].
  intros t St. by rewrite (V3 t St), V2, (content_string _ _ _ Ho Ht), Hx, (sl_view _ _ _ _ _ _ S1 t St).
Qed.

(** The command after the type check: [num] is the old number. *)
Definition incr_result (key : text) (incr : Z) (num : option Z) (w : option Z) (V : smap) : result :=
  match num with
  | None => (V, [R_notinteger], [], 0)
  | Some oldvalue =>
      if (oldvalue + incr <? LLONG_MIN) || (LLONG_MAX <? oldvalue + incr) then (V, [R_error "increment or decrement would overflow"], [], 0)
      else (<[key := (VStr (ll_text (oldvalue + incr)), w)]> V, [R_int (oldvalue + incr)], [key], 1)
  end.

Lemma incr_tail ext s db key (v : option loc) (incr : Z) (ptr : option sval) (num : option Z) s1 db1 (m : M unit) (sp : Z → smap → result) :
  ready ext s db → looks_up ext s (c_db s) db key v s1 db1 → in_i64 incr → getLongLongFromObject ptr = Some num → (∀ n, num = Some n → in_i64 n) →
  (∀ r s', (r ← getLongLongFromObjectOrReply ptr R_notinteger;
      match r with
      | None => mret tt
      | Some oldvalue =>
          if ((incr <? 0) && (oldvalue <? 0) && (incr <? i64 (LLONG_MIN - oldvalue))) || ((0 <? incr) && (0 <? oldvalue) && (i64 (LLONG_MAX - oldvalue) <? incr))
          then addReply (R_error "increment or decrement would overflow")
          else
            let value := i64 (oldvalue + incr) in
            new ← createStringObjectFromLongLong value;
            _ ← match v with Some _ => dbOverwrite seed junk_val E (c_db s) key new | None => dbAdd seed junk_val E (c_db s) key new end;
            _ ← signalModifiedKey (c_db s) key; _ ← notify REDIS_NOTIFY_STRING "incrby" key; _ ← add_dirty 1; addReply (R_int value)
      end) s1 = Some (r, s') → m s = Some (r, s')) →
  (∀ t, steady clock E t → sp t (sview t s db) = incr_result key incr num (expires_of db1 !! key) (sview t s db)) → does ext s db (plainly m) sp 1.
Proof.
  intros Rd L Hi En Hr Em Hsp. pose proof (looks_up_silent _ _ _ _ _ _ _ _ L) as S1. unfold incr_result in Hsp.
  unfold getLongLongFromObjectOrReply in Em. destruct num as [oldvalue|].
  2: { eapply (silent_answers ext [] s s1 db db1 _ _ 1 R_notinteger S1); [|lia|done]. apply plainly_run, Em. rewrite bind_assoc_run. by step (lift_run _ s1 _ En). }
  specialize (Hr oldvalue eq_refl). destruct ((oldvalue + incr <? LLONG_MIN) || (LLONG_MAX <? oldvalue + incr)) eqn:Eo.
  - eapply (silent_answers ext [] s s1 db db1 _ _ 1 _ S1); [|lia|done]. apply plainly_run, Em. rewrite bind_assoc_run. step (lift_run _ s1 _ En).
    step (eq_refl : (mret (Some oldvalue) : M _) s1 = Some (Some oldvalue, s1)). by rewrite (incr_overflow _ _ Hr Hi), Eo.
  - assert (in_i64 (oldvalue + incr)) as Hin by (apply orb_false_iff in Eo as [Eo1%Z.ltb_ge Eo2%Z.ltb_ge]; unfold in_i64; unlimit; lia).
    destruct (incr_rest ext s (c_db s) db key v oldvalue incr s1 db1 Rd eq_refl L Hin) as (l & s2 & s3 & db3 & E2 & E3 & SF3 & T3 & N3 & V3).
    eapply (does_put ext [] s s3 db db3 _ _ 1 REDIS_NOTIFY_STRING "incrby" key (R_int (oldvalue + incr)) SF3 T3 N3).
    + apply plainly_run, Em. rewrite bind_assoc_run. step (lift_run _ s1 _ En). step (eq_refl : (mret (Some oldvalue) : M _) s1 = Some (Some oldvalue, s1)).
      rewrite (incr_overflow _ _ Hr Hi), Eo. cbv zeta. rewrite (wraps_small 64 (oldvalue + incr)) by (unfold in_i64 in Hin; unlimit; lia).
      step E2. step E3. by rewrite touch_run.
    + intros t St. by rewrite (Hsp t St), (V3 t St).
Qed.

Lemma incrDecr_does ext s db key incr : ready ext s db → argv s !! 1%nat = Some key → in_i64 incr →
  does ext s db (plainly (incrDecrCommand incr)) (λ _ V, incr_spec key incr V) 1.
Proof.
  intros Rd H1 Hi. destruct (lookupWrite_step ext s (c_db s) db key (rd_focus _ _ _ Rd)) as (v & s1 & db1 & E1 & L).
  pose proof (looks_up_silent _ _ _ _ _ _ _ _ L) as S1. destruct v as [l|].
  - destruct (looks_up_some _ _ _ _ _ _ _ _ L) as (o & Ho & Hk & Hok & V). destruct (Z.eqb_spec (o_type o) REDIS_STRING) as [Ht|Ht].
    + apply (incr_tail ext s db key (Some l) incr (Some (o_ptr o)) (number (value_text (o_ptr o))) s1 db1 _ _ Rd L Hi); [by apply getLongLong_value, Hok|by intros; eapply number_range| |].
      * intros r s' Er. unfold incrDecrCommand. step (arg_run _ _ _ H1). step (eq_refl : gets c_db s = Some (c_db s, s)). step E1.
        rewrite (checkType_string _ _ _ _ Ho Ht). rewrite bind_assoc_run. by step (get_object_run _ _ _ Ho).
      * intros t St. unfold incr_spec. by rewrite (V t St), (string_view _ _ _ Ho Ht).
    + eapply (silent_answers ext [] s s1 db db1 _ _ 1 _ S1); [|lia|intros t St; unfold incr_spec; by rewrite (V t St), (other_view _ _ _ Ho Ht)].
      apply plainly_run. unfold incrDecrCommand. step (arg_run _ _ _ H1). step (eq_refl : gets c_db s = Some (c_db s, s)). step E1. by rewrite (checkType_other _ _ _ _ Ho Ht).
  - destruct (looks_up_none _ _ _ _ _ _ _ L) as [Hk V0].
    apply (incr_tail ext s db key None incr None (Some 0) s1 db1 _ _ Rd L Hi); [done|intros n [= <-]; unfold in_i64; unlimit; lia| |].
    + intros r s' Er. unfold incrDecrCommand. step (arg_run _ _ _ H1). step (eq_refl : gets c_db s = Some (c_db s, s)). by step E1.
    + intros t St. unfold incr_spec. rewrite (V0 t St). by rewrite (expires_none _ _ _ _ _ _ (sf_focus _ _ _ _ (sl_focus _ _ _ _ _ _ S1)) Hk).
Qed.

(** INCRBY and DECRBY parse their argument first; DECRBY negates it, which overflows for
    the smallest number. *)
Definition by_spec (w : Z → Z) (key a : text) (negate : bool) (V : smap) : result :=
  match number a with
  | None => (V, [R_notinteger], [], 0)
  | Some n => incr_spec key (if negate then w (- n) else n) V
  end.

Lemma incrby_does ext s db key a (negate : bool) : ready ext s db → argv s !! 1%nat = Some key → argv s !! 2%nat = Some a →
  does ext s db (plainly (if negate then decrbyCommand else incrbyCommand)) (λ _ V, by_spec i64 key a negate V) 1.
Proof.
  intros Rd H1 H2. pose proof (getLongLong_run a R_notinteger s) as E1. unfold by_spec. destruct (number a) as [n|] eqn:En.
  - pose proof (number_range _ _ En) as Hn.
    destruct (incrDecr_does ext s db key (if negate then i64 (- n) else n) Rd H1) as (vals & s' & db' & ans & tch & k & E2 & Rest).
    { destruct negate; [|done]. pose proof (wraps_range 64 (- n)). unfold in_i64. unlimit. lia. }
    exists vals, s', db', ans, tch, k. split; [|exact Rest]. rewrite <-E2. unfold plainly. destruct negate; [unfold decrbyCommand|unfold incrbyCommand];
      rewrite bind_assoc_run; step (arg_run _ _ _ H2); rewrite bind_assoc_run; by step E1.
  - eapply (silent_answers ext [] s s db db _ _ 1 _); [apply silent_refl, Rd| |lia|done]. apply plainly_run.
    destruct negate; [unfold decrbyCommand|unfold incrbyCommand]; step (arg_run _ _ _ H2); by step E1.
Qed.

(** ** Bits *)

Definition bit_offset (a : text) : option Z := n ← number a; if bool_decide (0 ≤ n < 2 ^ 32) then Some n else None.

Lemma bit_offset_range a off : bit_offset a = Some off → 0 ≤ off < 2 ^ 32.
Proof. unfold bit_offset. destruct (number a) as [n|]; [|done]. cbn. case_bool_decide; by intros [= <-]. Qed.

Lemma getBitOffset_run a s : getBitOffset a s = Some (bit_offset a, match bit_offset a with None => add_log s [EvAnswer bit_offset_err] | Some _ => s end).
Proof.
  unfold getBitOffset, bit_offset. step (getLongLong_run a bit_offset_err s). destruct (number a) as [n|] eqn:En; [|done]. cbn [mbind option_bind].
  pose proof (number_range _ _ En) as Hn. rewrite getBitOffsetFromArgument_spec by (unfold in_i64 in Hn; unlimit; lia). by case_bool_decide.
Qed.

Definition setbit_spec (key off_arg on_arg : text) (V : smap) : result :=
  match bit_offset off_arg with
  | None => (V, [bit_offset_err], [], 0)
  | Some off =>
      with_long on_arg (Some bit_err) V (λ on,
        if negb ((on =? 0) || (on =? 1)) then (V, [bit_err], [], 0)
        else
          match V !! key with
          | Some (VOther _, _) => (V, [R_wrongtypeerr], [], 0)
          | v =>
              let '(t, w) := match v with Some (VStr t, w) => (t, w) | _ => ([], None) end in
              let '(t', old) := default (t, 0) (setbit t off on) in
              (<[key := (VStr t', w)]> V, [if negb (old =? 0) then R_cone else R_czero], [key], 1)
          end)
  end.

Lemma not_a_bit on : negb (Z.land on (Z.lnot 1) =? 0) = negb ((on =? 0) || (on =? 1)).
Proof.
  f_equal. change (Z.land on (Z.lnot 1)) with (Z.ldiff on (Z.ones 1)). rewrite Z.ldiff_ones_r, Z.shiftl_mul_pow2, Z.shiftr_div_pow2 by lia. change (2 ^ 1) with 2.
  apply eq_true_iff_eq. rewrite orb_true_iff, !Z.eqb_eq. Z.to_euclidean_division_equations. lia.
Qed.

Lemma setbit_text t off on : text_ok t → 0 ≤ off < 2 ^ 32 → on = 0 ∨ on = 1 → ∃ t' old, setbit t off on = Some (t', old) ∧ text_ok t'.
Proof.
  intros [H1 H2] Ho Hon. destruct (Bitops.setbit_spec t off on H1 Ho Hon) as (t' & E1 & Hb & Hl & _). eexists t', _. split; [done|]. split; [done|].
  rewrite Hl. Z.to_euclidean_division_equations. lia.
Qed.

Ltac setbit_start H1 H2 H3 :=
  apply plainly_run; unfold setbitCommand; rewrite (bind_run _ _ _ _ _ (arg_run _ _ _ H1)), (bind_run _ _ _ _ _ (arg_run _ _ _ H2)), (bind_run _ _ _ _ _ (arg_run _ _ _ H3));
  match goal with |- context [gets c_db ≫= ?f] => match goal with |- _ ?s = _ => rewrite (bind_run (gets c_db) f s (c_db s) s eq_refl) end end.

Lemma setbit_does ext s db c key a b : ready ext s db → argv s = [c; key; a; b] → does ext s db (plainly setbitCommand) (λ _ V, setbit_spec key a b V) 1.
Proof.
  intros Rd Ha. assert (argv s !! 1%nat = Some key ∧ argv s !! 2%nat = Some a ∧ argv s !! 3%nat = Some b) as (H1 & H2 & H3) by by rewrite Ha.
  pose proof (getBitOffset_run a s) as X1. pose proof (getLong_run b (Some bit_err) s) as X2. unfold setbit_spec, with_long.
  destruct (bit_offset a) as [off|] eqn:Ea.
  2: { eapply (silent_answers ext [] s s db db _ _ 1 _); [apply silent_refl, Rd| |lia|done]. setbit_start H1 H2 H3. by step X1. }
  pose proof (bit_offset_range _ _ Ea) as Hoff. destruct (long_number b (Some bit_err)) as [x|on] eqn:Eb.
  { eapply (silent_answers ext [] s s db db _ _ 1 _); [apply silent_refl, Rd| |lia|done]. setbit_start H1 H2 H3. step X1. by step X2. }
  destruct (negb ((on =? 0) || (on =? 1))) eqn:Eon.
  { eapply (silent_answers ext [] s s db db _ _ 1 _); [apply silent_refl, Rd| |lia|done]. setbit_start H1 H2 H3. step X1. step X2. by rewrite not_a_bit, Eon. }
  assert (on = 0 ∨ on = 1) as Hon by (apply negb_false_iff, orb_true_iff in Eon as [?%Z.eqb_eq|?%Z.eqb_eq]; lia).
  destruct (lookupWrite_step ext s (c_db s) db key (rd_focus _ _ _ Rd)) as (v & s1 & db1 & E1 & L). pose proof (looks_up_silent _ _ _ _ _ _ _ _ L) as S1.
  destruct v as [l|].
  - destruct (looks_up_some _ _ _ _ _ _ _ _ L) as (o & Ho & Hk & Hok & V). destruct (Z.eqb_spec (o_type o) REDIS_STRING) as [Ht|Ht].
    2: { eapply (silent_answers ext [] s s1 db db1 _ _ 1 _ S1); [|lia|intros t St; by rewrite (V t St), (other_view _ _ _ Ho Ht)].
      setbit_start H1 H2 H3. step X1. step X2. rewrite not_a_bit, Eon. step E1. rewrite bind_assoc_run. by rewrite (checkType_other _ _ _ _ Ho Ht). }
    destruct (ready_unshared ext s (c_db s) db key l o s1 db1 Rd eq_refl L Ho Ht) as (l' & s2 & db2 & E2 & W2 & T2 & N2 & V2).
    destruct (setbit_text _ off on (writable_ok _ _ _ _ _ _ _ W2) Hoff Hon) as (t' & old & Es & Ht').
    eapply (does_write ext [] s s2 db db2 _ _ 1 "setbit" key l' _ t' _ W2 Ht' T2); [lia| |].
    + intros s3 E3 _. setbit_start H1 H2 H3. step X1. step X2. rewrite not_a_bit, Eon. step E1. rewrite bind_assoc_run, (checkType_string _ _ _ _ Ho Ht), bind_assoc_run.
      step E2. step (eq_refl : (mret (Some l') : M _) s2 = Some (Some l', s2)). step (writable_text _ _ _ _ _ _ _ W2). step (lift_run _ s2 _ Es). step E3. by rewrite touch_run.
    + intros t St. rewrite (V t St), (string_view _ _ _ Ho Ht), Es. cbn [default]. rewrite (V2 t St). erewrite alter_present by (rewrite (V t St), (string_view _ _ _ Ho Ht); done). done.
  - destruct (looks_up_none _ _ _ _ _ _ _ L) as [Hk V0].
    destruct (ready_new ext s (c_db s) db key [] s1 db1 Rd eq_refl L) as (l & s2 & s3 & db3 & E2 & E3 & W3 & T3 & N3 & V3); [by split|].
    destruct (setbit_text _ off on (writable_ok _ _ _ _ _ _ _ W3) Hoff Hon) as (t' & old & Es & Ht').
    eapply (does_write ext [] s s3 db db3 _ _ 1 "setbit" key l [] t' _ W3 Ht' T3); [lia| |].
    + intros s4 E4 _. setbit_start H1 H2 H3. step X1. step X2. rewrite not_a_bit, Eon. step E1. rewrite bind_assoc_run.
      step E2. rewrite bind_assoc_run. step E3. step (eq_refl : (mret (Some l) : M _) s3 = Some (Some l, s3)).
      step (writable_text _ _ _ _ _ _ _ W3). step (lift_run _ s3 _ Es). step E4. by rewrite touch_run.
    + intros t St. rewrite (V0 t St), Es. cbn [default]. rewrite (V3 t St). rewrite (alter_present _ key _ (VStr [], None)) by apply lookup_insert_eq. by rewrite insert_insert_eq.
Qed.

Definition getbit_spec (key a : text) (V : smap) : result :=
  match bit_offset a with
  | None => (V, [bit_offset_err], [], 0)
  | Some off => (V, [reading V key R_czero R_wrongtypeerr (λ t, if bit_of t off then R_cone else R_czero)], [], 0)
  end.

Lemma getbit_does ext s db key a : sfocus ext s (c_db s) db → argv s !! 1%nat = Some key → argv s !! 2%nat = Some a →
  does ext s db (plainly getbitCommand) (λ _ V, getbit_spec key a V) 0.
Proof.
  intros SF H1 H2. pose proof (getBitOffset_run a s) as X1. unfold getbit_spec. destruct (bit_offset a) as [off|] eqn:Ea.
  - pose proof (bit_offset_range _ _ Ea) as Hoff.
    destruct (string_reader ext s db key R_czero (λ l, t ← object_text l; bitval ← lift (getbit t off); addReply (if negb (bitval =? 0) then R_cone else R_czero))
      (λ t, if bit_of t off then R_cone else R_czero) SF) as (x & s1 & db1 & E1 & S1 & V1).
    { intros s1 l o _ Ho Ht Hok. step (object_text_run _ _ _ Ho Ht Hok). step (lift_run _ s1 _ (Bitops.getbit_spec (value_text (o_ptr o)) off ltac:(lia))).
      by destruct (bit_of _ off). }
    eapply reader_does; [|exact S1|].
    + unfold getbitCommand. step (arg_run _ _ _ H1). step (arg_run _ _ _ H2). step X1. exact E1.
    + intros t St. by rewrite (V1 t St).
  - eapply (silent_answers ext [] s s db db _ _ 0 _); [by apply silent_refl| |lia|done]. apply plainly_run. unfold getbitCommand.
    step (arg_run _ _ _ H1). step (arg_run _ _ _ H2). by step X1.
Qed.

Definition bitcount_number (t : text) (range : option (Z * Z)) : Z :=
  Z.of_nat (length (filter (λ n, bit_of t n = true ∧ selected t range n) (seqZ 0 (8 * blen t)))).

(** Two numbers, or the answer for the first argument that is none. *)
Definition two_numbers (a b : text) : answer + Z * Z :=
  match long_number a None with
  | inl x => inl x
  | inr start => match long_number b None with inl x => inl x | inr end_ => inr (start, end_) end
  end.

Lemma parse_range_run a b s : parse_range a b s = Some (match two_numbers a b with inl x => (None, add_log s [EvAnswer x]) | inr r => (Some r, s) end).
Proof.
  unfold parse_range, two_numbers. pose proof (getLong_run a None s) as X1. destruct (long_number a None) as [x|start]; step X1; [done|].
  pose proof (getLong_run b None s) as X2. destruct (long_number b None) as [x|end_]; by step X2.
Qed.

Lemma two_numbers_range a b start end_ : two_numbers a b = inr (start, end_) → in_long start ∧ in_long end_.
Proof.
  unfold two_numbers. destruct (long_number a None) eqn:Ea; [done|]. destruct (long_number b None) eqn:Eb; [done|]. intros [= <- <-].
  split; by eapply long_number_range.
Qed.

Definition bitcount_answer (opts : list text) (t : text) : answer :=
  match opts with
  | [] => R_int (bitcount_number t None)
  | [a; b] => match two_numbers a b with inl x => x | inr range => R_int (bitcount_number t (Some range)) end
  | _ => R_syntaxerr
  end.

Lemma bitcount_run a (t : text) range : text_ok t → match range with Some (x, y) => in_long x ∧ in_long y | None => True end →
  bitcount a t range = Some (bitcount_number t range).
Proof. intros [H1 H2] Hr. apply bitcount_spec; [done|lia|]. destruct range as [[x y]|]; [|done]. unfold in_long in Hr. unlimit. lia. Qed.

Lemma bitcount_does ext s db c key opts : sfocus ext s (c_db s) db → argv s = c :: key :: opts →
  does ext s db (plainly bitcountCommand) (λ _ V, (V, [reading V key R_czero R_wrongtypeerr (bitcount_answer opts)], [], 0)) 0.
Proof.
  intros SF Ha. assert (argv s !! 1%nat = Some key) as H1 by by rewrite Ha.
  destruct (string_reader ext s db key R_czero (λ l, t ← object_text l;
      range ← match c :: key :: opts with
        | [_; _; start_arg; end_arg] => r ← parse_range start_arg end_arg; mret (Some <$> r)
        | [_; _] => mret (Some None)
        | _ => _ ← addReply R_syntaxerr; mret None
        end;
      match range with
      | None => mret tt
      | Some range => n ← lift (bitcount (address l) t range); addReply (R_int n)
      end) (bitcount_answer opts) SF) as (x & s1 & db1 & E1 & S1 & V1).
  { intros s1 l o _ Ho Ht Hok. step (object_text_run _ _ _ Ho Ht Hok). set (t := value_text _). assert (text_ok t) as Htok by by apply value_text_ok, Hok.
    destruct opts as [|a [|b [|? ?]]]; try done.
    - step (eq_refl : (mret (Some None) : M (option (option (Z * Z)))) s1 = Some (Some None, s1)). by step (lift_run _ s1 _ (bitcount_run (address l) t None Htok I)).
    - rewrite bind_assoc_run. pose proof (parse_range_run a b s1) as X1. cbn [bitcount_answer]. destruct (two_numbers a b) as [x|[start end_]] eqn:E2; step X1; [done|].
      pose proof (two_numbers_range _ _ _ _ E2) as Hr. cbn [fmap option_fmap option_map].
      step (eq_refl : (mret (Some (Some (start, end_))) : M _) s1 = Some (Some (Some (start, end_)), s1)).
      by step (lift_run _ s1 _ (bitcount_run (address l) t (Some (start, end_)) Htok Hr)). }
  eapply reader_does; [|exact S1|].
  - unfold bitcountCommand. step (eq_refl : gets argv s = Some (argv s, s)). step (arg_run _ _ _ H1). rewrite Ha. exact E1.
  - intros t St. by rewrite (V1 t St).
Qed.

Definition bitpos_number (t : text) (bit : Z) (range : option (Z * option Z)) : Z := default 0 (bitpos 0 t bit range).

Lemma bitpos_run a (t : text) bit range : text_ok t → bit = 0 ∨ bit = 1 → match range with Some (x, y) => in_long x ∧ in_long (default x y) | None => True end →
  bitpos a t bit range = Some (bitpos_number t bit range).
Proof.
  intros [H1 H2] Hb Hr. destruct (bitpos_address t bit range H1 ltac:(lia) Hb) as [r Hp].
  { destruct range as [[x [y|]]|]; cbn in *; unfold in_long in Hr; [|..|done]; unlimit; lia. }
  unfold bitpos_number. by rewrite !Hp.
Qed.

Definition bitpos_reply (bit : Z) (opts : list text) (t : text) : answer :=
  match opts with
  | [] => R_int (bitpos_number t bit None)
  | [a] => match long_number a None with inl x => x | inr start => R_int (bitpos_number t bit (Some (start, None))) end
  | [a; b] => match two_numbers a b with inl x => x | inr (start, end_) => R_int (bitpos_number t bit (Some (start, Some end_))) end
  | _ => R_syntaxerr
  end.

Definition bitpos_result (key bit_arg : text) (opts : list text) (V : smap) : result :=
  with_long bit_arg None V (λ bit,
    if negb ((bit =? 0) || (bit =? 1)) then (V, [R_error "The bit argument must be 1 or 0."], [], 0)
    else (V, [reading V key (R_int (if negb (bit =? 0) then -1 else 0)) R_wrongtypeerr (bitpos_reply bit opts)], [], 0)).

Lemma bitpos_does ext s db c key a opts : sfocus ext s (c_db s) db → argv s = c :: key :: a :: opts →
  does ext s db (plainly bitposCommand) (λ _ V, bitpos_result key a opts V) 0.
Proof.
  intros SF Ha. assert (argv s !! 1%nat = Some key ∧ argv s !! 2%nat = Some a) as [H1 H2] by by rewrite Ha. unfold bitpos_result, with_long.
  pose proof (getLong_run a None s) as X1. destruct (long_number a None) as [x|bit] eqn:Ea.
  { eapply (silent_answers ext [] s s db db _ _ 0 _); [by apply silent_refl| |lia|done]. apply plainly_run. unfold bitposCommand.
    step (eq_refl : gets argv s = Some (argv s, s)). step (arg_run _ _ _ H1). step (arg_run _ _ _ H2). step (eq_refl : gets c_db s = Some (c_db s, s)). by step X1. }
  destruct (negb ((bit =? 0) || (bit =? 1))) eqn:Eb.
  { eapply (silent_answers ext [] s s db db _ _ 0 _); [by apply silent_refl| |lia|done]. apply plainly_run. unfold bitposCommand.
    step (eq_refl : gets argv s = Some (argv s, s)). step (arg_run _ _ _ H1). step (arg_run _ _ _ H2). step (eq_refl : gets c_db s = Some (c_db s, s)). step X1.
    by rewrite <-negb_orb, Eb. }
  assert (bit = 0 ∨ bit = 1) as Hb by (apply negb_false_iff, orb_true_iff in Eb as [?%Z.eqb_eq|?%Z.eqb_eq]; lia).
  destruct (lookupRead_step ext s (c_db s) db key SF) as (v & s1 & db1 & E1 & L).
  destruct (string_found ext s db key v s1 db1 (R_int (if negb (bit =? 0) then -1 else 0)) (λ l, t ← object_text l;
      range ← match c :: key :: a :: opts with
        | [_; _; _; start_arg] => r ← getLongFromObjectOrReply (Some (Raw start_arg)) None; mret ((λ start, Some (start, None)) <$> r)
        | [_; _; _; start_arg; end_arg] => r ← parse_range start_arg end_arg; mret ((λ '(start, end_), Some (start, Some end_)) <$> r)
        | [_; _; _] => mret (Some None)
        | _ => _ ← addReply R_syntaxerr; mret None
        end;
      match range with
      | None => mret tt
      | Some range => pos ← lift (bitpos (address l) t bit range); addReply (R_int pos)
      end) (bitpos_reply bit opts) L) as (x & E2 & V2).
  { intros l o Ho Ht Hok. step (object_text_run _ _ _ Ho Ht Hok). set (t := value_text _). assert (text_ok t) as Htok by by apply value_text_ok, Hok.
    destruct opts as [|a' [|b [|? ?]]]; try done.
    - step (eq_refl : (mret (Some None) : M (option (option (Z * option Z)))) s1 = Some (Some None, s1)). by step (lift_run _ s1 _ (bitpos_run (address l) t bit None Htok Hb I)).
    - rewrite bind_assoc_run. pose proof (getLong_run a' None s1) as X2. cbn [bitpos_reply]. destruct (long_number a' None) as [x|start] eqn:E2; step X2; [done|].
      pose proof (long_number_range _ _ _ E2) as Hr. cbn [fmap option_fmap option_map].
      step (eq_refl : (mret (Some (Some (start, None))) : M (option (option (Z * option Z)))) s1 = Some (Some (Some (start, None)), s1)).
      by step (lift_run _ s1 _ (bitpos_run (address l) t bit (Some (start, None)) Htok Hb (conj Hr Hr))).
    - rewrite bind_assoc_run. pose proof (parse_range_run a' b s1) as X2. cbn [bitpos_reply]. destruct (two_numbers a' b) as [x|[start end_]] eqn:E2; step X2; [done|].
      pose proof (two_numbers_range _ _ _ _ E2) as Hr. cbn [fmap option_fmap option_map].
      step (eq_refl : (mret (Some (Some (start, Some end_))) : M (option (option (Z * option Z)))) s1 = Some (Some (Some (start, Some end_)), s1)).
      by step (lift_run _ s1 _ (bitpos_run (address l) t bit (Some (start, Some end_)) Htok Hb Hr)). }
  eapply reader_does; [|exact (looks_up_silent _ _ _ _ _ _ _ _ L)|].
  - unfold bitposCommand. step (eq_refl : gets argv s = Some (argv s, s)). step (arg_run _ _ _ H1). step (arg_run _ _ _ H2). step (eq_refl : gets c_db s = Some (c_db s, s)). step X1.
    rewrite <-negb_orb, Eb. step E1. rewrite Ha. exact E2.
  - intros t St. by rewrite (V2 t St).
Qed.

(** ** BITOP *)

(** What the source keys stand for; [None] if one of them holds another type. *)
Fixpoint sources_of (V : smap) (keys : list text) : option (list (option text)) :=
  match keys with
  | [] => Some []
  | key :: keys =>
      match V !! key with
      | Some (VOther _, _) => None
      | v => ts ← sources_of V keys; Some (match v with Some (VStr t, _) => Some t | _ => None end :: ts)
      end
  end.

(** The decoded objects that the command holds. *)
Definition held_text s (l : option loc) (t : option text) : Prop :=
  match l, t with
  | Some l, Some t => ∃ o, objects s !! l = Some o ∧ o_type o = REDIS_STRING ∧ o_ptr o = Raw t
  | None, None => True
  | _, _ => False
  end.

Abbreviation hold ext ls := (bumps ext (omap id (ls : list (option loc)))).

Lemma held_kept ext s s' ls ts : Forall2 (held_text s) ls ts → (∀ x, 0 ≤ ext x) → stays (hold ext ls) s s' → Forall2 (held_text s') ls ts.
Proof.
  intros F He K. assert (∀ l, Some l ∈ ls → 1 ≤ hold ext ls l) as Hin.
  { intros l Hl. apply bumps_in; [done|]. apply list_elem_of_omap. by exists (Some l). }
  revert Hin. generalize (hold ext ls) K. clear K. intros e K. induction F as [|l t ls ts Hlt F IH]; intros Hin; constructor.
  - destruct l as [l|], t as [t|]; try done. destruct Hlt as (o & Ho & Ht & Hp). destruct (K l (Hin l ltac:(by left)) o Ho) as (o' & Ho' & Ht' & Hp').
    exists o'. split_and!; congruence.
  - apply IH. intros x Hx. apply Hin. by right.
Qed.

Lemma hold_snoc ext ls l x : hold ext (ls ++ [Some l]) x = bump (hold ext ls) l 1 x.
Proof. rewrite omap_app. cbn. change (bump (hold ext ls) l 1) with (bumps ext (l :: omap id ls)). apply bumps_perm. by rewrite Permutation_app_comm. Qed.
Lemma hold_bound ext ls x : 0 ≤ ext x → 0 ≤ hold ext ls x ≤ ext x + Z.of_nat (length ls).
Proof. intros He. pose proof (bumps_bound ext (omap id ls) x). assert (length (omap id ls) ≤ length ls)%nat by (clear; induction ls as [|[?|] ls IH]; cbn; lia). lia. Qed.

Lemma release_sources_run ext i db : ∀ (ls : list (option loc)) s, sfocus (hold ext ls) s i db → (∀ x, 0 ≤ ext x) → (∀ v, 0 ≤ v < REDIS_SHARED_INTEGERS → 1 ≤ ext (shared_integers v)) →
  ∃ s', release_sources ls s = Some (tt, s') ∧ sfocus ext s' i db ∧ strace s s' i [] [] 0 ∧ dbs s' = dbs s ∧ ∀ t, sview t s' db = sview t s db.
Proof.
  induction ls as [|[l|] ls IH]; intros s SF He Hsh; cbn [release_sources].
  - exists s. split_and!; try done. apply strace_refl.
  - change (sfocus (bump (hold ext ls) l 1) s i db) in SF. destruct (decr_step (hold ext ls) s i db l SF) as (s1 & E1 & SF1 & T1 & D1 & _ & _ & V1).
    { intros x. apply hold_bound, He. }
    { intros v Hv. pose proof (bumps_bound ext (omap id ls) (shared_integers v)). specialize (Hsh v Hv). lia. }
    step E1. destruct (IH s1 SF1 He Hsh) as (s2 & E2 & SF2 & T2 & D2 & V2). exists s2. split; [done|]. split; [done|].
    split; [exact (strace_trans _ _ _ _ _ _ _ _ _ _ T1 T2)|]. split; [congruence|]. intros t. by rewrite V2, V1.
  - step (eq_refl : (mret tt : M unit) s = Some (tt, s)). by apply IH.
Qed.

(** Lookups of [keys] delete nothing else, and what is left of these keys exists. *)
Definition swept s (db : redisDb) (keys : list text) (db' : redisDb) : Prop :=
  (∀ k, k ∉ keys → keys_of db' !! k = keys_of db !! k) ∧
  ∀ k t, steady clock E t → k ∈ keys → is_Some (keys_of db' !! k) → is_Some (sview t s db !! k).

Lemma swept_nil s db : swept s db [] db.
Proof. split; [done|]. by intros k t _ Hk%not_elem_of_nil. Qed.

Lemma swept_cons ext s i db key v s1 db1 s2 keys db2 : looks_up ext s i db key v s1 db1 → (∀ t, steady clock E t → sview t s2 db1 = sview t s db) →
  swept s2 db1 keys db2 → swept s db (key :: keys) db2.
Proof.
  intros L V [F2 P2]. pose proof L as (_ & _ & _ & _ & Ev & _ & _ & _ & Fr). split.
  - intros k [Hne Hk]%not_elem_of_cons. by rewrite (F2 k Hk), (Fr k Hne).
  - intros k t St Hk Hs. destruct (decide (k ∈ keys)) as [Hin|Hout]; [rewrite <-(V t St); by apply P2|].
    apply elem_of_cons in Hk as [->|Hk]; [|done]. rewrite (F2 key Hout), <-Ev in Hs. by rewrite (looks_up_view _ _ _ _ _ _ _ _ t L St), fmap_is_Some.
Qed.

Lemma source_loop_run ext i : ∀ keys (done : list (option loc)) (ts : list (option text)) s db,
  sfocus (hold ext done) s i db → (∀ x, 0 ≤ ext x ∧ ext x + Z.of_nat (length done) + Z.of_nat (length keys) < 2 ^ 28 - 8) →
  (∀ v, 0 ≤ v < REDIS_SHARED_INTEGERS → 1 ≤ ext (shared_integers v)) → Forall2 (held_text s) done ts →
  ∃ r s' db' ans, source_loop i keys done s = Some (r, s') ∧ strace s s' i ans [] 0 ∧ total (dbs s') ≤ total (dbs s) ∧
    (∀ t, steady clock E t → sview t s' db' = sview t s db) ∧
    match r with
    | Some ls => sfocus (hold ext ls) s' i db' ∧ ans = [] ∧ swept s db keys db' ∧ ∃ ts', Forall2 (held_text s') ls (ts ++ ts') ∧ length ts' = length keys ∧ ∀ t, steady clock E t → sources_of (sview t s db) keys = Some ts'
    | None => sfocus ext s' i db' ∧ ans = [R_wrongtypeerr] ∧ ∀ t, steady clock E t → sources_of (sview t s db) keys = None
    end.
Proof.
  induction keys as [|key keys IH]; intros done ts s db SF R Hsh H; cbn [source_loop].
  { exists (Some done), s, db, []. split; [trivial|]. split; [apply strace_refl|]. split; [lia|]. split; [trivial|]. split; [trivial|]. split; [trivial|].
    split; [apply swept_nil|]. exists []. rewrite app_nil_r. split; [trivial|]. split; [trivial|]. intros; reflexivity. }
  assert (∀ x, 0 ≤ ext x) as He by (intros x; apply R).
  destruct (lookupRead_step _ s i db key SF) as (v & s1 & db1 & E1 & L). step E1. pose proof (looks_up_silent _ _ _ _ _ _ _ _ L) as S1.
  pose proof (held_kept ext s s1 done ts H He (sl_kept _ _ _ _ _ _ S1)) as H1. pose proof (sl_total _ _ _ _ _ _ S1) as N1. cbn [length] in R.
  destruct v as [l|].
  - destruct (looks_up_some _ _ _ _ _ _ _ _ L) as (o & Ho & Hk & Hok & V). destruct (Z.eqb_spec (o_type o) REDIS_STRING) as [Ht|Ht].
    + rewrite (checkType_string _ _ _ _ Ho Ht).
      destruct (decoded_step (hold ext done) s1 i db1 l o (sl_focus _ _ _ _ _ _ S1)) as (d & od & s2 & E2 & SF2 & T2 & D2 & _ & Kp2 & Hod & Htd & Hpd & V2); try trivial.
      { intros x. specialize (R x). pose proof (hold_bound ext done x (He x)). lia. }
      step E2. destruct (IH (done ++ [Some d]) (ts ++ [Some (value_text (o_ptr o))]) s2 db1) as (r & s3 & db3 & ans & E3 & T3 & N3 & V3 & C3).
      * eapply sfocus_ext; [exact SF2|]. intros x. by rewrite hold_snoc.
      * intros x. rewrite length_app. cbn [length]. specialize (R x). lia.
      * trivial.
      * apply Forall2_app; [by eapply held_kept|]. constructor; [|constructor]. exists od. by split_and!.
      * exists r, s3, db3, ans. split; [trivial|].
        split; [exact (strace_trans _ _ _ _ _ _ _ _ _ _ (sl_trace _ _ _ _ _ _ S1) (strace_trans _ _ _ _ _ _ _ _ _ _ T2 T3))|].
        split; [rewrite D2 in N3; lia|]. split; [intros t St; by rewrite (V3 t St), V2, (sl_view _ _ _ _ _ _ S1 t St)|].
        assert (∀ t, steady clock E t → sources_of (sview t s db) (key :: keys) = ts ← sources_of (sview t s2 db1) keys; Some (Some (value_text (o_ptr o)) :: ts)) as Hs.
        { intros t St. cbn [sources_of]. rewrite (V t St), (string_view _ _ _ Ho Ht). by rewrite V2, (sl_view _ _ _ _ _ _ S1 t St). }
        destruct r as [ls|].
        -- destruct C3 as (SF3 & -> & W3 & ts' & H3 & L3 & Hs3). split; [trivial|]. split; [trivial|].
           split; [refine (swept_cons _ _ _ _ _ _ _ _ s2 _ _ L _ W3); intros t St; by rewrite V2, (sl_view _ _ _ _ _ _ S1 t St)|]. exists (Some (value_text (o_ptr o)) :: ts'). rewrite <-app_assoc in H3.
           split; [exact H3|]. split; [cbn; by rewrite L3|]. intros t St. by rewrite (Hs t St), (Hs3 t St).
        -- destruct C3 as (SF3 & -> & Hs3). split; [trivial|]. split; [trivial|]. intros t St. by rewrite (Hs t St), (Hs3 t St).
    + rewrite (checkType_other _ _ _ _ Ho Ht). set (s2 := add_log s1 [EvAnswer R_wrongtypeerr]). cbv iota.
      assert (sfocus (hold ext (reverse done)) s2 i db1) as SF2.
      { eapply sfocus_ext; [apply sfocus_log, S1|]. intros x. apply bumps_perm. apply omap_Permutation. by rewrite reverse_Permutation. }
      destruct (release_sources_run ext i db1 (reverse done) s2 SF2 He Hsh) as (s3 & E3 & SF3 & T3 & D3 & V3). step E3.
      exists None, s3, db1, [R_wrongtypeerr]. split; [trivial|].
      split; [exact (strace_trans _ _ _ _ _ _ _ _ _ _ (strace_log _ _ _ _ _ _ [EvAnswer R_wrongtypeerr] (sl_trace _ _ _ _ _ _ S1)) T3)|].
      split; [rewrite D3; exact N1|]. split; [intros t St; rewrite V3; apply (sl_view _ _ _ _ _ _ S1 t St)|]. split; [trivial|]. split; [trivial|].
      intros t St. cbn [sources_of]. by rewrite (V t St), (other_view _ _ _ Ho Ht).
  - destruct (looks_up_none _ _ _ _ _ _ _ L) as [Hk V0].
    destruct (IH (done ++ [None]) (ts ++ [None]) s1 db1) as (r & s3 & db3 & ans & E3 & T3 & N3 & V3 & C3).
    + rewrite omap_app. cbn. rewrite app_nil_r. apply S1.
    + intros x. rewrite length_app. cbn [length]. specialize (R x). lia.
    + trivial.
    + apply Forall2_app; [trivial|]. by constructor.
    + exists r, s3, db3, ans. split; [trivial|]. split; [exact (strace_trans _ _ _ _ _ _ _ _ _ _ (sl_trace _ _ _ _ _ _ S1) T3)|].
      split; [lia|]. split; [intros t St; by rewrite (V3 t St), (sl_view _ _ _ _ _ _ S1 t St)|].
      assert (∀ t, steady clock E t → sources_of (sview t s db) (key :: keys) = ts ← sources_of (sview t s1 db1) keys; Some (None :: ts)) as Hs.
      { intros t St. cbn [sources_of]. rewrite (V0 t St). by rewrite (sl_view _ _ _ _ _ _ S1 t St). }
      destruct r as [ls|].
      * destruct C3 as (SF3 & -> & W3 & ts' & H3 & L3 & Hs3). split; [trivial|]. split; [trivial|].
        split; [exact (swept_cons _ _ _ _ _ _ _ _ s1 _ _ L (sl_view _ _ _ _ _ _ S1) W3)|]. exists (None :: ts'). rewrite <-app_assoc in H3.
        split; [exact H3|]. split; [cbn; by rewrite L3|]. intros t St. by rewrite (Hs t St), (Hs3 t St).
      * destruct C3 as (SF3 & -> & Hs3). split; [trivial|]. split; [trivial|]. intros t St. by rewrite (Hs t St), (Hs3 t St).
Qed.

Lemma held_text_text s l t : held_text s (Some l) (Some t) → text_ok t → object_text l s = Some (t, s).
Proof.
  intros (o & Ho & Ht & Hp) Hok. pose proof (object_text_run l o s Ho Ht) as E1. rewrite Hp in E1. apply E1. intros _. by rewrite Hp.
Qed.

Definition some_text_ok (t : option text) : Prop := match t with Some t => text_ok t | None => True end.

Lemma held_texts_ok ext s i db ls ts : sfocus ext s i db → Forall2 (held_text s) ls ts → Forall some_text_ok ts.
Proof.
  intros SF H. induction H as [|l t ls ts Hlt H IH]; constructor; [|done]. destruct l as [l|], t as [t|]; try done.
  destruct Hlt as (o & Ho & Ht & Hp). pose proof (sf_objects _ _ _ _ SF l o Ho Ht) as Hok. by rewrite Hp in Hok.
Qed.

Lemma source_texts_run s ls ts : Forall2 (held_text s) ls ts → Forall some_text_ok ts → source_texts ls s = Some (ts, s).
Proof.
  induction 1 as [|l t ls ts Hlt H IH]; intros Hok; cbn [source_texts]; [done|]. apply Forall_cons in Hok as [Ht Hok]. specialize (IH Hok).
  destruct l as [l|], t as [t|]; try done.
  - rewrite bind_assoc_run. step (held_text_text _ _ _ Hlt Ht).
    step (eq_refl : (mret (Some t) : M (option text)) s = Some (Some t, s)). by step IH.
  - step (eq_refl : (mret None : M (option text)) s = Some (None, s)). by step IH.
Qed.

Lemma texts_sources_ok ts : Forall some_text_ok ts → Forall source_ok (sources ts).
Proof.
  intros H. apply Forall_fmap. eapply Forall_impl; [exact H|]. intros [t|] Ht; [|split; [by constructor|by vm_compute]].
  destruct Ht as [H1 H2]. split; [done|cbn]. lia.
Qed.

Lemma max_len_bound ts : Forall some_text_ok ts → max_len (sources ts) ≤ 2 ^ 29.
Proof.
  induction 1 as [|t ts Ht H IH]; [by vm_compute|]. rewrite sources_cons, max_len_cons. destruct t as [t|]; [destruct Ht as [_ Ht]; cbn; lia|].
  change (blen (default [] (None : option text))) with 0. lia.
Qed.

(** A target that is in the table at the start of the command and is not looked up is
    still there to be deleted, which is signalled even if it has expired, so that nobody
    can see it any more. *)
Definition late_target (db : redisDb) (target : text) (keys : list text) : bool :=
  bool_decide (is_Some (keys_of db !! target)) && negb (bool_decide (target ∈ keys)).

(** The keys that are signalled by BITOP without a result, for the tables before and after
    the lookups of the sources. *)
Lemma late_target_found s db db1 target keys s1 t : swept s db keys db1 → steady clock E t → sview t s1 db1 = sview t s db →
  bool_decide (is_Some (keys_of db1 !! target)) = bool_decide (is_Some (sview t s db !! target)) || late_target db target keys.
Proof.
  intros [Fr P] St V. assert (is_Some (sview t s db !! target) → is_Some (keys_of db1 !! target)) as Hv.
  { rewrite <-V. unfold sview. rewrite lookup_fmap, lookup_lview. intros [x Hx]. destruct (keys_of db1 !! target); [eauto|done]. }
  unfold late_target. destruct (decide (target ∈ keys)) as [Hin|Hout].
  - rewrite (bool_decide_eq_true_2 (target ∈ keys)), andb_false_r, orb_false_r by done. apply bool_decide_ext. split; [by apply P|done].
  - rewrite (bool_decide_eq_false_2 (target ∈ keys)), andb_true_r, <-(Fr _ Hout) by done.
    destruct (bool_decide (is_Some (keys_of db1 !! target))) eqn:E1; [by rewrite orb_true_r|]. apply bool_decide_eq_false in E1.
    rewrite bool_decide_eq_false_2; [done|]. by intros Hs%Hv.
Qed.

(** [late] is [late_target] of the table at the start. *)
Definition bitop_result (late : bool) (opname target : text) (keys : list text) (V : smap) : result :=
  match bitop_of opname with
  | None => (V, [R_syntaxerr], [], 0)
  | Some op =>
      if (op =? BITOP_NOT) && negb (Z.of_nat (length keys) =? 1) then (V, [R_error "BITOP NOT must be called with a single source key."], [], 0)
      else
        match sources_of V keys with
        | None => (V, [R_wrongtypeerr], [], 0)
        | Some objects =>
            match default None (bitop op objects) with
            | Some res => (<[target := (VStr res, None)]> V, [R_int (blen res)], [target], 1)
            | None => (delete target V, [R_int 0], if bool_decide (is_Some (V !! target)) || late then [target] else [], 1)
            end
        end
  end.

Lemma bitop_of_range opname op : bitop_of opname = Some op → 0 ≤ op ≤ 3.
Proof. unfold bitop_of, BITOP_AND, BITOP_OR, BITOP_XOR, BITOP_NOT. intros H. repeat case_match; simplify_eq; lia. Qed.

(** The store, or the deletion, at the end. *)
Lemma bitop_stores ext s i db target res : sfocus ext s i db → i = c_db s → (∀ x, 0 ≤ ext x < 2 ^ 28 - 8) → (∀ v, 0 ≤ v < REDIS_SHARED_INTEGERS → 1 ≤ ext (shared_integers v)) →
  total (dbs s) < 2 ^ 28 - 1 → text_ok res →
  ∃ s' db', (o ← createStringObject res; _ ← setKey seed clock junk_val E i target o; _ ← notify REDIS_NOTIFY_STRING "set" target; _ ← decrRefCount o; mret (blen res)) s
      = Some (blen res, s') ∧ sfocus ext s' i db' ∧ strace s s' i [] [(i, target)] 0 ∧ total (dbs s') ≤ total (dbs s) + 1 ∧
    ∀ t, steady clock E t → sview t s' db' = <[target := (VStr res, None)]> (sview t s db).
Proof.
  intros SF -> R Hsh Ht Hok. assert (roomy ext) as R0 by (intros x; specialize (R x); lia). assert (∀ x, 0 ≤ ext x) as R2 by (intros x; apply R).
  destruct (create_step ext s (c_db s) db REDIS_STRING (Raw res) SF R0 (λ _, Hok)) as (l & s1 & E1 & SF1 & T1 & D1 & _ & _ & _ & O1 & V1).
  unfold createStringObject. step E1.
  destruct (setKey_step ext s1 (c_db s) db target l SF1 R0 R2 Hsh) as (s2 & db2 & E2 & SF2 & T2 & N2 & _ & _ & V2); [by rewrite D1|]. step E2.
  set (s3 := add_log s2 [EvNotify REDIS_NOTIFY_STRING "set" target (c_db s2)]). step (eq_refl : notify REDIS_NOTIFY_STRING "set" target s2 = Some (tt, s3)).
  destruct (decr_step ext s3 (c_db s) db2 l (sfocus_log _ _ _ _ _ SF2) R2 Hsh) as (s4 & E4 & SF4 & T4 & D4 & _ & _ & V4). step E4.
  exists s4, db2. split; [trivial|]. split; [trivial|].
  split; [exact (strace_trans _ _ _ _ _ _ _ _ _ _ T1 (strace_trans _ _ _ _ _ _ _ _ _ _ (strace_log _ _ _ _ _ _ [EvNotify _ _ _ _] T2) T4))|].
  split; [rewrite D4; change (total (dbs s3)) with (total (dbs s2)); rewrite D1 in N2; lia|].
  intros t St. rewrite V4. change (sview t s3 db2) with (sview t s2 db2).
  assert (objects s1 !! l = Some (Robj REDIS_STRING (lruclock E) 1 (Raw res))) as Ho1 by (by rewrite O1, lookup_insert_eq).
  by rewrite (V2 t St), V1, (content_string _ _ _ Ho1 eq_refl).
Qed.

Lemma bitop_deletes ext s i db target : sfocus ext s i db → i = c_db s →
  ∃ s' db', (r ← dbDelete seed i target; if negb (r =? 0) then _ ← signalModifiedKey i target; _ ← notify REDIS_NOTIFY_GENERIC "del" target; mret 0 else mret 0) s = Some (0, s') ∧
    sfocus ext s' i db' ∧ strace s s' i [] (if bool_decide (is_Some (keys_of db !! target)) then [(i, target)] else []) 0 ∧ total (dbs s') ≤ total (dbs s) ∧
    ∀ t, sview t s' db' = delete target (sview t s db).
Proof.
  intros SF ->. destruct (dbDelete_spec seed 0 id seed_ok ext s (c_db s) db target (sf_focus _ _ _ _ SF)) as (s1 & db1 & E1 & F1 & T1 & D1 & _). step E1.
  destruct (trace_step ext ext s s1 (c_db s) db db1 [] [] 0 SF F1 (λ v, sf_shared_ext _ _ _ _ v SF) T1) as (SF1 & T1' & V1).
  assert (total (dbs s1) ≤ total (dbs s)) as N1.
  { rewrite (tr_dbs _ _ _ _ _ _ _ T1), (total_insert _ _ _ _ (proj2 (fc_at _ _ _ _ _ (sf_focus _ _ _ _ SF)))), (db_drop_keys _ _ _ _ D1).
    pose proof (map_subseteq_size _ _ (delete_subseteq (keys_of db) target)). lia. }
  assert (∀ t, sview t s1 db1 = delete target (sview t s db)) as V1' by (intros t; rewrite V1, (lview_drop _ _ _ _ _ _ D1); by rewrite fmap_delete).
  destruct (decide (is_Some (keys_of db !! target))) as [Hk|Hk].
  - rewrite bool_decide_eq_true_2 by trivial. cbn [Z.eqb negb]. set (evs := [EvTouch (c_db s) target; EvNotify REDIS_NOTIFY_GENERIC "del" target (c_db s1)]).
    exists (add_log s1 evs), db1. split; [|split; [by apply sfocus_log|split; [exact (strace_log _ _ _ _ _ _ evs T1')|split; [exact N1|exact V1']]]].
    unfold signalModifiedKey. step (emit_run (EvTouch (c_db s) target) s1). set (s2 := add_log s1 [EvTouch (c_db s) target]).
    step (eq_refl : notify REDIS_NOTIFY_GENERIC "del" target s2 = Some (tt, add_log s2 [EvNotify REDIS_NOTIFY_GENERIC "del" target (c_db s1)])).
    unfold s2, evs, add_log, mret, M_ret. cbn. by rewrite <-app_assoc.
  - rewrite bool_decide_eq_false_2 by trivial. exists s1, db1. split; [trivial|]. by split_and!.
Qed.

Lemma bitop_does ext s db c opname target keys : ready ext s db → (∀ x, ext x + Z.of_nat (length keys) < 2 ^ 28 - 8) →
  argv s = c :: opname :: target :: keys → keys ≠ [] →
  does ext s db (plainly bitopCommand) (λ _ V, bitop_result (late_target db target keys) opname target keys V) 1.
Proof.
  intros Rd Rk Ha Hne. assert (argv s !! 1%nat = Some opname ∧ argv s !! 2%nat = Some target) as [H1 H2] by by rewrite Ha.
  pose proof Rd as [SF R Sh Tt]. unfold bitop_result.
  destruct (bitop_of opname) as [op|] eqn:Eop.
  2: { eapply (silent_answers ext [] s s db db _ _ 1 _); [by apply silent_refl| |lia|done]. apply plainly_run. unfold bitopCommand.
    step (eq_refl : gets argv s = Some (argv s, s)). step (arg_run _ _ _ H1). step (arg_run _ _ _ H2). step (eq_refl : gets c_db s = Some (c_db s, s)). by rewrite Eop. }
  assert ((Z.of_nat (length (argv s)) =? 4) = (Z.of_nat (length keys) =? 1)) as El.
  { rewrite Ha. cbn [length]. destruct (Z.eqb_spec (Z.of_nat (length keys)) 1); [apply Z.eqb_eq|apply Z.eqb_neq]; lia. }
  destruct ((op =? BITOP_NOT) && negb (Z.of_nat (length keys) =? 1)) eqn:En.
  { eapply (silent_answers ext [] s s db db _ _ 1 _); [by apply silent_refl| |lia|done]. apply plainly_run. unfold bitopCommand.
    step (eq_refl : gets argv s = Some (argv s, s)). step (arg_run _ _ _ H1). step (arg_run _ _ _ H2). step (eq_refl : gets c_db s = Some (c_db s, s)). by rewrite Eop, El, En. }
  destruct (source_loop_run ext (c_db s) keys [] [] s db SF) as (r & s1 & db1 & ans & E1 & T1 & N1 & V1 & C1); [|done|constructor|].
  { intros x. specialize (R x). specialize (Rk x). cbn [length]. lia. }
  pose proof (st_c_db _ _ _ _ _ _ T1) as Hc1.
  destruct r as [ls|].
  2: { destruct C1 as (SF1 & -> & Hs). exists [], s1, db1, [R_wrongtypeerr], [], 0. split; [|split; [done|split; [done|split; [lia|]]]].
    - apply plainly_run. unfold bitopCommand. step (eq_refl : gets argv s = Some (argv s, s)). step (arg_run _ _ _ H1). step (arg_run _ _ _ H2).
      step (eq_refl : gets c_db s = Some (c_db s, s)). rewrite Eop, El, En. rewrite Ha. cbn [drop]. by step E1.
    - intros t St. rewrite (Hs t St). by rewrite (V1 t St). }
  destruct C1 as (SF1 & -> & W1 & ts & Hh & Lts & Hs). cbn [app] in Hh. pose proof (held_texts_ok _ _ _ _ _ _ SF1 Hh) as Hok.
  destruct (bitop_spec op ts) as (res & Eb & Hres); [by eapply bitop_of_range| |by apply texts_sources_ok|].
  { intros ->. by destruct keys. }
  destruct (release_sources_run ext (c_db s) db1 ls s1 SF1) as (s2 & E2 & SF2 & T2 & D2 & V2); [intros x; apply R|done|].
  pose proof (st_c_db _ _ _ _ _ _ T2) as Hc2. rewrite Hc1 in Hc2.
  assert (∀ s3 n, match res with
      | Some res => o ← createStringObject res; _ ← setKey seed clock junk_val E (c_db s) target o; _ ← notify REDIS_NOTIFY_STRING "set" target; _ ← decrRefCount o; mret (blen res)
      | None => r ← dbDelete seed (c_db s) target;
          if negb (r =? 0) then _ ← signalModifiedKey (c_db s) target; _ ← notify REDIS_NOTIFY_GENERIC "del" target; mret 0 else mret 0
      end s2 = Some (n, s3) → bitopCommand s = Some (tt, add_log (with_dirty s3 (i64 (dirty s3 + 1))) [EvAnswer (R_int n)])) as Hrun.
  { intros s3 n E3. unfold bitopCommand. step (eq_refl : gets argv s = Some (argv s, s)). step (arg_run _ _ _ H1). step (arg_run _ _ _ H2).
    step (eq_refl : gets c_db s = Some (c_db s, s)). rewrite Eop, El, En. rewrite Ha. cbn [drop]. step E1. step (source_texts_run _ _ _ Hh Hok).
    step (lift_run _ s1 _ Eb). step E2. by step E3. }
  pose proof (strace_trans _ _ _ _ _ _ _ _ _ _ T1 T2) as T12. cbn [app Z.add] in T12.
  assert (∀ tch s3 db3 n, strace s2 s3 (c_db s) [] ((λ key, (c_db s, key)) <$> tch) 0 → sfocus ext s3 (c_db s) db3 → total (dbs s3) ≤ total (dbs s2) + 1 →
    bitopCommand s = Some (tt, add_log (with_dirty s3 (i64 (dirty s3 + 1))) [EvAnswer (R_int n)]) →
    ∀ sp : Z → smap → result, (∀ t, steady clock E t → sp t (sview t s db) = (sview t s3 db3, [R_int n], tch, 1)) → does ext s db (plainly bitopCommand) sp 1) as Hend.
  { intros tch s3 db3 n T3 SF3 N3 Em sp Hsp. exists [], (add_log (with_dirty s3 (i64 (dirty s3 + 1))) [EvAnswer (R_int n)]), db3, [R_int n], tch, 1.
    split; [by apply plainly_run|]. split; [by apply sfocus_log, sfocus_dirty|].
    split; [|split; [change (total (dbs s3) ≤ total (dbs s) + 1); rewrite D2 in N3; lia|exact Hsp]].
    exact (strace_quiet _ _ _ _ _ _ [EvAnswer (R_int n)] (strace_dirty _ _ _ _ _ _ 1 (strace_trans _ _ _ _ _ _ _ _ _ _ T12 T3)) eq_refl). }
  destruct res as [res|].
  - destruct Hres as (_ & Hl & Hb & _). pose proof (max_len_bound ts Hok) as Hmax.
    destruct (bitop_stores ext s2 (c_db s) db1 target res SF2) as (s3 & db3 & E3 & SF3 & T3 & N3 & V3); [by rewrite Hc2|done|done|rewrite D2; lia|split; [done|lia]|].
    apply (Hend [target] s3 db3 (blen res) T3 SF3 N3 (Hrun _ _ E3)). intros t St. rewrite (Hs t St), Eb. cbn [default]. by rewrite (V3 t St), V2, (V1 t St).
  - destruct (bitop_deletes ext s2 (c_db s) db1 target SF2) as (s3 & db3 & E3 & SF3 & T3 & N3 & V3); [by rewrite Hc2|].
    apply (Hend (if bool_decide (is_Some (keys_of db1 !! target)) then [target] else []) s3 db3 0); [by destruct (bool_decide _)|done|lia|by apply Hrun|].
    intros t St. rewrite (Hs t St), Eb. cbn [default]. by rewrite V3, V2, (V1 t St), (late_target_found s db db1 target keys s1 t W1 St (V1 t St)).
Qed.

(** ** A client's command *)

(** The values are the arguments that may become values of keys; a last key of
    MSET without a value makes a request with an even number of arguments. *)
Inductive scmd :=
| SSet (key txt : text) (opts : list text)
| SSetnx (key txt : text)
| SSetex (ms : bool) (key expire txt : text)
| SGet (key : text)
| SGetset (key txt : text)
| SMget (keys : list text)
| SMset (nx : bool) (keys txts : list text)
| SSetrange (key offset value : text)
| SGetrange (key start end_ : text)
| SIncr (down : bool) (key : text)
| SIncrby (negate : bool) (key incr : text)
| SAppend (key txt : text)
| SStrlen (key : text)
| SSetbit (key offset on : text)
| SGetbit (key offset : text)
| SBitcount (key : text) (opts : list text)
| SBitpos (key bit : text) (opts : list text)
| SBitop (opname target : text) (keys : list text).

(** Keys and their values by turns. *)
Fixpoint interleave (keys txts : list text) : list text :=
  match keys, txts with
  | key :: keys, txt :: txts => key :: txt :: interleave keys txts
  | [], txts => txts
  | keys, [] => keys
  end.

Lemma interleave_spec (P : text → Prop) keys : ∀ txts, length (interleave keys txts) = (length keys + length txts)%nat ∧ (Forall P (interleave keys txts) → Forall P txts).
Proof.
  induction keys as [|key keys IH]; intros [|txt txts]; cbn [interleave length]; [done|done|split; [lia|by constructor]|].
  destruct (IH txts) as [Hl Hf]. split; [lia|]. intros H. apply Forall_cons in H as [_ H]. apply Forall_cons in H as [Ht H]. constructor; auto.
Qed.

(** The argument vector, and the arguments among it that are objects here. *)
Definition sargv (c : scmd) : list text :=
  match c with
  | SSet key txt opts => [] :: key :: txt :: opts
  | SSetnx key txt | SGetset key txt | SAppend key txt => [[]; key; txt]
  | SSetex _ key expire txt => [[]; key; expire; txt]
  | SGet key | SIncr _ key | SStrlen key => [[]; key]
  | SMget keys => [] :: keys
  | SMset _ keys txts => [] :: interleave keys txts
  | SSetrange key a b | SGetrange key a b | SSetbit key a b => [[]; key; a; b]
  | SIncrby _ key a | SGetbit key a => [[]; key; a]
  | SBitcount key opts => [] :: key :: opts
  | SBitpos key bit opts => [] :: key :: bit :: opts
  | SBitop opname target keys => [] :: opname :: target :: keys
  end.

Definition svals (c : scmd) : list text :=
  match c with
  | SSet _ txt _ | SSetnx _ txt | SSetex _ _ _ txt | SGetset _ txt | SAppend _ txt => [txt]
  | SMset _ _ txts => txts
  | _ => []
  end.

Definition command (c : scmd) (vals : list loc) : M (list loc) :=
  match c, vals with
  | SSet _ _ _, [val] => holding (setCommand val)
  | SSetnx _ _, [val] => holding (setnxCommand val)
  | SSetex ms _ _ _, [val] => holding ((if ms then psetexCommand else setexCommand) val)
  | SGet _, [] => plainly getCommand
  | SGetset _ _, [val] => holding (getsetCommand val)
  | SMget _, [] => plainly mgetCommand
  | SMset nx keys _, vals => msetGenericCommand nx keys vals
  | SSetrange _ _ _, [] => plainly setrangeCommand
  | SGetrange _ _ _, [] => plainly getrangeCommand
  | SIncr down _, [] => plainly (if down then decrCommand else incrCommand)
  | SIncrby negate _ _, [] => plainly (if negate then decrbyCommand else incrbyCommand)
  | SAppend _ _, [val] => holding (appendCommand val)
  | SStrlen _, [] => plainly strlenCommand
  | SSetbit _ _ _, [] => plainly setbitCommand
  | SGetbit _ _, [] => plainly getbitCommand
  | SBitcount _ _, [] => plainly bitcountCommand
  | SBitpos _ _ _, [] => plainly bitposCommand
  | SBitop _ _ _, [] => plainly bitopCommand
  | _, _ => lift None
  end.

Fixpoint create_args (ts : list text) : M (list loc) :=
  match ts with
  | [] => mret []
  | t :: ts => l ← createStringObject t; ls ← create_args ts; mret (l :: ls)
  end.

Fixpoint free_args (ls : list loc) : M unit :=
  match ls with
  | [] => mret tt
  | l :: ls => _ ← decrRefCount l; free_args ls
  end.

(** The command arrives, runs, and its argument vector is freed. *)
Definition run_scmd (c : scmd) : M unit :=
  _ ← modify (λ s, with_argv s (sargv c));
  vals ← create_args (svals c);
  vals ← command c vals;
  free_args vals.

(** What a command does to the map of the keys that exist at the time [t]. With the
    numbers of the integers, [w] is the identity; the code has [i64]. *)
Definition sspec (w : Z → Z) (late : bool) (t : Z) (c : scmd) (V : smap) : result :=
  match c with
  | SSet key txt opts =>
      match set_options opts REDIS_SET_NO_FLAGS None UNIT_SECONDS with
      | None => (V, [R_syntaxerr], [], 0)
      | Some (flags, expire, unit_) => set_generic_spec w t flags key txt expire unit_ None None V
      end
  | SSetnx key txt => set_generic_spec w t REDIS_SET_NX key txt None 0 (Some R_cone) (Some R_czero) V
  | SSetex ms key expire txt => set_generic_spec w t REDIS_SET_NO_FLAGS key txt (Some expire) (if ms then UNIT_MILLISECONDS else UNIT_SECONDS) None None V
  | SGet key => (V, [reading V key R_nullbulk R_wrongtypeerr R_bulk], [], 0)
  | SGetset key txt => getset_spec key txt V
  | SMget keys => (V, R_multibulklen (Z.of_nat (length keys)) :: ((λ key, reading V key R_nullbulk R_nullbulk R_bulk) <$> keys), [], 0)
  | SMset nx keys txts => mset_spec nx keys txts V
  | SSetrange key offset value => setrange_spec key offset value V
  | SGetrange key start end_ => getrange_spec key start end_ V
  | SIncr down key => incr_spec key (if down then -1 else 1) V
  | SIncrby negate key incr => by_spec w key incr negate V
  | SAppend key txt => append_spec key txt V
  | SStrlen key => (V, [reading V key R_czero R_wrongtypeerr (λ t, R_int (blen t))], [], 0)
  | SSetbit key offset on => setbit_spec key offset on V
  | SGetbit key offset => getbit_spec key offset V
  | SBitcount key opts => (V, [reading V key R_czero R_wrongtypeerr (bitcount_answer opts)], [], 0)
  | SBitpos key bit opts => bitpos_result key bit opts V
  | SBitop opname target keys => bitop_result late opname target keys V
  end.

(** BITOP has a source (the command table asks for it), and the values of MSET belong to
    its keys; the last key may have none. *)
Definition shape_ok (c : scmd) : Prop :=
  match c with
  | SBitop _ _ keys => keys ≠ []
  | SMset _ keys txts => (length txts ≤ length keys ≤ S (length txts))%nat
  | _ => True
  end.

(** The arithmetic that the code does without a test: the expire time of SET, SETEX and
    PSETEX fits in 64 bits, and DECRBY does not get the smallest number. *)
Definition expire_fits (t : Z) (expire : option text) (unit_ : Z) : bool :=
  match expire with
  | None => true
  | Some e =>
      match number e with
      | None => true
      | Some n => let ms := if unit_ =? UNIT_SECONDS then n * 1000 else n in (n <=? 0) || (ms <=? LLONG_MAX) && (LLONG_MIN <=? t + ms) && (t + ms <=? LLONG_MAX)
      end
  end.

Definition fits (t : Z) (c : scmd) : bool :=
  match c with
  | SSet _ _ opts => match set_options opts REDIS_SET_NO_FLAGS None UNIT_SECONDS with Some (_, expire, unit_) => expire_fits t expire unit_ | None => true end
  | SSetex ms _ expire _ => expire_fits t (Some expire) (if ms then UNIT_MILLISECONDS else UNIT_SECONDS)
  | SIncrby true _ incr => negb (bool_decide (number incr = Some LLONG_MIN))
  | _ => true
  end.

(** Arguments have at most 512 MB. *)
Definition scmd_ok (t : Z) (c : scmd) : Prop := Forall text_ok (sargv c) ∧ shape_ok c ∧ fits t c = true.

Lemma set_generic_exact (t flags : Z) (key txt : text) (expire : option text) (unit_ : Z) (ok_reply abort_reply : option answer) (V : smap) : expire_fits t expire unit_ = true →
  set_generic_spec i64 t flags key txt expire unit_ ok_reply abort_reply V = set_generic_spec (λ n, n) t flags key txt expire unit_ ok_reply abort_reply V.
Proof.
  unfold expire_fits, set_generic_spec. destruct expire as [e|]; [|done]. destruct (number e) as [n|] eqn:En; [|done].
  destruct (Z.leb_spec n 0) as [|Hn]; [done|]. cbn [orb]. cbv zeta. intros [[Hm%Z.leb_le Hl%Z.leb_le]%andb_true_iff Hu%Z.leb_le]%andb_true_iff.
  assert ((if unit_ =? UNIT_SECONDS then i64 (n * 1000) else n) = (if unit_ =? UNIT_SECONDS then n * 1000 else n)) as ->.
  { destruct (unit_ =? UNIT_SECONDS); [|done]. apply wraps_small; unlimit; lia. }
  revert Hm Hl Hu. generalize (if unit_ =? UNIT_SECONDS then n * 1000 else n). intros ms Hm Hl Hu.
  unfold set_spec. cbn [fmap option_fmap option_map]. by rewrite (wraps_small 64 (t + ms)) by (unlimit; lia).
Qed.

Lemma sspec_exact (late : bool) (t : Z) (c : scmd) (V : smap) : fits t c = true → sspec i64 late t c V = sspec (λ n, n) late t c V.
Proof.
  destruct c; cbn [fits sspec]; intros Hf; try done.
  - destruct (set_options _ _ _ _) as [[[flags expire] unit_]|]; [|done]. by apply set_generic_exact.
  - by apply set_generic_exact.
  - unfold by_spec. destruct (number incr) as [n|] eqn:En; [|done]. destruct negate; [|done]. apply negb_true_iff, bool_decide_eq_false in Hf.
    pose proof (number_range _ _ En) as Hn. assert (n ≠ LLONG_MIN) by congruence. rewrite (wraps_small 64 (- n)) by (unfold in_i64 in Hn; unlimit; lia). done.
Qed.

(** What [late] is for a command: see BITOP. *)
Definition late_of (db : redisDb) (c : scmd) : bool :=
  match c with SBitop _ target keys => late_target db target keys | _ => false end.
Definition weight (c : scmd) : Z := Z.of_nat (length (sargv c)).

Lemma create_args_run i db : ∀ (ts : list text) (ext : loc → Z) s, sfocus ext s i db → (∀ x, ext x + Z.of_nat (length ts) < 2 ^ 28 - 8) → Forall text_ok ts →
  ∃ (ls : list loc) s', create_args ts s = Some (ls, s') ∧ length ls = length ts ∧ sfocus (bumps ext ls) s' i db ∧ strace s s' i [] [] 0 ∧ dbs s' = dbs s ∧ argv s' = argv s ∧
    stays ext s s' ∧ raws s' ls ts ∧ ∀ t, sview t s' db = sview t s db.
Proof.
  induction ts as [|t ts IH]; intros ext s SF R Hok; cbn [create_args].
  { exists [], s. split_and!; try done; [apply strace_refl|apply stays_refl|constructor]. }
  apply Forall_cons in Hok as [Ht Hok]. cbn [length] in R.
  destruct (create_step ext s i db REDIS_STRING (Raw t) SF) as (l & s1 & E1 & SF1 & T1 & D1 & A1 & Hn & He & O1 & V1); [intros x; specialize (R x); lia|by intros _|].
  destruct (IH (bump ext l 1) s1 SF1) as (ls & s2 & E2 & L2 & SF2 & T2 & D2 & A2 & Kp2 & R2 & V2); [intros x; specialize (R x); unfold bump; destruct (decide (x = l)); lia|done|].
  assert (∀ x, ext x ≤ bump ext l 1 x) as Hle by (intros x; apply bump_le; lia).
  exists (l :: ls), s2. split; [unfold createStringObject; step E1; by step E2|]. split; [cbn; by rewrite L2|]. split; [|split; [|split; [congruence|split; [congruence|split; [|split]]]]].
  - eapply sfocus_ext; [exact SF2|]. intros x. cbn [foldr]. rewrite !bumps_count. unfold bump. destruct (decide (x = l)); rewrite bumps_count; lia.
  - exact (strace_trans _ _ _ _ _ _ _ _ _ _ T1 T2).
  - eapply stays_trans; [|exact (stays_mono _ _ _ _ Kp2 Hle)]. intros x Hx ox Hox. exists ox. rewrite O1, lookup_insert_ne by (intros <-; congruence). done.
  - constructor; [|done]. assert (1 ≤ bump ext l 1 l) as H1 by (rewrite bump_self; lia).
    assert (objects s1 !! l = Some (Robj REDIS_STRING (lruclock E) 1 (Raw t))) as Ho1 by (by rewrite O1, lookup_insert_eq).
    destruct (Kp2 l H1 _ Ho1) as (o & Ho & Hty & Hp). by exists o.
  - intros t0. by rewrite V2, V1.
Qed.

Lemma free_args_run ext i db (ls : list loc) s : sfocus (bumps ext ls) s i db → (∀ x, 0 ≤ ext x) → (∀ v, 0 ≤ v < REDIS_SHARED_INTEGERS → 1 ≤ ext (shared_integers v)) →
  ∃ s', free_args ls s = Some (tt, s') ∧ sfocus ext s' i db ∧ strace s s' i [] [] 0 ∧ dbs s' = dbs s ∧ ∀ t, sview t s' db = sview t s db.
Proof.
  intros SF He Hsh. assert (omap id (Some <$> ls) = ls) as Ho by (clear; induction ls as [|l ls IH]; [done|]; cbn; by f_equal).
  destruct (release_sources_run ext i db (Some <$> ls) s) as (s' & E1 & R); [by rewrite Ho|done|done|]. exists s'. split; [|exact R]. rewrite <-E1.
  clear. revert s. induction ls as [|l ls IH]; intros s; [done|]. cbn [free_args fmap list_fmap release_sources]. unfold mbind, M_bind.
  destruct (decrRefCount l s) as [[[] s1]|]; [apply IH|done].
Qed.

Lemma svals_ok c : Forall text_ok (sargv c) → Forall text_ok (svals c) ∧ Z.of_nat (length (svals c)) ≤ weight c.
Proof.
  intros H. unfold weight. destruct c; cbn [svals sargv] in *; try (split; [by apply Forall_nil|cbn; lia]).
  all: try (repeat (apply Forall_cons in H as [? H]); split; [by apply Forall_singleton|cbn; lia]).
  apply Forall_cons in H as [_ H]. destruct (interleave_spec text_ok keys txts) as [Hl Hf]. split; [by apply Hf|cbn [length]; lia].
Qed.

Lemma one_argument ext s db val txt : raw_arguments ext s db [val] [txt] → total (dbs s) < 2 ^ 28 - 1 → (∀ x, 0 ≤ ext x < 2 ^ 28 - 8) → raw_argument ext s db val txt.
Proof.
  intros [SF R Sh Tt O] Ht Hr. inversion O as [|? ? ? ? Ho _]; subst. split; done.
Qed.

Lemma no_argument ext s db : raw_arguments ext s db [] [] → total (dbs s) < 2 ^ 28 - 1 → (∀ x, 0 ≤ ext x < 2 ^ 28 - 8) → ready ext s db.
Proof. intros [SF R Sh Tt O] Ht Hr. by split. Qed.

(** The values of a command with one value, and with none. *)
Lemma one_value (vals : list loc) txt s : raws s vals [txt] → ∃ val, vals = [val].
Proof. intros R. apply Forall2_length in R. destruct vals as [|val [|? ?]]; try done. by exists val. Qed.
Lemma no_value (vals : list loc) s : raws s vals [] → vals = [].
Proof. intros R. by apply Forall2_nil_inv_r in R. Qed.

Definition does_command (ext : loc → Z) s (db : redisDb) (c : scmd) (vals : list loc) : Prop :=
  does ext s db (command c vals) (λ t, sspec i64 (late_of db c) t c) (weight c).

Lemma does_for ext s db c vals more : does ext s db (command c vals) (λ t, sspec i64 (late_of db c) t c) more → more ≤ weight c → does_command ext s db c vals.
Proof. intros D Hm. by eapply does_more. Qed.

(** Each command does what the specification says. *)
Lemma command_does ext s db c vals : Forall text_ok (sargv c) → shape_ok c → raw_arguments ext s db vals (svals c) → argv s = sargv c →
  total (dbs s) + weight c < 2 ^ 28 - 1 → (∀ x, 0 ≤ ext x ∧ ext x + weight c < 2 ^ 28 - 8) → does_command ext s db c vals.
Proof.
  intros Hok Hb A Ha Ht Hr. assert (1 ≤ weight c) as Hw by (unfold weight; destruct c; cbn; lia).
  assert (total (dbs s) < 2 ^ 28 - 1) as Ht1 by lia. assert (∀ x, 0 ≤ ext x < 2 ^ 28 - 8) as Hr1 by (intros x; specialize (Hr x); lia).
  assert (∀ k x, sargv c !! k = Some x → argv s !! k = Some x) as Hk by by rewrite Ha.
  assert (∀ txt, svals c = [txt] → ∃ val, vals = [val] ∧ raw_argument ext s db val txt) as A1.
  { intros txt E1. rewrite E1 in A. destruct (one_value _ _ _ (rs_objects _ _ _ _ _ A)) as [val ->]. exists val. split; [done|]. by apply one_argument. }
  assert (svals c = [] → vals = [] ∧ ready ext s db) as A0.
  { intros E1. rewrite E1 in A. pose proof (no_value _ _ (rs_objects _ _ _ _ _ A)) as ->. split; [done|]. by apply no_argument. }
  destruct c; cbn [sargv svals] in *;
    try (destruct (A1 _ eq_refl) as (val & -> & A2)); try (destruct (A0 eq_refl) as [-> Rd]); try (pose proof (rd_focus _ _ _ Rd) as SF); clear A1 A0.
  - eapply does_for; [by eapply set_does|lia].
  - eapply does_for; [apply setnx_does; [done|by apply Hk]|lia].
  - eapply does_for; [apply setex_does; [done|by apply Hk..]|lia].
  - eapply does_for; [apply get_does; [done|by apply Hk]|lia].
  - eapply does_for; [apply getset_does; [done|by apply Hk]|lia].
  - eapply does_for; [by eapply mget_does|lia].
  - eapply does_for; [apply mset_does; [done|by rewrite Ha; cbn [sargv length]; rewrite (proj1 (interleave_spec text_ok keys txts))|done]|]. unfold weight. cbn [sargv length]. destruct (interleave_spec text_ok keys txts) as [Hl _]. lia.
  - eapply does_for; [eapply setrange_does; [done..|]|lia]. by repeat (apply Forall_cons in Hok as [? Hok]).
  - eapply does_for; [apply getrange_does; [done|by apply Hk..]|lia].
  - eapply does_for; [|exact Hw]. cbn [command sspec]. destruct down; apply incrDecr_does; try done; by apply Hk.
  - eapply does_for; [apply incrby_does; [done|by apply Hk..]|lia].
  - eapply does_for; [apply append_does; [done|by apply Hk]|lia].
  - eapply does_for; [apply strlen_does; [done|by apply Hk]|lia].
  - eapply does_for; [by eapply setbit_does|lia].
  - eapply does_for; [apply getbit_does; [done|by apply Hk..]|lia].
  - eapply does_for; [by eapply bitcount_does|lia].
  - eapply does_for; [by eapply bitpos_does|lia].
  - eapply does_for; [apply (bitop_does ext s db [] opname target keys Rd); [|done|done]|lia].
    intros x. specialize (Hr x). unfold weight in Hr. cbn [sargv length] in Hr. lia.
Qed.

Lemma command_runs ext s db c : Forall text_ok (sargv c) → shape_ok c → sfocus ext s (c_db s) db → (∀ v, 0 ≤ v < REDIS_SHARED_INTEGERS → 1 ≤ ext (shared_integers v)) →
  total (dbs s) + weight c < 2 ^ 28 - 1 → (∀ x, ext x + weight c < 2 ^ 28 - 8) →
  ∃ s' db' ans tch n, run_scmd c s = Some (tt, s') ∧ sfocus ext s' (c_db s) db' ∧ strace s s' (c_db s) ans ((λ key, (c_db s, key)) <$> tch) n ∧
    total (dbs s') ≤ total (dbs s) + weight c ∧ ∀ t, steady clock E t → sspec i64 (late_of db c) t c (sview t s db) = (sview t s' db', ans, tch, n).
Proof.
  intros Hc Hsp SF Hsh Ht Hr. assert (∀ x, 0 ≤ ext x) as He by (intros x; apply (sf_ext_nonneg _ _ _ _ x SF)).
  destruct (svals_ok c Hc) as [Hv Hlen]. set (s0 := with_argv s (sargv c)). pose proof (sfocus_argv _ _ _ _ (sargv c) SF : sfocus ext s0 (c_db s) db) as SF0.
  destruct (create_args_run (c_db s) db (svals c) ext s0 SF0) as (vals & s1 & E1 & L1 & SF1 & T1 & D1 & A1 & _ & R1 & V1); [intros x; specialize (Hr x); lia|done|].
  pose proof (st_c_db _ _ _ _ _ _ T1 : c_db s1 = c_db s) as Hc1.
  destruct (command_does ext s1 db c vals Hc Hsp) as (vals' & s2 & db2 & ans & tch & n & E2 & SF2 & T2 & N2 & V2).
  { split; [by rewrite Hc1| |done| |done].
    - intros x. specialize (He x). specialize (Hr x). rewrite L1. lia.
    - rewrite D1, L1. change (dbs s0) with (dbs s). lia. }
  { by rewrite A1. } { rewrite D1. exact Ht. } { intros x. split; [apply He|apply Hr]. }
  rewrite Hc1 in *. destruct (free_args_run ext (c_db s) db2 vals' s2 SF2 He Hsh) as (s3 & E3 & SF3 & T3 & D3 & V3).
  exists s3, db2, ans, tch, n. split; [|split; [done|split; [|split]]].
  - unfold run_scmd. step (eq_refl : modify (λ s, with_argv s (sargv c)) s = Some (tt, s0)). step E1. by step E2.
  - assert (strace s s0 (c_db s) [] [] 0) as T0 by (destruct (strace_refl s0 (c_db s)); by split).
    pose proof (strace_trans _ _ _ _ _ _ _ _ _ _ T0 (strace_trans _ _ _ _ _ _ _ _ _ _ T1 (strace_trans _ _ _ _ _ _ _ _ _ _ T2 T3))) as T.
    cbn [app] in T. by rewrite !app_nil_r, Z.add_0_r in T.
  - rewrite D3. rewrite D1 in N2. exact N2.
  - intros t St. change (sview t s db) with (sview t s0 db). by rewrite <-V1, V3, (V2 t St).
Qed.

End commands.

(** ** Sequences of commands *)

Section sequences.
Context (seed : Z) (junk_val : loc) (junk_when : Z) (E : status).
Context (address : loc → Z) (shared_integers : Z → loc) (maxmemory : Z).
Implicit Types s : server.
Implicit Types V : gmap text (value * option Z).

(** Each command at its time, during which the clock stands still. *)
Fixpoint run_scmds (cmds : list (Z * scmd)) : M unit :=
  match cmds with
  | [] => mret tt
  | (t, c) :: cmds =>
      _ ← run_scmd seed (zero_time t) junk_val junk_when E address shared_integers maxmemory c;
      run_scmds cmds
  end.

(** The keys that still exist at [t]. *)
Definition alive (t : Z) V : gmap text (value * option Z) := filter (λ kv, gone E t kv.2.2 = false) V.

(** For each command, whether it is a BITOP whose target is still in the table of the
    database of the client although nobody may see it: [late_of] in the state in which the
    command is run. *)
Fixpoint lates_of (cmds : list (Z * scmd)) s : list bool :=
  match cmds with
  | [] => []
  | (t, c) :: cmds =>
      match dbs s !! Z.to_nat (c_db s), run_scmd seed (zero_time t) junk_val junk_when E address shared_integers maxmemory c s with
      | Some db, Some (_, s) => late_of db c :: lates_of cmds s
      | _, _ => []
      end
  end.

(** The same on the map, with the numbers of the integers; [lates] are for the commands in
    turn. *)
Fixpoint sspec_seq (lates : list bool) (cmds : list (Z * scmd)) V : gmap text (value * option Z) * list answer * list text * Z :=
  match cmds with
  | [] => (V, [], [], 0)
  | (t, c) :: cmds =>
      let '(V, a1, t1, n1) := sspec E (λ n, n) (default false (head lates)) t c (alive t V) in
      let '(V, a2, t2, n2) := sspec_seq (tail lates) cmds V in
      (V, a1 ++ a2, t1 ++ t2, n1 + n2)
  end.

Definition weights (cmds : list (Z * scmd)) : Z := foldr (λ tc n, weight tc.2 + n) 0 cmds.

Lemma weights_nonneg cmds : 0 ≤ weights cmds.
Proof. induction cmds as [|tc cmds IH]; cbn [weights foldr]; [done|]. unfold weights, weight in *. lia. Qed.

Lemma sview_later t t' s (db : redisDb) : t ≤ t' → sview E t' s db = alive t' (sview E t s db).
Proof.
  intros Ht. apply map_eq. intros key. unfold alive, sview. rewrite map_lookup_filter, !lookup_fmap, !lookup_lview.
  destruct (keys_of db !! key) as [l|]; [|done]. cbn. destruct (gone E t (expires_of db !! key)) eqn:Eg; cbn.
  - by rewrite (gone_later E t t').
  - by destruct (gone E t' (expires_of db !! key)).
Qed.

Lemma run_scmds_spec ext : in_u32 seed → lua_start E = None → (∀ v, 0 ≤ v < REDIS_SHARED_INTEGERS → 1 ≤ ext (shared_integers v)) → ∀ cmds t0 s db,
  sfocus seed shared_integers ext s (c_db s) db → total (dbs s) + weights cmds < 2 ^ 28 - 1 → (∀ x, ext x + weights cmds < 2 ^ 28 - 8) →
  Forall (λ tc, scmd_ok tc.1 tc.2) cmds → Sorted Z.le (t0 :: cmds.*1) →
  ∃ s' db' ans tch n, run_scmds cmds s = Some (tt, s') ∧ sfocus seed shared_integers ext s' (c_db s) db' ∧
    strace E s s' (c_db s) ans ((λ key, (c_db s, key)) <$> tch) n ∧
    sspec_seq (lates_of cmds s) cmds (sview E t0 s db) = (sview E (List.last cmds.*1 t0) s' db', ans, tch, n).
Proof.
  intros Hs Hlua Hsh. induction cmds as [|[t c] cmds IH]; intros t0 s db F Ht Hx Hc Hst.
  { exists s, db, [], [], 0. split; [done|]. split; [done|]. split; [apply strace_refl|done]. }
  apply Forall_cons in Hc as [(Hc & Hshape & Hfits) Hcs]. apply Sorted_inv in Hst as [Hst Hhd]. apply HdRel_inv in Hhd. cbn [fst snd] in *.
  change (weights ((t, c) :: cmds)) with (weight c + weights cmds) in *. pose proof (weights_nonneg cmds) as Hw. assert (0 ≤ weight c) by (unfold weight; lia).
  destruct (command_runs seed (zero_time t) junk_val junk_when E address shared_integers maxmemory Hs ext s db c Hc Hshape F Hsh)
    as (s1 & db1 & a1 & t1 & n1 & E1 & F1 & T1 & N1 & V1); [lia|intros x; specialize (Hx x); lia|].
  pose proof (st_c_db _ _ _ _ _ _ _ T1) as Hcd.
  destruct (IH t s1 db1) as (s2 & db2 & a2 & t2 & n2 & E2 & F2 & T2 & V2); [by rewrite Hcd|lia|intros x; specialize (Hx x); lia|done|done|].
  rewrite Hcd in F2, T2. exists s2, db2, (a1 ++ a2), (t1 ++ t2), (n1 + n2). split; [|split; [done|split]].
  - cbn [run_scmds]. by rewrite (bind_run _ _ _ _ _ E1).
  - rewrite fmap_app. eapply strace_trans; [exact T1|exact T2].
  - cbn [lates_of]. rewrite (proj2 (fc_at _ _ _ _ _ (sf_focus _ _ _ _ _ _ F))), E1. cbn [sspec_seq head tail].
    change (default false (Some (late_of db c))) with (late_of db c). rewrite <-(sview_later t0 t s db Hhd).
    assert (steady (zero_time t) E t) as St by (split; [done|by rewrite Hlua]). rewrite <-(sspec_exact E _ _ _ _ Hfits), (V1 t St), V2. cbn [fmap list_fmap fst]. by rewrite last_time.
Qed.
End sequences.

(** C3. A sequence of string commands and bit commands, each at its time, does on the server
    exactly what it does on a map from the keys that exist to their texts and expire
    times, although a text may be stored as a number, small numbers are one object that
    all the keys with this value share, a value may be referred to by several keys and
    arguments, and commands write in place: APPEND, SETRANGE and SETBIT change no other
    key, INCR and DECR refuse exactly the results that do not fit in 64 bits, the
    answers, the keys signalled to WATCH and the number of changes are those of the
    map, the other databases look the same, the objects of the small integers stay what
    they are, all references are counted and no assertion fails. One signal is not
    determined by the map: a BITOP without a result signals its target exactly when the
    target exists, or has expired but is still in the table at the start of the command
    and is not one of the sources, whose lookup would delete it ([lates_of] computes this
    from the tables in the run). Assumed of the commands ([scmd_ok]): arguments of at most
    512 MB, a source for BITOP, at most one key of MSET without a value, and none of the
    overflows that the code does not test (reported as findings): DECRBY by the smallest
    number, and expire times of SET, SETEX and PSETEX that do not fit in 64 bits as
    milliseconds. The times do not decrease, and there is room for the keys and references
    that the arguments can add (counts below 2^28). *)
Theorem string_commands_refine seed junk_val junk_when E address shared_integers maxmemory ext (s : server) db t0 cmds :
  in_u32 seed → lua_start E = None → sfocus seed shared_integers ext s (c_db s) db →
  total (dbs s) + weights cmds < 2 ^ 28 - 1 → (∀ l, ext l + weights cmds < 2 ^ 28 - 8) →
  Forall (λ tc, scmd_ok tc.1 tc.2) cmds → Sorted Z.le (t0 :: cmds.*1) →
  ∃ s' db' ans tch n, run_scmds seed junk_val junk_when E address shared_integers maxmemory cmds s = Some (tt, s') ∧
    sfocus seed shared_integers ext s' (c_db s) db' ∧ strace E s s' (c_db s) ans ((λ key, (c_db s, key)) <$> tch) n ∧
    sspec_seq E (lates_of seed junk_val junk_when E address shared_integers maxmemory cmds s) cmds (sview E t0 s db) = (sview E (List.last cmds.*1 t0) s' db', ans, tch, n).
Proof.
  intros Hs Hlua F. apply run_scmds_spec; try done. intros v Hv. by apply (sf_shared _ _ _ _ _ _ F).
Qed.

(** ** What the code does not do *)

(** DECRBY by the smallest number negates it, which gives the same number again: instead
    of an overflow it is added. *)
Lemma decrby_smallest (key : text) (V : gmap text (value * option Z)) : V !! key = None →
  by_spec i64 key (ll_text LLONG_MIN) true V = (<[key := (VStr (ll_text LLONG_MIN), None)]> V, [R_int LLONG_MIN], [key], 1).
Proof.
  intros Hk. unfold by_spec. rewrite number_ll_text by (unfold in_i64; unlimit; lia). unfold incr_spec. rewrite Hk.
  change (i64 (- LLONG_MIN)) with LLONG_MIN. by rewrite Z.add_0_l.
Qed.

(** Seconds are multiplied in 64 bits without a test: this SET with EX is answered
    with OK and the key does not exist afterwards. *)
Lemma set_ex_wraps :
  sspec demo_status i64 false 1000000 (SSet [97] [98] [[101; 120]; ll_text 18446744073709551]) ∅ = (∅, [R_ok], [[97]], 1).
Proof. by vm_compute. Qed.

(** Numbers end at a zero byte, and an empty string is zero. *)
Lemma number_nul : number [53; 0; 97] = Some 5 ∧ number [] = Some 0.
Proof. by vm_compute. Qed.

(** ** A server with the small integers *)

Definition demo_shared (v : Z) : loc := Pos.of_succ_nat (Z.to_nat v).
Definition demo_small (l : loc) : Prop := Z.pos l ≤ REDIS_SHARED_INTEGERS.
#[local] Instance demo_small_dec (l : loc) : Decision (demo_small l).
Proof. unfold demo_small. apply _. Defined.
Definition demo_object (n : nat) : robj := Robj REDIS_STRING 0 1 (Enc (Z.of_nat n)).
Definition demo_heap : gmap loc robj := list_to_map ((λ n, (Pos.of_succ_nat n, demo_object n)) <$> seq 0 (Z.to_nat REDIS_SHARED_INTEGERS)).
Definition demo_ext (l : loc) : Z := if bool_decide (demo_small l) then 1 else 0.
Definition demo_server : server := Server [RedisDb dictCreate dictCreate] demo_heap 0 0 0 0 0 0 [] [].

Lemma demo_heap_lookup l : demo_heap !! l = if bool_decide (demo_small l) then Some (demo_object (Pos.to_nat l - 1)) else None.
Proof.
  unfold demo_heap. set (m := REDIS_SHARED_INTEGERS). assert (demo_small l ↔ Z.pos l ≤ m) as Hm by reflexivity. clearbody m.
  set (f := λ n, (Pos.of_succ_nat n, demo_object n)). assert (((f <$> seq 0 (Z.to_nat m)).*1) = Pos.of_succ_nat <$> seq 0 (Z.to_nat m)) as Ef by by rewrite <-list_fmap_compose.
  case_bool_decide as Hl; rewrite Hm in Hl.
  - apply elem_of_list_to_map_1.
    + rewrite Ef. apply NoDup_fmap_2; [|apply NoDup_seq]. intros a b. lia.
    + apply list_elem_of_fmap. exists (Pos.to_nat l - 1)%nat. split; [unfold f; f_equal; lia|]. apply elem_of_seq. lia.
  - apply not_elem_of_list_to_map_1. rewrite Ef. intros (n & -> & Hn)%list_elem_of_fmap. apply elem_of_seq in Hn. lia.
Qed.

Lemma demo_server_focus : sfocus 5 demo_shared demo_ext demo_server 0 (RedisDb dictCreate dictCreate).
Proof.
  split; [split| |].
  - done.
  - apply Forall_cons; split; [apply empty_db_ok|by apply Forall_nil].
  - intros l. change (refs (dbs demo_server) l) with 0. cbn [objects demo_server]. rewrite demo_heap_lookup. unfold demo_ext.
    destruct (bool_decide (demo_small l)); [|done]. cbn. lia.
  - by vm_compute.
  - intros l. unfold demo_ext. destruct (bool_decide (demo_small l)); lia.
  - intros l o. cbn [objects demo_server]. rewrite demo_heap_lookup. case_bool_decide as Hl; [|done]. intros [= <-] _. cbn. unfold in_long. unfold demo_small, REDIS_SHARED_INTEGERS in Hl. unlimit. lia.
  - intros v Hv. assert (demo_small (demo_shared v)) as Hl by (unfold demo_small, demo_shared; lia).
    unfold demo_ext. rewrite bool_decide_eq_true_2 by done. split; [lia|]. eexists. cbn [objects demo_server]. rewrite demo_heap_lookup, bool_decide_eq_true_2 by done.
    split; [done|]. split; [done|]. cbn. f_equal. unfold demo_shared. lia.
Qed.

(** Two keys with one object, APPEND to the first, INCR of the second, and a key that
    expires. *)
Definition demo_scmds : list (Z * scmd) :=
  [(10, SSet [97] [53] []); (10, SSet [98] [53] []); (20, SAppend [97] [48]); (30, SIncr false [98]); (30, SGet [97]); (40, SMget [[98]; [97]]);
   (50, SSetex true [99] [49; 48] [120]); (55, SSetbit [99] [49] [48]); (60, SGet [99]); (61, SGet [99])].

#[local] Instance text_ok_dec (t : text) : Decision (text_ok t).
Proof. unfold text_ok, byte_ok. apply _. Defined.

Lemma string_commands_refine_witness :
  ∃ s' db' ans tch n, run_scmds 5 1%positive 0 demo_status (λ _, 0) demo_shared 0 demo_scmds demo_server = Some (tt, s') ∧
    sfocus 5 demo_shared demo_ext s' 0 db' ∧ strace demo_status demo_server s' 0 ans ((λ key, (0, key)) <$> tch) n ∧
    ans = [R_ok; R_ok; R_int 2; R_int 6; R_bulk [53; 48]; R_multibulklen 2; R_bulk [54]; R_bulk [53; 48]; R_ok; R_cone; R_bulk [56]; R_nullbulk] ∧
    n = 6 ∧ sview demo_status 61 s' db' = <[[97] := (VStr [53; 48], None)]> {[[98] := (VStr [54], None)]}.
Proof.
  destruct (string_commands_refine 5 1%positive 0 demo_status (λ _, 0) demo_shared 0 demo_ext demo_server (RedisDb dictCreate dictCreate) 10 demo_scmds)
    as (s' & db' & ans & tch & n & E & F & T & V).
  - done.
  - done.
  - exact demo_server_focus.
  - by vm_compute.
  - intros l. assert (weights demo_scmds = 28) as -> by by vm_compute. unfold demo_ext. destruct (bool_decide (demo_small l)); lia.
  - do 10 (apply Forall_cons; split; [split; [apply (bool_decide_unpack _); by vm_compute|split; [exact I|by vm_compute]]|]). by apply Forall_nil.
  - repeat constructor; by vm_compute.
  - exists s', db', ans, tch, n. split; [done|]. split; [done|]. split; [done|].
    assert (sview demo_status 10 demo_server (RedisDb dictCreate dictCreate) = ∅) as V0 by by vm_compute. rewrite V0 in V.
    set (lates := lates_of _ _ _ _ _ _ _ _ _) in V. clearbody lates.
    assert (sspec_seq demo_status lates demo_scmds ∅ = (<[[97] := (VStr [53; 48], None)]> {[[98] := (VStr [54], None)]},
      [R_ok; R_ok; R_int 2; R_int 6; R_bulk [53; 48]; R_multibulklen 2; R_bulk [54]; R_bulk [53; 48]; R_ok; R_cone; R_bulk [56]; R_nullbulk],
      [[97]; [98]; [97]; [98]; [99]; [99]], 6)) as V' by by vm_compute.
    rewrite V' in V. injection V as V1 V2 V3 V4. split; [exact (eq_sym V2)|]. split; [exact (eq_sym V4)|exact (eq_sym V1)].
Defined.
