(* ===== verification/Networking.v ===== *)
(** * The protocol parser ([networking.c])

    What readQueryFromClient and processInputBuffer do with the bytes of a
    client: the inline and the multi bulk forms of requests, arriving in any
    pieces.  The query buffer is the contents of its string; replies are the
    errors that the parser adds.  The execution of a command is the interface
    [Commands]. *)
From S2P Require Import Prelude Util Sds Rio.
Open Scope Z_scope.

Definition REDIS_INLINE_MAX_SIZE : Z := 1024 * 64.
Definition REDIS_MBULK_BIG_ARG : Z := 1024 * 32.
Definition REDIS_IOBUF_LEN : Z := 1024 * 16.
Definition REDIS_REQ_INLINE : Z := 1.
Definition REDIS_REQ_MULTIBULK : Z := 2.

(** "Protocol error: ..." *)
Inductive protocol_error :=
  TooBigInline | UnbalancedQuotes | TooBigMbulkCount | InvalidMultibulkLength | TooBigBulkCount
| ExpectedDollar (c : Z) | InvalidBulkLength.

Record client := Client {
  querybuf : list Z;
  reqtype : Z;
  multibulklen : Z;
  bulklen : Z;
  argv : list (list Z);
  fl_close_after_reply : bool;
  fl_blocked : bool;
  fl_slave : bool;
  fl_master : bool;
  fl_multi : bool;
  fl_asking : bool;
  repl_ack_time : Z;
  reploff : Z;
  reply : list protocol_error;
}.

Definition createClient : client :=
  Client [] 0 0 (-1) [] false false false false false false 0 0 [].

Definition set_querybuf (c : client) (b : list Z) : client :=
  Client b (reqtype c) (multibulklen c) (bulklen c) (argv c) (fl_close_after_reply c) (fl_blocked c) (fl_slave c)
    (fl_master c) (fl_multi c) (fl_asking c) (repl_ack_time c) (reploff c) (reply c).
Definition set_request (c : client) (type mbl bl : Z) (args : list (list Z)) : client :=
  Client (querybuf c) type mbl bl args (fl_close_after_reply c) (fl_blocked c) (fl_slave c)
    (fl_master c) (fl_multi c) (fl_asking c) (repl_ack_time c) (reploff c) (reply c).
Definition set_flags (c : client) (close blocked asking : bool) : client :=
  Client (querybuf c) (reqtype c) (multibulklen c) (bulklen c) (argv c) close blocked (fl_slave c)
    (fl_master c) (fl_multi c) asking (repl_ack_time c) (reploff c) (reply c).
Definition set_ack_time (c : client) (t : Z) : client :=
  Client (querybuf c) (reqtype c) (multibulklen c) (bulklen c) (argv c) (fl_close_after_reply c) (fl_blocked c)
    (fl_slave c) (fl_master c) (fl_multi c) (fl_asking c) t (reploff c) (reply c).
Definition addReplyError (c : client) (e : protocol_error) : client :=
  Client (querybuf c) (reqtype c) (multibulklen c) (bulklen c) (argv c) (fl_close_after_reply c) (fl_blocked c)
    (fl_slave c) (fl_master c) (fl_multi c) (fl_asking c) (repl_ack_time c) (reploff c) (reply c ++ [e]).

(** [sdsrange(c->querybuf,pos,-1)]. *)
Definition trim_to (c : client) (pos : Z) : client := set_querybuf c (drop (Z.to_nat pos) (querybuf c)).

(** [strchr(c->querybuf+pos, ch)]: the offset in the buffer; the search ends at a
    zero byte. *)
Fixpoint strchr_list (s : list Z) (i ch : Z) : option Z :=
  match s with
  | [] => None
  | b :: s => if b =? ch then Some i else if b =? ch_nul then None else strchr_list s (i + 1) ch
  end.
Definition strchr_from (buf : list Z) (pos ch : Z) : option Z := strchr_list (drop (Z.to_nat pos) buf) pos ch.

Definition setProtocolError (c : client) (pos : Z) : client :=
  trim_to (set_flags c true (fl_blocked c) (fl_asking c)) pos.

(** An error reply and setProtocolError. *)
Definition protocol_fail (c : client) (e : protocol_error) (pos : Z) : client := setProtocolError (addReplyError c e) pos.

Definition resetClient (c : client) : client :=
  let c := set_request c 0 0 (-1) [] in
  if negb (fl_multi c) then set_flags c (fl_close_after_reply c) (fl_blocked c) false else c.

(** [REDIS_OK] or [REDIS_ERR], with the client. *)
Definition processInlineBuffer (junk : nat → Z) (unixtime : Z) (c : client) : option (client * bool) :=
  match strchr_from (querybuf c) 0 ch_lf with
  | None =>
      Some (if REDIS_INLINE_MAX_SIZE <? blen (querybuf c) then protocol_fail c TooBigInline 0 else c, false)
  | Some newline =>
      cr ← (if newline =? 0 then Some 0 else mget (querybuf c) (newline - 1));
      let newline := if negb (newline =? 0) && (cr =? ch_cr) then newline - 1 else newline in
      let querylen := newline in
      aux ← mload (querybuf c) 0 querylen;
      r ← sdssplitargs junk aux;
      match r with
      | None => Some (protocol_fail c UnbalancedQuotes 0, false)
      | Some args =>
          let c := if (querylen =? 0) && fl_slave c then set_ack_time c unixtime else c in
          let c := trim_to c (querylen + 2) in
          let args := filter (λ a, negb (blen a =? 0)) (sds_text <$> args) in
          Some (set_request c (reqtype c) (multibulklen c) (bulklen c) args, true)
      end
  end.

(** How the loop over the arguments goes on: with a new offset, [break], or
    [return REDIS_ERR]. *)
Inductive bulk_turn := BulkNext (c : client) (pos : Z) | BulkBreak (c : client) (pos : Z) | BulkErr (c : client).

(** "Read bulk argument"; a copy that reaches behind the buffer is [None]. *)
Definition read_bulk (c : client) (pos : Z) : option bulk_turn :=
  if u64 (blen (querybuf c) - pos) <? u32 (bulklen c + 2) then Some (BulkBreak c pos)
  else if (pos =? 0) && (REDIS_MBULK_BIG_ARG <=? bulklen c) && (blen (querybuf c) =? bulklen c + 2) then
    arg ← mload (querybuf c) 0 (blen (querybuf c) - 2);
    let c := set_request c (reqtype c) (multibulklen c - 1) (-1) (argv c ++ [arg]) in
    Some (BulkNext (set_querybuf c []) 0)
  else
    arg ← mload (querybuf c) pos (bulklen c);
    let pos := pos + (bulklen c + 2) in
    Some (BulkNext (set_request c (reqtype c) (multibulklen c - 1) (-1) (argv c ++ [arg])) pos).

(** One turn of [while(c->multibulklen)]; a failing assertion and an access outside of
    the buffer are [None]. *)
Definition bulk_step (c : client) (pos : Z) : option bulk_turn :=
  if bulklen c =? -1 then
    match strchr_from (querybuf c) pos ch_cr with
    | None =>
        Some (if REDIS_INLINE_MAX_SIZE <? blen (querybuf c) then BulkErr (protocol_fail c TooBigBulkCount 0)
              else BulkBreak c pos)
    | Some newline =>
        if blen (querybuf c) - 2 <? newline then Some (BulkBreak c pos)
        else
          b ← mget (querybuf c) pos;
          if negb (b =? ch_dollar) then Some (BulkErr (protocol_fail c (ExpectedDollar b) pos))
          else
            digits ← mload (querybuf c) (pos + 1) (newline - (pos + 1));
            match string2ll digits with
            | None => Some (BulkErr (protocol_fail c InvalidBulkLength pos))
            | Some ll =>
                if (ll <? 0) || (512 * 1024 * 1024 <? ll) then Some (BulkErr (protocol_fail c InvalidBulkLength pos))
                else
                  let pos := pos + (newline - pos + 2) in
                  let '(c, pos) := if REDIS_MBULK_BIG_ARG <=? ll then (trim_to c pos, 0) else (c, pos) in
                  let c := set_request c (reqtype c) (multibulklen c) ll (argv c) in
                  read_bulk c pos
            end
    end
  else read_bulk c pos.

Fixpoint bulk_loop (fuel : nat) (c : client) (pos : Z) : option (client * Z + client) :=
  if multibulklen c =? 0 then Some (inl (c, pos))
  else
    match fuel with
    | O => None
    | S fuel =>
        t ← bulk_step c pos;
        match t with
        | BulkNext c pos => bulk_loop fuel c pos
        | BulkBreak c pos => Some (inl (c, pos))
        | BulkErr c => Some (inr c)
        end
    end.

(** The part after the number of arguments is known. *)
Definition process_bulks (c : client) (pos : Z) : option (client * bool) :=
  if negb (0 <? multibulklen c) then None
  else
    r ← bulk_loop (S (length (querybuf c))) c pos;
    match r with
    | inr c => Some (c, false)
    | inl (c, pos) =>
        let c := if negb (pos =? 0) then trim_to c pos else c in
        Some (c, multibulklen c =? 0)
    end.

Definition processMultibulkBuffer (c : client) : option (client * bool) :=
  if multibulklen c =? 0 then
    if negb (bool_decide (argv c = [])) then None
    else
      match strchr_from (querybuf c) 0 ch_cr with
      | None =>
          Some (if REDIS_INLINE_MAX_SIZE <? blen (querybuf c) then protocol_fail c TooBigMbulkCount 0 else c, false)
      | Some newline =>
          if blen (querybuf c) - 2 <? newline then Some (c, false)
          else
            b ← mget (querybuf c) 0;
            if negb (b =? ch_star) then None
            else
              digits ← mload (querybuf c) 1 (newline - 1);
              match string2ll digits with
              | None => Some (protocol_fail c InvalidMultibulkLength 0, false)
              | Some ll =>
                  if 1024 * 1024 <? ll then Some (protocol_fail c InvalidMultibulkLength 0, false)
                  else
                    let pos := newline + 2 in
                    if ll <=? 0 then Some (trim_to c pos, true)
                    else process_bulks (set_request c (reqtype c) ll (bulklen c) []) pos
              end
      end
  else process_bulks c 0.

(** ** The execution of commands

    The state of the server after a command, whether the client is ready for the
    next one (REDIS_OK), and whether it is now blocked or to be closed. *)
Record cmd_result := CmdResult { cmd_ok : bool; cmd_blocked : bool; cmd_close : bool }.
Class Commands (S : Type) := { processCommand : S → list (list Z) → S * cmd_result }.

(** ** The writer of requests ([aof.c])

    The form in which commands go to the append only file and to the slaves;
    the arguments are decoded. *)
Definition bulk_header (prefix n : Z) : list Z :=
  let '(len, text) := ll2string 31 n in prefix :: take (Z.to_nat len) text ++ crlf.
Definition catAppendOnlyGenericCommand (dst : list Z) (argv : list (list Z)) : list Z :=
  let dst := dst ++ bulk_header ch_star (Z.of_nat (length argv)) in
  foldl (λ dst a, dst ++ bulk_header ch_dollar (blen a) ++ a ++ crlf) dst argv.

Section server.
Context {S : Type} `{Commands S} (junk : nat → Z) (unixtime : Z).

(** [while(sdslen(c->querybuf))]. *)
Fixpoint processInputBuffer (fuel : nat) (s : S) (c : client) : option (S * client) :=
  if blen (querybuf c) =? 0 then Some (s, c)
  else if fl_blocked c then Some (s, c)
  else if fl_close_after_reply c then Some (s, c)
  else
    match fuel with
    | O => None
    | Datatypes.S fuel =>
        b ← mget (querybuf c) 0;
        let type :=
          if reqtype c =? 0 then (if b =? ch_star then REDIS_REQ_MULTIBULK else REDIS_REQ_INLINE) else reqtype c in
        let c := set_request c type (multibulklen c) (bulklen c) (argv c) in
        '(c, ok) ←
          (if type =? REDIS_REQ_INLINE then processInlineBuffer junk unixtime c
           else if type =? REDIS_REQ_MULTIBULK then processMultibulkBuffer c
           else None);
        if negb (ok : bool) then Some (s, c)
        else if bool_decide (argv c = []) then processInputBuffer fuel s (resetClient c)
        else
          let '(s, r) := processCommand s (argv c) in
          let c := set_flags c (fl_close_after_reply c || cmd_close r) (fl_blocked c || cmd_blocked r) (fl_asking c) in
          processInputBuffer fuel s (if cmd_ok r then resetClient c else c)
    end.

(** [readlen] of readQueryFromClient. *)
Definition query_readlen (c : client) : Z :=
  if (reqtype c =? REDIS_REQ_MULTIBULK) && negb (multibulklen c =? 0) && negb (bulklen c =? -1) &&
     (REDIS_MBULK_BIG_ARG <=? bulklen c) then
    let remaining := i32 (u32 (bulklen c + 2) - blen (querybuf c)) in
    if remaining <? REDIS_IOBUF_LEN then remaining else REDIS_IOBUF_LEN
  else REDIS_IOBUF_LEN.

(** The bytes [data] that a read has returned (at least one, at most [query_readlen]);
    a client whose buffer is too long is freed, which is [inr]. *)
Definition readQueryFromClient (max_querybuf_len : Z) (s : S) (c : client) (data : list Z) : option ((S * client) + S) :=
  let c := set_querybuf c (querybuf c ++ data) in
  let c := Client (querybuf c) (reqtype c) (multibulklen c) (bulklen c) (argv c) (fl_close_after_reply c)
    (fl_blocked c) (fl_slave c) (fl_master c) (fl_multi c) (fl_asking c) (repl_ack_time c)
    (if fl_master c then reploff c + blen data else reploff c) (reply c) in
  if max_querybuf_len <? blen (querybuf c) then Some (inr s)
  else
    r ← processInputBuffer (Datatypes.S (length (querybuf c))) s c;
    Some (inl r).

(** The event loop and the network: at each turn that has something to read, at
    most [k] bytes of the input have come.  A freed client is [None]. *)
Fixpoint serve (max_querybuf_len : Z) (ks : list Z) (s : S) (c : client) (input : list Z) : option (S * client * list Z) :=
  match ks with
  | [] => Some (s, c, input)
  | k :: ks =>
      let n := Z.to_nat (Z.min k (query_readlen c)) in
      if bool_decide (take n input = []) then serve max_querybuf_len ks s c input
      else
        r ← readQueryFromClient max_querybuf_len s c (take n input);
        match r with
        | inl (s, c) => serve max_querybuf_len ks s c (drop n input)
        | inr _ => None
        end
  end.
End server.

(** ** The text of a request *)

(** The requests that the limits of the protocol allow. *)
Definition allowed (args : list (list Z)) : Prop :=
  (0 < length args)%nat ∧ Z.of_nat (length args) ≤ 1024 * 1024 ∧ Forall (λ a, blen a ≤ 512 * 1024 * 1024) args.

#[export] Instance allowed_dec args : Decision (allowed args).
Proof. unfold allowed. apply _. Defined.

Lemma bulk_header_line prefix n : in_i64 n → bulk_header prefix n = line prefix n.
Proof.
  intros Hn. unfold bulk_header, line. rewrite ll2string_text by (done || lia).
  pose proof (ll_text_length n Hn). cbn zeta. rewrite Z.min_l by (unfold blen; lia).
  by rewrite to_nat_blen, take_app_length', take_ge by (rewrite ?length_take; lia).
Qed.

Lemma catAppendOnlyGenericCommand_request dst args :
  allowed args → catAppendOnlyGenericCommand dst args = dst ++ request args.
Proof.
  intros (_ & Hn & Ha). unfold catAppendOnlyGenericCommand, request, bulks.
  rewrite bulk_header_line, (assoc_L (++)) by (unlimit; lia).
  generalize (dst ++ line ch_star (Z.of_nat (length args))). clear Hn.
  induction Ha as [|a args Hl _ IH]; intros d; cbn [foldl fmap list_fmap concat]; [by rewrite app_nil_r|].
  rewrite bulk_header_line by (unlimit; pose proof (blen_nonneg a); lia).
  rewrite IH. unfold bulk. by rewrite <-!(assoc_L (++)).
Qed.

Lemma blen_line prefix n : in_i64 n → 4 ≤ blen (line prefix n) + 1 ∧ blen (line prefix n) = blen (ll_text n) + 3 ∧ blen (line prefix n) ≤ 23.
Proof.
  intros Hn. pose proof (ll_text_length n Hn). unfold line. rewrite blen_cons, blen_app.
  change (blen crlf) with 2. unfold blen. lia.
Qed.

(** ** A line of the buffer *)

Lemma strchr_list_skip s c i ch :
  Forall (λ b, b ≠ ch ∧ b ≠ ch_nul) s → strchr_list (s ++ c) i ch = strchr_list c (i + blen s) ch.
Proof.
  revert i. induction s as [|b s IH]; intros i Hs; [by rewrite blen_nil, Z.add_0_r|].
  apply Forall_cons in Hs as [[H1 H2] Hs]. cbn [strchr_list app].
  rewrite (proj2 (Z.eqb_neq b ch) H1), (proj2 (Z.eqb_neq b ch_nul) H2), IH by done.
  f_equal. rewrite blen_cons. lia.
Qed.

Lemma strchr_list_none s i ch : Forall (λ b, b ≠ ch ∧ b ≠ ch_nul) s → strchr_list s i ch = None.
Proof. intros Hs. rewrite <-(app_nil_r s). by rewrite strchr_list_skip. Qed.

Lemma line_body_chars prefix n :
  in_i64 n → prefix = ch_star ∨ prefix = ch_dollar → Forall (λ b, b ≠ ch_cr ∧ b ≠ ch_nul) (prefix :: ll_text n).
Proof.
  intros Hn Hp. constructor; [by destruct Hp as [-> | ->]|].
  eapply Forall_impl; [by apply ll_text_chars|]. intros b [-> | [H1 H2]]; [done|].
  unfold ch_0, ch_9, ch_cr, ch_nul in *. lia.
Qed.

Lemma drop_lookup_head (buf : list Z) pos x r :
  0 ≤ pos → drop (Z.to_nat pos) buf = x :: r → mget buf pos = Some x.
Proof.
  intros Hp E. unfold mget. rewrite (proj2 (Z.leb_le 0 pos)) by done.
  by rewrite <-(Nat.add_0_r (Z.to_nat pos)), <-lookup_drop, E.
Qed.

Lemma slice_drop buf pos a b k :
  0 ≤ pos → a = pos + Z.of_nat k → slice buf a b = take (Z.to_nat (b - a)) (drop k (drop (Z.to_nat pos) buf)).
Proof. intros Hp ->. unfold slice. rewrite drop_drop. do 3 f_equal. lia. Qed.

(** The first line of what is left: not complete yet, or read. *)
Lemma read_line buf pos f prefix n tail :
  in_i64 n → prefix = ch_star ∨ prefix = ch_dollar → 0 ≤ pos ≤ blen buf →
  drop (Z.to_nat pos) buf ++ f = line prefix n ++ tail →
  (blen buf - pos < blen (line prefix n) ∧
     match strchr_from buf pos ch_cr with None => True | Some nl => blen buf - 2 < nl end) ∨
  (∃ nl, strchr_from buf pos ch_cr = Some nl ∧ nl = pos + 1 + blen (ll_text n) ∧ nl ≤ blen buf - 2 ∧
     mget buf pos = Some prefix ∧ mload buf (pos + 1) (nl - (pos + 1)) = Some (ll_text n) ∧ drop (Z.to_nat (nl + 2)) buf ++ f = tail).
Proof.
  intros Hn Hpre Hp E. pose proof (line_body_chars prefix n Hn Hpre) as Hch.
  destruct (blen_line prefix n Hn) as (_ & Hl & _).
  assert (blen (drop (Z.to_nat pos) buf) = blen buf - pos) as Hd by (unfold blen in *; rewrite length_drop; lia).
  remember (drop (Z.to_nat pos) buf) as r eqn:Er.
  unfold strchr_from. rewrite <-Er. set (body := prefix :: ll_text n) in *.
  assert (blen body = 1 + blen (ll_text n)) as Hb by (subst body; apply blen_cons).
  change (line prefix n) with (body ++ crlf) in *.
  assert (blen (body ++ crlf) = blen body + 2) as Hbl by (by rewrite blen_app).
  assert ((∃ k, r = (body ++ crlf) ++ k ∧ tail = k ++ f) ∨ (∃ k, body ++ crlf = r ++ k ∧ k ≠ [])) as [(k & -> & ->)|(k & E' & Hk)].
  { apply app_eq_inv in E as [?|(k & E & ->)]; [by left|]. destruct (decide (k = [])) as [->|]; [|by right; exists k].
    left. exists []. rewrite !app_nil_r in *. done. }
  - right. rewrite <-(assoc_L (++)) in *. exists (pos + blen body).
    rewrite !blen_app in Hd. change (blen crlf) with 2 in Hd. pose proof (blen_nonneg k).
    split; [by rewrite strchr_list_skip|]. do 2 (split; [lia|]). split; [eapply drop_lookup_head; [lia|by rewrite <-Er]|]. split.
    + pose proof (blen_nonneg (ll_text n)). rewrite mload_slice by lia. f_equal. replace (pos + 1 + (pos + blen body - (pos + 1))) with (pos + blen body) by lia.
      erewrite (slice_drop buf pos _ _ 1) by lia. rewrite <-Er. cbn [drop app body].
      apply take_app_length'. unfold blen in *. lia.
    + f_equal. replace (Z.to_nat (pos + blen body + 2)) with (Z.to_nat pos + length (body ++ crlf))%nat.
      * rewrite <-drop_drop, <-Er, (assoc_L (++)). apply drop_app_length.
      * unfold blen in *. lia.
  - clear E. rename E' into E. clearbody body.
    left. assert (0 < blen k) by (destruct k; [done|rewrite blen_cons; pose proof (blen_nonneg k); lia]).
    assert (blen (r ++ k) = blen body + 2) as Hrk by (by rewrite <-E).
    rewrite blen_app in Hrk. split; [lia|].
    apply app_eq_inv in E as [(k' & -> & ->)|(k' & -> & E)].
    + apply Forall_app in Hch as [Hch _]. by rewrite strchr_list_none.
    + rewrite strchr_list_skip by done. destruct k' as [|x k']; [done|].
      injection E as <- E. cbn. lia.
Qed.

(** ** The arguments of a request *)

(** What stays as it is while a request is read. *)
Definition conn (c : client) : Z * bool * bool * list protocol_error :=
  (reqtype c, fl_close_after_reply c, fl_blocked c, reply c).

(** From the offset [pos] of the buffer, with the bytes [f] still to come. *)
Definition ahead (c : client) (pos : Z) (f rest : list Z) : Prop :=
  0 ≤ pos ≤ blen (querybuf c) ∧ drop (Z.to_nat pos) (querybuf c) ++ f = rest.

(** [done] and [todo] are the arguments; the number of bytes of the first of
    [todo] may be known already. *)
Definition in_args (c : client) (done todo : list (list Z)) : Prop :=
  multibulklen c = Z.of_nat (length todo) ∧ argv c = done ∧
  (bulklen c = -1 ∨ ∃ a t, todo = a :: t ∧ bulklen c = blen a).

(** What [todo] looks like then. *)
Definition left_of (bl : Z) (todo : list (list Z)) : list Z :=
  if bl =? -1 then bulks todo else match todo with [] => [] | a :: todo => a ++ crlf ++ bulks todo end.

(** A step that reads at least [k] bytes. *)
Definition advance (k : Z) (c : client) (pos : Z) (c' : client) (pos' : Z) : Prop :=
  conn c' = conn c ∧ blen (querybuf c') ≤ blen (querybuf c) ∧ blen (querybuf c') - pos' + k ≤ blen (querybuf c) - pos.

(** The buffer when an argument is read: a read never goes beyond the end of a
    big one. *)
Definition QUERY_LIMIT : Z := REDIS_MBULK_BIG_ARG + REDIS_IOBUF_LEN.
Definition fits (c : client) (pos : Z) : Prop :=
  blen (querybuf c) ≤ QUERY_LIMIT ∨
  (pos = 0 ∧ REDIS_MBULK_BIG_ARG ≤ bulklen c ∧ blen (querybuf c) ≤ bulklen c + 2).

Lemma ahead_blen c pos : 0 ≤ pos ≤ blen (querybuf c) →
  blen (drop (Z.to_nat pos) (querybuf c)) = blen (querybuf c) - pos.
Proof. unfold blen. rewrite length_drop. lia. Qed.

Lemma ahead_skip c pos f a rest :
  ahead c pos f (a ++ rest) → blen a ≤ blen (querybuf c) - pos →
  take (length a) (drop (Z.to_nat pos) (querybuf c)) = a ∧
  drop (Z.to_nat (pos + blen a)) (querybuf c) ++ f = rest.
Proof.
  intros [Hp E] Hl. pose proof (ahead_blen c pos Hp) as Hd. apply app_eq_inv in E as [(k & Ek & ->)|(k & Ek & ->)].
  - replace (Z.to_nat (pos + blen a)) with (Z.to_nat pos + length a)%nat by (unfold blen; lia).
    rewrite <-drop_drop, Ek, take_app_length, drop_app_length. done.
  - rewrite Ek, blen_app in Hl. pose proof (blen_nonneg k).
    assert (k = []) as -> by (destruct k; [done|rewrite blen_cons in *; pose proof (blen_nonneg k); lia]).
    rewrite app_nil_r in Ek. subst a. split; [apply take_ge; done|].
    rewrite drop_ge; [done|]. unfold blen in *. lia.
Qed.

Lemma read_bulk_ok c pos f a rest :
  bulklen c = blen a → blen a ≤ 512 * 1024 * 1024 → fits c pos → ahead c pos f (a ++ crlf ++ rest) →
  (read_bulk c pos = Some (BulkBreak c pos) ∧ blen (querybuf c) - pos < blen a + 2) ∨
  (∃ c' pos', read_bulk c pos = Some (BulkNext c' pos') ∧ ahead c' pos' f rest ∧ advance 1 c pos c' pos' ∧
     multibulklen c' = multibulklen c - 1 ∧ bulklen c' = -1 ∧ argv c' = argv c ++ [a] ∧
     blen (querybuf c') ≤ QUERY_LIMIT).
Proof.
  intros Hbl Ha Hfit Hah. pose proof (blen_nonneg a) as Ha0. unfold read_bulk. rewrite !Hbl.
  assert (0 ≤ blen (querybuf c) - pos < 2 ^ 63) as Hq.
  { destruct Hah as [Hp _]. unfold fits in Hfit. rewrite Hbl in Hfit.
    unfold QUERY_LIMIT, REDIS_MBULK_BIG_ARG, REDIS_IOBUF_LEN in *. unlimit. lia. }
  rewrite (wrapu_small 64) by (unlimit; lia). rewrite (wrapu_small 32) by (unlimit; lia).
  destruct (Z.ltb_spec (blen (querybuf c) - pos) (blen a + 2)) as [Hlt|Hge]; [by left|]. right.
  destruct (ahead_skip c pos f (a ++ crlf) rest) as [Ht Hd].
  { by rewrite <-(assoc_L (++)). } { rewrite blen_app. change (blen crlf) with 2. lia. }
  rewrite blen_app in Hd. change (blen crlf) with 2 in Hd.
  destruct Hah as [Hp E]. destruct ((pos =? 0) && _ && _) eqn:Eopt.
  - rewrite !andb_true_iff, !Z.eqb_eq in Eopt. destruct Eopt as [[-> Hbig] Hlen]. cbn [Z.to_nat drop] in *.
    assert (querybuf c = a ++ crlf) as Eq.
    { rewrite <-Ht. symmetry. apply take_ge. rewrite length_app. unfold blen in Hlen. change (length crlf) with 2%nat. lia. }
    assert (mload (querybuf c) 0 (blen (querybuf c) - 2) = Some a) as ->
      by (rewrite Eq, Hlen in *; replace (blen a + 2 - 2) with (blen a) by lia; apply mload_prefix).
    eexists _, 0. split; [done|]. unfold ahead, advance, conn. cbn [querybuf set_querybuf set_request]. split.
    { split; [change (blen []) with 0; lia|]. rewrite drop_ge in Hd by (unfold blen in *; lia). done. }
    split; [change (blen []) with 0; split_and!; done || lia|]. by split_and!.
  - assert (mload (querybuf c) pos (blen a) = Some a) as ->.
    { rewrite mload_slice by lia. f_equal. rewrite (slice_drop _ pos pos _ 0), drop_0 by lia.
      replace (Z.to_nat (pos + blen a - pos)) with (length a) by (unfold blen; lia).
      apply (f_equal (take (length a))) in Ht. rewrite take_take, take_app_length in Ht.
      rewrite <-Ht at 2. f_equal. rewrite length_app. lia. }
    eexists _, _. split; [done|]. unfold ahead, advance, conn. cbn [querybuf set_querybuf set_request].
    split; [split; [lia|done]|]. split; [split_and!; done || lia|]. split_and!; try done.
    destruct Hfit as [|(-> & Hbig & Hle)]; [done|]. rewrite Hbl in *.
    assert (blen (querybuf c) = blen a + 2) as El by lia.
    by rewrite (proj2 (Z.leb_le _ _) Hbig), El, !Z.eqb_refl in Eopt.
Qed.

Lemma bulks_cons a todo : bulks (a :: todo) = line ch_dollar (blen a) ++ a ++ crlf ++ bulks todo.
Proof. unfold bulks. cbn [fmap list_fmap concat]. unfold bulk. by rewrite <-!(assoc_L (++)). Qed.

(** The header of the argument: incomplete, or read, and the argument is next. *)
Lemma bulk_step_header c pos f a rest :
  bulklen c = -1 → blen a ≤ 512 * 1024 * 1024 → blen (querybuf c) ≤ QUERY_LIMIT →
  ahead c pos f (line ch_dollar (blen a) ++ a ++ crlf ++ rest) →
  (bulk_step c pos = Some (BulkBreak c pos) ∧ blen (querybuf c) - pos < blen (line ch_dollar (blen a))) ∨
  (∃ c' pos', bulk_step c pos = read_bulk c' pos' ∧ ahead c' pos' f (a ++ crlf ++ rest) ∧ advance 1 c pos c' pos' ∧
     multibulklen c' = multibulklen c ∧ bulklen c' = blen a ∧ argv c' = argv c).
Proof.
  intros Hbl Ha Hlim [Hp E]. pose proof (blen_nonneg a) as Ha0. unfold bulk_step. rewrite Hbl. cbn [Z.eqb].
  assert (in_i64 (blen a)) as Hin by (unlimit; lia).
  destruct (read_line _ _ _ _ _ _ Hin (or_intror eq_refl) Hp E)
    as [[Hlt Hnl]|(nl & -> & Enl & Hle & -> & -> & Hd)].
  - left. split; [|done]. unfold QUERY_LIMIT, REDIS_MBULK_BIG_ARG, REDIS_IOBUF_LEN in *.
    rewrite (proj2 (Z.ltb_ge _ _)) by (unfold REDIS_INLINE_MAX_SIZE; lia).
    destruct (strchr_from _ _ _) as [nl|]; [|done]. by rewrite (proj2 (Z.ltb_lt _ _)).
  - right. pose proof (blen_nonneg (ll_text (blen a))).
    rewrite (proj2 (Z.ltb_ge _ _)) by lia. cbn [mbind option_bind]. rewrite Z.eqb_refl. cbn [negb].
    rewrite string2ll_text by done.
    rewrite (proj2 (Z.ltb_ge _ _)), (proj2 (Z.ltb_ge _ _)) by lia. cbn [orb].
    replace (pos + (nl - pos + 2)) with (nl + 2) by lia.
    destruct (_ <=? blen a); eexists _, _; (split; [reflexivity|]); unfold ahead, advance, conn;
      cbn [querybuf trim_to set_querybuf set_request reqtype fl_close_after_reply fl_blocked reply multibulklen bulklen argv].
    + assert (blen (drop (Z.to_nat (nl + 2)) (querybuf c)) = blen (querybuf c) - (nl + 2)) as Hdl
        by (apply ahead_blen; lia).
      rewrite Hdl. split_and!; try done; lia.
    + split_and!; try done; lia.
Qed.

(** The step had to stop for want of bytes. *)
Definition waits (c : client) (pos : Z) (f : list Z) : Prop :=
  f ≠ [] ∧
  (blen (querybuf c) - pos ≤ REDIS_MBULK_BIG_ARG ∨
   (REDIS_MBULK_BIG_ARG ≤ bulklen c ∧ blen (querybuf c) - pos < bulklen c + 2)).

Lemma ahead_more c pos f a rest : ahead c pos f (a ++ rest) → blen (querybuf c) - pos < blen a → f ≠ [].
Proof.
  intros [Hp E] Hl ->. rewrite app_nil_r in E. pose proof (ahead_blen c pos Hp) as Hd.
  rewrite E, blen_app in Hd. pose proof (blen_nonneg rest). lia.
Qed.

Lemma advance_trans i j c p c1 p1 c2 p2 : advance i c p c1 p1 → advance j c1 p1 c2 p2 → advance (i + j) c p c2 p2.
Proof. intros (E1 & ? & ?) (E2 & ? & ?). split; [congruence|lia]. Qed.

Lemma advance_weaken i j c p c' p' : j ≤ i → advance i c p c' p' → advance j c p c' p'.
Proof. intros ? (? & ? & ?). split_and!; done || lia. Qed.

Lemma advance_refl c p : advance 0 c p c p.
Proof. split_and!; done || lia. Qed.

Lemma left_of_known a todo rest : left_of (blen a) (a :: todo) ++ rest = a ++ crlf ++ bulks todo ++ rest.
Proof.
  unfold left_of. rewrite (proj2 (Z.eqb_neq _ _)) by (pose proof (blen_nonneg a); lia).
  by rewrite <-!(assoc_L (++)).
Qed.

Lemma left_of_unknown a todo rest :
  left_of (-1) (a :: todo) ++ rest = line ch_dollar (blen a) ++ a ++ crlf ++ bulks todo ++ rest.
Proof. unfold left_of. rewrite Z.eqb_refl, bulks_cons. by rewrite <-!(assoc_L (++)). Qed.

(** What a turn of the loop may come to, for the next argument [a]. *)
Definition turn_ok (c : client) (pos : Z) (f : list Z) (done : list (list Z)) (a : list Z) (todo : list (list Z))
    (rest : list Z) (t : option bulk_turn) : Prop :=
  (∃ c' pos', t = Some (BulkBreak c' pos') ∧ in_args c' done (a :: todo) ∧
     ahead c' pos' f (left_of (bulklen c') (a :: todo) ++ rest) ∧ advance 0 c pos c' pos' ∧ waits c' pos' f) ∨
  (∃ c' pos', t = Some (BulkNext c' pos') ∧ in_args c' (done ++ [a]) todo ∧ bulklen c' = -1 ∧
     ahead c' pos' f (bulks todo ++ rest) ∧ advance 1 c pos c' pos' ∧ blen (querybuf c') ≤ QUERY_LIMIT).

Lemma read_bulk_turn c pos f done a todo rest :
  in_args c done (a :: todo) → bulklen c = blen a → blen a ≤ 512 * 1024 * 1024 → fits c pos →
  ahead c pos f (a ++ crlf ++ bulks todo ++ rest) →
  turn_ok c pos f done a todo rest (read_bulk c pos).
Proof.
  intros (Hm & Hargv & _) Hbl Ha Hfit Hah. unfold turn_ok.
  destruct (read_bulk_ok c pos f a (bulks todo ++ rest) Hbl Ha Hfit Hah)
    as [[-> Hlt]|(c' & pos' & -> & Hah' & Hadv & Hm' & Hb' & Hv' & Hq')].
  - left. exists c, pos. rewrite Hbl, left_of_known. split_and!; [done| |done|apply advance_refl|].
    + split_and!; [done|done|right]. by exists a, todo.
    + split; [refine (ahead_more c pos f (a ++ crlf) (bulks todo ++ rest) _ _); [by rewrite <-(assoc_L (++))|]|].
      * rewrite blen_app. change (blen crlf) with 2. lia.
      * rewrite Hbl. destruct (Z.lt_ge_cases (blen a) REDIS_MBULK_BIG_ARG); [left|right]; [|lia].
        destruct Hfit as [?|(-> & ? & ?)]; lia.
  - right. exists c', pos'. rewrite Hargv in Hv'. assert (in_args c' (done ++ [a]) todo); [|by split_and!].
    split_and!; [|done|by left]. rewrite Hm', Hm. cbn [length]. lia.
Qed.

Lemma bulk_step_ok c pos f done a todo rest :
  in_args c done (a :: todo) → blen a ≤ 512 * 1024 * 1024 → fits c pos →
  ahead c pos f (left_of (bulklen c) (a :: todo) ++ rest) →
  turn_ok c pos f done a todo rest (bulk_step c pos).
Proof.
  intros Hin Ha Hfit Hah. pose proof (blen_nonneg a) as Ha0.
  destruct Hin as (Hm & Hargv & [Hbl|(a' & t & [= <- <-] & Hbl)]); cycle 1.
  { unfold bulk_step. rewrite (proj2 (Z.eqb_neq _ _)) by lia. rewrite Hbl, left_of_known in Hah.
    apply read_bulk_turn; try done. split_and!; [done|done|right]. by exists a, todo. }
  assert (blen (querybuf c) ≤ QUERY_LIMIT) as Hlim.
  { destruct Hfit as [|(_ & Hbig & _)]; [done|]. unfold REDIS_MBULK_BIG_ARG in Hbig. lia. }
  rewrite Hbl, left_of_unknown in Hah.
  destruct (bulk_step_header c pos f a (bulks todo ++ rest) Hbl Ha Hlim Hah)
    as [[-> Hlt]|(c' & pos' & -> & Hah' & Hadv & Hm' & Hb' & Hv')].
  - left. exists c, pos. rewrite Hbl. split_and!; [done| |by rewrite left_of_unknown|apply advance_refl|].
    + split_and!; [done|done|by left].
    + split; [exact (ahead_more _ _ _ _ _ Hah Hlt)|left].
      destruct (blen_line ch_dollar (blen a)) as (_ & _ & Hl); [unlimit; lia|]. unfold REDIS_MBULK_BIG_ARG. lia.
  - assert (turn_ok c' pos' f done a todo rest (read_bulk c' pos')) as Ht.
    { apply read_bulk_turn; try done.
      - split_and!; [congruence|congruence|right]. by exists a, todo.
      - left. destruct Hadv as (_ & ? & _). lia. }
    destruct Ht as [(c2 & p2 & E & ? & ? & Hadv2 & ?)|(c2 & p2 & E & ? & ? & ? & Hadv2 & ?)]; [left|right];
      exists c2, p2; split_and!; try done; (eapply advance_weaken; [|by eapply advance_trans]; lia).
Qed.

(** The loop reads the arguments [d]; it has read all of them, or waits. *)
Lemma bulk_loop_ok fuel : ∀ c pos f done todo rest,
  in_args c done todo → Forall (λ a, blen a ≤ 512 * 1024 * 1024) todo → fits c pos →
  ahead c pos f (left_of (bulklen c) todo ++ rest) → blen (querybuf c) - pos < Z.of_nat fuel →
  ∃ c' pos' d t, bulk_loop fuel c pos = Some (inl (c', pos')) ∧ todo = d ++ t ∧ in_args c' (done ++ d) t ∧
    ahead c' pos' f (left_of (bulklen c') t ++ rest) ∧ advance 0 c pos c' pos' ∧
    (d = [] ∨ blen (querybuf c') ≤ QUERY_LIMIT) ∧ (t = [] ∨ waits c' pos' f).
Proof.
  induction fuel as [|fuel IH]; intros c pos f done todo rest Hin Hall Hfit Hah Hfuel;
    destruct Hin as (Hm & Hargv & Hbl).
  { destruct Hah as [? _]. lia. }
  cbn [bulk_loop]. rewrite Hm. destruct todo as [|a todo].
  { cbn [length]. change (Z.of_nat 0 =? 0) with true. exists c, pos, [], []. rewrite !app_nil_r.
    do 2 (split; [done|]). split; [done|]. do 2 (split; [done || apply advance_refl|]). by split; left. }
  apply Forall_cons in Hall as [Ha Hall]. rewrite (proj2 (Z.eqb_neq _ _)) by (cbn [length]; lia).
  destruct (bulk_step_ok c pos f done a todo rest) as
    [(c' & pos' & -> & Hin' & Hah' & Hadv & Hw)|(c' & pos' & -> & Hin' & Hb' & Hah' & Hadv & Hq)]; try done;
    cbn [mbind option_bind].
  - exists c', pos', [], (a :: todo). rewrite app_nil_r.
    do 5 (split; [done|]). split; [by left|by right].
  - destruct (IH c' pos' f (done ++ [a]) todo rest) as (c2 & p2 & d & t & -> & -> & Hin2 & Hah2 & Hadv2 & Hq2 & Hw);
      [done|done|by left|rewrite Hb'; done|destruct Hadv as (_ & _ & ?); lia|].
    exists c2, p2, (a :: d), t. rewrite <-(assoc_L (++)) in Hin2. do 4 (split; [done|]). split; [|split; [right; destruct Hadv2 as (_ & ? & _); lia|done]].
    eapply advance_weaken; [|by eapply advance_trans]. lia.
Qed.

(** ** Between the reads *)

(** The commands [cmds] are in the bytes [total] that the buffer begins. *)
Inductive expects (c : client) : list Z → list (list (list Z)) → Prop :=
| expects_idle cmds :
    reqtype c = 0 ∨ (reqtype c = REDIS_REQ_MULTIBULK ∧ cmds ≠ []) →
    multibulklen c = 0 → bulklen c = -1 → argv c = [] → expects c (requests cmds) cmds
| expects_args done todo cmds :
    reqtype c = REDIS_REQ_MULTIBULK → todo ≠ [] → in_args c done todo →
    expects c (left_of (bulklen c) todo ++ requests cmds) ((done ++ todo) :: cmds).

Lemma requests_cons args cmds : requests (args :: cmds) = line ch_star (Z.of_nat (length args)) ++ bulks args ++ requests cmds.
Proof. unfold requests, request. cbn [fmap list_fmap concat]. by rewrite <-(assoc_L (++)). Qed.

Lemma left_of_pos bl a todo : (bl = -1 ∨ bl = blen a) → 0 < blen (left_of bl (a :: todo)).
Proof.
  intros [-> | ->].
  - rewrite <-(app_nil_r (left_of _ _)), left_of_unknown, blen_app. unfold line. rewrite blen_cons.
    pose proof (blen_nonneg (ll_text (blen a) ++ crlf)). pose proof (blen_nonneg (a ++ crlf ++ bulks todo ++ [])). lia.
  - rewrite <-(app_nil_r (left_of _ _)), left_of_known, !blen_app. change (blen crlf) with 2.
    pose proof (blen_nonneg a). pose proof (blen_nonneg (bulks todo)). change (blen []) with 0. lia.
Qed.

Lemma expects_progress c total args cmds : expects c total (args :: cmds) → blen (requests cmds) < blen total.
Proof.
  intros Hex. inversion Hex as [? Hr Hm Hb Ha E1 E2|done todo ? Hr Hne Hin E1 E2]; subst.
  - rewrite requests_cons, !blen_app. unfold line. rewrite blen_cons, blen_app.
    pose proof (blen_nonneg (ll_text (Z.of_nat (length args)))). pose proof (blen_nonneg (bulks args)).
    change (blen crlf) with 2. lia.
  - destruct todo as [|a todo]; [done|]. rewrite blen_app.
    assert (0 < blen (left_of (bulklen c) (a :: todo))); [|lia]. apply left_of_pos.
    destruct Hin as (_ & _ & [?|(? & ? & [= <- <-] & ?)]); auto.
Qed.

Lemma expects_end c : expects c [] [] → reqtype c = 0 ∧ multibulklen c = 0 ∧ bulklen c = -1 ∧ argv c = [].
Proof. intros Hex. inversion Hex as [? [?|[_ ?]] ??? E1 E2|]; subst; done. Qed.

Lemma expects_nil c cmds : expects c [] cmds → cmds = [].
Proof.
  intros Hex. destruct cmds as [|args cmds]; [done|]. pose proof (expects_progress _ _ _ _ Hex).
  pose proof (blen_nonneg (requests cmds)). rewrite blen_nil in *. lia.
Qed.

Lemma expects_none c total : expects c total [] → total = [].
Proof. intros Hex. by inversion Hex. Qed.

(** What processMultibulkBuffer comes to when the command [args] is next. *)
Definition parse_ok (c : client) (f : list Z) (args : list (list Z)) (cmds : list (list (list Z)))
    (r : option (client * bool)) : Prop :=
  ∃ c' ok, r = Some (c', ok) ∧ conn c' = conn c ∧ blen (querybuf c') ≤ blen (querybuf c) ∧
    if ok : bool then argv c' = args ∧ querybuf c' ++ f = requests cmds ∧ blen (querybuf c') ≤ QUERY_LIMIT
    else expects c' (querybuf c' ++ f) (args :: cmds) ∧ waits c' 0 f.

Lemma process_bulks_ok c pos f done todo cmds :
  reqtype c = REDIS_REQ_MULTIBULK → in_args c done todo → todo ≠ [] →
  Forall (λ a, blen a ≤ 512 * 1024 * 1024) todo → fits c pos →
  ahead c pos f (left_of (bulklen c) todo ++ requests cmds) →
  parse_ok c f (done ++ todo) cmds (process_bulks c pos).
Proof.
  intros Hr Hin Hne Hall Hfit Hah. unfold process_bulks.
  assert (multibulklen c = Z.of_nat (length todo)) as Hm by apply Hin.
  assert (0 < length todo)%nat by (destruct todo; [done|cbn; lia]).
  rewrite (proj2 (Z.ltb_lt _ _)) by lia. cbn [negb].
  destruct (bulk_loop_ok (S (length (querybuf c))) c pos f done todo (requests cmds) Hin Hall Hfit Hah)
    as (c1 & p1 & d & t & -> & -> & Hin1 & [Hp1 E1] & (Hconn & Hq1 & _) & Hd & Hw).
  { destruct Hah as [? _]. unfold blen. lia. }
  cbn [mbind option_bind]. set (c2 := if negb (p1 =? 0) then trim_to c1 p1 else c1).
  assert (querybuf c2 = drop (Z.to_nat p1) (querybuf c1) ∧ conn c2 = conn c1 ∧ multibulklen c2 = multibulklen c1 ∧
    bulklen c2 = bulklen c1 ∧ argv c2 = argv c1) as (Eq2 & Hc2 & Hm2 & Hb2 & Ha2)
    by (subst c2; destruct (Z.eqb_spec p1 0) as [->|]; done).
  pose proof (ahead_blen c1 p1 Hp1) as Hl. rewrite <-Eq2 in Hl. clearbody c2.
  destruct Hin1 as (Hm1 & Hv1 & Hb1).
  eexists _, _. split; [reflexivity|]. split; [congruence|]. split; [lia|]. rewrite Hm2, Hm1.
  destruct t as [|a t].
  - change (Z.of_nat (length []) =? 0) with true. cbn iota. rewrite Ha2, Hv1, app_nil_r, Eq2, E1. split; [done|].
    assert (bulklen c1 = -1) as -> by (destruct Hb1 as [|(? & ? & [=] & _)]; done). split; [done|].
    rewrite <-Eq2. rewrite app_nil_r in Hne. destruct Hd as [->|]; [done|lia].
  - rewrite (proj2 (Z.eqb_neq _ _)) by (cbn [length]; lia). destruct Hw as [[=]|Hw].
    split; [|unfold waits in *; rewrite Hb2, Hl, Z.sub_0_r; done].
    rewrite Eq2, E1, (assoc_L (++)), <-Hb2. constructor; [unfold conn in *; congruence|done|].
    split; [congruence|]. split; [congruence|]. by rewrite Hb2.
Qed.

Lemma processMultibulkBuffer_ok c f args cmds :
  reqtype c = REDIS_REQ_MULTIBULK → expects c (querybuf c ++ f) (args :: cmds) → allowed args → fits c 0 →
  parse_ok c f args cmds (processMultibulkBuffer c).
Proof.
  intros Hr Hex (Hn0 & Hn & Hall) Hfit. unfold processMultibulkBuffer.
  inversion Hex as [? _ Hm Hb Ha E1 E2|done todo ? _ Hne Hin E1 E2]; subst.
  - rewrite Hm, Ha. cbn [Z.eqb bool_decide]. rewrite bool_decide_true by done. cbn [negb].
    assert (blen (querybuf c) ≤ QUERY_LIMIT) as Hlim.
    { destruct Hfit as [|(_ & Hbig & _)]; [done|]. unfold REDIS_MBULK_BIG_ARG in Hbig. lia. }
    assert (in_i64 (Z.of_nat (length args))) as Hin by (unlimit; lia).
    rewrite requests_cons in E1. symmetry in E1. pose proof (blen_nonneg (querybuf c)) as Hq0.
    destruct (read_line (querybuf c) 0 f _ _ _ Hin (or_introl eq_refl) ltac:(lia) E1)
      as [[Hlt Hnl]|(nl & -> & Enl & Hle & -> & Hs & Hd)].
    + assert (match strchr_from (querybuf c) 0 ch_cr with
        | None => Some (if REDIS_INLINE_MAX_SIZE <? blen (querybuf c) then protocol_fail c TooBigMbulkCount 0 else c, false)
        | Some newline => Some (c, false) end = Some (c, false)) as E.
      { destruct (strchr_from _ _ _); [done|]. rewrite (proj2 (Z.ltb_ge _ _)); [done|].
        unfold REDIS_INLINE_MAX_SIZE, QUERY_LIMIT, REDIS_MBULK_BIG_ARG, REDIS_IOBUF_LEN in *. lia. }
      exists c, false. split; [|split; [done|split; [lia|]]].
      * destruct (strchr_from _ _ _); [by rewrite (proj2 (Z.ltb_lt _ _))|done].
      * split; [done|]. split.
        -- refine (ahead_more c 0 f (line ch_star (Z.of_nat (length args))) (bulks args ++ requests cmds) _ _); [|done].
           split; [lia|done].
        -- left. destruct (blen_line ch_star _ Hin) as (_ & _ & ?). unfold REDIS_MBULK_BIG_ARG. lia.
    + rewrite (proj2 (Z.ltb_ge _ _)) by lia. cbn [mbind option_bind]. rewrite Z.eqb_refl. cbn [negb].
      change (0 + 1) with 1 in Hs. rewrite Hs. cbn [mbind option_bind]. rewrite string2ll_text by done.
      rewrite (proj2 (Z.ltb_ge _ _)), (proj2 (Z.leb_gt _ _)) by lia. pose proof (blen_nonneg (ll_text (Z.of_nat (length args)))).
      refine (process_bulks_ok _ (nl + 2) f [] args cmds _ _ _ _ _ _); try done.
      * split_and!; [done|done|by left].
      * by destruct args; [cbn in Hn0; lia|].
      * by left.
      * cbn [bulklen set_request]. rewrite Hb. split; [cbn [querybuf set_request]; lia|].
        cbn [querybuf set_request]. rewrite Hd. done.
  - apply Forall_app in Hall as [_ Hall]. assert (multibulklen c = Z.of_nat (length todo)) as Hm by apply Hin.
    rewrite (proj2 (Z.eqb_neq _ _)) by (destruct todo; [done|cbn [length] in *; lia]).
    apply process_bulks_ok; try done. split; [pose proof (blen_nonneg (querybuf c)); lia|]. by rewrite E1.
Qed.

(** The client between two reads: the buffer is empty or a request is cut short. *)
Definition rested (c : client) (f : list Z) : Prop :=
  (querybuf c = [] ∨ f ≠ []) ∧
  (blen (querybuf c) ≤ REDIS_MBULK_BIG_ARG ∨
   (REDIS_MBULK_BIG_ARG ≤ bulklen c ∧ blen (querybuf c) < bulklen c + 2)).

Lemma waits_rested c f : waits c 0 f → rested c f.
Proof. intros [Hf Hw]. rewrite Z.sub_0_r in Hw. split; [by right|done]. Qed.

(** A client that has nothing left to do. *)
Definition idle (c : client) : Prop :=
  querybuf c = [] ∧ reqtype c = 0 ∧ multibulklen c = 0 ∧ bulklen c = -1 ∧ argv c = [].
Definition open (c : client) : Prop := fl_blocked c = false ∧ fl_close_after_reply c = false.

Lemma expects_multibulk c total cmds :
  expects c total cmds → total ≠ [] →
  expects (set_request c REDIS_REQ_MULTIBULK (multibulklen c) (bulklen c) (argv c)) total cmds ∧
  (reqtype c = REDIS_REQ_MULTIBULK ∨ (reqtype c = 0 ∧ ∃ r, total = ch_star :: r)).
Proof.
  intros Hex Hne. inversion Hex as [? Hr Hm Hb Ha E1 E2|done todo ? Hr ? Hin E1 E2]; subst.
  - assert (cmds ≠ []) as Hc by (intros ->; done). split; [constructor; cbn; auto|].
    destruct Hr as [Hr|[Hr _]]; [right|by left]. split; [done|]. destruct cmds as [|args cmds]; [done|].
    rewrite requests_cons. by eexists.
  - split; [|by left]. by apply (expects_args (set_request c REDIS_REQ_MULTIBULK (multibulklen c) (bulklen c) (argv c))).
Qed.

Section serving.
Context {S : Type} `{!Commands S} (junk : nat → Z) (unixtime : Z).

(** The commands, one after the other. *)
Definition exec (s : S) (cmds : list (list (list Z))) : S := foldl (λ s args, (processCommand s args).1) s cmds.

(** Commands that complete: no blocking, no closing of the connection. *)
Definition completes (cmds : list (list (list Z))) : Prop :=
  ∀ s args, args ∈ cmds → (processCommand s args).2 = CmdResult true false false.

(** The client [c'] after the bytes [f] short of the commands [cmds]; the state [s']
    is the one after those commands that are complete. *)
Definition progress (s : S) (c : client) (f : list Z) (cmds : list (list (list Z))) (s' : S) (c' : client) : Prop :=
  ∃ d t, cmds = d ++ t ∧ s' = exec s d ∧ open c' ∧ reply c' = reply c ∧ expects c' (querybuf c' ++ f) t ∧ rested c' f.

Lemma progress_cons s c f args cmds s' c' c0 :
  reply c0 = reply c → progress (processCommand s args).1 c0 f cmds s' c' → progress s c f (args :: cmds) s' c'.
Proof.
  intros Hr (d & t & -> & -> & Ho & Hr' & Hex & Hrest). exists (args :: d), t. split_and!; try done; try apply Ho; try apply Hrest.
  congruence.
Qed.

Lemma processInputBuffer_ok fuel : ∀ s c f cmds,
  (length (querybuf c) < fuel)%nat → open c → Forall allowed cmds → completes cmds →
  expects c (querybuf c ++ f) cmds → querybuf c = [] ∧ rested c f ∨ fits c 0 ∧ querybuf c ≠ [] →
  ∃ s' c', processInputBuffer junk unixtime fuel s c = Some (s', c') ∧ progress s c f cmds s' c'.
Proof.
  induction fuel as [|fuel IH]; intros s c f cmds Hfuel [Hbk Hcl] Hall Hrun Hex Hcase; [lia|].
  cbn [processInputBuffer]. destruct Hcase as [[Hq Hrest]|[Hfit Hq]].
  { rewrite Hq. cbn. exists s, c. split; [done|]. exists [], cmds. by split_and!; try apply Hrest. }
  assert (1 ≤ blen (querybuf c)) as Hq1
    by (destruct (querybuf c) as [|x q]; [done|rewrite blen_cons; pose proof (blen_nonneg q); lia]).
  rewrite (proj2 (Z.eqb_neq _ _)) by lia. rewrite Hbk, Hcl.
  destruct (expects_multibulk _ _ _ Hex) as [Hex1 Htype]; [by destruct (querybuf c)|].
  destruct (querybuf c) as [|x q] eqn:Eq; [done|]. cbn [mget]. change (mget (x :: q) 0) with (Some x).
  cbn [mbind option_bind].
  assert ((if reqtype c =? 0 then if x =? ch_star then REDIS_REQ_MULTIBULK else REDIS_REQ_INLINE else reqtype c)
    = REDIS_REQ_MULTIBULK) as ->.
  { destruct Htype as [-> | [-> [r [= ->]]]]; done. }
  set (c1 := set_request c REDIS_REQ_MULTIBULK _ _ _) in *. cbn [Z.eqb REDIS_REQ_MULTIBULK REDIS_REQ_INLINE Pos.eqb].
  assert (querybuf c1 = x :: q) as Eq1 by done. rewrite <-Eq1 in Hex1.
  destruct cmds as [|args cmds].
  { by apply expects_none in Hex. }
  apply Forall_cons in Hall as [Hargs Hall].
  destruct (processMultibulkBuffer_ok c1 f args cmds) as (c' & ok & -> & Hconn & Hle & Hres); try done.
  cbn [mbind option_bind]. injection Hconn as Hrt Hc' Hb' Hrep. change (reply c1) with (reply c) in Hrep.
  assert (open c') as Hopen by (split; [rewrite Hb'|rewrite Hc']; done).
  destruct ok; cbn [negb]; cycle 1.
  { destruct Hres as [Hex' Hw]. exists s, c'. split; [done|]. exists [], (args :: cmds).
    split_and!; try done; try apply Hopen; by apply waits_rested. }
  destruct Hres as (Hargv & Eq' & Hlim). rewrite Hargv, (bool_decide_false (args = [])) by (destruct Hargs as [? _]; destruct args; cbn in *; lia || done).
  destruct (processCommand s args) as [s1 r] eqn:Ep. assert (r = CmdResult true false false) as ->.
  { change r with ((s1, r).2). rewrite <-Ep. apply Hrun. by left. }
  cbn [cmd_ok cmd_close cmd_blocked]. rewrite !orb_false_r.
  set (c2 := resetClient _).
  assert (querybuf c2 = querybuf c' ∧ open c2 ∧ reply c2 = reply c ∧ expects c2 (querybuf c' ++ f) cmds)
    as (Eq2 & Ho2 & Hrep2 & Hex2).
  { subst c2. unfold resetClient. destruct (negb _); rewrite Eq';
      (split; [done|split; [exact Hopen|split; [exact Hrep|]]]; constructor; auto). }
  pose proof (expects_progress _ _ _ _ Hex) as Hprog. rewrite <-Eq', !blen_app in Hprog.
  clearbody c2. destruct (IH s1 c2 f cmds) as (s' & c3 & -> & Hp); try done.
  - rewrite Eq2. unfold blen in Hprog. lia.
  - intros s0 args0 Hin. apply Hrun. by right.
  - by rewrite Eq2.
  - unfold rested, fits. rewrite Eq2. destruct (decide (querybuf c' = [])) as [E|E]; [left|right; split; [by left|done]].
    rewrite E. split; [done|]. split; [by left|]. left. change (blen []) with 0. unfold REDIS_MBULK_BIG_ARG. lia.
  - exists s', c3. split; [done|]. eapply (progress_cons s c f args cmds s' c3 c2); [done|]. by rewrite Ep.
Qed.

(** A big argument is being read. *)
Definition in_big (c : client) : Prop :=
  reqtype c = REDIS_REQ_MULTIBULK ∧ multibulklen c ≠ 0 ∧
  REDIS_MBULK_BIG_ARG ≤ bulklen c ≤ 512 * 1024 * 1024.

Lemma expects_bulklen c total cmds :
  expects c total cmds → Forall allowed cmds → in_big c ∨ bulklen c < REDIS_MBULK_BIG_ARG.
Proof.
  intros Hex Hall. inversion Hex as [? _ _ Hb|done todo ? Hr Hne (Hm & _ & Hb)]; subst.
  { right. unfold REDIS_MBULK_BIG_ARG. lia. }
  apply Forall_cons in Hall as [(_ & _ & Ha) _]. apply Forall_app in Ha as [_ Ha].
  destruct (Z.lt_ge_cases (bulklen c) REDIS_MBULK_BIG_ARG) as [|Hge]; [by right|left].
  destruct Hb as [Hb|(a & t & -> & Hb)]; [unfold REDIS_MBULK_BIG_ARG in Hge; lia|].
  apply Forall_cons in Ha as [Ha _]. split_and!; [done| |done|lia]. rewrite Hm. cbn [length]. lia.
Qed.

(** A read gets at least a byte, and the buffer keeps to its limits. *)
Lemma query_readlen_ok c f :
  rested c f → in_big c ∨ bulklen c < REDIS_MBULK_BIG_ARG →
  0 < query_readlen c ∧
  (blen (querybuf c) + query_readlen c ≤ QUERY_LIMIT ∨
   (REDIS_MBULK_BIG_ARG ≤ bulklen c ≤ 512 * 1024 * 1024 ∧ blen (querybuf c) + query_readlen c ≤ bulklen c + 2)).
Proof.
  intros [_ Hrest] Hbig. unfold query_readlen, QUERY_LIMIT. pose proof (blen_nonneg (querybuf c)) as Hq0.
  destruct Hbig as [(Hr & Hm & Hb)|Hb]; cycle 1.
  { rewrite (proj2 (Z.leb_gt _ _)), !andb_false_r by done. unfold REDIS_IOBUF_LEN. lia. }
  rewrite Hr, Z.eqb_refl, (proj2 (Z.eqb_neq _ _)), (proj2 (Z.eqb_neq _ _)), (proj2 (Z.leb_le _ _))
    by (unfold REDIS_MBULK_BIG_ARG in *; lia). cbn [negb andb].
  assert (blen (querybuf c) < bulklen c + 2) as Hq by (destruct Hrest; lia).
  unfold REDIS_MBULK_BIG_ARG in *. rewrite (wrapu_small 32 (bulklen c + 2)) by (unlimit; lia).
  rewrite wraps_small by (unlimit; lia). unfold REDIS_IOBUF_LEN. zcase; lia.
Qed.

Lemma readQueryFromClient_ok limit s c data f cmds :
  512 * 1024 * 1024 + 2 ≤ limit → open c → Forall allowed cmds → completes cmds → rested c (data ++ f) →
  expects c (querybuf c ++ data ++ f) cmds → data ≠ [] → blen data ≤ query_readlen c →
  ∃ s' c', readQueryFromClient junk unixtime limit s c data = Some (inl (s', c')) ∧ progress s c f cmds s' c'.
Proof.
  intros Hlim Ho Hall Hrun Hrest Hex Hd Hlen. unfold readQueryFromClient. cbn zeta.
  match goal with |- context [processInputBuffer _ _ _ _ ?x] => set (c1 := x) end.
  assert (querybuf c1 = querybuf c ++ data) as Eq1 by done.
  assert (expects c1 (querybuf c1 ++ f) cmds) as Hex1.
  { rewrite Eq1, <-(assoc_L (++)). inversion Hex; subst; [by apply expects_idle|by apply (expects_args c1)]. }
  assert (querybuf c1 ≠ []) as Hne by (rewrite Eq1; intros [_ ?]%app_eq_nil; done).
  assert (fits c1 0) as Hfit.
  { destruct (query_readlen_ok c _ Hrest (expects_bulklen _ _ _ Hex Hall)) as [_ Hq].
    unfold fits. rewrite Eq1, blen_app. change (bulklen c1) with (bulklen c). lia. }
  rewrite (proj2 (Z.ltb_ge _ _)); cycle 1.
  { destruct (query_readlen_ok c _ Hrest (expects_bulklen _ _ _ Hex Hall)) as [_ Hq].
    rewrite Eq1, blen_app. unfold QUERY_LIMIT, REDIS_MBULK_BIG_ARG, REDIS_IOBUF_LEN in *. lia. }
  destruct (processInputBuffer_ok (Datatypes.S (length (querybuf c1))) s c1 f cmds)
    as (s' & c' & -> & Hp); try done; [lia|by right|]. by exists s', c'.
Qed.

Lemma progress_trans s c cmds s1 c1 f1 t s2 c2 d :
  cmds = d ++ t → s1 = exec s d → reply c1 = reply c → progress s1 c1 f1 t s2 c2 → progress s c f1 cmds s2 c2.
Proof.
  intros -> -> Hr (d' & t' & -> & -> & Ho & Hr' & Hex & Hrest). exists (d ++ d'), t'.
  split_and!; try done; try apply Ho; try apply Hrest; [by rewrite (assoc_L (++))|unfold exec; by rewrite foldl_app|congruence].
Qed.

Lemma serve_ok limit : 512 * 1024 * 1024 + 2 ≤ limit → ∀ ks s c input cmds,
  open c → Forall allowed cmds → completes cmds → rested c input → expects c (querybuf c ++ input) cmds →
  ∃ s' c' rest, serve junk unixtime limit ks s c input = Some (s', c', rest) ∧ progress s c rest cmds s' c' ∧
    (Forall (λ k, 0 < k) ks → (length rest ≤ length input - length ks)%nat).
Proof.
  intros Hlim. induction ks as [|k ks IH]; intros s c input cmds Ho Hall Hrun Hrest Hex; cbn [serve].
  { exists s, c, input. split; [done|]. split; [|cbn; lia]. exists [], cmds. split_and!; done || apply Ho || apply Hrest. }
  set (n := Z.to_nat _). destruct (query_readlen_ok c _ Hrest (expects_bulklen _ _ _ Hex Hall)) as [Hpos _].
  destruct (bool_decide_reflect (take n input = [])) as [En|En].
  { destruct (IH s c input cmds) as (s' & c' & rest & -> & Hp & Hk); try done. exists s', c', rest.
    split; [done|]. split; [done|]. intros [Hk0 Hks]%Forall_cons. specialize (Hk Hks).
    assert (length input = 0)%nat; [|lia]. apply (f_equal length) in En. rewrite length_take in En. cbn in En. lia. }
  assert (take n input ++ drop n input = input) as Ei by apply take_drop.
  destruct (readQueryFromClient_ok limit s c (take n input) (drop n input) cmds) as (s1 & c1 & -> & Hp);
    try done; [by rewrite Ei..|unfold blen; rewrite length_take; lia|].
  cbn [mbind option_bind]. destruct Hp as (d & t & Ecmds & Es & Ho1 & Hr1 & Hex1 & Hrest1).
  assert (Forall allowed t) by (by rewrite Ecmds in Hall; apply Forall_app in Hall as [_ ?]).
  assert (completes t) by (intros s0 a Hin; apply Hrun; rewrite Ecmds; apply elem_of_app; by right).
  destruct (IH s1 c1 (drop n input) t) as (s' & c' & rest & -> & Hp & Hk); try done. exists s', c', rest.
  split; [done|]. split; [by eapply progress_trans|]. intros [Hk0 Hks]%Forall_cons. specialize (Hk Hks).
  rewrite length_drop in Hk. cbn [length]. lia.
Qed.

(** C4. The commands that the server writes to the append only file or to a slave,
    one after the other, are executed by the parser, in whatever pieces their bytes
    come: always a prefix of them, completely read and in their order, without an
    error reply; and when there were as many non empty reads as bytes, all of them,
    after which the client has nothing left. *)
Theorem requests_served (limit : Z) (ks : list Z) (s : S) (c : client) (cmds : list (list (list Z))) :
  512 * 1024 * 1024 + 2 ≤ limit → idle c → open c → Forall allowed cmds → completes cmds →
  let input := foldl catAppendOnlyGenericCommand [] cmds in
  ∃ s' c' rest d t, serve junk unixtime limit ks s c input = Some (s', c', rest) ∧
    cmds = d ++ t ∧ s' = foldl (λ s args, (processCommand s args).1) s d ∧ reply c' = reply c ∧
    (rest = [] → t = [] ∧ idle c') ∧
    (Forall (λ k, 0 < k) ks → (length input ≤ length ks)%nat → rest = []).
Proof.
  intros Hlim (Hq & Hr & Hm & Hb & Ha) Ho Hall Hrun input.
  assert (input = requests cmds) as ->.
  { subst input. rewrite <-(app_nil_l (requests cmds)). generalize (@nil Z). clear Hrun.
    induction Hall as [|args cmds Hargs _ IH]; intros dst; cbn [foldl]; [by rewrite app_nil_r|].
    rewrite catAppendOnlyGenericCommand_request, IH by done. unfold requests. cbn [fmap list_fmap concat]. by rewrite (assoc_L (++)). }
  destruct (serve_ok limit Hlim ks s c (requests cmds) cmds) as (s' & c' & rest & E & Hp & Hk); try done.
  { split; [by left|left]. rewrite Hq. by vm_compute. }
  { rewrite Hq. constructor; auto. }
  destruct Hp as (d & t & Ecmds & Es & Ho' & Hr' & Hex & [Hne _]).
  exists s', c', rest, d, t. split; [done|]. split; [done|]. split; [done|]. split; [done|]. split.
  - intros ->. rewrite app_nil_r in Hex. destruct Hne as [E'|]; [|done]. rewrite E' in Hex.
    pose proof (expects_nil _ _ Hex) as ->. split; [done|]. split; [done|]. by apply expects_end.
  - intros Hks Hl. specialize (Hk Hks). destruct rest; [done|cbn [length] in Hk; lia].
Qed.
End serving.

(** ** Any bytes *)

Lemma strchr_list_range s : ∀ i ch k, strchr_list s i ch = Some k → i ≤ k < i + blen s.
Proof.
  induction s as [|b s IH]; intros i ch k E; [done|]. cbn [strchr_list] in E. rewrite blen_cons.
  pose proof (blen_nonneg s). repeat case_match; simplify_eq; [lia|]. apply IH in E. lia.
Qed.

Lemma strchr_from_range buf pos ch k :
  0 ≤ pos ≤ blen buf → strchr_from buf pos ch = Some k → pos ≤ k < blen buf.
Proof. intros Hp E. apply strchr_list_range in E. unfold blen in *. rewrite length_drop in E. lia. Qed.

Lemma mget_inside buf i : 0 ≤ i < blen buf → ∃ b, mget buf i = Some b.
Proof.
  intros Hi. unfold mget. rewrite (proj2 (Z.leb_le 0 i)) by lia. unfold blen in Hi.
  destruct (lookup_lt_is_Some_2 buf (Z.to_nat i)) as [b ?]; [lia|]. by exists b.
Qed.

Definition MBULK_MAX : Z := 1024 * 1024.
Definition BULK_MAX : Z := 512 * 1024 * 1024.

(** The line end is not at a position with another byte. *)
Lemma strchr_from_next buf pos ch b k :
  0 ≤ pos ≤ blen buf → strchr_from buf pos ch = Some k → mget buf pos = Some b → b ≠ ch → pos + 1 ≤ k < blen buf.
Proof.
  intros Hp E Hb Hne. pose proof (strchr_from_range _ _ _ _ Hp E). unfold strchr_from in E. unfold mget in Hb.
  rewrite (proj2 (Z.leb_le 0 pos)) in Hb by lia. rewrite <-(Nat.add_0_r (Z.to_nat pos)), <-lookup_drop in Hb.
  destruct (drop (Z.to_nat pos) buf) as [|x l]; [done|]. injection Hb as ->. cbn [strchr_list] in E.
  rewrite (proj2 (Z.eqb_neq b ch)) in E by done. destruct (b =? ch_nul); [done|]. apply strchr_list_range in E. lia.
Qed.

(** The client that readQueryFromClient finds, unless it is being closed: the
    numbers are in their ranges, and a request whose arguments have not begun has
    left no trace but its type. *)
Definition client_ok (c : client) : Prop :=
  fl_close_after_reply c = true ∨
  (-1 ≤ bulklen c ≤ BULK_MAX ∧
   ((multibulklen c = 0 ∧ argv c = [] ∧ bulklen c = -1 ∧
      (reqtype c = 0 ∨ reqtype c = REDIS_REQ_INLINE ∨ (reqtype c = REDIS_REQ_MULTIBULK ∧ mget (querybuf c) 0 = Some ch_star))) ∨
    (0 < multibulklen c ≤ MBULK_MAX ∧ reqtype c = REDIS_REQ_MULTIBULK))).

(** An error reply, after which the connection is closed. *)
Definition fails (c c' : client) : Prop :=
  fl_close_after_reply c' = true ∧ ∃ e, reply c' = reply c ++ [e].

Lemma protocol_fail_fails c e pos : fails c (protocol_fail c e pos).
Proof. split; [done|by exists e]. Qed.

Lemma blen_drop_le (buf : list Z) n : blen (drop n buf) ≤ blen buf.
Proof. unfold blen. rewrite length_drop. lia. Qed.

Definition turn_total (c : client) (pos : Z) (t : bulk_turn) : Prop :=
  match t with
  | BulkNext c' p' => advance 1 c pos c' p' ∧ 0 ≤ p' ≤ blen (querybuf c') ∧ multibulklen c' = multibulklen c - 1 ∧ bulklen c' = -1
  | BulkBreak c' p' => advance 0 c pos c' p' ∧ 0 ≤ p' ≤ blen (querybuf c') ∧ multibulklen c' = multibulklen c ∧ -1 ≤ bulklen c' ≤ BULK_MAX
  | BulkErr c' => fails c c' ∧ blen (querybuf c') ≤ blen (querybuf c)
  end.

Lemma read_bulk_total c pos :
  0 ≤ pos ≤ blen (querybuf c) → blen (querybuf c) ≤ max_len → 0 ≤ bulklen c ≤ BULK_MAX →
  ∃ t, read_bulk c pos = Some t ∧ turn_total c pos t.
Proof.
  intros Hp Hm Hb. unfold read_bulk, max_len, BULK_MAX in *.
  rewrite (wrapu_small 64) by (unlimit; lia). rewrite (wrapu_small 32) by (unlimit; lia).
  destruct (Z.ltb_spec (blen (querybuf c) - pos) (bulklen c + 2)).
  { eexists. split; [done|]. split; [apply advance_refl|]. split_and!; done || unfold BULK_MAX; lia. }
  destruct (_ && _); rewrite mload_slice by lia; cbn [mbind option_bind]; (eexists; split; [done|]); cbn [turn_total]; unfold advance;
    cbn [querybuf set_querybuf set_request multibulklen bulklen]; (split; [split; [done|]|split; [|done]]).
  - change (blen []) with 0. lia.
  - change (blen []) with 0. lia.
  - lia.
  - lia.
Qed.

Lemma bulk_step_total c pos :
  0 ≤ pos ≤ blen (querybuf c) → blen (querybuf c) ≤ max_len → -1 ≤ bulklen c ≤ BULK_MAX →
  ∃ t, bulk_step c pos = Some t ∧ turn_total c pos t.
Proof.
  intros Hp Hm Hb. unfold bulk_step. destruct (Z.eqb_spec (bulklen c) (-1)) as [Hbl|Hbl]; cycle 1.
  { apply read_bulk_total; lia. }
  assert (∀ c' e p, c' = protocol_fail c e p → turn_total c pos (BulkErr c')) as Hfail.
  { intros c' e p ->. split; [apply protocol_fail_fails|apply blen_drop_le]. }
  assert (turn_total c pos (BulkBreak c pos)) as Hbreak.
  { split; [apply advance_refl|]. split_and!; done || unfold BULK_MAX in *; lia. }
  destruct (strchr_from _ _ _) as [nl|] eqn:Enl; cycle 1.
  { eexists. split; [done|]. destruct (_ <? _); [by eapply Hfail|done]. }
  pose proof (strchr_from_range _ _ _ _ Hp Enl).
  destruct (Z.ltb_spec (blen (querybuf c) - 2) nl); [by eexists|].
  destruct (mget_inside (querybuf c) pos) as (b & Eb); [lia|]. rewrite Eb. cbn [mbind option_bind].
  destruct (Z.eqb_spec b ch_dollar) as [->|]; cbn [negb]; [|eexists; split; [done|by eapply Hfail]].
  pose proof (strchr_from_next _ _ _ _ _ Hp Enl Eb ltac:(done)).
  rewrite mload_slice by lia. cbn [mbind option_bind].
  destruct (string2ll _) as [ll|]; [|eexists; split; [done|by eapply Hfail]].
  destruct ((ll <? 0) || _) eqn:Ell; [eexists; split; [done|by eapply Hfail]|].
  apply orb_false_iff in Ell as [Hl1%Z.ltb_ge Hl2%Z.ltb_ge]. replace (pos + (nl - pos + 2)) with (nl + 2) by lia.
  set (cp := if REDIS_MBULK_BIG_ARG <=? ll then _ else _).
  assert (∃ c1 p1, cp = (c1, p1) ∧ advance 1 c pos c1 p1 ∧ 0 ≤ p1 ≤ blen (querybuf c1) ∧ multibulklen c1 = multibulklen c)
    as (c1 & p1 & -> & Hadv & Hp1 & Hm1).
  { subst cp. pose proof (ahead_blen c (nl + 2) ltac:(lia)). destruct (_ <=? ll); eexists _, _; (split; [done|]);
      unfold advance; cbn [querybuf trim_to set_querybuf]; split_and!; try done; lia. }
  set (c2 := set_request _ _ _ _ _).
  destruct (read_bulk_total c2 p1) as (t & -> & Ht); [done| |by cbn|].
  { destruct Hadv as (_ & ? & _). cbn. lia. }
  eexists. split; [done|].
  assert (advance 1 c pos c2 p1) as Hadv2 by exact Hadv.
  destruct t as [c3 p3|c3 p3|c3]; cbn [turn_total] in *.
  - destruct Ht as (Ha & ? & Hm3 & ?). split; [eapply advance_weaken; [|by eapply advance_trans]; lia|].
    split_and!; try done; cbn [multibulklen set_request c2] in Hm3; lia.
  - destruct Ht as (Ha & ? & Hm3 & ?). split; [eapply advance_weaken; [|by eapply advance_trans]; lia|].
    split_and!; try done; cbn [multibulklen set_request c2] in Hm3; lia.
  - destruct Ht as [[Hcl [e Hr]] Hq], Hadv2 as (Hconn & ? & _). split; [|lia]. split; [done|]. exists e.
    injection Hconn as _ _ _ Hr'. change (reply c2) with (reply c1) in Hr. congruence.
Qed.

Definition bulks_total (c : client) (pos : Z) (r : client * Z + client) : Prop :=
  match r with
  | inl (c', p') =>
      advance 0 c pos c' p' ∧ 0 ≤ p' ≤ blen (querybuf c') ∧
      ((multibulklen c' = 0 ∧ (multibulklen c = 0 ∨ advance 1 c pos c' p')) ∨
       (0 < multibulklen c' ≤ multibulklen c ∧ -1 ≤ bulklen c' ≤ BULK_MAX))
  | inr c' => fails c c' ∧ blen (querybuf c') ≤ blen (querybuf c)
  end.

Lemma bulk_loop_total fuel : ∀ c pos,
  0 ≤ pos ≤ blen (querybuf c) → blen (querybuf c) ≤ max_len → -1 ≤ bulklen c ≤ BULK_MAX → 0 ≤ multibulklen c →
  blen (querybuf c) - pos < Z.of_nat fuel → ∃ r, bulk_loop fuel c pos = Some r ∧ bulks_total c pos r.
Proof.
  induction fuel as [|fuel IH]; intros c pos Hp Hm Hb Hmb Hf; [lia|]. cbn [bulk_loop].
  destruct (Z.eqb_spec (multibulklen c) 0) as [Hz|Hz].
  { eexists. split; [done|]. split; [apply advance_refl|]. split; [done|]. left. by split; [|left]. }
  destruct (bulk_step_total c pos Hp Hm Hb) as (t & -> & Ht). cbn [mbind option_bind].
  destruct t as [c1 p1|c1 p1|c1]; cbn [turn_total] in Ht; cycle 1.
  { destruct Ht as (Ha & Hp1 & Hm1 & Hb1). eexists. split; [done|]. split; [done|]. split; [done|]. right. lia. }
  { by eexists. }
  destruct Ht as (Ha & Hp1 & Hm1 & Hb1). pose proof Ha as (Hconn & Hq1 & Hadv).
  destruct (IH c1 p1) as (r & -> & Hr); [done|lia|unfold BULK_MAX; lia|lia|lia|].
  exists r. split; [done|]. destruct r as [[c2 p2]|c2]; cbn [bulks_total] in *.
  - destruct Hr as (Ha2 & Hp2 & Hr). pose proof (advance_trans _ _ _ _ _ _ _ _ Ha Ha2) as H1. change (1 + 0) with 1 in H1.
    split; [by eapply advance_weaken; [|done]|]. split; [done|]. destruct Hr as [[Hr _]|Hr]; [left|right]; [|lia].
    split; [done|]. by right.
  - destruct Hr as [[Hcl [e Hr]] Hq]. split; [|lia]. split; [done|]. exists e.
    injection Hconn as _ _ _ Hr'. congruence.
Qed.

(** What a parser comes to: a request is read, or the client is to be closed with
    an error, or waits for more. *)
Definition parse_total (c : client) (r : option (client * bool)) : Prop :=
  ∃ c' ok, r = Some (c', ok) ∧ blen (querybuf c') ≤ blen (querybuf c) ∧
    if ok : bool then blen (querybuf c') < blen (querybuf c) ∧ conn c' = conn c
    else fails c c' ∨ (conn c' = conn c ∧ client_ok c').

Lemma parse_fails c e pos : parse_total c (Some (protocol_fail c e pos, false)).
Proof.
  eexists _, _. split; [done|]. split; [apply blen_drop_le|]. left. apply protocol_fail_fails.
Qed.

Lemma parse_waits c : client_ok c → parse_total c (Some (c, false)).
Proof. intros Hc. exists c, false. split; [done|]. split; [done|]. by right. Qed.

Lemma process_bulks_total c pos :
  0 ≤ pos ≤ blen (querybuf c) → blen (querybuf c) ≤ max_len → -1 ≤ bulklen c ≤ BULK_MAX →
  0 < multibulklen c ≤ MBULK_MAX → reqtype c = REDIS_REQ_MULTIBULK → parse_total c (process_bulks c pos).
Proof.
  intros Hp Hm Hb Hmb Hr. unfold process_bulks. rewrite (proj2 (Z.ltb_lt _ _)) by lia. cbn [negb].
  destruct (bulk_loop_total (S (length (querybuf c))) c pos) as (r & -> & Ht); try done; [lia|unfold blen; lia|].
  cbn [mbind option_bind]. destruct r as [[c1 p1]|c1]; cbn [bulks_total] in Ht; cycle 1.
  { exists c1, false. split; [done|]. split; [apply Ht|]. left. apply Ht. }
  destruct Ht as ((Hconn & Hq & Ha) & Hp1 & Ht). set (c2 := if negb (p1 =? 0) then trim_to c1 p1 else c1).
  assert (blen (querybuf c2) = blen (querybuf c1) - p1 ∧ conn c2 = conn c1 ∧ multibulklen c2 = multibulklen c1 ∧
    bulklen c2 = bulklen c1) as (Eq2 & Hc2 & Hm2 & Hb2).
  { subst c2. pose proof (ahead_blen c1 p1 Hp1). destruct (Z.eqb_spec p1 0) as [->|]; split_and!; try done; cbn; lia. }
  clearbody c2. eexists _, _. split; [reflexivity|]. split; [lia|].
  rewrite Hm2. destruct Ht as [[Hz Hadv]|[Hpos Hbl]].
  - rewrite Hz. cbn [Z.eqb]. destruct Hadv as [?|(_ & _ & ?)]; [lia|]. split; [lia|congruence].
  - rewrite (proj2 (Z.eqb_neq _ _)) by lia. right. assert (conn c2 = conn c) as Hcc by congruence. split; [done|].
    right. rewrite Hb2, Hm2. split; [done|]. right. split; [lia|]. unfold conn in Hcc. congruence.
Qed.

Lemma processMultibulkBuffer_total c :
  blen (querybuf c) ≤ max_len → fl_close_after_reply c = false → client_ok c → reqtype c = REDIS_REQ_MULTIBULK →
  parse_total c (processMultibulkBuffer c).
Proof.
  intros Hm Hcl Hok Hr. pose proof Hok as Hok'. destruct Hok' as [|[Hb Hcase]]; [congruence|]. unfold processMultibulkBuffer.
  pose proof (blen_nonneg (querybuf c)) as Hq0.
  destruct Hcase as [(Hz & Ha & Hbl & Htype)|[Hmb _]]; cycle 1.
  { rewrite (proj2 (Z.eqb_neq _ _)) by lia. apply process_bulks_total; try done; lia. }
  rewrite Hz, Ha. cbn [Z.eqb]. rewrite bool_decide_true by done. cbn [negb].
  destruct (strchr_from _ _ _) as [nl|] eqn:Enl; cycle 1.
  { destruct (_ <? _); [apply parse_fails|by apply parse_waits]. }
  pose proof (strchr_from_range (querybuf c) 0 ch_cr nl ltac:(lia) Enl).
  destruct (Z.ltb_spec (blen (querybuf c) - 2) nl); [by apply parse_waits|].
  assert (mget (querybuf c) 0 = Some ch_star) as E0.
  { unfold REDIS_REQ_INLINE, REDIS_REQ_MULTIBULK in *. destruct Htype as [?|[?|[_ ?]]]; [lia|lia|done]. }
  pose proof (strchr_from_next (querybuf c) 0 ch_cr ch_star nl ltac:(lia) Enl E0 ltac:(done)).
  rewrite E0. cbn [mbind option_bind]. rewrite Z.eqb_refl. cbn [negb]. rewrite mload_slice by lia. cbn [mbind option_bind].
  destruct (string2ll _) as [ll|]; [|apply parse_fails]. destruct (Z.ltb_spec (1024 * 1024) ll); [apply parse_fails|].
  pose proof (ahead_blen c (nl + 2) ltac:(lia)) as Hd. destruct (Z.leb_spec ll 0).
  { eexists _, _. split; [done|]. cbn [querybuf trim_to set_querybuf]. split; [lia|]. split; [lia|done]. }
  set (c1 := set_request _ _ _ _ _).
  destruct (process_bulks_total c1 (nl + 2)) as (c' & ok & -> & Hq & Hres); try done; [cbn; lia|].
  exists c', ok. by split.
Qed.

Lemma processInlineBuffer_total junk t c :
  blen (querybuf c) ≤ max_len → client_ok c → parse_total c (processInlineBuffer junk t c).
Proof.
  intros Hm Hok. unfold processInlineBuffer. pose proof (blen_nonneg (querybuf c)) as Hq0.
  destruct (strchr_from _ _ _) as [nl|] eqn:Enl; cycle 1.
  { destruct (_ <? _); [apply parse_fails|by apply parse_waits]. }
  apply strchr_from_range in Enl; [|lia].
  assert (∃ cr, (if nl =? 0 then Some 0 else mget (querybuf c) (nl - 1)) = Some cr) as [cr ->].
  { destruct (Z.eqb_spec nl 0); [by eexists|]. apply mget_inside. lia. }
  cbn [mbind option_bind]. set (ql := if negb (nl =? 0) && (cr =? ch_cr) then nl - 1 else nl).
  assert (0 ≤ ql ≤ nl) as Hql by (subst ql; destruct (Z.eqb_spec nl 0), (cr =? ch_cr); cbn; lia).
  rewrite mload_slice by lia. cbn [mbind option_bind].
  destruct (sdssplitargs_total junk (slice (querybuf c) 0 (0 + ql))) as [r ->].
  { unfold slice, blen in *. rewrite length_take, length_drop. lia. }
  cbn [mbind option_bind]. destruct r as [args|]; [|apply parse_fails].
  set (c1 := if (ql =? 0) && fl_slave c then set_ack_time c t else c).
  assert (querybuf c1 = querybuf c ∧ conn c1 = conn c) as [Eq1 Ec1] by (subst c1; destruct ((ql =? 0) && fl_slave c); done).
  clearbody c1. eexists _, _. split; [reflexivity|].
  assert (blen (drop (Z.to_nat (ql + 2)) (querybuf c)) < blen (querybuf c)) as Hlt
    by (unfold blen in *; rewrite length_drop; lia).
  unfold conn in *. cbn [querybuf set_request trim_to set_querybuf reqtype fl_close_after_reply fl_blocked reply].
  rewrite Eq1. split; [lia|]. split; [lia|done].
Qed.

Lemma client_ok_reset c : client_ok (resetClient c).
Proof.
  right. unfold resetClient, BULK_MAX. destruct (negb _); cbn; (split; [lia|]); left; split_and!; auto.
Qed.

Section any_bytes.
Context {S : Type} `{!Commands S} (junk : nat → Z) (unixtime : Z).

(** A command after which the client is not reset closes the connection (QUIT). *)
Definition unreset_closes : Prop :=
  ∀ s args, cmd_ok (processCommand s args).2 = false → cmd_close (processCommand s args).2 = true.

(** The replies of the parser itself: at most one, the last. *)
Definition at_most_one_error (c c' : client) : Prop := reply c' = reply c ∨ fails c c'.

Lemma processInputBuffer_total fuel : ∀ s c,
  unreset_closes → client_ok c → blen (querybuf c) ≤ max_len → (length (querybuf c) < fuel)%nat →
  ∃ s' c', processInputBuffer junk unixtime fuel s c = Some (s', c') ∧ client_ok c' ∧
    blen (querybuf c') ≤ blen (querybuf c) ∧ at_most_one_error c c'.
Proof.
  induction fuel as [|fuel IH]; intros s c Hlaw Hok Hm Hf; [lia|]. cbn [processInputBuffer].
  assert (∃ s' c', Some (s, c) = Some (s', c') ∧ client_ok c' ∧ blen (querybuf c') ≤ blen (querybuf c) ∧ at_most_one_error c c')
    as Hstop by (exists s, c; split_and!; try done; by left).
  destruct (Z.eqb_spec (blen (querybuf c)) 0) as [|Hq]; [done|]. destruct (fl_blocked c); [done|].
  destruct (fl_close_after_reply c) eqn:Hcl; [done|]. pose proof (blen_nonneg (querybuf c)) as Hq0.
  destruct (mget_inside (querybuf c) 0) as (b & Eb); [lia|]. rewrite Eb. cbn [mbind option_bind].
  set (type := if reqtype c =? 0 then _ else reqtype c).
  set (c1 := set_request c type _ _ _).
  assert (client_ok c1 ∧ (type = REDIS_REQ_INLINE ∨ type = REDIS_REQ_MULTIBULK)) as [Hok1 Htype].
  { destruct Hok as [|[Hb Hcase]]; [congruence|]. unfold client_ok. cbn [c1 set_request bulklen multibulklen argv reqtype querybuf].
    destruct Hcase as [(Hz & Ha & Hbl & Hr)|[Hz Hr]].
    - subst type. destruct Hr as [-> |[-> |[-> Hs]]]; cbn [Z.eqb REDIS_REQ_INLINE REDIS_REQ_MULTIBULK].
      + destruct (Z.eqb_spec b ch_star) as [->|]; (split; [|auto]); right; (split; [done|left]); auto 10.
      + split; [|auto]. right. split; [done|left]. auto 10.
      + split; [|auto]. right. split; [done|left]. auto 10.
    - subst type. rewrite Hr. cbn [Z.eqb REDIS_REQ_MULTIBULK]. split; [|auto]. right. split; [done|]. by right. }
  assert (parse_total c1 (if type =? REDIS_REQ_INLINE then processInlineBuffer junk unixtime c1
    else if type =? REDIS_REQ_MULTIBULK then processMultibulkBuffer c1 else None)) as (c2 & ok & -> & Hq2 & Hres).
  { destruct Htype as [E|E]; rewrite E; cbn [Z.eqb REDIS_REQ_INLINE REDIS_REQ_MULTIBULK Pos.eqb].
    - by apply processInlineBuffer_total.
    - by apply processMultibulkBuffer_total. }
  cbn [mbind option_bind]. change (querybuf c1) with (querybuf c) in *. clearbody type.
  destruct ok; cbn [negb]; cycle 1.
  { exists s, c2. split; [done|]. destruct Hres as [Hfail|[Hconn Hok2]].
    - split; [left; apply Hfail|]. split; [done|]. by right.
    - split; [done|]. split; [done|]. left. injection Hconn as _ _ _ Hr. exact Hr. }
  destruct Hres as [Hlt Hconn]. injection Hconn as _ Hc2 Hb2 Hr2. change (reply c1) with (reply c) in Hr2.
  assert (∀ s0 c0, client_ok c0 → querybuf c0 = querybuf c2 → reply c0 = reply c →
    ∃ s' c', processInputBuffer junk unixtime fuel s0 c0 = Some (s', c') ∧ client_ok c' ∧
      blen (querybuf c') ≤ blen (querybuf c) ∧ at_most_one_error c c') as Hgo.
  { intros s0 c0 Hok0 E0 Hr0. destruct (IH s0 c0 Hlaw Hok0) as (s' & c' & E & Hok' & Hq' & He); rewrite ?E0 in *;
      [lia|unfold blen in *; lia|]. exists s', c'. split; [done|]. split; [done|]. split; [lia|].
    unfold at_most_one_error, fails in *. by rewrite Hr0 in He. }
  assert (∀ c0, querybuf (resetClient c0) = querybuf c0 ∧ reply (resetClient c0) = reply c0) as Hreset
    by (intros c0; unfold resetClient; by destruct (negb _)).
  destruct (bool_decide _).
  { apply Hgo; [apply client_ok_reset|by rewrite (proj1 (Hreset _))|by rewrite (proj2 (Hreset _))]. }
  pose proof (Hlaw s (argv c2)) as Hl. destruct (processCommand s (argv c2)) as [s1 r]. cbn [snd] in Hl.
  destruct (cmd_ok r).
  - apply Hgo; [apply client_ok_reset|by rewrite (proj1 (Hreset _))|by rewrite (proj2 (Hreset _))].
  - apply Hgo; [|done|done]. left. cbn. rewrite Hl by done. apply orb_true_r.
Qed.

End any_bytes.

(** A line that ends in a newline alone: processInlineBuffer always removes two
    bytes behind the words, so that the first byte of what follows is lost. *)
Lemma processInlineBuffer_bare_newline :
  (λ r, (λ '(c, ok), (argv c, querybuf c, ok)) <$> r)
    (processInlineBuffer (λ _, 170) 0 (set_querybuf createClient [80; 73; 78; 71; 10; 71; 69; 84; 32; 120; 13; 10])) =
  Some ([[80; 73; 78; 71]], [69; 84; 32; 120; 13; 10], true).
Proof. vm_compute. reflexivity. Qed.

(** Two commands in pieces of at most three bytes, for a server that keeps a log. *)
Lemma requests_served_witness :
  ∃ c', @serve _ (Build_Commands _ (λ s args, (s ++ [args], CmdResult true false false))) (λ _, 170) 0 (2 ^ 30)
      (replicate 50 3) [] createClient
      (foldl catAppendOnlyGenericCommand [] [[[83; 69; 84]; [107]; [13; 0; 10]]; [[80; 73; 78; 71]]]) =
    Some ([[[83; 69; 84]; [107]; [13; 0; 10]]; [[80; 73; 78; 71]]], c', []) ∧ idle c'.
Proof.
  destruct (@requests_served _ (Build_Commands _ (λ s args, (s ++ [args], CmdResult true false false))) (λ _, 170) 0 (2 ^ 30)
      (replicate 50 3) [] createClient [[[83; 69; 84]; [107]; [13; 0; 10]]; [[80; 73; 78; 71]]])
    as (s' & c' & rest & d & t & E & Hd & Hs & _ & Hend & Hall).
  - lia.
  - by vm_compute.
  - by vm_compute.
  - apply (bool_decide_unpack _). by vm_compute.
  - intros s args _. done.
  - assert (rest = []) as ->.
    { apply Hall; [|apply Nat.leb_le; by vm_compute]. apply Forall_replicate. lia. }
    destruct Hend as [-> Hidle]; [done|]. rewrite app_nil_r in Hd. subst d s'. exists c'.
    split; [|exact Hidle]. etransitivity; [exact E|]. reflexivity.
Defined.

