(* ===== verification/Reply.v ===== *)
(** * Reply: the output buffers of a client (networking.c)

    The replies of a client are queued in a static buffer and then in a list of
    reference counted objects; sendReplyToClient hands them to the socket as
    overlapped sends (the WIN32_IOCP build), whose completions release them.
    The objects are in a store, so that the sharing of an object between the
    lists of several clients, the sends in flight and the rest of the server is
    part of the state. *)
From S2P Require Import Prelude Util Sds Rio.
Open Scope Z_scope.

Definition REDIS_REPLY_CHUNK_BYTES : Z := 16 * 1024.
Definition REDIS_SHARED_BULKHDR_LEN : Z := 32.
Definition REDIS_MAX_WRITE_PER_EVENT : Z := 1024 * 64.
Definition REDIS_REPL_NONE : Z := 0.
Definition REDIS_REPL_WAIT_BGSAVE_START : Z := 6.
Definition REDIS_REPL_ONLINE : Z := 9.
Definition REDIS_CLIENT_TYPE_NORMAL : Z := 0.
Definition REDIS_CLIENT_TYPE_SLAVE : Z := 1.
Definition REDIS_CLIENT_TYPE_PUBSUB : Z := 2.
Definition ch_colon : Z := 58.

(** ** String objects *)

(** [o->encoding] and [o->ptr]: a raw string, whose pointer may be NULL, or an
    integer. *)
Inductive obj_ptr := Raw (p : option sdshdr) | Int (n : Z).
Record robj := Robj { refcount : Z; ptr : obj_ptr }.
Abbreviation heap := (gmap positive robj).

Definition createObject (h : heap) (p : obj_ptr) : heap * positive :=
  let o := fresh (dom h) in (<[o := Robj 1 p]> h, o).

Definition incrRefCount (h : heap) (o : positive) : outcome heap :=
  obj ← lift (h !! o); Done (<[o := Robj (refcount obj + 1) (ptr obj)]> h).

Definition decrRefCount (h : heap) (o : positive) : outcome heap :=
  obj ← lift (h !! o);
  if refcount obj <=? 0 then Error
  else if refcount obj =? 1 then Done (delete o h)
  else Done (<[o := Robj (refcount obj - 1) (ptr obj)]> h).

(** [(sds) o->ptr], dereferenced. *)
Definition obj_sds (h : heap) (o : positive) : outcome sdshdr :=
  obj ← lift (h !! o);
  match ptr obj with Raw (Some p) => Done p | _ => Undef end.

(** [o->ptr = p]. *)
Definition set_ptr (h : heap) (o : positive) (p : sdshdr) : outcome heap :=
  obj ← lift (h !! o); Done (<[o := Robj (refcount obj) (Raw (Some p))]> h).

(** The shared objects that replies use. *)
Record sharedObjects := Shared {
  shared_crlf : positive;
  shared_czero : positive;
  shared_cone : positive;
  shared_nullbulk : positive;
  shared_mbulkhdr : list positive;
  shared_bulkhdr : list positive
}.

(** [shared.mbulkhdr[n]], in bounds. *)
Definition at_index (l : list positive) (n : Z) : outcome positive :=
  if n <? 0 then Undef else lift (l !! Z.to_nat n).

(** ** Clients *)

(** What the output functions only read: the descriptor, the flags REDIS_LUA_CLIENT,
    REDIS_MASTER, REDIS_MASTER_FORCE_REPLY, REDIS_SLAVE, REDIS_MONITOR and
    REDIS_CLOSE_AFTER_REPLY, the replication state, and whether the client has
    subscriptions. *)
Record ident := Ident {
  fd : Z;
  fl_lua : bool;
  fl_master : bool;
  fl_master_force_reply : bool;
  fl_slave : bool;
  fl_monitor : bool;
  fl_close_after_reply : bool;
  replstate : Z;
  subscribed : bool
}.

(** A send that the socket has accepted and not yet completed: [len] bytes of the
    static buffer at an offset, or a list object, of which it holds a reference. *)
Inductive send_req := BufReq (off len : Z) | ObjReq (o : positive).

(** A node of the reply list: its identity and its value. *)
Abbreviation node := (positive * positive)%type.

(** [writable]: the event loop has the write handler.  [inflight]: the sends of the
    socket that are not completed, the oldest first. *)
Record client := Client {
  who : ident;
  fl_close_asap : bool;
  writable : bool;
  buf : list Z;
  bufpos : Z;
  sentlen : Z;
  reply : list node;
  reply_bytes : Z;
  obuf_soft_limit_reached_time : Z;
  lastinteraction : Z;
  inflight : list send_req
}.

Definition createClient (who : ident) (unixtime : Z) (buf : list Z) : client :=
  Client who false false buf 0 0 [] 0 0 unixtime [].

Definition set_asap (c : client) (b : bool) : client :=
  Client (who c) b (writable c) (buf c) (bufpos c) (sentlen c) (reply c) (reply_bytes c)
    (obuf_soft_limit_reached_time c) (lastinteraction c) (inflight c).
Definition set_writable (c : client) (b : bool) : client :=
  Client (who c) (fl_close_asap c) b (buf c) (bufpos c) (sentlen c) (reply c) (reply_bytes c)
    (obuf_soft_limit_reached_time c) (lastinteraction c) (inflight c).
Definition set_buf (c : client) (b : list Z) (pos sent : Z) : client :=
  Client (who c) (fl_close_asap c) (writable c) b pos sent (reply c) (reply_bytes c)
    (obuf_soft_limit_reached_time c) (lastinteraction c) (inflight c).
Definition set_reply (c : client) (l : list node) (bytes : Z) : client :=
  Client (who c) (fl_close_asap c) (writable c) (buf c) (bufpos c) (sentlen c) l bytes
    (obuf_soft_limit_reached_time c) (lastinteraction c) (inflight c).
Definition set_soft_time (c : client) (t : Z) : client :=
  Client (who c) (fl_close_asap c) (writable c) (buf c) (bufpos c) (sentlen c) (reply c) (reply_bytes c)
    t (lastinteraction c) (inflight c).
Definition set_interaction (c : client) (t : Z) : client :=
  Client (who c) (fl_close_asap c) (writable c) (buf c) (bufpos c) (sentlen c) (reply c) (reply_bytes c)
    (obuf_soft_limit_reached_time c) t (inflight c).
Definition set_inflight (c : client) (l : list send_req) : client :=
  Client (who c) (fl_close_asap c) (writable c) (buf c) (bufpos c) (sentlen c) (reply c) (reply_bytes c)
    (obuf_soft_limit_reached_time c) (lastinteraction c) l.

Record clientBufferLimitsConfig := Limits {
  hard_limit_bytes : Z; soft_limit_bytes : Z; soft_limit_seconds : Z
}.

(** What the functions use of the server and the libraries: the usable size of the
    block of a string (the allocator's), the limits of the three classes, the
    cached time, whether aeCreateFileEvent succeeds, and the memory used and its
    limit. *)
Record env := Env {
  zmalloc_size_sds : sdshdr → Z;
  client_obuf_limits : Z → clientBufferLimitsConfig;
  unixtime : Z;
  aeCreateFileEvent : bool;
  maxmemory : Z;
  used_memory : Z;
  shared : sharedObjects
}.

Section reply.
Context (junk : nat → Z) (E : env).

Definition createStringObject (h : heap) (s : list Z) (len : Z) : outcome (heap * positive) :=
  p ← lift (sdsnewlen junk (Some s) len); Done (createObject h (Raw (Some p))).

Definition dupStringObject (h : heap) (o : positive) : outcome (heap * positive) :=
  obj ← lift (h !! o);
  match ptr obj with
  | Raw (Some p) => createStringObject h (sh_buf p) (sdslen p)
  | Raw None => Undef
  | Int _ => Error
  end.

Definition getDecodedObject (h : heap) (o : positive) : outcome (heap * positive) :=
  obj ← lift (h !! o);
  match ptr obj with
  | Raw _ => h ← incrRefCount h o; Done (h, o)
  | Int n =>
      let '(_, buf) := ll2string 32 n in
      len ← lift (strlen buf);
      createStringObject h buf len
  end.

(** ** The limits of the output buffers *)

Definition getClientOutputBufferMemoryUsage (c : client) : Z :=
  let list_item_size := u32 (24 + 16) in
  u32 (reply_bytes c + u32 (list_item_size * Z.of_nat (length (reply c)))).

Definition getClientType (w : ident) : Z :=
  if fl_slave w && negb (fl_monitor w) then REDIS_CLIENT_TYPE_SLAVE
  else if subscribed w then REDIS_CLIENT_TYPE_PUBSUB
  else REDIS_CLIENT_TYPE_NORMAL.

Definition checkClientOutputBufferLimits (c : client) : client * bool :=
  let used_mem := getClientOutputBufferMemoryUsage c in
  let l := client_obuf_limits E (getClientType (who c)) in
  let hard := negb (hard_limit_bytes l =? 0) && (hard_limit_bytes l <=? used_mem) in
  let soft := negb (soft_limit_bytes l =? 0) && (soft_limit_bytes l <=? used_mem) in
  if soft then
    if obuf_soft_limit_reached_time c =? 0 then (set_soft_time c (unixtime E), hard)
    else
      let elapsed := unixtime E - obuf_soft_limit_reached_time c in
      (c, negb (elapsed <=? soft_limit_seconds l) || hard)
  else (set_soft_time c 0, hard).

Definition freeClientAsync (c : client) : client :=
  if fl_close_asap c then c else set_asap c true.

Definition asyncCloseClientOnOutputBufferLimitReached (c : client) : outcome client :=
  if negb (reply_bytes c <? ULONG_MAX - 1024 * 64) then Error
  else if (reply_bytes c =? 0) || fl_close_asap c then Done c
  else
    let '(c, reached) := checkClientOutputBufferLimits c in
    Done (if reached : bool then freeClientAsync c else c).

(** ** Queueing *)

(** [true] is REDIS_OK. *)
Definition prepareClientToWrite (c : client) : client * bool :=
  let w := who c in
  if fl_lua w then (c, true)
  else if fl_master w && negb (fl_master_force_reply w) then (c, false)
  else if fd w <=? 0 then (c, false)
  else if (bufpos c =? 0) && bool_decide (reply c = []) &&
          ((replstate w =? REDIS_REPL_NONE) || (replstate w =? REDIS_REPL_ONLINE)) then
    if aeCreateFileEvent E then (set_writable c true, true) else (c, false)
  else (c, true).

(** [listAddNodeTail(c->reply,o); c->reply_bytes += size]. *)
Definition add_tail (c : client) (o : positive) (size : Z) : client * positive :=
  let ln := fresh (list_to_set (reply c).*1 : gset positive) in
  (set_reply c (reply c ++ [(ln, o)]) (u32 (reply_bytes c + u32 size)), ln).

Definition dupLastObjectIfNeeded (h : heap) (l : list node) : outcome (heap * list node * positive) :=
  match last l with
  | None => Error
  | Some (ln, cur) =>
      obj ← lift (h !! cur);
      if 1 <? refcount obj then
        '(h, new) ← dupStringObject h cur;
        h ← decrRefCount h cur;
        Done (h, removelast l ++ [(ln, new)], new)
      else Done (h, l, cur)
  end.

(** [tail->ptr != NULL && sdslen(tail->ptr)+len <= REDIS_REPLY_CHUNK_BYTES]. *)
Definition tail_has_room (h : heap) (tail : positive) (len : Z) : outcome bool :=
  obj ← lift (h !! tail);
  match ptr obj with
  | Raw None => Done false
  | Raw (Some p) => Done (u64 (sdslen p + len) <=? REDIS_REPLY_CHUNK_BYTES)
  | Int _ => Undef
  end.

(** The tail of the list, extended with the [len] bytes at [s]. *)
Definition append_to_tail (h : heap) (c : client) (tail : positive) (s : list Z) (len : Z) : outcome (heap * client) :=
  p ← obj_sds h tail;
  let bytes := u32 (reply_bytes c - u32 (zmalloc_size_sds E p)) in
  '(h, l, tail) ← dupLastObjectIfNeeded h (reply c);
  p ← obj_sds h tail;
  p ← lift (sdscatlen junk p s len);
  h ← set_ptr h tail p;
  Done (h, set_reply c l (u32 (bytes + u32 (zmalloc_size_sds E p)))).

Definition _addReplyToBuffer (c : client) (s : list Z) (len : Z) : outcome (client * bool) :=
  let available := u64 (REDIS_REPLY_CHUNK_BYTES - bufpos c) in
  if fl_close_after_reply (who c) then Done (c, true)
  else if negb (bool_decide (reply c = [])) then Done (c, false)
  else if available <? len then Done (c, false)
  else
    b ← lift (mload s 0 len);
    b ← lift (mstore (buf c) (bufpos c) b);
    Done (set_buf c b (i32 (bufpos c + i32 len)) (sentlen c), true).

Definition _addReplyObjectToList (h : heap) (c : client) (o : positive) : outcome (heap * client) :=
  if fl_close_after_reply (who c) then Done (h, c)
  else
    s ← obj_sds h o;
    '(h, c) ←
      match last (reply c) with
      | None =>
          h ← incrRefCount h o;
          Done (h, (add_tail c o (zmalloc_size_sds E s)).1)
      | Some (_, tail) =>
          room ← tail_has_room h tail (sdslen s);
          if room : bool then append_to_tail h c tail (sh_buf s) (sdslen s)
          else
            h ← incrRefCount h o;
            Done (h, (add_tail c o (zmalloc_size_sds E s)).1)
      end;
    c ← asyncCloseClientOnOutputBufferLimitReached c;
    Done (h, c).

(** [s] belongs to the function, which frees it or makes an object of it. *)
Definition _addReplySdsToList (h : heap) (c : client) (s : sdshdr) : outcome (heap * client) :=
  if fl_close_after_reply (who c) then Done (h, c)
  else
    '(h, c) ←
      match last (reply c) with
      | None =>
          let '(h, o) := createObject h (Raw (Some s)) in
          Done (h, (add_tail c o (zmalloc_size_sds E s)).1)
      | Some (_, tail) =>
          room ← tail_has_room h tail (sdslen s);
          if room : bool then append_to_tail h c tail (sh_buf s) (sdslen s)
          else
            let '(h, o) := createObject h (Raw (Some s)) in
            Done (h, (add_tail c o (zmalloc_size_sds E s)).1)
      end;
    c ← asyncCloseClientOnOutputBufferLimitReached c;
    Done (h, c).

Definition _addReplyStringToList (h : heap) (c : client) (s : list Z) (len : Z) : outcome (heap * client) :=
  if fl_close_after_reply (who c) then Done (h, c)
  else
    let new := '(h, o) ← createStringObject h s len;
               p ← obj_sds h o;
               Done (h, (add_tail c o (zmalloc_size_sds E p)).1) in
    '(h, c) ←
      match last (reply c) with
      | None => new
      | Some (_, tail) =>
          room ← tail_has_room h tail len;
          if room : bool then append_to_tail h c tail s len else new
      end;
    c ← asyncCloseClientOnOutputBufferLimitReached c;
    Done (h, c).

(** ** The functions that commands call *)

Definition addReply (h : heap) (c : client) (o : positive) : outcome (heap * client) :=
  let '(c, ok) := prepareClientToWrite c in
  if negb (ok : bool) then Done (h, c)
  else
    obj ← lift (h !! o);
    match ptr obj with
    | Raw None => Undef
    | Raw (Some p) =>
        '(c, ok) ← _addReplyToBuffer c (sh_buf p) (sdslen p);
        if ok : bool then Done (h, c) else _addReplyObjectToList h c o
    | Int n =>
        let decoded c :=
          '(h, o) ← getDecodedObject h o;
          p ← obj_sds h o;
          '(c, ok) ← _addReplyToBuffer c (sh_buf p) (sdslen p);
          '(h, c) ← (if ok : bool then Done (h, c) else _addReplyObjectToList h c o);
          h ← decrRefCount h o;
          Done (h, c) in
        if bool_decide (reply c = []) && (32 <=? u64 (REDIS_REPLY_CHUNK_BYTES - bufpos c)) then
          let '(len, buf) := ll2string 32 n in
          '(c, ok) ← _addReplyToBuffer c buf len;
          if ok : bool then Done (h, c) else decoded c
        else decoded c
    end.

Definition addReplySds (h : heap) (c : client) (s : sdshdr) : outcome (heap * client) :=
  let '(c, ok) := prepareClientToWrite c in
  if negb (ok : bool) then Done (h, c)
  else
    '(c, ok) ← _addReplyToBuffer c (sh_buf s) (sdslen s);
    if ok : bool then Done (h, c) else _addReplySdsToList h c s.

Definition addReplyString (h : heap) (c : client) (s : list Z) (len : Z) : outcome (heap * client) :=
  let '(c, ok) := prepareClientToWrite c in
  if negb (ok : bool) then Done (h, c)
  else
    '(c, ok) ← _addReplyToBuffer c s len;
    if ok : bool then Done (h, c) else _addReplyStringToList h c s len.

(** "-ERR " and "+". *)
Definition err_prefix : list Z := [45; 69; 82; 82; 32].
Definition plus_prefix : list Z := [43].

Definition addReplyErrorLength (h : heap) (c : client) (s : list Z) (len : Z) : outcome (heap * client) :=
  '(h, c) ← addReplyString h c (err_prefix ++ [ch_nul]) 5;
  '(h, c) ← addReplyString h c s len;
  addReplyString h c (crlf ++ [ch_nul]) 2.

Definition addReplyError (h : heap) (c : client) (err : list Z) : outcome (heap * client) :=
  len ← lift (strlen err); addReplyErrorLength h c err len.

(** [s] is what sdscatvprintf has made. *)
Definition addReplyErrorFormat (h : heap) (c : client) (s : sdshdr) : outcome (heap * client) :=
  let l := sdslen s in
  buf ← lift (map_bytes (Z.to_nat l) (λ b, if (b =? ch_cr) || (b =? ch_lf) then ch_space else b) (sh_buf s) 0 l);
  addReplyErrorLength h c buf l.

Definition addReplyStatusLength (h : heap) (c : client) (s : list Z) (len : Z) : outcome (heap * client) :=
  '(h, c) ← addReplyString h c (plus_prefix ++ [ch_nul]) 1;
  '(h, c) ← addReplyString h c s len;
  addReplyString h c (crlf ++ [ch_nul]) 2.

Definition addReplyStatus (h : heap) (c : client) (status : list Z) : outcome (heap * client) :=
  len ← lift (strlen status); addReplyStatusLength h c status len.

Definition addReplyStatusFormat (h : heap) (c : client) (s : sdshdr) : outcome (heap * client) :=
  addReplyStatusLength h c (sh_buf s) (sdslen s).

(** The node, or [None] for NULL. *)
Definition addDeferredMultiBulkLength (h : heap) (c : client) : outcome (heap * client * option positive) :=
  let '(c, ok) := prepareClientToWrite c in
  if negb (ok : bool) then Done (h, c, None)
  else
    let '(h, o) := createObject h (Raw None) in
    let ln := fresh (list_to_set (reply c).*1 : gset positive) in
    Done (h, set_reply c (reply c ++ [(ln, o)]) (reply_bytes c), Some ln).

(** The list up to the node, and from it on. *)
Fixpoint split_node (l : list node) (ln : positive) : option (list node * positive * list node) :=
  match l with
  | [] => None
  | (x, o) :: l =>
      if decide (x = ln) then Some ([], o, l)
      else '(pre, o', post) ← split_node l ln; Some ((x, o) :: pre, o', post)
  end.

(** sdscatprintf formats the line with the C library. *)
Definition setDeferredMultiBulkLength (h : heap) (c : client) (node : option positive) (length : Z) : outcome (heap * client) :=
  match node with
  | None => Done (h, c)
  | Some ln =>
      '(pre, len, post) ← lift (split_node (reply c) ln);
      p ← lift (sdsempty junk);
      p ← lift (sdscat junk p (line ch_star length ++ [ch_nul]));
      h ← set_ptr h len p;
      let bytes := u32 (reply_bytes c + u32 (zmalloc_size_sds E p)) in
      '(h, c) ←
        match post with
        | (_, next) :: rest =>
            obj ← lift (h !! next);
            match ptr obj with
            | Raw None => Done (h, set_reply c (reply c) bytes)
            | Int _ => Undef
            | Raw (Some q) =>
                let bytes := u32 (bytes - u32 (zmalloc_size_sds E p)) in
                let bytes := u32 (bytes - u32 (zmalloc_size_sds E q)) in
                p ← lift (sdscatlen junk p (sh_buf q) (sdslen q));
                h ← set_ptr h len p;
                h ← decrRefCount h next;
                Done (h, set_reply c (pre ++ (ln, len) :: rest) (u32 (bytes + u32 (zmalloc_size_sds E p))))
            end
        | [] => Done (h, set_reply c (reply c) bytes)
        end;
      c ← asyncCloseClientOnOutputBufferLimitReached c;
      Done (h, c)
  end.

(** The text that ll2string and the assignments around it leave in the buffer. *)
Definition prefix_line (prefix ll : Z) : outcome (list Z * Z) :=
  let '(len, text) := ll2string (128 - 1) ll in
  b ← lift (mload text 0 len);
  Done (prefix :: b ++ crlf, len + 3).

Definition addReplyLongLongWithPrefix (h : heap) (c : client) (ll prefix : Z) : outcome (heap * client) :=
  if (prefix =? ch_star) && (ll <? REDIS_SHARED_BULKHDR_LEN) then
    o ← at_index (shared_mbulkhdr (shared E)) ll; addReply h c o
  else if (prefix =? ch_dollar) && (ll <? REDIS_SHARED_BULKHDR_LEN) then
    o ← at_index (shared_bulkhdr (shared E)) ll; addReply h c o
  else
    '(buf, len) ← prefix_line prefix ll;
    addReplyString h c buf len.

Definition addReplyLongLong (h : heap) (c : client) (ll : Z) : outcome (heap * client) :=
  if ll =? 0 then addReply h c (shared_czero (shared E))
  else if ll =? 1 then addReply h c (shared_cone (shared E))
  else addReplyLongLongWithPrefix h c ll ch_colon.

Definition addReplyMultiBulkLen (h : heap) (c : client) (length : Z) : outcome (heap * client) :=
  if length <? REDIS_SHARED_BULKHDR_LEN then
    o ← at_index (shared_mbulkhdr (shared E)) length; addReply h c o
  else addReplyLongLongWithPrefix h c length ch_star.

(** [while((n = n/10) != 0) len++]. *)
Fixpoint count_digits (fuel : nat) (n len : Z) : option Z :=
  match fuel with
  | O => None
  | S fuel =>
      let n := Z.quot n 10 in
      if n =? 0 then Some len else count_digits fuel n (u64 (len + 1))
  end.

Definition addReplyBulkLen (h : heap) (c : client) (o : positive) : outcome (heap * client) :=
  obj ← lift (h !! o);
  len ← match ptr obj with
        | Raw (Some p) => Done (sdslen p)
        | Raw None => Undef
        | Int n =>
            let '(n, len) := if n <? 0 then (i32 (- n), 2) else (n, 1) in
            lift (count_digits 11 n len)
        end;
  if len <? REDIS_SHARED_BULKHDR_LEN then
    o ← at_index (shared_bulkhdr (shared E)) len; addReply h c o
  else addReplyLongLongWithPrefix h c (i64 len) ch_dollar.

Definition addReplyBulk (h : heap) (c : client) (o : positive) : outcome (heap * client) :=
  '(h, c) ← addReplyBulkLen h c o;
  '(h, c) ← addReply h c o;
  addReply h c (shared_crlf (shared E)).

Definition addReplyBulkCBuffer (h : heap) (c : client) (p : list Z) (len : Z) : outcome (heap * client) :=
  '(h, c) ← addReplyLongLongWithPrefix h c (i64 len) ch_dollar;
  '(h, c) ← addReplyString h c p len;
  addReply h c (shared_crlf (shared E)).

Definition addReplyBulkCString (h : heap) (c : client) (s : option (list Z)) : outcome (heap * client) :=
  match s with
  | None => addReply h c (shared_nullbulk (shared E))
  | Some s => len ← lift (strlen s); addReplyBulkCBuffer h c s len
  end.

Definition addReplyBulkLongLong (h : heap) (c : client) (ll : Z) : outcome (heap * client) :=
  let '(len, buf) := ll2string 64 ll in addReplyBulkCBuffer h c buf len.

(** [listRelease] of a reply list, and the increments of [listDup]. *)
Definition release_all (h : heap) (l : list node) : outcome heap :=
  foldr (λ '(_, o) k h, h ← decrRefCount h o; k h) Done l h.
Definition retain_all (h : heap) (l : list node) : outcome heap :=
  foldr (λ '(_, o) k h, h ← incrRefCount h o; k h) Done l h.

(** [(h, dst)]; the nodes of the copy are new. *)
Definition copyClientOutputBuffer (h : heap) (dst src : client) : outcome (heap * client) :=
  h ← release_all h (reply dst);
  h ← retain_all h (reply src);
  b ← lift (mload (buf src) 0 (bufpos src));
  b ← lift (mstore (buf dst) 0 b);
  Done (h, set_reply (set_buf dst b (bufpos src) (sentlen dst)) (reply src) (reply_bytes src)).

(** ** Sending (WIN32_IOCP) *)

(** REDIS_MAX_WRITE_PER_EVENT bytes have been sent, and memory is not short. *)
Definition enough_written (totwritten : Z) : bool :=
  (REDIS_MAX_WRITE_PER_EVENT <? totwritten) && ((maxmemory E =? 0) || (used_memory E <? maxmemory E)).

(** The loop of sendReplyToClient; [send_ok i] is whether the [i]th call of
    aeWinSocketSend is accepted.  A client that is freed is [None]. *)
Fixpoint send_loop (fuel : nat) (send_ok : nat → bool) (i : nat) (h : heap) (c : client) (totwritten : Z)
    : outcome (heap * option client * Z) :=
  if negb ((sentlen c <? bufpos c) || negb (bool_decide (reply c = []))) then Done (h, Some c, totwritten)
  else
    match fuel with
    | O => Undef
    | S fuel =>
        if sentlen c <? bufpos c then
          let nwritten := i32 (bufpos c - sentlen c) in
          if negb (send_ok i) then h ← release_all h (reply c); Done (h, None, totwritten)
          else
            let c := set_inflight c (inflight c ++ [BufReq (sentlen c) nwritten]) in
            let c := set_buf c (buf c) (bufpos c) (i32 (sentlen c + nwritten)) in
            let totwritten := i32 (totwritten + nwritten) in
            if enough_written totwritten then Done (h, Some c, totwritten)
            else send_loop fuel send_ok (S i) h c totwritten
        else
          match reply c with
          | [] => Undef
          | (_, o) :: rest =>
              p ← obj_sds h o;
              let objlen := i32 (sdslen p) in
              let objmem := zmalloc_size_sds E p in
              if objlen =? 0 then
                h ← decrRefCount h o;
                send_loop fuel send_ok i h (set_reply c rest (reply_bytes c)) totwritten
              else
                h ← incrRefCount h o;
                if negb (send_ok i) then
                  h ← decrRefCount h o;
                  h ← release_all h (reply c); Done (h, None, totwritten)
                else
                  let c := set_inflight c (inflight c ++ [ObjReq o]) in
                  let totwritten := i32 (totwritten + objlen) in
                  h ← decrRefCount h o;
                  let c := set_reply c rest (u32 (reply_bytes c - u32 objmem)) in
                  if enough_written totwritten then Done (h, Some c, totwritten)
                  else send_loop fuel send_ok (S i) h c totwritten
          end
    end.

Definition sendReplyToClient (send_ok : nat → bool) (h : heap) (c : client) : outcome (heap * option client) :=
  '(h, c, totwritten) ← send_loop (S (S (length (reply c)))) send_ok 0 h c 0;
  Done (h, match c with
           | None => None
           | Some c => Some (if (0 <? totwritten) && negb (fl_master (who c)) then set_interaction c (unixtime E) else c)
           end).

(** The ends of the two handlers of a completion: nothing is queued. *)
Definition send_drained (c : client) : client :=
  let c := set_writable c false in
  if fl_close_after_reply (who c) then freeClientAsync c else c.

Definition sendReplyBufferDone (c : client) (off written : Z) : client :=
  let offset := i32 (off + written) in
  let c := if bufpos c =? offset then set_buf c (buf c) 0 0 else c in
  if (bufpos c =? 0) && bool_decide (reply c = []) then send_drained c else c.

Definition sendReplyListDone (h : heap) (c : client) (o : positive) : outcome (heap * client) :=
  h ← decrRefCount h o;
  Done (h, if (bufpos c =? 0) && bool_decide (reply c = []) then send_drained (set_buf c (buf c) (bufpos c) 0) else c).
End reply.

(** ** Outcomes *)

(** The code does not misuse memory, and [P] holds when its assertions do. *)
Definition post {A} (m : outcome A) (P : A → Prop) : Prop :=
  match m with Done a => P a | Error => True | Undef => False end.

Lemma post_bind {A B} (m : outcome A) (f : A → outcome B) (P : A → Prop) (Q : B → Prop) :
  post m P → (∀ a, P a → post (f a) Q) → post (m ≫= f) Q.
Proof. destruct m; cbn; auto. Qed.

Lemma post_weaken {A} (m : outcome A) (P Q : A → Prop) : post m P → (∀ a, P a → Q a) → post m Q.
Proof. destruct m; cbn; auto. Qed.

(** ** Counting references *)

Definition one (o x : positive) : Z := if decide (x = o) then 1 else 0.
Fixpoint cnt (l : list positive) (x : positive) : Z :=
  match l with [] => 0 | o :: l => one o x + cnt l x end.

Lemma one_range o x : 0 ≤ one o x ≤ 1.
Proof. unfold one. case_decide; lia. Qed.
Lemma one_same o : one o o = 1.
Proof. unfold one. by rewrite decide_True. Qed.
Lemma one_other o x : x ≠ o → one o x = 0.
Proof. intros. unfold one. by rewrite decide_False. Qed.

Lemma cnt_app l1 l2 x : cnt (l1 ++ l2) x = cnt l1 x + cnt l2 x.
Proof. induction l1; cbn [cnt app]; lia. Qed.
Lemma cnt_nonneg l x : 0 ≤ cnt l x.
Proof. induction l as [|o l IH]; cbn [cnt]; [done|]. pose proof (one_range o x). lia. Qed.
Lemma cnt_pos l x : x ∈ l → 0 < cnt l x.
Proof.
  induction 1 as [x l|x o l _ IH]; cbn [cnt].
  - rewrite one_same. pose proof (cnt_nonneg l x). lia.
  - pose proof (one_range o x). lia.
Qed.

(** The reference counts of the store are [R], which is positive on its objects. *)
Definition refs (R : positive → Z) (h : heap) : Prop :=
  ∀ x, match h !! x with Some obj => refcount obj = R x ∧ 0 < R x | None => R x = 0 end.

Definition ptrs (h : heap) (x : positive) : option obj_ptr := ptr <$> h !! x.

Lemma refs_ext R R' h : refs R h → (∀ x, R' x = R x) → refs R' h.
Proof. intros H E x. specialize (H x). rewrite E. done. Qed.

Lemma refs_lookup R h x : refs R h → 0 < R x → ∃ p, h !! x = Some (Robj (R x) p).
Proof.
  intros H Hx. specialize (H x). destruct (h !! x) as [[rc p]|]; [|lia]. cbn in H. destruct H as [-> _]. eauto.
Qed.

Lemma refs_ptrs R h x p : refs R h → ptrs h x = Some p → h !! x = Some (Robj (R x) p) ∧ 0 < R x.
Proof.
  intros H Hx. specialize (H x). unfold ptrs in Hx. destruct (h !! x) as [[rc q]|]; [|done].
  cbn in *. simplify_eq. destruct H as [-> ?]. done.
Qed.

Lemma refs_create R h p h' o :
  refs R h → createObject h p = (h', o) →
  R o = 0 ∧ refs (λ x, R x + one o x) h' ∧ ptrs h' o = Some p ∧ ∀ x, x ≠ o → ptrs h' x = ptrs h x.
Proof.
  intros H [= <- <-]. set (o := fresh (dom h)).
  assert (h !! o = None) as Ho by (apply not_elem_of_dom, is_fresh). clearbody o.
  assert (R o = 0) as HR by (specialize (H o); by rewrite Ho in H).
  split; [done|]. split; [|split].
  - intros x. destruct (decide (x = o)) as [->|Hx].
    + rewrite lookup_insert_eq. cbn. rewrite one_same. lia.
    + rewrite lookup_insert_ne, one_other, Z.add_0_r by done. apply H.
  - unfold ptrs. by rewrite lookup_insert_eq.
  - intros x Hx. unfold ptrs. by rewrite lookup_insert_ne.
Qed.

Lemma ptrs_update h o n p :
  ptrs h o = Some p → ∀ x, ptrs (<[o := Robj n p]> h) x = ptrs h x.
Proof.
  intros Ho x. unfold ptrs in *. destruct (decide (x = o)) as [->|Hx]; [by rewrite lookup_insert_eq|by rewrite lookup_insert_ne].
Qed.

Lemma refs_update R h o n p :
  refs R h → 0 < n → refs (λ x, if decide (x = o) then n else R x) (<[o := Robj n p]> h).
Proof.
  intros H Hn x. destruct (decide (x = o)) as [->|Hx]; [by rewrite lookup_insert_eq|].
  rewrite lookup_insert_ne by done. apply H.
Qed.

Lemma refs_incr R h o :
  refs R h → 0 < R o →
  ∃ h', incrRefCount h o = Done h' ∧ refs (λ x, R x + one o x) h' ∧ ∀ x, ptrs h' x = ptrs h x.
Proof.
  intros H Ho. destruct (refs_lookup R h o H Ho) as [p E]. unfold incrRefCount. rewrite E.
  cbn [lift mbind outcome_bind refcount ptr]. eexists. split; [done|]. split.
  - eapply refs_ext; [apply (refs_update R h o (R o + 1) p H); lia|]. intros x. unfold one. cbv beta. case_decide; subst; lia.
  - apply ptrs_update. unfold ptrs. by rewrite E.
Qed.

Lemma refs_decr R h o :
  refs R h → 0 < R o →
  ∃ h', decrRefCount h o = Done h' ∧ refs (λ x, R x - one o x) h' ∧
    ∀ x, 0 < R x - one o x → ptrs h' x = ptrs h x.
Proof.
  intros H Ho. destruct (refs_lookup R h o H Ho) as [p E]. unfold decrRefCount. rewrite E.
  cbn [lift mbind outcome_bind refcount ptr]. rewrite (proj2 (Z.leb_gt _ _)) by lia.
  destruct (Z.eqb_spec (R o) 1) as [E1|E1].
  - eexists. split; [done|]. split.
    + intros x. destruct (decide (x = o)) as [->|Hx].
      * rewrite lookup_delete_eq, one_same. lia.
      * rewrite lookup_delete_ne, one_other, Z.sub_0_r by done. apply H.
    + intros x Hx. unfold ptrs. rewrite lookup_delete_ne; [done|]. intros ->. rewrite one_same in Hx. lia.
  - eexists. split; [done|]. split.
    + eapply refs_ext; [apply (refs_update R h o (R o - 1) p H); lia|]. intros x. unfold one. cbv beta. case_decide; subst; lia.
    + intros x _. apply ptrs_update. unfold ptrs. by rewrite E.
Qed.

Lemma refs_set_ptr R h o p q :
  refs R h → ptrs h o = Some q →
  ∃ h', set_ptr h o p = Done h' ∧ refs R h' ∧ ptrs h' o = Some (Raw (Some p)) ∧ ∀ x, x ≠ o → ptrs h' x = ptrs h x.
Proof.
  intros H Ho. destruct (refs_ptrs R h o q H Ho) as [E Hp]. unfold set_ptr. rewrite E.
  cbn [lift mbind outcome_bind refcount ptr]. eexists. split; [done|]. split; [|split].
  - eapply refs_ext; [apply (refs_update R h o (R o) (Raw (Some p)) H Hp)|]. intros x. cbv beta. case_decide; by subst.
  - unfold ptrs. by rewrite lookup_insert_eq.
  - intros x Hx. unfold ptrs. by rewrite lookup_insert_ne.
Qed.

Lemma obj_sds_ptrs h o p : ptrs h o = Some (Raw (Some p)) → obj_sds h o = Done p.
Proof.
  unfold ptrs, obj_sds. destruct (h !! o) as [[rc q]|]; cbn; [|done]. by intros [= ->].
Qed.

(** ** The bytes of the static buffer *)

Lemma slice_split b x y z : 0 ≤ x ≤ y → y ≤ z → slice b x z = slice b x y ++ slice b y z.
Proof.
  intros Hx Hy. unfold slice. rewrite <-(take_drop (Z.to_nat (y - x)) (take (Z.to_nat (z - x)) _)).
  rewrite take_take, Nat.min_l by lia. f_equal. rewrite skipn_firstn_comm, drop_drop. f_equal; [lia|f_equal; lia].
Qed.

Lemma slice_mstore b pos t :
  0 ≤ pos → pos + blen t ≤ blen b →
  ∃ b', mstore b pos t = Some b' ∧ blen b' = blen b ∧ slice b' pos (pos + blen t) = t ∧
    ∀ x y, 0 ≤ x → y ≤ pos → slice b' x y = slice b x y.
Proof.
  intros Hp Ht. pose proof (blen_nonneg t).
  destruct (split_at b pos) as (A & R & -> & HA); [lia|].
  destruct (split_at R (blen t)) as (M & C & -> & HM); [rewrite blen_app in Ht; lia|].
  rewrite (mstore_app A M C) by (unfold blen in *; lia). exists (A ++ t ++ C). split; [done|].
  split; [rewrite !blen_app; lia|]. split.
  - unfold slice. rewrite <-HA, to_nat_blen, drop_app_length.
    replace (Z.to_nat _) with (length t) by (unfold blen; lia). apply take_app_length.
  - intros x y Hx Hy. unfold slice.
    assert (∀ R, take (Z.to_nat (y - x)) (drop (Z.to_nat x) (A ++ R)) = take (Z.to_nat (y - x)) (drop (Z.to_nat x) A)) as Ht2.
    { intros R. destruct (decide (y ≤ x)); [by replace (Z.to_nat (y - x)) with 0%nat by lia|].
      unfold blen in HA. rewrite drop_app_le, take_app_le by (rewrite ?length_drop; lia). done. }
    by rewrite !Ht2.
Qed.

(** ** The output of a client *)

(** What is queued is bytes and the places of multi bulk lengths not yet known. *)
Abbreviation item := (Z + positive)%type.

Definition req_objs (l : list send_req) : list positive :=
  omap (λ r, match r with ObjReq o => Some o | BufReq _ _ => None end) l.

(** The objects of which the client holds references. *)
Definition held (c : client) : list positive := (reply c).*2 ++ req_objs (inflight c).

Definition node_items (h : heap) (nd : node) : list item :=
  match ptrs h nd.2 with
  | Some (Raw (Some p)) => inl <$> sds_text p
  | Some (Raw None) => [inr nd.1]
  | _ => []
  end.
Definition nodes_items (h : heap) (l : list node) : list item := l ≫= node_items h.

(** Of the bytes not handed to the socket. *)
Definition queued (h : heap) (c : client) : list item :=
  (inl <$> slice (buf c) (sentlen c) (bufpos c)) ++ nodes_items h (reply c).

(** What the memory of a send holds. *)
Definition req_text (h : heap) (b : list Z) (r : send_req) : list Z :=
  match r with
  | BufReq off len => slice b off (off + len)
  | ObjReq o => match ptrs h o with Some (Raw (Some p)) => sds_text p | _ => [] end
  end.
Definition flying (h : heap) (c : client) : list Z := inflight c ≫= req_text h (buf c).

(** The sends of the static buffer follow each other, from [lo] to [hi]. *)
Fixpoint tiled (lo : Z) (l : list send_req) (hi : Z) : Prop :=
  match l with
  | [] => lo = hi
  | BufReq off len :: l => off = lo ∧ 0 < len ∧ tiled (lo + len) l hi
  | ObjReq _ :: l => tiled lo l hi
  end.

(** The event loop sends to the client. *)
Definition event_driven (w : ident) : Prop :=
  fl_lua w = false ∧ (replstate w = REDIS_REPL_NONE ∨ replstate w = REDIS_REPL_ONLINE).
Definition ready (c : client) : Prop := event_driven (who c) → writable c = true.

Definition node_ok (ext : positive → Z) (h : heap) (c : client) (o : positive) : Prop :=
  match ptrs h o with
  | Some (Raw (Some p)) => rep p (sds_text p)
  | Some (Raw None) => ext o = 0 ∧ cnt (held c) o = 1
  | _ => False
  end.

(** [ext]: the references that the rest of the server holds. *)
Record wf (ext : positive → Z) (h : heap) (c : client) : Prop := Wf {
  wf_refs : refs (λ x, ext x + cnt (held c) x) h;
  wf_ext : ∀ x, 0 ≤ ext x;
  wf_nodes : ∀ n o, (n, o) ∈ reply c → node_ok ext h c o;
  wf_reqs : ∀ o, o ∈ req_objs (inflight c) → ∃ p, ptrs h o = Some (Raw (Some p)) ∧ rep p (sds_text p);
  wf_ids : NoDup (reply c).*1;
  wf_buf : blen (buf c) = REDIS_REPLY_CHUNK_BYTES;
  wf_pos : 0 ≤ sentlen c ≤ bufpos c ∧ bufpos c ≤ REDIS_REPLY_CHUNK_BYTES;
  wf_tiles : ∃ lo, 0 ≤ lo ∧ tiled lo (inflight c) (sentlen c) ∧
               (0 < bufpos c → sentlen c = bufpos c → lo < sentlen c);
  wf_ready : bufpos c ≠ 0 ∨ reply c ≠ [] → ready c
}.

(** What the rest of the server can see of the store. *)
Definition frame (ext : positive → Z) (h h' : heap) : Prop := ∀ x, 0 < ext x → ptrs h' x = ptrs h x.

(** The step queues [d] behind what is queued. *)
Record queues (ext : positive → Z) (h : heap) (c : client) (d : list item) (h' : heap) (c' : client) : Prop := Queues {
  q_wf : wf ext h' c';
  q_frame : frame ext h h';
  q_who : who c' = who c;
  q_writable : writable c' = writable c;
  q_inflight : inflight c' = inflight c;
  q_grows : bufpos c ≤ bufpos c' ∧ (reply c ≠ [] → reply c' ≠ []);
  q_flying : flying h' c' = flying h c;
  q_queued : queued h' c' = queued h c ++ d
}.

Lemma elem_of_tiled o l : ObjReq o ∈ l ↔ o ∈ req_objs l.
Proof.
  unfold req_objs. rewrite list_elem_of_omap. split.
  - intros H. by exists (ObjReq o).
  - intros ([|x] & Hx & [= ->]). done.
Qed.

Lemma tiled_app lo l1 l2 hi : tiled lo (l1 ++ l2) hi ↔ ∃ mid, tiled lo l1 mid ∧ tiled mid l2 hi.
Proof.
  revert lo. induction l1 as [|[off len|o] l1 IH]; intros lo; cbn [tiled app].
  - naive_solver.
  - rewrite IH. naive_solver.
  - apply IH.
Qed.

Lemma tiled_le lo l hi : tiled lo l hi → lo ≤ hi.
Proof.
  revert lo. induction l as [|[off len|o] l IH]; intros lo; cbn [tiled]; [lia| |apply IH].
  intros (_ & ? & H%IH). lia.
Qed.

Lemma tiled_bounds lo l hi off len : tiled lo l hi → BufReq off len ∈ l → lo ≤ off ∧ 0 < len ∧ off + len ≤ hi.
Proof.
  revert lo. induction l as [|[off' len'|o] l IH]; intros lo H Hin; cbn [tiled] in H; [by apply elem_of_nil in Hin| |].
  - destruct H as (-> & Hl & H). apply elem_of_cons in Hin as [[= -> ->] | Hin].
    + apply tiled_le in H. lia.
    + destruct (IH _ H Hin). lia.
  - apply elem_of_cons in Hin as [?|Hin]; [done|]. by apply (IH lo).
Qed.

Lemma nodes_items_same h h' l : (∀ x, x ∈ l.*2 → ptrs h' x = ptrs h x) → nodes_items h' l = nodes_items h l.
Proof.
  unfold nodes_items. induction l as [|[n o] l IH]; intros H; [done|]. rewrite !bind_cons.
  rewrite IH by (intros; apply H; rewrite fmap_cons; by right). f_equal. unfold node_items. cbn [snd].
  by rewrite H by (rewrite fmap_cons; left).
Qed.

Lemma nodes_items_app h l1 l2 : nodes_items h (l1 ++ l2) = nodes_items h l1 ++ nodes_items h l2.
Proof. apply bind_app. Qed.
Lemma nodes_items_one h nd : nodes_items h [nd] = node_items h nd.
Proof. unfold nodes_items. rewrite bind_cons. apply app_nil_r. Qed.

Lemma flying_same h h' (b b' : list Z) l lo hi :
  tiled lo l hi → 0 ≤ lo →
  (∀ x, x ∈ req_objs l → ptrs h' x = ptrs h x) →
  (∀ x y, 0 ≤ x → y ≤ hi → slice b' x y = slice b x y) →
  (l ≫= req_text h' b') = (l ≫= req_text h b).
Proof.
  intros Ht Hlo Hp Hb.
  assert (∀ l', (∀ r, r ∈ l' → r ∈ l) → (l' ≫= req_text h' b') = (l' ≫= req_text h b)) as H; [|by apply H].
  induction l' as [|r l' IH]; intros Hr; [done|]. rewrite !bind_cons, IH by set_solver. f_equal.
  destruct r as [off len|o]; cbn [req_text].
  - destruct (tiled_bounds lo l hi off len) as (? & ? & ?); [done|set_solver|]. apply Hb; lia.
  - rewrite Hp; [done|]. apply elem_of_tiled. set_solver.
Qed.

(** ** Queueing steps *)

Lemma wf_set_reply ext h c h' l bytes :
  wf ext h c →
  refs (λ x, ext x + cnt (l.*2 ++ req_objs (inflight c)) x) h' →
  (∀ x, x ∈ req_objs (inflight c) → ptrs h' x = ptrs h x) →
  (∀ n o, (n, o) ∈ l → node_ok ext h' (set_reply c l bytes) o) →
  NoDup l.*1 → (l ≠ [] → ready c) →
  wf ext h' (set_reply c l bytes) ∧ flying h' (set_reply c l bytes) = flying h c.
Proof.
  intros [] Hr Hp Hn Hd Hrd. split.
  - split; try done; cbn [set_reply inflight reply buf bufpos sentlen].
    + intros o Ho. destruct (wf_reqs0 o Ho) as (p & E & R). exists p. by rewrite Hp.
    + intros [H|H]; [apply wf_ready0; by left|by apply Hrd].
  - destruct wf_tiles0 as (lo & Hlo & Ht & _). by apply (flying_same _ _ _ _ _ lo (sentlen c)).
Qed.

Lemma wf_node_keep ext h c h' c' o :
  node_ok ext h c o → ptrs h' o = ptrs h o →
  (ptrs h o = Some (Raw None) → cnt (held c') o = cnt (held c) o) → node_ok ext h' c' o.
Proof.
  unfold node_ok. intros H E Hc. rewrite E. destruct (ptrs h o) as [[[p|]|]|]; try done.
  by rewrite Hc.
Qed.

Lemma elem_of_fmap_snd (l : list node) n o : (n, o) ∈ l → o ∈ l.*2.
Proof. intros H. by apply (list_elem_of_fmap_2 snd) in H. Qed.

Lemma queues_push ext h c h' ln o bytes p :
  wf ext h c → ready c → ln ∉ (reply c).*1 →
  refs (λ x, ext x + cnt (held c) x + one o x) h' →
  (∀ x, 0 < ext x + cnt (held c) x → ptrs h' x = ptrs h x) →
  ptrs h' o = Some (Raw p) →
  match p with Some p => rep p (sds_text p) | None => ext o + cnt (held c) o = 0 end →
  queues ext h c (node_items h' (ln, o)) h' (set_reply c (reply c ++ [(ln, o)]) bytes).
Proof.
  intros W Hrd Hln Hr Hp Ho Hpo.
  assert (∀ x, 0 ≤ ext x) as Hext by apply W.
  assert (∀ x, x ∈ held c → ptrs h' x = ptrs h x) as Hheld
    by (intros x Hx; apply Hp; pose proof (cnt_pos _ _ Hx); specialize (Hext x); lia).
  set (c' := set_reply c (reply c ++ [(ln, o)]) bytes).
  assert (∀ x, cnt (held c') x = cnt (held c) x + one o x) as Hc.
  { intros x. unfold held. cbn [c' set_reply reply inflight]. rewrite fmap_app, !cnt_app. cbn. lia. }
  destruct (wf_set_reply ext h c h' (reply c ++ [(ln, o)]) bytes W) as [W' F].
  - eapply refs_ext; [apply Hr|]. intros x. cbv beta. specialize (Hc x). unfold held in *. cbn [c' set_reply reply inflight] in *. lia.
  - intros x Hx. apply Hheld. unfold held. set_solver.
  - intros n o' [Hin | [= -> ->]%list_elem_of_singleton]%elem_of_app.
    + apply elem_of_fmap_snd in Hin as Hin'. assert (o' ∈ held c) as Hh by (unfold held; set_solver).
      eapply wf_node_keep; [by eapply wf_nodes|by apply Hheld|]. intros E. rewrite Hc, one_other; [lia|].
      intros ->. rewrite <-Hheld, Ho in E by done. simplify_eq.
      pose proof (cnt_pos _ _ Hh). specialize (Hext o). lia.
    + unfold node_ok. rewrite Ho. destruct p; [done|]. rewrite Hc, one_same.
      pose proof (cnt_nonneg (held c) o). specialize (Hext o). lia.
  - rewrite fmap_app. apply NoDup_app. split; [apply W|]. split; [set_solver|]. apply NoDup_singleton.
  - done.
  - split; try done.
    + intros x Hx. apply Hp. pose proof (cnt_nonneg (held c) x). lia.
    + split; [done|]. intros _. cbn. by destruct (reply c).
    + unfold queued. cbn [c' set_reply reply buf sentlen bufpos]. rewrite nodes_items_app, (assoc_L (++)). f_equal.
      * f_equal. apply nodes_items_same. intros x Hx. apply Hheld. unfold held. set_solver.
      * by rewrite nodes_items_one.
Qed.

Section append.
Context (junk : nat → Z) (E : env).

(** The tail, when it is done, is an object of this list only. *)
Lemma dupLastObjectIfNeeded_spec ext h c l0 ln tail p :
  wf ext h c → reply c = l0 ++ [(ln, tail)] → ptrs h tail = Some (Raw (Some p)) →
  ∃ h' new p', dupLastObjectIfNeeded junk h (reply c) = Done (h', l0 ++ [(ln, new)], new) ∧
    ptrs h' new = Some (Raw (Some p')) ∧ rep p' (sds_text p) ∧
    refs (λ x, ext x + cnt ((l0 ++ [(ln, new)]).*2 ++ req_objs (inflight c)) x) h' ∧
    ext new + cnt (l0.*2 ++ req_objs (inflight c)) new = 0 ∧
    ∀ x, 0 < ext x + cnt (l0.*2 ++ req_objs (inflight c)) x → ptrs h' x = ptrs h x.
Proof.
  intros W El Ht. pose proof (wf_refs _ _ _ W) as Hr. pose proof (wf_ext _ _ _ W) as Hext.
  destruct (refs_ptrs _ _ _ _ Hr Ht) as [Eh Hpos].
  assert (rep p (sds_text p)) as Hrep.
  { pose proof (wf_nodes _ _ _ W ln tail) as Hn. rewrite El in Hn.
    specialize (Hn ltac:(set_solver)). unfold node_ok in Hn. by rewrite Ht in Hn. }
  set (R0 := λ x, ext x + cnt (l0.*2 ++ req_objs (inflight c)) x).
  assert (∀ y x, cnt ((l0 ++ [(ln, y)]).*2 ++ req_objs (inflight c)) x = cnt (l0.*2 ++ req_objs (inflight c)) x + one y x) as Hc.
  { intros y x. rewrite fmap_app, !cnt_app. cbn. lia. }
  assert (∀ x, ext x + cnt (held c) x = R0 x + one tail x) as HR by (intros x; unfold held, R0; rewrite El, Hc; lia).
  assert (0 ≤ R0 tail) by (pose proof (cnt_nonneg (l0.*2 ++ req_objs (inflight c)) tail); specialize (Hext tail); unfold R0; lia).
  unfold dupLastObjectIfNeeded. rewrite El, last_snoc, Eh. cbn [lift mbind outcome_bind refcount].
  rewrite HR, one_same. destruct (Z.ltb_spec 1 (R0 tail + 1)) as [Hd|Hd].
  - unfold dupStringObject. rewrite Eh. cbn [lift mbind outcome_bind ptr]. unfold createStringObject.
    destruct (rep_bounds _ _ Hrep) as (Hb & Hsl & _ & _ & _). rewrite Hsl.
    destruct Hrep as (tl & Hbuf & _).
    destruct (sdsnewlen_spec junk (Some (sh_buf p)) (sds_text p) (0 :: tl)) as (q & Eq & Rq & _); [by rewrite Hbuf|lia|].
    rewrite Eq. cbn [lift mbind outcome_bind].
    destruct (createObject h (Raw (Some q))) as [h1 new] eqn:Ec.
    destruct (refs_create _ _ _ _ _ Hr Ec) as (Hnew & Hr1 & Hpn & Hp1).
    destruct (refs_decr _ h1 tail Hr1) as (h2 & Ed & Hr2 & Hp2).
    { cbv beta. rewrite HR, one_same. pose proof (one_range new tail). lia. }
    rewrite Ed. cbn [mbind outcome_bind]. rewrite removelast_last.
    assert (R0 new = 0 ∧ one tail new = 0) as [HR0 H1].
    { rewrite HR in Hnew. pose proof (one_range tail new). specialize (Hext new).
      pose proof (cnt_nonneg (l0.*2 ++ req_objs (inflight c)) new). unfold R0 in *. lia. }
    exists h2, new, q. split; [done|]. split; [|split; [done|split; [|split; [done|]]]].
    + rewrite Hp2; [done|]. cbv beta. rewrite HR, one_same. lia.
    + eapply refs_ext; [apply Hr2|]. intros x. cbv beta. rewrite HR, Hc. unfold R0. lia.
    + intros x Hx. rewrite Hp2, Hp1; [done| |].
      * intros ->. unfold R0 in HR0. lia.
      * cbv beta. rewrite HR. pose proof (one_range new x). unfold R0. lia.
  - exists h, tail, p. split; [done|]. split; [done|]. split; [done|]. split.
    + eapply refs_ext; [apply Hr|]. intros x. cbv beta. rewrite HR, Hc. unfold R0. lia.
    + split; [unfold R0 in *; lia|done].
Qed.

Lemma append_to_tail_spec ext h c l0 ln tail p t rest n :
  wf ext h c → reply c = l0 ++ [(ln, tail)] → ptrs h tail = Some (Raw (Some p)) →
  n = blen t → blen (sds_text p) + n ≤ max_len →
  post (append_to_tail junk E h c tail (t ++ rest) n) (λ '(h', c'), queues ext h c (inl <$> t) h' c').
Proof.
  intros W El Ht -> Hlen. pose proof (wf_ext _ _ _ W) as Hext. unfold append_to_tail.
  rewrite (obj_sds_ptrs _ _ _ Ht). cbn [mbind outcome_bind]. cbv zeta.
  destruct (dupLastObjectIfNeeded_spec ext h c l0 ln tail p W El Ht) as (h1 & new & p1 & -> & Hp1 & Rp1 & Hr1 & Hex & Hs1).
  cbn [mbind outcome_bind]. rewrite (obj_sds_ptrs _ _ _ Hp1). cbn [mbind outcome_bind].
  destruct (sdscatlen_spec junk p1 (sds_text p) t rest Rp1 Hlen) as (p2 & -> & Rp2). cbn [lift mbind outcome_bind].
  destruct (refs_set_ptr _ h1 new p2 _ Hr1 Hp1) as (h2 & -> & Hr2 & Hp2 & Hs2). cbn [mbind outcome_bind post].
  set (bytes := u32 _). clearbody bytes.
  assert (∀ x, 0 < ext x + cnt (l0.*2 ++ req_objs (inflight c)) x → ptrs h2 x = ptrs h x) as Hs.
  { intros x Hx. rewrite Hs2, Hs1; [done..|]. intros ->. lia. }
  assert (∀ x, x ∈ l0.*2 ++ req_objs (inflight c) → ptrs h2 x = ptrs h x ∧ x ≠ new) as Hin.
  { intros x Hx. pose proof (cnt_pos _ _ Hx). specialize (Hext x). split; [apply Hs; lia|]. intros ->. lia. }
  assert (NoDup (l0 ++ [(ln, new)]).*1) as Hnd.
  { pose proof (wf_ids _ _ _ W) as Hd. rewrite El, fmap_app in Hd. by rewrite fmap_app. }
  destruct (wf_set_reply ext h c h2 (l0 ++ [(ln, new)]) bytes W) as [W' F]; [done| | |done| |].
  - intros x Hx. apply Hin. set_solver.
  - intros n' o' [Hi | [= -> ->]%list_elem_of_singleton]%elem_of_app.
    + apply elem_of_fmap_snd in Hi as Hi'. destruct (Hin o') as [Es Hne]; [set_solver|].
      pose proof (wf_nodes _ _ _ W n' o') as Hn. rewrite El in Hn. specialize (Hn ltac:(set_solver)).
      eapply wf_node_keep; [exact Hn|done|]. intros Enone. unfold node_ok in Hn. rewrite Enone in Hn.
      destruct Hn as [_ Hn]. unfold held in *. cbn [set_reply reply inflight]. rewrite El in *.
      rewrite !fmap_app, !cnt_app in *. cbn [fmap list_fmap cnt snd] in *. rewrite (one_other new), (one_other tail); [lia|..|done].
      intros ->. by rewrite Enone in Ht.
    + unfold node_ok. rewrite Hp2. by rewrite (sds_text_rep _ _ Rp2).
  - intros _. apply (wf_ready _ _ _ W). right. rewrite El. by destruct l0.
  - split; try done.
    + intros x Hx. apply Hs. pose proof (cnt_nonneg (l0.*2 ++ req_objs (inflight c)) x). lia.
    + split; [done|]. intros _. cbn. by destruct l0.
    + unfold queued. cbn [set_reply reply buf sentlen bufpos]. rewrite El, !nodes_items_app, <-!(assoc_L (++)). f_equal.
      f_equal; [apply nodes_items_same; intros x Hx; apply Hin; set_solver|].
      rewrite !nodes_items_one. unfold node_items. cbn [snd]. rewrite Hp2, Ht.
      by rewrite (sds_text_rep _ _ Rp2), fmap_app.
Qed.
End append.

Lemma add_tail_queues ext h c h' o size p t :
  wf ext h c → ready c →
  refs (λ x, ext x + cnt (held c) x + one o x) h' →
  (∀ x, 0 < ext x + cnt (held c) x → ptrs h' x = ptrs h x) →
  ptrs h' o = Some (Raw (Some p)) → rep p t →
  queues ext h c (inl <$> t) h' (add_tail c o size).1.
Proof.
  intros W Hrd Hr Hp Ho R. unfold add_tail. cbn [fst].
  set (ln := fresh (list_to_set (reply c).*1 : gset positive)).
  assert (ln ∉ (reply c).*1) as Hln.
  { pose proof (is_fresh (list_to_set (reply c).*1 : gset positive)) as H. fold ln in H. set_solver. }
  clearbody ln. replace (inl <$> t) with (node_items h' (ln, o)).
  - eapply queues_push; try done. cbn. by rewrite (sds_text_rep _ _ R).
  - unfold node_items. cbn [snd]. by rewrite Ho, (sds_text_rep _ _ R).
Qed.

(** The client, but for its limits. *)
Definition alike (c c' : client) : Prop := ∃ t b, c' = set_asap (set_soft_time c t) b.

Lemma queues_alike ext h c d h' c1 c2 : queues ext h c d h' c1 → alike c1 c2 → queues ext h c d h' c2.
Proof. intros [[]] (t & b & ->). split; [split|..]; done. Qed.

Section lists.
Context (junk : nat → Z) (E : env).

Lemma alike_refl c : alike c c.
Proof. destruct c. by eexists _, _. Qed.
Lemma alike_soft c t : alike c (set_soft_time c t).
Proof. exists t, (fl_close_asap c). by destruct c. Qed.
Lemma alike_freed c c' : alike c c' → alike c (freeClientAsync c').
Proof. intros (t & b & ->). unfold freeClientAsync. case_match; by eexists _, _. Qed.

Lemma check_limits_alike c : alike c (checkClientOutputBufferLimits E c).1.
Proof. unfold checkClientOutputBufferLimits. repeat case_match; cbn [fst]; apply alike_refl || apply alike_soft. Qed.

Lemma asyncClose_alike c : post (asyncCloseClientOnOutputBufferLimitReached E c) (alike c).
Proof.
  unfold asyncCloseClientOnOutputBufferLimitReached. case_match; [done|]. case_match; [apply alike_refl|].
  pose proof (check_limits_alike c). destruct (checkClientOutputBufferLimits E c) as [c1 []]; [by apply alike_freed|done].
Qed.

Lemma then_async ext h c d m :
  post m (λ '(h', c'), queues ext h c d h' c') →
  post ('(h, c) ← m; c ← asyncCloseClientOnOutputBufferLimitReached E c; Done (h, c))
    (λ '(h', c'), queues ext h c d h' c').
Proof.
  intros Hm. eapply post_bind; [exact Hm|]. intros [h1 c1] Q. eapply post_bind; [apply asyncClose_alike|].
  intros c2 A. by eapply queues_alike.
Qed.

Lemma tail_has_room_spec ext h c ln tail len :
  wf ext h c → (ln, tail) ∈ reply c → 0 ≤ len < 2 ^ 31 →
  tail_has_room h tail len = Done false ∨
  tail_has_room h tail len = Done true ∧
    ∃ p, ptrs h tail = Some (Raw (Some p)) ∧ blen (sds_text p) + len ≤ REDIS_REPLY_CHUNK_BYTES.
Proof.
  intros W Hin Hlen. pose proof (wf_nodes _ _ _ W _ _ Hin) as Hn. unfold node_ok, ptrs in *. unfold tail_has_room.
  destruct (h !! tail) as [[rc [[p|]|]]|]; cbn in *; try done; [|by left].
  destruct (rep_bounds _ _ Hn) as (Hb & Hsl & _). rewrite Hsl, (wrapu_small 64) by lia.
  destruct (Z.leb_spec (blen (sds_text p) + len) REDIS_REPLY_CHUNK_BYTES); [right|by left].
  split; [done|]. eauto.
Qed.

(** The three functions that add to the list, for a new tail made by [new]. *)
Lemma list_add_spec ext h c t rest n new :
  wf ext h c → n = blen t → n < 2 ^ 31 →
  post new (λ '(h', c'), queues ext h c (inl <$> t) h' c') →
  post ('(h, c) ←
      match last (reply c) with
      | None => new
      | Some (_, tail) =>
          room ← tail_has_room h tail n;
          if room : bool then append_to_tail junk E h c tail (t ++ rest) n else new
      end;
    c ← asyncCloseClientOnOutputBufferLimitReached E c;
    Done (h, c)) (λ '(h', c'), queues ext h c (inl <$> t) h' c').
Proof.
  intros W Hlen Hn Hnew. apply then_async. pose proof (blen_nonneg t).
  destruct (reply c) as [|nd l0 _] eqn:El using rev_ind; [done|]. rewrite last_snoc. destruct nd as [ln tail].
  destruct (tail_has_room_spec ext h c ln tail n W) as [-> | [-> (p & Hp & Hroom)]];
    [rewrite El; set_solver|lia|done|]. cbn [mbind outcome_bind].
  eapply append_to_tail_spec; try done. unfold max_len. unfold REDIS_REPLY_CHUNK_BYTES in Hroom. lia.
Qed.

Lemma addReplyToBuffer_spec ext h c t rest n :
  wf ext h c → ready c → fl_close_after_reply (who c) = false → n = blen t →
  post (_addReplyToBuffer c (t ++ rest) n) (λ '(c', ok), if ok : bool then queues ext h c (inl <$> t) h c' else c' = c).
Proof.
  intros W Hrd Hcl ->. pose proof (blen_nonneg t). unfold _addReplyToBuffer. rewrite Hcl.
  destruct W as [Wr We Wn Wq Wi Wb [Wp Wp'] (lo & Hlo & Ht & Hlt) Wd].
  rewrite (wrapu_small 64) by (unfold REDIS_REPLY_CHUNK_BYTES in *; lia).
  case_bool_decide as El; [|done]. cbn [negb]. destruct (Z.ltb_spec (REDIS_REPLY_CHUNK_BYTES - bufpos c) (blen t)); [done|].
  rewrite mload_prefix. cbn [lift mbind outcome_bind].
  destruct (slice_mstore (buf c) (bufpos c) t) as (b' & -> & Hb' & Hs & Hsame); [lia|lia|].
  cbn [lift mbind outcome_bind post].
  unfold REDIS_REPLY_CHUNK_BYTES in *. rewrite (wraps_small 32 (blen t)), (wraps_small 32 (bufpos c + blen t)) by (change (2 ^ (32 - 1)) with 2147483648; lia).
  assert (flying h (set_buf c b' (bufpos c + blen t) (sentlen c)) = flying h c) as F.
  { apply (flying_same _ _ _ _ _ lo (sentlen c)); [done..|]. intros. apply Hsame; lia. }
  split; try done.
  - split; try done; cbn [set_buf buf bufpos sentlen reply inflight].
    + unfold REDIS_REPLY_CHUNK_BYTES. lia.
    + unfold REDIS_REPLY_CHUNK_BYTES. lia.
    + exists lo. split; [done|split; [done|]]. intros. apply Hlt; lia.
  - split; [cbn; lia|done].
  - unfold queued. cbn [set_buf buf bufpos sentlen reply]. rewrite El. cbn. rewrite !app_nil_r.
    rewrite <-fmap_app. f_equal. rewrite (slice_split b' (sentlen c) (bufpos c)) by lia. by rewrite Hs, Hsame by lia.
Qed.
End lists.

(** ** Replies *)

(** The text of a string object. *)
Definition otext (p : option obj_ptr) (t : list Z) : Prop :=
  match p with
  | Some (Raw (Some s)) => rep s t
  | Some (Int n) => LONG_MIN ≤ n ≤ LONG_MAX ∧ t = ll_text n
  | _ => False
  end.

Definition shown (w : ident) (t : list Z) : list item := if fl_close_after_reply w then [] else inl <$> t.

Lemma queues_refl ext h c : wf ext h c → queues ext h c [] h c.
Proof. intros W. split; try done. by rewrite app_nil_r. Qed.

(** A change of the references of the rest of the server. *)
Lemma wf_change_ext ext ext' h h' c :
  wf ext h c → refs (λ x, ext' x + cnt (held c) x) h' → (∀ x, 0 ≤ ext' x) →
  (∀ x, x ∈ held c → ptrs h' x = ptrs h x) →
  (∀ x, x ∈ held c → ptrs h x = Some (Raw None) → ext x = 0 → ext' x = 0) →
  wf ext' h' c ∧ queued h' c = queued h c ∧ flying h' c = flying h c.
Proof.
  intros [] Hr He Hp Hn. split; [|split].
  - split; try done.
    + intros n o Hin. specialize (wf_nodes0 n o Hin). apply elem_of_fmap_snd in Hin as Hin'.
      assert (o ∈ held c) as Hh by (unfold held; set_solver). unfold node_ok in *. rewrite Hp by done.
      destruct (ptrs h o) as [[[p|]|]|] eqn:E; try done. destruct wf_nodes0. auto.
    + intros o Ho. rewrite Hp by (unfold held; set_solver). auto.
  - unfold queued. f_equal. apply nodes_items_same. intros. apply Hp. unfold held. set_solver.
  - destruct wf_tiles0 as (lo & Hlo & Ht & _). apply (flying_same _ _ _ _ _ lo (sentlen c)); try done.
    intros. apply Hp. unfold held. set_solver.
Qed.

Section replies.
Context (junk : nat → Z) (E : env).

Definition accepts (c : client) : bool := (prepareClientToWrite E c).2.

Lemma prepare_spec ext h c :
  wf ext h c →
  if accepts c then ∃ c', prepareClientToWrite E c = (c', true) ∧ (c' = c ∨ c' = set_writable c true) ∧ ready c'
  else prepareClientToWrite E c = (c, false).
Proof.
  intros W. pose proof (wf_ready _ _ _ W) as Hrd. unfold accepts, prepareClientToWrite, ready, event_driven in *.
  destruct (fl_lua (who c)) eqn:El; cbn [snd].
  { exists c. split; [done|]. split; [by left|]. rewrite El. by intros []. }
  destruct (fl_master (who c) && negb (fl_master_force_reply (who c))); [done|]. destruct (fd (who c) <=? 0); [done|].
  destruct ((bufpos c =? 0) && bool_decide (reply c = []) && _) eqn:Ec.
  - destruct (aeCreateFileEvent E); cbn [snd]; [|done]. exists (set_writable c true). split; [done|]. split; [by right|done].
  - cbn [snd]. exists c. split; [done|]. split; [by left|]. intros [_ Hs]. apply Hrd; [|done].
    apply andb_false_iff in Ec as [[Ec%Z.eqb_neq | Ec%bool_decide_eq_false]%andb_false_iff | Ec]; [by left|by right|].
    exfalso. destruct Hs as [Hs|Hs]; rewrite Hs in Ec; done.
Qed.

Lemma accepts_mono c c' :
  who c' = who c → bufpos c ≤ bufpos c' → 0 ≤ bufpos c → (reply c ≠ [] → reply c' ≠ []) →
  accepts c = true → accepts c' = true.
Proof.
  unfold accepts, prepareClientToWrite. intros -> Hb Hb0 Hr. destruct (fl_lua (who c)); [done|].
  destruct (fl_master (who c) && negb (fl_master_force_reply (who c))); [done|]. destruct (fd (who c) <=? 0); [done|].
  destruct (_ || _); [|by rewrite !andb_false_r]. rewrite !andb_true_r.
  destruct (aeCreateFileEvent E); [by repeat case_match|].
  destruct (Z.eqb_spec (bufpos c) 0); cbn [andb].
  - case_bool_decide as Er; [done|]. intros _. rewrite (bool_decide_false (reply c' = [])) by auto.
    by rewrite andb_false_r.
  - intros _. rewrite (proj2 (Z.eqb_neq _ _)) by lia. done.
Qed.

Lemma buffer_shown ext h c t rest n :
  wf ext h c → ready c → n = blen t →
  post (_addReplyToBuffer c (t ++ rest) n)
    (λ '(c', ok), if ok : bool then queues ext h c (shown (who c) t) h c' else c' = c ∧ fl_close_after_reply (who c) = false).
Proof.
  intros W Hrd Hn. unfold shown. destruct (fl_close_after_reply (who c)) eqn:Ec.
  - unfold _addReplyToBuffer. rewrite Ec. by apply queues_refl.
  - eapply post_weaken; [by eapply addReplyToBuffer_spec|]. by intros [c' []].
Qed.

Lemma object_to_list ext h c o p t :
  wf ext h c → ready c → fl_close_after_reply (who c) = false → 0 < ext o →
  ptrs h o = Some (Raw (Some p)) → rep p t →
  post (_addReplyObjectToList junk E h c o) (λ '(h', c'), queues ext h c (inl <$> t) h' c').
Proof.
  intros W Hrd Hcl Ho Hp R. unfold _addReplyObjectToList. rewrite Hcl, (obj_sds_ptrs _ _ _ Hp).
  cbn [mbind outcome_bind]. destruct (rep_bounds _ _ R) as (Hb & Hsl & _). pose proof R as (tl & -> & _).
  apply (list_add_spec junk E ext h c t (0 :: tl) (sdslen p)); [done|done|lia|].
  pose proof (wf_refs _ _ _ W) as Hr. pose proof (cnt_nonneg (held c) o).
  destruct (refs_incr _ h o Hr) as (h1 & -> & Hr1 & Hs1); [lia|]. cbn [mbind outcome_bind post].
  eapply add_tail_queues; try done. by rewrite Hs1.
Qed.

Lemma ll_text_bounds n : LONG_MIN ≤ n ≤ LONG_MAX → in_i64 n ∧ blen (ll_text n) ≤ 20 ∧ ch_nul ∉ ll_text n.
Proof.
  intros Hn. assert (in_i64 n) as Hi by (unlimit; lia). pose proof (ll_text_length n Hi).
  split; [done|]. split; [unfold blen; lia|]. by apply ll_text_no_nul.
Qed.

Lemma ll2string_whole len n :
  in_i64 n → 21 ≤ len → ll2string len n = (blen (ll_text n), ll_text n ++ [ch_nul]).
Proof.
  intros Hn Hl. pose proof (ll_text_length n Hn). rewrite ll2string_text by (done || lia). cbv zeta.
  rewrite Z.min_l by (unfold blen; lia). by rewrite to_nat_blen, firstn_all.
Qed.

(** The references of the rest of the server, with an object of the running function. *)
Definition own (ext : positive → Z) (d x : positive) : Z := ext x + one d x.

Lemma held_pos ext h c x : wf ext h c → x ∈ held c → 0 < ext x + cnt (held c) x.
Proof. intros W Hx. pose proof (cnt_pos _ _ Hx). pose proof (wf_ext _ _ _ W x). lia. Qed.

Lemma own_created ext h c p h1 d :
  wf ext h c → createObject h p = (h1, d) →
  wf (own ext d) h1 c ∧ queued h1 c = queued h c ∧ flying h1 c = flying h c ∧ ptrs h1 d = Some p ∧ frame ext h h1.
Proof.
  intros W Ec. destruct (refs_create _ _ _ _ _ (wf_refs _ _ _ W) Ec) as (Hd & Hr1 & Hp1 & Hs1).
  assert (∀ x, 0 < ext x + cnt (held c) x → ptrs h1 x = ptrs h x) as Hsame by (intros x Hx; apply Hs1; intros ->; lia).
  destruct (wf_change_ext ext (own ext d) h h1 c W) as (W1 & Q1 & F1).
  - eapply refs_ext; [exact Hr1|]. intros x. unfold own. lia.
  - intros x. unfold own. pose proof (wf_ext _ _ _ W x). pose proof (one_range d x). lia.
  - intros x Hx. by eapply Hsame, held_pos.
  - intros x Hx _ Hx0. unfold own. rewrite Hx0, one_other; [done|]. intros ->.
    pose proof (held_pos _ _ _ _ W Hx). lia.
  - do 4 (split; [done|]). intros x Hx. apply Hsame. pose proof (cnt_nonneg (held c) x). lia.
Qed.

Lemma release_owned ext d h1 c D h2 c2 :
  (∀ x, 0 ≤ ext x) → queues (own ext d) h1 c D h2 c2 →
  ∃ h3, decrRefCount h2 d = Done h3 ∧ queues ext h1 c D h3 c2.
Proof.
  intros Hext Q. destruct Q as [W2 Fr2 Hw2 Hwr2 Hin2 Hg2 Hf2 Hq2].
  destruct (refs_decr _ h2 d (wf_refs _ _ _ W2)) as (h3 & Ed & Hr3 & Hs3).
  { unfold own. rewrite one_same. pose proof (cnt_nonneg (held c2) d). specialize (Hext d). lia. }
  assert (∀ x, 0 < ext x + cnt (held c2) x → ptrs h3 x = ptrs h2 x) as Hsame by (intros x Hx; apply Hs3; unfold own; lia).
  destruct (wf_change_ext (own ext d) ext h2 h3 c2 W2) as (W3 & Q3 & F3); [|done| | |].
  - eapply refs_ext; [exact Hr3|]. intros x. unfold own. cbv beta. lia.
  - intros x Hx. apply Hsame. pose proof (cnt_pos _ _ Hx). specialize (Hext x). lia.
  - intros x _ _. unfold own. specialize (Hext x). pose proof (one_range d x). lia.
  - exists h3. split; [done|]. split; try done; try congruence.
    intros x Hx. rewrite Hsame, Fr2; [done| |].
    + unfold own. pose proof (one_range d x). lia.
    + pose proof (cnt_nonneg (held c2) x). lia.
Qed.

(** Through a decoded object, which the function makes and releases. *)
Lemma decoded_shown ext h c o n :
  wf ext h c → ready c → h !! o = Some (Robj (ext o + cnt (held c) o) (Int n)) → LONG_MIN ≤ n ≤ LONG_MAX →
  post ('(h, o) ← getDecodedObject junk h o;
        p ← obj_sds h o;
        '(c, ok) ← _addReplyToBuffer c (sh_buf p) (sdslen p);
        '(h, c) ← (if ok : bool then Done (h, c) else _addReplyObjectToList junk E h c o);
        h ← decrRefCount h o;
        Done (h, c)) (λ '(h', c'), queues ext h c (shown (who c) (ll_text n)) h' c').
Proof.
  intros W Hrd Ho Hn. destruct (ll_text_bounds n Hn) as (Hi & Hl & Hnul). pose proof (wf_ext _ _ _ W) as Hext.
  unfold getDecodedObject. rewrite Ho. cbn [lift mbind outcome_bind ptr]. rewrite ll2string_whole by (done || lia).
  rewrite strlen_text by done. cbn [lift mbind outcome_bind]. unfold createStringObject.
  destruct (sdsnewlen_spec junk (Some (ll_text n ++ [ch_nul])) (ll_text n) [ch_nul]) as (s & -> & Rs & _); [done|lia|].
  cbn [lift mbind outcome_bind]. destruct (createObject h (Raw (Some s))) as [h1 d] eqn:Ec.
  destruct (own_created _ _ _ _ _ _ W Ec) as (W1 & Q1 & F1 & Hp1 & Fr1). cbn [mbind outcome_bind].
  rewrite (obj_sds_ptrs _ _ _ Hp1). cbn [mbind outcome_bind].
  pose proof Rs as (tl & Eb & _). destruct (rep_bounds _ _ Rs) as (Hb & Hsl & _). rewrite Hsl, Eb.
  assert (post ('(c, ok) ← _addReplyToBuffer c (ll_text n ++ 0 :: tl) (blen (ll_text n));
    if ok : bool then Done (h1, c) else _addReplyObjectToList junk E h1 c d)
    (λ '(h2, c2), queues (own ext d) h1 c (shown (who c) (ll_text n)) h2 c2)) as Hq.
  { eapply post_bind; [by apply (buffer_shown (own ext d) h1 c (ll_text n) (0 :: tl))|].
    intros [c1 []]; [done|]. intros [-> Hcl]. unfold shown. rewrite Hcl.
    eapply object_to_list; try done. unfold own. rewrite one_same. specialize (Hext d). lia. }
  revert Hq. destruct (_addReplyToBuffer c _ _) as [[c1 ok]| |]; cbn [mbind outcome_bind]; try done.
  generalize (if ok then Done (h1, c1) else _addReplyObjectToList junk E h1 c1 d).
  intros [[h2 c2]| |]; cbn [post mbind outcome_bind]; try done.
  intros Q. destruct (release_owned ext d h1 c _ h2 c2 Hext Q) as (h3 & -> & []). cbn [mbind outcome_bind post].
  split; try done; try congruence. intros x Hx. rewrite q_frame0 by done. by apply Fr1.
Qed.

(** The bytes of a text that reach the output of the client. *)
Definition visible (c : client) (t : list Z) : list Z :=
  if accepts c && negb (fl_close_after_reply (who c)) then t else [].

(** The objects that the rest of the server holds, and what they are; no reply
    changes them. *)
Context (ext : positive → Z) (view : positive → option obj_ptr).

Definition seen (h : heap) : Prop := ∀ x, 0 < ext x → ptrs h x = view x.

Record replied (h : heap) (c : client) (t : list item) (h' : heap) (c' : client) : Prop := Replied {
  r_wf : wf ext h' c';
  r_seen : seen h';
  r_who : who c' = who c;
  r_accepts : accepts c' = accepts c;
  r_inflight : inflight c' = inflight c;
  r_flying : flying h' c' = flying h c;
  r_queued : queued h' c' = queued h c ++ t
}.

(** The function adds the text [t] to the output of any client. *)
Definition says (m : heap → client → outcome (heap * client)) (t : list Z) : Prop :=
  ∀ h c, wf ext h c → seen h → post (m h c) (λ '(h', c'), replied h c (inl <$> visible c t) h' c').

Lemma replied_refl h c : wf ext h c → seen h → replied h c [] h c.
Proof. intros W S. split; try done. by rewrite app_nil_r. Qed.

Lemma replied_trans h1 c1 t1 h2 c2 t2 h3 c3 :
  replied h1 c1 t1 h2 c2 → replied h2 c2 t2 h3 c3 → replied h1 c1 (t1 ++ t2) h3 c3.
Proof.
  intros [] []. split; try done; try congruence. by rewrite r_queued1, r_queued0, <-(assoc_L (++)).
Qed.

Lemma visible_same h1 c1 t1 h2 c2 t : replied h1 c1 t1 h2 c2 → visible c2 t = visible c1 t.
Proof. intros []. unfold visible. by rewrite r_who0, r_accepts0. Qed.

Lemma visible_app c t1 t2 : visible c (t1 ++ t2) = visible c t1 ++ visible c t2.
Proof. unfold visible. by case_match. Qed.

Lemma says_seq m1 m2 t1 t2 :
  says m1 t1 → says m2 t2 → says (λ h c, '(h, c) ← m1 h c; m2 h c) (t1 ++ t2).
Proof.
  intros H1 H2 h c W S. eapply post_bind; [by apply H1|]. intros [h1 c1] R1.
  eapply post_weaken; [apply H2; apply R1|]. intros [h2 c2] R2.
  rewrite visible_app, fmap_app. rewrite (visible_same _ _ _ _ _ _ R1) in R2. by eapply replied_trans.
Qed.

Lemma says_ext m m' t : says m t → (∀ h c, m' h c = m h c) → says m' t.
Proof. intros H Hm h c W S. rewrite Hm. by apply H. Qed.

(** A function that begins with prepareClientToWrite. *)
Lemma says_prepared (m : heap → client → outcome (heap * client)) t :
  (∀ h c, wf ext h c → seen h → ready c → post (m h c) (λ '(h', c'), queues ext h c (shown (who c) t) h' c')) →
  says (λ h c, let '(c, ok) := prepareClientToWrite E c in if negb (ok : bool) then Done (h, c) else m h c) t.
Proof.
  intros Hm h c W S. pose proof (prepare_spec ext h c W) as Hp. unfold visible.
  destruct (accepts c) eqn:Ea; [|rewrite Hp; by apply replied_refl].
  destruct Hp as (c0 & -> & Hc0 & Hrd). cbn [negb].
  assert (wf ext h c0) as W0 by (destruct Hc0 as [->| ->]; [done|]; destruct W; split; done).
  eapply post_weaken; [by apply Hm|]. intros [h' c'] [].
  assert (who c0 = who c ∧ inflight c0 = inflight c ∧ bufpos c0 = bufpos c ∧ reply c0 = reply c ∧
    flying h c0 = flying h c ∧ queued h c0 = queued h c) as (E1 & E2 & E3 & E4 & E5 & E6) by (destruct Hc0 as [->| ->]; done).
  rewrite E3, E4 in q_grows0. destruct q_grows0 as [Hg1 Hg2].
  split; try done; try congruence.
  - intros x Hx. rewrite q_frame0 by done. by apply S.
  - rewrite Ea. eapply (accepts_mono c); try done; [congruence|]. pose proof (wf_pos _ _ _ W). lia.
  - rewrite q_queued0, E6, E1. f_equal. unfold shown. by destruct (fl_close_after_reply (who c)).
Qed.

Lemma says_addReplySds s t : rep s t → says (λ h c, addReplySds junk E h c s) t.
Proof.
  intros R. apply says_prepared. intros h c W S Hrd. pose proof R as (tl & Eb & _).
  destruct (rep_bounds _ _ R) as (Hb & Hsl & _). rewrite Hsl, Eb.
  eapply post_bind; [by eapply buffer_shown|]. intros [c1 []]; [done|]. intros [-> Hcl].
  unfold _addReplySdsToList, shown. rewrite Hcl, Hsl, Eb.
  apply (list_add_spec junk E ext h c t (0 :: tl) (blen t)); [done|done|lia|].
  destruct (createObject h (Raw (Some s))) as [h1 o] eqn:Ec.
  destruct (refs_create _ _ _ _ _ (wf_refs _ _ _ W) Ec) as (Ho & Hr1 & Hp1 & Hs1). cbn [post].
  eapply add_tail_queues; try done. intros x Hx. apply Hs1. intros ->. lia.
Qed.

Lemma says_addReplyString t rest n :
  n = blen t → n < 2 ^ 31 - 1 → says (λ h c, addReplyString junk E h c (t ++ rest) n) t.
Proof.
  intros -> Hn. apply says_prepared. intros h c W S Hrd.
  eapply post_bind; [by eapply buffer_shown|]. intros [c1 []]; [done|]. intros [-> Hcl].
  unfold _addReplyStringToList, shown. rewrite Hcl. cbv zeta. apply list_add_spec; [done|done|lia|].
  unfold createStringObject. destruct (sdsnewlen_spec junk (Some (t ++ rest)) t rest) as (s & -> & Rs & _); [done|lia|].
  cbn [lift mbind outcome_bind].
  destruct (createObject h (Raw (Some s))) as [h1 o] eqn:Ec.
  destruct (refs_create _ _ _ _ _ (wf_refs _ _ _ W) Ec) as (Ho & Hr1 & Hp1 & Hs1).
  rewrite (obj_sds_ptrs _ _ _ Hp1). cbn [mbind outcome_bind post].
  eapply add_tail_queues; try done. intros x Hx. apply Hs1. intros ->. lia.
Qed.

Lemma says_addReply o t : 0 < ext o → otext (view o) t → says (λ h c, addReply junk E h c o) t.
Proof.
  intros Ho Ht. apply says_prepared. intros h c W S Hrd. rewrite <-S in Ht by done. cbn beta.
  pose proof (wf_refs _ _ _ W) as Hr. unfold ptrs in Ht.
  destruct (h !! o) as [obj|] eqn:Eo; [|done]. cbn [fmap option_fmap option_map] in Ht. cbn [lift mbind outcome_bind].
  destruct obj as [rc [[p|]|n]]; cbn [ptr otext] in *; [|done|].
  - pose proof Ht as (tl & Eb & _). destruct (rep_bounds _ _ Ht) as (Hb & Hsl & _). rewrite Hsl, Eb.
    eapply post_bind; [by eapply buffer_shown|]. intros [c1 []]; [done|]. intros [-> Hcl].
    unfold shown. rewrite Hcl. eapply object_to_list; try done. unfold ptrs. by rewrite Eo.
  - destruct Ht as [Hn ->]. destruct (refs_lookup _ h o Hr) as [q Eq]; [pose proof (cnt_nonneg (held c) o); lia|].
    rewrite Eq in Eo. simplify_eq. pose proof (decoded_shown ext h c o n W Hrd Eq Hn) as Hdec.
    destruct (bool_decide (reply c = []) && _); [|exact Hdec].
    destruct (ll_text_bounds n Hn) as (Hi & Hl & _). rewrite ll2string_whole by (done || lia).
    eapply post_bind; [by eapply buffer_shown|]. intros [c1 []]; [done|]. intros [-> Hcl]. exact Hdec.
Qed.

(** ** Numbers and bulk strings *)

Record shared_ok : Prop := SharedOk {
  ok_crlf : 0 < ext (shared_crlf (shared E)) ∧ otext (view (shared_crlf (shared E))) crlf;
  ok_czero : 0 < ext (shared_czero (shared E)) ∧ otext (view (shared_czero (shared E))) (line ch_colon 0);
  ok_cone : 0 < ext (shared_cone (shared E)) ∧ otext (view (shared_cone (shared E))) (line ch_colon 1);
  ok_nullbulk : 0 < ext (shared_nullbulk (shared E)) ∧ otext (view (shared_nullbulk (shared E))) (line ch_dollar (-1));
  ok_mbulkhdr : ∀ n, 0 ≤ n < REDIS_SHARED_BULKHDR_LEN →
    ∃ o, shared_mbulkhdr (shared E) !! Z.to_nat n = Some o ∧ 0 < ext o ∧ otext (view o) (line ch_star n);
  ok_bulkhdr : ∀ n, 0 ≤ n < REDIS_SHARED_BULKHDR_LEN →
    ∃ o, shared_bulkhdr (shared E) !! Z.to_nat n = Some o ∧ 0 < ext o ∧ otext (view o) (line ch_dollar n)
}.
Context (SH : shared_ok).

Lemma says_string t n : n = blen t → n < 2 ^ 31 - 1 → says (λ h c, addReplyString junk E h c t n) t.
Proof. intros Hn Hl. eapply says_ext; [by apply (says_addReplyString t [] n)|]. intros h c. by rewrite app_nil_r. Qed.

Lemma prefix_line_text prefix n :
  in_i64 n → prefix_line prefix n = Done (line prefix n, blen (line prefix n)).
Proof.
  intros Hn. unfold prefix_line. rewrite ll2string_whole by (done || lia).
  rewrite mload_prefix. cbn [lift mbind outcome_bind]. unfold line. rewrite blen_cons, blen_app.
  change (blen crlf) with 2. do 2 f_equal. lia.
Qed.

Lemma line_length prefix n : in_i64 n → blen (line prefix n) ≤ 23.
Proof.
  intros Hn. pose proof (ll_text_length n Hn). unfold line. rewrite blen_cons, blen_app.
  change (blen crlf) with 2. unfold blen. lia.
Qed.

Lemma says_shared (l : list positive) (prefix n : Z) :
  (∃ o, l !! Z.to_nat n = Some o ∧ 0 < ext o ∧ otext (view o) (line prefix n)) → 0 ≤ n →
  says (λ h c, o ← at_index l n; addReply junk E h c o) (line prefix n).
Proof.
  intros (o & Eo & Ho & Ht) Hn. eapply says_ext; [by apply (says_addReply o)|]. intros h c.
  unfold at_index. rewrite (proj2 (Z.ltb_ge _ _)), Eo by done. done.
Qed.

Lemma says_addReplyLongLongWithPrefix n prefix :
  in_i64 n → prefix = ch_star ∨ prefix = ch_dollar → 0 ≤ n →
  says (λ h c, addReplyLongLongWithPrefix junk E h c n prefix) (line prefix n).
Proof.
  intros Hn Hp Hpos. unfold addReplyLongLongWithPrefix.
  destruct (Z.ltb_spec n REDIS_SHARED_BULKHDR_LEN).
  - destruct Hp as [->| ->].
    + apply (says_shared (shared_mbulkhdr (shared E)) ch_star n); [apply SH; lia|lia].
    + apply (says_shared (shared_bulkhdr (shared E)) ch_dollar n); [apply SH; lia|lia].
  - rewrite !andb_false_r, prefix_line_text by done. cbn [mbind outcome_bind].
    pose proof (line_length prefix n Hn). apply (says_string (line prefix n)); [done|lia].
Qed.

Lemma says_addReplyLongLong n : in_i64 n → says (λ h c, addReplyLongLong junk E h c n) (line ch_colon n).
Proof.
  intros Hn. unfold addReplyLongLong.
  destruct (Z.eqb_spec n 0) as [->|]; [by apply says_addReply; apply SH|].
  destruct (Z.eqb_spec n 1) as [->|]; [by apply says_addReply; apply SH|].
  unfold addReplyLongLongWithPrefix. cbn [Z.eqb Pos.eqb ch_star ch_dollar ch_colon andb].
  rewrite prefix_line_text by done. cbn [mbind outcome_bind].
  pose proof (line_length ch_colon n Hn). apply (says_string (line ch_colon n)); [done|lia].
Qed.

Lemma says_addReplyMultiBulkLen n : 0 ≤ n ≤ LONG_MAX → says (λ h c, addReplyMultiBulkLen junk E h c n) (line ch_star n).
Proof.
  intros Hn. unfold addReplyMultiBulkLen.
  destruct (Z.ltb_spec n REDIS_SHARED_BULKHDR_LEN).
  - apply says_shared; [|lia]. apply SH. lia.
  - apply says_addReplyLongLongWithPrefix; [unlimit; lia|by left|lia].
Qed.

(** The number of digits that the loop of addReplyBulkLen counts. *)
Lemma count_digits_text f : ∀ F n len p,
  (0 < f ≤ F)%nat → 0 ≤ n < 10 ^ Z.of_nat f → 0 ≤ len → len + Z.of_nat f < 2 ^ 64 →
  count_digits f n len = Some (len + blen (put_digits F n p) - blen p - 1).
Proof.
  induction f as [|f IH]; intros F n len p HF Hn Hl Hlf; [lia|]. destruct F as [|F]; [lia|].
  rewrite Nat2Z.inj_succ, Z.pow_succ_r in Hn by lia. cbn [count_digits put_digits].
  rewrite Z.quot_div_nonneg by lia. pose proof (Z.div_mod n 10 ltac:(lia)). pose proof (Z.mod_pos_bound n 10 ltac:(lia)).
  destruct (Z.eqb_spec (n / 10) 0); [rewrite blen_cons; f_equal; lia|].
  destruct f as [|f]; [simpl in Hn; lia|].
  rewrite (wrapu_small 64 (len + 1)) by lia. rewrite (IH F (n / 10) (len + 1) ((ch_0 + n mod 10) :: p)) by lia.
  rewrite blen_cons. f_equal. lia.
Qed.

Lemma count_digits_opp f : ∀ n len, count_digits f (- n) len = count_digits f n len.
Proof.
  induction f as [|f IH]; intros n len; [done|]. cbn [count_digits]. rewrite Z.quot_opp_l by done.
  rewrite IH. destruct (Z.eqb_spec (n ÷ 10) 0), (Z.eqb_spec (- (n ÷ 10)) 0); done || lia.
Qed.

(** Also for LONG_MIN, whose negation is LONG_MIN. *)
Lemma bulk_len_of_int n :
  LONG_MIN ≤ n ≤ LONG_MAX →
  (let '(n, len) := if n <? 0 then (i32 (- n), 2) else (n, 1) in count_digits 11 n len) = Some (blen (ll_text n)).
Proof.
  intros Hn. unfold ll_text. unlimit. destruct (Z.ltb_spec n 0).
  - assert (count_digits 11 (i32 (- n)) 2 = count_digits 11 (Z.abs n) 2) as ->.
    { destruct (decide (n = - 2147483648)) as [->|]; [by vm_compute|].
      rewrite wraps_small by (change (2 ^ (32 - 1)) with 2147483648; lia). f_equal. lia. }
    rewrite (count_digits_text 11 32 (Z.abs n) 2 []) by (lia || (change (10 ^ Z.of_nat 11) with 100000000000; lia)).
    rewrite blen_nil, blen_cons. f_equal. lia.
  - rewrite (count_digits_text 11 32 n 1 []) by (lia || (change (10 ^ Z.of_nat 11) with 100000000000; lia)).
    rewrite blen_nil, Z.abs_eq by done. f_equal. lia.
Qed.

Lemma says_bulk_len n :
  0 ≤ n < 2 ^ 31 →
  says (λ h c, if n <? REDIS_SHARED_BULKHDR_LEN then o ← at_index (shared_bulkhdr (shared E)) n; addReply junk E h c o
               else addReplyLongLongWithPrefix junk E h c (i64 n) ch_dollar) (line ch_dollar n).
Proof.
  intros Hn. destruct (Z.ltb_spec n REDIS_SHARED_BULKHDR_LEN).
  - apply says_shared; [|lia]. apply SH. lia.
  - rewrite wraps_small by (change (2 ^ (64 - 1)) with 9223372036854775808; lia).
    apply says_addReplyLongLongWithPrefix; [unlimit; lia|by right|lia].
Qed.

Lemma says_addReplyBulkLen o t :
  0 < ext o → otext (view o) t → says (λ h c, addReplyBulkLen junk E h c o) (line ch_dollar (blen t)).
Proof.
  intros Ho Ht h c W S. assert (ptrs h o = view o) as Ev by by apply S. unfold addReplyBulkLen.
  unfold ptrs in Ev. destruct (h !! o) as [[rc p]|]; [|by rewrite <-Ev in Ht]. cbn in Ev. rewrite <-Ev in Ht.
  cbn [lift mbind outcome_bind ptr]. destruct p as [[p|]|n]; cbn [otext] in Ht; [|done|].
  - destruct (rep_bounds _ _ Ht) as (Hb & -> & _). cbn [mbind outcome_bind]. apply says_bulk_len; [lia|done|done].
  - destruct Ht as [Hn ->]. pose proof (bulk_len_of_int n Hn) as Hc. destruct (ll_text_bounds n Hn) as (_ & Hl & _).
    pose proof (blen_nonneg (ll_text n)).
    destruct (n <? 0); cbv iota beta in Hc |- *; rewrite Hc; cbn [lift mbind outcome_bind]; apply says_bulk_len; done || lia.
Qed.

Lemma says_addReplyBulk o t :
  0 < ext o → otext (view o) t → says (λ h c, addReplyBulk junk E h c o) (bulk t).
Proof.
  intros Ho Ht. unfold bulk. apply says_seq; [by apply says_addReplyBulkLen|].
  apply says_seq; [by apply says_addReply|]. apply says_addReply; apply SH.
Qed.

Lemma says_addReplyBulkCBuffer t rest n :
  n = blen t → n < 2 ^ 31 - 1 → says (λ h c, addReplyBulkCBuffer junk E h c (t ++ rest) n) (bulk t).
Proof.
  intros -> Hn. pose proof (blen_nonneg t). unfold bulk, addReplyBulkCBuffer.
  rewrite wraps_small by (change (2 ^ (64 - 1)) with 9223372036854775808; lia).
  apply says_seq; [apply says_addReplyLongLongWithPrefix; [unlimit; lia|by right|lia]|].
  apply says_seq; [by apply says_addReplyString|]. apply says_addReply; apply SH.
Qed.

Lemma says_addReplyBulkCString t rest :
  ch_nul ∉ t → blen t < 2 ^ 31 - 1 → says (λ h c, addReplyBulkCString junk E h c (Some (t ++ ch_nul :: rest))) (bulk t).
Proof.
  intros Hnul Hn. eapply says_ext; [by apply (says_addReplyBulkCBuffer t (ch_nul :: rest) (blen t))|].
  intros h c. unfold addReplyBulkCString. by rewrite strlen_text.
Qed.

Lemma says_nullbulk : says (λ h c, addReplyBulkCString junk E h c None) (line ch_dollar (-1)).
Proof. apply says_addReply; apply SH. Qed.

Lemma says_addReplyBulkLongLong n : in_i64 n → says (λ h c, addReplyBulkLongLong junk E h c n) (bulk (ll_text n)).
Proof.
  intros Hn. unfold addReplyBulkLongLong. rewrite ll2string_whole by (done || lia).
  pose proof (ll_text_length n Hn). apply says_addReplyBulkCBuffer; [done|]. unfold blen. lia.
Qed.

(** ** Status and error replies *)

Lemma says_status_line (prefix t rest : list Z) n k :
  k = blen prefix → k < 100 → n = blen t → n < 2 ^ 31 - 1 →
  says (λ h c, '(h, c) ← addReplyString junk E h c (prefix ++ [ch_nul]) k;
               '(h, c) ← addReplyString junk E h c (t ++ rest) n;
               addReplyString junk E h c (crlf ++ [ch_nul]) 2) (prefix ++ t ++ crlf).
Proof.
  intros Hk Hk' Hn Hn'. apply says_seq; [apply says_addReplyString; [done|lia]|].
  apply says_seq; [by apply says_addReplyString|]. by apply says_addReplyString.
Qed.

Lemma says_addReplyError t rest :
  ch_nul ∉ t → blen t < 2 ^ 31 - 1 →
  says (λ h c, addReplyError junk E h c (t ++ ch_nul :: rest)) (err_prefix ++ t ++ crlf).
Proof.
  intros Hnul Hn. eapply says_ext; [by apply (says_status_line err_prefix t (ch_nul :: rest) (blen t) 5)|].
  intros h c. unfold addReplyError. by rewrite strlen_text.
Qed.

Lemma says_addReplyStatus t rest :
  ch_nul ∉ t → blen t < 2 ^ 31 - 1 →
  says (λ h c, addReplyStatus junk E h c (t ++ ch_nul :: rest)) (plus_prefix ++ t ++ crlf).
Proof.
  intros Hnul Hn. eapply says_ext; [by apply (says_status_line plus_prefix t (ch_nul :: rest) (blen t) 1)|].
  intros h c. unfold addReplyStatus. by rewrite strlen_text.
Qed.

Lemma says_addReplyStatusFormat s t : rep s t → says (λ h c, addReplyStatusFormat junk E h c s) (plus_prefix ++ t ++ crlf).
Proof.
  intros R. pose proof R as (tl & Eb & _). destruct (rep_bounds _ _ R) as (Hb & Hsl & _).
  unfold addReplyStatusFormat. rewrite Hsl, Eb. apply says_status_line; done || lia.
Qed.

(** The line ends inside of a formatted error become spaces. *)
Definition one_line (t : list Z) : list Z := (λ b, if (b =? ch_cr) || (b =? ch_lf) then ch_space else b) <$> t.

Lemma says_addReplyErrorFormat s t :
  rep s t → says (λ h c, addReplyErrorFormat junk E h c s) (err_prefix ++ one_line t ++ crlf).
Proof.
  intros R. pose proof R as (tl & Eb & _). destruct (rep_bounds _ _ R) as (Hb & Hsl & _).
  assert (blen (one_line t) = blen t) as Hl by (unfold one_line, blen; by rewrite length_fmap).
  eapply says_ext; [apply (says_status_line err_prefix (one_line t) (0 :: tl) (blen t) 5); done || lia|].
  intros h c. unfold addReplyErrorFormat. cbv zeta. rewrite Hsl, Eb.
  pose proof (map_bytes_spec (λ b, if (b =? ch_cr) || (b =? ch_lf) then ch_space else b) (0 :: tl) t [] (Z.to_nat (blen t)) ltac:(unfold blen; lia)) as Em.
  cbn [app] in Em. rewrite blen_nil, Z.add_0_l in Em. rewrite Em. done.
Qed.

(** ** Deferred lengths *)

Lemma split_node_spec A ln o B :
  NoDup (A ++ (ln, o) :: B).*1 → split_node (A ++ (ln, o) :: B) ln = Some (A, o, B).
Proof.
  induction A as [|[x y] A IH]; cbn [app split_node]; [by rewrite decide_True|].
  rewrite fmap_cons, NoDup_cons. intros [Hx Hd]. rewrite decide_False.
  - by rewrite IH.
  - intros ->. apply Hx. rewrite fmap_app, fmap_cons. set_solver.
Qed.

Lemma pivot_unique {A} (a : A) X Y X' Y' :
  X ++ a :: Y = X' ++ a :: Y' → a ∉ X → a ∉ X' → X = X' ∧ Y = Y'.
Proof.
  revert X'. induction X as [|x X IH]; intros [|x' X'] H Ha Ha'; cbn [app] in H; simplify_eq.
  - done.
  - set_solver.
  - set_solver.
  - destruct (IH X') as [-> ->]; [done|set_solver..|done].
Qed.

Lemma hole_of_node h ln nd : inr ln ∈ node_items h nd → nd.1 = ln ∧ ptrs h nd.2 = Some (Raw None).
Proof.
  unfold node_items. destruct (ptrs h nd.2) as [[[p|]|]|]; intros H; try by apply elem_of_nil in H.
  - apply list_elem_of_fmap in H as (? & [=] & _).
  - apply list_elem_of_singleton in H as [= ->]. done.
Qed.

Lemma hole_in_nodes h ln l : inr ln ∈ nodes_items h l → ∃ A o B, l = A ++ (ln, o) :: B ∧ ptrs h o = Some (Raw None).
Proof.
  intros (nd & Hi & Hin)%list_elem_of_bind. apply list_elem_of_split in Hin as (A & B & ->).
  apply hole_of_node in Hi as [<- Hp]. destruct nd as [n o]. by exists A, o, B.
Qed.

Lemma no_hole_bytes ln (l : list Z) : (inr ln : item) ∉ (inl <$> l).
Proof. intros (? & [=] & _)%list_elem_of_fmap. Qed.

Lemma hole_not_queued h c ln : ln ∉ (reply c).*1 → inr ln ∉ queued h c.
Proof.
  intros Hln [H|H]%elem_of_app; [by apply no_hole_bytes in H|].
  apply hole_in_nodes in H as (A & o & B & El & _). apply Hln. rewrite El, fmap_app, fmap_cons. set_solver.
Qed.

(** The node that a deferred length waits in, in what is queued. *)
Lemma find_hole h c ln X Y :
  NoDup (reply c).*1 → queued h c = X ++ inr ln :: Y → inr ln ∉ X →
  ∃ A o B, reply c = A ++ (ln, o) :: B ∧ ptrs h o = Some (Raw None) ∧
    X = (inl <$> slice (buf c) (sentlen c) (bufpos c)) ++ nodes_items h A ∧ Y = nodes_items h B.
Proof.
  intros Hd Hq HX. assert (inr ln ∈ queued h c) as Hin by (rewrite Hq; set_solver).
  unfold queued in *. apply elem_of_app in Hin as [Hin|Hin]; [by apply no_hole_bytes in Hin|].
  apply hole_in_nodes in Hin as (A & o & B & El & Ho). exists A, o, B. split; [done|]. split; [done|].
  rewrite El, nodes_items_app in Hq. unfold nodes_items at 2 in Hq. rewrite bind_cons in Hq. fold (nodes_items h B) in Hq.
  unfold node_items at 1 in Hq. cbn [snd fst] in Hq. rewrite Ho, (assoc_L (++)) in Hq. cbn [app] in Hq.
  symmetry in Hq. apply pivot_unique in Hq; [done|done|].
  intros [H|H]%elem_of_app; [by apply no_hole_bytes in H|].
  apply hole_in_nodes in H as (A1 & o1 & B1 & -> & _). rewrite El, !fmap_app, !fmap_cons in Hd.
  apply NoDup_app in Hd as (_ & Hd & _). apply (Hd ln); set_solver.
Qed.

(** The node gets its text; the nodes [D] behind it are gone. *)
Lemma fill_node extl h c A ln o D C h' bytes p t :
  wf extl h c → reply c = A ++ (ln, o) :: D ++ C → ptrs h o = Some (Raw None) →
  refs (λ x, extl x + cnt ((A ++ (ln, o) :: C).*2 ++ req_objs (inflight c)) x) h' →
  (∀ x, x ≠ o → 0 < extl x + cnt ((A ++ (ln, o) :: C).*2 ++ req_objs (inflight c)) x → ptrs h' x = ptrs h x) →
  ptrs h' o = Some (Raw (Some p)) → rep p t →
  let c' := set_reply c (A ++ (ln, o) :: C) bytes in
  wf extl h' c' ∧ frame extl h h' ∧ flying h' c' = flying h c ∧
  queued h' c' = (inl <$> slice (buf c) (sentlen c) (bufpos c)) ++ nodes_items h A ++ (inl <$> t) ++ nodes_items h C.
Proof.
  intros W El Ho Hr Hs Hp R c'. pose proof (wf_ext _ _ _ W) as Hext.
  pose proof (wf_nodes _ _ _ W ln o) as Hno. rewrite El in Hno. specialize (Hno ltac:(set_solver)).
  unfold node_ok in Hno. rewrite Ho in Hno. destruct Hno as [He Hc1]. unfold held in Hc1. rewrite El in Hc1.
  rewrite fmap_app, fmap_cons, fmap_app, !cnt_app in Hc1. cbn [cnt snd] in Hc1. rewrite one_same, cnt_app in Hc1.
  pose proof (cnt_nonneg A.*2 o). pose proof (cnt_nonneg D.*2 o). pose proof (cnt_nonneg C.*2 o).
  pose proof (cnt_nonneg (req_objs (inflight c)) o).
  assert (∀ x, x ∈ A.*2 ∨ x ∈ D.*2 ∨ x ∈ C.*2 ∨ x ∈ req_objs (inflight c) → x ≠ o) as Hne.
  { intros x Hx ->. destruct Hx as [Hx|[Hx|[Hx|Hx]]]; apply cnt_pos in Hx; lia. }
  assert (∀ x, x ∈ A.*2 ∨ x ∈ C.*2 ∨ x ∈ req_objs (inflight c) → ptrs h' x = ptrs h x) as Hsame.
  { intros x Hx. apply Hs; [apply Hne; tauto|]. specialize (Hext x).
    rewrite fmap_app, fmap_cons, !cnt_app. cbn [cnt snd]. pose proof (one_range o x).
    pose proof (cnt_nonneg A.*2 x). pose proof (cnt_nonneg C.*2 x). pose proof (cnt_nonneg (req_objs (inflight c)) x).
    destruct Hx as [Hx|[Hx|Hx]]; apply cnt_pos in Hx; lia. }
  destruct (wf_set_reply extl h c h' (A ++ (ln, o) :: C) bytes W Hr) as [W' F].
  - intros x Hx. apply Hsame. tauto.
  - intros n o' Hin. destruct (decide (o' = o)) as [->|Ho'].
    + unfold node_ok. rewrite Hp. by rewrite (sds_text_rep _ _ R).
    + assert ((n, o') ∈ A ∨ (n, o') ∈ C) as Hin' by set_solver.
      assert ((n, o') ∈ reply c) as Hin2 by (rewrite El; set_solver).
      pose proof (wf_nodes _ _ _ W _ _ Hin2) as Hn.
      assert (o' ∈ A.*2 ∨ o' ∈ C.*2) as Hin3 by (destruct Hin' as [H'|H']; apply elem_of_fmap_snd in H'; tauto).
      eapply wf_node_keep; [exact Hn|apply Hsame; tauto|]. intros En. unfold node_ok in Hn. rewrite En in Hn.
      destruct Hn as [_ Hn]. unfold held in *. cbn [set_reply reply inflight]. rewrite El in *.
      rewrite !fmap_app, !fmap_cons, ?fmap_app, !cnt_app in *. cbn [cnt snd] in *. rewrite cnt_app in Hn.
      pose proof (cnt_nonneg A.*2 o'). pose proof (cnt_nonneg D.*2 o'). pose proof (cnt_nonneg C.*2 o').
      pose proof (cnt_nonneg (req_objs (inflight c)) o'). pose proof (one_range o o').
      rewrite !cnt_app. cbn [cnt]. destruct Hin3 as [Hx|Hx]; apply cnt_pos in Hx; lia.
  - pose proof (wf_ids _ _ _ W) as Hd. rewrite El in Hd. eapply sublist_NoDup; [exact Hd|].
    rewrite !fmap_app, !fmap_cons, fmap_app. apply sublist_app; [done|]. apply sublist_skip. by apply sublist_inserts_l.
  - intros _. apply (wf_ready _ _ _ W). right. rewrite El. by destruct A.
  - split; [done|]. split; [|split; [done|]].
    + intros x Hx. apply Hs; [intros ->; lia|]. pose proof (cnt_nonneg ((A ++ (ln, o) :: C).*2 ++ req_objs (inflight c)) x). lia.
    + unfold queued. cbn [c' set_reply reply buf sentlen bufpos]. f_equal. rewrite nodes_items_app. f_equal.
      * apply nodes_items_same. intros x Hx. apply Hsame. tauto.
      * unfold nodes_items. rewrite bind_cons. f_equal; [unfold node_items; cbn [snd]; by rewrite Hp, (sds_text_rep _ _ R)|].
        apply nodes_items_same. intros x Hx. apply Hsame. tauto.
Qed.

(** What setDeferredMultiBulkLength makes of the place of the length. *)
Record filled (h : heap) (c : client) (X : list item) (t : list Z) (h' : heap) (c' : client) : Prop := Filled {
  f_wf : wf ext h' c';
  f_frame : frame ext h h';
  f_who : who c' = who c;
  f_bufpos : bufpos c' = bufpos c;
  f_reply : reply c' ≠ [];
  f_inflight : inflight c' = inflight c;
  f_flying : flying h' c' = flying h c;
  f_queued : queued h' c' = X ++ (inl <$> t)
}.

Lemma filled_alike h c X t h' c1 c2 : filled h c X t h' c1 → alike c1 c2 → filled h c X t h' c2.
Proof. intros [[]] (s & b & ->). split; [split|..]; done. Qed.

Lemma line_no_nul prefix n : in_i64 n → prefix ≠ ch_nul → ch_nul ∉ line prefix n.
Proof.
  intros Hn Hp. unfold line. rewrite not_elem_of_cons, not_elem_of_app. split; [done|].
  split; [by apply ll_text_no_nul|]. apply (bool_decide_unpack _). by vm_compute.
Qed.

(** The reference counts when the node after the length goes. *)
Lemma refs_drop_next h c A ln o x next rest h' :
  wf ext h c → reply c = A ++ (ln, o) :: (x, next) :: rest →
  refs (λ y, ext y + cnt (held c) y) h' →
  ∃ h'', decrRefCount h' next = Done h'' ∧
    refs (λ y, ext y + cnt ((A ++ (ln, o) :: rest).*2 ++ req_objs (inflight c)) y) h'' ∧
    ∀ y, 0 < ext y + cnt ((A ++ (ln, o) :: rest).*2 ++ req_objs (inflight c)) y → ptrs h'' y = ptrs h' y.
Proof.
  intros W El Hr. assert (∀ y, ext y + cnt (held c) y - one next y =
    ext y + cnt ((A ++ (ln, o) :: rest).*2 ++ req_objs (inflight c)) y) as Hc.
  { intros y. unfold held. rewrite El, !fmap_app, !fmap_cons, !cnt_app. cbn [cnt snd]. lia. }
  destruct (refs_decr _ h' next Hr) as (h'' & Ed & Hr2 & Hs).
  { apply (held_pos ext h c); [done|]. unfold held. rewrite El, fmap_app, !fmap_cons. set_solver. }
  exists h''. split; [done|]. split; [eapply refs_ext; [exact Hr2|]; intros y; cbv beta; rewrite Hc; done|].
  intros y Hy. apply Hs. rewrite Hc. done.
Qed.

Lemma setDeferred_spec h c ln X Y n :
  wf ext h c → queued h c = X ++ inr ln :: (inl <$> Y) → inr ln ∉ X →
  LONG_MIN ≤ n ≤ LONG_MAX → blen Y + 23 ≤ max_len →
  post (setDeferredMultiBulkLength junk E h c (Some ln) n) (λ '(h', c'), filled h c X (line ch_star n ++ Y) h' c').
Proof.
  intros W Hq HX Hn HY. assert (in_i64 n) as Hi by (unlimit; lia). pose proof (line_length ch_star n Hi) as Hll.
  destruct (find_hole h c ln X (inl <$> Y) (wf_ids _ _ _ W) Hq HX) as (A & o & B & El & Ho & EX & EY).
  unfold setDeferredMultiBulkLength. pose proof (wf_ids _ _ _ W) as Hd. rewrite El in Hd |- *.
  rewrite (split_node_spec A ln o B) by done. cbn [lift mbind outcome_bind].
  destruct (sdsempty_spec junk) as (s0 & -> & R0). cbn [lift mbind outcome_bind].
  destruct (sdscat_text junk s0 [] (line ch_star n) R0) as (s1 & -> & R1);
    [by apply line_no_nul|rewrite blen_nil; unfold max_len; lia|]. cbn [lift mbind outcome_bind app] in *.
  destruct (refs_set_ptr _ h o s1 _ (wf_refs _ _ _ W) Ho) as (h1 & -> & Hr1 & Hp1 & Hs1). cbn [mbind outcome_bind]. cbv zeta.
  assert (∀ bytes, filled h c X (line ch_star n ++ Y) h1 (set_reply c (reply c) bytes)) as Hfill.
  { intros bytes. destruct (fill_node ext h c A ln o [] B h1 bytes s1 (line ch_star n) W El Ho) as (W' & F & Fl & Q); try done.
    - unfold held in Hr1. by rewrite El in Hr1.
    - intros. by apply Hs1.
    - rewrite El. split; try done; [cbn; by destruct A|].
      rewrite Q, EX, fmap_app, <-EY. by rewrite <-!(assoc_L (++)). }
  rewrite <-El.
  eapply (post_bind _ _ (λ '(h', c'), filled h c X (line ch_star n ++ Y) h' c')).
  2:{ intros [h' c'] Hf. eapply post_bind; [apply asyncClose_alike|]. intros c2 Ha. by eapply filled_alike. }
  destruct B as [|[x next] rest]; [apply Hfill|].
  assert ((x, next) ∈ reply c) as Hin by (rewrite El; set_solver).
  pose proof (wf_nodes _ _ _ W _ _ Hin) as Hnx. unfold node_ok in Hnx.
  assert (next ≠ o) as Hne.
  { intros ->. rewrite Ho in Hnx. destruct Hnx as [_ Hnx]. unfold held in Hnx.
    rewrite El, fmap_app, !fmap_cons, !cnt_app in Hnx. cbn [cnt snd] in Hnx. rewrite one_same in Hnx.
    pose proof (cnt_nonneg A.*2 o). pose proof (cnt_nonneg rest.*2 o). pose proof (cnt_nonneg (req_objs (inflight c)) o). lia. }
  rewrite <-(Hs1 next Hne) in Hnx. unfold ptrs in Hnx. destruct (h1 !! next) as [[rc q]|] eqn:En; [|done].
  cbn in Hnx. cbn [lift mbind outcome_bind ptr]. destruct q as [[q|]|]; [|apply Hfill|done].
  assert (nodes_items h ((x, next) :: rest) = (inl <$> sds_text q) ++ nodes_items h rest) as Eqn.
  { unfold nodes_items. rewrite bind_cons. f_equal. unfold node_items. cbn [snd].
    rewrite <-(Hs1 next Hne). unfold ptrs. by rewrite En. }
  assert (blen (sds_text q) ≤ blen Y).
  { rewrite Eqn in EY. apply (f_equal length) in EY. rewrite length_app, !length_fmap in EY. unfold blen. lia. }
  pose proof Hnx as (tl & Eb & _). destruct (rep_bounds _ _ Hnx) as (Hb & Hsl & _). rewrite Hsl, Eb.
  destruct (sdscatlen_spec junk s1 (line ch_star n) (sds_text q) (0 :: tl) R1) as (s2 & -> & R2); [lia|].
  cbn [lift mbind outcome_bind].
  destruct (refs_set_ptr _ h1 o s2 _ Hr1 Hp1) as (h2 & -> & Hr2 & Hp2 & Hs2). cbn [mbind outcome_bind].
  destruct (refs_drop_next h c A ln o x next rest h2 W El Hr2) as (h3 & -> & Hr3 & Hs3). cbn [mbind outcome_bind post].
  assert (ptrs h3 o = ptrs h2 o) as Ep3.
  { apply Hs3. rewrite fmap_app, fmap_cons, !cnt_app. cbn [cnt snd]. rewrite one_same.
    pose proof (cnt_nonneg A.*2 o). pose proof (cnt_nonneg rest.*2 o). pose proof (cnt_nonneg (req_objs (inflight c)) o).
    pose proof (wf_ext _ _ _ W o). lia. }
  set (bytes := u32 _). clearbody bytes.
  destruct (fill_node ext h c A ln o [(x, next)] rest h3 bytes s2 (line ch_star n ++ sds_text q) W El Ho Hr3) as (W' & F & Fl & Q).
  - intros y Hy Hpos. by rewrite Hs3, Hs2, Hs1.
  - by rewrite Ep3.
  - done.
  - split; try done; [cbn; by destruct A|].
    rewrite Q, EX, !fmap_app, EY, Eqn. by rewrite <-!(assoc_L (++)).
Qed.

(** ** Whole replies *)

(** What a function whose text depends on REDIS_CLOSE_AFTER_REPLY adds. *)
Definition effect (c : client) (T : bool → list Z) : list Z :=
  if accepts c then T (fl_close_after_reply (who c)) else [].
Definition performs (m : heap → client → outcome (heap * client)) (T : bool → list Z) : Prop :=
  ∀ h c, wf ext h c → seen h → post (m h c) (λ '(h', c'), replied h c (inl <$> effect c T) h' c').

Lemma says_performs m t : says m t → performs m (λ close, if close then [] else t).
Proof.
  intros H h c W S. unfold effect. specialize (H h c W S). unfold visible in H.
  by destruct (accepts c), (fl_close_after_reply (who c)).
Qed.

Lemma performs_seq m1 m2 T1 T2 :
  performs m1 T1 → performs m2 T2 → performs (λ h c, '(h, c) ← m1 h c; m2 h c) (λ b, T1 b ++ T2 b).
Proof.
  intros H1 H2 h c W S. eapply post_bind; [by apply H1|]. intros [h1 c1] R1.
  eapply post_weaken; [apply H2; apply R1|]. intros [h2 c2] R2.
  assert (effect c1 T2 = effect c T2) as Ee by (unfold effect; by rewrite (r_who _ _ _ _ _ R1), (r_accepts _ _ _ _ _ R1)).
  assert (effect c (λ b, T1 b ++ T2 b) = effect c T1 ++ effect c T2) as -> by (unfold effect; by case_match).
  rewrite Ee in R2. rewrite fmap_app. by eapply replied_trans.
Qed.

Lemma addDeferred_spec h c :
  wf ext h c → seen h → accepts c = true →
  post (addDeferredMultiBulkLength E h c) (λ '(h', c', node), ∃ ln, node = Some ln ∧ replied h c [inr ln] h' c' ∧ inr ln ∉ queued h c).
Proof.
  intros W S Ha. unfold addDeferredMultiBulkLength. pose proof (prepare_spec ext h c W) as Hp. rewrite Ha in Hp.
  destruct Hp as (c0 & -> & Hc0 & Hrd). cbn [negb].
  assert (wf ext h c0) as W0 by (destruct Hc0 as [->| ->]; [done|]; destruct W; split; done).
  destruct (createObject h (Raw None)) as [h1 o] eqn:Ec.
  destruct (refs_create _ _ _ _ _ (wf_refs _ _ _ W0) Ec) as (Hno & Hr1 & Hp1 & Hs1).
  set (ln := fresh (list_to_set (reply c0).*1 : gset positive)).
  assert (ln ∉ (reply c0).*1) as Hln.
  { pose proof (is_fresh (list_to_set (reply c0).*1 : gset positive)) as H. fold ln in H. set_solver. }
  clearbody ln. cbn [post]. exists ln. split; [done|].
  pose proof (queues_push ext h c0 h1 ln o (reply_bytes c0) None W0 Hrd Hln Hr1) as Q.
  destruct Q as [W1 F1 Hw1 _ Hi1 [Hg1 Hg2] Hf1 Hq1]; [intros x Hx; apply Hs1; intros ->; lia|done|done|].
  assert (who c0 = who c ∧ inflight c0 = inflight c ∧ bufpos c0 = bufpos c ∧ reply c0 = reply c ∧
    flying h c0 = flying h c ∧ queued h c0 = queued h c) as (E1 & E2 & E3 & E4 & E5 & E6) by (destruct Hc0 as [->| ->]; done).
  split; [|apply hole_not_queued; by rewrite <-E4].
  rewrite E3, E4 in *. split; try done; try congruence.
  - intros x Hx. rewrite F1 by done. by apply S.
  - rewrite Ha. apply (accepts_mono c); try done. pose proof (wf_pos _ _ _ W). lia.
  - rewrite Hq1, E6. f_equal. unfold node_items. cbn [snd]. by rewrite Hp1.
Qed.

Lemma performs_deferred m T n :
  performs m T → LONG_MIN ≤ n ≤ LONG_MAX → (∀ b, blen (T b) + 23 ≤ max_len) →
  performs (λ h c, '(h, c, node) ← addDeferredMultiBulkLength E h c;
                   '(h, c) ← m h c;
                   setDeferredMultiBulkLength junk E h c node n) (λ b, line ch_star n ++ T b).
Proof.
  intros Hm Hn HT h c W S. destruct (accepts c) eqn:Ha.
  2:{ unfold addDeferredMultiBulkLength. pose proof (prepare_spec ext h c W) as Hp. rewrite Ha in Hp. rewrite Hp.
      cbn [negb mbind outcome_bind]. eapply post_bind; [by apply Hm|]. intros [h1 c1] R1. cbn [setDeferredMultiBulkLength post].
      unfold effect in *. by rewrite Ha in *. }
  eapply post_bind; [by apply addDeferred_spec|]. intros [[h1 c1] node] (ln & -> & R1 & Hln).
  eapply post_bind; [apply Hm; apply R1|]. intros [h2 c2] R2.
  assert (effect c1 T = T (fl_close_after_reply (who c))) as Ee
    by (unfold effect; by rewrite (r_accepts _ _ _ _ _ R1), Ha, (r_who _ _ _ _ _ R1)).
  pose proof (replied_trans _ _ _ _ _ _ _ _ R1 R2) as R. rewrite Ee in R.
  eapply post_weaken; [eapply (setDeferred_spec h2 c2 ln (queued h c)); try done; [apply R|by rewrite (r_queued _ _ _ _ _ R)]|].
  intros [h3 c3] []. split; try done; try congruence.
  - intros x Hx. rewrite f_frame0 by done. by apply R.
  - by rewrite f_who0, (r_who _ _ _ _ _ R).
  - assert (accepts c2 = true) as Ha2 by (by rewrite (r_accepts _ _ _ _ _ R)).
    rewrite Ha. apply (accepts_mono c2); try done; [lia|]. pose proof (wf_pos _ _ _ (r_wf _ _ _ _ _ R)). lia.
  - by rewrite f_inflight0, (r_inflight _ _ _ _ _ R).
  - by rewrite f_flying0, (r_flying _ _ _ _ _ R).
  - rewrite f_queued0. unfold effect. by rewrite Ha.
Qed.
End replies.

(** A reply: the calls of a command, in sequence.  The strings of [RStatus],
    [RError] and [RBulkCString] end before their terminator. *)
Inductive rop :=
| RNil
| RSeq (a b : rop)
| RDeferred (body : rop) (n : Z)
| RObject (o : positive)
| RBulk (o : positive)
| RSds (s : sdshdr)
| RString (s : list Z)
| RStatus (s : list Z)
| RError (s : list Z)
| RStatusFormat (s : sdshdr)
| RErrorFormat (s : sdshdr)
| RInteger (n : Z)
| RMultiBulkLen (n : Z)
| RBulkString (s : list Z)
| RBulkCString (s : option (list Z))
| RBulkInteger (n : Z).

Section rops.
Context (junk : nat → Z) (E : env).

Fixpoint run_rop (r : rop) (h : heap) (c : client) : outcome (heap * client) :=
  match r with
  | RNil => Done (h, c)
  | RSeq a b => '(h, c) ← run_rop a h c; run_rop b h c
  | RDeferred body n =>
      '(h, c, node) ← addDeferredMultiBulkLength E h c;
      '(h, c) ← run_rop body h c;
      setDeferredMultiBulkLength junk E h c node n
  | RObject o => addReply junk E h c o
  | RBulk o => addReplyBulk junk E h c o
  | RSds s => addReplySds junk E h c s
  | RString s => addReplyString junk E h c s (blen s)
  | RStatus s => addReplyStatus junk E h c (s ++ [ch_nul])
  | RError s => addReplyError junk E h c (s ++ [ch_nul])
  | RStatusFormat s => addReplyStatusFormat junk E h c s
  | RErrorFormat s => addReplyErrorFormat junk E h c s
  | RInteger n => addReplyLongLong junk E h c n
  | RMultiBulkLen n => addReplyMultiBulkLen junk E h c n
  | RBulkString s => addReplyBulkCBuffer junk E h c s (blen s)
  | RBulkCString s => addReplyBulkCString junk E h c ((λ s, s ++ [ch_nul]) <$> s)
  | RBulkInteger n => addReplyBulkLongLong junk E h c n
  end.

Context (ext : positive → Z) (view : positive → option obj_ptr).

Definition view_text (o : positive) : list Z :=
  match view o with Some (Raw (Some s)) => sds_text s | Some (Int n) => ll_text n | _ => [] end.

(** The protocol of one call. *)
Definition leaf_text (r : rop) : list Z :=
  match r with
  | RNil | RSeq _ _ | RDeferred _ _ => []
  | RObject o => view_text o
  | RBulk o => bulk (view_text o)
  | RSds s => sds_text s
  | RString s => s
  | RStatus s => plus_prefix ++ s ++ crlf
  | RError s => err_prefix ++ s ++ crlf
  | RStatusFormat s => plus_prefix ++ sds_text s ++ crlf
  | RErrorFormat s => err_prefix ++ one_line (sds_text s) ++ crlf
  | RInteger n => line ch_colon n
  | RMultiBulkLen n => line ch_star n
  | RBulkString s => bulk s
  | RBulkCString (Some s) => bulk s
  | RBulkCString None => line ch_dollar (-1)
  | RBulkInteger n => bulk (ll_text n)
  end.

(** A client that is to be closed gets no more than the deferred lengths. *)
Fixpoint rop_text (close : bool) (r : rop) : list Z :=
  match r with
  | RSeq a b => rop_text close a ++ rop_text close b
  | RDeferred body n => line ch_star n ++ rop_text close body
  | r => if close then [] else leaf_text r
  end.

(** Strings of the sizes that sds has, numbers of the C types, objects that the
    caller holds. *)
Fixpoint rop_ok (r : rop) : Prop :=
  match r with
  | RNil => True
  | RSeq a b => rop_ok a ∧ rop_ok b
  | RDeferred body n => rop_ok body ∧ LONG_MIN ≤ n ≤ LONG_MAX ∧ blen (rop_text false body) + 23 ≤ max_len
  | RObject o | RBulk o => 0 < ext o ∧ otext (view o) (view_text o)
  | RSds s | RStatusFormat s | RErrorFormat s => rep s (sds_text s)
  | RString s | RBulkString s => blen s < 2 ^ 31 - 1
  | RStatus s | RError s => ch_nul ∉ s ∧ blen s < 2 ^ 31 - 1
  | RBulkCString s => match s with None => True | Some s => ch_nul ∉ s ∧ blen s < 2 ^ 31 - 1 end
  | RInteger n | RBulkInteger n => in_i64 n
  | RMultiBulkLen n => 0 ≤ n ≤ LONG_MAX
  end.

Lemma rop_text_close r b : blen (rop_text b r) ≤ blen (rop_text false r).
Proof.
  destruct b; [|done].
  induction r as [|a IHa c IHc|body IH n| | | | | | | | | | | | |]; cbn [rop_text];
    rewrite ?blen_app, ?blen_nil; try lia; apply blen_nonneg.
Qed.

Context (SH : shared_ok E ext view).

Lemma run_rop_performs r : rop_ok r → performs E ext view (run_rop r) (λ close, rop_text close r).
Proof.
  induction r as [|a IHa b IHb|body IH n|o|o|s|s|s|s|s|s|n|n|s|[s|]|n]; cbn [rop_ok run_rop rop_text];
    intros Hok; try match type of Hok with _ ∧ _ => destruct Hok as [Hok Hok'] end.
  - intros h c W S. cbn [post]. unfold effect. destruct (accepts E c), (fl_close_after_reply (who c)); by apply replied_refl.
  - apply performs_seq; auto.
  - destruct Hok'. apply performs_deferred; auto. intros b. pose proof (rop_text_close body b). lia.
  - apply says_performs. by apply says_addReply.
  - apply says_performs. by apply says_addReplyBulk.
  - apply says_performs. by apply says_addReplySds.
  - apply says_performs. by apply says_string.
  - apply says_performs. by apply says_addReplyStatus.
  - apply says_performs. by apply says_addReplyError.
  - apply says_performs. by apply says_addReplyStatusFormat.
  - apply says_performs. by apply says_addReplyErrorFormat.
  - apply says_performs. by apply says_addReplyLongLong.
  - apply says_performs. by apply says_addReplyMultiBulkLen.
  - apply says_performs. eapply says_ext; [by apply (says_addReplyBulkCBuffer junk E ext view SH s [] (blen s))|].
    intros h c. by rewrite app_nil_r.
  - apply says_performs. by apply says_addReplyBulkCString.
  - apply says_performs. by apply says_nullbulk.
  - apply says_performs. by apply says_addReplyBulkLongLong.
Qed.
End rops.

(** ** Sends and completions *)

(** All that the client has not received, for the socket and after it. *)
Definition output (h : heap) (c : client) : list item := (inl <$> flying h c) ++ queued h c.

Definition no_holes (l : list item) : Prop := ∀ ln, inr ln ∉ l.

(** How much a call of sendReplyToClient can still hand over. *)
Definition unsent (c : client) : nat := (length (reply c) + if (sentlen c <? bufpos c)%Z then 1 else 0)%nat.

(** The step moves bytes from the queue to the socket. *)
Record sends (ext : positive → Z) (h : heap) (c : client) (h' : heap) (c' : client) : Prop := Sends {
  s_wf : wf ext h' c';
  s_frame : frame ext h h';
  s_who : who c' = who c;
  s_writable : writable c' = writable c;
  s_output : output h' c' = output h c;
  s_holes : no_holes (queued h c) → no_holes (queued h' c');
  s_work : (length (inflight c') + unsent c' ≤ length (inflight c) + unsent c)%nat
}.

Lemma sends_refl ext h c : wf ext h c → sends ext h c h c.
Proof. intros W. by split. Qed.

Lemma sends_trans ext h1 c1 h2 c2 h3 c3 : sends ext h1 c1 h2 c2 → sends ext h2 c2 h3 c3 → sends ext h1 c1 h3 c3.
Proof.
  intros [W1 F1 E1 E2 E3 E4 K1] [W2 F2 E5 E6 E7 E8 K2]. split; try congruence; auto; [|lia]. intros x Hx. by rewrite F2, F1.
Qed.

Lemma release_all_spec R h l :
  refs R h → (∀ x, 0 ≤ R x - cnt l.*2 x) →
  ∃ h', release_all h l = Done h' ∧ refs (λ x, R x - cnt l.*2 x) h' ∧
    ∀ x, 0 < R x - cnt l.*2 x → ptrs h' x = ptrs h x.
Proof.
  revert R h. induction l as [|[n o] l IH]; intros R h Hr Hc.
  - exists h. split; [done|]. split; [|done]. eapply refs_ext; [exact Hr|]. intros x. cbn. lia.
  - rewrite fmap_cons in *. cbn [snd cnt] in *.
    destruct (refs_decr R h o Hr) as (h1 & E1 & Hr1 & Hs1).
    { specialize (Hc o). rewrite one_same in Hc. pose proof (cnt_nonneg l.*2 o). lia. }
    destruct (IH _ h1 Hr1) as (h2 & E2 & Hr2 & Hs2); [intros x; specialize (Hc x); lia|].
    exists h2. split; [unfold release_all; cbn [foldr]; rewrite E1; exact E2|]. split.
    + eapply refs_ext; [exact Hr2|]. intros x. cbv beta. lia.
    + intros x Hx. rewrite Hs2, Hs1; [done| |lia]. pose proof (cnt_nonneg l.*2 x). lia.
Qed.

Lemma wf_release_all ext h c : wf ext h c → ∃ h', release_all h (reply c) = Done h' ∧ frame ext h h'.
Proof.
  intros W. pose proof (wf_ext _ _ _ W) as Hext.
  assert (∀ x, ext x + cnt (held c) x - cnt (reply c).*2 x = ext x + cnt (req_objs (inflight c)) x) as Hc
    by (intros x; unfold held; rewrite cnt_app; lia).
  destruct (release_all_spec _ h (reply c) (wf_refs _ _ _ W)) as (h' & Eh & _ & Hs).
  - intros x. rewrite Hc. specialize (Hext x). pose proof (cnt_nonneg (req_objs (inflight c)) x). lia.
  - exists h'. split; [done|]. intros x Hx. apply Hs. rewrite Hc. pose proof (cnt_nonneg (req_objs (inflight c)) x). lia.
Qed.

Lemma req_objs_app l1 l2 : req_objs (l1 ++ l2) = req_objs l1 ++ req_objs l2.
Proof. apply omap_app. Qed.

Definition took_buffer (c : client) : client :=
  set_buf (set_inflight c (inflight c ++ [BufReq (sentlen c) (bufpos c - sentlen c)])) (buf c) (bufpos c) (bufpos c).

Lemma took_buffer_sends ext h c :
  wf ext h c → sentlen c < bufpos c → sends ext h c h (took_buffer c) ∧ (unsent (took_buffer c) < unsent c)%nat.
Proof.
  intros [] Hlt. assert (unsent (took_buffer c) < unsent c)%nat as Hu.
  { unfold unsent. cbn [took_buffer set_buf set_inflight reply bufpos sentlen].
    rewrite (proj2 (Z.ltb_ge (bufpos c) (bufpos c))), (proj2 (Z.ltb_lt _ _)) by lia. lia. }
  split; [|done].
  - split; try done.
    + split; try done; cbn [took_buffer set_buf set_inflight inflight reply buf bufpos sentlen] in *.
      * eapply refs_ext; [exact wf_refs0|]. intros x. unfold held. cbn. by rewrite req_objs_app, app_nil_r.
      * intros n o Hin. specialize (wf_nodes0 n o Hin). unfold node_ok, held in *. cbn [took_buffer set_buf set_inflight reply inflight].
        by rewrite req_objs_app, app_nil_r.
      * intros o. rewrite req_objs_app, app_nil_r. apply wf_reqs0.
      * lia.
      * destruct wf_tiles0 as (lo & Hlo & Ht & _). exists lo. split; [done|]. split; [|intros; apply tiled_le in Ht; lia].
        apply tiled_app. exists (sentlen c). split; [done|]. cbn [tiled]. lia.
    + unfold output, flying, queued. cbn [took_buffer set_buf set_inflight inflight reply buf bufpos sentlen].
      rewrite (slice_nil (buf c) (bufpos c)), bind_app, fmap_app by lia. rewrite bind_cons. cbn [req_text fmap list_fmap app].
      replace (sentlen c + (bufpos c - sentlen c)) with (bufpos c) by lia.
      change ([] ≫= req_text h (buf c)) with (@nil Z). by rewrite app_nil_r, <-(assoc_L (++)).
    + unfold no_holes, queued. cbn [took_buffer set_buf set_inflight inflight reply buf bufpos sentlen].
      intros Hh ln Hin. apply (Hh ln). rewrite (slice_nil (buf c) (bufpos c)) in Hin by lia. set_solver.
    + cbn [took_buffer set_buf set_inflight inflight]. rewrite length_app. cbn [length]. lia.
Qed.

(** The head of the list goes, to the socket or away when it is empty. *)
Lemma took_node_sends ext h c n o rest p l bytes h' :
  wf ext h c → bufpos c ≤ sentlen c → reply c = (n, o) :: rest → ptrs h o = Some (Raw (Some p)) →
  (l = [ObjReq o] ∨ l = [] ∧ sds_text p = []) →
  refs (λ x, ext x + cnt (held (set_reply (set_inflight c (inflight c ++ l)) rest bytes)) x) h' →
  (∀ x, 0 < ext x + cnt (held (set_reply (set_inflight c (inflight c ++ l)) rest bytes)) x → ptrs h' x = ptrs h x) →
  let c' := set_reply (set_inflight c (inflight c ++ l)) rest bytes in
  sends ext h c h' c' ∧ (unsent c' < unsent c)%nat.
Proof.
  intros W Hs El Ho Hl Hr Hp c'. pose proof (wf_ext _ _ _ W) as Hext.
  assert (∀ x, x ∈ held c' → ptrs h' x = ptrs h x) as Hheld
    by (intros x Hx; apply Hp; pose proof (cnt_pos _ _ Hx); specialize (Hext x); unfold c' in *; lia).
  assert (∀ x, x ∈ rest.*2 ∨ x ∈ req_objs (inflight c) ∨ x ∈ req_objs l → x ∈ held c') as Hin.
  { intros x Hx. unfold held, c'. cbn [set_reply set_inflight reply inflight]. rewrite req_objs_app, !elem_of_app. tauto. }
  assert (rep p (sds_text p)) as Rp.
  { pose proof (wf_nodes _ _ _ W n o) as Hn. rewrite El in Hn. specialize (Hn ltac:(set_solver)). unfold node_ok in Hn. by rewrite Ho in Hn. }
  assert (Htl : ∀ a b, tiled a (inflight c) b → tiled a (inflight c ++ l) b).
  { intros a b Ht. apply tiled_app. exists b. split; [done|]. by destruct Hl as [->|[-> _]]. }
  destruct W as [Wr We Wn Wq Wi Wb Wp (lo & Hlo & Ht & Hlt) Wd].
  assert ((inflight c ≫= req_text h' (buf c)) = flying h c) as Fl.
  { apply (flying_same _ _ _ _ _ lo (sentlen c)); try done. intros. apply Hheld, Hin. tauto. }
  assert (nodes_items h' rest = nodes_items h rest) as Nd by (apply nodes_items_same; intros; apply Hheld, Hin; tauto).
  assert (slice (buf c) (sentlen c) (bufpos c) = []) as Sl by (apply slice_nil; lia).
  assert (unsent c' < unsent c)%nat as Hu
    by (unfold unsent; cbn [c' set_reply set_inflight reply bufpos sentlen]; rewrite El; cbn [length]; lia).
  split; [split; try done|done].
  - split; try done; cbn [c' set_reply set_inflight inflight reply buf bufpos sentlen].
    + intros n' o' Hin'. assert ((n', o') ∈ reply c) as Hin2 by (rewrite El; set_solver).
      specialize (Wn n' o' Hin2). apply elem_of_fmap_snd in Hin'.
      eapply wf_node_keep; [exact Wn|apply Hheld, Hin; tauto|]. intros En. unfold node_ok in Wn. rewrite En in Wn.
      assert (o' ≠ o) as Hne by (intros ->; by rewrite Ho in En).
      unfold held. cbn [c' set_reply set_inflight inflight reply]. rewrite El, fmap_cons, req_objs_app, !cnt_app.
      cbn [cnt snd]. rewrite (one_other o o') by done.
      assert (cnt (req_objs l) o' = 0) as ->; [|lia].
      destruct Hl as [->|[-> _]]; cbn; [|done]. rewrite one_other by done. done.
    + intros o'. rewrite req_objs_app, elem_of_app. intros [Ho'|Ho'].
      * rewrite Hheld by (apply Hin; tauto). auto.
      * rewrite Hheld by (apply Hin; tauto). destruct Hl as [->|[-> _]]; cbn in Ho'; [|by apply elem_of_nil in Ho'].
        apply list_elem_of_singleton in Ho' as ->. eauto.
    + rewrite El, fmap_cons, NoDup_cons in Wi. tauto.
    + exists lo. split; [done|]. split; [by apply Htl|done].
    + intros _. apply Wd. right. by rewrite El.
  - intros x Hx. apply Hp. pose proof (cnt_nonneg (held c') x). unfold c' in *. lia.
  - unfold output, queued. unfold flying at 1. cbn [c' set_reply set_inflight inflight reply buf bufpos sentlen].
    rewrite Sl, Nd, bind_app, Fl, El. unfold nodes_items at 2. rewrite bind_cons. fold (nodes_items h rest).
    unfold node_items. cbn [snd fst fmap list_fmap app]. rewrite Ho, fmap_app, <-(assoc_L (++)). f_equal.
    f_equal. destruct Hl as [->|[-> ->]]; [|done].
    rewrite bind_cons. cbn [req_text]. rewrite Hheld, Ho by (apply Hin; cbn; set_solver). by rewrite app_nil_r.
  - intros Hh ln Hin'. apply (Hh ln). unfold queued in *. cbn [c' set_reply set_inflight inflight reply buf bufpos sentlen] in Hin'.
    rewrite Sl, Nd in Hin'. rewrite El. unfold nodes_items. rewrite bind_cons. set_solver.
  - assert (length (inflight c') ≤ length (inflight c) + 1)%nat; [|lia].
    unfold c'. cbn [set_reply set_inflight inflight]. rewrite length_app. destruct Hl as [->|[-> _]]; cbn [length]; lia.
Qed.

Section connection.
Context (junk : nat → Z) (E : env).

Lemma wf_small ext h c : wf ext h c → 0 ≤ sentlen c ∧ sentlen c ≤ bufpos c ∧ bufpos c ≤ 16384.
Proof. intros W. pose proof (wf_pos _ _ _ W). unfold REDIS_REPLY_CHUNK_BYTES in *. lia. Qed.

(** What is left after the loop of sendReplyToClient. *)
Definition sent_on (ext : positive → Z) (send_ok : nat → bool) (h : heap) (c : client) (h' : heap) (r : option client) : Prop :=
  match r with
  | None => frame ext h h' ∧ ∃ i, send_ok i = false
  | Some c' => sends ext h c h' c' ∧ (unsent c' ≤ unsent c)%nat ∧ (unsent c ≠ O → (unsent c' < unsent c)%nat)
  end.

Lemma sent_on_step ext send_ok h c h1 c1 h' r :
  sends ext h c h1 c1 → (unsent c1 < unsent c)%nat → sent_on ext send_ok h1 c1 h' r → sent_on ext send_ok h c h' r.
Proof.
  intros S Hu. destruct r as [c'|]; cbn.
  - intros (S' & Hu' & _). split; [by eapply sends_trans|]. lia.
  - intros [F Hi]. split; [|done]. intros x Hx. rewrite F by done. by apply S.
Qed.

Lemma sent_on_stop ext send_ok h c h1 c1 :
  sends ext h c h1 c1 → (unsent c1 < unsent c)%nat → sent_on ext send_ok h c h1 (Some c1).
Proof. intros S Hu. split; [done|]. lia. Qed.

Lemma unsent_nil c : (sentlen c <? bufpos c) || negb (bool_decide (reply c = [])) = false → unsent c = O.
Proof.
  intros [E1 E2]%orb_false_iff. unfold unsent. rewrite E1.
  apply negb_false_iff, bool_decide_eq_true in E2. by rewrite E2.
Qed.

(** The references of a node that goes to the socket, or away. *)
Lemma held_took c n o rest l bytes x :
  reply c = (n, o) :: rest →
  cnt (held (set_reply (set_inflight c (inflight c ++ l)) rest bytes)) x = cnt (held c) x - one o x + cnt (req_objs l) x.
Proof.
  intros El. unfold held. cbn [set_reply set_inflight reply inflight]. rewrite El, fmap_cons, req_objs_app, !cnt_app.
  cbn [cnt snd]. lia.
Qed.

Lemma head_node ext h c n o rest :
  wf ext h c → no_holes (queued h c) → reply c = (n, o) :: rest →
  0 < ext o + cnt (held c) o ∧ ∃ p, ptrs h o = Some (Raw (Some p)) ∧ rep p (sds_text p).
Proof.
  intros W Hh El. pose proof (wf_nodes _ _ _ W n o) as Hn. rewrite El in Hn. specialize (Hn ltac:(set_solver)).
  split; [apply (held_pos ext h c); [done|]; unfold held; rewrite El, fmap_cons; set_solver|].
  unfold node_ok in Hn. destruct (ptrs h o) as [[[p|]|]|] eqn:Ho; try done; [eauto|].
  exfalso. apply (Hh n). unfold queued, nodes_items. rewrite El, bind_cons. unfold node_items at 1.
  cbn [snd fst]. rewrite Ho. set_solver.
Qed.

Lemma drop_empty_node ext h c n o rest p :
  wf ext h c → bufpos c ≤ sentlen c → reply c = (n, o) :: rest → 0 < ext o + cnt (held c) o →
  ptrs h o = Some (Raw (Some p)) → blen (sds_text p) = 0 →
  ∃ h', decrRefCount h o = Done h' ∧ let c' := set_reply c rest (reply_bytes c) in
    sends ext h c h' c' ∧ (unsent c' < unsent c)%nat.
Proof.
  intros W Hge El Hpos Ho Hz.
  destruct (refs_decr _ h o (wf_refs _ _ _ W) Hpos) as (h1 & Ed & Hr1 & Hs1). exists h1. split; [done|].
  assert (sds_text p = []) as Ht by (destruct (sds_text p); [done|rewrite blen_cons in Hz; pose proof (blen_nonneg l); lia]).
  pose proof (λ x, held_took c n o rest [] (reply_bytes c) x El) as Hc. cbn [req_objs omap list_omap cnt] in Hc.
  pose proof (took_node_sends ext h c n o rest p [] (reply_bytes c) h1 W Hge El Ho (or_intror (conj eq_refl Ht))) as S.
  rewrite app_nil_r in *. replace (set_inflight c (inflight c)) with c in * by (by destruct c). apply S.
  - eapply refs_ext; [exact Hr1|]. intros x. cbv beta. rewrite Hc. cbn. lia.
  - intros x Hx. apply Hs1. rewrite Hc in Hx. cbn in Hx. lia.
Qed.

(** The reference that a send takes is the one that the list gives up. *)
Lemma send_head_node ext h c n o rest p :
  wf ext h c → bufpos c ≤ sentlen c → reply c = (n, o) :: rest → 0 < ext o + cnt (held c) o →
  ptrs h o = Some (Raw (Some p)) →
  ∃ h1 h2, incrRefCount h o = Done h1 ∧ decrRefCount h1 o = Done h2 ∧ frame ext h h2 ∧ wf ext h2 c ∧
    ∀ bytes, let c' := set_reply (set_inflight c (inflight c ++ [ObjReq o])) rest bytes in
      sends ext h c h2 c' ∧ (unsent c' < unsent c)%nat.
Proof.
  intros W Hge El Hpos Ho.
  destruct (refs_incr _ h o (wf_refs _ _ _ W) Hpos) as (h1 & E1 & Hr1 & Hs1).
  destruct (refs_decr _ h1 o Hr1) as (h2 & E2 & Hr2 & Hs2); [pose proof (one_range o o); lia|].
  assert (refs (λ x, ext x + cnt (held c) x) h2) as Hr3 by (eapply refs_ext; [exact Hr2|]; intros x; cbv beta; lia).
  assert (∀ x, 0 < ext x + cnt (held c) x → ptrs h2 x = ptrs h x) as Hs3 by (intros x Hx; rewrite Hs2, Hs1; [done|lia]).
  exists h1, h2. split; [done|]. split; [done|]. split.
  { intros x Hx. apply Hs3. pose proof (cnt_nonneg (held c) x). lia. }
  split.
  { apply (wf_change_ext ext ext h h2 c); try done; [apply W|]. intros x Hx. apply Hs3. by eapply held_pos. }
  intros bytes. pose proof (λ x, held_took c n o rest [ObjReq o] bytes x El) as Hc. cbn [req_objs omap list_omap cnt] in Hc.
  apply (took_node_sends ext h c n o rest p [ObjReq o] bytes h2 W Hge El Ho); [by left| |].
  - eapply refs_ext; [exact Hr3|]. intros x. cbv beta. rewrite Hc. cbn. lia.
  - intros x Hx. apply Hs3. rewrite Hc in Hx. cbn in Hx. lia.
Qed.

Lemma send_loop_spec ext send_ok fuel : ∀ i h c tot,
  wf ext h c → no_holes (queued h c) → (unsent c < fuel)%nat →
  ∃ h' r tot', send_loop E fuel send_ok i h c tot = Done (h', r, tot') ∧ sent_on ext send_ok h c h' r.
Proof.
  induction fuel as [|fuel IH]; intros i h c tot W Hh Hf; [lia|]. cbn [send_loop].
  destruct (_ || _) eqn:Eg; cbn [negb].
  2:{ eexists _, _, _. split; [done|]. apply unsent_nil in Eg. split; [by apply sends_refl|lia]. }
  assert (∀ i h1 c1 tot, sends ext h c h1 c1 → (unsent c1 < unsent c)%nat →
    ∃ h' r tot', send_loop E fuel send_ok i h1 c1 tot = Done (h', r, tot') ∧ sent_on ext send_ok h c h' r) as Hgo.
  { intros i1 h1 c1 tot1 S Hu. destruct (IH i1 h1 c1 tot1) as (h' & r & tot' & Eq & Hs); [apply S|by apply S|lia|].
    exists h', r, tot'. split; [exact Eq|]. by eapply sent_on_step. }
  clear IH. pose proof (wf_small _ _ _ W) as Hsm. destruct (Z.ltb_spec (sentlen c) (bufpos c)) as [Hlt|Hge].
  - destruct (send_ok i) eqn:Eok; cbn [negb].
    2:{ destruct (wf_release_all ext h c W) as (h' & -> & F). cbn [mbind outcome_bind].
        eexists _, _, _. split; [done|]. cbn. eauto. }
    rewrite (wraps_small 32 (bufpos c - sentlen c)) by (change (2 ^ (32 - 1)) with 2147483648; lia).
    change (sentlen (set_inflight c (inflight c ++ [BufReq (sentlen c) (bufpos c - sentlen c)]))) with (sentlen c).
    rewrite (wraps_small 32 (sentlen c + (bufpos c - sentlen c))) by (change (2 ^ (32 - 1)) with 2147483648; lia).
    replace (sentlen c + (bufpos c - sentlen c)) with (bufpos c) by lia.
    destruct (took_buffer_sends ext h c W Hlt) as [S Hu].
    destruct (enough_written E _); [|by apply Hgo].
    eexists h, (Some (took_buffer c)), _. split; [reflexivity|]. by apply sent_on_stop.
  - rewrite orb_false_l in Eg. destruct (reply c) as [|[n o] rest] eqn:El; [done|].
    destruct (head_node ext h c n o rest W Hh El) as (Hpos & p & Ho & Rp).
    rewrite (obj_sds_ptrs _ _ _ Ho). cbn [mbind outcome_bind]. destruct (rep_bounds _ _ Rp) as (Hb & Hsl & _). rewrite Hsl.
    rewrite (wraps_small 32 (blen (sds_text p))) by (change (2 ^ (32 - 1)) with 2147483648; lia).
    destruct (Z.eqb_spec (blen (sds_text p)) 0) as [Hz|Hz].
    + destruct (drop_empty_node ext h c n o rest p W Hge El Hpos Ho Hz) as (h1 & -> & S & Hu). by apply Hgo.
    + destruct (send_head_node ext h c n o rest p W Hge El Hpos Ho) as (h1 & h2 & -> & Ed & F2 & W2 & HS).
      cbn [mbind outcome_bind]. rewrite Ed. destruct (send_ok i) eqn:Eok; cbn [negb mbind outcome_bind].
      * destruct (HS (u32 (reply_bytes c - u32 (zmalloc_size_sds E p)))) as [S Hu].
        destruct (enough_written E _); [|by apply Hgo].
        eexists _, _, _. split; [done|]. by apply sent_on_stop.
      * destruct (wf_release_all ext h2 c W2) as (h3 & E3 & F). rewrite El in E3. rewrite E3. cbn [mbind outcome_bind].
        eexists _, _, _. split; [done|]. cbn. split; [|eauto]. intros x Hx. by rewrite F, F2.
Qed.

Lemma sendReplyToClient_spec ext send_ok h c :
  wf ext h c → no_holes (queued h c) →
  ∃ h' r, sendReplyToClient E send_ok h c = Done (h', r) ∧ sent_on ext send_ok h c h' r.
Proof.
  intros W Hh. unfold sendReplyToClient.
  destruct (send_loop_spec ext send_ok (S (S (length (reply c)))) 0 h c 0 W Hh) as (h' & r & tot & -> & Hs).
  { unfold unsent. case_match; lia. }
  cbn [mbind outcome_bind]. eexists _, _. split; [done|]. destruct r as [c'|]; [|done].
  destruct (_ && _); [|done]. destruct Hs as ([[]] & Hu). split; [split; [split|..]|]; done.
Qed.

(** ** Completions *)

(** The oldest send has been made: the bytes that its memory holds now are on the
    wire, and its handler runs. *)
Definition complete (h : heap) (c : client) : outcome (heap * client * list Z) :=
  match inflight c with
  | [] => Done (h, c, [])
  | BufReq off len :: l =>
      Done (h, sendReplyBufferDone (set_inflight c l) off len, slice (buf c) off (off + len))
  | ObjReq o :: l =>
      p ← obj_sds h o;
      '(h, c) ← sendReplyListDone h (set_inflight c l) o;
      Done (h, c, sds_text p)
  end.

(** What a completion does: [t] goes on the wire. *)
Record completes (ext : positive → Z) (h : heap) (c : client) (t : list Z) (h' : heap) (c' : client) : Prop := Completes {
  p_wf : wf ext h' c';
  p_frame : frame ext h h';
  p_who : who c' = who c;
  p_output : output h c = (inl <$> t) ++ output h' c';
  p_queued : queued h' c' = queued h c;
  p_unsent : unsent c' = unsent c;
  p_inflight : inflight c' = tail (inflight c)
}.

Lemma completes_drained ext h c t h' c' :
  completes ext h c t h' c' → bufpos c' = 0 → reply c' = [] → completes ext h c t h' (send_drained c').
Proof.
  intros [] Hb Hr. assert (∀ b, completes ext h c t h' (set_asap (set_writable c' false) b)) as Hd.
  { intros b. destruct p_wf0. split; try done. split; try done. cbn. by intros [?|?]. }
  unfold send_drained, freeClientAsync. case_match; [|by destruct c'; apply (Hd fl_close_asap0)].
  case_match; [by destruct c'; apply (Hd fl_close_asap0)|]. apply Hd.
Qed.

(** No buffer sends are left behind the last one. *)
Lemma tiled_shift a b l : tiled a l a → tiled b l b.
Proof.
  induction l as [|[off len|o] l IH]; cbn [tiled]; [done| |done].
  intros (_ & Hl & Ht). apply tiled_le in Ht. lia.
Qed.

Lemma buffer_done_spec ext h c off len l :
  wf ext h c → inflight c = BufReq off len :: l →
  completes ext h c (slice (buf c) off (off + len)) h (sendReplyBufferDone (set_inflight c l) off len).
Proof.
  intros W El. pose proof (wf_small _ _ _ W) as Hsm. destruct W as [Wr We Wn Wq Wi Wb Wp (lo & Hlo & Ht & Hlt) Wd].
  rewrite El in *. cbn [tiled] in Ht. destruct Ht as (-> & Hlen & Ht). pose proof (tiled_le _ _ _ Ht) as Hle.
  unfold sendReplyBufferDone. rewrite (wraps_small 32 (lo + len)) by (change (2 ^ (32 - 1)) with 2147483648; lia).
  set (c1 := if bufpos (set_inflight c l) =? lo + len then set_buf (set_inflight c l) (buf (set_inflight c l)) 0 0
              else set_inflight c l).
  assert (completes ext h c (slice (buf c) lo (lo + len)) h c1) as Hc.
  { assert (inflight c1 = l ∧ reply c1 = reply c ∧ buf c1 = buf c ∧ who c1 = who c ∧ writable c1 = writable c)
      as (E1 & E2 & E3 & E4 & E5) by (subst c1; destruct (bufpos (set_inflight c l) =? lo + len); by split_and!).
    assert (held c1 = held c) as Hheld by (unfold held; rewrite E1, E2, El; done).
    assert ((bufpos c1 = bufpos c ∧ sentlen c1 = sentlen c ∧ (0 < bufpos c → sentlen c = bufpos c → lo + len < sentlen c)) ∨
            (bufpos c1 = 0 ∧ sentlen c1 = 0 ∧ sentlen c = bufpos c ∧ tiled 0 l 0)) as Hpos.
    { subst c1. cbn [set_inflight bufpos]. destruct (Z.eqb_spec (bufpos c) (lo + len)) as [Eb|Eb]; [right|left].
      - assert (sentlen c = bufpos c) as Es by lia. split_and!; try done.
        apply (tiled_shift (lo + len)). rewrite Es, Eb in Ht. done.
      - split_and!; try done. lia. }
    clearbody c1.
    assert (queued h c1 = queued h c ∧ unsent c1 = unsent c) as [Eq Eu].
    { unfold queued, unsent. rewrite E2, E3. destruct Hpos as [(-> & -> & _)|(-> & -> & -> & _)]; [done|].
      rewrite !slice_nil by lia. split; [done|]. by rewrite Z.ltb_irrefl, (proj2 (Z.ltb_ge _ _)) by lia. }
    split; try done.
    - split; rewrite ?Hheld, ?E1, ?E2, ?E3; try done.
      + intros n o Hin. specialize (Wn n o Hin). unfold node_ok in *. by rewrite Hheld.
      + destruct Hpos as [(-> & -> & _)|(-> & -> & _)]; unfold REDIS_REPLY_CHUNK_BYTES; lia.
      + destruct Hpos as [(-> & -> & Hc)|(-> & -> & _ & Ht0)]; [exists (lo + len)|exists 0]; (split; [lia|]); (split; [done|]); [done|lia].
      + unfold ready. rewrite E4, E5. intros H. apply Wd. destruct H as [H|H]; [|by right].
        destruct Hpos as [(Hz & _)|(Hz & _)]; [left; by rewrite <-Hz|done].
    - unfold output. rewrite Eq. unfold flying. rewrite E1, E3, El, bind_cons, fmap_app. cbn [req_text].
      by rewrite <-(assoc_L (++)).
    - by rewrite E1, El. }
  destruct ((bufpos c1 =? 0) && bool_decide (reply c1 = [])) eqn:Eg; [|done].
  apply andb_true_iff in Eg as [Eb%Z.eqb_eq Er%bool_decide_eq_true]. by apply completes_drained.
Qed.

Lemma list_done_spec ext h c o l :
  wf ext h c → inflight c = ObjReq o :: l →
  ∃ p h' c', obj_sds h o = Done p ∧ sendReplyListDone h (set_inflight c l) o = Done (h', c') ∧
    completes ext h c (sds_text p) h' c'.
Proof.
  intros W El. pose proof (wf_ext _ _ _ W) as Hext.
  destruct (wf_reqs _ _ _ W o) as (p & Ho & Rp); [rewrite El; cbn; set_solver|].
  assert (o ∈ held c) as Hin by (unfold held; rewrite El; cbn; set_solver).
  destruct (refs_decr _ h o (wf_refs _ _ _ W) (held_pos _ _ _ _ W Hin)) as (h' & Ed & Hr' & Hs').
  assert (∀ x, ext x + cnt (held (set_inflight c l)) x = ext x + cnt (held c) x - one o x) as Hc.
  { intros x. unfold held. cbn [set_inflight reply inflight]. rewrite El. cbn [req_objs omap list_omap]. rewrite !cnt_app. cbn [cnt]. unfold req_objs. lia. }
  assert (∀ x, x ∈ held (set_inflight c l) → ptrs h' x = ptrs h x) as Hsame.
  { intros x Hx. apply Hs'. rewrite <-Hc. pose proof (cnt_pos _ _ Hx). specialize (Hext x). lia. }
  assert (∀ x, x ∈ (reply c).*2 ∨ x ∈ req_objs l → x ∈ held (set_inflight c l)) as Hh.
  { intros x Hx. unfold held. cbn [set_inflight reply inflight]. rewrite elem_of_app. done. }
  exists p, h'. unfold sendReplyListDone. rewrite Ed. cbn [mbind outcome_bind]. eexists. split; [by apply obj_sds_ptrs|]. split; [done|].
  assert (completes ext h c (sds_text p) h' (set_inflight c l)) as Hcp.
  { pose proof W as [Wr We Wn Wq Wi Wb Wp (lo & Hlo & Ht & Hlt) Wd]. rewrite El in Ht. cbn [tiled] in Ht.
    assert (nodes_items h' (reply c) = nodes_items h (reply c)) as Nd by (apply nodes_items_same; intros; apply Hsame, Hh; tauto).
    assert ((l ≫= req_text h' (buf c)) = (l ≫= req_text h (buf c))) as Fl.
    { apply (flying_same _ _ _ _ _ lo (sentlen c)); try done. intros. apply Hsame, Hh. tauto. }
    split; try done.
    - split; try done.
      + eapply refs_ext; [exact Hr'|]. intros x. cbv beta. by rewrite Hc.
      + intros n o' Hn. eapply wf_node_keep; [by eapply Wn|apply Hsame, Hh; left; by eapply elem_of_fmap_snd|].
        intros En. specialize (Hc o'). rewrite one_other in Hc; [lia|]. intros ->. by rewrite Ho in En.
      + intros o' Ho'. rewrite Hsame by (apply Hh; by right). apply Wq. rewrite El. cbn. unfold req_objs in Ho'. cbn in Ho'. set_solver.
      + by exists lo.
    - intros x Hx. apply Hs'. rewrite <-Hc. pose proof (cnt_nonneg (held (set_inflight c l)) x). lia.
    - unfold output, queued, flying. cbn [set_inflight inflight reply buf sentlen bufpos]. rewrite Nd, Fl, El, bind_cons, fmap_app.
      cbn [req_text]. rewrite Ho. by rewrite <-(assoc_L (++)).
    - unfold queued. cbn [set_inflight inflight reply buf sentlen bufpos]. by rewrite Nd.
    - by rewrite El. }
  destruct ((bufpos (set_inflight c l) =? 0) && _) eqn:Eg; [|done].
  apply andb_true_iff in Eg as [Eb%Z.eqb_eq Er%bool_decide_eq_true].
  assert (sentlen c = 0) as Es by (pose proof (wf_small _ _ _ W); cbn in Eb; lia).
  apply completes_drained; [|done|done].
  replace (set_buf (set_inflight c l) (buf (set_inflight c l)) (bufpos (set_inflight c l)) 0) with (set_inflight c l); [done|].
  destruct c; cbn in *. by subst.
Qed.

Lemma complete_spec ext h c :
  wf ext h c → ∃ h' c' t, complete h c = Done (h', c', t) ∧ completes ext h c t h' c'.
Proof.
  intros W. unfold complete. destruct (inflight c) as [|[off len|o] l] eqn:El.
  - exists h, c, []. split; [done|]. split; try done. by rewrite El.
  - eexists _, _, _. split; [done|]. by apply buffer_done_spec.
  - destruct (list_done_spec ext h c o l W El) as (p & h' & c' & -> & Ec & Hc). cbn [mbind outcome_bind]. rewrite Ec.
    cbn [mbind outcome_bind]. eexists _, _, _. split; [done|done].
Qed.

(** ** Connections

    The events of a connection: a command replies, the socket is writable, a send
    has completed (the oldest, completions being in the order of the sends).
    [wire]: what the client has received. *)
Inductive event := EReply (r : rop) | ESend (send_ok : nat → bool) | EDone.
Record state := State { st_heap : heap; st_client : option client; wire : list Z }.

Definition step (st : state) (ev : event) : outcome state :=
  match st_client st with
  | None => Done st
  | Some c =>
      match ev with
      | EReply r => '(h, c) ← run_rop junk E r (st_heap st) c; Done (State h (Some c) (wire st))
      | ESend send_ok => '(h, c) ← sendReplyToClient E send_ok (st_heap st) c; Done (State h c (wire st))
      | EDone => '(h, c, t) ← complete (st_heap st) c; Done (State h (Some c) (wire st ++ t))
      end
  end.
Fixpoint run (evs : list event) (st : state) : outcome state :=
  match evs with [] => Done st | ev :: evs => st ← step st ev; run evs st end.

(** The client of a connection that gets replies. *)
Definition connected (w : ident) : Prop :=
  fl_lua w = false ∧ (fl_master w = false ∨ fl_master_force_reply w = true) ∧ 0 < fd w ∧ fl_close_after_reply w = false ∧
  aeCreateFileEvent E = true.

Lemma connected_accepts c : connected (who c) → accepts E c = true.
Proof.
  intros (Hl & Hm & Hf & _ & Ha). unfold accepts, prepareClientToWrite. rewrite Hl, Ha.
  rewrite (proj2 (Z.leb_gt _ _)) by done.
  destruct Hm as [->| ->]; rewrite ?andb_false_r; cbn [andb negb]; by case_match.
Qed.

Context (ext : positive → Z) (view : positive → option obj_ptr).

Definition event_text (ev : event) : list Z :=
  match ev with EReply r => rop_text view false r | _ => [] end.
Definition event_ok (ev : event) : Prop :=
  match ev with EReply r => rop_ok ext view r | _ => True end.

(** After the replies [t]: the bytes on the wire, in flight and queued are those of
    the replies; there is a write handler while bytes are queued. *)
Definition delivered (w : ident) (st : state) (t : list Z) : Prop :=
  seen ext view (st_heap st) ∧
  match st_client st with
  | Some c => wf ext (st_heap st) c ∧ who c = w ∧ (inl <$> wire st) ++ output (st_heap st) c = inl <$> t
  | None => wire st `prefix_of` t
  end.

Lemma delivered_bytes h c (w t : list Z) : (inl <$> w) ++ output h c = inl <$> t → no_holes (queued h c).
Proof.
  intros Ho ln Hin. apply (no_hole_bytes ln t). rewrite <-Ho. unfold output. set_solver.
Qed.

Lemma step_delivered w st ev t :
  shared_ok E ext view → connected w → event_ok ev → delivered w st t →
  post (step st ev) (λ st', delivered w st' (t ++ event_text ev)).
Proof.
  intros SH Hcw Hev [Hs Hd]. unfold step. destruct (st_client st) as [c|] eqn:Ec.
  2:{ cbn [post]. split; [done|]. rewrite Ec. by apply prefix_app_r. }
  destruct Hd as (W & Hc & Ho). assert (connected (who c)) as Hcc by (by rewrite Hc). pose proof (delivered_bytes _ _ _ _ Ho) as Hh.
  destruct ev as [r|send_ok|]; cbn [event_text]; rewrite ?app_nil_r.
  - eapply post_bind; [by apply (run_rop_performs junk E ext view SH r Hev)|]. intros [h' c'] []. cbn [post].
    split; [done|]. cbn [st_heap st_client wire]. split; [done|]. split; [by rewrite r_who0|].
    assert (effect E c (λ close, rop_text view close r) = rop_text view false r) as Ee
      by (unfold effect; rewrite connected_accepts by done; by destruct Hcc as (_ & _ & _ & -> & _)).
    rewrite Ee in r_queued0. unfold output in *. rewrite r_flying0, r_queued0, fmap_app, <-Ho. by rewrite <-!(assoc_L (++)).
  - destruct (sendReplyToClient_spec ext send_ok _ c W Hh) as (h' & r & -> & Hr). cbn [mbind outcome_bind post].
    destruct r as [c'|]; cbn [sent_on] in Hr.
    + destruct Hr as [[] _]. split; [intros x Hx; cbn; rewrite s_frame0 by done; by apply Hs|].
      cbn. split; [done|]. split; [by rewrite s_who0|]. by rewrite s_output0.
    + split; [intros x Hx; cbn; rewrite (proj1 Hr) by done; by apply Hs|]. cbn [st_client wire].
      assert (∃ r, output (st_heap st) c = inl <$> r) as [r Er].
      { exists (drop (length (wire st)) t). rewrite fmap_drop, <-Ho. by rewrite drop_app_length' by (by rewrite length_fmap). }
      rewrite Er, <-fmap_app in Ho. apply (inj (fmap inl)) in Ho. by exists r.
  - destruct (complete_spec ext _ c W) as (h' & c' & b & -> & []). cbn [mbind outcome_bind post].
    split; [intros x Hx; cbn; rewrite p_frame0 by done; by apply Hs|]. cbn. split; [done|]. split; [by rewrite p_who0|].
    rewrite p_output0 in Ho. rewrite fmap_app, <-(assoc_L (++)). done.
Qed.

Lemma run_delivered w evs : ∀ st t,
  shared_ok E ext view → connected w → Forall event_ok evs → delivered w st t →
  post (run evs st) (λ st', delivered w st' (t ++ concat (event_text <$> evs))).
Proof.
  induction evs as [|ev evs IH]; intros st t SH Hcw Hev Hd; cbn [run fmap list_fmap concat]; [by rewrite app_nil_r|].
  apply Forall_cons in Hev as [Hev Hevs]. eapply post_bind; [by eapply step_delivered|].
  intros st' Hd'. rewrite (assoc_L (++)). by apply IH.
Qed.

(** A round of the event loop: everything that can be handed over is accepted and
    completes. *)
Definition round (k : nat) : list event := ESend (λ _, true) :: replicate k EDone.
Definition rounds (k j : nat) : list event := concat (replicate j (round k)).

Lemma run_app evs1 evs2 st : run (evs1 ++ evs2) st = st' ← run evs1 st; run evs2 st'.
Proof.
  revert st. induction evs1 as [|ev evs1 IH]; intros st; [done|]. cbn [run app].
  destruct (step st ev); cbn [mbind outcome_bind]; [apply IH|done|done].
Qed.

Lemma run_completions k : ∀ h c w,
  wf ext h c → (length (inflight c) ≤ k)%nat →
  ∃ h' c' w', run (replicate k EDone) (State h (Some c) w) = Done (State h' (Some c') w') ∧
    wf ext h' c' ∧ inflight c' = [] ∧ unsent c' = unsent c ∧ queued h' c' = queued h c ∧
    (inl <$> w') ++ output h' c' = (inl <$> w) ++ output h c.
Proof.
  induction k as [|k IH]; intros h c w W Hk; cbn [replicate run].
  - exists h, c, w. split_and!; try done. destruct (inflight c); [done|cbn in Hk; lia].
  - unfold step. cbn [st_client st_heap wire]. destruct (complete_spec ext h c W) as (h1 & c1 & t & -> & Hc).
    cbn [mbind outcome_bind].
    destruct (IH h1 c1 (w ++ t)) as (h' & c' & w' & Er & W' & Hi & Hu & Hq & Ho).
    + apply Hc.
    + rewrite (p_inflight _ _ _ _ _ _ Hc). destruct (inflight c); cbn in *; lia.
    + exists h', c', w'. split_and!; try done; [by rewrite Hu, (p_unsent _ _ _ _ _ _ Hc)|by rewrite Hq, (p_queued _ _ _ _ _ _ Hc)|].
      rewrite Ho, (p_output _ _ _ _ _ _ Hc), fmap_app. by rewrite <-(assoc_L (++)).
Qed.

Lemma run_round k h c w :
  wf ext h c → no_holes (queued h c) → (length (inflight c) + unsent c ≤ k)%nat →
  ∃ h' c' w', run (round k) (State h (Some c) w) = Done (State h' (Some c') w') ∧
    wf ext h' c' ∧ inflight c' = [] ∧ (unsent c' ≤ pred (unsent c))%nat ∧ no_holes (queued h' c') ∧
    (inl <$> w') ++ output h' c' = (inl <$> w) ++ output h c.
Proof.
  intros W Hh Hk. unfold round. cbn [run]. unfold step at 1. cbn [st_client st_heap wire].
  destruct (sendReplyToClient_spec ext (λ _, true) h c W Hh) as (h1 & r & -> & Hr). cbn [mbind outcome_bind].
  destruct r as [c1|]; [|by destruct Hr as [_ [? ?]]]. destruct Hr as [S Hu].
  destruct (run_completions k h1 c1 w) as (h' & c' & w' & Er & W' & Hi & Hu' & Hq & Ho); [apply S| |].
  { pose proof (s_work _ _ _ _ _ S). lia. }
  exists h', c', w'. split_and!; try done; [lia| |].
  - rewrite Hq. by apply S.
  - by rewrite Ho, (s_output _ _ _ _ _ S).
Qed.

Lemma run_rounds k j : ∀ h c w,
  wf ext h c → no_holes (queued h c) → (length (inflight c) + unsent c ≤ k)%nat →
  ∃ h' c' w', run (rounds k j) (State h (Some c) w) = Done (State h' (Some c') w') ∧
    wf ext h' c' ∧ (j ≠ O → inflight c' = []) ∧ (unsent c' ≤ unsent c - j)%nat ∧
    (inl <$> w') ++ output h' c' = (inl <$> w) ++ output h c.
Proof.
  induction j as [|j IH]; intros h c w W Hh Hk; unfold rounds; cbn [replicate concat].
  - exists h, c, w. split_and!; try done. lia.
  - rewrite run_app. destruct (run_round k h c w W Hh Hk) as (h1 & c1 & w1 & -> & W1 & Hi1 & Hu1 & Hh1 & Ho1).
    cbn [mbind outcome_bind]. destruct (IH h1 c1 w1 W1 Hh1) as (h' & c' & w' & Er & W' & Hi & Hu & Ho).
    { rewrite Hi1. cbn [length]. lia. }
    exists h', c', w'. split_and!; try done; [|lia|by rewrite Ho].
    intros _. destruct (decide (j = O)) as [->|Hj]; [|by apply Hi].
    cbn in Er. injection Er as -> -> ->. done.
Qed.

Lemma output_nil h c : wf ext h c → inflight c = [] → unsent c = O → output h c = [].
Proof.
  intros W Hi Hu. pose proof (wf_small _ _ _ W). unfold unsent in Hu. unfold output, queued, flying. rewrite Hi.
  destruct (reply c); cbn [length] in Hu; [|lia]. destruct (Z.ltb_spec (sentlen c) (bufpos c)); [lia|].
  by rewrite slice_nil by lia.
Qed.

(** Enough rounds deliver everything. *)
Lemma rounds_deliver k h c w t :
  wf ext h c → (inl <$> w) ++ output h c = inl <$> t → (length (inflight c) + unsent c ≤ k)%nat →
  ∃ h' c', run (rounds k k) (State h (Some c) w) = Done (State h' (Some c') t) ∧ output h' c' = [].
Proof.
  intros W Ho Hk. destruct (run_rounds k k h c w W (delivered_bytes _ _ _ _ Ho) Hk) as (h' & c' & w' & Er & W' & Hi & Hu & Ho').
  assert (output h' c' = []) as Hn.
  { apply output_nil; [done| |lia]. destruct k; [|by apply Hi]. cbn in Er. injection Er as -> -> ->.
    destruct (inflight c'); [done|cbn in Hk; lia]. }
  exists h', c'. split; [|done]. rewrite Er. rewrite Hn, app_nil_r, Ho in Ho'. by apply (inj (fmap inl)) in Ho' as ->.
Qed.

Lemma fresh_delivered w t b h :
  refs ext h → (∀ x, 0 ≤ ext x) → seen ext view h → blen b = REDIS_REPLY_CHUNK_BYTES →
  delivered w (State h (Some (createClient w t b)) []) [].
Proof.
  intros Hr He Hs Hb. split; [done|]. cbn [st_client st_heap wire].
  split; [|split; [done|]].
  - split; try done; cbn.
    + eapply refs_ext; [exact Hr|]. intros x. cbn. lia.
    + intros ? ? []%elem_of_nil.
    + intros ? []%elem_of_nil.
    + constructor.
    + exists 0. split; [done|]. split; [done|]. lia.
    + by intros [?|?].
  - unfold output, flying, queued. cbn. by rewrite slice_nil.
Qed.

Lemma queued_ready h c : wf ext h c → event_driven (who c) → queued h c ≠ [] → writable c = true.
Proof.
  intros W He Hq. apply (wf_ready _ _ _ W); [|done]. pose proof (wf_small _ _ _ W).
  destruct (decide (bufpos c = 0)); [right|by left]. intros Hr. apply Hq. unfold queued. by rewrite Hr, slice_nil by lia.
Qed.

(** C5. Whatever a command replies (strings, numbers, shared objects, objects of the
    keyspace, nested multi bulk replies of a length not known in advance), and
    however replies interleave with the sends to the socket and their completions,
    the bytes received, in flight and queued are exactly the protocol of the
    replies in their order; no byte of memory is misused, the objects that the rest
    of the server holds keep their contents and their reference counts are
    accurate; a client with queued bytes has its write handler; a client that is
    freed because a send failed has received a prefix. *)
Theorem replies_in_order evs w t b h :
  shared_ok E ext view → Forall event_ok evs →
  refs ext h → (∀ x, 0 ≤ ext x) → seen ext view h → connected w → blen b = REDIS_REPLY_CHUNK_BYTES →
  post (run evs (State h (Some (createClient w t b)) []))
    (λ st, seen ext view (st_heap st) ∧
      match st_client st with
      | Some c =>
          (inl <$> wire st) ++ output (st_heap st) c = inl <$> concat (event_text <$> evs) ∧
          refs (λ x, ext x + cnt (held c) x) (st_heap st) ∧
          (event_driven w → queued (st_heap st) c ≠ [] → writable c = true)
      | None => wire st `prefix_of` concat (event_text <$> evs)
      end).
Proof.
  intros SH Hev Hr He Hs Hw Hb.
  eapply post_weaken; [apply (run_delivered w evs _ []); try done; by apply fresh_delivered|].
  intros st [Hs' Hd]. split; [done|]. destruct (st_client st) as [c|]; [|done].
  destruct Hd as (W & <- & Ho). split; [done|]. split; [apply W|]. by apply queued_ready.
Qed.

(** C23. Nothing stays behind: after any replies, sends and completions, once the
    socket accepts the sends and completes them, as many turns of the event loop as
    there are pieces of output deliver every byte of the replies. *)
Theorem replies_reach_client evs w t b h :
  shared_ok E ext view → Forall event_ok evs →
  refs ext h → (∀ x, 0 ≤ ext x) → seen ext view h → connected w → blen b = REDIS_REPLY_CHUNK_BYTES →
  post (run evs (State h (Some (createClient w t b)) []))
    (λ st, ∀ c k, st_client st = Some c → (length (inflight c) + unsent c ≤ k)%nat →
      ∃ h' c', run (rounds k k) st = Done (State h' (Some c') (concat (event_text <$> evs))) ∧ output h' c' = []).
Proof.
  intros SH Hev Hr He Hs Hw Hb.
  eapply post_weaken; [apply (run_delivered w evs _ []); try done; by apply fresh_delivered|].
  intros [h1 r w1] [Hs' Hd] c k Ec Hk. cbn [st_client st_heap wire] in *. subst r. destruct Hd as (W & Hc & Ho). by apply rounds_deliver.
Qed.
End connection.

(** ** Concrete instances *)

(** A string object of one reference. *)
Definition demo_obj (s : list Z) : robj := Robj 1 (Raw (Some (Sdshdr (blen s) 0 (s ++ [0])))).
Definition demo_hdr (prefix : Z) (base : positive) : list (positive * robj) :=
  (λ n : nat, ((base + Pos.of_succ_nat n)%positive, demo_obj (line prefix (Z.of_nat n)))) <$> seq 0 32.

(** The shared objects, the value of a key and an integer. *)
Definition demo_heap : heap :=
  list_to_map ([(1%positive, demo_obj crlf); (2%positive, demo_obj (line ch_colon 0)); (3%positive, demo_obj (line ch_colon 1));
    (4%positive, demo_obj (line ch_dollar (-1))); (5%positive, demo_obj [104; 105]); (6%positive, Robj 1 (Int (-7)))]
    ++ demo_hdr ch_star 10 ++ demo_hdr ch_dollar 60).
Definition demo_shared : sharedObjects :=
  Shared 1 2 3 4 ((λ n : nat, (10 + Pos.of_succ_nat n)%positive) <$> seq 0 32) ((λ n : nat, (60 + Pos.of_succ_nat n)%positive) <$> seq 0 32).
Definition demo_env : env :=
  Env (λ s, sh_len s + sh_free s + 9) (λ _, Limits 0 0 0) 0 true 0 0 demo_shared.
Definition demo_ident : ident := Ident 5 false false false false false false REDIS_REPL_NONE false.
Definition demo_ext (x : positive) : Z := match demo_heap !! x with Some _ => 1 | None => 0 end.
Definition demo_view (x : positive) : option obj_ptr := ptrs demo_heap x.
Definition demo_client : client := createClient demo_ident 0 (replicate 16384 0).

(** A value too large for the static buffer, a deferred reply with shared objects
    behind it, and sends that complete in between. *)
Definition demo_events : list event :=
  [EReply (RBulk 5); ESend (λ _, true); EReply (RString (replicate 17000 65)); EDone;
   EReply (RDeferred (RSeq (RBulk 6) (RSeq (RBulkInteger 10) (RObject 1))) 2); ESend (λ _, true);
   EReply (RInteger 1); EDone].

(** A string of the C library of a bounded length. *)
Lemma demo_sds_rep s : blen s < 2 ^ 31 - 2 → rep (Sdshdr (blen s) 0 (s ++ [0])) s.
Proof. intros. exists []. rewrite blen_nil. unlimit. split_and!; try done. lia. Qed.

Lemma demo_obj_text s : blen s < 2 ^ 31 - 2 → otext (Some (ptr (demo_obj s))) s.
Proof. intros. cbn. by apply demo_sds_rep. Qed.

Lemma demo_refs : refs demo_ext demo_heap.
Proof.
  assert (map_Forall (λ _ obj, refcount obj = 1) demo_heap) as H by (apply (bool_decide_unpack _); by vm_compute).
  intros x. unfold demo_ext. destruct (demo_heap !! x) as [obj|] eqn:E; [|done].
  split; [by apply (H x)|done].
Qed.
Lemma demo_ext_nonneg x : 0 ≤ demo_ext x.
Proof. unfold demo_ext. by case_match. Qed.
Lemma demo_seen : seen demo_ext demo_view demo_heap.
Proof. done. Qed.

Lemma demo_shared_obj x s :
  demo_heap !! x = Some (demo_obj s) → blen s < 2 ^ 31 - 2 → 0 < demo_ext x ∧ otext (demo_view x) s.
Proof.
  intros E Hs. unfold demo_ext, demo_view, ptrs. rewrite E. split; [done|]. by apply demo_obj_text.
Qed.

Lemma demo_header (l : list positive) (prefix : Z) :
  (λ n : nat, x ← l !! n; demo_heap !! x) <$> seq 0 32 = (λ n : nat, Some (demo_obj (line prefix (Z.of_nat n)))) <$> seq 0 32 →
  ∀ n, 0 ≤ n < REDIS_SHARED_BULKHDR_LEN →
    ∃ o, l !! Z.to_nat n = Some o ∧ 0 < demo_ext o ∧ otext (demo_view o) (line prefix n).
Proof.
  intros H n Hn. unfold REDIS_SHARED_BULKHDR_LEN in Hn. apply (f_equal (.!! Z.to_nat n)) in H.
  rewrite !list_lookup_fmap, lookup_seq_lt in H by lia. cbn [fmap option_fmap option_map Nat.add] in H. rewrite Z2Nat.id in H by lia.
  injection H as H. destruct (l !! Z.to_nat n) as [o|]; [|done]. exists o. split; [done|].
  apply demo_shared_obj; [done|]. assert (in_i64 n) as Hi by (unlimit; lia). pose proof (line_length prefix n Hi). lia.
Qed.

Lemma demo_shared_ok : shared_ok demo_env demo_ext demo_view.
Proof.
  split.
  - apply demo_shared_obj; [by vm_compute|done].
  - apply demo_shared_obj; [by vm_compute|done].
  - apply demo_shared_obj; [by vm_compute|done].
  - apply demo_shared_obj; [by vm_compute|done].
  - apply demo_header. by vm_compute.
  - apply demo_header. by vm_compute.
Qed.

Lemma demo_events_ok : Forall (event_ok demo_ext demo_view) demo_events.
Proof.
  assert (0 < demo_ext 5 ∧ otext (demo_view 5) (view_text demo_view 5)) as H5 by (apply demo_shared_obj; [by vm_compute|done]).
  assert (0 < demo_ext 1 ∧ otext (demo_view 1) (view_text demo_view 1)) as H1 by (apply demo_shared_obj; [by vm_compute|done]).
  assert (0 < demo_ext 6 ∧ otext (demo_view 6) (view_text demo_view 6)) as H6 by (by vm_compute).
  unfold demo_events. repeat (apply Forall_cons; split); try exact I; try apply Forall_nil_2; cbn [event_ok rop_ok].
  - exact H5.
  - by vm_compute.
  - split; [split; [exact H6|split; [unlimit; lia|exact H1]]|]. split; [unlimit; lia|]. by vm_compute.
  - unlimit. lia.
Qed.

Definition demo_start : state := State demo_heap (Some demo_client) [].

Definition demo_junk (n : nat) : Z := 0.

Lemma demo_runs : ∃ st c, run demo_junk demo_env demo_events demo_start = Done st ∧ st_client st = Some c ∧
  blen (wire st) = 17008 ∧ (length (inflight c) + unsent c = 2)%nat.
Proof.
  assert (match run demo_junk demo_env demo_events demo_start with
          | Done (State _ (Some c) w) => (blen w =? 17008) && (length (inflight c) + unsent c =? 2)%nat
          | _ => false
          end = true) as H by (by vm_compute).
  destruct (run _ _ _ _) as [[h [c|] w]| |]; try done. exists (State h (Some c) w), c.
  apply andb_true_iff in H as [H1%Z.eqb_eq H2%Nat.eqb_eq]. done.
Qed.

Lemma demo_connected : connected demo_env demo_ident.
Proof. split; [done|]. split; [by left|]. done. Qed.

Lemma replies_in_order_witness :
  ∃ st, run demo_junk demo_env demo_events demo_start = Done st ∧ blen (wire st) = 17008 ∧
    ∃ c, st_client st = Some c ∧
      (inl <$> wire st) ++ output (st_heap st) c = inl <$> concat (event_text demo_view <$> demo_events).
Proof.
  destruct demo_runs as (st & c & Hr & Hc & Hw & _).
  pose proof (replies_in_order demo_junk demo_env demo_ext demo_view demo_events demo_ident 0 (replicate 16384 0) demo_heap
    demo_shared_ok demo_events_ok demo_refs demo_ext_nonneg demo_seen demo_connected eq_refl) as H.
  change (State demo_heap (Some (createClient demo_ident 0 (replicate 16384 0))) []) with demo_start in H.
  rewrite Hr in H. cbn [post] in H. rewrite Hc in H. exists st. split; [exact Hr|]. split; [exact Hw|].
  exists c. split; [exact Hc|]. apply H.
Defined.

Lemma replies_reach_client_witness :
  ∃ st h' c', run demo_junk demo_env demo_events demo_start = Done st ∧ blen (wire st) = 17008 ∧
    run demo_junk demo_env (rounds 2 2) st = Done (State h' (Some c') (concat (event_text demo_view <$> demo_events))).
Proof.
  destruct demo_runs as (st & c & Hr & Hc & Hw & Hk).
  pose proof (replies_reach_client demo_junk demo_env demo_ext demo_view demo_events demo_ident 0 (replicate 16384 0) demo_heap
    demo_shared_ok demo_events_ok demo_refs demo_ext_nonneg demo_seen demo_connected eq_refl) as H.
  change (State demo_heap (Some (createClient demo_ident 0 (replicate 16384 0))) []) with demo_start in H.
  rewrite Hr in H. cbn [post] in H. destruct (H c 2%nat Hc) as (h' & c' & Hd & _); [by rewrite Hk|].
  exists st, h', c'. split; [exact Hr|]. split; [exact Hw|exact Hd].
Defined.
