(* ===== verification/Replication.v ===== *)
(** * Replication: what a master feeds to its slaves (replication.c)

    The backlog, a circular buffer of the last bytes of the replication stream;
    replicationFeedSlaves, which writes the stream to the backlog and to the
    output of the slaves; the answer to PSYNC. *)
From S2P Require Import Prelude Util Sds Rio Reply.
Open Scope Z_scope.

Definition REDIS_REPL_BACKLOG_MIN_SIZE : Z := 1024 * 16.
Definition REDIS_LONGSTR_SIZE : Z := 21.
Definition REDIS_SHARED_SELECT_CMDS : Z := 10.

(** The fields of the server that describe the stream and its backlog. *)
Record backlog := Backlog {
  repl_backlog : option (list Z);
  repl_backlog_size : Z;
  repl_backlog_histlen : Z;
  repl_backlog_idx : Z;
  repl_backlog_off : Z;
  master_repl_offset : Z
}.

(** A client with what replication keeps of it. *)
Record peer := Peer { conn : client; repl_ack_time : Z }.

Record server := Server {
  slaves : list peer;
  slaveseldb : Z;
  stream : backlog;
  repl_good_slaves_count : Z
}.

(** What the functions only read. *)
Record config := Config {
  runid : list Z;
  repl_min_slaves_to_write : Z;
  repl_min_slaves_max_lag : Z;
  shared_select : list positive
}.

Definition set_who (c : client) (w : ident) : client :=
  Client w (fl_close_asap c) (writable c) (buf c) (bufpos c) (sentlen c) (reply c) (reply_bytes c)
    (obuf_soft_limit_reached_time c) (lastinteraction c) (inflight c).
(** [c->flags |= REDIS_SLAVE; c->replstate = state]. *)
Definition as_slave (w : ident) (state : Z) : ident :=
  Ident (fd w) (fl_lua w) (fl_master w) (fl_master_force_reply w) true (fl_monitor w) (fl_close_after_reply w) state (subscribed w).

Section replication.
Context (junk : nat → Z) (E : env) (K : config).

(** ** The backlog *)

Definition createReplicationBacklog (b : backlog) : outcome backlog :=
  match repl_backlog b with
  | Some _ => Error
  | None =>
      let m := mresize junk [] (repl_backlog_size b) in
      let off := i64 (master_repl_offset b + 1) in
      Done (Backlog (Some m) (repl_backlog_size b) 0 0 (i64 (off + 1)) off)
  end.

Definition resizeReplicationBacklog (b : backlog) (newsize : Z) : backlog :=
  let newsize := if newsize <? REDIS_REPL_BACKLOG_MIN_SIZE then REDIS_REPL_BACKLOG_MIN_SIZE else newsize in
  if repl_backlog_size b =? newsize then b
  else
    match repl_backlog b with
    | Some _ =>
        Backlog (Some (mresize junk [] newsize)) newsize 0 0 (i64 (master_repl_offset b + 1)) (master_repl_offset b)
    | None =>
        Backlog None newsize (repl_backlog_histlen b) (repl_backlog_idx b) (repl_backlog_off b) (master_repl_offset b)
    end.

Definition freeReplicationBacklog (s : server) : outcome server :=
  if negb (bool_decide (slaves s = [])) then Error
  else
    let b := stream s in
    Done (Server (slaves s) (slaveseldb s)
      (Backlog None (repl_backlog_size b) (repl_backlog_histlen b) (repl_backlog_idx b) (repl_backlog_off b) (master_repl_offset b))
      (repl_good_slaves_count s)).

(** The loop of feedReplicationBacklog, on the buffer, the index and the length of
    the history; [p]: the rest of the data. *)
Fixpoint feed_loop (fuel : nat) (size : Z) (m : list Z) (idx histlen : Z) (p : list Z) (len : Z)
    : outcome (list Z * Z * Z) :=
  if len =? 0 then Done (m, idx, histlen)
  else
    match fuel with
    | O => Undef
    | S fuel =>
        let thislen := u64 (size - idx) in
        let thislen := if len <? thislen then len else thislen in
        t ← lift (mload p 0 thislen);
        m ← lift (mstore m idx t);
        let idx := i64 (idx + thislen) in
        let idx := if idx =? size then 0 else idx in
        feed_loop fuel size m idx (i64 (histlen + thislen)) (drop (Z.to_nat thislen) p) (len - thislen)
    end.

(** [len] bytes at [p]. *)
Definition feedReplicationBacklog (b : backlog) (p : list Z) (len : Z) : outcome backlog :=
  let off := i64 (master_repl_offset b + len) in
  m ← lift (repl_backlog b);
  '(m, idx, histlen) ←
    feed_loop (S (Z.to_nat len)) (repl_backlog_size b) m (repl_backlog_idx b) (repl_backlog_histlen b) p len;
  let histlen := if repl_backlog_size b <? histlen then repl_backlog_size b else histlen in
  Done (Backlog (Some m) (repl_backlog_size b) histlen idx (i64 (off - histlen + 1)) off).

Definition feedReplicationBacklogWithObject (b : backlog) (h : heap) (o : positive) : outcome backlog :=
  obj ← lift (h !! o);
  match ptr obj with
  | Int n => let '(len, llstr) := ll2string REDIS_LONGSTR_SIZE n in feedReplicationBacklog b llstr len
  | Raw (Some p) => feedReplicationBacklog b (sh_buf p) (sdslen p)
  | Raw None => Undef
  end.

(** ** Feeding the slaves *)

Definition stringObjectLen (h : heap) (o : positive) : outcome Z :=
  obj ← lift (h !! o);
  match ptr obj with
  | Raw (Some p) => Done (sdslen p)
  | Raw None => Undef
  | Int n => Done (ll2string 32 n).1
  end.

(** The buffer [aux] with [prefix], a number and the line end: the block and the
    length of the number. *)
Definition aux_line (prefix n : Z) : outcome (list Z * Z) :=
  let aux := mresize junk [] (REDIS_LONGSTR_SIZE + 3) in
  aux ← lift (mset aux 0 prefix);
  let '(len, text) := ll2string (REDIS_LONGSTR_SIZE + 3 - 1) n in
  aux ← lift (mstore aux 1 text);
  aux ← lift (mset aux (len + 1) ch_cr);
  aux ← lift (mset aux (len + 2) ch_lf);
  Done (aux, len).

(** One turn of [for (j = 0; j < argc; j++)] over the arguments. *)
Definition feed_arg (h : heap) (b : backlog) (o : positive) : outcome backlog :=
  objlen ← stringObjectLen h o;
  '(aux, len) ← aux_line ch_dollar (i32 objlen);
  b ← feedReplicationBacklog b aux (len + 3);
  b ← feedReplicationBacklogWithObject b h o;
  feedReplicationBacklog b (drop (Z.to_nat (len + 1)) aux) 2.
Fixpoint feed_args (h : heap) (b : backlog) (argv : list positive) : outcome backlog :=
  match argv with [] => Done b | o :: argv => b ← feed_arg h b o; feed_args h b argv end.

(** A loop over the slaves that may touch the output of each. *)
Fixpoint for_slaves (f : heap → client → outcome (heap * client)) (h : heap) (l : list peer) : outcome (heap * list peer) :=
  match l with
  | [] => Done (h, [])
  | s :: l => '(h, c) ← f h (conn s); '(h, l) ← for_slaves f h l; Done (h, Peer c (repl_ack_time s) :: l)
  end.

(** "SELECT" as a bulk string and the header of the request. *)
Definition select_head : list Z := line ch_star 2 ++ bulk [83; 69; 76; 69; 67; 84].
Definition select_text (dictid_len : Z) (llstr : list Z) : list Z := select_head ++ line ch_dollar dictid_len ++ llstr ++ crlf.

(** The object with the SELECT command, and whether it is to be released. *)
Definition select_object (h : heap) (dictid : Z) : outcome (heap * positive * bool) :=
  if (0 <=? dictid) && (dictid <? REDIS_SHARED_SELECT_CMDS) then
    o ← at_index (shared_select K) dictid; Done (h, o, false)
  else
    let '(dictid_len, llstr) := ll2string REDIS_LONGSTR_SIZE dictid in
    n ← lift (strlen llstr);
    p ← lift (sdsempty junk);
    p ← lift (sdscat junk p (select_text dictid_len (take (Z.to_nat n) llstr) ++ [ch_nul]));
    let '(h, o) := createObject h (Raw (Some p)) in
    Done (h, o, true).

Definition feed_select (h : heap) (s : server) (dictid : Z) : outcome (heap * server) :=
  '(h, selectcmd, own) ← select_object h dictid;
  b ← (match repl_backlog (stream s) with
       | Some _ => feedReplicationBacklogWithObject (stream s) h selectcmd
       | None => Done (stream s)
       end);
  '(h, l) ← for_slaves (λ h c, addReply junk E h c selectcmd) h (slaves s);
  h ← (if own : bool then decrRefCount h selectcmd else Done h);
  Done (h, Server l (slaveseldb s) b (repl_good_slaves_count s)).

Fixpoint reply_args (argv : list positive) (h : heap) (c : client) : outcome (heap * client) :=
  match argv with [] => Done (h, c) | o :: argv => '(h, c) ← addReplyBulk junk E h c o; reply_args argv h c end.

(** The command, for a slave that is not waiting for the start of a BGSAVE. *)
Definition reply_command (argv : list positive) (h : heap) (c : client) : outcome (heap * client) :=
  if replstate (who c) =? REDIS_REPL_WAIT_BGSAVE_START then Done (h, c)
  else
    '(h, c) ← addReplyMultiBulkLen junk E h c (Z.of_nat (length argv));
    reply_args argv h c.

Definition replicationFeedSlaves (h : heap) (s : server) (dictid : Z) (argv : list positive) : outcome (heap * server) :=
  if bool_decide (repl_backlog (stream s) = None) && bool_decide (slaves s = []) then Done (h, s)
  else if negb (bool_decide (slaves s = [])) && bool_decide (repl_backlog (stream s) = None) then Error
  else
    '(h, s) ← (if negb (slaveseldb s =? dictid) then feed_select h s dictid else Done (h, s));
    let s := Server (slaves s) dictid (stream s) (repl_good_slaves_count s) in
    b ← (match repl_backlog (stream s) with
         | Some _ =>
             '(aux, len) ← aux_line ch_star (Z.of_nat (length argv));
             b ← feedReplicationBacklog (stream s) aux (len + 3);
             feed_args h b argv
         | None => Done (stream s)
         end);
    '(h, l) ← for_slaves (reply_command argv) h (slaves s);
    Done (h, Server l (slaveseldb s) b (repl_good_slaves_count s)).

(** ** PSYNC *)

Fixpoint backlog_loop (fuel : nat) (size : Z) (m : list Z) (h : heap) (c : client) (j len : Z) : outcome (heap * client) :=
  if len =? 0 then Done (h, c)
  else
    match fuel with
    | O => Undef
    | S fuel =>
        let thislen := if size - j <? len then size - j else len in
        s ← lift (sdsnewlen junk (Some (drop (Z.to_nat j) m)) (u64 thislen));
        '(h, c) ← addReplySds junk E h c s;
        backlog_loop fuel size m h c 0 (i64 (len - thislen))
    end.

Definition addReplyReplicationBacklog (h : heap) (b : backlog) (c : client) (offset : Z) : outcome (heap * client * Z) :=
  if repl_backlog_histlen b =? 0 then Done (h, c, 0)
  else
    m ← lift (repl_backlog b);
    let skip := i64 (offset - repl_backlog_off b) in
    let size := repl_backlog_size b in
    let j := Z.rem (i64 (repl_backlog_idx b + i64 (size - repl_backlog_histlen b))) size in
    let j := Z.rem (i64 (j + skip)) size in
    let len := i64 (repl_backlog_histlen b - skip) in
    '(h, c) ← backlog_loop (S (Z.to_nat len)) size m h c j len;
    Done (h, c, i64 (repl_backlog_histlen b - skip)).

(** [o]: NULL or an object. *)
Definition getLongLongFromObject (h : heap) (o : option positive) : outcome (option Z) :=
  match o with
  | None => Done (Some 0)
  | Some o =>
      obj ← lift (h !! o);
      match ptr obj with
      | Raw (Some p) =>
          c0 ← lift (mget (sh_buf p) 0);
          let '(value, eptr0, erange) := strtoll_erange (sh_buf p) in
          Done (if isspace c0 || negb (eptr0 =? ch_nul) || erange then None else Some value)
      | Raw None => Undef
      | Int n => Done (Some n)
      end
  end.

(** "value is not an integer or out of range" *)
Definition not_an_integer : list Z :=
  [118; 97; 108; 117; 101; 32; 105; 115; 32; 110; 111; 116; 32; 97; 110; 32; 105; 110; 116; 101; 103; 101; 114; 32;
   111; 114; 32; 111; 117; 116; 32; 111; 102; 32; 114; 97; 110; 103; 101].
Definition getLongLongFromObjectOrReply (h : heap) (c : client) (o : option positive) (msg : option (list Z))
    : outcome (heap * client * option Z) :=
  v ← getLongLongFromObject h o;
  match v with
  | Some v => Done (h, c, Some v)
  | None =>
      '(h, c) ← addReplyError junk E h c (default (not_an_integer ++ [ch_nul]) msg);
      Done (h, c, None)
  end.

Definition refreshGoodSlavesCount (s : server) : server :=
  if (repl_min_slaves_to_write K =? 0) || (repl_min_slaves_max_lag K =? 0) then s
  else
    let good := filter (λ p, replstate (who (conn p)) = REDIS_REPL_ONLINE ∧
                             unixtime E - repl_ack_time p ≤ repl_min_slaves_max_lag K) (slaves s) in
    Server (slaves s) (slaveseldb s) (stream s) (Z.of_nat (length good)).

(** "+CONTINUE" and "+FULLRESYNC <runid> <offset>". *)
Definition continue_text : list Z := [43; 67; 79; 78; 84; 73; 78; 85; 69] ++ crlf.
Definition fullresync_text (runid : list Z) (offset : Z) : list Z :=
  [43; 70; 85; 76; 76; 82; 69; 83; 89; 78; 67; 32] ++ runid ++ [32] ++ ll_text offset ++ crlf.

Definition need_full_resync (write_ok : bool) (h : heap) (s : server) (c : peer) : outcome (heap * server * option peer * bool * list Z) :=
  let psync_offset := master_repl_offset (stream s) in
  let psync_offset := if bool_decide (repl_backlog (stream s) = None) then i64 (psync_offset + 1) else psync_offset in
  if negb write_ok then Done (h, s, Some (Peer (freeClientAsync (conn c)) (repl_ack_time c)), true, [])
  else Done (h, s, Some c, false, fullresync_text (runid K) psync_offset).

(** The client when it did not become the last slave, whether the result is
    REDIS_OK, and what has been written to the socket directly. *)
Definition masterTryPartialResynchronization (write_ok : bool) (h : heap) (s : server) (c : peer) (arg_runid arg_offset : positive)
    : outcome (heap * server * option peer * bool * list Z) :=
  master_runid ← obj_sds h arg_runid;
  n ← lift (strlen (sh_buf master_runid));
  if negb (strcasecmp_eq (take (Z.to_nat n) (sh_buf master_runid)) (runid K)) then need_full_resync write_ok h s c
  else
    '(h, cc, psync_offset) ← getLongLongFromObjectOrReply h (conn c) (Some arg_offset) None;
    let c := Peer cc (repl_ack_time c) in
    match psync_offset with
    | None => need_full_resync write_ok h s c
    | Some psync_offset =>
        let b := stream s in
        if bool_decide (repl_backlog b = None) || (psync_offset <? repl_backlog_off b) ||
           (i64 (repl_backlog_off b + repl_backlog_histlen b) <? psync_offset) then need_full_resync write_ok h s c
        else
          let c := Peer (set_who (conn c) (as_slave (who (conn c)) REDIS_REPL_ONLINE)) (unixtime E) in
          if negb write_ok then
            let c := Peer (freeClientAsync (conn c)) (repl_ack_time c) in
            Done (h, Server (slaves s ++ [c]) (slaveseldb s) b (repl_good_slaves_count s), None, true, [])
          else
            '(h, cc, psync_len) ← addReplyReplicationBacklog h b (conn c) psync_offset;
            let s := Server (slaves s ++ [Peer cc (repl_ack_time c)]) (slaveseldb s) b (repl_good_slaves_count s) in
            Done (h, refreshGoodSlavesCount s, None, true, continue_text)
    end.
End replication.

(** ** The circular buffer *)

(** The last [n] bytes. *)
Definition lastn (n : Z) (l : list Z) : list Z := drop (length l - Z.to_nat n) l.

Lemma lastn_all n l : blen l ≤ n → lastn n l = l.
Proof. intros H. unfold lastn, blen in *. by replace (length l - Z.to_nat n)%nat with 0%nat by lia. Qed.

Lemma blen_lastn n l : 0 ≤ n → blen (lastn n l) = Z.min n (blen l).
Proof. intros H. unfold lastn, blen in *. rewrite length_drop. lia. Qed.

Lemma lastn_app n a b : n ≤ blen b → lastn n (a ++ b) = lastn n b.
Proof.
  intros H. unfold lastn, blen in *. rewrite length_app, drop_app_ge by lia. f_equal. lia.
Qed.

Lemma lastn_app_keep n a b : blen b ≤ n → lastn n (a ++ b) = lastn (n - blen b) a ++ b.
Proof.
  intros H. unfold lastn, blen in *. rewrite length_app, drop_app_le by lia. do 2 f_equal. lia.
Qed.

Lemma lastn_lastn n a b : 0 ≤ n → lastn n (lastn n a ++ b) = lastn n (a ++ b).
Proof.
  intros Hn. destruct (decide (n ≤ blen b)) as [H|H].
  - by rewrite !lastn_app.
  - rewrite !lastn_app_keep by lia. f_equal. unfold lastn, blen in *. rewrite length_drop, drop_drop. f_equal. lia.
Qed.

Lemma lastn_suffix n a : ∃ p, a = p ++ lastn n a.
Proof. exists (take (length a - Z.to_nat n) a). symmetry. apply take_drop. Qed.

(** The bytes of the buffer, the oldest first. *)
Definition rotation (m : list Z) (idx : Z) : list Z := drop (Z.to_nat idx) m ++ take (Z.to_nat idx) m.

Lemma rotation_split a b idx : idx = blen a → rotation (a ++ b) idx = b ++ a.
Proof. intros ->. unfold rotation. rewrite to_nat_blen, drop_app_length, take_app_length. done. Qed.

(** One turn of the loop, in a buffer with room for [t] behind the index. *)
Lemma ring_store a x c t idx :
  blen x = blen t → idx = blen a →
  ∃ m', mstore (a ++ x ++ c) idx t = Some m' ∧ blen m' = blen (a ++ x ++ c) ∧
    rotation m' (if idx + blen t =? blen m' then 0 else idx + blen t) = lastn (blen m') (rotation (a ++ x ++ c) idx ++ t).
Proof.
  intros Hx ->. exists (a ++ t ++ c). rewrite (mstore_app a x c) by (unfold blen in *; lia). split; [done|].
  assert (blen (a ++ t ++ c) = blen (a ++ x ++ c)) as Hl by (rewrite !blen_app; lia). split; [done|].
  rewrite (rotation_split a (x ++ c)) by done. rewrite <-!(assoc_L (++)).
  assert (lastn (blen (a ++ t ++ c)) (x ++ c ++ a ++ t) = c ++ a ++ t) as ->.
  { rewrite lastn_app; [apply lastn_all|]; rewrite !blen_app; lia. }
  rewrite !blen_app. destruct (Z.eqb_spec (blen a + blen t) (blen a + (blen t + blen c))) as [Hc|Hc].
  - assert (c = []) as -> by (destruct c; [done|rewrite blen_cons in Hc; pose proof (blen_nonneg c); lia]).
    unfold rotation. cbn [Z.to_nat drop take]. by rewrite !app_nil_r.
  - rewrite (assoc_L (++) a t c). rewrite (rotation_split (a ++ t)); [done|rewrite blen_app; lia].
Qed.

Definition OFFSET_MAX : Z := 2 ^ 62.

Lemma small_i64 z : - 2 ^ 62 - 2 ^ 62 ≤ z < 2 ^ 63 → i64 z = z.
Proof. intros. apply wraps_small; [lia|]. change (2 ^ (64 - 1)) with (2 ^ 63). lia. Qed.

Lemma feed_loop_spec fuel size : ∀ m idx histlen p rest,
  blen m = size → 0 ≤ idx < size → size ≤ OFFSET_MAX → 0 ≤ histlen → histlen + blen p < OFFSET_MAX → (Z.to_nat (blen p) < fuel)%nat →
  ∃ m' idx', feed_loop fuel size m idx histlen (p ++ rest) (blen p) = Done (m', idx', histlen + blen p) ∧
    blen m' = size ∧ 0 ≤ idx' < size ∧ rotation m' idx' = lastn size (rotation m idx ++ p).
Proof.
  induction fuel as [|fuel IH]; intros m idx histlen p rest Hm Hi Hs Hh Hp Hf; [lia|]. cbn [feed_loop].
  pose proof (blen_nonneg p). unfold OFFSET_MAX in *.
  destruct (Z.eqb_spec (blen p) 0) as [Hz|Hz].
  { assert (p = []) as -> by (destruct p; [done|rewrite blen_cons in Hz; pose proof (blen_nonneg p); lia]).
    exists m, idx. rewrite blen_nil, Z.add_0_r, app_nil_r. split; [done|]. split; [done|]. split; [done|].
    symmetry. apply lastn_all. unfold rotation, blen in *. rewrite length_app, length_drop, length_take. lia. }
  rewrite (wrapu_small 64 (size - idx)) by lia.
  set (n := if blen p <? size - idx then blen p else size - idx).
  assert (0 < n ≤ blen p ∧ n ≤ size - idx) as Hn by (subst n; destruct (Z.ltb_spec (blen p) (size - idx)); lia).
  clearbody n. destruct (split_at p n) as (t & p' & -> & Ht); [lia|]. rewrite blen_app in *.
  destruct (split_at m idx) as (a & y & -> & Ha); [lia|]. rewrite blen_app in Hm.
  destruct (split_at y n) as (x & c & -> & Hx); [lia|].
  rewrite <-(assoc_L (++)). replace (mload (t ++ p' ++ rest) 0 n) with (Some t) by (by rewrite <-Ht, mload_prefix).
  cbn [lift mbind outcome_bind].
  destruct (ring_store a x c t idx ltac:(lia) ltac:(lia)) as (m1 & -> & Hm1 & Hr1). cbn [lift mbind outcome_bind].
  rewrite (small_i64 (idx + n)), (small_i64 (histlen + n)) by lia.
  replace (drop (Z.to_nat n) (t ++ p' ++ rest)) with (p' ++ rest)
    by (rewrite <-Ht, to_nat_blen; by rewrite drop_app_length).
  replace (blen t + blen p' - n) with (blen p') by lia.
  assert (blen m1 = size) as Em by (rewrite Hm1, !blen_app in *; lia). rewrite Em, Ht in Hr1.
  destruct (IH m1 (if idx + n =? size then 0 else idx + n) (histlen + n) p' rest) as (m' & idx' & -> & Hm' & Hi' & Hr');
    [done|destruct (Z.eqb_spec (idx + n) size); lia|lia|lia|lia|lia|].
  exists m', idx'. split; [by replace (histlen + n + blen p') with (histlen + (blen t + blen p')) by lia|]. split; [done|]. split; [done|].
  rewrite Hr', Hr1, lastn_lastn by lia. by rewrite <-(assoc_L (++)).
Qed.

(** The backlog holds [hist], the last bytes of the stream. *)
Record holds (b : backlog) (hist : list Z) : Prop := Holds {
  h_buf : ∃ m, repl_backlog b = Some m ∧ blen m = repl_backlog_size b ∧
            ∃ old, rotation m (repl_backlog_idx b) = old ++ hist;
  h_idx : 0 ≤ repl_backlog_idx b < repl_backlog_size b;
  h_len : repl_backlog_histlen b = blen hist;
  h_off : repl_backlog_off b = master_repl_offset b - blen hist + 1;
  h_small : repl_backlog_size b < 2 ^ 31 - 1;
  h_pos : blen hist ≤ master_repl_offset b
}.

Lemma holds_length b hist : holds b hist → blen hist ≤ repl_backlog_size b.
Proof.
  intros [(m & _ & Hm & old & Hr) Hi _ _ _ _]. apply (f_equal blen) in Hr. rewrite blen_app in Hr.
  pose proof (blen_nonneg old). unfold rotation, blen in *. rewrite length_app, length_drop, length_take in Hr. lia.
Qed.

Lemma feedReplicationBacklog_spec b hist p rest :
  holds b hist → master_repl_offset b + blen p < OFFSET_MAX →
  ∃ b', feedReplicationBacklog b (p ++ rest) (blen p) = Done b' ∧
    holds b' (lastn (repl_backlog_size b) (hist ++ p)) ∧
    repl_backlog_size b' = repl_backlog_size b ∧ master_repl_offset b' = master_repl_offset b + blen p.
Proof.
  intros H Hp. pose proof (holds_length _ _ H) as Hhl. destruct H as [(m & Hm & Hbm & old & Hr) Hi Hl Ho Hs Hpos].
  pose proof (blen_nonneg p). pose proof (blen_nonneg hist). unfold feedReplicationBacklog. rewrite Hm. cbn [lift mbind outcome_bind].
  unfold OFFSET_MAX in *.
  destruct (feed_loop_spec (S (Z.to_nat (blen p))) (repl_backlog_size b) m (repl_backlog_idx b) (repl_backlog_histlen b) p rest)
    as (m' & idx' & -> & Hm' & Hi' & Hr'); [done|done|unfold OFFSET_MAX; lia|lia|unfold OFFSET_MAX; lia|lia|].
  cbn [mbind outcome_bind]. rewrite (small_i64 (master_repl_offset b + blen p)) by lia.
  set (hl := if _ <? _ then _ else _).
  assert (hl = Z.min (repl_backlog_size b) (blen (hist ++ p))) as Ehl
    by (subst hl; rewrite Hl, blen_app; destruct (Z.ltb_spec (repl_backlog_size b) (blen hist + blen p)); lia).
  clearbody hl. rewrite blen_app in Ehl. rewrite small_i64 by lia.
  eexists. split; [done|]. split; [|done].
  assert (blen (lastn (repl_backlog_size b) (hist ++ p)) = hl) as Hll by (rewrite blen_lastn, blen_app; lia).
  split; cbn [repl_backlog repl_backlog_size repl_backlog_idx repl_backlog_histlen repl_backlog_off master_repl_offset]; try lia.
  exists m'. split; [done|]. split; [done|]. rewrite Hr', Hr, <-(assoc_L (++)).
  destruct (decide (repl_backlog_size b ≤ blen (hist ++ p))) as [Hd|Hd].
  - rewrite lastn_app by done. by exists [].
  - rewrite (lastn_all _ (hist ++ p)) by lia. rewrite lastn_app_keep by lia. eauto.
Qed.

Section backlog.
Context (junk : nat → Z).

Lemma createReplicationBacklog_holds b :
  repl_backlog b = None → 0 < repl_backlog_size b < 2 ^ 31 - 1 → 0 ≤ master_repl_offset b < OFFSET_MAX →
  ∃ b', createReplicationBacklog junk b = Done b' ∧ holds b' [] ∧
    master_repl_offset b' = master_repl_offset b + 1 ∧ repl_backlog_size b' = repl_backlog_size b.
Proof.
  intros Hb Hs Ho. unfold createReplicationBacklog, OFFSET_MAX in *. rewrite Hb. cbv zeta.
  rewrite (small_i64 (master_repl_offset b + 1)) by lia. rewrite small_i64 by lia. eexists. split; [done|]. split; [|done].
  split; cbn [repl_backlog repl_backlog_size repl_backlog_idx repl_backlog_histlen repl_backlog_off master_repl_offset];
    rewrite ?blen_nil; try lia.
  eexists. split; [done|]. split; [unfold blen; rewrite mresize_length; lia|]. eexists. by rewrite app_nil_r.
Qed.

(** The new size of a resize. *)
Definition clamped (newsize : Z) : Z := Z.max newsize REDIS_REPL_BACKLOG_MIN_SIZE.

Lemma resizeReplicationBacklog_holds b hist newsize :
  holds b hist → clamped newsize < 2 ^ 31 - 1 → master_repl_offset b < OFFSET_MAX →
  let b' := resizeReplicationBacklog junk b newsize in
  holds b' (if repl_backlog_size b =? clamped newsize then hist else []) ∧
  repl_backlog_size b' = clamped newsize ∧ master_repl_offset b' = master_repl_offset b.
Proof.
  intros H Hn Ho. unfold resizeReplicationBacklog, clamped, OFFSET_MAX in *.
  assert ((if newsize <? REDIS_REPL_BACKLOG_MIN_SIZE then REDIS_REPL_BACKLOG_MIN_SIZE else newsize) =
    Z.max newsize REDIS_REPL_BACKLOG_MIN_SIZE) as -> by (destruct (Z.ltb_spec newsize REDIS_REPL_BACKLOG_MIN_SIZE); lia).
  set (n := Z.max _ _) in *. assert (0 < n) by (subst n; unfold REDIS_REPL_BACKLOG_MIN_SIZE; lia). clearbody n.
  cbv zeta. destruct (Z.eqb_spec (repl_backlog_size b) n); [done|].
  pose proof H as [(m & -> & _) _ _ _ _ Hpos]. pose proof (blen_nonneg hist). rewrite small_i64 by lia. split; [|done].
  split; cbn [repl_backlog repl_backlog_size repl_backlog_idx repl_backlog_histlen repl_backlog_off master_repl_offset];
    rewrite ?blen_nil; try lia.
  eexists. split; [done|]. split; [unfold blen; rewrite mresize_length; lia|]. eexists. by rewrite app_nil_r.
Qed.

(** ** Reading the backlog *)

Context (E : env) (ext : positive → Z) (view : positive → option obj_ptr).

Lemma backlog_loop_done fuel size m h c j : backlog_loop junk E fuel size m h c j 0 = Done (h, c).
Proof. by destruct fuel. Qed.

(** One piece of the buffer, and the rest from its start. *)
Lemma says_backlog_piece fuel size m j len t rest u :
  0 < len → blen t = Z.min len (size - j) → drop (Z.to_nat j) m = t ++ rest → 0 ≤ j < size → size < 2 ^ 31 - 1 → len ≤ size →
  says E ext view (λ h c, backlog_loop junk E fuel size m h c 0 (len - blen t)) u →
  says E ext view (λ h c, backlog_loop junk E (S fuel) size m h c j len) (t ++ u).
Proof.
  intros Hl Ht Hd Hj Hs Hls Hu.
  destruct (sdsnewlen_spec junk (Some (drop (Z.to_nat j) m)) t rest) as (s & Es & Rs & _); [by rewrite Hd|lia|].
  eapply says_ext; [by apply (says_seq E ext view _ _ t u (says_addReplySds junk E ext view s t Rs) Hu)|].
  intros h c. cbn [backlog_loop]. rewrite (proj2 (Z.eqb_neq _ _)) by lia.
  assert ((if size - j <? len then size - j else len) = blen t) as -> by (rewrite Ht; destruct (Z.ltb_spec (size - j) len); lia).
  rewrite (wrapu_small 64 (blen t)), Es by lia. cbn [lift mbind outcome_bind]. by rewrite small_i64 by lia.
Qed.

Lemma says_nothing fuel size m j : says E ext view (λ h c, backlog_loop junk E fuel size m h c j 0) [].
Proof.
  intros h c W S. rewrite backlog_loop_done. cbn [post].
  assert (visible E c [] = []) as -> by (unfold visible; by case_match). by apply replied_refl.
Qed.

Lemma says_backlog_end fuel size m j t rest :
  0 < blen t → drop (Z.to_nat j) m = t ++ rest → 0 ≤ j → j + blen t ≤ size → size < 2 ^ 31 - 1 →
  says E ext view (λ h c, backlog_loop junk E (S fuel) size m h c j (blen t)) t.
Proof.
  intros Ht Hd Hj Hs Hm.
  pose proof (says_backlog_piece fuel size m j (blen t) t rest []) as H. rewrite Z.sub_diag, app_nil_r in H.
  apply H; try done; try lia. apply says_nothing.
Qed.

(** The last [len] bytes of the rotation, whose first is at [j]. *)
Lemma says_backlog_loop fuel m idx j len :
  0 ≤ idx < blen m → blen m < 2 ^ 31 - 1 → 0 < len ≤ blen m →
  j = (if idx <? len then idx + blen m - len else idx - len) → (1 < fuel)%nat →
  says E ext view (λ h c, backlog_loop junk E fuel (blen m) m h c j len) (lastn len (rotation m idx)).
Proof.
  intros Hi Hm Hl Hj Hf. destruct fuel as [|[|fuel]]; [lia..|].
  destruct (split_at m idx) as (a & y & -> & Ha); [lia|]. rewrite rotation_split by done. rewrite blen_app in *.
  destruct (Z.ltb_spec idx len) as [Hlt|Hge].
  - (* Two pieces: the end of the buffer and its start. *)
    destruct (split_at y (blen y - (len - idx))) as (x & t & -> & Hx); [lia|]. rewrite blen_app in *.
    assert (lastn len ((x ++ t) ++ a) = t ++ a) as ->.
    { rewrite <-(assoc_L (++)), lastn_app by (rewrite blen_app; lia). apply lastn_all. rewrite blen_app. lia. }
    eapply (says_backlog_piece _ _ _ j len t [] a); try lia.
    + rewrite app_nil_r, (assoc_L (++)). replace (Z.to_nat j) with (length (a ++ x)) by (rewrite length_app; unfold blen in *; lia).
      apply drop_app_length.
    + replace (len - blen t) with (blen a) by lia. destruct (decide (blen a = 0)) as [Hz|Hz].
      * assert (a = []) as -> by (destruct a; [done|rewrite blen_cons in Hz; pose proof (blen_nonneg a); lia]).
        apply says_nothing.
      * pose proof (blen_nonneg a). eapply (says_backlog_end _ _ _ 0 a (x ++ t)); done || lia.
  - destruct (split_at a (blen a - len)) as (x & t & -> & Hx); [lia|]. rewrite blen_app in *.
    assert (lastn len (y ++ x ++ t) = t) as ->.
    { rewrite (assoc_L (++)), lastn_app by lia. apply lastn_all. lia. }
    pose proof (blen_nonneg y). replace len with (blen t) by lia. apply (says_backlog_end _ _ _ j t y); try lia.
    rewrite <-!(assoc_L (++)). replace (Z.to_nat j) with (length x) by (unfold blen in *; lia). apply drop_app_length.
Qed.

Lemma addReplyReplicationBacklog_spec b hist h c offset :
  holds b hist → master_repl_offset b < OFFSET_MAX →
  repl_backlog_off b ≤ offset ≤ repl_backlog_off b + blen hist →
  wf ext h c → seen ext view h →
  let skip := offset - repl_backlog_off b in
  post (addReplyReplicationBacklog junk E h b c offset)
    (λ '(h', c', n), replied E ext view h c (inl <$> visible E c (drop (Z.to_nat skip) hist)) h' c' ∧ n = blen hist - skip).
Proof.
  intros H Hmo Ho W Hsn skip. pose proof (holds_length _ _ H) as Hhl. pose proof (blen_nonneg hist).
  destruct H as [(m & Hm & Hbm & old & Hr) Hi Hl Hoff Hs Hpos]. unfold OFFSET_MAX in *.
  assert (0 ≤ skip ≤ blen hist) as Hsk by (subst skip; lia).
  unfold addReplyReplicationBacklog. rewrite Hl. destruct (Z.eqb_spec (blen hist) 0) as [Hz|Hz].
  { cbn [post]. assert (hist = []) as -> by (destruct hist; [done|rewrite blen_cons in Hz; pose proof (blen_nonneg hist); lia]).
    split; [|rewrite blen_nil in *; lia]. rewrite drop_nil.
    assert (visible E c [] = []) as -> by (unfold visible; by case_match). by apply replied_refl. }
  rewrite Hm. cbn [lift mbind outcome_bind]. fold skip. rewrite (small_i64 skip) by (subst skip; lia).
  rewrite (small_i64 (blen hist - skip)) by lia. rewrite (small_i64 (repl_backlog_size b - blen hist)) by lia.
  rewrite (small_i64 (repl_backlog_idx b + _)) by lia. set (size := repl_backlog_size b) in *. set (idx := repl_backlog_idx b) in *.
  rewrite (Z.rem_mod_nonneg (idx + (size - blen hist)) size) by lia.
  pose proof (Z.mod_pos_bound (idx + (size - blen hist)) size ltac:(lia)).
  rewrite small_i64, Z.rem_mod_nonneg by lia.
  rewrite Zplus_mod_idemp_l.
  assert (drop (Z.to_nat skip) hist = lastn (blen hist - skip) (rotation m idx)) as Et.
  { rewrite Hr, lastn_app by lia. unfold lastn, blen in *. f_equal. lia. }
  rewrite Et. destruct (decide (skip = blen hist)) as [Hs0|Hs0].
  { rewrite Hs0, Z.sub_diag, backlog_loop_done. cbn [mbind outcome_bind post]. split; [|done].
    assert (lastn 0 (rotation m idx) = []) as -> by (unfold lastn; rewrite Nat.sub_0_r; apply drop_all).
    assert (visible E c [] = []) as -> by (unfold visible; by case_match). by apply replied_refl. }
  assert ((idx + (size - blen hist) + skip) mod size = if idx <? blen hist - skip then idx + size - (blen hist - skip) else idx - (blen hist - skip)) as ->.
  { destruct (Z.ltb_spec idx (blen hist - skip)).
    - rewrite Z.mod_small by lia. lia.
    - symmetry. apply (Z.mod_unique _ _ 1); lia. }
  eapply (post_bind _ _ (λ '(h', c'), replied E ext view h c
    (inl <$> visible E c (lastn (blen hist - skip) (rotation m idx))) h' c')); [|by intros [h' c']].
  rewrite <-Hbm. apply says_backlog_loop; try done; try lia.
Qed.
End backlog.

(** ** The outputs of several clients *)

Definition held_all (l : list peer) (x : positive) : Z := foldr (λ p n, cnt (held (conn p)) x + n) 0 l.

(** The clients share the store; [ext]: the references of the rest of the server. *)
Record world (ext : positive → Z) (h : heap) (l : list peer) : Prop := World {
  w_refs : refs (λ x, ext x + held_all l x) h;
  w_ext : ∀ x, 0 ≤ ext x;
  w_each : ∀ p, p ∈ l → wf (λ x, ext x + held_all l x - cnt (held (conn p)) x) h (conn p) ∧ no_holes (queued h (conn p))
}.

Lemma held_all_app A B x : held_all (A ++ B) x = held_all A x + held_all B x.
Proof. induction A as [|p A IH]; cbn [app held_all foldr]; [done|]. unfold held_all in *. lia. Qed.
Lemma held_all_nonneg l x : 0 ≤ held_all l x.
Proof. induction l as [|p l IH]; [done|]. unfold held_all in *. cbn [foldr]. pose proof (cnt_nonneg (held (conn p)) x). lia. Qed.
Lemma held_all_elem p l x : p ∈ l → cnt (held (conn p)) x ≤ held_all l x.
Proof.
  intros (A & B & ->)%list_elem_of_split. rewrite held_all_app. cbn [held_all foldr]. fold (held_all B x).
  pose proof (held_all_nonneg A x). pose proof (held_all_nonneg B x). lia.
Qed.
Lemma held_all_mid A p B x : held_all (A ++ p :: B) x = held_all (A ++ B) x + cnt (held (conn p)) x.
Proof. rewrite !held_all_app. cbn [held_all foldr]. fold (held_all B x). lia. Qed.

Lemma no_null ext h c x : wf ext h c → no_holes (queued h c) → x ∈ held c → ptrs h x ≠ Some (Raw None).
Proof.
  intros W Hh Hx Hn. unfold held in Hx. apply elem_of_app in Hx as [Hx|Hx].
  - apply list_elem_of_fmap in Hx as ([n o] & -> & Hin). apply (Hh n). unfold queued. apply elem_of_app. right.
    apply list_elem_of_bind. exists (n, o). split; [|done]. unfold node_items. cbn [snd fst] in *. rewrite Hn. by left.
  - destruct (wf_reqs _ _ _ W x Hx) as (p & Hp & _). by rewrite Hn in Hp.
Qed.

Lemma wf_pointwise ext ext' h c : wf ext h c → (∀ x, ext' x = ext x) → wf ext' h c.
Proof.
  intros W He. apply (wf_change_ext ext ext' h h c W); try done.
  - eapply refs_ext; [apply W|]. intros x. cbv beta. by rewrite He.
  - intros x. rewrite He. apply W.
  - intros x _ _ Hx. by rewrite He.
Qed.

(** What has become of the output of a client. *)
Record extended (E : env) (h : heap) (p : peer) (t : list Z) (h' : heap) (p' : peer) : Prop := Extended {
  e_queued : queued h' (conn p') = queued h (conn p) ++ (inl <$> t);
  e_flying : flying h' (conn p') = flying h (conn p);
  e_who : who (conn p') = who (conn p);
  e_accepts : accepts E (conn p') = accepts E (conn p);
  e_ack : repl_ack_time p' = repl_ack_time p
}.

Lemma world_step ext h A p B h' c' E view t :
  world ext h (A ++ p :: B) →
  replied E (λ x, ext x + held_all (A ++ B) x) view h (conn p) (inl <$> t) h' c' →
  seen (λ x, ext x + held_all (A ++ B) x) view h →
  let p' := Peer c' (repl_ack_time p) in
  world ext h' (A ++ p' :: B) ∧ frame ext h h' ∧ extended E h p t h' p' ∧
  ∀ q, q ∈ A ++ B → extended E h q [] h' q.
Proof.
  intros Wd R Hs p'. destruct Wd as [Wr We Wa]. set (ext_i := λ x, ext x + held_all (A ++ B) x) in *.
  destruct R as [W' S' Hw Ha Hi Hf Hq].
  assert (∀ x, 0 < ext_i x → ptrs h' x = ptrs h x) as Hsame by (intros x Hx; by rewrite S', Hs).
  destruct (Wa p) as [_ Hh]; [set_solver|].
  assert (∀ x, ext x + held_all (A ++ p' :: B) x = ext_i x + cnt (held c') x) as HR
    by (intros x; rewrite held_all_mid; unfold ext_i; cbn [conn p']; lia).
  assert (refs (λ x, ext x + held_all (A ++ p' :: B) x) h') as Hrefs by (eapply refs_ext; [apply W'|done]).
  assert (∀ q, q ∈ A ++ B →
    wf (λ x, ext x + held_all (A ++ p' :: B) x - cnt (held (conn q)) x) h' (conn q) ∧
    queued h' (conn q) = queued h (conn q) ∧ flying h' (conn q) = flying h (conn q)) as Hothers.
  { intros q Hin. destruct (Wa q) as [Wq Hhq]; [set_solver|].
    assert (∀ x, cnt (held (conn q)) x ≤ held_all (A ++ B) x) as Hle by (intros; by apply held_all_elem).
    apply (wf_change_ext _ _ h h' (conn q) Wq).
    - eapply refs_ext; [exact Hrefs|]. intros x. cbv beta. lia.
    - intros x. specialize (Hle x). rewrite held_all_mid. cbn [conn p']. pose proof (cnt_nonneg (held c') x). specialize (We x). lia.
    - intros x Hx. apply Hsame. unfold ext_i. specialize (Hle x). specialize (We x). pose proof (cnt_pos _ _ Hx). lia.
    - intros x Hx Hn. by destruct (no_null _ _ _ _ Wq Hhq Hx). }
  split; [|split; [|split]].
  - split; [exact Hrefs|done|]. intros q Hin.
    assert (q = p' ∨ q ∈ A ++ B) as [->|Hin'] by set_solver.
    + split.
      * eapply wf_pointwise; [exact W'|]. intros x. cbv beta. rewrite HR. cbn [conn p']. lia.
      * cbn [conn p']. rewrite Hq. intros ln [Hln|Hln]%elem_of_app; [by apply (Hh ln)|by apply no_hole_bytes in Hln].
    + destruct (Hothers q Hin') as (W & Eq & _). split; [exact W|]. rewrite Eq. apply Wa. set_solver.
  - intros x Hx. apply Hsame. unfold ext_i. pose proof (held_all_nonneg (A ++ B) x). lia.
  - split; done.
  - intros q Hin. destruct (Hothers q Hin) as (_ & Eq & Ef). split; try done. by rewrite Eq, app_nil_r.
Qed.

Lemma extended_refl E h p : extended E h p [] h p.
Proof. split; try done. by rewrite app_nil_r. Qed.

Lemma extended_trans E h1 p1 t1 h2 p2 t2 h3 p3 :
  extended E h1 p1 t1 h2 p2 → extended E h2 p2 t2 h3 p3 → extended E h1 p1 (t1 ++ t2) h3 p3.
Proof.
  intros [Q1 F1 W1 A1 K1] [Q2 F2 W2 A2 K2]. split; try congruence. by rewrite Q2, Q1, fmap_app, <-(assoc_L (++)).
Qed.

(** A function that adds the text [T c] to a client, whatever else holds references. *)
Definition tells (E : env) (ext : positive → Z) (view : positive → option obj_ptr)
    (f : heap → client → outcome (heap * client)) (T : client → list Z) : Prop :=
  ∀ ext' view' h c, (∀ x, ext x ≤ ext' x) → (∀ x, 0 < ext x → view' x = view x) → wf ext' h c → seen ext' view' h →
    post (f h c) (λ '(h', c'), replied E ext' view' h c (inl <$> T c) h' c').

Lemma for_slaves_spec E ext view f T : tells E ext view f T → ∀ l A h,
  world ext h (A ++ l) → seen ext view h →
  post (for_slaves f h l) (λ '(h', l'), world ext h' (A ++ l') ∧ seen ext view h' ∧
    (∀ q, q ∈ A → extended E h q [] h' q) ∧ Forall2 (λ p p', extended E h p (T (conn p)) h' p') l l').
Proof.
  intros Hf. induction l as [|p l IH]; intros A h Wd S; cbn [for_slaves].
  - cbn [post]. split; [done|]. split; [done|]. split; [intros; apply extended_refl|constructor].
  - pose proof (w_each _ _ _ Wd p ltac:(set_solver)) as [Wp Hh].
    set (ext_i := λ x, ext x + held_all (A ++ l) x).
    assert (wf ext_i h (conn p)) as Wi by (eapply wf_pointwise; [exact Wp|]; intros x; unfold ext_i; rewrite held_all_mid; lia).
    assert (seen ext_i (ptrs h) h) as Si by done.
    eapply post_bind; [apply (Hf ext_i (ptrs h) h (conn p)); try done|].
    { intros x. unfold ext_i. pose proof (held_all_nonneg (A ++ l) x). lia. }
    intros [h1 c1] R. destruct (world_step ext h A p l h1 c1 E (ptrs h) (T (conn p)) Wd R Si) as (Wd1 & F1 & X1 & O1).
    cbv beta iota. eapply post_bind.
    { apply (IH (A ++ [Peer c1 (repl_ack_time p)]) h1); [by rewrite <-(assoc_L (++))|].
      intros x Hx. rewrite F1 by done. by apply S. }
    intros [h2 l2] (Wd2 & S2 & O2 & F2). cbn [post]. rewrite <-(assoc_L (++)) in Wd2. split; [exact Wd2|]. split; [done|].
    assert (∀ q t h0 q0, extended E h q t h1 q0 → extended E h1 q0 [] h0 q0 → extended E h q t h0 q0) as Htr.
    { intros q t h0 q0 X Y. rewrite <-(app_nil_r t). by eapply extended_trans. }
    split.
    + intros q Hin. eapply Htr; [apply O1; set_solver|apply O2; set_solver].
    + constructor; [eapply Htr; [exact X1|apply O2; set_solver]|].
      assert (∀ q, q ∈ l → extended E h q [] h1 q) as Hl by (intros; apply O1; set_solver).
      clear -F2 Hl. induction F2 as [|q q2 l l2 X F2 IHF]; constructor.
      * pose proof (Hl q ltac:(set_solver)) as Y. replace (T (conn q)) with ([] ++ T (conn q)) by done.
        by eapply extended_trans.
      * apply IHF. intros. apply Hl. set_solver.
Qed.

(** ** Feeding the backlog *)

(** The backlog follows the stream: [past] and then [cur], the bytes since the
    buffer was last made, of which it holds the last ones. *)
Definition follows (base : Z) (past cur : list Z) (b : backlog) : Prop :=
  holds b (lastn (repl_backlog_size b) cur) ∧ master_repl_offset b = base + blen (past ++ cur).

(** The function feeds the text [p] to any backlog. *)
Definition feeds (f : backlog → outcome backlog) (p : list Z) : Prop :=
  ∀ base past cur b, follows base past cur b → master_repl_offset b + blen p < OFFSET_MAX →
    ∃ b', f b = Done b' ∧ follows base past (cur ++ p) b' ∧ repl_backlog_size b' = repl_backlog_size b.

Lemma feeds_bytes p rest n : n = blen p → feeds (λ b, feedReplicationBacklog b (p ++ rest) n) p.
Proof.
  intros -> base past cur b [H Ho] Hp. destruct (feedReplicationBacklog_spec b _ p rest H Hp) as (b' & -> & H' & Hs & Ho').
  exists b'. split; [done|]. split; [|done]. split.
  - rewrite Hs, <-(lastn_lastn _ cur p); [done|]. pose proof (h_idx _ _ H). lia.
  - rewrite Ho', Ho, !blen_app. lia.
Qed.

Lemma feeds_seq f g p q : feeds f p → feeds g q → feeds (λ b, b ← f b; g b) (p ++ q).
Proof.
  intros Hf Hg base past cur b H Hp. rewrite blen_app in Hp. pose proof (blen_nonneg q) as Hq0. pose proof (blen_nonneg p) as Hp0.
  destruct (Hf base past cur b H ltac:(lia)) as (b1 & E1 & H1 & S1).
  destruct (Hg base past (cur ++ p) b1 H1) as (b2 & E2 & H2 & S2).
  { destruct H as [_ H], H1 as [_ H1]. rewrite (assoc_L (++)), (blen_app _ p) in H1. lia. }
  exists b2. rewrite E1. cbn [mbind outcome_bind]. split; [done|]. split; [by rewrite (assoc_L (++))|congruence].
Qed.

Lemma feeds_ext f g p : feeds f p → (∀ b, g b = f b) → feeds g p.
Proof. intros H E base past cur b. rewrite E. apply H. Qed.

Lemma feeds_nothing : feeds Done [].
Proof. intros base past cur b H _. exists b. rewrite app_nil_r. done. Qed.

Lemma follows_feeds base past cur b : follows base past cur b → repl_backlog b ≠ None.
Proof. intros [[(m & -> & _) _ _ _ _ _] _]. done. Qed.

Lemma feeds_object h o t : otext (ptrs h o) t → feeds (λ b, feedReplicationBacklogWithObject b h o) t.
Proof.
  intros Ht. unfold feedReplicationBacklogWithObject. unfold ptrs in Ht. destruct (h !! o) as [[rc p]|]; [|done].
  cbn in Ht. cbn [lift mbind outcome_bind ptr]. destruct p as [[p|]|n]; [|done|].
  - pose proof Ht as (tl & Eb & _). destruct (rep_bounds _ _ Ht) as (_ & -> & _). rewrite Eb. by apply feeds_bytes.
  - destruct Ht as [Hn ->]. destruct (ll_text_bounds n Hn) as (Hi & _). rewrite ll2string_whole by done. by apply feeds_bytes.
Qed.

Lemma stringObjectLen_text h o t : otext (ptrs h o) t → stringObjectLen h o = Done (blen t) ∧ blen t < 2 ^ 31 - 1.
Proof.
  unfold ptrs, stringObjectLen. destruct (h !! o) as [[rc p]|]; [|done]. cbn [fmap option_fmap option_map lift mbind outcome_bind ptr].
  destruct p as [[p|]|n]; [|done|].
  - intros Ht. destruct (rep_bounds _ _ Ht) as (? & -> & _). done || (split; [done|lia]).
  - intros [Hn ->]. destruct (ll_text_bounds n Hn) as (Hi & Hl & _). rewrite ll2string_whole by (done || lia). split; [done|lia].
Qed.

Lemma aux_line_spec junk prefix n :
  in_i64 n → ∃ rest, aux_line junk prefix n = Done (line prefix n ++ rest, blen (ll_text n)).
Proof.
  intros Hn. unfold aux_line. set (m := mresize junk [] _).
  assert (blen m = 24) as Hm by (unfold m, blen; rewrite mresize_length; done). clearbody m.
  pose proof (ll_text_length n Hn) as Hl. rewrite (ll2string_whole _ n Hn) by done. pose proof (blen_nonneg (ll_text n)).
  assert (blen (ll_text n) ≤ 20) as Hl' by (unfold blen; lia).
  destruct m as [|x m]; [done|]. rewrite blen_cons in Hm.
  destruct (split_at m (blen (ll_text n))) as (a & m1 & -> & Ha); [lia|]. rewrite blen_app in Hm.
  destruct m1 as [|y [|z m2]]; [rewrite blen_nil in Hm; lia|rewrite blen_cons, blen_nil in Hm; lia|].
  cbn zeta. rewrite (mset_app [] x (a ++ y :: z :: m2) 0 prefix eq_refl : mset (x :: _) 0 prefix = Some (prefix :: _)). cbn [lift mbind outcome_bind app].
  pose proof (mstore_app [prefix] (a ++ [y]) (z :: m2) 1 (ll_text n ++ [ch_nul]) eq_refl) as Hst.
  cbn [app] in Hst. rewrite <-!(assoc_L (++)) in Hst. cbn [app] in Hst. rewrite Hst by (rewrite !length_app; unfold blen in Ha; cbn [length]; lia).
  cbn [lift mbind outcome_bind].
  change (prefix :: ll_text n ++ ch_nul :: z :: m2) with ((prefix :: ll_text n) ++ ch_nul :: z :: m2).
  rewrite (mset_app (prefix :: ll_text n) ch_nul) by (rewrite blen_cons; lia). cbn [lift mbind outcome_bind].
  replace ((prefix :: ll_text n) ++ ch_cr :: z :: m2) with ((prefix :: ll_text n ++ [ch_cr]) ++ z :: m2) by (cbn [app]; by rewrite <-(assoc_L (++))).
  rewrite mset_app by (rewrite blen_cons, blen_app, blen_cons, blen_nil; lia). cbn [lift mbind outcome_bind].
  exists m2. do 2 f_equal. unfold line, crlf. cbn [app]. by rewrite <-!(assoc_L (++)).
Qed.

Lemma line_blen prefix n : blen (line prefix n) = blen (ll_text n) + 3.
Proof. unfold line. rewrite blen_cons, blen_app. change (blen crlf) with 2. lia. Qed.

Lemma feeds_feed_arg junk h o t : otext (ptrs h o) t → feeds (λ b, feed_arg junk h b o) (bulk t).
Proof.
  intros Ht. destruct (stringObjectLen_text h o t Ht) as [El Hl]. pose proof (blen_nonneg t).
  destruct (aux_line_spec junk ch_dollar (blen t)) as [rest Ea]; [unlimit; lia|].
  unfold feed_arg. rewrite El. cbn [mbind outcome_bind]. rewrite wraps_small by (change (2 ^ (32 - 1)) with (2 ^ 31); lia).
  rewrite Ea. cbn [mbind outcome_bind]. unfold bulk.
  apply feeds_seq; [apply feeds_bytes; by rewrite line_blen|]. apply feeds_seq; [by apply feeds_object|].
  assert (drop (Z.to_nat (blen (ll_text (blen t)) + 1)) (line ch_dollar (blen t) ++ rest) = crlf ++ rest) as ->; [|by apply feeds_bytes].
  unfold line. change (ch_dollar :: ll_text (blen t) ++ crlf) with ((ch_dollar :: ll_text (blen t)) ++ crlf). rewrite <-(assoc_L (++)).
  replace (Z.to_nat (blen (ll_text (blen t)) + 1)) with (length (ch_dollar :: ll_text (blen t))) by (cbn [length]; unfold blen; lia).
  apply drop_app_length.
Qed.

Lemma feeds_feed_args junk h argv ts :
  Forall2 (λ o t, otext (ptrs h o) t) argv ts → feeds (λ b, feed_args junk h b argv) (bulks ts).
Proof.
  induction 1 as [|o t argv ts Ht _ IH]; [apply feeds_nothing|]. cbn [feed_args].
  change (bulks (t :: ts)) with (bulk t ++ bulks ts). apply feeds_seq; [by apply feeds_feed_arg|exact IH].
Qed.

(** The whole request. *)
Lemma feeds_request junk h argv ts :
  Forall2 (λ o t, otext (ptrs h o) t) argv ts → Z.of_nat (length argv) < 2 ^ 31 →
  feeds (λ b, '(aux, len) ← aux_line junk ch_star (Z.of_nat (length argv));
              b ← feedReplicationBacklog b aux (len + 3);
              feed_args junk h b argv) (request ts).
Proof.
  intros Ht Hn. destruct (aux_line_spec junk ch_star (Z.of_nat (length argv))) as [rest Ea]; [unlimit; lia|].
  rewrite Ea. cbn [mbind outcome_bind]. unfold request. rewrite <-(Forall2_length _ _ _ Ht).
  apply feeds_seq; [apply feeds_bytes; by rewrite line_blen|by apply feeds_feed_args].
Qed.

(** ** Telling the slaves *)

(** A change of the references of the rest of the server. *)
Lemma world_change E ext ext' h h' l :
  world ext h l → refs (λ x, ext' x + held_all l x) h' → (∀ x, 0 ≤ ext' x) →
  (∀ x, 0 < held_all l x → ptrs h' x = ptrs h x) →
  world ext' h' l ∧ ∀ q, q ∈ l → extended E h q [] h' q.
Proof.
  intros [Wr We Wa] Hr He Hp.
  assert (∀ q, q ∈ l → wf (λ x, ext' x + held_all l x - cnt (held (conn q)) x) h' (conn q) ∧
    queued h' (conn q) = queued h (conn q) ∧ flying h' (conn q) = flying h (conn q)) as H.
  { intros q Hin. destruct (Wa q Hin) as [Wq Hh]. assert (∀ x, cnt (held (conn q)) x ≤ held_all l x) as Hle by (intros; by apply held_all_elem).
    apply (wf_change_ext _ _ h h' (conn q) Wq).
    - eapply refs_ext; [exact Hr|]. intros x. cbv beta. lia.
    - intros x. specialize (Hle x). specialize (He x). lia.
    - intros x Hx. apply Hp. pose proof (cnt_pos _ _ Hx). specialize (Hle x). lia.
    - intros x Hx Hn. by destruct (no_null _ _ _ _ Wq Hh Hx). }
  split.
  - split; [done|done|]. intros q Hin. destruct (H q Hin) as (W & Eq & _). split; [exact W|]. rewrite Eq. by apply Wa.
  - intros q Hin. destruct (H q Hin) as (_ & Eq & Ef). split; try done. by rewrite Eq, app_nil_r.
Qed.

Lemma world_created E ext h l p h1 d :
  world ext h l → createObject h p = (h1, d) →
  world (own ext d) h1 l ∧ ptrs h1 d = Some p ∧ frame ext h h1 ∧ ∀ q, q ∈ l → extended E h q [] h1 q.
Proof.
  intros W Ec. destruct (refs_create _ _ _ _ _ (w_refs _ _ _ W) Ec) as (Hd & Hr1 & Hp1 & Hs1).
  pose proof (w_ext _ _ _ W) as He.
  destruct (world_change E ext (own ext d) h h1 l W) as [W1 X1].
  - eapply refs_ext; [exact Hr1|]. intros x. unfold own. cbv beta. lia.
  - intros x. unfold own. specialize (He x). pose proof (one_range d x). lia.
  - intros x Hx. apply Hs1. intros ->. specialize (He d). lia.
  - split; [done|]. split; [done|]. split; [|done]. intros x Hx. apply Hs1. intros ->. pose proof (held_all_nonneg l d). lia.
Qed.

Lemma world_released E ext h l d :
  (∀ x, 0 ≤ ext x) → world (own ext d) h l →
  ∃ h1, decrRefCount h d = Done h1 ∧ world ext h1 l ∧ frame ext h h1 ∧ ∀ q, q ∈ l → extended E h q [] h1 q.
Proof.
  intros He W. destruct (refs_decr _ h d (w_refs _ _ _ W)) as (h1 & Ed & Hr & Hs).
  { unfold own. rewrite one_same. specialize (He d). pose proof (held_all_nonneg l d). lia. }
  exists h1. split; [done|].
  destruct (world_change E (own ext d) ext h h1 l W) as [W1 X1]; [|done| |].
  - eapply refs_ext; [exact Hr|]. intros x. unfold own. cbv beta. lia.
  - intros x Hx. apply Hs. unfold own. specialize (He x). lia.
  - split; [done|]. split; [|done]. intros x Hx. apply Hs. unfold own. pose proof (held_all_nonneg l x). lia.
Qed.

Lemma extended_left E h p h1 t h2 p2 : extended E h p [] h1 p → extended E h1 p t h2 p2 → extended E h p t h2 p2.
Proof. intros X Y. by pose proof (extended_trans E _ _ _ _ _ _ _ _ X Y). Qed.
Lemma extended_right E h p t h1 p1 h2 : extended E h p t h1 p1 → extended E h1 p1 [] h2 p1 → extended E h p t h2 p1.
Proof. intros X Y. pose proof (extended_trans E _ _ _ _ _ _ _ _ X Y) as H. by rewrite app_nil_r in H. Qed.

(** What the rest of the server holds may grow. *)
Definition grows (ext : positive → Z) (view : positive → option obj_ptr) (ext' : positive → Z) (view' : positive → option obj_ptr) : Prop :=
  (∀ x, ext x ≤ ext' x) ∧ ∀ x, 0 < ext x → view' x = view x.

Lemma grows_object ext view ext' view' o t :
  grows ext view ext' view' → 0 < ext o ∧ otext (view o) t → 0 < ext' o ∧ otext (view' o) t.
Proof. intros [He Hv] [Ho Ht]. rewrite Hv by done. specialize (He o). split; [lia|done]. Qed.

Lemma grows_shared E ext view ext' view' : grows ext view ext' view' → shared_ok E ext view → shared_ok E ext' view'.
Proof.
  intros G []. assert (∀ o t, 0 < ext o ∧ otext (view o) t → 0 < ext' o ∧ otext (view' o) t) as H by (intros; by eapply grows_object).
  split; try (by apply H).
  - intros n Hn. destruct (ok_mbulkhdr n Hn) as (o & Ho & Hot). exists o. split; [done|]. by apply H.
  - intros n Hn. destruct (ok_bulkhdr n Hn) as (o & Ho & Hot). exists o. split; [done|]. by apply H.
Qed.

Lemma tells_says E ext view f t :
  (∀ ext' view', grows ext view ext' view' → says E ext' view' f t) → tells E ext view f (λ c, visible E c t).
Proof. intros H ext' view' h c He Hv W S. by apply H. Qed.

(** An argument: the rest of the server holds it and its text is [t]. *)
Definition argument (ext : positive → Z) (view : positive → option obj_ptr) (o : positive) (t : list Z) : Prop :=
  0 < ext o ∧ otext (view o) t.

Lemma tells_addReply junk E ext view o t :
  argument ext view o t → tells E ext view (λ h c, addReply junk E h c o) (λ c, visible E c t).
Proof. intros H. apply tells_says. intros ext' view' G. destruct (grows_object _ _ _ _ o t G H). by apply says_addReply. Qed.

Lemma says_reply_args junk E ext view argv ts :
  shared_ok E ext view → Forall2 (argument ext view) argv ts → says E ext view (reply_args junk E argv) (bulks ts).
Proof.
  intros SH. induction 1 as [|o t argv ts [Ho Ht] _ IH]; cbn [reply_args].
  - intros h c W S. cbn [post]. assert (visible E c (bulks []) = []) as -> by (unfold visible; by case_match). by apply replied_refl.
  - change (bulks (t :: ts)) with (bulk t ++ bulks ts). by apply says_seq; [apply says_addReplyBulk|].
Qed.

(** What a slave is sent of a command. *)
Definition fed (E : env) (t : list Z) (c : client) : list Z :=
  if replstate (who c) =? REDIS_REPL_WAIT_BGSAVE_START then [] else visible E c t.

Lemma tells_reply_command junk E ext view argv ts :
  shared_ok E ext view → Forall2 (argument ext view) argv ts → Z.of_nat (length argv) < 2 ^ 31 →
  tells E ext view (reply_command junk E argv) (fed E (request ts)).
Proof.
  intros SH Ha Hn ext' view' h c He Hv W S. assert (grows ext view ext' view') as G by done. unfold reply_command, fed.
  destruct (replstate (who c) =? REDIS_REPL_WAIT_BGSAVE_START); [by apply replied_refl|].
  assert (Forall2 (argument ext' view') argv ts) as Ha' by (eapply Forall2_impl; [exact Ha|]; intros; by eapply grows_object).
  unfold request. rewrite <-(Forall2_length _ _ _ Ha).
  pose proof (grows_shared _ _ _ _ _ G SH) as SH'.
  apply (says_seq E ext' view' (λ h c, addReplyMultiBulkLen junk E h c (Z.of_nat (length argv))) (reply_args junk E argv)); [|by apply says_reply_args|done|done].
  apply says_addReplyMultiBulkLen; [done|]. unlimit. lia.
Qed.

Section feeding.
Context (junk : nat → Z) (E : env) (K : config) (ext : positive → Z) (view : positive → option obj_ptr).

Definition select_name : list Z := [83; 69; 76; 69; 67; 84].
Definition select_request (dictid : Z) : list Z := request [select_name; ll_text dictid].

(** The shared SELECT objects. *)
Definition selects_ok : Prop :=
  ∀ n, 0 ≤ n < REDIS_SHARED_SELECT_CMDS → ∃ o, shared_select K !! Z.to_nat n = Some o ∧ argument ext view o (select_request n).

Lemma select_text_request n : select_text (blen (ll_text n)) (ll_text n) = select_request n.
Proof.
  unfold select_text, select_head, select_request, request, bulks. cbn [fmap list_fmap concat length].
  rewrite app_nil_r, <-(assoc_L (++)). do 2 f_equal.
Qed.

Lemma select_request_bounds n : in_i64 n → ch_nul ∉ select_request n ∧ blen (select_request n) < 100.
Proof.
  intros Hn. pose proof (ll_text_length n Hn) as Hl. pose proof (ll_text_no_nul n Hn) as Hnn.
  assert (in_i64 (blen (ll_text n))) as Hi by (unlimit; unfold blen; lia).
  pose proof (line_no_nul ch_dollar (blen (ll_text n)) Hi ltac:(done)) as Hd. pose proof (line_length ch_dollar _ Hi).
  rewrite <-select_text_request. unfold select_text. split.
  - assert (ch_nul ∉ select_head) as Hh by (apply (bool_decide_unpack _); by vm_compute).
    assert (ch_nul ∉ crlf) as Hc by (apply (bool_decide_unpack _); by vm_compute).
    intros [?|[?|[?|?]%elem_of_app]%elem_of_app]%elem_of_app; done.
  - rewrite !blen_app. change (blen crlf) with 2. assert (blen select_head = 16) as -> by (by vm_compute). unfold blen in *. lia.
Qed.

(** The SELECT object is shared, or made for the call. *)
Lemma select_object_spec h l dictid :
  selects_ok → - 2 ^ 31 ≤ dictid < 2 ^ 31 → world ext h l → seen ext view h →
  ∃ h1 o (b : bool), select_object junk K h dictid = Done (h1, o, b) ∧
    world (if b then own ext o else ext) h1 l ∧ seen ext view h1 ∧
    argument (if b then own ext o else ext) (ptrs h1) o (select_request dictid) ∧
    ∀ q, q ∈ l → extended E h q [] h1 q.
Proof.
  intros Hsel Hd Wd Sn. unfold select_object. destruct (_ && _) eqn:Ec.
  - apply andb_true_iff in Ec as [H1%Z.leb_le H2%Z.ltb_lt]. destruct (Hsel dictid) as (o & Eo & Ho & Ht); [lia|].
    exists h, o, false. unfold at_index. rewrite (proj2 (Z.ltb_ge _ _)), Eo by lia. split; [done|]. split; [done|]. split; [done|].
    split; [|intros; apply extended_refl]. split; [done|]. by rewrite Sn.
  - assert (in_i64 dictid) as Hi by (unlimit; lia). rewrite ll2string_whole by done.
    rewrite strlen_text by (by apply ll_text_no_nul). cbn [lift mbind outcome_bind].
    rewrite to_nat_blen, take_app_length, select_text_request.
    destruct (sdsempty_spec junk) as (p & -> & Rp). cbn [lift mbind outcome_bind].
    destruct (select_request_bounds dictid Hi) as [Hnn Hlen].
    destruct (sdscat_text junk p [] (select_request dictid) Rp) as (p1 & -> & Rp1); [done|rewrite blen_nil; unfold max_len; lia|].
    cbn [lift mbind outcome_bind]. destruct (createObject h (Raw (Some p1))) as [h1 d] eqn:Eo.
    destruct (world_created E _ _ _ _ _ _ Wd Eo) as (W1 & Hp1 & F1 & X1).
    exists h1, d, true. split; [done|]. split; [done|]. split; [intros x Hx; rewrite F1 by done; by apply Sn|].
    split; [|done]. split; [|by rewrite Hp1]. unfold own. rewrite one_same. pose proof (w_ext _ _ _ Wd d). lia.
Qed.

(** The state of the server between two commands. *)
Record serving (base : Z) (past cur : list Z) (h : heap) (s : server) : Prop := Serving {
  s_world : world ext h (slaves s);
  s_seen : seen ext view h;
  s_follows : follows base past cur (stream s)
}.

(** The stream has grown by [t] and the output of each slave by [T] of it. *)
Record fed_to (base : Z) (past cur : list Z) (h : heap) (s : server) (t : list Z) (T : client → list Z) (h' : heap) (s' : server) : Prop := FedTo {
  f_serving : serving base past (cur ++ t) h' s';
  f_slaves : Forall2 (λ p p', extended E h p (T (conn p)) h' p') (slaves s) (slaves s');
  f_size : repl_backlog_size (stream s') = repl_backlog_size (stream s)
}.

Lemma extended_all_left h h1 l T h2 l2 :
  (∀ q, q ∈ l → extended E h q [] h1 q) → Forall2 (λ p p', extended E h1 p (T (conn p)) h2 p') l l2 →
  Forall2 (λ p p', extended E h p (T (conn p)) h2 p') l l2.
Proof.
  intros Hl. induction 1 as [|q q2 l l2 X F IH]; constructor.
  - eapply extended_left; [apply Hl; set_solver|done].
  - apply IH. intros. apply Hl. set_solver.
Qed.
Lemma extended_all_right h l T h1 l1 h2 :
  Forall2 (λ p p', extended E h p (T (conn p)) h1 p') l l1 → (∀ q, q ∈ l1 → extended E h1 q [] h2 q) →
  Forall2 (λ p p', extended E h p (T (conn p)) h2 p') l l1.
Proof.
  induction 1 as [|q q1 l l1 X F IH]; intros Hl; constructor.
  - eapply extended_right; [done|apply Hl; set_solver].
  - apply IH. intros. apply Hl. set_solver.
Qed.

Lemma feed_select_spec base past cur h s dictid :
  selects_ok → - 2 ^ 31 ≤ dictid < 2 ^ 31 → serving base past cur h s →
  master_repl_offset (stream s) + 100 < OFFSET_MAX →
  post (feed_select junk E K h s dictid) (λ '(h', s'),
    fed_to base past cur h s (select_request dictid) (λ c, visible E c (select_request dictid)) h' s').
Proof.
  intros Hsel Hd [Wd Sn Fo] Hm. pose proof (w_ext _ _ _ Wd) as He. unfold feed_select.
  destruct (select_object_spec h (slaves s) dictid Hsel Hd Wd Sn) as (h1 & o & b & -> & W1 & S1 & Ao & X1).
  cbn [mbind outcome_bind]. destruct (select_request_bounds dictid) as [_ Hlen]; [unlimit; lia|].
  destruct (feeds_object h1 o _ (proj2 Ao) base past cur (stream s) Fo) as (b1 & Eb & Fo1 & Sz); [lia|].
  destruct (repl_backlog (stream s)) eqn:Er; [|by destruct (follows_feeds _ _ _ _ Fo)]. rewrite Eb. cbn [mbind outcome_bind].
  eapply post_bind; [apply (for_slaves_spec E _ (ptrs h1) _ _ (tells_addReply junk E _ _ o _ Ao) (slaves s) [] h1); done|].
  intros [h2 l2] (W2 & S2 & _ & F2). cbn [app] in W2. apply (extended_all_left h h1 _ (λ c, visible E c (select_request dictid))) in F2; [|done].
  assert (seen ext view h2) as S2'.
  { intros x Hx. rewrite S2; [by apply S1|]. destruct b; [|done]. unfold own. pose proof (one_range o x). lia. }
  destruct b; cbn [mbind outcome_bind].
  - destruct (world_released E ext h2 l2 o He W2) as (h3 & -> & W3 & F3 & X3). cbn [mbind outcome_bind post].
    split; [split; [done| |done]| |done].
    + intros x Hx. rewrite F3 by done. by apply S2'.
    + by apply (extended_all_right h _ (λ c, visible E c (select_request dictid)) h2).
  - cbn [post]. by split.
Qed.
End feeding.

(** ** Offsets in requests *)

Lemma getLongLongFromObject_text h o v :
  in_i64 v → otext (ptrs h o) (ll_text v) → getLongLongFromObject h (Some o) = Done (Some v).
Proof.
  intros Hv. unfold ptrs, getLongLongFromObject. destruct (h !! o) as [[rc p]|]; [|done]. cbn [fmap option_fmap option_map lift mbind outcome_bind ptr].
  destruct p as [[p|]|n]; [|done|].
  - intros (tl & -> & _). rewrite strtoll_erange_text by done.
    destruct (ll_text_shape v Hv) as (d & ds & -> & Hd & _). apply Forall_cons in Hd as [Hd _].
    set (c := if v <? 0 then ch_minus else d).
    assert (mget (((if v <? 0 then [ch_minus] else []) ++ d :: ds) ++ 0 :: tl) 0 = Some c) as -> by (subst c; by destruct (v <? 0)). cbn [lift mbind outcome_bind].
    assert (isspace c = false) as ->; [|done].
    subst c. destruct (v <? 0); [done|]. unfold is_dig, isspace, ch_0, ch_9 in *.
    rewrite (proj2 (Z.eqb_neq d 32)), (proj2 (Z.leb_gt d 13)) by lia. by rewrite andb_false_r.
  - intros [Hn Ht]. do 2 f_equal.
    assert (Some n = Some v) as H; [|by injection H].
    rewrite <-(string2ll_text n), <-(string2ll_text v), Ht; [done|done|]. unlimit. lia.
Qed.

(** ** The stream of a sequence of commands *)

(** The requests that the stream has for commands, each with its database, when
    the stream has last selected [sel]; of these, the SELECTs. *)
Fixpoint propagate (sel : Z) (cmds : list (Z * list (list Z))) : list (list (list Z)) :=
  match cmds with
  | [] => []
  | (db, args) :: cmds => (if sel =? db then [] else [[select_name; ll_text db]]) ++ [args] ++ propagate db cmds
  end.
Fixpoint announce (sel : Z) (cmds : list (Z * list (list Z))) : list (list (list Z)) :=
  match cmds with
  | [] => []
  | (db, args) :: cmds => (if sel =? db then [] else [[select_name; ll_text db]]) ++ announce db cmds
  end.

(** What a slave makes of requests: the commands and the database each is for. *)
Definition as_select (args : list (list Z)) : option Z :=
  match args with
  | [name; db] => if strcasecmp_eq name select_name then string2ll db else None
  | _ => None
  end.
Fixpoint replay (db : Z) (reqs : list (list (list Z))) : list (Z * list (list Z)) :=
  match reqs with
  | [] => []
  | args :: reqs => match as_select args with Some db => replay db reqs | None => (db, args) :: replay db reqs end
  end.

Definition command_ok (cmd : Z * list (list Z)) : Prop := - 2 ^ 31 ≤ cmd.1 < 2 ^ 31 ∧ as_select cmd.2 = None.

Lemma as_select_text db : in_i64 db → as_select [select_name; ll_text db] = Some db.
Proof. intros H. cbn [as_select]. rewrite string2ll_text by done. unfold strcasecmp_eq. by rewrite bool_decide_true. Qed.

Lemma replay_propagate cmds : Forall command_ok cmds → ∀ sel, replay sel (propagate sel cmds) = cmds.
Proof.
  induction 1 as [|[db args] cmds [Hd Ha] _ IH]; intros sel; [done|]. cbn [propagate fst snd] in *.
  destruct (Z.eqb_spec sel db) as [->|Hs]; cbn [app replay]; [by rewrite Ha, IH|].
  rewrite as_select_text by (unlimit; lia). by rewrite Ha, IH.
Qed.

(** From any database, when the first command is preceded by a SELECT. *)
Lemma replay_any cmds sel db :
  Forall command_ok cmds → (∀ cmd cmds', cmds = cmd :: cmds' → cmd.1 ≠ sel) → replay db (propagate sel cmds) = cmds.
Proof.
  intros H Hs. pose proof (replay_propagate cmds H sel) as Hr. destruct cmds as [|[db' args] cmds]; [done|].
  specialize (Hs _ _ eq_refl). cbn [fst propagate] in *. rewrite (proj2 (Z.eqb_neq _ _)) in * by done. cbn [app replay] in *.
  apply Forall_cons in H as [[Hd _] _]. cbn [fst] in Hd. rewrite as_select_text in * by (unlimit; lia). done.
Qed.

Section stream.
Context (junk : nat → Z) (E : env) (K : config) (ext : positive → Z) (view : positive → option obj_ptr).

(** The commands, one after the other; each with the database and the objects of
    its arguments. *)
Fixpoint feed_run (h : heap) (s : server) (cmds : list (Z * list positive)) : outcome (heap * server) :=
  match cmds with
  | [] => Done (h, s)
  | (db, argv) :: cmds => '(h, s) ← replicationFeedSlaves junk E K h s db argv; feed_run h s cmds
  end.

(** The texts of the arguments of a command. *)
Definition texts_of (cmd : Z * list positive) (text : Z * list (list Z)) : Prop :=
  cmd.1 = text.1 ∧ - 2 ^ 31 ≤ cmd.1 < 2 ^ 31 ∧ Forall2 (argument ext view) cmd.2 text.2 ∧ Z.of_nat (length cmd.2) < 2 ^ 31.

(** What a slave is sent: one that waits for its BGSAVE, the SELECTs only. *)
Definition sent_to (sel : Z) (texts : list (Z * list (list Z))) (c : client) : list Z :=
  visible E c (requests ((if replstate (who c) =? REDIS_REPL_WAIT_BGSAVE_START then announce else propagate) sel texts)).

Context (SH : shared_ok E ext view) (Hsel : selects_ok K ext view).

Lemma visible_nil c : visible E c [] = [].
Proof. unfold visible. by case_match. Qed.

Lemma requests_app l1 l2 : requests (l1 ++ l2) = requests l1 ++ requests l2.
Proof. unfold requests. by rewrite fmap_app, concat_app. Qed.
Lemma requests_one r : requests [r] = request r.
Proof. apply app_nil_r. Qed.

Lemma arguments_seen h argv ts :
  seen ext view h → Forall2 (argument ext view) argv ts → Forall2 (λ o t, otext (ptrs h o) t) argv ts.
Proof. intros S Ha. eapply Forall2_impl; [exact Ha|]. intros o t [Ho Ht]. by rewrite S. Qed.

(** The output of each slave grows by one text and then by another. *)
Lemma extended_all_trans h1 l1 (T1 : client → list Z) h2 l2 (T2 : client → list Z) h3 l3 (T : client → list Z) :
  Forall2 (λ p p', extended E h1 p (T1 (conn p)) h2 p') l1 l2 →
  Forall2 (λ p p', extended E h2 p (T2 (conn p)) h3 p') l2 l3 →
  (∀ c c', who c' = who c → accepts E c' = accepts E c → T1 c ++ T2 c' = T c) →
  Forall2 (λ p p', extended E h1 p (T (conn p)) h3 p') l1 l3.
Proof.
  intros F1 F2 HT. revert l3 F2. induction F1 as [|p p2 l1 l2 X1 F1 IH]; intros l3 F2.
  - apply Forall2_nil_inv_l in F2 as ->. constructor.
  - apply Forall2_cons_inv_l in F2 as (p3 & l3' & X2 & F2 & ->). constructor; [|by apply IH].
    rewrite <-(HT (conn p) (conn p2)); [|apply X1..]. by eapply extended_trans.
Qed.

Lemma replicationFeedSlaves_spec base past cur h s dictid argv ts :
  texts_of (dictid, argv) (dictid, ts) → serving ext view base past cur h s →
  master_repl_offset (stream s) + 100 + blen (request ts) < OFFSET_MAX →
  post (replicationFeedSlaves junk E K h s dictid argv) (λ '(h', s'),
    fed_to E ext view base past cur h s (requests (propagate (slaveseldb s) [(dictid, ts)]))
      (sent_to (slaveseldb s) [(dictid, ts)]) h' s' ∧ slaveseldb s' = dictid).
Proof.
  intros (_ & Hd & Ha & Hn) Sv Hm. cbn [fst snd] in *. pose proof (follows_feeds _ _ _ _ (s_follows _ _ _ _ _ _ _ Sv)) as Hb.
  unfold replicationFeedSlaves. rewrite (bool_decide_false (repl_backlog (stream s) = None)) by done. rewrite andb_false_r. cbn [andb].
  set (sel := if slaveseldb s =? dictid then [] else [[select_name; ll_text dictid]]).
  eapply (post_bind _ _ (λ '(h1, s1), fed_to E ext view base past cur h s (requests sel) (λ c, visible E c (requests sel)) h1 s1 ∧
      master_repl_offset (stream s1) + blen (request ts) < OFFSET_MAX)).
  { assert (blen (requests sel) < 100) as Hl.
    { subst sel. destruct (slaveseldb s =? dictid); [done|]. rewrite requests_one. apply select_request_bounds. unlimit. lia. }
    eapply (post_weaken _ (λ '(h1, s1), fed_to E ext view base past cur h s (requests sel) (λ c, visible E c (requests sel)) h1 s1)).
    - subst sel. destruct (slaveseldb s =? dictid); cbn [negb].
      + cbn [post]. split; [by rewrite app_nil_r|apply Forall_Forall2_diag|done].
        apply Forall_forall. intros p _. rewrite visible_nil. apply extended_refl.
      + rewrite requests_one. apply feed_select_spec; try done. pose proof (blen_nonneg (request ts)). lia.
    - intros [h1 s1] Fd. split; [done|]. destruct Fd as [[_ _ [_ Ho1]] _ _], Sv as [_ _ [_ Ho]].
      rewrite (assoc_L (++)), blen_app in Ho1. lia. }
  intros [h1 s1] [[[W1 S1 Fo1] F1 Sz1] Hm1]. cbn [stream slaves].
  destruct (feeds_request junk h1 argv ts (arguments_seen h1 _ _ S1 Ha) Hn base past _ _ Fo1 Hm1) as (b2 & Eb & Fo2 & Sz2).
  destruct (repl_backlog (stream s1)) eqn:Er; [|by destruct (follows_feeds _ _ _ _ Fo1)].
  rewrite Eb. cbn [mbind outcome_bind].
  eapply post_bind; [apply (for_slaves_spec E ext view _ _ (tells_reply_command junk E ext view argv ts SH Ha Hn) (slaves s1) [] h1); done|].
  intros [h2 l2] (W2 & S2 & _ & F2). cbn [post app] in *.
  assert (requests (propagate (slaveseldb s) [(dictid, ts)]) = requests sel ++ request ts) as Et.
  { cbn [propagate]. fold sel. by rewrite requests_app, app_nil_r, requests_one. }
  split; [split|done]; cbn [stream slaves].
  - split; [done|done|]. by rewrite Et, (assoc_L (++)).
  - eapply (extended_all_trans h (slaves s) (λ c, visible E c (requests sel)) h1 (slaves s1) _ h2 l2); [done|done|].
    intros c c' Hw Hac. unfold sent_to, fed. rewrite Hw.
    assert (visible E c' (request ts) = visible E c (request ts)) as -> by (unfold visible; by rewrite Hac, Hw).
    destruct (_ =? REDIS_REPL_WAIT_BGSAVE_START); [|by rewrite Et, visible_app].
    rewrite app_nil_r. cbn [announce]. fold sel. by rewrite app_nil_r.
  - congruence.
Qed.

(** The most that a command adds to the stream. *)
Definition cost (texts : list (Z * list (list Z))) : Z := foldr (λ t n, 100 + blen (request t.2) + n) 0 texts.

Lemma cost_nonneg texts : 0 ≤ cost texts.
Proof. induction texts as [|t texts IH]; [done|]. unfold cost in *. cbn [foldr]. pose proof (blen_nonneg (request t.2)). lia. Qed.

Lemma propagate_cost texts : Forall (λ t, - 2 ^ 31 ≤ t.1 < 2 ^ 31) texts → ∀ sel, blen (requests (propagate sel texts)) ≤ cost texts.
Proof.
  induction 1 as [|[db args] texts Hd _ IH]; intros sel; [done|]. cbn [propagate cost foldr fst snd] in *. fold (cost texts).
  rewrite !requests_app, !blen_app, (requests_one args). specialize (IH db).
  destruct (sel =? db); [change (requests []) with (@nil Z); rewrite blen_nil; lia|].
  rewrite requests_one. destruct (select_request_bounds db) as [_ H]; [unlimit; lia|]. unfold select_request in H. lia.
Qed.

Lemma feed_run_spec base past cmds texts : Forall2 texts_of cmds texts → ∀ cur h s,
  serving ext view base past cur h s → master_repl_offset (stream s) + cost texts < OFFSET_MAX →
  post (feed_run h s cmds) (λ '(h', s'),
    fed_to E ext view base past cur h s (requests (propagate (slaveseldb s) texts)) (sent_to (slaveseldb s) texts) h' s').
Proof.
  induction 1 as [|[db argv] [db' ts] cmds texts Ht Hts IH]; intros cur h s Sv Hm; cbn [feed_run].
  - cbn [post]. split; [by rewrite app_nil_r|apply Forall_Forall2_diag|done].
    apply Forall_forall. intros p _. unfold sent_to. case_match; cbn [announce propagate]; rewrite visible_nil; apply extended_refl.
  - pose proof Ht as ([= <-] & Hd & _). cbn [cost foldr fst snd] in Hm, Hd. fold (cost texts) in Hm.
    pose proof (cost_nonneg texts).
    eapply post_bind; [apply (replicationFeedSlaves_spec base past cur h s db argv ts); [done|done|lia]|].
    intros [h1 s1] [[Sv1 F1 Sz1] Hs1]. eapply post_weaken; [apply (IH _ h1 s1 Sv1)|].
    { pose proof (propagate_cost [(db, ts)]) as Hc. specialize (Hc ltac:(by constructor) (slaveseldb s)).
      cbn [cost foldr fst snd] in Hc. destruct Sv as [_ _ [_ Ho]], Sv1 as [_ _ [_ Ho1]].
      rewrite (assoc_L (++)), blen_app in Ho1. lia. }
    intros [h2 s2] [Sv2 F2 Sz2]. rewrite Hs1 in *.
    assert (propagate (slaveseldb s) ((db, ts) :: texts) = propagate (slaveseldb s) [(db, ts)] ++ propagate db texts) as Ep
      by (cbn [propagate]; by rewrite app_nil_r, <-(assoc_L (++))).
    assert (announce (slaveseldb s) ((db, ts) :: texts) = announce (slaveseldb s) [(db, ts)] ++ announce db texts) as Ean
      by (cbn [announce]; by rewrite app_nil_r).
    split; [by rewrite Ep, requests_app, (assoc_L (++))| |congruence].
    eapply extended_all_trans; [exact F1|exact F2|].
    intros c c' Hw Hac. unfold sent_to. rewrite Hw.
    assert (∀ t, visible E c' t = visible E c t) as Hv by (intros; unfold visible; by rewrite Hac, Hw).
    rewrite Hv, <-visible_app, <-requests_app. by case_match; rewrite ?Ep, ?Ean.
Qed.
End stream.

(** ** Partial resynchronization *)

Section psync.
Context (junk : nat → Z) (E : env) (K : config) (ext : positive → Z) (view : positive → option obj_ptr).

(** A connection with nothing queued. *)
Definition idle (c : client) : Prop := reply c = [] ∧ bufpos c = 0.

Lemma idle_queued ext0 h c : wf ext0 h c → idle c → queued h c = [].
Proof. intros W [Hr Hb]. pose proof (wf_small _ _ _ W). unfold queued. by rewrite Hr, slice_nil by lia. Qed.

(** The client becomes a slave. *)
Lemma world_as_slave h A c w t :
  world ext h (A ++ [c]) → idle (conn c) → world ext h (A ++ [Peer (set_who (conn c) w) t]).
Proof.
  intros [Wr We Wa] [Hr Hb].
  assert (∀ x, held_all (A ++ [Peer (set_who (conn c) w) t]) x = held_all (A ++ [c]) x) as Hh by (intros; by rewrite !held_all_app).
  split; [eapply refs_ext; [exact Wr|]; intros x; cbv beta; by rewrite Hh|done|].
  intros q [Hq|Hq]%elem_of_app.
  - destruct (Wa q ltac:(set_solver)) as [W N]. split; [|done]. eapply wf_pointwise; [exact W|]. intros x. cbv beta. by rewrite Hh.
  - apply list_elem_of_singleton in Hq as ->. destruct (Wa c ltac:(set_solver)) as [W N]. split; [|exact N].
    eapply (wf_pointwise (λ x, ext x + held_all (A ++ [c]) x - cnt (held (conn c)) x)); [|intros x; cbv beta; by rewrite Hh].
    destruct W. split; try done. cbn [conn set_who bufpos reply]. rewrite Hr, Hb. by intros [?|?].
Qed.

Lemma connected_as_slave w st : connected E w → connected E (as_slave w st).
Proof. by intros []. Qed.

Lemma refresh_same s :
  let s' := refreshGoodSlavesCount E K s in slaves s' = slaves s ∧ stream s' = stream s ∧ slaveseldb s' = slaveseldb s.
Proof. unfold refreshGoodSlavesCount. by case_match. Qed.

(** The stream from the position [k] on, in the backlog. *)
Lemma history_from base past cur b k :
  follows base past cur b → 0 ≤ base →
  let total := past ++ cur in
  let hist := lastn (repl_backlog_size b) cur in
  blen total - Z.min (repl_backlog_size b) (blen cur) ≤ k ≤ blen total →
  repl_backlog_off b ≤ base + 1 + k ≤ repl_backlog_off b + blen hist ∧
  drop (Z.to_nat (base + 1 + k - repl_backlog_off b)) hist = drop (Z.to_nat k) total.
Proof.
  intros [H Ho] Hb total hist Hk. pose proof (h_idx _ _ H). fold hist in H. fold total in Ho.
  assert (blen hist = Z.min (repl_backlog_size b) (blen cur)) as Hl by (apply blen_lastn; lia).
  pose proof (h_off _ _ H) as Hoff. split; [lia|]. destruct (lastn_suffix (repl_backlog_size b) cur) as [p Ep].
  fold hist in Ep. assert (total = (past ++ p) ++ hist) as Et by (unfold total; rewrite Ep, (assoc_L (++)); done).
  rewrite Et. rewrite Et, blen_app in Hk, Ho. rewrite drop_app_ge by (unfold blen in *; lia). f_equal. unfold blen in *. lia.
Qed.

Lemma psync_range base past cur b k :
  follows base past cur b → 0 ≤ base → master_repl_offset b < OFFSET_MAX →
  let total := past ++ cur in
  (base + 1 + k <? repl_backlog_off b) || (i64 (repl_backlog_off b + repl_backlog_histlen b) <? base + 1 + k) =
  negb ((blen total - Z.min (repl_backlog_size b) (blen cur) <=? k) && (k <=? blen total)).
Proof.
  intros [H Ho] Hb Hm total. fold total in Ho. unfold OFFSET_MAX in Hm.
  assert (blen (lastn (repl_backlog_size b) cur) = Z.min (repl_backlog_size b) (blen cur)) as Hl by (pose proof (h_idx _ _ H); apply blen_lastn; lia).
  pose proof (h_off _ _ H) as Hoff. pose proof (h_len _ _ H) as Hlen. pose proof (h_pos _ _ H).
  pose proof (blen_nonneg (lastn (repl_backlog_size b) cur)). rewrite small_i64 by lia.
  rewrite negb_andb. f_equal.
  - rewrite Z.leb_antisym, negb_involutive. destruct (Z.ltb_spec (base + 1 + k) (repl_backlog_off b)), (Z.ltb_spec k (blen total - Z.min (repl_backlog_size b) (blen cur))); lia.
  - rewrite Z.leb_antisym, negb_involutive. destruct (Z.ltb_spec (repl_backlog_off b + repl_backlog_histlen b) (base + 1 + k)), (Z.ltb_spec (blen total) k); lia.
Qed.

(** The text of the run id in the request. *)
Definition c_string (o : positive) (r : list Z) : Prop :=
  0 < ext o ∧ ch_nul ∉ r ∧ ∃ p, view o = Some (Raw (Some p)) ∧ rep p r.

Lemma c_string_seen h o r :
  c_string o r → seen ext view h →
  ∃ p, obj_sds h o = Done p ∧ strlen (sh_buf p) = Some (blen r) ∧ take (Z.to_nat (blen r)) (sh_buf p) = r.
Proof.
  intros (Ho & Hn & p & Hp & (tl & Eb & _)) S. exists p. rewrite (obj_sds_ptrs h o p) by by rewrite S.
  rewrite Eb. change (0 :: tl) with (ch_nul :: tl). rewrite strlen_text, to_nat_blen, take_app_length by done. done.
Qed.

(** The state that the client has joined as a slave. *)
Record joined (base : Z) (past cur : list Z) (h : heap) (s : server) (t : list Z) (h' : heap) (s' : server) : Prop := Joined {
  j_serving : serving ext view base past cur h' s';
  j_others : ∀ q, q ∈ slaves s → extended E h q [] h' q;
  j_slaves : ∃ c', slaves s' = slaves s ++ [c'] ∧ fl_slave (who (conn c')) = true ∧
               replstate (who (conn c')) = REDIS_REPL_ONLINE ∧ connected E (who (conn c')) ∧ queued h' (conn c') = inl <$> t;
  j_stream : stream s' = stream s ∧ slaveseldb s' = slaveseldb s
}.

(** The text of the stream from [k] on reaches the output of the new slave. *)
Lemma resume_spec base past cur h s c k :
  world ext h (slaves s ++ [c]) → seen ext view h → follows base past cur (stream s) → 0 ≤ base →
  master_repl_offset (stream s) < OFFSET_MAX → idle (conn c) → connected E (who (conn c)) →
  blen (past ++ cur) - Z.min (repl_backlog_size (stream s)) (blen cur) ≤ k ≤ blen (past ++ cur) →
  let c1 := Peer (set_who (conn c) (as_slave (who (conn c)) REDIS_REPL_ONLINE)) (unixtime E) in
  post ('(h, cc, psync_len) ← addReplyReplicationBacklog junk E h (stream s) (conn c1) (base + 1 + k);
        let s := Server (slaves s ++ [Peer cc (repl_ack_time c1)]) (slaveseldb s) (stream s) (repl_good_slaves_count s) in
        Done (h, refreshGoodSlavesCount E K s, @None peer, true, continue_text))
    (λ '(h', s', stays, ok, written), stays = None ∧ ok = true ∧ written = continue_text ∧
      joined base past cur h s (drop (Z.to_nat k) (past ++ cur)) h' s').
Proof.
  intros Wd Sn Fo Hb Hm Hi Hc Hk c1.
  assert (world ext h (slaves s ++ [c1])) as W1 by by apply world_as_slave.
  destruct (history_from base past cur (stream s) k Fo Hb Hk) as [Hoff Ht].
  assert (connected E (who (conn c1))) as Hc1 by by apply connected_as_slave.
  set (ext_i := λ x, ext x + held_all (slaves s ++ []) x).
  destruct (w_each _ _ _ W1 c1 ltac:(set_solver)) as [Wc _].
  assert (wf ext_i h (conn c1)) as Wi by (eapply wf_pointwise; [exact Wc|]; intros x; unfold ext_i; rewrite (held_all_mid _ c1 []); lia).
  eapply post_bind; [apply (addReplyReplicationBacklog_spec junk E ext_i (ptrs h) (stream s) _ h (conn c1) _ (proj1 Fo) Hm Hoff Wi); done|].
  intros [[h' cc] len] [R _]. rewrite Ht in R.
  assert (visible E (conn c1) (drop (Z.to_nat k) (past ++ cur)) = drop (Z.to_nat k) (past ++ cur)) as Ev.
  { unfold visible. rewrite connected_accepts by done. destruct Hc1 as (_ & _ & _ & -> & _). done. }
  rewrite Ev in R. destruct (world_step ext h (slaves s) c1 [] h' cc E (ptrs h) _ W1 R) as (W2 & F2 & X2 & O2); [done|].
  cbn [post]. split; [done|]. split; [done|]. split; [done|]. rewrite app_nil_r in O2.
  set (s1 := Server _ _ _ _). destruct (refresh_same s1) as (Rs & Rst & Rd). split; [|done| |by rewrite Rst, Rd].
  - split; [rewrite Rs; exact W2|intros x Hx; rewrite F2 by done; by apply Sn|by rewrite Rst].
  - rewrite Rs. exists (Peer cc (repl_ack_time c1)). split; [done|]. cbn [conn]. destruct X2 as [Eq _ Ew _ _]. cbn [conn] in Ew.
    rewrite Ew. split; [done|]. split; [done|]. split; [done|]. cbn [conn] in Eq. rewrite Eq.
    pose proof (idle_queued ext_i h (conn c1) Wi Hi) as Hq0. by rewrite Hq0.
Qed.

(** What a request leaves when it is accepted, and when not; the line may fail to be
    written to the socket, which closes the connection. *)
Definition psync_accepted (base : Z) (past cur : list Z) (write_ok : bool) (h : heap) (s : server) (c : peer) (t : list Z)
    (res : heap * server * option peer * bool * list Z) : Prop :=
  let '(h', s', stays, ok, written) := res in
  stays = None ∧ ok = true ∧
  if write_ok then written = continue_text ∧ joined base past cur h s t h' s'
  else written = [] ∧ h' = h ∧ stream s' = stream s ∧ slaveseldb s' = slaveseldb s ∧
    slaves s' = slaves s ++ [Peer (freeClientAsync (set_who (conn c) (as_slave (who (conn c)) REDIS_REPL_ONLINE))) (unixtime E)].
Definition psync_refused (offset : Z) (write_ok : bool) (h : heap) (s : server) (c : peer)
    (res : heap * server * option peer * bool * list Z) : Prop :=
  let '(h', s', stays, ok, written) := res in
  h' = h ∧ s' = s ∧
  if write_ok then stays = Some c ∧ ok = false ∧ written = fullresync_text (runid K) offset
  else stays = Some (Peer (freeClientAsync (conn c)) (repl_ack_time c)) ∧ ok = true ∧ written = [].

Lemma masterTry_spec base past cur write_ok h s c arg_runid arg_offset r k :
  world ext h (slaves s ++ [c]) → seen ext view h → follows base past cur (stream s) → 0 ≤ base →
  master_repl_offset (stream s) < OFFSET_MAX → idle (conn c) → connected E (who (conn c)) →
  c_string arg_runid r → in_i64 (base + 1 + k) → argument ext view arg_offset (ll_text (base + 1 + k)) →
  post (masterTryPartialResynchronization junk E K write_ok h s c arg_runid arg_offset)
    (λ res,
      if strcasecmp_eq r (runid K) &&
         ((blen (past ++ cur) - Z.min (repl_backlog_size (stream s)) (blen cur) <=? k) && (k <=? blen (past ++ cur)))
      then psync_accepted base past cur write_ok h s c (drop (Z.to_nat k) (past ++ cur)) res
      else psync_refused (base + blen (past ++ cur)) write_ok h s c res).
Proof.
  intros Wd Sn Fo Hb Hm Hi Hc Hr Hn [Ho Ht]. unfold masterTryPartialResynchronization.
  assert (post (need_full_resync K write_ok h s c) (psync_refused (base + blen (past ++ cur)) write_ok h s c)) as Ef.
  { unfold need_full_resync. rewrite bool_decide_false by (by eapply follows_feeds). destruct Fo as [_ ->]. by destruct write_ok. }
  destruct (c_string_seen h arg_runid r Hr Sn) as (p & -> & El & Et). cbn [mbind outcome_bind].
  rewrite El. cbn [lift mbind outcome_bind]. rewrite Et.
  destruct (strcasecmp_eq r (runid K)); cbn [negb andb]; [|exact Ef].
  unfold getLongLongFromObjectOrReply. rewrite (getLongLongFromObject_text h arg_offset (base + 1 + k)) by (done || by rewrite Sn).
  cbn [mbind outcome_bind]. cbv zeta. assert (Peer (conn c) (repl_ack_time c) = c) as -> by by destruct c.
  rewrite (bool_decide_false (repl_backlog (stream s) = None)) by (by eapply follows_feeds). cbn [orb].
  rewrite (psync_range base past cur (stream s) k Fo Hb Hm). destruct (_ && _) eqn:Ek; cbn [negb]; [|exact Ef].
  apply andb_true_iff in Ek as [H1%Z.leb_le H2%Z.leb_le]. destruct write_ok; cbn [negb]; [|by cbn [post psync_accepted]].
  eapply post_weaken; [by eapply (resume_spec base past cur h s c k)|]. intros [[[[h' s'] stays] ok] wr] (-> & -> & -> & J). done.
Qed.

(** Without a backlog no request is accepted, and the offset is one more. *)
Lemma psync_without_backlog write_ok h s c arg_runid arg_offset r k :
  seen ext view h → repl_backlog (stream s) = None → c_string arg_runid r → in_i64 k → argument ext view arg_offset (ll_text k) →
  post (masterTryPartialResynchronization junk E K write_ok h s c arg_runid arg_offset)
    (psync_refused (i64 (master_repl_offset (stream s) + 1)) write_ok h s c).
Proof.
  intros Sn Hno Hr Hn [Ho Ht]. unfold masterTryPartialResynchronization.
  assert (post (need_full_resync K write_ok h s c) (psync_refused (i64 (master_repl_offset (stream s) + 1)) write_ok h s c)) as Ef.
  { unfold need_full_resync. rewrite bool_decide_true by done. by destruct write_ok. }
  destruct (c_string_seen h arg_runid r Hr Sn) as (p & -> & El & Et). cbn [mbind outcome_bind].
  rewrite El. cbn [lift mbind outcome_bind]. rewrite Et.
  destruct (strcasecmp_eq r (runid K)); cbn [negb]; [|exact Ef].
  unfold getLongLongFromObjectOrReply. rewrite (getLongLongFromObject_text h arg_offset k) by (done || by rewrite Sn).
  cbn [mbind outcome_bind]. cbv zeta. assert (Peer (conn c) (repl_ack_time c) = c) as -> by by destruct c.
  by rewrite (bool_decide_true (repl_backlog (stream s) = None)).
Qed.
End psync.

(** ** Properties *)

Section properties.
Context (junk : nat → Z) (E : env) (K : config) (ext : positive → Z) (view : positive → option obj_ptr).
Context (SH : shared_ok E ext view) (Hsel : selects_ok K ext view).

Lemma command_dbs cmds texts : Forall2 (texts_of ext view) cmds texts → Forall (λ t, as_select t.2 = None) texts → Forall command_ok texts.
Proof.
  induction 1 as [|cmd t cmds texts (He & Hd & _) _ IH]; [done|]. intros [Ha Hr]%Forall_cons. constructor; [|by apply IH].
  split; [by rewrite <-He|done].
Qed.

(** C7. The stream: whatever the encodings of the arguments, the databases and the
    wraps of the circular buffer, replicationFeedSlaves adds the same bytes to the
    backlog and to the output of every slave that does not wait for its BGSAVE.
    They are requests that replay as exactly the commands fed, each in its
    database: for a slave in the database last selected and, when the selection
    has been forgotten, for a slave in any database.  The backlog holds as many of
    the last bytes as fit and its offset counts all of them. *)
Theorem stream_replays base past cur h s cmds texts :
  serving ext view base past cur h s → Forall2 (texts_of ext view) cmds texts → Forall (λ t, as_select t.2 = None) texts →
  master_repl_offset (stream s) + cost texts < OFFSET_MAX →
  post (feed_run junk E K h s cmds) (λ '(h', s'), ∃ reqs,
    (∀ db, db = slaveseldb s ∨ slaveseldb s = -1 ∧ Forall (λ t, 0 ≤ t.1) texts → replay db reqs = texts) ∧
    follows base past (cur ++ requests reqs) (stream s') ∧ world ext h' (slaves s') ∧ seen ext view h' ∧
    Forall2 (λ p p', replstate (who (conn p)) ≠ REDIS_REPL_WAIT_BGSAVE_START →
      extended E h p (visible E (conn p) (requests reqs)) h' p') (slaves s) (slaves s')).
Proof.
  intros Sv Ht Ha Hm. pose proof (command_dbs _ _ Ht Ha) as Hok.
  eapply post_weaken; [by apply (feed_run_spec junk E K ext view SH Hsel base past cmds texts)|].
  intros [h' s'] [[Wd Sn Fo] F _]. exists (propagate (slaveseldb s) texts). split_and!; try done.
  - intros db [->|[Hs Hp]]; [by apply replay_propagate|]. apply replay_any; [done|]. intros cmd cmds' ->.
    apply Forall_cons in Hp as [Hp _]. lia.
  - eapply Forall2_impl; [exact F|]. intros p p' X Hw. unfold sent_to in X. by rewrite (proj2 (Z.eqb_neq _ _)) in X.
Qed.

(** C10. PSYNC: a request for the stream from a position on, given as a number, to a
    master that has a backlog, is accepted if and only if it names the run of this
    master and the backlog holds every byte from there on (the position at the end
    included).  The client then becomes the last slave, online, with exactly the rest
    of the stream as its output; the other slaves and the stream are as they were.
    Every other such request is answered with the run id and the offset of the end of
    the stream, and changes nothing.  When the line of the answer cannot be written,
    the connection is to be closed and nothing else has happened (but that an
    accepted client is in the list of the slaves).  The connection has nothing
    queued.  Not covered: an offset that is not a number, for which an error line is
    queued before the answer (the finding at replication.c:355), and a master
    without a backlog, which accepts nothing (psync_without_backlog). *)
Theorem psync_exact base past cur write_ok h s c arg_runid arg_offset r k :
  world ext h (slaves s ++ [c]) → seen ext view h → follows base past cur (stream s) → 0 ≤ base →
  master_repl_offset (stream s) < OFFSET_MAX → idle (conn c) → connected E (who (conn c)) →
  c_string ext view arg_runid r → in_i64 (base + 1 + k) → argument ext view arg_offset (ll_text (base + 1 + k)) →
  let total := past ++ cur in
  post (masterTryPartialResynchronization junk E K write_ok h s c arg_runid arg_offset)
    (λ res,
      if strcasecmp_eq r (runid K) &&
         ((blen total - Z.min (repl_backlog_size (stream s)) (blen cur) <=? k) && (k <=? blen total))
      then psync_accepted E ext view base past cur write_ok h s c (drop (Z.to_nat k) total) res
      else psync_refused K (base + blen total) write_ok h s c res).
Proof. intros. by apply masterTry_spec. Qed.

(** C11. A slave that was cut off misses nothing: when it has received [got] of the
    stream and the backlog holds the rest, then after its PSYNC, and after whatever
    commands follow, what it has received and what is queued for it are together
    the whole stream, without a gap or a repetition, and so is the backlog's. *)
Theorem resync_misses_nothing base past cur got missing h s c arg_runid arg_offset r cmds texts :
  world ext h (slaves s ++ [c]) → seen ext view h → follows base past cur (stream s) → 0 ≤ base →
  idle (conn c) → connected E (who (conn c)) →
  past ++ cur = got ++ missing → blen missing ≤ Z.min (repl_backlog_size (stream s)) (blen cur) →
  c_string ext view arg_runid r → strcasecmp_eq r (runid K) = true →
  argument ext view arg_offset (ll_text (base + 1 + blen got)) →
  Forall2 (texts_of ext view) cmds texts → master_repl_offset (stream s) + cost texts < OFFSET_MAX →
  post ('(h, s, _, ok, _) ← masterTryPartialResynchronization junk E K true h s c arg_runid arg_offset;
        '(h, s) ← feed_run junk E K h s cmds;
        Done (h, s, ok))
    (λ '(h', s', ok), ok = true ∧
      let whole := past ++ cur ++ requests (propagate (slaveseldb s) texts) in
      (∃ c', last (slaves s') = Some c' ∧ (inl <$> got) ++ queued h' (conn c') = inl <$> whole) ∧
      follows base past (cur ++ requests (propagate (slaveseldb s) texts)) (stream s')).
Proof.
  intros Wd Sn Fo Hb Hi Hc Et Hmi Hr Hrun Ho Ht Hm. pose proof (cost_nonneg texts). pose proof (blen_nonneg got). pose proof (blen_nonneg missing).
  assert (blen (past ++ cur) = blen got + blen missing) as Hl by by rewrite Et, blen_app.
  assert (in_i64 (base + 1 + blen got)) as Hin.
  { destruct Fo as [_ Fo]. unfold OFFSET_MAX in Hm. unlimit. lia. }
  eapply post_bind; [apply (masterTry_spec junk E K ext view base past cur true h s c arg_runid arg_offset r (blen got)); done || lia|].
  intros [[[[h1 s1] st] ok] wr]. rewrite Hrun, (proj2 (Z.leb_le _ (blen got))), (proj2 (Z.leb_le (blen got) _)) by lia. cbn [andb].
  intros (_ & -> & _ & [Sv1 _ (c1 & Es & _ & Hst & Hc1 & Hq1) [Est Esd]]).
  eapply post_bind; [apply (feed_run_spec junk E K ext view SH Hsel base past cmds texts Ht cur h1 s1 Sv1); by rewrite Est|].
  intros [h2 s2] [[_ _ Fo2] F2 _]. cbn [post]. rewrite Esd in *. split; [done|]. split; [|done].
  rewrite Es in F2. apply Forall2_app_inv_l in F2 as (l & l' & _ & F2 & El).
  apply Forall2_cons_inv_l in F2 as (c2 & l2 & X & F2 & ->). apply Forall2_nil_inv_l in F2 as ->.
  exists c2. split; [by rewrite El, last_snoc|]. rewrite (e_queued _ _ _ _ _ _ X), Hq1, Et, to_nat_blen, drop_app_length.
  unfold sent_to. rewrite Hst. cbn [Z.eqb REDIS_REPL_ONLINE REDIS_REPL_WAIT_BGSAVE_START Pos.eqb].
  unfold visible. rewrite connected_accepts by done. destruct Hc1 as (_ & _ & _ & -> & _). cbn [andb negb].
  by rewrite (assoc_L (++) past), Et, !fmap_app, !(assoc_L (++)).
Qed.
End properties.

(** ** Concrete instances *)

Definition replica_junk (n : nat) : Z := 7.
Definition replica_runid : list Z := replicate 40 97.
Definition set_args : list (list Z) := [[83; 69; 84]; [107]; replicate 30 118].

(** The shared SELECT objects, the arguments of SET, an integer, and the arguments
    of PSYNC. *)
Definition replica_extra : list (positive * robj) :=
  ((λ n : nat, ((100 + Pos.of_succ_nat n)%positive, demo_obj (select_request (Z.of_nat n)))) <$> seq 0 10) ++
  [(120%positive, demo_obj [83; 69; 84]); (121%positive, demo_obj [107]); (122%positive, demo_obj (replicate 30 118));
   (123%positive, Robj 1 (Int 42)); (124%positive, demo_obj replica_runid); (125%positive, demo_obj (ll_text 4))].
Definition replica_heap : heap := demo_heap ∪ list_to_map replica_extra.
Definition replica_ext (x : positive) : Z := match replica_heap !! x with Some _ => 1 | None => 0 end.
Definition replica_view (x : positive) : option obj_ptr := ptrs replica_heap x.
Definition replica_config : config :=
  Config replica_runid 0 0 ((λ n : nat, (100 + Pos.of_succ_nat n)%positive) <$> seq 0 10).

Definition replica_peer (st : Z) : peer := Peer (createClient (as_slave demo_ident st) 0 (replicate 16384 0)) 0.
Definition psync_peer : peer := Peer demo_client 0.

(** A backlog of 64 bytes. *)
Definition replica_backlog : backlog := Backlog (Some (replicate 64 7)) 64 0 0 2 1.
Definition replica_server : server :=
  Server [replica_peer REDIS_REPL_ONLINE; replica_peer REDIS_REPL_WAIT_BGSAVE_START] (-1) replica_backlog 0.

Definition replica_commands : list (Z * list positive) :=
  [(0, [120; 121; 122]%positive); (12, [120; 121; 123]%positive); (12, [120; 121; 122]%positive)].
Definition replica_texts : list (Z * list (list Z)) :=
  [(0, set_args); (12, [[83; 69; 84]; [107]; ll_text 42]); (12, set_args)].

Lemma replica_refs_ones h :
  map_Forall (λ _ obj, refcount obj = 1) h → refs (λ x, match h !! x with Some _ => 1 | None => 0 end) h.
Proof. intros H x. destruct (h !! x) as [obj|] eqn:E; [|done]. split; [by apply (H x)|done]. Qed.

Lemma replica_refs : refs replica_ext replica_heap.
Proof. apply replica_refs_ones. apply (bool_decide_unpack _). by vm_compute. Qed.

Lemma replica_grows : grows demo_ext demo_view replica_ext replica_view.
Proof.
  split.
  - intros x. unfold demo_ext, replica_ext, replica_heap. destruct (demo_heap !! x) eqn:E.
    + by rewrite (lookup_union_Some_l _ _ _ _ E).
    + by case_match.
  - intros x Hx. unfold demo_ext, demo_view, replica_view, ptrs, replica_heap in *.
    destruct (demo_heap !! x) eqn:E; [|done]. by rewrite (lookup_union_Some_l _ _ _ _ E).
Qed.

Lemma replica_shared_ok : shared_ok demo_env replica_ext replica_view.
Proof. eapply grows_shared; [apply replica_grows|apply demo_shared_ok]. Qed.

Lemma replica_argument x s :
  replica_heap !! x = Some (demo_obj s) → blen s < 2 ^ 31 - 2 → argument replica_ext replica_view x s.
Proof.
  intros E Hs. unfold argument, replica_ext, replica_view, ptrs. rewrite E. split; [done|]. by apply demo_obj_text.
Qed.

Lemma replica_select_objs (l : list positive) :
  (λ n : nat, x ← l !! n; replica_heap !! x) <$> seq 0 10 = (λ n : nat, Some (demo_obj (select_request (Z.of_nat n)))) <$> seq 0 10 →
  ∀ n, 0 ≤ n < REDIS_SHARED_SELECT_CMDS → ∃ o, l !! Z.to_nat n = Some o ∧ argument replica_ext replica_view o (select_request n).
Proof.
  intros H n Hn. unfold REDIS_SHARED_SELECT_CMDS in Hn. apply (f_equal (.!! Z.to_nat n)) in H.
  rewrite !list_lookup_fmap, lookup_seq_lt in H by lia. cbn [fmap option_fmap option_map Nat.add] in H. rewrite Z2Nat.id in H by lia.
  injection H as H. destruct (l !! Z.to_nat n) as [o|]; [|done]. exists o. split; [done|].
  apply replica_argument; [done|]. destruct (select_request_bounds n) as [_ ?]; [unlimit; lia|]. lia.
Qed.

Lemma replica_selects : selects_ok replica_config replica_ext replica_view.
Proof. refine (replica_select_objs (shared_select replica_config) _). by vm_compute. Qed.

(** Clients that have just connected. *)
Lemma world_fresh ext h l :
  refs ext h → (∀ x, 0 ≤ ext x) →
  Forall (λ p, ∃ w t b, conn p = createClient w t b ∧ blen b = REDIS_REPLY_CHUNK_BYTES) l → world ext h l.
Proof.
  intros Hr He Hl.
  assert (∀ x, held_all l x = 0) as H0.
  { intros x. induction Hl as [|p l (w & t & b & E & _) _ IH]; [done|]. cbn [held_all foldr]. fold (held_all l x). rewrite IH, E. done. }
  split; [eapply refs_ext; [exact Hr|]; intros x; cbv beta; rewrite H0; lia|done|].
  intros p Hp. rewrite Forall_forall in Hl. destruct (Hl p Hp) as (w & t & b & E & Hb).
  destruct (fresh_delivered ext (ptrs h) w t b h Hr He) as (_ & W & _ & Eo); [done|done|].
  cbn [st_client st_heap wire] in *. rewrite E. split.
  - eapply wf_pointwise; [exact W|]. intros x. cbv beta. rewrite H0. cbn. lia.
  - exact (delivered_bytes ext (ptrs h) h _ [] [] Eo).
Qed.

Lemma replica_world l :
  Forall (λ p, ∃ w t b, conn p = createClient w t b ∧ blen b = REDIS_REPLY_CHUNK_BYTES) l → world replica_ext replica_heap l.
Proof. apply world_fresh; [apply replica_refs|]. intros x. unfold replica_ext. by case_match. Qed.

Lemma replica_fresh w a : ∃ w' t b, conn (Peer (createClient w 0 (replicate 16384 0)) a) = createClient w' t b ∧ blen b = REDIS_REPLY_CHUNK_BYTES.
Proof. exists w, 0, (replicate 16384 0). done. Qed.

Lemma replica_follows : follows 1 [] [] replica_backlog.
Proof.
  split; [|done]. split; try done.
  exists (replicate 64 7). split; [done|]. split; [done|]. by exists (replicate 64 7).
Qed.

Lemma replica_serving : serving replica_ext replica_view 1 [] [] replica_heap replica_server.
Proof.
  split; [|intros x _; reflexivity|apply replica_follows]. apply replica_world.
  apply Forall_cons. split; [apply replica_fresh|]. apply Forall_cons. split; [apply replica_fresh|apply Forall_nil_2].
Qed.

Lemma replica_texts_of : Forall2 (texts_of replica_ext replica_view) replica_commands replica_texts.
Proof.
  assert (argument replica_ext replica_view 120 [83; 69; 84]) as H0 by (apply replica_argument; [by vm_compute|done]).
  assert (argument replica_ext replica_view 121 [107]) as H1 by (apply replica_argument; [by vm_compute|done]).
  assert (argument replica_ext replica_view 122 (replicate 30 118)) as H2 by (apply replica_argument; [by vm_compute|done]).
  assert (argument replica_ext replica_view 123 (ll_text 42)) as H3.
  { unfold argument. assert (replica_view 123 = Some (Int 42)) as -> by (by vm_compute). split; [by vm_compute|]. split; [unlimit; lia|done]. }
  assert (∀ db o t argv ts, - 2 ^ 31 ≤ db < 2 ^ 31 → argument replica_ext replica_view o t → Forall2 (argument replica_ext replica_view) argv ts →
    Z.of_nat (length (o :: argv)) < 2 ^ 31 → texts_of replica_ext replica_view (db, o :: argv) (db, t :: ts)) as H
    by (intros; split; [done|]; split; [done|]; split; [by apply Forall2_cons|done]).
  unfold replica_commands, replica_texts, set_args.
  repeat (apply Forall2_cons; split; [apply H; [lia|assumption|repeat (apply Forall2_cons; split; [assumption|]); apply Forall2_nil_2|reflexivity]|]).
  apply Forall2_nil_2.
Qed.

Lemma replica_no_selects : Forall (λ t : Z * list (list Z), as_select t.2 = None) replica_texts.
Proof. repeat constructor. Qed.

(** The history is longer than the backlog: 3 commands, 2 SELECTs. *)
Lemma replica_runs : ∃ h s, feed_run replica_junk demo_env replica_config replica_heap replica_server replica_commands = Done (h, s) ∧
  repl_backlog_histlen (stream s) = 64 ∧ master_repl_offset (stream s) = 190.
Proof.
  assert (match feed_run replica_junk demo_env replica_config replica_heap replica_server replica_commands with
          | Done (_, s) => (repl_backlog_histlen (stream s) =? 64) && (master_repl_offset (stream s) =? 190)
          | _ => false
          end = true) as H by (by vm_compute).
  destruct (feed_run _ _ _ _ _ _) as [[h s]| |]; try done. exists h, s.
  apply andb_true_iff in H as [H1%Z.eqb_eq H2%Z.eqb_eq]. done.
Qed.

Lemma stream_replays_witness :
  ∃ h s reqs, feed_run replica_junk demo_env replica_config replica_heap replica_server replica_commands = Done (h, s) ∧
    repl_backlog_histlen (stream s) = 64 ∧ follows 1 [] (requests reqs) (stream s) ∧ replay 5 reqs = replica_texts.
Proof.
  destruct replica_runs as (h & s & Hr & Hh & _).
  pose proof (stream_replays replica_junk demo_env replica_config replica_ext replica_view replica_shared_ok replica_selects
    1 [] [] replica_heap replica_server replica_commands replica_texts replica_serving replica_texts_of replica_no_selects eq_refl) as H.
  rewrite Hr in H. cbn [post] in H. destruct H as (reqs & Hp & Hf & _).
  exists h, s, reqs. split; [exact Hr|]. split; [exact Hh|]. split; [exact Hf|].
  apply Hp. right. split; [reflexivity|]. repeat (apply Forall_cons; split; [discriminate|]). apply Forall_nil_2.
Defined.

(** The stream "abcde", of which the slave has the first three bytes. *)
Definition short_backlog : backlog :=
  match feedReplicationBacklog replica_backlog [97; 98; 99; 100; 101] 5 with Done b => b | _ => replica_backlog end.
Definition short_server : server := Server [] (-1) short_backlog 0.

Lemma short_follows : follows 1 [] [97; 98; 99; 100; 101] short_backlog.
Proof.
  destruct (feeds_bytes [97; 98; 99; 100; 101] [] 5 eq_refl 1 [] [] replica_backlog replica_follows eq_refl) as (b & Eb & Hb & _).
  unfold short_backlog. rewrite app_nil_r in Eb. rewrite Eb. exact Hb.
Qed.

Lemma short_world : world replica_ext replica_heap (slaves short_server ++ [psync_peer]).
Proof. apply replica_world. constructor; [apply replica_fresh|constructor]. Qed.

Lemma short_runid : c_string replica_ext replica_view 124 replica_runid.
Proof.
  split; [by vm_compute|]. split; [by apply (bool_decide_unpack _); vm_compute|].
  exists (Sdshdr 40 0 (replica_runid ++ [0])). split; [by vm_compute|]. by apply (demo_sds_rep replica_runid).
Qed.

Lemma short_offset : argument replica_ext replica_view 125 (ll_text 4).
Proof. apply replica_argument; by vm_compute. Qed.

Lemma short_psync : ∃ h s wr,
  masterTryPartialResynchronization replica_junk demo_env replica_config true replica_heap short_server psync_peer 124 125 = Done (h, s, None, true, wr).
Proof.
  assert (match masterTryPartialResynchronization replica_junk demo_env replica_config true replica_heap short_server psync_peer 124 125 with
          | Done (_, _, None, true, _) => true | _ => false end = true) as H by (by vm_compute).
  destruct (masterTryPartialResynchronization _ _ _ _ _ _ _ _ _) as [[[[[h s] [?|]] []] wr]| |]; try done. by exists h, s, wr.
Qed.

Lemma psync_exact_witness :
  ∃ h s wr, masterTryPartialResynchronization replica_junk demo_env replica_config true replica_heap short_server psync_peer 124 125
      = Done (h, s, None, true, wr) ∧ wr = continue_text ∧
    joined demo_env replica_ext replica_view 1 [] [97; 98; 99; 100; 101] replica_heap short_server [99; 100; 101] h s.
Proof.
  destruct short_psync as (h & s & wr & Hr).
  pose proof (psync_exact replica_junk demo_env replica_config replica_ext replica_view 1 [] [97; 98; 99; 100; 101] true replica_heap
    short_server psync_peer 124 125 replica_runid 2 short_world (λ _ _, eq_refl) short_follows ltac:(done) ltac:(by vm_compute)
    (conj eq_refl eq_refl) demo_connected short_runid ltac:(unlimit; lia) short_offset) as H.
  cbv zeta in H. rewrite Hr in H. cbn [post] in H.
  destruct H as (_ & _ & Hw & Hj). exists h, s, wr. split; [exact Hr|]. split; [exact Hw|exact Hj].
Defined.

Lemma short_runs : ∃ h s,
  ('(h, s, _, ok, _) ← masterTryPartialResynchronization replica_junk demo_env replica_config true replica_heap short_server psync_peer 124 125;
   '(h, s) ← feed_run replica_junk demo_env replica_config h s replica_commands;
   Done (h, s, ok)) = Done (h, s, true) ∧ length (slaves s) = 1%nat.
Proof.
  assert (match '(h, s, _, ok, _) ← masterTryPartialResynchronization replica_junk demo_env replica_config true replica_heap short_server psync_peer 124 125;
   '(h, s) ← feed_run replica_junk demo_env replica_config h s replica_commands;
   Done (h, s, ok) with Done (_, s, true) => Nat.eqb (length (slaves s)) 1 | _ => false end = true) as H by (by vm_compute).
  revert H. generalize ('(h, s, _, ok, _) ← masterTryPartialResynchronization replica_junk demo_env replica_config true replica_heap short_server psync_peer 124 125;
   '(h, s) ← feed_run replica_junk demo_env replica_config h s replica_commands;
   Done (h, s, ok)).
  intros [[[h s] []]| |] H; try done. exists h, s. split; [done|]. by apply Nat.eqb_eq.
Qed.

Lemma resync_misses_nothing_witness :
  ∃ h s c, ('(h, s, _, ok, _) ← masterTryPartialResynchronization replica_junk demo_env replica_config true replica_heap short_server psync_peer 124 125;
     '(h, s) ← feed_run replica_junk demo_env replica_config h s replica_commands;
     Done (h, s, ok)) = Done (h, s, true) ∧ last (slaves s) = Some c ∧
    (inl <$> [97; 98]) ++ queued h (conn c) = inl <$> ([97; 98; 99; 100; 101] ++ requests (propagate (-1) replica_texts)).
Proof.
  destruct short_runs as (h & s & Hr & _).
  pose proof (resync_misses_nothing replica_junk demo_env replica_config replica_ext replica_view replica_shared_ok replica_selects
    1 [] [97; 98; 99; 100; 101] [97; 98] [99; 100; 101] replica_heap short_server psync_peer 124 125 replica_runid replica_commands replica_texts
    short_world (λ _ _, eq_refl) short_follows ltac:(done) (conj eq_refl eq_refl) demo_connected eq_refl ltac:(by vm_compute)
    short_runid eq_refl short_offset replica_texts_of ltac:(by vm_compute)) as H.
  rewrite Hr in H. cbn [post] in H. destruct H as (_ & (c & Hl & Hq) & _).
  exists h, s, c. split; [exact Hr|]. split; [exact Hl|exact Hq].
Defined.
