(* ===== verification/Skiplist.v ===== *)
(** * Skip lists ([t_zset.c], [redis.h])

    The nodes are in a store, a finite map from the pointers; a NULL pointer is
    [None], and so is any undefined behaviour: a pointer that is not in the
    store, a level that a node does not have, a failing assertion.  The element
    of a node is its text; a score is a double in its canonical form. *)
From Stdlib Require Import Floats.SpecFloat.
From S2P Require Import Prelude Dict.
Open Scope Z_scope.

(** ** The order of the elements ([object.c]) *)

(** The order of byte strings. *)
Fixpoint str_cmp (a b : list Z) : comparison :=
  match a, b with
  | [], [] => Eq
  | [], _ :: _ => Lt
  | _ :: _, [] => Gt
  | x :: a, y :: b => match x ?= y with Eq => str_cmp a b | c => c end
  end.

(** <string.h> promises only the sign of its result. *)
Class Memcmp := {
  memcmp : list Z → list Z → Z;
  memcmp_spec a b : length a = length b → memcmp a b ?= 0 = str_cmp a b;
}.

Definition ZSKIPLIST_MAXLEVEL : Z := 32.

Record zskiplistNode := ZskiplistNode {
  zn_obj : option (list Z);
  zn_score : spec_float;
  zn_backward : option positive;
  zn_level : list (option positive * Z);
}.

Record zskiplist := Zskiplist {
  zsl_header : positive;
  zsl_tail : option positive;
  zsl_length : Z;
  zsl_level : Z;
}.

Abbreviation mem := (gmap positive zskiplistNode).

Record zrangespec := Zrangespec { r_min : spec_float; r_max : spec_float; r_minex : bool; r_maxex : bool }.

(** An end of a lexicographic range; the first two are the shared objects, which
    are known by their address and have a text as well. *)
Inductive lexbound := LexMin | LexMax | LexStr (s : list Z).
Record zlexrangespec := Zlexrangespec { l_min : lexbound; l_max : lexbound; l_minex : bool; l_maxex : bool }.

Definition lex_text (b : lexbound) : list Z :=
  match b with
  | LexMin => [109; 105; 110; 115; 116; 114; 105; 110; 103]
  | LexMax => [109; 97; 120; 115; 116; 114; 105; 110; 103]
  | LexStr s => s
  end.

(** The dictionary from elements to scores, which the range deletions keep in
    step. *)
Class DictKeys (D : Type) := { dict_delete : D → list Z → option D }.

Section skiplist.
Context `{!Memcmp} (junk : option positive * Z).

Definition compareStringObjects (a b : list Z) : Z :=
  let minlen := Z.to_nat (Z.min (blen a) (blen b)) in
  let cmp := memcmp (take minlen a) (take minlen b) in
  if cmp =? 0 then i32 (u64 (blen a - blen b)) else cmp.
Definition equalStringObjects (a b : list Z) : bool := compareStringObjects a b =? 0.

(** ** Access to the nodes *)

Definition get_level (h : mem) (x : positive) (i : Z) : option (option positive * Z) :=
  if i <? 0 then None else n ← h !! x; zn_level n !! Z.to_nat i.
Definition set_level (h : mem) (x : positive) (i : Z) (v : option positive * Z) : option mem :=
  _ ← get_level h x i;
  n ← h !! x;
  Some (<[x := ZskiplistNode (zn_obj n) (zn_score n) (zn_backward n) (<[Z.to_nat i := v]> (zn_level n))]> h).
Definition set_backward (h : mem) (x : positive) (b : option positive) : option mem :=
  n ← h !! x; Some (<[x := ZskiplistNode (zn_obj n) (zn_score n) b (zn_level n)]> h).

(** [for (i = from; i < from + n; i++)]. *)
Fixpoint for_levels (n : nat) (i : Z) (body : Z → mem → option mem) (h : mem) : option mem :=
  match n with
  | O => Some h
  | S n => h ← body i h; for_levels n (i + 1) body h
  end.

Definition zslCreateNode (level : Z) (score : spec_float) (obj : option (list Z)) : zskiplistNode :=
  ZskiplistNode obj score (junk.1) (replicate (Z.to_nat level) junk).

Definition zslCreate (h : mem) : option (mem * zskiplist) :=
  let header := fresh (dom h) in
  let h := <[header := zslCreateNode ZSKIPLIST_MAXLEVEL (S754_zero false) None]> h in
  h ← for_levels (Z.to_nat ZSKIPLIST_MAXLEVEL) 0 (λ j h, set_level h header j (None, 0)) h;
  h ← set_backward h header None;
  Some (h, Zskiplist header None 0 1).

(** The pointer of the node and what it points to are of no use after this. *)
Definition zslFreeNode (h : mem) (x : positive) : mem := delete x h.

Fixpoint zslFree_loop (fuel : nat) (h : mem) (node : option positive) : option mem :=
  match node with
  | None => Some h
  | Some x =>
      match fuel with
      | O => None
      | S fuel => '(next, _) ← get_level h x 0; zslFree_loop fuel (zslFreeNode h x) next
      end
  end.
Definition zslFree (h : mem) (zsl : zskiplist) : option mem :=
  '(node, _) ← get_level h (zsl_header zsl) 0;
  zslFree_loop (S (size h)) (delete (zsl_header zsl) h) node.

(** [random()&0xFFFF] is below a quarter of 0xFFFF; [None] when all the given
    numbers are. *)
Fixpoint random_level (level : Z) (random : list Z) : option (Z * list Z) :=
  match random with
  | [] => None
  | r :: random => if 4 * Z.land r 65535 <? 65535 then random_level (level + 1) random else Some (level, random)
  end.
Definition zslRandomLevel (random : list Z) : option (Z * list Z) :=
  '(level, random) ← random_level 1 random;
  Some (if level <? ZSKIPLIST_MAXLEVEL then level else ZSKIPLIST_MAXLEVEL, random).

(** ** Searching

    The loops [while (x->level[i].forward && ...)]: the condition is that of the
    node in front of [x], and of the elements that are crossed to get there. *)
Section search.
Variable go_on : zskiplistNode → Z → bool.

Fixpoint forward_while (fuel : nat) (h : mem) (i : Z) (x : positive) (traversed : Z) : option (positive * Z) :=
  match fuel with
  | O => None
  | S fuel =>
      '(forward, span) ← get_level h x i;
      match forward with
      | None => Some (x, traversed)
      | Some y =>
          n ← h !! y;
          let t := u32 (traversed + span) in
          if go_on n t then forward_while fuel h i y t else Some (x, traversed)
      end
  end.

(** [for (i = zsl->level-1; i >= 0; i--)], with the node and the rank that each
    level has come to, level 0 first. *)
Fixpoint descend (n : nat) (h : mem) (x : positive) (traversed : Z) (update : list (positive * Z))
    : option (list (positive * Z)) :=
  match n with
  | O => Some update
  | S n =>
      '(x, traversed) ← forward_while (S (size h)) h (Z.of_nat n) x traversed;
      descend n h x traversed ((x, traversed) :: update)
  end.

(** The same, with a test after each level that may return. *)
Fixpoint descend_until {A} (found : positive → Z → option (option A)) (n : nat) (h : mem) (x : positive) (traversed : Z)
    : option (option A) :=
  match n with
  | O => Some None
  | S n =>
      '(x, traversed) ← forward_while (S (size h)) h (Z.of_nat n) x traversed;
      r ← found x traversed;
      match r with Some a => Some (Some a) | None => descend_until found n h x traversed end
  end.
End search.

(** The entry of [update] and [rank] for a level. *)
Definition at_level (update : list (positive * Z)) (i : Z) : option (positive * Z) :=
  if i <? 0 then None else update !! Z.to_nat i.

(** The score and the element of [n] are before the given ones. *)
Definition node_before (score : spec_float) (obj : list Z) (n : zskiplistNode) : bool :=
  SFltb (zn_score n) score ||
  (SFeqb (zn_score n) score &&
   match zn_obj n with Some o => compareStringObjects o obj <? 0 | None => false end).

Definition isnan (f : spec_float) : bool := match f with S754_nan => true | _ => false end.

(** ** Insertion *)

(** The levels that the list does not have yet. *)
Definition new_levels (zsl : zskiplist) (h : mem) (update : list (positive * Z)) (level : Z)
    : option (mem * list (positive * Z) * Z) :=
  if zsl_level zsl <? level then
    let n := Z.to_nat (level - zsl_level zsl) in
    h ← for_levels n (zsl_level zsl) (λ i h,
          '(forward, _) ← get_level h (zsl_header zsl) i;
          set_level h (zsl_header zsl) i (forward, u32 (zsl_length zsl))) h;
    Some (h, update ++ replicate n (zsl_header zsl, 0), level)
  else Some (h, update, zsl_level zsl).

Definition link_level (update : list (positive * Z)) (x : positive) (rank0 : Z) (i : Z) (h : mem) : option mem :=
  '(u, rank) ← at_level update i;
  '(forward, span) ← get_level h u i;
  '(_, xspan) ← get_level h x i;
  h ← set_level h x i (forward, xspan);
  h ← set_level h u i (Some x, span);
  h ← set_level h x i (forward, u32 (span - u32 (rank0 - rank)));
  set_level h u i (Some x, u32 (u32 (rank0 - rank) + 1)).

Definition bump_level (update : list (positive * Z)) (i : Z) (h : mem) : option mem :=
  '(u, _) ← at_level update i;
  '(forward, span) ← get_level h u i;
  set_level h u i (forward, u32 (span + 1)).

Definition zslInsert (random : list Z) (h : mem) (zsl : zskiplist) (score : spec_float) (obj : list Z)
    : option (mem * zskiplist * positive * list Z) :=
  if isnan score then None
  else
    update ← descend (λ n _, node_before score obj n) (Z.to_nat (zsl_level zsl)) h (zsl_header zsl) 0 [];
    '(level, random) ← zslRandomLevel random;
    '(h, update, zlevel) ← new_levels zsl h update level;
    let x := fresh (dom h) in
    let h := <[x := zslCreateNode level score (Some obj)]> h in
    '(u0, rank0) ← at_level update 0;
    h ← for_levels (Z.to_nat level) 0 (link_level update x rank0) h;
    h ← for_levels (Z.to_nat (zlevel - level)) level (bump_level update) h;
    h ← set_backward h x (if bool_decide (u0 = zsl_header zsl) then None else Some u0);
    '(forward, _) ← get_level h x 0;
    '(h, tail) ← match forward with
                 | Some y => h ← set_backward h y (Some x); Some (h, zsl_tail zsl)
                 | None => Some (h, Some x)
                 end;
    Some (h, Zskiplist (zsl_header zsl) tail (u32 (zsl_length zsl + 1)) zlevel, x, random).

(** ** Deletion *)

Definition unlink_level (update : list (positive * Z)) (x : positive) (i : Z) (h : mem) : option mem :=
  '(u, _) ← at_level update i;
  '(forward, span) ← get_level h u i;
  if bool_decide (forward = Some x) then
    '(xforward, xspan) ← get_level h x i;
    set_level h u i (xforward, u32 (span + u32 (xspan - 1)))
  else set_level h u i (forward, u32 (span - 1)).

(** [while(zsl->level > 1 && ...) zsl->level--]. *)
Fixpoint lower_level (fuel : nat) (h : mem) (header : positive) (level : Z) : option Z :=
  if 1 <? level then
    match fuel with
    | O => None
    | S fuel =>
        '(forward, _) ← get_level h header (level - 1);
        match forward with None => lower_level fuel h header (level - 1) | Some _ => Some level end
    end
  else Some level.

Definition zslDeleteNode (h : mem) (zsl : zskiplist) (x : positive) (update : list (positive * Z))
    : option (mem * zskiplist) :=
  h ← for_levels (Z.to_nat (zsl_level zsl)) 0 (unlink_level update x) h;
  '(forward, _) ← get_level h x 0;
  n ← h !! x;
  '(h, tail) ← match forward with
               | Some y => h ← set_backward h y (zn_backward n); Some (h, zsl_tail zsl)
               | None => Some (h, zn_backward n)
               end;
  level ← lower_level (Z.to_nat (zsl_level zsl)) h (zsl_header zsl) (zsl_level zsl);
  Some (h, Zskiplist (zsl_header zsl) tail (u32 (zsl_length zsl - 1)) level).

Definition zslDelete (h : mem) (zsl : zskiplist) (score : spec_float) (obj : list Z) : option (mem * zskiplist * bool) :=
  update ← descend (λ n _, node_before score obj n) (Z.to_nat (zsl_level zsl)) h (zsl_header zsl) 0 [];
  '(x, _) ← at_level update 0;
  '(forward, _) ← get_level h x 0;
  match forward with
  | None => Some (h, zsl, false)
  | Some x =>
      n ← h !! x;
      o ← zn_obj n;
      if SFeqb score (zn_score n) && equalStringObjects o obj then
        '(h, zsl) ← zslDeleteNode h zsl x update;
        Some (zslFreeNode h x, zsl, true)
      else Some (h, zsl, false)
  end.

(** ** Ranges of scores *)

Definition zslValueGteMin (value : spec_float) (spec : zrangespec) : bool :=
  if r_minex spec then SFltb (r_min spec) value else SFleb (r_min spec) value.
Definition zslValueLteMax (value : spec_float) (spec : zrangespec) : bool :=
  if r_maxex spec then SFltb value (r_max spec) else SFleb value (r_max spec).

(** The two ends of the list, tested for a range. *)
Definition ends_in_range (gte lte : zskiplistNode → bool) (h : mem) (zsl : zskiplist) : option bool :=
  match zsl_tail zsl with
  | None => Some false
  | Some x =>
      n ← h !! x;
      if negb (gte n) then Some false
      else
        '(forward, _) ← get_level h (zsl_header zsl) 0;
        match forward with
        | None => Some false
        | Some x => n ← h !! x; Some (lte n)
        end
  end.

Definition zslIsInRange (h : mem) (zsl : zskiplist) (range : zrangespec) : option bool :=
  if SFltb (r_max range) (r_min range) ||
     (SFeqb (r_min range) (r_max range) && (r_minex range || r_maxex range)) then Some false
  else ends_in_range (λ n, zslValueGteMin (zn_score n) range) (λ n, zslValueLteMax (zn_score n) range) h zsl.

(** The node behind the last one that is below the range. *)
Definition first_node (gte lte : zskiplistNode → bool) (h : mem) (zsl : zskiplist) : option (option positive) :=
  update ← descend (λ n _, negb (gte n)) (Z.to_nat (zsl_level zsl)) h (zsl_header zsl) 0 [];
  '(x, _) ← at_level update 0;
  '(forward, _) ← get_level h x 0;
  x ← forward;
  n ← h !! x;
  Some (if lte n then Some x else None).

(** The last node that is not above the range. *)
Definition last_node (gte lte : zskiplistNode → bool) (h : mem) (zsl : zskiplist) : option (option positive) :=
  update ← descend (λ n _, lte n) (Z.to_nat (zsl_level zsl)) h (zsl_header zsl) 0 [];
  '(x, _) ← at_level update 0;
  n ← h !! x;
  Some (if gte n then Some x else None).

Definition zslFirstInRange (h : mem) (zsl : zskiplist) (range : zrangespec) : option (option positive) :=
  b ← zslIsInRange h zsl range;
  if negb b then Some None
  else first_node (λ n, zslValueGteMin (zn_score n) range) (λ n, zslValueLteMax (zn_score n) range) h zsl.
Definition zslLastInRange (h : mem) (zsl : zskiplist) (range : zrangespec) : option (option positive) :=
  b ← zslIsInRange h zsl range;
  if negb b then Some None
  else last_node (λ n, zslValueGteMin (zn_score n) range) (λ n, zslValueLteMax (zn_score n) range) h zsl.

(** ** Lexicographic ranges

    [None] is REDIS_ERR. *)
Definition zslParseLexRangeItem (item : list Z) : option (lexbound * bool) :=
  match item with
  | c :: s =>
      if c =? 43 then (if bool_decide (hd 0 s = 0) then Some (LexMax, false) else None)
      else if c =? 45 then (if bool_decide (hd 0 s = 0) then Some (LexMin, false) else None)
      else if c =? 40 then Some (LexStr s, true)
      else if c =? 91 then Some (LexStr s, false)
      else None
  | [] => None
  end.
Definition zslParseLexRange (min max : list Z) : option zlexrangespec :=
  match zslParseLexRangeItem min, zslParseLexRangeItem max with
  | Some (min, minex), Some (max, maxex) => Some (Zlexrangespec min max minex maxex)
  | _, _ => None
  end.

Definition compareStringObjectsForLexRange (a b : lexbound) : Z :=
  match a, b with
  | LexMin, LexMin | LexMax, LexMax => 0
  | LexMin, _ | _, LexMax => -1
  | LexMax, _ | _, LexMin => 1
  | LexStr a, LexStr b => compareStringObjects a b
  end.

Definition zslLexValueGteMin (value : list Z) (spec : zlexrangespec) : bool :=
  let c := compareStringObjectsForLexRange (LexStr value) (l_min spec) in
  if l_minex spec then 0 <? c else 0 <=? c.
Definition zslLexValueLteMax (value : list Z) (spec : zlexrangespec) : bool :=
  let c := compareStringObjectsForLexRange (LexStr value) (l_max spec) in
  if l_maxex spec then c <? 0 else c <=? 0.

(** Of a node; the header has no element, and is not asked. *)
Definition on_obj (f : list Z → bool) (n : zskiplistNode) : bool := match zn_obj n with Some o => f o | None => false end.

Definition zslIsInLexRange (h : mem) (zsl : zskiplist) (range : zlexrangespec) : option bool :=
  if (1 <? compareStringObjectsForLexRange (l_min range) (l_max range)) ||
     ((compareStringObjects (lex_text (l_min range)) (lex_text (l_max range)) =? 0) && (l_minex range || l_maxex range))
  then Some false
  else ends_in_range (on_obj (λ o, zslLexValueGteMin o range)) (on_obj (λ o, zslLexValueLteMax o range)) h zsl.

Definition zslFirstInLexRange (h : mem) (zsl : zskiplist) (range : zlexrangespec) : option (option positive) :=
  b ← zslIsInLexRange h zsl range;
  if negb b then Some None
  else first_node (on_obj (λ o, zslLexValueGteMin o range)) (on_obj (λ o, zslLexValueLteMax o range)) h zsl.
Definition zslLastInLexRange (h : mem) (zsl : zskiplist) (range : zlexrangespec) : option (option positive) :=
  b ← zslIsInLexRange h zsl range;
  if negb b then Some None
  else last_node (on_obj (λ o, zslLexValueGteMin o range)) (on_obj (λ o, zslLexValueLteMax o range)) h zsl.

(** ** Deletion of ranges *)

Section deletion.
Context {D : Type} `{!DictKeys D}.

(** "Delete nodes while in range": the condition is that of the node and of its
    rank. *)
Fixpoint delete_while (fuel : nat) (go_on : zskiplistNode → Z → bool) (h : mem) (zsl : zskiplist) (x : option positive)
    (update : list (positive * Z)) (traversed : Z) (dict : D) (removed : Z) : option (mem * zskiplist * D * Z) :=
  match x with
  | None => Some (h, zsl, dict, removed)
  | Some p =>
      n ← h !! p;
      if go_on n traversed then
        match fuel with
        | O => None
        | S fuel =>
            '(next, _) ← get_level h p 0;
            '(h, zsl) ← zslDeleteNode h zsl p update;
            o ← zn_obj n;
            dict ← dict_delete dict o;
            delete_while fuel go_on (zslFreeNode h p) zsl next update (u32 (traversed + 1)) dict (u32 (removed + 1))
        end
      else Some (h, zsl, dict, removed)
  end.

(** The search for the first node and the deletion. *)
Definition delete_range (below in_range : zskiplistNode → Z → bool) (h : mem) (zsl : zskiplist) (dict : D)
    : option (mem * zskiplist * D * Z) :=
  update ← descend below (Z.to_nat (zsl_level zsl)) h (zsl_header zsl) 0 [];
  '(x, traversed) ← at_level update 0;
  '(forward, _) ← get_level h x 0;
  delete_while (S (size h)) in_range h zsl forward update (u32 (traversed + 1)) dict 0.

Definition zslDeleteRangeByScore (h : mem) (zsl : zskiplist) (range : zrangespec) (dict : D) : option (mem * zskiplist * D * Z) :=
  delete_range
    (λ n _, if r_minex range then SFleb (zn_score n) (r_min range) else SFltb (zn_score n) (r_min range))
    (λ n _, if r_maxex range then SFltb (zn_score n) (r_max range) else SFleb (zn_score n) (r_max range)) h zsl dict.
Definition zslDeleteRangeByLex (h : mem) (zsl : zskiplist) (range : zlexrangespec) (dict : D) : option (mem * zskiplist * D * Z) :=
  delete_range
    (λ n _, negb (on_obj (λ o, zslLexValueGteMin o range) n))
    (λ n _, on_obj (λ o, zslLexValueLteMax o range) n) h zsl dict.
Definition zslDeleteRangeByRank (h : mem) (zsl : zskiplist) (start end_ : Z) (dict : D) : option (mem * zskiplist * D * Z) :=
  delete_range (λ _ traversed, traversed <? start) (λ _ traversed, traversed <=? end_) h zsl dict.
End deletion.

(** ** Ranks *)

(** 0 when the element is not found. *)
Definition zslGetRank (h : mem) (zsl : zskiplist) (score : spec_float) (o : list Z) : option Z :=
  r ← descend_until
        (λ n _, SFltb (zn_score n) score ||
           (SFeqb (zn_score n) score &&
            match zn_obj n with Some o' => compareStringObjects o' o <=? 0 | None => false end))
        (λ x rank, n ← h !! x;
           Some (match zn_obj n with Some o' => if equalStringObjects o' o then Some rank else None | None => None end))
        (Z.to_nat (zsl_level zsl)) h (zsl_header zsl) 0;
  Some (default 0 r).

Definition zslGetElementByRank (h : mem) (zsl : zskiplist) (rank : Z) : option (option positive) :=
  descend_until (λ _ traversed, traversed <=? rank) (λ x traversed, Some (if traversed =? rank then Some x else None))
    (Z.to_nat (zsl_level zsl)) h (zsl_header zsl) 0.
End skiplist.

(** ** The order *)

Lemma str_cmp_eq a b : str_cmp a b = Eq ↔ a = b.
Proof.
  revert b. induction a as [|x a IH]; intros [|y b]; cbn; try done.
  destruct (Z.compare_spec x y) as [->| |]; [rewrite IH; split; [by intros ->|by intros [= ->]]|..];
    (split; [done|]); intros [= -> ->]; lia.
Qed.

Lemma str_cmp_refl a : str_cmp a a = Eq.
Proof. by apply str_cmp_eq. Qed.

Lemma str_cmp_antisym a b : str_cmp b a = CompOpp (str_cmp a b).
Proof.
  revert b. induction a as [|x a IH]; intros [|y b]; cbn; try done.
  rewrite (Z.compare_antisym x y). destruct (x ?= y); cbn; [apply IH|done..].
Qed.

Lemma str_cmp_trans a b c : str_cmp a b = Lt → str_cmp b c = Lt → str_cmp a c = Lt.
Proof.
  revert b c. induction a as [|x a IH]; intros [|y b] [|z c]; cbn; try done.
  destruct (x ?= y) eqn:E1, (y ?= z) eqn:E2; intros H1 H2; try done;
    rewrite ?Z.compare_eq_iff, ?Z.compare_lt_iff in *; destruct (x ?= z) eqn:E3; try done;
    rewrite ?Z.compare_eq_iff, ?Z.compare_gt_iff in *; try lia. eauto.
Qed.

Lemma str_cmp_app a b x y :
  length a = length b → str_cmp (a ++ x) (b ++ y) = match str_cmp a b with Eq => str_cmp x y | c => c end.
Proof.
  revert b. induction a as [|u a IH]; intros [|v b] Hl; try done. cbn. injection Hl as Hl.
  destruct (u ?= v); [by apply IH|done..].
Qed.

(** A number per part that the comparison of doubles goes by. *)
Definition fkey (f : spec_float) : list Z :=
  match f with
  | S754_nan | S754_zero _ => [0; 0; 0]
  | S754_infinity s => [if s then -2 else 2; 0; 0]
  | S754_finite s m e => if s then [-1; - e; - Zpos m] else [1; e; Zpos m]
  end.

Lemma SFcompare_key f g : isnan f = false → isnan g = false → SFcompare f g = Some (str_cmp (fkey f) (fkey g)).
Proof.
  intros Hf Hg. destruct f as [sf|sf| |sf mf ef], g as [sg|sg| |sg mg eg]; try done; try (by destruct sf);
    try (by destruct sg); try (by destruct sf, sg).
  destruct sf, sg; try done; cbn [SFcompare fkey str_cmp Z.compare Z.opp Pos.compare Pos.compare_cont CompOpp].
  - rewrite Z.compare_opp, (Z.compare_antisym ef eg). destruct (ef ?= eg); cbn; try done.
    fold (Pos.compare mf mg). rewrite Z.compare_opp. cbn. rewrite (Pos.compare_antisym mf mg).
    by destruct (mf ?= mg)%positive.
  - destruct (ef ?= eg); cbn; try done. fold (Pos.compare mf mg). by destruct (mf ?= mg)%positive.
Qed.

Lemma fkey_length f : length (fkey f) = 3%nat.
Proof. destruct f as [| | |[]]; done. Qed.

Lemma mod_mul_l a b n : 0 < b → 0 < n → a mod (n * b) mod n = a mod n.
Proof.
  intros Hb Hn. rewrite Z.rem_mul_r by lia. rewrite Z.mul_comm, Z.mod_add, Z.mod_mod by lia. done.
Qed.

Section comparisons.
Context `{!Memcmp}.

Lemma compareStringObjects_cmp a b :
  blen a < 2 ^ 31 → blen b < 2 ^ 31 → compareStringObjects a b ?= 0 = str_cmp a b.
Proof.
  intros Ha Hb. unfold compareStringObjects. pose proof (blen_nonneg a). pose proof (blen_nonneg b).
  set (m := Z.to_nat (Z.min (blen a) (blen b))).
  assert (length (take m a) = length (take m b)) as Hl by (subst m; unfold blen in *; rewrite !length_take; lia).
  pose proof (memcmp_spec (take m a) (take m b) Hl) as Hm.
  assert (str_cmp a b = match str_cmp (take m a) (take m b) with Eq => str_cmp (drop m a) (drop m b) | c => c end) as ->
    by (by rewrite <-str_cmp_app, !take_drop).
  rewrite <-Hm. destruct (Z.eqb_spec (memcmp (take m a) (take m b)) 0) as [E|E]; cycle 1.
  { destruct (Z.compare_spec (memcmp (take m a) (take m b)) 0); done || lia. }
  rewrite E. cbn [Z.compare].
  assert (i32 (u64 (blen a - blen b)) = blen a - blen b) as ->.
  { unfold wraps, wrapu. rewrite Z.add_mod by (unlimit; lia).
    change (2 ^ 64) with (2 ^ 32 * 2 ^ 32). rewrite mod_mul_l by lia. rewrite <-Z.add_mod by (unlimit; lia).
    change (2 ^ (32 - 1)) with (2 ^ 31). rewrite Z.mod_small; unlimit; lia. }
  rewrite <-(take_drop m a) at 1. rewrite <-(take_drop m b) at 1.
  assert (drop m a = [] ∨ drop m b = []) as Hd.
  { subst m. unfold blen. destruct (Nat.le_ge_cases (length a) (length b)); [left|right]; apply drop_ge; lia. }
  assert (blen (take m a) = blen (take m b)) by (unfold blen; by rewrite Hl).
  rewrite !blen_app. destruct (drop m a) as [|x a2], (drop m b) as [|y b2]; rewrite ?blen_cons, ?blen_nil.
  - apply Z.compare_eq_iff. lia.
  - pose proof (blen_nonneg b2). apply Z.compare_lt_iff. lia.
  - pose proof (blen_nonneg a2). apply Z.compare_gt_iff. lia.
  - destruct Hd; done.
Qed.
End comparisons.

(** ** Stores level by level *)

(** What for_levels leaves alone: the fields of the nodes but for their levels. *)
Definition node_attrs (n : zskiplistNode) : option (list Z) * spec_float * option positive * nat :=
  (zn_obj n, zn_score n, zn_backward n, length (zn_level n)).
Definition same_nodes (h h' : mem) : Prop := ∀ p, node_attrs <$> h !! p = node_attrs <$> h' !! p.

#[global] Instance same_nodes_equiv : Equivalence same_nodes.
Proof. split; [done|by intros ? ? E p|]. intros h1 h2 h3 E1 E2 p. by rewrite E1. Qed.

Lemma same_nodes_dom h h' : same_nodes h h' → dom h' = dom h.
Proof.
  intros E. apply leibniz_equiv. intros p. rewrite !elem_of_dom. specialize (E p).
  destruct (h !! p), (h' !! p); try done; split; intros [? ?]; done || by eexists.
Qed.

Lemma set_level_Some h x i v w :
  get_level h x i = Some w →
  ∃ h', set_level h x i v = Some h' ∧ same_nodes h h' ∧
    ∀ p j, get_level h' p j = if decide (p = x ∧ j = i) then Some v else get_level h p j.
Proof.
  unfold set_level. intros E. rewrite E. unfold get_level in *. destruct (Z.ltb_spec i 0) as [|Hi]; [done|].
  destruct (h !! x) as [n|] eqn:En; [|done]. cbn [mbind option_bind] in *. eexists. split; [done|]. split.
  - intros p. destruct (decide (p = x)) as [->|Hp]; [|by rewrite lookup_insert_ne].
    rewrite En, lookup_insert_eq. cbn. unfold node_attrs. cbn. by rewrite length_insert.
  - intros p j. destruct (Z.ltb_spec j 0) as [|Hj].
    { rewrite decide_False by lia. done. }
    destruct (decide (p = x ∧ j = i)) as [[-> ->]|Hne].
    + rewrite lookup_insert_eq. cbn. apply list_lookup_insert_eq. by apply lookup_lt_Some in E.
    + destruct (decide (p = x)) as [->|Hp]; [|by rewrite lookup_insert_ne].
      rewrite lookup_insert_eq, En. cbn. rewrite list_lookup_insert_ne; [done|].
      intros ?. apply Hne. split; [done|lia].
Qed.

(** A loop over the levels, each turn of which rewrites the column of its level. *)
Definition writes_column (body : Z → mem → option mem) (col : positive → Z → option (option positive * Z))
    (h0 : mem) (i : Z) : Prop :=
  ∀ h, same_nodes h0 h → (∀ p, get_level h p i = get_level h0 p i) →
  ∃ h', body i h = Some h' ∧ same_nodes h h' ∧ ∀ p j, get_level h' p j = if decide (j = i) then col p i else get_level h p j.

Lemma for_levels_spec body col h0 n : ∀ i h,
  same_nodes h0 h → (∀ p j, i ≤ j < i + Z.of_nat n → get_level h p j = get_level h0 p j) →
  (∀ j, i ≤ j < i + Z.of_nat n → writes_column body col h0 j) →
  ∃ h', for_levels n i body h = Some h' ∧ same_nodes h h' ∧
    ∀ p j, get_level h' p j = if decide (i ≤ j < i + Z.of_nat n) then col p j else get_level h p j.
Proof.
  induction n as [|n IH]; intros i h Hs Hg Hb; cbn [for_levels].
  { exists h. split; [done|]. split; [done|]. intros p j. rewrite decide_False by lia. done. }
  destruct (Hb i ltac:(lia) h Hs) as (h1 & -> & Hs1 & Hg1); [intros p; apply Hg; lia|]. cbn [mbind option_bind].
  destruct (IH (i + 1) h1) as (h2 & -> & Hs2 & Hg2).
  - by transitivity h.
  - intros p j Hj. rewrite Hg1, decide_False by lia. apply Hg. lia.
  - intros j Hj. apply Hb. lia.
  - exists h2. split; [done|]. split; [by transitivity h1|]. intros p j. rewrite Hg2, Hg1.
    destruct (decide (i + 1 ≤ j < i + 1 + Z.of_nat n)); [by rewrite decide_True by lia|].
    destruct (decide (j = i)) as [->|]; [rewrite decide_True by lia|rewrite decide_False by lia]; done.
Qed.

Lemma set_backward_Some h x b n :
  h !! x = Some n →
  ∃ h', set_backward h x b = Some h' ∧ (∀ p j, get_level h' p j = get_level h p j) ∧ dom h' = dom h ∧
    (∀ p, (λ n, (zn_obj n, zn_score n, length (zn_level n))) <$> h' !! p = (λ n, (zn_obj n, zn_score n, length (zn_level n))) <$> h !! p) ∧
    ∀ p, zn_backward <$> h' !! p = if decide (p = x) then Some b else zn_backward <$> h !! p.
Proof.
  intros E. unfold set_backward. rewrite E. cbn [mbind option_bind]. eexists. split; [done|]. split_and!.
  - intros p j. unfold get_level. destruct (j <? 0); [done|]. destruct (decide (p = x)) as [->|];
      [by rewrite lookup_insert_eq, E|by rewrite lookup_insert_ne].
  - rewrite dom_insert_L. apply elem_of_dom_2 in E. set_solver.
  - intros p. destruct (decide (p = x)) as [->|]; [by rewrite lookup_insert_eq, E|by rewrite lookup_insert_ne].
  - intros p. destruct (decide (p = x)) as [->|]; [by rewrite lookup_insert_eq|by rewrite lookup_insert_ne].
Qed.

(** ** The elements of a list *)

Record ent := Ent { e_ptr : positive; e_height : Z; e_score : spec_float; e_obj : option (list Z) }.

(** The pointer and the span at a level in front of the nodes [l]. *)
Fixpoint next (i : Z) (l : list ent) : option positive * Z :=
  match l with
  | [] => (None, 0)
  | e :: l => if i <? e_height e then (Some (e_ptr e), 1) else let '(p, s) := next i l in (p, s + 1)
  end.

Notation short i := (Forall (λ e, e_height e ≤ i)).

Lemma next_short i s l : short i s → next i (s ++ l) = (fst (next i l), snd (next i l) + Z.of_nat (length s)).
Proof.
  induction 1 as [|e s He _ IH]; cbn [app next length]; [by destruct (next i l); cbn; rewrite Z.add_0_r|].
  rewrite (proj2 (Z.ltb_ge _ _)) by done. rewrite IH. f_equal. lia.
Qed.

Lemma next_tall i s e l : short i s → i < e_height e → next i (s ++ e :: l) = (Some (e_ptr e), Z.of_nat (length s) + 1).
Proof.
  intros Hs He. rewrite next_short by done. cbn [next]. rewrite (proj2 (Z.ltb_lt _ _)) by done.
  cbn. f_equal. lia.
Qed.

Lemma next_none i s : short i s → next i s = (None, Z.of_nat (length s)).
Proof. intros Hs. rewrite <-(app_nil_r s) at 1. rewrite next_short by done. done. Qed.

Lemma next_span i l : 0 ≤ snd (next i l) ≤ Z.of_nat (length l).
Proof.
  induction l as [|e l IH]; cbn [next length]; [done|]. destruct (_ <? _); cbn; [lia|].
  destruct (next i l) as [p s]. cbn in *. lia.
Qed.

(** The first and the last node that has a level. *)
Lemma first_tall i (l : list ent) : short i l ∨ ∃ s e r, l = s ++ e :: r ∧ short i s ∧ i < e_height e.
Proof.
  induction l as [|e l IH]; [by left|]. destruct (Z.lt_ge_cases i (e_height e)) as [He|He].
  { right. exists [], e, l. by repeat constructor. }
  destruct IH as [IH|(s & e' & r & -> & Hs & He')]; [left; by constructor|].
  right. exists (e :: s), e', r. split; [done|]. split; [by constructor|done].
Qed.

(** At level [i], [e] is the last of [A] that has it; [A0] are before it and [A1]
    behind it. *)
Definition last_tall (i : Z) (A A0 : list ent) (e : ent) (A1 : list ent) : Prop :=
  A = A0 ++ e :: A1 ∧ i < e_height e ∧ short i A1.

Lemma last_tall_exists i hd A : i < e_height hd → ∃ A0 e A1, last_tall i (hd :: A) A0 e A1.
Proof.
  intros Hh. induction A as [|x A IH] using rev_ind; [by exists [], hd, []; repeat constructor|].
  destruct (Z.lt_ge_cases i (e_height x)) as [Hx|Hx].
  { exists (hd :: A), x, []. by repeat constructor. }
  destruct IH as (A0 & e & A1 & E & He & Hs). exists A0, e, (A1 ++ [x]).
  split; [by rewrite app_comm_cons, E, <-(assoc_L (++))|]. split; [done|]. apply Forall_app. split; [done|].
  by repeat constructor.
Qed.

Lemma last_tall_unique i A A0 e A1 B0 e' B1 :
  last_tall i A A0 e A1 → last_tall i A B0 e' B1 → A0 = B0 ∧ e = e' ∧ A1 = B1.
Proof.
  intros (-> & He & Hs) (E & He' & Hs'). revert B0 E. induction A0 as [|x A0 IH]; intros [|y B0] E; cbn in E.
  - by injection E as -> ->.
  - injection E as -> ->. apply Forall_app in Hs as [_ [Hs _]%Forall_cons]. lia.
  - injection E as -> <-. apply Forall_app in Hs' as [_ [Hs' _]%Forall_cons]. lia.
  - injection E as -> E. destruct (IH _ E) as (-> & ? & ?). done.
Qed.

(** ** The invariant *)

(** At the levels below [lv], each node points to the next one that has the level. *)
Definition linked (h : mem) (lv : Z) (l : list ent) : Prop :=
  ∀ A e B i, l = A ++ e :: B → 0 ≤ i < e_height e → i < lv → get_level h (e_ptr e) i = Some (next i B).

(** Each node has its element, score and height. *)
Definition ent_attrs (e : ent) : option (list Z) * spec_float * nat := (e_obj e, e_score e, Z.to_nat (e_height e)).
Definition attrs (n : zskiplistNode) : option (list Z) * spec_float * nat :=
  (zn_obj n, zn_score n, length (zn_level n)).
Definition described (h : mem) (l : list ent) : Prop :=
  Forall (λ e, attrs <$> h !! e_ptr e = Some (ent_attrs e) ∧ 0 ≤ e_height e) l.

(** The back pointers: that of the first node is [prev]. *)
Fixpoint backed (h : mem) (prev : option positive) (l : list ent) : Prop :=
  match l with
  | [] => True
  | e :: l => zn_backward <$> h !! e_ptr e = Some prev ∧ backed h (Some (e_ptr e)) l
  end.

Definition ent_key (e : ent) : list Z := fkey (e_score e) ++ default [] (e_obj e).
Definition ent_before (a b : ent) : Prop := str_cmp (ent_key a) (ent_key b) = Lt.

(** The nodes behind the header are [ns]. *)
Record skiplist_ok (h : mem) (z : zskiplist) (hd : ent) (ns : list ent) : Prop := {
  sk_linked : linked h (zsl_level z) (hd :: ns);
  sk_described : described h (hd :: ns);
  sk_backed : backed h None ns;
  sk_above : ∀ i, zsl_level z ≤ i < ZSKIPLIST_MAXLEVEL → fst <$> get_level h (e_ptr hd) i = Some None;
  sk_nodup : NoDup (e_ptr <$> hd :: ns);
  sk_dom : dom h = list_to_set (e_ptr <$> hd :: ns);
  sk_header : e_ptr hd = zsl_header z ∧ e_height hd = ZSKIPLIST_MAXLEVEL ∧ e_obj hd = None;
  sk_tail : zsl_tail z = e_ptr <$> last ns;
  sk_length : zsl_length z = Z.of_nat (length ns) ∧ Z.of_nat (length ns) < 2 ^ 32;
  sk_heights : Forall (λ e, 1 ≤ e_height e ≤ ZSKIPLIST_MAXLEVEL) ns;
  sk_level : zsl_level z = foldr Z.max 1 (e_height <$> ns);
  sk_sorted : StronglySorted ent_before ns;
  sk_elements : Forall (λ e, isnan (e_score e) = false ∧ ∃ o, e_obj e = Some o ∧ blen o < 2 ^ 31) ns;
}.

(** ** The search *)

Lemma described_lookup h l A e B :
  described h l → l = A ++ e :: B → ∃ n, h !! e_ptr e = Some n ∧ attrs n = ent_attrs e ∧ 0 ≤ e_height e.
Proof.
  intros Hd ->. apply Forall_app in Hd as [_ [[Hd Hh] _]%Forall_cons].
  destruct (h !! e_ptr e) as [n|]; [|done]. injection Hd as Hd. exists n. split; [done|]. split; [by unfold attrs, ent_attrs; congruence|done].
Qed.

(** The condition holds exactly in front of the elements of [A], the header first. *)
Definition holds_up_to (go_on : zskiplistNode → Z → bool) (h : mem) (A B : list ent) : Prop :=
  ∀ P e Q n, A ++ B = P ++ e :: Q → P ≠ [] → h !! e_ptr e = Some n →
  go_on n (Z.of_nat (length P)) = bool_decide (length P < length A)%nat.

Section search.
Variables (go_on : zskiplistNode → Z → bool) (h : mem) (lv : Z) (A B : list ent).
Hypothesis (Hlinked : linked h lv (A ++ B)) (Hdesc : described h (A ++ B)) (Hcond : holds_up_to go_on h A B).
Hypothesis (Hlen : Z.of_nat (length (A ++ B)) ≤ 2 ^ 32).

Lemma forward_while_spec fuel : ∀ i A1 e0 A2,
  A = A1 ++ e0 :: A2 → 0 ≤ i < e_height e0 → i < lv → (length A2 < fuel)%nat →
  ∃ A0 e A3, last_tall i A A0 e A3 ∧
    forward_while go_on fuel h i (e_ptr e0) (Z.of_nat (length A1)) = Some (e_ptr e, Z.of_nat (length A0)).
Proof.
  induction fuel as [|fuel IH]; intros i A1 e0 A2 EA Hi Hlv Hf; [lia|]. cbn [forward_while].
  rewrite (Hlinked A1 e0 (A2 ++ B) i) by (try done; rewrite EA; by rewrite <-(assoc_L (++))).
  assert (Z.of_nat (length A) ≤ 2 ^ 32) as HlA by (rewrite length_app in Hlen; lia).
  destruct (first_tall i A2) as [Hs|(s & e & r & EA2 & Hs & He)].
  - exists A1, e0, A2. split; [split; [done|split; [lia|done]]|]. rewrite next_short by done. cbn [mbind option_bind].
    destruct (first_tall i B) as [HB|(s' & e & r & EB & Hs' & He)].
    { rewrite next_none by done. done. }
    rewrite EB, next_tall by done. cbn [fst snd].
    destruct (described_lookup h (A ++ B) (A ++ s') e r Hdesc) as (n & En & _); [by rewrite EB, (assoc_L (++))|].
    rewrite En. cbn [mbind option_bind].
    assert (Z.of_nat (length A1) + (Z.of_nat (length s') + 1 + Z.of_nat (length A2)) = Z.of_nat (length (A ++ s'))) as ->.
    { rewrite EA, !length_app. cbn [length]. lia. }
    rewrite (wrapu_small 32); cycle 1.
    { rewrite EB, !length_app in Hlen. rewrite length_app. cbn [length] in Hlen. lia. }
    rewrite (Hcond (A ++ s') e r n), bool_decide_false; [done| |by rewrite EB, <-(assoc_L (++))| |done].
    + rewrite length_app. lia.
    + rewrite EA. by destruct A1.
  - rewrite EA2, <-(assoc_L (++)). cbn [app]. rewrite next_tall by done. cbn [mbind option_bind].
    assert (A = (A1 ++ e0 :: s) ++ e :: r) as EA' by (by rewrite EA, EA2, <-(assoc_L (++))).
    destruct (described_lookup h (A ++ B) (A1 ++ e0 :: s) e (r ++ B) Hdesc) as (n & En & _);
      [by rewrite EA', <-(assoc_L (++))|].
    rewrite En. cbn [mbind option_bind].
    assert (Z.of_nat (length A1) + (Z.of_nat (length s) + 1) = Z.of_nat (length (A1 ++ e0 :: s))) as ->
      by (rewrite length_app; cbn [length]; lia).
    rewrite (wrapu_small 32) by (rewrite EA', length_app in HlA; cbn [length] in HlA; lia).
    rewrite (Hcond (A1 ++ e0 :: s) e (r ++ B) n), bool_decide_true;
      [|rewrite EA', (length_app (A1 ++ e0 :: s)); cbn [length]; lia|by rewrite EA' at 1; rewrite <-(assoc_L (++))|by destruct A1|done].
    apply (IH i _ e r EA'); [|done|]; [split; [lia|done]|]. rewrite EA2, length_app in Hf. cbn [length] in Hf. lia.
Qed.

(** The nodes that the levels come to. *)
Definition update_ok (n : nat) (U : list (positive * Z)) : Prop :=
  length U = n ∧ ∀ i, (i < n)%nat → ∃ A0 e A3, last_tall (Z.of_nat i) A A0 e A3 ∧
    U !! i = Some (e_ptr e, Z.of_nat (length A0)).

Hypothesis (Hsize : (length A ≤ S (size h))%nat).

Lemma descend_spec n : ∀ A1 e0 A2 U,
  A = A1 ++ e0 :: A2 → Z.of_nat n ≤ e_height e0 → Z.of_nat n ≤ lv →
  ∃ L, descend go_on n h (e_ptr e0) (Z.of_nat (length A1)) U = Some (L ++ U) ∧ update_ok n L.
Proof.
  induction n as [|n IH]; intros A1 e0 A2 U EA Hh Hlv; cbn [descend].
  { exists []. split; [done|]. split; [done|lia]. }
  destruct (forward_while_spec (S (size h)) (Z.of_nat n) A1 e0 A2 EA) as (A0 & e & A3 & Hlast & ->); [lia|lia| |].
  { rewrite EA, length_app in Hsize. cbn [length] in Hsize. lia. }
  cbn [mbind option_bind]. destruct Hlast as (EA' & He & Hs).
  destruct (IH A0 e A3 ((e_ptr e, Z.of_nat (length A0)) :: U) EA') as (L & -> & Hl & HL); [lia|lia|].
  exists (L ++ [(e_ptr e, Z.of_nat (length A0))]). rewrite <-(assoc_L (++)). split; [done|].
  split; [rewrite length_app; cbn; lia|]. intros i Hi. destruct (decide (i = n)) as [->|].
  - exists A0, e, A3. split; [by split|]. rewrite lookup_app_r, Hl, Nat.sub_diag by lia. done.
  - destruct (HL i ltac:(lia)) as (B0 & e' & B3 & Ht & E). exists B0, e', B3. split; [done|].
    by rewrite lookup_app_l by lia.
Qed.

Lemma descend_until_spec {R} (found : positive → Z → option (option R)) n : ∀ A1 e0 A2,
  (∀ i A0 e A3, 0 ≤ i < Z.of_nat n → last_tall i A A0 e A3 → is_Some (found (e_ptr e) (Z.of_nat (length A0)))) →
  A = A1 ++ e0 :: A2 → Z.of_nat n ≤ e_height e0 → Z.of_nat n ≤ lv →
  ∃ r, descend_until go_on found n h (e_ptr e0) (Z.of_nat (length A1)) = Some r ∧
    match r with
    | Some a => ∃ i A0 e A3, 0 ≤ i < Z.of_nat n ∧ last_tall i A A0 e A3 ∧ found (e_ptr e) (Z.of_nat (length A0)) = Some (Some a)
    | None => ∀ i A0 e A3, 0 ≤ i < Z.of_nat n → last_tall i A A0 e A3 → found (e_ptr e) (Z.of_nat (length A0)) = Some None
    end.
Proof.
  induction n as [|n IH]; intros A1 e0 A2 Hfound EA Hh Hlv; cbn [descend_until].
  { exists None. split; [done|]. intros; lia. }
  destruct (forward_while_spec (S (size h)) (Z.of_nat n) A1 e0 A2 EA) as (A0 & e & A3 & Hlast & ->); [lia|lia| |].
  { rewrite EA, length_app in Hsize. cbn [length] in Hsize. lia. }
  cbn [mbind option_bind]. destruct (Hfound (Z.of_nat n) A0 e A3 ltac:(lia) Hlast) as [r Er]. rewrite Er.
  cbn [mbind option_bind]. destruct r as [a|].
  { exists (Some a). split; [done|]. exists (Z.of_nat n), A0, e, A3. split; [lia|]. by split. }
  pose proof Hlast as (EA' & He & Hs). destruct (IH A0 e A3) as (r & -> & Hr); [|done|lia|lia|].
  { intros i B0 e' B3 Hi. apply Hfound. lia. }
  exists r. split; [done|]. destruct r as [a|].
  - destruct Hr as (i & B0 & e' & B3 & Hi & ?). exists i, B0, e', B3. split; [lia|done].
  - intros i B0 e' B3 Hi Hl. destruct (decide (i = Z.of_nat n)) as [->|]; [|apply (Hr i B0 e' B3); [lia|done]].
    destruct (last_tall_unique _ _ _ _ _ _ _ _ Hlast Hl) as (-> & -> & _). done.
Qed.
End search.

(** A condition on the elements that holds for the first ones of a sorted list. *)
Lemma split_sorted (p : ent → bool) ns :
  StronglySorted ent_before ns → (∀ a b, a ∈ ns → b ∈ ns → ent_before a b → p b = true → p a = true) →
  ∃ P Q, ns = P ++ Q ∧ Forall (λ e, p e = true) P ∧ Forall (λ e, p e = false) Q.
Proof.
  intros Hs Hp. induction Hs as [|e ns _ IH He]; [by exists [], []|].
  destruct IH as (P & Q & -> & HP & HQ); [intros a b Ha Hb; apply Hp; by right|].
  destruct (p e) eqn:Ee; [exists (e :: P), Q; split_and!; try done; by constructor|].
  exists [], (e :: P ++ Q). split; [done|]. split; [done|]. constructor; [done|].
  apply Forall_app. split; [|done]. rewrite Forall_forall in *. intros x Hx. apply not_true_is_false. intros Ex.
  assert (x ∈ P ++ Q) as Hx' by (apply elem_of_app; by left).
  rewrite (Hp e x) in Ee; [done|by left|by right|by apply He|done].
Qed.

Lemma holds_up_to_pred go_on (p : ent → bool) h hd P Q :
  described h (hd :: P ++ Q) →
  (∀ e n t, e ∈ P ++ Q → attrs n = ent_attrs e → go_on n t = p e) →
  Forall (λ e, p e = true) P → Forall (λ e, p e = false) Q → holds_up_to go_on h (hd :: P) Q.
Proof.
  intros Hd Hgo HP HQ P1 e Q1 n E Hne En. destruct P1 as [|x P1]; [done|]. cbn in E. injection E as -> E.
  destruct (described_lookup h (x :: P ++ Q) (x :: P1) e Q1 Hd) as (n' & En' & Hat & _); [cbn; by rewrite E|].
  assert (n' = n) as -> by congruence. rewrite (Hgo e n) by (done || rewrite E; apply elem_of_app; right; left).
  cbn [length]. apply app_eq_inv in E as [(k & E1 & E2)|(k & E1 & E2)].
  - destruct k as [|y k].
    + rewrite app_nil_r in E1. subst P1. cbn in E2. subst Q. rewrite bool_decide_false by lia.
      by apply Forall_cons in HQ as [? _].
    + injection E2 as <- ->. subst P. rewrite length_app. cbn [length]. rewrite bool_decide_true by lia.
      apply Forall_app in HP as [_ [? _]%Forall_cons]. done.
  - subst P1 Q. rewrite length_app, bool_decide_false by lia. by apply Forall_app in HQ as [_ [? _]%Forall_cons].
Qed.

(** ** Changing a stretch of the list *)

Lemma nodup_split {X} (f : X → positive) l A x B C y D :
  NoDup (f <$> l) → l = A ++ x :: B → l = C ++ y :: D → f x = f y → A = C ∧ x = y ∧ B = D.
Proof.
  intros Hnd -> E Hf. revert C E. induction A as [|a A IH]; intros C E.
  - destruct C as [|c C]; [by injection E as -> ->|]. injection E as <- ->. cbn in Hnd.
    apply NoDup_cons in Hnd as [Hnd _]. destruct Hnd. rewrite fmap_app. apply elem_of_app. right. rewrite Hf. by left.
  - cbn in Hnd. apply NoDup_cons in Hnd as [Ha Hnd]. destruct C as [|c C]; injection E as -> E.
    + destruct Ha. rewrite fmap_app. apply elem_of_app. right. rewrite <-Hf. by left.
    + destruct (IH Hnd C E) as (-> & ? & ?). done.
Qed.

Lemma split_elem {X} (l1 l2 C : list X) e D :
  l1 ++ l2 = C ++ e :: D →
  (∃ k, l1 = C ++ e :: k ∧ D = k ++ l2) ∨ (∃ C', C = l1 ++ C' ∧ l2 = C' ++ e :: D).
Proof.
  intros [(k & -> & E)|(k & -> & ->)]%app_eq_inv; [|right; by exists k].
  destruct k as [|x k]; [right; exists []; by rewrite !app_nil_r|]. injection E as -> ->. left. by exists k.
Qed.

(** [M] is replaced by [M'] between [A] and [Q]: only the last nodes of [A] with the
    levels, and those of [M'], have new pointers. *)
Lemma relink_between h h' lv A M M' Q :
  NoDup (e_ptr <$> A ++ M' ++ Q) →
  linked h lv (A ++ M ++ Q) →
  (∀ i A0 e A3, 0 ≤ i < lv → last_tall i A A0 e A3 → get_level h' (e_ptr e) i = Some (next i (A3 ++ M' ++ Q))) →
  (∀ p i, 0 ≤ i < lv → p ∈ e_ptr <$> A ++ Q → (∀ A0 e A3, last_tall i A A0 e A3 → p ≠ e_ptr e) →
     get_level h' p i = get_level h p i) →
  (∀ C e D i, M' = C ++ e :: D → 0 ≤ i < e_height e → i < lv → get_level h' (e_ptr e) i = Some (next i (D ++ Q))) →
  linked h' lv (A ++ M' ++ Q).
Proof.
  intros Hnd Hl Htall Hsame Hmid C e D i E Hi Hlv.
  assert (∀ (l : list ent), e ∈ l → e_ptr e ∈ e_ptr <$> l) as Hin by (intros; by apply list_elem_of_fmap_2).
  apply split_elem in E as [(A3 & EA & ->)|(C' & -> & E)].
  { destruct (first_tall i A3) as [Hs|(s & t & r & EA3 & Hs & Ht)].
    { apply (Htall i C e A3); [lia|]. split; [done|split; [lia|done]]. }
    rewrite Hsame; [|lia|apply Hin; rewrite EA; set_solver|].
    - rewrite (Hl C e (A3 ++ M ++ Q) i); [|by rewrite EA, <-(assoc_L (++))|done|done].
      rewrite EA3, <-!(assoc_L (++)). cbn [app]. by rewrite !next_tall.
    - intros A0 e' A3' (EA' & He' & Hs') Heq. rewrite fmap_app in Hnd. apply NoDup_app in Hnd as [Hnd _].
      destruct (nodup_split e_ptr A C e A3 A0 e' A3' Hnd EA EA' Heq) as (-> & -> & ->).
      rewrite EA3 in Hs'. apply Forall_app in Hs' as [_ [? _]%Forall_cons]. lia. }
  apply split_elem in E as [(D' & EM & ->)|(C2 & -> & EQ)]; [by eapply Hmid|].
  rewrite Hsame; [|lia|apply Hin; rewrite EQ; set_solver|].
  - apply (Hl (A ++ M ++ C2) e D i); [by rewrite EQ, <-!(assoc_L (++))|done|done].
  - intros A0 e' A3 (EA' & _) Heq. rewrite fmap_app in Hnd. apply NoDup_app in Hnd as (_ & Hnd & _).
    apply (Hnd (e_ptr e)).
    + rewrite Heq. apply list_elem_of_fmap_2. rewrite EA'. set_solver.
    + apply Hin. rewrite EQ. set_solver.
Qed.

(** ** Insertion *)

Lemma zslRandomLevel_range random level random' :
  zslRandomLevel random = Some (level, random') → 1 ≤ level ≤ ZSKIPLIST_MAXLEVEL.
Proof.
  unfold zslRandomLevel. intros H. inv_bind. destruct v as [l r]. injection H as <- <-.
  assert (1 ≤ l); [|destruct (Z.ltb_spec l ZSKIPLIST_MAXLEVEL); unfold ZSKIPLIST_MAXLEVEL in *; lia].
  assert (∀ lv, random_level lv random = Some (l, r) → lv ≤ l) as Hr; [|by apply Hr].
  clear E. induction random as [|x random IH]; intros lv E; cbn [random_level] in E; [done|].
  destruct (_ <? _); [apply IH in E; lia|injection E as -> _; lia].
Qed.

(** Of the fields that the deletion and the insertion leave alone. *)
Definition same_attrs (h h' : mem) : Prop := ∀ p, attrs <$> h !! p = attrs <$> h' !! p.

Lemma same_nodes_attrs h h' : same_nodes h h' → same_attrs h h'.
Proof.
  intros E p. specialize (E p). destruct (h !! p), (h' !! p); try done. cbn in *. unfold node_attrs, attrs in *. congruence.
Qed.

Lemma same_nodes_backward h h' p : same_nodes h h' → zn_backward <$> h !! p = zn_backward <$> h' !! p.
Proof.
  intros E. specialize (E p). destruct (h !! p), (h' !! p); try done. cbn in *. unfold node_attrs in *. congruence.
Qed.

Lemma described_ext h h' l : (∀ e, e ∈ l → attrs <$> h !! e_ptr e = attrs <$> h' !! e_ptr e) → described h l → described h' l.
Proof.
  intros E Hd. unfold described in *. rewrite Forall_forall in *. intros e He. rewrite <-E by done. by apply Hd.
Qed.

Lemma get_level_height h e i :
  attrs <$> h !! e_ptr e = Some (ent_attrs e) → 0 ≤ i < e_height e → is_Some (get_level h (e_ptr e) i).
Proof.
  intros Ha Hi. unfold get_level. rewrite (proj2 (Z.ltb_ge _ _)) by lia. destruct (h !! e_ptr e) as [n|]; [|done].
  cbn. apply lookup_lt_is_Some. injection Ha as _ _ Hl. lia.
Qed.

Lemma at_level_nat U (i : nat) : at_level U (Z.of_nat i) = U !! i.
Proof. unfold at_level. rewrite (proj2 (Z.ltb_ge _ _)) by lia. by rewrite Nat2Z.id. Qed.

(** The entries of [update] are the last nodes. *)
Definition updates (A : list ent) (lv : Z) (U : list (positive * Z)) : Prop :=
  ∀ i A0 e A3, 0 ≤ i < lv → last_tall i A A0 e A3 → at_level U i = Some (e_ptr e, Z.of_nat (length A0)).

Lemma update_ok_updates A n U : update_ok A n U → updates A (Z.of_nat n) U.
Proof.
  intros [_ HU] i A0 e A3 Hi Hl. destruct (HU (Z.to_nat i)) as (B0 & e' & B3 & Hl' & E); [lia|].
  rewrite Z2Nat.id in Hl' by lia. destruct (last_tall_unique _ _ _ _ _ _ _ _ Hl Hl') as (-> & -> & _).
  rewrite <-(Z2Nat.id i) by lia. by rewrite at_level_nat.
Qed.

Lemma foldr_max_ge (l : list Z) : 1 ≤ foldr Z.max 1 l ∧ Forall (λ x, x ≤ foldr Z.max 1 l) l.
Proof.
  induction l as [|x l [IH1 IH2]]; cbn; [done|]. split; [lia|]. constructor; [lia|].
  eapply Forall_impl; [exact IH2|]. cbn. lia.
Qed.

Lemma foldr_max_le (l : list Z) m : 1 ≤ m → Forall (λ x, x ≤ m) l → foldr Z.max 1 l ≤ m.
Proof. intros Hm. induction 1; cbn; lia. Qed.

Section ok.
Context {h : mem} {z : zskiplist} {hd : ent} {ns : list ent} (Hok : skiplist_ok h z hd ns).

Lemma level_range : 1 ≤ zsl_level z ≤ ZSKIPLIST_MAXLEVEL.
Proof.
  rewrite (sk_level _ _ _ _ Hok). pose proof (foldr_max_ge (e_height <$> ns)) as [? _]. split; [done|].
  apply foldr_max_le; [done|]. rewrite Forall_fmap. eapply Forall_impl; [exact (sk_heights _ _ _ _ Hok)|]. cbn. lia.
Qed.

Lemma heights_short : short (zsl_level z) ns.
Proof.
  rewrite (sk_level _ _ _ _ Hok). pose proof (foldr_max_ge (e_height <$> ns)) as [_ Hm].
  by rewrite Forall_fmap in Hm.
Qed.

Lemma size_store : size h = S (length ns).
Proof.
  rewrite <-size_dom, (sk_dom _ _ _ _ Hok), size_list_to_set by apply (sk_nodup _ _ _ _ Hok).
  by rewrite length_fmap.
Qed.

(** The nodes that a search comes to. *)
Lemma search_holds go_on P Q :
  ns = P ++ Q → holds_up_to go_on h (hd :: P) Q →
  ∃ U, descend go_on (Z.to_nat (zsl_level z)) h (zsl_header z) 0 [] = Some U ∧
    updates (hd :: P) (zsl_level z) U ∧ length U = Z.to_nat (zsl_level z).
Proof.
  intros E Hc. pose proof level_range as Hlv. pose proof (sk_header _ _ _ _ Hok) as (Hh1 & Hh2 & _).
  pose proof (sk_linked _ _ _ _ Hok) as Hl. pose proof (sk_described _ _ _ _ Hok) as Hd.
  pose proof (sk_length _ _ _ _ Hok) as [_ Hn]. pose proof size_store as Hsz. rewrite E in *.
  destruct (descend_spec go_on h (zsl_level z) (hd :: P) Q Hl Hd Hc) with (n := Z.to_nat (zsl_level z))
    (A1 := @nil ent) (e0 := hd) (A2 := P) (U := @nil (positive * Z)) as (U & EU & HU); try done.
  - cbn [length app]. rewrite Nat2Z.inj_succ. lia.
  - rewrite Hsz, length_app. cbn [length]. lia.
  - lia.
  - lia.
  - exists U. rewrite app_nil_r, Hh1 in EU. split; [done|]. split; [|apply HU].
    rewrite <-(Z2Nat.id (zsl_level z)) by lia. by apply update_ok_updates.
Qed.

Lemma search_spec go_on (p : ent → bool) :
  (∀ a b, a ∈ ns → b ∈ ns → ent_before a b → p b = true → p a = true) →
  (∀ e n t, e ∈ ns → attrs n = ent_attrs e → go_on n t = p e) →
  ∃ P Q U, ns = P ++ Q ∧ Forall (λ e, p e = true) P ∧ Forall (λ e, p e = false) Q ∧
    descend go_on (Z.to_nat (zsl_level z)) h (zsl_header z) 0 [] = Some U ∧
    updates (hd :: P) (zsl_level z) U ∧ length U = Z.to_nat (zsl_level z).
Proof.
  intros Hp Hgo. destruct (split_sorted p ns (sk_sorted _ _ _ _ Hok) Hp) as (P & Q & E & HP & HQ).
  pose proof (sk_described _ _ _ _ Hok) as Hd. rewrite E in Hd, Hgo.
  destruct (search_holds go_on P Q E (holds_up_to_pred go_on p h hd P Q Hd Hgo HP HQ)) as (U & ? & ? & ?).
  by exists P, Q, U.
Qed.

Lemma new_levels_spec P Q U level :
  ns = P ++ Q → updates (hd :: P) (zsl_level z) U → length U = Z.to_nat (zsl_level z) → 1 ≤ level ≤ ZSKIPLIST_MAXLEVEL →
  ∃ h1 U1, new_levels z h U level = Some (h1, U1, Z.max (zsl_level z) level) ∧ same_nodes h h1 ∧
    linked h1 (Z.max (zsl_level z) level) (hd :: ns) ∧ updates (hd :: P) (Z.max (zsl_level z) level) U1 ∧
    ∀ i, Z.max (zsl_level z) level ≤ i < ZSKIPLIST_MAXLEVEL → fst <$> get_level h1 (e_ptr hd) i = Some None.
Proof.
  intros E HU HlU Hlevel. pose proof level_range as Hlv. pose proof heights_short as Hs. unfold new_levels.
  pose proof (sk_header _ _ _ _ Hok) as (Hh1 & Hh2 & _). pose proof (sk_length _ _ _ _ Hok) as [Hlen Hn].
  pose proof (sk_above _ _ _ _ Hok) as Habove. pose proof (sk_linked _ _ _ _ Hok) as Hl. rewrite <-Hh1.
  destruct (Z.ltb_spec (zsl_level z) level) as [Hlt|Hge]; cycle 1.
  { exists h, U. rewrite Z.max_l by lia. by split_and!. }
  rewrite Z.max_r by lia. set (body := λ i h, _).
  destruct (for_levels_spec body (λ p i, if decide (p = e_ptr hd) then Some (None, Z.of_nat (length ns)) else get_level h p i)
    h (Z.to_nat (level - zsl_level z)) (zsl_level z) h) as (h1 & -> & Hs1 & Hg1); [done|done| |].
  { intros i Hi h1 Hs1 Hg1. subst body. cbn beta. specialize (Habove i ltac:(lia)). rewrite <-Hg1 in Habove.
    destruct (get_level h1 (e_ptr hd) i) as [[fw sp]|] eqn:Eg; [|done]. injection Habove as ->. cbn [mbind option_bind].
    destruct (set_level_Some h1 (e_ptr hd) i (None, u32 (zsl_length z)) _ Eg) as (h2 & -> & Hs2 & Hg2).
    exists h2. split; [done|]. split; [done|]. intros p j. rewrite Hg2.
    destruct (decide (j = i)) as [->|]; [|rewrite decide_False by tauto; done].
    destruct (decide (p = e_ptr hd)) as [->|]; [|rewrite decide_False by tauto; done]. rewrite decide_True by done.
    by rewrite Hlen, (wrapu_small 32) by lia. }
  cbn [mbind option_bind]. rewrite Z2Nat.id in Hg1 by lia. eexists h1, _. split; [done|]. split; [done|]. split_and!.
  - intros A e B i El Hi Hi2. rewrite Hg1. destruct (decide _) as [Hd|Hd].
    + destruct A as [|a A].
      * injection El as <- <-. rewrite decide_True by done. rewrite next_none; [done|].
        eapply Forall_impl; [exact Hs|]. cbn. lia.
      * injection El as _ El. rewrite El in Hs. apply Forall_app in Hs as [_ [? _]%Forall_cons]. lia.
    + apply (Hl A e B i El Hi). lia.
  - intros i A0 e A3 Hi Ht. destruct (Z.lt_ge_cases i (zsl_level z)) as [Hi2|Hi2].
    + rewrite <-(HU i A0 e A3) by (done || lia). unfold at_level. rewrite (proj2 (Z.ltb_ge _ _)) by lia.
      apply lookup_app_l. lia.
    + assert (A0 = [] ∧ e = hd) as [-> ->].
      { destruct Ht as (El & He & _). destruct A0 as [|a A0]; [by injection El as -> ->|]. injection El as _ El.
        rewrite E, El, !Forall_app in Hs. destruct Hs as [[_ [? _]%Forall_cons] _]. lia. }
      unfold at_level. rewrite (proj2 (Z.ltb_ge _ _)) by lia. rewrite lookup_app_r by lia.
      rewrite lookup_replicate_2 by lia. done.
  - intros i Hi. rewrite Hg1, decide_False by lia. apply Habove. lia.
Qed.
End ok.

(** The columns of the levels when the node [xe] comes between [A] and [Q]. *)
Section linking.
Context (h1 h2 : mem) (A Q : list ent) (hd : ent) (P : list ent) (U : list (positive * Z)) (lv : Z) (xe : ent).
Hypothesis (EA : A = hd :: P) (Hhd : lv ≤ e_height hd) (Hlinked : linked h1 lv (A ++ Q)) (HU : updates A lv U)
  (Hx : e_ptr xe ∉ e_ptr <$> A) (Hlen : Z.of_nat (length (A ++ Q)) < 2 ^ 32)
  (Hh2 : ∀ p i, p ≠ e_ptr xe → get_level h2 p i = get_level h1 p i)
  (Hh2x : ∀ i, 0 ≤ i < e_height xe → is_Some (get_level h2 (e_ptr xe) i)).

Definition link_column (p : positive) (i : Z) : option (option positive * Z) :=
  match at_level U i with
  | Some (u, rank) =>
      if decide (p = u) then Some (next i (drop (S (Z.to_nat rank)) A ++ [xe] ++ Q))
      else if decide (p = e_ptr xe ∧ i < e_height xe) then Some (next i Q)
      else get_level h2 p i
  | None => get_level h2 p i
  end.

Lemma column_tall i A0 e A3 :
  0 ≤ i < lv → last_tall i A A0 e A3 →
  at_level U i = Some (e_ptr e, Z.of_nat (length A0)) ∧ e_ptr e ≠ e_ptr xe ∧
  get_level h2 (e_ptr e) i = Some (fst (next i Q), snd (next i Q) + Z.of_nat (length A3)) ∧
  drop (S (Z.to_nat (Z.of_nat (length A0)))) A = A3 ∧ length A = S (length A0 + length A3).
Proof.
  intros Hi Ht. pose proof Ht as (E & He & Hs). split; [by apply (HU i A0 e A3)|].
  assert (e_ptr e ≠ e_ptr xe) as Hne.
  { intros Heq. apply Hx. rewrite <-Heq. apply list_elem_of_fmap_2. rewrite E. set_solver. }
  split; [done|]. split; [|split].
  - rewrite Hh2 by done. rewrite (Hlinked A0 e (A3 ++ Q) i); [by rewrite next_short|by rewrite E, <-(assoc_L (++))|lia|lia].
  - rewrite Nat2Z.id, E. change (e :: A3) with ([e] ++ A3). rewrite (assoc_L (++)). apply drop_app_length'.
    rewrite length_app. cbn. lia.
  - rewrite E, length_app. cbn. lia.
Qed.

Lemma link_writes i : 0 ≤ i < e_height xe → i < lv →
  writes_column (link_level U (e_ptr xe) (Z.of_nat (length P))) link_column h2 i.
Proof.
  intros Hi Hlv h Hs Hg. destruct (last_tall_exists i hd P) as (A0 & e & A3 & Ht); [lia|]. rewrite <-EA in Ht.
  destruct (column_tall i A0 e A3) as (EU & Hne & Ge & Ed & El); [lia|done|]. unfold link_level. rewrite EU.
  cbn [mbind option_bind]. rewrite (Hg (e_ptr e)), Ge. cbn [mbind option_bind]. rewrite (Hg (e_ptr xe)).
  destruct (Hh2x i Hi) as [[xf xs] Gx]. rewrite Gx. cbn [mbind option_bind].
  destruct (set_level_Some h (e_ptr xe) i (fst (next i Q), xs) (xf, xs)) as (ha & -> & Sa & Ga); [by rewrite Hg|].
  cbn [mbind option_bind].
  destruct (set_level_Some ha (e_ptr e) i (Some (e_ptr xe), snd (next i Q) + Z.of_nat (length A3))
    (fst (next i Q), snd (next i Q) + Z.of_nat (length A3))) as (hb & -> & Sb & Gb).
  { rewrite Ga, decide_False, Hg, Ge by tauto. done. }
  cbn [mbind option_bind].
  match goal with |- context [set_level hb _ _ ?v] =>
    destruct (set_level_Some hb (e_ptr xe) i v (fst (next i Q), xs)) as (hc & -> & Sc & Gc) end.
  { rewrite Gb, decide_False, Ga, decide_True by (try intros [? ?]; congruence || done). done. }
  cbn [mbind option_bind].
  match goal with |- context [set_level hc _ _ ?v] =>
    destruct (set_level_Some hc (e_ptr e) i v (Some (e_ptr xe), snd (next i Q) + Z.of_nat (length A3))) as (hd' & -> & Sd & Gd) end.
  { rewrite Gc, decide_False, Gb, decide_True by (try intros [? ?]; congruence || done). done. }
  exists hd'. split; [done|]. split; [by do 3 (etransitivity; [eassumption|])|].
  assert (length P = (length A0 + length A3)%nat) as HlP by (rewrite EA in El; cbn in El; lia).
  assert (u32 (Z.of_nat (length P) - Z.of_nat (length A0)) = Z.of_nat (length A3)) as Hu.
  { rewrite length_app in Hlen. rewrite wrapu_small; lia. }
  pose proof (next_span i Q) as Hsp. rewrite length_app in Hlen. destruct Ht as (E & He & Hsh).
  intros p j. rewrite Gd, Gc, Gb, Ga, Hu. destruct (decide (j = i)) as [->|]; [|rewrite !decide_False by tauto; done].
  unfold link_column. rewrite EU. destruct (decide (p = e_ptr e)) as [->|Hp].
  - rewrite decide_True by done. rewrite Ed. cbn [app]. rewrite next_tall by (done || lia). do 2 f_equal.
    apply wrapu_small. lia.
  - rewrite decide_False by tauto. destruct (decide (p = e_ptr xe)) as [->|Hpx].
    + rewrite !decide_True by (split; done || lia). f_equal. rewrite wrapu_small by lia. destruct (next i Q). cbn. f_equal. lia.
    + rewrite !decide_False by tauto. by rewrite Hg.
Qed.

Lemma bump_writes i : e_height xe ≤ i → 0 ≤ i < lv → writes_column (bump_level U) link_column h2 i.
Proof.
  intros Hi Hlv h Hs Hg. destruct (last_tall_exists i hd P) as (A0 & e & A3 & Ht); [lia|]. rewrite <-EA in Ht.
  destruct (column_tall i A0 e A3) as (EU & Hne & Ge & Ed & El); [lia|done|]. unfold bump_level. rewrite EU.
  cbn [mbind option_bind]. rewrite (Hg (e_ptr e)), Ge. cbn [mbind option_bind].
  match goal with |- context [set_level h _ _ ?v] =>
    destruct (set_level_Some h (e_ptr e) i v (fst (next i Q), snd (next i Q) + Z.of_nat (length A3))) as (ha & -> & Sa & Ga) end.
  { by rewrite Hg. }
  exists ha. split; [done|]. split; [done|]. pose proof (next_span i Q) as Hsp. rewrite length_app in Hlen.
  destruct Ht as (E & He & Hsh). intros p j. rewrite Ga.
  destruct (decide (j = i)) as [->|]; [|rewrite !decide_False by tauto; done].
  unfold link_column. rewrite EU. destruct (decide (p = e_ptr e)) as [->|Hp].
  - rewrite decide_True by done. rewrite Ed, (assoc_L (++)), next_short.
    + do 2 f_equal. rewrite wrapu_small, length_app by lia. cbn. lia.
    + apply Forall_app. split; [done|]. repeat constructor. lia.
  - rewrite !decide_False by (try tauto; lia). by rewrite Hg.
Qed.

(** The list with the new node. *)
Lemma link_relink h3 :
  NoDup (e_ptr <$> A ++ [xe] ++ Q) →
  (∀ p i, 0 ≤ i < lv → get_level h3 p i = link_column p i) → e_height xe ≤ lv →
  linked h3 lv (A ++ [xe] ++ Q).
Proof.
  intros Hnd Hg Hxe. apply (relink_between h1 h3 lv A [] [xe] Q Hnd Hlinked).
  - intros i A0 e A3 Hi Ht. destruct (column_tall i A0 e A3 Hi Ht) as (EU & _ & _ & Ed & _).
    rewrite Hg by lia. unfold link_column. by rewrite EU, decide_True, Ed by done.
  - intros p i Hi Hp Hlast. rewrite Hg by lia. unfold link_column.
    destruct (last_tall_exists i hd P) as (A0 & e & A3 & Ht); [lia|]. rewrite <-EA in Ht.
    destruct (column_tall i A0 e A3 Hi Ht) as (EU & _ & _ & Ed & _). rewrite EU.
    rewrite decide_False by (by apply (Hlast A0 e A3)).
    assert (p ≠ e_ptr xe) as Hpx.
    { intros ->. rewrite !fmap_app in *. cbn [fmap list_fmap] in Hnd. apply elem_of_app in Hp as [Hp|Hp]; [done|].
      apply NoDup_app in Hnd as (_ & _ & Hnd). apply NoDup_app in Hnd as (_ & Hnd & _). apply (Hnd (e_ptr xe)); [by left|done]. }
    rewrite decide_False by tauto. by apply Hh2.
  - intros C e D i E Hi Hlv. destruct C as [|c C]; [|by destruct C]. injection E as <- <-. rewrite Hg by lia.
    unfold link_column. destruct (last_tall_exists i hd P) as (A0 & e & A3 & Ht); [lia|]. rewrite <-EA in Ht.
    destruct (column_tall i A0 e A3) as (EU & Hne & _ & Ed & _); [lia|done|]. rewrite EU.
    rewrite decide_False by done. by rewrite decide_True by (split; [done|lia]).
Qed.
End linking.

(** The back pointer of a node behind [P]. *)
Definition back_of (prev : option positive) (P : list ent) : option positive :=
  match last P with Some e => Some (e_ptr e) | None => prev end.

Lemma backed_app h prev P Q : backed h prev (P ++ Q) ↔ backed h prev P ∧ backed h (back_of prev P) Q.
Proof.
  revert prev. induction P as [|e P IH]; intros prev; cbn [app backed]; [by unfold back_of; naive_solver|].
  rewrite IH. assert (back_of (Some (e_ptr e)) P = back_of prev (e :: P)) as ->; [|naive_solver].
  unfold back_of. destruct P as [|x P]; [done|]. change (last (e :: x :: P)) with (last (x :: P)).
  destruct (last (x :: P)) eqn:El; [done|]. by apply last_None in El.
Qed.

Lemma backed_ext h h' prev l :
  (∀ e, e ∈ l → zn_backward <$> h !! e_ptr e = zn_backward <$> h' !! e_ptr e) → backed h prev l → backed h' prev l.
Proof.
  revert prev. induction l as [|e l IH]; intros prev He; cbn [backed]; [done|]. intros [H1 H2].
  split; [by rewrite <-He by left|]. apply IH; [|done]. intros x Hx. apply He. by right.
Qed.

Lemma linked_ext h h' lv l : (∀ p i, get_level h' p i = get_level h p i) → linked h lv l → linked h' lv l.
Proof. intros Hg Hl A e B i E Hi Hlv. rewrite Hg. by apply Hl with (A := A). Qed.

Section keys.
Context `{!Memcmp}.

Lemma node_before_key e n score obj :
  attrs n = ent_attrs e → isnan (e_score e) = false → (∃ o, e_obj e = Some o ∧ blen o < 2 ^ 31) →
  isnan score = false → blen obj < 2 ^ 31 →
  node_before score obj n = bool_decide (str_cmp (ent_key e) (fkey score ++ obj) = Lt).
Proof.
  intros Ha Hs (o & Ho & Hlo) Hn Hl. unfold attrs, ent_attrs in Ha. injection Ha as Ha1 Ha2 _.
  unfold node_before, SFltb, SFeqb, ent_key. rewrite Ha1, Ha2, Ho, SFcompare_key by done. cbn [default].
  rewrite str_cmp_app by (by rewrite !fkey_length).
  destruct (str_cmp (fkey (e_score e)) (fkey score)); cbn [orb andb]; [|by rewrite bool_decide_true|by rewrite bool_decide_false].
  rewrite <-compareStringObjects_cmp by done. unfold Z.ltb. by destruct (_ ?= 0).
Qed.
End keys.

Lemma foldr_max_insert (P Q : list Z) x : foldr Z.max 1 (P ++ x :: Q) = Z.max x (foldr Z.max 1 (P ++ Q)).
Proof. induction P as [|p P IH]; cbn; [done|]. rewrite IH. lia. Qed.

(** The new store has the nodes of the list, the new one among them, up to the
    back pointers. *)
Section inserting.
Context `{!Memcmp} (junk : option positive * Z) {h : mem} {z : zskiplist} {hd : ent} {ns : list ent}.
Hypothesis (Hok : skiplist_ok h z hd ns).

Lemma insert_backward P Q xe h4 zt :
  ns = P ++ Q → e_ptr xe ∉ dom h →
  (∀ p, p ≠ e_ptr xe → zn_backward <$> h !! p = zn_backward <$> h4 !! p) →
  is_Some (h4 !! e_ptr xe) → described h4 (hd :: P ++ xe :: Q) → zt = zsl_tail z →
  (fst <$> get_level h4 (e_ptr xe) 0 = Some (e_ptr <$> head Q)) →
  ∃ h6 tail,
    (h5 ← set_backward h4 (e_ptr xe) (back_of None P);
     '(forward, _) ← get_level h5 (e_ptr xe) 0;
     match forward with Some y => h6 ← set_backward h5 y (Some (e_ptr xe)); Some (h6, zt) | None => Some (h5, Some (e_ptr xe)) end)
    = Some (h6, tail) ∧ tail = e_ptr <$> last (P ++ xe :: Q) ∧ backed h6 None (P ++ xe :: Q) ∧
    (∀ p i, get_level h6 p i = get_level h4 p i) ∧ dom h6 = dom h4 ∧ same_attrs h4 h6.
Proof.
  intros E Hx Hback [nx Enx] Hdesc -> Hfw. pose proof (sk_backed _ _ _ _ Hok) as Hb. pose proof (sk_tail _ _ _ _ Hok) as Ht.
  pose proof (sk_nodup _ _ _ _ Hok) as Hnd. pose proof (sk_dom _ _ _ _ Hok) as Hdom. rewrite E in *.
  assert (∀ e, e ∈ P ++ Q → e_ptr e ≠ e_ptr xe) as Hne.
  { intros e He Heq. apply Hx. rewrite <-Heq, Hdom. apply elem_of_list_to_set. right. by apply list_elem_of_fmap_2. }
  destruct (set_backward_Some h4 (e_ptr xe) (back_of None P) nx Enx) as (h5 & -> & G5 & D5 & A5 & B5).
  apply backed_app in Hb as [HbP HbQ]. cbn [mbind option_bind]. rewrite G5.
  assert (backed h5 None P ∧ zn_backward <$> h5 !! e_ptr xe = Some (back_of None P)) as [HP5 Hx5].
  { split; [|by rewrite B5, decide_True by done]. eapply backed_ext; [|exact HbP]. intros e He.
    assert (e_ptr e ≠ e_ptr xe) by (apply Hne, elem_of_app; by left). rewrite B5, decide_False by done. by apply Hback. }
  destruct (get_level h4 (e_ptr xe) 0) as [[fw sp]|]; [|done]. injection Hfw as ->. cbn [mbind option_bind].
  destruct Q as [|q Q].
  - cbn [head fmap option_fmap option_map]. exists h5, (Some (e_ptr xe)). split; [done|]. split; [by rewrite last_snoc|].
    split; [apply backed_app; by split|]. split; [done|]. split; [done|]. intros p. by rewrite <-A5.
  - cbn [head fmap option_fmap option_map].
    assert (e_ptr q ≠ e_ptr xe) as Hq by (apply Hne; set_solver).
    assert (is_Some (h5 !! e_ptr q)) as [nq Enq].
    { destruct (described_lookup h4 (hd :: P ++ xe :: q :: Q) (hd :: P ++ [xe]) q Q Hdesc) as (n & En & _).
      { cbn. by rewrite <-(assoc_L (++)). }
      apply elem_of_dom. rewrite D5. apply elem_of_dom. by exists n. }
    destruct (set_backward_Some h5 (e_ptr q) (Some (e_ptr xe)) nq Enq) as (h6 & -> & G6 & D6 & A6 & B6).
    cbn [mbind option_bind]. exists h6, (zsl_tail z). split; [done|]. split.
    { rewrite Ht. rewrite !last_app. cbn [last]. done. }
    rewrite fmap_cons in Hnd. apply NoDup_cons in Hnd as [_ Hnd]. rewrite fmap_app, fmap_cons in Hnd.
    apply NoDup_app in Hnd as (_ & HndP & [HqQ _]%NoDup_cons). cbn [backed] in HbQ.
    split; [apply backed_app; split|].
    + eapply backed_ext; [|exact HP5]. intros e He. rewrite B6, decide_False; [done|]. intros Heq.
      apply (HndP (e_ptr e)); [by apply list_elem_of_fmap_2|]. rewrite Heq. by left.
    + split; [by rewrite B6, decide_False by done|]. split; [by rewrite B6, decide_True by done|].
      eapply backed_ext; [|apply HbQ]. intros e He. rewrite B6, decide_False, B5, decide_False.
      * apply Hback, Hne. set_solver.
      * apply Hne. set_solver.
      * intros Heq. apply HqQ. rewrite <-Heq. by apply list_elem_of_fmap_2.
    + split; [intros; by rewrite G6, G5|]. split; [by rewrite D6|]. intros p. by rewrite <-A5, <-A6.
Qed.

(** The store with the fresh node, and the levels linked. *)
Lemma insert_levels P Q U level score obj :
  ns = P ++ Q → updates (hd :: P) (zsl_level z) U → length U = Z.to_nat (zsl_level z) → 1 ≤ level ≤ ZSKIPLIST_MAXLEVEL →
  Z.of_nat (length ns) + 1 < 2 ^ 32 →
  let lv := Z.max (zsl_level z) level in
  ∃ h1 U1 h2 u0, new_levels z h U level = Some (h1, U1, lv) ∧
    let x := fresh (dom h1) in
    let xe := Ent x level score (Some obj) in
    at_level U1 0 = Some (u0, Z.of_nat (length P)) ∧ x ∉ dom h ∧
    (if bool_decide (u0 = zsl_header z) then None else Some u0) = back_of None P ∧
    (h ← for_levels (Z.to_nat level) 0 (link_level U1 x (Z.of_nat (length P)))
           (<[x := zslCreateNode junk level score (Some obj)]> h1);
     for_levels (Z.to_nat (lv - level)) level (bump_level U1) h) = Some h2 ∧
    linked h2 lv (hd :: P ++ xe :: Q) ∧ described h2 (hd :: P ++ xe :: Q) ∧
    (∀ i, lv ≤ i < ZSKIPLIST_MAXLEVEL → fst <$> get_level h2 (e_ptr hd) i = Some None) ∧
    dom h2 = {[x]} ∪ dom h ∧ (∀ p, p ≠ x → zn_backward <$> h !! p = zn_backward <$> h2 !! p) ∧
    NoDup (e_ptr <$> hd :: P ++ xe :: Q).
Proof.
  intros E HU HlU Hlevel Hn lv. pose proof (level_range Hok) as Hlv.
  destruct (new_levels_spec Hok P Q U level E HU HlU Hlevel) as (h1 & U1 & -> & Hs1 & Hl1 & HU1 & Ha1). fold lv in Hl1, HU1, Ha1.
  pose proof (sk_nodup _ _ _ _ Hok) as Hnd. pose proof (sk_dom _ _ _ _ Hok) as Hdom.
  pose proof (sk_header _ _ _ _ Hok) as (Hh1 & Hh2 & _). pose proof (sk_described _ _ _ _ Hok) as Hdesc.
  pose proof (sk_heights _ _ _ _ Hok) as Hheights. rewrite E in *.
  pose proof (same_nodes_dom _ _ Hs1) as Hd1. set (x := fresh (dom h1)). set (xe := Ent x level score (Some obj)).
  assert (x ∉ dom h1) as Hx by apply is_fresh. rewrite Hd1 in Hx.
  assert (x ∉ e_ptr <$> hd :: P ++ Q) as Hxl by (rewrite Hdom in Hx; by rewrite elem_of_list_to_set in Hx).
  assert (x ∉ e_ptr <$> hd :: P) as HxA.
  { intros Hin. apply Hxl. rewrite fmap_cons, fmap_app, app_comm_cons. apply elem_of_app. by left. }
  assert (NoDup (e_ptr <$> hd :: P ++ xe :: Q)) as Hnd'.
  { rewrite app_comm_cons, fmap_app in Hnd. rewrite app_comm_cons, fmap_app, fmap_cons.
    apply NoDup_app in Hnd as (H1 & H2 & H3). apply NoDup_app. split; [done|]. split.
    - intros p Hp [->|Hq]%elem_of_cons; [done|]. by apply (H2 p).
    - apply NoDup_cons. split; [|done]. intros Hin. apply Hxl. rewrite app_comm_cons, fmap_app. apply elem_of_app. by right. }
  set (h1x := <[x := zslCreateNode junk level score (Some obj)]> h1).
  assert (h1 !! x = None) as Hnone by (apply not_elem_of_dom; by rewrite Hd1).
  assert (∀ p i, p ≠ x → get_level h1x p i = get_level h1 p i) as Hg2.
  { intros p i Hp. unfold get_level, h1x. destruct (i <? 0); [done|]. by rewrite lookup_insert_ne. }
  assert (∀ i, 0 ≤ i < level → is_Some (get_level h1x x i)) as Hgx.
  { intros i Hi. unfold get_level, h1x. rewrite (proj2 (Z.ltb_ge _ _)), lookup_insert_eq by lia. cbn.
    rewrite lookup_replicate_2 by lia. by eexists. }
  assert (Z.of_nat (length ((hd :: P) ++ Q)) < 2 ^ 32) as Hlen by (cbn [length app]; lia).
  set (col := link_column h1x (hd :: P) Q U1 xe).
  pose proof (link_writes h1 h1x (hd :: P) Q hd P U1 lv xe eq_refl ltac:(lia) Hl1 HU1 HxA Hlen Hg2 Hgx) as Hlw.
  pose proof (bump_writes h1 h1x (hd :: P) Q hd P U1 lv xe eq_refl ltac:(lia) Hl1 HU1 HxA Hlen Hg2 Hgx) as Hbw.
  pose proof (link_relink h1 h1x (hd :: P) Q hd P U1 lv xe eq_refl ltac:(lia) Hl1 HU1 HxA Hlen Hg2 Hgx) as Hre.
  destruct (for_levels_spec (link_level U1 x (Z.of_nat (length P))) col h1x (Z.to_nat level) 0 h1x)
    as (h2 & E2 & Hs2 & Hg2'); [done|done|intros j Hj; apply Hlw; cbn; lia|].
  destruct (for_levels_spec (bump_level U1) col h1x (Z.to_nat (lv - level)) level h2) as (h3 & E3 & Hs3 & Hg3).
  { done. } { intros p j Hj. rewrite Hg2', decide_False by lia. done. }
  { intros j Hj. apply Hbw; cbn; lia. }
  assert (∀ p j, 0 ≤ j < lv → get_level h3 p j = col p j) as Hcol.
  { intros p j Hj. rewrite Hg3, Hg2'. destruct (decide _); [done|]. by rewrite decide_True by lia. }
  assert (same_nodes h1x h3) as Hs by (by transitivity h2).
  destruct (last_tall_exists 0 hd P) as (A0 & e & A3 & Ht); [unfold ZSKIPLIST_MAXLEVEL in *; lia|].
  assert (A3 = []) as ->.
  { destruct Ht as (El & _ & Hsh). destruct A3 as [|a A3]; [done|]. apply Forall_cons in Hsh as [Ha _].
    assert (a ∈ P) as Hin by (destruct A0; injection El as -> ->; set_solver).
    rewrite Forall_app, !Forall_forall in Hheights. specialize (proj1 Hheights a Hin). lia. }
  exists h1, U1, h3, (e_ptr e). split; [done|]. cbv zeta. fold x. fold xe h1x. split.
  { rewrite (HU1 0 A0 e []) by (done || lia). do 2 f_equal. destruct Ht as (El & _).
    apply (f_equal length) in El. rewrite length_app in El. cbn in El. lia. }
  split; [done|]. split.
  { destruct Ht as (El & _). destruct A0 as [|a A0].
    - injection El as -> ->. by rewrite bool_decide_true.
    - injection El as -> ->. unfold back_of. rewrite last_snoc, bool_decide_false; [done|]. rewrite <-Hh1. intros Heq.
      apply NoDup_cons in Hnd as [Hnd _]. apply Hnd. rewrite <-Heq. apply list_elem_of_fmap_2. set_solver. }
  rewrite E2. cbn [mbind option_bind]. split; [done|]. split; [by apply Hre; [done|done|cbn; lia]|]. split; [|split; [|split; [|split; [|done]]]].
  - apply (described_ext h1x); [intros; by apply same_nodes_attrs|].
    assert (∀ l, x ∉ e_ptr <$> l → described h l → described h1x l) as Hdx.
    { intros l Hxn. apply described_ext. intros a Ha. unfold h1x. rewrite lookup_insert_ne; [by apply same_nodes_attrs|].
      intros Heq. apply Hxn. rewrite Heq. by apply list_elem_of_fmap_2. }
    rewrite app_comm_cons, fmap_app in Hxl. rewrite app_comm_cons in *. apply Forall_app in Hdesc as [Hd2 Hd3].
    apply Forall_app. split; [by apply Hdx|]. apply Forall_cons. split; [|apply Hdx; [set_solver|done]].
    cbn [e_ptr xe e_height]. unfold h1x. rewrite lookup_insert_eq. split; [|lia].
    cbn. unfold attrs, ent_attrs. cbn. by rewrite length_replicate.
  - intros i Hi. rewrite Hg3, Hg2', !decide_False, Hg2 by lia || (intros Heq; apply HxA; rewrite <-Heq; by left). by apply Ha1.
  - rewrite (same_nodes_dom _ _ Hs). unfold h1x. by rewrite dom_insert_L, Hd1.
  - intros p Hp. rewrite <-(same_nodes_backward _ _ p Hs). unfold h1x. rewrite lookup_insert_ne by done.
    by apply same_nodes_backward.
Qed.
End inserting.

Lemma StronglySorted_insert P Q x :
  StronglySorted ent_before (P ++ Q) → Forall (λ e, ent_before e x) P → Forall (λ e, ent_before x e) Q →
  StronglySorted ent_before (P ++ x :: Q).
Proof.
  rewrite !StronglySorted_app, StronglySorted_cons. intros (H1 & H2 & H3) HP HQ. rewrite !Forall_forall in *.
  split; [|done]. intros a b Ha [->|Hb]%elem_of_cons; [by apply HP|by apply H1].
Qed.

Lemma isnan_key_before P (k : list Z) : Forall (λ e, bool_decide (str_cmp (ent_key e) k = Lt) = true) P →
  Forall (λ e, str_cmp (ent_key e) k = Lt) P.
Proof. intros HP. eapply Forall_impl; [exact HP|]. cbn. intros e He. by apply bool_decide_eq_true in He. Qed.

Lemma key_behind e (k : list Z) :
  bool_decide (str_cmp (ent_key e) k = Lt) = false → ent_key e ≠ k → str_cmp k (ent_key e) = Lt.
Proof.
  intros He%bool_decide_eq_false Hne. rewrite str_cmp_antisym. destruct (str_cmp (ent_key e) k) eqn:Ec; try done.
  by apply str_cmp_eq in Ec.
Qed.

Section insertion.
Context `{!Memcmp} (junk : option positive * Z) {h : mem} {z : zskiplist} {hd : ent} {ns : list ent}.
Hypothesis (Hok : skiplist_ok h z hd ns).

(** The search for the place of an element. *)
Lemma search_before score obj :
  isnan score = false → blen obj < 2 ^ 31 →
  ∃ P Q U, ns = P ++ Q ∧ Forall (λ e, str_cmp (ent_key e) (fkey score ++ obj) = Lt) P ∧
    Forall (λ e, bool_decide (str_cmp (ent_key e) (fkey score ++ obj) = Lt) = false) Q ∧
    descend (λ n _, node_before score obj n) (Z.to_nat (zsl_level z)) h (zsl_header z) 0 [] = Some U ∧
    updates (hd :: P) (zsl_level z) U ∧ length U = Z.to_nat (zsl_level z).
Proof.
  intros Hn Ho. pose proof (sk_elements _ _ _ _ Hok) as Hel.
  destruct (search_spec Hok (λ n _, node_before score obj n)
    (λ e, bool_decide (str_cmp (ent_key e) (fkey score ++ obj) = Lt))) as (P & Q & U & E & HP & HQ & EU & HU & HlU).
  - intros a b _ _ Hab Hb%bool_decide_eq_true. apply bool_decide_eq_true. by eapply str_cmp_trans.
  - intros e n _ He Ha. rewrite Forall_forall in Hel. destruct (Hel e He) as [? ?]. by apply node_before_key.
  - exists P, Q, U. split_and!; try done. by apply isnan_key_before.
Qed.

Lemma zslInsert_spec random random' level score obj :
  isnan score = false → blen obj < 2 ^ 31 → Z.of_nat (length ns) + 1 < 2 ^ 32 →
  fkey score ++ obj ∉ ent_key <$> ns → zslRandomLevel random = Some (level, random') →
  ∃ h' z' P Q x, zslInsert junk random h z score obj = Some (h', z', x, random') ∧ ns = P ++ Q ∧ x ∉ dom h ∧
    skiplist_ok h' z' hd (P ++ Ent x level score (Some obj) :: Q).
Proof.
  intros Hnan Ho Hn Hfresh Hr. destruct (search_before score obj Hnan Ho) as (P & Q & U & E & HP & HQ & EU & HU & HlU).
  pose proof (zslRandomLevel_range _ _ _ Hr) as Hlevel. unfold zslInsert. rewrite Hnan, EU. cbn [mbind option_bind].
  rewrite Hr. cbn [mbind option_bind].
  destruct (insert_levels junk Hok P Q U level score obj E HU HlU Hlevel Hn)
    as (h1 & U1 & h2 & u0 & -> & E0 & Hx & Hb0 & E2 & Hl2 & Hd2 & Ha2 & Hdom2 & Hback2 & Hnd).
  cbn [mbind option_bind]. cbv zeta. set (x := fresh (dom h1)) in *. set (xe := Ent x level score (Some obj)) in *.
  rewrite E0. cbn [mbind option_bind]. apply bind_Some in E2 as (hm & Em & E2). rewrite Em. cbn [mbind option_bind].
  rewrite E2. cbn [mbind option_bind]. rewrite Hb0.
  pose proof (sk_header _ _ _ _ Hok) as Hhead. pose proof (level_range Hok) as Hlv.
  assert (is_Some (h2 !! x)) as Hxs by (apply elem_of_dom; rewrite Hdom2; set_solver).
  pose proof (sk_heights _ _ _ _ Hok) as Hheights. rewrite E in Hheights.
  destruct (insert_backward Hok P Q xe h2 (zsl_tail z) E Hx Hback2 Hxs Hd2 eq_refl) as (h6 & tail & E6 & Ht & Hb6 & Hg6 & Hd6 & Ha6).
  { rewrite (Hl2 (hd :: P) xe Q 0); [|done|cbn; lia|lia]. cbn. apply Forall_app in Hheights as [_ Hq].
    destruct Q as [|q Q]; [done|]. apply Forall_cons in Hq as [Hq _]. cbn [next]. by rewrite (proj2 (Z.ltb_lt _ _)) by lia. }
  change (e_ptr xe) with x in E6. apply bind_Some in E6 as (h5 & E5 & E6). rewrite E5. cbn [mbind option_bind].
  apply bind_Some in E6 as ([fw sp] & Efw & E6). rewrite Efw. cbn [mbind option_bind]. rewrite E6. cbn [mbind option_bind].
  pose proof (sk_length _ _ _ _ Hok) as [Hlen _].
  eexists h6, _, P, Q, x. split; [done|]. split; [done|]. split; [done|].
  assert (Permutation (e_height <$> P ++ xe :: Q) (level :: (e_height <$> ns))) as Hperm.
  { rewrite E, <-Permutation_middle. done. }
  split; cbn [zsl_level zsl_header zsl_tail zsl_length].
  - by apply (linked_ext h2).
  - apply (described_ext h2); [intros e _; apply Ha6|done].
  - done.
  - intros i Hi. rewrite Hg6. by apply Ha2.
  - done.
  - rewrite Hd6, Hdom2, (sk_dom _ _ _ _ Hok), E. apply set_eq. intros p.
    rewrite elem_of_union, elem_of_singleton, !elem_of_list_to_set. rewrite !fmap_cons, !fmap_app, fmap_cons. set_solver.
  - done.
  - done.
  - rewrite Hlen, wrapu_small by lia. rewrite E, !length_app. rewrite E, length_app in Hn. cbn [length]. lia.
  - apply Forall_app in Hheights as [? ?]. apply Forall_app. split; [done|]. by constructor.
  - rewrite (sk_level _ _ _ _ Hok), E, !fmap_app, fmap_cons, foldr_max_insert. cbn. lia.
  - apply StronglySorted_insert; [rewrite <-E; apply (sk_sorted _ _ _ _ Hok)|done|].
    rewrite Forall_forall in *. intros e He. apply (key_behind e (fkey score ++ obj)); [by apply HQ|].
    intros Heq. apply Hfresh. rewrite <-Heq. apply list_elem_of_fmap_2. rewrite E. set_solver.
  - pose proof (sk_elements _ _ _ _ Hok) as Hel. rewrite E in Hel. apply Forall_app in Hel as [? ?]. apply Forall_app.
    split; [done|]. constructor; [|done]. split; [done|]. by exists obj.
Qed.
End insertion.

(** ** Deletion *)

Lemma wrapu_add_r w a b : wrapu w (a + wrapu w b) = wrapu w (a + b).
Proof. unfold wrapu. apply Zplus_mod_idemp_r. Qed.

Lemma lower_level_spec h hd ns lv fuel :
  (∀ i, 0 ≤ i < lv → get_level h hd i = Some (next i ns)) → Forall (λ e, e_height e ≤ lv) ns →
  1 ≤ lv → (Z.to_nat lv ≤ fuel)%nat →
  lower_level fuel h hd lv = Some (foldr Z.max 1 (e_height <$> ns)).
Proof.
  revert lv. induction fuel as [|fuel IH]; intros lv Hg Hs Hlv Hf; [lia|]. cbn [lower_level].
  destruct (foldr_max_ge (e_height <$> ns)) as [Hm1 Hm2]. rewrite Forall_fmap in Hm2.
  assert (foldr Z.max 1 (e_height <$> ns) ≤ lv) as Hle.
  { apply foldr_max_le; [done|]. rewrite Forall_fmap. done. }
  destruct (Z.ltb_spec 1 lv); [|f_equal; lia]. rewrite Hg by lia. cbn [mbind option_bind].
  destruct (first_tall (lv - 1) ns) as [Hsh|(s & e & r & -> & Hsh & He)].
  - rewrite next_none by done. apply IH; [|done|lia|lia]. intros i Hi. apply Hg. lia.
  - rewrite next_tall by done. f_equal. rewrite Forall_app, Forall_cons in Hm2. cbn in Hm2. lia.
Qed.

Section deletion.
Context {h : mem} {z : zskiplist} {hd : ent} {P Q : list ent} {xe : ent} {U : list (positive * Z)}.
Hypothesis (Hok : skiplist_ok h z hd (P ++ xe :: Q)) (HU : updates (hd :: P) (zsl_level z) U).

Definition unlink_column (p : positive) (i : Z) : option (option positive * Z) :=
  match at_level U i with
  | Some (u, rank) => if decide (p = u) then Some (next i (drop (S (Z.to_nat rank)) (hd :: P) ++ Q)) else get_level h p i
  | None => get_level h p i
  end.

Lemma ptr_other e : e ∈ P ++ Q ∨ e = hd → e_ptr e ≠ e_ptr xe.
Proof.
  pose proof (sk_nodup _ _ _ _ Hok) as Hnd. rewrite fmap_cons, fmap_app, fmap_cons, <-Permutation_middle in Hnd.
  apply NoDup_cons in Hnd as [H1 [H2 _]%NoDup_cons]. rewrite <-fmap_app in H2. intros [He| ->] Heq.
  - apply H2. rewrite <-Heq. by apply list_elem_of_fmap_2.
  - apply H1. rewrite Heq. by left.
Qed.

Lemma unlink_tall i A0 e A3 :
  0 ≤ i < zsl_level z → last_tall i (hd :: P) A0 e A3 →
  at_level U i = Some (e_ptr e, Z.of_nat (length A0)) ∧ e_ptr e ≠ e_ptr xe ∧
  get_level h (e_ptr e) i = Some (next i (A3 ++ xe :: Q)) ∧
  drop (S (Z.to_nat (Z.of_nat (length A0)))) (hd :: P) = A3.
Proof.
  intros Hi Ht. pose proof Ht as (E & He & Hs). split; [by apply (HU i A0 e A3)|]. split; [|split].
  - apply ptr_other. destruct A0 as [|a A0]; injection E as -> E; [by right|left]. rewrite E. set_solver.
  - apply (sk_linked _ _ _ _ Hok) with (A := A0); [|lia|lia]. rewrite app_comm_cons, E. by rewrite <-(assoc_L (++)).
  - rewrite Nat2Z.id, E. change (e :: A3) with ([e] ++ A3). rewrite (assoc_L (++)). apply drop_app_length'.
    rewrite length_app. cbn. lia.
Qed.

Lemma unlink_writes i : 0 ≤ i < zsl_level z → writes_column (unlink_level U (e_ptr xe)) unlink_column h i.
Proof.
  intros Hi h' Hs Hg. pose proof (level_range Hok) as Hlv. pose proof (sk_header _ _ _ _ Hok) as (_ & Hh & _).
  destruct (last_tall_exists i hd P) as (A0 & e & A3 & Ht); [lia|].
  destruct (unlink_tall i A0 e A3 Hi Ht) as (EU & Hne & Ge & Ed). destruct Ht as (EA & He & Hsh).
  assert (∀ v, snd v = snd (next i Q) + Z.of_nat (length A3) → fst v = fst (next i Q) →
    ∃ h2, set_level h' (e_ptr e) i v = Some h2 ∧ same_nodes h' h2 ∧
      ∀ p j, get_level h2 p j = if decide (j = i) then unlink_column p i else get_level h' p j) as Hset.
  { intros v Hv1 Hv2. destruct (set_level_Some h' (e_ptr e) i v (next i (A3 ++ xe :: Q))) as (h2 & E2 & Hs2 & Hg2);
      [by rewrite Hg|]. exists h2. split; [done|]. split; [done|]. intros p j. rewrite Hg2. unfold unlink_column.
    destruct (decide (j = i)) as [->|]; [|rewrite decide_False by tauto; done]. rewrite EU.
    destruct (decide (p = e_ptr e)) as [->|]; [|rewrite decide_False by tauto; by rewrite Hg].
    rewrite decide_True by done. rewrite Ed, next_short by done. f_equal. destruct v. cbn in *. by subst. }
  unfold unlink_level. rewrite EU. cbn [mbind option_bind]. rewrite (Hg (e_ptr e)), Ge, next_short by done.
  pose proof (sk_length _ _ _ _ Hok) as [_ Hn]. rewrite length_app in Hn. cbn [length] in Hn.
  pose proof (f_equal length EA) as El. rewrite length_app in El. cbn [length] in El. pose proof (next_span i Q) as Hsp.
  cbn [mbind option_bind next].
  destruct (Z.ltb_spec i (e_height xe)) as [Hlt|Hge].
  - cbn [fst snd]. rewrite bool_decide_true by done. rewrite Hg.
    rewrite (sk_linked _ _ _ _ Hok (hd :: P) xe Q i) by (done || lia). destruct (next i Q) as [fw sp]. cbn [mbind option_bind fst snd] in *.
    apply Hset; [|done]. cbn. rewrite wrapu_add_r, wrapu_small; lia.
  - assert (fst (next i Q) ≠ Some (e_ptr xe)) as Hfw.
    { destruct (first_tall i Q) as [HQ|(s & t & r & EQ & Hst & Ht)]; [by rewrite next_none|].
      rewrite EQ, next_tall by done. cbn. intros [= Heq]. apply (ptr_other t); [left; rewrite EQ; set_solver|done]. }
    destruct (next i Q) as [fw sp]. cbn [fst snd] in *. rewrite bool_decide_false by done.
    apply Hset; [|done]. cbn. rewrite wrapu_small; lia.
Qed.

(** The store without the node, up to the back pointers. *)
Lemma delete_levels :
  ∃ h1, for_levels (Z.to_nat (zsl_level z)) 0 (unlink_level U (e_ptr xe)) h = Some h1 ∧ same_nodes h h1 ∧
    get_level h1 (e_ptr xe) 0 = Some (next 0 Q) ∧ linked h1 (zsl_level z) (hd :: P ++ Q) ∧
    ∀ i, zsl_level z ≤ i → get_level h1 (e_ptr hd) i = get_level h (e_ptr hd) i.
Proof.
  pose proof (level_range Hok) as Hlv. pose proof (sk_header _ _ _ _ Hok) as (_ & Hh & _).
  destruct (for_levels_spec (unlink_level U (e_ptr xe)) unlink_column h (Z.to_nat (zsl_level z)) 0 h) as (h1 & -> & Hs & Hg);
    [done|done|intros; apply unlink_writes; lia|]. rewrite Z2Nat.id in Hg by lia.
  assert (∀ p i, 0 ≤ i < zsl_level z → get_level h1 p i = unlink_column p i) as Hcol.
  { intros p i Hi. rewrite Hg. by rewrite decide_True by lia. }
  pose proof (sk_heights _ _ _ _ Hok) as Hheights. apply Forall_app in Hheights as [_ [Hxe _]%Forall_cons].
  exists h1. split; [done|]. split; [done|]. split; [|split].
  - rewrite Hcol by lia. unfold unlink_column.
    destruct (last_tall_exists 0 hd P) as (A0 & e & A3 & Ht); [unfold ZSKIPLIST_MAXLEVEL in *; lia|].
    destruct (unlink_tall 0 A0 e A3) as (EU & Hne & _ & _); [lia|done|]. rewrite EU, decide_False by done.
    apply (sk_linked _ _ _ _ Hok (hd :: P) xe Q 0); [done|lia|lia].
  - apply (relink_between h h1 (zsl_level z) (hd :: P) [xe] [] Q).
    + pose proof (sk_nodup _ _ _ _ Hok) as Hnd. rewrite app_comm_cons, fmap_app, fmap_cons in Hnd.
      cbn [app]. rewrite app_comm_cons, fmap_app. apply NoDup_app in Hnd as (H1 & H2 & [_ H3]%NoDup_cons). apply NoDup_app.
      split; [done|]. split; [|done]. intros p Hp Hq. apply (H2 p Hp). by right.
    + apply (sk_linked _ _ _ _ Hok).
    + intros i A0 e A3 Hi Ht. destruct (unlink_tall i A0 e A3 Hi Ht) as (EU & _ & _ & Ed). rewrite Hcol by lia.
      unfold unlink_column. by rewrite EU, decide_True, Ed by done.
    + intros p i Hi Hp Hlast. rewrite Hcol by lia. unfold unlink_column.
      destruct (last_tall_exists i hd P) as (A0 & e & A3 & Ht); [lia|].
      destruct (unlink_tall i A0 e A3 Hi Ht) as (EU & _). rewrite EU. rewrite decide_False; [done|]. by apply (Hlast A0 e A3).
    + intros C e D i E. by destruct C.
  - intros i Hi. rewrite Hg. by rewrite decide_False by lia.
Qed.

Lemma deletion_backward h1 zt :
  same_nodes h h1 → get_level h1 (e_ptr xe) 0 = Some (next 0 Q) → zt = zsl_tail z →
  ∃ n h2 tail, h1 !! e_ptr xe = Some n ∧
    match fst (next 0 Q) with
    | Some y => h3 ← set_backward h1 y (zn_backward n); Some (h3, zt)
    | None => Some (h1, zn_backward n)
    end = Some (h2, tail) ∧
    tail = e_ptr <$> last (P ++ Q) ∧ backed (delete (e_ptr xe) h2) None (P ++ Q) ∧
    (∀ p i, get_level h2 p i = get_level h1 p i) ∧ dom h2 = dom h1 ∧ same_attrs h1 h2.
Proof.
  intros Hs Hg ->. pose proof (sk_backed _ _ _ _ Hok) as Hb. pose proof (sk_tail _ _ _ _ Hok) as Ht.
  pose proof (sk_nodup _ _ _ _ Hok) as Hnd. apply backed_app in Hb as [HbP [Hbx HbQ]].
  pose proof (sk_heights _ _ _ _ Hok) as Hheights. apply Forall_app in Hheights as [_ [_ HhQ]%Forall_cons].
  rewrite (same_nodes_backward _ _ _ Hs) in Hbx. destruct (h1 !! e_ptr xe) as [n|] eqn:En; [|done]. injection Hbx as Hbx.
  exists n. assert (∀ e, e ∈ P ++ Q → ∀ h2 : mem, delete (e_ptr xe) h2 !! e_ptr e = h2 !! e_ptr e) as Hdel.
  { intros e He h2. rewrite lookup_delete_ne; [done|]. intros Heq. by apply (ptr_other e); [left|]. }
  assert (backed (delete (e_ptr xe) h1) None P) as HbP1.
  { eapply backed_ext; [|exact HbP]. intros e He. rewrite Hdel by set_solver. by apply same_nodes_backward. }
  destruct Q as [|q Q'].
  - cbn [next fst]. exists h1, (zn_backward n). split; [done|]. split; [done|]. rewrite app_nil_r.
    split; [|split; [done|split; [done|split; [done|by intros p]]]]. rewrite Hbx. unfold back_of. by destruct (last P).
  - apply Forall_cons in HhQ as [Hq _]. cbn [next]. rewrite (proj2 (Z.ltb_lt _ _)) by lia. cbn [fst].
    assert (is_Some (h1 !! e_ptr q)) as [nq Enq].
    { destruct (described_lookup h _ (hd :: P ++ [xe]) q Q' (sk_described _ _ _ _ Hok)) as (nq & Enq & _).
      { cbn. by rewrite <-(assoc_L (++)). }
      apply elem_of_dom. rewrite (same_nodes_dom _ _ Hs). apply elem_of_dom. by exists nq. }
    destruct (set_backward_Some h1 (e_ptr q) (zn_backward n) nq Enq) as (h2 & -> & G2 & D2 & A2 & B2).
    cbn [mbind option_bind]. exists h2, (zsl_tail z). split; [done|]. split; [done|]. split.
    { rewrite Ht, !last_app. cbn [last]. done. }
    split; [|split; [done|split; [done|intros p; by rewrite <-A2]]].
    rewrite fmap_cons in Hnd. apply NoDup_cons in Hnd as [_ Hnd]. rewrite fmap_app, !fmap_cons in Hnd.
    apply NoDup_app in Hnd as (_ & HndP & [_ [HqQ _]%NoDup_cons]%NoDup_cons). cbn [backed] in HbQ.
    apply backed_app; split; [|split].
    + eapply backed_ext; [|exact HbP1]. intros e He. rewrite !Hdel, B2, decide_False; [done| |set_solver..]. intros Heq.
      apply (HndP (e_ptr e)); [by apply list_elem_of_fmap_2|]. rewrite Heq. right. by left.
    + rewrite Hdel by set_solver. by rewrite B2, decide_True, Hbx by done.
    + eapply backed_ext; [|apply HbQ]. intros e He. rewrite Hdel by set_solver. rewrite B2, decide_False.
      * by apply same_nodes_backward.
      * intros Heq. apply HqQ. rewrite <-Heq. by apply list_elem_of_fmap_2.
Qed.

Lemma zslDeleteNode_spec :
  ∃ h1 z1, zslDeleteNode h z (e_ptr xe) U = Some (h1, z1) ∧ skiplist_ok (delete (e_ptr xe) h1) z1 hd (P ++ Q).
Proof.
  destruct delete_levels as (h1 & E1 & Hs & Hx & Hl & Ha).
  destruct (deletion_backward h1 (zsl_tail z) Hs Hx eq_refl) as (n & h2 & tail & En & E2 & Ht & Hb & Hg2 & Hd2 & Ha2).
  unfold zslDeleteNode. rewrite E1. cbn [mbind option_bind]. rewrite Hx. destruct (next 0 Q) as [fw sp]. cbn [mbind option_bind fst] in *.
  rewrite En. cbn [mbind option_bind]. rewrite E2. cbn [mbind option_bind].
  pose proof (level_range Hok) as Hlv. pose proof (sk_header _ _ _ _ Hok) as (Hh1 & Hh2 & Hh3).
  pose proof (heights_short Hok) as Hsh. apply Forall_app in Hsh as [HshP [_ HshQ]%Forall_cons].
  assert (Forall (λ e, e_height e ≤ zsl_level z) (P ++ Q)) as HshPQ by (by apply Forall_app).
  assert (∀ i, 0 ≤ i < zsl_level z → get_level h2 (zsl_header z) i = Some (next i (P ++ Q))) as Hhead.
  { intros i Hi. rewrite Hg2, <-Hh1. apply (Hl [] hd (P ++ Q) i); [done|lia|lia]. }
  rewrite (lower_level_spec h2 (zsl_header z) (P ++ Q) (zsl_level z)) by (done || lia). cbn [mbind option_bind].
  eexists _, _. split; [done|]. set (lv := foldr Z.max 1 (e_height <$> P ++ Q)).
  assert (lv ≤ zsl_level z) as Hle by (apply foldr_max_le; [lia|by rewrite Forall_fmap]).
  destruct (foldr_max_ge (e_height <$> P ++ Q)) as [_ Hmax]. fold lv in Hmax. rewrite Forall_fmap in Hmax.
  pose proof (sk_dom _ _ _ _ Hok) as Hdom. pose proof (sk_nodup _ _ _ _ Hok) as Hnd.
  pose proof (sk_length _ _ _ _ Hok) as [Hlen Hn]. pose proof (sk_heights _ _ _ _ Hok) as Hheights.
  pose proof (sk_sorted _ _ _ _ Hok) as Hsort. pose proof (sk_elements _ _ _ _ Hok) as Hel.
  pose proof (sk_above _ _ _ _ Hok) as Habove. pose proof (sk_described _ _ _ _ Hok) as Hdesc.
  assert (∀ e, e ∈ hd :: P ++ Q → e_ptr e ≠ e_ptr xe) as Hne.
  { intros e [->|He]%elem_of_cons; [apply ptr_other; by right|apply ptr_other; by left]. }
  assert (∀ e i, e ∈ hd :: P ++ Q → get_level (delete (e_ptr xe) h2) (e_ptr e) i = get_level h1 (e_ptr e) i) as Hgd.
  { intros e i He. rewrite <-Hg2. unfold get_level. rewrite lookup_delete_ne; [done|]. symmetry. by apply Hne. }
  assert (Permutation (e_ptr <$> hd :: P ++ xe :: Q) (e_ptr xe :: (e_ptr <$> hd :: P ++ Q))) as Hperm.
  { rewrite !fmap_cons, !fmap_app, fmap_cons, <-Permutation_middle. apply Permutation_swap. }
  rewrite Hperm in Hnd. apply NoDup_cons in Hnd as [Hxn Hnd].
  split; cbn [zsl_level zsl_header zsl_tail zsl_length].
  - intros A e B i El Hi Hi2. rewrite Hgd by (rewrite El; set_solver). apply (Hl A e B i El Hi). lia.
  - apply (described_ext h).
    + intros e He. rewrite lookup_delete_ne by (symmetry; by apply Hne). rewrite <-Ha2. by apply same_nodes_attrs.
    + rewrite app_comm_cons in *. apply Forall_app in Hdesc as [? [_ ?]%Forall_cons]. by apply Forall_app.
  - done.
  - intros i Hi. rewrite Hgd by (by left). destruct (Z.lt_ge_cases i (zsl_level z)) as [Hi2|Hi2].
    + pose proof (foldr_max_ge (e_height <$> P ++ Q)) as [? _]. rewrite <-Hg2, Hh1, Hhead by lia. rewrite next_none; [done|].
      eapply Forall_impl; [exact Hmax|]. cbn. lia.
    + rewrite Ha by lia. apply Habove. lia.
  - done.
  - rewrite dom_delete_L, Hd2, (same_nodes_dom _ _ Hs), Hdom. apply set_eq. intros p.
    rewrite elem_of_difference, elem_of_singleton, !elem_of_list_to_set, Hperm, elem_of_cons.
    split; [tauto|]. intros Hp. split; [by right|]. intros ->. done.
  - done.
  - done.
  - rewrite Hlen, !length_app in *. cbn [length] in *. rewrite wrapu_small by lia. lia.
  - apply Forall_app in Hheights as [? [_ ?]%Forall_cons]. by apply Forall_app.
  - done.
  - apply StronglySorted_app in Hsort as (H1 & H2 & [_ H3]%StronglySorted_cons). apply StronglySorted_app.
    split; [|done]. intros a b Hina Hinb. apply H1; [done|by right].
  - apply Forall_app in Hel as [? [_ ?]%Forall_cons]. by apply Forall_app.
Qed.
End deletion.

(** ** The place of an element *)

Lemma isnan_false_eqb s s' : isnan s = false → isnan s' = false → SFeqb s s' = bool_decide (fkey s = fkey s').
Proof.
  intros H1 H2. unfold SFeqb. rewrite SFcompare_key by done.
  destruct (str_cmp (fkey s) (fkey s')) eqn:E; symmetry.
  - apply bool_decide_eq_true. by apply str_cmp_eq.
  - apply bool_decide_eq_false. intros E'%str_cmp_eq. congruence.
  - apply bool_decide_eq_false. intros E'%str_cmp_eq. congruence.
Qed.

Section place.
Context `{!Memcmp} {h : mem} {z : zskiplist} {hd : ent} {ns : list ent}.
Hypothesis (Hok : skiplist_ok h z hd ns).

Lemma equalStringObjects_eq a b : blen a < 2 ^ 31 → blen b < 2 ^ 31 → equalStringObjects a b = bool_decide (a = b).
Proof.
  intros Ha Hb. unfold equalStringObjects. pose proof (compareStringObjects_cmp a b Ha Hb) as Hc.
  unfold Z.eqb. destruct (Z.eqb_spec (compareStringObjects a b) 0) as [E|E]; cycle 1.
  - destruct (compareStringObjects a b) eqn:Ez; [done|..]; symmetry; apply bool_decide_eq_false;
      intros ->; rewrite str_cmp_refl in Hc; done.
  - rewrite E in *. symmetry. apply bool_decide_eq_true. by apply str_cmp_eq.
Qed.

(** The nodes at the bottom level around the end of [P]. *)
Lemma bottom P Q U :
  ns = P ++ Q → updates (hd :: P) (zsl_level z) U →
  ∃ A0 e, hd :: P = A0 ++ [e] ∧ at_level U 0 = Some (e_ptr e, Z.of_nat (length P)) ∧ get_level h (e_ptr e) 0 = Some (next 0 Q).
Proof.
  intros E HU. pose proof (level_range Hok) as Hlv. pose proof (sk_header _ _ _ _ Hok) as (_ & Hh & _).
  pose proof (sk_heights _ _ _ _ Hok) as Hheights. rewrite E, Forall_app in Hheights. destruct Hheights as [HP _].
  destruct (last_tall_exists 0 hd P) as (A0 & e & A3 & Ht); [unfold ZSKIPLIST_MAXLEVEL in *; lia|].
  assert (A3 = []) as ->.
  { destruct Ht as (El & _ & Hsh). destruct A3 as [|a A3]; [done|]. apply Forall_cons in Hsh as [Ha _].
    assert (a ∈ P) as Hin by (destruct A0; injection El as -> ->; set_solver).
    rewrite Forall_forall in HP. specialize (HP a Hin). lia. }
  pose proof Ht as (El & He & _). exists A0, e. split; [done|]. split.
  - rewrite (HU 0 A0 e []) by (done || lia). do 2 f_equal. apply (f_equal length) in El. rewrite length_app in El. cbn in El. lia.
  - apply (sk_linked _ _ _ _ Hok A0 e Q 0); [|lia|lia]. rewrite E, app_comm_cons, El. by rewrite <-(assoc_L (++)).
Qed.

Lemma next_head Q : Forall (λ e, 1 ≤ e_height e) Q → fst (next 0 Q) = e_ptr <$> head Q.
Proof. intros HQ. destruct Q as [|q Q]; [done|]. apply Forall_cons in HQ as [Hq _]. cbn [next]. by rewrite (proj2 (Z.ltb_lt _ _)) by lia. Qed.

Lemma heights_pos : Forall (λ e, 1 ≤ e_height e) ns.
Proof. eapply Forall_impl; [exact (sk_heights _ _ _ _ Hok)|]. cbn. lia. Qed.

Lemma node_of e : e ∈ ns → ∃ n, h !! e_ptr e = Some n ∧ attrs n = ent_attrs e.
Proof.
  intros He. apply list_elem_of_split in He as (A & B & ->).
  destruct (described_lookup h _ (hd :: A) e B (sk_described _ _ _ _ Hok)) as (n & En & Ha & _); [done|]. by exists n.
Qed.

Lemma element_of e : e ∈ ns → isnan (e_score e) = false ∧ ∃ o, e_obj e = Some o ∧ blen o < 2 ^ 31.
Proof. pose proof (sk_elements _ _ _ _ Hok) as Hel. rewrite Forall_forall in Hel. apply Hel. Qed.

Lemma key_equal e n score obj :
  e ∈ ns → attrs n = ent_attrs e → isnan score = false → blen obj < 2 ^ 31 →
  ∃ o, zn_obj n = Some o ∧ SFeqb score (zn_score n) && equalStringObjects o obj = bool_decide (ent_key e = fkey score ++ obj).
Proof.
  intros He Ha Hn Ho. destruct (element_of e He) as (Hs & o & Eo & Hlo). injection Ha as Ha1 Ha2 _. exists o.
  split; [congruence|]. rewrite Ha2, isnan_false_eqb, equalStringObjects_eq by done. unfold ent_key. rewrite Eo. cbn [default].
  destruct (decide (fkey score = fkey (e_score e))) as [Ef|Ef].
  - rewrite (bool_decide_true (fkey score = _)) by done. cbn [andb]. rewrite Ef. apply bool_decide_ext. split; [by intros ->|].
    apply app_inv_head.
  - rewrite bool_decide_false by done. symmetry. apply bool_decide_eq_false. intros [E _]%app_inj_1; [congruence|].
    by rewrite !fkey_length.
Qed.

Lemma zslDelete_spec score obj :
  isnan score = false → blen obj < 2 ^ 31 →
  ∃ h' z' b, zslDelete h z score obj = Some (h', z', b) ∧
    if b : bool then ∃ P xe Q, ns = P ++ xe :: Q ∧ ent_key xe = fkey score ++ obj ∧ skiplist_ok h' z' hd (P ++ Q)
    else fkey score ++ obj ∉ ent_key <$> ns ∧ h' = h ∧ z' = z.
Proof.
  intros Hn Ho. destruct (search_before Hok score obj Hn Ho) as (P & Q & U & E & HP & HQ & EU & HU & HlU).
  destruct (bottom P Q U E HU) as (A0 & e & EA & E0 & Eg). pose proof heights_pos as Hpos. rewrite E, Forall_app in Hpos.
  unfold zslDelete. rewrite EU. cbn [mbind option_bind]. rewrite E0. cbn [mbind option_bind]. rewrite Eg.
  pose proof (next_head Q (proj2 Hpos)) as Hnext. destruct (next 0 Q) as [fw sp]. cbn [fst] in Hnext. subst fw. cbn [mbind option_bind].
  assert (fkey score ++ obj ∉ ent_key <$> P) as HnP.
  { intros (x & Hx & Hin)%list_elem_of_fmap. rewrite Forall_forall in HP. specialize (HP x Hin).
    rewrite <-Hx, str_cmp_refl in HP. done. }
  destruct Q as [|q Q]; cbn [head fmap option_fmap option_map].
  { exists h, z, false. split; [done|]. rewrite E, app_nil_r. done. }
  destruct (node_of q) as (n & En & Ha); [rewrite E; set_solver|]. rewrite En. cbn [mbind option_bind].
  destruct (key_equal q n score obj) as (o & Eo & Etest); [rewrite E; set_solver|done|done|done|]. rewrite Eo. cbn [mbind option_bind].
  rewrite Etest. case_bool_decide as Hk.
  - pose proof Hok as Hok'. rewrite E in Hok'. destruct (zslDeleteNode_spec Hok' HU) as (h1 & z1 & -> & Hok1).
    cbn [mbind option_bind]. eexists _, _, true. split; [done|]. by exists P, q, Q.
  - exists h, z, false. split; [done|]. split; [|done]. rewrite E, fmap_app, elem_of_app. intros [|Hin]; [done|].
    apply list_elem_of_fmap in Hin as (x & Hx & [-> |Hin]%elem_of_cons); [done|].
    pose proof (sk_sorted _ _ _ _ Hok) as Hs. rewrite E in Hs. apply StronglySorted_app in Hs as (_ & _ & [Hq _]%StronglySorted_cons).
    rewrite Forall_forall in Hq. specialize (Hq x Hin). unfold ent_before in Hq. rewrite <-Hx in Hq.
    apply Forall_cons in HQ as [HQ _]. by apply bool_decide_eq_false in HQ.
Qed.

(** A search with a test after each level: the levels come to the last nodes of [A]. *)
Lemma until_spec {R} go_on (found : positive → Z → option (option R)) P Q :
  ns = P ++ Q → holds_up_to go_on h (hd :: P) Q →
  (∀ A0 e A3, hd :: P = A0 ++ e :: A3 → is_Some (found (e_ptr e) (Z.of_nat (length A0)))) →
  ∃ r, descend_until go_on found (Z.to_nat (zsl_level z)) h (zsl_header z) 0 = Some r ∧
    match r with
    | Some a => ∃ A0 e A3, hd :: P = A0 ++ e :: A3 ∧ found (e_ptr e) (Z.of_nat (length A0)) = Some (Some a)
    | None => ∃ A0 e, hd :: P = A0 ++ [e] ∧ found (e_ptr e) (Z.of_nat (length A0)) = Some None
    end.
Proof.
  intros E Hc Hf. pose proof (level_range Hok) as Hlv. pose proof (sk_header _ _ _ _ Hok) as (Hh1 & Hh2 & _).
  pose proof (sk_linked _ _ _ _ Hok) as Hl. pose proof (sk_described _ _ _ _ Hok) as Hd.
  pose proof (sk_length _ _ _ _ Hok) as [_ Hn]. pose proof (size_store Hok) as Hsz. pose proof heights_pos as Hpos.
  rewrite E in *. rewrite <-Hh1.
  destruct (descend_until_spec go_on h (zsl_level z) (hd :: P) Q Hl Hd Hc) with (n := Z.to_nat (zsl_level z))
    (found := found) (A1 := @nil ent) (e0 := hd) (A2 := P) as (r & Er & Hr).
  - cbn [length app]. rewrite Nat2Z.inj_succ. lia.
  - rewrite Hsz, length_app. cbn [length]. lia.
  - intros i A0 e A3 _ (EA & _). by apply (Hf A0 e A3).
  - done.
  - lia.
  - lia.
  - exists r. split; [exact Er|]. destruct r as [a|].
    + destruct Hr as (i & A0 & e & A3 & _ & (EA & _) & Hfound). by exists A0, e, A3.
    + destruct (last_tall_exists 0 hd P) as (A0 & e & A3 & Ht); [unfold ZSKIPLIST_MAXLEVEL in *; lia|].
      specialize (Hr 0 A0 e A3 ltac:(lia) Ht). destruct Ht as (EA & _ & Hs). exists A0, e. split; [|done].
      destruct A3 as [|a A3]; [done|]. apply Forall_cons in Hs as [Ha _]. apply Forall_app in Hpos as [HP _].
      assert (a ∈ P) as Hin by (destruct A0; injection EA as -> ->; set_solver).
      rewrite Forall_forall in HP. specialize (HP a Hin). cbn in HP. lia.
Qed.

(** The element [o] is not in the list with another score. *)
Definition scored (score : spec_float) (o : list Z) : Prop := ∀ e, e ∈ ns → e_obj e = Some o → fkey (e_score e) = fkey score.

Lemma key_le_pred score o n e t :
  e ∈ ns → attrs n = ent_attrs e → isnan score = false → blen o < 2 ^ 31 →
  (λ n (_ : Z), SFltb (zn_score n) score || (SFeqb (zn_score n) score &&
     match zn_obj n with Some o' => compareStringObjects o' o <=? 0 | None => false end)) n t
  = bool_decide (str_cmp (ent_key e) (fkey score ++ o) ≠ Gt).
Proof.
  intros He Ha Hn Ho. destruct (element_of e He) as (Hs & o' & Eo & Hlo). injection Ha as Ha1 Ha2 _. cbv beta.
  unfold SFltb, SFeqb, ent_key. rewrite Ha1, Ha2, Eo, SFcompare_key by done. cbn [default].
  rewrite str_cmp_app by (by rewrite !fkey_length).
  destruct (str_cmp (fkey (e_score e)) (fkey score)); cbn [orb andb]; [|by rewrite bool_decide_true|by rewrite bool_decide_false by tauto].
  rewrite <-compareStringObjects_cmp by done. unfold Z.leb. by destruct (_ ?= 0); rewrite ?bool_decide_true, ?bool_decide_false by tauto.
Qed.
End place.

(** ** Ranks *)

Section ranks.
Context `{!Memcmp} {h : mem} {z : zskiplist} {hd : ent} {ns : list ent}.
Hypothesis (Hok : skiplist_ok h z hd ns).

Lemma not_gt_before a b k : ent_before a b → str_cmp (ent_key b) k ≠ Gt → str_cmp (ent_key a) k ≠ Gt.
Proof.
  unfold ent_before. intros Hab Hb. destruct (str_cmp (ent_key b) k) eqn:E; [|by rewrite (str_cmp_trans _ _ _ Hab E)|done].
  apply str_cmp_eq in E as <-. by rewrite Hab.
Qed.

(** What zslGetRank finds at a node. *)
Lemma rank_found o e (rank : Z) :
  e ∈ hd :: ns → blen o < 2 ^ 31 →
  (n ← h !! e_ptr e;
   Some (match zn_obj n with Some o' => if equalStringObjects o' o then Some rank else None | None => None end))
  = Some (if bool_decide (e_obj e = Some o) then Some rank else None).
Proof.
  intros He Ho. pose proof (sk_header _ _ _ _ Hok) as (_ & _ & Hobj).
  apply elem_of_cons in He as [->|He].
  - destruct (described_lookup h _ [] hd ns (sk_described _ _ _ _ Hok)) as (n & En & Ha & _); [done|].
    rewrite En. cbn [mbind option_bind]. injection Ha as Ha _ _. rewrite Ha, Hobj. by rewrite bool_decide_false.
  - destruct (node_of Hok e He) as (n & En & Ha). destruct (element_of Hok e He) as (_ & o' & Eo & Hlo).
    rewrite En. cbn [mbind option_bind]. injection Ha as Ha _ _. rewrite Ha, Eo, equalStringObjects_eq by done.
    assert (bool_decide (o' = o) = bool_decide (Some o' = Some o)) as ->; [|done]. apply bool_decide_ext. naive_solver.
Qed.

Lemma zslGetRank_spec score o :
  isnan score = false → blen o < 2 ^ 31 → scored (ns := ns) score o →
  (∀ k e, ns !! k = Some e → e_obj e = Some o → zslGetRank h z score o = Some (Z.of_nat k + 1)) ∧
  (Forall (λ e, e_obj e ≠ Some o) ns → zslGetRank h z score o = Some 0).
Proof.
  intros Hn Ho Hsc. pose proof (sk_sorted _ _ _ _ Hok) as Hs. pose proof (sk_described _ _ _ _ Hok) as Hd.
  destruct (split_sorted (λ e, bool_decide (str_cmp (ent_key e) (fkey score ++ o) ≠ Gt)) ns Hs) as (P & Q & E & HP & HQ).
  { intros a b _ _ Hab Hb%bool_decide_eq_true. apply bool_decide_eq_true. by eapply not_gt_before. }
  assert (∀ e, e ∈ ns → e_obj e = Some o → ent_key e = fkey score ++ o) as Hkey.
  { intros e He Eo. unfold ent_key. by rewrite (Hsc e He Eo), Eo. }
  unfold zslGetRank. set (go_on := λ (n : zskiplistNode) (_ : Z), _).
  assert (holds_up_to go_on h (hd :: P) Q) as Hc.
  { rewrite E in Hd. apply (holds_up_to_pred go_on (λ e, bool_decide (str_cmp (ent_key e) (fkey score ++ o) ≠ Gt))); try done.
    intros e n t He Ha. rewrite <-E in He. by apply (key_le_pred Hok). }
  assert (∀ A0 e A3, hd :: P = A0 ++ e :: A3 → e ∈ hd :: ns) as Hin.
  { intros A0 e A3 EA. rewrite E, app_comm_cons, EA. set_solver. }
  destruct (until_spec Hok go_on (λ x rank, n ← h !! x;
           Some (match zn_obj n with Some o' => if equalStringObjects o' o then Some rank else None | None => None end)) P Q E Hc)
    as (r & -> & Hr).
  { intros A0 e A3 EA. rewrite rank_found by (done || by eapply Hin). by eexists. }
  cbn [mbind option_bind].
  assert (∀ A0 e A3 a, hd :: P = A0 ++ e :: A3 → (if bool_decide (e_obj e = Some o) then Some (Z.of_nat (length A0)) else None) = Some a →
    ∃ A1, A0 = hd :: A1 ∧ e ∈ ns ∧ e_obj e = Some o ∧ a = Z.of_nat (length A1) + 1 ∧ ns !! length A1 = Some e) as Hhit.
  { intros A0 e A3 a EA Ea. case_bool_decide as Eo; [|done]. injection Ea as <-. destruct A0 as [|a0 A1].
    - injection EA as <- _. pose proof (sk_header _ _ _ _ Hok) as (_ & _ & Hobj). congruence.
    - injection EA as <- EA. exists A1. split; [done|]. split; [rewrite E, EA; set_solver|]. split; [done|].
      split; [cbn [length]; lia|]. rewrite E, EA, <-(assoc_L (++)). by apply list_lookup_middle. }
  split.
  - intros k e Ek Eo. assert (e ∈ ns) as He by (by eapply list_elem_of_lookup_2).
    destruct r as [a|].
    + destruct Hr as (A0 & e' & A3 & EA & Hf). rewrite rank_found in Hf by (done || by eapply Hin). injection Hf as Hf.
      destruct (Hhit A0 e' A3 a EA Hf) as (A1 & -> & He' & Eo' & -> & El). cbn. do 2 f_equal.
      assert (∀ i j x y, (i < j)%nat → ns !! i = Some x → ns !! j = Some y → ent_key x = ent_key y → False) as Hlt.
      { intros i j x y Hij Ei Ej Exy. apply list_elem_of_split_length in Ei as (B1 & B2 & EB & HB).
        rewrite EB in Hs, Ej. apply StronglySorted_app in Hs as (_ & _ & [Hb _]%StronglySorted_cons).
        rewrite lookup_app_r in Ej by lia. destruct (j - length B1)%nat as [|m] eqn:Em; [lia|]. cbn in Ej.
        rewrite Forall_forall in Hb. specialize (Hb y ltac:(by eapply list_elem_of_lookup_2)).
        unfold ent_before in Hb. by rewrite Exy, str_cmp_refl in Hb. }
      assert (ent_key e = ent_key e') as Ekk by (rewrite !Hkey; done).
      destruct (Nat.lt_trichotomy k (length A1)) as [?|[?|?]]; [exfalso; by eapply Hlt|lia|exfalso; by eapply (Hlt (length A1) k e' e)].
    + exfalso. destruct Hr as (A0 & e' & EA & Hf). rewrite rank_found in Hf by (done || by eapply Hin). injection Hf as Hf.
      case_bool_decide as Eo'; [done|]. apply Eo'. clear Hhit.
      assert (e ∈ P) as HeP.
      { rewrite E in He. apply elem_of_app in He as [|He]; [done|]. rewrite Forall_forall in HQ. specialize (HQ e He).
        apply bool_decide_eq_false in HQ. destruct HQ. rewrite (Hkey e), str_cmp_refl; [done|by eapply list_elem_of_lookup_2|done]. }
      destruct A0 as [|a0 A1]; injection EA as -> EA; [rewrite EA in HeP; by apply elem_of_nil in HeP|].
      rewrite EA in HeP. apply elem_of_app in HeP as [HeP|He'%list_elem_of_singleton]; [|congruence].
      rewrite E, EA, <-(assoc_L (++)) in Hs. apply StronglySorted_app in Hs as (Hs & _).
      specialize (Hs e e' HeP ltac:(by left)). rewrite Forall_forall in HP. specialize (HP e' ltac:(rewrite EA; set_solver)).
      apply bool_decide_eq_true in HP. unfold ent_before in Hs. rewrite (Hkey e) in Hs by (done || by eapply list_elem_of_lookup_2).
      rewrite str_cmp_antisym, Hs in HP. done.
  - intros Hno. destruct r as [a|]; [|done]. destruct Hr as (A0 & e' & A3 & EA & Hf).
    rewrite rank_found in Hf by (done || by eapply Hin). injection Hf as Hf.
    destruct (Hhit A0 e' A3 a EA Hf) as (A1 & _ & He' & Eo' & _). rewrite Forall_forall in Hno. by destruct (Hno e' He').
Qed.

(** A condition on the ranks. *)
Lemma holds_up_to_rank go_on (m : nat) :
  (∀ n t, 0 ≤ t → go_on n t = bool_decide (t < Z.of_nat (S m))) → holds_up_to go_on h (hd :: take m ns) (drop m ns).
Proof.
  intros Hg A e B n El Hne En. rewrite Hg by lia. apply bool_decide_ext. rewrite <-app_comm_cons, take_drop in El.
  destruct A as [|a A]; [done|]. injection El as _ El. apply (f_equal length) in El. rewrite length_app in El.
  cbn [length] in *. rewrite length_take. lia.
Qed.

Lemma zslGetElementByRank_spec rank :
  1 ≤ rank → zslGetElementByRank h z rank = Some (e_ptr <$> ns !! Z.to_nat (rank - 1)).
Proof.
  intros Hr. pose proof (sk_length _ _ _ _ Hok) as [_ Hn]. set (m := Z.to_nat rank).
  unfold zslGetElementByRank. set (go_on := λ (_ : zskiplistNode) (t : Z), t <=? rank).
  destruct (until_spec Hok go_on (λ x t, Some (if t =? rank then Some x else None)) (take m ns) (drop m ns))
    as (r & -> & Hres).
  - by rewrite take_drop.
  - apply holds_up_to_rank. intros n t Ht. unfold go_on. destruct (Z.leb_spec t rank); symmetry;
      [apply bool_decide_eq_true|apply bool_decide_eq_false]; subst m; lia.
  - intros. by eexists.
  - f_equal. destruct r as [a|].
    + destruct Hres as (A0 & e & A3 & EA & Hf). injection Hf as Hf. destruct (Z.eqb_spec (Z.of_nat (length A0)) rank) as [El|]; [|done].
      injection Hf as <-. destruct A0 as [|a0 A1]; [cbn in El; lia|]. injection EA as _ EA.
      assert (ns !! length A1 = Some e) as Hl.
      { apply (f_equal (lookup (length A1))) in EA. rewrite list_lookup_middle in EA by done. by apply lookup_take_Some in EA as [? _]. }
      cbn [length] in El. replace (Z.to_nat (rank - 1)) with (length A1) by lia. by rewrite Hl.
    + destruct Hres as (A0 & e & EA & Hf). injection Hf as Hf. destruct (Z.eqb_spec (Z.of_nat (length A0)) rank) as [|Hne]; [done|].
      rewrite lookup_ge_None_2; [done|]. apply (f_equal length) in EA. rewrite length_app in EA. cbn [length] in EA.
      rewrite length_take in EA. subst m. lia.
Qed.
End ranks.

(** ** Ranges *)

Section ranges.
Context `{!Memcmp} {h : mem} {z : zskiplist} {hd : ent} {ns : list ent}.
Hypothesis (Hok : skiplist_ok h z hd ns).

(** The two bounds, of the nodes and of the elements. *)
Context (gte lte : zskiplistNode → bool) (egte elte : ent → bool).
Hypothesis (Hgte : ∀ e n, e ∈ ns → attrs n = ent_attrs e → gte n = egte e)
  (Hlte : ∀ e n, e ∈ ns → attrs n = ent_attrs e → lte n = elte e)
  (Hup : ∀ a b, a ∈ ns → b ∈ ns → ent_before a b → egte a = true → egte b = true)
  (Hdown : ∀ a b, a ∈ ns → b ∈ ns → ent_before a b → elte b = true → elte a = true).

Definition inside (e : ent) : Prop := egte e = true ∧ elte e = true.
#[export] Instance inside_dec e : Decision (inside e).
Proof. unfold inside. apply _. Defined.

(** Neither end of the list is beyond the range on the other side. *)
Lemma ends_in_range_spec :
  ∃ b, ends_in_range gte lte h z = Some b ∧
    if b : bool then (∃ e, last ns = Some e ∧ egte e = true) ∧ (∃ e, head ns = Some e ∧ elte e = true)
    else ∀ e, e ∈ ns → ¬ inside e.
Proof.
  unfold ends_in_range. rewrite (sk_tail _ _ _ _ Hok). pose proof (sk_header _ _ _ _ Hok) as (Hh & Hh2 & _).
  pose proof (sk_sorted _ _ _ _ Hok) as Hs. pose proof (level_range Hok) as Hlv.
  destruct (last ns) as [t|] eqn:Et; cbn [fmap option_fmap option_map].
  2: { apply last_None in Et as ->. exists false. split; [done|]. intros e He. by apply elem_of_nil in He. }
  apply last_Some in Et as [ns' Et]. assert (t ∈ ns) as Hin by (rewrite Et; set_solver).
  destruct (node_of Hok t Hin) as (n & En & Ha). rewrite En. cbn [mbind option_bind]. rewrite (Hgte t n Hin Ha).
  destruct (egte t) eqn:Eg; cbn [negb].
  2: { exists false. split; [done|]. intros e He [H1 _]. rewrite Et in He. apply elem_of_app in He as [He|He%list_elem_of_singleton]; [|congruence].
    rewrite Et in Hs. apply StronglySorted_app in Hs as (Hs & _). specialize (Hs e t He ltac:(by left)).
    rewrite (Hup e t) in Eg; [done|rewrite Et; set_solver|done|done|done]. }
  rewrite <-Hh, (sk_linked _ _ _ _ Hok [] hd ns 0) by (done || unfold ZSKIPLIST_MAXLEVEL in *; lia).
  pose proof (next_head ns (heights_pos Hok)) as Hnext. destruct (next 0 ns) as [fw sp]. cbn [fst] in Hnext. subst fw.
  cbn [mbind option_bind]. destruct ns as [|q ns0] eqn:Ens; [by destruct ns'|]. cbn [head fmap option_fmap option_map].
  assert (q ∈ q :: ns0) as Hq by (by left). destruct (node_of Hok q Hq) as (nq & Enq & Hnq).
  rewrite Enq. cbn [mbind option_bind]. rewrite (Hlte q nq Hq Hnq). exists (elte q). split; [done|].
  destruct (elte q) eqn:El; [split; [by exists t|by exists q]|]. intros e He [_ H2].
  pose proof He as He'. apply elem_of_cons in He' as [->|He']; [congruence|].
  apply StronglySorted_cons in Hs as [Hs _]. rewrite Forall_forall in Hs. rewrite (Hdown q e) in El; try done. by apply Hs.
Qed.

(** The elements before, in and after the range. *)
Lemma head_filter_split P Q :
  ns = P ++ Q → Forall (λ e, egte e = false) P → Forall (λ e, egte e = true) Q →
  head (filter inside ns) = match Q with q :: _ => if elte q then Some q else None | [] => None end.
Proof.
  intros E HP HQ. rewrite E, filter_app.
  assert (filter inside P = []) as -> by (apply filter_none; intros e He [H1 _]; rewrite Forall_forall in HP; specialize (HP e He); cbn in HP; congruence).
  destruct Q as [|q Q]; [done|]. apply Forall_cons in HQ as [Hq HQ]. cbn [app]. destruct (elte q) eqn:El.
  - rewrite filter_cons_True by done. done.
  - assert (filter inside (q :: Q) = []) as ->; [|done]. apply filter_none; intros e He [_ H2].
    pose proof (sk_sorted _ _ _ _ Hok) as Hs. rewrite E in Hs. apply StronglySorted_app in Hs as (_ & _ & [Hs _]%StronglySorted_cons).
    apply elem_of_cons in He as [->|He]; [congruence|]. rewrite Forall_forall in Hs.
    rewrite (Hdown q e) in El; [done|rewrite E; set_solver..|by apply Hs|done].
Qed.

Lemma first_node_spec :
  (∃ e, last ns = Some e ∧ egte e = true) → first_node gte lte h z = Some (e_ptr <$> head (filter inside ns)).
Proof.
  intros (t & Et & Eg). unfold first_node.
  destruct (search_spec Hok (λ n _, negb (gte n)) (λ e, negb (egte e))) as (P & Q & U & E & HP & HQ & EU & HU & _).
  { intros a b Ha Hb Hab Hn. destruct (egte a) eqn:Ea; [|done]. by rewrite (Hup a b) in Hn. }
  { intros e n _ He Ha. by rewrite (Hgte e n). }
  rewrite EU. cbn [mbind option_bind]. destruct (bottom Hok P Q U E HU) as (A0 & e & EA & E0 & Eg0). rewrite E0. cbn [mbind option_bind].
  rewrite Eg0. pose proof (heights_pos Hok) as Hpos. rewrite E, Forall_app in Hpos.
  pose proof (next_head Q (proj2 Hpos)) as Hnext. destruct (next 0 Q) as [fw sp]. cbn [fst] in Hnext. subst fw. cbn [mbind option_bind].
  rewrite (head_filter_split P Q E).
  2: { eapply Forall_impl; [exact HP|]. cbn. intros x Hx. by destruct (egte x). }
  2: { eapply Forall_impl; [exact HQ|]. cbn. intros x Hx. by destruct (egte x). }
  destruct Q as [|q Q].
  - exfalso. rewrite app_nil_r in E. subst P. apply last_Some in Et as [l Et]. rewrite Et, Forall_app, Forall_cons in HP.
    destruct HP as (_ & HP & _). by rewrite Eg in HP.
  - cbn [head fmap option_fmap option_map mbind option_bind]. destruct (node_of Hok q) as (n & En & Ha); [rewrite E; set_solver|].
    rewrite En. cbn [mbind option_bind]. rewrite (Hlte q n) by (done || rewrite E; set_solver). by destruct (elte q).
Qed.

Lemma last_filter_split P Q :
  ns = P ++ Q → Forall (λ e, elte e = true) P → Forall (λ e, elte e = false) Q →
  last (filter inside ns) = match last P with Some e => if egte e then Some e else None | None => None end.
Proof.
  intros E HP HQ. rewrite E, filter_app.
  assert (filter inside Q = []) as -> by (apply filter_none; intros e He [_ H2]; rewrite Forall_forall in HQ; specialize (HQ e He); cbn in HQ; congruence).
  rewrite app_nil_r. destruct (last P) as [t|] eqn:Et; [|by apply last_None in Et as ->]. apply last_Some in Et as [P' ->].
  apply Forall_app in HP as [HP' [Ht _]%Forall_cons]. rewrite filter_app. destruct (egte t) eqn:Eg.
  - assert (filter inside [t] = [t]) as -> by (rewrite filter_cons_True by done; done). apply last_snoc.
  - assert (filter inside [t] = []) as -> by (rewrite filter_cons_False; [done|intros [H1 _]; congruence]).
    rewrite app_nil_r. assert (filter inside P' = []) as ->; [|done]. apply filter_none; intros e He [H1 _].
    pose proof (sk_sorted _ _ _ _ Hok) as Hs. rewrite E in Hs. apply StronglySorted_app in Hs as (_ & Hs & _).
    apply StronglySorted_app in Hs as (Hs & _). specialize (Hs e t He ltac:(by left)).
    rewrite (Hup e t) in Eg; [done|rewrite E; set_solver..|done|done].
Qed.

Lemma last_node_spec :
  (∃ e, head ns = Some e ∧ elte e = true) → last_node gte lte h z = Some (e_ptr <$> last (filter inside ns)).
Proof.
  intros (q & Eq & El). unfold last_node.
  destruct (search_spec Hok (λ n _, lte n) elte) as (P & Q & U & E & HP & HQ & EU & HU & _).
  { intros a b Ha Hb Hab Hn. by apply (Hdown a b). } { intros e n _ He Ha. by rewrite (Hlte e n). }
  rewrite EU. cbn [mbind option_bind]. destruct (bottom Hok P Q U E HU) as (A0 & e & EA & E0 & _). rewrite E0. cbn [mbind option_bind].
  rewrite (last_filter_split P Q E HP HQ).
  assert (P ≠ []) as Hne.
  { intros ->. cbn in E. subst Q. apply head_Some in Eq as [l Eq]. rewrite Eq, Forall_cons in HQ. destruct HQ as [HQ _]. congruence. }
  destruct A0 as [|a A0]; [by injection EA as _ ->|]. injection EA as _ EA. rewrite EA, last_snoc.
  assert (e ∈ ns) as He by (rewrite E, EA; set_solver). destruct (node_of Hok e He) as (n & En & Ha). rewrite En. cbn [mbind option_bind].
  rewrite (Hgte e n He Ha). by destruct (egte e).
Qed.
End ranges.

(** ** Deletion of ranges *)

Class DictKeysLaws (D : Type) `{DictKeys D} := {
  dk_ok : D → Prop;
  dk_keys : D → gset (list Z);
  dk_delete d o : dk_ok d → ∃ d', dict_delete d o = Some d' ∧ dk_ok d' ∧ dk_keys d' = dk_keys d ∖ {[o]};
}.

(** The elements of some nodes. *)
Definition objs (l : list ent) : list (list Z) := (λ e, default [] (e_obj e)) <$> l.

Section range_deletion.
Context `{!Memcmp} {D : Type} `{!DictKeys D} `{!DictKeysLaws D} {hd : ent} {P : list ent}.

Lemma wrapu_add_l w a b : wrapu w (wrapu w a + b) = wrapu w (a + b).
Proof. unfold wrapu. apply Zplus_mod_idemp_l. Qed.

Lemma delete_while_spec go_on U Q : ∀ M fuel h z T dict r,
  skiplist_ok h z hd (P ++ M ++ Q) → updates (hd :: P) (zsl_level z) U → dk_ok dict → (length M ≤ fuel)%nat →
  (∀ j e n, M !! j = Some e → attrs n = ent_attrs e → go_on n (u32 (T + Z.of_nat j)) = true) →
  (∀ e n, head Q = Some e → attrs n = ent_attrs e → go_on n (u32 (T + Z.of_nat (length M))) = false) →
  ∃ h' z' dict', delete_while fuel go_on h z (e_ptr <$> head (M ++ Q)) U (u32 T) dict (u32 r)
      = Some (h', z', dict', u32 (r + Z.of_nat (length M))) ∧
    skiplist_ok h' z' hd (P ++ Q) ∧ dk_ok dict' ∧ dk_keys dict' = dk_keys dict ∖ list_to_set (objs M).
Proof.
  induction M as [|m M IH]; intros fuel h z T dict r Hok HU Hd Hf HM HQ.
  - cbn [app] in *. assert (∃ h' z' dict', Some (h, z, dict, u32 r) = Some (h', z', dict', u32 (r + Z.of_nat (length (@nil ent)))) ∧
      skiplist_ok h' z' hd (P ++ Q) ∧ dk_ok dict' ∧ dk_keys dict' = dk_keys dict ∖ list_to_set (objs [])) as Hstop.
    { exists h, z, dict. cbn. rewrite Z.add_0_r. split; [done|]. split; [done|]. split; [done|]. set_solver. }
    destruct Q as [|q Q]; [by destruct fuel|]. cbn [head fmap option_fmap option_map].
    destruct (node_of Hok q) as (n & En & Ha); [set_solver|]. specialize (HQ q n eq_refl Ha). cbn in HQ. rewrite Z.add_0_r in HQ.
    destruct fuel; cbn [delete_while]; rewrite En; cbn [mbind option_bind]; by rewrite HQ.
  - destruct fuel as [|fuel]; [cbn in Hf; lia|]. rewrite <-app_comm_cons in *. cbn [head fmap option_fmap option_map delete_while].
    destruct (node_of Hok m) as (n & En & Ha); [set_solver|]. rewrite En. cbn [mbind option_bind].
    pose proof (HM 0%nat m n eq_refl Ha) as Hm. cbn in Hm. rewrite Z.add_0_r in Hm. rewrite Hm.
    pose proof (heights_pos Hok) as Hpos. apply Forall_app in Hpos as [_ Hpos]. apply Forall_cons in Hpos as [Hm1 Hpos]. cbn in Hm1.
    rewrite (sk_linked _ _ _ _ Hok (hd :: P) m (M ++ Q) 0) by (try done; pose proof (level_range Hok); lia).
    pose proof (next_head (M ++ Q) Hpos) as Hnext. destruct (next 0 (M ++ Q)) as [fw sp]. cbn [fst] in Hnext. subst fw.
    cbn [mbind option_bind]. destruct (zslDeleteNode_spec Hok HU) as (h1 & z1 & E1 & Hok1). rewrite E1. cbn [mbind option_bind].
    destruct (element_of Hok m) as (_ & o & Eo & _); [set_solver|].
    assert (zn_obj n = Some o) as -> by (injection Ha as Ha _ _; congruence). cbn [mbind option_bind].
    destruct (dk_delete dict o Hd) as (d1 & -> & Hd1 & Hk1). cbn [mbind option_bind].
    unfold zslFreeNode. rewrite !wrapu_add_l.
    destruct (IH fuel (delete (e_ptr m) h1) z1 (T + 1) d1 (r + 1) Hok1) as (h' & z' & d' & -> & Hok' & Hd' & Hk'); [|done| |..].
    + intros i A0 e A3 Hi. apply HU. pose proof (sk_level _ _ _ _ Hok) as L0. pose proof (sk_level _ _ _ _ Hok1) as L1.
      assert (zsl_level z1 ≤ zsl_level z); [|lia]. rewrite L0, L1. rewrite !(fmap_app _ P), fmap_cons, foldr_max_insert. lia.
    + cbn in Hf. lia.
    + intros j e n' Hj Ha'. replace (T + 1 + Z.of_nat j) with (T + Z.of_nat (S j)) by lia. by apply (HM (S j) e n').
    + intros e n' He Ha'. replace (T + 1 + Z.of_nat (length M)) with (T + Z.of_nat (length (m :: M))) by (cbn; lia). by apply (HQ e).
    + exists h', z', d'. split; [do 2 f_equal; cbn [length]; f_equal; lia|]. split; [done|]. split; [done|].
      rewrite Hk', Hk1. unfold objs. cbn [fmap list_fmap]. rewrite Eo. cbn. set_solver.
Qed.

Lemma delete_range_spec below go_on h z M Q dict :
  skiplist_ok h z hd (P ++ M ++ Q) → holds_up_to below h (hd :: P) (M ++ Q) → dk_ok dict →
  (∀ j e n, M !! j = Some e → attrs n = ent_attrs e → go_on n (Z.of_nat (length P + j) + 1) = true) →
  (∀ e n, head Q = Some e → attrs n = ent_attrs e → go_on n (Z.of_nat (length P + length M) + 1) = false) →
  ∃ h' z' dict', delete_range below go_on h z dict = Some (h', z', dict', Z.of_nat (length M)) ∧
    skiplist_ok h' z' hd (P ++ Q) ∧ dk_ok dict' ∧ dk_keys dict' = dk_keys dict ∖ list_to_set (objs M).
Proof.
  intros Hok Hbelow Hd HM HQ. unfold delete_range.
  destruct (search_holds Hok below P (M ++ Q) eq_refl Hbelow) as (U' & -> & HU & _). cbn [mbind option_bind].
  destruct (bottom Hok P (M ++ Q) U' eq_refl HU) as (A0 & e & _ & -> & Eg). cbn [mbind option_bind]. rewrite Eg.
  pose proof (heights_pos Hok) as Hpos. apply Forall_app in Hpos as [_ Hpos].
  pose proof (next_head (M ++ Q) Hpos) as Hnext. destruct (next 0 (M ++ Q)) as [fw sp]. cbn [fst] in Hnext. subst fw.
  cbn [mbind option_bind]. pose proof (sk_length _ _ _ _ Hok) as [_ Hn]. rewrite !length_app in Hn.
  destruct (delete_while_spec go_on U' Q M (S (size h)) h z (Z.of_nat (length P) + 1) dict 0 Hok HU Hd) as (h' & z' & d' & E & Hres).
  - rewrite (size_store Hok), !length_app. lia.
  - intros j e' n Hj Ha. pose proof (lookup_lt_Some _ _ _ Hj). rewrite wrapu_small by lia. rewrite <-(HM j e' n Hj Ha). f_equal. lia.
  - intros e' n Hq Ha. assert (0 < length Q)%nat by (destruct Q; [done|cbn; lia]). rewrite wrapu_small by lia.
    rewrite <-(HQ e' n Hq Ha). f_equal. lia.
  - change (u32 0) with 0 in E. rewrite (wrapu_small 32 (0 + _)) in E by lia. by exists h', z', d'.
Qed.
End range_deletion.

(** ** Ranges of scores *)

Definition key_le (a b : list Z) : Prop := str_cmp a b ≠ Gt.

Lemma key_le_trans a b c : key_le a b → key_le b c → key_le a c.
Proof.
  unfold key_le. intros H1 H2. destruct (str_cmp a b) eqn:E1; [apply str_cmp_eq in E1 as ->; done| |done].
  destruct (str_cmp b c) eqn:E2; [apply str_cmp_eq in E2 as <-; by rewrite E1|by rewrite (str_cmp_trans _ _ _ E1 E2)|done].
Qed.

Lemma key_lt_le_trans a b c : str_cmp a b = Lt → key_le b c → str_cmp a c = Lt.
Proof.
  unfold key_le. intros H1 H2. destruct (str_cmp b c) eqn:E2; [apply str_cmp_eq in E2 as <-; done|by eapply str_cmp_trans|done].
Qed.

Lemma key_le_lt_trans a b c : key_le a b → str_cmp b c = Lt → str_cmp a c = Lt.
Proof.
  unfold key_le. intros H1 H2. destruct (str_cmp a b) eqn:E1; [apply str_cmp_eq in E1 as ->; done|by eapply str_cmp_trans|done].
Qed.

Lemma key_not_le a b : ¬ key_le a b ↔ str_cmp b a = Lt.
Proof. unfold key_le. rewrite (str_cmp_antisym a b). destruct (str_cmp a b); cbn; split; intros H; try done; [by destruct H..|by intros H']. Qed.

Lemma SFltb_key f g : isnan f = false → isnan g = false → SFltb f g = true ↔ str_cmp (fkey f) (fkey g) = Lt.
Proof. intros H1 H2. unfold SFltb. rewrite SFcompare_key by done. by destruct (str_cmp _ _). Qed.

Lemma SFleb_key f g : isnan f = false → isnan g = false → SFleb f g = true ↔ key_le (fkey f) (fkey g).
Proof. intros H1 H2. unfold SFleb, key_le. rewrite SFcompare_key by done. by destruct (str_cmp _ _). Qed.

Lemma SFltb_not_leb f g : isnan f = false → isnan g = false → SFltb f g = negb (SFleb g f).
Proof.
  intros H1 H2. unfold SFltb, SFleb. rewrite !SFcompare_key by done. rewrite (str_cmp_antisym (fkey f)).
  by destruct (str_cmp _ _).
Qed.

Lemma before_score a b : ent_before a b → key_le (fkey (e_score a)) (fkey (e_score b)).
Proof.
  unfold ent_before, ent_key, key_le. rewrite str_cmp_app by (by rewrite !fkey_length). by destruct (str_cmp (fkey _) _).
Qed.

Section score_range.
Context `{!Memcmp} {h : mem} {z : zskiplist} {hd : ent} {ns : list ent}.
Hypothesis (Hok : skiplist_ok h z hd ns).
Context (range : zrangespec) (Hmin : isnan (r_min range) = false) (Hmax : isnan (r_max range) = false).

Definition score_gte (e : ent) : bool := zslValueGteMin (e_score e) range.
Definition score_lte (e : ent) : bool := zslValueLteMax (e_score e) range.

Lemma score_gte_up a b : a ∈ ns → b ∈ ns → ent_before a b → score_gte a = true → score_gte b = true.
Proof.
  intros Ha%(element_of Hok) Hb%(element_of Hok) Hab%before_score. destruct Ha as [Ha _], Hb as [Hb _].
  unfold score_gte, zslValueGteMin. destruct (r_minex range).
  - rewrite !SFltb_key by done. intros Hk. by eapply key_lt_le_trans.
  - rewrite !SFleb_key by done. intros Hk. by eapply key_le_trans.
Qed.

Lemma score_lte_down a b : a ∈ ns → b ∈ ns → ent_before a b → score_lte b = true → score_lte a = true.
Proof.
  intros Ha%(element_of Hok) Hb%(element_of Hok) Hab%before_score. destruct Ha as [Ha _], Hb as [Hb _].
  unfold score_lte, zslValueLteMax. destruct (r_maxex range).
  - rewrite !SFltb_key by done. intros Hk. by eapply key_le_lt_trans.
  - rewrite !SFleb_key by done. intros Hk. by eapply key_le_trans.
Qed.

(** The tests for ranges that are always empty, and those at the ends. *)
Lemma zslIsInRange_spec :
  ∃ b, zslIsInRange h z range = Some b ∧
    if b : bool then (∃ e, last ns = Some e ∧ score_gte e = true) ∧ (∃ e, head ns = Some e ∧ score_lte e = true)
    else ∀ e, e ∈ ns → ¬ inside score_gte score_lte e.
Proof.
  unfold zslIsInRange. destruct (_ || _) eqn:E.
  - exists false. split; [done|]. intros e He [H1 H2]. apply (element_of Hok) in He as [He _].
    unfold score_gte, score_lte, zslValueGteMin, zslValueLteMax in *. rewrite isnan_false_eqb in E by done.
    apply orb_true_iff in E as [E|[Ee%bool_decide_eq_true Ex]%andb_true_iff].
    + rewrite SFltb_key in E by done. assert (key_le (fkey (r_min range)) (fkey (r_max range))) as Hle.
      { apply (key_le_trans _ (fkey (e_score e))); [destruct (r_minex range)|destruct (r_maxex range)];
          rewrite ?SFltb_key, ?SFleb_key in * by done; unfold key_le in *; congruence. }
      by apply key_not_le in E.
    + apply orb_true_iff in Ex as [Ex|Ex]; rewrite Ex in *.
      * assert (key_le (fkey (e_score e)) (fkey (r_max range))) as Hle
          by (destruct (r_maxex range); rewrite ?SFltb_key, ?SFleb_key in H2 by done; unfold key_le; congruence).
        rewrite SFltb_key, Ee in H1 by done. pose proof (key_lt_le_trans _ _ _ H1 Hle) as Hf. by rewrite str_cmp_refl in Hf.
      * assert (key_le (fkey (r_min range)) (fkey (e_score e))) as Hle
          by (destruct (r_minex range); rewrite ?SFltb_key, ?SFleb_key in H1 by done; unfold key_le; congruence).
        rewrite SFltb_key in H2 by done. pose proof (key_le_lt_trans _ _ _ Hle H2) as Hf. by rewrite Ee, str_cmp_refl in Hf.
  - apply (ends_in_range_spec Hok _ _ score_gte score_lte).
    + intros e n _ Ha. injection Ha as _ Ha _. unfold score_gte. by rewrite Ha.
    + intros e n _ Ha. injection Ha as _ Ha _. unfold score_lte. by rewrite Ha.
    + apply score_gte_up.
    + apply score_lte_down.
Qed.

Lemma zslFirstInRange_spec : zslFirstInRange h z range = Some (e_ptr <$> head (filter (inside score_gte score_lte) ns)).
Proof.
  unfold zslFirstInRange. destruct zslIsInRange_spec as (b & -> & Hb). cbn [mbind option_bind]. destruct b; cbn [negb].
  - apply (first_node_spec Hok _ _ score_gte score_lte); [..|apply score_gte_up|apply score_lte_down|apply Hb];
      intros e n _ Ha; injection Ha as _ Ha _; unfold score_gte, score_lte; by rewrite Ha.
  - by rewrite filter_none.
Qed.

Lemma zslLastInRange_spec : zslLastInRange h z range = Some (e_ptr <$> last (filter (inside score_gte score_lte) ns)).
Proof.
  unfold zslLastInRange. destruct zslIsInRange_spec as (b & -> & Hb). cbn [mbind option_bind]. destruct b; cbn [negb].
  - apply (last_node_spec Hok _ _ score_gte score_lte); [..|apply score_gte_up|apply score_lte_down|apply Hb];
      intros e n _ Ha; injection Ha as _ Ha _; unfold score_gte, score_lte; by rewrite Ha.
  - by rewrite filter_none.
Qed.

(** Before the range, in it and behind it. *)
Lemma range_split :
  ∃ P M Q, ns = P ++ M ++ Q ∧ Forall (λ e, score_gte e = false) P ∧ Forall (λ e, score_gte e = true) (M ++ Q) ∧
    Forall (λ e, score_lte e = true) M ∧ Forall (λ e, score_lte e = false) Q ∧
    filter (inside score_gte score_lte) ns = M ∧ filter (λ e, ¬ inside score_gte score_lte e) ns = P ++ Q.
Proof.
  pose proof (sk_sorted _ _ _ _ Hok) as Hs.
  destruct (split_sorted (λ e, negb (score_gte e)) ns Hs) as (P & R & E & HP & HR).
  { intros a b Ha Hb Hab Hn. destruct (score_gte a) eqn:Ea; [|done]. by rewrite (score_gte_up a b) in Hn. }
  assert (StronglySorted ent_before R) as HsR by (rewrite E in Hs; by apply StronglySorted_app in Hs as (_ & _ & ?)).
  destruct (split_sorted score_lte R HsR) as (M & Q & -> & HM & HQ).
  { intros a b Ha Hb Hab. apply score_lte_down; [rewrite E; set_solver..|done]. }
  assert (Forall (λ e, score_gte e = false) P) as HP'.
  { eapply Forall_impl; [exact HP|]. cbn. intros x Hx. by destruct (score_gte x). }
  assert (Forall (λ e, score_gte e = true) (M ++ Q)) as HR'.
  { eapply Forall_impl; [exact HR|]. cbn. intros x Hx. by destruct (score_gte x). }
  exists P, M, Q. split; [done|]. split; [done|]. split; [done|]. split; [done|]. split; [done|].
  rewrite Forall_forall in HP', HR', HM, HQ.
  assert (∀ e, e ∈ P → ¬ inside score_gte score_lte e) as H1 by (intros e He [Hg _]; rewrite HP' in Hg by done; done).
  assert (∀ e, e ∈ M → inside score_gte score_lte e) as H2 by (intros e He; split; [apply HR'; set_solver|by apply HM]).
  assert (∀ e, e ∈ Q → ¬ inside score_gte score_lte e) as H3 by (intros e He [_ Hg]; rewrite HQ in Hg by done; done).
  rewrite E, !filter_app. split.
  - rewrite (filter_none _ P) by done. rewrite (filter_none _ Q) by done. rewrite (filter_all _ M) by done. by rewrite app_nil_r.
  - rewrite (filter_all _ P) by done. rewrite (filter_all _ Q) by done. rewrite (filter_none _ M); [done|]. intros e He Hn. by apply Hn, H2.
Qed.

Lemma zslDeleteRangeByScore_spec `{!DictKeys D} `{!DictKeysLaws D} (dict : D) :
  dk_ok dict →
  ∃ h' z' dict', zslDeleteRangeByScore h z range dict =
      Some (h', z', dict', Z.of_nat (length (filter (inside score_gte score_lte) ns))) ∧
    skiplist_ok h' z' hd (filter (λ e, ¬ inside score_gte score_lte e) ns) ∧ dk_ok dict' ∧
    dk_keys dict' = dk_keys dict ∖ list_to_set (objs (filter (inside score_gte score_lte) ns)).
Proof.
  intros Hd. destruct range_split as (P & M & Q & E & HP & HR & HM & HQ & -> & ->). unfold zslDeleteRangeByScore.
  pose proof Hok as Hok'. rewrite E in Hok'.
  assert (∀ e n, e ∈ ns → attrs n = ent_attrs e →
    (if r_minex range then SFleb (zn_score n) (r_min range) else SFltb (zn_score n) (r_min range)) = negb (score_gte e) ∧
    (if r_maxex range then SFltb (zn_score n) (r_max range) else SFleb (zn_score n) (r_max range)) = score_lte e) as Hn.
  { intros e n He Ha. apply (element_of Hok) in He as [He _]. injection Ha as _ Ha _. rewrite Ha. split; [|done].
    unfold score_gte, zslValueGteMin. destruct (r_minex range); [|by apply SFltb_not_leb].
    rewrite SFltb_not_leb, negb_involutive by done. done. }
  apply delete_range_spec; [done| |done|..].
  - apply (holds_up_to_pred _ (λ e, negb (score_gte e))).
    + apply (sk_described _ _ _ _ Hok').
    + intros e n t He Ha. rewrite <-E in He. by apply Hn.
    + eapply Forall_impl; [exact HP|]. cbn. intros x Hx. by rewrite Hx.
    + eapply Forall_impl; [exact HR|]. cbn. intros x Hx. by rewrite Hx.
  - intros j e n Hj Ha. pose proof (list_elem_of_lookup_2 _ _ _ Hj) as Hin. cbv beta.
    rewrite (proj2 (Hn e n ltac:(rewrite E; set_solver) Ha)). rewrite Forall_forall in HM. by apply HM.
  - intros e n Hq Ha. apply head_Some in Hq as [Q' HqQ]. cbv beta.
    rewrite (proj2 (Hn e n ltac:(rewrite E, HqQ; set_solver) Ha)). rewrite HqQ in HQ. by apply Forall_cons in HQ as [? _].
Qed.
End score_range.

Lemma zslDeleteRangeByRank_spec `{!Memcmp} `{!DictKeys D} `{!DictKeysLaws D} h z hd ns (start end_ : nat) (dict : D) :
  skiplist_ok h z hd ns → dk_ok dict → (start ≤ end_)%nat →
  let doomed := take (end_ - start) (drop start ns) in
  ∃ h' z' dict', zslDeleteRangeByRank h z (Z.of_nat start + 1) (Z.of_nat end_) dict =
      Some (h', z', dict', Z.of_nat (length doomed)) ∧
    skiplist_ok h' z' hd (take start ns ++ drop end_ ns) ∧ dk_ok dict' ∧
    dk_keys dict' = dk_keys dict ∖ list_to_set (objs doomed).
Proof.
  intros Hok Hd Hse doomed. unfold zslDeleteRangeByRank.
  assert (drop end_ ns = drop (end_ - start) (drop start ns)) as Edrop by (rewrite drop_drop; f_equal; lia).
  assert (ns = take start ns ++ doomed ++ drop end_ ns) as E by (subst doomed; by rewrite Edrop, !take_drop).
  apply delete_range_spec; [by rewrite <-E| |done|..].
  - subst doomed. rewrite Edrop, take_drop. apply holds_up_to_rank. intros n t Ht.
    destruct (Z.ltb_spec t (Z.of_nat start + 1)); symmetry; [apply bool_decide_eq_true|apply bool_decide_eq_false]; lia.
  - intros j e n Hj _. apply lookup_lt_Some in Hj as Hl. subst doomed. rewrite length_take, length_drop in Hl.
    rewrite length_take. apply Z.leb_le. lia.
  - intros e n Hq _. apply Z.leb_gt. assert (end_ < length ns)%nat.
    { destruct (Nat.lt_ge_cases end_ (length ns)); [done|]. by rewrite drop_ge in Hq. }
    subst doomed. rewrite !length_take, length_drop. lia.
Qed.

(** The dictionary of [dict.c] as the one that is kept in step. *)
Section dict_keys.
Context {V : Type} (type : dictType (list Z)) `{!DictTypeOk type}.

#[export] Instance dict_dict_keys : DictKeys (@Dict.dict (list Z) V) :=
  {| dict_delete d o := fst <$> dictGenericDelete type d o |}.

#[export] Instance dict_dict_keys_laws : DictKeysLaws (@Dict.dict (list Z) V).
Proof.
  refine {| dk_ok := wf type; dk_keys d := dom (dmap d) |}.
  intros d o Hd. cbn. destruct (dictGenericDelete_map type d o Hd) as (d' & -> & Hd' & Hm & _).
  exists d'. split; [done|]. split; [done|]. by rewrite Hm, dom_delete_L.
Defined.
End dict_keys.

(** ** Creation *)

Lemma zslCreate_ok junk : ∃ h z hd, zslCreate junk ∅ = Some (h, z) ∧ skiplist_ok h z hd [].
Proof.
  unfold zslCreate. set (x := fresh (dom (∅ : mem))). clearbody x. set (h0 := <[x := _]> (∅ : mem)).
  assert (∀ i, 0 ≤ i < 32 → get_level h0 x i = Some junk) as Hg0.
  { intros i Hi. unfold get_level, h0. rewrite (proj2 (Z.ltb_ge _ _)), lookup_insert_eq by lia. cbn [mbind option_bind zn_level zslCreateNode].
    apply lookup_replicate_2. unfold ZSKIPLIST_MAXLEVEL. lia. }
  destruct (for_levels_spec (λ j h, set_level h x j (None, 0)) (λ p j, if decide (p = x) then Some (None, 0) else get_level h0 p j)
    h0 (Z.to_nat ZSKIPLIST_MAXLEVEL) 0 h0) as (h1 & E1 & Hs1 & Hg1); [done|done| |].
  { intros i Hi h Hs Hg. change (0 + Z.of_nat (Z.to_nat ZSKIPLIST_MAXLEVEL)) with 32 in Hi.
    destruct (set_level_Some h x i (None, 0) junk) as (h' & -> & Hs' & Hg'); [by rewrite Hg, Hg0|].
    exists h'. split; [done|]. split; [done|]. intros p j. rewrite Hg'.
    destruct (decide (j = i)) as [->|]; [|by rewrite decide_False by tauto].
    destruct (decide (p = x)) as [->|]; [by rewrite decide_True|rewrite decide_False by tauto; by rewrite Hg]. }
  change (0 + Z.of_nat (Z.to_nat ZSKIPLIST_MAXLEVEL)) with 32 in Hg1.
  rewrite E1. cbn [mbind option_bind]. pose proof (same_nodes_dom _ _ Hs1) as Hd1.
  assert (dom h0 = {[x]}) as Hd0 by (unfold h0; rewrite dom_insert_L, dom_empty_L; set_solver).
  assert (is_Some (h1 !! x)) as [n1 En1] by (apply elem_of_dom; rewrite Hd1, Hd0; set_solver).
  destruct (set_backward_Some h1 x None n1 En1) as (h2 & -> & Hg2 & Hd2 & Ha2 & _). cbn [mbind option_bind].
  assert (attrs <$> h2 !! x = Some (None, S754_zero false, 32%nat)) as Hattr.
  { transitivity (attrs <$> h1 !! x); [apply Ha2|]. rewrite <-(same_nodes_attrs _ _ Hs1). unfold h0. by rewrite lookup_insert_eq. }
  exists h2, (Zskiplist x None 0 1), (Ent x 32 (S754_zero false) None). split; [done|].
  clearbody h0. split; cbn [zsl_level zsl_header zsl_tail zsl_length].
  - intros A e B i E Hi Hi2. destruct A as [|a A]; [|by destruct A]. injection E as <- <-. cbn [e_ptr e_height] in *.
    rewrite Hg2, Hg1, decide_True by lia. by rewrite decide_True.
  - apply Forall_singleton. cbn [e_ptr e_height]. by rewrite Hattr.
  - exact I.
  - intros i Hi. rewrite Hg2, Hg1, decide_True by (unfold ZSKIPLIST_MAXLEVEL in *; lia). by rewrite decide_True.
  - apply NoDup_singleton.
  - rewrite Hd2, Hd1, Hd0. cbn. set_solver.
  - done.
  - done.
  - split; [done|]. cbn. lia.
  - constructor.
  - done.
  - constructor.
  - constructor.
Qed.

(** ** The properties *)

Section properties.
Context `{!Memcmp} (junk : option positive * Z).

(** C16. zslInsert, with any outcome of the random level, puts the element at its
    place in the order by score and then by text, in a node of its own, and keeps
    the invariant: at every level the pointers and spans lead to the next node of
    that level, the back pointers and the tail are right, the height of the list is
    that of its highest node, and the store holds just the nodes of the list. *)
Theorem zslInsert_refines h z hd ns random random' level score obj :
  skiplist_ok h z hd ns → isnan score = false → blen obj < 2 ^ 31 → Z.of_nat (length ns) + 1 < 2 ^ 32 →
  fkey score ++ obj ∉ ent_key <$> ns → zslRandomLevel random = Some (level, random') →
  ∃ h' z' P Q x, zslInsert junk random h z score obj = Some (h', z', x, random') ∧ ns = P ++ Q ∧ x ∉ dom h ∧
    skiplist_ok h' z' hd (P ++ Ent x level score (Some obj) :: Q).
Proof. intros Hok. by apply (zslInsert_spec junk Hok). Qed.

(** C20. zslDelete removes the node with the score and the element and gives back
    its memory, keeping the invariant; without such a node it changes nothing. *)
Theorem zslDelete_refines h z hd ns score obj :
  skiplist_ok h z hd ns → isnan score = false → blen obj < 2 ^ 31 →
  ∃ h' z' b, zslDelete h z score obj = Some (h', z', b) ∧
    if b : bool then ∃ P xe Q, ns = P ++ xe :: Q ∧ ent_key xe = fkey score ++ obj ∧ skiplist_ok h' z' hd (P ++ Q)
    else fkey score ++ obj ∉ ent_key <$> ns ∧ h' = h ∧ z' = z.
Proof. intros Hok. by apply (zslDelete_spec Hok). Qed.

(** Counting the spans, zslGetElementByRank finds the element at each rank, and
    no element beyond the last; zslGetRank finds the rank of an element whose score
    it is given, and 0 for an element that is not in the list. *)
Theorem zsl_ranks h z hd ns score o :
  skiplist_ok h z hd ns → isnan score = false → blen o < 2 ^ 31 → scored (ns := ns) score o →
  (∀ rank, 1 ≤ rank → zslGetElementByRank h z rank = Some (e_ptr <$> ns !! Z.to_nat (rank - 1))) ∧
  (∀ k e, ns !! k = Some e → e_obj e = Some o → zslGetRank h z score o = Some (Z.of_nat k + 1)) ∧
  (Forall (λ e, e_obj e ≠ Some o) ns → zslGetRank h z score o = Some 0).
Proof.
  intros Hok Hn Ho Hs. split; [|by apply (zslGetRank_spec Hok)]. intros rank Hr. by apply (zslGetElementByRank_spec Hok).
Qed.

(** C25. For a range of scores with open or closed ends, infinite or empty,
    zslFirstInRange and zslLastInRange find the first and the last node in it, and
    zslDeleteRangeByScore removes exactly the nodes in it from the list, and their
    elements from the dictionary, and counts them. *)
Theorem zsl_score_range `{!DictKeys D} `{!DictKeysLaws D} h z hd ns range (dict : D) :
  skiplist_ok h z hd ns → isnan (r_min range) = false → isnan (r_max range) = false → dk_ok dict →
  let found := filter (inside (score_gte range) (score_lte range)) ns in
  let others := filter (λ e, ¬ inside (score_gte range) (score_lte range) e) ns in
  zslFirstInRange h z range = Some (e_ptr <$> head found) ∧
  zslLastInRange h z range = Some (e_ptr <$> last found) ∧
  ∃ h' z' dict', zslDeleteRangeByScore h z range dict = Some (h', z', dict', Z.of_nat (length found)) ∧
    skiplist_ok h' z' hd others ∧ dk_ok dict' ∧ dk_keys dict' = dk_keys dict ∖ list_to_set (objs found).
Proof.
  intros Hok Hmin Hmax Hd found others.
  split; [by apply (zslFirstInRange_spec Hok)|]. split; [by apply (zslLastInRange_spec Hok)|].
  by apply (zslDeleteRangeByScore_spec Hok).
Qed.
End properties.

(** ** Instances *)

#[export] Instance memcmp_sign : Memcmp.
Proof.
  refine {| memcmp a b := match str_cmp a b with Lt => -1 | Eq => 0 | Gt => 1 end |}.
  intros a b _. by destruct (str_cmp a b).
Defined.

(** 1.5 *)
Definition score_1_5 : spec_float := S754_finite false 6755399441055744 (-52).

(** A list of two elements with the same score, of heights 2 and 1. *)
Lemma two_elements :
  ∃ h z hd x y, skiplist_ok h z hd [Ent x 2 score_1_5 (Some [97]); Ent y 1 score_1_5 (Some [97; 98])].
Proof.
  destruct (zslCreate_ok (None, 0)) as (h & z & hd & _ & Hok).
  destruct (zslInsert_spec (None, 0) Hok [65535] [] 1 score_1_5 [97; 98]) as (h1 & z1 & P1 & Q1 & y & _ & E1 & _ & Hok1);
    [done|done|done|by apply not_elem_of_nil|done|].
  destruct P1; [|done]. cbn in E1. subst Q1. cbn [app] in Hok1.
  destruct (zslInsert_spec (None, 0) Hok1 [0; 65535] [] 2 score_1_5 [97]) as (h2 & z2 & P2 & Q2 & x & _ & E2 & _ & Hok2);
    [done|done|done| |done|].
  { apply (bool_decide_unpack _). by vm_compute. }
  destruct P2 as [|p P2].
  - cbn in E2. subst Q2. by exists h2, z2, hd, x, y.
  - exfalso. injection E2 as <- E2. destruct P2; [|done]. cbn in E2. subst Q2.
    pose proof (sk_sorted _ _ _ _ Hok2) as Hs. cbn [app] in Hs. apply StronglySorted_cons in Hs as [[Hs _]%Forall_cons _]. done.
Qed.

(** ** Witnesses *)

Lemma zslInsert_refines_witness :
  ∃ h z hd h' z' x y, skiplist_ok h z hd [Ent y 2 score_1_5 (Some [97])] ∧
    zslInsert (None, 0) [0; 0; 65535] h z score_1_5 [98] = Some (h', z', x, []) ∧
    skiplist_ok h' z' hd [Ent y 2 score_1_5 (Some [97]); Ent x 3 score_1_5 (Some [98])].
Proof.
  destruct (zslCreate_ok (None, 0)) as (h0 & z0 & hd & _ & Hok0).
  destruct (zslInsert_spec (None, 0) Hok0 [0; 65535] [] 2 score_1_5 [97]) as (h & z & P0 & Q0 & y & _ & E0 & _ & Hok);
    [done|done|done|by apply not_elem_of_nil|done|].
  destruct P0; [|done]. cbn in E0. subst Q0. cbn [app] in Hok.
  destruct (zslInsert_refines (None, 0) h z hd _ [0; 0; 65535] [] 3 score_1_5 [98] Hok) as (h' & z' & P & Q & x & E & EPQ & _ & Hok');
    [done|done|done| |done|].
  { apply (bool_decide_unpack _). by vm_compute. }
  exists h, z, hd, h', z', x, y. split; [done|]. split; [done|]. destruct P as [|p P].
  - exfalso. cbn in EPQ. subst Q. pose proof (sk_sorted _ _ _ _ Hok') as Hs. cbn [app] in Hs.
    apply StronglySorted_cons in Hs as [[Hs _]%Forall_cons _]. done.
  - injection EPQ as <- EPQ. destruct P; [|done]. cbn in EPQ. by subst Q.
Defined.

Lemma zslDelete_refines_witness :
  ∃ h z hd h' z' y, zslDelete h z score_1_5 [97] = Some (h', z', true) ∧
    skiplist_ok h' z' hd [Ent y 1 score_1_5 (Some [97; 98])].
Proof.
  destruct two_elements as (h & z & hd & x & y & Hok).
  destruct (zslDelete_refines h z hd _ score_1_5 [97] Hok) as (h' & z' & b & E & Hb); [done|done|].
  exists h, z, hd, h', z', y. destruct b; cycle 1.
  - exfalso. destruct Hb as [Hb _]. apply Hb. by left.
  - split; [done|]. destruct Hb as (P & xe & Q & EPQ & Hk & Hok'). destruct P as [|p P].
    + injection EPQ as _ <-. exact Hok'.
    + exfalso. injection EPQ as _ EPQ. destruct P; [|by destruct P]. injection EPQ as <- _. done.
Defined.

Lemma zsl_ranks_witness :
  ∃ h z x y, zslGetElementByRank h z 1 = Some (Some x) ∧ zslGetElementByRank h z 3 = Some None ∧
    zslGetElementByRank h z 2 = Some (Some y) ∧ zslGetRank h z score_1_5 [97; 98] = Some 2.
Proof.
  destruct two_elements as (h & z & hd & x & y & Hok).
  destruct (zsl_ranks h z hd _ score_1_5 [97; 98] Hok) as (H1 & H2 & _); [done|done| |].
  { intros e [->|[->|[]%elem_of_nil]%elem_of_cons]%elem_of_cons _; done. }
  exists h, z, x, y. split; [by apply H1|]. split; [by apply H1|]. split; [by apply H1|].
  by apply (H2 1%nat (Ent y 1 score_1_5 (Some [97; 98]))).
Defined.

(** A dictionary that is the set of its keys. *)
#[export] Instance set_dict_keys : DictKeys (gset (list Z)) := {| dict_delete d o := Some (d ∖ {[o]}) |}.
#[export] Instance set_dict_keys_laws : DictKeysLaws (gset (list Z)).
Proof. refine {| dk_ok _ := True; dk_keys d := d |}. intros d o _. by eexists. Defined.

(** The range from 1.5 on. *)
Lemma zsl_score_range_witness :
  ∃ h z x y, zslFirstInRange h z (Zrangespec score_1_5 (S754_infinity false) false false) = Some (Some x) ∧
    zslLastInRange h z (Zrangespec score_1_5 (S754_infinity false) false false) = Some (Some y).
Proof.
  destruct two_elements as (h & z & hd & x & y & Hok). exists h, z, x, y.
  destruct (zsl_score_range
    h z hd _ (Zrangespec score_1_5 (S754_infinity false) false false) (∅ : gset (list Z)) Hok) as (H1 & H2 & _); [done|done|done|].
  split; [by rewrite H1|by rewrite H2].
Defined.

(** The ends of a lexicographic range are compared by their texts when they are
    tested for an empty range, the ends that stand for infinity as well: there
    are elements from the minimum on that are before the text of its object. *)
Lemma zslIsInLexRange_text_of_minimum :
  zslParseLexRange [45] (40 :: lex_text LexMin) = Some (Zlexrangespec LexMin (LexStr (lex_text LexMin)) false true) ∧
  zslLexValueGteMin [97] (Zlexrangespec LexMin (LexStr (lex_text LexMin)) false true) = true ∧
  zslLexValueLteMax [97] (Zlexrangespec LexMin (LexStr (lex_text LexMin)) false true) = true ∧
  ∀ h z, zslIsInLexRange h z (Zlexrangespec LexMin (LexStr (lex_text LexMin)) false true) = Some false.
Proof. split_and!; [done|by vm_compute..|]. intros h z. unfold zslIsInLexRange. done. Qed.
