(* ===== verification/Multi.v ===== *)
(** * Multi: transactions (multi.c, and processCommand and call of redis.c)

    MULTI, EXEC, DISCARD, WATCH and UNWATCH, the way of a command from
    processCommand to its procedure, and what is propagated.  A string object is
    its text (so there are no references to count) and the answers to a client are
    a list.  The procedures of all other commands are the interface [Commands]: they
    may write, delete, signal, feed the stream and count changes as they like, and
    keep what state they need in the rest of the server. *)
From Stdlib Require Import String.
From S2P Require Import Prelude Util.
Open Scope Z_scope.

Abbreviation text := (list Z).
(** A key of a database. *)
Abbreviation dbkey := (Z * list Z)%type.
(** The dictionaries of the databases. *)
Abbreviation keyspace V := (gmap (Z * list Z) V).

Definition ascii_text (s : string) : text := (λ a, Z.of_nat (Ascii.nat_of_ascii a)) <$> list_ascii_of_string s.

(** The text up to its first NUL: what the string functions of the C library see. *)
Fixpoint c_text (t : text) : text :=
  match t with [] => [] | c :: t => if c =? ch_nul then [] else c :: c_text t end.

(** ** Commands *)

(** [cmd->proc]: the procedures that processCommand, call and multi.c name, and the
    others. *)
Inductive proc :=
  P_multi | P_exec | P_discard | P_watch | P_unwatch | P_auth | P_ping | P_subscribe | P_unsubscribe | P_psubscribe
| P_punsubscribe | P_replconf | P_shutdown | P_script | P_other (name : text).
#[global] Instance proc_eq_dec : EqDecision proc.
Proof. solve_decision. Defined.

Record redisCommand := RedisCommand {
  cmd_name : text;
  cmd_proc : proc;
  cmd_arity : Z;
  cmd_write : bool;
  cmd_readonly : bool;
  cmd_denyoom : bool;
  cmd_stale : bool;
  cmd_loading : bool
}.

Record multiCmd := MultiCmd { mc_cmd : redisCommand; mc_argv : list text }.

(** What is added to the output of a client. *)
Inductive answer :=
  ROk | RQueued | RExecAbort | RNullMultiBulk | RNoAuth | ROom | RBgsave | RNoReplicas | RReadOnly | RMasterDown | RLoading
| RSlowScript | RError (msg : string) | RMultiBulkLen (n : Z) | RData (t : text).

Record client := Client {
  db : Z;
  authenticated : bool;
  fl_master : bool;
  fl_multi : bool;
  fl_dirty_cas : bool;
  fl_dirty_exec : bool;
  fl_force_aof : bool;
  fl_force_repl : bool;
  fl_close_after_reply : bool;
  watched_keys : list dbkey;
  mstate : list multiCmd;
  cmd : option redisCommand;
  argv : list text;
  subscriptions : Z;
  out : list answer
}.

(** A command propagated with the database it is for, and to where. *)
Record op := Op { op_db : Z; op_argv : list text; op_aof : bool; op_repl : bool }.

(** What the history records of a key. *)
Inductive note := Wrote (k : dbkey) | Touched (k : dbkey).
#[global] Instance note_eq_dec : EqDecision note.
Proof. solve_decision. Defined.

(** [watchers]: the tables watched_keys of the databases; [rest]: what else the
    server keeps (expire times, blocked clients, the clock); [history] is not in the
    code: the keys that were written or signalled so far. *)
Record server (V R : Type) := Server {
  clients : gmap positive client;
  watchers : gmap dbkey (list positive);
  dbs : keyspace V;
  dirty : Z;
  aof_fed : list (Z * list text);
  repl_fed : list (Z * list text);
  stat_numcommands : Z;
  rest : R;
  history : list note
}.
Arguments Server {_ _} _ _ _ _ _ _ _ _ _.
Arguments clients {_ _} _.
Arguments watchers {_ _} _.
Arguments dbs {_ _} _.
Arguments dirty {_ _} _.
Arguments aof_fed {_ _} _.
Arguments repl_fed {_ _} _.
Arguments stat_numcommands {_ _} _.
Arguments rest {_ _} _.
Arguments history {_ _} _.

(** The settings and the conditions that processCommand tests, at the time of a
    command ([is_slave]: masterhost is set). *)
Record status := Status {
  requirepass : bool;
  maxmemory : bool;
  stop_writes_on_bgsave_err : bool;
  saveparamslen : Z;
  lastbgsave_ok : bool;
  aof_last_write_ok : bool;
  is_slave : bool;
  repl_slave_ro : bool;
  repl_min_slaves_to_write : Z;
  repl_min_slaves_max_lag : Z;
  repl_good_slaves_count : Z;
  repl_connected : bool;
  repl_serve_stale_data : bool;
  loading : bool;
  lua_timedout : bool;
  aof_on : bool
}.

(** ** The other procedures *)

(** What a procedure does to the server: a write or deletion of a key, the call of
    signalModifiedKey, of signalFlushedDb, the emptying of a database (all of them
    for -1), the propagation of a command on its own (as propagateExpire does), an
    addition to server.dirty, its reset, and an answer to another client. *)
Inductive kstep (V : Type) :=
  KWrite (k : dbkey) (v : option V) | KSignal (k : dbkey) | KSignalFlush (dbid : Z) | KEmpty (dbid : Z)
| KFeed (o : op) | KDirty (n : Z) | KDirtyReset | KReply (id : positive) (l : list text).
Arguments KWrite {_} _ _.
Arguments KSignal {_} _.
Arguments KSignalFlush {_} _.
Arguments KEmpty {_} _.
Arguments KFeed {_} _.
Arguments KDirty {_} _.
Arguments KDirtyReset {_}.
Arguments KReply {_} _ _.

(** The effect of a procedure, with the arguments that it leaves in [c->argv] and
    what it hands to alsoPropagate. *)
Record effect (V R : Type) := Effect {
  e_steps : list (kstep V);
  e_rest : R;
  e_db : Z;
  e_auth : bool;
  e_subscriptions : Z;
  e_force_aof : bool;
  e_force_repl : bool;
  e_argv : list text;
  e_also : list op;
  e_out : list text
}.
Arguments Effect {_ _} _ _ _ _ _ _ _ _ _ _.
Arguments e_steps {_ _} _.
Arguments e_rest {_ _} _.
Arguments e_db {_ _} _.
Arguments e_auth {_ _} _.
Arguments e_subscriptions {_ _} _.
Arguments e_force_aof {_ _} _.
Arguments e_force_repl {_ _} _.
Arguments e_argv {_ _} _.
Arguments e_also {_ _} _.
Arguments e_out {_ _} _.

(** The command table and the other procedures; the keys that freeMemoryIfNeeded
    evicts, and whether that was enough; whether [server.ready_keys] is not empty,
    and what handleClientsBlockedOnLists does.  Nothing is asked of any of them. *)
Class Commands (V R : Type) := {
  lookupCommand : text → option redisCommand;
  run_command : redisCommand → list text → client → keyspace V → R → effect V R;
  freeMemoryIfNeeded : keyspace V → R → list dbkey * R * bool;
  ready_keys : R → bool;
  handleClientsBlockedOnLists : keyspace V → R → list (kstep V) * R;
}.

(** ** The state *)

Definition set_db (c : client) (d : Z) : client :=
  Client d (authenticated c) (fl_master c) (fl_multi c) (fl_dirty_cas c) (fl_dirty_exec c) (fl_force_aof c) (fl_force_repl c)
    (fl_close_after_reply c) (watched_keys c) (mstate c) (cmd c) (argv c) (subscriptions c) (out c).
(** [c->flags]: REDIS_MULTI, REDIS_DIRTY_CAS and REDIS_DIRTY_EXEC. *)
Definition set_flags (c : client) (multi cas exec : bool) : client :=
  Client (db c) (authenticated c) (fl_master c) multi cas exec (fl_force_aof c) (fl_force_repl c)
    (fl_close_after_reply c) (watched_keys c) (mstate c) (cmd c) (argv c) (subscriptions c) (out c).
Definition set_force (c : client) (aof repl : bool) : client :=
  Client (db c) (authenticated c) (fl_master c) (fl_multi c) (fl_dirty_cas c) (fl_dirty_exec c) aof repl
    (fl_close_after_reply c) (watched_keys c) (mstate c) (cmd c) (argv c) (subscriptions c) (out c).
Definition set_close (c : client) : client :=
  Client (db c) (authenticated c) (fl_master c) (fl_multi c) (fl_dirty_cas c) (fl_dirty_exec c) (fl_force_aof c) (fl_force_repl c)
    true (watched_keys c) (mstate c) (cmd c) (argv c) (subscriptions c) (out c).
Definition set_watched (c : client) (l : list dbkey) : client :=
  Client (db c) (authenticated c) (fl_master c) (fl_multi c) (fl_dirty_cas c) (fl_dirty_exec c) (fl_force_aof c) (fl_force_repl c)
    (fl_close_after_reply c) l (mstate c) (cmd c) (argv c) (subscriptions c) (out c).
Definition set_mstate (c : client) (l : list multiCmd) : client :=
  Client (db c) (authenticated c) (fl_master c) (fl_multi c) (fl_dirty_cas c) (fl_dirty_exec c) (fl_force_aof c) (fl_force_repl c)
    (fl_close_after_reply c) (watched_keys c) l (cmd c) (argv c) (subscriptions c) (out c).
Definition set_cmd (c : client) (k : option redisCommand) (a : list text) : client :=
  Client (db c) (authenticated c) (fl_master c) (fl_multi c) (fl_dirty_cas c) (fl_dirty_exec c) (fl_force_aof c) (fl_force_repl c)
    (fl_close_after_reply c) (watched_keys c) (mstate c) k a (subscriptions c) (out c).
Definition add_out (c : client) (l : list answer) : client :=
  Client (db c) (authenticated c) (fl_master c) (fl_multi c) (fl_dirty_cas c) (fl_dirty_exec c) (fl_force_aof c) (fl_force_repl c)
    (fl_close_after_reply c) (watched_keys c) (mstate c) (cmd c) (argv c) (subscriptions c) (out c ++ l).
Definition take_effect {V R} (c : client) (e : effect V R) : client :=
  Client (e_db e) (e_auth e) (fl_master c) (fl_multi c) (fl_dirty_cas c) (fl_dirty_exec c)
    (fl_force_aof c || e_force_aof e) (fl_force_repl c || e_force_repl e)
    (fl_close_after_reply c) (watched_keys c) (mstate c) (cmd c) (e_argv e) (e_subscriptions e) (out c ++ (RData <$> e_out e)).

Section multi.
Context {V R : Type} `{Commands V R}.
Implicit Types (s : server V R) (c : client).

Definition with_clients s (m : gmap positive client) : server V R :=
  Server m (watchers s) (dbs s) (dirty s) (aof_fed s) (repl_fed s) (stat_numcommands s) (rest s) (history s).
Definition with_watchers s (w : gmap dbkey (list positive)) : server V R :=
  Server (clients s) w (dbs s) (dirty s) (aof_fed s) (repl_fed s) (stat_numcommands s) (rest s) (history s).
Definition with_dbs s (d : keyspace V) : server V R :=
  Server (clients s) (watchers s) d (dirty s) (aof_fed s) (repl_fed s) (stat_numcommands s) (rest s) (history s).
Definition with_dirty s (n : Z) : server V R :=
  Server (clients s) (watchers s) (dbs s) n (aof_fed s) (repl_fed s) (stat_numcommands s) (rest s) (history s).
Definition add_dirty s (n : Z) : server V R := with_dirty s (dirty s + n).
Definition add_numcommands s : server V R :=
  Server (clients s) (watchers s) (dbs s) (dirty s) (aof_fed s) (repl_fed s) (stat_numcommands s + 1) (rest s) (history s).
Definition with_rest s (r : R) : server V R :=
  Server (clients s) (watchers s) (dbs s) (dirty s) (aof_fed s) (repl_fed s) (stat_numcommands s) r (history s).
Definition add_history s (l : list note) : server V R :=
  Server (clients s) (watchers s) (dbs s) (dirty s) (aof_fed s) (repl_fed s) (stat_numcommands s) (rest s) (history s ++ l).

(** Through the pointer to a client. *)
Definition get s (id : positive) : option client := clients s !! id.
Definition upd s (id : positive) (f : client → client) : server V R := with_clients s (alter f id (clients s)).

(** ** WATCH *)

Definition watchForKey s (id : positive) (key : text) : option (server V R) :=
  c ← get s id;
  let wk := (db c, key) in
  if bool_decide (wk ∈ watched_keys c) then Some s
  else
    let s := with_watchers s (<[wk := default [] (watchers s !! wk) ++ [id]]> (watchers s)) in
    Some (upd s id (λ c, set_watched c (watched_keys c ++ [wk]))).

(** [listDelNode(clients,listSearchKey(clients,c))]. *)
Fixpoint del_client (id : positive) (l : list positive) : option (list positive) :=
  match l with
  | [] => None
  | x :: l => if bool_decide (x = id) then Some l else l ← del_client id l; Some (x :: l)
  end.

(** The loop over the list of the client. *)
Fixpoint unwatch_loop (l : list dbkey) s (id : positive) : option (server V R) :=
  match l with
  | [] => Some s
  | wk :: l =>
      clients ← watchers s !! wk;
      clients ← del_client id clients;
      let s := with_watchers s (if bool_decide (clients = []) then delete wk (watchers s) else <[wk := clients]> (watchers s)) in
      unwatch_loop l (upd s id (λ c, set_watched c l)) id
  end.
Definition unwatchAllKeys s (id : positive) : option (server V R) :=
  c ← get s id; unwatch_loop (watched_keys c) s id.

Definition mark_cas c : client := set_flags c (fl_multi c) true (fl_dirty_exec c).

(** The loop over the clients that watch the key. *)
Fixpoint touch_loop (l : list positive) s : server V R :=
  match l with [] => s | id :: l => touch_loop l (upd s id mark_cas) end.
Definition touchWatchedKey s (k : dbkey) : server V R :=
  match watchers s !! k with None => s | Some l => touch_loop l s end.

(** Of the database (of any for -1). *)
Definition in_db (dbid : Z) (k : dbkey) : bool := (dbid =? -1) || (k.1 =? dbid).

Definition touchWatchedKeysOnFlush s (dbid : Z) : server V R :=
  with_clients s ((λ c,
    if existsb (λ wk, in_db dbid wk && bool_decide (is_Some (dbs s !! wk))) (watched_keys c)
    then mark_cas c else c) <$> clients s).

(** The keys of a database. *)
Definition present s (dbid : Z) : list dbkey := filter (λ k, in_db dbid k = true) (map_to_list (dbs s)).*1.

Definition propagate (st : status) s (o : op) : server V R :=
  let e := (op_db o, op_argv o) in
  Server (clients s) (watchers s) (dbs s) (dirty s) (if aof_on st && op_aof o then aof_fed s ++ [e] else aof_fed s)
    (if op_repl o then repl_fed s ++ [e] else repl_fed s) (stat_numcommands s) (rest s) (history s).

(** The steps of a procedure of another file; signalModifiedKey and
    signalFlushedDb only call the functions above. *)
Definition run_kstep (st : status) s (k : kstep V) : server V R :=
  match k with
  | KWrite k o => add_history (with_dbs s (partial_alter (λ _, o) k (dbs s))) [Wrote k]
  | KSignal k => add_history (touchWatchedKey s k) [Touched k]
  | KSignalFlush dbid => add_history (touchWatchedKeysOnFlush s dbid) (Touched <$> present s dbid)
  | KEmpty dbid => add_history (with_dbs s (filter (λ kv, in_db dbid kv.1 = false) (dbs s))) (Wrote <$> present s dbid)
  | KFeed o => propagate st s o
  | KDirty n => add_dirty s n
  | KDirtyReset => with_dirty s 0
  | KReply id l => upd s id (λ c, add_out c (RData <$> l))
  end.
Definition run_ksteps (st : status) s (l : list (kstep V)) : server V R := foldl (run_kstep st) s l.

(** A key that is evicted is propagated as a DEL and deleted, without a signal. *)
Definition evict (k : dbkey) : list (kstep V) := [KFeed (Op k.1 [ascii_text "DEL"; k.2] true true); KWrite k None].

(** ** The state of a transaction *)

Definition queueMultiCommand s (id : positive) : option (server V R) :=
  c ← get s id;
  k ← cmd c;
  Some (upd s id (λ c, set_mstate c (mstate c ++ [MultiCmd k (argv c)]))).

Definition discardTransaction s (id : positive) : option (server V R) :=
  unwatchAllKeys (upd s id (λ c, set_flags (set_mstate c []) false false false)) id.

Definition flagTransaction s (id : positive) : server V R :=
  upd s id (λ c, if fl_multi c then set_flags c (fl_multi c) (fl_dirty_cas c) true else c).

(** ** The commands of multi.c *)

Definition multiCommand s (id : positive) : option (server V R) :=
  c ← get s id;
  if fl_multi c then Some (upd s id (λ c, add_out c [RError "MULTI calls can not be nested"]))
  else Some (upd s id (λ c, add_out (set_flags c true (fl_dirty_cas c) (fl_dirty_exec c)) [ROk])).

Definition discardCommand s (id : positive) : option (server V R) :=
  c ← get s id;
  if negb (fl_multi c) then Some (upd s id (λ c, add_out c [RError "DISCARD without MULTI"]))
  else s ← discardTransaction s id; Some (upd s id (λ c, add_out c [ROk])).

Fixpoint watch_all s (id : positive) (keys : list text) : option (server V R) :=
  match keys with [] => Some s | key :: keys => s ← watchForKey s id key; watch_all s id keys end.
Definition watchCommand s (id : positive) : option (server V R) :=
  c ← get s id;
  if fl_multi c then Some (upd s id (λ c, add_out c [RError "WATCH inside MULTI is not allowed"]))
  else s ← watch_all s id (tail (argv c)); Some (upd s id (λ c, add_out c [ROk])).

Definition unwatchCommand s (id : positive) : option (server V R) :=
  s ← unwatchAllKeys s id;
  Some (upd s id (λ c, add_out (set_flags c (fl_multi c) false (fl_dirty_exec c)) [ROk])).

(** ** Calling and propagating *)

(** A procedure of another file, with what it leaves in also_propagate. *)
Definition other_proc (st : status) s (id : positive) (k : redisCommand) : option (server V R * list op) :=
  c ← get s id;
  let e := run_command k (argv c) c (dbs s) (rest s) in
  let s := with_rest (run_ksteps st s (e_steps e)) (e_rest e) in
  Some (upd s id (λ c, take_effect c e), e_also e).

(** [exec]: what the procedure of EXEC does. *)
Definition run_proc (exec : server V R → positive → option (server V R)) (st : status) s (id : positive) (k : redisCommand)
    : option (server V R * list op) :=
  match cmd_proc k with
  | P_multi => s ← multiCommand s id; Some (s, [])
  | P_exec => s ← exec s id; Some (s, [])
  | P_discard => s ← discardCommand s id; Some (s, [])
  | P_watch => s ← watchCommand s id; Some (s, [])
  | P_unwatch => s ← unwatchCommand s id; Some (s, [])
  | _ => other_proc st s id k
  end.

(** [call(c,REDIS_CALL_FULL)]. *)
Definition call (exec : server V R → positive → option (server V R)) (st : status) s (id : positive) : option (server V R) :=
  c ← get s id;
  k ← cmd c;
  let old_aof := fl_force_aof c in
  let old_repl := fl_force_repl c in
  let s := upd s id (λ c, set_force c false false) in
  let dirty0 := dirty s in
  '(s, also) ← run_proc exec st s id k;
  let d := dirty s - dirty0 in
  c ← get s id;
  let repl := fl_force_repl c || negb (d =? 0) in
  let aof := fl_force_aof c || negb (d =? 0) in
  let s := if repl || aof then propagate st s (Op (db c) (argv c) aof repl) else s in
  let s := upd s id (λ c, set_force c old_aof old_repl) in
  let s := foldl (propagate st) s also in
  Some (add_numcommands s).

(** The commands of a transaction do not nest. *)
Definition no_exec s (id : positive) : option (server V R) := None.

Fixpoint set_nth {A} (n : nat) (x : A) (l : list A) : list A :=
  match l, n with
  | [], _ => []
  | _ :: l, O => x :: l
  | y :: l, S n => y :: set_nth n x l
  end.

Definition multi_text : text := ascii_text "MULTI".

(** The loop over the queued commands, of which [todo] are left from the [j]-th on. *)
Fixpoint exec_loop (st : status) (todo : list multiCmd) (j : nat) s (id : positive) (must_propagate : bool) : option (server V R * bool) :=
  match todo with
  | [] => Some (s, must_propagate)
  | mc :: todo =>
      let s := upd s id (λ c, set_cmd c (Some (mc_cmd mc)) (mc_argv mc)) in
      c ← get s id;
      let start := negb must_propagate && negb (cmd_readonly (mc_cmd mc)) in
      let s := if start then propagate st s (Op (db c) [multi_text] true true) else s in
      s ← call no_exec st s id;
      c ← get s id;
      k ← cmd c;
      let s := upd s id (λ c, set_mstate c (set_nth j (MultiCmd k (argv c)) (mstate c))) in
      exec_loop st todo (S j) s id (must_propagate || start)
  end.

Definition execCommand (st : status) s (id : positive) : option (server V R) :=
  c ← get s id;
  if negb (fl_multi c) then Some (upd s id (λ c, add_out c [RError "EXEC without MULTI"]))
  else if fl_dirty_cas c || fl_dirty_exec c then
    let a := if fl_dirty_exec c then RExecAbort else RNullMultiBulk in
    discardTransaction (upd s id (λ c, add_out c [a])) id
  else
    s ← unwatchAllKeys s id;
    let count := Z.of_nat (length (mstate c)) in
    let s := upd s id (λ c, add_out c [RMultiBulkLen count]) in
    '(s, must_propagate) ← exec_loop st (mstate c) 0 s id false;
    let s := upd s id (λ c', set_cmd c' (cmd c) (argv c)) in
    s ← discardTransaction s id;
    Some (if must_propagate : bool then add_dirty s 1 else s).

(** ** processCommand *)

Definition is_proc (k : redisCommand) (p : proc) : bool := bool_decide (cmd_proc k = p).
Definition reject s (id : positive) (flag : bool) (a : answer) : option (server V R * bool) :=
  let s := if flag then flagTransaction s id else s in
  Some (upd s id (λ c, add_out c [a]), true).

(** The first letter of the only argument. *)
Definition second_is (l : list text) (ch : Z) : bool :=
  match l with [_; a] => tolower (default ch_nul (head a)) =? ch | _ => false end.

(** Problems with the dump or the log; too few slaves; the link of a slave with its
    master is broken and stale data are not to be served. *)
Definition write_failing (st : status) : bool :=
  (stop_writes_on_bgsave_err st && (0 <? saveparamslen st) && negb (lastbgsave_ok st)) || negb (aof_last_write_ok st).
Definition too_few_slaves (st : status) : bool :=
  negb (repl_min_slaves_to_write st =? 0) && negb (repl_min_slaves_max_lag st =? 0) &&
  (repl_good_slaves_count st <? repl_min_slaves_to_write st).
Definition master_link_down (st : status) : bool := is_slave st && negb (repl_connected st) && negb (repl_serve_stale_data st).

(** The clients that wait for the lists which the command has filled. *)
Definition serve_blocked (st : status) s : server V R :=
  if ready_keys (rest s) then
    let '(steps, r) := handleClientsBlockedOnLists (dbs s) (rest s) in with_rest (run_ksteps st s steps) r
  else s.

(** The request is in [c->argv]; [true] is REDIS_OK. *)
Definition processCommand (st : status) s (id : positive) : option (server V R * bool) :=
  c ← get s id;
  name ← head (argv c);
  if strcasecmp_eq (c_text name) (ascii_text "quit") then
    Some (upd s id (λ c, set_close (add_out c [ROk])), false)
  else
    let s := upd s id (λ c, set_cmd c (lookupCommand name) (argv c)) in
    match lookupCommand name with
    | None => reject s id true (RError "unknown command")
    | Some k =>
        let argc := Z.of_nat (length (argv c)) in
        if ((0 <? cmd_arity k) && negb (cmd_arity k =? argc)) || (argc <? - cmd_arity k) then
          reject s id true (RError "wrong number of arguments")
        else if requirepass st && negb (authenticated c) && negb (is_proc k P_auth) then reject s id true RNoAuth
        else
          let '(s, oom) :=
            if maxmemory st then
              let '(evicted, r, ok) := freeMemoryIfNeeded (dbs s) (rest s) in
              (with_rest (run_ksteps st s (evicted ≫= evict)) r, cmd_denyoom k && negb (ok : bool))
            else (s, false) in
          if oom : bool then reject s id true ROom
          else if write_failing st && negb (is_slave st) && (cmd_write k || is_proc k P_ping) then
            reject s id true (if aof_last_write_ok st then RBgsave else RError "MISCONF Errors writing to the AOF file")
          else if negb (is_slave st) && cmd_write k && too_few_slaves st then reject s id true RNoReplicas
          else if is_slave st && repl_slave_ro st && negb (fl_master c) && cmd_write k then reject s id false RReadOnly
          else if (0 <? subscriptions c) && negb (is_proc k P_subscribe) && negb (is_proc k P_unsubscribe) &&
                  negb (is_proc k P_psubscribe) && negb (is_proc k P_punsubscribe) then
            reject s id false (RError "only (P)SUBSCRIBE / (P)UNSUBSCRIBE / QUIT allowed in this context")
          else if master_link_down st && negb (cmd_stale k) then reject s id true RMasterDown
          else if loading st && negb (cmd_loading k) then reject s id false RLoading
          else if lua_timedout st && negb (is_proc k P_auth) && negb (is_proc k P_replconf) &&
                  negb (is_proc k P_shutdown && second_is (argv c) 110) && negb (is_proc k P_script && second_is (argv c) 107) then
            reject s id true RSlowScript
          else if fl_multi c && negb (is_proc k P_exec) && negb (is_proc k P_discard) && negb (is_proc k P_multi) && negb (is_proc k P_watch) then
            s ← queueMultiCommand s id; Some (upd s id (λ c, add_out c [RQueued]), true)
          else
            s ← call (execCommand st) st s id; Some (serve_blocked st s, true)
    end.

(** ** Clients come and go *)

Definition createClient (master : bool) : client :=
  Client 0 false master false false false false false false [] [] None [] 0 [].

(** What freeClient does here: the watched keys, the queued commands and the
    client itself. *)
Definition freeClient s (id : positive) : option (server V R) :=
  s ← unwatchAllKeys s id;
  Some (with_clients s (delete id (clients s))).

(** A request of a client, at the conditions of the time; a new client; the end of
    one; and what the server does on its own between them (the time goes on, keys
    expire, a save ends). *)
Inductive event :=
  ERequest (st : status) (id : positive) (args : list text) | ECreate (id : positive) | EFree (id : positive)
| ECron (st : status) (steps : list (kstep V)) (r : R).

Definition step s (ev : event) : option (server V R) :=
  match ev with
  | ERequest st id args =>
      _ ← get s id;
      '(s, _) ← processCommand st (upd s id (λ c, set_cmd c (cmd c) args)) id; Some s
  | ECreate id => if bool_decide (is_Some (clients s !! id)) then None else Some (with_clients s (<[id := createClient false]> (clients s)))
  | EFree id => freeClient s id
  | ECron st steps r => Some (with_rest (run_ksteps st s steps) r)
  end.
Fixpoint run s (evs : list event) : option (server V R) :=
  match evs with [] => Some s | ev :: evs => s ← step s ev; run s evs end.
End multi.

(** ** The invariant *)

(** What may be queued. *)
Definition queueable (mc : multiCmd) : Prop :=
  cmd_proc (mc_cmd mc) ≠ P_exec ∧ cmd_proc (mc_cmd mc) ≠ P_discard ∧ cmd_proc (mc_cmd mc) ≠ P_multi ∧ cmd_proc (mc_cmd mc) ≠ P_watch.

(** Of one client: no key twice, and the state of a transaction only inside of one. *)
Record client_ok (c : client) : Prop := ClientOk {
  co_nodup : NoDup (watched_keys c);
  co_queue : Forall queueable (mstate c);
  co_idle : fl_multi c = false → mstate c = [] ∧ fl_dirty_exec c = false
}.

(** What a step may end: nothing, what a client watches, or its transaction too. *)
Inductive ends := Nothing | Watching (id : positive) | Transaction (id : positive).
Definition ends_watch (e : ends) (id : positive) : Prop := e = Watching id ∨ e = Transaction id.

(** The client watches a key that is signalled. *)
Definition touched (l : list note) (c : client) : Prop := ∃ wk, wk ∈ watched_keys c ∧ Touched wk ∈ l.

Section invariant.
Context {V R : Type} `{Commands V R}.
Implicit Types (s : server V R) (c : client).

(** The lists of the clients and the tables of the databases say the same. *)
Record wf s : Prop := Wf {
  wf_clients : ∀ id c, clients s !! id = Some c → client_ok c;
  wf_lists : ∀ wk l, watchers s !! wk = Some l → l ≠ [] ∧ NoDup l;
  wf_both : ∀ wk id, id ∈ default [] (watchers s !! wk) ↔ ∃ c, clients s !! id = Some c ∧ wk ∈ watched_keys c
}.

(** The client is in a transaction that will be aborted for an error. *)
Definition doomed (id : positive) s : Prop :=
  ∃ c, clients s !! id = Some c ∧ fl_multi c = true ∧ fl_dirty_exec c = true.

(** The client watches the same keys as before, and is told exactly when one of them
    is signalled. *)
Definition told (l : list note) (id : positive) c s : Prop :=
  ∃ c', clients s !! id = Some c' ∧ watched_keys c' = watched_keys c ∧
    (fl_dirty_cas c' = true ↔ fl_dirty_cas c = true ∨ touched l c).

(** What the history [l] of a step says: which keys may have changed, and which
    clients are told. *)
Record accounts e l s s' : Prop := Accounts {
  ac_history : history s' = history s ++ l;
  ac_dbs : ∀ wk, Wrote wk ∉ l → dbs s' !! wk = dbs s !! wk;
  ac_told : ∀ id c, ¬ ends_watch e id → clients s !! id = Some c → told l id c s'
}.

(** A step of the server. *)
Record evolves e s s' : Prop := Evolves {
  ev_wf : wf s';
  ev_dom : dom (clients s') = dom (clients s);
  ev_accounts : ∃ l, accounts e l s s';
  ev_doomed : ∀ id, e ≠ Transaction id → doomed id s → doomed id s'
}.

Lemma told_refl id c s : clients s !! id = Some c → told [] id c s.
Proof.
  intros Hc. exists c. split; [done|]. split; [done|]. split; [by left|]. intros [?|(wk & _ & Hin)]; [done|].
  by apply not_elem_of_nil in Hin.
Qed.
Lemma told_trans l1 l2 id c s1 s2 :
  told l1 id c s1 → (∀ c1, clients s1 !! id = Some c1 → told l2 id c1 s2) → told (l1 ++ l2) id c s2.
Proof.
  intros (c1 & Hc1 & Hw1 & Hf1) T2. destruct (T2 c1 Hc1) as (c2 & Hc2 & Hw2 & Hf2). exists c2. split; [done|]. split; [congruence|].
  rewrite Hf2, Hf1. unfold touched. rewrite Hw1. setoid_rewrite elem_of_app. naive_solver.
Qed.
Lemma accounts_refl e s : accounts e [] s s.
Proof. split; [by rewrite app_nil_r|done|]. intros id c _. apply told_refl. Qed.
Lemma accounts_trans e l1 l2 s1 s2 s3 : accounts e l1 s1 s2 → accounts e l2 s2 s3 → accounts e (l1 ++ l2) s1 s3.
Proof.
  intros [H1 D1 T1] [H2 D2 T2]. split.
  - by rewrite H2, H1, (assoc_L (++)).
  - intros wk Hwk. rewrite D2, D1; [done|set_solver..].
  - intros id c He Hc. eapply told_trans; [by apply T1|]. intros c1 Hc1. by apply T2.
Qed.
Lemma evolves_refl e s : wf s → evolves e s s.
Proof. intros W. split; [done|done|exists []; apply accounts_refl|done]. Qed.
Lemma evolves_trans e s1 s2 s3 : evolves e s1 s2 → evolves e s2 s3 → evolves e s1 s3.
Proof.
  intros [W1 D1 (l1 & A1) X1] [W2 D2 (l2 & A2) X2]. split; [done|congruence| |auto]. exists (l1 ++ l2). by eapply accounts_trans.
Qed.
(** A step that ends less. *)
Definition within (e1 e2 : ends) : Prop := e1 = Nothing ∨ e1 = e2 ∨ ∃ id, e1 = Watching id ∧ e2 = Transaction id.
Lemma evolves_within e1 e2 s s' : within e1 e2 → evolves e1 s s' → evolves e2 s s'.
Proof.
  intros Hw [W D (l & [A1 A2 A3]) X]. split; [done|done| |].
  - exists l. split; [done|done|]. intros id c He. apply A3. unfold ends_watch in *. destruct Hw as [->|[->|(i & -> & ->)]]; naive_solver.
  - intros id He. apply X. destruct Hw as [->|[->|(i & -> & ->)]]; naive_solver.
Qed.
Lemma evolves_weaken e s s' : evolves Nothing s s' → evolves e s s'.
Proof. apply evolves_within. by left. Qed.

Lemma get_upd s id f i : clients (upd s id f) !! i = (if decide (i = id) then f <$> clients s !! i else clients s !! i).
Proof.
  cbn [clients upd with_clients]. case_decide as Hi; [subst i; apply lookup_alter_eq|by rewrite lookup_alter_ne].
Qed.

Lemma evolves_get e s s' id c : evolves e s s' → clients s !! id = Some c → ∃ c', clients s' !! id = Some c'.
Proof.
  intros Ev Hc. apply elem_of_dom. rewrite (ev_dom _ _ _ Ev). apply elem_of_dom. by exists c.
Qed.

(** A change of one client that keeps what it watches and forgets nothing. *)
Definition mild (f : client → client) : Prop :=
  ∀ c, watched_keys (f c) = watched_keys c ∧ fl_dirty_cas (f c) = fl_dirty_cas c ∧
    (fl_multi c = true → fl_dirty_exec c = true → fl_multi (f c) = true ∧ fl_dirty_exec (f c) = true).

Lemma wf_upd s id f :
  wf s → (∀ c, watched_keys (f c) = watched_keys c) → (∀ c, clients s !! id = Some c → client_ok c → client_ok (f c)) → wf (upd s id f).
Proof.
  intros W Hf Hok. split.
  - intros i c. rewrite get_upd. case_decide as Hi; [|by apply W]. subst i. intros (c0 & Hc & ->)%fmap_Some.
    apply Hok; [done|]. by eapply W.
  - apply W.
  - intros wk i. cbn [watchers upd with_clients]. rewrite (wf_both _ W wk i). setoid_rewrite get_upd.
    case_decide as Hi; [|done]. subst i. split.
    + intros (c & Hc & Hin). exists (f c). rewrite Hc. split; [done|]. by rewrite Hf.
    + intros (c & (c0 & Hc & ->)%fmap_Some & Hin). exists c0. split; [done|]. by rewrite <-(Hf c0).
Qed.

(** A change of one client, by what it may end. *)
Lemma evolves_own e s id f :
  wf s → (∀ c, watched_keys (f c) = watched_keys c) →
  (¬ ends_watch e id → ∀ c, fl_dirty_cas (f c) = fl_dirty_cas c) →
  (e ≠ Transaction id → ∀ c, fl_multi c = true → fl_dirty_exec c = true → fl_multi (f c) = true ∧ fl_dirty_exec (f c) = true) →
  (∀ c, clients s !! id = Some c → client_ok c → client_ok (f c)) → evolves e s (upd s id f).
Proof.
  intros W Hf Hcas Hx Hok. split.
  - by apply wf_upd.
  - cbn [clients upd with_clients]. apply dom_alter_L.
  - exists []. split; [by rewrite app_nil_r|done|]. intros i c He Hc. destruct (decide (i = id)) as [->|Hi].
    + destruct (told_refl id c s Hc) as (c' & Hc' & _ & Hd). rewrite Hc in Hc'. injection Hc' as <-. exists (f c). rewrite get_upd, decide_True, Hc by done.
      split; [done|]. split; [done|]. by rewrite Hcas.
    + destruct (told_refl i c s Hc) as (c' & Hc' & Hd). exists c'. by rewrite get_upd, decide_False.
  - intros i He (c & Hc & Hm & Hd). unfold doomed. setoid_rewrite get_upd. case_decide as Hi; [|by exists c].
    subst i. exists (f c). rewrite Hc. split; [done|]. by apply Hx.
Qed.
Lemma evolves_upd s id f :
  wf s → mild f → (∀ c, clients s !! id = Some c → client_ok c → client_ok (f c)) → evolves Nothing s (upd s id f).
Proof. intros W Hf Hok. apply evolves_own; [done|intros c|intros _ c|intros _ c|done]; apply Hf. Qed.

(** Fields of the server that do not matter here. *)
Lemma evolves_same s s' :
  wf s → clients s' = clients s → watchers s' = watchers s → dbs s' = dbs s → history s' = history s → evolves Nothing s s'.
Proof.
  intros [W1 W2 W3] Ec Ew Ed Eh. split.
  - split; rewrite ?Ec, ?Ew; done.
  - by rewrite Ec.
  - exists []. split; [by rewrite app_nil_r|by rewrite Ed|]. intros id c _ Hc. destruct (told_refl id c s Hc) as (c' & Hc' & Hd).
    exists c'. by rewrite Ec.
  - intros id _ (c & Hc & Hd). exists c. by rewrite Ec.
Qed.

(** Writes of keys that are in the history. *)
Lemma evolves_write s d l :
  wf s → (∀ wk, Touched wk ∉ l) → (∀ wk, Wrote wk ∉ l → d !! wk = dbs s !! wk) → evolves Nothing s (add_history (with_dbs s d) l).
Proof.
  intros [W1 W2 W3] Ht Hd. split; [done|done| |done]. exists l. split; [done|done|]. intros id c _ Hc. exists c. split; [done|].
  split; [done|]. split; [by left|]. intros [?|(wk & _ & Hin)]; [done|]. by apply Ht in Hin.
Qed.

(** ** Marking *)

Lemma client_ok_mark c : client_ok c → client_ok (mark_cas c).
Proof. by intros []. Qed.

(** The clients of [p] are marked: those that watch a key of [l]. *)
Lemma evolves_marking s (p : client → bool) m l :
  wf s → (∀ id, m !! id = (λ c, if p c then mark_cas c else c) <$> clients s !! id) →
  (∀ id c, clients s !! id = Some c → p c = true ↔ touched l c) → evolves Nothing s (add_history (with_clients s m) l).
Proof.
  intros W Hm Hp. set (f := λ c, if p c then mark_cas c else c) in *.
  assert (∀ c, watched_keys (f c) = watched_keys c) as Hw by (intros c; unfold f; by case_match).
  split.
  - split; cbn [clients watchers add_history with_clients].
    + intros id c. rewrite Hm. intros (c0 & Hc & ->)%fmap_Some. unfold f. case_match; [apply client_ok_mark|]; by eapply W.
    + apply W.
    + intros wk id. rewrite (wf_both _ W wk id), Hm. split.
      * intros (c & Hc & Hin). exists (f c). rewrite Hc. split; [done|]. by rewrite Hw.
      * intros (c & (c0 & Hc & ->)%fmap_Some & Hin). exists c0. split; [done|]. by rewrite <-Hw.
  - cbn [clients add_history with_clients]. apply set_eq. intros id. rewrite !elem_of_dom, Hm. by rewrite fmap_is_Some.
  - exists l. split; [done|done|]. intros id c _ Hc. exists (f c). cbn [clients add_history with_clients]. rewrite Hm, Hc. split; [done|].
    split; [done|]. specialize (Hp id c Hc). unfold f. destruct (p c) eqn:Ep; [|rewrite <-Hp; naive_solver].
    split; [intros _; right; by apply Hp|done].
  - intros id _ (c & Hc & Hmu & Hd). exists (f c). cbn [clients add_history with_clients]. rewrite Hm, Hc. split; [done|].
    unfold f. by case_match.
Qed.

Lemma touch_loop_spec l : ∀ s, ∃ m, touch_loop l s = with_clients s m ∧
  ∀ id, m !! id = (λ c, if bool_decide (id ∈ l) then mark_cas c else c) <$> clients s !! id.
Proof.
  induction l as [|i l IH]; intros s; cbn [touch_loop].
  - exists (clients s). split; [by destruct s|]. intros id. rewrite bool_decide_false by apply not_elem_of_nil. by destruct (clients s !! id).
  - destruct (IH (upd s i mark_cas)) as (m & -> & Hm). exists m. split; [done|]. intros id. rewrite Hm, get_upd.
    destruct (clients s !! id) as [c|]; [|by case_decide]. case_decide as Hi; cbn [fmap option_fmap option_map]; f_equal.
    + subst i. rewrite (bool_decide_true (id ∈ id :: l)) by by left. by case_bool_decide.
    + rewrite (bool_decide_ext (id ∈ i :: l) (id ∈ l)) by set_solver. done.
Qed.

Lemma evolves_touch s wk : wf s → evolves Nothing s (add_history (touchWatchedKey s wk) [Touched wk]).
Proof.
  intros W.
  assert (∃ m, touchWatchedKey s wk = with_clients s m ∧
    ∀ id, m !! id = (λ c, if bool_decide (wk ∈ watched_keys c) then mark_cas c else c) <$> clients s !! id) as (m & -> & Hm).
  { unfold touchWatchedKey. pose proof (wf_both _ W wk) as Hb. destruct (watchers s !! wk) as [l|].
    - destruct (touch_loop_spec l s) as (m & -> & Hm). exists m. split; [done|]. intros id. rewrite Hm. specialize (Hb id). cbn [default Datatypes.id] in Hb.
      destruct (clients s !! id) as [c|] eqn:Hc; [|done]. cbn [fmap option_fmap option_map]. f_equal.
      rewrite (bool_decide_ext (id ∈ l) (wk ∈ watched_keys c)); [done|]. rewrite Hb. naive_solver.
    - exists (clients s). split; [by destruct s|]. intros id. specialize (Hb id). cbn [default Datatypes.id] in Hb.
      destruct (clients s !! id) as [c|] eqn:Hc; [|done]. cbn [fmap option_fmap option_map]. rewrite bool_decide_false; [done|].
      intros Hin. apply (not_elem_of_nil id), Hb. by exists c. }
  eapply evolves_marking; [done|exact Hm|]. intros id c Hc. rewrite bool_decide_eq_true. unfold touched.
  setoid_rewrite list_elem_of_singleton. naive_solver.
Qed.

Lemma elem_of_present s d wk : wk ∈ present s d ↔ in_db d wk = true ∧ is_Some (dbs s !! wk).
Proof.
  unfold present. rewrite list_elem_of_filter, list_elem_of_fmap. split.
  - intros [? ([k v] & -> & Hk)]. split; [done|]. apply elem_of_map_to_list in Hk. by exists v.
  - intros [? [v Hv]]. split; [done|]. exists (wk, v). split; [done|]. by apply elem_of_map_to_list.
Qed.

Lemma evolves_flush s d : wf s → evolves Nothing s (add_history (touchWatchedKeysOnFlush s d) (Touched <$> present s d)).
Proof.
  intros W. unfold touchWatchedKeysOnFlush. eapply evolves_marking; [done|intros id; by rewrite lookup_fmap|].
  intros id c _. rewrite existsb_exists. unfold touched. split.
  - intros (wk & Hin%list_elem_of_In & [Hd Hs%bool_decide_eq_true]%andb_true_iff). exists wk. split; [done|]. apply list_elem_of_fmap_2.
    by apply elem_of_present.
  - intros (wk & Hin & (k & [= ->] & [Hd Hs]%elem_of_present)%list_elem_of_fmap). exists k. split; [by apply list_elem_of_In|].
    rewrite Hd. by apply bool_decide_eq_true.
Qed.

Lemma evolves_empty s d :
  wf s → evolves Nothing s (add_history (with_dbs s (filter (λ kv, in_db d kv.1 = false) (dbs s))) (Wrote <$> present s d)).
Proof.
  intros W. apply evolves_write; [done|by intros wk (? & ? & _)%list_elem_of_fmap|]. intros wk Hwk.
  destruct (dbs s !! wk) as [v|] eqn:Ev; [|apply map_lookup_filter_None; by left]. apply map_lookup_filter_Some. split; [done|]. cbn [fst].
  apply not_true_iff_false. intros Hd. apply Hwk, list_elem_of_fmap_2, elem_of_present. by rewrite Ev.
Qed.

Lemma evolves_out s id l : wf s → evolves Nothing s (upd s id (λ c, add_out c l)).
Proof. intros W. apply evolves_upd; [done|done|]. by intros c _ []. Qed.

(** Every step of a procedure keeps the invariant. *)
Lemma evolves_kstep st s k : wf s → evolves Nothing s (run_kstep st s k).
Proof.
  intros W. destruct k as [k o|k|d|d|o|n| |id l]; cbn [run_kstep].
  - apply evolves_write; [done|set_solver|]. intros wk Hwk. rewrite lookup_partial_alter_ne; [done|]. intros ->. set_solver.
  - by apply evolves_touch.
  - by apply evolves_flush.
  - by apply evolves_empty.
  - by apply evolves_same.
  - by apply evolves_same.
  - by apply evolves_same.
  - by apply evolves_out.
Qed.
Lemma evolves_ksteps st steps : ∀ s, wf s → evolves Nothing s (run_ksteps st s steps).
Proof.
  induction steps as [|k steps IH]; intros s W; [by apply evolves_refl|].
  pose proof (evolves_kstep st s k W) as E1. eapply evolves_trans; [exact E1|]. apply IH, E1.
Qed.
End invariant.

Section watching.
Context {V R : Type} `{Commands V R}.
Implicit Types (s : server V R) (c : client).

(** ** Watching and unwatching *)

(** Nothing but the clients and their tables changes. *)
Record same_data s s' : Prop := SameData {
  sd_dbs : dbs s' = dbs s;
  sd_dirty : dirty s' = dirty s;
  sd_repl : repl_fed s' = repl_fed s;
  sd_aof : aof_fed s' = aof_fed s;
  sd_rest : rest s' = rest s;
  sd_history : history s' = history s
}.
Lemma same_data_refl s : same_data s s.
Proof. by split. Qed.
Lemma same_data_trans s1 s2 s3 : same_data s1 s2 → same_data s2 s3 → same_data s1 s3.
Proof. intros [] []. split; congruence. Qed.

(** Only one client and the tables change. *)
Lemma evolves_watch s s' id :
  wf s' → dom (clients s') = dom (clients s) → same_data s s' →
  (∀ i, i ≠ id → clients s' !! i = clients s !! i) →
  (∀ c, clients s !! id = Some c → ∃ c', clients s' !! id = Some c' ∧ fl_multi c' = fl_multi c ∧ fl_dirty_exec c' = fl_dirty_exec c) →
  evolves (Watching id) s s'.
Proof.
  intros W D Sd Ho Hid. split; [done|done| |].
  - exists []. split; [rewrite app_nil_r; apply Sd|by rewrite (sd_dbs _ _ Sd)|]. intros i c He Hc.
    destruct (told_refl i c s Hc) as (c' & Hc' & Hd). exists c'. rewrite Ho; [done|]. intros ->. apply He. by left.
  - intros i _ (c & Hc & Hm & Hd). destruct (decide (i = id)) as [->|Hi].
    + destruct (Hid c Hc) as (c' & Hc' & Em & Ed). exists c'. by rewrite Em, Ed.
    + exists c. by rewrite Ho.
Qed.

Lemma watchForKey_spec s id key c :
  wf s → clients s !! id = Some c → ∃ s' l, watchForKey s id key = Some s' ∧ evolves (Watching id) s s' ∧ same_data s s' ∧
    clients s' !! id = Some (set_watched c l) ∧ (∀ wk, wk ∈ l ↔ wk ∈ watched_keys c ∨ wk = (db c, key)).
Proof.
  intros W Hc. unfold watchForKey, get. rewrite Hc. cbn [mbind option_bind]. set (wk := (db c, key)).
  case_bool_decide as Hin.
  { exists s, (watched_keys c). split; [done|]. split; [by apply evolves_refl|]. split; [done|]. split; [by rewrite Hc; destruct c|].
    intros k. split; [by left|]. by intros [?| ->]. }
  set (s1 := with_watchers s _). set (f := λ c : client, set_watched c (watched_keys c ++ [wk])).
  assert (id ∉ default [] (watchers s !! wk)) as Hni.
  { intros Hw. apply (wf_both _ W) in Hw as (c0 & Hc0 & Hk). simplify_eq. done. }
  assert (NoDup (default [] (watchers s !! wk))) as Hnd.
  { destruct (watchers s !! wk) as [l|] eqn:El; [|apply NoDup_nil_2]. cbn [default Datatypes.id]. by eapply (wf_lists _ W). }
  eexists _, _. split; [done|].
  assert (clients (upd s1 id f) !! id = Some (f c)) as Hcf by (rewrite get_upd, decide_True by done; change (clients s1) with (clients s); by rewrite Hc).
  split; [|split; [done|]; split; [exact Hcf|intros k; rewrite elem_of_app, list_elem_of_singleton; done]].
  apply evolves_watch; [|apply dom_alter_L|done|intros i Hi; by rewrite get_upd, decide_False|intros c0 Hc0; rewrite Hc in Hc0; injection Hc0 as <-; by exists (f c)].
  split.
  - intros i c0. rewrite get_upd. change (clients s1) with (clients s). case_decide as Hi; [|by apply W].
    subst i. rewrite Hc. cbn [fmap option_fmap option_map]. intros [= <-]. destruct (wf_clients _ W id c Hc) as [Hn Hq Hid].
    split; [|done|done]. cbn [watched_keys f set_watched]. apply NoDup_app. split; [done|]. split; [|apply NoDup_singleton].
    intros x Hx ->%list_elem_of_singleton. done.
  - intros k l. cbn [watchers upd with_clients s1 with_watchers]. destruct (decide (k = wk)) as [->|Hk].
    + rewrite lookup_insert_eq. intros [= <-]. split; [by destruct (default [] _)|].
      apply NoDup_app. split; [done|]. split; [|apply NoDup_singleton]. intros x Hx ->%list_elem_of_singleton. done.
    + rewrite lookup_insert_ne by done. apply W.
  - intros k i. cbn [watchers upd with_clients s1 with_watchers]. setoid_rewrite get_upd. change (clients s1) with (clients s).
    pose proof (wf_both _ W k i) as Hb.
    destruct (decide (k = wk)) as [->|Hk]; [rewrite lookup_insert_eq; cbn [default Datatypes.id]; rewrite elem_of_app, list_elem_of_singleton|rewrite lookup_insert_ne by done];
      (case_decide as Hi; [subst i; rewrite Hc in *; cbn [fmap option_fmap option_map]|]).
    + split; [|by right]. intros _. exists (f c). split; [done|]. cbn [f set_watched watched_keys]. set_solver.
    + rewrite Hb. split; [by intros [?|?]|by left].
    + rewrite Hb. split.
      * intros (c0 & [= <-] & Hx). exists (f c). split; [done|]. cbn [f set_watched watched_keys]. set_solver.
      * intros (c0 & [= <-] & Hx). exists c. split; [done|]. cbn [f set_watched watched_keys] in Hx. set_solver.
    + done.
Qed.

Lemma del_client_spec id l : NoDup l → id ∈ l → ∃ l', del_client id l = Some l' ∧ NoDup l' ∧ ∀ x, x ∈ l' ↔ x ∈ l ∧ x ≠ id.
Proof.
  induction 1 as [|y l Hy Hn IH]; intros Hin; [by apply not_elem_of_nil in Hin|]. cbn [del_client].
  case_bool_decide as Hd.
  - subst y. exists l. split; [done|]. split; [done|]. intros x. split; [|set_solver]. intros Hx. split; [set_solver|]. by intros ->.
  - destruct IH as (l' & -> & Hn' & Hl'); [set_solver|]. exists (y :: l'). split; [done|]. split.
    + apply NoDup_cons. split; [|done]. rewrite Hl'. tauto.
    + intros x. rewrite !elem_of_cons, Hl'. split; [intros [->|]; [by split; [left|]|tauto]|tauto].
Qed.

(** One turn of the loop. *)
Lemma unwatch_turn s id wk l c :
  wf s → clients s !! id = Some c → watched_keys c = wk :: l →
  ∃ cl cl', watchers s !! wk = Some cl ∧ del_client id cl = Some cl' ∧
    let s' := upd (with_watchers s (if bool_decide (cl' = []) then delete wk (watchers s) else <[wk := cl']> (watchers s)))
                id (λ c, set_watched c l) in
    evolves (Watching id) s s' ∧ clients s' !! id = Some (set_watched c l).
Proof.
  intros W Hc Hk. pose proof (wf_both _ W wk id) as Hb. destruct (wf_clients _ W id c Hc) as [Hnd Hq Hid]. rewrite Hk in Hnd.
  apply NoDup_cons in Hnd as [Hnk Hnl].
  assert (id ∈ default [] (watchers s !! wk)) as Hin by (apply Hb; exists c; split; [done|]; rewrite Hk; set_solver).
  destruct (watchers s !! wk) as [cl|] eqn:El; [|by apply not_elem_of_nil in Hin]. cbn [default Datatypes.id] in Hin.
  destruct (wf_lists _ W wk cl El) as [_ Hncl]. destruct (del_client_spec id cl Hncl Hin) as (cl' & Ed & Hn' & Hl').
  exists cl, cl'. split; [done|]. split; [done|]. set (w' := if bool_decide (cl' = []) then delete wk (watchers s) else <[wk := cl']> (watchers s)). intros s'.
  assert (∀ k, k ≠ wk → w' !! k = watchers s !! k) as Hother
    by (intros k Hkk; unfold w'; case_bool_decide; [by apply lookup_delete_ne|by apply lookup_insert_ne]).
  assert (default [] (w' !! wk) = cl') as Hwk
    by (unfold w'; case_bool_decide as Hnil; [rewrite lookup_delete_eq; by rewrite Hnil|by rewrite lookup_insert_eq]).
  assert (clients s' !! id = Some (set_watched c l)) as Hcs
    by (unfold s'; rewrite get_upd, decide_True by done; cbn [clients with_watchers]; by rewrite Hc).
  split; [|done].
  apply evolves_watch; [|unfold s'; cbn [clients upd with_clients with_watchers]; apply dom_alter_L|done|
    intros i Hi; unfold s'; by rewrite get_upd, decide_False|intros c0 Hc0; rewrite Hc in Hc0; injection Hc0 as <-; by exists (set_watched c l)].
  split.
  - intros i c0. unfold s'. rewrite get_upd. cbn [clients with_watchers]. case_decide as Hi; [|by apply W].
    subst i. rewrite Hc. intros [= <-]. by split.
  - intros k l0. change (watchers s') with w'. destruct (decide (k = wk)) as [->|Hkk]; [|rewrite Hother by done; apply W].
    intros E. rewrite E in Hwk. cbn [default Datatypes.id] in Hwk. subst l0. split; [|done]. intros ->.
    unfold w' in E. rewrite bool_decide_true, lookup_delete_eq in E by done. done.
  - intros k i. change (watchers s') with w'. unfold s'. setoid_rewrite get_upd. cbn [clients with_watchers].
    pose proof (wf_both _ W k i) as Hbi. destruct (decide (k = wk)) as [->|Hkk].
    + rewrite Hwk, Hl'. rewrite El in Hbi. cbn [default Datatypes.id] in Hbi. case_decide as Hi.
      * subst i. split; [by intros []|]. rewrite Hc. intros (c0 & [= <-] & Hx). by cbn [set_watched watched_keys] in Hx.
      * rewrite Hbi. tauto.
    + rewrite Hother, Hbi by done. case_decide as Hi; [|done]. subst i. rewrite Hc. split.
      * intros (c0 & [= <-] & Hx). exists (set_watched c l). split; [done|]. cbn [set_watched watched_keys]. rewrite Hk in Hx. set_solver.
      * intros (c0 & [= <-] & Hx). exists c. split; [done|]. cbn [set_watched watched_keys] in Hx. rewrite Hk. set_solver.
Qed.

Lemma unwatch_loop_spec l : ∀ s id c,
  wf s → clients s !! id = Some c → watched_keys c = l →
  ∃ s', unwatch_loop l s id = Some s' ∧ evolves (Watching id) s s' ∧ clients s' !! id = Some (set_watched c []) ∧ same_data s s'.
Proof.
  induction l as [|wk l IH]; intros s id c W Hc Hk; cbn [unwatch_loop].
  - exists s. split; [done|]. split; [by apply evolves_refl|]. split; [|done]. rewrite Hc. destruct c; cbn in *. by subst.
  - destruct (unwatch_turn s id wk l c W Hc Hk) as (cl & cl' & -> & Ed & Ev & Hc').
    cbn [mbind option_bind]. rewrite Ed. cbn [mbind option_bind].
    destruct (IH _ id _ (ev_wf _ _ _ Ev) Hc' eq_refl) as (s' & -> & Ev' & Hcs & Hf).
    exists s'. split; [done|]. split; [by eapply evolves_trans|]. split; [by rewrite Hcs|by destruct Hf].
Qed.

Lemma unwatchAllKeys_spec s id c :
  wf s → clients s !! id = Some c →
  ∃ s', unwatchAllKeys s id = Some s' ∧ evolves (Watching id) s s' ∧ clients s' !! id = Some (set_watched c []) ∧ same_data s s'.
Proof.
  intros W Hc. unfold unwatchAllKeys, get. rewrite Hc. cbn [mbind option_bind]. by apply unwatch_loop_spec.
Qed.
Lemma evolves_txn s s' id : evolves (Watching id) s s' → evolves (Transaction id) s s'.
Proof. apply evolves_within. right; right. by exists id. Qed.

(** ** The commands of multi.c *)

(** What discardTransaction makes of the client. *)
Definition discarded c : client := set_watched (set_flags (set_mstate c []) false false false) [].

Lemma discardTransaction_spec s id c :
  wf s → clients s !! id = Some c →
  ∃ s', discardTransaction s id = Some s' ∧ evolves (Transaction id) s s' ∧ clients s' !! id = Some (discarded c) ∧ same_data s s'.
Proof.
  intros W Hc. unfold discardTransaction.
  set (f := λ c : client, set_flags (set_mstate c []) false false false).
  assert (evolves (Transaction id) s (upd s id f)) as E1.
  { apply evolves_own; [done|done|intros []; by right|done|]. intros c0 _ [Hn Hq Hi]. split; [done|apply Forall_nil_2|done]. }
  destruct (unwatchAllKeys_spec (upd s id f) id (f c) (ev_wf _ _ _ E1)) as (s' & -> & E2 & Hc' & Sd).
  { by rewrite get_upd, decide_True, Hc. }
  exists s'. split; [done|]. split; [eapply evolves_trans; [exact E1|by apply evolves_txn]|]. split; [done|]. by destruct Sd.
Qed.

Lemma get_out s id l c : clients s !! id = Some c → clients (upd s id (λ c, add_out c l)) !! id = Some (add_out c l).
Proof. intros Hc. by rewrite get_upd, decide_True, Hc. Qed.

Lemma multiCommand_spec s id c :
  wf s → clients s !! id = Some c → ∃ s', multiCommand s id = Some s' ∧ evolves Nothing s s' ∧ same_data s s'.
Proof.
  intros W Hc. unfold multiCommand, get. rewrite Hc. cbn [mbind option_bind]. destruct (fl_multi c) eqn:Em.
  - eexists. split; [done|]. split; [by apply evolves_out|done].
  - eexists. split; [done|]. split; [|done]. apply evolves_upd; [done|done|].
    intros c0 Hc0 [Hn Hq Hi]. simplify_eq. split; [done|done|done].
Qed.

Lemma discardCommand_spec s id c :
  wf s → clients s !! id = Some c → ∃ s', discardCommand s id = Some s' ∧ evolves (Transaction id) s s' ∧ same_data s s'.
Proof.
  intros W Hc. unfold discardCommand, get. rewrite Hc. cbn [mbind option_bind]. destruct (fl_multi c); cbn [negb].
  - destruct (discardTransaction_spec s id c W Hc) as (s1 & -> & E1 & Hc1 & S1). cbn [mbind option_bind].
    eexists. split; [done|]. split; [|by destruct S1]. eapply evolves_trans; [exact E1|]. apply evolves_weaken, evolves_out, E1.
  - eexists. split; [done|]. split; [|done]. by apply evolves_weaken, evolves_out.
Qed.

Lemma watch_all_spec keys : ∀ s id c,
  wf s → clients s !! id = Some c → ∃ s' l, watch_all s id keys = Some s' ∧ evolves (Watching id) s s' ∧ same_data s s' ∧
    clients s' !! id = Some (set_watched c l) ∧ (∀ wk, wk ∈ l ↔ wk ∈ watched_keys c ∨ wk.1 = db c ∧ wk.2 ∈ keys).
Proof.
  induction keys as [|key keys IH]; intros s id c W Hc; cbn [watch_all].
  - exists s, (watched_keys c). split; [done|]. split; [by apply evolves_refl|]. split; [done|]. split; [by rewrite Hc; destruct c|].
    intros wk. split; [by left|]. by intros [?|[_ ?%not_elem_of_nil]].
  - destruct (watchForKey_spec s id key c W Hc) as (s1 & l1 & -> & E1 & S1 & Hc1 & Hl1). cbn [mbind option_bind].
    destruct (IH s1 id _ (ev_wf _ _ _ E1) Hc1) as (s' & l & -> & E2 & S2 & Hc2 & Hl2). exists s', l.
    split; [done|]. split; [by eapply evolves_trans|]. split; [by eapply same_data_trans|]. split; [by rewrite Hc2|].
    intros [d k]. rewrite Hl2. cbn [set_watched watched_keys db fst snd]. rewrite Hl1, elem_of_cons. naive_solver.
Qed.

Lemma watchCommand_spec s id c :
  wf s → clients s !! id = Some c → ∃ s', watchCommand s id = Some s' ∧ evolves (Watching id) s s' ∧ same_data s s'.
Proof.
  intros W Hc. unfold watchCommand, get. rewrite Hc. cbn [mbind option_bind]. destruct (fl_multi c).
  - eexists. split; [done|]. split; [by apply evolves_weaken, evolves_out|done].
  - destruct (watch_all_spec (tail (argv c)) s id c W Hc) as (s1 & l & -> & E1 & S1 & _). cbn [mbind option_bind].
    eexists. split; [done|]. split; [eapply evolves_trans; [exact E1|]; apply evolves_weaken, evolves_out, E1|]. by destruct S1.
Qed.

Lemma unwatchCommand_spec s id c :
  wf s → clients s !! id = Some c → ∃ s', unwatchCommand s id = Some s' ∧ evolves (Watching id) s s' ∧ same_data s s' ∧
    clients s' !! id = Some (add_out (set_flags (set_watched c []) (fl_multi c) false (fl_dirty_exec c)) [ROk]).
Proof.
  intros W Hc. unfold unwatchCommand.
  destruct (unwatchAllKeys_spec s id c W Hc) as (s1 & -> & E1 & Hc1 & Sd). cbn [mbind option_bind].
  eexists. split; [done|]. split; [|split; [by destruct Sd|]].
  - eapply evolves_trans; [exact E1|]. apply evolves_own; [apply E1|done|intros []; by left|done|]. intros c0 _ []. by split.
  - by rewrite get_upd, decide_True, Hc1.
Qed.
End watching.

Section commands.
Context {V R : Type} `{Commands V R}.
Implicit Types (s : server V R) (c : client).

(** ** Procedures and calls *)

(** What a queued command leaves of its client. *)
Record kept c c' : Prop := Kept {
  k_multi : fl_multi c' = fl_multi c;
  k_mstate : mstate c' = mstate c;
  k_cmd : cmd c' = cmd c
}.
Definition same_force c c' : Prop := fl_force_aof c' = fl_force_aof c ∧ fl_force_repl c' = fl_force_repl c.

(** The stream to the slaves only grows. *)
Definition grows s s' : Prop := ∃ l, repl_fed s' = repl_fed s ++ l.
Lemma grows_refl s : grows s s.
Proof. exists []. by rewrite app_nil_r. Qed.
Lemma grows_data s s' : same_data s s' → grows s s'.
Proof. intros Sd. exists []. rewrite app_nil_r. apply Sd. Qed.
Lemma grows_trans s1 s2 s3 : grows s1 s2 → grows s2 s3 → grows s1 s3.
Proof. intros [l1 E1] [l2 E2]. exists (l1 ++ l2). by rewrite E2, E1, (assoc_L (++)). Qed.

(** Of the steps of a procedure: none takes back changes; none counts changes. *)
Definition monotone (k : kstep V) : Prop := match k with KDirty n => 0 ≤ n | KDirtyReset => False | _ => True end.
Definition uncounted (k : kstep V) : Prop := match k with KDirty _ | KDirtyReset => False | _ => True end.

(** A command that never takes back changes; one that neither counts changes nor
    asks to be propagated; an entry of the stream that a command feeds itself. *)
Definition counting (k : redisCommand) : Prop := ∀ args c (d : keyspace V) (r : R), Forall monotone (e_steps (run_command k args c d r)).
Definition quiet (k : redisCommand) : Prop :=
  ∀ args c (d : keyspace V) (r : R), let e := run_command k args c d r in
    Forall uncounted (e_steps e) ∧ e_force_aof e = false ∧ e_force_repl e = false ∧ e_also e = [].
Definition fed_by (k : redisCommand) (e : Z * list text) : Prop :=
  ∃ args c (d : keyspace V) (r : R) o, KFeed o ∈ e_steps (run_command k args c d r) ∧ op_repl o = true ∧ e = (op_db o, op_argv o).

Lemma propagate_frame st s o :
  clients (propagate st s o) = clients s ∧ dirty (propagate st s o) = dirty s ∧
  repl_fed (propagate st s o) = repl_fed s ++ (if op_repl o then [(op_db o, op_argv o)] else []).
Proof. unfold propagate. cbn. split_and!; try done. case_match; [done|by rewrite app_nil_r]. Qed.

Lemma touch_frame s k : ∃ m, touchWatchedKey s k = with_clients s m ∧
  ∀ id c, clients s !! id = Some c → m !! id = Some c ∨ m !! id = Some (mark_cas c).
Proof.
  unfold touchWatchedKey. destruct (watchers s !! k) as [l|].
  - destruct (touch_loop_spec l s) as (m & -> & Hm). exists m. split; [done|]. intros id c Hc. rewrite Hm, Hc. cbn [fmap option_fmap option_map].
    case_bool_decide; [by right|by left].
  - exists (clients s). split; [by destruct s|]. intros id c Hc. by left.
Qed.

(** What one step feeds, and what it makes of a client and of the count. *)
Definition step_feeds (k : kstep V) : list (Z * list text) :=
  match k with KFeed o => if op_repl o then [(op_db o, op_argv o)] else [] | _ => [] end.
Lemma kstep_frame st s k id c :
  clients s !! id = Some c →
  repl_fed (run_kstep st s k) = repl_fed s ++ step_feeds k ∧
  (monotone k → dirty s ≤ dirty (run_kstep st s k)) ∧ (uncounted k → dirty (run_kstep st s k) = dirty s) ∧
  ∃ c', clients (run_kstep st s k) !! id = Some c' ∧ kept c c' ∧ same_force c c'.
Proof.
  intros Hc. destruct k as [k o|k|d|d|o|n| |i l]; cbn [run_kstep step_feeds monotone uncounted];
    try (rewrite app_nil_r; split; [reflexivity|]; split; [intros _; cbn; lia|]; split; [reflexivity|]; by exists c).
  - destruct (touch_frame s k) as (m & -> & Hm). rewrite app_nil_r. split; [done|]. split; [done|]. split; [done|].
    destruct (Hm id c Hc) as [Hi|Hi]; [exists c|exists (mark_cas c)]; done.
  - rewrite app_nil_r. split; [done|]. split; [done|]. split; [done|]. cbn [clients add_history touchWatchedKeysOnFlush with_clients].
    rewrite lookup_fmap, Hc. cbn [fmap option_fmap option_map]. eexists. split; [done|]. by case_match.
  - destruct (propagate_frame st s o) as (Ec & Ed & Er). rewrite Er, Ed, Ec. split; [done|]. split; [done|]. split; [done|]. by exists c.
  - rewrite app_nil_r. split; [done|]. split; [cbn; lia|]. split; [done|]. by exists c.
  - rewrite app_nil_r. split; [done|]. split; [done|]. split; [done|]. by exists c.
  - rewrite app_nil_r. split; [done|]. split; [done|]. split; [done|]. rewrite get_upd. case_decide; [subst i; rewrite Hc|by exists c].
    by exists (add_out c (RData <$> l)).
Qed.
Lemma ksteps_frame st steps : ∀ s id c,
  clients s !! id = Some c →
  repl_fed (run_ksteps st s steps) = repl_fed s ++ (steps ≫= step_feeds) ∧
  (Forall monotone steps → dirty s ≤ dirty (run_ksteps st s steps)) ∧ (Forall uncounted steps → dirty (run_ksteps st s steps) = dirty s) ∧
  ∃ c', clients (run_ksteps st s steps) !! id = Some c' ∧ kept c c' ∧ same_force c c'.
Proof.
  induction steps as [|k steps IH]; intros s id c Hc.
  - rewrite app_nil_r. split; [done|]. split; [done|]. split; [done|]. by exists c.
  - change (run_ksteps st s (k :: steps)) with (run_ksteps st (run_kstep st s k) steps).
    destruct (kstep_frame st s k id c Hc) as (F1 & M1 & U1 & c1 & Hc1 & [] & []).
    destruct (IH _ id c1 Hc1) as (F2 & M2 & U2 & c2 & Hc2 & [] & []). rewrite F2, F1, bind_cons, (assoc_L (++)). split; [done|].
    split; [intros [Hm Hms]%Forall_cons; specialize (M1 Hm); specialize (M2 Hms); lia|].
    split; [intros [Hm Hms]%Forall_cons; by rewrite U2, U1|]. exists c2. split; [done|]. split; split; congruence.
Qed.
Lemma fed_by_steps (k : redisCommand) (args : list text) c (d : keyspace V) (r : R) :
  Forall (fed_by k) (e_steps (run_command k args c d r) ≫= step_feeds).
Proof.
  apply Forall_forall. intros e (x & Hx & Hin)%list_elem_of_bind. destruct x as [| | | |o| | |]; try by apply not_elem_of_nil in Hx.
  cbn [step_feeds] in Hx. destruct (op_repl o) eqn:Eo; [|by apply not_elem_of_nil in Hx]. apply list_elem_of_singleton in Hx as ->.
  by exists args, c, d, r, o.
Qed.

(** What a queued command does to the count and to the stream. *)
Record bounded (k : redisCommand) s s' : Prop := Bounded {
  bd_count : counting k → dirty s ≤ dirty s';
  bd_quiet : quiet k → dirty s' = dirty s ∧ ∃ l, repl_fed s' = repl_fed s ++ l ∧ Forall (fed_by k) l
}.
Lemma bounded_data k s s' : same_data s s' → bounded k s s'.
Proof. intros []. split; [by intros _; apply Z.eq_le_incl|]. intros _. split; [done|]. exists []. by rewrite app_nil_r. Qed.

Lemma other_proc_spec st s id c k :
  wf s → clients s !! id = Some c →
  ∃ s' also c', other_proc st s id k = Some (s', also) ∧ evolves Nothing s s' ∧ clients s' !! id = Some c' ∧ kept c c' ∧
    grows s s' ∧ bounded k s s' ∧ (quiet k → same_force c c' ∧ also = []).
Proof.
  intros W Hc. unfold other_proc, get. rewrite Hc. cbn [mbind option_bind].
  set (e := run_command k (argv c) c (dbs s) (rest s)). set (s1 := run_ksteps st s (e_steps e)).
  assert (evolves Nothing s s1) as E1 by by apply evolves_ksteps.
  destruct (ksteps_frame st (e_steps e) s id c Hc) as (Hr & Hm & Hu & c1 & Hc1 & [Km Ks Kc] & [Hfa Hfr]). fold s1 in Hr, Hm, Hu, Hc1.
  assert (evolves Nothing s1 (with_rest s1 (e_rest e))) as E2 by (apply evolves_same; [apply E1|done..]).
  assert (evolves Nothing (with_rest s1 (e_rest e)) (upd (with_rest s1 (e_rest e)) id (λ c, take_effect c e))) as E3.
  { apply evolves_upd; [apply E2|done|]. intros c0 _ []. by split. }
  eexists _, _, (take_effect c1 e).
  split; [done|]. split; [eapply evolves_trans; [exact E1|]; by eapply evolves_trans|].
  split; [rewrite get_upd, decide_True by done; cbn [clients with_rest]; by rewrite Hc1|]. split; [by split|].
  split; [by eexists|]. split.
  - split; cbn [dirty repl_fed upd with_clients with_rest].
    + intros Hk. apply Hm, Hk.
    + intros Hk. destruct (Hk (argv c) c (dbs s) (rest s)) as (Hn & _). fold e in Hn. split; [by apply Hu|].
      eexists. split; [exact Hr|]. apply fed_by_steps.
  - intros Hk. destruct (Hk (argv c) c (dbs s) (rest s)) as (_ & Ha & Hre & Hal). fold e in Ha, Hre, Hal. split; [|done].
    unfold same_force. cbn [take_effect fl_force_aof fl_force_repl]. by rewrite Hfa, Hfr, Ha, Hre, !orb_false_r.
Qed.

(** What the procedures may end. *)
Definition frees (k : redisCommand) (id : positive) : ends :=
  match cmd_proc k with P_exec | P_discard => Transaction id | P_watch | P_unwatch => Watching id | _ => Nothing end.

Lemma frees_within k id : within (frees k id) (Transaction id).
Proof.
  unfold frees, within. destruct (cmd_proc k); [by left|by right; left|by right; left|by right; right; exists id|by right; right; exists id|by left..].
Qed.

Definition exec_ok (exec : server V R → positive → option (server V R)) (id : positive) : Prop :=
  ∀ s c, wf s → clients s !! id = Some c → ∃ s', exec s id = Some s' ∧ evolves (Transaction id) s s' ∧ grows s s'.

Lemma run_proc_spec exec st s id c k :
  wf s → clients s !! id = Some c → (cmd_proc k = P_exec → exec_ok exec id) →
  ∃ s' also c', run_proc exec st s id k = Some (s', also) ∧ evolves (frees k id) s s' ∧ clients s' !! id = Some c' ∧ grows s s' ∧
    (queueable (MultiCmd k []) → kept c c' ∧ bounded k s s' ∧ (quiet k → same_force c c' ∧ also = [])).
Proof.
  intros W Hc Hex. unfold run_proc, frees, queueable. cbn [mc_cmd].
  assert (∀ e s', evolves e s s' → ∃ c', clients s' !! id = Some c') as Hget by (intros; by eapply evolves_get).
  destruct (cmd_proc k) eqn:Ek;
    try (destruct (other_proc_spec st s id c k W Hc) as (s' & also & c' & -> & Ev & Hc' & Kp & Gr & Bd & Hq); exists s', also, c'; done).
  - destruct (multiCommand_spec s id c W Hc) as (s' & -> & Ev & Sd). destruct (Hget _ _ Ev) as [c' Hc']. exists s', [], c'.
    split; [done|]. split; [done|]. split; [done|]. split; [by apply grows_data|]. intros (_ & _ & ? & _). done.
  - destruct (Hex eq_refl s c W Hc) as (s' & -> & Ev & Gr). destruct (Hget _ _ Ev) as [c' Hc']. exists s', [], c'.
    split; [done|]. split; [done|]. split; [done|]. split; [done|]. by intros [].
  - destruct (discardCommand_spec s id c W Hc) as (s' & -> & Ev & Sd). destruct (Hget _ _ Ev) as [c' Hc']. exists s', [], c'.
    split; [done|]. split; [done|]. split; [done|]. split; [by apply grows_data|]. by intros (_ & ? & _).
  - destruct (watchCommand_spec s id c W Hc) as (s' & -> & Ev & Sd). destruct (Hget _ _ Ev) as [c' Hc']. exists s', [], c'.
    split; [done|]. split; [done|]. split; [done|]. split; [by apply grows_data|]. by intros (_ & _ & _ & ?).
  - destruct (unwatchCommand_spec s id c W Hc) as (s' & -> & Ev & Sd & Hc'). eexists s', [], _.
    split; [done|]. split; [done|]. split; [done|]. split; [by apply grows_data|]. intros _. split; [done|]. split; [by apply bounded_data|done].
Qed.

Lemma evolves_propagate st s o : wf s → evolves Nothing s (propagate st s o).
Proof. intros W. by apply evolves_same. Qed.
Lemma grows_propagate st s o : grows s (propagate st s o).
Proof. destruct (propagate_frame st s o) as (_ & _ & E). by eexists. Qed.

Lemma propagate_all_spec st ops : ∀ s, wf s →
  let s' := foldl (propagate st) s ops in
  evolves Nothing s s' ∧ clients s' = clients s ∧ dirty s' = dirty s ∧ grows s s'.
Proof.
  induction ops as [|o ops IH]; intros s W; cbn [foldl].
  - split; [by apply evolves_refl|]. split; [done|]. split; [done|]. apply grows_refl.
  - pose proof (evolves_propagate st s o W) as E1. destruct (IH (propagate st s o) (ev_wf _ _ _ E1)) as (E2 & -> & -> & G2).
    split; [by eapply evolves_trans|]. split; [done|]. split; [done|]. eapply grows_trans; [apply grows_propagate|exact G2].
Qed.

Lemma evolves_force s id aof repl : wf s → evolves Nothing s (upd s id (λ c, set_force c aof repl)).
Proof. intros W. apply evolves_upd; [done|done|]. intros c _ []. by split. Qed.

(** [call]: the command is propagated when it has made changes. *)
Lemma call_spec exec st s id c k :
  wf s → clients s !! id = Some c → cmd c = Some k → (cmd_proc k = P_exec → exec_ok exec id) →
  ∃ s', call exec st s id = Some s' ∧ evolves (frees k id) s s' ∧ grows s s' ∧
    (queueable (MultiCmd k []) → ∃ c', clients s' !! id = Some c' ∧ kept c c' ∧ same_force c c' ∧ bounded k s s').
Proof.
  intros W Hc Hk Hex. unfold call, get. rewrite Hc. cbn [mbind option_bind]. rewrite Hk. cbn [mbind option_bind].
  set (s1 := upd s id (λ c, set_force c false false)). pose proof (evolves_force s id false false W) as E1. fold s1 in E1.
  assert (clients s1 !! id = Some (set_force c false false)) as Hc1 by (unfold s1; by rewrite get_upd, decide_True, Hc).
  destruct (run_proc_spec exec st s1 id _ k (ev_wf _ _ _ E1) Hc1 Hex) as (s2 & also & c2 & -> & E2 & Hc2 & G2 & Hq).
  cbn [mbind option_bind]. rewrite Hc2. cbn [mbind option_bind].
  set (s3 := if _ || _ then _ else s2).
  assert (evolves Nothing s2 s3 ∧ clients s3 = clients s2 ∧ dirty s3 = dirty s2 ∧ grows s2 s3 ∧
    (fl_force_aof c2 = false → fl_force_repl c2 = false → dirty s2 = dirty s1 → s3 = s2)) as (E3 & Ec3 & Ed3 & G3 & Hs3).
  { unfold s3. case_match.
    - split; [apply evolves_propagate, E2|]. split; [done|]. split; [done|]. split; [apply grows_propagate|].
      intros Ha Hre Hdd. exfalso. rewrite Ha, Hre, Hdd, Z.sub_diag in *. done.
    - split; [apply evolves_refl, E2|]. split; [done|]. split; [done|]. split; [apply grows_refl|done]. }
  set (s4 := upd s3 id _). pose proof (evolves_force s3 id (fl_force_aof c) (fl_force_repl c) (ev_wf _ _ _ E3)) as E4. fold s4 in E4.
  destruct (propagate_all_spec st also s4 (ev_wf _ _ _ E4)) as (E5 & Ec5 & Ed5 & G5).
  set (s5 := foldl _ s4 also) in *. assert (evolves Nothing s5 (add_numcommands s5)) as E6 by (apply evolves_same; [apply E5|done..]).
  eexists. split; [done|]. split; [|split].
  - eapply evolves_trans; [apply evolves_weaken, E1|]. eapply evolves_trans; [exact E2|]. apply evolves_weaken.
    eapply evolves_trans; [exact E3|]. eapply evolves_trans; [exact E4|]. by eapply evolves_trans.
  - eapply (grows_trans _ s2); [exact G2|]. eapply (grows_trans _ s3); [exact G3|]. exact G5.
  - intros Hqk. destruct (Hq Hqk) as ([Km Ks Kc] & [Hbc Hbq] & Hsil). exists (set_force c2 (fl_force_aof c) (fl_force_repl c)).
    split; [cbn [clients add_numcommands]; rewrite Ec5; unfold s4; by rewrite get_upd, decide_True, Ec3, Hc2|]. split; [by split|]. split; [done|].
    split; cbn [dirty repl_fed add_numcommands]; rewrite Ed5; change (dirty s4) with (dirty s3); rewrite Ed3; [exact Hbc|].
    intros Hqu. destruct (Hbq Hqu) as (Hd & l & Hl & Hfl). split; [exact Hd|]. exists l. split; [|done].
    destruct (Hsil Hqu) as [[Hfa Hfr] ->]. cbn [foldl s5 s4 repl_fed upd with_clients]. by rewrite Hs3.
Qed.
End commands.

Section transactions.
Context {V R : Type} `{Commands V R}.
Implicit Types (s : server V R) (c : client).

(** ** EXEC *)

Lemma Forall_set_nth {A} (P : A → Prop) n x l : P x → Forall P l → Forall P (set_nth n x l).
Proof. intros Hx Hl. revert n. induction Hl as [|y l Hy Hl IH]; intros [|n]; cbn [set_nth]; [done..|by constructor|constructor; auto]. Qed.

Definition writes (mc : multiCmd) : bool := negb (cmd_readonly (mc_cmd mc)).

(** The commands of a queue of which the propagation is simple: none takes back
    changes, and the read only ones neither count changes nor ask to be
    propagated. *)
Definition plain_queue (q : list multiCmd) : Prop :=
  Forall (λ mc, counting (V := V) (R := R) (mc_cmd mc) ∧ (writes mc = false → quiet (V := V) (R := R) (mc_cmd mc))) q.
(** An entry of the stream that a read only command of the queue feeds. *)
Definition fed_by_reads (q : list multiCmd) (e : Z * list text) : Prop :=
  ∃ mc, mc ∈ q ∧ writes mc = false ∧ fed_by (V := V) (R := R) (mc_cmd mc) e.

Lemma evolves_cmd s id k a : wf s → evolves Nothing s (upd s id (λ c, set_cmd c k a)).
Proof. intros W. apply evolves_upd; [done|done|]. intros c _ []. by split. Qed.

(** What the stream gets of a transaction: what the read only commands feed before
    the first other command, MULTI, and what follows. *)
Definition block (began : bool) (q : list multiCmd) (l : list (Z * list text)) : Prop :=
  began = false →
  if existsb writes q then ∃ pre d mid, l = pre ++ (d, [multi_text]) :: mid ∧ Forall (fed_by_reads q) pre
  else Forall (fed_by_reads q) l.

Lemma fed_by_reads_cons mc q l : Forall (fed_by_reads q) l → Forall (fed_by_reads (mc :: q)) l.
Proof. intros Hl. eapply Forall_impl; [exact Hl|]. intros e (x & Hx & Hw). exists x. split; [by right|done]. Qed.

Lemma exec_loop_spec st todo : ∀ j s id c must,
  wf s → clients s !! id = Some c → Forall queueable todo →
  ∃ s' l, exec_loop st todo j s id must = Some (s', must || existsb writes todo) ∧ evolves (Transaction id) s s' ∧
    repl_fed s' = repl_fed s ++ l ∧ (∃ c', clients s' !! id = Some c' ∧ same_force c c') ∧
    (plain_queue todo → dirty s ≤ dirty s' ∧ (existsb writes todo = false → dirty s' = dirty s) ∧ block must todo l).
Proof.
  induction todo as [|mc todo IH]; intros j s id c must W Hc Hq; cbn [exec_loop existsb].
  - exists s, []. rewrite orb_false_r, app_nil_r. split; [done|]. split; [by apply evolves_refl|]. split; [done|]. split; [by exists c|].
    intros _. split; [done|]. split; [done|]. intros _. apply Forall_nil_2.
  - apply Forall_cons in Hq as [Hmc Hq]. set (s1 := upd s id _).
    pose proof (evolves_cmd s id (Some (mc_cmd mc)) (mc_argv mc) W) as E1. fold s1 in E1.
    assert (clients s1 !! id = Some (set_cmd c (Some (mc_cmd mc)) (mc_argv mc))) as Hc1 by (unfold s1; by rewrite get_upd, decide_True, Hc).
    unfold get. rewrite Hc1. cbn [mbind option_bind]. fold (writes mc). set (start := negb must && writes mc).
    set (s2 := if start then _ else s1).
    assert (evolves Nothing s1 s2 ∧ clients s2 = clients s1 ∧ dirty s2 = dirty s1 ∧
      repl_fed s2 = repl_fed s1 ++ (if start then [(db c, [multi_text])] else [])) as (E2 & Ec2 & Ed2 & Er2).
    { unfold s2. destruct start; [|split; [apply evolves_refl, E1|]; by rewrite app_nil_r]. split; [apply evolves_propagate, E1|]. done. }
    assert (cmd_proc (mc_cmd mc) = P_exec → exec_ok (V := V) (R := R) no_exec id) as Hne by (intros Hx; by destruct Hmc).
    destruct (call_spec no_exec st s2 id (set_cmd c (Some (mc_cmd mc)) (mc_argv mc)) (mc_cmd mc) (ev_wf _ _ _ E2)) as (s3 & -> & E3 & [l3 Er3] & H3);
      [by rewrite Ec2|done|done|].
    destruct (H3 Hmc) as (c3 & Hc3 & [Km Ks Kc] & [Hfa Hfr] & Bd). cbn [mbind option_bind]. rewrite Hc3. cbn [mbind option_bind].
    rewrite Kc. cbn [cmd set_cmd mbind option_bind]. set (g := λ c : client, set_mstate c (set_nth j (MultiCmd (mc_cmd mc) (argv c)) (mstate c))).
    assert (evolves Nothing s3 (upd s3 id g)) as E4.
    { apply evolves_upd; [apply E3|done|]. intros c0 _ [Hn Hqq Hi]. split; [done| |].
      - cbn [g mstate set_mstate]. by apply Forall_set_nth.
      - intros Hm. cbn [g fl_multi mstate set_mstate fl_dirty_exec] in *. destruct (Hi Hm) as [-> ?]. by destruct j. }
    destruct (IH (S j) (upd s3 id g) id (g c3) (must || start) (ev_wf _ _ _ E4)) as (s' & l & El & E5 & Hr & (c5 & Hc5 & [Hga Hgr]) & Hp);
      [by rewrite get_upd, decide_True, Hc3|done|]. cbn [dirty repl_fed upd with_clients] in *.
    exists s', ((if start then [(db c, [multi_text])] else []) ++ l3 ++ l).
    assert (must || start || existsb writes todo = must || (writes mc || existsb writes todo)) as Eb
      by (unfold start; destruct must, (writes mc); done).
    rewrite <-Eb. split; [exact El|]. split; [|split; [|split]].
    + eapply evolves_trans; [apply evolves_weaken, E1|]. eapply evolves_trans; [apply evolves_weaken, E2|].
      eapply evolves_trans; [|eapply evolves_trans; [apply evolves_weaken, E4|exact E5]].
      eapply evolves_within; [apply frees_within|exact E3].
    + rewrite Hr, Er3, Er2. cbn [repl_fed s1 upd with_clients]. by rewrite <-!(assoc_L (++)).
    + exists c5. split; [done|]. split; [rewrite Hga; exact Hfa|rewrite Hgr; exact Hfr].
    + intros [[Hcn Hqu] Hpl]%Forall_cons. destruct (Hp Hpl) as (Hd & Hd0 & Hb). destruct Bd as [Bc Bq]. specialize (Bc Hcn).
      rewrite Ed2 in Bc, Bq. change (dirty s1) with (dirty s) in Bc, Bq. split; [lia|].
      destruct (writes mc) eqn:Ew; cbn [orb] in *.
      * split; [done|]. intros ->. unfold start. cbn [negb andb existsb]. rewrite Ew. exists [], (db c), (l3 ++ l). split; [done|apply Forall_nil_2].
      * destruct (Bq (Hqu eq_refl)) as (Hd3 & l3' & El3 & Hf3). rewrite Er3 in El3. apply (inj (app _)) in El3. subst l3'.
        split; [intros Hw; rewrite Hd0 by done; exact Hd3|]. intros ->. unfold start in *. cbn [negb andb orb app existsb] in *. rewrite Ew. cbn [orb].
        specialize (Hb eq_refl).
        assert (Forall (fed_by_reads (mc :: todo)) l3) as Hf3' by (eapply Forall_impl; [exact Hf3|]; intros e He; exists mc; split; [by left|done]).
        destruct (existsb writes todo).
        -- destruct Hb as (pre & d & mid & -> & Hpre). exists (l3 ++ pre), d, mid. split; [by rewrite (assoc_L (++))|].
           apply Forall_app. split; [done|by apply fed_by_reads_cons].
        -- apply Forall_app. split; [done|by apply fed_by_reads_cons].
Qed.

(** Why EXEC does not run the queue. *)
Definition refusal c : answer :=
  if negb (fl_multi c) then RError "EXEC without MULTI" else if fl_dirty_exec c then RExecAbort else RNullMultiBulk.
Definition runs c : bool := fl_multi c && negb (fl_dirty_cas c || fl_dirty_exec c).

Lemma execCommand_refuses st s id c :
  wf s → clients s !! id = Some c → runs c = false →
  ∃ s' c', execCommand st s id = Some s' ∧ evolves (Transaction id) s s' ∧ same_data s s' ∧ clients s' !! id = Some c' ∧
    out c' = out c ++ [refusal c] ∧ (fl_multi c = true → c' = discarded (add_out c [refusal c])).
Proof.
  intros W Hc Hr. unfold execCommand, get, refusal, runs in *. rewrite Hc. cbn [mbind option_bind].
  destruct (fl_multi c); cbn [negb andb] in *.
  - apply negb_false_iff in Hr. rewrite Hr. set (a := if fl_dirty_exec c then _ else _).
    pose proof (evolves_out s id [a] W) as E1. pose proof (get_out s id [a] c Hc) as Hc1.
    destruct (discardTransaction_spec _ id _ (ev_wf _ _ _ E1) Hc1) as (s' & -> & E2 & Hc' & Sd).
    eexists s', _. split; [done|]. split; [eapply evolves_trans; [apply evolves_weaken, E1|exact E2]|]. split; [by destruct Sd|].
    split; [exact Hc'|]. done.
  - eexists _, _. split; [done|]. split; [by apply evolves_weaken, evolves_out|]. split; [done|].
    split; [by apply get_out|]. done.
Qed.

(** The server when the queue begins to run: the client watches nothing and the
    length of the answer is written. *)
Definition begun s s1 id c : Prop :=
  same_data s s1 ∧ clients s1 !! id = Some (add_out (set_watched c []) [RMultiBulkLen (Z.of_nat (length (mstate c)))]).

Lemma execCommand_runs st s id c :
  wf s → clients s !! id = Some c → runs c = true →
  ∃ s1 s2 b s' l, begun s s1 id c ∧ exec_loop st (mstate c) 0 s1 id false = Some (s2, b) ∧ dbs s' = dbs s2 ∧
    execCommand st s id = Some s' ∧ evolves (Transaction id) s s' ∧ repl_fed s' = repl_fed s ++ l ∧
    (plain_queue (mstate c) → (existsb writes (mstate c) = false → dirty s' = dirty s) ∧
      (existsb writes (mstate c) = true → dirty s < dirty s') ∧ block false (mstate c) l) ∧
    ∃ c', clients s' !! id = Some c' ∧ fl_multi c' = false ∧ watched_keys c' = [] ∧ mstate c' = [] ∧ argv c' = argv c ∧ same_force c c'.
Proof.
  intros W Hc [Hm Hr%negb_true_iff]%andb_true_iff. unfold execCommand, get. rewrite Hc. cbn [mbind option_bind]. rewrite Hm, Hr. cbn [negb].
  destruct (unwatchAllKeys_spec s id c W Hc) as (s1 & -> & E1 & Hc1 & S1). cbn [mbind option_bind].
  set (a := [RMultiBulkLen _]). pose proof (evolves_out s1 id a (ev_wf _ _ _ E1)) as E2. pose proof (get_out s1 id a _ Hc1) as Hc2.
  set (s1' := upd s1 id _) in *.
  destruct (exec_loop_spec st (mstate c) 0 s1' id _ false (ev_wf _ _ _ E2) Hc2) as (s3 & l & El & E3 & Hrl & (c3 & Hc3 & Hsf) & Hp).
  { by eapply wf_clients. }
  cbn [orb] in El. rewrite El. cbn [mbind option_bind].
  pose proof (evolves_cmd s3 id (cmd c) (argv c) (ev_wf _ _ _ E3)) as E4.
  assert (clients (upd s3 id (λ c', set_cmd c' (cmd c) (argv c))) !! id = Some (set_cmd c3 (cmd c) (argv c))) as Hc4
    by (by rewrite get_upd, decide_True, Hc3).
  destruct (discardTransaction_spec _ id _ (ev_wf _ _ _ E4) Hc4) as (s5 & -> & E5 & Hc5 & [D5 N5 R5 _ _ _]). cbn [mbind option_bind].
  cbn [dbs dirty repl_fed upd with_clients] in D5, N5, R5.
  assert (evolves (Transaction id) s s5) as E6.
  { eapply evolves_trans; [apply evolves_txn, E1|]. eapply evolves_trans; [apply evolves_weaken, E2|]. eapply evolves_trans; [exact E3|].
    eapply evolves_trans; [apply evolves_weaken, E4|exact E5]. }
  set (b := existsb writes (mstate c)) in *. set (s' := if b then add_dirty s5 1 else s5).
  assert (dirty s' = dirty s3 + (if b then 1 else 0)) as Hds by (unfold s'; destruct b; cbn; lia).
  exists s1', s3, b, s', l. split; [split; [by destruct S1|exact Hc2]|]. split; [done|]. split; [by unfold s'; destruct b|]. split; [done|].
  split; [|split; [|split]].
  - eapply evolves_trans; [exact E6|]. apply evolves_weaken. unfold s'. destruct b; [|apply evolves_refl, E6]. apply evolves_same; [apply E6|done..].
  - transitivity (repl_fed s5); [by unfold s'; destruct b|]. rewrite R5, Hrl. by rewrite <-(sd_repl _ _ S1).
  - intros Hpl. destruct (Hp Hpl) as (Hd & Hd0 & Hb). change (dirty s1') with (dirty s1) in Hd, Hd0. rewrite (sd_dirty _ _ S1) in Hd, Hd0.
    rewrite Hds. split; [intros Hw; rewrite Hd0 by done; rewrite Hw; lia|]. split; [intros ->; lia|done].
  - exists (discarded (set_cmd c3 (cmd c) (argv c))). split; [by unfold s'; destruct b|]. done.
Qed.

Lemma execCommand_ok st id : exec_ok (V := V) (R := R) (execCommand st) id.
Proof.
  intros s c W Hc. destruct (runs c) eqn:Er.
  - destruct (execCommand_runs st s id c W Hc Er) as (_ & _ & _ & s' & l & _ & _ & _ & -> & Ev & Hr & _). exists s'. split; [done|]. split; [done|]. by exists l.
  - destruct (execCommand_refuses st s id c W Hc Er) as (s' & c' & -> & Ev & Sd & _). exists s'. split; [done|]. split; [done|]. by apply grows_data.
Qed.
End transactions.

Section requests.
Context {V R : Type} `{Commands V R}.
Implicit Types (s : server V R) (c : client).

(** ** Requests *)

Lemma evolves_flag s id : wf s → evolves Nothing s (flagTransaction s id).
Proof.
  intros W. apply evolves_upd; [done| |].
  - intros c. by case_match.
  - intros c _ [Hn Hq Hi]. destruct (fl_multi c) eqn:Em; [by split|]. split; [done|done|]. by rewrite Em.
Qed.

(** The verdict on a request: an error, which dooms the transaction of its client
    if [flag]; to be queued; or to be executed. *)
Inductive verdict := VReject (flag : bool) (a : answer) | VQueue | VCall.

(** What a verdict does. *)
Definition act (st : status) s (id : positive) (v : verdict) : option (server V R * bool) :=
  match v with
  | VReject flag a => reject s id flag a
  | VQueue => s ← queueMultiCommand s id; Some (upd s id (λ c, add_out c [RQueued]), true)
  | VCall => s ← call (execCommand st) st s id; Some (serve_blocked st s, true)
  end.

(** The answers that do not doom a transaction. *)
Definition unflagged (a : answer) : Prop :=
  a = RReadOnly ∨ a = RLoading ∨ a = RError "only (P)SUBSCRIBE / (P)UNSUBSCRIBE / QUIT allowed in this context".

Definition queued_proc (p : proc) : Prop := p ≠ P_exec ∧ p ≠ P_discard ∧ p ≠ P_multi ∧ p ≠ P_watch.
#[global] Instance queued_proc_dec p : Decision (queued_proc p).
Proof. unfold queued_proc. apply _. Defined.

Definition verdict_ok c (k : option redisCommand) (v : verdict) : Prop :=
  match v with
  | VReject flag a => flag = false → unflagged a
  | VQueue => fl_multi c = true ∧ ∃ k0, k = Some k0 ∧ queued_proc (cmd_proc k0)
  | VCall => ∃ k0, k = Some k0 ∧ (fl_multi c = true → ¬ queued_proc (cmd_proc k0))
  end.

Lemma evict_frame st keys : ∀ s, clients (run_ksteps st s (keys ≫= evict)) = clients s.
Proof.
  induction keys as [|k keys IH]; intros s; [done|]. rewrite bind_cons. unfold run_ksteps. rewrite foldl_app. exact (IH _).
Qed.

Lemma not_is_proc k p : negb (is_proc k p) = true ↔ cmd_proc k ≠ p.
Proof. unfold is_proc. by rewrite negb_true_iff, bool_decide_eq_false. Qed.

Lemma evolves_lookup s id k : wf s → evolves Nothing s (upd s id (λ c, set_cmd c k (argv c))).
Proof. intros W. apply evolves_upd; [done|done|]. intros c _ []. by split. Qed.

(** The state in which the verdict is carried out: the request has been looked up
    and memory may have been freed. *)
Lemma processCommand_verdict st s id c name :
  wf s → clients s !! id = Some c → head (argv c) = Some name → strcasecmp_eq (c_text name) (ascii_text "quit") = false →
  ∃ s2 v, processCommand st s id = act st s2 id v ∧ evolves Nothing s s2 ∧
    clients s2 !! id = Some (set_cmd c (lookupCommand name) (argv c)) ∧ verdict_ok c (lookupCommand name) v.
Proof.
  intros W Hc Hn Hq. unfold processCommand, get. rewrite Hc. cbn [mbind option_bind]. rewrite Hn. cbn [mbind option_bind]. rewrite Hq.
  set (s1 := upd s id _). pose proof (evolves_lookup s id (lookupCommand name) W) as E1. fold s1 in E1.
  assert (clients s1 !! id = Some (set_cmd c (lookupCommand name) (argv c))) as Hc1 by (unfold s1; by rewrite get_upd, decide_True, Hc).
  destruct (lookupCommand name) as [k|]; [|by exists s1, (VReject true (RError "unknown command"))].
  destruct (_ || _). { by exists s1, (VReject true (RError "wrong number of arguments")). }
  destruct (requirepass st && _ && _). { by exists s1, (VReject true RNoAuth). }
  assert (∃ s2 oom, (if maxmemory st then
      let '(evicted, r, ok) := freeMemoryIfNeeded (dbs s1) (rest s1) in
      (with_rest (run_ksteps st s1 (evicted ≫= evict)) r, cmd_denyoom k && negb ok) else (s1, false)) = (s2, oom) ∧
    evolves Nothing s s2 ∧ clients s2 = clients s1) as (s2 & oom & -> & E2 & Ec).
  { destruct (maxmemory st); [|by exists s1, false].
    destruct (freeMemoryIfNeeded (dbs s1) (rest s1)) as [[evicted r] ok]. eexists _, _. split; [done|].
    split; [|by cbn [clients with_rest]; apply evict_frame]. eapply evolves_trans; [exact E1|].
    pose proof (evolves_ksteps st (evicted ≫= evict) s1 (ev_wf _ _ _ E1)) as E. eapply evolves_trans; [exact E|].
    apply evolves_same; [apply E|done..]. }
  rewrite <-Ec in Hc1. exists s2. cbv beta iota.
  destruct oom. { by exists (VReject true ROom). }
  destruct (write_failing st && _ && _). { by eexists (VReject true _). }
  destruct (negb (is_slave st) && _ && _). { by exists (VReject true RNoReplicas). }
  destruct (is_slave st && _ && _ && _). { exists (VReject false RReadOnly). split; [done|]. split; [done|]. split; [done|]. intros _. by left. }
  destruct (_ && negb (is_proc k P_punsubscribe)).
  { eexists (VReject false _). split; [done|]. split; [done|]. split; [done|]. intros _. by right; right. }
  destruct (master_link_down st && _). { by exists (VReject true RMasterDown). }
  destruct (loading st && _). { exists (VReject false RLoading). split; [done|]. split; [done|]. split; [done|]. intros _. by right; left. }
  destruct (lua_timedout st && _ && _ && _ && _). { by exists (VReject true RSlowScript). }
  destruct (fl_multi c && _ && _ && _ && _) eqn:Eq.
  - exists VQueue. split; [done|]. split; [done|]. split; [done|]. rewrite !andb_true_iff, !not_is_proc in Eq.
    destruct Eq as ((((Hm & H1) & H2) & H3) & H4). split; [done|]. by exists k.
  - exists VCall. split; [done|]. split; [done|]. split; [done|]. exists k. split; [done|]. intros Hm (H1 & H2 & H3 & H4). rewrite Hm in Eq.
    apply not_is_proc in H1, H2, H3, H4. rewrite H1, H2, H3, H4 in Eq. done.
Qed.

Lemma queueMultiCommand_spec s id c k :
  wf s → clients s !! id = Some c → fl_multi c = true → cmd c = Some k → queued_proc (cmd_proc k) →
  ∃ s', queueMultiCommand s id = Some s' ∧ evolves Nothing s s' ∧
    clients s' !! id = Some (set_mstate c (mstate c ++ [MultiCmd k (argv c)])).
Proof.
  intros W Hc Hm Hk Hq. unfold queueMultiCommand, get. rewrite Hc. cbn [mbind option_bind]. rewrite Hk. cbn [mbind option_bind].
  eexists. split; [done|]. split; [|by rewrite get_upd, decide_True, Hc].
  apply evolves_upd; [done|done|]. intros c0 Hc0 [Hn Hqq Hi]. rewrite Hc in Hc0. injection Hc0 as <-. split; [done| |].
  - cbn [mstate set_mstate]. apply Forall_app. split; [done|]. by apply Forall_singleton.
  - cbn [fl_multi set_mstate]. by rewrite Hm.
Qed.

Lemma evolves_serve st s : wf s → evolves Nothing s (serve_blocked st s).
Proof.
  intros W. unfold serve_blocked. destruct (ready_keys (rest s)); [|by apply evolves_refl].
  destruct (handleClientsBlockedOnLists (dbs s) (rest s)) as [steps r]. pose proof (evolves_ksteps st steps s W) as E.
  eapply evolves_trans; [exact E|]. apply evolves_same; [apply E|done..].
Qed.

(** What a verdict may end. *)
Definition freed (k : option redisCommand) (id : positive) : ends := match k with Some k => frees k id | None => Nothing end.

Lemma act_spec st s id c v :
  wf s → clients s !! id = Some c → verdict_ok c (cmd c) v →
  ∃ s' b, act st s id v = Some (s', b) ∧ evolves (freed (cmd c) id) s s'.
Proof.
  intros W Hc Hv. destruct v as [flag a| |]; cbn [act verdict_ok] in *.
  - unfold reject. eexists _, true. split; [done|]. apply evolves_weaken. destruct flag; [|by apply evolves_out].
    eapply evolves_trans; [by apply evolves_flag|]. apply evolves_out. by apply (evolves_flag s id).
  - destruct Hv as (Hm & k & Hk & Hq). destruct (queueMultiCommand_spec s id c k W Hc Hm Hk Hq) as (s1 & -> & E1 & _).
    cbn [mbind option_bind]. eexists _, true. split; [done|].
    apply evolves_weaken. eapply evolves_trans; [exact E1|]. apply evolves_out, E1.
  - destruct Hv as (k & Hk & _). rewrite Hk. destruct (call_spec (execCommand st) st s id c k W Hc Hk) as (s' & -> & Ev & _);
      [intros _; apply execCommand_ok|]. cbn [mbind option_bind]. eexists _, true. split; [done|].
    eapply evolves_trans; [exact Ev|]. apply evolves_weaken, evolves_serve, Ev.
Qed.

Lemma processCommand_quit st s id c name :
  clients s !! id = Some c → head (argv c) = Some name → strcasecmp_eq (c_text name) (ascii_text "quit") = true →
  processCommand st s id = Some (upd s id (λ c, set_close (add_out c [ROk])), false).
Proof. intros Hc Hn Hq. unfold processCommand, get. rewrite Hc. cbn [mbind option_bind]. rewrite Hn. cbn [mbind option_bind]. by rewrite Hq. Qed.

(** What a request of a client may end. *)
Definition request_ends (id : positive) (name : text) : ends := freed (lookupCommand name) id.

Lemma processCommand_spec st s id c name :
  wf s → clients s !! id = Some c → head (argv c) = Some name →
  ∃ s' b, processCommand st s id = Some (s', b) ∧ evolves (request_ends id name) s s'.
Proof.
  intros W Hc Hn. destruct (strcasecmp_eq (c_text name) (ascii_text "quit")) eqn:Eq.
  - rewrite (processCommand_quit st s id c name) by done. eexists _, false. split; [done|].
    apply evolves_weaken, evolves_upd; [done|done|]. intros c0 _ []. by split.
  - destruct (processCommand_verdict st s id c name W Hc Hn Eq) as (s2 & v & -> & E2 & Hc2 & Hv).
    destruct (act_spec st s2 id _ v (ev_wf _ _ _ E2) Hc2) as (s' & b & -> & E3).
    { destruct v; cbn [verdict_ok cmd set_cmd fl_multi] in *; done. }
    exists s', b. split; [done|]. eapply evolves_trans; [apply evolves_weaken, E2|exact E3].
Qed.
End requests.

Section histories.
Context {V R : Type} `{Commands V R}.
Implicit Types (s : server V R) (c : client).

(** ** Steps of the server *)

Definition event_ok s (ev : event (V := V) (R := R)) : Prop :=
  match ev with
  | ERequest _ id args => is_Some (clients s !! id) ∧ args ≠ []
  | ECreate id => clients s !! id = None
  | EFree id => is_Some (clients s !! id)
  | ECron _ _ _ => True
  end.
(** The event is not EXEC or DISCARD of the client, nor its end. *)
Definition spares (id : positive) (ev : event (V := V) (R := R)) : Prop :=
  match ev with
  | ERequest _ i args => ∀ name, head args = Some name → request_ends i name ≠ Transaction id
  | EFree i => i ≠ id
  | _ => True
  end.
(** Nor is it its WATCH or UNWATCH. *)
Definition keeps_watching (id : positive) (ev : event (V := V) (R := R)) : Prop :=
  match ev with
  | ERequest _ i args => ∀ name, head args = Some name → ¬ ends_watch (request_ends i name) id
  | EFree i => i ≠ id
  | _ => True
  end.

Lemma wf_createClient s id : wf s → clients s !! id = None → wf (with_clients s (<[id := createClient false]> (clients s))).
Proof.
  intros W Hi. split; cbn [clients watchers with_clients].
  - intros i c. destruct (decide (i = id)) as [->|Hne]; [rewrite lookup_insert_eq; intros [= <-]|rewrite lookup_insert_ne by done; apply W].
    split; [apply NoDup_nil_2|apply Forall_nil_2|done].
  - apply W.
  - intros wk i. rewrite (wf_both _ W wk i). destruct (decide (i = id)) as [->|Hne].
    + rewrite lookup_insert_eq, Hi. split; [by intros (? & ? & _)|]. intros (c & [= <-] & Hin). by apply not_elem_of_nil in Hin.
    + by rewrite lookup_insert_ne.
Qed.

Lemma wf_free s id c : wf s → clients s !! id = Some c → watched_keys c = [] → wf (with_clients s (delete id (clients s))).
Proof.
  intros W Hc Hk. split; cbn [clients watchers with_clients].
  - intros i c0 [_ Hi]%lookup_delete_Some. by eapply W.
  - apply W.
  - intros wk i. rewrite (wf_both _ W wk i). destruct (decide (i = id)) as [->|Hne].
    + rewrite lookup_delete_eq, Hc. split; [|by intros (? & ? & _)]. intros (c0 & [= <-] & Hin). rewrite Hk in Hin. by apply not_elem_of_nil in Hin.
    + by rewrite lookup_delete_ne.
Qed.

(** What an event, or several, leave to be relied on. *)
Record progress (keeps txn : positive → Prop) s s' : Prop := Progress {
  pr_wf : wf s';
  pr_history : ∃ l, history s' = history s ++ l ∧ (∀ wk, Wrote wk ∉ l → dbs s' !! wk = dbs s !! wk) ∧
    ∀ id c, keeps id → clients s !! id = Some c → told l id c s';
  pr_doomed : ∀ id, txn id → doomed id s → doomed id s'
}.
Lemma progress_evolves (keeps txn : positive → Prop) e s s' :
  (∀ id, keeps id → ¬ ends_watch e id) → (∀ id, txn id → e ≠ Transaction id) → evolves e s s' → progress keeps txn s s'.
Proof.
  intros Hk Ht [W _ (l & [A1 A2 A3]) D]. split; [done| |auto]. exists l. split; [done|]. split; [done|]. intros id c Hi. apply A3. auto.
Qed.
Lemma advances_trans k1 k2 t1 t2 s1 s2 s3 :
  progress k1 t1 s1 s2 → progress k2 t2 s2 s3 → progress (λ id, k1 id ∧ k2 id) (λ id, t1 id ∧ t2 id) s1 s3.
Proof.
  intros [W1 (l1 & H1 & D1 & T1) X1] [W2 (l2 & H2 & D2 & T2) X2]. split; [done| |intros id []; auto].
  exists (l1 ++ l2). split; [by rewrite H2, H1, (assoc_L (++))|]. split; [intros wk Hwk; rewrite D2, D1; [done|set_solver..]|].
  intros id c [Hk1 Hk2] Hc. eapply told_trans; [by apply T1|]. intros c1. by apply T2.
Qed.

Lemma step_spec s ev :
  wf s → event_ok s ev → ∃ s', step s ev = Some s' ∧ progress (λ id, keeps_watching id ev) (λ id, spares id ev) s s'.
Proof.
  intros W Hok. destruct ev as [st id args|id|id|st steps r]; cbn [step event_ok spares keeps_watching] in *.
  - destruct Hok as [[c Hc] Ha]. destruct args as [|name args]; [done|]. unfold get. rewrite Hc. cbn [mbind option_bind].
    set (s1 := upd s id _).
    assert (evolves Nothing s s1) as E1 by (apply evolves_upd; [done|done|]; intros c0 _ []; by split).
    assert (clients s1 !! id = Some (set_cmd c (cmd c) (name :: args))) as Hc1 by (unfold s1; by rewrite get_upd, decide_True, Hc).
    destruct (processCommand_spec st s1 id _ name (ev_wf _ _ _ E1) Hc1 eq_refl) as (s' & b & -> & E2).
    cbn [mbind option_bind]. exists s'. split; [done|].
    eapply progress_evolves; [| |eapply evolves_trans; [apply evolves_weaken, E1|exact E2]]; intros i Hi; by apply Hi.
  - rewrite bool_decide_false by (rewrite Hok; by intros [? ?]). eexists. split; [done|]. split; [by apply wf_createClient| |].
    + exists []. split; [by rewrite app_nil_r|]. split; [done|]. intros i c _ Hc. destruct (told_refl i c s Hc) as (c' & Hc' & Hd).
      exists c'. cbn [clients with_clients]. rewrite lookup_insert_ne by congruence. done.
    + intros i _ (c & Hc & Hg). exists c. cbn [clients with_clients]. rewrite lookup_insert_ne by congruence. done.
  - destruct Hok as [c Hc]. unfold freeClient. destruct (unwatchAllKeys_spec s id c W Hc) as (s1 & -> & E1 & Hc1 & Sd).
    cbn [mbind option_bind]. eexists. split; [done|]. split; [eapply wf_free; [apply E1|exact Hc1|done]| |].
    + destruct (ev_accounts _ _ _ E1) as (l & [A1 A2 A3]). exists l. split; [done|]. split; [done|]. intros i c0 Hi Hc0.
      destruct (A3 i c0) as (c' & Hc' & Hd); [intros [?|?]; congruence|done|]. exists c'. cbn [clients with_clients].
      by rewrite lookup_delete_ne.
    + intros i Hi Hx. destruct (ev_doomed _ _ _ E1 i) as (c' & Hc' & Hg'); [done|done|]. exists c'. cbn [clients with_clients].
      by rewrite lookup_delete_ne.
  - eexists. split; [done|]. pose proof (evolves_ksteps st steps s W) as E. eapply (progress_evolves _ _ Nothing);
      [by intros i _ [?|?]|done|]. eapply evolves_trans; [exact E|]. apply evolves_same; [apply E|done..].
Qed.

Lemma step_ok_inv s ev s' : step s ev = Some s' → event_ok s ev.
Proof.
  destruct ev as [st id args|id|id|st steps r]; cbn [step event_ok]; [| | |done].
  - unfold get. destruct (clients s !! id) as [c|] eqn:Hc; [|done]. cbn [mbind option_bind]. intros Hs. split; [done|]. intros ->.
    unfold processCommand, get in Hs. rewrite get_upd, decide_True, Hc in Hs by done. done.
  - case_bool_decide as Hs; [done|]. intros _. by apply eq_None_not_Some.
  - unfold freeClient, unwatchAllKeys, get. by destruct (clients s !! id).
Qed.

Lemma run_spec evs : ∀ s s', wf s → run s evs = Some s' →
  progress (λ id, Forall (keeps_watching id) evs) (λ id, Forall (spares id) evs) s s'.
Proof.
  induction evs as [|ev evs IH]; intros s s' W; cbn [run].
  - intros [= <-]. eapply (progress_evolves _ _ Nothing); [by intros i _ [?|?]|done|by apply evolves_refl].
  - destruct (step s ev) as [s1|] eqn:Es; [|done]. cbn [mbind option_bind]. intros Er.
    destruct (step_spec s ev W (step_ok_inv _ _ _ Es)) as (s1' & E1 & P1). rewrite Es in E1. injection E1 as <-.
    destruct (advances_trans _ _ _ _ _ _ _ P1 (IH s1 s' (pr_wf _ _ _ _ P1) Er)) as [W' (l & H1 & H2 & H3) D].
    split; [done| |].
    + exists l. split; [done|]. split; [done|]. intros id c Hall%Forall_cons. by apply H3.
    + intros id Hall%Forall_cons. by apply D.
Qed.

(** The server before the first client. *)
Definition start (d : keyspace V) (r : R) : server V R := Server ∅ ∅ d 0 [] [] 0 r [].
Lemma wf_start d r : wf (start d r).
Proof.
  split; cbn [start clients watchers]; [done|done|]. intros wk id. rewrite !lookup_empty. split; [by intros ?%not_elem_of_nil|by intros (? & ? & _)].
Qed.

(** C9. The bookkeeping of transactions: after any connections, requests,
    disconnections and steps of the server between them, whatever the other commands
    do, the tables of the databases and the lists of the clients name the same pairs
    of clients and watched keys, without repetition and without empty entries;
    outside of MULTI no command is queued and no error is remembered, and EXEC,
    DISCARD, MULTI and WATCH are never queued.  So every assertion of multi.c holds:
    whatever arrives next is carried out.  (A request has at least its name; CLIENT
    KILL is the request and then the end of the other client.) *)
Theorem transactions_well_formed d r evs s :
  run (start d r) evs = Some s →
  wf s ∧ ∀ ev, event_ok s ev → ∃ s', step s ev = Some s' ∧ wf s'.
Proof.
  intros Hr. pose proof (pr_wf _ _ _ _ (run_spec evs (start d r) s (wf_start d r) Hr)) as W. split; [done|].
  intros ev Hok. destruct (step_spec s ev W Hok) as (s' & Es & P). exists s'. split; [done|]. apply P.
Qed.

(** The keys that the client watches after a WATCH. *)
Definition watched_after c (wk : dbkey) : Prop := wk ∈ watched_keys c ∨ wk.1 = db c ∧ wk.2 ∈ tail (argv c).



(** C18. Errors while queueing: inside of MULTI, a command other than EXEC, DISCARD,
    MULTI, WATCH and QUIT is queued; or it is refused and the transaction doomed, so
    that whatever follows (but its EXEC, DISCARD or its end), whatever the other
    commands do, EXEC answers EXECABORT and changes nothing; or it is refused by one
    of three tests that do not doom the transaction, and is not queued: a read only
    slave, a server that loads its data, a client with subscriptions. *)
Theorem queueing_errors_abort st s id c name s1 b :
  wf s → clients s !! id = Some c → fl_multi c = true → head (argv c) = Some name →
  strcasecmp_eq (c_text name) (ascii_text "quit") = false → (∀ k, lookupCommand name = Some k → queued_proc (cmd_proc k)) →
  processCommand st s id = Some (s1, b) →
  ∃ c1 a, clients s1 !! id = Some c1 ∧ out c1 = out c ++ [a] ∧
    ((a = RQueued ∧ ∃ k, lookupCommand name = Some k ∧ mstate c1 = mstate c ++ [MultiCmd k (argv c)]) ∨
     (unflagged a ∧ mstate c1 = mstate c ∧ fl_dirty_exec c1 = fl_dirty_exec c) ∨
     (mstate c1 = mstate c ∧
      ∀ evs s2 st', Forall (spares id) evs → run s1 evs = Some s2 →
        ∃ s3 c2 c3, execCommand st' s2 id = Some s3 ∧ dbs s3 = dbs s2 ∧ repl_fed s3 = repl_fed s2 ∧
          clients s2 !! id = Some c2 ∧ clients s3 !! id = Some c3 ∧ out c3 = out c2 ++ [RExecAbort])).
Proof.
  intros W Hc Hm Hn Hq Hk Hp. destruct (processCommand_verdict st s id c name W Hc Hn Hq) as (s0 & v & E & Ev0 & Hc0 & Hv). rewrite Hp in E.
  set (k := lookupCommand name) in *. pose proof (ev_wf _ _ _ Ev0) as W0.
  set (c0 := set_cmd c k (argv c)) in *. destruct v as [flag a| |]; cbn [act verdict_ok] in *.
  - unfold reject in E. injection E as -> ->. destruct flag.
    + pose proof (evolves_flag s0 id W0) as E1.
      assert (clients (flagTransaction s0 id) !! id = Some (set_flags c0 true (fl_dirty_cas c0) true)) as Hc1.
      { unfold flagTransaction. rewrite get_upd, decide_True, Hc0 by done. cbn [fmap option_fmap option_map]. cbn [c0 set_cmd fl_multi]. by rewrite Hm. }
      pose proof (evolves_out _ id [a] (ev_wf _ _ _ E1)) as E2. pose proof (get_out _ id [a] _ Hc1) as Hc2.
      eexists _, a. split; [exact Hc2|]. split; [done|]. right; right. split; [done|]. intros evs s2 st' Hev Hr.
      destruct (run_spec evs _ s2 (ev_wf _ _ _ E2) Hr) as [W2 _ Do].
      destruct (Do id Hev) as (c2 & Hc2' & Hm2 & Hx2); [by eexists|].
      destruct (execCommand_refuses st' s2 id c2 W2 Hc2') as (s3 & c3 & E3 & _ & [] & Hc3 & Ho & _).
      { unfold runs. by rewrite Hm2, Hx2, orb_true_r. }
      exists s3, c2, c3. split; [done|]. split; [done|]. split; [done|]. split; [done|]. split; [done|].
      rewrite Ho. unfold refusal. by rewrite Hm2, Hx2.
    + eexists _, a. split; [by apply get_out|]. split; [done|]. right; left. split; [by apply Hv|done].
  - destruct Hv as (_ & k0 & Ek & Hqk). rewrite Ek in *.
    destruct (queueMultiCommand_spec s0 id c0 k0 W0 Hc0) as (sq & Eq & _ & Hcq); [done|done|done|]. rewrite Eq in E. cbn [mbind option_bind] in E.
    injection E as -> ->. eexists _, RQueued. split; [by apply get_out|]. split; [done|]. left. split; [done|]. by exists k0.
  - destruct Hv as (k0 & Ek & Hnq). exfalso. by apply Hnq, Hk.
Qed.
End histories.

(** ** Concrete instances

    A table of commands: those of multi.c, GET, SET and SAVE.  The rest of the
    server are the keys that have expired: GET of such a key propagates a DEL and
    deletes it.  The clients that wait are told nothing, and nothing is evicted. *)

Definition plain (s : string) (p : proc) (arity : Z) (write : bool) : redisCommand :=
  RedisCommand (ascii_text s) p arity write (negb write) write false false.
Definition demo_table : list redisCommand :=
  [plain "multi" P_multi 1 false; RedisCommand (ascii_text "exec") P_exec 1 false false false false false;
   plain "discard" P_discard 1 false; plain "watch" P_watch (-2) false; plain "unwatch" P_unwatch 1 false;
   plain "get" (P_other (ascii_text "get")) 2 false; plain "set" (P_other (ascii_text "set")) 3 true;
   plain "save" (P_other (ascii_text "save")) 1 false].
Definition demo_lookup (name : text) : option redisCommand :=
  head (filter (λ k, cmd_name k = name) demo_table).
Definition demo_steps (k : redisCommand) (args : list text) (dbid : Z) (r : list dbkey) : list (kstep text) :=
  if bool_decide (cmd_name k = ascii_text "set") then
    match args with [_; key; v] => [KWrite (dbid, key) (Some v); KSignal (dbid, key); KDirty 1] | _ => [] end
  else if bool_decide (cmd_name k = ascii_text "save") then [KDirtyReset]
  else if bool_decide (cmd_name k = ascii_text "get") then
    match args with [_; key] => if bool_decide ((dbid, key) ∈ r) then evict (dbid, key) else [] | _ => [] end
  else [].
Definition demo_run (k : redisCommand) (args : list text) (c : client) (d : keyspace text) (r : list dbkey) : effect text (list dbkey) :=
  let shown :=
    match args with
    | [_; key] => if bool_decide (cmd_name k = ascii_text "get" ∧ (db c, key) ∉ r) then [default [] (d !! (db c, key))] else []
    | _ => []
    end in
  Effect (demo_steps k args (db c) r) r (db c) (authenticated c) (subscriptions c) false false args [] shown.
#[global] Instance demo_commands : Commands text (list dbkey) :=
  Build_Commands text (list dbkey) demo_lookup demo_run (λ d r, ([], r, true)) (λ r, false) (λ d r, ([], r)).
Abbreviation demo := (server text (list (Z * list Z))).

Definition demo_status (slave : bool) : status := Status false false false 0 true true slave true 0 0 0 true true false false true.
Definition req (id : positive) (l : list string) : event (V := text) (R := list dbkey) :=
  ERequest (demo_status false) id (ascii_text <$> l).

(** Client 2 changes the key that client 1 watches. *)
Definition demo_history : list event :=
  [ECreate 1; ECreate 2; req 1 ["watch"; "k"]%string; req 1 ["multi"]%string; req 1 ["get"; "k"]%string;
   req 2 ["set"; "k"; "v"]%string; req 1 ["exec"]%string; EFree 2].

Definition demo_out (s : demo) (id : positive) : list answer := default [] (out <$> clients s !! id).

Lemma transactions_well_formed_witness :
  ∃ s : demo, run (start ∅ []) demo_history = Some s ∧ demo_out s 1 = [ROk; ROk; RQueued; RNullMultiBulk] ∧ wf s.
Proof.
  destruct (run (start ∅ []) demo_history) as [s|] eqn:Er; [|by vm_compute in Er].
  exists s. split; [reflexivity|]. split.
  - enough (default [] (s ← run (start ∅ []) demo_history; Some (demo_out s 1)) = [ROk; ROk; RQueued; RNullMultiBulk]) as Hx
      by (rewrite Er in Hx; exact Hx). by vm_compute.
  - exact (proj1 (transactions_well_formed ∅ [] demo_history s Er)).
Defined.

(** Client 1, connected alone, with a request in its arguments. *)
Definition demo_server (args : list string) (c : client) (changes : Z) (r : list dbkey) : demo :=
  Server {[1%positive := set_cmd c (head args ≫= λ n, demo_lookup (ascii_text n)) (ascii_text <$> args); 2%positive := createClient false]} ∅
    {[(0, ascii_text "k") := ascii_text "v"]} changes [] [] 0 r [].
Lemma demo_wf args c changes r : client_ok c → watched_keys c = [] → wf (demo_server args c changes r).
Proof.
  intros [Hn Hq Hi] Hw. split; cbn [clients watchers demo_server].
  - intros id c0. rewrite lookup_insert_Some, lookup_singleton_Some. intros [[<- <-]|(_ & <- & <-)]; [by split|].
    split; [apply NoDup_nil_2|apply Forall_nil_2|done].
  - done.
  - intros wk id. rewrite lookup_empty. split; [by intros ?%not_elem_of_nil|]. intros (c0 & Hc0 & Hin). exfalso.
    rewrite lookup_insert_Some, lookup_singleton_Some in Hc0. destruct Hc0 as [[<- <-]|(_ & <- & <-)].
    + cbn [watched_keys set_cmd] in Hin. rewrite Hw in Hin. by apply not_elem_of_nil in Hin.
    + by apply not_elem_of_nil in Hin.
Qed.
Lemma demo_client_ok b : client_ok (createClient b).
Proof. split; [apply NoDup_nil_2|apply Forall_nil_2|done]. Qed.

Definition demo_watching : demo := demo_server ["watch"; "k"]%string (createClient false) 0 [].
Definition demo_events : list event := [req 1 ["multi"]%string; req 2 ["set"; "x"; "y"]%string; req 1 ["set"; "k"; "w"]%string].


(** A queue of a GET and a SET. *)
Definition demo_queue : list multiCmd :=
  [MultiCmd (plain "get" (P_other (ascii_text "get")) 2 false) [ascii_text "get"; ascii_text "k"];
   MultiCmd (plain "set" (P_other (ascii_text "set")) 3 true) [ascii_text "set"; ascii_text "k"; ascii_text "w"]].
Definition in_multi (q : list multiCmd) : client := set_mstate (set_flags (createClient false) true false false) q.
Definition demo_multi : client := in_multi demo_queue.
Lemma demo_multi_ok : client_ok demo_multi.
Proof.
  split; [apply NoDup_nil_2| |done]. repeat (apply Forall_cons; split; [split_and!; discriminate|]). apply Forall_nil_2.
Qed.
(** The key has expired. *)
Definition demo_exec : demo := demo_server ["exec"]%string demo_multi 5 [(0, ascii_text "k")].

Lemma demo_plain_queue : plain_queue (V := text) (R := list dbkey) demo_queue.
Proof.
  apply Forall_cons. split; [split|apply Forall_cons; split; [split|apply Forall_nil_2]].
  - intros args c d r. cbn [run_command demo_commands demo_run e_steps].
    assert (demo_steps (mc_cmd (MultiCmd (plain "get" (P_other (ascii_text "get")) 2 false) [])) args (db c) r =
      match args with [_; key] => if bool_decide ((db c, key) ∈ r) then evict (db c, key) else [] | _ => [] end) as E by reflexivity.
    cbn [mc_cmd] in E |- *. rewrite E. destruct args as [|? [|? [|? ?]]]; try apply Forall_nil_2.
    case_bool_decide; [repeat (apply Forall_cons; split; [exact I|])|]; apply Forall_nil_2.
  - intros _ args c d r. cbv zeta. cbn [run_command demo_commands demo_run e_steps e_force_aof e_force_repl e_also]. split; [|done].
    assert (demo_steps (mc_cmd (MultiCmd (plain "get" (P_other (ascii_text "get")) 2 false) [])) args (db c) r =
      match args with [_; key] => if bool_decide ((db c, key) ∈ r) then evict (db c, key) else [] | _ => [] end) as E by reflexivity.
    cbn [mc_cmd] in E |- *. rewrite E. destruct args as [|? [|? [|? ?]]]; try apply Forall_nil_2.
    case_bool_decide; [repeat (apply Forall_cons; split; [exact I|])|]; apply Forall_nil_2.
  - intros args c d r. cbn [run_command demo_commands demo_run e_steps].
    assert (demo_steps (mc_cmd (MultiCmd (plain "set" (P_other (ascii_text "set")) 3 true) [])) args (db c) r =
      match args with [_; key; v] => [KWrite (db c, key) (Some v); KSignal (db c, key); KDirty 1] | _ => [] end) as E by reflexivity.
    cbn [mc_cmd] in E |- *. rewrite E. destruct args as [|? [|? [|? [|? ?]]]]; try apply Forall_nil_2.
    repeat (apply Forall_cons; split; [cbn; lia || exact I|]). apply Forall_nil_2.
  - discriminate.
Qed.


(** The stream of that transaction: the DEL comes before MULTI. *)
Lemma exec_of_expired_key :
  repl_fed <$> call (execCommand (demo_status false)) (demo_status false) demo_exec 1 =
  Some ((λ l : list string, (0, ascii_text <$> l)) <$> [["DEL"; "k"]; ["MULTI"]; ["set"; "k"; "w"]; ["exec"]]%string).
Proof. by vm_compute. Qed.

(** SAVE resets the count of changes inside of a transaction: with one change since
    the last save, MULTI is propagated and EXEC is not. *)
Definition save_cmd : multiCmd := MultiCmd (plain "save" (P_other (ascii_text "save")) 1 false) [ascii_text "save"].
Lemma save_loses_exec :
  repl_fed <$> call (execCommand (demo_status false)) (demo_status false)
    (demo_server ["exec"]%string (in_multi (demo_queue ++ [save_cmd])) 1 []) 1 =
  Some ((λ l : list string, (0, ascii_text <$> l)) <$> [["MULTI"]; ["set"; "k"; "w"]; ["save"]]%string).
Proof. by vm_compute. Qed.
(** And alone it makes an EXEC without MULTI. *)
Lemma save_exec_without_multi :
  repl_fed <$> call (execCommand (demo_status false)) (demo_status false) (demo_server ["exec"]%string (in_multi [save_cmd]) 1 []) 1 =
  Some ((λ l : list string, (0, ascii_text <$> l)) <$> [["save"]; ["exec"]]%string).
Proof. by vm_compute. Qed.

(** An unknown command in a transaction. *)
Definition demo_unknown : demo := demo_server ["nosuch"]%string demo_multi 0 [].

Lemma queueing_errors_abort_witness :
  ∃ s1 b c1 a, processCommand (demo_status false) demo_unknown 1 = Some (s1, b) ∧ clients s1 !! 1%positive = Some c1 ∧ out c1 = [a] ∧
    (mstate c1 = demo_queue ∧ ∀ evs s2 st', Forall (spares 1) evs → run s1 evs = Some s2 →
      ∃ s3 c2 c3, execCommand st' s2 1 = Some s3 ∧ dbs s3 = dbs s2 ∧ clients s2 !! 1%positive = Some c2 ∧
        clients s3 !! 1%positive = Some c3 ∧ out c3 = out c2 ++ [RExecAbort]).
Proof.
  destruct (processCommand (demo_status false) demo_unknown 1) as [[s1 b]|] eqn:E; [|by vm_compute in E].
  assert (∀ c1, clients s1 !! 1%positive = Some c1 → out c1 = [RError "unknown command"]) as Ho.
  { intros c1 Hc1. assert ((sb ← processCommand (demo_status false) demo_unknown 1; out <$> clients sb.1 !! 1%positive) = Some (out c1)) as Hx
      by (rewrite E; cbn [mbind option_bind fst]; rewrite Hc1; reflexivity).
    assert ((sb ← processCommand (demo_status false) demo_unknown 1; out <$> clients sb.1 !! 1%positive) = Some [RError "unknown command"]) as Hy by (by vm_compute).
    rewrite Hx in Hy. by injection Hy. }
  destruct (queueing_errors_abort (demo_status false) demo_unknown 1 (set_cmd demo_multi None [ascii_text "nosuch"]) (ascii_text "nosuch") s1 b)
    as (c1 & a & Hc1 & Ha & Hcase).
  - apply demo_wf; [apply demo_multi_ok|reflexivity].
  - reflexivity.
  - reflexivity.
  - reflexivity.
  - by vm_compute.
  - intros k Hk. by vm_compute in Hk.
  - exact E.
  - pose proof (Ho c1 Hc1) as Ho1. rewrite Ha in Ho1. injection Ho1 as ->.
    destruct Hcase as [[? _]|[[Hu _]|[Hq Hx]]]; [discriminate|by destruct Hu as [?|[?|?]]|].
    exists s1, b, c1, (RError "unknown command"). split; [reflexivity|]. split; [exact Hc1|]. split; [by apply Ho|]. split; [exact Hq|].
    intros evs s2 st' Hev Hr. destruct (Hx evs s2 st' Hev Hr) as (s3 & c2 & c3 & H1 & H2 & _ & H3 & H4 & H5).
    exists s3, c2, c3. split; [exact H1|]. split; [exact H2|]. split; [exact H3|]. split; [exact H4|exact H5].
Defined.

(** On a read only slave a SET inside of MULTI is refused, and yet EXEC carries out
    what was queued before it. *)
Lemma readonly_error_not_flagged :
  ∃ s1 b s2 : demo, ∃ x, processCommand (demo_status true) (demo_server ["set"; "x"; "y"]%string demo_multi 0 []) 1 = Some (s1, x) ∧
    b = s1 ∧ execCommand (demo_status false) s1 1 = Some s2 ∧ demo_out s1 1 = [RReadOnly] ∧ dbs s2 !! (0, ascii_text "k") = Some (ascii_text "w").
Proof.
  destruct (processCommand (demo_status true) (demo_server ["set"; "x"; "y"]%string demo_multi 0 []) 1) as [[s1 x]|] eqn:E; [|by vm_compute in E].
  assert (∀ B (f : demo → option B), ('(s1, _) ← processCommand (demo_status true) (demo_server ["set"; "x"; "y"]%string demo_multi 0 []) 1; f s1) = f s1) as Hf
    by (intros B f; by rewrite E).
  destruct (execCommand (demo_status false) s1 1) as [s2|] eqn:E2.
  2:{ pose proof (Hf _ (λ s1, execCommand (demo_status false) s1 1)) as Hx. cbv beta in Hx. rewrite E2 in Hx. by vm_compute in Hx. }
  exists s1, s1, s2, x. split; [done|]. split; [done|]. split; [done|]. split.
  - assert (Some (demo_out s1 1) = Some [RReadOnly]) as [=]; [|done]. rewrite <-(Hf _ (λ s1, Some (demo_out s1 1))). by vm_compute.
  - transitivity (s2 ← execCommand (demo_status false) s1 1; dbs s2 !! (0, ascii_text "k")); [by rewrite E2|].
    rewrite <-(Hf _ (λ s1, s2 ← execCommand (demo_status false) s1 1; dbs s2 !! (0, ascii_text "k"))). by vm_compute.
Qed.
